(* ===== verification/_CoqProject ===== *)
-Q . S2P
Prelude.v
F64.v
BlockBounds.v
Distribution.v
Arch.v
Alloc.v
LinearAlloc.v
BTreeAlloc.v
Rdma.v
RdmaSpec.v
Barrier.v
GlobalRwLock.v
Iterators.v
IndexedIterators.v
ScheduleRanges.v
Schedule.v
GlobalIter.v
LocalIterators.v
Consumers.v
OneSided.v
Darc.v
DarcBlock.v
Wire.v
ConcreteCodec.v
DirectMsg.v
ActiveMessages.v
AmInvariant.v
AmLife.v
BatchTasks.v
SimpleBatcher.v
TeamAmBatcher.v
CmdQueue.v
CmdQueueInv.v
CmdQueueHash.v
CmdQueueSpec.v
OpInput.v
Element.v
NativeAtomic.v
GenericAtomic.v
BatchOps.v
BatchOpsInv.v
BatchOpsSpec.v
