(* ===== verification/Prelude.v ===== *)
(** * A verification of the Lamellar runtime

    Lamellar is a distributed runtime in Rust: a program runs on a number of
    processing elements (PEs) that exchange active messages and share arrays and
    reference-counted objects.  This library models the runtime's own logic and
    proves it correct.  Paths are relative to [src/], the root of the repository;
    every definition carries the name of the Rust item it translates.

    ** The parts and their files

    - [Prelude] (this file): Rust's evaluation outcomes, checked and wrapping
      [usize] arithmetic, counting lemmas, hint databases.
    - [F64], [BlockBounds], [Distribution]: where the elements of an array live.
      [src/array/unsafe.rs] computes the boundaries of a block distribution in
      double precision; [F64] models the operations by exact rationals rounded to
      53 bits, [BlockBounds] shows that the boundaries partition the array all the
      same, [Distribution] has [UnsafeArray::new], [sub_array] and every index
      computation of [UnsafeArrayInner] for both layouts.
    - [Rdma], [RdmaSpec]: [src/array/unsafe/rdma.rs], the transfers between a
      buffer and the memory of all PEs, and what they do to it.
    - [Arch]: [src/lamellar_arch.rs], teams of PEs and the translation between
      the numbers of a PE in a team, in its parents and in the world.
    - [Alloc], [LinearAlloc], [BTreeAlloc]: [src/lamellar_alloc.rs].  [Alloc] is
      the contract of an allocator and the pool of allocators behind [rt_alloc]
      and [rt_free] ([src/lamellae/shmem/shmem_comm.rs]), proved against the
      contract only; the other two discharge it.
    - [Barrier]: [src/barrier.rs], the dissemination barrier of a team.
    - [Darc], [DarcBlock]: [src/darc.rs], the distributed reference counter: its
      counters, and the protocol in which all PEs agree that it can be freed.
    - [GlobalRwLock]: [src/darc/global_rw_darc.rs], the read-write lock whose
      state lives on PE 0.
    - [Iterators], [IndexedIterators], [ScheduleRanges], [Schedule], [GlobalIter], [LocalIterators],
      [Consumers], [OneSided]:
      [src/array/iterator/].  [Iterators] has distributed iterators, the adapters
      that do not look at indices and the laws of an iterator; [IndexedIterators]
      has Skip, StepBy, Take and Enumerate; [ScheduleRanges] and [Schedule] the schedules that share the
      local elements among threads; [GlobalIter] what a chain of adapters yields on
      all the PEs together; [LocalIterators] the iterators over the elements of one
      PE; [Consumers] count, sum, reduce and collect; [OneSided] the iterators by which one
      PE reads a whole array through a buffer.
    - [OpInput], [Element], [BatchOps], [BatchOpsInv], [BatchOpsSpec]: operations on
      elements, one or many at a time ([src/array/operations.rs],
      [src/array/unsafe/operations.rs] and the active messages generated by
      [impl/src/array_ops.rs]): [OpInput] cuts the inputs into pieces, [Element] is
      what an operation does to one element, [BatchOps] the tasks, buffers, messages
      and results; [BatchOpsInv] has the lemmas and [BatchOpsSpec] the theorems.
    - [NativeAtomic], [GenericAtomic]: [src/array/native_atomic.rs] and
      [src/array/generic_atomic.rs]: the elements of atomic arrays, as programs of
      atomic instructions and as cells behind a mutex.
    - [Wire], [ConcreteCodec], [DirectMsg], [BatchTasks], [SimpleBatcher],
      [TeamAmBatcher]: [src/active_messaging/]: the format of commands, commands
      that travel alone, and the two batchers.
    - [ActiveMessages], [AmInvariant], [AmLife]: the life of an active message.
      [ActiveMessages] has the launches of teams and task groups
      ([src/lamellar_team.rs], [src/lamellar_task_group.rs]), [process_msg] and
      the [exec_*] of [src/active_messaging/registered_active_message.rs], the
      completion of requests ([src/lamellar_request.rs]) and [wait_all], one load at
      a time, with [force_shutdown];
      [AmInvariant] what the results are and a lemma for every kind of step;
      [AmLife] the invariant and the theorems.
    - [CmdQueue], [CmdQueueInv], [CmdQueueHash], [CmdQueueSpec]: the command queue that carries
      serialised messages from one PE to another
      ([src/lamellae/command_queues.rs], with the reference counts of [ShmemData]).
      [CmdQueue] has the buffers, the slot and the tasks of both sides as steps;
      [CmdQueueInv] the invariant, one operation at a time; [CmdQueueHash] the
      messages whose hashes do not overflow; [CmdQueueSpec] the runs and the theorems.

    ** How they interact

    An array asks [Distribution] for the PE and offset of an index, in the numbering
    of its team, and [Rdma] turns a range of indices into one transfer per PE, for an
    array whose team is the world.  (On another team the code addresses active
    messages by [Arch]'s translation to the world, but direct transfers by the number
    in the team.)  An active message is serialised in the format of
    [Wire], alone or in a batch; a batch is filled by many tasks ([BatchTasks]) and
    read back by the receiver.  A message that carries a Darc moves the counters of
    [Darc]; [DarcBlock] uses of the barrier only that no PE leaves it before all
    have entered, which [Barrier] proves of the implementation.  [GlobalRwLock] runs
    its requests as active messages on PE 0.  Batches and single messages leave a PE
    through [CmdQueue].  A batched operation asks [Distribution] for the PE of every
    index and [OpInput] for its pieces; what it does to an element is a parameter
    ([Element.ElemExec]): plain, read-only, or native atomic ([NativeAtomic]).
    [GlobalIter] and [Consumers] put [Distribution], [IndexedIterators] and
    [Schedule] together; [OneSided] fills its buffers with the gets of [Rdma].  The interfaces are classes:
    [Alloc.Allocator], [Arch.LamellarArch], [Iterators.DistributedIterator] with
    [IterLaws], [Iterators.IndexedDistributedIterator] with [IndexedLaws],
    [OneSided.ArrayGet] with [ArrayGetLaws], [OneSided.OneSidedIterator],
    [Element.Dist] and [Element.ElemExec], [Wire.Codec] with [CodecLaws], [BatchTasks.BatchStore] with
    [BatchLaws].

    ** What the theorems show

    - Layout: an index and its PE and local offset determine each other, for
      arrays and sub-arrays, in spite of floating-point rounding; the local slices
      have the right length and stay inside the allocation; a sub-array aliases
      exactly the cells of its parent.
    - Transfers: a put writes exactly the cells of its range and a get reads
      them, in either layout, directly or through active messages in any order.
    - Teams: translation to the world and back is the identity on members, and
      the iterators enumerate exactly the members.
    - Allocators: the blocks handed out are aligned, disjoint, inside the region;
      nothing is lost when blocks are freed and merged, under every interleaving
      of the two critical sections of [BTreeAlloc].  The pool, one call at a time,
      hands out such a block, reports that memory has run out, or panics at a pool
      without a free byte; the theorem says when it does which.
    - Barrier: no PE leaves before all have entered, and every execution ends
      with all PEs outside.
    - Darc: the counters are exact in every reachable state; when those of a PE
      are zero nothing refers to its memory on its behalf; all PEs agree on the
      round in which the object is freed.
    - Lock: a writer excludes everybody, a collective writer is one per PE.
    - Iteration: no local element is consumed twice, under every schedule and every
      interleaving of the workers, and with [Static], [Dynamic] and [WorkStealing]
      every element is consumed.  With [Chunk] and [Guided] that holds of iterators
      that drop no element ([map], [collect] of it); a worker whose range yields
      nothing finishes, and ranges may be left over.  With the first three schedules,
      [enumerate], [skip], [take] and [step_by] over a distributed array do, on all the
      PEs together, what the sequential iterator does, and so do the adapters of local
      iterators on the elements of a PE, but for [skip]; [count], [sum] and [reduce]
      return what they return for the sequential iterator, and so does [collect] with any
      schedule.  A one-sided iterator shows every element in order, while its item is
      the last one.
    - Operations: a batched operation whose inputs are cut into their pieces (those of
      slices can lose elements) and that has as many indices as values, or one of
      either, is linearizable, element by element, and its results come back in the
      order of the input; on an [UnsafeArray], where an element is loaded and stored
      by separate steps, this takes different indices or an operation that only reads
      ([unsafe_updates_lost] otherwise).  The calls on a native atomic element are
      linearizable but for the shifts of [MyAtomic*], which are wrong, and end within
      a bounded number of interferences but for [compare_exchange_epsilon] of an
      element, which may spin for ever; they agree with the operations on plain
      memory.  Two views of a generic atomic array lock the same mutex for an element
      exactly when it is the same element.
    - Messages: what is serialised is what the receiver starts, the computed
      sizes are exact, and every command given to a batcher for one PE, or for the
      PEs of one team, is started once by each of its destinations and by no other PE.
    - Active messages: no interleaving of launches, executions, completions and
      dropped handles panics or uses a freed request; every run ends with every
      active message run once on each of its PEs; [get] yields what the bodies
      computed; [wait_all] returns only when what was launched before has run, or when
      the runtime is shutting down.
    - Command queue: no torn command is accepted, every message is received
      exactly once, buffers and messages are freed only when nobody reads them,
      and the queue can be emptied from every state, provided that
      [compare_exchange_weak] does not fail spuriously and no hash overflows; what
      happens when it does.

    Theorems about faults state what the code does instead ([btree_merge_incomplete],
    [btree_exhausted_panics], [get_unchecked_cyclic_wrong], [collective_write_deadlock],
    [darc_freed_in_use], [chunk_filter_misses], [unsafe_updates_lost],
    [my_atomic_shifts_wrong], [element_epsilon_spins], [lock_of_subarray_panics],
    [team_casts_mixed], [spurious_failure_strands], [unequal_lengths_mispair],
    [empty_load_uninitialised], [step_by_extra_element], [step_by_cyclic_wrong],
    [chunk_skip_misses], [step_by_loses_last], [local_skip_nothing],
    [zip_skip_misaligned], [local_step_by_twice], [chunks_extra_empty],
    [one_sided_skip_outside] and the other concrete runs in the
    files).

    ** Conventions and bounds

    [usize] has 64 bits.  Plain operators are checked: an overflow is a [Panic], so
    a theorem that a result is [Done] holds in builds with and without overflow
    checks.  Operations on [AtomicUsize] wrap ([wadd], [wsub]); where exactness
    needs it a theorem bounds the number of references or requests by 2^64.  Every
    atomic access is one step of an interleaving and memory is sequentially
    consistent ([SeqCst] is what the code uses).  Layouts are proved for
    arrays of [N <= 2^50] elements over [P <= N] PEs (the memory bounds for
    [N * P <= 2^50]), where the double-precision boundaries are exact enough;
    longer arrays do not fit the address space of a machine.  Recursion is structural or on
    explicit fuel: the retry loop of [malloc] has one unit of fuel per attempt
    and the theorem says when it returns; [BTreeAlloc.merge] uses the number of free blocks, each
    iteration of the code removing one; the search of a cyclic sub-array uses the
    number of PEs; the barrier's loops are steps of a relation, whose termination is
    proved.  Memory is indexed by elements, not bytes.  A transfer of the network
    takes effect in one step when its call or message completes; the puts of [Darc] and
    [DarcBlock] take effect in the step that issues them; those of the barrier travel
    and are delivered later; those of [CmdQueue] arrive word by word, in order for each
    word.

    A message of a batched operation takes effect one operation at a time, between
    which those of other messages may run: under the lock of the element or the
    array, or by atomic instructions.  On an [UnsafeArray] the load and the store of
    an element are two such steps.  A batched operation assumes that nothing else
    writes to the array meanwhile.  Whether integer
    overflow is checked is a class ([OverflowChecks]), environment variables and the
    bytes of padding are parameters, and a panic inside a message is the result
    [Panic] of the run.  A task of a batched operation that panics leaves the caller
    waiting, or panics on the thread of the caller if that runs it while it waits
    ([BatchOps.joins]); the panic hook of the world, which then shuts the runtime down,
    is not modelled.  [wait_all] of a team ends early when the runtime's panic flag is
    set, which [force_shutdown] may do at any time.  Positions of iterators are unbounded integers where the
    code adds positions of elements that fit in memory; [StepBy] divides in single
    precision, which [F64] models too and which is exact below 2^24 elements.
    The ranges of the schedules are computed in double precision for at most 2^50 local
    elements and fewer than 2^31 threads, the range of the loops' [i32] counters (2^24 for
    [Guided]).
    The agreement of native and plain operations leaves out the epsilon exchange,
    which differs.  The command queue adds addresses, sizes and words of a message with
    checked additions: that it can be emptied is proved for messages, buffers and
    addresses whose sums stay below 2^64 ([CmdQueueSpec.fits]).

    Bodies of active messages are functions of the PE and the message; that they
    return active messages only finitely often is a hypothesis ([Ranked]).

    Parameters: serialisation (bincode and the code the macros generate) is a class
    of encoders with the laws they document; the order in which a [HashMap] is
    iterated is an arbitrary permutation; closures given to iterators are functions;
    memory fresh from the allocator holds arbitrary contents.

    ** Not modelled

    The communication layers ([lamellae/rofi], [lamellae/shmem]) are foreign
    functions; the schedulers ([scheduler/]) are thread pools over third-party
    queues, and every task of the models may take its next step at any time; the procedural
    macros ([impl/]) run at compile time; [lamellar-prof], examples and tests are
    programs around the runtime.  Not modelled so far: the wrapper
    method of each element-wise operation and its request handle, the guards of
    lock arrays and the dispatch of [AtomicArray], the buffered one-sided
    iterators (commented out in the source) and the asynchronous consumers, creation and
    destruction of teams, typed groups of active messages, memory-region handles
    and [LocalRwDarc]; of the command queue the messages
    that agree on a new memory pool or spread a panic.  In
    [ActiveMessages] task groups outlive the run, and the state is that of the PE
    that launches: what other PEs launch at the same time does not touch it. *)

From stdpp Require Import base gmap sets list numbers fin_maps sorting relations.
From Stdlib Require Import ZArith Lia.

Declare Scope rust_scope.
Delimit Scope rust_scope with rust.
Local Open Scope Z_scope.

(** ** Rust evaluation outcomes

    A Rust expression either evaluates ([Done]) or panics ([Panic]): a failed
    assertion, an [unwrap] of [None], an index out of range, an arithmetic
    overflow (in builds with overflow checks), a division by zero. *)

Inductive outcome (A : Type) : Type :=
| Done (a : A)
| Panic.
Arguments Done {A} _.
Arguments Panic {A}.

Notation "'let!' x ':=' c1 'in' c2" :=
  (match c1 with Done x => c2 | Panic => Panic end)
  (at level 10, x pattern, c1 at level 100, c2 at level 200,
   format "'[v' 'let!'  x  ':='  c1  'in' '/' c2 ']'") : rust_scope.

Open Scope rust_scope.

Definition assert_ (b : bool) : outcome unit := if b then Done () else Panic.

Definition unwrap {A} (o : option A) : outcome A :=
  match o with Some a => Done a | None => Panic end.

(** ** [usize] arithmetic

    [usize] is 64 bits wide on the platforms the runtime supports.  The plain
    operators are checked, the operations on [AtomicUsize] wrap around. *)

Abbreviation USIZE := 18446744073709551616%Z.

Definition is_usize (x : Z) : bool := (0 <=? x) && (x <? USIZE).

Definition uadd (a b : Z) : outcome Z :=
  if a + b <? USIZE then Done (a + b) else Panic.
Definition usub (a b : Z) : outcome Z :=
  if b <=? a then Done (a - b) else Panic.
Definition umul (a b : Z) : outcome Z :=
  if a * b <? USIZE then Done (a * b) else Panic.
Definition udiv (a b : Z) : outcome Z :=
  if b =? 0 then Panic else Done (a / b).
Definition urem (a b : Z) : outcome Z :=
  if b =? 0 then Panic else Done (a mod b).

Definition wadd (a b : Z) : Z := (a + b) mod USIZE.
Definition wsub (a b : Z) : Z := (a - b) mod USIZE.

Lemma uadd_ok a b : a + b < USIZE -> uadd a b = Done (a + b).
Proof. intros H. unfold uadd. by rewrite (proj2 (Z.ltb_lt _ _) H). Qed.

Lemma usub_ok a b : b <= a -> usub a b = Done (a - b).
Proof. intros H. unfold usub. by rewrite (proj2 (Z.leb_le _ _) H). Qed.

Lemma umul_ok a b : a * b < USIZE -> umul a b = Done (a * b).
Proof. intros H. unfold umul. by rewrite (proj2 (Z.ltb_lt _ _) H). Qed.

Lemma udiv_ok a b : b <> 0 -> udiv a b = Done (a / b).
Proof. intros H. unfold udiv. by rewrite (proj2 (Z.eqb_neq _ _) H). Qed.

Lemma urem_ok a b : b <> 0 -> urem a b = Done (a mod b).
Proof. intros H. unfold urem. by rewrite (proj2 (Z.eqb_neq _ _) H). Qed.

Lemma wadd_ok a b : 0 <= a + b < USIZE -> wadd a b = a + b.
Proof. intros H. unfold wadd. by apply Z.mod_small. Qed.

Lemma wsub_ok a b : 0 <= a - b < USIZE -> wsub a b = a - b.
Proof. intros H. unfold wsub. by apply Z.mod_small. Qed.

Lemma uadd_inv a b c : uadd a b = Done c -> c = a + b /\ a + b < USIZE.
Proof. unfold uadd. destruct (Z.ltb_spec (a + b) USIZE); intros [=]; lia. Qed.

Lemma usub_inv a b c : usub a b = Done c -> c = a - b /\ b <= a.
Proof. unfold usub. destruct (Z.leb_spec b a); intros [=]; lia. Qed.

Lemma umul_inv a b c : umul a b = Done c -> c = a * b /\ a * b < USIZE.
Proof. unfold umul. destruct (Z.ltb_spec (a * b) USIZE); intros [=]; lia. Qed.

(** [urun] evaluates the checked operations of the goal whose side conditions
    [lia] proves. *)
Ltac urun1 :=
  match goal with
  | |- context [uadd ?a ?b] => rewrite (uadd_ok a b) by lia
  | |- context [usub ?a ?b] => rewrite (usub_ok a b) by lia
  | |- context [umul ?a ?b] => rewrite (umul_ok a b) by nia
  | |- context [udiv ?a ?b] => rewrite (udiv_ok a b) by lia
  | |- context [urem ?a ?b] => rewrite (urem_ok a b) by lia
  end.
Ltac urun := repeat (urun1; cbn beta iota).

(** [zbool] turns the boolean tests on integers of the goal into case
    distinctions on propositions and removes the contradictory cases. *)
Ltac zbool1 :=
  match goal with
  | |- context [Z.leb ?a ?b] => destruct (Z.leb_spec a b); cbn [andb orb negb]
  | |- context [Z.ltb ?a ?b] => destruct (Z.ltb_spec a b); cbn [andb orb negb]
  | |- context [Z.eqb ?a ?b] => destruct (Z.eqb_spec a b); cbn [andb orb negb]
  end.
Ltac zbool := repeat (zbool1; try (exfalso; lia)); try lia.

(** ** [isize]: the signed view of a [usize] and checked signed subtraction *)

Definition as_isize (x : Z) : Z := if x <? 9223372036854775808 then x else x - USIZE.
Definition isub (a b : Z) : outcome Z :=
  if (-9223372036854775808 <=? a - b) && (a - b <? 9223372036854775808)
  then Done (a - b) else Panic.

Lemma as_isize_ok x : x < 9223372036854775808 -> as_isize x = x.
Proof. intros H. unfold as_isize. zbool. Qed.

Lemma isub_ok a b :
  -9223372036854775808 <= a - b < 9223372036854775808 -> isub a b = Done (a - b).
Proof. intros H. unfold isub. zbool. reflexivity. Qed.

(** ** The [?] operator on an [Option] inside a computation that may panic *)
Notation "'let?' x ':=' c1 'in' c2" :=
  (match c1 with Done (Some x) => c2 | Done None => Done None | Panic => Panic end)
  (at level 10, x pattern, c1 at level 100, c2 at level 200,
   format "'[v' 'let?'  x  ':='  c1  'in' '/' c2 ']'") : rust_scope.

(** ** Rust's [Result] *)
Inductive result (A E : Type) : Type :=
| Ok (a : A)
| Err (e : E).
Arguments Ok {A E} _.
Arguments Err {A E} _.

(** The [?] operator on a [Result] inside a computation that may panic. *)
Notation "'let^' x ':=' c1 'in' c2" :=
  (match c1 with Done (Ok x) => c2 | Done (Err e) => Done (Err e) | Panic => Panic end)
  (at level 10, x pattern, c1 at level 100, c2 at level 200,
   format "'[v' 'let^'  x  ':='  c1  'in' '/' c2 ']'") : rust_scope.

(** ** Sums over lists

    The state of a concurrent component is a list of tasks or workers; its
    counters are sums of what every task contributes. *)

Fixpoint zsum {A} (f : A -> Z) (l : list A) : Z :=
  match l with [] => 0 | x :: l => f x + zsum f l end.

Section Sums.
Context {A : Type}.
Implicit Types (f g : A -> Z) (P : A -> bool) (l : list A).

Lemma zsum_cons f x l : zsum f (x :: l) = f x + zsum f l.
Proof. reflexivity. Qed.

Lemma zsum_app f l l' : zsum f (l ++ l') = zsum f l + zsum f l'.
Proof. induction l as [|x l IH]; cbn; [done|]. rewrite IH. lia. Qed.

Lemma zsum_insert f l i x y :
  l !! i = Some x -> zsum f (<[i := y]> l) = zsum f l - f x + f y.
Proof.
  revert i. induction l as [|u l IH]; intros [|i] Hi; cbn in *; simplify_eq; [lia|].
  pose proof (IH i Hi). unfold insert in *. lia.
Qed.

Lemma zsum_nonneg f l : (forall x, x ∈ l -> 0 <= f x) -> 0 <= zsum f l.
Proof.
  induction l as [|x l IH]; intros H; cbn; [lia|].
  pose proof (H x ltac:(left)). assert (0 <= zsum f l) by (apply IH; intros; apply H; by right). lia.
Qed.

Lemma zsum_lookup_nonneg f l : (forall i x, l !! i = Some x -> 0 <= f x) -> 0 <= zsum f l.
Proof. intros H. apply zsum_nonneg. intros x [i Hi]%list_elem_of_lookup. by apply (H i). Qed.

Lemma zsum_ext f g l : (forall x, x ∈ l -> f x = g x) -> zsum f l = zsum g l.
Proof.
  induction l as [|x l IH]; intros H; cbn; [done|].
  rewrite (H x), IH; [done| |by left]. intros y Hy. apply H. by right.
Qed.

Lemma zsum_map {B} (h : B -> A) f (l : list B) : zsum f (map h l) = zsum (fun x => f (h x)) l.
Proof. induction l as [|x l IH]; cbn; [done|]. by rewrite IH. Qed.

Lemma zsum_const c l : zsum (fun _ : A => c) l = Z.of_nat (length l) * c.
Proof. induction l as [|x l IH]; cbn [zsum length]; lia. Qed.

(** Changing the function at one point of a list without duplicates. *)
Lemma zsum_change f g p l :
  NoDup l -> p ∈ l -> (forall q, q <> p -> f q = g q) -> zsum f l - f p = zsum g l - g p.
Proof.
  intros Hnd Hin E. induction Hnd as [|x l Hx Hnd IH]; [by apply elem_of_nil in Hin|]. cbn.
  apply elem_of_cons in Hin as [->|Hin].
  - rewrite (zsum_ext f g l); [lia|]. intros y Hy. apply E. by intros ->.
  - rewrite (E x) by (by intros ->). specialize (IH Hin). lia.
Qed.

Lemma zsum_sub f g l : zsum (fun x => f x - g x) l = zsum f l - zsum g l.
Proof. induction l as [|x l IH]; cbn; lia. Qed.

Lemma zsum_delete f l i x : l !! i = Some x -> zsum f (delete i l) = zsum f l - f x.
Proof.
  revert i. induction l as [|u l IH]; intros [|i] Hi; cbn in *; simplify_eq; [lia|].
  pose proof (IH i Hi). unfold delete in *. lia.
Qed.

Lemma zsum_lookup_le f l i x :
  (forall x, x ∈ l -> 0 <= f x) -> l !! i = Some x -> f x <= zsum f l.
Proof.
  intros H Hi. pose proof (zsum_delete f l i x Hi).
  assert (0 <= zsum f (delete i l)); [|lia].
  apply zsum_nonneg. intros y Hy. apply H. apply list_elem_of_lookup in Hy as [j Hj].
  rewrite list_lookup_delete in Hj. case_decide; by eapply list_elem_of_lookup_2.
Qed.

#[global] Instance zsum_perm f : Proper (Permutation ==> eq) (zsum f).
Proof. intros l l' Hl. induction Hl; cbn; lia. Qed.

Lemma zsum_flat_map {B} (f : B -> Z) (g : A -> list B) l :
  zsum f (flat_map g l) = zsum (fun x => zsum f (g x)) l.
Proof.
  induction l as [|x l IH]; cbn; [done|]. rewrite <- IH. clear. induction (g x); cbn; lia.
Qed.

Lemma zsum_elem_le f l x : (forall y, y ∈ l -> 0 <= f y) -> x ∈ l -> f x <= zsum f l.
Proof. intros H [i Hi]%list_elem_of_lookup. by apply (zsum_lookup_le f l i). Qed.

Lemma zsum_mono f g l : (forall x, x ∈ l -> f x <= g x) -> zsum f l <= zsum g l.
Proof.
  induction l as [|x l IH]; intros H; cbn; [lia|].
  pose proof (H x ltac:(left)). assert (zsum f l <= zsum g l) by (apply IH; intros; apply H; by right). lia.
Qed.

(** The number of elements with a property. *)
Definition zcount P l : Z := zsum (fun x => Z.b2z (P x)) l.

Lemma zcount_nil P : zcount P [] = 0.
Proof. reflexivity. Qed.

Lemma zcount_cons P x l : zcount P (x :: l) = Z.b2z (P x) + zcount P l.
Proof. reflexivity. Qed.

Lemma zcount_insert P l i x y :
  l !! i = Some x -> zcount P (<[i := y]> l) = zcount P l - Z.b2z (P x) + Z.b2z (P y).
Proof. apply zsum_insert. Qed.

Lemma zcount_app P l l' : zcount P (l ++ l') = zcount P l + zcount P l'.
Proof. apply zsum_app. Qed.

Lemma zcount_bounds P l : 0 <= zcount P l <= Z.of_nat (length l).
Proof. unfold zcount. induction l as [|x l IH]; cbn; [done|]. destruct (P x); cbn; lia. Qed.

Lemma zcount_pos P l i x : l !! i = Some x -> P x = true -> 0 < zcount P l.
Proof.
  intros Hi HP. assert (Z.b2z (P x) <= zcount P l); [|rewrite HP in *; cbn in *; lia].
  apply (zsum_lookup_le (fun x => Z.b2z (P x)) l i x); [|done]. intros y _. by destruct (P y).
Qed.

Lemma zcount_0 P l i x : zcount P l = 0 -> l !! i = Some x -> P x = false.
Proof. intros H Hi. destruct (P x) eqn:E; [|done]. pose proof (zcount_pos P l i x Hi E). lia. Qed.
End Sums.
Arguments zcount : simpl never.

Lemma zsum_indicator (p : Z) l : NoDup l -> p ∈ l -> zsum (fun q => Z.b2z (q =? p)) l = 1.
Proof.
  intros Hnd Hp. pose proof (zsum_change (fun q => Z.b2z (q =? p)) (fun _ => 0) p l Hnd Hp) as H.
  rewrite zsum_const in H. cbn in H. rewrite Z.eqb_refl in H. cbn in H. rewrite Z.mul_0_r in H.
  rewrite <- (Z.add_0_r 1), <- (Z.sub_simpl_r (zsum _ _) 1), H; [lia|].
  intros q Hq. by rewrite (proj2 (Z.eqb_neq _ _) Hq).
Qed.

Lemma zsum_replace {A} (f : A -> Z) l i x ys :
  l !! i = Some x -> zsum f (take i l ++ ys ++ drop (S i) l) = zsum f l - f x + zsum f ys.
Proof.
  intros Hi. rewrite <- (take_drop_middle l i x Hi) at 3. rewrite !zsum_app, zsum_cons. lia.
Qed.

Lemma perm_shuffle {A} (d a p c b : list A) :
  d ++ (a ++ p ++ c) ++ b ≡ₚ (a ++ c) ++ (d ++ p ++ b).
Proof.
  rewrite <- !app_assoc. etrans; [apply Permutation_app_swap_app|]. f_equiv.
  rewrite !(app_assoc d p). apply Permutation_app_swap_app.
Qed.

(** ** Termination by an integer measure that an invariant bounds *)
Lemma sn_measure {S} (R : relation S) (I : S -> Prop) (m : S -> Z) :
  (forall s, I s -> 0 <= m s) -> (forall s s', I s -> R s s' -> I s' /\ m s' < m s) ->
  forall s, I s -> sn R s.
Proof.
  intros H0 H s Hs. remember (m s) as k eqn:Ek. revert s Hs Ek.
  induction k as [k IH] using (well_founded_induction (Z.lt_wf 0)). intros s Hs ->.
  constructor. intros s' Hstep. destruct (H s s' Hs Hstep) as [Hs' Hlt].
  pose proof (H0 s' Hs'). eapply IH; [|exact Hs'|reflexivity]. lia.
Qed.

(** ** Functions changed at one point: the memories indexed by PE *)
Definition upd {A} (f : Z -> A) (x : Z) (v : A) : Z -> A := fun y => if y =? x then v else f y.

Lemma upd_eq {A} (f : Z -> A) x v : upd f x v x = v.
Proof. unfold upd. by rewrite Z.eqb_refl. Qed.
Lemma upd_ne {A} (f : Z -> A) x y v : y <> x -> upd f x v y = f y.
Proof. intros H. unfold upd. by rewrite (proj2 (Z.eqb_neq _ _) H). Qed.

(** ** Equality modulo the width of [usize]

    The atomic counters wrap around: what they count, they count modulo 2^64. *)
Definition eqmod (a b : Z) : Prop := a mod USIZE = b mod USIZE.
Infix "≡ᵤ" := eqmod (at level 70) : rust_scope.

#[global] Instance eqmod_equiv : Equivalence eqmod.
Proof. split; unfold eqmod; repeat intro; congruence. Qed.
#[global] Instance eqmod_add : Proper (eqmod ==> eqmod ==> eqmod) Z.add.
Proof. intros a a' Ha b b' Hb. unfold eqmod in *. by rewrite Zplus_mod, Ha, Hb, <- Zplus_mod. Qed.
#[global] Instance eqmod_sub : Proper (eqmod ==> eqmod ==> eqmod) Z.sub.
Proof. intros a a' Ha b b' Hb. unfold eqmod in *. by rewrite Zminus_mod, Ha, Hb, <- Zminus_mod. Qed.
#[global] Instance eqmod_mul : Proper (eqmod ==> eqmod ==> eqmod) Z.mul.
Proof. intros a a' Ha b b' Hb. unfold eqmod in *. by rewrite Zmult_mod, Ha, Hb, <- Zmult_mod. Qed.

Lemma wadd_eqmod a b : wadd a b ≡ᵤ a + b.
Proof. unfold eqmod, wadd. by rewrite Zmod_mod. Qed.
Lemma wsub_eqmod a b : wsub a b ≡ᵤ a - b.
Proof. unfold eqmod, wsub. by rewrite Zmod_mod. Qed.
Lemma eqmod_eq a b : a = b -> a ≡ᵤ b.
Proof. by intros ->. Qed.
Lemma eqmod_mod a b : a ≡ᵤ b -> 0 <= a < USIZE -> a = b mod USIZE.
Proof. intros H Ha. rewrite <- H. symmetry. by apply Z.mod_small. Qed.
Lemma eqmod_small a b : a ≡ᵤ b -> 0 <= a < USIZE -> 0 <= b < USIZE -> a = b.
Proof. intros H Ha Hb. rewrite (eqmod_mod a b) by done. by apply Z.mod_small. Qed.
Lemma wadd_range a b : 0 <= wadd a b < USIZE.
Proof. by apply Z.mod_pos_bound. Qed.
Lemma wsub_range a b : 0 <= wsub a b < USIZE.
Proof. by apply Z.mod_pos_bound. Qed.

(** ** Schedules

    A schedule names the thread that takes each step; [own_steps i] counts those of
    thread [i]. *)
Definition own_steps (i : nat) (sched : list nat) : nat := length (filter (eq i) sched).

Lemma own_steps_cons i j sched :
  own_steps i (j :: sched) = ((if decide (i = j) then 1 else 0) + own_steps i sched)%nat.
Proof. unfold own_steps. cbn. by destruct (decide (i = j)). Qed.

Lemma own_steps_snoc i j sched :
  own_steps i (sched ++ [j]) = (own_steps i sched + if decide (i = j) then 1 else 0)%nat.
Proof. unfold own_steps. rewrite filter_app, length_app. f_equal. cbn. by destruct (decide (i = j)). Qed.

(** ** Constants of [src/active_messaging.rs] *)
Definition BATCH_AM_SIZE : Z := 100000.

(** ** Hint databases

    [sums] rewrites a sum over a list that was built by [::] and [++];
    [eqmod] rewrites the wrapping operations; [rust] resolves the side
    conditions of the checked operations. *)
Create HintDb sums discriminated.
Create HintDb rust discriminated.
#[export] Hint Rewrite @zsum_cons @zsum_app @zcount_nil @zcount_cons @zcount_app : sums.
#[export] Hint Rewrite wadd_eqmod wsub_eqmod : eqmod.
#[export] Hint Resolve uadd_ok usub_ok umul_ok udiv_ok urem_ok wadd_ok wsub_ok : rust.
#[export] Hint Resolve wadd_range wsub_range : rust.
#[export] Hint Extern 3 (@eq Z _ _) => lia : rust.
#[export] Hint Extern 3 (_ < _) => lia : rust.
#[export] Hint Extern 3 (_ <= _) => lia : rust.
#[export] Hint Extern 3 (_ <= _ < _) => lia : rust.
