(* ===== verification/F64.v ===== *)
(** * F64: the double-precision arithmetic the array layout uses

    [src/array/unsafe.rs] computes the boundaries of a block distribution with
    [f64] arithmetic: [usize as f64], [/], [*], [floor], [round], [ceil] and
    [as usize].  All values are finite, non-negative and in the normal range, so
    a double is modelled by the rational it denotes and every operation is the
    exact operation followed by [fl64], rounding to the nearest 53-bit significand
    with ties to even.  The file proves the two facts the layout proofs use: the
    relative error of [fl64] is at most 2^-53, and integers below 2^53 are exact. *)

From Stdlib Require Import ZArith QArith Qround Qabs Qpower Lqa Lia SpecFloat List.
Import ListNotations.
From S2P Require Import Prelude.
Local Open Scope Q_scope.

(** ** Rounding *)

Definition round_half_even (x : Q) : Z :=
  let f := Qfloor x in
  match Qcompare (x - inject_Z f) (1 # 2) with
  | Lt => f
  | Gt => (f + 1)%Z
  | Eq => if Z.even f then f else (f + 1)%Z
  end.

(** The exponent of the unit in the last place of a positive rational, for significands
    of [p] bits. *)
Definition flt_exp (p : Z) (x : Q) : Z :=
  let e := (Z.log2 (Qnum x) - Z.log2 (Zpos (Qden x)) - p)%Z in
  if Qle_bool (inject_Z (2 ^ p)) (x * 2 ^ (- e)) then (e + 1)%Z else e.

(** The nearest number with a significand of [p] bits. *)
Definition flt (p : Z) (x0 : Q) : Q :=
  let x := Qred x0 in
  if Qle_bool x 0 then 0
  else
    let e := flt_exp p x in
    Qred (inject_Z (round_half_even (x * 2 ^ (- e))) * 2 ^ e).

Definition fl64 : Q -> Q := flt 53.

(** ** The operations *)

Definition f64_of_usize (z : Z) : Q := fl64 (inject_Z z).
Definition f64_div (a b : Q) : Q := fl64 (a / b).
Definition f64_mul (a b : Q) : Q := fl64 (a * b).

(** [f64::floor], [f64::ceil] and [f64::round] (half away from zero) of a
    non-negative double, as integers. *)
Definition f64_floor (x : Q) : Z := Qfloor x.
Definition f64_ceil (x : Q) : Z := Qceiling x.
Definition f64_round (x : Q) : Z := Qfloor (x + (1 # 2)).

(** The saturating cast [as usize] of an integral double. *)
Definition as_usize (z : Z) : Z := Z.min (Z.max z 0) (USIZE - 1).

Lemma as_usize_id z : (0 <= z < USIZE)%Z -> as_usize z = z.
Proof. unfold as_usize. lia. Qed.

(** ** Facts on powers of two and on rounding *)

Lemma pow2_pos e : 0 < 2 ^ e.
Proof. apply Qpower_0_lt. reflexivity. Qed.

Lemma pow2_inv e : 2 ^ (- e) * 2 ^ e == 1.
Proof. rewrite <- Qpower_plus by discriminate. rewrite Z.add_opp_diag_l. reflexivity. Qed.

Lemma pow2_inject n : (0 <= n)%Z -> 2 ^ n == inject_Z (2 ^ n).
Proof. intros Hn. rewrite Zpower_Qpower by assumption. reflexivity. Qed.

Lemma Qfloor_bounds x : inject_Z (Qfloor x) <= x /\ x < inject_Z (Qfloor x) + 1.
Proof.
  split; [apply Qfloor_le|]. pose proof (Qlt_floor x) as H.
  rewrite inject_Z_plus in H. exact H.
Qed.

Lemma Qfloor_unique x z : inject_Z z <= x -> x < inject_Z z + 1 -> Qfloor x = z.
Proof.
  intros H1 H2. destruct (Qfloor_bounds x) as [H3 H4].
  assert (A : inject_Z z < inject_Z (Qfloor x + 1)) by (rewrite inject_Z_plus; change (inject_Z 1) with 1; lra).
  assert (B : inject_Z (Qfloor x) < inject_Z (z + 1)) by (rewrite inject_Z_plus; change (inject_Z 1) with 1; lra).
  rewrite <- Zlt_Qlt in A, B. lia.
Qed.

Lemma round_half_even_err x :
  x - (1 # 2) <= inject_Z (round_half_even x) /\ inject_Z (round_half_even x) <= x + (1 # 2).
Proof.
  unfold round_half_even. destruct (Qfloor_bounds x) as [H1 H2].
  destruct (Qcompare_spec (x - inject_Z (Qfloor x)) (1 # 2)) as [C|C|C];
    try destruct (Z.even _); rewrite ?inject_Z_plus; change (inject_Z 1) with 1; split; lra.
Qed.

Lemma round_half_even_int x z : x == inject_Z z -> round_half_even x = z.
Proof.
  intros H. unfold round_half_even.
  assert (E : Qfloor x = z) by (apply Qfloor_unique; lra).
  rewrite E. pose proof (proj1 (Qlt_alt (x - inject_Z z) (1 # 2))) as L.
  rewrite L; [reflexivity|lra].
Qed.

Lemma Qlt_inject_lt a b : inject_Z a < inject_Z b <-> (a < b)%Z.
Proof. rewrite Zlt_Qlt. reflexivity. Qed.

Lemma Qle_inject_le a b : inject_Z a <= inject_Z b <-> (a <= b)%Z.
Proof. rewrite Zle_Qle. reflexivity. Qed.

Lemma Qlt_inject_inv a b : inject_Z a < inject_Z b -> (a < b)%Z.
Proof. apply Qlt_inject_lt. Qed.

Lemma Qceiling_unique x z : inject_Z z - 1 < x -> x <= inject_Z z -> Qceiling x = z.
Proof.
  intros H1 H2. unfold Qceiling. rewrite (Qfloor_unique (- x) (- z)); [lia| |];
    rewrite inject_Z_opp; lra.
Qed.

(** The scaled significand of a positive number has at least 53 bits. *)
Lemma log2_ratio x :
  0 < x -> 2 ^ (Z.log2 (Qnum x) - Z.log2 (Zpos (Qden x)) - 1) < x
        /\ x < 2 ^ (Z.log2 (Qnum x) - Z.log2 (Zpos (Qden x)) + 1).
Proof.
  destruct x as [n d]. intros Hx. unfold Qlt in Hx. cbn [Qnum Qden] in *.
  assert (Hn : (0 < n)%Z) by lia. clear Hx.
  destruct (Z.log2_spec n Hn) as [N1 N2].
  destruct (Z.log2_spec (Zpos d) ltac:(lia)) as [D1 D2].
  pose proof (Z.log2_nonneg n) as Ln. pose proof (Z.log2_nonneg (Zpos d)) as Ld.
  set (a := Z.log2 n) in *. set (b := Z.log2 (Zpos d)) in *.
  rewrite <- Z.add_1_r in N2, D2. rewrite Z.pow_add_r in N2, D2 by lia.
  assert (Ea : 2 ^ (a - b - 1) * (2 ^ b * 2) == 2 ^ a).
  { change 2 with (2 ^ 1) at 3. rewrite <- !Qpower_plus by discriminate. f_equiv. lia. }
  assert (Eb : 2 ^ (a - b + 1) * 2 ^ b == 2 ^ a * 2).
  { change 2 with (2 ^ 1) at 4. rewrite <- !Qpower_plus by discriminate. f_equiv. lia. }
  rewrite (pow2_inject a), (pow2_inject b) in Ea, Eb by lia.
  assert (Ex : n # d == inject_Z n / inject_Z (Zpos d)) by (rewrite (Qmake_Qdiv n d); reflexivity).
  assert (Hd : 0 < inject_Z (Zpos d)) by reflexivity.
  apply Qle_inject_le in N1, D1. apply Qlt_inject_lt in N2, D2.
  rewrite inject_Z_mult in N2, D2. change (inject_Z (2 ^ 1)) with 2 in N2, D2.
  pose proof (pow2_pos (a - b - 1)) as P1. pose proof (pow2_pos (a - b + 1)) as P2.
  rewrite Ex. split.
  - apply Qlt_shift_div_l; [assumption|].
    apply (proj2 (Qmult_lt_l _ _ _ P1)) in D2. lra.
  - apply Qlt_shift_div_r; [assumption|].
    apply (proj2 (Qmult_le_l _ _ _ P2)) in D1. lra.
Qed.

Section Precision.
Context (p : Z) (Hp : (0 < p)%Z).

(** The least significand, and the unit of the relative error. *)
Local Abbreviation M := (inject_Z (2 ^ (p - 1))).
Definition ulp : Q := / (2 * inject_Z (2 ^ p)).

Lemma pow_p : inject_Z (2 ^ p) == 2 * M /\ 1 <= M.
Proof.
  split.
  - change 2 with (inject_Z 2). rewrite <- inject_Z_mult. f_equiv.
    rewrite <- Z.pow_succ_r by lia. f_equal. lia.
  - change 1 with (inject_Z 1). apply Qle_inject_le. pose proof (Z.pow_pos_nonneg 2 (p - 1)). lia.
Qed.

Lemma flt_exp_spec x : 0 < x -> M <= x * 2 ^ (- flt_exp p x) /\ x * 2 ^ (- flt_exp p x) < inject_Z (2 ^ p).
Proof.
  intros Hx. destruct (log2_ratio x Hx) as [L U]. destruct pow_p as [E2p HM]. unfold flt_exp.
  set (c := (Z.log2 (Qnum x) - Z.log2 (Zpos (Qden x)))%Z) in *.
  assert (E1 : 2 ^ (c - 1) * 2 ^ (- (c - p)) == M).
  { rewrite <- Qpower_plus by discriminate. rewrite <- pow2_inject by lia. f_equiv. lia. }
  assert (E2 : 2 ^ (c + 1) * 2 ^ (- (c - p)) == 4 * M).
  { rewrite <- Qpower_plus by discriminate. rewrite <- pow2_inject by lia.
    change 4 with (2 ^ 2). rewrite <- Qpower_plus by discriminate. f_equiv. lia. }
  pose proof (pow2_pos (- (c - p))) as P.
  apply (proj2 (Qmult_lt_r _ _ _ P)) in L. apply (proj2 (Qmult_lt_r _ _ _ P)) in U.
  rewrite E1 in L. rewrite E2 in U.
  destruct (Qle_bool _ _) eqn:C.
  - apply Qle_bool_iff in C.
    assert (E3 : x * 2 ^ (- (c - p + 1)) == x * 2 ^ (- (c - p)) * (1 # 2)).
    { rewrite <- Qmult_assoc. f_equiv. change (1 # 2) with (2 ^ (-1)).
      rewrite <- Qpower_plus by discriminate. f_equiv. lia. }
    rewrite E3. split; lra.
  - assert (~ inject_Z (2 ^ p) <= x * 2 ^ (- (c - p)))
      by (intros H; apply Qle_bool_iff in H; congruence).
    split; lra.
Qed.

Lemma ulp_spec : ulp * (4 * M) == 1 /\ 0 < ulp.
Proof.
  destruct pow_p as [E2p HM]. unfold ulp. rewrite E2p. split; [field; lra|].
  apply Qinv_lt_0_compat. lra.
Qed.

(** ** Relative error and exactness *)

Lemma flt_err x : 0 < x -> x * (1 - 2 * ulp) <= flt p x /\ flt p x <= x * (1 + 2 * ulp).
Proof.
  intros Hx0. unfold flt. pose proof (Qred_correct x) as Er. destruct ulp_spec as [Eu Hu].
  set (y := Qred x) in *. assert (Hx : 0 < y) by lra.
  destruct (Qle_bool y 0) eqn:C; [apply Qle_bool_iff in C; lra|]. clear C.
  destruct (flt_exp_spec y Hx) as [L _]. set (e := flt_exp p y) in *.
  destruct (round_half_even_err (y * 2 ^ (- e))) as [E1 E2].
  set (m := inject_Z (round_half_even (y * 2 ^ (- e)))) in *.
  rewrite Qred_correct. pose proof (pow2_inv e) as I. pose proof (pow2_pos e) as P.
  assert (Em : y * 2 ^ (- e) * 2 ^ e == y) by (rewrite <- Qmult_assoc, I; ring).
  apply (proj2 (Qmult_le_r _ _ _ P)) in E1, E2, L.
  rewrite Em in L. assert (K : 2 ^ e <= y * (4 * ulp)).
  { apply (proj2 (Qmult_le_l _ _ ulp Hu)) in L.
    assert (E4 : ulp * (M * 2 ^ e) == (1 # 4) * 2 ^ e).
    { transitivity ((1 # 4) * (ulp * (4 * M)) * 2 ^ e); [ring|]. rewrite Eu. ring. }
    rewrite E4 in L. lra. }
  assert (D1 : y - (1 # 2) * 2 ^ e <= m * 2 ^ e) by (lra).
  assert (D2 : m * 2 ^ e <= y + (1 # 2) * 2 ^ e) by (lra).
  assert (Ex : x * ulp == y * ulp) by (rewrite Er; reflexivity).
  split; lra.
Qed.

Lemma flt_compat x y : x == y -> flt p x = flt p y.
Proof. intros E. unfold flt. rewrite (Qred_complete _ _ E). reflexivity. Qed.

Lemma flt_0 x : x == 0 -> flt p x = 0.
Proof.
  intros H. unfold flt. assert (E : Qle_bool (Qred x) 0 = true).
  { apply Qle_bool_iff. rewrite Qred_correct. lra. }
  rewrite E. reflexivity.
Qed.

Lemma flt_int x z : x == inject_Z z -> (0 <= z < 2 ^ p)%Z -> flt p x == inject_Z z.
Proof.
  intros Ez Hz. destruct (Z.eq_dec z 0) as [->|Hz0]; [rewrite flt_0; [reflexivity|exact Ez]|].
  assert (Hx : 0 < inject_Z z) by (change 0 with (inject_Z 0); apply Qlt_inject_lt; lia).
  unfold flt. rewrite (Qred_complete _ _ Ez).
  pose proof (Qred_correct (inject_Z z)) as Er. set (y := Qred (inject_Z z)) in *.
  destruct (Qle_bool y 0) eqn:C; [apply Qle_bool_iff in C; lra|].
  destruct (flt_exp_spec y ltac:(lra)) as [L _]. set (e := flt_exp p y) in *.
  rewrite Qred_correct. destruct pow_p as [E2p HM].
  assert (He : (e <= 0)%Z).
  { destruct (Z_le_gt_dec e 0); [assumption|exfalso].
    assert (H2 : 2 ^ 1 <= 2 ^ e) by (apply Qpower_le_compat_l; [lia|lra]).
    pose proof (pow2_inv e) as I. pose proof (pow2_pos (- e)) as P.
    assert (Hz' : y < inject_Z (2 ^ p)) by (rewrite Er; apply Qlt_inject_lt; lia).
    change (2 ^ 1) with 2 in H2.
    assert (Q : 2 ^ (- e) <= 1 # 2) by nra. nra. }
  rewrite (round_half_even_int _ (z * 2 ^ (- e))).
  - rewrite inject_Z_mult, <- pow2_inject by lia. rewrite <- Qmult_assoc, pow2_inv. ring.
  - rewrite inject_Z_mult, <- pow2_inject by lia. rewrite Er. reflexivity.
Qed.
End Precision.

(** *** Doubles *)

Definition ulp_rel : Q := 1 # 9007199254740992.

Lemma fl64_err x : 0 < x -> x * (1 - ulp_rel) <= fl64 x /\ fl64 x <= x * (1 + ulp_rel).
Proof.
  intros Hx. pose proof (flt_err 53 eq_refl x Hx) as H.
  change (2 * ulp 53) with (2 # 18014398509481984) in H. unfold ulp_rel, fl64. lra.
Qed.

Lemma fl64_pos x : 0 < x -> 0 < fl64 x.
Proof. intros H. destruct (fl64_err x H). unfold ulp_rel in *. lra. Qed.

Lemma fl64_0 x : x == 0 -> fl64 x = 0.
Proof. exact (flt_0 53 x). Qed.

Lemma fl64_int x z : x == inject_Z z -> (0 <= z < 2 ^ 53)%Z -> fl64 x == inject_Z z.
Proof. exact (flt_int 53 eq_refl x z). Qed.

Lemma fl64_compat x y : x == y -> fl64 x = fl64 y.
Proof. exact (flt_compat 53 x y). Qed.

(** ** Agreement with the Standard Library's executable IEEE 754 arithmetic

    [SpecFloat] is an independent implementation of binary64; the check compares
    division and multiplication on a grid of operands and on large ones. *)

Definition sf64_of_Z (z : Z) : spec_float := binary_normalize 53 1024 z 0 false.
Definition sf64_to_Q (f : spec_float) : Q :=
  match f with
  | S754_finite false m e => Qred (inject_Z (Zpos m) * 2 ^ e)
  | _ => 0
  end.

Definition agrees_with_spec_float (n p : Z) : bool :=
  let d := SFdiv 53 1024 (sf64_of_Z n) (sf64_of_Z p) in
  let q := f64_div (f64_of_usize n) (f64_of_usize p) in
  Qeq_bool q (sf64_to_Q d)
  && Qeq_bool (f64_mul q (f64_of_usize (p + 1)))
       (sf64_to_Q (SFmul 53 1024 d (sf64_of_Z (p + 1)))).

Example fl64_agrees_small :
  forallb (fun n => forallb (fun p => agrees_with_spec_float (Z.of_nat n) (Z.of_nat p))
                      (seq 1 24)) (seq 1 60) = true.
Proof. vm_compute. reflexivity. Qed.

Example fl64_agrees_large :
  forallb (fun np => agrees_with_spec_float (fst np) (snd np))
    [(9007199254740993, 3); (18446744073709551615, 7); (1000000007, 998244353);
     (123456789012345678, 1000003); (4503599627370497, 2)]%Z = true.
Proof. vm_compute. reflexivity. Qed.
