(* ===== verification/BlockBounds.v ===== *)
(** * BlockBounds: the boundaries of a block distribution, in double precision

    A block distribution of [N] elements over [P] PEs puts the elements
    [boundary p .. boundary (p+1)) on PE [p], with
    [boundary p = (N as f64 / P as f64 * p as f64).round()].  The boundaries are
    shown to partition [0..N) despite the rounding of the two operations, for every
    array the address space can hold in practice ([N <= 2^50]). *)

From Stdlib Require Import ZArith QArith Qround Lqa Lia.
From S2P Require Import Prelude F64.
Local Open Scope Q_scope.

(** [usize] counters up to [2^53] convert to [f64] exactly. *)
Lemma f64_of_usize_exact z : (0 <= z < 2 ^ 53)%Z -> f64_of_usize z == inject_Z z.
Proof. intros H. apply fl64_int; [reflexivity|assumption]. Qed.

Lemma f64_of_usize_0 : f64_of_usize 0 = 0.
Proof. reflexivity. Qed.

Lemma f64_round_le x z : x < inject_Z z + (1 # 2) -> (f64_round x <= z)%Z.
Proof.
  intros H. unfold f64_round. destruct (Qfloor_bounds (x + (1 # 2))) as [L _].
  assert (A : inject_Z (Qfloor (x + (1 # 2))) < inject_Z (z + 1)).
  { rewrite inject_Z_plus. change (inject_Z 1) with 1. lra. }
  apply Qlt_inject_inv in A. lia.
Qed.

Lemma f64_round_ge x z : inject_Z z - (1 # 2) <= x -> (z <= f64_round x)%Z.
Proof.
  intros H. unfold f64_round. destruct (Qfloor_bounds (x + (1 # 2))) as [_ U].
  assert (A : inject_Z z < inject_Z (Qfloor (x + (1 # 2)) + 1)).
  { rewrite inject_Z_plus. change (inject_Z 1) with 1. lra. }
  apply Qlt_inject_inv in A. lia.
Qed.

Lemma f64_round_mono x y : x <= y -> (f64_round x <= f64_round y)%Z.
Proof. intros H. apply Qfloor_resp_le. lra. Qed.

Section Boundaries.
Context (N P : Z).
Hypothesis HP : (0 < P <= N)%Z.
Hypothesis HN : (N <= 2 ^ 50)%Z.

Definition elem_per_pe : Q := f64_div (f64_of_usize N) (f64_of_usize P).
Definition boundary (p : Z) : Z := f64_round (f64_mul elem_per_pe (f64_of_usize p)).

Let u := ulp_rel.

Lemma P_pos : 0 < inject_Z P.
Proof. change 0 with (inject_Z 0). apply Qlt_inject_lt. lia. Qed.

Lemma P_le_N : inject_Z P <= inject_Z N.
Proof. apply Qle_inject_le. lia. Qed.

Lemma N_bound : inject_Z N <= 1125899906842624 # 1.
Proof. change (1125899906842624 # 1) with (inject_Z (2 ^ 50)). apply Qle_inject_le. lia. Qed.

Lemma ratio_eq : f64_of_usize N / f64_of_usize P == inject_Z N / inject_Z P.
Proof. rewrite !f64_of_usize_exact by lia. reflexivity. Qed.

Lemma ratio_ge_1 : 1 <= inject_Z N / inject_Z P.
Proof. apply Qle_shift_div_l; [apply P_pos|]. pose proof P_le_N. lra. Qed.

Lemma elem_per_pe_err :
  inject_Z N / inject_Z P * (1 - u) <= elem_per_pe
  /\ elem_per_pe <= inject_Z N / inject_Z P * (1 + u).
Proof.
  pose proof ratio_ge_1. destruct (fl64_err (f64_of_usize N / f64_of_usize P)) as [A B].
  - rewrite ratio_eq. lra.
  - unfold elem_per_pe, f64_div. rewrite ratio_eq in A at 1. rewrite ratio_eq in B at 2.
    split; assumption.
Qed.

(** The error of [elem_per_pe * P], free of divisions. *)
Lemma elem_per_pe_P :
  inject_Z N * (1 - u) <= elem_per_pe * inject_Z P
  /\ elem_per_pe * inject_Z P <= inject_Z N * (1 + u).
Proof.
  destruct elem_per_pe_err as [A B]. pose proof P_pos as Hp.
  assert (E : inject_Z N / inject_Z P * inject_Z P == inject_Z N) by (field; lra).
  apply (proj2 (Qmult_le_r _ _ _ Hp)) in A, B. unfold u, ulp_rel in *. split; lra.
Qed.

Lemma elem_per_pe_low : 1 - u <= elem_per_pe.
Proof. destruct elem_per_pe_err as [A _]. pose proof ratio_ge_1. unfold u, ulp_rel in *. lra. Qed.

Lemma elem_per_pe_pos : 0 < elem_per_pe.
Proof. pose proof elem_per_pe_low. unfold u, ulp_rel in *. lra. Qed.

Lemma prod_err p : (0 < p < 2 ^ 53)%Z ->
  elem_per_pe * inject_Z p * (1 - u) <= f64_mul elem_per_pe (f64_of_usize p)
  /\ f64_mul elem_per_pe (f64_of_usize p) <= elem_per_pe * inject_Z p * (1 + u).
Proof.
  intros Hp. pose proof elem_per_pe_pos as He.
  assert (Hp' : 0 < inject_Z p) by (change 0 with (inject_Z 0); apply Qlt_inject_lt; lia).
  assert (E : elem_per_pe * f64_of_usize p == elem_per_pe * inject_Z p)
    by (rewrite f64_of_usize_exact by lia; reflexivity).
  destruct (fl64_err (elem_per_pe * f64_of_usize p)) as [A B].
  - rewrite E. nra.
  - unfold f64_mul. rewrite E in A at 1. rewrite E in B at 2. split; assumption.
Qed.

Lemma boundary_0 : boundary 0 = 0%Z.
Proof.
  unfold boundary, f64_mul. rewrite f64_of_usize_0, fl64_0; [reflexivity|]. ring.
Qed.

Lemma boundary_P : boundary P = N.
Proof.
  destruct (prod_err P) as [A B]; [lia|]. destruct elem_per_pe_P as [C D].
  pose proof N_bound. pose proof P_pos. pose proof P_le_N.
  apply Z.le_antisymm; unfold boundary.
  - apply f64_round_le. unfold u, ulp_rel in *. nra.
  - apply f64_round_ge. unfold u, ulp_rel in *. nra.
Qed.

Lemma inject_Z_succ p : inject_Z (p + 1) == inject_Z p + 1.
Proof. rewrite inject_Z_plus. reflexivity. Qed.

Lemma inject_Z_bound p b : (p <= b)%Z -> inject_Z p <= inject_Z b.
Proof. intros H. apply Qle_inject_le. lia. Qed.

Lemma boundary_mono_succ p : (0 <= p < 2 ^ 52)%Z -> (boundary p <= boundary (p + 1))%Z.
Proof.
  intros Hp. destruct (prod_err (p + 1)) as [A _]; [lia|].
  pose proof elem_per_pe_pos as He. rewrite inject_Z_succ in A.
  destruct (Z.eq_dec p 0) as [->|Hp0].
  - rewrite boundary_0. unfold boundary. apply f64_round_ge.
    change (inject_Z 0) with 0 in *. unfold u, ulp_rel in *. nra.
  - destruct (prod_err p) as [_ B]; [lia|]. apply f64_round_mono.
    pose proof (inject_Z_bound p (2 ^ 52 - 1) ltac:(lia)) as H2.
    change (inject_Z (2 ^ 52 - 1)) with (4503599627370495 # 1) in H2.
    assert (K : inject_Z p * (1 + u) <= (inject_Z p + 1) * (1 - u)) by (unfold u, ulp_rel; lra).
    apply (proj2 (Qmult_le_l _ _ _ He)) in K. lra.
Qed.

Lemma boundary_mono p q : (0 <= p <= q)%Z -> (q <= 2 ^ 52)%Z -> (boundary p <= boundary q)%Z.
Proof.
  intros H Hq. replace q with (p + Z.of_nat (Z.to_nat (q - p)))%Z by lia.
  assert (Hn : (p + Z.of_nat (Z.to_nat (q - p)) <= 2 ^ 52)%Z) by lia. revert Hn.
  induction (Z.to_nat (q - p)) as [|n IH]; intros Hn; [rewrite Z.add_0_r; lia|].
  rewrite Nat2Z.inj_succ in *. etransitivity; [apply IH; lia|].
  replace (p + Z.succ (Z.of_nat n))%Z with (p + Z.of_nat n + 1)%Z by lia.
  apply boundary_mono_succ. lia.
Qed.

Lemma boundary_nonneg p : (0 <= p <= 2 ^ 52)%Z -> (0 <= boundary p)%Z.
Proof. intros H. rewrite <- boundary_0. apply boundary_mono; lia. Qed.

Lemma boundary_bound p : (0 <= p <= P)%Z -> (0 <= boundary p <= N)%Z.
Proof. intros H. split; [apply boundary_nonneg; lia|]. rewrite <- boundary_P. apply boundary_mono; lia. Qed.

(** The PE that [pe_for_dist_index] computes for a global index: the quotient
    rounded down, corrected by one when the index is past that PE's boundary. *)
Lemma quotient_err g : (0 <= g < N)%Z ->
  0 <= f64_div (f64_of_usize g) elem_per_pe
  /\ elem_per_pe * f64_div (f64_of_usize g) elem_per_pe <= inject_Z g * (1 + u)
  /\ inject_Z g * (1 - u) <= elem_per_pe * f64_div (f64_of_usize g) elem_per_pe.
Proof.
  intros Hg. pose proof elem_per_pe_pos as He.
  destruct (Z.eq_dec g 0) as [->|Hg0].
  - unfold f64_div. rewrite f64_of_usize_0, (fl64_0 (0 / elem_per_pe)); [|field; lra].
    change (inject_Z 0) with 0. repeat split; lra.
  - assert (Hg' : 0 < inject_Z g) by (change 0 with (inject_Z 0); apply Qlt_inject_lt; lia).
    assert (E : f64_of_usize g / elem_per_pe == inject_Z g / elem_per_pe)
      by (rewrite f64_of_usize_exact by lia; reflexivity).
    assert (Hq : 0 < f64_of_usize g / elem_per_pe).
    { rewrite E. apply Qlt_shift_div_l; [assumption|]. lra. }
    unfold f64_div. destruct (fl64_err _ Hq) as [A B]. rewrite E in A at 1. rewrite E in B at 2.
    assert (F : elem_per_pe * (inject_Z g / elem_per_pe) == inject_Z g) by (field; lra).
    pose proof (fl64_pos _ Hq).
    apply (proj2 (Qmult_le_l _ _ _ He)) in A, B.
    unfold u, ulp_rel in *. repeat split; lra.
Qed.

Definition pe_guess (g : Z) : Z := f64_floor (f64_div (f64_of_usize g) elem_per_pe).

Lemma pe_guess_spec g : (0 <= g < N)%Z ->
  (0 <= pe_guess g <= 2 ^ 51)%Z
  /\ (boundary (pe_guess g) <= g)%Z
  /\ (g < boundary (pe_guess g + 2))%Z.
Proof.
  intros Hg. destruct (quotient_err g Hg) as (Q0 & Q1 & Q2).
  set (q := f64_div (f64_of_usize g) elem_per_pe) in *.
  destruct (Qfloor_bounds q) as [F1 F2].
  pose proof elem_per_pe_pos as He. pose proof elem_per_pe_low as Hl. pose proof N_bound as HNb.
  assert (Hgb : inject_Z g <= inject_Z N) by (apply Qle_inject_le; lia).
  assert (Hg0 : 0 <= inject_Z g) by (change 0 with (inject_Z 0); apply Qle_inject_le; lia).
  assert (Hk0 : (0 <= pe_guess g)%Z).
  { unfold pe_guess, f64_floor. change 0%Z with (Qfloor 0). apply Qfloor_resp_le. exact Q0. }
  change (Qfloor q) with (pe_guess g) in F1, F2. set (k := pe_guess g) in *.
  assert (Hek : elem_per_pe * inject_Z k <= inject_Z g * (1 + u)).
  { apply (proj2 (Qmult_le_l _ _ _ He)) in F1. lra. }
  assert (Hk51 : (k <= 2 ^ 51)%Z).
  { apply Z.lt_succ_r. apply Qlt_inject_inv. change (inject_Z (Z.succ (2 ^ 51))) with (2251799813685249 # 1).
    assert (inject_Z k * (1 - u) <= elem_per_pe * inject_Z k).
    { assert (0 <= inject_Z k) by (change 0 with (inject_Z 0); apply Qle_inject_le; lia).
      unfold u, ulp_rel in *. nra. }
    unfold u, ulp_rel in *. lra. }
  split; [lia|]. split.
  - destruct (Z.eq_dec k 0) as [->|Hk]; [rewrite boundary_0; lia|].
    destruct (prod_err k) as [_ B]; [lia|]. apply f64_round_le.
    unfold u, ulp_rel in *. lra.
  - apply (proj2 (Qmult_lt_l _ _ _ He)) in F2.
    destruct (prod_err (k + 2)) as [A _]; [lia|]. rewrite inject_Z_plus in A.
    change (inject_Z 2) with 2 in A.
    apply Z.lt_le_trans with (g + 1)%Z; [lia|]. apply f64_round_ge. rewrite inject_Z_succ.
    unfold u, ulp_rel in *. lra.
Qed.

(** The corrected guess is the PE whose boundaries enclose the index. *)
Lemma pe_guess_correct g : (0 <= g < N)%Z ->
  let p := (if (boundary (pe_guess g + 1) <=? g)%Z then pe_guess g + 1 else pe_guess g)%Z in
  (0 <= p < P)%Z /\ (boundary p <= g < boundary (p + 1))%Z.
Proof.
  intros Hg p. destruct (pe_guess_spec g Hg) as (K & L & U).
  assert (B : (boundary p <= g < boundary (p + 1))%Z).
  { subst p. destruct (Z.leb_spec (boundary (pe_guess g + 1)) g); [|lia].
    replace (pe_guess g + 1 + 1)%Z with (pe_guess g + 2)%Z by lia. lia. }
  assert (Hp : (0 <= p <= 2 ^ 51 + 1)%Z) by (subst p; destruct (_ <=? _)%Z; lia).
  split; [|exact B]. split; [lia|].
  destruct (Z_lt_ge_dec p P) as [|Hge]; [assumption|exfalso].
  pose proof (boundary_mono P p ltac:(lia) ltac:(lia)). rewrite boundary_P in *. lia.
Qed.

Lemma boundary_unique g p q :
  (0 <= p < P)%Z -> (0 <= q < P)%Z ->
  (boundary p <= g < boundary (p + 1))%Z -> (boundary q <= g < boundary (q + 1))%Z -> p = q.
Proof.
  intros Hp Hq Bp Bq. destruct (Z.lt_trichotomy p q) as [H|[H|H]]; [|assumption|].
  - pose proof (boundary_mono (p + 1) q ltac:(lia) ltac:(lia)). lia.
  - pose proof (boundary_mono (q + 1) p ltac:(lia) ltac:(lia)). lia.
Qed.

(** ** Every PE's block fits in the [ceil] of the average *)

Definition per_pe_size : Z := f64_ceil elem_per_pe.

Lemma exact_blocks k p : (N = k * P)%Z -> (0 <= p <= P)%Z -> boundary p = (k * p)%Z.
Proof.
  intros Hk Hp. assert (Ee : elem_per_pe == inject_Z k).
  { apply fl64_int; [|nia]. rewrite ratio_eq, Hk, inject_Z_mult. pose proof P_pos. field. lra. }
  assert (E : f64_mul elem_per_pe (f64_of_usize p) == inject_Z (k * p)).
  { apply fl64_int; [|nia]. rewrite Ee, f64_of_usize_exact by lia. rewrite inject_Z_mult. reflexivity. }
  apply Z.le_antisymm; [apply f64_round_le|apply f64_round_ge]; rewrite E; lra.
Qed.

Lemma per_pe_size_exact k : (N = k * P)%Z -> per_pe_size = k.
Proof.
  intros Hk. assert (Ee : elem_per_pe == inject_Z k).
  { apply fl64_int; [|nia]. rewrite ratio_eq, Hk, inject_Z_mult. pose proof P_pos. field. lra. }
  apply Qceiling_unique; rewrite Ee; lra.
Qed.

Hypothesis HNP : (N * P <= 2 ^ 50)%Z.

(** When [P] does not divide [N], the average is at distance [1/P] from the next integer. *)
Lemma elem_per_pe_gap k r : (N = k * P + r)%Z -> (0 < r < P)%Z ->
  inject_Z k < elem_per_pe
  /\ elem_per_pe * (1 + 4 * inject_Z P * u) <= inject_Z (k + 1).
Proof.
  intros Hk Hr. destruct elem_per_pe_P as [A B]. pose proof P_pos as Hp. pose proof N_bound.
  assert (Hn : 0 < inject_Z N) by (change 0 with (inject_Z 0); apply Qlt_inject_lt; lia).
  assert (L : inject_Z k * inject_Z P + 1 <= inject_Z N).
  { rewrite Hk, <- inject_Z_mult, <- inject_Z_succ. apply Qle_inject_le. lia. }
  assert (U : inject_Z N + 1 <= inject_Z (k + 1) * inject_Z P).
  { rewrite <- inject_Z_mult, <- inject_Z_succ. apply Qle_inject_le. lia. }
  assert (HNPq : inject_Z N * inject_Z P <= 1125899906842624 # 1).
  { rewrite <- inject_Z_mult. change (1125899906842624 # 1) with (inject_Z (2 ^ 50)).
    apply Qle_inject_le. exact HNP. }
  split.
  - apply (proj1 (Qmult_lt_r _ _ _ Hp)). unfold u, ulp_rel in *. lra.
  - apply (proj1 (Qmult_le_r _ _ _ Hp)).
    assert (K : elem_per_pe * inject_Z P * (1 + 4 * inject_Z P * u)
                <= inject_Z N * (1 + u) * (1 + 4 * inject_Z P * u)).
    { apply Qmult_le_compat_r; [exact B|]. unfold u, ulp_rel. lra. }
    unfold u, ulp_rel in *. lra.
Qed.

Lemma per_pe_size_gap k r : (N = k * P + r)%Z -> (0 < r < P)%Z -> per_pe_size = (k + 1)%Z.
Proof.
  intros Hk Hr. destruct (elem_per_pe_gap k r Hk Hr) as [G1 G2].
  pose proof elem_per_pe_pos as He. pose proof P_pos as Hpp.
  apply Qceiling_unique; [rewrite inject_Z_succ; lra|]. unfold u, ulp_rel in *. nra.
Qed.

Lemma per_pe_size_eq : per_pe_size = ((N + P - 1) / P)%Z.
Proof.
  pose proof (Z.div_mod N P ltac:(lia)) as Hdm.
  pose proof (Z.mod_pos_bound N P ltac:(lia)) as Hm.
  destruct (Z.eq_dec (N mod P) 0) as [E|E].
  - rewrite (per_pe_size_exact (N / P)) by lia.
    apply Z.div_unique with (P - 1)%Z; lia.
  - rewrite (per_pe_size_gap (N / P) (N mod P)) by lia.
    apply Z.div_unique with (N mod P - 1)%Z; lia.
Qed.

Lemma boundary_step p : (0 <= p < P)%Z -> (boundary (p + 1) - boundary p <= per_pe_size)%Z.
Proof.
  intros Hp. pose proof (Z.div_mod N P ltac:(lia)) as Hdm.
  pose proof (Z.mod_pos_bound N P ltac:(lia)) as Hm.
  set (k := (N / P)%Z) in *. set (r := (N mod P)%Z) in *.
  destruct (Z.eq_dec r 0) as [Hr|Hr].
  - rewrite (per_pe_size_exact k), !(exact_blocks k) by lia. lia.
  - destruct (elem_per_pe_gap k r ltac:(lia) ltac:(lia)) as [G1 G2].
    pose proof elem_per_pe_pos as He. pose proof P_pos as Hpp.
    rewrite (per_pe_size_gap k r) by lia. enough (boundary (p + 1) <= boundary p + (k + 1))%Z by lia.
    destruct (prod_err (p + 1)) as [_ U]; [lia|]. rewrite inject_Z_succ in U.
    assert (L : elem_per_pe * inject_Z p * (1 - u) <= f64_mul elem_per_pe (f64_of_usize p)).
    { destruct (Z.eq_dec p 0) as [->|]; [|apply prod_err; lia].
      unfold f64_mul. rewrite f64_of_usize_0, (fl64_0 (elem_per_pe * 0)) by ring.
      change (inject_Z 0) with 0. lra. }
    assert (Hpq : inject_Z p + 1 <= inject_Z P) by (rewrite <- inject_Z_succ; apply Qle_inject_le; lia).
    assert (Hp0 : 0 <= inject_Z p) by (change 0 with (inject_Z 0); apply Qle_inject_le; lia).
    assert (D : f64_mul elem_per_pe (f64_of_usize (p + 1))
                <= f64_mul elem_per_pe (f64_of_usize p) + inject_Z (k + 1)).
    { assert (elem_per_pe * (2 * inject_Z p + 1) * u <= elem_per_pe * (4 * inject_Z P) * u)
        by (unfold u, ulp_rel; nra).
      unfold u, ulp_rel in *. lra. }
    unfold boundary at 1, f64_round. apply Z.lt_succ_r, Qlt_inject_inv.
    destruct (Qfloor_bounds (f64_mul elem_per_pe (f64_of_usize (p + 1)) + (1 # 2))) as [F _].
    destruct (Qfloor_bounds (f64_mul elem_per_pe (f64_of_usize p) + (1 # 2))) as [_ F'].
    change (Qfloor (f64_mul elem_per_pe (f64_of_usize p) + (1 # 2))) with (boundary p) in F'.
    rewrite <- Z.add_1_r, !inject_Z_plus in *. change (inject_Z 1) with 1 in *. lra.
Qed.
End Boundaries.
