(* ===== verification/Distribution.v ===== *)
(** * Distribution: how a LamellarArray lays its elements out over the PEs

    Models [src/array.rs] ([Distribution]) and the layout half of
    [src/array/unsafe.rs] ([UnsafeArray::new], [sub_array] and every index
    computation of [UnsafeArrayInner]), block and cyclic. *)

From stdpp Require Import base list numbers.
From Stdlib Require Import ZArith QArith Qround Lqa Lia.
From S2P Require Import Prelude F64 BlockBounds.
Local Open Scope Z_scope.

Inductive Distribution := Block | Cyclic.

(** [UnsafeArrayData]: the part the layout depends on.  [mem_len] is the length in
    bytes of this PE's part of [mem_region]. *)
Record UnsafeArrayData := {
  mem_len : Z;
  my_pe : Z;
  num_pes : Z;
}.

Record UnsafeArrayInner := {
  data : UnsafeArrayData;
  distribution : Distribution;
  orig_elem_per_pe : Q;
  elem_size : Z;
  offset : Z;
  size : Z;
}.

Inductive Bound := Included (i : Z) | Excluded (i : Z) | Unbounded.

(** ** Construction *)

(** [SubArray::sub_array] *)
Definition sub_array (self : UnsafeArrayInner) (start_bound end_bound : Bound)
  : outcome UnsafeArrayInner :=
  let! start := match start_bound with
                | Included idx => Done idx
                | Excluded idx => uadd idx 1
                | Unbounded => Done 0
                end in
  let! end_ := match end_bound with
               | Included idx => uadd idx 1
               | Excluded idx => Done idx
               | Unbounded => Done (size self)
               end in
  if size self <? end_ then Panic
  else
    let! off := uadd (offset self) start in
    let! sz := usub end_ start in
    Done {| data := data self; distribution := distribution self;
            orig_elem_per_pe := orig_elem_per_pe self; elem_size := elem_size self;
            offset := off; size := sz |}.

(** [SubArray::global_index] *)
Definition global_index (self : UnsafeArrayInner) (sub_index : Z) : outcome Z :=
  uadd (offset self) sub_index.

(** [UnsafeArray::new] on one PE of a team: [size_of_T] is the element size. *)
Definition new (my_pe num_pes size_of_T array_size : Z) (distribution : Distribution)
  : outcome UnsafeArrayInner :=
  let full_array_size := Z.max array_size num_pes in
  let elem_per_pe := f64_div (f64_of_usize full_array_size) (f64_of_usize num_pes) in
  let per_pe_size :=
    as_usize (f64_ceil (f64_div (f64_of_usize full_array_size) (f64_of_usize num_pes))) in
  let! len := umul per_pe_size size_of_T in
  let array :=
    {| data := {| mem_len := len; my_pe := my_pe; num_pes := num_pes |};
       distribution := distribution; orig_elem_per_pe := elem_per_pe;
       elem_size := size_of_T; offset := 0; size := full_array_size |} in
  if negb (full_array_size =? array_size)
  then sub_array array (Included 0) (Excluded array_size)
  else Done array.

(** ** Index computations of [UnsafeArrayInner] *)

(** [(self.orig_elem_per_pe * pe as f64).round() as usize] *)
Definition pe_boundary (self : UnsafeArrayInner) (pe : Z) : Z :=
  as_usize (f64_round (f64_mul (orig_elem_per_pe self) (f64_of_usize pe))).

Definition pe_for_dist_index (self : UnsafeArrayInner) (index : Z) : outcome (option Z) :=
  if index <? size self then
    let! global_index := uadd index (offset self) in
    match distribution self with
    | Block =>
        let pe := as_usize (f64_floor (f64_div (f64_of_usize global_index)
                                               (orig_elem_per_pe self))) in
        let! pe1 := uadd pe 1 in
        let end_index := pe_boundary self pe1 in
        if end_index <=? global_index
        then let! pe' := uadd pe 1 in Done (Some pe')
        else Done (Some pe)
    | Cyclic =>
        let! pe := urem global_index (num_pes (data self)) in
        Done (Some pe)
    end
  else Done None.

(** The [for i in 0..temp_len] loop of [start_index_for_pe]. *)
Fixpoint find_start (fuel : nat) (i start_pe num_pes pe : Z) : outcome (option Z) :=
  match fuel with
  | O => Done None
  | S fuel' =>
      let! s := uadd i start_pe in
      let! r := urem s num_pes in
      if r =? pe then Done (Some i) else find_start fuel' (i + 1) start_pe num_pes pe
  end.

Definition start_index_for_pe (self : UnsafeArrayInner) (pe : Z) : outcome (option Z) :=
  match distribution self with
  | Block =>
      let global_start := pe_boundary self pe in
      let! start := isub (as_isize global_start) (as_isize (offset self)) in
      if 0 <=? start then
        if start <? size self then Done (Some start) else Done None
      else
        let! pe1 := uadd pe 1 in
        let global_end := pe_boundary self pe1 in
        if offset self <? global_end then Done (Some 0) else Done None
  | Cyclic =>
      let np := num_pes (data self) in
      let! o := pe_for_dist_index self 0 in
      match o with
      | Some start_pe =>
          let temp_len := if size self <? np then size self else np in
          find_start (Z.to_nat temp_len) 0 start_pe np pe
      | None => Done None
      end
  end.

Definition num_elems_pe (self : UnsafeArrayInner) (pe : Z) : outcome Z :=
  match distribution self with
  | Block =>
      let! o := start_index_for_pe self pe in
      match o with
      | Some start_i =>
          let! pe1 := uadd pe 1 in
          let! o' := start_index_for_pe self pe1 in
          let end_i := match o' with Some end_i => end_i | None => size self end in
          usub end_i start_i
      | None => Done 0
      end
  | Cyclic =>
      let np := num_pes (data self) in
      let! o := pe_for_dist_index self 0 in
      match o with
      | Some start_pe =>
          let! last := usub (size self) 1 in
          let! o' := pe_for_dist_index self last in
          let! end_pe := unwrap o' in
          let! num_elems := udiv (size self) np in
          let! rem := urem (size self) np in
          if negb (rem =? 0) then
            if (start_pe <=? end_pe) then
              if (start_pe <=? pe) && (pe <=? end_pe)
              then uadd num_elems 1 else Done num_elems
            else
              if (start_pe <=? pe) || (pe <=? end_pe)
              then uadd num_elems 1 else Done num_elems
          else Done num_elems
      | None => Done 0
      end
  end.

Definition num_elems_local (self : UnsafeArrayInner) : outcome Z :=
  num_elems_pe self (my_pe (data self)).

Definition pe_offset_for_dist_index (self : UnsafeArrayInner) (pe index : Z)
  : outcome (option Z) :=
  let! global_index := uadd (offset self) index in
  let! num_elems_local := num_elems_pe self pe in
  match distribution self with
  | Block =>
      let? pe_start_index := start_index_for_pe self pe in
      let! pe_end_index := uadd pe_start_index num_elems_local in
      if (pe_start_index <=? index) && (index <? pe_end_index)
      then let! o := usub index pe_start_index in Done (Some o)
      else Done None
  | Cyclic =>
      let np := num_pes (data self) in
      let! r := urem global_index np in
      if r =? pe then let! o := udiv index np in Done (Some o) else Done None
  end.

(** [LamellarArray::pe_and_offset_for_global_index] *)
Definition pe_and_offset_for_global_index (self : UnsafeArrayInner) (index : Z)
  : outcome (option (Z * Z)) :=
  let? pe := pe_for_dist_index self index in
  let? off := pe_offset_for_dist_index self pe index in
  Done (Some (pe, off)).

Definition global_index_from_local (self : UnsafeArrayInner) (index : Z)
  : outcome (option Z) :=
  let mp := my_pe (data self) in
  match distribution self with
  | Block =>
      let global_start := pe_boundary self mp in
      let! start := isub (as_isize global_start) (as_isize (offset self)) in
      if 0 <=? start then
        if start <? size self
        then let! g := uadd global_start index in Done (Some g)
        else Done None
      else
        let! mp1 := uadd mp 1 in
        let global_end := pe_boundary self mp1 in
        if offset self <? global_end
        then let! g := uadd (offset self) index in Done (Some g)
        else Done None
  | Cyclic =>
      let np := num_pes (data self) in
      let! o := pe_for_dist_index self 0 in
      let! start_pe := unwrap o in
      let! last := usub (size self) 1 in
      let! o' := pe_for_dist_index self last in
      let! end_pe := unwrap o' in
      let! q := udiv (size self) np in
      let! r := urem (size self) np in
      let! num_elems :=
        if negb (r =? 0) then
          if start_pe <=? end_pe then
            if (start_pe <=? mp) && (mp <=? end_pe) then uadd q 1 else Done q
          else
            if (start_pe <=? mp) || (mp <=? end_pe) then uadd q 1 else Done q
        else Done q in
      if index <? num_elems then
        let! m := umul np index in
        let! mo := uadd m (offset self) in
        if start_pe <=? mp then
          let! d := usub mp start_pe in
          let! g := uadd mo d in Done (Some g)
        else
          let! d := usub np start_pe in
          let! g := uadd mo d in
          let! g' := uadd g mp in Done (Some g')
      else Done None
  end.

Definition pe_full_offset_for_local_index (self : UnsafeArrayInner) (pe index : Z)
  : outcome (option Z) :=
  let? global_index := global_index_from_local self index in
  match distribution self with
  | Block =>
      let pe_start_index := pe_boundary self pe in
      let! pe1 := uadd pe 1 in
      let pe_end_index := pe_boundary self pe1 in
      if (pe_start_index <=? global_index) && (global_index <? pe_end_index)
      then let! o := usub global_index pe_start_index in Done (Some o)
      else Done None
  | Cyclic =>
      let np := num_pes (data self) in
      let! r := urem global_index np in
      if r =? pe then let! o := udiv global_index np in Done (Some o) else Done None
  end.

Definition subarray_index_from_local (self : UnsafeArrayInner) (index : Z)
  : outcome (option Z) :=
  let mp := my_pe (data self) in
  let? my_start_index := start_index_for_pe self mp in
  match distribution self with
  | Block =>
      let! i := uadd my_start_index index in
      if i <? size self then Done (Some i) else Done None
  | Cyclic =>
      let np := num_pes (data self) in
      let! num_elems_local := num_elems_local self in
      if index <? num_elems_local then
        let! m := umul np index in
        let! i := uadd my_start_index m in Done (Some i)
      else Done None
  end.

Definition end_index_for_pe (self : UnsafeArrayInner) (pe : Z) : outcome (option Z) :=
  let? _ := start_index_for_pe self pe in
  match distribution self with
  | Block =>
      let! last := usub (size self) 1 in
      let? last_pe := pe_for_dist_index self last in
      if pe =? last_pe then Done (Some last)
      else
        let! pe1 := uadd pe 1 in
        let? s := start_index_for_pe self pe1 in
        let! e := usub s 1 in Done (Some e)
  | Cyclic =>
      let? start_i := start_index_for_pe self pe in
      let! num_elems := num_elems_pe self pe in
      let np := num_pes (data self) in
      let! n1 := usub num_elems 1 in
      let! m := umul n1 np in
      let! end_i := uadd start_i m in Done (Some end_i)
  end.

(** The element index in the local memory at which this PE's part of the
    (sub)array starts: the [start_index] both [local_as_mut_slice] and
    [local_as_mut_ptr] compute. *)
Definition local_start_index (self : UnsafeArrayInner) : outcome Z :=
  let mp := my_pe (data self) in
  let np := num_pes (data self) in
  match distribution self with
  | Block =>
      let! o := pe_for_dist_index self 0 in
      let! start_pe := unwrap o in
      if mp =? start_pe then usub (offset self) (pe_boundary self mp) else Done 0
  | Cyclic =>
      let! q := udiv (offset self) np in
      let! r := urem (offset self) np in
      uadd q (if r <=? mp then 0 else 1)
  end.

(** [local_as_mut_slice]: the byte range of [mem_region] it returns. *)
Definition local_as_mut_slice (self : UnsafeArrayInner) : outcome (Z * Z) :=
  let! num_elems_local := num_elems_local self in
  let! start_index := local_start_index self in
  let! end_index := uadd start_index num_elems_local in
  let! lo := umul start_index (elem_size self) in
  let! hi := umul end_index (elem_size self) in
  if (lo <=? hi) && (hi <=? mem_len (data self)) then Done (lo, hi) else Panic.

(** [local_as_mut_ptr]: the byte offset from the start of [mem_region]. *)
Definition local_as_mut_ptr (self : UnsafeArrayInner) : outcome Z :=
  let! start_index := local_start_index self in
  umul start_index (elem_size self).

(** [DistIteratorLauncher]: the chunked views used by the iterators. *)
Definition launcher_global_index_from_local (self : UnsafeArrayInner) (index chunk_size : Z)
  : outcome (option Z) :=
  if chunk_size =? 1 then global_index_from_local self index
  else
    let! m := umul index chunk_size in
    let? g := global_index_from_local self m in
    let! r := udiv g chunk_size in Done (Some r).

Definition launcher_subarray_index_from_local (self : UnsafeArrayInner) (index chunk_size : Z)
  : outcome (option Z) :=
  if chunk_size =? 1 then subarray_index_from_local self index
  else
    let! m := umul index chunk_size in
    let? g := subarray_index_from_local self m in
    let! r := udiv g chunk_size in Done (Some r).

(** ** The layout invariant

    [layout_wf N P a]: [a] is a view of [size a] elements starting at [offset a] of
    an array of [N] elements over [P] PEs.  [N <= 2^50] keeps the double-precision
    boundaries exact enough; an array beyond it does not fit any machine. *)
Record layout_wf (N P : Z) (a : UnsafeArrayInner) : Prop := {
  wf_P : 0 < P <= N;
  wf_N : N <= 2 ^ 50;
  wf_num_pes : num_pes (data a) = P;
  wf_my_pe : 0 <= my_pe (data a) < P;
  wf_epp : orig_elem_per_pe a = elem_per_pe N P;
  wf_offset : 0 <= offset a;
  wf_size : 0 <= size a;
  wf_range : offset a + size a <= N;
}.

(** The view of the same (sub)array from another PE of the team. *)
Definition at_pe (a : UnsafeArrayInner) (pe : Z) : UnsafeArrayInner :=
  {| data := {| mem_len := mem_len (data a); my_pe := pe; num_pes := num_pes (data a) |};
     distribution := distribution a; orig_elem_per_pe := orig_elem_per_pe a;
     elem_size := elem_size a; offset := offset a; size := size a |}.

Lemma at_pe_wf N P a pe : layout_wf N P a -> 0 <= pe < P -> layout_wf N P (at_pe a pe).
Proof. intros [] H. by constructor. Qed.

Section Block.
Context (N P : Z) (a : UnsafeArrayInner).
Hypothesis Hwf : layout_wf N P a.
Hypothesis Hblock : distribution a = Block.

Local Abbreviation bnd := (boundary N P).

Lemma pe_boundary_eq p : 0 <= p <= P -> pe_boundary a p = bnd p.
Proof.
  destruct Hwf. intros Hp. unfold pe_boundary. rewrite wf_epp0.
  change (f64_round _) with (bnd p). apply as_usize_id.
  pose proof (boundary_bound N P wf_P0 wf_N0 p Hp). lia.
Qed.

(** The PE that owns a global index. *)
Definition block_owner (g : Z) : Z :=
  if bnd (pe_guess N P g + 1) <=? g then pe_guess N P g + 1 else pe_guess N P g.

Lemma block_owner_spec g : 0 <= g < N ->
  0 <= block_owner g < P /\ bnd (block_owner g) <= g < bnd (block_owner g + 1).
Proof. destruct Hwf. apply pe_guess_correct; lia. Qed.

Lemma pe_for_dist_index_block i : 0 <= i < size a ->
  pe_for_dist_index a i = Done (Some (block_owner (offset a + i))).
Proof.
  intros Hi. pose proof Hwf as []. unfold pe_for_dist_index. rewrite Hblock.
  rewrite (proj2 (Z.ltb_lt _ _)) by lia. urun.
  rewrite (Z.add_comm i). set (g := offset a + i).
  assert (Hg : 0 <= g < N) by lia.
  rewrite wf_epp0. change (f64_floor _) with (pe_guess N P g).
  destruct (pe_guess_spec N P wf_P0 wf_N0 g Hg) as (K & L & _).
  assert (HkP : pe_guess N P g < P).
  { destruct (Z_lt_ge_dec (pe_guess N P g) P) as [|H]; [assumption|exfalso].
    pose proof (boundary_mono N P wf_P0 wf_N0 P (pe_guess N P g) ltac:(lia) ltac:(lia)) as M.
    rewrite (boundary_P N P wf_P0 wf_N0) in M. lia. }
  rewrite as_usize_id by lia. urun. rewrite pe_boundary_eq by lia.
  unfold block_owner. fold g. by destruct (_ <=? g).
Qed.

Lemma pe_for_dist_index_none i : size a <= i -> pe_for_dist_index a i = Done None.
Proof. intros Hi. unfold pe_for_dist_index. by rewrite (proj2 (Z.ltb_ge _ _)) by lia. Qed.

Lemma bnd_range p : 0 <= p <= P -> 0 <= bnd p <= N.
Proof. destruct Hwf. by apply boundary_bound. Qed.

Lemma bnd_succ p : 0 <= p < P -> bnd p <= bnd (p + 1).
Proof. destruct Hwf. intros H. apply boundary_mono; lia. Qed.

Lemma bnd_last : bnd P = N.
Proof. destruct Hwf. by apply boundary_P. Qed.

(** [start_index_for_pe] in terms of the boundaries. *)
Definition block_start (pe : Z) : option Z :=
  if offset a <=? bnd pe then
    if bnd pe - offset a <? size a then Some (bnd pe - offset a) else None
  else if offset a <? bnd (pe + 1) then Some 0 else None.

Lemma start_index_for_pe_block pe : 0 <= pe <= P ->
  start_index_for_pe a pe = Done (block_start pe).
Proof.
  intros Hpe. pose proof Hwf as []. unfold start_index_for_pe, block_start. rewrite Hblock.
  pose proof (bnd_range pe Hpe) as Hb. rewrite pe_boundary_eq by lia.
  rewrite !as_isize_ok by lia. rewrite isub_ok by lia.
  replace (0 <=? bnd pe - offset a) with (offset a <=? bnd pe) by zbool.
  destruct (Z.leb_spec (offset a) (bnd pe)); [by destruct (_ <? size a)|].
  assert (pe <> P) by (intros ->; rewrite bnd_last in *; lia).
  urun. rewrite pe_boundary_eq by lia. by destruct (offset a <? _).
Qed.

(** The number of elements of the view that fall between two boundaries. *)
Definition block_count (pe : Z) : Z :=
  Z.max 0 (Z.min (bnd (pe + 1)) (offset a + size a) - Z.max (bnd pe) (offset a)).

Lemma num_elems_pe_block pe : 0 <= pe < P ->
  num_elems_pe a pe = Done (block_count pe).
Proof.
  intros Hpe. pose proof Hwf as []. unfold num_elems_pe. rewrite Hblock.
  rewrite start_index_for_pe_block by lia. urun. rewrite start_index_for_pe_block by lia.
  pose proof (bnd_succ pe Hpe). pose proof (bnd_range (pe + 1) ltac:(lia)).
  unfold block_start, block_count. zbool; cbn beta iota; rewrite ?usub_ok by lia; f_equal; lia.
Qed.

Lemma block_owner_unique g pe : 0 <= g < N -> 0 <= pe < P ->
  bnd pe <= g < bnd (pe + 1) -> block_owner g = pe.
Proof.
  destruct Hwf. intros Hg Hpe Hb. destruct (block_owner_spec g Hg).
  apply (boundary_unique N P wf_P0 wf_N0 g); lia.
Qed.

Lemma pe_offset_for_dist_index_block pe i : 0 <= i < size a -> 0 <= pe < P ->
  pe_offset_for_dist_index a pe i =
    Done (if block_owner (offset a + i) =? pe
          then Some (offset a + i - Z.max (bnd pe) (offset a)) else None).
Proof.
  intros Hi Hpe. pose proof Hwf as []. unfold pe_offset_for_dist_index. urun.
  rewrite num_elems_pe_block by lia. rewrite Hblock, start_index_for_pe_block by lia.
  destruct (block_owner_spec (offset a + i) ltac:(lia)) as [Ho Hb].
  pose proof (bnd_succ pe Hpe). pose proof (bnd_range (pe + 1) ltac:(lia)).
  destruct (Z.eqb_spec (block_owner (offset a + i)) pe) as [E|E].
  - rewrite E in Hb. unfold block_start, block_count.
    zbool; cbn beta iota; rewrite ?uadd_ok by lia; zbool; rewrite ?usub_ok by lia; do 2 f_equal; lia.
  - assert (~ bnd pe <= offset a + i < bnd (pe + 1)).
    { intros Hc. apply E, block_owner_unique; lia. }
    unfold block_start, block_count.
    zbool; cbn beta iota; rewrite ?uadd_ok by lia; zbool; reflexivity.
Qed.
End Block.

(** ** Cyclic arithmetic *)

(** The distance from [s] forward to [pe] on a ring of [P] PEs. *)
Definition ring_dist (P s pe : Z) : Z := if s <=? pe then pe - s else pe - s + P.

Lemma ring_dist_bound P s pe : 0 <= s < P -> 0 <= pe < P -> 0 <= ring_dist P s pe < P.
Proof. intros Hs Hpe. unfold ring_dist. zbool. Qed.

Lemma mod_small_shift P x : 0 < P -> 0 <= x < 2 * P -> x mod P = if x <? P then x else x - P.
Proof.
  intros HP Hx. destruct (Z.ltb_spec x P); [apply Z.mod_small; lia|].
  symmetry. apply Z.mod_unique with 1; lia.
Qed.

Lemma ring_dist_mod P s pe : 0 <= s < P -> 0 <= pe < P -> (s + ring_dist P s pe) mod P = pe.
Proof.
  intros Hs Hpe. pose proof (ring_dist_bound P s pe Hs Hpe).
  rewrite mod_small_shift by lia. unfold ring_dist in *. zbool.
Qed.

(** Which indices of a cyclic view live on [pe]: those at [ring_dist] plus a
    multiple of [P]. *)
Lemma cyclic_index_iff P off i pe : 0 < P -> 0 <= off -> 0 <= i -> 0 <= pe < P ->
  (off + i) mod P = pe <-> i mod P = ring_dist P (off mod P) pe.
Proof.
  intros HP Hoff Hi Hpe. pose proof (Z.mod_pos_bound off P HP) as Hs.
  pose proof (Z.mod_pos_bound i P HP) as Hm.
  rewrite Z.add_mod by lia. split.
  - intros E. rewrite mod_small_shift in E by lia. unfold ring_dist. revert E. zbool.
  - intros ->. by apply ring_dist_mod.
Qed.

Lemma find_start_spec fuel i s P pe : 0 <= s < P -> 0 <= pe < P -> 0 <= i ->
  i + Z.of_nat fuel <= P -> P < 2 ^ 62 ->
  find_start fuel i s P pe =
    Done (if (i <=? ring_dist P s pe) && (ring_dist P s pe <? i + Z.of_nat fuel)
          then Some (ring_dist P s pe) else None).
Proof.
  intros Hs Hpe. revert i. induction fuel as [|fuel IH]; intros i Hi Hf HP.
  - cbn [find_start]. by zbool.
  - cbn [find_start]. urun. rewrite (Z.add_comm i).
    destruct (Z.eqb_spec ((s + i) mod P) pe) as [E|E].
    + rewrite mod_small_shift in E by lia.
      assert (Ei : ring_dist P s pe = i) by (unfold ring_dist; revert E; zbool).
      rewrite Ei. zbool. reflexivity.
    + rewrite IH by lia. assert (i <> ring_dist P s pe) by (intros ->; apply E, ring_dist_mod; lia).
      replace (i + 1 + Z.of_nat fuel) with (i + Z.of_nat (S fuel)) by lia. zbool; reflexivity.
Qed.

Section Cyc.
Context (N P : Z) (a : UnsafeArrayInner).
Hypothesis Hwf : layout_wf N P a.
Hypothesis Hcyc : distribution a = Cyclic.

Let s := offset a mod P.
Local Abbreviation dist := (ring_dist P s).

Lemma s_bound : 0 <= s < P.
Proof. destruct Hwf. apply Z.mod_pos_bound. lia. Qed.

Lemma pe_for_dist_index_cyclic i : 0 <= i < size a ->
  pe_for_dist_index a i = Done (Some ((offset a + i) mod P)).
Proof.
  intros Hi. pose proof Hwf as []. unfold pe_for_dist_index. rewrite Hcyc.
  rewrite (proj2 (Z.ltb_lt _ _)) by lia. urun. by rewrite wf_num_pes0, (Z.add_comm i).
Qed.

Lemma start_index_for_pe_cyclic pe : 0 <= pe < P ->
  start_index_for_pe a pe = Done (if dist pe <? size a then Some (dist pe) else None).
Proof.
  intros Hpe. pose proof Hwf as []. pose proof s_bound as Hs.
  pose proof (ring_dist_bound P s pe Hs Hpe). unfold start_index_for_pe. rewrite Hcyc, wf_num_pes0.
  destruct (Z.eq_dec (size a) 0) as [E|E].
  - unfold pe_for_dist_index. rewrite E. cbn [Z.ltb Z.compare]. zbool. reflexivity.
  - rewrite pe_for_dist_index_cyclic by lia. rewrite Z.add_0_r. fold s.
    rewrite find_start_spec by (try lia; destruct (_ <? _) eqn:?; lia).
    destruct (Z.ltb_spec (size a) P); rewrite Z2Nat.id by lia; by zbool.
Qed.

(** The number of elements of the view on [pe]. *)
Definition cyclic_count (pe : Z) : Z :=
  if dist pe <? size a then (size a - 1 - dist pe) / P + 1 else 0.

Lemma cyclic_count_alt pe : 0 <= pe < P ->
  cyclic_count pe = size a / P + (if dist pe <? size a mod P then 1 else 0).
Proof.
  intros Hpe. pose proof Hwf as []. pose proof (ring_dist_bound P s pe s_bound Hpe).
  pose proof (Z.div_mod (size a) P ltac:(lia)) as Hdm.
  pose proof (Z.mod_pos_bound (size a) P ltac:(lia)) as Hm.
  pose proof (Z.div_pos (size a) P ltac:(lia) ltac:(lia)).
  unfold cyclic_count. destruct (Z.ltb_spec (dist pe) (size a mod P)).
  - rewrite (proj2 (Z.ltb_lt _ _)) by nia.
    rewrite <- (Z.div_unique (size a - 1 - dist pe) P (size a / P) (size a mod P - 1 - dist pe)); lia.
  - destruct (Z.ltb_spec (dist pe) (size a)).
    + rewrite <- (Z.div_unique (size a - 1 - dist pe) P (size a / P - 1)
                    (size a mod P - 1 - dist pe + P)); lia.
    + nia.
Qed.

(** The two-branch interval test of the source is a comparison on the ring. *)
Lemma ring_interval pe : 0 <= pe < P -> 0 < size a mod P ->
  let e := (offset a + (size a - 1)) mod P in
  (if s <=? e then (s <=? pe) && (pe <=? e) else (s <=? pe) || (pe <=? e))
  = (dist pe <? size a mod P).
Proof.
  intros Hpe Hr e. pose proof Hwf as []. pose proof s_bound as Hs.
  pose proof (Z.mod_pos_bound (size a) P ltac:(lia)) as Hm.
  assert (E : e = if s + (size a mod P - 1) <? P then s + (size a mod P - 1)
                  else s + (size a mod P - 1) - P).
  { subst e. rewrite <- mod_small_shift by lia.
    rewrite Z.add_mod by lia. fold s. rewrite (Z.add_mod s (size a mod P - 1)) by lia.
    rewrite (Z.mod_small s P) by lia. f_equal. f_equal. rewrite <- Z.add_opp_r, <- (Z.add_opp_r (_ mod _)).
    by rewrite Z.add_mod_idemp_l by lia. }
  rewrite E. unfold ring_dist.
  destruct (Z.ltb_spec (s + (size a mod P - 1)) P); zbool; reflexivity.
Qed.

Lemma num_elems_pe_cyclic pe : 0 <= pe < P -> num_elems_pe a pe = Done (cyclic_count pe).
Proof.
  intros Hpe. pose proof Hwf as []. pose proof (ring_dist_bound P s pe s_bound Hpe).
  unfold num_elems_pe. rewrite Hcyc, wf_num_pes0.
  destruct (Z.eq_dec (size a) 0) as [E|E].
  - unfold pe_for_dist_index. rewrite E. cbn [Z.ltb Z.compare]. unfold cyclic_count. rewrite E. by zbool.
  - rewrite pe_for_dist_index_cyclic by lia. urun.
    rewrite pe_for_dist_index_cyclic by lia. cbn [unwrap]. urun.
    rewrite Z.add_0_r. fold s. rewrite cyclic_count_alt by lia.
    assert (Hdb : 0 <= size a / P < 2 ^ 51)
      by (split; [apply Z.div_pos; lia|apply Z.div_lt_upper_bound; nia]).
    destruct (Z.eqb_spec (size a mod P) 0) as [E0|E0]; cbn [negb].
    + rewrite E0. zbool. f_equal. lia.
    + pose proof (ring_interval pe Hpe) as R. cbn zeta in R. rewrite <- R
        by (pose proof (Z.mod_pos_bound (size a) P); lia).
      destruct (s <=? _); destruct (_ : bool); rewrite ?uadd_ok by lia; f_equal; lia.
Qed.

Lemma pe_offset_for_dist_index_cyclic pe i : 0 <= i < size a -> 0 <= pe < P ->
  pe_offset_for_dist_index a pe i =
    Done (if (offset a + i) mod P =? pe then Some (i / P) else None).
Proof.
  intros Hi Hpe. pose proof Hwf as []. unfold pe_offset_for_dist_index. urun.
  rewrite num_elems_pe_cyclic by lia. rewrite Hcyc, wf_num_pes0. urun.
  by destruct (_ =? pe).
Qed.
End Cyc.

(** ** Both distributions *)

#[local] Opaque boundary pe_guess elem_per_pe f64_round f64_mul f64_of_usize f64_div.

Section Layout.
Context (N P : Z).

(** The PE that owns a global index, the offset of the element in that PE's part of
    the view, and the number of elements of the view on a PE. *)
Definition owner (a : UnsafeArrayInner) (g : Z) : Z :=
  match distribution a with Block => block_owner N P g | Cyclic => g mod P end.

Definition local_offset (a : UnsafeArrayInner) (i : Z) : Z :=
  match distribution a with
  | Block => offset a + i - Z.max (boundary N P (owner a (offset a + i))) (offset a)
  | Cyclic => i / P
  end.

Definition count (a : UnsafeArrayInner) (pe : Z) : Z :=
  match distribution a with Block => block_count N P a pe | Cyclic => cyclic_count P a pe end.

Implicit Types a : UnsafeArrayInner.

Lemma owner_bound a g : layout_wf N P a -> 0 <= g < N -> 0 <= owner a g < P.
Proof.
  intros Hwf Hg. unfold owner. destruct (distribution a).
  - by apply (block_owner_spec N P a Hwf g).
  - destruct Hwf. apply Z.mod_pos_bound. lia.
Qed.

Lemma pe_for_dist_index_eq a i : layout_wf N P a -> 0 <= i < size a ->
  pe_for_dist_index a i = Done (Some (owner a (offset a + i))).
Proof.
  intros Hwf Hi. unfold owner. destruct (distribution a) eqn:D.
  - by apply pe_for_dist_index_block.
  - by eapply pe_for_dist_index_cyclic.
Qed.

Lemma num_elems_pe_eq a pe : layout_wf N P a -> 0 <= pe < P ->
  num_elems_pe a pe = Done (count a pe).
Proof.
  intros Hwf Hpe. unfold count. destruct (distribution a) eqn:D.
  - by apply num_elems_pe_block.
  - by eapply num_elems_pe_cyclic.
Qed.

Lemma pe_offset_for_dist_index_eq a pe i : layout_wf N P a -> 0 <= i < size a -> 0 <= pe < P ->
  pe_offset_for_dist_index a pe i =
    Done (if owner a (offset a + i) =? pe then Some (local_offset a i) else None).
Proof.
  intros Hwf Hi Hpe. unfold owner, local_offset, owner. destruct (distribution a) eqn:D.
  - rewrite (pe_offset_for_dist_index_block N P) by assumption.
    destruct (Z.eqb_spec (block_owner N P (offset a + i)) pe) as [->|]; reflexivity.
  - by rewrite (pe_offset_for_dist_index_cyclic N P).
Qed.

Lemma pe_and_offset_eq a i : layout_wf N P a -> 0 <= i < size a ->
  pe_and_offset_for_global_index a i
  = Done (Some (owner a (offset a + i), local_offset a i)).
Proof.
  intros Hwf Hi. unfold pe_and_offset_for_global_index.
  rewrite pe_for_dist_index_eq by assumption.
  assert (0 <= owner a (offset a + i) < P) by (apply owner_bound; [|destruct Hwf; lia]; assumption).
  rewrite pe_offset_for_dist_index_eq by assumption. by rewrite Z.eqb_refl.
Qed.

Lemma count_bound a pe : layout_wf N P a -> 0 <= pe < P -> 0 <= count a pe <= size a.
Proof.
  intros Hwf Hpe. unfold count. destruct (distribution a).
  - destruct Hwf. unfold block_count. lia.
  - pose proof Hwf as []. unfold cyclic_count.
    pose proof (ring_dist_bound P (offset a mod P) pe ltac:(apply Z.mod_pos_bound; lia) Hpe).
    destruct (Z.ltb_spec (ring_dist P (offset a mod P) pe) (size a)); [|lia].
    pose proof (Z.div_pos (size a - 1 - ring_dist P (offset a mod P) pe) P ltac:(lia) ltac:(lia)).
    pose proof (Z.div_le_upper_bound (size a - 1 - ring_dist P (offset a mod P) pe) P (size a - 1)
                  ltac:(lia) ltac:(nia)). lia.
Qed.

Lemma local_offset_bound a i : layout_wf N P a -> 0 <= i < size a ->
  0 <= local_offset a i < count a (owner a (offset a + i)).
Proof.
  intros Hwf Hi. pose proof Hwf as []. unfold local_offset, count, owner.
  destruct (distribution a).
  - destruct (block_owner_spec N P a Hwf (offset a + i) ltac:(lia)). unfold block_count. lia.
  - pose proof (Z.mod_pos_bound (offset a + i) P ltac:(lia)) as Hpe.
    pose proof (proj1 (cyclic_index_iff P (offset a) i _ ltac:(lia) ltac:(lia) ltac:(lia) Hpe) eq_refl) as E.
    pose proof (Z.mod_pos_bound i P ltac:(lia)). pose proof (Z.div_mod i P ltac:(lia)).
    pose proof (Z.div_pos i P ltac:(lia) ltac:(lia)).
    unfold cyclic_count. rewrite <- E. rewrite (proj2 (Z.ltb_lt _ _)) by nia.
    split; [lia|]. apply Z.lt_le_trans with (i / P + 1); [lia|]. apply Z.add_le_mono_r.
    apply Z.div_le_lower_bound; nia.
Qed.

(** [subarray_index_from_local], as seen from the PE that holds the element. *)
Definition index_of_local (a : UnsafeArrayInner) (pe o : Z) : Z :=
  match distribution a with
  | Block => Z.max (boundary N P pe) (offset a) - offset a + o
  | Cyclic => ring_dist P (offset a mod P) pe + P * o
  end.

Lemma index_of_local_spec a pe o : layout_wf N P a -> 0 <= pe < P -> 0 <= o < count a pe ->
  0 <= index_of_local a pe o < size a
  /\ owner a (offset a + index_of_local a pe o) = pe
  /\ local_offset a (index_of_local a pe o) = o.
Proof.
  intros Hwf Hpe Ho. pose proof Hwf as []. unfold index_of_local, local_offset, owner, count in *.
  destruct (distribution a).
  - unfold block_count in Ho.
    set (g := offset a + (boundary N P pe `max` offset a - offset a + o)).
    assert (E : block_owner N P g = pe) by (apply (block_owner_unique N P a Hwf); lia).
    rewrite E. lia.
  - unfold cyclic_count in Ho. set (d := ring_dist P (offset a mod P) pe) in *.
    pose proof (ring_dist_bound P (offset a mod P) pe ltac:(apply Z.mod_pos_bound; lia) Hpe) as Hd.
    fold d in Hd. destruct (Z.ltb_spec d (size a)); [|lia].
    pose proof (Z.mul_div_le (size a - 1 - d) P ltac:(lia)).
    assert (0 <= d + P * o < size a) by nia.
    split; [assumption|]. split.
    + apply cyclic_index_iff; try lia. fold d. rewrite Z.mul_comm, Z.mod_add by lia.
      apply Z.mod_small. lia.
    + symmetry. apply Z.div_unique with d; lia.
Qed.

Lemma index_of_local_owner a i : layout_wf N P a -> 0 <= i < size a ->
  index_of_local a (owner a (offset a + i)) (local_offset a i) = i.
Proof.
  intros Hwf Hi. pose proof Hwf as []. unfold index_of_local, local_offset, owner.
  destruct (distribution a); [lia|].
  pose proof (Z.mod_pos_bound (offset a + i) P ltac:(lia)) as Hpe.
  rewrite <- (proj1 (cyclic_index_iff P (offset a) i _ ltac:(lia) ltac:(lia) ltac:(lia) Hpe) eq_refl).
  pose proof (Z.div_mod i P ltac:(lia)). lia.
Qed.

Lemma start_index_for_pe_eq a pe : layout_wf N P a -> 0 <= pe < P -> 0 < count a pe ->
  start_index_for_pe a pe = Done (Some (index_of_local a pe 0)).
Proof.
  intros Hwf Hpe. unfold index_of_local, count. destruct (distribution a) eqn:D; intros Hc.
  - rewrite (start_index_for_pe_block N P a Hwf D pe ltac:(lia)). f_equal. revert Hc.
    unfold block_start, block_count. generalize (boundary N P pe) (boundary N P (pe + 1)).
    intros b b' Hc. zbool; f_equal; lia.
  - rewrite (start_index_for_pe_cyclic N P a Hwf D pe Hpe). f_equal. revert Hc.
    unfold cyclic_count. generalize (ring_dist P (offset a mod P) pe).
    intros d Hc. destruct (d <? size a); [|lia]. f_equal. lia.
Qed.

Lemma count_at_pe a pe q : count (at_pe a pe) q = count a q.
Proof.
  unfold count, block_count, cyclic_count, at_pe. cbn [distribution offset size]. reflexivity.
Qed.

Lemma index_of_local_at_pe a pe q o : index_of_local (at_pe a pe) q o = index_of_local a q o.
Proof. unfold index_of_local, at_pe. cbn [distribution offset]. reflexivity. Qed.

Lemma subarray_index_from_local_eq a pe o :
  layout_wf N P a -> 0 <= pe < P -> 0 <= o < count a pe ->
  subarray_index_from_local (at_pe a pe) o = Done (Some (index_of_local a pe o)).
Proof.
  intros Hwf Hpe Ho. pose proof (at_pe_wf N P a pe Hwf Hpe) as Hwf'.
  pose proof (index_of_local_spec a pe o Hwf Hpe Ho) as [Hi _]. pose proof Hwf as [].
  unfold subarray_index_from_local, num_elems_local.
  change (my_pe (data (at_pe a pe))) with pe.
  rewrite (num_elems_pe_eq (at_pe a pe)), start_index_for_pe_eq
    by (rewrite ?count_at_pe; assumption || lia).
  rewrite index_of_local_at_pe, count_at_pe.
  change (distribution (at_pe a pe)) with (distribution a).
  change (size (at_pe a pe)) with (size a).
  change (num_pes (data (at_pe a pe))) with (num_pes (data a)).
  revert Hi. unfold index_of_local. destruct (distribution a); intros Hi.
  - rewrite uadd_ok by lia. zbool. do 2 f_equal. lia.
  - rewrite wf_num_pes0.
    pose proof (ring_dist_bound P (offset a mod P) pe ltac:(apply Z.mod_pos_bound; lia) Hpe).
    zbool. rewrite umul_ok by lia. rewrite uadd_ok by lia. do 2 f_equal. lia.
Qed.

(** *** Totals *)

Fixpoint total_elems (a : UnsafeArrayInner) (n : nat) : outcome Z :=
  match n with
  | O => Done 0
  | S n' =>
      let! t := total_elems a n' in
      let! c := num_elems_pe a (Z.of_nat n') in
      Done (t + c)
  end.

Lemma total_elems_block a n : layout_wf N P a -> distribution a = Block -> Z.of_nat n <= P ->
  total_elems a n
  = Done (Z.max 0 (Z.min (boundary N P (Z.of_nat n)) (offset a + size a) - offset a)).
Proof.
  intros Hwf D. pose proof Hwf as []. induction n as [|n IH]; intros Hn.
  - cbn [total_elems]. change (Z.of_nat 0) with 0.
    rewrite (boundary_0 N P). f_equal. lia.
  - cbn [total_elems]. rewrite IH by lia. rewrite num_elems_pe_eq by (assumption || lia).
    unfold count. rewrite D. unfold block_count.
    rewrite Nat2Z.inj_succ, <- Z.add_1_r. f_equal.
    pose proof (bnd_succ N P a Hwf (Z.of_nat n) ltac:(lia)). lia.
Qed.

Lemma total_elems_cyclic a n : layout_wf N P a -> distribution a = Cyclic -> Z.of_nat n <= P ->
  let s := offset a mod P in
  let r := size a mod P in
  total_elems a n
  = Done (Z.of_nat n * (size a / P)
          + (Z.max 0 (Z.min (Z.of_nat n) (s + r) - s) + Z.max 0 (Z.min (Z.of_nat n) (s + r - P)))).
Proof.
  intros Hwf D Hn s r. pose proof Hwf as [].
  assert (Hs : 0 <= s < P) by (apply Z.mod_pos_bound; lia).
  assert (Hr : 0 <= r < P) by (apply Z.mod_pos_bound; lia).
  induction n as [|n IH].
  - cbn [total_elems]. f_equal. lia.
  - cbn [total_elems]. rewrite IH by lia. rewrite num_elems_pe_eq by (assumption || lia).
    unfold count. rewrite D. rewrite (cyclic_count_alt N P a Hwf) by lia. fold s r.
    rewrite Nat2Z.inj_succ, <- Z.add_1_r. f_equal. unfold ring_dist. zbool.
Qed.

Lemma total_elems_size a : layout_wf N P a -> total_elems a (Z.to_nat P) = Done (size a).
Proof.
  intros Hwf. pose proof Hwf as []. destruct (distribution a) eqn:D.
  - rewrite total_elems_block by (assumption || lia). rewrite Z2Nat.id by lia.
    rewrite (bnd_last N P a Hwf). f_equal. lia.
  - rewrite total_elems_cyclic by (assumption || lia). rewrite Z2Nat.id by lia. f_equal.
    pose proof (Z.div_mod (size a) P ltac:(lia)).
    pose proof (Z.mod_pos_bound (size a) P ltac:(lia)).
    pose proof (Z.mod_pos_bound (offset a) P ltac:(lia)). lia.
Qed.

(** *** Local memory *)

(** The element of the local memory that holds a global index. *)
Definition physical (a : UnsafeArrayInner) (g : Z) : Z :=
  match distribution a with
  | Block => g - boundary N P (owner a g)
  | Cyclic => g / P
  end.

Lemma local_start_index_eq a i : layout_wf N P a -> 0 <= i < size a ->
  let pe := owner a (offset a + i) in
  local_start_index (at_pe a pe) = Done (physical a (offset a + i) - local_offset a i).
Proof.
  intros Hwf Hi pe. pose proof Hwf as [].
  assert (Hpe : 0 <= pe < P) by (apply owner_bound; [assumption|lia]).
  pose proof (at_pe_wf N P a pe Hwf Hpe) as Hwf'.
  unfold local_start_index. change (my_pe (data (at_pe a pe))) with pe.
  change (num_pes (data (at_pe a pe))) with (num_pes (data a)).
  change (distribution (at_pe a pe)) with (distribution a).
  change (offset (at_pe a pe)) with (offset a).
  unfold physical, local_offset. fold pe. assert (Epe : pe = owner a (offset a + i)) by reflexivity.
  clearbody pe. unfold owner in Epe. destruct (distribution a) eqn:D.
  - rewrite pe_for_dist_index_eq by (assumption || (cbn; lia)). cbn [unwrap].
    change (owner (at_pe a pe) (offset (at_pe a pe) + 0)) with (owner a (offset a + 0)).
    rewrite Z.add_0_r. rewrite (pe_boundary_eq N P (at_pe a pe) Hwf') by lia.
    unfold owner. rewrite D.
    destruct (block_owner_spec N P a Hwf (offset a) ltac:(lia)) as [Ho1 Ho2].
    destruct (block_owner_spec N P a Hwf (offset a + i) ltac:(lia)) as [_ Hg]. rewrite <- Epe in Hg.
    destruct (Z.eqb_spec pe (block_owner N P (offset a))) as [E|E].
    + rewrite E in *. rewrite usub_ok by lia. f_equal. lia.
    + assert (block_owner N P (offset a) < pe).
      { destruct (Z.lt_trichotomy pe (block_owner N P (offset a))) as [L|[L|L]]; [exfalso|lia|lia].
        pose proof (boundary_mono N P wf_P0 wf_N0 (pe + 1) (block_owner N P (offset a))
                      ltac:(lia) ltac:(lia)). lia. }
      pose proof (boundary_mono N P wf_P0 wf_N0 (block_owner N P (offset a) + 1) pe
                    ltac:(lia) ltac:(lia)).
      f_equal. lia.
  - rewrite wf_num_pes0. rewrite udiv_ok, urem_ok by lia.
    pose proof (proj1 (cyclic_index_iff P (offset a) i pe ltac:(lia) ltac:(lia) ltac:(lia) Hpe)
                  (eq_sym Epe)) as E.
    pose proof (Z.mod_pos_bound (offset a) P ltac:(lia)) as Hs.
    pose proof (Z.div_mod (offset a) P ltac:(lia)) as Do. pose proof (Z.div_mod i P ltac:(lia)) as Di.
    pose proof (Z.div_pos (offset a) P ltac:(lia) ltac:(lia)).
    assert (offset a / P <= N) by (apply Z.div_le_upper_bound; nia).
    rewrite uadd_ok by (destruct (_ <=? pe); lia). f_equal.
    rewrite <- (Z.div_unique (offset a + i) P
                  (offset a / P + i / P + (if offset a mod P <=? pe then 0 else 1)) pe).
    + lia.
    + lia.
    + revert E. unfold ring_dist. zbool; nia.
Qed.

Lemma physical_bound a g : layout_wf N P a -> N * P <= 2 ^ 50 -> 0 <= g < N ->
  0 <= physical a g < per_pe_size N P.
Proof.
  intros Hwf HNP Hg. pose proof Hwf as []. unfold physical, owner. destruct (distribution a).
  - destruct (block_owner_spec N P a Hwf g Hg) as [Ho Hb].
    pose proof (boundary_step N P wf_P0 wf_N0 HNP _ Ho). lia.
  - split; [apply Z.div_pos; lia|].
    pose proof (boundary_step N P wf_P0 wf_N0 HNP) as Hstep.
    (* [P] blocks of at most [per_pe_size] elements hold [N] elements *)
    assert (K : forall n, Z.of_nat n <= P -> boundary N P (Z.of_nat n) <= Z.of_nat n * per_pe_size N P).
    { induction n as [|n IH]; intros Hn; [change (Z.of_nat 0) with 0; rewrite (boundary_0 N P); lia|].
      rewrite Nat2Z.inj_succ, <- Z.add_1_r in *. specialize (Hstep (Z.of_nat n) ltac:(lia)).
      specialize (IH ltac:(lia)). lia. }
    specialize (K (Z.to_nat P) ltac:(lia)). rewrite Z2Nat.id in K by lia.
    rewrite (bnd_last N P a Hwf) in K. apply Z.div_lt_upper_bound; lia.
Qed.
End Layout.

(** ** Properties *)

(** A concrete array: 10 elements over 4 PEs, block distribution (boundaries 0, 3, 5,
    8, 10), seen from PE 1, and a cyclic one restricted to the elements 1..8. *)
Definition ex_block : UnsafeArrayInner :=
  {| data := {| mem_len := 24; my_pe := 1; num_pes := 4 |}; distribution := Block;
     orig_elem_per_pe := elem_per_pe 10 4; elem_size := 8; offset := 0; size := 10 |}.
Definition ex_cyclic : UnsafeArrayInner :=
  {| data := {| mem_len := 24; my_pe := 1; num_pes := 4 |}; distribution := Cyclic;
     orig_elem_per_pe := elem_per_pe 10 4; elem_size := 8; offset := 1; size := 7 |}.

Lemma ex_block_wf : layout_wf 10 4 ex_block.
Proof. constructor; cbn; (reflexivity || lia). Qed.
Lemma ex_cyclic_wf : layout_wf 10 4 ex_cyclic.
Proof. constructor; cbn; (reflexivity || lia). Qed.

Example ex_block_boundaries :
  map (boundary 10 4) [0; 1; 2; 3; 4] = [0; 3; 5; 8; 10].
Proof. vm_compute. reflexivity. Qed.
Example ex_cyclic_indices :
  map (pe_and_offset_for_global_index ex_cyclic) [0; 3; 6; 7]
  = [Done (Some (1, 0)); Done (Some (0, 0)); Done (Some (3, 1)); Done None].
Proof. vm_compute. reflexivity. Qed.

(** C14: every index of a (sub)array is stored at exactly one place: the PE and local
    offset that [pe_and_offset_for_global_index] returns are in range, and asking that
    PE which index its local element is returns the index. *)
Theorem index_roundtrip N P a i :
  layout_wf N P a -> 0 <= i < size a ->
  exists pe o n,
    pe_and_offset_for_global_index a i = Done (Some (pe, o))
    /\ 0 <= pe < P /\ num_elems_pe a pe = Done n /\ 0 <= o < n
    /\ subarray_index_from_local (at_pe a pe) o = Done (Some i).
Proof.
  intros Hwf Hi. assert (0 <= offset a + i < N) by (destruct Hwf; lia).
  exists (owner N P a (offset a + i)), (local_offset N P a i), (count N P a (owner N P a (offset a + i))).
  pose proof (owner_bound N P a _ Hwf H). pose proof (local_offset_bound N P a i Hwf Hi).
  rewrite (pe_and_offset_eq N P), (num_elems_pe_eq N P), (subarray_index_from_local_eq N P) by assumption.
  by rewrite index_of_local_owner.
Qed.

Lemma index_roundtrip_witness :
  exists pe o n,
    pe_and_offset_for_global_index ex_block 4 = Done (Some (pe, o))
    /\ 0 <= pe < 4 /\ num_elems_pe ex_block pe = Done n /\ 0 <= o < n
    /\ subarray_index_from_local (at_pe ex_block pe) o = Done (Some 4).
Proof. apply (index_roundtrip 10 4 ex_block 4); [exact ex_block_wf|cbn; lia]. Defined.

(** C20: conversely every local element of every PE is some index of the (sub)array:
    the layout is a bijection between the indices and the local elements. *)
Theorem local_roundtrip N P a pe n o :
  layout_wf N P a -> 0 <= pe < P -> num_elems_pe a pe = Done n -> 0 <= o < n ->
  exists i, 0 <= i < size a
    /\ subarray_index_from_local (at_pe a pe) o = Done (Some i)
    /\ pe_and_offset_for_global_index a i = Done (Some (pe, o)).
Proof.
  intros Hwf Hpe Hn Ho. rewrite (num_elems_pe_eq N P) in Hn by assumption. injection Hn as <-.
  exists (index_of_local N P a pe o).
  destruct (index_of_local_spec N P a pe o Hwf Hpe Ho) as (Hi & E1 & E2).
  rewrite (subarray_index_from_local_eq N P), (pe_and_offset_eq N P), E1, E2 by assumption. done.
Qed.

Lemma local_roundtrip_witness :
  exists i, 0 <= i < size ex_cyclic
    /\ subarray_index_from_local (at_pe ex_cyclic 3) 1 = Done (Some i)
    /\ pe_and_offset_for_global_index ex_cyclic i = Done (Some (3, 1)).
Proof.
  apply (local_roundtrip 10 4 ex_cyclic 3 2 1); [exact ex_cyclic_wf|lia|reflexivity|lia].
Defined.

(** the PEs' element counts add up to the length of the (sub)array. *)
Theorem elems_total N P a :
  layout_wf N P a -> total_elems a (Z.to_nat P) = Done (size a).
Proof. apply total_elems_size. Qed.

Lemma elems_total_witness : total_elems ex_block (Z.to_nat 4) = Done (size ex_block).
Proof. apply (elems_total 10 4 ex_block). exact ex_block_wf. Defined.

(** The physical place of an index: the PE and the element of its local memory. *)
Definition cell (a : UnsafeArrayInner) (i : Z) : outcome (option (Z * Z)) :=
  let? (pe, o) := pe_and_offset_for_global_index a i in
  let! s := local_start_index (at_pe a pe) in
  Done (Some (pe, s + o)).

Lemma cell_eq N P a i : layout_wf N P a -> 0 <= i < size a ->
  cell a i = Done (Some (owner N P a (offset a + i), physical N P a (offset a + i))).
Proof.
  intros Hwf Hi. unfold cell. rewrite (pe_and_offset_eq N P) by assumption.
  rewrite (local_start_index_eq N P) by assumption. do 3 f_equal. lia.
Qed.

Lemma sub_array_ok a s e :
  0 <= s <= e -> e <= size a -> offset a + s < USIZE ->
  sub_array a (Included s) (Excluded e) =
    Done {| data := data a; distribution := distribution a;
            orig_elem_per_pe := orig_elem_per_pe a; elem_size := elem_size a;
            offset := offset a + s; size := e - s |}.
Proof.
  intros Hs He Ho. unfold sub_array. rewrite (proj2 (Z.ltb_ge _ _)) by lia.
  rewrite uadd_ok by lia. by rewrite usub_ok by lia.
Qed.

(** C21: [sub_array] shares storage with its parent: it is defined exactly on the
    ranges inside the array (otherwise it panics), keeps the layout invariant, and its
    i-th element is the parent's (start+i)-th, on the same PE and in the same cell. *)
Theorem sub_array_aliases N P a s e :
  layout_wf N P a -> 0 <= s -> 0 <= e ->
  match sub_array a (Included s) (Excluded e) with
  | Done b =>
      s <= e <= size a /\ layout_wf N P b /\ size b = e - s
      /\ forall i, 0 <= i < size b -> cell b i = cell a (s + i)
  | Panic => ~ (s <= e <= size a)
  end.
Proof.
  intros Hwf Hs He. pose proof Hwf as [].
  destruct (Z_le_gt_dec e (size a)) as [He'|He'].
  - destruct (Z_le_gt_dec s e) as [Hse|Hse].
    + rewrite sub_array_ok by lia. set (b := Build_UnsafeArrayInner _ _ _ _ _ _).
      assert (Hb : layout_wf N P b) by (constructor; cbn; (assumption || lia)).
      split; [lia|]. split; [exact Hb|]. split; [reflexivity|].
      intros i Hi. cbn [size b] in Hi. rewrite !(cell_eq N P) by (assumption || (cbn; lia)).
      change (offset b) with (offset a + s). by rewrite Z.add_assoc.
    + unfold sub_array. rewrite (proj2 (Z.ltb_ge _ _)) by lia. destruct (uadd _ _); [|lia].
      unfold usub. rewrite (proj2 (Z.leb_gt _ _)) by lia. lia.
  - unfold sub_array. rewrite (proj2 (Z.ltb_lt _ _)) by lia. lia.
Qed.

Lemma sub_array_aliases_witness :
  match sub_array ex_block (Included 2) (Excluded 9) with
  | Done b =>
      2 <= 9 <= size ex_block /\ layout_wf 10 4 b /\ size b = 9 - 2
      /\ forall i, 0 <= i < size b -> cell b i = cell ex_block (2 + i)
  | Panic => ~ (2 <= 9 <= size ex_block)
  end.
Proof. apply (sub_array_aliases 10 4 ex_block 2 9); [exact ex_block_wf|lia|lia]. Defined.

(** The local memory of every PE: [per_pe_size] elements, as [UnsafeArray::new]
    allocates it. *)
Record mem_wf (N P : Z) (a : UnsafeArrayInner) : Prop := {
  mw_elem : 0 < elem_size a;
  mw_len : mem_len (data a) = per_pe_size N P * elem_size a;
  mw_usize : mem_len (data a) < USIZE;
  mw_NP : N * P <= 2 ^ 50;
}.

Lemma local_start_index_empty N P a pe :
  layout_wf N P a -> N * P <= 2 ^ 50 -> 0 < size a -> 0 <= pe < P -> count N P a pe = 0 ->
  exists s, local_start_index (at_pe a pe) = Done s /\ 0 <= s <= per_pe_size N P.
Proof.
  intros Hwf HNP Hsz Hpe Hc. pose proof Hwf as [].
  pose proof (at_pe_wf N P a pe Hwf Hpe) as Hwf'.
  pose proof (physical_bound N P a (offset a) Hwf HNP ltac:(lia)) as Hph.
  unfold local_start_index. change (my_pe (data (at_pe a pe))) with pe.
  change (num_pes (data (at_pe a pe))) with (num_pes (data a)).
  change (distribution (at_pe a pe)) with (distribution a).
  change (offset (at_pe a pe)) with (offset a).
  unfold physical, count in *. destruct (distribution a) eqn:D.
  - rewrite (pe_for_dist_index_eq N P) by (assumption || (cbn; lia)). cbn [unwrap].
    change (owner N P (at_pe a pe) (offset (at_pe a pe) + 0)) with (owner N P a (offset a + 0)).
    rewrite Z.add_0_r. unfold owner in *. rewrite D in *.
    destruct (block_owner_spec N P a Hwf (offset a) ltac:(lia)) as [Ho Hb].
    destruct (Z.eqb_spec pe (block_owner N P (offset a))) as [E|E].
    + rewrite <- E in *. unfold block_count in Hc. lia.
    + exists 0. split; [reflexivity|lia].
  - rewrite wf_num_pes0, udiv_ok, urem_ok by lia.
    assert (offset a / P <= N) by (apply Z.div_le_upper_bound; nia).
    eexists. split; [apply uadd_ok; destruct (_ <=? pe); lia|]. destruct (_ <=? pe); lia.
Qed.

Lemma local_start_index_bound N P a pe :
  layout_wf N P a -> N * P <= 2 ^ 50 -> 0 < size a -> 0 <= pe < P ->
  exists s, local_start_index (at_pe a pe) = Done s
    /\ 0 <= s /\ s + count N P a pe <= per_pe_size N P.
Proof.
  intros Hwf HNP Hsz Hpe. pose proof (count_bound N P a pe Hwf Hpe).
  destruct (Z.eq_dec (count N P a pe) 0) as [E|E].
  - destruct (local_start_index_empty N P a pe Hwf HNP Hsz Hpe E) as (s & E1 & E2).
    exists s. split; [exact E1|lia].
  - destruct (index_of_local_spec N P a pe 0 Hwf Hpe ltac:(lia)) as (Hi & O & L).
    destruct (index_of_local_spec N P a pe (count N P a pe - 1) Hwf Hpe ltac:(lia)) as (Hi' & O' & L').
    pose proof (local_start_index_eq N P a _ Hwf Hi) as S. cbv zeta in S. rewrite O, L in S.
    pose proof (local_start_index_eq N P a _ Hwf Hi') as S'. cbv zeta in S'. rewrite O', L' in S'.
    rewrite S in S'. injection S' as S'. eexists. split; [exact S|].
    pose proof Hwf as [].
    pose proof (physical_bound N P a (offset a + index_of_local N P a pe 0) Hwf HNP ltac:(lia)).
    pose proof (physical_bound N P a (offset a + index_of_local N P a pe (count N P a pe - 1)) Hwf HNP ltac:(lia)).
    lia.
Qed.

Lemma local_slice_bounds N P a pe :
  layout_wf N P a -> mem_wf N P a -> 0 < size a -> 0 <= pe < P ->
  exists s,
    local_start_index (at_pe a pe) = Done s
    /\ local_as_mut_slice (at_pe a pe)
       = Done (s * elem_size a, s * elem_size a + count N P a pe * elem_size a)
    /\ local_as_mut_ptr (at_pe a pe) = Done (s * elem_size a)
    /\ 0 <= s /\ s + count N P a pe <= per_pe_size N P.
Proof.
  intros Hwf [] Hsz Hpe.
  destruct (local_start_index_bound N P a pe Hwf mw_NP0 Hsz Hpe) as (s & E & Hs & Hb).
  pose proof (count_bound N P a pe Hwf Hpe). pose proof (at_pe_wf N P a pe Hwf Hpe) as Hwf'.
  pose proof Hwf as []. exists s.
  unfold local_as_mut_slice, local_as_mut_ptr, num_elems_local.
  change (my_pe (data (at_pe a pe))) with pe.
  change (elem_size (at_pe a pe)) with (elem_size a).
  change (mem_len (data (at_pe a pe))) with (mem_len (data a)).
  rewrite (num_elems_pe_eq N P), count_at_pe, E by assumption.
  rewrite uadd_ok by nia. rewrite !umul_ok by nia.
  rewrite (proj2 (Z.leb_le _ _)), (proj2 (Z.leb_le _ _)) by nia. cbn [andb].
  split; [reflexivity|]. split; [do 2 f_equal; lia|]. split; [reflexivity|]. lia.
Qed.

(** Where the slice of a PE that has elements starts. *)
Lemma local_slice_start N P a pe :
  layout_wf N P a -> 0 <= pe < P -> 0 < count N P a pe ->
  local_start_index (at_pe a pe) = Done (physical N P a (offset a + index_of_local N P a pe 0)).
Proof.
  intros Hwf Hpe Hc. destruct (index_of_local_spec N P a pe 0 Hwf Hpe ltac:(lia)) as (Hi & O & L).
  pose proof (local_start_index_eq N P a _ Hwf Hi) as S. cbv zeta in S. rewrite O, L in S.
  by rewrite Z.sub_0_r in S.
Qed.

(** C30: the slice of local memory a PE works on has exactly its number of elements and
    lies inside the memory allocated for it: the slice indexing never panics. *)
Theorem local_slice_in_bounds N P a pe n :
  layout_wf N P a -> mem_wf N P a -> 0 < size a -> 0 <= pe < P -> num_elems_pe a pe = Done n ->
  exists lo,
    local_as_mut_slice (at_pe a pe) = Done (lo, lo + n * elem_size a)
    /\ local_as_mut_ptr (at_pe a pe) = Done lo
    /\ 0 <= lo /\ lo + n * elem_size a <= mem_len (data a).
Proof.
  intros Hwf Hmem Hsz Hpe Hn. rewrite (num_elems_pe_eq N P) in Hn by assumption. injection Hn as <-.
  destruct (local_slice_bounds N P a pe Hwf Hmem Hsz Hpe) as (s & _ & E1 & E2 & Hs & Hb).
  destruct Hmem. pose proof (count_bound N P a pe Hwf Hpe).
  exists (s * elem_size a). split; [exact E1|]. split; [exact E2|]. nia.
Qed.

Lemma local_slice_in_bounds_witness :
  exists lo,
    local_as_mut_slice (at_pe ex_block 2) = Done (lo, lo + 3 * elem_size ex_block)
    /\ local_as_mut_ptr (at_pe ex_block 2) = Done lo
    /\ 0 <= lo /\ lo + 3 * elem_size ex_block <= mem_len (data ex_block).
Proof.
  apply (local_slice_in_bounds 10 4 ex_block 2 3);
    [exact ex_block_wf|constructor; (reflexivity || (cbn; lia))|cbn; lia|lia|vm_compute; reflexivity].
Defined.

(** C31: [UnsafeArray::new] establishes the layout and the memory invariants for a block
    or cyclic array of any length, also one shorter than the number of PEs (which is a
    view of an array with one element per PE). *)
Theorem new_wf my_pe0 P size_of_T array_size d :
  0 < P -> 0 <= my_pe0 < P -> 0 <= array_size -> 0 < size_of_T < 2 ^ 13 ->
  Z.max array_size P * P <= 2 ^ 50 ->
  exists a, new my_pe0 P size_of_T array_size d = Done a
    /\ layout_wf (Z.max array_size P) P a /\ mem_wf (Z.max array_size P) P a
    /\ offset a = 0 /\ size a = array_size /\ distribution a = d
    /\ my_pe (data a) = my_pe0.
Proof.
  intros HP Hpe Hsz HT HNP. set (N := Z.max array_size P) in *.
  assert (HPN : 0 < P <= N) by lia. assert (HN : N <= 2 ^ 50) by nia.
  assert (Hpp : 0 < per_pe_size N P <= N).
  { rewrite per_pe_size_eq by assumption. split.
    - apply Z.div_str_pos. lia.
    - apply Z.div_le_upper_bound; nia. }
  unfold new. fold N. change (f64_div (f64_of_usize N) (f64_of_usize P)) with (elem_per_pe N P).
  change (f64_ceil (elem_per_pe N P)) with (per_pe_size N P).
  rewrite as_usize_id by lia. rewrite umul_ok by nia.
  destruct (Z.eqb_spec N array_size) as [E|E]; cbn [negb].
  - eexists. split; [reflexivity|]. cbn.
    repeat split; cbn; (assumption || lia || nia).
  - rewrite sub_array_ok by (cbn; lia). eexists. split; [reflexivity|]. cbn.
    repeat split; cbn; (assumption || lia || nia).
Qed.

Lemma new_wf_witness :
  exists a, new 2 4 8 3 Block = Done a
    /\ layout_wf (Z.max 3 4) 4 a /\ mem_wf (Z.max 3 4) 4 a
    /\ offset a = 0 /\ size a = 3 /\ distribution a = Block
    /\ my_pe (data a) = 2.
Proof. apply (new_wf 2 4 8 3 Block); lia. Defined.

Lemma end_index_for_pe_eq N P a pe :
  layout_wf N P a -> 0 <= pe < P -> 0 < count N P a pe ->
  end_index_for_pe a pe = Done (Some (index_of_local N P a pe (count N P a pe - 1))).
Proof.
  intros Hwf Hpe Hc. pose proof Hwf as []. pose proof (count_bound N P a pe Hwf Hpe).
  destruct (index_of_local_spec N P a pe (count N P a pe - 1) Hwf Hpe ltac:(lia)) as (Hi & _).
  unfold end_index_for_pe. rewrite (start_index_for_pe_eq N P) by assumption.
  unfold index_of_local in *. destruct (distribution a) eqn:D.
  - assert (Ec : count N P a pe = block_count N P a pe) by (unfold count; by rewrite D).
    rewrite Ec in *. rewrite usub_ok by lia. rewrite (pe_for_dist_index_eq N P) by (assumption || lia).
    unfold owner. rewrite D. unfold block_count in *.
    destruct (block_owner_spec N P a Hwf (offset a + (size a - 1)) ltac:(lia)) as [Ho Hb].
    destruct (Z.eqb_spec pe (block_owner N P (offset a + (size a - 1)))) as [E|E].
    + rewrite <- E in *. do 2 f_equal. lia.
    + assert (boundary N P (pe + 1) <= offset a + size a - 1).
      { destruct (Z_le_gt_dec (boundary N P (pe + 1)) (offset a + size a - 1)); [assumption|].
        exfalso. apply E. symmetry. apply (block_owner_unique N P a Hwf); lia. }
      rewrite uadd_ok by lia. rewrite (start_index_for_pe_block N P a Hwf D) by lia.
      unfold block_start. zbool. rewrite usub_ok by lia. do 2 f_equal. lia.
  - rewrite (num_elems_pe_eq N P) by assumption.
    rewrite wf_num_pes0. rewrite usub_ok by lia.
    pose proof (ring_dist_bound P (offset a mod P) pe ltac:(apply Z.mod_pos_bound; lia) Hpe).
    rewrite umul_ok by nia. rewrite uadd_ok by lia. do 2 f_equal. lia.
Qed.

(** [first_global_index_for_pe] and [last_global_index_for_pe] of a PE that holds
    elements are the indices of its first and last local elements. *)
Theorem first_last_index N P a pe n :
  layout_wf N P a -> 0 <= pe < P -> num_elems_pe a pe = Done n -> 0 < n ->
  exists first last,
    start_index_for_pe a pe = Done (Some first)
    /\ end_index_for_pe a pe = Done (Some last)
    /\ subarray_index_from_local (at_pe a pe) 0 = Done (Some first)
    /\ subarray_index_from_local (at_pe a pe) (n - 1) = Done (Some last)
    /\ 0 <= first <= last /\ last < size a.
Proof.
  intros Hwf Hpe Hn Hpos. rewrite (num_elems_pe_eq N P) in Hn by assumption. injection Hn as <-.
  exists (index_of_local N P a pe 0), (index_of_local N P a pe (count N P a pe - 1)).
  destruct (index_of_local_spec N P a pe 0 Hwf Hpe ltac:(lia)) as (Hi & _).
  destruct (index_of_local_spec N P a pe (count N P a pe - 1) Hwf Hpe ltac:(lia)) as (Hi' & _).
  rewrite (start_index_for_pe_eq N P), (end_index_for_pe_eq N P) by assumption.
  rewrite !(subarray_index_from_local_eq N P) by (assumption || lia).
  do 4 (split; [reflexivity|]). split; [|lia]. split; [lia|].
  unfold index_of_local. destruct (distribution a); [lia|]. destruct Hwf. nia.
Qed.

Lemma first_last_index_witness :
  exists first last,
    start_index_for_pe ex_cyclic 2 = Done (Some first)
    /\ end_index_for_pe ex_cyclic 2 = Done (Some last)
    /\ subarray_index_from_local (at_pe ex_cyclic 2) 0 = Done (Some first)
    /\ subarray_index_from_local (at_pe ex_cyclic 2) (2 - 1) = Done (Some last)
    /\ 0 <= first <= last /\ last < size ex_cyclic.
Proof.
  apply (first_last_index 10 4 ex_cyclic 2 2); [exact ex_cyclic_wf|lia|reflexivity|lia].
Defined.
