(* ===== verification/Arch.v ===== *)
(** * Arch: teams of PEs

    Models [src/lamellar_arch.rs]: the [LamellarArch] trait as a class with its three
    implementations ([GlobalArch], [StridedArch], [BlockedArch]), the enum that
    dispatches on them, the team tree [LamellarArchRT] and its iterators. *)

From stdpp Require Import base list numbers.
From Stdlib Require Import ZArith Lia.
From S2P Require Import Prelude.
Local Open Scope Z_scope.

Record IdError := { err_parent_pe : Z; err_team_pe : Z }.

Definition ArchResult (A : Type) : Type := result A IdError.

(** ** The trait *)
Class LamellarArch (A : Type) := {
  num_pes : A -> Z;
  start_pe : A -> Z;
  end_pe : A -> outcome Z;
  parent_pe_id : A -> Z -> outcome (ArchResult Z);
  team_pe_id : A -> Z -> outcome (ArchResult Z);
}.

(** ** [GlobalArch] *)
Record GlobalArch := { g_num_pes : Z }.

#[export] Instance GlobalArch_arch : LamellarArch GlobalArch := {
  num_pes self := g_num_pes self;
  start_pe _ := 0;
  end_pe self := usub (g_num_pes self) 1;
  parent_pe_id self team_pe :=
    if team_pe <? g_num_pes self then Done (Ok team_pe)
    else Done (Err {| err_parent_pe := team_pe; err_team_pe := team_pe |});
  team_pe_id self parent_pe :=
    if parent_pe <? g_num_pes self then Done (Ok parent_pe)
    else Done (Err {| err_parent_pe := parent_pe; err_team_pe := parent_pe |});
}.

(** ** [StridedArch] *)
Record StridedArch := { s_num_pes : Z; s_start_pe : Z; s_end_pe : Z; s_stride : Z }.

(** [for _i in 1..num_team_pes { end_pe += stride; }] *)
Fixpoint add_strides (n : nat) (end_pe stride : Z) : outcome Z :=
  match n with
  | O => Done end_pe
  | S n' => let! e := uadd end_pe stride in add_strides n' e stride
  end.

Definition strided_new (start_pe stride num_team_pes : Z) : outcome StridedArch :=
  let! end_pe := add_strides (Z.to_nat (num_team_pes - 1)) start_pe stride in
  Done {| s_num_pes := num_team_pes; s_start_pe := start_pe; s_end_pe := end_pe;
          s_stride := stride |}.

#[export] Instance StridedArch_arch : LamellarArch StridedArch := {
  num_pes self := s_num_pes self;
  start_pe self := s_start_pe self;
  end_pe self := Done (s_end_pe self);
  parent_pe_id self team_pe :=
    let! m := umul team_pe (s_stride self) in
    let! parent_pe := uadd (s_start_pe self) m in
    if (s_start_pe self <=? parent_pe) && (parent_pe <=? s_end_pe self)
       && (team_pe <? s_num_pes self)
    then Done (Ok parent_pe)
    else Done (Err {| err_parent_pe := parent_pe; err_team_pe := team_pe |});
  team_pe_id self parent_pe :=
    if (s_start_pe self <=? parent_pe) && (parent_pe <=? s_end_pe self) then
      let! d := usub parent_pe (s_start_pe self) in
      let! r := urem d (s_stride self) in
      if r =? 0 then
        let! team_pe := udiv d (s_stride self) in
        if team_pe <? s_num_pes self then Done (Ok team_pe)
        else Done (Err {| err_parent_pe := parent_pe; err_team_pe := team_pe |})
      else Done (Err {| err_parent_pe := parent_pe; err_team_pe := 0 |})
    else Done (Err {| err_parent_pe := parent_pe; err_team_pe := 0 |});
}.

(** ** [BlockedArch] *)
Record BlockedArch := { b_num_pes : Z; b_start_pe : Z; b_end_pe : Z }.

Definition blocked_new (start_pe num_team_pes : Z) : outcome BlockedArch :=
  let! e := uadd start_pe num_team_pes in
  let! end_pe := usub e 1 in
  Done {| b_num_pes := num_team_pes; b_start_pe := start_pe; b_end_pe := end_pe |}.

#[export] Instance BlockedArch_arch : LamellarArch BlockedArch := {
  num_pes self := b_num_pes self;
  start_pe self := b_start_pe self;
  end_pe self := Done (b_end_pe self);
  parent_pe_id self team_pe :=
    let! parent_pe := uadd (b_start_pe self) team_pe in
    if (b_start_pe self <=? parent_pe) && (parent_pe <=? b_end_pe self)
       && (team_pe <? b_num_pes self)
    then Done (Ok parent_pe)
    else Done (Err {| err_parent_pe := parent_pe; err_team_pe := team_pe |});
  team_pe_id self parent_pe :=
    if (b_start_pe self <=? parent_pe) && (parent_pe <=? b_end_pe self) then
      let! team_pe := usub parent_pe (b_start_pe self) in
      if team_pe <? b_num_pes self then Done (Ok team_pe)
      else Done (Err {| err_parent_pe := parent_pe; err_team_pe := team_pe |})
    else Done (Err {| err_parent_pe := parent_pe; err_team_pe := 0 |});
}.

(** ** [LamellarArchEnum]: dispatch, with a user-defined arch behind [Dynamic] *)
Record DynArch := {
  d_num_pes : Z;
  d_start_pe : Z;
  d_end_pe : outcome Z;
  d_parent_pe_id : Z -> outcome (ArchResult Z);
  d_team_pe_id : Z -> outcome (ArchResult Z);
}.

Inductive LamellarArchEnum :=
| GlobalArch_ (arch : GlobalArch)
| StridedArch_ (arch : StridedArch)
| BlockedArch_ (arch : BlockedArch)
| Dynamic (arch : DynArch).

#[export] Instance LamellarArchEnum_arch : LamellarArch LamellarArchEnum := {
  num_pes self := match self with
                  | GlobalArch_ arch => num_pes arch
                  | StridedArch_ arch => num_pes arch
                  | BlockedArch_ arch => num_pes arch
                  | Dynamic arch => d_num_pes arch
                  end;
  start_pe self := match self with
                   | GlobalArch_ arch => start_pe arch
                   | StridedArch_ arch => start_pe arch
                   | BlockedArch_ arch => start_pe arch
                   | Dynamic arch => d_start_pe arch
                   end;
  end_pe self := match self with
                 | GlobalArch_ arch => end_pe arch
                 | StridedArch_ arch => end_pe arch
                 | BlockedArch_ arch => end_pe arch
                 | Dynamic arch => d_end_pe arch
                 end;
  parent_pe_id self team_pe := match self with
                               | GlobalArch_ arch => parent_pe_id arch team_pe
                               | StridedArch_ arch => parent_pe_id arch team_pe
                               | BlockedArch_ arch => parent_pe_id arch team_pe
                               | Dynamic arch => d_parent_pe_id arch team_pe
                               end;
  team_pe_id self world_pe := match self with
                              | GlobalArch_ arch => team_pe_id arch world_pe
                              | StridedArch_ arch => team_pe_id arch world_pe
                              | BlockedArch_ arch => team_pe_id arch world_pe
                              | Dynamic arch => d_team_pe_id arch world_pe
                              end;
}.

(** [LamellarArchEnum::new]: the concrete type of the argument decides the variant,
    so the argument is given by the variant it has. *)
Definition arch_enum_new (arch : LamellarArchEnum) : outcome LamellarArchEnum :=
  let! _ := assert_ (0 <? num_pes arch) in Done arch.

(** ** The team tree *)
Inductive LamellarArchRT := RT {
  rt_parent : option LamellarArchRT;
  rt_arch : LamellarArchEnum;
  rt_num_pes : Z;
}.

Definition rt_new (parent : LamellarArchRT) (arch : LamellarArchEnum) : outcome LamellarArchRT :=
  let! _ := assert_ (num_pes arch <=? rt_num_pes parent) in
  let arch_first := start_pe arch in
  let! arch_last := end_pe arch in
  let first := start_pe (rt_arch parent) in
  let! last := end_pe (rt_arch parent) in
  let! _ := assert_ ((first <=? arch_first) && (arch_first <=? last)
                     && (first <=? arch_last) && (arch_last <=? last)) in
  let! a := arch_enum_new arch in
  Done {| rt_parent := Some parent; rt_num_pes := num_pes arch; rt_arch := a |}.

Fixpoint world_pe (self : LamellarArchRT) (team_pe : Z) : outcome (ArchResult Z) :=
  let^ parent_pe := parent_pe_id (rt_arch self) team_pe in
  match rt_parent self with
  | Some parent => world_pe parent parent_pe
  | None => Done (Ok parent_pe)
  end.

Fixpoint team_pe (self : LamellarArchRT) (world_pe : Z) : outcome (ArchResult Z) :=
  match rt_parent self with
  | Some parent =>
      let^ parent_pe := team_pe parent world_pe in
      team_pe_id (rt_arch self) parent_pe
  | None => team_pe_id (rt_arch self) world_pe
  end.

(** ** Iterators over the world ids of a team *)
Record LamellarArchRTiter := { it_arch : LamellarArchRT; cur_pe : Z; single : bool }.

Definition iter_next (self : LamellarArchRTiter)
  : outcome (option Z * LamellarArchRTiter) :=
  if cur_pe self <? rt_num_pes (it_arch self) then
    let! r := world_pe (it_arch self) (cur_pe self) in
    let res := match r with Ok pe => Some pe | Err _ => None end in
    let! c := if single self then Done (rt_num_pes (it_arch self)) else uadd (cur_pe self) 1 in
    Done (res, {| it_arch := it_arch self; cur_pe := c; single := single self |})
  else Done (None, self).

Definition team_iter (self : LamellarArchRT) : LamellarArchRTiter :=
  {| it_arch := self; cur_pe := 0; single := false |}.
Definition single_iter (self : LamellarArchRT) (pe : Z) : LamellarArchRTiter :=
  {| it_arch := self; cur_pe := pe; single := true |}.

(** [Iterator::collect], bounded by the number of elements asked for. *)
Fixpoint collect (fuel : nat) (it : LamellarArchRTiter) : outcome (list Z) :=
  match fuel with
  | O => Done []
  | S fuel' =>
      let! r := iter_next it in
      match r with
      | (Some pe, it') => let! l := collect fuel' it' in Done (pe :: l)
      | (None, _) => Done []
      end
  end.

(** ** What an arch promises to the team tree *)
Class ArchLaws (A : Type) `{LamellarArch A} (ok : A -> Prop) : Prop := {
  law_num_pes a : ok a -> 0 < num_pes a < USIZE;
  law_parent a t : ok a -> 0 <= t < num_pes a ->
    exists p, parent_pe_id a t = Done (Ok p) /\ 0 <= p /\ team_pe_id a p = Done (Ok t);
  law_team a p t : ok a -> 0 <= p -> team_pe_id a p = Done (Ok t) ->
    0 <= t < num_pes a /\ parent_pe_id a t = Done (Ok p);
  law_range a t p : ok a -> 0 <= t < num_pes a -> parent_pe_id a t = Done (Ok p) ->
    exists e, end_pe a = Done e /\ start_pe a <= p <= e;
}.

Definition global_ok (a : GlobalArch) : Prop := 0 < g_num_pes a < USIZE.
Definition strided_ok (a : StridedArch) : Prop :=
  0 < s_num_pes a < USIZE /\ 0 < s_stride a /\ 0 <= s_start_pe a /\ s_end_pe a < USIZE
  /\ s_end_pe a = s_start_pe a + (s_num_pes a - 1) * s_stride a.
Definition blocked_ok (a : BlockedArch) : Prop :=
  0 < b_num_pes a < USIZE /\ 0 <= b_start_pe a /\ b_end_pe a < USIZE
  /\ b_end_pe a = b_start_pe a + b_num_pes a - 1.

(** [arch_step] evaluates one trait method of a concrete arch. *)
Ltac arch_case := cbn [num_pes start_pe end_pe parent_pe_id team_pe_id GlobalArch_arch
  StridedArch_arch BlockedArch_arch LamellarArchEnum_arch] in *.

#[export] Instance GlobalArch_laws : ArchLaws GlobalArch global_ok.
Proof.
  constructor; unfold global_ok; intros a; [intros; arch_case; lia| | |].
  - intros t H Ht. arch_case. exists t. zbool. repeat split; (lia || done).
  - intros p t H Hp. arch_case. destruct (Z.ltb_spec p (g_num_pes a)); [|done].
    intros [= <-]. zbool. repeat split; (lia || done).
  - intros t p H Ht. arch_case. destruct (Z.ltb_spec t (g_num_pes a)); [|done].
    intros [= <-]. eexists. split; [apply usub_ok; lia|lia].
Qed.

Lemma strided_div s p t : 0 < s -> p = t * s -> p mod s = 0 /\ p / s = t.
Proof. intros Hs ->. split; [apply Z.mod_mul; lia|apply Z.div_mul; lia]. Qed.

#[export] Instance StridedArch_laws : ArchLaws StridedArch strided_ok.
Proof.
  constructor; unfold strided_ok; intros a; [intros; arch_case; lia| | |].
  - intros t (Hn & Hs & H0 & He & Hend) Ht. arch_case.
    assert (t * s_stride a <= (s_num_pes a - 1) * s_stride a) by nia.
    exists (s_start_pe a + t * s_stride a).
    rewrite umul_ok, uadd_ok by lia. zbool; try nia. rewrite usub_ok by nia.
    destruct (strided_div (s_stride a) (s_start_pe a + t * s_stride a - s_start_pe a) t) as [Em Ed]; [lia|lia|].
    rewrite urem_ok, udiv_ok by lia. rewrite Em, Ed. zbool. split; [done|]. split; [nia|done].
  - intros p t (Hn & Hs & H0 & He & Hend) Hp. arch_case.
    destruct (_ && _) eqn:C; [|done]. apply andb_prop in C as [C1 C2]. apply Z.leb_le in C1, C2.
    rewrite usub_ok, urem_ok by lia. destruct (Z.eqb_spec ((p - s_start_pe a) mod s_stride a) 0) as [E|]; [|done].
    rewrite udiv_ok by lia. destruct (Z.ltb_spec ((p - s_start_pe a) / s_stride a) (s_num_pes a)); [|done].
    intros [= <-]. pose proof (Z.div_mod (p - s_start_pe a) (s_stride a) ltac:(lia)) as Dm.
    pose proof (Z.div_pos (p - s_start_pe a) (s_stride a) ltac:(lia) ltac:(lia)).
    set (t := (p - s_start_pe a) / s_stride a) in *.
    assert (Ep : s_start_pe a + t * s_stride a = p) by lia.
    rewrite umul_ok, uadd_ok by lia. rewrite Ep. zbool. split; (lia || done).
  - intros t p (Hn & Hs & H0 & He & Hend) Ht. arch_case.
    assert (t * s_stride a <= (s_num_pes a - 1) * s_stride a) by nia.
    rewrite umul_ok, uadd_ok by lia. destruct (_ && _) eqn:C; [|done]. intros [= <-].
    exists (s_end_pe a). split; [done|nia].
Qed.

#[export] Instance BlockedArch_laws : ArchLaws BlockedArch blocked_ok.
Proof.
  constructor; unfold blocked_ok; intros a; [intros; arch_case; lia| | |].
  - intros t H Ht. arch_case. exists (b_start_pe a + t). rewrite uadd_ok by lia. zbool.
    rewrite usub_ok by lia. replace (b_start_pe a + t - b_start_pe a) with t by lia. zbool.
    split; [done|]. split; [lia|done].
  - intros p t H Hp. arch_case. destruct (_ && _) eqn:C; [|done].
    apply andb_prop in C as [C1 C2]. apply Z.leb_le in C1, C2. rewrite usub_ok by lia.
    destruct (Z.ltb_spec (p - b_start_pe a) (b_num_pes a)); [|done].
    intros [= <-]. rewrite uadd_ok by lia.
    replace (b_start_pe a + (p - b_start_pe a)) with p by lia. zbool. split; (lia || done).
  - intros t p H Ht. arch_case. rewrite uadd_ok by lia. destruct (_ && _) eqn:C; [|done]. intros [= <-].
    exists (b_end_pe a). split; [done|lia].
Qed.

(** A user-defined arch must satisfy the documented contract of the trait. *)
Record dyn_ok (d : DynArch) : Prop := {
  dyn_num_pes : 0 < d_num_pes d < USIZE;
  dyn_parent t : 0 <= t < d_num_pes d ->
    exists p, d_parent_pe_id d t = Done (Ok p) /\ 0 <= p /\ d_team_pe_id d p = Done (Ok t);
  dyn_team p t : 0 <= p -> d_team_pe_id d p = Done (Ok t) ->
    0 <= t < d_num_pes d /\ d_parent_pe_id d t = Done (Ok p);
  dyn_range t p : 0 <= t < d_num_pes d -> d_parent_pe_id d t = Done (Ok p) ->
    exists e, d_end_pe d = Done e /\ d_start_pe d <= p <= e;
}.

Definition arch_ok (a : LamellarArchEnum) : Prop :=
  match a with
  | GlobalArch_ g => global_ok g
  | StridedArch_ s => strided_ok s
  | BlockedArch_ b => blocked_ok b
  | Dynamic d => dyn_ok d
  end.

#[export] Instance LamellarArchEnum_laws : ArchLaws LamellarArchEnum arch_ok.
Proof.
  constructor; intros [g|s|b|d]; cbn [arch_ok]; intros.
  all: first
    [ by apply (law_num_pes (ok := global_ok)) | by apply (law_num_pes (ok := strided_ok))
    | by apply (law_num_pes (ok := blocked_ok)) | by apply dyn_num_pes
    | by apply (law_parent (ok := global_ok)) | by apply (law_parent (ok := strided_ok))
    | by apply (law_parent (ok := blocked_ok)) | by apply dyn_parent
    | by eapply (law_team (ok := global_ok)) | by eapply (law_team (ok := strided_ok))
    | by eapply (law_team (ok := blocked_ok)) | by eapply dyn_team
    | by eapply (law_range (ok := global_ok)) | by eapply (law_range (ok := strided_ok))
    | by eapply (law_range (ok := blocked_ok)) | by eapply dyn_range ].
Qed.

Lemma strided_new_ok start stride n :
  0 <= start -> 0 < stride -> 0 < n < USIZE -> start + (n - 1) * stride < USIZE ->
  exists a, strided_new start stride n = Done a /\ strided_ok a
    /\ s_num_pes a = n /\ s_start_pe a = start /\ s_stride a = stride.
Proof.
  intros H0 Hs Hn Hb. unfold strided_new.
  assert (K : forall k e, 0 <= e -> e + Z.of_nat k * stride < USIZE ->
            add_strides k e stride = Done (e + Z.of_nat k * stride)).
  { induction k as [|k IH]; intros e He Hk; cbn [add_strides]; [f_equal; lia|].
    rewrite uadd_ok by nia. rewrite IH by nia. f_equal. lia. }
  rewrite K by (rewrite ?Z2Nat.id; lia). eexists. split; [reflexivity|]. unfold strided_ok.
  cbn [s_num_pes s_start_pe s_end_pe s_stride]. rewrite Z2Nat.id by lia. repeat split; lia.
Qed.

Lemma blocked_new_ok start n :
  0 <= start -> 0 < n -> start + n < USIZE ->
  exists a, blocked_new start n = Done a /\ blocked_ok a /\ b_num_pes a = n /\ b_start_pe a = start.
Proof.
  intros H0 Hn Hb. unfold blocked_new. rewrite uadd_ok, usub_ok by lia. eexists.
  split; [reflexivity|]. unfold blocked_ok. cbn. lia.
Qed.

(** *** Well-formed team trees: every team is a subset of its parent. *)
Inductive rt_ok : LamellarArchRT -> Prop :=
| rt_ok_root a n : arch_ok a -> n = num_pes a -> rt_ok (RT None a n)
| rt_ok_sub p a n :
    rt_ok p -> arch_ok a -> n = num_pes a ->
    (forall t q, 0 <= t < n -> parent_pe_id a t = Done (Ok q) -> q < rt_num_pes p) ->
    rt_ok (RT (Some p) a n).

Lemma rt_ok_num_pes rt : rt_ok rt -> 0 < rt_num_pes rt < USIZE.
Proof. intros []; cbn; subst; by apply (law_num_pes (ok := arch_ok)). Qed.

Lemma world_pe_total rt : rt_ok rt -> forall t, 0 <= t < rt_num_pes rt ->
  exists w, world_pe rt t = Done (Ok w) /\ 0 <= w /\ team_pe rt w = Done (Ok t).
Proof.
  induction 1 as [a n Ha ->|p a n Hp IH Ha -> Hsub]; cbn [rt_num_pes]; intros t Ht.
  - destruct (law_parent (ok := arch_ok) a t Ha Ht) as (q & E & Hq & E').
    exists q. cbn [world_pe team_pe rt_arch rt_parent]. by rewrite E.
  - destruct (law_parent (ok := arch_ok) a t Ha Ht) as (q & E & Hq & E').
    destruct (IH q) as (w & Ew & Hw & Et). { specialize (Hsub t q Ht E). lia. }
    exists w. cbn [world_pe team_pe rt_arch rt_parent]. rewrite E, Ew, Et. done.
Qed.

Lemma team_pe_sound rt : rt_ok rt -> forall w t, 0 <= w -> team_pe rt w = Done (Ok t) ->
  0 <= t < rt_num_pes rt /\ world_pe rt t = Done (Ok w).
Proof.
  induction 1 as [a n Ha ->|p a n Hp IH Ha -> Hsub]; cbn [rt_num_pes]; intros w t Hw E;
    cbn [world_pe team_pe rt_arch rt_parent] in *.
  - destruct (law_team (ok := arch_ok) a w t Ha Hw E) as [Ht E']. by rewrite E'.
  - destruct (team_pe p w) as [[q|]|] eqn:Eq; try done.
    destruct (IH w q Hw Eq) as [Hq Ew].
    destruct (law_team (ok := arch_ok) a q t Ha ltac:(lia) E) as [Ht E']. by rewrite E'.
Qed.

Lemma world_pe_inj rt t t' w : rt_ok rt -> 0 <= t < rt_num_pes rt -> 0 <= t' < rt_num_pes rt ->
  world_pe rt t = Done (Ok w) -> world_pe rt t' = Done (Ok w) -> t = t'.
Proof.
  intros Hok Ht Ht' E E'. destruct (world_pe_total rt Hok t Ht) as (w1 & E1 & _ & T1).
  destruct (world_pe_total rt Hok t' Ht') as (w2 & E2 & _ & T2). congruence.
Qed.

(** The ids a full iteration yields from position [c] on. *)
Lemma collect_team rt k c : rt_ok rt -> 0 <= c -> c + Z.of_nat k = rt_num_pes rt ->
  exists l, collect (S k) {| it_arch := rt; cur_pe := c; single := false |} = Done l
    /\ length l = k
    /\ forall j, (j < k)%nat -> exists w, l !! j = Some w /\ world_pe rt (c + Z.of_nat j) = Done (Ok w).
Proof.
  intros Hok. pose proof (rt_ok_num_pes rt Hok) as Hn. revert c.
  induction k as [|k IH]; intros c Hc Hk.
  - exists []. cbn [collect]. unfold iter_next. cbn [cur_pe it_arch]. zbool.
    split; [done|]. split; [done|]. intros j Hj. lia.
  - destruct (world_pe_total rt Hok c ltac:(lia)) as (w & Ew & _).
    destruct (IH (c + 1) ltac:(lia) ltac:(lia)) as (l & El & Hl & Hj).
    exists (w :: l). change (collect (S (S k)) ?it) with
      (let! r := iter_next it in
       match r with
       | (Some pe, it') => let! l := collect (S k) it' in Done (pe :: l)
       | (None, _) => Done []
       end).
    unfold iter_next at 1. cbn [cur_pe it_arch single]. rewrite (proj2 (Z.ltb_lt _ _)) by lia.
    rewrite Ew, uadd_ok by lia. rewrite El. split; [done|]. split; [cbn; lia|].
    intros [|j] Hj'; [exists w; by rewrite Z.add_0_r|].
    destruct (Hj j ltac:(lia)) as (w' & E1 & E2). exists w'. split; [exact E1|].
    by replace (c + Z.of_nat (S j)) with (c + 1 + Z.of_nat j) by lia.
Qed.

(** ** Properties *)

(** A world of 20 PEs, the team of its even PEs and every second PE of that team. *)
Definition ex_world : LamellarArchRT := RT None (GlobalArch_ {| g_num_pes := 20 |}) 20.
Definition ex_even : StridedArch := {| s_num_pes := 10; s_start_pe := 0; s_end_pe := 18; s_stride := 2 |}.
Definition ex_team : LamellarArchRT := RT (Some ex_world) (StridedArch_ ex_even) 10.
Definition ex_subteam : LamellarArchRT :=
  RT (Some ex_team) (StridedArch_ {| s_num_pes := 5; s_start_pe := 1; s_end_pe := 9; s_stride := 2 |}) 5.

Lemma ex_world_ok : rt_ok ex_world.
Proof. constructor; [cbn; unfold global_ok; cbn; lia|done]. Qed.

Lemma ex_team_ok : rt_ok ex_team.
Proof.
  constructor; [exact ex_world_ok|cbn; unfold strided_ok; cbn; lia|done|].
  intros t q Ht E. destruct (law_range (ok := strided_ok) ex_even t q) as (e & [= <-] & He);
    [unfold strided_ok; cbn; lia|exact Ht|exact E|]. cbn in He |- *. lia.
Qed.

Example ex_subteam_ids : collect 6 (team_iter ex_subteam) = Done [2; 6; 10; 14; 18].
Proof. vm_compute. reflexivity. Qed.

(** C29: in a well-formed team tree of any depth, [world_pe] is defined on every team id
    and [team_pe] is its inverse, in both directions: team ids and the world ids of the
    members translate into each other. *)
Theorem team_world_roundtrip rt :
  rt_ok rt ->
  (forall t, 0 <= t < rt_num_pes rt ->
     exists w, world_pe rt t = Done (Ok w) /\ 0 <= w /\ team_pe rt w = Done (Ok t))
  /\ (forall w t, 0 <= w -> team_pe rt w = Done (Ok t) ->
        0 <= t < rt_num_pes rt /\ world_pe rt t = Done (Ok w)).
Proof. intros Hok. split; [by apply world_pe_total|by apply team_pe_sound]. Qed.

Lemma team_world_roundtrip_witness :
  (forall t, 0 <= t < rt_num_pes ex_team ->
     exists w, world_pe ex_team t = Done (Ok w) /\ 0 <= w /\ team_pe ex_team w = Done (Ok t))
  /\ (forall w t, 0 <= w -> team_pe ex_team w = Done (Ok t) ->
        0 <= t < rt_num_pes ex_team /\ world_pe ex_team t = Done (Ok w)).
Proof. apply (team_world_roundtrip ex_team). exact ex_team_ok. Defined.

(** iterating over a team ends after [num_pes] steps and yields the world id of
    each member once, in team order. *)
Theorem team_iter_members rt :
  rt_ok rt ->
  exists l, collect (S (Z.to_nat (rt_num_pes rt))) (team_iter rt) = Done l
    /\ Z.of_nat (length l) = rt_num_pes rt /\ NoDup l
    /\ forall t, 0 <= t < rt_num_pes rt ->
         exists w, l !! Z.to_nat t = Some w /\ world_pe rt t = Done (Ok w).
Proof.
  intros Hok. pose proof (rt_ok_num_pes rt Hok).
  destruct (collect_team rt (Z.to_nat (rt_num_pes rt)) 0 Hok) as (l & El & Hl & Hj); [lia|lia|].
  exists l. split; [exact El|]. split; [lia|]. split.
  - apply NoDup_alt. intros i j w Hi Hj'.
    destruct (Hj i) as (w1 & E1 & W1); [apply lookup_lt_Some in Hi; lia|].
    destruct (Hj j) as (w2 & E2 & W2); [apply lookup_lt_Some in Hj'; lia|].
    apply lookup_lt_Some in Hi as Li. apply lookup_lt_Some in Hj' as Lj.
    assert (0 + Z.of_nat i = 0 + Z.of_nat j); [|lia].
    apply (world_pe_inj rt _ _ w Hok); [lia|lia|congruence|congruence].
  - intros t Ht. destruct (Hj (Z.to_nat t)) as (w & E & W); [lia|]. exists w.
    rewrite Z2Nat.id in W by lia. done.
Qed.

Lemma team_iter_members_witness :
  exists l, collect (S (Z.to_nat (rt_num_pes ex_team))) (team_iter ex_team) = Done l
    /\ Z.of_nat (length l) = rt_num_pes ex_team /\ NoDup l
    /\ forall t, 0 <= t < rt_num_pes ex_team ->
         exists w, l !! Z.to_nat t = Some w /\ world_pe ex_team t = Done (Ok w).
Proof. apply (team_iter_members ex_team). exact ex_team_ok. Defined.

(** a single-element iterator yields the member's world id and nothing more, and is
    empty for an id outside the team. *)
Theorem single_iter_member rt t k :
  rt_ok rt -> 0 <= t < USIZE ->
  if t <? rt_num_pes rt
  then exists w, collect (S (S k)) (single_iter rt t) = Done [w] /\ world_pe rt t = Done (Ok w)
  else collect (S k) (single_iter rt t) = Done [].
Proof.
  intros Hok Ht. destruct (Z.ltb_spec t (rt_num_pes rt)) as [Hlt|Hge].
  - destruct (world_pe_total rt Hok t ltac:(lia)) as (w & Ew & _). exists w. split; [|exact Ew].
    cbn [collect]. unfold single_iter, iter_next. cbn [cur_pe it_arch single].
    rewrite (proj2 (Z.ltb_lt _ _)) by lia. rewrite Ew. cbn [cur_pe it_arch single].
    by rewrite Z.ltb_irrefl.
  - cbn [collect]. unfold single_iter, iter_next. cbn [cur_pe it_arch single].
    by rewrite (proj2 (Z.ltb_ge _ _)) by lia.
Qed.

Lemma single_iter_member_witness :
  if 3 <? rt_num_pes ex_team
  then exists w, collect 2 (single_iter ex_team 3) = Done [w] /\ world_pe ex_team 3 = Done (Ok w)
  else collect 1 (single_iter ex_team 3) = Done [].
Proof. apply (single_iter_member ex_team 3 0); [exact ex_team_ok|lia]. Defined.

(** creating a team directly below the world: [LamellarArchRT::new] succeeds
    exactly when the arch is a subset of the world, and the new team is well formed. *)
Theorem rt_new_below_world n a e :
  0 < n < USIZE -> arch_ok a -> end_pe a = Done e -> 0 <= start_pe a ->
  parent_pe_id a (num_pes a - 1) = Done (Ok e) ->
  let world := RT None (GlobalArch_ {| g_num_pes := n |}) n in
  match rt_new world a with
  | Done rt => rt_ok rt /\ rt_num_pes rt = num_pes a /\ rt_parent rt = Some world
  | Panic => num_pes a > n \/ exists t q, 0 <= t < num_pes a
                              /\ parent_pe_id a t = Done (Ok q) /\ n <= q
  end.
Proof.
  intros Hn Ha He Hs Hlast world. pose proof (law_num_pes (ok := arch_ok) a Ha) as Hnum.
  unfold rt_new, arch_enum_new, assert_. rewrite He. subst world.
  cbn [rt_num_pes rt_arch]. change (start_pe (GlobalArch_ _)) with 0.
  change (end_pe (GlobalArch_ {| g_num_pes := n |})) with (usub n 1).
  rewrite usub_ok by lia. destruct (Z.leb_spec (num_pes a) n); [|left; lia].
  assert (Hl : 0 <= num_pes a - 1 < num_pes a) by lia.
  destruct (law_range (ok := arch_ok) a (num_pes a - 1) e Ha Hl Hlast) as (e' & Ee & Hr).
  assert (e' = e) by congruence. subst e'.
  destruct (Z.leb_spec e (n - 1)).
  - zbool. split; [|done]. constructor; [constructor; [cbn; unfold global_ok; cbn; lia|done]|done|done|].
    intros t q Ht Eq. destruct (law_range (ok := arch_ok) a t q Ha Ht Eq) as (e'' & Ee' & Hr').
    assert (e'' = e) by congruence. subst. cbn. lia.
  - rewrite !andb_false_r. right. exists (num_pes a - 1), e. split; [lia|]. split; [done|lia].
Qed.

Lemma rt_new_below_world_witness :
  match rt_new (RT None (GlobalArch_ {| g_num_pes := 20 |}) 20) (StridedArch_ ex_even) with
  | Done rt => rt_ok rt /\ rt_num_pes rt = 10
      /\ rt_parent rt = Some (RT None (GlobalArch_ {| g_num_pes := 20 |}) 20)
  | Panic => 10 > 20 \/ exists t q, 0 <= t < 10
               /\ parent_pe_id (StridedArch_ ex_even) t = Done (Ok q) /\ 20 <= q
  end.
Proof.
  apply (rt_new_below_world 20 (StridedArch_ ex_even) 18);
    [lia|cbn; unfold strided_ok; cbn; lia|reflexivity|cbn; lia|reflexivity].
Defined.

(** below a subteam the same check compares ids of two different id spaces: the
    first half of a team on the PEs 10..19 is refused, and the ids 10..14, which that
    team does not have, are accepted and have no world id. *)
Theorem rt_new_below_subteam_refuted :
  let world := RT None (GlobalArch_ {| g_num_pes := 20 |}) 20 in
  let upper := BlockedArch_ {| b_num_pes := 10; b_start_pe := 10; b_end_pe := 19 |} in
  let inside := BlockedArch_ {| b_num_pes := 5; b_start_pe := 0; b_end_pe := 4 |} in
  let outside := BlockedArch_ {| b_num_pes := 5; b_start_pe := 10; b_end_pe := 14 |} in
  exists team bad,
    rt_new world upper = Done team
    /\ rt_new team inside = Panic /\ rt_ok (RT (Some team) inside 5)
    /\ rt_new team outside = Done bad
    /\ world_pe bad 0 = Done (Err {| err_parent_pe := 20; err_team_pe := 10 |}).
Proof.
  cbn zeta. set (world := RT _ _ _). set (upper := BlockedArch_ _).
  exists (RT (Some world) upper 10).
  exists (RT (Some (RT (Some world) upper 10))
             (BlockedArch_ {| b_num_pes := 5; b_start_pe := 10; b_end_pe := 14 |}) 5).
  split; [reflexivity|]. split; [reflexivity|]. split; [|split; reflexivity].
  assert (Hb : forall a, blocked_ok a -> arch_ok (BlockedArch_ a)) by done.
  constructor; [constructor| |done|].
  - exact ex_world_ok.
  - apply Hb. unfold blocked_ok. cbn. lia.
  - done.
  - intros t q Ht E. destruct (law_range (ok := arch_ok) upper t q) as (e & [= <-] & He);
      [apply Hb; unfold blocked_ok; cbn; lia|exact Ht|exact E|].
    unfold upper in He. cbn in He |- *. lia.
  - apply Hb. unfold blocked_ok. cbn. lia.
  - intros t q Ht E. set (b := {| b_num_pes := 5; b_start_pe := 0; b_end_pe := 4 |}) in *.
    destruct (law_range (ok := arch_ok) (BlockedArch_ b) t q) as (e & [= <-] & He);
      [apply Hb; unfold blocked_ok; cbn; lia|exact Ht|exact E|]. cbn in He |- *. lia.
Qed.
