(* ===== verification/Alloc.v ===== *)
(** * Alloc: what the runtime's allocators promise, and the pool that uses them

    [calc_padding] of [src/lamellar_alloc.rs], the arithmetic of disjoint blocks the
    allocators share, the interface [Allocator] (the [LamellarAlloc] trait with its
    contract) and its client, the pool of allocators behind [rt_alloc], [rt_free] and
    [rt_check_alloc] of [src/lamellae/shmem/shmem_comm.rs]. *)

From stdpp Require Import base list numbers sorting.
From Stdlib Require Import ZArith Lia.
From S2P Require Import Prelude.
Local Open Scope Z_scope.

(** ** [calc_padding] *)
Definition calc_padding (addr align : Z) : outcome Z :=
  let! rem := urem addr align in
  if rem =? 0 then Done 0 else usub align rem.

(** The padding as a function, for a non-zero alignment. *)
Definition pad (addr align : Z) : Z := (- addr) mod align.

Lemma pad_bound addr align : 0 < align -> 0 <= pad addr align < align.
Proof. intros H. by apply Z.mod_pos_bound. Qed.

Lemma pad_aligned addr align : 0 < align -> (addr + pad addr align) mod align = 0.
Proof.
  intros H. unfold pad. rewrite Z.add_mod_idemp_r by lia. by rewrite Z.add_opp_diag_r.
Qed.

Lemma calc_padding_eq addr align : 0 < align -> calc_padding addr align = Done (pad addr align).
Proof.
  intros H. unfold calc_padding, pad. rewrite urem_ok by lia.
  pose proof (Z.mod_pos_bound addr align H).
  destruct (Z.eqb_spec (addr mod align) 0) as [E|E].
  - by rewrite Z_mod_zero_opp_full.
  - rewrite usub_ok by lia. by rewrite Z_mod_nz_opp_full.
Qed.

(** ** Disjoint blocks [(start, length)] *)
Definition disj (b c : Z * Z) : Prop := b.1 + b.2 <= c.1 \/ c.1 + c.2 <= b.1.

#[export] Instance disj_sym : Symmetric disj.
Proof. intros b c. unfold disj. lia. Qed.

Fixpoint pdisj (l : list (Z * Z)) : Prop :=
  match l with
  | [] => True
  | b :: l' => Forall (disj b) l' /\ pdisj l'
  end.

#[export] Instance pdisj_proper : Proper ((≡ₚ) ==> iff) pdisj.
Proof.
  assert (K : forall l l', l ≡ₚ l' -> pdisj l -> pdisj l').
  { induction 1 as [|b l l' HP IH|b c l|l l' l'' H1 IH1 H2 IH2]; cbn; [done| | |naive_solver].
    - intros [F D]. split; [by rewrite <- HP|auto].
    - rewrite !Forall_cons. intros [[Hbc Hb] [Hc D]]. by repeat split. }
  intros l l' HP. split; apply K; [done|by symmetry].
Qed.

Fixpoint total (l : list (Z * Z)) : Z :=
  match l with [] => 0 | b :: l' => b.2 + total l' end.

#[export] Instance total_proper : Proper ((≡ₚ) ==> (=)) total.
Proof. intros l l' HP. induction HP; cbn; lia. Qed.

Lemma total_app l k : total (l ++ k) = total l + total k.
Proof. induction l as [|b l IH]; cbn; lia. Qed.

(** A list of non-empty disjoint blocks that fills the region [lo .. lo+len). *)
Record tiles (lo len : Z) (l : list (Z * Z)) : Prop := {
  tiles_disj : pdisj l;
  tiles_in : Forall (fun b => 0 < b.2 /\ lo <= b.1 /\ b.1 + b.2 <= lo + len) l;
  tiles_total : total l = len;
}.

#[export] Instance tiles_proper lo len : Proper ((≡ₚ) ==> iff) (tiles lo len).
Proof.
  intros l l' HP. split; intros [D F T]; constructor.
  all: first [by rewrite <- HP | by rewrite HP].
Qed.

Lemma tiles_split lo len a s k l : 0 < k < s ->
  tiles lo len ((a, s) :: l) -> tiles lo len ((a, k) :: (a + k, s - k) :: l).
Proof.
  intros Hk [[D1 D2] F T]. rewrite Forall_cons in F. destruct F as [Fb F]. cbn in *.
  constructor; cbn.
  - rewrite Forall_cons. repeat split; [unfold disj; cbn; lia| | |done];
      (eapply Forall_impl; [exact D1|]; intros c; unfold disj; cbn; lia).
  - rewrite !Forall_cons. cbn. repeat split; (lia || done).
  - lia.
Qed.

Lemma tiles_merge lo len a s s' l :
  tiles lo len ((a, s) :: (a + s, s') :: l) -> tiles lo len ((a, s + s') :: l).
Proof.
  intros [[D1 [D2 D3]] F T]. rewrite !Forall_cons in *. destruct F as (F1 & F2 & F). cbn in *.
  destruct D1 as [_ D1]. constructor; cbn.
  - split; [|done]. rewrite Forall_forall in *. intros c Hc.
    specialize (D1 c Hc). specialize (D2 c Hc). specialize (F c Hc). unfold disj in *. cbn in *. lia.
  - rewrite Forall_cons. cbn. repeat split; (lia || done).
  - lia.
Qed.

Lemma tiles_elem lo len l b : tiles lo len l -> b ∈ l ->
  0 < b.2 /\ lo <= b.1 /\ b.1 + b.2 <= lo + len.
Proof. intros [_ F _] Hb. rewrite Forall_forall in F. by apply F. Qed.

(** ** The interface *)
Class Allocator (A : Type) := {
  al_ok : A -> Prop;
  al_live : A -> list (Z * Z);      (* address and size of the allocated blocks *)
  al_lo : A -> Z;                   (* first address of the region *)
  al_len : A -> Z;                  (* length of the region *)
  al_req : A -> Z -> Z -> Prop;     (* requests (size, align) the allocator serves *)
  al_addr : A -> Z -> Prop;         (* addresses [free] may be asked about *)
  al_try_malloc : A -> Z -> Z -> outcome (option Z * A);
  al_fake_malloc : A -> Z -> Z -> outcome (bool * A);
  al_free : A -> Z -> outcome (result unit Z * A);
}.

Class AllocatorLaws (A : Type) `{Allocator A} : Prop := {
  al_live_disj a : al_ok a -> pdisj (al_live a);
  al_live_in a : al_ok a ->
    Forall (fun b => 0 < b.2 /\ al_lo a <= b.1 /\ b.1 + b.2 <= al_lo a + al_len a) (al_live a);
  al_malloc_spec a size align : al_ok a -> al_req a size align ->
    exists r a', al_try_malloc a size align = Done (r, a') /\ al_ok a'
      /\ al_lo a' = al_lo a /\ al_len a' = al_len a
      /\ match r with
         | Some p => p mod align = 0 /\ al_live a' ≡ₚ (p, size) :: al_live a
         | None => al_live a' ≡ₚ al_live a
         end;
  al_free_live a p s : al_ok a -> (p, s) ∈ al_live a ->
    exists a', al_free a p = Done (Ok (), a') /\ al_ok a'
      /\ al_lo a' = al_lo a /\ al_len a' = al_len a
      /\ al_live a ≡ₚ (p, s) :: al_live a';
  al_free_dead a p : al_ok a -> al_addr a p -> (forall s, (p, s) ∉ al_live a) ->
    al_free a p = Done (Err p, a);
}.

(** ** The client: a pool of allocators ([ShmemComm::alloc]) *)
Inductive AllocError := OutOfMemoryError (size : Z) | IdError (pe : Z).
Definition AllocResult (T : Type) : Type := result T AllocError.

Section Pool.
Context {A : Type} `{AllocatorLaws A}.

Fixpoint rt_alloc (allocs : list A) (size align : Z) : outcome (AllocResult Z * list A) :=
  match allocs with
  | [] => Done (Err (OutOfMemoryError size), [])
  | alloc :: rest =>
      let! (r, alloc') := al_try_malloc alloc size align in
      match r with
      | Some addr => Done (Ok addr, alloc' :: rest)
      | None =>
          let! (r', rest') := rt_alloc rest size align in
          Done (r', alloc' :: rest')
      end
  end.

Fixpoint rt_check_alloc (allocs : list A) (size align : Z) : outcome (bool * list A) :=
  match allocs with
  | [] => Done (false, [])
  | alloc :: rest =>
      let! (b, alloc') := al_fake_malloc alloc size align in
      if b then Done (true, alloc' :: rest)
      else
        let! (b', rest') := rt_check_alloc rest size align in
        Done (b', alloc' :: rest')
  end.

(** The loop ends in [panic!("Error invalid free!")]. *)
Fixpoint rt_free (allocs : list A) (addr : Z) : outcome (list A) :=
  match allocs with
  | [] => Panic
  | alloc :: rest =>
      let! (r, alloc') := al_free alloc addr in
      match r with
      | Ok _ => Done (alloc' :: rest)
      | Err _ => let! rest' := rt_free rest addr in Done (alloc' :: rest')
      end
  end.

Definition region (a : A) : Z * Z := (al_lo a, al_len a).
Definition pool_live (allocs : list A) : list (Z * Z) := mjoin (al_live <$> allocs).
Definition pool_ok (allocs : list A) : Prop :=
  Forall al_ok allocs /\ pdisj (region <$> allocs).

Lemma pdisj_app l k : pdisj (l ++ k) <-> pdisj l /\ pdisj k /\ Forall (fun b => Forall (disj b) k) l.
Proof.
  induction l as [|b l IH]; cbn; [by rewrite Forall_nil; naive_solver|].
  rewrite IH, Forall_app, Forall_cons. naive_solver.
Qed.

Lemma pool_live_in allocs : Forall al_ok allocs ->
  Forall (fun b => exists r, r ∈ region <$> allocs /\ 0 < b.2 /\ r.1 <= b.1 /\ b.1 + b.2 <= r.1 + r.2)
    (pool_live allocs).
Proof.
  induction 1 as [|a l Ha _ IH]; cbn; [done|]. apply Forall_app. split.
  - eapply Forall_impl; [by apply al_live_in|]. intros b Hb. exists (region a). split; [left|exact Hb].
  - eapply Forall_impl; [exact IH|]. intros b (r & Hr & Hb). exists r. split; [by right|done].
Qed.

(** All blocks handed out by all allocators of a pool are disjoint. *)
Lemma pool_live_disj allocs : pool_ok allocs -> pdisj (pool_live allocs).
Proof.
  intros [Hok Hd]. induction Hok as [|a l Ha Hl IH]; cbn in *; [done|].
  destruct Hd as [Hd1 Hd2]. apply pdisj_app. split; [by apply al_live_disj|]. split; [auto|].
  eapply Forall_impl; [by apply al_live_in|]. intros b Hb. cbn in Hb.
  eapply Forall_impl; [by apply pool_live_in|]. intros c (r & Hr & Hc).
  rewrite Forall_forall in Hd1. specialize (Hd1 r Hr). unfold disj, region in *. cbn in *. lia.
Qed.

Lemma pool_ok_update l a a' : pool_ok (a :: l) -> al_ok a' -> region a' = region a -> pool_ok (a' :: l).
Proof.
  intros [Hok Hd] Ha' E. apply Forall_cons in Hok as [_ Hl]. cbn in *.
  split; [by constructor|]. cbn. by rewrite E.
Qed.

Lemma pool_ok_tail l l' a : pool_ok (a :: l) -> pool_ok l' -> region <$> l' = region <$> l ->
  pool_ok (a :: l').
Proof.
  intros [Hok Hd] [Hl' Hd'] E. apply Forall_cons in Hok as [Ha _]. cbn in *.
  split; [by constructor|]. cbn. by rewrite E.
Qed.

Lemma region_eq a a' : al_lo a' = al_lo a -> al_len a' = al_len a -> region a' = region a.
Proof. unfold region. congruence. Qed.

(** An allocator asked for a block may also have nothing to give, or panic. *)
Definition refuses (size align : Z) (a : A) : Prop :=
  exists a', al_try_malloc a size align = Done (None, a').
Definition serves (size align : Z) (a : A) : Prop :=
  al_req a size align \/ al_try_malloc a size align = Panic.

Lemma rt_alloc_spec allocs size align :
  pool_ok allocs -> Forall (serves size align) allocs ->
  match rt_alloc allocs size align with
  | Done (r, allocs') =>
      pool_ok allocs' /\ region <$> allocs' = region <$> allocs
      /\ match r with
         | Ok p => p mod align = 0 /\ pool_live allocs' ≡ₚ (p, size) :: pool_live allocs
         | Err e => e = OutOfMemoryError size /\ pool_live allocs' ≡ₚ pool_live allocs
                    /\ Forall (refuses size align) allocs
         end
  | Panic => exists pre a post, allocs = pre ++ a :: post
      /\ Forall (refuses size align) pre /\ al_try_malloc a size align = Panic
  end.
Proof.
  induction allocs as [|a l IH]; intros Hok Hreq; cbn [rt_alloc]; [done|].
  apply Forall_cons in Hreq as [Hr Hrl]. pose proof Hok as [Hok' Hd].
  apply Forall_cons in Hok' as [Ha Hl]. destruct Hd as [_ Hd].
  destruct Hr as [Hr|Hr]; [|rewrite Hr; by exists [], a, l].
  destruct (al_malloc_spec a size align Ha Hr) as (r & a' & E & Ha' & Elo & Elen & Hlive).
  rewrite E. pose proof (region_eq a a' Elo Elen) as Er. destruct r as [p|].
  - destruct Hlive as [Hal Hp]. split; [by apply (pool_ok_update l a)|]. split; [cbn; by rewrite Er|].
    split; [done|]. cbn. by rewrite Hp.
  - assert (Href : refuses size align a) by (by exists a').
    specialize (IH (conj Hl Hd) Hrl). destruct (rt_alloc l size align) as [[r' l']|].
    2:{ destruct IH as (pre & b & post & -> & Hpre & Hb). exists (a :: pre), b, post. auto. }
    destruct IH as (Hok'' & Er' & Hm).
    split; [apply (pool_ok_tail l); [by apply (pool_ok_update l a)|done|done]|].
    split; [cbn; by rewrite Er, Er'|]. destruct r' as [p|e].
    + destruct Hm as [Hal Hm]. split; [done|]. cbn. rewrite Hlive.
      etransitivity; [apply Permutation_app_head, Hm|]. symmetry. apply Permutation_middle.
    + destruct Hm as (-> & Hm & Hf). split_and!; [done|cbn; by rewrite Hlive, Hm|by constructor].
Qed.

(** The pools in front refuse, the next one panics: so does [rt_alloc]. *)
Lemma rt_alloc_panics pre a post size align :
  Forall (refuses size align) pre -> al_try_malloc a size align = Panic ->
  rt_alloc (pre ++ a :: post) size align = Panic.
Proof.
  intros Hpre Ha. induction Hpre as [|b pre [b' Hb] _ IH]; cbn; [by rewrite Ha|by rewrite Hb, IH].
Qed.

Lemma rt_free_spec allocs p s :
  pool_ok allocs -> Forall (fun a => al_addr a p) allocs -> (p, s) ∈ pool_live allocs ->
  exists allocs', rt_free allocs p = Done allocs' /\ pool_ok allocs'
    /\ region <$> allocs' = region <$> allocs
    /\ pool_live allocs ≡ₚ (p, s) :: pool_live allocs'.
Proof.
  induction allocs as [|a l IH]; intros Hok Haddr Hin; cbn [rt_free]; [by apply not_elem_of_nil in Hin|].
  apply Forall_cons in Haddr as [Hadd Haddl].
  pose proof (pool_live_disj _ Hok) as Hdisj. pose proof Hok as [Hok' [_ Hd]].
  apply Forall_cons in Hok' as [Ha Hl].
  cbn in Hin. apply elem_of_app in Hin as [Hin|Hin].
  - destruct (al_free_live a p s Ha Hin) as (a' & E & Ha' & Elo & Elen & Hp). rewrite E.
    pose proof (region_eq a a' Elo Elen) as Er.
    exists (a' :: l). split; [done|]. split; [by apply (pool_ok_update l a)|].
    split; [cbn; by rewrite Er|]. cbn. by rewrite Hp.
  - assert (Hdead : forall s', (p, s') ∉ al_live a).
    { intros s' Hs'. change (pool_live (a :: l)) with (al_live a ++ pool_live l) in Hdisj.
      apply pdisj_app in Hdisj as (_ & _ & Hf).
      rewrite Forall_forall in Hf. specialize (Hf _ Hs'). rewrite Forall_forall in Hf.
      specialize (Hf _ Hin). pose proof (al_live_in a Ha) as Hi. rewrite Forall_forall in Hi.
      specialize (Hi _ Hs'). pose proof (pool_live_in l Hl) as Hj. rewrite Forall_forall in Hj.
      destruct (Hj _ Hin) as (r & _ & Hpos & _). unfold disj in Hf. cbn in *. lia. }
    rewrite (al_free_dead a p Ha Hadd Hdead).
    destruct (IH (conj Hl Hd) Haddl Hin) as (l' & E & Hok'' & Er & Hp). rewrite E.
    exists (a :: l'). split; [done|]. split; [by apply (pool_ok_tail l)|]. split; [cbn; by rewrite Er|].
    cbn. etransitivity; [apply Permutation_app_head, Hp|]. symmetry. apply Permutation_middle.
Qed.

Lemma rt_free_dead allocs p :
  pool_ok allocs -> Forall (fun a => al_addr a p) allocs -> (forall s, (p, s) ∉ pool_live allocs) ->
  rt_free allocs p = Panic.
Proof.
  intros [Hok _] Haddr Hin. induction Hok as [|a l Ha Hl IH]; cbn [rt_free]; [done|].
  apply Forall_cons in Haddr as [Hadd Haddl]. rewrite (al_free_dead a p Ha Hadd).
  - rewrite IH; [done|done|]. intros s Hs. apply (Hin s). cbn. apply elem_of_app. by right.
  - intros s Hs. apply (Hin s). cbn. apply elem_of_app. by left.
Qed.
End Pool.
