(* ===== verification/LinearAlloc.v ===== *)
(** * LinearAlloc: the first-fit allocator and the object allocator

    Models [LinearAlloc] and [ObjAlloc] of [src/lamellar_alloc.rs].  Every operation
    runs under one mutex, so an operation is one atomic step on the state. *)

From stdpp Require Import base list numbers sorting.
From Stdlib Require Import ZArith Lia.
From S2P Require Import Prelude Alloc.
Local Open Scope Z_scope.

Record Vma := { vma_addr : Z; vma_padding : Z; vma_size : Z }.

Record LinearAlloc := {
  entries : list Vma;
  start_addr : Z;
  max_size : Z;
  last_idx : Z;
  free_space : Z;
}.

Definition linear_new : LinearAlloc :=
  {| entries := []; start_addr := 0; max_size := 0; last_idx := 0; free_space := 0 |}.

Definition linear_init (self : LinearAlloc) (start_addr size : Z) : LinearAlloc :=
  {| entries := entries self; start_addr := start_addr; max_size := size;
     last_idx := last_idx self; free_space := size |}.

(** The [for i in 0..entries.len()] loop of [try_malloc]: the entries still to look at,
    the index of the first of them, and [prev_end], [padding], [idx]. *)
Fixpoint linear_scan (size align : Z) (es : list Vma) (i : nat) (prev_end padding : Z)
    (idx : nat) : outcome (Z * Z * nat) :=
  match es with
  | [] => Done (prev_end, padding, idx)
  | e :: es' =>
      let! gap := usub (vma_addr e) prev_end in
      let! need := uadd size padding in
      if need <=? gap then Done (prev_end, padding, idx)
      else
        let! x := uadd (vma_addr e) (vma_size e) in
        let! prev_end' := uadd x (vma_padding e) in
        let! padding' := calc_padding prev_end' align in
        linear_scan size align es' (S i) prev_end' padding' (S i)
  end.

(** [Vec::insert] *)
Definition vec_insert {A} (idx : nat) (x : A) (l : list A) : list A :=
  take idx l ++ x :: drop idx l.

Definition linear_try_malloc (self : LinearAlloc) (size align : Z)
  : outcome (option Z * LinearAlloc) :=
  if (0 <? length (entries self))%nat then
    let! padding0 := calc_padding (start_addr self) align in
    let! (prev_end, padding, idx) :=
      linear_scan size align (entries self) 0 (start_addr self) padding0 0 in
    let! x := uadd prev_end size in
    let! y := uadd x padding in
    let! limit := uadd (start_addr self) (max_size self) in
    if y <=? limit then
      let! full := uadd size padding in
      let! addr := uadd prev_end padding in
      Done (Some addr,
            {| entries := vec_insert idx {| vma_addr := prev_end; vma_padding := padding;
                                            vma_size := size |} (entries self);
               start_addr := start_addr self; max_size := max_size self;
               last_idx := last_idx self; free_space := wsub (free_space self) full |})
    else Done (None, self)
  else
    let! padding := calc_padding (start_addr self) align in
    let! full := uadd size padding in
    let! limit := uadd (start_addr self) (max_size self) in
    if full <=? limit then
      let! addr := uadd (start_addr self) padding in
      Done (Some addr,
            {| entries := [{| vma_addr := start_addr self; vma_padding := padding;
                              vma_size := size |}];
               start_addr := start_addr self; max_size := max_size self;
               last_idx := last_idx self; free_space := wsub (free_space self) full |})
    else Done (None, self).

Definition linear_fake_malloc (self : LinearAlloc) (size align : Z) : outcome bool :=
  if (0 <? length (entries self))%nat then
    let! padding0 := calc_padding (start_addr self) align in
    let! (prev_end, padding, _) :=
      linear_scan size align (entries self) 0 (start_addr self) padding0 0 in
    let! x := uadd prev_end size in
    let! y := uadd x padding in
    let! limit := uadd (start_addr self) (max_size self) in
    Done (y <=? limit)
  else
    let! padding := calc_padding (start_addr self) align in
    let! full := uadd size padding in
    let! limit := uadd (start_addr self) (max_size self) in
    Done (full <=? limit).

(** [malloc] retries [try_malloc] until it succeeds; [wait n] is the state other
    threads leave behind when the [n]-th attempt has failed. *)
Fixpoint linear_malloc (fuel : nat) (wait : nat -> LinearAlloc -> LinearAlloc) (n : nat)
    (self : LinearAlloc) (size align : Z) : option (outcome (Z * LinearAlloc)) :=
  match fuel with
  | O => None
  | S fuel' =>
      match linear_try_malloc self size align with
      | Done (Some addr, self') => Some (Done (addr, self'))
      | Done (None, self') => linear_malloc fuel' wait (S n) (wait n self') size align
      | Panic => Some Panic
      end
  end.

(** The loop of [free]: the position of the entry whose block starts at [addr]. *)
Fixpoint linear_find (addr : Z) (es : list Vma) (i : nat) : outcome (option nat) :=
  match es with
  | [] => Done None
  | e :: es' =>
      let! a := usub addr (vma_padding e) in
      if a =? vma_addr e then Done (Some i) else linear_find addr es' (S i)
  end.

Definition linear_free (self : LinearAlloc) (addr : Z)
  : outcome (result unit Z * LinearAlloc) :=
  let! o := linear_find addr (entries self) 0 in
  match o with
  | Some i =>
      let! e := unwrap (entries self !! i) in
      let! full := uadd (vma_size e) (vma_padding e) in
      let es := delete i (entries self) in
      let li := last_idx self in
      Done (Ok (),
            {| entries := es; start_addr := start_addr self; max_size := max_size self;
               last_idx := if (Z.of_nat (length es) <=? li) && negb (li =? 0)
                           then wsub li 1 else li;
               free_space := wadd (free_space self) full |})
  | None => Done (Err addr, self)
  end.

Definition linear_space_avail (self : LinearAlloc) : Z := free_space self.
Definition linear_occupied (self : LinearAlloc) : outcome Z :=
  usub (max_size self) (free_space self).

(** ** The invariant: entries in address order, without overlap, inside the region *)
Fixpoint chain (lo : Z) (es : list Vma) (hi : Z) : Prop :=
  match es with
  | [] => lo <= hi
  | e :: es' =>
      lo <= vma_addr e /\ 0 <= vma_padding e /\ 0 < vma_size e
      /\ chain (vma_addr e + vma_padding e + vma_size e) es' hi
  end.

Fixpoint used (es : list Vma) : Z :=
  match es with [] => 0 | e :: es' => vma_size e + vma_padding e + used es' end.

Definition linear_live (self : LinearAlloc) : list (Z * Z) :=
  (fun e => (vma_addr e + vma_padding e, vma_size e)) <$> entries self.

Record linear_ok (a : LinearAlloc) : Prop := {
  lo_start : 0 <= start_addr a;
  lo_size : 0 <= max_size a;
  lo_usize : start_addr a + max_size a < 2 ^ 62;
  lo_chain : chain (start_addr a) (entries a) (start_addr a + max_size a);
  lo_free : free_space a = max_size a - used (entries a);
}.

Lemma chain_le lo es hi : chain lo es hi -> lo <= hi.
Proof. revert lo. induction es as [|e es IH]; cbn; [done|]. intros lo (? & ? & ? & H). apply IH in H. lia. Qed.

Lemma chain_weaken lo lo' es hi : lo' <= lo -> chain lo es hi -> chain lo' es hi.
Proof. destruct es; cbn; [lia|]. intros ? (? & ? & ? & ?). repeat split; (lia || done). Qed.

Lemma chain_used lo es hi : chain lo es hi -> 0 <= used es <= hi - lo.
Proof.
  revert lo. induction es as [|e es IH]; cbn; [lia|]. intros lo (? & ? & ? & H). apply IH in H. lia.
Qed.

Lemma chain_app lo es1 es2 hi : chain lo (es1 ++ es2) hi ->
  exists mid, chain lo es1 mid /\ chain mid es2 hi.
Proof.
  revert lo. induction es1 as [|e es IH]; cbn; intros lo H.
  - exists lo. split; [lia|done].
  - destruct H as (? & ? & ? & H). destruct (IH _ H) as (mid & C1 & C2). exists mid. done.
Qed.

Lemma chain_app_intro lo es1 mid es2 hi : chain lo es1 mid -> chain mid es2 hi -> chain lo (es1 ++ es2) hi.
Proof.
  revert lo. induction es1 as [|e es IH]; cbn; intros lo H1 H2.
  - by eapply chain_weaken.
  - destruct H1 as (? & ? & ? & H). split_and!; try done. by apply IH.
Qed.

Lemma used_app es1 es2 : used (es1 ++ es2) = used es1 + used es2.
Proof. induction es1; cbn; lia. Qed.

(** No gap before, between or after the entries holds the request. *)
Fixpoint no_fit (size align lo : Z) (es : list Vma) (hi : Z) : Prop :=
  match es with
  | [] => hi - lo < size + pad lo align
  | e :: es' =>
      vma_addr e - lo < size + pad lo align
      /\ no_fit size align (vma_addr e + vma_padding e + vma_size e) es' hi
  end.

(** The scan stops at the first gap that holds the request: [k] entries are passed,
    [pe] is where the gap starts. *)
Lemma linear_scan_spec size align es i lo hi :
  0 < size -> 0 < align -> hi + size + align < USIZE -> 0 <= lo -> chain lo es hi ->
  exists k pe,
    linear_scan size align es i lo (pad lo align) i = Done (pe, pad pe align, (i + k)%nat)
    /\ chain lo (take k es) pe /\ chain pe (drop k es) hi
    /\ (forall e es', drop k es = e :: es' -> size + pad pe align <= vma_addr e - pe)
    /\ (drop k es = [] -> hi - pe < size + pad pe align -> no_fit size align lo es hi).
Proof.
  intros Hsize Halign Hb. revert i lo. induction es as [|e es IH]; intros i lo Hlo Hc.
  - exists 0%nat, lo. cbn in *. rewrite Nat.add_0_r. repeat split; try (done || lia).
  - cbn in Hc. destruct Hc as (H1 & H2 & H3 & Hc). pose proof (chain_le _ _ _ Hc).
    pose proof (pad_bound lo align Halign). cbn [linear_scan].
    rewrite usub_ok, uadd_ok by lia.
    destruct (Z.leb_spec (size + pad lo align) (vma_addr e - lo)) as [Hfit|Hno].
    + exists 0%nat, lo. rewrite Nat.add_0_r. cbn. repeat split; try (done || lia).
      intros e' es' [= <- <-]. lia.
    + rewrite !uadd_ok by lia. rewrite calc_padding_eq by lia.
      replace (vma_addr e + vma_size e + vma_padding e)
        with (vma_addr e + vma_padding e + vma_size e) by lia.
      destruct (IH (S i) (vma_addr e + vma_padding e + vma_size e) ltac:(lia) Hc)
        as (k & pe & E & C1 & C2 & Hn & Hnf).
      exists (S k), pe. rewrite E. cbn. split; [do 2 f_equal; lia|].
      split; [done|]. split; [done|]. split; [done|]. intros Hd Hg. split; [lia|auto].
Qed.

Lemma drop_cases {A} k (l : list A) : drop k l = [] \/ exists x l', drop k l = x :: l'.
Proof. destruct (drop k l); eauto. Qed.

Lemma live_insert idx v es (f : Vma -> Z * Z) :
  f <$> vec_insert idx v es ≡ₚ f v :: (f <$> es).
Proof.
  unfold vec_insert. rewrite fmap_app. cbn. rewrite <- Permutation_middle.
  by rewrite <- fmap_app, take_drop.
Qed.

Lemma used_insert idx v es : used (vec_insert idx v es) = vma_size v + vma_padding v + used es.
Proof.
  unfold vec_insert. rewrite used_app. cbn.
  assert (E : used es = used (take idx es) + used (drop idx es)) by (by rewrite <- used_app, take_drop).
  lia.
Qed.

(** A request that fits the region when the allocator is empty: the branch of the
    source for an empty allocator tests [size + padding] against the end address. *)
Definition linear_req (a : LinearAlloc) (size align : Z) : Prop :=
  0 < size < 2 ^ 62 /\ 0 < align < 2 ^ 62
  /\ (entries a = [] -> start_addr a <> 0 -> size + pad (start_addr a) align <= max_size a).

Lemma linear_malloc_found a size align prev_end idx :
  linear_ok a -> 0 < size < 2 ^ 62 -> 0 < align < 2 ^ 62 ->
  chain (start_addr a) (take idx (entries a)) prev_end ->
  chain (prev_end + pad prev_end align + size) (drop idx (entries a)) (start_addr a + max_size a) ->
  let v := {| vma_addr := prev_end; vma_padding := pad prev_end align; vma_size := size |} in
  let a' := {| entries := vec_insert idx v (entries a); start_addr := start_addr a;
               max_size := max_size a; last_idx := last_idx a;
               free_space := wsub (free_space a) (size + pad prev_end align) |} in
  linear_ok a' /\ (prev_end + pad prev_end align) mod align = 0
  /\ linear_live a' ≡ₚ (prev_end + pad prev_end align, size) :: linear_live a.
Proof.
  intros [] Hsize Halign C1 C2 v a'. pose proof (pad_bound prev_end align ltac:(lia)).
  assert (C : chain (start_addr a) (vec_insert idx v (entries a)) (start_addr a + max_size a)).
  { eapply chain_app_intro; [exact C1|]. cbn. repeat split; try lia. done. }
  pose proof (chain_used _ _ _ C) as Hu. rewrite used_insert in Hu. cbn in Hu.
  pose proof (chain_used _ _ _ lo_chain0).
  split; [constructor; cbn [entries start_addr max_size free_space a']; try done|].
  - rewrite wsub_ok by lia. rewrite used_insert. cbn. lia.
  - split; [apply pad_aligned; lia|]. apply (live_insert idx v).
Qed.

Lemma linear_try_malloc_spec a size align :
  linear_ok a -> linear_req a size align ->
  exists r a', linear_try_malloc a size align = Done (r, a') /\ linear_ok a'
    /\ start_addr a' = start_addr a /\ max_size a' = max_size a
    /\ match r with
       | Some p => p mod align = 0 /\ linear_live a' ≡ₚ (p, size) :: linear_live a
       | None => a' = a
                 /\ no_fit size align (start_addr a) (entries a) (start_addr a + max_size a)
       end.
Proof.
  intros Hok (Hsize & Halign & Hreq). pose proof Hok as []. unfold linear_try_malloc.
  rewrite calc_padding_eq by lia. pose proof (pad_bound (start_addr a) align ltac:(lia)).
  destruct (entries a) as [|e0 es0] eqn:Ees.
  - cbn [length Nat.ltb Nat.leb]. rewrite !uadd_ok by lia.
    destruct (Z.leb_spec (size + pad (start_addr a) align) (start_addr a + max_size a)) as [Hf|Hf].
    + assert (Hfit : size + pad (start_addr a) align <= max_size a).
      { destruct (Z.eq_dec (start_addr a) 0) as [E|E]; [lia|by apply Hreq]. }
      eexists _, _. split; [reflexivity|].
      destruct (linear_malloc_found a size align (start_addr a) 0%nat Hok Hsize Halign) as (Hok' & Hal & Hl).
      { rewrite Ees. cbn. lia. } { rewrite Ees. cbn. lia. }
      unfold linear_live in *. rewrite Ees in *. cbn in *. done.
    + eexists _, _. split; [reflexivity|]. split; [done|]. repeat split; try done. cbn. lia.
  - rewrite <- Ees in *. replace (0 <? length (entries a))%nat with true by (by rewrite Ees).
    destruct (linear_scan_spec size align (entries a) 0 (start_addr a) (start_addr a + max_size a)
                ltac:(lia) ltac:(lia) ltac:(lia) ltac:(lia) lo_chain0)
      as (k & pe & E & C1 & C2 & Hn & Hnf).
    rewrite E. cbn [Nat.add]. pose proof (chain_le _ _ _ C1). pose proof (chain_le _ _ _ C2).
    pose proof (pad_bound pe align ltac:(lia)). rewrite !uadd_ok by lia.
    destruct (Z.leb_spec (pe + size + pad pe align) (start_addr a + max_size a)) as [Hf|Hf].
    + eexists _, _. split; [reflexivity|].
      destruct (linear_malloc_found a size align pe k Hok Hsize Halign C1) as (Hok' & Hal & Hl); [|done].
      destruct (drop_cases k (entries a)) as [Ed|(x & l' & Ed)]; rewrite Ed in *; cbn in *; [lia|].
      specialize (Hn x l' eq_refl). destruct C2 as (? & ? & ? & ?). repeat split; try lia. done.
    + eexists _, _. split; [reflexivity|]. split; [done|]. repeat split; try done.
      apply Hnf; [|lia]. destruct (drop_cases k (entries a)) as [Ed|(x & l' & Ed)]; [done|exfalso].
      specialize (Hn x l' Ed). rewrite Ed in C2. destruct C2 as (? & ? & ? & Hc).
      apply chain_le in Hc. lia.
Qed.

(** *** [free] *)

Lemma chain_elem lo es hi e : chain lo es hi -> e ∈ es ->
  lo <= vma_addr e /\ 0 <= vma_padding e /\ 0 < vma_size e
  /\ vma_addr e + vma_padding e + vma_size e <= hi.
Proof.
  revert lo. induction es as [|e' es IH]; intros lo Hc He; [by apply not_elem_of_nil in He|].
  destruct Hc as (? & ? & ? & Hc). pose proof (chain_le _ _ _ Hc).
  apply elem_of_cons in He as [->|He]; [lia|]. destruct (IH _ Hc He). lia.
Qed.

Lemma linear_find_live lo es hi p s i : 0 <= lo -> chain lo es hi ->
  (p, s) ∈ (fun e => (vma_addr e + vma_padding e, vma_size e)) <$> es ->
  exists k e, linear_find p es i = Done (Some (i + k)%nat) /\ es !! k = Some e
    /\ p = vma_addr e + vma_padding e /\ s = vma_size e.
Proof.
  revert lo i. induction es as [|e es IH]; intros lo i Hlo Hc Hin; [by apply not_elem_of_nil in Hin|].
  destruct Hc as (H1 & H2 & H3 & Hc). cbn [linear_find].
  cbn in Hin. apply elem_of_cons in Hin as [[= -> ->]|Hin].
  - rewrite usub_ok by lia. exists 0%nat, e. rewrite Nat.add_0_r.
    rewrite (proj2 (Z.eqb_eq _ _)) by lia. done.
  - pose proof Hin as Hin'. apply list_elem_of_fmap in Hin' as (e' & [= -> ->] & He').
    destruct (chain_elem _ _ _ _ Hc He') as (? & ? & ? & ?).
    rewrite usub_ok by lia. rewrite (proj2 (Z.eqb_neq _ _)) by lia.
    destruct (IH (vma_addr e + vma_padding e + vma_size e) (S i) ltac:(lia) Hc Hin) as (k & e'' & E & Ek & Ep & Es).
    exists (S k), e''. rewrite E. split; [do 2 f_equal; lia|done].
Qed.

Lemma linear_find_dead p es i :
  Forall (fun e => vma_padding e <= p) es ->
  (forall s, (p, s) ∉ (fun e => (vma_addr e + vma_padding e, vma_size e)) <$> es) ->
  linear_find p es i = Done None.
Proof.
  intros F. revert i. induction F as [|e es He F IH]; intros i Hn; [done|]. cbn [linear_find].
  rewrite usub_ok by lia. destruct (Z.eqb_spec (p - vma_padding e) (vma_addr e)) as [E|E].
  - exfalso. apply (Hn (vma_size e)). cbn. replace p with (vma_addr e + vma_padding e) by lia. left.
  - apply IH. intros s Hs. apply (Hn s). by right.
Qed.

Lemma chain_delete lo es hi k e : chain lo es hi -> es !! k = Some e -> chain lo (delete k es) hi.
Proof.
  intros Hc Hk. apply list_elem_of_split_length in Hk as (l1 & l2 & -> & ->).
  rewrite delete_middle. apply chain_app in Hc as (mid & C1 & C2). destruct C2 as (? & ? & ? & C2).
  eapply chain_app_intro; [exact C1|]. eapply chain_weaken; [|exact C2]. lia.
Qed.

Lemma linear_free_live a p s : linear_ok a -> (p, s) ∈ linear_live a ->
  exists a', linear_free a p = Done (Ok (), a') /\ linear_ok a'
    /\ start_addr a' = start_addr a /\ max_size a' = max_size a
    /\ linear_live a ≡ₚ (p, s) :: linear_live a'.
Proof.
  intros [] Hin. destruct (linear_find_live _ _ _ p s 0 lo_start0 lo_chain0 Hin) as (k & e & E & Ek & -> & ->).
  unfold linear_free. rewrite E. cbn [Nat.add]. rewrite Ek. cbn [unwrap].
  destruct (chain_elem _ _ _ e lo_chain0 (list_elem_of_lookup_2 _ _ _ Ek)) as (? & ? & ? & ?).
  rewrite uadd_ok by lia. eexists. split; [reflexivity|].
  assert (C : chain (start_addr a) (delete k (entries a)) (start_addr a + max_size a)) by (by eapply chain_delete).
  assert (U : used (entries a) = vma_size e + vma_padding e + used (delete k (entries a))).
  { apply list_elem_of_split_length in Ek as (l1 & l2 & -> & ->). rewrite delete_middle, !used_app. cbn. lia. }
  pose proof (chain_used _ _ _ C). pose proof (chain_used _ _ _ lo_chain0).
  split; [constructor; cbn; try done; rewrite wadd_ok by lia; lia|]. split; [done|]. split; [done|].
  unfold linear_live. cbn. apply list_elem_of_split_length in Ek as (l1 & l2 & -> & ->).
  rewrite delete_middle, !fmap_app. cbn. by rewrite <- Permutation_middle.
Qed.

Lemma linear_free_dead a p : Forall (fun e => vma_padding e <= p) (entries a) ->
  (forall s, (p, s) ∉ linear_live a) -> linear_free a p = Done (Err p, a).
Proof. intros F Hn. unfold linear_free. by rewrite linear_find_dead. Qed.

Lemma linear_find_some p es i k : linear_find p es i = Done (Some k) ->
  exists s, (p, s) ∈ (fun e => (vma_addr e + vma_padding e, vma_size e)) <$> es.
Proof.
  revert i. induction es as [|e es IH]; intros i; [done|]. cbn.
  destruct (usub p (vma_padding e)) as [x|] eqn:Eu; [|done]. apply usub_inv in Eu as [-> _].
  destruct (Z.eqb_spec (p - vma_padding e) (vma_addr e)) as [E|_].
  - intros _. exists (vma_size e). rewrite <- E, Z.sub_add. left.
  - intros H. destruct (IH _ H) as [s Hs]. exists s. by right.
Qed.

Lemma linear_free_keeps a p r a' : linear_ok a -> linear_free a p = Done (r, a') -> linear_ok a'.
Proof.
  intros Hok E. pose proof E as E'. unfold linear_free in E.
  destruct (linear_find p (entries a) 0) as [[k|]|] eqn:Ef; [|by injection E as <- <-|done].
  apply linear_find_some in Ef as [s Hs].
  destruct (linear_free_live a p s Hok Hs) as (a'' & E'' & Hok' & _). congruence.
Qed.

(** *** [try_malloc] fails only when the request has no place *)

Lemma pad_least lo align p : 0 < align -> lo <= p -> p mod align = 0 -> lo + pad lo align <= p.
Proof.
  intros Ha Hle Hp. unfold pad.
  assert (E : (- lo) mod align = (p - lo) mod align).
  { rewrite (Zminus_mod p lo), Hp, Zminus_mod_idemp_r. f_equal; lia. }
  rewrite E. pose proof (Z.mod_le (p - lo) align ltac:(lia) Ha). lia.
Qed.

Lemma no_fit_overlap size align lo es hi p :
  0 < align -> chain lo es hi -> no_fit size align lo es hi ->
  lo <= p -> p + size <= hi -> p mod align = 0 ->
  exists e, e ∈ es /\ p < vma_addr e + vma_padding e + vma_size e /\ vma_addr e < p + size.
Proof.
  intros Ha Hc Hn Hlo Hhi Hp. revert lo Hc Hn Hlo.
  induction es as [|e es IH]; intros lo Hc Hn Hlo; pose proof (pad_least lo align p Ha Hlo Hp).
  - cbn in *. lia.
  - destruct Hc as (? & ? & ? & Hc). destruct Hn as [Hn1 Hn].
    destruct (Z.lt_ge_cases p (vma_addr e + vma_padding e + vma_size e)) as [Hlt|Hge].
    + exists e. split; [left|lia].
    + destruct (IH _ Hc Hn Hge) as (e' & He' & ?). exists e'. split; [by right|done].
Qed.

#[export] Instance LinearAlloc_allocator : Allocator LinearAlloc := {
  al_ok := linear_ok;
  al_live := linear_live;
  al_lo := start_addr;
  al_len := max_size;
  al_req := linear_req;
  al_addr a p := Forall (fun e => vma_padding e <= p) (entries a);
  al_try_malloc := linear_try_malloc;
  al_fake_malloc a size align := let! b := linear_fake_malloc a size align in Done (b, a);
  al_free := linear_free;
}.

Lemma chain_pdisj lo es hi : chain lo es hi ->
  pdisj ((fun e => (vma_addr e + vma_padding e, vma_size e)) <$> es).
Proof.
  revert lo. induction es as [|e es IH]; cbn; intros lo Hc; [done|].
  destruct Hc as (? & ? & ? & Hc). split; [|by eapply IH]. apply Forall_fmap, Forall_forall.
  intros e' He'. destruct (chain_elem _ _ _ _ Hc He') as (? & ? & ? & ?). unfold disj; cbn. lia.
Qed.

#[export] Instance LinearAlloc_laws : AllocatorLaws LinearAlloc.
Proof.
  constructor; cbn.
  - intros a []. by eapply chain_pdisj.
  - intros a []. apply Forall_fmap, Forall_forall. intros e He.
    destruct (chain_elem _ _ _ _ lo_chain0 He) as (? & ? & ? & ?). cbn. lia.
  - intros a size align Hok Hr.
    destruct (linear_try_malloc_spec a size align Hok Hr) as (r & a' & E & Hok' & ? & ? & Hm).
    exists r, a'. split_and!; try done. destruct r; [done|]. by destruct Hm as [-> _].
  - exact linear_free_live.
  - intros a p _. apply linear_free_dead.
Qed.

(** ** Properties *)

(** [LinearAlloc::try_malloc] keeps the invariant; a returned block is aligned, inside the
    region and disjoint from every live block; it returns [None] only when every aligned
    placement of the request in the region overlaps a live block or its padding. *)
Theorem linear_try_malloc_correct a size align :
  linear_ok a -> linear_req a size align ->
  exists r a', linear_try_malloc a size align = Done (r, a') /\ linear_ok a'
    /\ match r with
       | Some p =>
           p mod align = 0 /\ start_addr a <= p /\ p + size <= start_addr a + max_size a
           /\ Forall (disj (p, size)) (linear_live a)
           /\ linear_live a' ≡ₚ (p, size) :: linear_live a
       | None =>
           a' = a /\ forall p, start_addr a <= p -> p + size <= start_addr a + max_size a ->
             p mod align = 0 ->
             exists e, e ∈ entries a /\ p < vma_addr e + vma_padding e + vma_size e
                       /\ vma_addr e < p + size
       end.
Proof.
  intros Hok Hr. destruct (linear_try_malloc_spec a size align Hok Hr) as (r & a' & E & Hok' & Es & Em & H).
  exists r, a'. split; [done|]. split; [done|]. destruct r as [p|].
  - destruct H as [Hal Hl]. pose proof (al_live_in a' Hok') as Hin. pose proof (al_live_disj a' Hok') as Hd.
    cbn in Hin, Hd. rewrite Hl in Hin, Hd. apply Forall_cons in Hin as [Hp _]. cbn in Hp.
    destruct Hd as [Hd _]. rewrite Es, Em in Hp. repeat split; (done || lia).
  - destruct H as [-> Hn]. split; [done|]. intros p Hlo Hhi Hp.
    destruct Hr as (? & ? & _). destruct Hok.
    eapply no_fit_overlap; [|done|done|done|done|done]. lia.
Qed.

Definition linear_ex : LinearAlloc :=
  {| entries := [{| vma_addr := 1000; vma_padding := 0; vma_size := 10 |};
                 {| vma_addr := 1040; vma_padding := 8; vma_size := 12 |}];
     start_addr := 1000; max_size := 100; last_idx := 0; free_space := 70 |}.

Lemma linear_ex_ok : linear_ok linear_ex.
Proof. constructor; cbn; lia. Qed.

Lemma linear_ex_req : linear_req linear_ex 20 16.
Proof. unfold linear_req. cbn. repeat split; try lia. done. Qed.

Lemma linear_try_malloc_correct_witness :
  exists r a', linear_try_malloc linear_ex 20 16 = Done (r, a') /\ linear_ok a' /\ r = Some 1072.
Proof.
  destruct (linear_try_malloc_correct linear_ex 20 16 linear_ex_ok linear_ex_req)
    as (r & a' & E & Hok & _).
  exists r, a'. split; [exact E|]. split; [exact Hok|]. vm_compute in E. congruence.
Defined.

(** [LinearAlloc::fake_malloc] answers [true] exactly when [try_malloc] would succeed. *)
Theorem linear_fake_malloc_agrees a size align :
  linear_ok a -> linear_req a size align ->
  exists b r a', linear_fake_malloc a size align = Done b
    /\ linear_try_malloc a size align = Done (r, a') /\ (b = true <-> is_Some r).
Proof.
  intros Hok Hr. destruct (linear_try_malloc_spec a size align Hok Hr) as (r & a' & E & _).
  revert E. unfold linear_fake_malloc, linear_try_malloc.
  destruct (0 <? length (entries a))%nat.
  - destruct (calc_padding _ _) as [p0|]; [|done]. destruct (linear_scan _ _ _ _ _ _ _) as [[[pe pa] i]|]; [|done].
    destruct (uadd pe size) as [x|]; [|done]. destruct (uadd x pa) as [y|]; [|done].
    destruct (uadd (start_addr a) (max_size a)) as [lim|]; [|done].
    destruct (y <=? lim); intros E; exists (bool_decide (is_Some r)), r, a'; revert E;
      repeat (destruct (uadd _ _); [|done]); intros [= <- <-]; cbn; rewrite ?bool_decide_eq_true; naive_solver.
  - destruct (calc_padding _ _) as [p0|]; [|done]. destruct (uadd size p0) as [x|]; [|done].
    destruct (uadd (start_addr a) (max_size a)) as [lim|]; [|done].
    destruct (x <=? lim); intros E; exists (bool_decide (is_Some r)), r, a'; revert E;
      repeat (destruct (uadd _ _); [|done]); intros [= <- <-]; cbn; rewrite ?bool_decide_eq_true; naive_solver.
Qed.

Lemma linear_fake_malloc_agrees_witness :
  exists r a', linear_try_malloc linear_ex 20 16 = Done (r, a')
    /\ linear_fake_malloc linear_ex 20 16 = Done true /\ is_Some r.
Proof.
  destruct (linear_fake_malloc_agrees linear_ex 20 16 linear_ex_ok linear_ex_req)
    as (b & r & a' & E1 & E2 & Hb).
  assert (b = true) as -> by (vm_compute in E1; congruence).
  exists r, a'. split; [exact E2|]. split; [exact E1|]. by apply Hb.
Defined.

(** [LinearAlloc::free] of a live address removes exactly that block and gives its bytes and
    padding back; of any other address it returns [Err] and changes nothing. *)
Theorem linear_free_correct a p :
  linear_ok a -> Forall (fun e => vma_padding e <= p) (entries a) ->
  (exists s a', (p, s) ∈ linear_live a /\ linear_free a p = Done (Ok (), a') /\ linear_ok a'
     /\ linear_live a ≡ₚ (p, s) :: linear_live a'
     /\ linear_space_avail a + s <= linear_space_avail a')
  \/ ((forall s, (p, s) ∉ linear_live a) /\ linear_free a p = Done (Err p, a)).
Proof.
  intros Hok Hp.
  destruct (decide (Exists (fun b : Z * Z => b.1 = p) (linear_live a))) as [Hl|Hn].
  - left. apply Exists_exists in Hl as ([p' s] & Hin & E). cbn in E. subst p'.
    destruct (linear_free_live a p s Hok Hin) as (a' & E & Hok' & Es & Em & Hl).
    exists s, a'. split_and!; try done. unfold linear_space_avail. destruct Hok, Hok'.
    revert E. unfold linear_free.
    destruct (linear_find_live _ _ _ p s 0 lo_start0 lo_chain0 Hin) as (k & e & E & Ek & -> & ->).
    rewrite E. cbn [Nat.add]. rewrite Ek. cbn [unwrap].
    destruct (chain_elem _ _ _ e lo_chain0 (list_elem_of_lookup_2 _ _ _ Ek)) as (? & ? & ? & ?).
    rewrite uadd_ok by lia. intros [= <-]. cbn in *. rewrite wadd_ok in *; [lia| |];
      pose proof (chain_used _ _ _ lo_chain0); lia.
  - right. assert (Hd : forall s, (p, s) ∉ linear_live a).
    { intros s Hs. apply Hn, Exists_exists. by exists (p, s). }
    split; [done|]. by apply linear_free_dead.
Qed.

Lemma linear_free_correct_witness :
  exists a', linear_free linear_ex 1048 = Done (Ok (), a') /\ linear_ok a'
    /\ linear_free linear_ex 1040 = Done (Err 1040, linear_ex).
Proof.
  assert (F : Forall (fun e => vma_padding e <= 1048) (entries linear_ex)).
  { repeat constructor; cbn; lia. }
  destruct (linear_free_correct linear_ex 1048 linear_ex_ok F) as [(s & a' & _ & E & Hok & _)|[H _]].
  - exists a'. split; [exact E|]. split; [exact Hok|]. reflexivity.
  - exfalso. apply (H 12). right. left.
Defined.

(** The states [malloc] sees: the one it is called in and, after each failed attempt, the one
    the other threads leave behind. *)
Fixpoint linear_seen (wait : nat -> LinearAlloc -> LinearAlloc) (n : nat) (a : LinearAlloc) : LinearAlloc :=
  match n with O => a | S n' => linear_seen (fun i => wait (S i)) n' (wait O a) end.

Lemma linear_malloc_shift fuel wait n a size align :
  linear_malloc fuel wait n a size align = linear_malloc fuel (fun i => wait (n + i)%nat) 0 a size align.
Proof.
  revert wait n a. induction fuel as [|fuel IH]; intros wait n a; [done|]. cbn.
  destruct (linear_try_malloc a size align) as [[[p|] a']|]; [done| |done].
  rewrite IH, (IH (fun i => wait (n + i)%nat) 1%nat).
  replace (n + 0)%nat with n by lia.
  assert (E : forall w1 w2 f b k, (forall i x, w1 i x = w2 i x) ->
    linear_malloc f w1 k b size align = linear_malloc f w2 k b size align).
  { intros w1 w2 f. induction f as [|f IHf]; intros b k Hw; [done|]. cbn.
    destruct (linear_try_malloc b size align) as [[[?|] ?]|]; try done. rewrite Hw. by apply IHf. }
  apply E. intros i x. cbn. by rewrite Nat.add_succ_r.
Qed.

(** [LinearAlloc::malloc] returns: if the other threads keep the invariant and at some attempt
    the request has a place, enough fuel gives an aligned block disjoint from the live ones. *)
Theorem linear_malloc_returns n wait a size align :
  (forall i b, linear_ok b -> linear_ok (wait i b)) ->
  (forall i, (i <= n)%nat -> linear_req (linear_seen wait i a) size align) ->
  linear_ok a ->
  ~ no_fit size align (start_addr (linear_seen wait n a)) (entries (linear_seen wait n a))
      (start_addr (linear_seen wait n a) + max_size (linear_seen wait n a)) ->
  exists m p a', (m <= n)%nat /\ linear_malloc (S n) wait 0 a size align = Some (Done (p, a'))
    /\ linear_ok a' /\ p mod align = 0
    /\ linear_live a' ≡ₚ (p, size) :: linear_live (linear_seen wait m a).
Proof.
  revert wait a. induction n as [|n IH]; intros wait a Hw Hreq Hok Hfit;
    destruct (linear_try_malloc_spec a size align Hok (Hreq 0%nat ltac:(lia)))
      as (r & a' & E & Hok' & _ & _ & Hm); cbn [linear_malloc]; rewrite E; destruct r as [p|].
  - exists 0%nat, p, a'. destruct Hm. split_and!; (done || lia).
  - exfalso. by apply Hfit, Hm.
  - exists 0%nat, p, a'. destruct Hm. split_and!; (done || lia).
  - destruct Hm as [-> Hm].
    destruct (IH (fun i => wait (S i)) (wait O a)) as (m & p & a' & Hle & E' & Hr); try done.
    + intros i b. apply Hw.
    + intros i Hi. apply (Hreq (S i)). lia.
    + by apply Hw.
    + exists (S m), p, a'. split; [lia|]. split; [|done].
      rewrite <- E'. exact (linear_malloc_shift (S n) wait 1 (wait O a) size align).
Qed.

Definition linear_full : LinearAlloc :=
  {| entries := [{| vma_addr := 1000; vma_padding := 0; vma_size := 100 |}];
     start_addr := 1000; max_size := 100; last_idx := 0; free_space := 0 |}.

(** While [malloc] waits, another thread frees the block at 1000. *)
Definition linear_full_wait (n : nat) (a : LinearAlloc) : LinearAlloc :=
  match n with
  | O => a
  | _ => match linear_free a 1000 with Done (Ok _, a') => a' | _ => a end
  end.

Lemma linear_malloc_returns_witness :
  exists p a', linear_malloc 3 linear_full_wait 0 linear_full 64 8 = Some (Done (p, a')) /\ p mod 8 = 0.
Proof.
  destruct (linear_malloc_returns 2 linear_full_wait linear_full 64 8) as (m & p & a' & _ & E & _ & H & _).
  - intros [|i] b Hb; [exact Hb|]. cbn.
    destruct (linear_free b 1000) as [[[[]|?] b']|] eqn:E; try exact Hb.
    by eapply linear_free_keeps.
  - intros [|[|[|i]]] Hi; [| | |lia]; unfold linear_req; cbn; repeat split; try lia; done.
  - constructor; cbn; lia.
  - cbn. intros H. vm_compute in H. discriminate.
  - exists p, a'. split; [exact E|exact H].
Defined.

(** On an empty region the code compares [size + padding] with the end address instead of the
    length: a region of 100 bytes at address 1000 hands out 1000 bytes from its start, which
    [try_malloc] would refuse on a region at address 0. *)
Theorem linear_empty_overrun :
  let a := linear_init linear_new 1000 100 in
  linear_ok a
  /\ (exists a', linear_try_malloc a 1000 8 = Done (Some 1000, a')
        /\ start_addr a' + max_size a' < 1000 + 1000 /\ ~ linear_ok a'
        /\ linear_occupied a' = Panic)
  /\ linear_try_malloc (linear_init linear_new 0 100) 1000 8
     = Done (None, linear_init linear_new 0 100).
Proof.
  cbn zeta. split; [constructor; cbn; lia|]. split; [|by vm_compute].
  eexists. split; [by vm_compute|]. split; [cbn; lia|]. split; [|by vm_compute].
  intros [_ _ _ C _]. cbn in C. lia.
Qed.

(** ** [ObjAlloc] *)
Module ObjAlloc.

Record ObjAlloc := { free_entries : list Z; start_addr : Z; max_size : Z }.

Section ObjAlloc.
(** [size_of::<T>()] and [align_of::<T>()]. *)
Variables size_of align_of : Z.

Definition new : ObjAlloc := {| free_entries := []; start_addr := 0; max_size := 0 |}.

(** [(lo..hi).step_by(step)]: [step_by] panics on a step of 0. *)
Definition step_by (lo hi step : Z) : outcome (list Z) :=
  if step =? 0 then Panic
  else Done ((fun k => lo + Z.of_nat k * step) <$> seq 0 (Z.to_nat ((hi - lo + step - 1) / step))).

Definition init (self : ObjAlloc) (start_addr size : Z) : outcome ObjAlloc :=
  let! padding := calc_padding start_addr align_of in
  let! start := uadd start_addr padding in
  let! stop := uadd start_addr size in
  let! es := step_by start stop size_of in
  Done {| free_entries := es; start_addr := start; max_size := size |}.

(** [Vec::pop] takes the last entry. *)
Definition vec_pop {A} (l : list A) : option (A * list A) :=
  match rev l with [] => None | x :: l' => Some (x, rev l') end.

Definition try_malloc (self : ObjAlloc) (size _align : Z) : outcome (option Z * ObjAlloc) :=
  let! _ := assert_ (size =? 1) in
  match vec_pop (free_entries self) with
  | Some (addr, es) =>
      Done (Some addr, {| free_entries := es; start_addr := start_addr self;
                          max_size := max_size self |})
  | None => Done (None, self)
  end.

Fixpoint malloc (fuel : nat) (wait : nat -> ObjAlloc -> ObjAlloc) (n : nat)
    (self : ObjAlloc) (size align : Z) : option (outcome (Z * ObjAlloc)) :=
  match fuel with
  | O => None
  | S fuel' =>
      match try_malloc self size align with
      | Done (Some addr, self') => Some (Done (addr, self'))
      | Done (None, self') => malloc fuel' wait (S n) (wait n self') size align
      | Panic => Some Panic
      end
  end.

Definition fake_malloc (self : ObjAlloc) (size _align : Z) : outcome bool :=
  let! _ := assert_ (size =? 1) in
  Done (1 <? length (free_entries self))%nat.

Definition free (self : ObjAlloc) (addr : Z) : outcome (result unit Z * ObjAlloc) :=
  Done (Ok (), {| free_entries := free_entries self ++ [addr]; start_addr := start_addr self;
                  max_size := max_size self |}).

Definition space_avail (self : ObjAlloc) : Z := Z.of_nat (length (free_entries self)).
Definition occupied (self : ObjAlloc) : outcome Z := usub (max_size self) (space_avail self).

(** The objects of the free list and those handed out ([live]) are disjoint, aligned and in the
    region [lo .. hi). *)
Definition ok (lo hi : Z) (self : ObjAlloc) (live : list Z) : Prop :=
  pdisj ((fun a => (a, size_of)) <$> (free_entries self ++ live))
  /\ Forall (fun a => a mod align_of = 0 /\ lo <= a /\ a + size_of <= hi) (free_entries self ++ live).

Lemma vec_pop_Some {A} (l l' : list A) x : vec_pop l = Some (x, l') -> l = l' ++ [x].
Proof.
  unfold vec_pop. destruct (rev l) as [|y k] eqn:E; [done|]. intros [= -> <-].
  rewrite <- (rev_involutive l), E. done.
Qed.

Lemma ok_perm lo hi self self' live live' :
  free_entries self ++ live ≡ₚ free_entries self' ++ live' ->
  ok lo hi self live -> ok lo hi self' live'.
Proof. intros HP [D F]. split; [by rewrite <- HP|by rewrite <- HP]. Qed.

Lemma vec_pop_None {A} (l : list A) : vec_pop l = None -> l = [].
Proof.
  unfold vec_pop. destruct (rev l) as [|y k] eqn:E; [|done]. intros _.
  by rewrite <- (rev_involutive l), E.
Qed.

Lemma step_pdisj lo n i : 0 < size_of ->
  pdisj ((fun a => (a, size_of)) <$> ((fun k => lo + Z.of_nat k * size_of) <$> seq i n)).
Proof.
  intros Hs. revert i. induction n as [|n IH]; intros i; [done|]. cbn. split; [|apply IH].
  rewrite !Forall_fmap. apply Forall_forall. intros k Hk. apply elem_of_seq in Hk.
  unfold disj. cbn. nia.
Qed.

(** C32: On a region whose length (after the alignment padding) is a multiple of the object size,
    [init] cuts it into disjoint aligned objects, and [try_malloc] and [free] move objects
    between the free list and the live ones: a live object is never handed out twice. *)
Theorem objalloc_correct start size :
  0 < size_of -> 0 < align_of -> size_of mod align_of = 0 -> 0 <= start ->
  start + size + align_of < USIZE -> pad start align_of <= size ->
  (size - pad start align_of) mod size_of = 0 ->
  (exists a, init new start size = Done a /\ ok start (start + size) a []
     /\ length (free_entries a) = Z.to_nat ((size - pad start align_of) / size_of))
  /\ (forall a live align, ok start (start + size) a live ->
       exists r a', try_malloc a 1 align = Done (r, a')
         /\ match r with
            | Some p => p ∉ live /\ ok start (start + size) a' (p :: live)
            | None => free_entries a = [] /\ a' = a
            end)
  /\ (forall a live p, ok start (start + size) a (p :: live) ->
       exists a', free a p = Done (Ok (), a') /\ ok start (start + size) a' live).
Proof.
  intros Hs Ha Hsa H0 Hb Hp Hm. pose proof (pad_bound start align_of Ha) as Hpb.
  split; [|split].
  - unfold init. rewrite calc_padding_eq, !uadd_ok by lia. unfold step_by.
    rewrite (proj2 (Z.eqb_neq _ _)) by lia.
    assert (En : (start + size - (start + pad start align_of) + size_of - 1) / size_of
                 = (size - pad start align_of) / size_of).
    { apply (Z_div_exact_full_2 _ size_of) in Hm; [|lia]. set (q := (size - pad start align_of) / size_of) in *.
      symmetry. apply Z.div_unique with (r := size_of - 1); lia. }
    rewrite En. eexists. split; [reflexivity|].
    split; [|cbn; by rewrite length_fmap, length_seq].
    split; cbn [free_entries]; rewrite app_nil_r; [by apply step_pdisj|].
    apply Forall_fmap, Forall_forall. intros k Hk. apply elem_of_seq in Hk. cbn.
    apply (Z_div_exact_full_2 _ size_of) in Hm; [|lia]. set (q := (size - pad start align_of) / size_of) in *.
    split; [|nia]. pose proof (pad_aligned start align_of Ha) as E1.
    apply Z.mod_divide in E1; [|lia]. apply Z.mod_divide in Hsa; [|lia]. apply Z.mod_divide; [lia|].
    apply Z.divide_add_r; [done|]. by apply Z.divide_mul_r.
  - intros a live align Hok. unfold try_malloc. cbn [assert_ Z.eqb Pos.eqb].
    destruct (vec_pop (free_entries a)) as [[p es]|] eqn:E.
    + apply vec_pop_Some in E. eexists _, _. split; [reflexivity|].
      assert (Hok' : ok start (start + size)
        {| free_entries := es; start_addr := start_addr a; max_size := max_size a |} (p :: live)).
      { eapply ok_perm; [|exact Hok]. rewrite E. cbn. by rewrite <- app_assoc. }
      split; [|done]. intros Hin. destruct Hok' as [D F]. cbn in D, F.
      rewrite <- Permutation_middle in D, F. cbn in D. destruct D as [D _].
      rewrite Forall_fmap, Forall_forall in D.
      specialize (D p ltac:(apply elem_of_app; by right)). unfold disj in D. cbn in D. lia.
    + apply vec_pop_None in E. by eexists _, _.
  - intros a live p Hok. eexists. split; [reflexivity|]. eapply ok_perm; [|exact Hok]. cbn.
    by rewrite <- app_assoc.
Qed.
End ObjAlloc.

Lemma objalloc_correct_witness :
  exists a, init 8 4 new 1002 18 = Done a /\ free_entries a = [1004; 1012]
    /\ ok 8 4 1002 1020 a [].
Proof.
  destruct (objalloc_correct 8 4 1002 18) as [(a & E & Hok & _) _]; try (vm_compute; congruence).
  exists a. split; [exact E|]. split; [|exact Hok]. vm_compute in E. injection E as <-. reflexivity.
Defined.

(** Outside that case the object allocator is wrong: a region that is not a multiple of the
    object size ends in an object that overruns it; [fake_malloc] answers [false] although
    [try_malloc] succeeds on the last object; and [occupied] subtracts a number of objects
    from a number of bytes. *)
Theorem objalloc_wrong :
  (exists a, init 8 8 new 0 20 = Done a /\ free_entries a = [0; 8; 16]
     /\ (exists a', try_malloc a 1 8 = Done (Some 16, a')) /\ 20 < 16 + 8)
  /\ (exists a, init 8 8 new 0 8 = Done a /\ fake_malloc a 1 8 = Done false
        /\ (exists a', try_malloc a 1 8 = Done (Some 0, a'))
        /\ occupied a = Done 7).
Proof.
  split; (eexists; split; [by vm_compute|]; split; [by vm_compute|]); [split; [|lia]|split; [|by vm_compute]];
    by eexists; vm_compute.
Qed.
End ObjAlloc.
