(* ===== verification/BTreeAlloc.v ===== *)
(** * BTreeAlloc: the allocator the communication layers use

    Models [FreeEntries] and [BTreeAlloc] of [src/lamellar_alloc.rs].  The free blocks are
    kept in two ordered maps (by size and by address) under one mutex, the allocated
    blocks in a third map under another mutex, so [try_malloc] and [free] are two critical
    sections each; a block is in flight between them.  The critical sections are separate
    definitions, composed as the code composes them, and [bstep] lets any number of threads
    interleave them. *)

From stdpp Require Import base gmap sets list numbers sorting.
From Stdlib Require Import ZArith Lia.
From S2P Require Import Prelude Alloc.
Local Open Scope Z_scope.

(** ** Ordered queries on a [BTreeMap] *)
Section BTreeMap.
Context {V : Type}.
Implicit Types m : gmap Z V.

(** The entry with the first key in the order [lt] among those that satisfy [f]. *)
Definition bt_best (lt : Z -> Z -> bool) (f : Z -> bool) m : option (Z * V) :=
  fold_right (fun kv acc =>
    if f kv.1 then
      match acc with
      | Some best => if lt kv.1 best.1 then Some kv else acc
      | None => Some kv
      end
    else acc) None (map_to_list m).

Definition bt_least := bt_best Z.ltb.
Definition bt_greatest := bt_best Z.gtb.

(** [range(k..).next()], [range(..k).next_back()], [pop_first()]. *)
Definition range_from (k : Z) m : option (Z * V) := bt_least (fun x => k <=? x) m.
Definition range_to_last (k : Z) m : option (Z * V) := bt_greatest (fun x => x <? k) m.
Definition pop_first m : option ((Z * V) * gmap Z V) :=
  match bt_least (fun _ => true) m with
  | Some kv => Some (kv, delete kv.1 m)
  | None => None
  end.

Lemma bt_best_spec lt f m :
  (forall a, lt a a = false) -> (forall a b c, lt a b = true -> lt b c = true -> lt a c = true) ->
  match bt_best lt f m with
  | Some (k, v) => m !! k = Some v /\ f k = true
                   /\ forall k' v', m !! k' = Some v' -> f k' = true -> lt k' k = false
  | None => forall k v, m !! k = Some v -> f k = false
  end.
Proof.
  intros Hirr Htr. unfold bt_best.
  assert (H : forall k v, m !! k = Some v <-> (k, v) ∈ map_to_list m)
    by (intros; by rewrite elem_of_map_to_list).
  revert H. generalize (map_to_list m) as l. intros l H.
  set (best := fold_right _ _ _).
  enough (G : match best with
              | Some (k, v) => (k, v) ∈ l /\ f k = true
                               /\ forall k' v', (k', v') ∈ l -> f k' = true -> lt k' k = false
              | None => forall k v, (k, v) ∈ l -> f k = false
              end).
  { destruct best as [[k v]|]; [|naive_solver]. destruct G as (G1 & G2 & G3). rewrite H.
    split; [done|]. split; [done|]. intros k' v'. rewrite H. apply G3. }
  subst best. clear H.
  induction l as [|[k v] l IH]; cbn; [intros k v Hin; by apply not_elem_of_nil in Hin|].
  destruct (fold_right _ _ _) as [[k0 v0]|]; destruct (f k) eqn:Ef; cbn.
  - destruct IH as (I1 & I2 & I3). destruct (lt k k0) eqn:El.
    + split; [left|]. split; [done|]. intros k' v' [[= -> ->]|Hin]%elem_of_cons Hf; [done|].
      specialize (I3 _ _ Hin Hf). destruct (lt k' k) eqn:E'; [|done].
      by rewrite (Htr _ _ _ E' El) in I3.
    + split; [by right|]. split; [done|]. intros k' v' [[= -> ->]|Hin]%elem_of_cons Hf; eauto.
  - destruct IH as (I1 & I2 & I3). split; [by right|]. split; [done|].
    intros k' v' [[= -> ->]|Hin]%elem_of_cons Hf; [congruence|eauto].
  - split; [left|]. split; [done|]. intros k' v' [[= -> ->]|Hin]%elem_of_cons Hf; [done|].
    rewrite (IH _ _ Hin) in Hf. done.
  - intros k' v' [[= -> ->]|Hin]%elem_of_cons; [done|eauto].
Qed.

Lemma bt_least_spec f m :
  match bt_least f m with
  | Some (k, v) => m !! k = Some v /\ f k = true
                   /\ forall k' v', m !! k' = Some v' -> f k' = true -> k <= k'
  | None => forall k v, m !! k = Some v -> f k = false
  end.
Proof.
  pose proof (bt_best_spec Z.ltb f m Z.ltb_irrefl) as H. unfold bt_least.
  destruct (bt_best Z.ltb f m) as [[k v]|]; [|apply H; lia].
  destruct H as (H1 & H2 & H3); [lia|]. split; [done|]. split; [done|].
  intros k' v' Hk Hf. specialize (H3 _ _ Hk Hf). lia.
Qed.

Lemma bt_greatest_spec f m :
  match bt_greatest f m with
  | Some (k, v) => m !! k = Some v /\ f k = true
                   /\ forall k' v', m !! k' = Some v' -> f k' = true -> k' <= k
  | None => forall k v, m !! k = Some v -> f k = false
  end.
Proof.
  pose proof (bt_best_spec Z.gtb f m) as H. unfold bt_greatest.
  destruct (bt_best Z.gtb f m) as [[k v]|]; [|apply H; lia].
  destruct H as (H1 & H2 & H3); [lia..|]. split; [done|]. split; [done|].
  intros k' v' Hk Hf. specialize (H3 _ _ Hk Hf). lia.
Qed.
End BTreeMap.

(** ** The interface of the third-party [indexmap::IndexSet]

    The code relies on it being a set; the order in which [pop] takes elements does not
    matter to it. *)
Class IndexSet (S : Type) := {
  is_new : S;
  is_insert : Z -> S -> S;
  is_pop : S -> option (Z * S);
  is_remove : Z -> S -> S;
  is_empty : S -> bool;
  is_elems : S -> gset Z;
}.

Class IndexSetLaws (S : Type) `{IndexSet S} : Prop := {
  is_new_elems : is_elems is_new = ∅;
  is_insert_elems x s : is_elems (is_insert x s) = {[x]} ∪ is_elems s;
  is_pop_elems s :
    match is_pop s with
    | Some (x, s') => x ∈ is_elems s /\ is_elems s' = is_elems s ∖ {[x]}
    | None => is_elems s = ∅
    end;
  is_remove_elems x s : is_elems (is_remove x s) = is_elems s ∖ {[x]};
  is_empty_elems s : is_empty s = bool_decide (is_elems s = ∅);
}.

(** A vector of distinct elements, with [pop] at its end, as [indexmap] has it. *)
#[export] Instance list_IndexSet : IndexSet (list Z) := {
  is_new := [];
  is_insert x s := if bool_decide (x ∈ s) then s else s ++ [x];
  is_pop s := match rev s with [] => None | x :: s' => Some (x, filter (.≠ x) (rev s')) end;
  is_remove x s := filter (.≠ x) s;
  is_empty s := match s with [] => true | _ => false end;
  is_elems s := list_to_set s;
}.

#[export] Instance list_IndexSetLaws : IndexSetLaws (list Z).
Proof.
  constructor; cbn.
  - done.
  - intros x s. case_bool_decide; [set_solver|]. rewrite list_to_set_app_L. set_solver.
  - intros s. destruct (rev s) as [|x s'] eqn:E.
    + by rewrite <- (rev_involutive s), E.
    + assert (Es : s = rev s' ++ [x]) by (by rewrite <- (rev_involutive s), E). subst s.
      rewrite list_to_set_app_L. split; [set_solver|]. apply set_eq. intros y.
      rewrite elem_of_list_to_set, list_elem_of_filter. set_solver.
  - intros x s. apply set_eq. intros y. rewrite elem_of_list_to_set, list_elem_of_filter. set_solver.
  - intros [|x s]; cbn; case_bool_decide; [done|done|set_solver|done].
Qed.

(** ** Data and operations *)
Section Model.
Context {IS : Type} `{IndexSet IS}.

Record FreeEntries := {
  sizes : gmap Z IS;          (* size -> addresses *)
  addrs : gmap Z (Z * Z);     (* address -> (size, padding) *)
}.

Definition fe_new : FreeEntries := {| sizes := ∅; addrs := ∅ |}.

(** [sizes.entry(size).or_insert(IndexSet::new()).insert(addr)] *)
Definition insert_size (addr size : Z) (m : gmap Z IS) : gmap Z IS :=
  <[size := is_insert addr (default is_new (m !! size))]> m.

Definition remove_size (addr size : Z) (m : gmap Z IS) : gmap Z IS :=
  match m !! size with
  | Some s =>
      let s' := is_remove addr s in
      let m' := <[size := s']> m in
      if is_empty s' then delete size m' else m'
  | None => m
  end.

(** One iteration of the loop of [merge]; [None] when the loop condition fails. *)
Definition merge_step (i : Z) (self : FreeEntries) : outcome (option (Z * FreeEntries)) :=
  let! last := usub (Z.of_nat (base.size (addrs self))) 1 in
  if i <? last then
    let! ((faddr, (fsize, fpadding)), m1) := unwrap (pop_first (addrs self)) in
    let! ((naddr, (nsize, npadding)), m2) := unwrap (pop_first m1) in
    let! x := uadd faddr fsize in
    let! fend := uadd x fpadding in
    if fend =? naddr then
      let! new_size := uadd fsize nsize in
      let! new_padding := uadd fpadding npadding in
      let! _ := assert_ (new_padding =? 0) in
      let new_addr := faddr in
      Done (Some (i, {|
        sizes := insert_size new_addr new_size
                   (remove_size faddr fsize (remove_size naddr nsize (sizes self)));
        addrs := <[new_addr := (new_size, new_padding)]> m2 |}))
    else
      let! i' := uadd i 1 in
      Done (Some (i', {|
        sizes := sizes self;
        addrs := <[naddr := (nsize, npadding)]> (<[faddr := (fsize, fpadding)]> m2) |}))
  else Done None.

Fixpoint merge_loop (fuel : nat) (i : Z) (self : FreeEntries) : option (outcome FreeEntries) :=
  match fuel with
  | O => None
  | S fuel' =>
      match merge_step i self with
      | Panic => Some Panic
      | Done None => Some (Done self)
      | Done (Some (i', self')) => merge_loop fuel' i' self'
      end
  end.

(** Every iteration makes [addrs] shorter or [i] larger, so this fuel is enough
    ([merge_loop_returns]): the last case is not reached. *)
Definition merge (self : FreeEntries) : outcome FreeEntries :=
  match merge_loop (S (base.size (addrs self))) 0 self with Some r => r | None => Panic end.

(** The branch of [try_malloc] that finds a segment: the address, the size to remove from
    [sizes] and the new free entries; [None] when no segment is large enough. *)
Definition probe (free_entries : FreeEntries) (size align upper_size : Z)
  : outcome (option (option Z * option Z * FreeEntries)) :=
  match range_from upper_size (sizes free_entries) with
  | Some (free_size, s) =>
      let (addr, s') := match is_pop s with Some (a, s') => (Some a, s') | None => (None, s) end in
      let sizes1 := <[free_size := s']> (sizes free_entries) in
      let rsize := if is_empty s' then Some free_size else None in
      match addr with
      | Some a =>
          let! padding := calc_padding a align in
          let! full_size := uadd size padding in
          let! (fsize, fpadding) := unwrap (addrs free_entries !! a) in
          let addrs1 := delete a (addrs free_entries) in
          let! fs := uadd fsize fpadding in
          if negb (fs =? full_size) then
            let! remaining := usub fs full_size in
            let! new_addr := uadd a full_size in
            Done (Some (addr, rsize, {| sizes := insert_size new_addr remaining sizes1;
                                        addrs := <[new_addr := (remaining, 0)]> addrs1 |}))
          else Done (Some (addr, rsize, {| sizes := sizes1; addrs := addrs1 |}))
      | None =>
          Done (Some (None, rsize, {| sizes := sizes1; addrs := addrs free_entries |}))
      end
  | None => Done None
  end.

(** The [while try_again] loop; [wait] is what the other threads do to the free entries
    while [cvar.wait_for] has released the lock. *)
Fixpoint take_loop (fuel : nat) (wait : FreeEntries -> FreeEntries) (free_entries : FreeEntries)
    (size align upper_size : Z) : option (outcome (option Z * option Z * FreeEntries)) :=
  match fuel with
  | O => None
  | S fuel' =>
      match probe free_entries size align upper_size with
      | Panic => Some Panic
      | Done (Some r) => Some (Done r)
      | Done None =>
          match merge (wait free_entries) with
          | Panic => Some Panic
          | Done fe =>
              match range_from upper_size (sizes fe) with
              | None => Some (Done (None, None, fe))
              | Some _ => take_loop fuel' wait fe size align upper_size
              end
          end
      end
  end.

(** [if let Some(rsize) = remove_size { free_entries.sizes.remove(&rsize); }] *)
Definition drop_size (rsize : option Z) (fe : FreeEntries) : FreeEntries :=
  match rsize with
  | Some r => {| sizes := delete r (sizes fe); addrs := addrs fe |}
  | None => fe
  end.

(** The first critical section of [try_malloc].  After a wait either the loop is left or the
    next probe succeeds, so two iterations are enough ([take_section_spec]). *)
Definition take_section (wait : FreeEntries -> FreeEntries) (free_entries : FreeEntries)
    (size align : Z) : outcome (option Z * FreeEntries) :=
  let! x := uadd size align in
  let! upper_size := usub x 1 in
  match take_loop 2 wait free_entries size align upper_size with
  | Some (Done (addr, rsize, fe)) => Done (addr, drop_size rsize fe)
  | Some Panic | None => Panic
  end.

Record BTreeAlloc := {
  free_entries : FreeEntries;
  allocated_addrs : gmap Z (Z * Z);
  start_addr : Z;
  max_size : Z;
  free_space : Z;
}.

Definition new : BTreeAlloc :=
  {| free_entries := fe_new; allocated_addrs := ∅; start_addr := 0; max_size := 0; free_space := 0 |}.

Definition init (self : BTreeAlloc) (start_addr size : Z) : BTreeAlloc :=
  {| free_entries := {| sizes := <[size := is_insert start_addr is_new]> (sizes (free_entries self));
                        addrs := <[start_addr := (size, 0)]> (addrs (free_entries self)) |};
     allocated_addrs := allocated_addrs self;
     start_addr := start_addr; max_size := size; free_space := size |}.

(** The second critical section of [try_malloc], for the block at [a]. *)
Definition record_section (self : BTreeAlloc) (a size align : Z) : outcome (Z * BTreeAlloc) :=
  let! padding := calc_padding a align in
  let! full_size := uadd size padding in
  let! addr := uadd a padding in
  Done (addr,
        {| free_entries := free_entries self;
           allocated_addrs := <[addr := (size, padding)]> (allocated_addrs self);
           start_addr := start_addr self; max_size := max_size self;
           free_space := wsub (free_space self) full_size |}).

Definition set_free (self : BTreeAlloc) (fe : FreeEntries) : BTreeAlloc :=
  {| free_entries := fe; allocated_addrs := allocated_addrs self; start_addr := start_addr self;
     max_size := max_size self; free_space := free_space self |}.

Definition try_malloc (wait : FreeEntries -> FreeEntries) (self : BTreeAlloc) (size align : Z)
  : outcome (option Z * BTreeAlloc) :=
  let! (o, fe) := take_section wait (free_entries self) size align in
  let self := set_free self fe in
  match o with
  | Some a => let! (addr, self) := record_section self a size align in Done (Some addr, self)
  | None => Done (None, self)
  end.

Fixpoint malloc (fuel : nat) (wait : FreeEntries -> FreeEntries)
    (retry : nat -> BTreeAlloc -> BTreeAlloc) (n : nat) (self : BTreeAlloc) (size align : Z)
  : option (outcome (Z * BTreeAlloc)) :=
  match fuel with
  | O => None
  | S fuel' =>
      match try_malloc wait self size align with
      | Done (Some addr, self') => Some (Done (addr, self'))
      | Done (None, self') => malloc fuel' wait retry (S n) (retry n self') size align
      | Panic => Some Panic
      end
  end.

Definition fake_malloc (self : BTreeAlloc) (size align : Z) : outcome (bool * BTreeAlloc) :=
  let! x := uadd size align in
  let! upper_size := usub x 1 in
  match range_from upper_size (sizes (free_entries self)) with
  | Some _ => Done (true, self)
  | None =>
      let! fe := merge (free_entries self) in
      match range_from upper_size (sizes fe) with
      | Some _ => Done (true, set_free self fe)
      | None => Done (false, set_free self fe)
      end
  end.

(** The first critical section of [free]. *)
Definition remove_section (self : BTreeAlloc) (addr : Z)
  : outcome (option (Z * Z) * BTreeAlloc) :=
  match allocated_addrs self !! addr with
  | Some (size, padding) =>
      let! full_size := uadd size padding in
      Done (Some (size, padding),
            {| free_entries := free_entries self;
               allocated_addrs := delete addr (allocated_addrs self);
               start_addr := start_addr self; max_size := max_size self;
               free_space := wadd (free_space self) full_size |})
  | None => Done (None, self)
  end.

(** The second critical section of [free]. *)
Definition return_section (fe : FreeEntries) (addr size padding : Z) : outcome FreeEntries :=
  let! unpadded_addr := usub addr padding in
  let! full_size := uadd size padding in
  let! (temp_addr, temp_size, remove1) :=
    match range_to_last unpadded_addr (addrs fe) with
    | Some (faddr, (fsize, fpadding)) =>
        let! x := uadd faddr fsize in
        let! fend := uadd x fpadding in
        if fend =? addr then
          let! y := uadd full_size fsize in
          let! y := uadd y fpadding in
          Done (faddr, y, [(faddr, fsize, fpadding)])
        else Done (unpadded_addr, full_size, [])
    | None => Done (unpadded_addr, full_size, [])
    end in
  let! (temp_size, remove2) :=
    match range_from addr (addrs fe) with
    | Some (faddr, (fsize, fpadding)) =>
        let! tend := uadd temp_addr temp_size in
        if tend =? faddr then
          let! y := uadd temp_size fsize in
          let! y := uadd y fpadding in
          Done (y, [(faddr, fsize, fpadding)])
        else Done (temp_size, [])
    | None => Done (temp_size, [])
    end in
  (* these sums were computed without overflow above *)
  let fe := fold_left (fun fe '(raddr, rsize, rpadding) =>
                         {| sizes := remove_size raddr (rsize + rpadding) (sizes fe);
                            addrs := delete raddr (addrs fe) |})
              (remove1 ++ remove2) fe in
  Done {| sizes := insert_size temp_addr temp_size (sizes fe);
          addrs := <[temp_addr := (temp_size, 0)]> (addrs fe) |}.

Definition free (self : BTreeAlloc) (addr : Z) : outcome (result unit Z * BTreeAlloc) :=
  let! (o, self) := remove_section self addr in
  match o with
  | Some (size, padding) =>
      let! fe := return_section (free_entries self) addr size padding in
      Done (Ok (), set_free self fe)
  | None => Done (Err addr, self)
  end.

Definition space_avail (self : BTreeAlloc) : Z := free_space self.
Definition occupied (self : BTreeAlloc) : outcome Z := usub (max_size self) (free_space self).
End Model.
Arguments FreeEntries IS : clear implicits.
Arguments BTreeAlloc IS : clear implicits.

(** ** The invariant of the free entries *)
Section Invariant.
Context {IS : Type} `{IndexSetLaws IS}.

Definition in_sizes (m : gmap Z IS) (s a : Z) : Prop :=
  exists X, m !! s = Some X /\ a ∈ is_elems X.

(** The two maps describe the same blocks: [sizes] indexes [addrs] by size, has no empty
    set, and the paddings of free blocks are 0. *)
Record represents (m : gmap Z IS) (ad : gmap Z (Z * Z)) : Prop := {
  rep_iff s a : in_sizes m s a <-> ad !! a = Some (s, 0);
  rep_ne s X : m !! s = Some X -> is_elems X <> ∅;
  rep_pad a s p : ad !! a = Some (s, p) -> p = 0;
}.

Definition fe_wf (fe : FreeEntries IS) : Prop := represents (sizes fe) (addrs fe).

Definition full (kv : Z * (Z * Z)) : Z * Z := (kv.1, kv.2.1 + kv.2.2).
Definition blocks (ad : gmap Z (Z * Z)) : list (Z * Z) := full <$> map_to_list ad.
Definition fblocks (fe : FreeEntries IS) : list (Z * Z) := blocks (addrs fe).

Lemma insert_size_in m a s s' a' :
  in_sizes (insert_size a s m) s' a' <-> (s' = s /\ a' = a) \/ in_sizes m s' a'.
Proof.
  unfold in_sizes, insert_size. destruct (decide (s' = s)) as [->|Hn].
  - rewrite lookup_insert_eq. split.
    + intros (X & [= <-] & Hin). rewrite is_insert_elems in Hin.
      apply elem_of_union in Hin as [Hin|Hin]; [set_solver|]. right.
      destruct (m !! s) as [Y|]; cbn in *; [by exists Y|]. rewrite is_new_elems in Hin. set_solver.
    + intros [[_ ->]|(X & E & Hin)]; eexists; (split; [reflexivity|]); rewrite is_insert_elems; [set_solver|].
      rewrite E. cbn. set_solver.
  - rewrite lookup_insert_ne by done. naive_solver.
Qed.

Lemma insert_size_ne m a s :
  (forall s' X, m !! s' = Some X -> is_elems X <> ∅) ->
  forall s' X, insert_size a s m !! s' = Some X -> is_elems X <> ∅.
Proof.
  intros Hm s' X. unfold insert_size. destruct (decide (s' = s)) as [->|Hn].
  - rewrite lookup_insert_eq. intros [= <-]. rewrite is_insert_elems. set_solver.
  - rewrite lookup_insert_ne by done. apply Hm.
Qed.

Lemma remove_size_in m a s s' a' :
  in_sizes (remove_size a s m) s' a' <-> in_sizes m s' a' /\ ~ (s' = s /\ a' = a).
Proof.
  unfold in_sizes, remove_size. destruct (m !! s) as [X|] eqn:E; [|naive_solver].
  rewrite is_empty_elems, is_remove_elems. destruct (decide (s' = s)) as [->|Hn].
  - case_bool_decide as Hc.
    + rewrite lookup_delete_eq. rewrite E. split; [naive_solver|].
      intros [(Y & [= <-] & Hin) Hn]. assert (a' ∈ is_elems X ∖ {[a]}) by set_solver. set_solver.
    + rewrite lookup_insert_eq, E. split.
      * intros (Y & [= <-] & Hin). rewrite is_remove_elems in Hin. split; [eexists; split; [done|]|]; set_solver.
      * intros [(Y & [= <-] & Hin) Hn]. eexists. split; [done|]. rewrite is_remove_elems. set_solver.
  - case_bool_decide as Hc; rewrite ?lookup_delete_ne, lookup_insert_ne by done; naive_solver.
Qed.

Lemma remove_size_ne m a s :
  (forall s' X, m !! s' = Some X -> is_elems X <> ∅) ->
  forall s' X, remove_size a s m !! s' = Some X -> is_elems X <> ∅.
Proof.
  intros Hm s' X. unfold remove_size. destruct (m !! s) as [Y|] eqn:E; [|apply Hm].
  rewrite is_empty_elems. case_bool_decide as Hc; destruct (decide (s' = s)) as [->|Hn].
  - by rewrite lookup_delete_eq.
  - rewrite lookup_delete_ne, lookup_insert_ne by done. apply Hm.
  - rewrite lookup_insert_eq. by intros [= <-].
  - rewrite lookup_insert_ne by done. apply Hm.
Qed.

Lemma rep_empty : represents ∅ ∅.
Proof. split; intros *; [|by rewrite lookup_empty..]. unfold in_sizes. rewrite !lookup_empty. naive_solver. Qed.

(** Adding and removing a block. *)
Lemma rep_add m ad a s : represents m ad -> ad !! a = None ->
  represents (insert_size a s m) (<[a := (s, 0)]> ad).
Proof.
  intros [R1 R2 R3] Ha. split.
  - intros s' a'. rewrite insert_size_in, R1. destruct (decide (a' = a)) as [->|Hn].
    + rewrite lookup_insert_eq. naive_solver.
    + rewrite lookup_insert_ne by done. naive_solver.
  - by apply insert_size_ne.
  - intros a' s' p. destruct (decide (a' = a)) as [->|Hn].
    + rewrite lookup_insert_eq. naive_solver.
    + rewrite lookup_insert_ne by done. apply R3.
Qed.

Lemma rep_del m ad a s : represents m ad -> ad !! a = Some (s, 0) ->
  represents (remove_size a s m) (delete a ad).
Proof.
  intros [R1 R2 R3] Ha. split.
  - intros s' a'. rewrite remove_size_in, R1. destruct (decide (a' = a)) as [->|Hn].
    + rewrite lookup_delete_eq. naive_solver.
    + rewrite lookup_delete_ne by done. naive_solver.
  - by apply remove_size_ne.
  - intros a' s' p [_ E]%lookup_delete_Some. by eapply R3.
Qed.

Lemma blocks_insert ad a s p : ad !! a = None -> blocks (<[a := (s, p)]> ad) ≡ₚ (a, s + p) :: blocks ad.
Proof. intros Ha. unfold blocks. by rewrite map_to_list_insert. Qed.

Lemma blocks_delete ad a s p : ad !! a = Some (s, p) -> blocks ad ≡ₚ (a, s + p) :: blocks (delete a ad).
Proof. intros Ha. unfold blocks. by rewrite <- (map_to_list_delete ad a (s, p)). Qed.

Lemma elem_of_blocks ad a n : (a, n) ∈ blocks ad <-> exists s p, ad !! a = Some (s, p) /\ n = s + p.
Proof.
  unfold blocks. rewrite list_elem_of_fmap. split.
  - intros ([a' [s p]] & [= -> ->] & Hin). exists s, p. by rewrite elem_of_map_to_list in Hin.
  - intros (s & p & E & ->). exists (a, (s, p)). by rewrite elem_of_map_to_list.
Qed.

(** A block of the tiling that starts where a block of the map starts. *)
Lemma tiles_fresh lo len ad a n rest : tiles lo len ((a, n) :: blocks ad ++ rest) -> ad !! a = None.
Proof.
  intros [[D _] F _]. destruct (ad !! a) as [[s p]|] eqn:E; [|done]. exfalso.
  assert (Hin : (a, s + p) ∈ blocks ad ++ rest) by (apply elem_of_app; left; apply elem_of_blocks; by eexists _, _).
  rewrite Forall_forall in D, F. specialize (D _ Hin).
  pose proof (F (a, n) ltac:(left)). pose proof (F (a, s + p) ltac:(by right)).
  unfold disj in D. cbn in *. lia.
Qed.

Lemma rep_del' m m' ad a s : represents m ad -> ad !! a = Some (s, 0) ->
  (forall s' a', in_sizes m' s' a' <-> in_sizes m s' a' /\ ~ (s' = s /\ a' = a)) ->
  (forall s' X, m' !! s' = Some X -> is_elems X <> ∅) -> represents m' (delete a ad).
Proof.
  intros [R1 R2 R3] Ha Hin Hne. split; [|done|].
  - intros s' a'. rewrite Hin, R1. destruct (decide (a' = a)) as [->|Hn].
    + rewrite lookup_delete_eq. naive_solver.
    + rewrite lookup_delete_ne by done. naive_solver.
  - intros a' s' p [_ E]%lookup_delete_Some. by eapply R3.
Qed.

(** The set a segment was popped from is dropped when it has become empty. *)
Lemma popped_rep m ad s X a X' : represents m ad -> m !! s = Some X -> is_pop X = Some (a, X') ->
  ad !! a = Some (s, 0) /\
  represents (if is_empty X' then delete s (<[s := X']> m) else <[s := X']> m) (delete a ad).
Proof.
  intros R E Ep. pose proof (is_pop_elems X) as Hp. rewrite Ep in Hp. destruct Hp as [Hin He].
  assert (Ha : ad !! a = Some (s, 0)) by (apply R; by exists X). split; [done|].
  eapply rep_del'; [exact R|exact Ha| |]; rewrite is_empty_elems.
  - intros s' a'. unfold in_sizes. destruct (decide (s' = s)) as [->|Hn].
    + case_bool_decide as Hc; rewrite ?lookup_delete_eq, ?lookup_insert_eq, E; split.
      * naive_solver.
      * intros [(Y & [= <-] & Hy) Hn]. exfalso. assert (a' ∈ is_elems X') by (rewrite He; set_solver).
        set_solver.
      * intros (Y & [= <-] & Hy). rewrite He in Hy. split; [eexists; split; [done|]|]; set_solver.
      * intros [(Y & [= <-] & Hy) Hn]. eexists. split; [done|]. rewrite He. set_solver.
    + case_bool_decide; rewrite ?lookup_delete_ne, lookup_insert_ne by done; naive_solver.
  - intros s' Y. destruct R as [_ R2 _]. destruct (decide (s' = s)) as [->|Hn]; case_bool_decide.
    + by rewrite lookup_delete_eq.
    + rewrite lookup_insert_eq. by intros [= <-].
    + rewrite lookup_delete_ne, lookup_insert_ne by done. apply R2.
    + rewrite lookup_insert_ne by done. apply R2.
Qed.

Lemma delete_insert_size m s a n : s <> n ->
  delete s (insert_size a n m) = insert_size a n (delete s m).
Proof. intros Hn. unfold insert_size. by rewrite delete_insert_ne, lookup_delete_ne by done. Qed.

Lemma range_from_sizes_none fe u : fe_wf fe -> range_from u (sizes fe) = None ->
  forall a n, (a, n) ∈ fblocks fe -> n < u.
Proof.
  intros R E a n (s & p & Ha & ->)%elem_of_blocks. destruct R as [R1 R2 R3].
  pose proof (R3 _ _ _ Ha) as ->. apply R1 in Ha as (X & HX & _).
  pose proof (bt_least_spec (fun x => u <=? x) (sizes fe)) as Hs. unfold range_from in E. rewrite E in Hs.
  specialize (Hs _ _ HX). cbn in Hs. lia.
Qed.
End Invariant.

Section Specs.
Context {IS : Type} `{IndexSetLaws IS}.
(** The region, and the blocks that are not in the free entries. *)
Context (lo len : Z) (Hlo : 0 <= lo) (Hlen : lo + len < 2 ^ 62).

Definition fe_ok (fe : FreeEntries IS) (rest : list (Z * Z)) : Prop :=
  fe_wf fe /\ tiles lo len (fblocks fe ++ rest).

Lemma probe_spec fe rest size align :
  fe_ok fe rest -> 0 < size < 2 ^ 62 -> 0 < align < 2 ^ 62 ->
  match probe fe size align (size + align - 1) with
  | Done (Some (o, rsize, fe1)) =>
      exists a, o = Some a /\ fe_ok (drop_size rsize fe1) ((a, size + pad a align) :: rest)
  | Done None =>
      range_from (size + align - 1) (sizes fe) = None
      /\ forall a n, (a, n) ∈ fblocks fe -> n < size + align - 1
  | Panic => False
  end.
Proof.
  intros [R T] Hs Ha. unfold probe.
  destruct (range_from (size + align - 1) (sizes fe)) as [[s X]|] eqn:E;
    [|split; [done|by apply range_from_sizes_none]].
  pose proof (bt_least_spec (fun x => size + align - 1 <=? x) (sizes fe)) as Hr.
  unfold range_from in E. rewrite E in Hr. destruct Hr as (EX & Hge & _).
  destruct (is_pop X) as [[a X']|] eqn:Ep;
    [|exfalso; pose proof (is_pop_elems X) as Hp; rewrite Ep in Hp; by apply (rep_ne _ _ R s X)].
  destruct (popped_rep _ _ _ _ _ _ R EX Ep) as [Ead R'].
  assert (Hb : (a, s) ∈ fblocks fe ++ rest).
  { apply elem_of_app. left. apply elem_of_blocks. exists s, 0. split; [done|lia]. }
  pose proof (tiles_elem _ _ _ _ T Hb) as Hbnd. cbn in Hbnd.
  pose proof (pad_bound a align ltac:(lia)) as Hpad.
  rewrite calc_padding_eq, uadd_ok by lia. rewrite Ead. cbn [unwrap].
  rewrite uadd_ok by lia. rewrite Z.add_0_r.
  assert (T' : tiles lo len ((a, s) :: blocks (delete a (addrs fe)) ++ rest)).
  { unfold fblocks in T. rewrite (blocks_delete _ _ _ _ Ead), Z.add_0_r in T. exact T. }
  destruct (Z.eqb_spec s (size + pad a align)) as [Eq|Hne]; cbn [negb].
  - exists a. split; [done|]. split.
    + unfold drop_size. destruct (is_empty X'); exact R'.
    + unfold drop_size, fblocks. rewrite <- Eq. rewrite <- Permutation_middle. destruct (is_empty X'); exact T'.
  - rewrite usub_ok, uadd_ok by lia. exists a. split; [done|].
    apply (tiles_split _ _ _ _ (size + pad a align)) in T'; [|lia].
    assert (Hfr : delete a (addrs fe) !! (a + (size + pad a align)) = None).
    { apply (tiles_fresh lo len _ _ (s - (size + pad a align)) ((a, size + pad a align) :: rest)).
      rewrite <- Permutation_middle, perm_swap. exact T'. }
    split.
    + pose proof (rep_add _ _ _ (s - (size + pad a align)) R' Hfr) as R2.
      unfold drop_size, fe_wf. destruct (is_empty X'); [|exact R2].
      cbn [sizes addrs]. rewrite delete_insert_size by lia. exact R2.
    + assert (Eb : fblocks (drop_size (if is_empty X' then Some s else None)
                {| sizes := insert_size (a + (size + pad a align)) (s - (size + pad a align)) (<[s := X']> (sizes fe));
                   addrs := <[a + (size + pad a align) := (s - (size + pad a align), 0)]> (delete a (addrs fe)) |})
              ≡ₚ (a + (size + pad a align), s - (size + pad a align)) :: blocks (delete a (addrs fe))).
      { unfold fblocks, drop_size. destruct (is_empty X'); cbn [addrs];
          rewrite (blocks_insert _ _ _ _ Hfr), Z.add_0_r; done. }
      rewrite Eb, <- Permutation_middle. exact T'.
Qed.

Lemma pop_first_spec (m : gmap Z (Z * Z)) :
  match pop_first m with
  | Some ((k, v), m') => m !! k = Some v /\ m' = delete k m
                         /\ forall k' v', m !! k' = Some v' -> k <= k'
  | None => m = ∅
  end.
Proof.
  unfold pop_first. pose proof (bt_least_spec (fun _ => true) m) as Hs.
  destruct (bt_least _ m) as [[k v]|].
  - destruct Hs as (H1 & _ & H3). split; [done|]. split; [done|]. intros k' v' Hk. by apply (H3 k' v').
  - apply map_empty. intros k. destruct (m !! k) eqn:E; [|done]. by apply Hs in E.
Qed.

Lemma blocks_count fe rest : fe_ok fe rest -> Z.of_nat (size (addrs fe)) <= len.
Proof.
  intros [_ [_ F T]]. assert (Hc : forall l : list (Z * Z),
    Forall (fun b => 0 < b.2 /\ lo <= b.1 /\ b.1 + b.2 <= lo + len) l -> Z.of_nat (length l) <= total l).
  { induction 1 as [|b l Hb _ IH]; cbn; lia. }
  apply Hc in F. rewrite T, length_app in F. unfold fblocks, blocks in F.
  rewrite length_fmap, length_map_to_list in F. lia.
Qed.

(** Every old block lies in a new one. *)
Definition coarser (fe fe' : FreeEntries IS) : Prop :=
  forall a n, (a, n) ∈ fblocks fe ->
    exists b k, (b, k) ∈ fblocks fe' /\ b <= a /\ a + n <= b + k.

#[local] Instance coarser_pre : PreOrder coarser.
Proof.
  split.
  - intros fe a n Hin. exists a, n. split; [done|lia].
  - intros f1 f2 f3 H1 H2 a n Hin. destruct (H1 _ _ Hin) as (b & k & Hb & ?).
    destruct (H2 _ _ Hb) as (c & j & Hc & ?). exists c, j. split; [done|lia].
Qed.

Lemma merge_step_spec fe rest i :
  fe_ok fe rest -> 0 <= i -> addrs fe <> ∅ ->
  match merge_step i fe with
  | Panic => False
  | Done None => Z.of_nat (size (addrs fe)) - 1 <= i
  | Done (Some (i', fe')) =>
      fe_ok fe' rest /\ addrs fe' <> ∅ /\ coarser fe fe' /\ i <= i'
      /\ Z.of_nat (size (addrs fe')) - i' = Z.of_nat (size (addrs fe)) - i - 1
  end.
Proof.
  intros [R T] Hi Hne. pose proof (blocks_count _ _ (conj R T)) as Hcnt. unfold merge_step.
  assert (Hsz : size (addrs fe) <> 0%nat) by (by apply map_size_non_empty_iff).
  rewrite usub_ok by lia. destruct (Z.ltb_spec i (Z.of_nat (size (addrs fe)) - 1)) as [Hlt|]; [|lia].
  pose proof (pop_first_spec (addrs fe)) as Hp.
  destruct (pop_first (addrs fe)) as [[[f [fs fp]] m1]|]; [|done]. destruct Hp as (Ef & -> & Hf).
  cbn [unwrap]. pose proof (pop_first_spec (delete f (addrs fe))) as Hp.
  destruct (pop_first (delete f (addrs fe))) as [[[n [ns np]] m2]|];
    [|exfalso; apply (f_equal size) in Hp; rewrite map_size_delete_Some in Hp by (by exists (fs, fp));
      rewrite map_size_empty in Hp; lia].
  destruct Hp as (En & -> & Hn). cbn [unwrap]. apply lookup_delete_Some in En as [Hfn En].
  pose proof (rep_pad _ _ R _ _ _ Ef) as ->. pose proof (rep_pad _ _ R _ _ _ En) as ->.
  assert (Hfb : (f, fs + 0) ∈ fblocks fe) by (apply elem_of_blocks; by eexists _, _).
  assert (Hnb : (n, ns + 0) ∈ fblocks fe) by (apply elem_of_blocks; by eexists _, _).
  pose proof (tiles_elem _ _ _ (f, fs + 0) T ltac:(apply elem_of_app; by left)) as Bf.
  pose proof (tiles_elem _ _ _ (n, ns + 0) T ltac:(apply elem_of_app; by left)) as Bn.
  cbn in Bf, Bn. rewrite !uadd_ok by lia.
  assert (Efd : delete n (addrs fe) !! f = Some (fs, 0)) by (by rewrite lookup_delete_ne).
  rewrite delete_delete. destruct (Z.eqb_spec (f + fs + 0) n) as [Eq|Hna].
  - change (0 + 0) with 0. cbn [assert_ Z.eqb].
    pose proof (rep_del _ _ _ _ (rep_del _ _ _ _ R En) Efd) as R2.
    assert (Hnone : delete f (delete n (addrs fe)) !! f = None) by apply lookup_delete_eq.
    match goal with |- fe_ok ?x _ /\ _ => set (fe' := x) end.
    assert (Eb : fblocks fe ≡ₚ (f, fs) :: (f + fs, ns) :: blocks (delete f (delete n (addrs fe)))).
    { unfold fblocks. rewrite (blocks_delete _ _ _ _ En), (blocks_delete _ _ _ _ Efd), !Z.add_0_r.
      rewrite <- Eq, Z.add_0_r. apply perm_swap. }
    assert (Eb' : fblocks fe' ≡ₚ (f, fs + ns) :: blocks (delete f (delete n (addrs fe)))).
    { unfold fblocks, fe'. cbn [addrs]. by rewrite (blocks_insert _ _ _ _ Hnone), Z.add_0_r. }
    split_and!.
    + split; [by apply (rep_add _ _ f (fs + ns) R2)|]. rewrite Eb'. rewrite Eb in T.
      by apply tiles_merge in T.
    + apply insert_non_empty.
    + intros a k Hin. rewrite Eb in Hin. setoid_rewrite Eb'.
      apply elem_of_cons in Hin as [[= -> ->]|Hin]; [exists f, (fs + ns); split; [left|lia]|].
      apply elem_of_cons in Hin as [[= -> ->]|Hin]; [exists f, (fs + ns); split; [left|lia]|].
      exists a, k. split; [by right|lia].
    + lia.
    + unfold fe'. cbn [addrs]. rewrite map_size_insert_None by done.
      rewrite !map_size_delete_Some by (by eexists). lia.
  - assert (Eq : <[n := (ns, 0)]> (<[f := (fs, 0)]> (delete f (delete n (addrs fe)))) = addrs fe).
    { by rewrite (insert_delete_id _ f) by done; apply insert_delete_id. }
    rewrite Eq. split_and!; [done|done|intros a k Hin; exists a, k; split; [done|lia]|lia|cbn; lia].
Qed.

(** [merge] returns, whatever order the iterations take. *)
Lemma merge_loop_returns fuel fe rest i :
  fe_ok fe rest -> 0 <= i -> addrs fe <> ∅ -> Z.of_nat (size (addrs fe)) - i < Z.of_nat fuel + 1 ->
  (0 < fuel)%nat ->
  exists fe', merge_loop fuel i fe = Some (Done fe') /\ fe_ok fe' rest /\ addrs fe' <> ∅ /\ coarser fe fe'.
Proof.
  revert fe i. induction fuel as [|fuel IH]; intros fe i Hok Hi Hne Hf Hfuel; [lia|]. cbn [merge_loop].
  pose proof (merge_step_spec fe rest i Hok Hi Hne) as Hs.
  destruct (merge_step i fe) as [[[i' fe']|]|] eqn:E; [| |done].
  - destruct Hs as (Hok' & Hne' & Hc & Hii & Hsz). destruct fuel as [|fuel'].
    { exfalso. unfold merge_step in E. destruct (usub _ _) as [x|] eqn:Eu; [|done].
      apply usub_inv in Eu as [-> Hu]. rewrite (proj2 (Z.ltb_ge _ _)) in E by lia. done. }
    destruct (IH fe' i' Hok' ltac:(lia) Hne' ltac:(lia) ltac:(lia)) as (fe2 & E2 & Hok2 & Hne2 & Hc2).
    exists fe2. split_and!; try done. by etransitivity.
  - exists fe. by split_and!.
Qed.

Lemma merge_spec fe rest : fe_ok fe rest -> addrs fe <> ∅ ->
  exists fe', merge fe = Done fe' /\ fe_ok fe' rest /\ addrs fe' <> ∅ /\ coarser fe fe'.
Proof.
  intros Hok Hne. unfold merge.
  destruct (merge_loop_returns (S (size (addrs fe))) fe rest 0 Hok ltac:(lia) Hne ltac:(lia) ltac:(lia))
    as (fe' & E & Hr). rewrite E. by exists fe'.
Qed.

Lemma merge_empty (fe : FreeEntries IS) : addrs fe = ∅ -> merge fe = Panic.
Proof. intros E. unfold merge. cbn [merge_loop]. unfold merge_step. by rewrite E, map_size_empty. Qed.

(** With no free block there is no size either. *)
Lemma sizes_exhausted (fe : FreeEntries IS) u : fe_wf fe -> addrs fe = ∅ -> range_from u (sizes fe) = None.
Proof.
  intros R Hx. destruct (range_from u (sizes fe)) as [[s X]|] eqn:E; [exfalso|done].
  pose proof (bt_least_spec (fun x => u <=? x) (sizes fe)) as Hr. unfold range_from in E. rewrite E in Hr.
  destruct Hr as (EX & _ & _). destruct (set_choose_L (is_elems X) (rep_ne _ _ R s X EX)) as [a Ha].
  assert (Hin : in_sizes (sizes fe) s a) by (by exists X). apply (rep_iff _ _ R) in Hin.
  by rewrite Hx in Hin.
Qed.

(** The first critical section of [try_malloc]. *)
Lemma take_section_spec wait fe rest rest' size align :
  fe_ok fe rest -> fe_ok (wait fe) rest' -> 0 < size < 2 ^ 62 -> 0 < align < 2 ^ 62 ->
  (addrs (wait fe) <> ∅ \/ exists a n, (a, n) ∈ fblocks fe /\ size + align - 1 <= n) ->
  exists o fe', take_section wait fe size align = Done (o, fe')
    /\ match o with
       | Some a => fe_ok fe' ((a, size + pad a align) :: rest)
                   \/ fe_ok fe' ((a, size + pad a align) :: rest')
       | None => fe_ok fe' rest' /\ coarser (wait fe) fe'
                 /\ forall a n, (a, n) ∈ fblocks fe' -> n < size + align - 1
       end.
Proof.
  intros Hok Hw Hs Ha Hne. unfold take_section. rewrite uadd_ok, usub_ok by lia. cbn [take_loop].
  pose proof (probe_spec fe rest size align Hok Hs Ha) as Hp.
  destruct (probe fe size align (size + align - 1)) as [[[[o rs] fe1]|]|]; [| |done].
  - destruct Hp as (a & -> & Hp). exists (Some a), (drop_size rs fe1). auto.
  - destruct Hp as [_ Hsm]. destruct Hne as [Hne|(a & n & Hin & Hn)];
      [|specialize (Hsm _ _ Hin); lia].
    destruct (merge_spec _ _ Hw Hne) as (fe2 & E2 & Hok2 & _ & Hc). rewrite E2.
    pose proof (probe_spec fe2 rest' size align Hok2 Hs Ha) as Hp.
    pose proof (range_from_sizes_none fe2 (size + align - 1) (proj1 Hok2)) as Hrn.
    destruct (range_from (size + align - 1) (sizes fe2)) as [x|] eqn:Er.
    + destruct (probe fe2 size align (size + align - 1)) as [[[[o rs] fe1]|]|]; [| |done].
      * destruct Hp as (a & -> & Hp). exists (Some a), (drop_size rs fe1). auto.
      * destruct Hp as [Hp _]. congruence.
    + exists None, fe2. split; [done|]. split; [done|]. split; [done|]. by apply Hrn.
Qed.

(** *** Giving a block back *)

(** A free block next to the block [(t, n)] is taken out of the free entries and joined to it. *)
Lemma absorb fe a s t n rest :
  addrs fe !! a = Some (s, 0) -> fe_ok fe ((t, n) :: rest) ->
  let fe' := {| sizes := remove_size a (s + 0) (sizes fe); addrs := delete a (addrs fe) |} in
  (a + s = t -> fe_ok fe' ((a, s + n) :: rest)) /\ (t + n = a -> fe_ok fe' ((t, n + s) :: rest)).
Proof.
  intros Ea [R T] fe'. pose proof (rep_del _ _ _ _ R Ea) as R'. rewrite <- (Z.add_0_r s) in R' at 1.
  unfold fblocks in T. rewrite (blocks_delete _ _ _ _ Ea), Z.add_0_r in T.
  rewrite <- Permutation_middle in T. cbn in T.
  split; intros E; (split; [exact R'|]); change (fblocks fe') with (blocks (delete a (addrs fe)));
    rewrite <- Permutation_middle; apply tiles_merge; rewrite E; [rewrite perm_swap|]; exact T.
Qed.

Lemma give_back fe t n rest :
  fe_ok fe ((t, n) :: rest) ->
  fe_ok {| sizes := insert_size t n (sizes fe); addrs := <[t := (n, 0)]> (addrs fe) |} rest.
Proof.
  intros [R T]. rewrite <- Permutation_middle in T. pose proof (tiles_fresh _ _ _ _ _ _ T) as Hfr.
  split; [by apply rep_add|]. unfold fblocks. cbn [addrs]. by rewrite (blocks_insert _ _ _ _ Hfr), Z.add_0_r.
Qed.

Lemma free_block_bounds fe t n rest a s p :
  fe_ok fe ((t, n) :: rest) -> addrs fe !! a = Some (s, p) ->
  p = 0 /\ 0 < s /\ lo <= a /\ a + s <= lo + len /\ (a + s <= t \/ t + n <= a).
Proof.
  intros [R T] Ea. pose proof (rep_pad _ _ R _ _ _ Ea) as ->.
  assert (Hin : (a, s) ∈ fblocks fe) by (apply elem_of_blocks; exists s, 0; split; [done|lia]).
  pose proof (tiles_elem _ _ _ _ T ltac:(apply elem_of_app; by left)) as Hb. cbn in Hb.
  destruct T as [D _ _]. rewrite <- Permutation_middle in D. destruct D as [D _].
  rewrite Forall_forall in D. specialize (D (a, s) ltac:(apply elem_of_app; by left)).
  unfold disj in D. cbn in D. lia.
Qed.

Lemma return_section_spec fe addr size padding rest :
  fe_ok fe ((addr - padding, size + padding) :: rest) -> 0 < size -> 0 <= padding ->
  exists fe', return_section fe addr size padding = Done fe' /\ fe_ok fe' rest /\ addrs fe' <> ∅.
Proof.
  intros Hok Hs Hp. pose proof Hok as [_ T].
  pose proof (tiles_elem _ _ _ (addr - padding, size + padding) T
                ltac:(apply elem_of_app; right; left)) as Hb. cbn in Hb.
  unfold return_section. rewrite usub_ok, uadd_ok by lia.
  (* the block before *)
  pose proof (bt_greatest_spec (fun x => x <? addr - padding) (addrs fe)) as Hg.
  unfold range_to_last. set (prev := bt_greatest _ _) in *.
  match goal with |- context [match ?x with Done _ => _ | Panic => _ end] =>
    set (R1 := x) end.
  assert (P1 : exists ta ts rm, R1 = Done (ta, ts, rm)
    /\ (rm = [] /\ ta = addr - padding /\ ts = size + padding
        \/ exists s, rm = [(ta, s, 0)] /\ addrs fe !! ta = Some (s, 0)
                     /\ ta + s = addr - padding /\ ts = s + (size + padding))).
  { subst R1. destruct prev as [[f [fs fp]]|]; [|by eexists _, _, _; split; [done|left]].
    destruct Hg as (Ef & Hlt & _).
    destruct (free_block_bounds _ _ _ _ _ _ _ Hok Ef) as (-> & ? & ? & ? & Hd).
    rewrite !uadd_ok by lia. destruct (Z.eqb_spec (f + fs + 0) addr) as [Eq|Hne];
      rewrite ?uadd_ok by lia.
    - eexists _, _, _. split; [done|]. right. exists fs. split_and!; (done || lia).
    - eexists _, _, _. split; [done|]. by left. }
  destruct P1 as (ta & ts & rm & -> & P1).
  (* the block after *)
  pose proof (bt_least_spec (fun x => addr <=? x) (addrs fe)) as Hl.
  unfold range_from. set (next := bt_least _ _) in *.
  assert (Hta : lo <= ta /\ ta + ts = addr + size).
  { destruct P1 as [(-> & -> & ->)|(s & -> & Ea & E1 & ->)]; [lia|].
    destruct (free_block_bounds _ _ _ _ _ _ _ Hok Ea) as (_ & ? & ? & _). lia. }
  match goal with |- context [match ?x with Done _ => _ | Panic => _ end] =>
    set (R2 := x) end.
  assert (P2 : exists ts' rm', R2 = Done (ts', rm')
    /\ (rm' = [] /\ ts' = ts
        \/ exists s, rm' = [(addr + size, s, 0)] /\ addrs fe !! (addr + size) = Some (s, 0)
                     /\ ts' = ts + s)).
  { subst R2. destruct next as [[f [fs fp]]|]; [|by eexists _, _; split; [done|left]].
    destruct Hl as (Ef & Hle & _).
    destruct (free_block_bounds _ _ _ _ _ _ _ Hok Ef) as (-> & ? & ? & ? & Hd).
    rewrite uadd_ok by lia. destruct (Z.eqb_spec (ta + ts) f) as [Eq|Hne]; rewrite ?uadd_ok by lia.
    - eexists _, _. split; [done|]. right. exists fs. rewrite <- Eq in Ef |- *.
      replace (ta + ts) with (addr + size) in * by lia. split_and!; (done || lia).
    - eexists _, _. split; [done|]. by left. }
  destruct P2 as (ts' & rm' & -> & P2).
  eexists. split; [reflexivity|]. split; [|apply insert_non_empty]. apply give_back.
  clear Hg Hl. clear prev next.
  destruct P1 as [(-> & -> & ->)|(s & -> & Ea & E1 & ->)];
    destruct P2 as [(-> & ->)|(s2 & -> & Ea2 & ->)]; cbn [app fold_left].
  - done.
  - destruct (absorb _ _ _ _ _ _ Ea2 Hok) as [_ G]. apply G. lia.
  - destruct (absorb _ _ _ _ _ _ Ea Hok) as [G _]. apply G. lia.
  - destruct (absorb _ _ _ _ _ _ Ea Hok) as [Hok1 _]. specialize (Hok1 E1).
    assert (Ea2' : delete ta (addrs fe) !! (addr + size) = Some (s2, 0)).
    { destruct (free_block_bounds _ _ _ _ _ _ _ Hok Ea) as (_ & ? & _). rewrite lookup_delete_ne by lia. done. }
    destruct (absorb {| sizes := remove_size ta (s + 0) (sizes fe); addrs := delete ta (addrs fe) |}
                _ _ _ _ _ Ea2' Hok1) as [_ G]. apply G. lia.
Qed.
End Specs.


(** ** The allocator: sections, operations and interleavings *)
Section Machine.
Context {IS : Type} `{IndexSetLaws IS}.
Implicit Types (b : BTreeAlloc IS) (fe : FreeEntries IS).

(** The bytes an allocation occupies, and the block the caller got. *)
Definition alloc_blocks (m : gmap Z (Z * Z)) : list (Z * Z) :=
  (fun kv => (kv.1 - kv.2.2, kv.2.1 + kv.2.2)) <$> map_to_list m.
Definition live b : list (Z * Z) := (fun kv => (kv.1, kv.2.1)) <$> map_to_list (allocated_addrs b).

(** [flight]: the blocks that are between the two critical sections of some thread. *)
Record b_ok (lo len : Z) (flight : list (Z * Z)) b : Prop := {
  bo_lo : start_addr b = lo;
  bo_len : max_size b = len;
  bo_range : 0 <= lo /\ lo + len < 2 ^ 62;
  bo_fe : fe_ok lo len (free_entries b) (alloc_blocks (allocated_addrs b) ++ flight);
  bo_alloc a s p : allocated_addrs b !! a = Some (s, p) -> 0 < s /\ 0 <= p;
  bo_space : free_space b = len - total (alloc_blocks (allocated_addrs b));
}.

Lemma alloc_blocks_insert m a s p : m !! a = None ->
  alloc_blocks (<[a := (s, p)]> m) ≡ₚ (a - p, s + p) :: alloc_blocks m.
Proof. intros Ha. unfold alloc_blocks. by rewrite map_to_list_insert. Qed.

Lemma alloc_blocks_delete m a s p : m !! a = Some (s, p) ->
  alloc_blocks m ≡ₚ (a - p, s + p) :: alloc_blocks (delete a m).
Proof. intros Ha. unfold alloc_blocks. by rewrite <- (map_to_list_delete m a (s, p)). Qed.

Lemma elem_of_alloc_blocks m a s p : m !! a = Some (s, p) -> (a - p, s + p) ∈ alloc_blocks m.
Proof. intros Ha. rewrite (alloc_blocks_delete m a s p Ha). left. Qed.

Lemma init_ok lo len : 0 <= lo -> lo + len < 2 ^ 62 -> 0 < len -> b_ok lo len [] (init new lo len).
Proof.
  intros Hlo Hlen Hpos. split; try done; cbn.
  - split.
    + pose proof (rep_add _ _ lo len rep_empty (lookup_empty _)) as R. unfold fe_wf. cbn.
      unfold insert_size in R. by rewrite (lookup_empty len) in R.
    + unfold fblocks, blocks, alloc_blocks. cbn. rewrite map_to_list_empty.
      rewrite map_to_list_singleton || rewrite insert_empty, map_to_list_singleton. cbn.
      split; [split; [by apply Forall_nil|done]|repeat constructor; cbn; lia|cbn; lia].
  - unfold alloc_blocks. rewrite map_to_list_empty. cbn. lia.
Qed.

Lemma set_free_ok lo len fl fl' b fe :
  b_ok lo len fl b -> fe_ok lo len fe (alloc_blocks (allocated_addrs b) ++ fl') ->
  b_ok lo len fl' (set_free b fe).
Proof. intros [] Hfe. by split. Qed.

Lemma tiles_nonneg lo len l : Forall (fun c : Z * Z => 0 < c.2 /\ lo <= c.1 /\ c.1 + c.2 <= lo + len) l -> 0 <= total l.
Proof. induction 1 as [|c l Hc _ IH]; cbn; lia. Qed.

Lemma record_section_spec lo len fl b a size align :
  b_ok lo len ((a, size + pad a align) :: fl) b -> 0 < size < 2 ^ 62 -> 0 < align < 2 ^ 62 ->
  exists b', record_section b a size align = Done (a + pad a align, b') /\ b_ok lo len fl b'
    /\ (a + pad a align) mod align = 0
    /\ live b' ≡ₚ (a + pad a align, size) :: live b /\ free_entries b' = free_entries b.
Proof.
  intros [] Hs Ha. pose proof (pad_bound a align ltac:(lia)) as Hpad.
  destruct bo_fe0 as [R T].
  pose proof (tiles_elem _ _ _ (a, size + pad a align) T
    ltac:(apply elem_of_app; right; apply elem_of_app; right; left)) as Hb. cbn in Hb.
  unfold record_section. rewrite calc_padding_eq, !uadd_ok by lia.
  assert (Hfr : allocated_addrs b !! (a + pad a align) = None).
  { destruct (allocated_addrs b !! (a + pad a align)) as [[s p]|] eqn:E; [exfalso|done].
    destruct (bo_alloc0 _ _ _ E) as [? ?]. apply elem_of_alloc_blocks in E.
    destruct T as [D _ _]. rewrite <- !Permutation_middle in D. destruct D as [D _].
    rewrite Forall_forall in D. specialize (D _ ltac:(apply elem_of_app; right; apply elem_of_app; left; exact E)).
    unfold disj in D. cbn in D. lia. }
  pose proof (alloc_blocks_insert (allocated_addrs b) _ size (pad a align) Hfr) as Eb.
  replace (a + pad a align - pad a align) with a in Eb by lia.
  assert (T' : tiles lo len (fblocks (free_entries b) ++
     alloc_blocks (<[a + pad a align := (size, pad a align)]> (allocated_addrs b)) ++ fl)).
  { rewrite Eb. cbn. rewrite <- Permutation_middle. rewrite <- !Permutation_middle in T. exact T. }
  eexists. split; [reflexivity|]. split; [split; cbn; try done|].
  - intros a' s p. destruct (decide (a' = a + pad a align)) as [->|Hn].
    + rewrite lookup_insert_eq. intros [= <- <-]. lia.
    + rewrite lookup_insert_ne by done. apply bo_alloc0.
  - rewrite Eb. cbn. rewrite bo_space0. rewrite wsub_ok; [lia|].
    destruct T as [_ F Tt]. rewrite !total_app in Tt. cbn in Tt.
    rewrite !Forall_app in F. destruct F as (F1 & F2 & F3). apply Forall_cons in F3 as [_ F3].
    pose proof (tiles_nonneg _ _ _ F1). pose proof (tiles_nonneg _ _ _ F2). pose proof (tiles_nonneg _ _ _ F3). lia.
  - split; [apply pad_aligned; lia|]. split; [|done]. unfold live. cbn. by rewrite map_to_list_insert.
Qed.

Lemma remove_section_spec lo len fl b addr s p :
  b_ok lo len fl b -> allocated_addrs b !! addr = Some (s, p) ->
  exists b', remove_section b addr = Done (Some (s, p), b')
    /\ b_ok lo len ((addr - p, s + p) :: fl) b' /\ 0 < s /\ 0 <= p
    /\ live b ≡ₚ (addr, s) :: live b' /\ free_entries b' = free_entries b.
Proof.
  intros [] E. destruct (bo_alloc0 _ _ _ E) as [Hs Hp]. destruct bo_fe0 as [R T].
  pose proof (alloc_blocks_delete _ _ _ _ E) as Eb. rewrite Eb in T. rewrite Eb in bo_space0. cbn in T, bo_space0.
  pose proof (tiles_elem _ _ _ (addr - p, s + p) T ltac:(apply elem_of_app; right; left)) as Hb. cbn in Hb.
  unfold remove_section. rewrite E, uadd_ok by lia. eexists. split; [reflexivity|].
  split; [split; cbn; try done|].
  - split; [done|]. rewrite <- Permutation_middle. exact T.
  - intros a s' p' [_ E']%lookup_delete_Some. by eapply bo_alloc0.
  - rewrite bo_space0. rewrite wadd_ok; [lia|].
    destruct T as [_ F Tt]. rewrite total_app in Tt. cbn in Tt. rewrite total_app in Tt.
    apply Forall_app in F as [F1 F2]. apply Forall_cons in F2 as [_ F2]. apply Forall_app in F2 as [F2 F3].
    pose proof (tiles_nonneg _ _ _ F1). pose proof (tiles_nonneg _ _ _ F2). pose proof (tiles_nonneg _ _ _ F3). lia.
  - split; [done|]. split; [done|]. split; [|done]. unfold live. cbn.
    by rewrite <- (map_to_list_delete (allocated_addrs b) addr (s, p)).
Qed.

(** *** The operations without interference *)

Lemma fe_ok_weaken lo len fe rest rest' : rest ≡ₚ rest' -> fe_ok lo len fe rest -> fe_ok lo len fe rest'.
Proof. intros HP [R T]. split; [done|by rewrite <- HP]. Qed.

Definition b_req b (size align : Z) : Prop :=
  0 < size < 2 ^ 62 /\ 0 < align < 2 ^ 62 /\ addrs (free_entries b) <> ∅.

Lemma try_malloc_spec lo len fl b size align :
  b_ok lo len fl b -> b_req b size align ->
  exists r b', try_malloc (fun fe => fe) b size align = Done (r, b') /\ b_ok lo len fl b'
    /\ match r with
       | Some p => p mod align = 0 /\ live b' ≡ₚ (p, size) :: live b
       | None => live b' = live b /\ coarser (free_entries b) (free_entries b')
                 /\ forall a n, (a, n) ∈ fblocks (free_entries b') -> n < size + align - 1
       end.
Proof.
  intros Hb (Hs & Ha & Hne). pose proof Hb as []. destruct bo_range0 as [Hlo Hlen].
  destruct (take_section_spec lo len Hlo Hlen (fun fe => fe) _ _ _ size align bo_fe0 bo_fe0 Hs Ha (or_introl Hne))
    as (o & fe' & E & Ho). unfold try_malloc. rewrite E. destruct o as [a|].
  - assert (Hfe : fe_ok lo len fe' (alloc_blocks (allocated_addrs b) ++ (a, size + pad a align) :: fl)).
    { eapply fe_ok_weaken; [|destruct Ho; eassumption]. apply Permutation_middle. }
    destruct (record_section_spec _ _ _ _ a size align (set_free_ok _ _ _ _ _ _ Hb Hfe) Hs Ha)
      as (b' & E' & Hb' & Hal & Hl & _). rewrite E'. exists (Some (a + pad a align)), b'. done.
  - destruct Ho as (Hfe & Hc & Hsm). exists None, (set_free b fe').
    split; [done|]. split; [by eapply set_free_ok|]. done.
Qed.

Lemma free_spec lo len fl b addr s :
  b_ok lo len fl b -> (addr, s) ∈ live b ->
  exists b', free b addr = Done (Ok (), b') /\ b_ok lo len fl b'
    /\ live b ≡ₚ (addr, s) :: live b' /\ addrs (free_entries b') <> ∅
    /\ exists p, 0 <= p /\ allocated_addrs b !! addr = Some (s, p)
                /\ space_avail b' = space_avail b + (s + p).
Proof.
  intros Hb Hin. unfold live in Hin. apply list_elem_of_fmap in Hin as ([a [s' p]] & [= -> ->] & Hin).
  rewrite elem_of_map_to_list in Hin.
  destruct (remove_section_spec _ _ _ _ _ _ _ Hb Hin) as (b1 & E1 & Hb1 & Hs & Hp & Hl & Hfe).
  unfold free. rewrite E1. pose proof Hb1 as []. destruct bo_range0 as [Hlo Hlen].
  assert (Hok : fe_ok lo len (free_entries b1) ((a - p, s' + p) :: alloc_blocks (allocated_addrs b1) ++ fl)).
  { eapply fe_ok_weaken; [|exact bo_fe0]. by rewrite Permutation_middle. }
  destruct (return_section_spec lo len Hlo Hlen _ _ _ _ _ Hok Hs Hp) as (fe' & E2 & Hfe' & Hne).
  rewrite E2. exists (set_free b1 fe'). split; [done|].
  pose proof (set_free_ok _ _ _ _ _ _ Hb1 Hfe') as Hb2. split; [exact Hb2|].
  split; [exact Hl|]. split; [exact Hne|]. exists p. split; [done|]. split; [done|].
  unfold space_avail. cbn. rewrite bo_space0. rewrite (bo_space _ _ _ _ Hb).
  revert E1. unfold remove_section. rewrite Hin. destruct (uadd s' p); [|done]. intros [= <-]. cbn.
  rewrite (alloc_blocks_delete _ _ _ _ Hin). cbn. lia.
Qed.

Lemma free_dead b addr : (forall s, (addr, s) ∉ live b) -> free b addr = Done (Err addr, b).
Proof.
  intros Hn. unfold free, remove_section.
  destruct (allocated_addrs b !! addr) as [[s p]|] eqn:E; [exfalso|done].
  apply (Hn s). unfold live. apply list_elem_of_fmap. exists (addr, (s, p)).
  by rewrite elem_of_map_to_list.
Qed.

Lemma live_perm_disj lo len fl b : b_ok lo len fl b -> pdisj (live b).
Proof.
  intros []. destruct bo_fe0 as [_ [D F _]]. apply pdisj_app in D as (_ & D & _).
  apply pdisj_app in D as (D & _ & _). apply Forall_app in F as [_ F]. apply Forall_app in F as [F _].
  clear bo_space0. unfold live, alloc_blocks in *.
  assert (Ha : Forall (fun kv : Z * (Z * Z) => 0 < kv.2.1 /\ 0 <= kv.2.2) (map_to_list (allocated_addrs b))).
  { apply Forall_forall. intros [a [s p]] Hin. rewrite elem_of_map_to_list in Hin. by eapply bo_alloc0. }
  clear bo_alloc0 F. induction Ha as [|[a [s p]] l [Hs Hp] Hl IH]; cbn in *; [done|].
  destruct D as [D1 D2]. split; [|auto]. rewrite Forall_fmap in *. rewrite !Forall_forall in *.
  intros c Hc. specialize (D1 c Hc). specialize (Hl c Hc). unfold disj in *. cbn in *. lia.
Qed.

Lemma live_in lo len fl b : b_ok lo len fl b ->
  Forall (fun c => 0 < c.2 /\ lo <= c.1 /\ c.1 + c.2 <= lo + len) (live b).
Proof.
  intros []. unfold live. apply Forall_fmap, Forall_forall. intros [a [s p]] Hin.
  rewrite elem_of_map_to_list in Hin. destruct (bo_alloc0 _ _ _ Hin).
  apply elem_of_alloc_blocks in Hin. destruct bo_fe0 as [_ T].
  pose proof (tiles_elem _ _ _ _ T ltac:(apply elem_of_app; right; apply elem_of_app; left; exact Hin)) as Hb.
  cbn in *. lia.
Qed.

#[export] Instance BTreeAlloc_allocator : Allocator (BTreeAlloc IS) := {
  al_ok b := b_ok (start_addr b) (max_size b) [] b;
  al_live := live;
  al_lo := start_addr;
  al_len := max_size;
  al_req := b_req;
  al_addr _ _ := True;
  al_try_malloc := try_malloc (fun fe => fe);
  al_fake_malloc := fake_malloc;
  al_free := free;
}.

#[export] Instance BTreeAlloc_laws : AllocatorLaws (BTreeAlloc IS).
Proof.
  constructor; cbn.
  - intros b Hb. by eapply live_perm_disj.
  - intros b Hb. by eapply live_in.
  - intros b size align Hb Hr.
    destruct (try_malloc_spec _ _ _ _ _ _ Hb Hr) as (r & b' & E & Hb' & Hm).
    pose proof Hb' as []. exists r, b'. split; [done|]. rewrite bo_lo0, bo_len0.
    split_and!; try done. destruct r; [done|]. by destruct Hm as [-> _].
  - intros b p s Hb Hin. destruct (free_spec _ _ _ _ _ _ Hb Hin) as (b' & E & Hb' & Hl & _).
    pose proof Hb' as []. exists b'. rewrite bo_lo0, bo_len0. by split_and!.
  - intros b p _ _. apply free_dead.
Qed.

(** *** Any number of threads *)

(** What a thread holds between its two critical sections. *)
Inductive Pending :=
| PMalloc (a size align : Z)         (* a segment taken for a [try_malloc] *)
| PFree (addr size padding : Z).     (* an allocation being freed *)

Definition pend_block (p : Pending) : Z * Z :=
  match p with
  | PMalloc a size align => (a, size + pad a align)
  | PFree addr size padding => (addr - padding, size + padding)
  end.

(** One critical section of some thread.  A thread that has waited in [try_malloc] merges
    ([step_merge]) and probes again ([step_take]). *)
Inductive bstep : BTreeAlloc IS * list Pending -> BTreeAlloc IS * list Pending -> Prop :=
| step_take b ps size align a rsize fe :
    0 < size < 2 ^ 62 -> 0 < align < 2 ^ 62 ->
    probe (free_entries b) size align (size + align - 1) = Done (Some (Some a, rsize, fe)) ->
    bstep (b, ps) (set_free b (drop_size rsize fe), PMalloc a size align :: ps)
| step_merge b ps fe :
    addrs (free_entries b) <> ∅ -> merge (free_entries b) = Done fe ->
    bstep (b, ps) (set_free b fe, ps)
| step_record b b' ps1 ps2 a size align p :
    0 < size < 2 ^ 62 -> 0 < align < 2 ^ 62 ->
    record_section b a size align = Done (p, b') ->
    bstep (b, ps1 ++ PMalloc a size align :: ps2) (b', ps1 ++ ps2)
| step_remove b b' ps addr size padding :
    remove_section b addr = Done (Some (size, padding), b') ->
    bstep (b, ps) (b', PFree addr size padding :: ps)
| step_return b ps1 ps2 addr size padding fe :
    return_section (free_entries b) addr size padding = Done fe ->
    bstep (b, ps1 ++ PFree addr size padding :: ps2) (set_free b fe, ps1 ++ ps2).

Definition pend_wf (p : Pending) : Prop :=
  match p with
  | PMalloc _ size align => 0 < size < 2 ^ 62 /\ 0 < align < 2 ^ 62
  | PFree _ size padding => 0 < size /\ 0 <= padding
  end.

Definition sys_ok (lo len : Z) (st : BTreeAlloc IS * list Pending) : Prop :=
  b_ok lo len (pend_block <$> st.2) st.1 /\ Forall pend_wf st.2.

Lemma b_ok_perm lo len fl fl' b : fl ≡ₚ fl' -> b_ok lo len fl b -> b_ok lo len fl' b.
Proof. intros HP []. split; try done. eapply fe_ok_weaken; [|done]. by rewrite HP. Qed.

Lemma bstep_ok lo len st st' : bstep st st' -> sys_ok lo len st -> sys_ok lo len st'.
Proof.
  intros Hst [Hb Hw]. pose proof (bo_range _ _ _ _ Hb) as [Hlo Hlen].
  destruct Hst as [b ps size align a rs fe Hs Ha E | b ps fe Hne E | b b' ps1 ps2 a size align p Hs Ha E
                  | b b' ps addr size padding E | b ps1 ps2 addr size padding fe E]; cbn [fst snd] in *.
  - pose proof (probe_spec lo len Hlo Hlen _ _ _ _ (bo_fe _ _ _ _ Hb) Hs Ha) as Hp. rewrite E in Hp.
    destruct Hp as (a' & [= <-] & Hfe). split; cbn [fst snd]; [|by constructor].
    eapply set_free_ok; [exact Hb|]. eapply fe_ok_weaken; [|exact Hfe]. cbn. apply Permutation_middle.
  - destruct (merge_spec lo len Hlo Hlen _ _ (bo_fe _ _ _ _ Hb) Hne) as (fe' & E' & Hfe & _).
    rewrite E in E'. injection E' as <-. split; [|done]. by eapply set_free_ok.
  - rewrite fmap_app in Hb. cbn in Hb. apply Forall_app in Hw as [Hw1 Hw2]. apply Forall_cons in Hw2 as [_ Hw2].
    eapply b_ok_perm in Hb; [|symmetry; apply Permutation_middle].
    destruct (record_section_spec _ _ _ _ _ _ _ Hb Hs Ha) as (b2 & E2 & Hb2 & _).
    rewrite E in E2. injection E2 as _ <-. split; cbn [fst snd]; [by rewrite fmap_app|by apply Forall_app].
  - unfold remove_section in E. destruct (allocated_addrs b !! addr) as [[s p]|] eqn:El; [|done].
    destruct (remove_section_spec _ _ _ _ _ _ _ Hb El) as (b2 & E2 & Hb2 & Hs & Hp & _).
    unfold remove_section in E2. rewrite El in E2. rewrite E in E2. injection E2 as -> -> <-.
    split; [exact Hb2|]. by constructor.
  - rewrite fmap_app in Hb. cbn in Hb. apply Forall_app in Hw as [Hw1 Hw2].
    apply Forall_cons in Hw2 as [[Hs Hp] Hw2].
    eapply b_ok_perm in Hb; [|symmetry; apply Permutation_middle].
    pose proof (fe_ok_weaken _ _ _ _ _ (symmetry (Permutation_middle _ _ _)) (bo_fe _ _ _ _ Hb)) as Hfe.
    destruct (return_section_spec lo len Hlo Hlen _ _ _ _ _ Hfe Hs Hp) as (fe' & E' & Hfe' & _).
    rewrite E in E'. injection E' as <-. split; cbn [fst snd]; [|by apply Forall_app].
    rewrite fmap_app. by eapply set_free_ok.
Qed.

Lemma reachable_ok lo len st st' : rtc bstep st st' -> sys_ok lo len st -> sys_ok lo len st'.
Proof. induction 1 as [|? ? ? Hst _ IH]; [done|]. intros Hok. by eapply IH, bstep_ok. Qed.
End Machine.

(** ** Properties *)
Section Properties.
Context {IS : Type} `{IndexSetLaws IS}.

(** C15: In every interleaving of the critical sections of any number of threads, the free blocks,
    the allocated blocks and those in flight are disjoint and fill the region exactly (no byte
    is lost or handed out twice), the blocks callers hold are disjoint and inside the region,
    and [space_avail] is the region without the allocated bytes. *)
Theorem btree_interleaving_safe lo len (b : BTreeAlloc IS) ps :
  0 <= lo -> 0 < len -> lo + len < 2 ^ 62 ->
  rtc bstep (init new lo len, []) (b, ps) ->
  tiles lo len (fblocks (free_entries b) ++ alloc_blocks (allocated_addrs b) ++ (pend_block <$> ps))
  /\ pdisj (live b)
  /\ Forall (fun c => 0 < c.2 /\ lo <= c.1 /\ c.1 + c.2 <= lo + len) (live b)
  /\ space_avail b = len - total (alloc_blocks (allocated_addrs b)).
Proof.
  intros Hlo Hpos Hlen Hr.
  destruct (reachable_ok lo len _ _ Hr) as [Hb _]; [split; [by apply init_ok|done]|]. cbn in Hb.
  split; [apply Hb|]. split; [by eapply live_perm_disj|]. split; [by eapply live_in|apply Hb].
Qed.

(** In every reachable state no critical section panics: a taken segment can be recorded and
    gives an aligned block, a removed allocation can be returned, a probe returns, and so does
    [merge] unless nothing at all is free. *)
Theorem btree_sections_complete lo len (b : BTreeAlloc IS) ps :
  0 <= lo -> 0 < len -> lo + len < 2 ^ 62 ->
  rtc bstep (init new lo len, []) (b, ps) ->
  (forall a size align, PMalloc a size align ∈ ps ->
     exists b', record_section b a size align = Done (a + pad a align, b')
       /\ (a + pad a align) mod align = 0 /\ live b' ≡ₚ (a + pad a align, size) :: live b)
  /\ (forall addr size padding, PFree addr size padding ∈ ps ->
     exists fe, return_section (free_entries b) addr size padding = Done fe /\ addrs fe <> ∅)
  /\ (forall size align, 0 < size < 2 ^ 62 -> 0 < align < 2 ^ 62 ->
     probe (free_entries b) size align (size + align - 1) <> Panic)
  /\ (addrs (free_entries b) <> ∅ <-> merge (free_entries b) <> Panic).
Proof.
  intros Hlo Hpos Hlen Hr.
  destruct (reachable_ok lo len _ _ Hr) as [Hb Hw]; [split; [by apply init_ok|done]|]. cbn in Hb, Hw.
  rewrite Forall_forall in Hw. split_and!.
  - intros a size align Hin. specialize (Hw _ Hin) as [Hs Ha].
    apply list_elem_of_split in Hin as (l1 & l2 & ->). rewrite fmap_app in Hb. cbn in Hb.
    eapply b_ok_perm in Hb; [|symmetry; apply Permutation_middle].
    destruct (record_section_spec _ _ _ _ _ _ _ Hb Hs Ha) as (b' & E & _ & Hal & Hl & _). by exists b'.
  - intros addr size padding Hin. specialize (Hw _ Hin) as [Hs Hp].
    apply list_elem_of_split in Hin as (l1 & l2 & ->). rewrite fmap_app in Hb. cbn in Hb.
    eapply b_ok_perm in Hb; [|symmetry; apply Permutation_middle].
    pose proof (fe_ok_weaken _ _ _ _ _ (symmetry (Permutation_middle _ _ _)) (bo_fe _ _ _ _ Hb)) as Hfe.
    destruct (return_section_spec lo len Hlo Hlen _ _ _ _ _ Hfe Hs Hp) as (fe & E & _ & Hne). by exists fe.
  - intros size align Hs Ha E.
    pose proof (probe_spec lo len Hlo Hlen _ _ _ _ (bo_fe _ _ _ _ Hb) Hs Ha) as Hp. by rewrite E in Hp.
  - split.
    + intros Hne. destruct (merge_spec lo len Hlo Hlen _ _ (bo_fe _ _ _ _ Hb) Hne) as (fe & E & _). by rewrite E.
    + intros Hm E. by apply Hm, merge_empty.
Qed.

(** [merge] returns (its loop ends within as many iterations as there are free blocks), keeps
    the index by size and the index by address in step, loses no free byte, and every old free
    block lies in one of the new. *)
Theorem btree_merge_correct lo len rest (fe : FreeEntries IS) :
  0 <= lo -> lo + len < 2 ^ 62 -> fe_ok lo len fe rest -> addrs fe <> ∅ ->
  exists fe', merge_loop (S (size (addrs fe))) 0 fe = Some (Done fe') /\ merge fe = Done fe'
    /\ fe_ok lo len fe' rest /\ total (fblocks fe') = total (fblocks fe)
    /\ forall a n, (a, n) ∈ fblocks fe ->
         exists b k, (b, k) ∈ fblocks fe' /\ b <= a /\ a + n <= b + k.
Proof.
  intros Hlo Hlen Hok Hne. unfold merge.
  destruct (merge_loop_returns lo len Hlo Hlen (S (size (addrs fe))) fe rest 0 Hok)
    as (fe' & E & Hok' & _ & Hc); [lia|done|lia|lia|].
  rewrite E. exists fe'. split_and!; try done.
  destruct Hok as [_ [_ _ T1]], Hok' as [_ [_ _ T2]]. rewrite !total_app in *. lia.
Qed.

(** [BTreeAlloc::try_malloc], when it is not disturbed: with something free it returns; a
    returned block is aligned, in the region and disjoint from all live blocks; it returns
    [None] only when, after merging, no free block holds [size + align - 1] bytes. *)
Theorem btree_try_malloc_correct lo len (b : BTreeAlloc IS) size align :
  b_ok lo len [] b -> b_req b size align ->
  exists r b', try_malloc (fun fe => fe) b size align = Done (r, b') /\ b_ok lo len [] b'
    /\ match r with
       | Some p =>
           p mod align = 0 /\ lo <= p /\ p + size <= lo + len
           /\ Forall (disj (p, size)) (live b) /\ live b' ≡ₚ (p, size) :: live b
       | None =>
           live b' = live b /\ space_avail b' = space_avail b
           /\ forall a n, (a, n) ∈ fblocks (free_entries b') -> n < size + align - 1
       end.
Proof.
  intros Hb Hr. destruct (try_malloc_spec _ _ _ _ _ _ Hb Hr) as (r & b' & E & Hb' & Hm).
  exists r, b'. split; [done|]. split; [done|]. destruct r as [p|].
  - destruct Hm as [Hal Hl]. pose proof (live_perm_disj _ _ _ _ Hb') as Hd.
    pose proof (live_in _ _ _ _ Hb') as Hi. rewrite Hl in Hd, Hi. destruct Hd as [Hd _].
    apply Forall_cons in Hi as [Hi _]. cbn in Hi. split_and!; (done || lia).
  - destruct Hm as (Hl & _ & Hsm). split; [done|]. split; [|done].
    revert E. unfold try_malloc. destruct (take_section _ _ _ _) as [[[a|] fe]|]; [|by intros [= <-]|done].
    destruct (record_section _ _ _ _) as [[p b2]|]; done.
Qed.

(** [BTreeAlloc::free] of a live address removes exactly that block and gives its size and
    padding back; of any other address it returns [Err] and changes nothing.  After a
    successful [free] something is free, so the next [try_malloc] returns. *)
Theorem btree_free_correct lo len (b : BTreeAlloc IS) addr :
  b_ok lo len [] b ->
  (exists s p b', (addr, s) ∈ live b /\ 0 <= p /\ free b addr = Done (Ok (), b') /\ b_ok lo len [] b'
     /\ live b ≡ₚ (addr, s) :: live b' /\ space_avail b' = space_avail b + (s + p)
     /\ addrs (free_entries b') <> ∅)
  \/ ((forall s, (addr, s) ∉ live b) /\ free b addr = Done (Err addr, b)).
Proof.
  intros Hb. destruct (allocated_addrs b !! addr) as [[s p]|] eqn:E.
  - left. assert (Hin : (addr, s) ∈ live b).
    { unfold live. apply list_elem_of_fmap. exists (addr, (s, p)). by rewrite elem_of_map_to_list. }
    destruct (free_spec _ _ _ _ _ _ Hb Hin) as (b' & Ef & Hb' & Hl & Hne & p' & Hp & _ & Hsp).
    by exists s, p', b'.
  - right. assert (Hd : forall s, (addr, s) ∉ live b).
    { intros s Hin. unfold live in Hin. apply list_elem_of_fmap in Hin as ([a [s' p]] & [= -> ->] & Hin).
      rewrite elem_of_map_to_list in Hin. congruence. }
    split; [done|]. by apply free_dead.
Qed.

(** A pool in which every byte is allocated, and one whose [try_malloc] answers [None]: even
    after merging, none of its free blocks is large enough. *)
Definition exhausted (b : BTreeAlloc IS) : Prop := addrs (free_entries b) = ∅.
Definition too_full (size align : Z) (b : BTreeAlloc IS) : Prop :=
  exists b', try_malloc (fun fe => fe) b size align = Done (None, b')
    /\ forall a n, (a, n) ∈ fblocks (free_entries b') -> n < size + align - 1.

Lemma exhausted_panics b size align : 0 < size < 2 ^ 62 -> 0 < align < 2 ^ 62 ->
  b_ok (start_addr b) (max_size b) [] b -> exhausted b -> try_malloc (fun fe => fe) b size align = Panic.
Proof.
  intros Hs Ha [_ _ _ [R _] _ _] Hx. unfold try_malloc, take_section. rewrite uadd_ok, usub_ok by lia.
  cbn [take_loop]. unfold probe. rewrite sizes_exhausted by done. by rewrite merge_empty.
Qed.

Lemma too_full_refuses size align b : 0 < size < 2 ^ 62 -> 0 < align < 2 ^ 62 ->
  al_ok b -> refuses size align b <-> too_full size align b.
Proof.
  intros Hs Ha Hb. split; [|intros (b' & E & _); by exists b'].
  intros [b' E]. destruct (decide (addrs (free_entries b) = ∅)) as [Hx|Hne].
  - cbn in E. by rewrite (exhausted_panics b size align Hs Ha Hb Hx) in E.
  - destruct (try_malloc_spec _ _ _ _ _ _ Hb (conj Hs (conj Ha Hne))) as (r & b2 & E2 & _ & Hm).
    cbn in E. rewrite E in E2. injection E2 as <- <-. exists b'. split; [done|]. by destruct Hm as (_ & _ & Hm).
Qed.

(** C33: a pool of allocators on disjoint regions ([ShmemComm::alloc]), one call at a time, for
    sizes and alignments above 0 and below 2^62.  [rt_alloc] asks the pools in their order.  It
    returns an aligned block disjoint from all live blocks of all pools; or [OutOfMemoryError],
    with nothing changed but merged free blocks, and then in no pool is a free block large
    enough; or it panics, and that exactly when a pool it comes to has no free byte at all and
    the pools before are too full: it neither tries the pools after it nor reports that memory
    has run out.  [rt_free] frees a live address whichever pool it is in, also when pools are
    exhausted, and panics on an address that is not live. *)
Theorem btree_pool_correct (allocs : list (BTreeAlloc IS)) size align :
  pool_ok allocs -> 0 < size < 2 ^ 62 -> 0 < align < 2 ^ 62 ->
  pdisj (pool_live allocs)
  /\ match rt_alloc allocs size align with
     | Done (r, allocs') => pool_ok allocs' /\
         match r with
         | Ok p => p mod align = 0 /\ Forall (disj (p, size)) (pool_live allocs)
                   /\ pool_live allocs' ≡ₚ (p, size) :: pool_live allocs
         | Err e => e = OutOfMemoryError size /\ pool_live allocs' ≡ₚ pool_live allocs
                    /\ Forall (too_full size align) allocs
         end
     | Panic => exists pre b post, allocs = pre ++ b :: post
         /\ Forall (too_full size align) pre /\ exhausted b
     end
  /\ (forall pre b post, allocs = pre ++ b :: post -> Forall (too_full size align) pre ->
       exhausted b -> rt_alloc allocs size align = Panic)
  /\ (forall p s, (p, s) ∈ pool_live allocs ->
       exists allocs', rt_free allocs p = Done allocs' /\ pool_ok allocs'
         /\ pool_live allocs ≡ₚ (p, s) :: pool_live allocs')
  /\ (forall p, (forall s, (p, s) ∉ pool_live allocs) -> rt_free allocs p = Panic).
Proof.
  intros Hok Hs Ha. pose proof Hok as [Hall _].
  assert (Ht : forall p, Forall (fun b => al_addr b p) allocs) by (intros p; by apply Forall_true).
  assert (Hfull : forall pre, Forall al_ok pre -> Forall (refuses size align) pre <-> Forall (too_full size align) pre).
  { intros pre Hpre. induction Hpre as [|b pre Hb _ IH]; [done|]. by rewrite !Forall_cons, IH, too_full_refuses. }
  split; [by apply pool_live_disj|]. split_and!.
  - assert (Hsv : Forall (serves size align) allocs).
    { eapply Forall_impl; [exact Hall|]. intros b Hb. destruct (decide (addrs (free_entries b) = ∅)); [right|left].
      - by apply exhausted_panics.
      - done. }
    pose proof (rt_alloc_spec _ _ _ Hok Hsv) as Hsp. destruct (rt_alloc allocs size align) as [[r l']|].
    + destruct Hsp as (Hok' & _ & Hm). split; [done|]. destruct r as [p|e].
      * destruct Hm as [Hal Hp]. split; [done|]. split; [|done].
        pose proof (pool_live_disj _ Hok') as Hd. rewrite Hp in Hd. by destruct Hd.
      * destruct Hm as (-> & Hl & Hf). split_and!; [done|done|]. by apply Hfull.
    + destruct Hsp as (pre & b & post & -> & Hpre & Hb). apply Forall_app in Hall as [Hpok [Hbok _]%Forall_cons].
      exists pre, b, post. split_and!; [done|by apply Hfull|].
      destruct (decide (addrs (free_entries b) = ∅)) as [|Hne]; [done|].
      destruct (try_malloc_spec _ _ _ _ _ _ Hbok (conj Hs (conj Ha Hne))) as (r & b2 & E2 & _).
      cbn in Hb. by rewrite Hb in E2.
  - intros pre b post -> Hpre Hb. apply Forall_app in Hall as [Hpok [Hbok _]%Forall_cons].
    apply rt_alloc_panics; [by apply Hfull|]. by apply exhausted_panics.
  - intros p s Hin. destruct (rt_free_spec _ p s Hok (Ht p) Hin) as (l' & E & Hok' & _ & Hp). by exists l'.
  - intros p Hn. by apply rt_free_dead.
Qed.
End Properties.

(** *** Concrete runs *)
Abbreviation alloc := (BTreeAlloc (list Z)).
Abbreviation undisturbed := (fun fe : FreeEntries (list Z) => fe).

Definition alloc_100 : alloc := init new 0 100.

Lemma alloc_100_ok : b_ok 0 100 [] alloc_100.
Proof. apply init_ok; lia. Qed.

Lemma alloc_100_req size align : 0 < size < 2 ^ 62 -> 0 < align < 2 ^ 62 -> b_req alloc_100 size align.
Proof. intros Hs Ha. split; [done|]. split; [done|]. apply insert_non_empty. Qed.

Lemma btree_interleaving_safe_witness :
  exists (b : alloc) ps, rtc bstep (init new 0 100, []) (b, ps)
    /\ length (live b) = 1%nat /\ length ps = 2%nat /\ pdisj (live b) /\ space_avail b = 90.
Proof.
  assert (R : exists (b : alloc) ps, rtc bstep (init new 0 100, []) (b, ps)
     /\ length (live b) = 1%nat /\ length ps = 2%nat /\ space_avail b = 90).
  { eexists _, _. split.
    - eapply rtc_l; [eapply (step_take _ _ 10 8); [lia|lia|vm_compute; reflexivity]|].
      eapply rtc_l; [eapply (step_take _ _ 20 16); [lia|lia|vm_compute; reflexivity]|].
      eapply rtc_l; [eapply (step_record _ _ [PMalloc 10 20 16] [] 0 10 8); [lia|lia|vm_compute; reflexivity]|].
      eapply rtc_l; [eapply (step_take _ _ 4 4); [lia|lia|vm_compute; reflexivity]|].
      apply rtc_refl.
    - by vm_compute. }
  destruct R as (b & ps & Hr & Hl & Hps & Hsp). exists b, ps.
  destruct (btree_interleaving_safe 0 100 b ps ltac:(lia) ltac:(lia) ltac:(lia) Hr) as (_ & Hd & _).
  split; [exact Hr|]. split; [exact Hl|]. split; [exact Hps|]. split; [exact Hd|exact Hsp].
Defined.

Lemma btree_sections_complete_witness :
  exists (b : alloc) ps, rtc bstep (init new 0 100, []) (b, ps) /\ PMalloc 0 10 8 ∈ ps
    /\ exists b', record_section b 0 10 8 = Done (0, b') /\ live b' ≡ₚ (0, 10) :: live b.
Proof.
  assert (R : exists b : alloc, rtc bstep (init new 0 100, []) (b, [PMalloc 0 10 8])).
  { eexists. eapply rtc_l; [eapply (step_take _ _ 10 8); [lia|lia|vm_compute; reflexivity]|]. apply rtc_refl. }
  destruct R as (b & Hr). exists b, [PMalloc 0 10 8].
  destruct (btree_sections_complete 0 100 b _ ltac:(lia) ltac:(lia) ltac:(lia) Hr) as (Hm & _).
  destruct (Hm 0 10 8 ltac:(left)) as (b' & E & _ & Hl).
  split; [exact Hr|]. split; [left|]. exists b'. split; [exact E|exact Hl].
Defined.

(** Two adjacent free blocks, left behind by freeing a padded block. *)
Definition fe_one : FreeEntries (list Z) :=
  {| sizes := insert_size 0 4 ∅; addrs := <[0 := (4, 0)]> ∅ |}.
Definition fe_two : FreeEntries (list Z) :=
  {| sizes := insert_size 4 96 (sizes fe_one); addrs := <[4 := (96, 0)]> (addrs fe_one) |}.

Lemma fe_two_ok : fe_ok 0 100 fe_two [].
Proof.
  apply (give_back 0 100 fe_one 4 96 []).
  apply (give_back 0 100 fe_new 0 4 [(4, 96)]). split; [exact rep_empty|].
  change (fblocks fe_new ++ [(0, 4); (4, 96)]) with [(0, 4); (4, 96)].
  split; [|repeat apply Forall_cons_2; [cbn; lia..|apply Forall_nil_2]|done].
  split; [|split; [apply Forall_nil_2|done]]. apply Forall_cons_2; [left; cbn; lia|apply Forall_nil_2].
Qed.

Lemma btree_merge_correct_witness :
  exists fe', merge fe_two = Done fe' /\ fblocks fe' = [(0, 100)].
Proof.
  assert (Hne : addrs fe_two <> ∅) by apply insert_non_empty.
  destruct (btree_merge_correct 0 100 [] fe_two ltac:(lia) ltac:(lia) fe_two_ok Hne)
    as (fe' & _ & E & _). exists fe'. split; [exact E|].
  vm_compute in E. injection E as <-. vm_compute. reflexivity.
Defined.

Lemma btree_try_malloc_correct_witness :
  exists b', try_malloc undisturbed alloc_100 24 8 = Done (Some 0, b') /\ b_ok 0 100 [] b'.
Proof.
  destruct (btree_try_malloc_correct 0 100 alloc_100 24 8 alloc_100_ok
              (alloc_100_req 24 8 ltac:(lia) ltac:(lia))) as (r & b' & E & Hok & _).
  exists b'. assert (r = Some 0) as -> by (vm_compute in E; congruence). split; [exact E|exact Hok].
Defined.

Lemma btree_free_correct_witness :
  free alloc_100 40 = Done (Err 40, alloc_100).
Proof.
  destruct (btree_free_correct 0 100 alloc_100 40 alloc_100_ok) as [(s & p & b' & H & _)|[_ E]]; [|exact E].
  exfalso. vm_compute in H. by apply not_elem_of_nil in H.
Defined.

(** Two pools; the second of the requests for the whole first pool panics, although the other
    pool is free. *)
Definition pools : list alloc := [alloc_100; init new 200 164].

Lemma pools_ok : pool_ok pools.
Proof.
  split; [|repeat split; repeat constructor; cbn; lia].
  apply Forall_cons; split; [exact alloc_100_ok|]. apply Forall_cons; split; [apply init_ok; lia|done].
Qed.

Lemma btree_pool_correct_witness :
  (exists r l, rt_alloc pools 24 8 = Done (r, l) /\ pool_ok l /\ r = Ok 0) /\
  (exists l, rt_alloc pools 100 1 = Done (Ok 0, l) /\ pool_ok l /\ rt_alloc l 100 1 = Panic) /\
  rt_free pools 40 = Panic.
Proof.
  split_and!.
  - destruct (btree_pool_correct pools 24 8 pools_ok ltac:(lia) ltac:(lia)) as (_ & H & _).
    destruct (rt_alloc pools 24 8) as [[r l]|] eqn:E; [|vm_compute in E; discriminate E].
    exists r, l. split; [reflexivity|]. split; [exact (proj1 H)|]. vm_compute in E. congruence.
  - destruct (btree_pool_correct pools 100 1 pools_ok ltac:(lia) ltac:(lia)) as (_ & H & _).
    destruct (rt_alloc pools 100 1) as [[r l]|] eqn:E; [|vm_compute in E; discriminate E].
    assert (r = Ok 0) as -> by (vm_compute in E; congruence). exists l. split; [reflexivity|].
    split; [exact (proj1 H)|].
    destruct (btree_pool_correct l 100 1 (proj1 H) ltac:(lia) ltac:(lia)) as (_ & _ & Hp & _).
    vm_compute in E. injection E as <-.
    refine (Hp [] _ _ eq_refl (Forall_nil_2 _) _). vm_compute. reflexivity.
  - apply (btree_pool_correct pools 24 8 pools_ok ltac:(lia) ltac:(lia)).
    intros s Hs. vm_compute in Hs. by apply not_elem_of_nil in Hs.
Defined.

(** When every byte is allocated the next [try_malloc] or [fake_malloc] does not report
    failure: [merge] computes [addrs.len() - 1] on an empty map and panics. *)
Theorem btree_exhausted_panics :
  exists b, try_malloc undisturbed alloc_100 100 1 = Done (Some 0, b)
    /\ forall size align, 0 < size < 2 ^ 62 -> 0 < align < 2 ^ 62 ->
         try_malloc undisturbed b size align = Panic /\ fake_malloc b size align = Panic.
Proof.
  eexists. split; [vm_compute; reflexivity|]. intros size align Hs Ha.
  unfold try_malloc, take_section, fake_malloc. rewrite uadd_ok, usub_ok by lia.
  split; reflexivity.
Qed.

(** [merge] looks at the first two free blocks only, and [free] compares the block before with
    the padded address: bytes 8..100 are all free, in adjacent blocks, and a request for 92 of
    them fails because the first two free blocks are not adjacent. *)
Theorem btree_merge_incomplete :
  let run :=
    let! (_, b) := try_malloc undisturbed alloc_100 4 1 in     (* 0 *)
    let! (_, b) := try_malloc undisturbed b 4 1 in             (* 4 *)
    let! (_, b) := try_malloc undisturbed b 4 1 in             (* 8 *)
    let! (_, b) := try_malloc undisturbed b 8 8 in             (* 16, padded from 12 *)
    let! (_, b) := free b 0 in
    let! (_, b) := free b 8 in
    let! (_, b) := free b 16 in
    Done b in
  exists b b', run = Done b /\ live b = [(4, 4)]
    /\ merge_sort Z.le ((fblocks (free_entries b)).*1) = [0; 8; 12]
    /\ (8, 4) ∈ fblocks (free_entries b) /\ (12, 88) ∈ fblocks (free_entries b)
    /\ try_malloc undisturbed b 92 1 = Done (None, b').
Proof.
  cbn zeta. eexists _, _. split; [vm_compute; reflexivity|]. split; [vm_compute; reflexivity|].
  split; [vm_compute; reflexivity|]. split; [|split; [|vm_compute; reflexivity]].
  - apply (bool_decide_unpack _). vm_compute. exact I.
  - apply (bool_decide_unpack _). vm_compute. exact I.
Qed.
