(* ===== verification/Rdma.v ===== *)
(** * Rdma: transfers between buffers and arrays

    Models [src/array/unsafe/rdma.rs]: [block_op], [cyclic_op], the active messages they
    launch, [put_unchecked], [get_unchecked], [blocking_get], [internal_put], [internal_get],
    and the range queries [pes_for_range], [local_elements_for_range] and
    [num_elements_on_pe_for_range]; with the bounds checks of the memory regions
    ([src/memregion.rs], [src/memregion/one_sided.rs]).

    Memory is indexed by elements: the code multiplies offsets and lengths by the element
    size where it goes through byte views, and so do the bounds checks here.  A transfer of
    the network layer takes effect when its call (or active message) completes.

    The array's team is the world, so a PE has one number.  The code does not keep the two
    numberings apart: an active message goes to [world_pe] of the PE number that [Distribution]
    computes ([src/lamellar_team.rs], [exec_am_pe_tg]), a direct transfer hands that number as
    it is to the network layer, which counts PEs in the world ([src/memregion.rs],
    [blocking_put]).  Every one-sided region here is the caller's own, the temporary ones and
    the buffer alike; in the world the test [self.pe == pe] of its operations
    ([src/memregion/one_sided.rs]) then compares the caller with itself, and only the bounds
    checks are left. *)

From stdpp Require Import base list numbers.
From Stdlib Require Import ZArith Lia.
From S2P Require Import Prelude BlockBounds Distribution.
Local Open Scope Z_scope.

#[local] Opaque boundary pe_guess elem_per_pe F64.f64_round F64.f64_mul F64.f64_of_usize F64.f64_div.

Section Rdma.
Context {V : Type}.
(** The contents of a freshly allocated memory region. *)
Variable uninit : Z -> V.

(** A (local) memory region: its length and its elements. *)
Record Region := { r_len : Z; r_at : Z -> V }.

(** The memory of the array: PE, then element of that PE's part of [mem_region]. *)
Definition Mem : Type := Z -> Z -> V.

(** [OneSidedMemoryRegion::sub_region] *)
Definition sub_region (r : Region) (start end_ : Z) : outcome Region :=
  if r_len r <? end_ then Panic
  else
    let! n := usub end_ start in
    Done {| r_len := n; r_at := fun k => r_at r (start + k) |}.

(** The elements [off ..] of a region overwritten by the elements of [d]. *)
Definition r_write (r : Region) (off : Z) (d : Region) : Region :=
  {| r_len := r_len r;
     r_at := fun k => if (off <=? k) && (k <? off + r_len d) then r_at d (k - off) else r_at r k |}.

(** [OneSidedMemoryRegion::put] of a sub-region, with the bounds check of [MemoryRegion::put]. *)
Definition r_put (r : Region) (off : Z) (d : Region) : outcome Region :=
  let! e := uadd off (r_len d) in
  let! _ := assert_ (e <=? r_len r) in
  Done (r_write r off d).

(** [(index + data.len()) * size_of::<R>() <= self.num_bytes] *)
Definition region_check (self : UnsafeArrayInner) (index len : Z) : outcome unit :=
  let! e := uadd index len in
  let! b := umul e (elem_size self) in
  assert_ (b <=? mem_len (data self)).

(** [MemoryRegion::blocking_put] *)
Definition blocking_put (self : UnsafeArrayInner) (mem : Mem) (pe index : Z) (d : Region)
  : outcome Mem :=
  let! _ := region_check self index (r_len d) in
  Done (fun p k => if (p =? pe) && ((index <=? k) && (k <? index + r_len d))
                   then r_at d (k - index) else mem p k).

(** [MemoryRegion::blocking_get] and [MemoryRegion::get_unchecked]: the data they fetch. *)
Definition region_get (self : UnsafeArrayInner) (mem : Mem) (pe index len : Z) : outcome Region :=
  let! _ := region_check self index len in
  Done {| r_len := len; r_at := fun k => mem pe (index + k) |}.

Inductive ArrayRdmaCmd := Put | PutAm | Get (immediate : bool) | GetAm.

(** The active messages.  [dest] is the PE an AM is sent to ([exec_am_pe]); the get AMs run
    locally and write to the caller's buffer. *)
Inductive Am :=
| UnsafePutAm (dest start_index len : Z) (data : Region)
| UnsafeSmallPutAm (dest start_index len : Z) (data : Region)
| UnsafeBlockGetAm (offset buf_lo buf_hi pe : Z)
| UnsafeCyclicGetAm (i pe num_pes offset num_elems : Z).

(** The array's memory, the caller's buffer, and the AMs launched so far. *)
Record St := { mem : Mem; buf : Region; reqs : list Am }.

Definition set_mem (st : St) (m : Mem) : St := {| mem := m; buf := buf st; reqs := reqs st |}.
Definition set_buf (st : St) (b : Region) : St := {| mem := mem st; buf := b; reqs := reqs st |}.
Definition push (st : St) (am : Am) : St :=
  {| mem := mem st; buf := buf st; reqs := reqs st ++ [am] |}.


(** ** [block_op] *)

(** The body of the loop for one PE with [len > 0]. *)
Definition block_body (self : UnsafeArrayInner) (op : ArrayRdmaCmd) (index pe offset buf_index len : Z)
    (st : St) : outcome St :=
  let! hi := uadd buf_index len in
  match op with
  | Put =>
      let! d := sub_region (buf st) buf_index hi in
      let! m := blocking_put self (mem st) pe offset d in
      Done (set_mem st m)
  | Get _ =>
      let! _ := sub_region (buf st) buf_index hi in
      let! d := region_get self (mem st) pe offset len in
      Done (set_buf st (r_write (buf st) buf_index d))
  | PutAm =>
      let! d := sub_region (buf st) buf_index hi in
      let! bytes := umul (r_len (buf st)) (elem_size self) in
      Done (push st (if BATCH_AM_SIZE <? bytes
                     then UnsafePutAm pe index (r_len (buf st)) d
                     else UnsafeSmallPutAm pe index (r_len (buf st)) d))
  | GetAm =>
      let! _ := sub_region (buf st) buf_index hi in
      Done (push st (UnsafeBlockGetAm offset buf_index hi pe))
  end.

Fixpoint block_loop (self : UnsafeArrayInner) (op : ArrayRdmaCmd) (index : Z) (pes : list Z)
    (dist_index buf_index : Z) (st : St) : outcome St :=
  match pes with
  | [] => Done st
  | pe :: pes' =>
      let! pe1 := uadd pe 1 in
      let! num_elems_on_pe := usub (pe_boundary self pe1) (pe_boundary self pe) in
      let pe_start_index := pe_boundary self pe in
      let! offset := usub dist_index pe_start_index in
      let! room := usub num_elems_on_pe offset in
      let! remaining := usub (r_len (buf st)) buf_index in
      let len := Z.min room remaining in
      if 0 <? len then
        let! st := block_body self op index pe offset buf_index len st in
        let! buf_index := uadd buf_index len in
        let! dist_index := uadd dist_index len in
        block_loop self op index pes' dist_index buf_index st
      else block_loop self op index pes' dist_index buf_index st
  end.

(** [start_pe..=end_pe] *)
Definition pe_range (start_pe end_pe : Z) : list Z := seqZ start_pe (end_pe + 1 - start_pe).

(** [match self.inner.pe_for_dist_index(i) { Some(pe) => pe, None => panic!(..) }] *)
Definition expect_pe (self : UnsafeArrayInner) (i : Z) : outcome Z :=
  let! o := pe_for_dist_index self i in unwrap o.

Definition block_op (self : UnsafeArrayInner) (op : ArrayRdmaCmd) (index : Z) (st : St) : outcome St :=
  let! global_index := uadd index (offset self) in
  let! start_pe := expect_pe self index in
  let! x := uadd index (r_len (buf st)) in
  let! last := usub x 1 in
  let! end_pe := expect_pe self last in
  block_loop self op index (pe_range start_pe end_pe) global_index 0 st.

(** ** [cyclic_op] *)

(** [(i..n).step_by(step)] *)
Definition step_range (i n step : Z) : list Z :=
  (fun k => i + k * step) <$> seqZ 0 ((n - i + step - 1) / step).

(** [for j in js { temp_memreg.put(k, buf.sub_region(j..=j)); k += 1; }] *)
Fixpoint gather (buf temp : Region) (js : list Z) (k : Z) : outcome (Region * Z) :=
  match js with
  | [] => Done (temp, k)
  | j :: js' =>
      let! j1 := uadd j 1 in
      let! d := sub_region buf j j1 in
      let! temp := r_put temp k d in
      let! k1 := uadd k 1 in
      gather buf temp js' k1
  end.

(** [for (k, j) in js.enumerate() { buf.put(my_pe, j, temp_memreg.sub_region(k..=k)); }] *)
Fixpoint scatter (temp : Region) (js : list Z) (k : Z) (buf : Region) : outcome Region :=
  match js with
  | [] => Done buf
  | j :: js' =>
      let! k1 := uadd k 1 in
      let! d := sub_region temp k k1 in
      let! buf := r_put buf j d in
      scatter temp js' k1 buf
  end.

Definition fresh (n : Z) : Region := {| r_len := n; r_at := uninit |}.

(** The body of the loop over the PEs; [temp] is the temporary region, which [Put] and the
    immediate [Get] allocate once and the others in every iteration. *)
Definition cyclic_body (self : UnsafeArrayInner) (op : ArrayRdmaCmd) (index num_pes num_elems_pe : Z)
    (i pe offset : Z) (temp : Region) (st : St) : outcome (Region * St) :=
  let js := step_range i (r_len (buf st)) num_pes in
  match op with
  | Put =>
      let! (temp, k) := gather (buf st) temp js 0 in
      let! d := sub_region temp 0 k in
      let! m := blocking_put self (mem st) pe offset d in
      Done (temp, set_mem st m)
  | PutAm =>
      let! (t, _) := gather (buf st) (fresh num_elems_pe) js 0 in
      let! bytes := umul (r_len (buf st)) (elem_size self) in
      Done (temp, push st (if BATCH_AM_SIZE <? bytes
                           then UnsafePutAm pe index (r_len (buf st)) t
                           else UnsafeSmallPutAm pe index (r_len (buf st)) t))
  | Get _ =>
      let! rem := urem (r_len (buf st)) num_pes in
      let! n1 := usub num_elems_pe 1 in
      let! num_elems := uadd n1 (if i <? rem then 1 else 0) in
      let! _ := sub_region temp 0 num_elems in
      let! d := region_get self (mem st) pe offset num_elems in
      let temp := r_write temp 0 d in
      let! b := scatter temp js 0 (buf st) in
      Done (temp, set_buf st b)
  | GetAm =>
      let! rem := urem (r_len (buf st)) num_pes in
      let! n1 := usub num_elems_pe 1 in
      let! num_elems := uadd n1 (if i <? rem then 1 else 0) in
      let! _ := sub_region (fresh num_elems_pe) 0 num_elems in
      Done (temp, push st (UnsafeCyclicGetAm i pe num_pes offset num_elems))
  end.

Fixpoint cyclic_loop (self : UnsafeArrayInner) (op : ArrayRdmaCmd)
    (index global_index num_pes num_elems_pe start_pe : Z) (idxs : list Z) (overflow : Z)
    (temp : Region) (st : St) : outcome St :=
  match idxs with
  | [] => Done st
  | i :: idxs' =>
      let! x := uadd start_pe i in
      let! pe := urem x num_pes in
      let! q := udiv global_index num_pes in
      let! offset := uadd q overflow in
      let! (temp, st) := cyclic_body self op index num_pes num_elems_pe i pe offset temp st in
      let! pe1 := uadd pe 1 in
      let! overflow := if pe1 =? num_pes then uadd overflow 1 else Done overflow in
      cyclic_loop self op index global_index num_pes num_elems_pe start_pe idxs' overflow temp st
  end.

(** The loop of the non-immediate [Get]. *)
Fixpoint cyclic_get_unchecked (self : UnsafeArrayInner) (index num_pes : Z) (idxs : list Z) (st : St)
  : outcome St :=
  match idxs with
  | [] => Done st
  | i :: idxs' =>
      let! x := uadd index i in
      let! pe := urem x num_pes in
      let! off := udiv x num_pes in
      let! i1 := uadd i 1 in
      let! _ := sub_region (buf st) i i1 in
      let! d := region_get self (mem st) pe off 1 in
      cyclic_get_unchecked self index num_pes idxs' (set_buf st (r_write (buf st) i d))
  end.

Definition cyclic_op (self : UnsafeArrayInner) (op : ArrayRdmaCmd) (index : Z) (st : St) : outcome St :=
  let! global_index := uadd index (offset self) in
  let np := num_pes (data self) in
  let n := r_len (buf st) in
  let! q := udiv n np in
  let! num_elems_pe := uadd q 1 in
  let! start_pe := urem global_index np in
  match op with
  | Get false => cyclic_get_unchecked self index np (seqZ 0 n) st
  | _ =>
      cyclic_loop self op index global_index np num_elems_pe start_pe
        (seqZ 0 (Z.min n np)) 0 (fresh num_elems_pe) st
  end.

(** [match self.inner.distribution { Block => block_op, Cyclic => cyclic_op }] *)
Definition array_op (self : UnsafeArrayInner) (op : ArrayRdmaCmd) (index : Z) (st : St) : outcome St :=
  match distribution self with
  | Block => block_op self op index st
  | Cyclic => cyclic_op self op index st
  end.

Definition put_unchecked (self : UnsafeArrayInner) (index : Z) (st : St) : outcome St :=
  array_op self Put index st.
Definition get_unchecked (self : UnsafeArrayInner) (index : Z) (st : St) : outcome St :=
  array_op self (Get false) index st.
Definition blocking_get (self : UnsafeArrayInner) (index : Z) (st : St) : outcome St :=
  array_op self (Get true) index st.
(** [internal_put] returns the launched AMs. *)
Definition internal_put (self : UnsafeArrayInner) (index : Z) (st : St) : outcome St :=
  array_op self PutAm index st.

(** ** Range queries *)

(** The elements [start_index..end_index] of the local slice: their bytes in [mem_region]
    and their indices. *)
Definition local_range (self : UnsafeArrayInner) (start_index end_index : Z)
  : outcome (option ((Z * Z) * (Z * Z))) :=
  let! (lo, hi) := local_as_mut_slice self in
  let! s := umul start_index (elem_size self) in
  let! e := umul end_index (elem_size self) in
  if (s <=? e) && (lo + e <=? hi)
  then Done (Some ((lo + s, lo + e), (start_index, end_index))) else Panic.

(** The number of elements of the range a cyclic PE has. *)
Definition cyclic_share (num_pes start_pe end_pe pe len : Z) : outcome Z :=
  let! num_elems := udiv len num_pes in
  let! rem := urem len num_pes in
  if negb (rem =? 0) then
    if start_pe <=? end_pe then
      if (start_pe <=? pe) && (pe <=? end_pe) then uadd num_elems 1 else Done num_elems
    else
      if (start_pe <=? pe) || (pe <=? end_pe) then uadd num_elems 1 else Done num_elems
  else Done num_elems.

Definition local_elements_for_range (self : UnsafeArrayInner) (index len : Z)
  : outcome (option ((Z * Z) * (Z * Z))) :=
  let my_pe := my_pe (data self) in
  let! start_pe := expect_pe self index in
  let! x := uadd index len in
  let! last := usub x 1 in
  let! end_pe := expect_pe self last in
  match distribution self with
  | Block =>
      let! num_elems_local := num_elems_local self in
      if (end_pe <? my_pe) || (my_pe <? start_pe) then Done None
      else
        let! o := start_index_for_pe self my_pe in
        let! subarray_start_index := unwrap o in
        let! (start_index, rem_elem) :=
          if my_pe =? start_pe then
            let! s := usub index subarray_start_index in Done (s, len)
          else
            let! d := usub subarray_start_index index in
            let! r := usub len d in Done (0, r) in
        let! end_index :=
          if my_pe =? end_pe then uadd start_index rem_elem else Done num_elems_local in
        local_range self start_index end_index
  | Cyclic =>
      let np := num_pes (data self) in
      let! local_index :=
        if start_pe <=? my_pe then
          let! d := usub my_pe start_pe in uadd index d
        else
          let! d := usub np start_pe in
          let! d := uadd d my_pe in uadd index d in
      let! start_index := udiv local_index np in
      let! num_elems := cyclic_share np start_pe end_pe my_pe len in
      if 0 <? num_elems then
        let! end_index := uadd start_index num_elems in
        local_range self start_index end_index
      else Done None
  end.

Definition num_elements_on_pe_for_range (self : UnsafeArrayInner) (pe index len : Z)
  : outcome (option Z) :=
  let! start_pe := expect_pe self index in
  let! x := uadd index len in
  let! last := usub x 1 in
  let! end_pe := expect_pe self last in
  match distribution self with
  | Block =>
      let! n := num_elems_pe self pe in
      if (end_pe <? pe) || (pe <? start_pe) then Done None
      else
        let! o := start_index_for_pe self pe in
        let! subarray_start_index := unwrap o in
        let! (start_index, rem_elem) :=
          if pe =? start_pe then
            let! s := usub index subarray_start_index in Done (s, len)
          else
            let! d := usub subarray_start_index index in
            let! r := usub len d in Done (0, r) in
        let! end_index := if pe =? end_pe then uadd start_index rem_elem else Done n in
        let! k := usub end_index start_index in Done (Some k)
  | Cyclic =>
      let! num_elems := cyclic_share (num_pes (data self)) start_pe end_pe pe len in
      Done (if 0 <? num_elems then Some num_elems else None)
  end.

(** The loop of [pes_for_range] over the global indices. *)
Fixpoint collect_pes (num_pes : Z) (idxs pes : list Z) : outcome (list Z) :=
  match idxs with
  | [] => Done pes
  | i :: idxs' =>
      let! pe := urem i num_pes in
      let pes := pes ++ [pe] in
      if Z.of_nat (length pes) =? num_pes then Done pes else collect_pes num_pes idxs' pes
  end.

Definition pes_for_range (self : UnsafeArrayInner) (index len : Z) : outcome (list Z) :=
  match distribution self with
  | Block =>
      let! o := pe_for_dist_index self index in
      match o with
      | Some start_pe =>
          let! x := uadd index len in
          let! last := usub x 1 in
          let! o' := pe_for_dist_index self last in
          Done (match o' with Some end_pe => pe_range start_pe end_pe | None => [] end)
      | None => Done []
      end
  | Cyclic =>
      let! global_start := uadd (offset self) index in
      let! x := uadd global_start len in
      let! global_end := usub x 1 in
      collect_pes (num_pes (data self)) (seqZ global_start (global_end + 1 - global_start)) []
  end.

(** ** The active messages *)

(** [exec] of the put AMs on PE [dest]: the elements of the range that [dest] holds are
    overwritten with the data of the AM, which must not be shorter. *)
Definition exec_put (self : UnsafeArrayInner) (dest start_index len : Z) (d : Region) (m : Mem)
  : outcome Mem :=
  let! o := local_elements_for_range (at_pe self dest) start_index len in
  match o with
  | Some ((lo, hi), _) =>
      let! first := udiv lo (elem_size self) in
      let! n := udiv (hi - lo) (elem_size self) in
      let! _ := assert_ (n <=? r_len d) in
      Done (fun p k => if (p =? dest) && ((first <=? k) && (k <? first + n))
                       then r_at d (k - first) else m p k)
  | None => Done m
  end.

Definition exec_am (self : UnsafeArrayInner) (am : Am) (st : St) : outcome St :=
  match am with
  | UnsafePutAm dest start_index len d | UnsafeSmallPutAm dest start_index len d =>
      let! m := exec_put self dest start_index len d (mem st) in
      Done (set_mem st m)
  | UnsafeBlockGetAm offset lo hi pe =>
      let! n := usub hi lo in
      let! d := region_get self (mem st) pe offset n in
      Done (set_buf st (r_write (buf st) lo d))
  | UnsafeCyclicGetAm i pe num_pes offset num_elems =>
      let! temp := region_get self (mem st) pe offset num_elems in
      let! b := scatter temp (step_range i (r_len (buf st)) num_pes) 0 (buf st) in
      Done (set_buf st b)
  end.

Fixpoint exec_ams (self : UnsafeArrayInner) (ams : list Am) (st : St) : outcome St :=
  match ams with
  | [] => Done st
  | am :: ams' => let! st := exec_am self am st in exec_ams self ams' st
  end.

(** [UnsafeRemoteSmallGetAm::exec] on PE [pe]: the elements of the range that [pe] holds. *)
Definition exec_remote_small_get (self : UnsafeArrayInner) (pe index len : Z) (m : Mem)
  : outcome Region :=
  let! o := local_elements_for_range (at_pe self pe) index len in
  match o with
  | Some ((lo, hi), _) =>
      let! first := udiv lo (elem_size self) in
      let! n := udiv (hi - lo) (elem_size self) in
      Done {| r_len := n; r_at := fun k => m pe (first + k) |}
  | None => Done {| r_len := 0; r_at := uninit |}
  end.

(** The two loops of [InitSmallGetAm::exec] over the data the PEs return. *)
Fixpoint small_get_block (self : UnsafeArrayInner) (index : Z) (pes : list Z) (cur_index : Z) (st : St)
  : outcome St :=
  match pes with
  | [] => Done st
  | pe :: pes' =>
      let! d := exec_remote_small_get self pe index (r_len (buf st)) (mem st) in
      let! b := r_put (buf st) cur_index d in
      let! cur_index := uadd cur_index (r_len d) in
      small_get_block self index pes' cur_index (set_buf st b)
  end.

Fixpoint small_get_cyclic (self : UnsafeArrayInner) (index num_reqs : Z) (pes : list Z)
    (start_index : Z) (st : St) : outcome St :=
  match pes with
  | [] => Done st
  | pe :: pes' =>
      let! d := exec_remote_small_get self pe index (r_len (buf st)) (mem st) in
      let! b := scatter d ((fun i => start_index + i * num_reqs) <$> seqZ 0 (r_len d)) 0 (buf st) in
      let! s1 := uadd start_index 1 in
      small_get_cyclic self index num_reqs pes' s1 (set_buf st b)
  end.

Definition exec_init_small_get (self : UnsafeArrayInner) (index : Z) (st : St) : outcome St :=
  let! pes := pes_for_range self index (r_len (buf st)) in
  match distribution self with
  | Block => small_get_block self index pes 0 st
  | Cyclic => small_get_cyclic self index (Z.of_nat (length pes)) pes 0 st
  end.

(** [internal_get]: launch the get AMs, or run the AM for small buffers. *)
Definition internal_get (self : UnsafeArrayInner) (index : Z) (st : St) : outcome St :=
  let! bytes := umul (r_len (buf st)) (elem_size self) in
  if BATCH_AM_SIZE <? bytes then array_op self GetAm index st
  else exec_init_small_get self index st.
End Rdma.
Arguments Region V : clear implicits.
Arguments Mem V : clear implicits.
Arguments Am V : clear implicits.
Arguments St V : clear implicits.
