(* ===== verification/RdmaSpec.v ===== *)
(** * RdmaSpec: what the transfers of [Rdma] do

    A put writes exactly the cells of the range, a get reads them; the active-message
    versions do the same in whatever order the messages run.  Both loops ([block_op],
    [cyclic_op]) are reduced to one description: the PEs that hold elements of the range
    are visited once each, with the elements they hold. *)

From stdpp Require Import base list numbers sets.
From Stdlib Require Import ZArith Lia.
From S2P Require Import Prelude BlockBounds Distribution Rdma.
Local Open Scope Z_scope.

#[local] Opaque boundary pe_guess elem_per_pe F64.f64_round F64.f64_mul F64.f64_of_usize F64.f64_div.

Section Spec.
Context {V : Type} (uninit : Z -> V) (N P : Z) (a : UnsafeArrayInner) (index n : Z).
Hypothesis Hwf : layout_wf N P a.
Hypothesis Hmem : mem_wf N P a.
Hypothesis Hindex : 0 <= index.
Hypothesis Hn : 0 < n.
Hypothesis Hrange : index + n <= size a.

Local Abbreviation g0 := (offset a + index).

(** The range [index..index + n] as a view of its own. *)
Definition view : UnsafeArrayInner :=
  {| data := data a; distribution := distribution a; orig_elem_per_pe := orig_elem_per_pe a;
     elem_size := elem_size a; offset := g0; size := n |}.

Lemma view_wf : layout_wf N P view.
Proof. destruct Hwf. constructor; cbn; (assumption || lia). Qed.

(** The PE and the element of its memory where the [j]-th element of the range is, the number
    of elements of the range on a PE and which they are. *)
Definition own (j : Z) : Z := owner N P a (g0 + j).
Definition phys (j : Z) : Z := physical N P a (g0 + j).
Definition cnt (pe : Z) : Z := count N P view pe.
Definition idx (pe o : Z) : Z := index_of_local N P view pe o.

Lemma own_bound j : 0 <= j < n -> 0 <= own j < P.
Proof. intros Hj. apply owner_bound; [exact Hwf|]. destruct Hwf. lia. Qed.

Lemma phys_bound j : 0 <= j < n -> 0 <= phys j < per_pe_size N P.
Proof. intros Hj. apply physical_bound; [exact Hwf|exact (mw_NP _ _ _ Hmem)|]. destruct Hwf. lia. Qed.

Lemma cnt_bound pe : 0 <= pe < P -> 0 <= cnt pe <= n.
Proof. exact (count_bound N P view pe view_wf). Qed.

Lemma idx_spec pe o : 0 <= pe < P -> 0 <= o < cnt pe ->
  0 <= idx pe o < n /\ own (idx pe o) = pe /\ phys (idx pe o) = phys (idx pe 0) + o.
Proof.
  intros Hpe Ho. destruct (index_of_local_spec N P view pe o view_wf Hpe Ho) as (Hi & Hown & _).
  destruct (index_of_local_spec N P view pe 0 view_wf Hpe ltac:(unfold cnt in Ho; lia)) as (Hi0 & Hown0 & _).
  change (offset view) with g0 in *.
  split; [exact Hi|]. split; [exact Hown|]. unfold phys, physical. unfold idx.
  change (owner N P view) with (owner N P a) in *. rewrite Hown, Hown0.
  unfold index_of_local. change (distribution view) with (distribution a).
  change (offset view) with g0. destruct (distribution a); [lia|].
  destruct Hwf. set (d := ring_dist P (g0 mod P) pe).
  replace (g0 + (d + P * o)) with (g0 + (d + P * 0) + o * P) by lia. by rewrite Z.div_add by lia.
Qed.

Lemma idx_surj j : 0 <= j < n -> exists o, 0 <= o < cnt (own j) /\ idx (own j) o = j.
Proof.
  intros Hj. exists (local_offset N P view j). split.
  - exact (local_offset_bound N P view j view_wf Hj).
  - exact (index_of_local_owner N P view j view_wf Hj).
Qed.

Lemma loc_inj i j : 0 <= i < n -> 0 <= j < n -> own i = own j -> phys i = phys j -> i = j.
Proof.
  intros Hi Hj Ho Hp. destruct (idx_surj i Hi) as (oi & Hoi & Ei). destruct (idx_surj j Hj) as (oj & Hoj & Ej).
  pose proof (idx_spec (own i) oi (own_bound i Hi) Hoi) as (_ & _ & Pi).
  pose proof (idx_spec (own j) oj (own_bound j Hj) Hoj) as (_ & _ & Pj).
  rewrite Ei in Pi. rewrite Ej in Pj. rewrite Ho in Pi. assert (oi = oj) by lia. subst oj.
  rewrite <- Ei, <- Ej. by rewrite Ho.
Qed.

Lemma region_check_ok pe : 0 <= pe < P -> 0 < cnt pe ->
  region_check a (phys (idx pe 0)) (cnt pe) = Done ().
Proof.
  intros Hpe Hc. destruct (idx_spec pe 0 Hpe ltac:(lia)) as (H0 & _ & _).
  destruct (idx_spec pe (cnt pe - 1) Hpe ltac:(lia)) as (H1 & _ & E1).
  pose proof (phys_bound _ H0). pose proof (phys_bound _ H1). destruct Hmem.
  unfold region_check. rewrite uadd_ok by nia. rewrite umul_ok by nia.
  unfold assert_. by rewrite (proj2 (Z.leb_le _ _)) by nia.
Qed.

(** ** Which cells have been written, which elements fetched *)

(** [m] is [m0] with the elements of the range on the PEs of [dn] overwritten by those of [b]. *)
Definition written (b : Z -> V) (m0 : Mem V) (dn : list Z) (m : Mem V) : Prop :=
  (forall j, 0 <= j < n -> own j ∈ dn -> m (own j) (phys j) = b j)
  /\ (forall p k, (forall j, 0 <= j < n -> own j ∈ dn -> (own j, phys j) <> (p, k)) -> m p k = m0 p k).

(** [b] is [b0] with the elements that the PEs of [dn] hold fetched from [m]. *)
Definition fetched (b0 : Region V) (m : Mem V) (dn : list Z) (b : Region V) : Prop :=
  r_len b = n
  /\ (forall j, 0 <= j < n -> own j ∈ dn -> r_at b j = m (own j) (phys j))
  /\ (forall j, ~ (0 <= j < n /\ own j ∈ dn) -> r_at b j = r_at b0 j).

Lemma written_nil b m0 : written b m0 [] m0.
Proof. split; [intros j _ H; by apply not_elem_of_nil in H|done]. Qed.

Lemma fetched_nil b0 m : r_len b0 = n -> fetched b0 m [] b0.
Proof. intros H. split; [done|]. split; [intros j _ Hj; by apply not_elem_of_nil in Hj|done]. Qed.

(** Writing the elements a PE holds. *)
Lemma written_step b m0 dn m pe (d : Z -> V) :
  0 <= pe < P -> (forall o, 0 <= o < cnt pe -> d o = b (idx pe o)) ->
  written b m0 dn m ->
  written b m0 (pe :: dn)
    (fun p k => if (p =? pe) && ((phys (idx pe 0) <=? k) && (k <? phys (idx pe 0) + cnt pe))
                then d (k - phys (idx pe 0)) else m p k).
Proof.
  intros Hpe Hd [W1 W2]. split.
  - intros j Hj Hin. destruct (idx_surj j Hj) as (o & Ho & Ej).
    pose proof (idx_spec (own j) o (own_bound j Hj) Ho) as (_ & _ & Ep). rewrite Ej in Ep.
    destruct (Z.eqb_spec (own j) pe) as [E|E].
    + rewrite E in Ep, Ho, Ej. rewrite Ep. rewrite (proj2 (Z.leb_le _ _)), (proj2 (Z.ltb_lt _ _)) by lia.
      cbn [andb]. replace (phys (idx pe 0) + o - phys (idx pe 0)) with o by lia.
      rewrite Hd by lia. by rewrite Ej.
    + cbn [andb]. apply W1; [done|]. apply elem_of_cons in Hin as [Hin|Hin]; [done|done].
  - intros p k Hno. destruct (Z.eqb_spec p pe) as [->|E]; cbn [andb].
    + destruct (Z.leb_spec (phys (idx pe 0)) k); cbn [andb];
        [destruct (Z.ltb_spec k (phys (idx pe 0) + cnt pe))|].
      * exfalso. destruct (idx_spec pe (k - phys (idx pe 0)) Hpe ltac:(lia)) as (Hr & Eo & Ep).
        apply (Hno _ Hr); [rewrite Eo; left|]. rewrite Eo, Ep. f_equal. lia.
      * apply W2. intros j Hj Hin. apply Hno; [done|by right].
      * apply W2. intros j Hj Hin. apply Hno; [done|by right].
    + apply W2. intros j Hj Hin. apply Hno; [done|by right].
Qed.

Lemma fetched_step b0 m dn b b' pe :
  0 <= pe < P ->
  (forall o, 0 <= o < cnt pe -> r_at b' (idx pe o) = m pe (phys (idx pe 0) + o)) ->
  (forall j, (forall o, 0 <= o < cnt pe -> idx pe o <> j) -> r_at b' j = r_at b j) ->
  r_len b' = r_len b -> fetched b0 m dn b -> fetched b0 m (pe :: dn) b'.
Proof.
  intros Hpe Hb1 Hb2 Hl (F1 & F2 & F3). split; [congruence|]. split.
  - intros j Hj Hin. destruct (decide (own j = pe)) as [E|E].
    + destruct (idx_surj j Hj) as (o & Ho & Ej). rewrite E in Ho, Ej.
      pose proof (idx_spec pe o Hpe Ho) as (_ & Eo & Ep). rewrite Ej in Ep.
      rewrite <- Ej at 1. rewrite Hb1 by done. by rewrite E, Ep.
    + rewrite Hb2; [apply F2; [done|]; apply elem_of_cons in Hin as [Hin|Hin]; done|].
      intros o Ho Ej. apply E. rewrite <- Ej. by apply idx_spec.
  - intros j Hj. rewrite Hb2.
    + apply F3. intros [Hr Hin]. apply Hj. split; [done|by right].
    + intros o Ho Ej. destruct (idx_spec pe o Hpe Ho) as (Hr & Eo & _). rewrite Ej in *.
      apply Hj. split; [done|]. rewrite Eo. left.
Qed.

(** ** The two loops *)

(** The PEs of [dn] cover the range. *)
Definition covers (dn : list Z) : Prop := forall j, 0 <= j < n -> own j ∈ dn.

Lemma expect_pe_eq j : 0 <= j < n -> expect_pe a (index + j) = Done (own j).
Proof.
  intros Hj. unfold expect_pe. rewrite (pe_for_dist_index_eq N P) by (assumption || lia).
  cbn [unwrap]. unfold own. by rewrite Z.add_assoc.
Qed.

Lemma range_usize : 0 <= offset a /\ g0 + n <= N /\ N < 2 ^ 51.
Proof. destruct Hwf. lia. Qed.

Section Block.
Hypothesis D : distribution a = Block.
Local Abbreviation bnd := (boundary N P).

Lemma own_block j : 0 <= j < n -> bnd (own j) <= g0 + j < bnd (own j + 1).
Proof.
  intros Hj. unfold own, owner. rewrite D. apply (block_owner_spec N P a Hwf). destruct Hwf. lia.
Qed.

Lemma idx0_block pe : idx pe 0 = Z.max (bnd pe) g0 - g0.
Proof. unfold idx, index_of_local. change (distribution view) with (distribution a). rewrite D. cbn. lia. Qed.

Lemma cnt_block pe : cnt pe = Z.max 0 (Z.min (bnd (pe + 1)) (g0 + n) - Z.max (bnd pe) g0).
Proof. unfold cnt, count. change (distribution view) with (distribution a). by rewrite D. Qed.

Lemma phys0_block pe : 0 <= pe < P -> 0 < cnt pe -> phys (idx pe 0) = Z.max (bnd pe) g0 - bnd pe.
Proof.
  intros Hpe Hc. destruct (idx_spec pe 0 Hpe ltac:(lia)) as (_ & Ho & _).
  unfold own in Ho. unfold phys, physical. rewrite D, Ho, idx0_block. lia.
Qed.

Context (op : ArrayRdmaCmd) (Inv : list Z -> St V -> Prop).
Hypothesis Inv_len : forall dn st, Inv dn st -> r_len (buf st) = n.
Hypothesis Inv_body : forall dn pe st, 0 <= pe < P -> 0 < cnt pe -> Inv dn st ->
  exists st', block_body a op index pe (phys (idx pe 0)) (idx pe 0) (cnt pe) st = Done st'
              /\ Inv (pe :: dn) st'.

Lemma block_loop_inv k pe bi dn st :
  pe + Z.of_nat k = own (n - 1) + 1 -> own 0 <= pe -> ((0 < k)%nat -> bi = idx pe 0) ->
  (forall j, 0 <= j < n -> own j < pe -> own j ∈ dn) -> Inv dn st ->
  exists st' dn', block_loop a op index (seqZ pe (Z.of_nat k)) (g0 + bi) bi st = Done st'
    /\ Inv dn' st' /\ covers dn'.
Proof using All.
  pose proof range_usize as Hu. pose proof (own_bound (n - 1) ltac:(lia)) as Hlast.
  pose proof (own_bound 0 ltac:(lia)) as Hfirst.
  pose proof (own_block (n - 1) ltac:(lia)) as Bl. pose proof (own_block 0 ltac:(lia)) as Bf.
  assert (Mono : forall x y, 0 <= x <= y -> y <= P -> bnd x <= bnd y).
  { intros x y Hx Hy. destruct Hwf. apply boundary_mono; lia. }
  revert pe bi dn st. induction k as [|k IH]; intros pe bi dn st Hk Hpe Hbi Hdn Hinv.
  - cbn. exists st, dn. split; [done|]. split; [done|]. intros j Hj. apply Hdn; [done|].
    pose proof (own_bound j Hj). destruct (Z.lt_ge_cases (own j) pe) as [|Hge]; [done|exfalso].
    pose proof (own_block j Hj). pose proof (Mono (own (n - 1) + 1) (own j) ltac:(lia) ltac:(lia)). lia.
  - specialize (Hbi ltac:(lia)). rewrite idx0_block in Hbi.
    rewrite seqZ_cons by lia. replace (Z.pred (Z.of_nat (S k))) with (Z.of_nat k) by lia.
    replace (Z.succ pe) with (pe + 1) by lia. cbn [block_loop].
    pose proof (Mono pe (pe + 1) ltac:(lia) ltac:(lia)). pose proof (bnd_range N P a Hwf pe ltac:(lia)).
    pose proof (bnd_range N P a Hwf (pe + 1) ltac:(lia)).
    pose proof (Mono pe (own (n - 1)) ltac:(lia) ltac:(lia)).
    pose proof (Mono (own 0 + 1) (pe + 1) ltac:(lia) ltac:(lia)).
    rewrite (Inv_len _ _ Hinv). rewrite uadd_ok by (destruct Hwf; lia).
    rewrite !(pe_boundary_eq N P a Hwf) by lia. rewrite !usub_ok by lia.
    pose proof (cnt_block pe) as Hc.
    replace (Z.min (bnd (pe + 1) - bnd pe - (g0 + bi - bnd pe)) (n - bi)) with (cnt pe) by lia.
    assert (Hnext : (0 < k)%nat -> bi + cnt pe = idx (pe + 1) 0).
    { intros Hk'. rewrite idx0_block. pose proof (Mono (pe + 1) (own (n - 1)) ltac:(lia) ltac:(lia)). lia. }
    destruct (Z.ltb_spec 0 (cnt pe)) as [Hpos|Hzero].
    + destruct (Inv_body dn pe st ltac:(lia) Hpos Hinv) as (st' & E & Hinv').
      rewrite (phys0_block pe ltac:(lia) Hpos), idx0_block, <- Hbi in E.
      replace (g0 + bi - bnd pe) with (Z.max (bnd pe) g0 - bnd pe) by lia. rewrite E.
      pose proof (cnt_bound pe ltac:(lia)). assert (Hlim : bi <= N) by lia. destruct Hwf.
      rewrite (uadd_ok bi), (uadd_ok (g0 + bi)) by lia. rewrite <- Z.add_assoc.
      apply (IH (pe + 1) (bi + cnt pe) (pe :: dn)); [lia|lia|exact Hnext| |exact Hinv'].
      intros j Hj Hlt. destruct (decide (own j = pe)) as [->|Hne]; [left|]. right. apply Hdn; [done|lia].
    + apply (IH (pe + 1) bi dn); [lia|lia|intros Hk'; rewrite <- (Hnext Hk'); lia| |exact Hinv].
      intros j Hj Hlt. destruct (decide (own j = pe)) as [E|Hne]; [exfalso|apply Hdn; [done|lia]].
      pose proof (own_block j Hj) as Bj. rewrite E in Bj. lia.
Qed.

Lemma block_op_inv st : Inv [] st ->
  exists st' dn, block_op a op index st = Done st' /\ Inv dn st' /\ covers dn.
Proof using All.
  intros Hinv. pose proof range_usize. unfold block_op. rewrite (Inv_len _ _ Hinv).
  rewrite (uadd_ok index) by lia. pose proof (expect_pe_eq 0 ltac:(lia)) as E0. rewrite Z.add_0_r in E0.
  rewrite E0. rewrite uadd_ok, usub_ok by (destruct Hwf; lia).
  replace (index + n - 1) with (index + (n - 1)) by lia. rewrite expect_pe_eq by lia.
  pose proof (own_block (n - 1) ltac:(lia)) as Bl. pose proof (own_block 0 ltac:(lia)) as Bf.
  pose proof (own_bound (n - 1) ltac:(lia)). pose proof (own_bound 0 ltac:(lia)).
  assert (Hle : own 0 <= own (n - 1)).
  { destruct (Z.le_gt_cases (own 0) (own (n - 1))); [done|exfalso]. destruct Hwf.
    pose proof (boundary_mono N P wf_P wf_N (own (n - 1) + 1) (own 0) ltac:(lia) ltac:(lia)). lia. }
  unfold pe_range. replace (index + offset a) with (g0 + 0) by lia.
  rewrite <- (Z2Nat.id (own (n - 1) + 1 - own 0)) by lia.
  apply (block_loop_inv _ _ _ []); [lia|lia| |intros j Hj Hlt|exact Hinv].
  - intros _. rewrite idx0_block. lia.
  - exfalso. pose proof (own_bound j Hj). pose proof (own_block j Hj). destruct Hwf.
    pose proof (boundary_mono N P wf_P wf_N (own j + 1) (own 0) ltac:(lia) ltac:(lia)). lia.
Qed.
End Block.

Section Cyclic.
Hypothesis C : distribution a = Cyclic.

Lemma own_cyclic j : own j = (g0 + j) mod P.
Proof. unfold own, owner. by rewrite C. Qed.

Lemma phys_cyclic j : phys j = (g0 + j) / P.
Proof. unfold phys, physical. by rewrite C. Qed.

Lemma num_pes_pos : 0 < P.
Proof. destruct Hwf. lia. Qed.

Lemma idx_cyclic i o : 0 <= i < P -> idx (own i) o = i + o * P.
Proof.
  intros Hi. pose proof num_pes_pos. pose proof range_usize. unfold idx, index_of_local.
  change (distribution view) with (distribution a). rewrite C. change (offset view) with g0.
  assert (E : ring_dist P (g0 mod P) (own i) = i).
  { rewrite <- (proj1 (cyclic_index_iff P g0 i (own i) ltac:(lia) ltac:(lia) ltac:(lia)
                        ltac:(rewrite own_cyclic; apply Z.mod_pos_bound; lia))
                  (eq_sym (own_cyclic i))). apply Z.mod_small. lia. }
  rewrite E. lia.
Qed.

Lemma cnt_cyclic i : 0 <= i < P -> i < n -> cnt (own i) = (n - i + P - 1) / P.
Proof.
  intros Hi Hin. pose proof num_pes_pos. unfold cnt, count.
  change (distribution view) with (distribution a). rewrite C. unfold cyclic_count.
  change (offset view) with g0. change (size view) with n.
  pose proof (idx_cyclic i 0 Hi) as E. unfold idx, index_of_local in E.
  change (distribution view) with (distribution a) in E. rewrite C in E. change (offset view) with g0 in E.
  replace (ring_dist P (g0 mod P) (own i)) with i by lia.
  rewrite (proj2 (Z.ltb_lt _ _)) by lia. replace (n - i + P - 1) with (n - 1 - i + 1 * P) by lia.
  by rewrite Z.div_add by lia.
Qed.

Lemma cnt_le_share i : 0 <= i < P -> i < n ->
  0 < cnt (own i) <= n / P + 1 /\ cnt (own i) = n / P + (if i <? n mod P then 1 else 0).
Proof.
  intros Hi Hin. pose proof num_pes_pos. rewrite cnt_cyclic by lia.
  pose proof (Z.div_mod n P ltac:(lia)). pose proof (Z.mod_pos_bound n P ltac:(lia)).
  assert (E : (n - i + P - 1) / P = n / P + (if i <? n mod P then 1 else 0)).
  { symmetry. destruct (Z.ltb_spec i (n mod P)).
    - apply Z.div_unique with (n mod P - i - 1); lia.
    - apply Z.div_unique with (n mod P - i - 1 + P); lia. }
  rewrite E. split; [|reflexivity]. destruct (Z.ltb_spec i (n mod P)) as [Hm|Hm].
  - pose proof (Z.div_pos n P ltac:(lia) ltac:(lia)). lia.
  - assert (0 < n / P); [|lia]. apply Z.div_str_pos. split; [lia|].
    destruct (Z.le_gt_cases P n) as [|Hlt]; [done|]. rewrite Z.mod_small in Hm by lia. lia.
Qed.

Lemma step_range_eq i : 0 <= i < P -> i < n ->
  step_range i n P = idx (own i) <$> seqZ 0 (cnt (own i)).
Proof.
  intros Hi Hin. unfold step_range. rewrite cnt_cyclic by lia. apply list_fmap_ext.
  intros k x _. by rewrite idx_cyclic.
Qed.

Context (op : ArrayRdmaCmd) (Inv : list Z -> St V -> Prop).
Hypothesis Inv_len : forall dn st, Inv dn st -> r_len (buf st) = n.
Hypothesis Inv_body : forall dn i temp st, 0 <= i < P -> i < n -> Inv dn st -> r_len temp = n / P + 1 ->
  exists temp' st',
    cyclic_body uninit a op index P (n / P + 1) i (own i) (phys i) temp st = Done (temp', st')
    /\ r_len temp' = n / P + 1 /\ Inv (own i :: dn) st'.

Lemma cyclic_loop_inv k i dn temp st :
  i + Z.of_nat k = Z.min n P -> 0 <= i ->
  (forall j, 0 <= j < i -> own j ∈ dn) -> r_len temp = n / P + 1 -> Inv dn st ->
  exists st' dn',
    cyclic_loop uninit a op index g0 P (n / P + 1) (g0 mod P) (seqZ i (Z.of_nat k))
      (if P <=? g0 mod P + i then 1 else 0) temp st = Done st'
    /\ Inv dn' st' /\ (forall j, 0 <= j < Z.min n P -> own j ∈ dn').
Proof using All.
  pose proof range_usize as Hu. pose proof num_pes_pos as HP. pose proof (Z.mod_pos_bound g0 P HP) as Hs.
  revert i dn temp st. induction k as [|k IH]; intros i dn temp st Hk Hi Hdn Ht Hinv.
  - cbn. exists st, dn. split; [done|]. split; [done|]. intros j Hj. apply Hdn. lia.
  - rewrite seqZ_cons by lia. replace (Z.pred (Z.of_nat (S k))) with (Z.of_nat k) by lia.
    replace (Z.succ i) with (i + 1) by lia. cbn [cyclic_loop].
    assert (HPN : P <= N) by (destruct Hwf; lia).
    rewrite uadd_ok, urem_ok, udiv_ok by lia.
    pose proof (Z.div_mod g0 P ltac:(lia)) as Hdm. pose proof (Z.div_pos g0 P ltac:(lia) ltac:(lia)).
    assert (Hdb : g0 / P <= N) by (apply Z.div_le_upper_bound; nia).
    assert (Epe : (g0 mod P + i) mod P = own i) by (rewrite own_cyclic, Z.add_mod_idemp_l by lia; done).
    assert (Eoff : g0 / P + (if P <=? g0 mod P + i then 1 else 0) = phys i).
    { rewrite phys_cyclic. destruct (Z.leb_spec P (g0 mod P + i)).
      - apply Z.div_unique with (g0 mod P + i - P); lia.
      - apply Z.div_unique with (g0 mod P + i); lia. }
    rewrite Epe. rewrite uadd_ok by (destruct (P <=? _); lia). rewrite Eoff.
    destruct (Inv_body dn i temp st ltac:(lia) ltac:(lia) Hinv Ht) as (temp' & st' & E & Ht' & Hinv').
    rewrite E. pose proof (own_bound i ltac:(lia)) as Hob. rewrite uadd_ok by lia.
    assert (Eo : own i = if P <=? g0 mod P + i then g0 mod P + i - P else g0 mod P + i).
    { rewrite <- Epe, mod_small_shift by lia. by zbool. }
    assert (Eov : (if own i + 1 =? P then uadd (if P <=? g0 mod P + i then 1 else 0) 1
                   else Done (if P <=? g0 mod P + i then 1 else 0))
                  = Done (if P <=? g0 mod P + (i + 1) then 1 else 0)).
    { rewrite Eo. zbool; try reflexivity. }
    rewrite Eov. apply (IH (i + 1) (own i :: dn)); [lia|lia| |exact Ht'|exact Hinv'].
    intros j Hj. destruct (Z.eq_dec j i) as [->|]; [left|]. right. apply Hdn. lia.
Qed.

Lemma own_small j : 0 <= j < n -> exists i, 0 <= i < Z.min n P /\ own j = own i.
Proof.
  intros Hj. pose proof num_pes_pos. exists (j mod P).
  pose proof (Z.mod_pos_bound j P ltac:(lia)). pose proof (Z.mod_le j P ltac:(lia) ltac:(lia)).
  split; [lia|]. rewrite !own_cyclic. by rewrite Z.add_mod_idemp_r by lia.
Qed.

Lemma cyclic_op_inv st : op <> Get false -> Inv [] st ->
  exists st' dn, cyclic_op uninit a op index st = Done st' /\ Inv dn st' /\ covers dn.
Proof using All.
  intros Hop Hinv. pose proof range_usize. pose proof num_pes_pos. unfold cyclic_op. rewrite (Inv_len _ _ Hinv).
  assert (HPN : P <= N /\ num_pes (data a) = P) by (destruct Hwf; split; [lia|done]). destruct HPN as [HPN ->].
  assert (n / P <= N) by (apply Z.div_le_upper_bound; nia).
  rewrite uadd_ok, udiv_ok, urem_ok by lia. rewrite uadd_ok by lia.
  replace (index + offset a) with g0 by lia.
  pose proof (Z.mod_pos_bound g0 P ltac:(lia)).
  destruct (cyclic_loop_inv (Z.to_nat (Z.min n P)) 0 [] (fresh uninit (n / P + 1)) st)
    as (st' & dn & E & Hinv' & Hdn); [lia|lia|intros; lia|done|done|].
  rewrite Z2Nat.id, (proj2 (Z.leb_gt _ _)) in E by lia.
  exists st', dn. split; [|split; [exact Hinv'|]].
  - destruct op as [| |[]|]; [exact E|exact E|exact E|done|exact E].
  - intros j Hj. destruct (own_small j Hj) as (i & Hi & ->). by apply Hdn.
Qed.
End Cyclic.

(** ** The operations *)

Lemma sub_region_ok (r : Region V) lo hi : lo <= hi -> hi <= r_len r ->
  sub_region r lo hi = Done {| r_len := hi - lo; r_at := fun k => r_at r (lo + k) |}.
Proof. intros H1 H2. unfold sub_region. rewrite (proj2 (Z.ltb_ge _ _)) by lia. by rewrite usub_ok by lia. Qed.

Lemma r_put_ok (r : Region V) off d : off + r_len d <= r_len r -> r_len r < 2 ^ 62 ->
  r_put r off d = Done (r_write r off d).
Proof.
  intros H1 H2. unfold r_put. rewrite uadd_ok by lia. unfold assert_. by rewrite (proj2 (Z.leb_le _ _)).
Qed.

Lemma gather_spec (b : Region V) f k c temp :
  0 <= k -> 0 <= c -> k + c <= r_len temp -> r_len temp < 2 ^ 62 -> r_len b < 2 ^ 62 ->
  (forall o, k <= o < k + c -> 0 <= f o < r_len b) ->
  exists t, gather b temp (f <$> seqZ k c) k = Done (t, k + c) /\ r_len t = r_len temp
    /\ (forall o, k <= o < k + c -> r_at t o = r_at b (f o))
    /\ (forall o, o < k -> r_at t o = r_at temp o).
Proof.
  intros Hk Hc. rewrite <- (Z2Nat.id c) by lia. revert k temp Hk. induction (Z.to_nat c) as [|m IH];
    intros k temp Hk Hfit Ht Hb Hf.
  - cbn. exists temp. rewrite Z.add_0_r. split; [done|]. split; [done|]. split; [lia|done].
  - rewrite seqZ_cons by lia. replace (Z.pred (Z.of_nat (S m))) with (Z.of_nat m) by lia.
    replace (Z.succ k) with (k + 1) by lia. cbn [fmap list_fmap gather].
    pose proof (Hf k ltac:(lia)). rewrite uadd_ok by lia. rewrite sub_region_ok by lia.
    rewrite r_put_ok by (cbn [r_len]; lia). rewrite uadd_ok by lia.
    match goal with |- context [gather b ?t] => set (temp1 := t) end.
    destruct (IH (k + 1) temp1) as (t & E & El & E1 & E2); [lia|unfold temp1; cbn [r_write r_len]; lia..|lia| |].
    { intros o Ho. apply Hf. lia. }
    exists t. rewrite E. split; [do 2 f_equal; lia|]. split; [exact El|]. split.
    + intros o Ho. destruct (Z.eq_dec o k) as [->|]; [|apply E1; lia].
      rewrite E2 by lia. unfold temp1, r_write. cbn [r_at r_len].
      rewrite (proj2 (Z.leb_le _ _)), (proj2 (Z.ltb_lt _ _)) by lia. cbn [andb]. f_equal. lia.
    + intros o Ho. rewrite E2 by lia. unfold temp1, r_write. cbn [r_at r_len].
      by rewrite (proj2 (Z.leb_gt _ _)) by lia.
Qed.

Lemma scatter_spec (temp : Region V) f k c b :
  0 <= k -> 0 <= c -> k + c <= r_len temp -> r_len temp < 2 ^ 62 -> r_len b < 2 ^ 62 ->
  (forall o, k <= o < k + c -> 0 <= f o < r_len b) ->
  (forall o o', k <= o -> o < o' < k + c -> f o < f o') ->
  exists b', scatter temp (f <$> seqZ k c) k b = Done b' /\ r_len b' = r_len b
    /\ (forall o, k <= o < k + c -> r_at b' (f o) = r_at temp o)
    /\ (forall j, (forall o, k <= o < k + c -> f o <> j) -> r_at b' j = r_at b j).
Proof.
  intros Hk Hc. rewrite <- (Z2Nat.id c) by lia. revert k b Hk. induction (Z.to_nat c) as [|m IH];
    intros k b Hk Hfit Ht Hb Hf Hmono.
  - cbn. exists b. split; [done|]. split; [done|]. split; [lia|done].
  - rewrite seqZ_cons by lia. replace (Z.pred (Z.of_nat (S m))) with (Z.of_nat m) by lia.
    replace (Z.succ k) with (k + 1) by lia. cbn [fmap list_fmap scatter].
    pose proof (Hf k ltac:(lia)). rewrite uadd_ok by lia. rewrite sub_region_ok by lia.
    rewrite r_put_ok by (cbn [r_len]; lia).
    match goal with |- context [scatter temp _ _ ?x] => set (b1 := x) end.
    destruct (IH (k + 1) b1) as (b' & E & El & E1 & E2);
      [lia|lia|lia|unfold b1; cbn [r_write r_len]; lia| | |].
    { intros o Ho. apply Hf. lia. }
    { intros o o' Ho Ho'. apply Hmono; lia. }
    exists b'. rewrite E. split; [done|]. split; [exact El|]. split.
    + intros o Ho. destruct (Z.eq_dec o k) as [->|]; [|apply E1; lia].
      rewrite E2; [|intros o' Ho'; pose proof (Hmono k o' ltac:(lia) ltac:(lia)); lia].
      unfold b1, r_write. cbn [r_at r_len].
      rewrite (proj2 (Z.leb_le _ _)), (proj2 (Z.ltb_lt _ _)) by lia. cbn [andb]. f_equal. lia.
    + intros j Hj. rewrite E2 by (intros o Ho; apply Hj; lia). unfold b1, r_write. cbn [r_at r_len].
      pose proof (Hj k ltac:(lia)). destruct (Z.leb_spec (f k) j); cbn [andb]; [|done].
      by rewrite (proj2 (Z.ltb_ge _ _)) by lia.
Qed.

Lemma idx_mono pe o o' : 0 <= pe < P -> 0 <= o -> o < o' < cnt pe -> idx pe o < idx pe o'.
Proof.
  intros Hpe Ho Ho'. destruct Hwf. unfold idx, index_of_local.
  change (distribution view) with (distribution a). destruct (distribution a); nia.
Qed.

(** The transfers to and from one PE. *)
Lemma put_pe b m0 dn m pe (d : Region V) :
  0 <= pe < P -> 0 < cnt pe -> r_len d = cnt pe ->
  (forall o, 0 <= o < cnt pe -> r_at d o = b (idx pe o)) -> written b m0 dn m ->
  exists m', blocking_put a m pe (phys (idx pe 0)) d = Done m' /\ written b m0 (pe :: dn) m'.
Proof.
  intros Hpe Hc Hl Hd Hw. unfold blocking_put. rewrite Hl, region_check_ok by done.
  eexists. split; [reflexivity|]. by apply written_step.
Qed.

Lemma get_pe (m : Mem V) pe : 0 <= pe < P -> 0 < cnt pe ->
  region_get a m pe (phys (idx pe 0)) (cnt pe)
  = Done {| r_len := cnt pe; r_at := fun k => m pe (phys (idx pe 0) + k) |}.
Proof. intros Hpe Hc. unfold region_get. by rewrite region_check_ok. Qed.

Lemma n_usize : n < 2 ^ 51 /\ 0 <= n / P <= n.
Proof.
  pose proof range_usize. pose proof num_pes_pos. split; [lia|].
  split; [apply Z.div_pos; lia|apply Z.div_le_upper_bound; nia].
Qed.

(** [idx pe 0 .. idx pe 0 + cnt pe] in a block distribution. *)
Lemma idx_block pe o : distribution a = Block -> idx pe o = idx pe 0 + o.
Proof.
  intros D. unfold idx, index_of_local. change (distribution view) with (distribution a). rewrite D. lia.
Qed.

Definition put_inv (st0 : St V) (dn : list Z) (st : St V) : Prop :=
  buf st = buf st0 /\ reqs st = reqs st0 /\ written (r_at (buf st0)) (mem st0) dn (mem st).

Lemma put_spec st0 : r_len (buf st0) = n ->
  exists st dn, array_op uninit a Put index st0 = Done st /\ put_inv st0 dn st /\ covers dn.
Proof.
  intros Hl. pose proof n_usize. unfold array_op. destruct (distribution a) eqn:D.
  - apply block_op_inv; [done|by intros dn st (-> & _)| |split; [done|split; [done|apply written_nil]]].
    intros dn pe st Hpe Hc (Eb & Er & Hw).
    destruct (idx_spec pe (cnt pe - 1) Hpe ltac:(lia)) as (Hlast & _).
    destruct (idx_spec pe 0 Hpe ltac:(lia)) as (H0 & _). rewrite idx_block in Hlast by done.
    unfold block_body. rewrite uadd_ok by lia. rewrite Eb, sub_region_ok by lia.
    edestruct (put_pe (r_at (buf st0)) (mem st0) dn (mem st) pe) as (m' & E & Hw'); [done|done| | |exact Hw|].
    3: { rewrite E. eexists. split; [reflexivity|]. split; [exact Eb|]. split; [exact Er|exact Hw']. }
    + cbn. lia.
    + intros o Ho. cbn. by rewrite (idx_block pe o D).
  - apply cyclic_op_inv; [done|by intros dn st (-> & _)| |done|split; [done|split; [done|apply written_nil]]].
    intros dn i temp st Hi Hin (Eb & Er & Hw) Ht. pose proof (own_bound i ltac:(lia)) as Hpe.
    destruct (cnt_le_share D i Hi Hin) as [Hc _].
    unfold cyclic_body. rewrite Eb, Hl, step_range_eq by done.
    destruct (gather_spec (buf st0) (idx (own i)) 0 (cnt (own i)) temp) as (t & E & El & Ed & _); [lia..| |].
    { intros o Ho. rewrite Hl. apply idx_spec; [done|lia]. }
    rewrite E, sub_region_ok by lia.
    edestruct (put_pe (r_at (buf st0)) (mem st0) dn (mem st) (own i)) as (m' & E' & Hw'); [done|lia| | |exact Hw|].
    3: { rewrite idx_cyclic in E' by done. replace (i + 0 * P) with i in E' by lia. rewrite E'.
         eexists _, _. split; [reflexivity|]. split; [lia|]. split; [exact Eb|]. split; [exact Er|exact Hw']. }
    + cbn. lia.
    + intros o Ho. cbn. apply Ed. lia.
Qed.

Definition get_inv (st0 : St V) (dn : list Z) (st : St V) : Prop :=
  mem st = mem st0 /\ reqs st = reqs st0 /\ fetched (buf st0) (mem st0) dn (buf st).

(** Fetching from one PE of a cyclic array: the temporary region is scattered into the buffer. *)
Lemma fetched_scatter b0 m dn b (temp : Region V) i :
  distribution a = Cyclic -> 0 <= i < P -> i < n -> cnt (own i) <= r_len temp -> r_len temp < 2 ^ 62 ->
  (forall o, 0 <= o < cnt (own i) -> r_at temp o = m (own i) (phys (idx (own i) 0) + o)) ->
  fetched b0 m dn b ->
  exists b', scatter temp (idx (own i) <$> seqZ 0 (cnt (own i))) 0 b = Done b'
    /\ fetched b0 m (own i :: dn) b'.
Proof.
  intros C Hi Hin Hc Hu Htemp Hf. pose proof n_usize. pose proof (own_bound i ltac:(lia)) as Hpe.
  pose proof (cnt_bound (own i) Hpe). pose proof Hf as [Hl _].
  destruct (scatter_spec temp (idx (own i)) 0 (cnt (own i)) b) as (b' & E & El & E1 & E2);
    [lia|lia|lia|lia|lia| | |].
  - intros o Ho. rewrite Hl. apply idx_spec; [done|lia].
  - intros o o' Ho Ho'. by apply idx_mono.
  - exists b'. split; [exact E|]. eapply fetched_step; [exact Hpe| | |exact El|exact Hf].
    + intros o Ho. rewrite E1 by lia. by apply Htemp.
    + intros j Hj. apply E2. intros o Ho. apply Hj. lia.
Qed.

Lemma fetched_write b0 m dn b (d : Region V) pe :
  distribution a = Block -> 0 <= pe < P -> 0 < cnt pe -> r_len d = cnt pe ->
  (forall o, 0 <= o < cnt pe -> r_at d o = m pe (phys (idx pe 0) + o)) ->
  fetched b0 m dn b -> fetched b0 m (pe :: dn) (r_write b (idx pe 0) d).
Proof.
  intros D Hpe Hc Hl Hd Hf. apply (fetched_step b0 m dn b); [exact Hpe| | |done|exact Hf].
  - intros o Ho. unfold r_write. cbn [r_at]. rewrite (idx_block pe o D), Hl.
    rewrite (proj2 (Z.leb_le _ _)), (proj2 (Z.ltb_lt _ _)) by lia. cbn [andb].
    rewrite <- Hd by lia. f_equal. lia.
  - intros j Hj. unfold r_write. cbn [r_at]. rewrite Hl.
    destruct (Z.leb_spec (idx pe 0) j); cbn [andb]; [|done].
    destruct (Z.ltb_spec j (idx pe 0 + cnt pe)); [|done].
    exfalso. apply (Hj (j - idx pe 0)); [lia|]. rewrite (idx_block pe _ D). lia.
Qed.

Lemma num_elems_eq i : 0 <= i < P -> i < n -> distribution a = Cyclic ->
  (let! rem := urem n P in
   let! n1 := usub (n / P + 1) 1 in
   uadd n1 (if i <? rem then 1 else 0)) = Done (cnt (own i)).
Proof.
  intros Hi Hin C. pose proof n_usize. rewrite urem_ok, usub_ok by lia.
  rewrite uadd_ok by (destruct (i <? _); lia).
  destruct (cnt_le_share C i Hi Hin) as [_ ->]. f_equal. lia.
Qed.

(** The get body computes the number of elements in three lets. *)
Lemma num_elems_bind {A} i (k : Z -> outcome A) : 0 <= i < P -> i < n -> distribution a = Cyclic ->
  (let! rem := urem n P in
   let! n1 := usub (n / P + 1) 1 in
   let! num_elems := uadd n1 (if i <? rem then 1 else 0) in k num_elems) = k (cnt (own i)).
Proof.
  intros Hi Hin C. pose proof (num_elems_eq i Hi Hin C) as E. revert E.
  destruct (urem n P) as [rem|]; [|done]. destruct (usub (n / P + 1) 1) as [n1|]; [|done].
  by intros ->.
Qed.

Lemma get_spec imm st0 : r_len (buf st0) = n -> imm = true \/ distribution a = Block ->
  exists st dn, array_op uninit a (Get imm) index st0 = Done st /\ get_inv st0 dn st /\ covers dn.
Proof.
  intros Hl Himm. pose proof n_usize. unfold array_op. destruct (distribution a) eqn:D.
  - apply block_op_inv; [done|by intros dn st (_ & _ & Hf & _)| |split; [done|split; [done|by apply fetched_nil]]].
    intros dn pe st Hpe Hc (Em & Er & Hf). pose proof Hf as [Hlb _].
    destruct (idx_spec pe (cnt pe - 1) Hpe ltac:(lia)) as (Hlast & _).
    destruct (idx_spec pe 0 Hpe ltac:(lia)) as (H0 & _). rewrite idx_block in Hlast by done.
    unfold block_body. rewrite uadd_ok by lia. rewrite sub_region_ok by lia. rewrite get_pe by done.
    eexists. split; [reflexivity|]. split; [exact Em|]. split; [exact Er|]. cbn [set_buf buf].
    rewrite Em. by apply fetched_write.
  - destruct Himm as [->|?]; [|done].
    apply cyclic_op_inv; [done|by intros dn st (_ & _ & Hf & _)| |done|
      split; [done|split; [done|by apply fetched_nil]]].
    intros dn i temp st Hi Hin (Em & Er & Hf) Ht. pose proof (own_bound i ltac:(lia)) as Hpe.
    destruct (cnt_le_share D i Hi Hin) as [Hc _]. pose proof Hf as [Hlb _].
    unfold cyclic_body. rewrite Hlb, step_range_eq by done. rewrite num_elems_bind by done.
    rewrite sub_region_ok by lia. pose proof (get_pe (mem st) (own i) Hpe ltac:(lia)) as Eg.
    pose proof Eg as Eg'. rewrite idx_cyclic in Eg' by done. replace (i + 0 * P) with i in Eg' by lia.
    rewrite Eg'. destruct (fetched_scatter (buf st0) (mem st0) dn (buf st)
      (r_write temp 0 {| r_len := cnt (own i); r_at := fun k => mem st (own i) (phys i + k) |}) i)
      as (b' & E & Hf'); [done|done|done|cbn; lia|cbn; lia| |exact Hf|].
    { intros o Ho. unfold r_write. cbn [r_at r_len].
      rewrite (proj2 (Z.leb_le _ _)), (proj2 (Z.ltb_lt _ _)) by lia. cbn [andb].
      rewrite idx_cyclic, Em by done. replace (i + 0 * P) with i by lia. f_equal. lia. }
    rewrite E. eexists _, _. split; [reflexivity|]. split; [exact Ht|]. by split.
Qed.

(** ** Range queries *)

Lemma expect_first : expect_pe a index = Done (own 0).
Proof. pose proof (expect_pe_eq 0 ltac:(lia)) as E. by rewrite Z.add_0_r in E. Qed.

Lemma expect_last : expect_pe a (index + n - 1) = Done (own (n - 1)).
Proof. rewrite <- expect_pe_eq by lia. f_equal. lia. Qed.

(** The boundaries of the PEs with elements of a block range. *)
Lemma block_between pe : distribution a = Block -> 0 <= pe < P ->
  (0 < cnt pe -> own 0 <= pe <= own (n - 1))
  /\ (pe = own 0 \/ pe = own (n - 1) -> 0 < cnt pe)
  /\ (own 0 < pe -> offset a + index < boundary N P pe)
  /\ (pe < own (n - 1) -> boundary N P (pe + 1) <= g0 + n - 1)
  /\ (own 0 <= pe -> g0 < boundary N P (pe + 1))
  /\ (pe <= own (n - 1) -> boundary N P pe <= g0 + n - 1).
Proof.
  intros D Hpe. pose proof (own_bound (n - 1) ltac:(lia)). pose proof (own_bound 0 ltac:(lia)).
  pose proof (own_block D (n - 1) ltac:(lia)) as Bl. pose proof (own_block D 0 ltac:(lia)) as Bf.
  assert (Mono : forall x y, 0 <= x <= y -> y <= P -> boundary N P x <= boundary N P y).
  { intros x y Hx Hy. destruct Hwf. apply boundary_mono; lia. }
  rewrite cnt_block by done. split_and!.
  - intros Hc. split.
    + destruct (Z.le_gt_cases (own 0) pe); [done|]. pose proof (Mono (pe + 1) (own 0) ltac:(lia) ltac:(lia)). lia.
    + destruct (Z.le_gt_cases pe (own (n - 1))); [done|].
      pose proof (Mono (own (n - 1) + 1) pe ltac:(lia) ltac:(lia)). lia.
  - intros [->| ->].
    + pose proof (Mono (own 0 + 1) (own (n - 1) + 1)). lia.
    + lia.
  - intros Hlt. pose proof (Mono (own 0 + 1) pe ltac:(lia) ltac:(lia)).
    destruct (Z.eq_dec (boundary N P pe) g0); [|lia]. lia.
  - intros Hlt. pose proof (Mono (pe + 1) (own (n - 1)) ltac:(lia) ltac:(lia)). lia.
  - intros Hle. pose proof (Mono (own 0 + 1) (pe + 1) ltac:(lia) ltac:(lia)). lia.
  - intros Hle. pose proof (Mono pe (own (n - 1)) ltac:(lia) ltac:(lia)). lia.
Qed.

(** Where the slice of [pe] starts, and that [local_range] accepts its sub-ranges. *)
Lemma local_range_ok pe s e : 0 <= pe < P -> 0 <= s -> s <= e -> e <= count N P a pe ->
  exists first, local_start_index (at_pe a pe) = Done first
    /\ local_range (at_pe a pe) s e
       = Done (Some (((first + s) * elem_size a, (first + e) * elem_size a), (s, e))).
Proof.
  intros Hpe Hs Hse He.
  destruct (local_slice_bounds N P a pe Hwf Hmem ltac:(lia) Hpe) as (first & Es & El & _ & H0 & Hb).
  exists first. split; [exact Es|]. destruct Hmem. unfold local_range. rewrite El.
  change (elem_size (at_pe a pe)) with (elem_size a).
  rewrite !umul_ok by nia. rewrite !(proj2 (Z.leb_le _ _)) by nia. cbn [andb]. do 4 f_equal; lia.
Qed.

Lemma block_range_of pe : distribution a = Block -> 0 <= pe < P ->
  own 0 <= pe <= own (n - 1) ->
  exists s, 0 <= s /\ s + cnt pe <= count N P a pe
    /\ Z.max (boundary N P pe) (offset a) - boundary N P pe + s = Z.max (boundary N P pe) g0 - boundary N P pe
    /\ start_index_for_pe (at_pe a pe) pe = Done (Some (Z.max (boundary N P pe) (offset a) - offset a))
    /\ forall {A} (k : Z -> Z -> outcome A),
       (let! (start_index, rem_elem) :=
          if pe =? own 0 then
            let! s := usub index (Z.max (boundary N P pe) (offset a) - offset a) in Done (s, n)
          else
            let! d := usub (Z.max (boundary N P pe) (offset a) - offset a) index in
            let! r := usub n d in Done (0, r) in
        let! end_index :=
          if pe =? own (n - 1) then uadd start_index rem_elem else Done (count N P a pe) in
        k start_index end_index) = k s (s + cnt pe).
Proof.
  intros D Hpe Hle. destruct (block_between pe D Hpe) as (B1 & B2 & B3 & B4 & B5 & B6).
  pose proof (own_block D (n - 1) ltac:(lia)) as Bl. pose proof (own_block D 0 ltac:(lia)) as Bf.
  pose proof range_usize as Hu. pose proof (bnd_succ N P a Hwf pe Hpe) as Hmono.
  specialize (B5 ltac:(lia)). specialize (B6 ltac:(lia)).
  assert (Ecnt : cnt pe = Z.min (boundary N P (pe + 1)) (g0 + n) - Z.max (boundary N P pe) g0).
  { rewrite cnt_block by done. lia. }
  assert (Ecount : count N P a pe
    = Z.min (boundary N P (pe + 1)) (offset a + size a) - Z.max (boundary N P pe) (offset a)).
  { unfold count. rewrite D. unfold block_count. lia. }
  exists (Z.max (boundary N P pe) g0 - Z.max (boundary N P pe) (offset a)).
  split; [lia|]. split; [lia|]. split; [lia|]. split.
  - rewrite (start_index_for_pe_block N P (at_pe a pe) (at_pe_wf N P a pe Hwf Hpe) D pe ltac:(lia)).
    unfold block_start. change (offset (at_pe a pe)) with (offset a). change (size (at_pe a pe)) with (size a).
    zbool; do 2 f_equal; lia.
  - intros A k. destruct (Z.eqb_spec pe (own 0)) as [E0|E0].
    + assert (boundary N P pe <= g0) by (rewrite E0; lia).
      rewrite usub_ok by lia. destruct (Z.eqb_spec pe (own (n - 1))) as [E1|E1].
      * assert (g0 + n <= boundary N P (pe + 1)) by (rewrite E1; lia).
        rewrite uadd_ok by lia. f_equal; lia.
      * specialize (B4 ltac:(lia)). f_equal; lia.
    + specialize (B3 ltac:(lia)). rewrite !usub_ok by lia.
      destruct (Z.eqb_spec pe (own (n - 1))) as [E1|E1].
      * assert (g0 + n <= boundary N P (pe + 1)) by (rewrite E1; lia).
        rewrite uadd_ok by lia. f_equal; lia.
      * specialize (B4 ltac:(lia)). f_equal; lia.
Qed.

Lemma cyclic_share_eq pe : distribution a = Cyclic -> 0 <= pe < P ->
  cyclic_share P (own 0) (own (n - 1)) pe n = Done (cnt pe).
Proof.
  intros C Hpe. pose proof n_usize. pose proof num_pes_pos.
  pose proof (cyclic_count_alt N P view view_wf pe Hpe) as Ec.
  change (offset view) with g0 in Ec. change (size view) with n in Ec.
  assert (E : cnt pe = n / P + (if ring_dist P (g0 mod P) pe <? n mod P then 1 else 0)).
  { unfold cnt, count. change (distribution view) with (distribution a). rewrite C. exact Ec. }
  rewrite E. unfold cyclic_share. rewrite udiv_ok, urem_ok by lia.
  pose proof (Z.mod_pos_bound n P ltac:(lia)) as Hm.
  pose proof (ring_dist_bound P (g0 mod P) pe ltac:(apply Z.mod_pos_bound; lia) Hpe).
  destruct (Z.eqb_spec (n mod P) 0) as [E0|E0]; cbn [negb].
  - rewrite E0. rewrite (proj2 (Z.ltb_ge _ _)) by lia. f_equal. lia.
  - pose proof (ring_interval N P view view_wf pe Hpe) as R. cbn zeta in R.
    change (offset view) with g0 in R. change (size view) with n in R. rewrite <- R by lia.
    rewrite !own_cyclic by done. rewrite Z.add_0_r.
    destruct (g0 mod P <=? _);
      match goal with |- context [if ?b then uadd _ _ else _] => destruct b end;
      rewrite ?uadd_ok by lia; f_equal; lia.
Qed.

(** A PE without elements in the range. *)
Lemma block_empty_range pe : distribution a = Block -> 0 <= pe < P -> cnt pe = 0 ->
  own 0 <= pe <= own (n - 1) -> boundary N P (pe + 1) = boundary N P pe.
Proof.
  intros D Hpe Hc Hle. destruct (block_between pe D Hpe) as (_ & B2 & B3 & B4 & _ & _).
  assert (pe <> own 0 /\ pe <> own (n - 1)) by (split; intros ->; lia).
  rewrite cnt_block in Hc by done. pose proof (bnd_succ N P a Hwf pe Hpe). lia.
Qed.

Lemma local_elements_spec pe : 0 <= pe < P ->
  (0 < cnt pe -> exists s,
     local_elements_for_range (at_pe a pe) index n
     = Done (Some ((phys (idx pe 0) * elem_size a, (phys (idx pe 0) + cnt pe) * elem_size a),
                   (s, s + cnt pe))))
  /\ (cnt pe = 0 ->
     local_elements_for_range (at_pe a pe) index n = Done None
     \/ exists lo s, local_elements_for_range (at_pe a pe) index n = Done (Some ((lo, lo), (s, s)))).
Proof.
  intros Hpe. pose proof n_usize. pose proof range_usize as Hu.
  pose proof (cnt_bound pe Hpe) as Hcb.
  unfold local_elements_for_range. change (my_pe (data (at_pe a pe))) with pe.
  change (distribution (at_pe a pe)) with (distribution a).
  change (expect_pe (at_pe a pe)) with (expect_pe a). rewrite expect_first.
  rewrite uadd_ok, usub_ok by lia. rewrite expect_last.
  destruct (distribution a) eqn:D.
  - unfold num_elems_local. change (my_pe (data (at_pe a pe))) with pe.
    rewrite (num_elems_pe_eq N P) by (done || by apply at_pe_wf). rewrite count_at_pe.
    destruct (block_between pe D Hpe) as (B1 & _).
    destruct (Z.ltb_spec (own (n - 1)) pe) as [Hgt|Hle]; cbn [orb].
    { split; [lia|]. by left. }
    destruct (Z.ltb_spec pe (own 0)) as [Hlt|Hge]. { split; [lia|]. by left. }
    destruct (block_range_of pe D Hpe ltac:(lia)) as (s & Hs0 & Hs & Ep & Est & Ek).
    rewrite Est. cbn [unwrap]. rewrite Ek.
    destruct (local_range_ok pe s (s + cnt pe) Hpe Hs0 ltac:(lia) ltac:(lia)) as (first & Ef & El).
    rewrite El. split.
    + intros Hc. exists s. enough (Efs : first + s = phys (idx pe 0)) by (by rewrite Z.add_assoc, Efs).
      assert (Hcount : 0 < count N P a pe) by lia.
      rewrite (local_slice_start N P a pe Hwf Hpe Hcount) in Ef. injection Ef as <-.
      destruct (index_of_local_spec N P a pe 0 Hwf Hpe ltac:(lia)) as (_ & Ho & _).
      rewrite (phys0_block D pe Hpe Hc). unfold physical. rewrite Ho, D.
      unfold index_of_local. rewrite D. f_equal; lia.
    + intros Hc. right. exists ((first + s) * elem_size a), s. rewrite Hc. by rewrite !Z.add_0_r.
  - pose proof num_pes_pos. assert (Enp : num_pes (data (at_pe a pe)) = P) by (destruct Hwf; done). rewrite Enp.
    rewrite cyclic_share_eq by done.
    set (d := ring_dist P (own 0) pe). pose proof (own_bound 0 ltac:(lia)) as Hob.
    pose proof (ring_dist_bound P (own 0) pe Hob Hpe) as Hd. fold d in Hd.
    assert (Eli : forall {A} (k : Z -> outcome A),
      (let! local_index :=
         if own 0 <=? pe then let! d := usub pe (own 0) in uadd index d
         else let! d := usub P (own 0) in let! d := uadd d pe in uadd index d in k local_index)
      = k (index + d)).
    { intros A k. assert (HPN : P <= N) by (destruct Hwf; lia). subst d. unfold ring_dist in *.
      destruct (Z.leb_spec (own 0) pe); rewrite usub_ok by lia; rewrite ?uadd_ok by lia; f_equal; lia. }
    rewrite Eli. rewrite udiv_ok by lia.
    destruct (Z.ltb_spec 0 (cnt pe)) as [Hc|Hc]; [|split; [lia|by left]].
    assert (Hid : idx pe 0 = d).
    { unfold idx, index_of_local. change (distribution view) with (distribution a). rewrite D.
      change (offset view) with g0. subst d. rewrite own_cyclic by done. rewrite Z.add_0_r. lia. }
    pose proof (idx_spec pe (cnt pe - 1) Hpe ltac:(lia)) as (Hlast & Holast & _).
    pose proof (idx_spec pe 0 Hpe ltac:(lia)) as (Hz0 & Ho0 & _). rewrite Hid in Hz0, Ho0.
    assert (Elast : idx pe (cnt pe - 1) = d + P * (cnt pe - 1)).
    { rewrite <- Hid. unfold idx, index_of_local. change (distribution view) with (distribution a). rewrite D. lia. }
    pose proof (Z.div_pos (index + d) P ltac:(lia) ltac:(lia)).
    pose proof (local_offset_bound N P a (index + idx pe (cnt pe - 1)) Hwf ltac:(lia)) as Hlo.
    rewrite Z.add_assoc in Hlo. change (owner N P a (g0 + idx pe (cnt pe - 1))) with (own (idx pe (cnt pe - 1))) in Hlo.
    rewrite Holast in Hlo. unfold local_offset in Hlo. rewrite D, Elast in Hlo.
    replace (index + (d + P * (cnt pe - 1))) with (index + d + (cnt pe - 1) * P) in Hlo by lia.
    rewrite Z.div_add in Hlo by lia.
    pose proof (count_bound N P a pe Hwf Hpe).
    rewrite uadd_ok by (destruct Hwf; lia).
    destruct (local_range_ok pe ((index + d) / P) ((index + d) / P + cnt pe) Hpe) as (first & Ef & El);
      [lia|lia|lia|].
    rewrite El. split; [|lia]. intros _. exists ((index + d) / P).
    enough (Efs : first + (index + d) / P = phys (idx pe 0)) by (by rewrite Z.add_assoc, Efs).
    rewrite (local_slice_start N P a pe Hwf Hpe ltac:(lia)) in Ef. injection Ef as <-.
    rewrite Hid. rewrite phys_cyclic by done. unfold physical, index_of_local. rewrite D.
    pose proof (proj1 (cyclic_index_iff P (offset a) (index + d) pe ltac:(lia) ltac:(lia) ltac:(lia) Hpe)) as Hci.
    rewrite <- Hci by (rewrite own_cyclic in Ho0 by done; by rewrite Z.add_assoc).
    pose proof (Z.div_mod (index + d) P ltac:(lia)) as Hdm.
    assert (E : (g0 + d) / P = (offset a + ((index + d) mod P + P * 0)) / P + (index + d) / P).
    { rewrite <- Z.div_add by lia. f_equal. lia. }
    rewrite E. f_equal; lia.
Qed.

Lemma num_elements_on_pe_spec pe : 0 <= pe < P ->
  exists o, num_elements_on_pe_for_range a pe index n = Done o /\ default 0 o = cnt pe.
Proof.
  intros Hpe. pose proof n_usize. pose proof range_usize. pose proof (cnt_bound pe Hpe).
  unfold num_elements_on_pe_for_range. rewrite expect_first, uadd_ok, usub_ok by lia. rewrite expect_last.
  destruct (distribution a) eqn:D.
  - rewrite (num_elems_pe_eq N P) by done. destruct (block_between pe D Hpe) as (B1 & _).
    destruct (Z.ltb_spec (own (n - 1)) pe) as [Hgt|Hle]; cbn [orb].
    { exists None. split; [done|]. cbn. lia. }
    destruct (Z.ltb_spec pe (own 0)) as [Hlt|Hge].
    { exists None. split; [done|]. cbn. lia. }
    destruct (block_range_of pe D Hpe ltac:(lia)) as (s & Hs0 & Hs & _ & Est & Ek).
    change (start_index_for_pe a pe) with (start_index_for_pe (at_pe a pe) pe). rewrite Est.
    cbn [unwrap]. rewrite Ek. rewrite usub_ok by lia. eexists. split; [reflexivity|]. cbn. lia.
  - assert (Enp : num_pes (data a) = P) by (destruct Hwf; done). rewrite Enp.
    rewrite cyclic_share_eq by done. eexists. split; [reflexivity|].
    destruct (Z.ltb_spec 0 (cnt pe)); cbn; lia.
Qed.

(** The PEs of the range, in the order the range visits them. *)
Lemma collect_pes_spec k i pes : Z.of_nat k + i = Z.min n P -> Z.of_nat (length pes) = i -> 0 <= i ->
  i < n -> (0 < k)%nat -> distribution a = Cyclic ->
  collect_pes P (seqZ (g0 + i) (n - i)) pes = Done (pes ++ (own <$> seqZ i (Z.of_nat k))).
Proof.
  intros Hk Hlen Hi Hin Hk0 C. pose proof num_pes_pos. revert i pes Hk Hlen Hi Hin.
  induction k as [|k IH]; intros i pes Hk Hlen Hi Hin; [lia|].
  rewrite seqZ_cons by lia. cbn [collect_pes]. rewrite urem_ok by lia.
  rewrite <- own_cyclic by done. rewrite length_app. cbn [length].
  rewrite (seqZ_cons i) by lia. replace (Z.pred (Z.of_nat (S k))) with (Z.of_nat k) by lia.
  cbn [fmap list_fmap]. replace (Z.succ (g0 + i)) with (g0 + Z.succ i) by lia.
  replace (Z.pred (n - i)) with (n - Z.succ i) by lia.
  destruct (Z.eqb_spec (Z.of_nat (length pes + 1)) P) as [E|E].
  - replace (Z.of_nat k) with 0 by lia. done.
  - destruct k as [|k'].
    + replace (n - Z.succ i) with 0 by lia. done.
    + rewrite IH by (rewrite ?length_app; cbn [length]; lia).
      rewrite <- app_assoc. done.
Qed.

Lemma pes_for_range_spec :
  exists pes, pes_for_range a index n = Done pes
    /\ pes = match distribution a with
             | Block => pe_range (own 0) (own (n - 1))
             | Cyclic => own <$> seqZ 0 (Z.min n P)
             end.
Proof.
  pose proof n_usize. pose proof range_usize. pose proof num_pes_pos. unfold pes_for_range.
  eexists. split; [|reflexivity]. destruct (distribution a) eqn:D.
  - pose proof expect_first as E0. pose proof expect_last as E1. unfold expect_pe in *.
    destruct (pe_for_dist_index a index) as [[p|]|]; try done. cbn [unwrap] in E0. injection E0 as ->.
    rewrite uadd_ok, usub_ok by lia.
    destruct (pe_for_dist_index a (index + n - 1)) as [[p'|]|]; try done. cbn [unwrap] in E1.
    by injection E1 as ->.
  - assert (Enp : num_pes (data a) = P) by (destruct Hwf; done). rewrite Enp.
    rewrite uadd_ok by lia. rewrite uadd_ok, usub_ok by lia.
    replace (g0 + n - 1 + 1 - g0) with (n - 0) by lia.
    pose proof (collect_pes_spec (Z.to_nat (Z.min n P)) 0 []) as E.
    replace (g0 + 0) with g0 in E by lia.
    rewrite E by (done || lia). cbn [app]. by rewrite Z2Nat.id by lia.
Qed.

(** ** The active messages *)

Lemma exec_put_spec b m0 dn m pe (d : Region V) :
  0 <= pe < P -> 0 < cnt pe -> cnt pe <= r_len d ->
  (forall o, 0 <= o < cnt pe -> r_at d o = b (idx pe o)) -> written b m0 dn m ->
  exists m', exec_put a pe index n d m = Done m' /\ written b m0 (pe :: dn) m'.
Proof.
  intros Hpe Hc Hl Hd Hw. destruct (local_elements_spec pe Hpe) as [Hle _].
  destruct (Hle Hc) as (s & E). unfold exec_put. rewrite E.
  pose proof (mw_elem _ _ _ Hmem) as Hes. rewrite !udiv_ok by lia.
  replace ((phys (idx pe 0) + cnt pe) * elem_size a - phys (idx pe 0) * elem_size a)
    with (cnt pe * elem_size a) by lia.
  rewrite !Z.div_mul by lia. unfold assert_. rewrite (proj2 (Z.leb_le _ _)) by lia.
  eexists. split; [reflexivity|]. by apply written_step.
Qed.

Lemma exec_remote_spec m pe : 0 <= pe < P ->
  exists d, exec_remote_small_get uninit a pe index n m = Done d /\ r_len d = cnt pe
    /\ (forall o, 0 <= o < cnt pe -> r_at d o = m pe (phys (idx pe 0) + o)).
Proof.
  intros Hpe. pose proof (cnt_bound pe Hpe). destruct (local_elements_spec pe Hpe) as [Hpos Hzero].
  unfold exec_remote_small_get. pose proof (mw_elem _ _ _ Hmem) as Hes.
  destruct (Z.eq_dec (cnt pe) 0) as [E|E].
  - destruct (Hzero E) as [E'|(lo & s & E')]; rewrite E'.
    + eexists. split; [reflexivity|]. split; [done|]. lia.
    + rewrite !udiv_ok by lia. eexists. split; [reflexivity|]. cbn. split; [|lia].
      by rewrite Z.sub_diag, Z.div_0_l by lia.
  - destruct (Hpos ltac:(lia)) as (s & E'). rewrite E'. rewrite !udiv_ok by lia.
    replace ((phys (idx pe 0) + cnt pe) * elem_size a - phys (idx pe 0) * elem_size a)
      with (cnt pe * elem_size a) by lia.
    rewrite !Z.div_mul by lia. eexists. split; [reflexivity|]. done.
Qed.

(** The put AMs that [block_op] and [cyclic_op] launch for the buffer [b]. *)
Definition am_dest (am : Am V) : Z :=
  match am with
  | UnsafePutAm dest _ _ _ | UnsafeSmallPutAm dest _ _ _ => dest
  | UnsafeBlockGetAm _ _ _ pe | UnsafeCyclicGetAm _ pe _ _ _ => pe
  end.

Definition good_put (b : Z -> V) (am : Am V) : Prop :=
  exists pe d, (am = UnsafePutAm pe index n d \/ am = UnsafeSmallPutAm pe index n d)
    /\ 0 <= pe < P /\ 0 < cnt pe /\ cnt pe <= r_len d
    /\ (forall o, 0 <= o < cnt pe -> r_at d o = b (idx pe o)).

Definition put_am_inv (st0 : St V) (dn : list Z) (st : St V) : Prop :=
  mem st = mem st0 /\ buf st = buf st0
  /\ exists ams, reqs st = reqs st0 ++ ams /\ Forall (good_put (r_at (buf st0))) ams
                 /\ dn ⊆ (am_dest <$> ams).

Lemma put_am_inv_push st0 dn st pe am :
  put_am_inv st0 dn st -> good_put (r_at (buf st0)) am -> am_dest am = pe ->
  put_am_inv st0 (pe :: dn) (push st am).
Proof.
  intros (Em & Eb & ams & Er & Hg & Hd) Ham <-. split; [done|]. split; [done|].
  exists (ams ++ [am]). split; [cbn; by rewrite Er, <- app_assoc|].
  split; [by apply Forall_app; split; [|constructor]|]. rewrite fmap_app. cbn. set_solver.
Qed.

Lemma internal_put_spec st0 : r_len (buf st0) = n -> n * elem_size a < USIZE ->
  exists st dn, internal_put uninit a index st0 = Done st /\ put_am_inv st0 dn st /\ covers dn.
Proof.
  intros Hl Hbytes. pose proof n_usize. pose proof (mw_elem _ _ _ Hmem).
  assert (Hlen : forall dn st, put_am_inv st0 dn st -> r_len (buf st) = n) by (by intros dn st (_ & -> & _)).
  assert (Hinit : put_am_inv st0 [] st0).
  { split; [done|]. split; [done|]. exists []. rewrite app_nil_r. split; [done|]. split; [done|set_solver]. }
  unfold internal_put, array_op. destruct (distribution a) eqn:D.
  - apply block_op_inv; [done|done| |done]. intros dn pe st Hpe Hc Hinv.
    destruct (idx_spec pe (cnt pe - 1) Hpe ltac:(lia)) as (Hlast & _).
    destruct (idx_spec pe 0 Hpe ltac:(lia)) as (Hz & _). rewrite idx_block in Hlast by done.
    pose proof Hinv as (_ & Eb & _).
    unfold block_body. rewrite Eb, uadd_ok, sub_region_ok, umul_ok by lia.
    eexists. split; [reflexivity|]. rewrite Hl.
    apply put_am_inv_push; [done| |by destruct (_ <? _)].
    eexists pe, _. split; [destruct (_ <? _); [left|right]; reflexivity|].
    split; [done|]. split; [done|]. split; [cbn; lia|]. intros o Ho. cbn. by rewrite (idx_block pe o D).
  - apply cyclic_op_inv; [done|done| |done|done]. intros dn i temp st Hi Hin Hinv Ht.
    pose proof (own_bound i ltac:(lia)) as Hpe. destruct (cnt_le_share D i Hi Hin) as [Hc _].
    pose proof Hinv as (_ & Eb & _).
    unfold cyclic_body. rewrite Eb, Hl, step_range_eq by done.
    destruct (gather_spec (buf st0) (idx (own i)) 0 (cnt (own i)) (fresh uninit (n / P + 1)))
      as (t & E & El & Ed & _); [cbn; lia..| |].
    { intros o Ho. rewrite Hl. apply idx_spec; [done|lia]. }
    rewrite E, umul_ok by lia. eexists _, _. split; [reflexivity|]. split; [done|].
    apply put_am_inv_push; [done| |by destruct (_ <? _)].
    eexists (own i), t. split; [destruct (_ <? _); [left|right]; reflexivity|].
    split; [done|]. split; [lia|]. split; [rewrite El; cbn; lia|]. intros o Ho. apply Ed. lia.
Qed.

(** Executing put AMs, in any order. *)
Lemma exec_puts_spec b m0 ams st dn :
  Forall (good_put b) ams -> written b m0 dn (mem st) ->
  exists st', exec_ams a ams st = Done st' /\ buf st' = buf st
    /\ written b m0 (reverse (am_dest <$> ams) ++ dn) (mem st').
Proof.
  intros Hg. revert st dn. induction Hg as [|am ams Ham Hg IH]; intros st dn Hw; cbn [exec_ams].
  - by exists st.
  - destruct Ham as (pe & d & Ham & Hpe & Hc & Hl & Hd).
    destruct (exec_put_spec b m0 dn (mem st) pe d Hpe Hc Hl Hd Hw) as (m' & E & Hw').
    assert (Ea : exec_am a am st = Done (set_mem st m')) by (destruct Ham as [-> | ->]; cbn; by rewrite E).
    assert (Ed : am_dest am = pe) by (by destruct Ham as [-> | ->]).
    rewrite Ea. destruct (IH (set_mem st m') (pe :: dn) Hw') as (st' & E' & Eb & Hw'').
    exists st'. split; [exact E'|]. split; [exact Eb|]. rewrite fmap_cons, reverse_cons, Ed, <- app_assoc. exact Hw''.
Qed.

(** The get AMs. *)
Definition good_get (am : Am V) : Prop :=
  (distribution a = Block /\ exists pe, 0 <= pe < P /\ 0 < cnt pe
     /\ am = UnsafeBlockGetAm (phys (idx pe 0)) (idx pe 0) (idx pe 0 + cnt pe) pe)
  \/ (distribution a = Cyclic /\ exists i, 0 <= i < P /\ i < n
     /\ am = UnsafeCyclicGetAm i (own i) P (phys i) (cnt (own i))).

Definition get_am_inv (st0 : St V) (dn : list Z) (st : St V) : Prop :=
  mem st = mem st0 /\ buf st = buf st0
  /\ exists ams, reqs st = reqs st0 ++ ams /\ Forall good_get ams /\ dn ⊆ (am_dest <$> ams).

Lemma get_am_inv_push st0 dn st pe am :
  get_am_inv st0 dn st -> good_get am -> am_dest am = pe -> get_am_inv st0 (pe :: dn) (push st am).
Proof.
  intros (Em & Eb & ams & Er & Hg & Hd) Ham <-. split; [done|]. split; [done|].
  exists (ams ++ [am]). split; [cbn; by rewrite Er, <- app_assoc|].
  split; [by apply Forall_app; split; [|constructor]|]. rewrite fmap_app. cbn. set_solver.
Qed.

Lemma launch_get_spec st0 : r_len (buf st0) = n ->
  exists st dn, array_op uninit a GetAm index st0 = Done st /\ get_am_inv st0 dn st /\ covers dn.
Proof.
  intros Hl. pose proof n_usize.
  assert (Hlen : forall dn st, get_am_inv st0 dn st -> r_len (buf st) = n) by (by intros dn st (_ & -> & _)).
  assert (Hinit : get_am_inv st0 [] st0).
  { split; [done|]. split; [done|]. exists []. rewrite app_nil_r. split; [done|]. split; [done|set_solver]. }
  unfold array_op. destruct (distribution a) eqn:D.
  - apply block_op_inv; [done|done| |done]. intros dn pe st Hpe Hc Hinv.
    destruct (idx_spec pe (cnt pe - 1) Hpe ltac:(lia)) as (Hlast & _).
    destruct (idx_spec pe 0 Hpe ltac:(lia)) as (Hz & _). rewrite idx_block in Hlast by done.
    pose proof Hinv as (_ & Eb & _).
    unfold block_body. rewrite Eb, uadd_ok, sub_region_ok by lia.
    eexists. split; [reflexivity|]. apply get_am_inv_push; [done| |done].
    left. split; [exact D|]. by exists pe.
  - apply cyclic_op_inv; [done|done| |done|done]. intros dn i temp st Hi Hin Hinv Ht.
    pose proof (own_bound i ltac:(lia)) as Hpe. destruct (cnt_le_share D i Hi Hin) as [Hc _].
    pose proof Hinv as (_ & Eb & _).
    unfold cyclic_body. rewrite Eb, Hl. rewrite num_elems_bind by done.
    rewrite sub_region_ok by (cbn; lia). eexists _, _. split; [reflexivity|]. split; [done|].
    apply get_am_inv_push; [done| |done]. right. split; [exact D|]. by exists i.
Qed.

Lemma exec_gets_spec b0 m ams st dn :
  Forall good_get ams -> mem st = m -> fetched b0 m dn (buf st) ->
  exists st', exec_ams a ams st = Done st' /\ mem st' = m
    /\ fetched b0 m (reverse (am_dest <$> ams) ++ dn) (buf st').
Proof.
  intros Hg. pose proof n_usize. revert st dn.
  induction Hg as [|am ams Ham Hg IH]; intros st dn Em Hf; cbn [exec_ams].
  - by exists st.
  - assert (Hstep : exists b', exec_am a am st = Done (set_buf st b') /\ fetched b0 m (am_dest am :: dn) b').
    { destruct Ham as [(D & pe & Hpe & Hc & ->)|(C & i & Hi & Hin & ->)]; cbn [exec_am am_dest].
      - rewrite usub_ok by lia. replace (idx pe 0 + cnt pe - idx pe 0) with (cnt pe) by lia.
        rewrite get_pe by done. eexists. split; [reflexivity|]. rewrite Em. by apply fetched_write.
      - pose proof (own_bound i ltac:(lia)) as Hpe. destruct (cnt_le_share C i Hi Hin) as [Hc _].
        pose proof (get_pe (mem st) (own i) Hpe ltac:(lia)) as Eg.
        rewrite idx_cyclic in Eg by done. replace (i + 0 * P) with i in Eg by lia. rewrite Eg.
        pose proof Hf as [Hlb _]. rewrite Hlb, step_range_eq by done.
        destruct (fetched_scatter b0 m dn (buf st)
          {| r_len := cnt (own i); r_at := fun k => mem st (own i) (phys i + k) |} i)
          as (b' & E & Hf'); [done|done|done|cbn; lia|cbn; lia| |exact Hf|].
        { intros o Ho. cbn. rewrite idx_cyclic, Em by done. by replace (i + 0 * P) with i by lia. }
        rewrite E. by exists b'. }
    destruct Hstep as (b' & E & Hf'). rewrite E.
    destruct (IH (set_buf st b') (am_dest am :: dn) Em Hf') as (st' & E' & Em' & Hf'').
    exists st'. split; [exact E'|]. split; [exact Em'|].
    rewrite fmap_cons, reverse_cons, <- app_assoc. exact Hf''.
Qed.

(** *** The AM for small buffers *)

Lemma fetched_skip b0 m dn b pe : 0 <= pe < P -> cnt pe = 0 -> fetched b0 m dn b -> fetched b0 m (pe :: dn) b.
Proof.
  intros Hpe Hc Hf. eapply (fetched_step _ _ _ b); [exact Hpe|lia|done|done|exact Hf].
Qed.

Lemma small_get_block_spec st0 k pe cur dn st :
  distribution a = Block ->
  pe + Z.of_nat k = own (n - 1) + 1 -> own 0 <= pe -> ((0 < k)%nat -> cur = idx pe 0) ->
  (forall j, 0 <= j < n -> own j < pe -> own j ∈ dn) -> get_inv st0 dn st ->
  exists st' dn', small_get_block uninit a index (seqZ pe (Z.of_nat k)) cur st = Done st'
    /\ get_inv st0 dn' st' /\ covers dn'.
Proof.
  intros D. pose proof n_usize. pose proof (own_bound (n - 1) ltac:(lia)) as Hlast.
  pose proof (own_bound 0 ltac:(lia)) as Hfirst.
  revert pe cur dn st. induction k as [|k IH]; intros pe cur dn st Hk Hpe Hcur Hdn (Em & Er & Hf).
  - cbn. exists st, dn. split; [done|]. split; [done|]. intros j Hj. apply Hdn; [done|].
    destruct (block_between (own j) D (own_bound j Hj)) as [B _].
    destruct (idx_surj j Hj) as (o & Ho & _). specialize (B ltac:(lia)). lia.
  - assert (HpeP : 0 <= pe < P) by lia. specialize (Hcur ltac:(lia)). pose proof (cnt_bound pe HpeP).
    rewrite seqZ_cons by lia. replace (Z.pred (Z.of_nat (S k))) with (Z.of_nat k) by lia.
    replace (Z.succ pe) with (pe + 1) by lia. cbn [small_get_block].
    pose proof Hf as [Hl _]. rewrite Hl.
    destruct (exec_remote_spec (mem st) pe HpeP) as (d & E & Eld & Ed). rewrite E.
    destruct (block_between pe D HpeP) as (B1 & B2 & B3 & B4 & B5 & B6).
    specialize (B5 ltac:(lia)). specialize (B6 ltac:(lia)).
    assert (Hfit : 0 <= cur /\ cur + cnt pe <= n).
    { rewrite Hcur, idx0_block, cnt_block by done. lia. }
    rewrite r_put_ok by lia. rewrite uadd_ok by lia. rewrite Eld.
    apply (IH (pe + 1) (cur + cnt pe) (pe :: dn)); [lia|lia| | |].
    + intros Hk'. rewrite Hcur, !idx0_block, cnt_block by done.
      specialize (B4 ltac:(lia)). pose proof (bnd_succ N P a Hwf pe HpeP). lia.
    + intros j Hj Hlt. destruct (decide (own j = pe)) as [->|Hne]; [left|]. right. apply Hdn; [done|lia].
    + split; [done|]. split; [done|]. cbn [set_buf buf]. rewrite Hcur.
      destruct (Z.eq_dec (cnt pe) 0) as [Ez|Ez].
      * apply fetched_skip; [done|done|]. destruct Hf as (F1 & F2 & F3). rewrite Ez in Eld.
        assert (Ew : forall j, r_at (r_write (buf st) (idx pe 0) d) j = r_at (buf st) j).
        { intros j. unfold r_write. cbn [r_at]. rewrite Eld.
          destruct (Z.leb_spec (idx pe 0) j); cbn [andb]; [|done]. by rewrite (proj2 (Z.ltb_ge _ _)) by lia. }
        split; [done|]. split; intros j Hj; [intros Hin; rewrite Ew; by apply F2|rewrite Ew; by apply F3].
      * apply fetched_write; [done|done|lia|done| |done]. intros o Ho. rewrite <- Em. by apply Ed.
Qed.

Lemma small_get_cyclic_spec st0 k i dn st :
  distribution a = Cyclic -> i + Z.of_nat k = Z.min n P -> 0 <= i ->
  (forall j, 0 <= j < i -> own j ∈ dn) -> get_inv st0 dn st ->
  exists st' dn', small_get_cyclic uninit a index (Z.min n P) (own <$> seqZ i (Z.of_nat k)) i st = Done st'
    /\ get_inv st0 dn' st' /\ (forall j, 0 <= j < Z.min n P -> own j ∈ dn').
Proof.
  intros C. pose proof n_usize. pose proof num_pes_pos.
  revert i dn st. induction k as [|k IH]; intros i dn st Hk Hi Hdn (Em & Er & Hf).
  - cbn. exists st, dn. split; [done|]. split; [done|]. intros j Hj. apply Hdn. lia.
  - rewrite seqZ_cons by lia. replace (Z.pred (Z.of_nat (S k))) with (Z.of_nat k) by lia.
    replace (Z.succ i) with (i + 1) by lia. cbn [fmap list_fmap small_get_cyclic].
    pose proof Hf as [Hl _]. rewrite Hl. pose proof (own_bound i ltac:(lia)) as Hpe.
    destruct (exec_remote_spec (mem st) (own i) Hpe) as (d & E & Eld & Ed). rewrite E.
    destruct (cnt_le_share C i ltac:(lia) ltac:(lia)) as [Hc Hc'].
    assert (Eidx : ((fun k0 => i + k0 * Z.min n P) <$> seqZ 0 (r_len d)) = idx (own i) <$> seqZ 0 (cnt (own i))).
    { rewrite Eld. apply list_fmap_ext. intros o x Hx. apply lookup_seqZ in Hx as [-> Hx].
      rewrite idx_cyclic by (done || lia).
      destruct (Z.le_gt_cases P n); [by rewrite Z.min_r by lia|].
      rewrite Z.mod_small, Z.div_small in Hc' by lia. rewrite (proj2 (Z.ltb_lt _ _)) in Hc' by lia.
      replace (0 + Z.of_nat o) with 0 by lia. lia. }
    rewrite Eidx.
    destruct (fetched_scatter (buf st0) (mem st0) dn (buf st) d i) as (b' & E' & Hf');
      [done|lia|lia|lia|lia|intros o Ho; rewrite <- Em; by apply Ed|exact Hf|].
    rewrite E', uadd_ok by (destruct Hwf; lia).
    apply (IH (i + 1) (own i :: dn)); [lia|lia| |by split].
    intros j Hj. destruct (Z.eq_dec j i) as [->|]; [left|]. right. apply Hdn. lia.
Qed.

Lemma small_get_spec st0 : r_len (buf st0) = n ->
  exists st dn, exec_init_small_get uninit a index st0 = Done st /\ get_inv st0 dn st /\ covers dn.
Proof.
  intros Hl. pose proof n_usize. pose proof num_pes_pos. unfold exec_init_small_get. rewrite Hl.
  destruct pes_for_range_spec as (pes & E & Ep). rewrite E.
  assert (Hinit : get_inv st0 [] st0) by (split; [done|split; [done|by apply fetched_nil]]).
  destruct (distribution a) eqn:D; subst pes.
  - unfold pe_range. pose proof (own_bound (n - 1) ltac:(lia)). pose proof (own_bound 0 ltac:(lia)).
    destruct (block_between (own 0) D ltac:(lia)) as (B1 & B2 & _). specialize (B2 ltac:(by left)).
    specialize (B1 B2). rewrite <- (Z2Nat.id (own (n - 1) + 1 - own 0)) by lia.
    apply (small_get_block_spec st0 _ _ _ []); [done|lia|lia| | |done].
    + intros _. pose proof (own_block D 0 ltac:(lia)). rewrite idx0_block by done. lia.
    + intros j Hj Hlt. exfalso. destruct (block_between (own j) D (own_bound j Hj)) as [B _].
      destruct (idx_surj j Hj) as (o & Ho & _). specialize (B ltac:(lia)). lia.
  - rewrite length_fmap, length_seqZ, Z2Nat.id by lia.
    destruct (small_get_cyclic_spec st0 (Z.to_nat (Z.min n P)) 0 [] st0) as (st & dn & Es & Hinv & Hd);
      [done|lia|lia|intros; lia|done|].
    rewrite Z2Nat.id in Es by lia. exists st, dn. split; [exact Es|]. split; [exact Hinv|].
    intros j Hj. destruct (own_small D j Hj) as (i & Hi & ->). by apply Hd.
Qed.
End Spec.

(** ** Properties *)

Section Properties.
Context {V : Type} (uninit : Z -> V).

(** The range [index..index + n] of an array with its layout and memory. *)
Record range_ok (N P : Z) (a : UnsafeArrayInner) (index n : Z) : Prop := {
  ro_layout : layout_wf N P a;
  ro_mem : mem_wf N P a;
  ro_index : 0 <= index;
  ro_n : 0 < n;
  ro_range : index + n <= size a;
}.

Lemma cell_own N P a index n i : range_ok N P a index n -> 0 <= i < n ->
  cell a (index + i) = Done (Some (own N P a index i, phys N P a index i)).
Proof.
  intros [] Hi. rewrite (cell_eq N P) by (done || lia). unfold own, phys. by rewrite Z.add_assoc.
Qed.

Lemma covers_written N P a index n (b : Z -> V) (m0 : Mem V) dn (m : Mem V) : range_ok N P a index n ->
  written N P a index n b m0 dn m -> covers N P a index n dn ->
  (forall i pe k, 0 <= i < n -> cell a (index + i) = Done (Some (pe, k)) -> m pe k = b i)
  /\ (forall pe k, (forall i, 0 <= i < n -> cell a (index + i) <> Done (Some (pe, k))) -> m pe k = m0 pe k).
Proof.
  intros Hok [W1 W2] Hc. split.
  - intros i pe k Hi E. rewrite (cell_own N P a index n) in E by done. injection E as <- <-. auto.
  - intros pe k Hno. apply W2. intros j Hj _ E. apply (Hno j Hj).
    rewrite (cell_own N P a index n) by done. by rewrite E.
Qed.

Lemma covers_fetched N P a index n (b0 : Region V) (m : Mem V) dn (b : Region V) : range_ok N P a index n ->
  fetched N P a index n b0 m dn b -> covers N P a index n dn ->
  r_len b = n
  /\ forall i, 0 <= i < n -> exists pe k, cell a (index + i) = Done (Some (pe, k)) /\ r_at b i = m pe k.
Proof.
  intros Hok (F1 & F2 & _) Hc. split; [done|]. intros i Hi.
  exists (own N P a index i), (phys N P a index i). rewrite (cell_own N P a index n) by done.
  split; [done|]. auto.
Qed.

(** C22: on an array whose team is the world, [put_unchecked] writes the buffer to exactly the cells of the elements
    [index..index + len] of the (sub)array, on whatever PEs they are, and nothing else. *)
Theorem put_unchecked_writes N P a (st : St V) index :
  range_ok N P a index (r_len (buf st)) ->
  exists st', put_unchecked uninit a index st = Done st' /\ buf st' = buf st
    /\ (forall i pe k, 0 <= i < r_len (buf st) -> cell a (index + i) = Done (Some (pe, k)) ->
          mem st' pe k = r_at (buf st) i)
    /\ (forall pe k, (forall i, 0 <= i < r_len (buf st) -> cell a (index + i) <> Done (Some (pe, k))) ->
          mem st' pe k = mem st pe k).
Proof.
  intros Hok. pose proof Hok as [].
  destruct (put_spec uninit N P a index (r_len (buf st)) ro_layout0 ro_mem0 ro_index0 ro_n0 ro_range0 st eq_refl)
    as (st' & dn & E & (Eb & _ & Hw) & Hc).
  exists st'. split; [exact E|]. split; [exact Eb|]. by eapply covers_written.
Qed.

(** [blocking_get] (and [get_unchecked] on a block array) fills the buffer with the elements
    [index..index + len] of the (sub)array and changes no array memory. *)
Theorem blocking_get_reads N P a (st : St V) index imm :
  range_ok N P a index (r_len (buf st)) -> imm = true \/ distribution a = Block ->
  exists st', array_op uninit a (Get imm) index st = Done st' /\ mem st' = mem st
    /\ r_len (buf st') = r_len (buf st)
    /\ forall i, 0 <= i < r_len (buf st) ->
         exists pe k, cell a (index + i) = Done (Some (pe, k)) /\ r_at (buf st') i = mem st pe k.
Proof.
  intros Hok Himm. pose proof Hok as [].
  destruct (get_spec uninit N P a index (r_len (buf st)) ro_layout0 ro_mem0 ro_index0 ro_n0 ro_range0
              imm st eq_refl Himm) as (st' & dn & E & (Em & _ & Hf) & Hc).
  exists st'. split; [exact E|]. split; [exact Em|]. by eapply covers_fetched.
Qed.

(** [internal_get], through one small-buffer message or through get messages executed in any
    order, fills the buffer with the elements of its range. *)
Lemma internal_get_reads N P a (st : St V) index :
  range_ok N P a index (r_len (buf st)) -> r_len (buf st) * elem_size a < USIZE -> reqs st = [] ->
  exists st1, internal_get uninit a index st = Done st1 /\ forall gets, gets ≡ₚ reqs st1 ->
    exists st2, exec_ams a gets st1 = Done st2 /\ mem st2 = mem st /\ r_len (buf st2) = r_len (buf st)
      /\ forall i, 0 <= i < r_len (buf st) ->
           exists pe k, cell a (index + i) = Done (Some (pe, k)) /\ r_at (buf st2) i = mem st pe k.
Proof.
  intros Hok Hbytes Hr. pose proof Hok as []. set (n := r_len (buf st)) in *.
  unfold internal_get. fold n. rewrite umul_ok by lia.
  destruct (BATCH_AM_SIZE <? n * elem_size a).
  - destruct (launch_get_spec uninit N P a index n ro_layout0 ro_mem0 ro_index0 ro_n0 ro_range0 st eq_refl)
      as (st1 & dn & E & (Em & Eb & gets0 & Er & Hg & Hd) & Hc).
    exists st1. split; [exact E|]. intros gets Hgets. rewrite Hr in Er. cbn in Er. rewrite Er in Hgets.
    rewrite <- Hgets in Hg.
    destruct (exec_gets_spec N P a index n ro_layout0 ro_mem0 ro_index0 ro_n0 ro_range0
                (buf st) (mem st) gets st1 [] Hg Em) as (st2 & E2 & Em2 & Hf); [rewrite Eb; by apply fetched_nil|].
    exists st2. split; [exact E2|]. split; [exact Em2|]. apply (covers_fetched N P a index n _ _ _ _ Hok Hf).
    intros j Hj. rewrite app_nil_r, elem_of_reverse, Hgets. apply Hd, Hc, Hj.
  - destruct (small_get_spec uninit N P a index n ro_layout0 ro_mem0 ro_index0 ro_n0 ro_range0 st eq_refl)
      as (st1 & dn & E & (Em & Er & Hf) & Hc).
    exists st1. split; [exact E|]. intros gets Hgets. rewrite Er, Hr in Hgets.
    apply Permutation_nil_r in Hgets as ->. exists st1. split; [done|]. split; [exact Em|].
    by apply (covers_fetched N P a index n _ _ _ _ Hok Hf).
Qed.

(** C16: on an array whose team is the world, [internal_put] launches active messages that, executed in any order, write exactly what
    [put_unchecked] writes; [internal_get] afterwards, whether through one small-buffer
    message or through get messages executed in any order, returns the data put. *)
Theorem am_put_get_roundtrip N P a (st : St V) index (b' : Region V) :
  range_ok N P a index (r_len (buf st)) -> r_len (buf st) * elem_size a < USIZE ->
  reqs st = [] -> r_len b' = r_len (buf st) ->
  exists st1, internal_put uninit a index st = Done st1 /\ mem st1 = mem st
    /\ forall ams, ams ≡ₚ reqs st1 ->
       exists st2, exec_ams a ams st1 = Done st2
         /\ (forall i pe k, 0 <= i < r_len (buf st) -> cell a (index + i) = Done (Some (pe, k)) ->
               mem st2 pe k = r_at (buf st) i)
         /\ (forall pe k, (forall i, 0 <= i < r_len (buf st) -> cell a (index + i) <> Done (Some (pe, k))) ->
               mem st2 pe k = mem st pe k)
         /\ exists st3, internal_get uninit a index {| mem := mem st2; buf := b'; reqs := [] |} = Done st3
            /\ forall gets, gets ≡ₚ reqs st3 ->
               exists st4, exec_ams a gets st3 = Done st4
                 /\ forall i, 0 <= i < r_len (buf st) -> r_at (buf st4) i = r_at (buf st) i.
Proof.
  intros Hok Hbytes Hr Hb'. pose proof Hok as []. set (n := r_len (buf st)) in *.
  destruct (internal_put_spec uninit N P a index n ro_layout0 ro_mem0 ro_index0 ro_n0 ro_range0 st eq_refl Hbytes)
    as (st1 & dn & E & (Em & Eb & ams0 & Er & Hg & Hd) & Hc).
  exists st1. split; [exact E|]. split; [exact Em|]. intros ams Hams.
  rewrite Hr in Er. cbn in Er. rewrite Er in Hams. rewrite <- Hams in Hg.
  destruct (exec_puts_spec N P a index n ro_layout0 ro_mem0 ro_index0 ro_n0 ro_range0
              (r_at (buf st)) (mem st) ams st1 [] Hg) as (st2 & E2 & _ & Hw).
  { rewrite Em. apply written_nil. }
  assert (Hc2 : covers N P a index n (reverse (am_dest <$> ams) ++ [])).
  { intros j Hj. rewrite app_nil_r, elem_of_reverse, Hams. apply Hd, Hc, Hj. }
  destruct (covers_written N P a index n _ _ _ _ Hok Hw Hc2) as [W1 W2].
  exists st2. split; [exact E2|]. split; [exact W1|]. split; [exact W2|].
  destruct (internal_get_reads N P a {| mem := mem st2; buf := b'; reqs := [] |} index) as (st3 & E3 & H3);
    [cbn; by rewrite Hb'|cbn; by rewrite Hb'|done|].
  exists st3. split; [exact E3|]. intros gets Hgets. destruct (H3 gets Hgets) as (st4 & E4 & _ & _ & F).
  exists st4. split; [exact E4|]. cbn in F. rewrite Hb' in F. intros i Hi.
  destruct (F i Hi) as (pe & k & Ec & ->). by apply W1.
Qed.

(** The elements of a range on the first [k] PEs, as the range query counts them. *)
Fixpoint total_in_range (a : UnsafeArrayInner) (index n : Z) (k : nat) : outcome Z :=
  match k with
  | O => Done 0
  | S k' =>
      let! t := total_in_range a index n k' in
      let! o := num_elements_on_pe_for_range a (Z.of_nat k') index n in
      Done (t + default 0 o)
  end.

(** The range queries partition a range: the counts of [num_elements_on_pe_for_range] add up
    to its length, [pes_for_range] lists every PE that has an element of it, and
    [local_elements_for_range] on a PE is a slice of that many elements. *)
Theorem range_queries_partition N P a index n :
  range_ok N P a index n ->
  total_in_range a index n (Z.to_nat P) = Done n
  /\ (exists pes, pes_for_range a index n = Done pes
       /\ forall i pe k, 0 <= i < n -> cell a (index + i) = Done (Some (pe, k)) -> pe ∈ pes)
  /\ (forall pe o, 0 <= pe < P -> num_elements_on_pe_for_range a pe index n = Done o ->
       exists r, local_elements_for_range (at_pe a pe) index n = Done r
         /\ match r with
            | Some ((lo, hi), (s, e)) => e - s = default 0 o /\ hi - lo = default 0 o * elem_size a
            | None => default 0 o = 0
            end).
Proof.
  intros Hok. pose proof Hok as [Hwf Hmem Hi Hn Hr].
  pose proof (view_wf N P a index n Hwf Hi Hn Hr) as Hv. split; [|split].
  - assert (E : forall k, Z.of_nat k <= P ->
      total_in_range a index n k = total_elems (view a index n) k).
    { induction k as [|k IH]; intros Hk; [done|]. cbn [total_in_range total_elems]. rewrite IH by lia.
      destruct (num_elements_on_pe_spec N P a index n Hwf Hi Hn Hr (Z.of_nat k) ltac:(lia)) as (o & Eo & Ed).
      rewrite Eo, (num_elems_pe_eq N P) by (done || lia). unfold cnt in Ed. by rewrite Ed. }
    destruct Hwf. rewrite E by lia. by rewrite (total_elems_size N P _ Hv).
  - destruct (pes_for_range_spec N P a index n Hwf Hi Hn Hr) as (pes & E & Ep). exists pes. split; [exact E|].
    intros i pe k Hin Ec. rewrite (cell_own N P a index n) in Ec by done. injection Ec as <- _. subst pes.
    destruct (distribution a) eqn:D.
    + unfold pe_range. apply elem_of_seqZ.
      destruct (block_between N P a index n Hwf Hi Hn Hr _ D (own_bound N P a index n Hwf Hi Hr i Hin)) as [B _].
      destruct (idx_surj N P a index n Hwf Hi Hn Hr i Hin) as (o & Ho & _). specialize (B ltac:(lia)). lia.
    + destruct (own_small N P a index n Hwf D i Hin) as (i' & Hi' & ->).
      apply list_elem_of_fmap. exists i'. split; [done|]. apply elem_of_seqZ. lia.
  - intros pe o Hpe Eo.
    destruct (num_elements_on_pe_spec N P a index n Hwf Hi Hn Hr pe Hpe) as (o' & Eo' & Ed).
    rewrite Eo in Eo'. injection Eo' as <-. rewrite Ed.
    destruct (local_elements_spec N P a index n Hwf Hmem Hi Hn Hr pe Hpe) as [Hpos Hzero].
    pose proof (cnt_bound N P a index n Hwf Hi Hn Hr pe Hpe).
    destruct (Z.eq_dec (cnt N P a index n pe) 0) as [E|E].
    + rewrite E. destruct (Hzero E) as [->|(lo & s & ->)]; eexists; (split; [reflexivity|]); cbn; lia.
    + destruct (Hpos ltac:(lia)) as (s & ->). eexists. split; [reflexivity|]. cbn. lia.
Qed.
End Properties.

(** *** Concrete transfers: 7 elements into [ex_block] from index 2 (over all four PEs), and
    into the cyclic sub-array [ex_cyclic] *)
Definition ex_st : St Z :=
  {| mem := fun p k => 1000 + p * 100 + k; buf := {| r_len := 7; r_at := fun k => k |}; reqs := [] |}.
Abbreviation ex_uninit := (fun _ : Z => 77).
Definition ex_show (st : St Z) : list (list Z) := (fun p => map (mem st p) [0; 1; 2]) <$> [0; 1; 2; 3].
Definition ex_show_buf (st : St Z) : list Z := map (r_at (buf st)) [0; 1; 2; 3; 4; 5; 6].

Lemma ex_block_range : range_ok 10 4 ex_block 2 7.
Proof.
  constructor; [exact ex_block_wf|constructor; (reflexivity || (cbn; lia))|lia|lia|cbn; lia].
Qed.

Lemma ex_cyclic_range : range_ok 10 4 ex_cyclic 0 7.
Proof.
  constructor; [exact ex_cyclic_wf|constructor; (reflexivity || (cbn; lia))|lia|lia|cbn; lia].
Qed.

Lemma put_unchecked_writes_witness :
  exists st', put_unchecked ex_uninit ex_block 2 ex_st = Done st'
    /\ ex_show st' = [[1000; 1001; 0]; [1; 2; 1102]; [3; 4; 5]; [6; 1301; 1302]].
Proof.
  destruct (put_unchecked_writes ex_uninit 10 4 ex_block ex_st 2 ex_block_range) as (st' & E & _).
  exists st'. split; [exact E|].
  assert (Hc : match put_unchecked ex_uninit ex_block 2 ex_st with Done st => ex_show st | Panic => [] end
    = [[1000; 1001; 0]; [1; 2; 1102]; [3; 4; 5]; [6; 1301; 1302]]) by (vm_compute; reflexivity).
  rewrite E in Hc. exact Hc.
Defined.

Lemma blocking_get_reads_witness :
  exists st', array_op ex_uninit ex_cyclic (Get true) 0 ex_st = Done st'
    /\ ex_show_buf st' = [1100; 1200; 1300; 1001; 1101; 1201; 1301].
Proof.
  destruct (blocking_get_reads ex_uninit 10 4 ex_cyclic ex_st 0 true ex_cyclic_range (or_introl eq_refl))
    as (st' & E & _).
  exists st'. split; [exact E|].
  assert (Hc : match array_op ex_uninit ex_cyclic (Get true) 0 ex_st with Done st => ex_show_buf st | Panic => [] end
    = [1100; 1200; 1300; 1001; 1101; 1201; 1301]) by (vm_compute; reflexivity).
  rewrite E in Hc. exact Hc.
Defined.

Lemma am_put_get_roundtrip_witness :
  exists st1 st2, internal_put ex_uninit ex_cyclic 0 ex_st = Done st1
    /\ exec_ams ex_cyclic (reverse (reqs st1)) st1 = Done st2 /\ length (reqs st1) = 4%nat
    /\ ex_show st2 = [[1000; 3; 1002]; [0; 4; 1102]; [1; 5; 1202]; [2; 6; 1302]].
Proof.
  destruct (am_put_get_roundtrip ex_uninit 10 4 ex_cyclic ex_st 0 {| r_len := 7; r_at := fun _ => 0 |}
              ex_cyclic_range ltac:(cbn; lia) eq_refl eq_refl) as (st1 & E & _ & H).
  destruct (H (reverse (reqs st1)) (reverse_Permutation _)) as (st2 & E2 & _).
  exists st1, st2. split; [exact E|]. split; [exact E2|].
  assert (Hc : match internal_put ex_uninit ex_cyclic 0 ex_st with
    | Done s1 => match exec_ams ex_cyclic (reverse (reqs s1)) s1 with
                 | Done s2 => (length (reqs s1), ex_show s2)
                 | Panic => (0%nat, [])
                 end
    | Panic => (0%nat, [])
    end = (4%nat, [[1000; 3; 1002]; [0; 4; 1102]; [1; 5; 1202]; [2; 6; 1302]])) by (vm_compute; reflexivity).
  rewrite E, E2 in Hc.
  split; [exact (f_equal fst Hc)|exact (f_equal snd Hc)].
Defined.

Lemma range_queries_partition_witness :
  total_in_range ex_block 2 7 4 = Done 7 /\ total_in_range ex_cyclic 0 7 4 = Done 7.
Proof.
  destruct (range_queries_partition 10 4 ex_block 2 7 ex_block_range) as [E1 _].
  destruct (range_queries_partition 10 4 ex_cyclic 0 7 ex_cyclic_range) as [E2 _].
  split; [exact E1|exact E2].
Defined.

(** [get_unchecked] on a cyclic sub-array ignores where the sub-array starts: it reads element
    [i] of the whole array instead of element [i] of the sub-array, unlike [blocking_get]. *)
Theorem get_unchecked_cyclic_wrong :
  (exists st, get_unchecked ex_uninit ex_cyclic 0 ex_st = Done st
     /\ ex_show_buf st = [1000; 1100; 1200; 1300; 1001; 1101; 1201])
  /\ (exists st, blocking_get ex_uninit ex_cyclic 0 ex_st = Done st
     /\ ex_show_buf st = [1100; 1200; 1300; 1001; 1101; 1201; 1301])
  /\ cell ex_cyclic 0 = Done (Some (1, 0)).
Proof.
  split; [|split; [|vm_compute; reflexivity]];
    (eexists; split; [reflexivity|vm_compute; reflexivity]).
Qed.
