(* ===== verification/Barrier.v ===== *)
(** * Barrier: the dissemination barrier

    Models [src/barrier.rs].  The PEs of a team run [barrier_internal] concurrently; a PE's
    position in its two nested loops is its program counter, and every iteration of the inner
    loops is one atomic step.  A put of a barrier id travels through the network and is
    delivered later; [fifo] tells whether puts to one location arrive in the order sent. *)

From stdpp Require Import base list numbers relations sets.
From Stdlib Require Import ZArith QArith Qround Lia.
From S2P Require Import Prelude F64.
Local Open Scope Z_scope.

(** ** [Barrier::new]: the dissemination factor and the number of rounds *)
Section New.
(** [f64::log2], whose accuracy the platform determines. *)
Variable log2 : Q -> Q.

Definition DISSEMINATION_FACTOR : Z := 2.

(** [env]: the value of [LAMELLAR_BARRIER_DISSEMNATION_FACTOR], when it is set. *)
Definition new_rounds (env : option Z) (num_pes : Z) : Z * Z :=
  let n := default DISSEMINATION_FACTOR env in
  if (1 <? n) && (2 <? num_pes)
  then (n, as_usize (f64_ceil (f64_div (log2 (f64_of_usize num_pes)) (log2 (f64_of_usize n)))))
  else (1, as_usize (Qfloor (log2 (f64_of_usize num_pes)))).
End New.

(** ** The loops of [barrier_internal] *)

(** [usize::pow] *)
Definition upow (b e : Z) : outcome Z := if b ^ e <? USIZE then Done (b ^ e) else Panic.
(** [isize] multiplication *)
Definition imul (a b : Z) : outcome Z :=
  if (-9223372036854775808 <=? a * b) && (a * b <? 9223372036854775808) then Done (a * b) else Panic.
Definition ipow (b e : Z) : outcome Z :=
  if b ^ e <? 9223372036854775808 then Done (b ^ e) else Panic.

Section Barrier.
Context (num_pes n num_rounds : Z) (fifo : bool).

Definition team_send_pe (my_index i round : Z) : outcome Z :=
  let! b := uadd n 1 in
  let! p := upow b round in
  let! d := umul i p in
  let! s := uadd my_index d in
  urem s num_pes.

Definition team_recv_pe (my_index i round : Z) : outcome Z :=
  let! p := ipow (n + 1) round in
  let! d := imul i p in
  let! s := isub my_index d in
  if num_pes =? 0 then Panic else Done (s mod num_pes).

(** Where a PE is: outside, or in the barrier [id] at iteration [i] of the sending or the
    receiving loop of [round]. *)
Inductive Pc :=
| Outside
| Sending (id round i : Z)
| Receiving (id round i : Z).

(** A put of [id] to [barrier_buf[slot][round]] of PE [dest]. *)
Record Msg := { dest : Z; slot : Z; mround : Z; mid : Z }.

Record Sys := {
  panic : Z -> Z;
  barrier_cnt : Z -> Z;
  pc : Z -> Pc;
  barrier_buf : Z -> Z -> Z -> Z;    (* PE, slot, round *)
  net : list Msg;
}.

Definition init : Sys :=
  {| panic := fun _ => 0; barrier_cnt := fun _ => 1; pc := fun _ => Outside; barrier_buf := fun _ _ _ => 0; net := [] |}.


(** The program counter after an iteration of a loop. *)
Definition enter_round (id round : Z) : Pc :=
  if round <? num_rounds then (if 1 <=? n then Sending id round 1 else Outside) else Outside.
Definition after_send (id round i : Z) : Pc :=
  if i <? n then Sending id round (i + 1) else Receiving id round 1.
Definition after_recv (id round i : Z) : Pc :=
  if i <? n then Receiving id round (i + 1) else enter_round id (round + 1).

Definition set_pc (s : Sys) (p : Z) (c : Pc) : Sys :=
  {| panic := panic s; barrier_cnt := barrier_cnt s; pc := upd (pc s) p c;
     barrier_buf := barrier_buf s; net := net s |}.

(** The guards of [barrier_internal] (the panic flag; [send_buf] is [None] in a team of one
    PE), [barrier_id = barrier_cnt.fetch_add(1)] and the start of the loops. *)
Definition do_enter (s : Sys) (p : Z) : Sys :=
  if (panic s p =? 0) && (1 <? num_pes)
  then {| panic := panic s; barrier_cnt := upd (barrier_cnt s) p (wadd (barrier_cnt s p) 1);
          pc := upd (pc s) p (enter_round (barrier_cnt s p) 0);
          barrier_buf := barrier_buf s; net := net s |}
  else s.

(** One iteration of the sending loop. *)
Definition do_send (s : Sys) (p id round i : Z) : outcome Sys :=
  let! t := team_send_pe p i round in
  let s' := set_pc s p (after_send id round i) in
  Done (if negb (t =? p)
        then {| panic := panic s'; barrier_cnt := barrier_cnt s'; pc := pc s';
                barrier_buf := barrier_buf s'; net := net s' ++ [{| dest := t; slot := i - 1; mround := round; mid := id |}] |}
        else s').

(** One iteration of the receiving loop; [None] while the PE waits. *)
Definition do_recv (s : Sys) (p id round i : Z) : outcome (option Sys) :=
  let! q := team_recv_pe p i round in
  Done (if negb (q =? p) && (barrier_buf s p (i - 1) round <? id)
        then None
        else Some (set_pc s p (after_recv id round i))).

Definition same_slot (m m' : Msg) : Prop :=
  dest m = dest m' /\ slot m = slot m' /\ mround m = mround m'.

Definition do_deliver (s : Sys) (m : Msg) (net' : list Msg) : Sys :=
  {| panic := panic s; barrier_cnt := barrier_cnt s; pc := pc s;
     barrier_buf := upd (barrier_buf s) (dest m)
                      (upd (barrier_buf s (dest m)) (slot m)
                         (upd (barrier_buf s (dest m) (slot m)) (mround m) (mid m)));
     net := net' |}.

(** Steps of a PE inside a barrier, and of the network. *)
Inductive istep : Sys -> Sys -> Prop :=
| step_send s s' p id round i :
    0 <= p < num_pes -> pc s p = Sending id round i -> do_send s p id round i = Done s' -> istep s s'
| step_recv s s' p id round i :
    0 <= p < num_pes -> pc s p = Receiving id round i ->
    do_recv s p id round i = Done (Some s') -> istep s s'
| step_deliver s m l1 l2 :
    net s = l1 ++ m :: l2 -> (fifo = true -> Forall (fun m' => ~ same_slot m' m) l1) ->
    istep s (do_deliver s m (l1 ++ l2)).

(** The steps of the system: a PE that is not in the barrier calls it (executions of fewer
    than [2^64 - 1] barriers are considered, so that [barrier_cnt] does not wrap), or the
    runtime raises the panic flag of a PE. *)
Inductive step : Sys -> Sys -> Prop :=
| step_enter s p :
    0 <= p < num_pes -> pc s p = Outside -> barrier_cnt s p + 1 < USIZE -> step s (do_enter s p)
| step_panic s p v :
    step s {| panic := upd (panic s) p v; barrier_cnt := barrier_cnt s; pc := pc s;
              barrier_buf := barrier_buf s; net := net s |}
| step_inside s s' : istep s s' -> step s s'.

Definition reachable (s : Sys) : Prop := rtc step init s.

(** ** Safety: no PE leaves a barrier before every PE has entered it *)

(** The PEs at the [D] positions below [p] have entered barrier [id]. *)
Definition heard (s : Sys) (p id D : Z) : Prop :=
  forall d, 0 <= d < D -> id < barrier_cnt s ((p - d) mod num_pes).

Definition pc_ok (s : Sys) (p : Z) : Prop :=
  match pc s p with
  | Outside => heard s p (barrier_cnt s p - 1) num_pes
  | Sending id r i =>
      0 <= r < num_rounds /\ 1 <= i <= n /\ barrier_cnt s p = id + 1 /\ heard s p id ((n + 1) ^ r)
  | Receiving id r i =>
      0 <= r < num_rounds /\ 1 <= i <= n /\ barrier_cnt s p = id + 1 /\
      heard s p id (i * (n + 1) ^ r)
  end.

(** A value for slot [(p, i - 1, r)] tells that its sender had heard from [(n + 1) ^ r] PEs. *)
Definition val_ok (s : Sys) (p sl r v : Z) : Prop :=
  heard s (p - (sl + 1) * (n + 1) ^ r) v ((n + 1) ^ r).

Record safe (s : Sys) : Prop := {
  safe_pc : forall p, 0 <= p < num_pes -> pc_ok s p;
  safe_buf : forall p sl r, val_ok s p sl r (barrier_buf s p sl r);
  safe_net : Forall (fun m => val_ok s (dest m) (slot m) (mround m) (mid m)) (net s);
  safe_cnt : forall p, 1 <= barrier_cnt s p;
  safe_prev : forall p, 0 <= p < num_pes -> heard s p (barrier_cnt s p - 2) num_pes;
}.

Context (Hn : 1 <= n) (HP : 1 <= num_pes) (HR : num_pes <= (n + 1) ^ num_rounds).

Lemma heard_mono s s' p id id' D D' :
  (forall q, barrier_cnt s q <= barrier_cnt s' q) -> id' <= id -> D' <= D ->
  heard s p id D -> heard s' p id' D'.
Proof.
  intros Hc Hi HD H d Hd. specialize (Hc ((p - d) mod num_pes)). specialize (H d ltac:(lia)). lia.
Qed.

Lemma heard_mod s p q id D :
  p mod num_pes = q mod num_pes -> heard s p id D -> heard s q id D.
Proof.
  intros E H d Hd. rewrite Zminus_mod, <- E, <- Zminus_mod. by apply H.
Qed.

(** What a PE has heard and what the PE [D] positions below it has heard. *)
Lemma heard_app s p id D D' :
  heard s p id D -> heard s (p - D) id D' -> heard s p id (D + D').
Proof.
  intros H1 H2 d Hd. destruct (decide (d < D)); [apply H1; lia|].
  replace (p - d) with (p - D - (d - D)) by lia. apply H2. lia.
Qed.

(** Positions wrap around: to have heard from [D >= num_pes] is to have heard from all. *)
Lemma heard_all s p id D q :
  num_pes <= D -> heard s p id D -> 0 <= q < num_pes -> id < barrier_cnt s q.
Proof.
  intros HD H Hq. specialize (H ((p - q) mod num_pes)).
  pose proof (Z.mod_pos_bound (p - q) num_pes ltac:(lia)).
  replace q with ((p - (p - q) mod num_pes) mod num_pes); [apply H; lia|].
  rewrite Zminus_mod_idemp_r. replace (p - (p - q)) with q by lia. apply Z.mod_small; lia.
Qed.

Lemma heard_all_intro s p id D : (forall q, 0 <= q < num_pes -> id < barrier_cnt s q) -> heard s p id D.
Proof. intros H d _. apply H, Z.mod_pos_bound. lia. Qed.

Lemma team_send_pe_inv p i r t :
  team_send_pe p i r = Done t -> t = (p + i * (n + 1) ^ r) mod num_pes.
Proof.
  unfold team_send_pe, upow, uadd, umul, urem. intros H.
  repeat (case_match; simplify_eq). done.
Qed.

Lemma team_recv_pe_inv p i r t :
  team_recv_pe p i r = Done t -> t = (p - i * (n + 1) ^ r) mod num_pes.
Proof.
  unfold team_recv_pe, ipow, imul, isub. intros H. repeat (case_match; simplify_eq). done.
Qed.

Lemma pow_pos r : 0 <= r -> 1 <= (n + 1) ^ r.
Proof. intros H. pose proof (Z.pow_pos_nonneg (n + 1) r ltac:(lia) H). lia. Qed.

(** A PE entering a round of barrier [id] after hearing from [(n + 1) ^ r] PEs. *)
Lemma enter_round_ok s p id r :
  pc s p = enter_round id r -> 0 <= r <= num_rounds -> barrier_cnt s p = id + 1 ->
  heard s p id ((n + 1) ^ r) -> pc_ok s p.
Proof.
  intros E Hr Hc H. unfold pc_ok. rewrite E. unfold enter_round.
  destruct (Z.ltb_spec r num_rounds); [rewrite (proj2 (Z.leb_le 1 n)) by lia; split_and!; auto; lia|].
  assert (r = num_rounds) as -> by lia. rewrite Hc. apply heard_all_intro.
  intros q Hq. eapply heard_all in H; [|done..]. lia.
Qed.

Lemma pc_ok_mono s s' p :
  pc s' p = pc s p -> barrier_cnt s' p = barrier_cnt s p ->
  (forall q, barrier_cnt s q <= barrier_cnt s' q) -> pc_ok s p -> pc_ok s' p.
Proof.
  intros E Ec Hc. unfold pc_ok. rewrite E, Ec.
  destruct (pc s p); [intros H|intros (?&?&?&H); split; [done|split; [done|split; [done|]]]..];
    eapply heard_mono; try exact H; done || lia.
Qed.

(** Changing the program counter of one PE only. *)
Lemma safe_set_pc s p c :
  safe s -> pc_ok (set_pc s p c) p -> safe (set_pc s p c).
Proof.
  intros [H1 H2 H3 H4 H5] Hp. split; try done.
  intros q Hq. destruct (decide (q = p)) as [->|]; [done|].
  refine (pc_ok_mono s _ q _ _ _ (H1 q Hq)); cbn; [by rewrite upd_ne|done|done].
Qed.

Lemma safe_enter s p :
  0 <= p < num_pes -> pc s p = Outside -> barrier_cnt s p + 1 < USIZE -> safe s ->
  safe (do_enter s p).
Proof.
  intros Hp Epc Hw [H1 H2 H3 H4 H5]. unfold do_enter.
  destruct (panic s p =? 0); [|done]. destruct (1 <? num_pes); [|done]. cbn [andb].
  pose proof (H4 p). rewrite wadd_ok by lia. set (s' := {| panic := _ |}).
  assert (Hc : forall q, barrier_cnt s q <= barrier_cnt s' q).
  { intros q. cbn. destruct (decide (q = p)) as [->|]; [rewrite upd_eq|rewrite upd_ne]; lia || done. }
  split.
  - intros q Hq. destruct (decide (q = p)) as [->|].
    + eapply (enter_round_ok s' p (barrier_cnt s p) 0); [apply upd_eq| |apply upd_eq|].
      { assert (0 <= num_rounds) by (destruct (Z.neg_nonneg_cases num_rounds); [|lia];
          rewrite Z.pow_neg_r in HR by lia; lia). lia. }
      intros d Hd. cbn in Hd. replace (p - d) with p by lia. rewrite Z.mod_small by lia.
      cbn. rewrite upd_eq. lia.
    + refine (pc_ok_mono s s' q _ _ Hc (H1 q Hq)); cbn; by rewrite upd_ne.
  - intros q sl r. eapply heard_mono; [done|..|apply H2]; done.
  - eapply Forall_impl; [done|]. intros m. by apply heard_mono.
  - intros q. pose proof (H4 q). pose proof (Hc q). lia.
  - intros q Hq. specialize (H1 q Hq). specialize (H5 q Hq). unfold pc_ok in H1. cbn.
    destruct (decide (q = p)) as [->|].
    + rewrite Epc in H1. rewrite upd_eq. eapply heard_mono; [done|..|exact H1]; lia.
    + rewrite upd_ne by done. eapply heard_mono; [done|..|exact H5]; lia.
Qed.

Lemma safe_send s s' p id r i :
  0 <= p < num_pes -> pc s p = Sending id r i -> do_send s p id r i = Done s' -> safe s -> safe s'.
Proof.
  intros Hp Epc Hd Hs. unfold do_send in Hd.
  destruct (team_send_pe p i r) as [t|] eqn:Et; [|done]. apply team_send_pe_inv in Et.
  pose proof (safe_pc _ Hs p Hp) as Hpc. unfold pc_ok in Hpc. rewrite Epc in Hpc.
  destruct Hpc as (Hr & Hi & Hc & Hh).
  assert (Hs1 : safe (set_pc s p (after_send id r i))).
  { apply safe_set_pc; [done|]. unfold pc_ok. cbn. rewrite upd_eq. unfold after_send.
    pose proof (pow_pos r ltac:(lia)).
    destruct (Z.ltb_spec i n); (split; [done|split; [lia|split; [done|]]]); [done|].
    by rewrite Z.mul_1_l. }
  destruct (t =? p); cbn in Hd; [by simplify_eq|].
  assert (Hm : val_ok s t (i - 1) r id).
  { unfold val_ok. eapply heard_mod; [|exact Hh]. subst t.
    rewrite Zminus_mod_idemp_l. f_equal. lia. }
  injection Hd as <-. destruct Hs1 as [A1 A2 A3 A4 A5]. split; try done.
  cbn. apply Forall_app. split; [done|]. by constructor.
Qed.

Lemma safe_recv s s' p id r i :
  0 <= p < num_pes -> pc s p = Receiving id r i -> do_recv s p id r i = Done (Some s') ->
  safe s -> safe s'.
Proof.
  intros Hp Epc Hd Hs. unfold do_recv in Hd.
  destruct (team_recv_pe p i r) as [q|] eqn:Eq; [|done]. apply team_recv_pe_inv in Eq.
  pose proof (safe_pc _ Hs p Hp) as Hpc. unfold pc_ok in Hpc. rewrite Epc in Hpc.
  destruct Hpc as (Hr & Hi & Hc & Hh). pose proof (pow_pos r ltac:(lia)) as HB.
  set (B := (n + 1) ^ r) in *.
  assert (Hheard : heard s p id ((i + 1) * B)).
  { replace ((i + 1) * B) with (i * B + B) by lia. apply heard_app; [done|].
    destruct (Z.eqb_spec q p) as [->|Hne].
    - intros d Hd'. pose proof (Z.div_mod (p - i * B) num_pes ltac:(lia)) as Ediv.
      replace (p - i * B - d) with (p - d + ((p - i * B) / num_pes) * num_pes) by lia.
      rewrite Z_mod_plus_full. apply Hh. nia.
    - destruct (Z.ltb_spec (barrier_buf s p (i - 1) r) id); cbn in Hd; [done|].
      pose proof (safe_buf _ Hs p (i - 1) r) as Hv. unfold val_ok in Hv. fold B in Hv.
      replace (i - 1 + 1) with i in Hv by lia. by eapply heard_mono; [done| |done|exact Hv]. }
  destruct (negb (q =? p) && _); [done|]. injection Hd as <-.
  apply safe_set_pc; [done|]. unfold after_recv. destruct (Z.ltb_spec i n).
  - unfold pc_ok. cbn. rewrite upd_eq. split_and!; done || lia.
  - eapply (enter_round_ok _ p id (r + 1)); [apply upd_eq|lia|done|].
    rewrite Z.pow_add_r, Z.pow_1_r by lia. fold B. replace i with n in * by lia.
    eapply heard_mono; [| |..|exact Hheard]; cbn; done || lia.
Qed.

Lemma safe_deliver s m l1 l2 : net s = l1 ++ m :: l2 -> safe s -> safe (do_deliver s m (l1 ++ l2)).
Proof.
  intros E [H1 H2 H3 H4 H5]. rewrite E in H3.
  apply Forall_app in H3 as [F1 F2]. apply Forall_cons in F2 as [Fm F2]. split; try done.
  - intros p sl r. unfold val_ok. cbn -[upd].
    destruct (decide (p = dest m)) as [->|]; [rewrite upd_eq|rewrite upd_ne by done; apply H2].
    destruct (decide (sl = slot m)) as [->|]; [rewrite upd_eq|rewrite upd_ne by done; apply H2].
    destruct (decide (r = mround m)) as [->|]; [by rewrite upd_eq|rewrite upd_ne by done; apply H2].
  - apply Forall_app. done.
Qed.

Lemma safe_istep s s' : istep s s' -> safe s -> safe s'.
Proof. destruct 1; intros Hs; eauto using safe_send, safe_recv, safe_deliver. Qed.

Lemma istep_cnt s s' : istep s s' -> forall q, barrier_cnt s' q = barrier_cnt s q.
Proof.
  destruct 1 as [s s' p id r i _ _ Hd|s s' p id r i _ _ Hd|]; intros q; [..|done].
  - unfold do_send in Hd. destruct (team_send_pe p i r); [|done]. destruct (_ =? _) in Hd; by simplify_eq.
  - unfold do_recv in Hd. destruct (team_recv_pe p i r); [|done]. destruct (_ && _) in Hd; by simplify_eq.
Qed.

Lemma safe_step s s' : step s s' -> safe s -> safe s'.
Proof.
  destruct 1; intros Hs; eauto using safe_enter, safe_istep.
  destruct Hs as [H1 H2 H3 H4 H5]. by split.
Qed.

Lemma safe_init : safe init.
Proof.
  split; [intros p Hp d Hd|intros p sl r d Hd|constructor|intros p|intros p Hp d Hd]; cbn; lia.
Qed.

Lemma safe_reachable s : reachable s -> safe s.
Proof. apply (rtc_ind_r safe); [apply safe_init|]. intros; by eapply safe_step. Qed.
End Barrier.

(** ** Liveness: once every PE has entered a barrier, every PE leaves it *)
Section Live.
Context (num_pes n num_rounds : Z).
Context (Hn : 1 <= n) (HP : 1 <= num_pes) (HR : num_pes <= (n + 1) ^ num_rounds).
Context (Hov : num_pes + n * (n + 1) ^ num_rounds < 9223372036854775808).

Local Abbreviation step := (step num_pes n num_rounds true).
Local Abbreviation istep := (istep num_pes n num_rounds true).
Local Abbreviation safe := (safe num_pes n num_rounds).
Local Abbreviation target q i r := ((q + i * (n + 1) ^ r) mod num_pes).

(** The value a slot has once the puts in flight to it have arrived in order. *)
Definition chan_step (t sl r v : Z) (m : Msg) : Z :=
  if decide (dest m = t /\ slot m = sl /\ mround m = r) then mid m else v.
Lemma chan_step_eq t sl r v m :
  dest m = t /\ slot m = sl /\ mround m = r -> chan_step t sl r v m = mid m.
Proof. intros H. unfold chan_step. by rewrite decide_True. Qed.
Lemma chan_step_ne t sl r v m :
  ~ (dest m = t /\ slot m = sl /\ mround m = r) -> chan_step t sl r v m = v.
Proof. intros H. unfold chan_step. by rewrite decide_False. Qed.

Definition chan (s : Sys) (t sl r : Z) : Z :=
  foldl (chan_step t sl r) (barrier_buf s t sl r) (net s).

(** PE [q] has executed iteration [i] of the sending loop of [round] [r] of barrier [id]. *)
Definition passed (s : Sys) (q id r i : Z) : Prop :=
  match pc s q with
  | Outside => id < barrier_cnt s q
  | Sending id' r' i' => id < id' \/ id = id' /\ (r < r' \/ r = r' /\ i < i')
  | Receiving id' r' _ => id < id' \/ id = id' /\ r <= r'
  end.

(** What a PE has sent is in the slot of the receiver, or on its way to it. *)
Definition sent (s : Sys) : Prop :=
  forall q id r i, 0 <= q < num_pes -> 0 <= r < num_rounds -> 1 <= i <= n ->
    passed s q id r i -> target q i r <> q -> id <= chan s (target q i r) (i - 1) r.

(** Only one PE writes a slot. *)
Lemma target_inj q q' i r :
  0 <= q < num_pes -> 0 <= q' < num_pes -> target q i r = target q' i r -> q = q'.
Proof.
  intros Hq Hq' E. set (D := i * (n + 1) ^ r) in *.
  rewrite <- (Z.mod_small q num_pes), <- (Z.mod_small q' num_pes) by lia.
  replace q with (q + D - D) by lia. replace q' with (q' + D - D) at 1 by lia.
  by rewrite (Zminus_mod (q + D)), E, <- Zminus_mod.
Qed.

Lemma sent_enter s p :
  0 <= p < num_pes -> pc s p = Outside -> barrier_cnt s p + 1 < USIZE -> 0 <= barrier_cnt s p ->
  sent s -> sent (do_enter num_pes n num_rounds s p).
Proof.
  intros Hp Epc Hw H0 H. unfold do_enter. destruct (_ && _); [|done].
  intros q id r i Hq Hr Hi Hpass Hne. apply (H q id r i); try done.
  unfold passed in *. cbn in Hpass. destruct (decide (q = p)) as [->|].
  - rewrite Epc. rewrite !upd_eq in Hpass. unfold enter_round in Hpass.
    rewrite (proj2 (Z.ltb_lt 0 num_rounds)), (proj2 (Z.leb_le 1 n)) in Hpass by lia. lia.
  - by rewrite !upd_ne in Hpass.
Qed.

Lemma sent_send s s' p id r i :
  0 <= p < num_pes -> pc s p = Sending id r i -> 1 <= i <= n ->
  do_send num_pes n s p id r i = Done s' -> sent s -> sent s'.
Proof.
  intros Hp Epc Hi Hd H. unfold do_send in Hd.
  destruct (team_send_pe num_pes n p i r) as [t|] eqn:Et; [|done]. apply team_send_pe_inv in Et.
  assert (Hp' : forall id' r' i', 0 <= r' -> 1 <= i' <= n ->
    passed (set_pc s p (after_send n id r i)) p id' r' i' ->
    passed s p id' r' i' \/ (id' = id /\ r' = r /\ i' = i)).
  { intros id' r' i' Hr' Hi'. unfold passed. cbn. rewrite upd_eq, Epc. unfold after_send.
    destruct (Z.ltb_spec i n); lia. }
  assert (Hid : forall id' r' i', passed s p id' r' i' -> id' <= id).
  { intros id' r' i'. unfold passed. rewrite Epc. lia. }
  assert (Hother : forall q id' r' i', q <> p ->
    passed (set_pc s p (after_send n id r i)) q id' r' i' -> passed s q id' r' i').
  { intros q id' r' i' Hne. unfold passed. cbn. by rewrite upd_ne. }
  intros q id' r' i' Hq Hr' Hi' Hpass Hne.
  destruct (Z.eqb_spec t p) as [Ep|Ep]; cbn [negb] in Hd; injection Hd as <-.
  - destruct (decide (q = p)) as [->|]; [|by apply (H q id' r' i'); try done; apply Hother].
    apply Hp' in Hpass as [?|(-> & -> & ->)]; [by apply (H p id' r' i')|lia|lia|lia].
  - assert (Hpass' : passed (set_pc s p (after_send n id r i)) q id' r' i') by exact Hpass.
    unfold chan. cbn [net barrier_buf set_pc]. rewrite foldl_app. cbn. unfold chan_step at 1. cbn.
    destruct (decide _) as [(E1 & E2 & E3)|Hdec].
    + assert (i' = i) as -> by lia. subst r'. rewrite Et in E1.
      apply target_inj in E1 as <-; [|done..].
      apply Hp' in Hpass' as [?|?]; [by eapply Hid|lia|lia|lia].
    + apply (H q id' r' i'); try done. destruct (decide (q = p)) as [->|]; [|by apply Hother].
      apply Hp' in Hpass' as [?|(-> & -> & ->)]; [done| |lia|lia]. by destruct Hdec.
Qed.

Lemma sent_recv s s' p id r i :
  0 <= p < num_pes -> pc s p = Receiving id r i -> barrier_cnt s p = id + 1 ->
  0 <= r < num_rounds ->
  do_recv num_pes n num_rounds s p id r i = Done (Some s') -> sent s -> sent s'.
Proof.
  intros Hp Epc Hc Hr Hd H. unfold do_recv in Hd.
  destruct (team_recv_pe num_pes n p i r) as [t|]; [|done].
  destruct (_ && _); [done|]. injection Hd as <-.
  intros q id' r' i' Hq Hr' Hi' Hpass Hne. apply (H q id' r' i'); try done.
  unfold passed in *. cbn in Hpass. destruct (decide (q = p)) as [->|]; [|by rewrite upd_ne in Hpass].
  rewrite upd_eq in Hpass. rewrite Epc. unfold after_recv, enter_round in Hpass.
  destruct (Z.ltb_spec i n); [lia|]. rewrite (proj2 (Z.leb_le 1 n)) in Hpass by lia.
  destruct (Z.ltb_spec (r + 1) num_rounds); lia.
Qed.

(** Delivering the oldest put to a slot does not change what the slot will have. *)
Lemma chan_deliver s m l1 l2 t sl r :
  net s = l1 ++ m :: l2 -> Forall (fun m' => ~ same_slot m' m) l1 ->
  chan (do_deliver s m (l1 ++ l2)) t sl r = chan s t sl r.
Proof.
  intros E F. unfold chan. rewrite E. cbn -[upd]. rewrite !foldl_app. cbn.
  assert (Hskip : forall v, same_slot m {| dest := t; slot := sl; mround := r; mid := 0 |} ->
                            foldl (chan_step t sl r) v l1 = v).
  { intros v (E1 & E2 & E3). cbn in *. clear E. induction F as [|m' l1 Hm F IH]; [done|]. cbn.
    rewrite chan_step_ne; [done|]. intros (?&?&?). apply Hm. unfold same_slot. lia. }
  f_equal. destruct (decide (dest m = t /\ slot m = sl /\ mround m = r)) as [(<- & <- & <-)|Hne].
  - rewrite chan_step_eq by done. rewrite !upd_eq. apply Hskip. done.
  - rewrite chan_step_ne by done. f_equal. destruct (decide (t = dest m)) as [->|]; [rewrite upd_eq|by rewrite upd_ne].
    destruct (decide (sl = slot m)) as [->|]; [rewrite upd_eq|by rewrite upd_ne].
    destruct (decide (r = mround m)) as [->|]; [by destruct Hne|by rewrite upd_ne].
Qed.

Lemma sent_istep s s' : istep s s' -> safe s -> sent s -> sent s'.
Proof.
  destruct 1 as [s s' p id r i Hp Epc Hd|s s' p id r i Hp Epc Hd|s m l1 l2 E F]; intros Hs H.
  - pose proof (safe_pc _ _ _ _ Hs p Hp) as Hk. unfold pc_ok in Hk. rewrite Epc in Hk.
    eapply sent_send; eauto. lia.
  - pose proof (safe_pc _ _ _ _ Hs p Hp) as Hk. unfold pc_ok in Hk. rewrite Epc in Hk.
    eapply sent_recv; eauto; lia.
  - intros q id r i Hq Hr Hi Hpass Hne. rewrite chan_deliver by auto. by apply H.
Qed.

Lemma sent_init : sent init.
Proof.
  intros q id r i _ _ _ Hpass _. unfold passed, chan in *. cbn in *. lia.
Qed.

Lemma live_reachable s : reachable num_pes n num_rounds true s -> safe s /\ sent s.
Proof.
  apply (rtc_ind_r (fun s => safe s /\ sent s)).
  - split; [by apply safe_init|apply sent_init].
  - intros s1 s2 _ Hstep [H1 H2]. split; [by eapply safe_step|].
    destruct Hstep as [s1 p Hp Epc Hw|s1 p v|s1 s2 Hi]; [|done|by eapply sent_istep].
    apply sent_enter; try done. pose proof (safe_cnt _ _ _ _ H1 p). lia.
Qed.

(** *** Termination: every step inside the barrier decreases a measure *)
Definition weight (c : Pc) : Z :=
  match c with
  | Outside => 0
  | Sending _ r i => (num_rounds - r) * (3 * n) - 2 * (i - 1)
  | Receiving _ r i => (num_rounds - r) * (3 * n) - 2 * n - (i - 1)
  end.

Definition total (s : Sys) : Z :=
  zsum (fun p => weight (pc s p)) (seqZ 0 num_pes) + Z.of_nat (length (net s)).

Lemma total_set_pc s p c :
  0 <= p < num_pes -> total (set_pc s p c) = total s + weight c - weight (pc s p).
Proof.
  intros Hp. unfold total. cbn.
  pose proof (zsum_change (fun q => weight (upd (pc s) p c q)) (fun q => weight (pc s q)) p
                (seqZ 0 num_pes)) as H.
  cbn in H. rewrite upd_eq in H. rewrite <- (Z.sub_simpl_r (zsum _ _) (weight c)).
  rewrite H; [lia|apply NoDup_seqZ|apply elem_of_seqZ; lia|]. intros q Hq. by rewrite upd_ne.
Qed.

Lemma weight_nonneg s p : safe s -> 0 <= p < num_pes -> 0 <= weight (pc s p).
Proof.
  intros Hs Hp. pose proof (safe_pc _ _ _ _ Hs p Hp) as H. unfold pc_ok in H.
  destruct (pc s p) as [|id r i|id r i]; cbn; [lia|nia..].
Qed.

Lemma total_nonneg s : safe s -> 0 <= total s.
Proof.
  intros Hs. unfold total. assert (0 <= zsum (fun p => weight (pc s p)) (seqZ 0 num_pes)); [|lia].
  apply zsum_nonneg. intros q Hq%elem_of_seqZ. apply weight_nonneg; [done|lia].
Qed.

Lemma istep_decreases s s' : safe s -> istep s s' -> total s' < total s.
Proof.
  intros Hs Hstep. destruct Hstep as [s1 s2 p id r i Hp Epc Hd|s1 s2 p id r i Hp Epc Hd|s1 m l1 l2 E _].
  - pose proof (safe_pc _ _ _ _ Hs p Hp) as H. unfold pc_ok in H. rewrite Epc in H.
    assert (Hw : total (set_pc s1 p (after_send n id r i)) <= total s1 - 2).
    { rewrite total_set_pc, Epc by done. unfold after_send.
      destruct (Z.ltb_spec i n); cbn [weight]; nia. }
    unfold do_send in Hd. destruct (team_send_pe _ _ _ _ _) as [t|]; [|done].
    destruct (t =? p); injection Hd as <-; [lia|].
    unfold total in *. cbn in *. rewrite length_app. cbn. lia.
  - pose proof (safe_pc _ _ _ _ Hs p Hp) as H. unfold pc_ok in H. rewrite Epc in H.
    unfold do_recv in Hd. destruct (team_recv_pe _ _ _ _ _) as [t|]; [|done].
    destruct (_ && _); [done|]. injection Hd as <-.
    rewrite total_set_pc, Epc by done. unfold after_recv, enter_round.
    rewrite (proj2 (Z.leb_le 1 n)) by lia.
    destruct (Z.ltb_spec i n); [cbn [weight]; nia|].
    destruct (Z.ltb_spec (r + 1) num_rounds); cbn [weight]; nia.
  - unfold total. cbn. rewrite E, !length_app. cbn. lia.
Qed.

Lemma istep_sn s : safe s -> sn istep s.
Proof.
  apply (sn_measure istep safe total); [apply total_nonneg|].
  intros s0 s1 Hs Hstep. split; [by eapply safe_istep|by apply istep_decreases].
Qed.

(** *** Deadlock freedom *)
Lemma pow_bound r : 0 <= r < num_rounds -> 1 <= (n + 1) ^ r <= (n + 1) ^ num_rounds.
Proof.
  intros Hr. pose proof (Z.pow_pos_nonneg (n + 1) r ltac:(lia) ltac:(lia)).
  pose proof (Z.pow_le_mono_r (n + 1) r num_rounds ltac:(lia) ltac:(lia)). lia.
Qed.

Lemma send_ok p i r :
  0 <= p < num_pes -> 1 <= i <= n -> 0 <= r < num_rounds ->
  team_send_pe num_pes n p i r = Done (target p i r).
Proof.
  intros Hp Hi Hr. pose proof (pow_bound r Hr) as Hb. unfold team_send_pe, upow.
  rewrite uadd_ok by nia. rewrite (proj2 (Z.ltb_lt _ USIZE)) by nia.
  rewrite umul_ok, uadd_ok, urem_ok by nia. done.
Qed.

Lemma recv_ok p i r :
  0 <= p < num_pes -> 1 <= i <= n -> 0 <= r < num_rounds ->
  team_recv_pe num_pes n p i r = Done ((p - i * (n + 1) ^ r) mod num_pes).
Proof.
  intros Hp Hi Hr. pose proof (pow_bound r Hr) as Hb. unfold team_recv_pe, ipow, imul.
  set (B := (n + 1) ^ r) in *. rewrite (proj2 (Z.ltb_lt B _)) by nia.
  rewrite (proj2 (Z.leb_le _ (i * B))), (proj2 (Z.ltb_lt (i * B) _)) by nia. cbn [andb].
  rewrite isub_ok by nia. by rewrite (proj2 (Z.eqb_neq num_pes 0)) by lia.
Qed.

Definition inside (c : Pc) (id r : Z) : Prop :=
  match c with
  | Outside => False
  | Sending id' r' _ | Receiving id' r' _ => id' = id /\ r' = r
  end.

(** Among the PEs inside a barrier, one is the furthest behind. *)
Lemma hindmost s p id r :
  safe s -> 0 <= p < num_pes -> inside (pc s p) id r ->
  exists p0 id0 r0, 0 <= p0 < num_pes /\ inside (pc s p0) id0 r0 /\ id0 <= id /\
    forall q id' r', 0 <= q < num_pes -> inside (pc s q) id' r' ->
      id0 < id' \/ id0 = id' /\ r0 <= r'.
Proof.
  intros Hs. remember (id * num_rounds + r) as m eqn:Em. revert p id r Em.
  induction m as [m IH] using (well_founded_induction (Z.lt_wf 0)). intros p id r -> Hp Hin.
  assert (Hrange : forall q id' r', 0 <= q < num_pes -> inside (pc s q) id' r' ->
            0 <= id' /\ 0 <= r' < num_rounds).
  { intros q id' r' Hq Hi. pose proof (safe_pc _ _ _ _ Hs q Hq) as H. unfold pc_ok in H.
    pose proof (safe_cnt _ _ _ _ Hs q). destruct (pc s q); cbn in Hi; [done|lia..]. }
  set (behind q := match pc s q with
                   | Outside => False
                   | Sending id' r' _ | Receiving id' r' _ => id' < id \/ id' = id /\ r' < r
                   end).
  assert (Hdec : forall q, Decision (behind q)).
  { intros q. unfold behind. destruct (pc s q); apply _. }
  destruct (decide (Exists behind (seqZ 0 num_pes))) as [Hex|Hnex].
  - apply Exists_exists in Hex as (q & Hq%elem_of_seqZ & Hb). unfold behind in Hb.
    assert (exists id' r', inside (pc s q) id' r' /\ (id' < id \/ id' = id /\ r' < r))
      as (id' & r' & Hin' & Hlt) by (destruct (pc s q); [done|by do 2 eexists..]).
    destruct (Hrange q id' r' ltac:(lia) Hin'). destruct (Hrange p id r Hp Hin).
    destruct (IH (id' * num_rounds + r') ltac:(nia) q id' r' eq_refl ltac:(lia) Hin')
      as (p0 & id0 & r0 & ? & ? & ? & ?).
    exists p0, id0, r0. split_and!; try done; lia.
  - exists p, id, r. split; [done|split; [done|split; [lia|]]]. intros q id' r' Hq Hin'.
    assert (~ behind q) as Hnb.
    { intros Hb. apply Hnex, Exists_exists. exists q. split; [apply elem_of_seqZ; lia|done]. }
    unfold behind in Hnb. destruct (pc s q); cbn in Hin'; [done|lia..].
Qed.

Lemma stuck_not_sending s p id r i :
  safe s -> nf istep s -> 0 <= p < num_pes -> pc s p <> Sending id r i.
Proof.
  intros Hs Hnf Hp Epc. apply Hnf. pose proof (safe_pc _ _ _ _ Hs p Hp) as H.
  unfold pc_ok in H. rewrite Epc in H. eexists. eapply step_send; [done|done|].
  unfold do_send. rewrite send_ok by lia. reflexivity.
Qed.

Lemma stuck_net s : nf istep s -> net s = [].
Proof.
  intros Hnf. destruct (net s) as [|m l] eqn:E; [done|]. exfalso. apply Hnf.
  eexists. apply (step_deliver _ _ _ _ s m [] l); [done|]. by constructor.
Qed.

Lemma stuck_outside s k p id r :
  safe s -> sent s -> nf istep s -> (forall q, 0 <= q < num_pes -> k < barrier_cnt s q) ->
  0 <= p < num_pes -> inside (pc s p) id r -> k < id.
Proof.
  intros Hs Hsent Hnf Hk Hp Hin. destruct (decide (k < id)) as [|Hle]; [done|exfalso].
  destruct (hindmost s p id r Hs Hp Hin) as (p0 & id0 & r0 & Hp0 & Hin0 & Hid & Hmin).
  destruct (pc s p0) as [|id' r' i|id' r' i] eqn:Epc; cbn in Hin0; [done| |].
  { by eapply stuck_not_sending in Epc. }
  destruct Hin0 as [-> ->]. pose proof (safe_pc _ _ _ _ Hs p0 Hp0) as H.
  unfold pc_ok in H. rewrite Epc in H. destruct H as (Hr & Hi & Hc & _).
  destruct (do_recv num_pes n num_rounds s p0 id0 r0 i) as [[s'|]|] eqn:Ed.
  { apply Hnf. eexists. by eapply step_recv. }
  all: unfold do_recv in Ed; rewrite recv_ok in Ed by lia; cbn in Ed; try done.
  set (q := (p0 - i * (n + 1) ^ r0) mod num_pes) in *.
  assert (Hq : 0 <= q < num_pes) by (apply Z.mod_pos_bound; lia).
  destruct (Z.eqb_spec q p0) as [|Hne]; cbn in Ed; [done|].
  destruct (Z.ltb_spec (barrier_buf s p0 (i - 1) r0) id0) as [Hlt|]; [|done].
  assert (Et : target q i r0 = p0).
  { subst q. rewrite Zplus_mod_idemp_l. replace (_ + _) with p0 by lia. by apply Z.mod_small. }
  assert (Hpass : passed s q id0 r0 i).
  { specialize (Hk q Hq). pose proof (safe_pc _ _ _ _ Hs q Hq) as Hpcq. unfold pc_ok in Hpcq.
    unfold passed. destruct (pc s q) as [|id' r' i'|id' r' i'] eqn:Eq; [lia| |].
    - by eapply stuck_not_sending in Eq.
    - specialize (Hmin q id' r' Hq). rewrite Eq in Hmin. specialize (Hmin (conj eq_refl eq_refl)). lia. }
  apply (Hsent q id0 r0 i Hq Hr Hi) in Hpass; [|congruence].
  rewrite Et in Hpass. unfold chan in Hpass. rewrite (stuck_net s Hnf) in Hpass. cbn in Hpass. lia.
Qed.
End Live.

(** C1: No PE leaves a barrier before every PE has entered it.  In every state reachable by any
    interleaving of the PEs and any order of delivery of the puts, when
    [num_pes <= (n + 1) ^ num_rounds]: a PE that is outside and has called [k] barriers implies
    that every PE has called at least [k]; and the PEs, wherever they are, are never more than
    one barrier apart. *)
Theorem barrier_synchronises num_pes n num_rounds fifo s p q
    (Hn : 1 <= n) (HP : 1 <= num_pes) (HR : num_pes <= (n + 1) ^ num_rounds)
    (Hs : reachable num_pes n num_rounds fifo s) (Hp : 0 <= p < num_pes) (Hq : 0 <= q < num_pes) :
  (pc s p = Outside -> barrier_cnt s p <= barrier_cnt s q) /\
  barrier_cnt s p <= barrier_cnt s q + 1.
Proof.
  apply safe_reachable in Hs; [|done..]. split.
  - intros E. pose proof (safe_pc _ _ _ _ Hs p Hp) as H. unfold pc_ok in H. rewrite E in H.
    apply (heard_all num_pes n num_rounds Hn HP s p _ num_pes q) in H; [lia|lia|done].
  - pose proof (safe_prev _ _ _ _ Hs p Hp) as H.
    apply (heard_all num_pes n num_rounds Hn HP s p _ num_pes q) in H; [lia|lia|done].
Qed.

(** A team of two PEs with the rounds [Barrier::new] computes for it ([n = 1], one round): both
    PEs enter, send, receive; PE 0 leaves. *)
Ltac pe_enter p := eapply rtc_l; [apply (step_enter 2 1 1 true _ p); [lia|reflexivity|reflexivity]|cbn].
Ltac pe_send p :=
  eapply rtc_l; [apply step_inside; eapply (step_send _ _ _ _ _ _ p); [lia|reflexivity|reflexivity]|cbn].
Ltac pe_recv p :=
  eapply rtc_l; [apply step_inside; eapply (step_recv _ _ _ _ _ _ p); [lia|reflexivity|reflexivity]|cbn].
Ltac deliver_first :=
  eapply rtc_l; [apply step_inside; eapply (step_deliver _ _ _ _ _ _ []); [reflexivity|by constructor]|cbn].

Lemma two_pes_run :
  exists s, reachable 2 1 1 true s /\ pc s 0 = Outside /\ barrier_cnt s 0 = 2 /\
            pc s 1 = Receiving 1 0 1 /\ barrier_cnt s 1 = 2.
Proof.
  eexists. split; [|split_and!].
  - unfold reachable. pe_enter 0. pe_enter 1. pe_send 0. pe_send 1. deliver_first. deliver_first.
    pe_recv 0. apply rtc_refl.
  - reflexivity.
  - reflexivity.
  - reflexivity.
  - reflexivity.
Qed.

Lemma barrier_synchronises_witness :
  exists s, reachable 2 1 1 true s /\ pc s 0 = Outside /\ barrier_cnt s 0 = 2 /\
            2 <= barrier_cnt s 1.
Proof.
  destruct two_pes_run as (s & Hs & Hpc & Hc & _).
  exists s. split; [exact Hs|]. split; [exact Hpc|]. split; [exact Hc|].
  pose proof (proj1 (barrier_synchronises 2 1 1 true s 0 1 ltac:(lia) ltac:(lia) ltac:(vm_compute; discriminate)
    Hs ltac:(lia) ltac:(lia)) Hpc) as H. rewrite Hc in H. exact H.
Defined.

(** C19: A barrier every PE calls completes.  When puts to one location arrive in the order they
    were sent, then from every reachable state in which every PE has entered barrier [k], the
    PEs inside barriers and the network can only take finitely many steps, whatever the
    interleaving, and where they can take no more, no PE is inside barrier [k] or an earlier
    one: no arithmetic of the loops panics and no PE waits for a put that was overwritten or
    never sent. *)
Theorem barrier_completes num_pes n num_rounds k s
    (Hn : 1 <= n) (HP : 1 <= num_pes) (HR : num_pes <= (n + 1) ^ num_rounds)
    (Hov : num_pes + n * (n + 1) ^ num_rounds < 9223372036854775808)
    (Hs : reachable num_pes n num_rounds true s)
    (Hk : forall q, 0 <= q < num_pes -> k < barrier_cnt s q) :
  sn (istep num_pes n num_rounds true) s /\
  forall s', rtc (istep num_pes n num_rounds true) s s' -> nf (istep num_pes n num_rounds true) s' ->
    forall p id r, 0 <= p < num_pes -> inside (pc s' p) id r -> k < id.
Proof.
  destruct (live_reachable _ _ _ Hn HP HR s Hs) as [Hsafe Hsent].
  split; [by eapply istep_sn|]. intros s' Hrun Hnf p id r Hp Hin.
  assert (H : (safe num_pes n num_rounds s' /\ sent num_pes n num_rounds s') /\
              forall q, 0 <= q < num_pes -> k < barrier_cnt s' q).
  { clear Hs Hnf Hin. induction Hrun as [|s1 s2 s3 Hstep _ IH]; [done|].
    apply IH; [|exact (safe_istep _ _ _ _ Hn HP HR _ _ Hstep Hsafe)|by eapply sent_istep].
    intros q Hq. rewrite (istep_cnt _ _ _ _ _ _ Hstep). auto. }
  destruct H as [[Hsf Hst] Hk'].
  exact (stuck_outside _ _ _ Hn HP HR Hov s' k p id r Hsf Hst Hnf Hk' Hp Hin).
Qed.

Lemma barrier_completes_witness :
  exists s, reachable 2 1 1 true s /\ pc s 1 = Receiving 1 0 1 /\
    forall s', rtc (istep 2 1 1 true) s s' -> nf (istep 2 1 1 true) s' -> ~ inside (pc s' 1) 1 0.
Proof.
  destruct two_pes_run as (s & Hs & _ & Hc0 & Hpc & Hc1).
  exists s. split; [exact Hs|]. split; [exact Hpc|]. intros s' Hrun Hnf Hin.
  refine (Z.lt_irrefl 1 (proj2 (barrier_completes 2 1 1 1 s ltac:(lia) ltac:(lia)
    ltac:(vm_compute; discriminate) ltac:(vm_compute; reflexivity) Hs _) s' Hrun Hnf 1 1 0 ltac:(lia) Hin)).
  intros q Hq. assert (q = 0 \/ q = 1) as [-> | ->] by lia; lia.
Defined.

(** ** [Barrier::new]: are there enough rounds? *)
Section Rounds.
Context (log2 : Q -> Q).

(** What is used of [f64::log2]: on the integers a double represents it returns a double, it is
    exact on the powers of two, and it is monotone. *)
Record Log2Laws : Prop := {
  log2_double : forall z, 1 <= z < 2 ^ 53 ->
    (fl64 (log2 (f64_of_usize z)) == log2 (f64_of_usize z))%Q;
  log2_exact : forall k, 0 <= k < 53 -> (log2 (f64_of_usize (2 ^ k)) == inject_Z k)%Q;
  log2_monotone : forall z z', 1 <= z <= z' -> z' < 2 ^ 53 ->
    (log2 (f64_of_usize z) <= log2 (f64_of_usize z'))%Q;
}.
Context (L : Log2Laws).

Lemma log2_between z k :
  1 <= k < 54 -> 2 ^ (k - 1) < z <= 2 ^ k -> z < 2 ^ 53 ->
  (inject_Z (k - 1) <= log2 (f64_of_usize z))%Q /\
  (k < 53 -> (log2 (f64_of_usize z) <= inject_Z k)%Q).
Proof.
  intros Hk Hz Hz'. pose proof (Z.pow_pos_nonneg 2 (k - 1) ltac:(lia) ltac:(lia)). split.
  - rewrite <- (log2_exact L (k - 1)) by lia. apply (log2_monotone L); lia.
  - intros Hk'. rewrite <- (log2_exact L k) by lia. apply (log2_monotone L); [lia|].
    apply Z.pow_lt_mono_r; lia.
Qed.

(** The quotient of the logarithms for the default factor 2 is the logarithm. *)
Lemma log2_quotient z :
  1 <= z < 2 ^ 53 -> (f64_div (log2 (f64_of_usize z)) (log2 (f64_of_usize 2)) == log2 (f64_of_usize z))%Q.
Proof.
  intros Hz. unfold f64_div. rewrite <- (log2_double L z Hz) at 2.
  rewrite (fl64_compat _ (log2 (f64_of_usize z))); [reflexivity|].
  change 2 with (2 ^ 1). rewrite (log2_exact L 1) by lia. change (inject_Z 1) with 1%Q. field.
Qed.

Lemma ceiling_ge x z : (inject_Z z <= x)%Q -> z <= Qceiling x.
Proof. intros H. rewrite Zle_Qle. eapply Qle_trans; [exact H|apply Qle_ceiling]. Qed.
Lemma ceiling_le x z : (x <= inject_Z z)%Q -> Qceiling x <= z.
Proof. intros H. rewrite <- (Qceiling_Z z). by apply Qceiling_resp_le. Qed.

Lemma pow3_pow2 k : 3 <= k -> 2 ^ k <= 3 ^ (k - 1).
Proof.
  intros H. pattern k. apply (Z.right_induction (fun k => 2 ^ k <= 3 ^ (k - 1))) with (z := 3); [|lia| |done].
  { intros ? ? ->. done. }
  intros j Hj IH. replace (Z.succ j - 1) with (Z.succ (j - 1)) by lia. rewrite !Z.pow_succ_r by lia. lia.
Qed.

(** With the default factor: [ceil (log2 P)] rounds, up to one less where the logarithm of the
    platform is one unit off, and there are enough of them. *)
Lemma default_rounds P :
  2 < P < 2 ^ 53 -> exists k R, new_rounds log2 None P = (2, R) /\ 2 <= k /\ 2 ^ (k - 1) < P <= 2 ^ k /\
    k - 1 <= R /\ (k < 53 -> R <= k) /\ P <= 3 ^ R.
Proof.
  intros HP. set (k := Z.log2_up P). pose proof (Z.log2_up_spec P ltac:(lia)) as Hk.
  rewrite <- Z.sub_1_r in Hk. fold k in Hk.
  assert (Hk2 : 2 <= k).
  { destruct (decide (k <= 1)); [|lia]. pose proof (Z.pow_le_mono_r 2 k 1 ltac:(lia) ltac:(lia)). lia. }
  assert (Hk53 : k <= 53).
  { destruct (decide (54 <= k)); [|lia].
    pose proof (Z.pow_le_mono_r 2 53 (k - 1) ltac:(lia) ltac:(lia)). lia. }
  destruct (log2_between P k ltac:(lia) Hk ltac:(lia)) as [Hlo Hhi].
  set (x := log2 (f64_of_usize P)) in *.
  set (R := as_usize (f64_ceil (f64_div x (log2 (f64_of_usize 2))))).
  assert (HR : R = as_usize (Qceiling x)).
  { unfold R, f64_ceil. f_equal. apply Qceiling_comp, log2_quotient. lia. }
  pose proof (ceiling_ge _ _ Hlo) as Hge.
  assert (HRk : k - 1 <= R) by (rewrite HR; unfold as_usize; lia).
  exists k, R. split; [|split; [lia|split; [lia|split; [lia|split]]]].
  - unfold new_rounds, DISSEMINATION_FACTOR. cbn [default option_rect]. rewrite (proj2 (Z.ltb_lt 2 P)) by lia. reflexivity.
  - intros Hk'. pose proof (ceiling_le _ _ (Hhi Hk')). rewrite HR. unfold as_usize. lia.
  - pose proof (Z.pow_le_mono_r 3 (k - 1) R ltac:(lia) ltac:(lia)) as Hm.
    destruct (decide (3 <= k)); [pose proof (pow3_pow2 k ltac:(lia)); lia|].
    assert (k = 2) as Ek by lia. rewrite Ek in *. change (2 ^ 2) with 4 in Hk.
    assert (P = 3 \/ P = 4) as [?|HP4] by lia; [change (3 ^ (2 - 1)) with 3 in Hm; lia|].
    assert (2 <= Qceiling x) as H2.
    { apply ceiling_ge. unfold x. rewrite HP4. change 4 with (2 ^ 2).
      rewrite (log2_exact L 2) by lia. apply Qle_refl. }
    assert (2 <= R) by (rewrite HR; unfold as_usize; lia).
    pose proof (Z.pow_le_mono_r 3 2 R ltac:(lia) ltac:(lia)). lia.
Qed.
End Rounds.

(** [Barrier::new] with the default factor computes enough rounds: every PE hears from every
    PE ([num_pes <= (n + 1) ^ num_rounds]), and for teams of up to [2^39] PEs no arithmetic of
    the loops overflows, so that the premises of the two theorems above hold.  The rounds are
    computed in double precision from any [log2] with the laws of [f64::log2]. *)
Theorem new_rounds_enough log2 P (L : Log2Laws log2) (HP : 1 <= P < 2 ^ 53) :
  let '(n, R) := new_rounds log2 None P in
  1 <= n /\ P <= (n + 1) ^ R /\
  (P <= 2 ^ 39 -> P + n * (n + 1) ^ R < 9223372036854775808).
Proof.
  destruct (decide (2 < P)) as [H2|H2].
  - destruct (default_rounds log2 L P ltac:(lia)) as (k & R & -> & Hk & HkP & HRk & HRk' & Henough).
    split; [lia|split; [done|]]. intros HP39.
    assert (k <= 39).
    { destruct (decide (40 <= k)); [|lia]. pose proof (Z.pow_le_mono_r 2 39 (k - 1) ltac:(lia) ltac:(lia)). lia. }
    pose proof (Z.pow_le_mono_r 3 R 39 ltac:(lia) ltac:(lia)) as Hm.
    assert (3 ^ 39 = 4052555153018976267) as E by reflexivity. rewrite E in Hm.
    change (2 + 1) with 3. lia.
  - unfold new_rounds. rewrite (proj2 (Z.ltb_ge 2 P)) by lia. rewrite andb_false_r.
    assert (Hr : as_usize (Qfloor (log2 (f64_of_usize P))) = P - 1).
    { assert (P = 2 ^ 0 \/ P = 2 ^ 1) as [-> | ->] by lia;
        [rewrite (Qfloor_comp _ _ (log2_exact _ L 0 ltac:(lia)))
        |rewrite (Qfloor_comp _ _ (log2_exact _ L 1 ltac:(lia)))]; reflexivity. }
    rewrite Hr. assert (P = 1 \/ P = 2) as [-> | ->] by lia; vm_compute; split_and!; done || discriminate.
Qed.

(** The integral part of the logarithm: a concrete function with the laws. *)
Definition floor_log2 (q : Q) : Q := inject_Z (Z.log2 (Qfloor q)).

Lemma floor_log2_of_usize z : 1 <= z < 2 ^ 53 -> floor_log2 (f64_of_usize z) = inject_Z (Z.log2 z).
Proof.
  intros Hz. unfold floor_log2, f64_of_usize. f_equal. f_equal.
  rewrite (Qfloor_comp _ (inject_Z z)); [apply Qfloor_Z|]. apply fl64_int; [reflexivity|lia].
Qed.

Lemma floor_log2_laws : Log2Laws floor_log2.
Proof.
  split.
  - intros z Hz. rewrite floor_log2_of_usize by done. apply fl64_int; [reflexivity|].
    pose proof (Z.log2_nonneg z). pose proof (Z.log2_le_mono z (2 ^ 53) ltac:(lia)) as Hm.
    rewrite Z.log2_pow2 in Hm by lia. lia.
  - intros k Hk. pose proof (Z.pow_pos_nonneg 2 k ltac:(lia) ltac:(lia)).
    pose proof (Z.pow_lt_mono_r 2 k 53 ltac:(lia) ltac:(lia) ltac:(lia)).
    rewrite floor_log2_of_usize by lia. rewrite Z.log2_pow2 by lia. reflexivity.
  - intros z z' Hz Hz'. rewrite !floor_log2_of_usize by lia. rewrite <- Zle_Qle.
    apply Z.log2_le_mono. lia.
Qed.

Lemma new_rounds_enough_witness :
  new_rounds floor_log2 None 8 = (2, 3) /\ 8 <= (2 + 1) ^ 3.
Proof.
  split; [vm_compute; reflexivity|].
  pose proof (new_rounds_enough floor_log2 8 floor_log2_laws ltac:(lia)) as H.
  assert (E : new_rounds floor_log2 None 8 = (2, 3)) by (vm_compute; reflexivity).
  rewrite E in H. exact (proj1 (proj2 H)).
Defined.

(** With [LAMELLAR_BARRIER_DISSEMNATION_FACTOR=1] the barrier of three PEs does not
    synchronise: [Barrier::new] truncates the logarithm to one round, and a PE can leave the
    first barrier while another has not entered it. *)
Theorem factor_one_unsafe log2 (H2 : (1 <= log2 (f64_of_usize 3) /\ log2 (f64_of_usize 3) < 2)%Q) :
  new_rounds log2 (Some 1) 3 = (1, 1) /\
  exists s, reachable 3 1 1 true s /\ pc s 0 = Outside /\ barrier_cnt s 0 = 2 /\ barrier_cnt s 1 = 1.
Proof.
  split.
  - change (new_rounds log2 (Some 1) 3) with (1, as_usize (Qfloor (log2 (f64_of_usize 3)))).
    f_equal. rewrite (Qfloor_unique _ 1); [reflexivity|apply H2|].
    change (inject_Z 1 + 1)%Q with 2%Q. apply H2.
  - eexists. split; [|split_and!].
    + unfold reachable. eapply rtc_l; [apply (step_enter 3 1 1 true _ 0); [lia|reflexivity|reflexivity]|cbn].
      eapply rtc_l; [apply (step_enter 3 1 1 true _ 2); [lia|reflexivity|reflexivity]|cbn].
      pe_send 0. pe_send 2. eapply rtc_l; [apply step_inside;
        eapply (step_deliver _ _ _ _ _ _ [_]); [reflexivity|]|cbn].
      { intros _. constructor; [|constructor]. intros (E & _ & _). discriminate E. }
      pe_recv 0. apply rtc_refl.
    + reflexivity.
    + reflexivity.
    + reflexivity.
Qed.

Lemma factor_one_unsafe_witness :
  exists s, reachable 3 1 1 true s /\ pc s 0 = Outside /\ barrier_cnt s 0 = 2 /\ barrier_cnt s 1 = 1.
Proof.
  apply (factor_one_unsafe floor_log2). split; vm_compute; [discriminate|reflexivity].
Defined.
