(* ===== verification/GlobalRwLock.v ===== *)
(** * GlobalRwLock: the distributed read-write lock of [GlobalRwDarc]

    Models [src/darc/global_rw_darc.rs].  The counters of the lock live on PE 0 and every
    request runs there as a task ([LockAm], [UnlockAm]); each load, compare-and-exchange or
    fetch-and-add of a task is one atomic step, and the tasks interleave at every one of them. *)

From stdpp Require Import base list numbers relations.
From Stdlib Require Import ZArith Lia.
From S2P Require Import Prelude.
Local Open Scope Z_scope.

(** ** State *)

Inductive LockType :=
| Read
| Write
| CollectiveWrite (cnt : Z).

(** The atomics of [DistRwLock]; [collective_cnt] is the one of the instance of each PE. *)
Record DistRwLock := {
  readers : Z;
  writer : Z;
  collective_writer : Z;
  collective_cnt : Z -> Z;
}.

Section Lock.
(** [self.team.num_pes] *)
Context (num_pes : Z).

Definition lock_new : DistRwLock :=
  {| readers := 0; writer := num_pes; collective_writer := num_pes;
     collective_cnt := fun _ => num_pes + 1 |}.

Definition set_readers (l : DistRwLock) (v : Z) : DistRwLock :=
  {| readers := v; writer := writer l; collective_writer := collective_writer l;
     collective_cnt := collective_cnt l |}.
Definition set_writer (l : DistRwLock) (v : Z) : DistRwLock :=
  {| readers := readers l; writer := v; collective_writer := collective_writer l;
     collective_cnt := collective_cnt l |}.
Definition set_collective_writer (l : DistRwLock) (v : Z) : DistRwLock :=
  {| readers := readers l; writer := writer l; collective_writer := v;
     collective_cnt := collective_cnt l |}.

(** [self.writer.compare_exchange(old, new)] *)
Definition cas_writer (l : DistRwLock) (old new : Z) : option DistRwLock :=
  if writer l =? old then Some (set_writer l new) else None.

(** ** The lock operations

    Each type lists the points of a function at which it performs its next atomic operation;
    each function performs that operation and gives the next point, [None] when it returns. *)

Inductive ReaderLock :=
| RSpin    (* while self.writer.load(..) != num_pes *)
| RAdd     (* self.readers.fetch_add(1) *)
| RCheck   (* if self.writer.load(..) == num_pes *)
| RSub.    (* self.readers.fetch_sub(1) *)

Definition async_reader_lock (l : DistRwLock) (k : ReaderLock) : DistRwLock * option ReaderLock :=
  match k with
  | RSpin => (l, Some (if negb (writer l =? num_pes) then RSpin else RAdd))
  | RAdd => (set_readers l (wadd (readers l) 1), Some RCheck)
  | RCheck => (l, if writer l =? num_pes then None else Some RSub)
  | RSub => (set_readers l (wsub (readers l) 1), Some RSpin)
  end.

Inductive WriterLock :=
| WCas     (* self.writer.compare_exchange(num_pes, pe) *)
| WSpin.   (* while self.readers.load(..) != 0 *)

Definition async_writer_lock (l : DistRwLock) (pe : Z) (k : WriterLock) :
    DistRwLock * option WriterLock :=
  match k with
  | WCas => match cas_writer l num_pes pe with
            | Some l' => (l', Some WSpin)
            | None => (l, Some WCas)
            end
  | WSpin => (l, if negb (readers l =? 0) then Some WSpin else None)
  end.

Inductive CollectiveLock :=
| CWriter (k : WriterLock)  (* self.async_writer_lock(collective_cnt) *)
| CSpin                     (* while self.writer.load(..) != collective_cnt *)
| CReaders                  (* while self.readers.load(..) != 0 *)
| CSub                      (* self.collective_writer.fetch_sub(1) *)
| CWait.                    (* while self.collective_writer.load(..) != 0 *)

Definition collective_start (pe : Z) : CollectiveLock := if pe =? 0 then CWriter WCas else CSpin.

Definition async_collective_writer_lock (l : DistRwLock) (cnt : Z) (k : CollectiveLock) :
    DistRwLock * option CollectiveLock :=
  match k with
  | CWriter w => match async_writer_lock l cnt w with
                 | (l', Some w') => (l', Some (CWriter w'))
                 | (l', None) => (l', Some CSub)
                 end
  | CSpin => (l, Some (if negb (writer l =? cnt) then CSpin else CReaders))
  | CReaders => (l, Some (if negb (readers l =? 0) then CReaders else CSub))
  | CSub => (set_collective_writer l (wsub (collective_writer l) 1), Some CWait)
  | CWait => (l, if negb (collective_writer l =? 0) then Some CWait else None)
  end.

Definition reader_unlock (l : DistRwLock) : DistRwLock := set_readers l (wsub (readers l) 1).

Definition writer_unlock (l : DistRwLock) (pe : Z) : outcome DistRwLock :=
  match cas_writer l pe num_pes with
  | Some l' => Done l'
  | None => Panic
  end.

Inductive CollectiveUnlock :=
| UCheck    (* if collective_cnt != self.writer.load(..) *)
| UAdd      (* self.collective_writer.fetch_add(1) *)
| UWait     (* while self.collective_writer.load(..) != num_pes *)
| URelease. (* self.writer.compare_exchange(collective_cnt, num_pes) *)

Definition collective_writer_unlock (l : DistRwLock) (pe cnt : Z) (k : CollectiveUnlock) :
    outcome (DistRwLock * option CollectiveUnlock) :=
  match k with
  | UCheck => if negb (cnt =? writer l) then Panic else Done (l, Some UAdd)
  | UAdd => Done (set_collective_writer l (wadd (collective_writer l) 1), Some UWait)
  | UWait => Done (l, if negb (collective_writer l =? num_pes) then Some UWait
                      else if pe =? 0 then Some URelease else None)
  | URelease => match cas_writer l cnt num_pes with
                | Some l' => Done (l', None)
                | None => Panic
                end
  end.

(** ** Requests: from the call to the end of the unlock message *)

Inductive Task :=
| LReader (pe : Z) (k : ReaderLock)             (* [LockAm] running *)
| HReader (pe : Z) (local_cnt : Z)              (* [GlobalRwDarcReadGuard] and its clones *)
| UReader (pe : Z)                              (* [UnlockAm] to run *)
| LWriter (pe : Z) (k : WriterLock)
| HWriter (pe : Z)                              (* [GlobalRwDarcWriteGuard] *)
| UWriter (pe : Z)
| LColl (pe cnt : Z) (k : CollectiveLock)
| HColl (pe cnt : Z)                            (* [GlobalRwDarcCollectiveWriteGuard] *)
| UColl (pe cnt : Z) (k : CollectiveUnlock)
| Finished
| Panicked.

(** The start of [LockAm::exec]. *)
Definition start_lock (orig_pe : Z) (lock_type : LockType) : Task :=
  match lock_type with
  | Read => LReader orig_pe RSpin
  | Write => LWriter orig_pe WCas
  | CollectiveWrite cnt => LColl orig_pe cnt (collective_start orig_pe)
  end.

(** [LockAm::exec] and [UnlockAm::exec]: the next atomic operation of a request. *)
Definition lock_am (l : DistRwLock) (t : Task) : DistRwLock * Task :=
  match t with
  | LReader pe k => let '(l', k') := async_reader_lock l k in
                    (l', from_option (LReader pe) (HReader pe 1) k')
  | LWriter pe k => let '(l', k') := async_writer_lock l pe k in
                    (l', from_option (LWriter pe) (HWriter pe) k')
  | LColl pe cnt k => let '(l', k') := async_collective_writer_lock l cnt k in
                      (l', from_option (LColl pe cnt) (HColl pe cnt) k')
  | _ => (l, t)
  end.

Definition unlock_am (l : DistRwLock) (t : Task) : DistRwLock * Task :=
  match t with
  | UReader pe => (reader_unlock l, Finished)
  | UWriter pe => match writer_unlock l pe with
                  | Done l' => (l', Finished)
                  | Panic => (l, Panicked)
                  end
  | UColl pe cnt k => match collective_writer_unlock l pe cnt k with
                      | Done (l', k') => (l', from_option (UColl pe cnt) Finished k')
                      | Panic => (l, Panicked)
                      end
  | _ => (l, t)
  end.

Definition run (l : DistRwLock) (t : Task) : DistRwLock * Task :=
  match t with
  | UReader _ | UWriter _ | UColl _ _ _ => unlock_am l t
  | _ => lock_am l t
  end.

(** [Drop] and [Clone] of the guards. *)
Definition drop_read_guard (pe local_cnt : Z) : Task :=
  if local_cnt =? 1 then UReader pe else HReader pe (wsub local_cnt 1).
Definition drop_write_guard (pe : Z) : Task := UWriter pe.
Definition drop_collective_guard (pe cnt : Z) : Task := UColl pe cnt UCheck.

Definition drop_guard (t : Task) : Task :=
  match t with
  | HReader pe local_cnt => drop_read_guard pe local_cnt
  | HWriter pe => drop_write_guard pe
  | HColl pe cnt => drop_collective_guard pe cnt
  | t => t
  end.

Definition clone_guard (t : Task) : Task :=
  match t with
  | HReader pe local_cnt => HReader pe (wadd local_cnt 1)
  | t => t
  end.

(** [read], [write] and [collective_write] on PE [pe]: the request that is sent. *)
Definition read (pe : Z) : Task := start_lock pe Read.
Definition write (pe : Z) : Task := start_lock pe Write.
Definition collective_write (l : DistRwLock) (pe : Z) : DistRwLock * Task :=
  let cnt := collective_cnt l pe in
  ({| readers := readers l; writer := writer l; collective_writer := collective_writer l;
      collective_cnt := fun q => if q =? pe then wadd cnt 1 else collective_cnt l q |},
   start_lock pe (CollectiveWrite cnt)).

Record St := { lock : DistRwLock; tasks : list Task }.

Definition st_init : St := {| lock := lock_new; tasks := [] |}.

(** Executions of fewer than [2^64] requests are considered: the counters do not wrap. *)
Inductive lstep : St -> St -> Prop :=
| step_read s pe :
    0 <= pe < num_pes -> Z.of_nat (length (tasks s)) + 1 < USIZE ->
    lstep s {| lock := lock s; tasks := tasks s ++ [read pe] |}
| step_write s pe :
    0 <= pe < num_pes -> Z.of_nat (length (tasks s)) + 1 < USIZE ->
    lstep s {| lock := lock s; tasks := tasks s ++ [write pe] |}
| step_collective s pe :
    0 <= pe < num_pes -> Z.of_nat (length (tasks s)) + 1 < USIZE ->
    collective_cnt (lock s) pe + 1 < USIZE ->
    lstep s {| lock := fst (collective_write (lock s) pe);
               tasks := tasks s ++ [snd (collective_write (lock s) pe)] |}
| step_run s i t :
    tasks s !! i = Some t ->
    lstep s {| lock := fst (run (lock s) t); tasks := <[i := snd (run (lock s) t)]> (tasks s) |}
| step_drop s i t :
    tasks s !! i = Some t -> lstep s {| lock := lock s; tasks := <[i := drop_guard t]> (tasks s) |}
| step_clone s i pe c :
    tasks s !! i = Some (HReader pe c) -> c + 1 < USIZE ->
    lstep s {| lock := lock s; tasks := <[i := clone_guard (HReader pe c)]> (tasks s) |}.

Definition lreachable (s : St) : Prop := rtc lstep st_init s.

(** ** Features of a request *)

Definition task_pe (t : Task) : option Z :=
  match t with
  | LReader pe _ | HReader pe _ | UReader pe | LWriter pe _ | HWriter pe | UWriter pe
  | LColl pe _ _ | HColl pe _ | UColl pe _ _ => Some pe
  | Finished | Panicked => None
  end.

(** Counted in [readers]; holding the read lock. *)
Definition counted (t : Task) : bool :=
  match t with
  | LReader _ (RCheck | RSub) | HReader _ _ | UReader _ => true
  | _ => false
  end.
Definition reading (t : Task) : bool :=
  match t with HReader _ _ | UReader _ => true | _ => false end.

(** The value the request has put in [writer]; whether it then saw no readers. *)
Definition owns (t : Task) : option Z :=
  match t with
  | LWriter pe WSpin | HWriter pe | UWriter pe => Some pe
  | LColl pe cnt (CWriter WSpin | CSub | CWait) | HColl pe cnt
  | UColl pe cnt _ => if pe =? 0 then Some cnt else None
  | _ => None
  end.
Definition settled (t : Task) : bool :=
  match t with
  | HWriter _ | UWriter _ => true
  | LColl pe _ (CSub | CWait) | HColl pe _ | UColl pe _ _ => pe =? 0
  | _ => false
  end.

(** Collective requests: before and after [collective_writer] was decremented, until it is
    incremented again, after everyone had decremented it, and about to release. *)
Definition coll (t : Task) : option (Z * Z) :=
  match t with LColl pe cnt _ | HColl pe cnt | UColl pe cnt _ => Some (pe, cnt) | _ => None end.
Definition pre_sub (t : Task) : option Z :=
  match t with LColl _ cnt (CWriter _ | CSpin | CReaders | CSub) => Some cnt | _ => None end.
Definition between (t : Task) : bool :=
  match t with
  | LColl _ _ CWait | HColl _ _ | UColl _ _ (UCheck | UAdd) => true
  | _ => false
  end.
Definition entered (t : Task) : option Z :=
  match t with
  | LColl _ cnt (CWriter WSpin | CReaders | CSub | CWait) | HColl _ cnt
  | UColl _ cnt (UCheck | UAdd) => Some cnt
  | _ => None
  end.
Definition past_wait (t : Task) : option Z :=
  match t with HColl _ cnt | UColl _ cnt _ => Some cnt | _ => None end.
Definition releasing (t : Task) : bool :=
  match t with UColl _ _ URelease => true | _ => false end.

(** What each request satisfies... *)
Record task_ok (l : DistRwLock) (t : Task) : Prop := {
  ok_panic : t <> Panicked;
  ok_pe : forall pe, task_pe t = Some pe -> 0 <= pe < num_pes;
  ok_coll : forall pe c, coll t = Some (pe, c) -> num_pes < c < collective_cnt l pe;
  ok_owns : forall w, owns t = Some w -> writer l = w;
  ok_entered : forall c, entered t = Some c -> writer l = c;
  ok_past : forall c q, past_wait t = Some c -> 0 <= q < num_pes -> c < collective_cnt l q;
  ok_shape : match t with
             | LColl pe _ (CWriter _) | UColl pe _ URelease => pe = 0
             | LColl pe _ (CSpin | CReaders) => pe <> 0
             | _ => True
             end;
}.

(** ...and each two requests. *)
Record pair_ok (t u : Task) : Prop := {
  ok_owner : owns t = None \/ owns u = None;
  ok_excl : settled t = true -> reading u = false;
  ok_once : forall k, coll t = Some k -> coll u <> Some k;
  ok_all : forall c, past_wait t = Some c -> pre_sub u <> Some c;
  ok_release : releasing t = true -> between u = false;
}.

Record inv (s : St) : Prop := {
  inv_task : forall i t, tasks s !! i = Some t -> task_ok (lock s) t;
  inv_pair : forall i j t u, i <> j -> tasks s !! i = Some t -> tasks s !! j = Some u -> pair_ok t u;
  inv_readers : readers (lock s) = zcount counted (tasks s);
  inv_cw : collective_writer (lock s) = num_pes - zcount between (tasks s);
  inv_writer : writer (lock s) = num_pes \/
    exists i t, tasks s !! i = Some t /\ owns t = Some (writer (lock s));
  inv_length : Z.of_nat (length (tasks s)) < USIZE;
  inv_cnt : forall q, num_pes < collective_cnt (lock s) q < USIZE;
}.

(** How the features follow from each other. *)
Lemma settled_owns t : settled t = true -> is_Some (owns t).
Proof.
  destruct t as [| | | | | |pe c []|pe c|pe c k| |]; cbn; try done;
    destruct (pe =? 0); intros; done || by eexists.
Qed.
Lemma reading_counted t : reading t = true -> counted t = true.
Proof. by destruct t. Qed.
Lemma between_entered t : between t = true -> is_Some (entered t).
Proof. destruct t as [| | | | | |pe c []|pe c|pe c []| |]; cbn; try done; by eexists. Qed.
Lemma entered_coll t c : entered t = Some c -> exists pe, coll t = Some (pe, c).
Proof. destruct t as [| | | | | |pe c' [[]| | | |]|pe c'|pe c' []| |]; cbn; intros; simplify_eq; by eexists. Qed.
Lemma entered_cases t c : entered t = Some c -> pre_sub t = Some c \/ between t = true.
Proof. destruct t as [| | | | | |pe c' [[]| | | |]|pe c'|pe c' []| |]; cbn; intros; simplify_eq; auto. Qed.

Lemma owns_pos l t w : task_ok l t -> owns t = Some w -> writer l <> num_pes.
Proof.
  intros [_ Hpe Hc Ho _ _ _] E. rewrite (Ho w E).
  destruct t as [| | |pe []|pe|pe|pe c [[]| | | |]|pe c|pe c k| |]; cbn in *; try done;
    try (destruct (pe =? 0)); simplify_eq;
    (specialize (Hpe _ eq_refl); lia) || (destruct (Hc _ _ eq_refl); lia).
Qed.

(** Replacing one request by another. *)
Lemma inv_update s i t l' t' :
  inv s -> tasks s !! i = Some t -> task_ok l' t' ->
  (forall j u, j <> i -> tasks s !! j = Some u -> task_ok (lock s) u -> pair_ok t u -> pair_ok u t ->
    task_ok l' u /\ pair_ok t' u /\ pair_ok u t') ->
  readers l' = readers (lock s) - Z.b2z (counted t) + Z.b2z (counted t') ->
  collective_writer l' = collective_writer (lock s) + Z.b2z (between t) - Z.b2z (between t') ->
  (writer l' = num_pes \/ owns t' = Some (writer l') \/
   writer l' = writer (lock s) /\ owns t = None) ->
  collective_cnt l' = collective_cnt (lock s) ->
  inv {| lock := l'; tasks := <[i := t']> (tasks s) |}.
Proof.
  intros [H1 H2 H3 H4 H5 H6 H7] Hi Ht' Hu Hr Hcw Hw Hcnt.
  assert (Hother : forall j u, j <> i -> tasks s !! j = Some u ->
            task_ok l' u /\ pair_ok t' u /\ pair_ok u t').
  { intros j u Hj Hju. apply (Hu j u); eauto. }
  assert (Hilt : (i < length (tasks s))%nat) by (by eapply lookup_lt_Some).
  split; cbn.
  - intros j u [(-> & <- & _)|[Hne Hju]]%list_lookup_insert_Some; [done|]. by apply (Hother j).
  - intros j k u v Hne [(<- & <- & _)|[Hj Hju]]%list_lookup_insert_Some
      [(<- & <- & _)|[Hk Hkv]]%list_lookup_insert_Some; [done|by eapply Hother|by eapply Hother|].
    by apply (H2 j k).
  - rewrite (zcount_insert _ _ _ t) by done. lia.
  - rewrite (zcount_insert _ _ _ t) by done. lia.
  - destruct Hw as [Hw|[Hw|[Hw Hot]]]; [by left|right|].
    + exists i, t'. by rewrite list_lookup_insert_eq.
    + rewrite Hw. destruct H5 as [?|(j & u & Hju & Hou)]; [by left|right].
      exists j, u. split; [|done]. rewrite list_lookup_insert_ne; [done|]. intros <-. congruence.
  - by rewrite length_insert.
  - by rewrite Hcnt.
Qed.

(** A new request. *)
Lemma inv_spawn s l' t' :
  inv s -> Z.of_nat (length (tasks s)) + 1 < USIZE -> task_ok l' t' ->
  (forall u, task_ok (lock s) u -> task_ok l' u /\ pair_ok t' u /\ pair_ok u t') ->
  counted t' = false -> between t' = false ->
  readers l' = readers (lock s) -> collective_writer l' = collective_writer (lock s) ->
  writer l' = writer (lock s) -> (forall q, num_pes < collective_cnt l' q < USIZE) ->
  inv {| lock := l'; tasks := tasks s ++ [t'] |}.
Proof.
  intros [H1 H2 H3 H4 H5 H6 H7] Hlen Ht' Hu Hc Hb Hr Hcw Hw Hcnt.
  assert (Hlook : forall j u, (tasks s ++ [t']) !! j = Some u ->
            (j < length (tasks s))%nat /\ tasks s !! j = Some u \/ j = length (tasks s) /\ u = t').
  { intros j u [H|[H E]]%lookup_app_Some; [left; split; [by eapply lookup_lt_Some|done]|right].
    apply list_lookup_singleton_Some in E as [? ->]. split; [lia|done]. }
  split; cbn.
  - intros j u [[_ Hj]|[_ ->]]%Hlook; [|done]. apply Hu. eauto.
  - intros j k u v Hne [[Hlj Hj]|[Ej ->]]%Hlook [[Hlk Hk]|[Ek ->]]%Hlook.
    + by apply (H2 j k).
    + apply Hu. eauto.
    + apply Hu. eauto.
    + lia.
  - autorewrite with sums. rewrite Hc. cbn. lia.
  - autorewrite with sums. rewrite Hb. cbn. lia.
  - rewrite Hw. destruct H5 as [?|(j & u & Hj & Ho)]; [by left|right].
    exists j, u. split; [|done]. by apply lookup_app_l_Some.
  - rewrite length_app. cbn. lia.
  - done.
Qed.

(** A step that only a task makes, the lock and its features being as before. *)
Definition weaker (t' t : Task) : Prop :=
  (owns t' = owns t \/ owns t' = None) /\ (settled t' = true -> settled t = true) /\
  (reading t' = true -> reading t = true) /\ (coll t' = coll t \/ coll t' = None) /\
  (past_wait t' = past_wait t \/ past_wait t' = None) /\
  (pre_sub t' = pre_sub t \/ pre_sub t' = None) /\ (between t' = true -> between t = true) /\
  (releasing t' = true -> releasing t = true).

(** How the features of one request may change while another, [u], stays: a new feature needs
    that [u] does not conflict with it. *)
Lemma pair_update t t' u :
  pair_ok t u -> pair_ok u t ->
  (owns t' = owns t \/ owns t' = None) \/ owns u = None ->
  (settled t' = true -> settled t = true \/ reading u = false) ->
  (reading t' = true -> reading t = true \/ settled u = false) ->
  coll t' = coll t \/ coll t' = None ->
  (forall c, past_wait t' = Some c -> past_wait t = Some c \/ pre_sub u <> Some c) ->
  pre_sub t' = pre_sub t \/ pre_sub t' = None ->
  (between t' = true -> between t = true \/ releasing u = false) ->
  (releasing t' = true -> releasing t = true \/ between u = false) ->
  pair_ok t' u /\ pair_ok u t'.
Proof.
  intros [A1 A2 A3 A4 A5] [B1 B2 B3 B4 B5] W1 W2 W3 W4 W5 W6 W7 W8.
  split; split.
  - destruct W1 as [[-> | ->]|]; auto.
  - intros H. destruct (W2 H); auto.
  - intros k. destruct W4 as [-> | ->]; auto; done.
  - intros c H. destruct (W5 c H); auto.
  - intros H. destruct (W8 H); auto.
  - destruct W1 as [[-> | ->]|]; auto.
  - intros H. destruct (reading t') eqn:E; [|done]. destruct (W3 eq_refl) as [E'|E']; [|congruence].
    by rewrite (B2 H) in E'.
  - intros k H. destruct W4 as [-> | ->]; auto.
  - intros c H. destruct W6 as [-> | ->]; auto.
  - intros H. destruct (between t') eqn:E; [|done]. destruct (W7 eq_refl) as [E'|E']; [|congruence].
    by rewrite (B5 H) in E'.
Qed.

Lemma weaker_pair t t' u : weaker t' t -> pair_ok t u -> pair_ok u t -> pair_ok t' u /\ pair_ok u t'.
Proof.
  intros (W1 & W2 & W3 & W4 & W5 & W6 & W7 & W8) H1 H2. eapply pair_update; eauto.
  intros c Hc. destruct W5 as [E|E]; rewrite E in Hc; by auto.
Qed.

Lemma task_ok_lock l l' u :
  writer l' = writer l -> collective_cnt l' = collective_cnt l -> task_ok l u -> task_ok l' u.
Proof. intros Ew Ec [H1 H2 H3 H4 H5 H6 H7]. split; try rewrite Ew; try rewrite Ec; done. Qed.

Lemma inv_weaker s i t l' t' :
  inv s -> tasks s !! i = Some t -> task_ok l' t' -> weaker t' t ->
  writer l' = writer (lock s) -> collective_cnt l' = collective_cnt (lock s) ->
  readers l' = readers (lock s) - Z.b2z (counted t) + Z.b2z (counted t') ->
  collective_writer l' = collective_writer (lock s) + Z.b2z (between t) - Z.b2z (between t') ->
  owns t' = owns t ->
  inv {| lock := l'; tasks := <[i := t']> (tasks s) |}.
Proof.
  intros Hs Hi Ht' Hw Ew Ec Er Ecw Eo. eapply inv_update; try done.
  - intros j u Hj Hju Hu H1 H2. split; [by eapply task_ok_lock|by eapply weaker_pair].
  - rewrite Ew, Eo. destruct (inv_writer s Hs) as [?|(j & v & Hj & Hv)]; [by left|right].
    destruct (decide (j = i)) as [->|Hne]; [left; congruence|].
    destruct (ok_owner _ _ (inv_pair s Hs i j t v ltac:(done) Hi Hj)) as [?|?]; [by right|congruence].
Qed.

(** No request owns the lock while [writer] is [num_pes]. *)
Lemma not_owned l u : task_ok l u -> writer l = num_pes -> owns u = None /\ entered u = None.
Proof.
  intros Hu E. split.
  - destruct (owns u) eqn:Eo; [|done]. by destruct (owns_pos l u _ Hu Eo).
  - destruct (entered u) as [c|] eqn:Ee; [|done]. destruct (entered_coll u c Ee) as [pe Hc].
    pose proof (ok_entered _ _ Hu c Ee). pose proof (ok_coll _ _ Hu pe c Hc). lia.
Qed.
Lemma not_owned_settled u : owns u = None -> settled u = false.
Proof.
  intros E. destruct (settled u) eqn:Es; [|done]. destruct (settled_owns u Es) as [w Hw]. congruence.
Qed.

Lemma counted_bound s i t :
  inv s -> tasks s !! i = Some t -> counted t = false -> readers (lock s) + 1 < USIZE.
Proof.
  intros Hs Hi Hc. pose proof (inv_readers s Hs). pose proof (inv_length s Hs).
  pose proof (zcount_insert counted _ _ _ (UReader 0) Hi) as E. rewrite Hc in E. cbn in E.
  pose proof (zcount_bounds counted (<[i:=UReader 0]> (tasks s))) as B. rewrite length_insert in B. lia.
Qed.

(** [weak_with ok r]: the step makes the request weaker; [ok] shows that it stays fine, [r]
    that [readers] is right. *)
Ltac weak_with ok r := eapply inv_weaker;
  [eassumption|eassumption|ok|unfold weaker; cbn; intuition congruence|done|done|r|cbn; lia|done].
(** A pair whose features change: the hypotheses tell what [u] does not conflict with. *)
Ltac pair_case H1 H2 := apply (pair_update _ _ _ H1 H2); cbn; intuition congruence.
Ltac weak_case := weak_with idtac ltac:(cbn; lia).

Lemma inv_reader_lock s i pe k :
  inv s -> tasks s !! i = Some (LReader pe k) ->
  inv {| lock := fst (run (lock s) (LReader pe k));
         tasks := <[i := snd (run (lock s) (LReader pe k))]> (tasks s) |}.
Proof.
  intros Hs Hi. pose proof (inv_task s Hs i _ Hi) as Ht.
  assert (Hok : forall k', task_ok (lock s) (LReader pe k')).
  { intros k'. destruct Ht as [T1 T2 T3 T4 T5 T6 T7]. split; cbn; done || by destruct k'. }
  destruct k; cbn -[wadd wsub].
  - destruct (negb _); weak_case; apply Hok.
  - pose proof (counted_bound s i _ Hs Hi eq_refl).
    pose proof (zcount_bounds counted (tasks s)). pose proof (inv_readers s Hs).
    weak_with ltac:(eapply task_ok_lock; [| |apply Hok]; done) ltac:(cbn -[wadd]; rewrite wadd_ok; lia).
  - destruct (Z.eqb_spec (writer (lock s)) num_pes) as [E|E]; cbn; [|weak_case; apply Hok].
    eapply inv_update; try done; cbn; [| |lia|lia|by left].
    + destruct Ht as [T1 T2 T3 T4 T5 T6 T7]. by split.
    + intros j u Hj Hju Hu H1 H2. split; [done|]. destruct (not_owned _ u Hu E) as [Ho _].
      pose proof (not_owned_settled u Ho). pair_case H1 H2.
  - pose proof (zcount_pos counted _ _ _ Hi eq_refl). pose proof (inv_readers s Hs).
    pose proof (zcount_bounds counted (tasks s)). pose proof (inv_length s Hs).
    weak_with ltac:(eapply task_ok_lock; [| |apply Hok]; done) ltac:(cbn -[wsub]; rewrite wsub_ok; lia).
Qed.

(** A request puts [w] in [writer]. *)
Lemma inv_acquire s i t t' w :
  inv s -> tasks s !! i = Some t -> writer (lock s) = num_pes ->
  task_ok (set_writer (lock s) w) t' -> owns t' = Some w -> settled t' = false ->
  reading t' = false -> counted t' = counted t -> coll t' = coll t -> past_wait t' = None ->
  pre_sub t' = pre_sub t -> between t' = between t -> releasing t' = false ->
  inv {| lock := set_writer (lock s) w; tasks := <[i := t']> (tasks s) |}.
Proof.
  intros Hs Hi E Ht' Eo Es Er Ec Ek Ep Eb Ebt Erl. eapply inv_update; try done; cbn.
  - intros j u Hj Hju Hu H1 H2. destruct (not_owned _ u Hu E) as [Ho He].
    split; [|by apply (pair_update t t' u H1 H2); cbn; intuition congruence].
    destruct Hu as [T1 T2 T3 T4 T5 T6 T7]. split; try done; intros; congruence.
  - rewrite Ec. lia.
  - rewrite Ebt. lia.
  - right; by left.
Qed.

Lemma inv_writer_lock s i pe k :
  inv s -> tasks s !! i = Some (LWriter pe k) ->
  inv {| lock := fst (run (lock s) (LWriter pe k));
         tasks := <[i := snd (run (lock s) (LWriter pe k))]> (tasks s) |}.
Proof.
  intros Hs Hi. pose proof (inv_task s Hs i _ Hi) as Ht.
  pose proof Ht as [T1 T2 T3 T4 T5 T6 T7]. destruct k; cbn.
  - unfold cas_writer. destruct (Z.eqb_spec (writer (lock s)) num_pes) as [E|E]; cbn; [|by weak_case].
    eapply inv_acquire; try done. split; cbn; try done. intros; by simplify_eq.
  - destruct (Z.eqb_spec (readers (lock s)) 0) as [E|E]; cbn; [|by weak_case].
    eapply inv_update; try done; cbn; [|lia|lia|].
    + intros j u Hj Hju Hu H1 H2. split; [done|].
      assert (reading u = false).
      { rewrite (inv_readers s Hs) in E. pose proof (zcount_0 _ _ _ _ E Hju).
        destruct (reading u) eqn:Er; [|done]. by rewrite (reading_counted u Er) in H. }
      pair_case H1 H2.
    + right; left. by rewrite (T4 pe).
Qed.

Lemma inv_reader_unlock s i pe :
  inv s -> tasks s !! i = Some (UReader pe) ->
  inv {| lock := fst (run (lock s) (UReader pe));
         tasks := <[i := snd (run (lock s) (UReader pe))]> (tasks s) |}.
Proof.
  intros Hs Hi. pose proof (inv_task s Hs i _ Hi) as Ht.
  pose proof (zcount_pos counted _ _ _ Hi eq_refl). pose proof (inv_readers s Hs).
  pose proof (zcount_bounds counted (tasks s)). pose proof (inv_length s Hs).
  weak_with ltac:(by split) ltac:(cbn -[wsub]; rewrite wsub_ok; lia).
Qed.

(** The owner gives the lock back. *)
Lemma inv_give_back s i t :
  inv s -> tasks s !! i = Some t -> owns t = Some (writer (lock s)) ->
  counted t = false -> between t = false ->
  (forall j u, j <> i -> tasks s !! j = Some u -> entered u = None) ->
  inv {| lock := set_writer (lock s) num_pes; tasks := <[i := Finished]> (tasks s) |}.
Proof.
  intros Hs Hi Eo Ec Eb He. eapply inv_update; try done; cbn; [| | |by left].
  - intros j u Hj Hju Hu H1 H2. split; [|pair_case H1 H2].
    destruct (ok_owner _ _ H1) as [?|Ho]; [congruence|].
    destruct Hu as [T1 T2 T3 T4 T5 T6 T7]. split; try done; [congruence|].
    intros c. by rewrite (He j).
  - rewrite Ec. cbn. lia.
  - rewrite Eb. cbn. lia.
Qed.

Lemma inv_writer_unlock s i pe :
  inv s -> tasks s !! i = Some (UWriter pe) ->
  inv {| lock := fst (run (lock s) (UWriter pe));
         tasks := <[i := snd (run (lock s) (UWriter pe))]> (tasks s) |}.
Proof.
  intros Hs Hi. pose proof (inv_task s Hs i _ Hi) as [T1 T2 T3 T4 T5 T6 T7].
  pose proof (T4 pe eq_refl) as E. cbn. unfold writer_unlock, cas_writer.
  rewrite (proj2 (Z.eqb_eq _ _) E). cbn. eapply inv_give_back; try done; [by rewrite E|].
  intros j u Hj Hju. pose proof (inv_task s Hs j u Hju) as Hu.
  destruct (entered u) as [c|] eqn:He; [|done]. destruct (entered_coll u c He) as [q Hq].
  pose proof (ok_entered _ _ Hu c He). pose proof (ok_coll _ _ Hu q c Hq).
  pose proof (T2 pe eq_refl). lia.
Qed.

(** *** Collective requests *)

Lemma pre_sub_coll t c : pre_sub t = Some c -> exists pe, coll t = Some (pe, c).
Proof. destruct t as [| | | | | |pe c' [[]| | | |]|pe c'|pe c' []| |]; cbn; intros; simplify_eq; by eexists. Qed.
Lemma pre_sub_between t c : pre_sub t = Some c -> between t = false.
Proof. by destruct t as [| | | | | |pe c' [[]| | | |]|pe c'|pe c' []| |]. Qed.
Lemma releasing_owner l t : task_ok l t -> releasing t = true -> owns t = past_wait t /\ is_Some (owns t).
Proof.
  intros [_ _ _ _ _ _ T7]. destruct t as [| | | | | | | |pe c []| |]; cbn in *; try done.
  intros _. rewrite T7. cbn. eauto.
Qed.

Lemma NoDup_omap_index {A B} (f : A -> option B) (l : list A) :
  (forall i j x y b, l !! i = Some x -> l !! j = Some y -> f x = Some b -> f y = Some b -> i = j) ->
  NoDup (omap f l).
Proof.
  induction l as [|x l IH]; intros H; cbn; [constructor|].
  assert (IH' : NoDup (omap f l)).
  { apply IH. intros i j y z b Hi Hj Hy Hz. by injection (H (S i) (S j) y z b Hi Hj Hy Hz). }
  destruct (f x) as [b|] eqn:E; [|done]. constructor; [|done].
  intros (y & (j & Hj)%list_elem_of_lookup & Hy)%list_elem_of_omap.
  by pose proof (H 0%nat (S j) x y b eq_refl Hj E Hy).
Qed.

Definition between_pe (t : Task) : option Z := if between t then task_pe t else None.

Lemma between_pe_coll l t q :
  task_ok l t -> between_pe t = Some q -> coll t = Some (q, writer l) /\ between t = true.
Proof.
  unfold between_pe. intros Hu H. destruct (between t) eqn:E; [|done]. split; [|done].
  destruct (between_entered t E) as [c Hc]. rewrite (ok_entered _ _ Hu c Hc).
  destruct t as [| | | | | |pe c' []|pe c'|pe c' []| |]; cbn in *; simplify_eq; done.
Qed.

Lemma between_count l ts :
  (forall j t, ts !! j = Some t -> task_ok l t) ->
  Z.of_nat (length (omap between_pe ts)) = zcount between ts.
Proof.
  induction ts as [|t ts IH]; intros H; [done|]. rewrite zcount_cons. cbn.
  specialize (IH (fun j => H (S j))). specialize (H 0%nat t eq_refl). unfold between_pe at 1.
  destruct (between t) eqn:E; [|cbn; lia].
  by destruct t as [| | | | | |pe c' []|pe c'|pe c' []| |]; cbn in *; rewrite ?Nat2Z.inj_succ, ?IH; try lia.
Qed.

(** At most one request of each PE is between the decrement and the increment. *)
Lemma between_submseteq s : inv s -> omap between_pe (tasks s) ⊆+ seqZ 0 num_pes.
Proof.
  intros Hs. apply NoDup_submseteq.
  - apply NoDup_omap_index. intros i j x y b Hi Hj Hx Hy. destruct (decide (i = j)) as [|Hne]; [done|].
    destruct (between_pe_coll _ _ _ (inv_task s Hs i x Hi) Hx) as [Cx _].
    destruct (between_pe_coll _ _ _ (inv_task s Hs j y Hj) Hy) as [Cy _].
    by destruct (ok_once _ _ (inv_pair s Hs i j x y Hne Hi Hj) _ Cx).
  - intros x (u & (j & Hj)%list_elem_of_lookup & Hu)%list_elem_of_omap.
    pose proof (inv_task s Hs j u Hj) as Hok. unfold between_pe in Hu.
    destruct (between u); [|done]. apply elem_of_seqZ. pose proof (ok_pe _ _ Hok x Hu). lia.
Qed.

Lemma cw_bounds s : 0 <= num_pes -> inv s -> 0 <= collective_writer (lock s) <= num_pes.
Proof.
  intros HP Hs. pose proof (submseteq_length _ _ (between_submseteq s Hs)) as H.
  rewrite length_seqZ in H.
  pose proof (between_count (lock s) (tasks s) (inv_task s Hs)). rewrite (inv_cw s Hs).
  pose proof (zcount_bounds between (tasks s)). lia.
Qed.

(** When [collective_writer] is 0, every PE is in the collective call that owns the lock. *)
Lemma all_entered s :
  0 <= num_pes -> inv s -> collective_writer (lock s) = 0 -> forall q, 0 <= q < num_pes ->
  exists j u, tasks s !! j = Some u /\ between u = true /\ coll u = Some (q, writer (lock s)).
Proof.
  intros HP Hs E q Hq.
  pose proof (between_count (lock s) (tasks s) (inv_task s Hs)) as Hlen.
  pose proof (inv_cw s Hs) as Hcw.
  assert (Hperm : omap between_pe (tasks s) ≡ₚ seqZ 0 num_pes).
  { apply submseteq_length_Permutation; [by apply between_submseteq|]. rewrite length_seqZ. lia. }
  assert (Hin : q ∈ omap between_pe (tasks s)) by (rewrite Hperm; apply elem_of_seqZ; lia).
  apply list_elem_of_omap in Hin as (u & (j & Hj)%list_elem_of_lookup & Hu).
  exists j, u. split; [done|].
  destruct (between_pe_coll _ _ _ (inv_task s Hs j u Hj) Hu) as [??]. done.
Qed.

(** So no request of this call is yet to decrement it, and every PE has called. *)
Lemma none_waiting s j u c :
  0 <= num_pes -> inv s -> collective_writer (lock s) = 0 -> writer (lock s) = c ->
  tasks s !! j = Some u -> pre_sub u <> Some c.
Proof.
  intros HP Hs E <- Hj Hpre. destruct (pre_sub_coll u _ Hpre) as [q Hq].
  destruct (all_entered s HP Hs E q) as (k & v & Hk & Hb & Hv).
  { apply (ok_pe _ _ (inv_task s Hs j u Hj)). destruct u; cbn in *; by simplify_eq. }
  destruct (decide (k = j)) as [->|Hne].
  - simplify_eq. by rewrite (pre_sub_between u _ Hpre) in Hb.
  - by destruct (ok_once _ _ (inv_pair s Hs k j v u Hne Hk Hj) _ Hv).
Qed.

Lemma inv_coll_lock s i pe c k :
  0 <= num_pes -> inv s -> tasks s !! i = Some (LColl pe c k) ->
  inv {| lock := fst (run (lock s) (LColl pe c k));
         tasks := <[i := snd (run (lock s) (LColl pe c k))]> (tasks s) |}.
Proof.
  intros HP Hs Hi. pose proof (inv_task s Hs i _ Hi) as Ht.
  pose proof Ht as [T1 T2 T3 T4 T5 T6 T7].
  destruct k as [[]| | | |]; cbn -[wadd wsub].
  - subst pe. unfold cas_writer.
    destruct (Z.eqb_spec (writer (lock s)) num_pes) as [E|E]; cbn; [|by weak_case].
    eapply inv_acquire; try done. split; cbn; try done; intros; by simplify_eq.
  - subst pe. destruct (Z.eqb_spec (readers (lock s)) 0) as [E|E]; cbn; [|by weak_case].
    eapply inv_update; try done; cbn; [|lia|lia|].
    + intros j u Hj Hju Hu H1 H2. split; [done|].
      assert (reading u = false).
      { rewrite (inv_readers s Hs) in E. pose proof (zcount_0 _ _ _ _ E Hju).
        destruct (reading u) eqn:Er; [|done]. by rewrite (reading_counted u Er) in H. }
      pair_case H1 H2.
    + right; left. by rewrite (T4 c).
  - destruct (Z.eqb_spec (writer (lock s)) c) as [E|E]; cbn; [|by weak_case].
    weak_case. split; cbn; try done. intros; by simplify_eq.
  - pose proof (proj2 (Z.eqb_neq _ _) T7) as Epe.
    destruct (Z.eqb_spec (readers (lock s)) 0) as [E|E]; cbn; [|by weak_case].
    eapply inv_weaker; try done; cbn; try lia; [| |by rewrite Epe].
    + split; cbn; try done. by rewrite Epe.
    + unfold weaker; cbn. rewrite Epe. intuition congruence.
  - pose proof (cw_bounds s HP Hs) as Hb. pose proof (inv_cnt s Hs 0) as Hn.
    pose proof (T5 c eq_refl) as Ew.
    assert (Hcw : collective_writer (lock s) <> 0).
    { intros E. by destruct (none_waiting s i _ c HP Hs E Ew Hi). }
    eapply inv_update; try done; cbn -[wsub].
    + intros j u Hj Hju Hu H1 H2. split; [eapply task_ok_lock; [..|exact Hu]; done|].
      assert (releasing u = false).
      { destruct (releasing u) eqn:Er; [|done]. destruct (releasing_owner _ _ Hu Er) as [Eo [w Hw]].
        pose proof (ok_owns _ _ Hu w Hw). rewrite Hw in Eo.
        by destruct (ok_all _ _ H2 w (eq_sym Eo)); cbn; congruence. }
      pair_case H1 H2.
    + lia.
    + rewrite wsub_ok; lia.
    + destruct (inv_writer s Hs) as [?|(j & v & Hj & Hv)]; [by left|right].
      destruct (decide (j = i)) as [->|Hne]; [left; simplify_eq; done|].
      destruct (ok_owner _ _ (inv_pair s Hs i j _ v ltac:(done) Hi Hj)) as [?|?]; [by right|congruence].
  - destruct (Z.eqb_spec (collective_writer (lock s)) 0) as [E|E]; cbn; [|by weak_case].
    pose proof (T5 c eq_refl) as Ew.
    eapply inv_update; try done; cbn; [| |lia|lia|].
    + split; cbn; try done. intros c' q [= <-] Hq.
      destruct (all_entered s HP Hs E q Hq) as (j & u & Hj & _ & Hu).
      pose proof (ok_coll _ _ (inv_task s Hs j u Hj) _ _ Hu). lia.
    + intros j u Hj Hju Hu H1 H2. split; [done|].
      pose proof (none_waiting s j u c HP Hs E Ew Hju). apply (pair_update _ _ _ H1 H2); cbn; auto; try done.
      intros c' [= <-]. by right.
    + destruct (inv_writer s Hs) as [?|(j & v & Hj & Hv)]; [by left|right].
      destruct (decide (j = i)) as [->|Hne]; [left; simplify_eq; done|].
      destruct (ok_owner _ _ (inv_pair s Hs i j _ v ltac:(done) Hi Hj)) as [?|?]; [by right|congruence].
Qed.

Lemma inv_coll_unlock s i pe c k :
  0 <= num_pes -> inv s -> tasks s !! i = Some (UColl pe c k) ->
  inv {| lock := fst (run (lock s) (UColl pe c k));
         tasks := <[i := snd (run (lock s) (UColl pe c k))]> (tasks s) |}.
Proof.
  intros HP Hs Hi. pose proof (inv_task s Hs i _ Hi) as Ht.
  pose proof Ht as [T1 T2 T3 T4 T5 T6 T7].
  destruct k; cbn -[wadd wsub].
  - rewrite (T5 c eq_refl), Z.eqb_refl. cbn. weak_case. by split.
  - pose proof (cw_bounds s HP Hs) as Hb. pose proof (inv_cnt s Hs 0) as Hn.
    eapply inv_weaker; try done; [unfold weaker; cbn; intuition congruence|cbn; lia|].
    cbn -[wadd]. rewrite wadd_ok; lia.
  - destruct (Z.eqb_spec (collective_writer (lock s)) num_pes) as [E|E]; cbn; [|by weak_case].
    destruct (Z.eqb_spec pe 0) as [->|Hpe]; cbn.
    + eapply inv_update; try done; cbn; [|lia|lia|].
      * intros j u Hj Hju Hu H1 H2. split; [done|].
        assert (between u = false) by (eapply zcount_0; [|exact Hju]; rewrite (inv_cw s Hs) in E; lia).
        pair_case H1 H2.
      * right; left. by rewrite (T4 c).
    + apply Z.eqb_neq in Hpe. eapply inv_weaker; try done; cbn; try lia; [|by rewrite Hpe].
      unfold weaker; cbn. rewrite Hpe. intuition congruence.
  - unfold cas_writer. subst pe. rewrite (proj2 (Z.eqb_eq _ _) (T4 c eq_refl)). cbn.
    eapply inv_give_back; try done; [by rewrite (T4 c)|].
    intros j u Hj Hju. destruct (entered u) as [c'|] eqn:He; [exfalso|done].
    pose proof (ok_entered _ _ (inv_task s Hs j u Hju) c' He) as Ew.
    assert (c' = c) as -> by (rewrite <- Ew; by apply T4).
    pose proof (inv_pair s Hs i j _ u ltac:(done) Hi Hju) as Hpair.
    destruct (entered_cases u c He) as [Hpre|Hb].
    + by destruct (ok_all _ _ Hpair c eq_refl).
    + by rewrite (ok_release _ _ Hpair eq_refl) in Hb.
Qed.

Lemma inv_run s i t :
  0 <= num_pes -> inv s -> tasks s !! i = Some t ->
  inv {| lock := fst (run (lock s) t); tasks := <[i := snd (run (lock s) t)]> (tasks s) |}.
Proof.
  intros HP Hs Hi.
  destruct t; eauto using inv_reader_lock, inv_writer_lock, inv_coll_lock, inv_reader_unlock,
    inv_writer_unlock, inv_coll_unlock; cbn; rewrite list_insert_id by done; by destruct s.
Qed.

Lemma inv_drop s i t :
  inv s -> tasks s !! i = Some t -> inv {| lock := lock s; tasks := <[i := drop_guard t]> (tasks s) |}.
Proof.
  intros Hs Hi. pose proof (inv_task s Hs i _ Hi) as Ht.
  destruct t; cbn -[wsub]; try (rewrite list_insert_id by done; by destruct s).
  - destruct Ht as [T1 T2 T3 T4 T5 T6 T7]. unfold drop_read_guard. destruct (_ =? 1); weak_case; by split.
  - destruct Ht as [T1 T2 T3 T4 T5 T6 T7]. weak_case. by split.
  - destruct Ht as [T1 T2 T3 T4 T5 T6 T7]. weak_case. by split.
Qed.

Lemma inv_collective_write s pe :
  0 <= num_pes -> inv s -> 0 <= pe < num_pes -> Z.of_nat (length (tasks s)) + 1 < USIZE ->
  collective_cnt (lock s) pe + 1 < USIZE ->
  inv {| lock := fst (collective_write (lock s) pe);
         tasks := tasks s ++ [snd (collective_write (lock s) pe)] |}.
Proof.
  intros HP Hs Hpe Hlen Hw. cbn -[wadd]. pose proof (inv_cnt s Hs pe) as Hc.
  set (c := collective_cnt (lock s) pe) in *. rewrite wadd_ok by lia.
  set (l' := {| readers := _ |}).
  assert (Hmono : forall q, collective_cnt (lock s) q <= collective_cnt l' q).
  { intros q. cbn. destruct (Z.eqb_spec q pe) as [->|]; lia. }
  assert (Hfeat : owns (LColl pe c (collective_start pe)) = None /\
    entered (LColl pe c (collective_start pe)) = None /\
    between (LColl pe c (collective_start pe)) = false /\
    settled (LColl pe c (collective_start pe)) = false).
  { unfold collective_start. by destruct (pe =? 0). }
  destruct Hfeat as (F1 & F2 & F3 & F4).
  apply inv_spawn; try done.
  - split; try done.
    + intros q. cbn. intros [= <-]. done.
    + intros q c'. cbn. intros [= <- <-]. rewrite Z.eqb_refl. lia.
    + intros w. by rewrite F1.
    + intros w. by rewrite F2.
    + unfold collective_start. by destruct (Z.eqb_spec pe 0).
  - intros u [T1 T2 T3 T4 T5 T6 T7]. split; [|split].
    + split; try done.
      * intros q c' Hk. pose proof (T3 q c' Hk). pose proof (Hmono q). lia.
      * intros c' q Hk Hq. pose proof (T6 c' q Hk Hq). pose proof (Hmono q). lia.
    + split; try done; [by left|by rewrite F4|].
      intros k Hk Hu. cbn in Hk. simplify_eq. pose proof (T3 pe c Hu). lia.
    + split; try done; [by right| |].
      * intros k Hu Hk. cbn in Hk. simplify_eq. pose proof (T3 pe c Hu). lia.
      * intros c' Hu Hk. destruct (pre_sub_coll _ _ Hk) as [q Hq]. cbn in Hq. simplify_eq.
        pose proof (T6 _ _ Hu Hpe). lia.
  - cbn. intros q. pose proof (inv_cnt s Hs q). destruct (q =? pe); lia.
Qed.

Lemma inv_step s s' : 0 <= num_pes -> lstep s s' -> inv s -> inv s'.
Proof.
  intros HP Hstep Hs. destruct Hstep as [s pe Hpe Hlen|s pe Hpe Hlen|s pe Hpe Hlen Hc|s i t Hi|s i t Hi|s i pe c Hi Hc].
  - apply inv_spawn; try done; [|intros u Hu; split; [done|]|apply (inv_cnt s Hs)].
    + split; cbn; try done. by intros q [= <-].
    + split; split; cbn; auto; done.
  - apply inv_spawn; try done; [|intros u Hu; split; [done|]|apply (inv_cnt s Hs)].
    + split; cbn; try done. by intros q [= <-].
    + split; split; cbn; auto; done.
  - by apply inv_collective_write.
  - by apply inv_run.
  - by apply inv_drop.
  - pose proof (inv_task s Hs i _ Hi) as [T1 T2 T3 T4 T5 T6 T7]. cbn -[wadd]. weak_case. by split.
Qed.

Lemma inv_init : 0 <= num_pes -> num_pes + 1 < USIZE -> inv (st_init).
Proof. intros HP Hw. split; cbn; autorewrite with sums; try done; try lia; by left. Qed.

Lemma inv_reachable s : 0 <= num_pes -> num_pes + 1 < USIZE -> lreachable s -> inv s.
Proof.
  intros HP Hw. apply (rtc_ind_r inv); [by apply inv_init|]. intros; by eapply inv_step.
Qed.
End Lock.

(** ** Guards *)

Inductive Guard :=
| ReadGuard
| WriteGuard
| CollectiveGuard (pe cnt : Z).

Definition guard (t : Task) : option Guard :=
  match t with
  | HReader _ _ => Some ReadGuard
  | HWriter _ => Some WriteGuard
  | HColl pe cnt => Some (CollectiveGuard pe cnt)
  | _ => None
  end.

(** The guards of different requests that may exist at the same time. *)
Definition compatible (g h : Guard) : Prop :=
  match g, h with
  | ReadGuard, ReadGuard => True
  | CollectiveGuard pe cnt, CollectiveGuard pe' cnt' => pe <> pe' /\ cnt = cnt'
  | _, _ => False
  end.

(** A collective guard keeps the readers out, through the request of PE 0 that owns the lock. *)
Lemma coll_no_reader num_pes s i j pe c u :
  inv num_pes s -> tasks s !! i = Some (HColl pe c) -> tasks s !! j = Some u -> reading u = false.
Proof.
  intros Hs Hi Hj. pose proof (inv_task _ _ Hs i _ Hi) as Ht.
  pose proof (ok_entered _ _ _ Ht c eq_refl) as Ew. pose proof (ok_coll _ _ _ Ht pe c eq_refl) as Hc.
  destruct (inv_writer _ _ Hs) as [?|(k & v & Hk & Hv)]; [lia|]. rewrite Ew in Hv.
  pose proof (inv_task _ _ Hs k v Hk) as Hvok.
  assert (Hset : settled v = true).
  { destruct (decide (k = i)) as [->|Hne].
    - simplify_eq. cbn in *. by destruct (pe =? 0).
    - pose proof (ok_all _ _ (inv_pair _ _ Hs i k _ v ltac:(done) Hi Hk) c eq_refl) as Hall.
      pose proof (ok_pe _ _ _ Hvok) as Hpe.
      destruct v as [| | |q []|q|q|q c' [[]| | | |]|q c'|q c' k'| |]; cbn in *; try done;
        try (specialize (Hpe _ eq_refl); simplify_eq; lia); by destruct (q =? 0). }
  destruct (decide (k = j)) as [->|Hne]; [|by apply (ok_excl _ _ (inv_pair _ _ Hs k j v u Hne Hk Hj))].
  simplify_eq. by destruct u.
Qed.

Lemma guards_compatible num_pes s i j t u g h :
  inv num_pes s -> i <> j -> tasks s !! i = Some t -> tasks s !! j = Some u ->
  guard t = Some g -> guard u = Some h -> compatible g h.
Proof.
  intros Hs Hne Hi Hj Hg Hh. pose proof (inv_pair _ _ Hs i j t u Hne Hi Hj) as H1.
  pose proof (inv_pair _ _ Hs j i u t (not_eq_sym Hne) Hj Hi) as H2.
  pose proof (inv_task _ _ Hs i t Hi) as Ht. pose proof (inv_task _ _ Hs j u Hj) as Hu.
  destruct t as [|pe n| | |pe| | |pe c| | |], u as [|q m| | |q| | |q d| | |]; cbn in *; simplify_eq; cbn;
    try done.
  - by pose proof (ok_excl _ _ H2 eq_refl).
  - by pose proof (coll_no_reader _ _ _ _ _ _ _ Hs Hj Hi).
  - by pose proof (ok_excl _ _ H1 eq_refl).
  - by destruct (ok_owner _ _ H1).
  - pose proof (ok_owns _ _ _ Ht pe eq_refl). pose proof (ok_entered _ _ _ Hu d eq_refl).
    pose proof (ok_coll _ _ _ Hu q d eq_refl). pose proof (ok_pe _ _ _ Ht pe eq_refl). lia.
  - by pose proof (coll_no_reader _ _ _ _ _ _ _ Hs Hi Hj).
  - pose proof (ok_owns _ _ _ Hu q eq_refl). pose proof (ok_entered _ _ _ Ht c eq_refl).
    pose proof (ok_coll _ _ _ Ht pe c eq_refl). pose proof (ok_pe _ _ _ Hu q eq_refl). lia.
  - pose proof (ok_entered _ _ _ Ht c eq_refl). pose proof (ok_entered _ _ _ Hu d eq_refl).
    split; [|lia]. intros ->. by destruct (ok_once _ _ H1 (q, c) eq_refl); cbn; do 2 f_equal; lia.
Qed.

(** C3: The distributed read-write lock excludes.  For any number of concurrent read, write and
    collective-write requests from the PEs of the team, interleaved at every atomic operation:
    a write guard excludes every other guard; read guards exist only together with read guards;
    collective guards exist only together with the collective guards of the other PEs for the
    same call, and only once every PE has made that call; no unlock panics. *)
Theorem lock_exclusive num_pes s
    (HP : 0 <= num_pes) (Hw : num_pes + 1 < USIZE) (Hs : lreachable num_pes s) :
  (forall i j t u g h, i <> j -> tasks s !! i = Some t -> tasks s !! j = Some u ->
     guard t = Some g -> guard u = Some h -> compatible g h) /\
  (forall i pe cnt q, tasks s !! i = Some (HColl pe cnt) -> 0 <= q < num_pes ->
     cnt < collective_cnt (lock s) q) /\
  (forall i, tasks s !! i <> Some Panicked).
Proof.
  apply inv_reachable in Hs; [|done..]. split; [|split].
  - intros. by eapply guards_compatible.
  - intros i pe cnt q Hi Hq. by apply (ok_past _ _ _ (inv_task _ _ Hs i _ Hi)).
  - intros i Hi. by apply (ok_panic _ _ _ (inv_task _ _ Hs i _ Hi)).
Qed.

Ltac run_task i := eapply rtc_l; [eapply (step_run _ _ i); reflexivity|cbn].
Ltac drop_task i := eapply rtc_l; [eapply (step_drop _ _ i); reflexivity|cbn].

(** Two readers hold the lock and a writer has put its PE in [writer]. *)
Lemma lock_exclusive_witness :
  exists s, lreachable 2 s /\ tasks s = [HReader 0 1; HReader 1 1; LWriter 1 WSpin] /\
            compatible ReadGuard ReadGuard.
Proof.
  assert (H : exists s, lreachable 2 s /\ tasks s = [HReader 0 1; HReader 1 1; LWriter 1 WSpin]).
  { eexists. split.
    - unfold lreachable. eapply rtc_l; [apply (step_read _ _ 0); [lia|reflexivity]|cbn].
      eapply rtc_l; [apply (step_read _ _ 1); [lia|reflexivity]|cbn].
      eapply rtc_l; [apply (step_write _ _ 1); [lia|reflexivity]|cbn].
      run_task 0%nat. run_task 1%nat. run_task 0%nat. run_task 1%nat. run_task 0%nat.
      run_task 1%nat. run_task 2%nat. apply rtc_refl.
    - reflexivity. }
  destruct H as (s & Hs & E). exists s. split; [exact Hs|]. split; [exact E|].
  refine (proj1 (lock_exclusive 2 s _ _ Hs) 0%nat 1%nat (HReader 0 1) (HReader 1 1) _ _ _ _ _ eq_refl eq_refl);
    [lia|lia|lia|rewrite E; reflexivity|rewrite E; reflexivity].
Defined.

(** ** The collective lock can deadlock *)

(** PE 1 saw [collective_writer] reach 0 and has already incremented it again in its unlock,
    before PE 0 looked. *)
Record missed (s : St) : Prop := {
  missed_inv : inv 2 s;
  missed_0 : tasks s !! 0%nat = Some (LColl 0 3 CWait);
  missed_1 : tasks s !! 1%nat = Some (UColl 1 3 UWait);
  missed_cw : collective_writer (lock s) = 1;
  missed_guard : forall i t, tasks s !! i = Some t -> guard t = None;
}.

Lemma missed_writer s : missed s -> writer (lock s) = 3.
Proof. intros [Hs H0 _ _ _]. by apply (ok_entered _ _ _ (inv_task _ _ Hs 0%nat _ H0)). Qed.

Lemma missed_other s i t :
  missed s -> (1 < i)%nat -> tasks s !! i = Some t -> owns t = None /\ entered t = None.
Proof.
  intros Hm Hi Ht. pose proof (missed_writer s Hm) as Hw. destruct Hm as [Hs H0 H1 _ _].
  pose proof (inv_task _ _ Hs i t Ht) as Hok.
  pose proof (inv_pair _ _ Hs 0%nat i _ t ltac:(lia) H0 Ht) as P0.
  pose proof (inv_pair _ _ Hs 1%nat i _ t ltac:(lia) H1 Ht) as P1. split.
  - by destruct (ok_owner _ _ P0).
  - destruct (entered t) as [c|] eqn:Ee; [exfalso|done].
    destruct (entered_coll t c Ee) as [pe Hc]. pose proof (ok_entered _ _ _ Hok c Ee) as Ec.
    assert (0 <= pe < 2) by (apply (ok_pe _ _ _ Hok); destruct t; cbn in *; by simplify_eq).
    assert (pe = 0 \/ pe = 1) as [-> | ->] by lia.
    + apply (ok_once _ _ P0 (0, c)); [cbn; do 2 f_equal; lia|done].
    + apply (ok_once _ _ P1 (1, c)); [cbn; do 2 f_equal; lia|done].
Qed.

Lemma missed_run s i t :
  missed s -> (1 < i)%nat -> tasks s !! i = Some t ->
  collective_writer (fst (run 2 (lock s) t)) = 1 /\ guard (snd (run 2 (lock s) t)) = None.
Proof.
  intros Hm Hi Ht. destruct (missed_other s i t Hm Hi Ht) as [Ho He].
  pose proof (missed_writer s Hm) as Hw. pose proof (missed_cw s Hm) as Hc.
  pose proof (missed_guard s Hm i t Ht) as Hg.
  pose proof (ok_panic _ _ _ (inv_task _ _ (missed_inv s Hm) i t Ht)).
  destruct t as [pe []| | |pe []| | |pe c [[]| | | |]| |pe c []| |]; cbn -[wadd wsub] in *; try done;
    unfold writer_unlock, cas_writer; rewrite ?Hw, ?Hc; cbn -[wadd wsub];
    repeat case_match; simplify_eq; cbn; done.
Qed.

Lemma missed_step s s' : missed s -> lstep 2 s s' -> missed s'.
Proof.
  intros Hm Hstep. assert (Hinv : inv 2 s') by (eapply inv_step; [lia|done|apply Hm]).
  pose proof Hm as [Hs H0 H1 Hc Hg].
  assert (Happ : forall l t, collective_writer l = 1 -> guard t = None ->
    inv 2 {| lock := l; tasks := tasks s ++ [t] |} -> missed {| lock := l; tasks := tasks s ++ [t] |}).
  { intros l t Hl Ht Hi. split; cbn; try done; [by apply lookup_app_l_Some|by apply lookup_app_l_Some|].
    intros i u [Hu|[_ Hu]]%lookup_app_Some; [by eapply Hg|].
    by apply list_lookup_singleton_Some in Hu as [_ <-]. }
  assert (Hupd : forall l i t, collective_writer l = 1 -> guard t = None -> is_Some (tasks s !! i) ->
    (i = 0%nat -> t = LColl 0 3 CWait) -> (i = 1%nat -> t = UColl 1 3 UWait) ->
    inv 2 {| lock := l; tasks := <[i := t]> (tasks s) |} ->
    missed {| lock := l; tasks := <[i := t]> (tasks s) |}).
  { intros l i t Hl Ht [v Hv] E0 E1 Hi. split; cbn; try done.
    - destruct (decide (i = 0%nat)) as [->|]; [|by rewrite list_lookup_insert_ne].
      rewrite list_lookup_insert_eq; [by rewrite E0|by eapply lookup_lt_Some].
    - destruct (decide (i = 1%nat)) as [->|]; [|by rewrite list_lookup_insert_ne].
      rewrite list_lookup_insert_eq; [by rewrite E1|by eapply lookup_lt_Some].
    - intros j u [(_ & <- & _)|[_ Hu]]%list_lookup_insert_Some; [done|by eapply Hg]. }
  destruct Hstep as [s pe Hpe Hlen|s pe Hpe Hlen|s pe Hpe Hlen Hcc|s i t Hi|s i t Hi|s i pe c Hi Hcc].
  - by apply Happ.
  - by apply Happ.
  - by apply Happ.
  - apply Hupd; try done.
    + destruct i as [|[|i]]; [simplify_eq; by cbn..|].
      apply (missed_run s (S (S i))); [done|lia|done].
    + destruct i as [|[|i]]; simplify_eq; cbn; rewrite ?Hc; try done.
      apply (missed_run s (S (S i))); [done|lia|done].
    + intros ->. simplify_eq. cbn. by rewrite Hc.
    + intros ->. simplify_eq. cbn. by rewrite Hc.
  - pose proof (Hg i t Hi). assert (Ed : drop_guard t = t) by (by destruct t).
    rewrite Ed in *. apply Hupd; try done; intros ->; by simplify_eq.
  - by pose proof (Hg i _ Hi).
Qed.

(** C34: [collective_write] can deadlock.  In a team of two PEs that both call
    [collective_write], a state is reachable from which, whatever happens, PE 0 never obtains
    its guard, and no request ever obtains one: PE 1 obtained its guard, dropped it and
    incremented [collective_writer] before the request of PE 0 saw that it had become 0. *)
Theorem collective_write_deadlock :
  exists s, lreachable 2 s /\ tasks s = [LColl 0 3 CWait; UColl 1 3 UWait] /\
    forall s', rtc (lstep 2) s s' ->
      tasks s' !! 0%nat = Some (LColl 0 3 CWait) /\
      forall i t, tasks s' !! i = Some t -> guard t = None.
Proof.
  assert (H : exists s, lreachable 2 s /\ tasks s = [LColl 0 3 CWait; UColl 1 3 UWait] /\
                        collective_writer (lock s) = 1).
  { eexists. split; [|split].
    - unfold lreachable. eapply rtc_l; [apply (step_collective _ _ 0); [lia|reflexivity|reflexivity]|cbn].
      eapply rtc_l; [apply (step_collective _ _ 1); [lia|reflexivity|reflexivity]|cbn].
      do 3 run_task 0%nat. do 4 run_task 1%nat. drop_task 1%nat. do 2 run_task 1%nat. apply rtc_refl.
    - reflexivity.
    - reflexivity. }
  destruct H as (s & Hs & E & Ec). exists s. split; [done|]. split; [done|].
  assert (Hm : missed s).
  { split; try (by rewrite E); [by apply inv_reachable| |]; [done|].
    intros [|[|i]] t; rewrite E; cbn; intros; by simplify_eq. }
  intros s' Hrun. assert (Hm' : missed s').
  { clear Hs E Ec. induction Hrun as [|s1 s2 s3 H12 _ IH]; [done|]. apply IH. by eapply missed_step. }
  split; [apply Hm'|apply Hm'].
Qed.
