(* ===== verification/Iterators.v ===== *)
(** * Iterators: distributed iterators and their adapters

    Models [DistIter] of [src/array/iterator/distributed_iterator.rs] and the adapters [Map],
    [Filter] and [FilterMap] of [src/array/iterator/distributed_iterator/]; those that need the
    index of an element are in [IndexedIterators].  The trait [DistributedIterator] is a type
    class; [IterLaws] states what the schedulers rely on and is proved for every iterator.
    Closures are pure functions. *)

From stdpp Require Import base list numbers.
From Stdlib Require Import ZArith Sorted Lia.
From S2P Require Import Prelude.
Local Open Scope Z_scope.

(** ** The trait *)

(** [init], [next], [elems] and [advance_index] of [DistributedIterator].  [it_fuel] bounds the
    elements left, for the loops of the adapters.  Positions are below 2^64 with their sums and
    products with step sizes: [init] adds its arguments, and the schedulers pass [start] and
    [end - start] for a range whose [end] is a [usize]. *)
Class DistributedIterator (I Item : Type) := {
  it_init : I -> Z -> Z -> I;
  it_next : I -> option Item * I;
  it_elems : I -> Z -> Z;
  it_advance : I -> Z -> I;
  it_fuel : I -> nat;
}.

(** What the iterator yields for each of its positions ([None] where an adapter drops it), how
    many positions and local elements there are, what is left to yield, and the invariant. *)
Class IterSpec (I Item : Type) := {
  items : I -> Z -> option Item;
  local_len : I -> Z;
  num_local : I -> Z;
  content : I -> list Item;
  it_ok : I -> Prop;
}.

(** The elements of the range [s..e], clamped to the positions there are. *)
Definition range_items {I Item} `{IterSpec I Item} (it : I) (s e : Z) : list Item :=
  omap (items it) (seqZ (Z.min s (local_len it)) (Z.min e (local_len it) - Z.min s (local_len it))).

Class IterLaws (I Item : Type) `{DistributedIterator I Item, IterSpec I Item} := {
  law_init (it : I) s c :
    it_ok it -> 0 <= s -> 0 <= c ->
    content (it_init it s c) = range_items it s (s + c) /\
    items (it_init it s c) = items it /\ local_len (it_init it s c) = local_len it /\
    it_ok (it_init it s c);
  law_next (it : I) :
    it_ok it ->
    fst (it_next it) = head (content it) /\ content (snd (it_next it)) = tail (content it) /\
    items (snd (it_next it)) = items it /\ local_len (snd (it_next it)) = local_len it /\
    it_ok (snd (it_next it));
  law_elems (it : I) : it_ok it -> it_elems it (num_local it) = local_len it;
  law_fuel (it : I) : it_ok it -> (length (content it) <= it_fuel it)%nat;
}.

(** What schedules rely on that stay within the elements ([Chunk] does not: its last range may
    be longer than what is left). *)
Class WithinLaws (I Item : Type) `{DistributedIterator I Item, IterSpec I Item} := {
  wlaw_init (it : I) s c :
    it_ok it -> 0 <= s -> 0 <= c -> s + c <= local_len it ->
    content (it_init it s c) = range_items it s (s + c) /\
    items (it_init it s c) = items it /\ local_len (it_init it s c) = local_len it /\
    it_ok (it_init it s c);
  wlaw_next (it : I) :
    it_ok it ->
    fst (it_next it) = head (content it) /\ content (snd (it_next it)) = tail (content it) /\
    items (snd (it_next it)) = items it /\ local_len (snd (it_next it)) = local_len it /\
    it_ok (snd (it_next it));
  wlaw_elems (it : I) : it_ok it -> it_elems it (num_local it) = local_len it;
}.

#[export] Instance within_laws {I Item} `{IterLaws I Item} : WithinLaws I Item.
Proof. split; [intros; by apply law_init|exact law_next|exact law_elems]. Qed.

(** ** Indexed iterators *)

(** [iterator_index]: the index of a position, among all the PEs; [it_bound] bounds the
    positions that have one. *)
Class IndexedDistributedIterator (I : Type) := {
  it_index : I -> Z -> option Z;
  it_bound : I -> nat;
}.

(** What an indexed iterator yields at each position, with its index; what is left, with the
    indices; the number of positions; the number of local elements; up to which index the
    positions after the local elements are numbered, too; the invariant. *)
Class IndexedSpec (I Item : Type) := {
  ritems : I -> Z -> option (Z * Item);
  icontent : I -> list (Z * Item);
  ilen : I -> Z;
  inum : I -> Z;
  ireach : I -> Z -> Prop;
  iok : I -> Prop;
}.

#[export] Instance indexed_spec {I Item} `{IndexedSpec I Item} : IterSpec I Item := {
  items it i := snd <$> ritems it i;
  local_len := ilen;
  num_local := inum;
  content it := snd <$> icontent it;
  it_ok := iok;
}.

(** The positions [s..e] with their indices. *)
Definition iranges {I Item} `{IndexedSpec I Item} (it : I) (s e : Z) : list (Z * Item) :=
  omap (ritems it) (seqZ (Z.min s (ilen it)) (Z.min e (ilen it) - Z.min s (ilen it))).

(** [it_index it] numbers what is left from position [p] on. *)
Definition aligned {I} `{IndexedDistributedIterator I} {Item} (it : I) (p : Z) (l : list (Z * Item)) : Prop :=
  forall k g x, l !! k = Some (g, x) -> it_index it (p + Z.of_nat k) = Some g.

(** The indices grow along a list. *)
Definition increasing {Item} (l : list (Z * Item)) : Prop :=
  StronglySorted (fun p q => fst p < fst q) l.

Lemma omap_increasing {Item} (f : Z -> option (Z * Item)) s n :
  (forall i j g h x y, s <= i < s + n -> s <= j < s + n -> i < j ->
     f i = Some (g, x) -> f j = Some (h, y) -> g < h) ->
  increasing (omap f (seqZ s n)).
Proof.
  intros Hf. destruct (Z.le_gt_cases n 0) as [Hn|Hn]; [rewrite seqZ_nil by lia; constructor|].
  revert s Hf. pattern n. apply Zlt_lower_bound_ind with (z := 1); [|lia]. clear n Hn.
  intros n IH Hn s Hf. rewrite (seqZ_cons s) by lia.
  assert (T : increasing (omap f (seqZ (Z.succ s) (Z.pred n)))).
  { destruct (Z.eq_dec n 1) as [->|]; [rewrite seqZ_nil by lia; constructor|].
    apply IH; [lia|]. intros. eapply Hf; eauto; lia. }
  cbn. destruct (f s) as [[g x]|] eqn:E; [|done]. constructor; [done|].
  apply Forall_forall. intros [h y] (j & Hj & Ej)%list_elem_of_In%list_elem_of_omap.
  apply elem_of_seqZ in Hj. cbn. eapply (Hf s j); eauto; lia.
Qed.

(** After [init], [iterator_index] numbers not only the chunk but all the elements from its
    start on; positions after the last element may have an index too, and do so up to
    [ireach]. *)
Class IndexedLaws (I Item : Type) `{DistributedIterator I Item, IndexedDistributedIterator I,
    IndexedSpec I Item} := {
  ilaw_init (it : I) s c :
    iok it -> 0 <= s -> 0 <= c ->
    icontent (it_init it s c) = iranges it s (s + c) /\
    aligned (it_init it s c) s (iranges it s (ilen it)) /\
    ritems (it_init it s c) = ritems it /\ ilen (it_init it s c) = ilen it /\
    inum (it_init it s c) = inum it /\ ireach (it_init it s c) = ireach it /\ iok (it_init it s c);
  ilaw_next (it : I) :
    iok it ->
    fst (it_next it) = snd <$> head (icontent it) /\
    icontent (snd (it_next it)) = tail (icontent it) /\
    it_index (snd (it_next it)) = it_index it /\
    ritems (snd (it_next it)) = ritems it /\ ilen (snd (it_next it)) = ilen it /\
    inum (snd (it_next it)) = inum it /\ ireach (snd (it_next it)) = ireach it /\ iok (snd (it_next it));
  ilaw_advance (it : I) k :
    iok it -> 0 <= k ->
    icontent (it_advance it k) = drop (Z.to_nat k) (icontent it) /\
    it_index (it_advance it k) = it_index it /\
    ritems (it_advance it k) = ritems it /\ ilen (it_advance it k) = ilen it /\
    inum (it_advance it k) = inum it /\ ireach (it_advance it k) = ireach it /\ iok (it_advance it k);
  ilaw_elems (it : I) : iok it -> it_elems it (inum it) = ilen it;
  ilaw_len (it : I) : iok it -> 0 <= ilen it;
  ilaw_fuel (it : I) : iok it -> (length (icontent it) <= it_fuel it)%nat;
  ilaw_sorted (it : I) : iok it -> increasing (icontent it);
  ilaw_bound (it : I) i : iok it -> Z.of_nat (it_bound it) <= i -> it_index it i = None;
  ilaw_reach (it : I) s c i g x n B :
    iok it -> 0 <= s -> 0 <= c -> ireach it B -> iranges it s (ilen it) !! i = Some (g, x) ->
    0 <= n -> g + n < B -> it_index (it_init it s c) (s + Z.of_nat i + n) = Some (g + n);
  ilaw_positions (it : I) i g x :
    iok it -> ritems it i = Some (g, x) -> 0 <= i < ilen it /\ 0 <= g < 2 ^ 63;
  ilaw_increasing (it : I) i j g h x y :
    iok it -> ritems it i = Some (g, x) -> ritems it j = Some (h, y) -> i < j -> g < h;
}.

#[export] Instance indexed_laws {I Item} `{IndexedLaws I Item} : IterLaws I Item.
Proof.
  assert (F : forall (it : I) s e, snd <$> iranges it s e = range_items it s e).
  { intros it s e. unfold iranges, range_items. cbn. generalize (seqZ (Z.min s (ilen it)) (Z.min e (ilen it) - Z.min s (ilen it))).
    intros l. induction l as [|i l IH]; cbn; [done|]. destruct (ritems it i); cbn; by rewrite IH. }
  split; cbn.
  - intros it s c Hok Hs Hc. destruct (ilaw_init it s c Hok Hs Hc) as (E1 & _ & E2 & E3 & _ & _ & E4).
    by rewrite E1, E2, E3, F.
  - intros it Hok. destruct (ilaw_next it Hok) as (E1 & E2 & _ & E3 & E4 & _ & _ & E5).
    rewrite E1, E2, E3, E4. split_and!; try done; by destruct (icontent it).
  - exact ilaw_elems.
  - intros it Hok. rewrite length_fmap. by apply ilaw_fuel.
Qed.

(** ** [DistIter] *)

(** What a distributed iterator uses of an array: the local elements ([local_as_ptr]),
    [num_elems_local], [subarray_index_from_local] and [len]. *)
Record ArrayView (T : Type) := {
  view_local : Z -> T;
  view_num : Z;
  view_index : Z -> option Z;
  view_len : Z;
}.
Arguments view_local {T}. Arguments view_num {T}. Arguments view_index {T}. Arguments view_len {T}.

(** The local elements have growing indices; a position that is not that of a local element
    may have an index, if that is below [len]. *)
Record view_ok {T} (v : ArrayView T) : Prop := {
  view_num_pos : 0 <= view_num v <= view_len v;
  view_len_bound : view_len v <= 2 ^ 63;
  view_indexed i : 0 <= i < view_num v -> exists g, view_index v i = Some g /\ 0 <= g < view_len v;
  view_increasing i j g h : 0 <= i < j -> j < view_num v ->
    view_index v i = Some g -> view_index v j = Some h -> g < h;
  view_end i : view_len v <= i -> view_index v i = None;
}.

Record DistIter (T : Type) := { di_data : ArrayView T; di_cur : Z; di_end : Z }.
Arguments di_data {T}. Arguments di_cur {T}. Arguments di_end {T}.

Section DistIter.
Context {T : Type}.

Definition dist_iter_new (data : ArrayView T) (cur_i cnt : Z) : DistIter T :=
  {| di_data := data; di_cur := cur_i; di_end := cur_i + cnt |}.

Definition dist_iter_init (it : DistIter T) (start_i cnt : Z) : DistIter T :=
  let max_i := view_num (di_data it) in
  {| di_data := di_data it; di_cur := Z.min start_i max_i; di_end := Z.min (start_i + cnt) max_i |}.

Definition dist_iter_next (it : DistIter T) : option T * DistIter T :=
  if di_cur it <? di_end it
  then (Some (view_local (di_data it) (di_cur it)),
        {| di_data := di_data it; di_cur := di_cur it + 1; di_end := di_end it |})
  else (None, it).

Definition dist_iter_advance (it : DistIter T) (count : Z) : DistIter T :=
  {| di_data := di_data it; di_cur := Z.min (di_cur it + count) (di_end it); di_end := di_end it |}.

#[export] Instance dist_iter_distributed : DistributedIterator (DistIter T) T := {
  it_init := dist_iter_init;
  it_next := dist_iter_next;
  it_elems := fun _ in_elems => in_elems;
  it_advance := dist_iter_advance;
  it_fuel := fun it => Z.to_nat (di_end it - di_cur it);
}.

#[export] Instance dist_iter_indexed : IndexedDistributedIterator (DistIter T) := {
  it_index it index := view_index (di_data it) index;
  it_bound it := Z.to_nat (view_len (di_data it));
}.

(** The element of a position with its index. *)
Definition view_item (v : ArrayView T) (i : Z) : option (Z * T) :=
  if (0 <=? i) && (i <? view_num v) then (fun g => (g, view_local v i)) <$> view_index v i else None.

#[export] Instance dist_iter_spec : IndexedSpec (DistIter T) T := {
  ritems it := view_item (di_data it);
  icontent it := omap (view_item (di_data it)) (seqZ (di_cur it) (di_end it - di_cur it));
  ilen it := view_num (di_data it);
  inum it := view_num (di_data it);
  ireach it T := forall g i, view_index (di_data it) 0 = Some g -> 0 <= i -> g + i < T ->
                   view_index (di_data it) i = Some (g + i);
  iok it := view_ok (di_data it) /\ 0 <= di_cur it <= di_end it /\ di_end it <= view_num (di_data it);
}.

Lemma view_item_some v i : view_ok v -> 0 <= i < view_num v ->
  exists g, view_item v i = Some (g, view_local v i) /\ view_index v i = Some g /\ 0 <= g < view_len v.
Proof.
  intros Hv Hi. destruct (view_indexed v Hv i Hi) as (g & E & Hg). exists g. unfold view_item.
  rewrite (proj2 (Z.leb_le _ _)), (proj2 (Z.ltb_lt _ _)) by lia. by rewrite E.
Qed.

Lemma view_item_inv v i g x : view_item v i = Some (g, x) ->
  0 <= i < view_num v /\ view_index v i = Some g.
Proof.
  unfold view_item. destruct (Z.leb_spec 0 i), (Z.ltb_spec i (view_num v)); try done.
  cbn. destruct (view_index v i); cbn; [|done]. intros [= -> _]. done.
Qed.

(** The items of a range are those of its positions. *)
Lemma view_items_seq v s n : view_ok v -> 0 <= s -> s + n <= view_num v ->
  length (omap (view_item v) (seqZ s n)) = Z.to_nat n /\
  forall k, (k < Z.to_nat n)%nat -> omap (view_item v) (seqZ s n) !! k = view_item v (s + Z.of_nat k).
Proof.
  intros Hv Hs Hn. destruct (Z.le_gt_cases n 0) as [Hn0|Hn0].
  { rewrite seqZ_nil by lia. split; [cbn; lia|intros; lia]. }
  revert s Hs Hn. pattern n. apply Zlt_lower_bound_ind with (z := 1); [|lia]. clear n Hn0.
  intros n IH Hn1 s Hs Hn. rewrite (seqZ_cons s) by lia.
  destruct (view_item_some v s Hv ltac:(lia)) as (g & E & _). cbn. rewrite E.
  assert (IH' : length (omap (view_item v) (seqZ (Z.succ s) (Z.pred n))) = Z.to_nat (Z.pred n) /\
    forall k, (k < Z.to_nat (Z.pred n))%nat ->
      omap (view_item v) (seqZ (Z.succ s) (Z.pred n)) !! k = view_item v (Z.succ s + Z.of_nat k)).
  { destruct (Z.eq_dec n 1) as [->|]; [rewrite seqZ_nil by lia; split; [done|intros; lia]|]. apply IH; lia. }
  destruct IH' as [L K]. cbn. split; [rewrite L; lia|]. intros [|k] Hk; cbn.
  - by rewrite Z.add_0_r, E.
  - rewrite K by lia. f_equal. lia.
Qed.

Lemma view_index_grows (v : ArrayView T) g0 i : view_ok v -> view_index v 0 = Some g0 ->
  0 <= i < view_num v -> exists g, view_index v i = Some g /\ g0 + i <= g.
Proof.
  intros Hv E0 Hi. destruct Hi as [Hi Hn]. revert Hn. pattern i. apply natlike_ind; [|clear i Hi; intros i Hi IH|done].
  - intros _. exists g0. split; [done|lia].
  - intros Hn. destruct (IH ltac:(lia)) as (g & E & Hg).
    destruct (view_indexed v Hv (Z.succ i) ltac:(lia)) as (h & Eh & _). exists h. split; [done|].
    pose proof (view_increasing v Hv i (Z.succ i) g h ltac:(lia) Hn E Eh). lia.
Qed.

#[export] Instance dist_iter_laws : IndexedLaws (DistIter T) T.
Proof.
  split.
  - intros [v c0 e0] s c (Hv & _) Hs Hc. cbn. pose proof (view_num_pos v Hv).
    unfold iranges. cbn. split_and!; try done; try lia.
    + intros k g x E. rewrite Z.min_id in E.
      destruct (Z.le_gt_cases (view_num v) s).
      { by rewrite seqZ_nil in E by lia. }
      rewrite Z.min_l in E by lia.
      destruct (view_items_seq v s (view_num v - s) Hv ltac:(lia) ltac:(lia)) as [L K].
      pose proof (lookup_lt_Some _ _ _ E) as Hk. rewrite L in Hk. rewrite K in E by done.
      by apply view_item_inv in E as [_ E].
  - intros [v c0 e0] (Hv & Hc & He). cbn in *. unfold dist_iter_next. cbn.
    destruct (Z.ltb_spec c0 e0); cbn.
    + destruct (view_item_some v c0 Hv ltac:(lia)) as (g & E & _).
      rewrite (seqZ_cons c0) by lia. cbn. rewrite E. cbn. split_and!; try done; try lia. do 2 f_equal; lia.
    + rewrite seqZ_nil by lia. cbn. split_and!; done || lia.
  - intros [v c0 e0] k (Hv & Hc & He) Hk. cbn in *. split_and!; try done; try lia.
    destruct (Z.le_gt_cases e0 (c0 + k)).
    + rewrite Z.min_r, seqZ_nil by lia. cbn. symmetry. apply drop_ge.
      destruct (view_items_seq v c0 (e0 - c0) Hv ltac:(lia) ltac:(lia)) as [-> _]. lia.
    + rewrite Z.min_l by lia. replace (e0 - c0) with (k + (e0 - (c0 + k))) by lia.
      rewrite seqZ_app, omap_app by lia.
      rewrite drop_app_length' by (destruct (view_items_seq v c0 k Hv ltac:(lia) ltac:(lia)) as [-> _]; lia).
      done.
  - done.
  - intros [v c0 e0] (Hv & _). cbn. pose proof (view_num_pos v Hv). lia.
  - intros [v c0 e0] (Hv & Hc & He). cbn in *.
    destruct (view_items_seq v c0 (e0 - c0) Hv ltac:(lia) ltac:(lia)) as [-> _]. lia.
  - intros [v c0 e0] (Hv & Hc & He). cbn in *. apply omap_increasing. intros i j g h x y Hi Hj Hij E1 E2.
    apply view_item_inv in E1 as [? E1]. apply view_item_inv in E2 as [? E2].
    by apply (view_increasing v Hv i j g h); [lia|lia| |].
  - intros [v c0 e0] i (Hv & _) Hi. cbn in *. apply (view_end v Hv). lia.
  - intros [v c0 e0] s c i g x n B (Hv & _) Hs Hc Hr E Hn Hlt. cbn in *. unfold iranges in E. cbn in E.
    rewrite Z.min_id in E. pose proof (view_num_pos v Hv) as Hnum.
    destruct (Z.le_gt_cases (view_num v) s); [by rewrite seqZ_nil in E by lia|].
    rewrite Z.min_l in E by lia. pose proof (lookup_lt_Some _ _ _ E) as Hi.
    destruct (view_items_seq v s (view_num v - s) Hv ltac:(lia) ltac:(lia)) as [L K].
    rewrite L in Hi. rewrite K in E by lia. apply view_item_inv in E as [_ Eg].
    destruct (view_indexed v Hv 0 ltac:(lia)) as (g0 & E0 & _).
    destruct (view_index_grows v g0 (s + Z.of_nat i) Hv E0 ltac:(lia)) as (g' & E' & Hg).
    rewrite Eg in E'. injection E' as <-.
    pose proof (Hr g0 (s + Z.of_nat i) E0 ltac:(lia) ltac:(lia)) as E'. rewrite Eg in E'. injection E' as ->.
    rewrite (Hr g0 (s + Z.of_nat i + n)) by (done || lia). f_equal. lia.
  - intros [v c0 e0] i g x (Hv & _) E. cbn in *. apply view_item_inv in E as [Hi E].
    destruct (view_indexed v Hv i Hi) as (g' & E' & Hg). rewrite E in E'. injection E' as <-.
    pose proof (view_len_bound v Hv). lia.
  - intros [v c0 e0] i j g h x y (Hv & _) E1 E2 Hij. cbn in *.
    apply view_item_inv in E1 as [? E1]. apply view_item_inv in E2 as [? E2].
    by apply (view_increasing v Hv i j g h); [lia|lia| |].
Qed.
End DistIter.

(** ** Adapters *)

Record Map (I A B : Type) := { map_iter : I; map_f : A -> B }.
Arguments map_iter {I A B}. Arguments map_f {I A B}.
Record Filter (I A : Type) := { filter_iter : I; filter_f : A -> bool }.
Arguments filter_iter {I A}. Arguments filter_f {I A}.
Record FilterMap (I A B : Type) := { fm_iter : I; fm_f : A -> option B }.
Arguments fm_iter {I A B}. Arguments fm_f {I A B}.

Section Adapters.
Context {I A B : Type} `{DistributedIterator I A}.

Definition map_init (it : Map I A B) (start_i cnt : Z) : Map I A B :=
  {| map_iter := it_init (map_iter it) start_i cnt; map_f := map_f it |}.
Definition map_next (it : Map I A B) : option B * Map I A B :=
  let '(x, iter) := it_next (map_iter it) in
  (map_f it <$> x, {| map_iter := iter; map_f := map_f it |}).

Definition map_advance (it : Map I A B) (count : Z) : Map I A B :=
  {| map_iter := it_advance (map_iter it) count; map_f := map_f it |}.

#[export] Instance map_distributed : DistributedIterator (Map I A B) B := {
  it_init := map_init;
  it_next := map_next;
  it_elems := fun it in_elems => it_elems (map_iter it) in_elems;
  it_advance := map_advance;
  it_fuel := fun it => it_fuel (map_iter it);
}.

(** [while let Some(next) = self.iter.next() { if f(&next) { return Some(next) } } None] *)
Fixpoint filter_loop (fuel : nat) (f : A -> bool) (iter : I) : option A * I :=
  match fuel with
  | O => (None, iter)
  | S fuel => match it_next iter with
              | (Some x, iter') => if f x then (Some x, iter') else filter_loop fuel f iter'
              | (None, iter') => (None, iter')
              end
  end.

Definition filter_init (it : Filter I A) (start_i cnt : Z) : Filter I A :=
  {| filter_iter := it_init (filter_iter it) start_i cnt; filter_f := filter_f it |}.
Definition filter_next (it : Filter I A) : option A * Filter I A :=
  let '(x, iter) := filter_loop (S (it_fuel (filter_iter it))) (filter_f it) (filter_iter it) in
  (x, {| filter_iter := iter; filter_f := filter_f it |}).

Definition filter_advance (it : Filter I A) (count : Z) : Filter I A :=
  {| filter_iter := it_advance (filter_iter it) count; filter_f := filter_f it |}.

#[export] Instance filter_distributed : DistributedIterator (Filter I A) A := {
  it_init := filter_init;
  it_next := filter_next;
  it_elems := fun it in_elems => it_elems (filter_iter it) in_elems;
  it_advance := filter_advance;
  it_fuel := fun it => it_fuel (filter_iter it);
}.

Fixpoint filter_map_loop (fuel : nat) (f : A -> option B) (iter : I) : option B * I :=
  match fuel with
  | O => (None, iter)
  | S fuel => match it_next iter with
              | (Some x, iter') => match f x with
                                   | Some y => (Some y, iter')
                                   | None => filter_map_loop fuel f iter'
                                   end
              | (None, iter') => (None, iter')
              end
  end.

Definition filter_map_init (it : FilterMap I A B) (start_i cnt : Z) : FilterMap I A B :=
  {| fm_iter := it_init (fm_iter it) start_i cnt; fm_f := fm_f it |}.
Definition filter_map_next (it : FilterMap I A B) : option B * FilterMap I A B :=
  let '(x, iter) := filter_map_loop (S (it_fuel (fm_iter it))) (fm_f it) (fm_iter it) in
  (x, {| fm_iter := iter; fm_f := fm_f it |}).

Definition filter_map_advance (it : FilterMap I A B) (count : Z) : FilterMap I A B :=
  {| fm_iter := it_advance (fm_iter it) count; fm_f := fm_f it |}.

#[export] Instance filter_map_distributed : DistributedIterator (FilterMap I A B) B := {
  it_init := filter_map_init;
  it_next := filter_map_next;
  it_elems := fun it in_elems => it_elems (fm_iter it) in_elems;
  it_advance := filter_map_advance;
  it_fuel := fun it => it_fuel (fm_iter it);
}.

(** *** Their specifications *)
Context `{!IterSpec I A, !IterLaws I A}.

Definition keep (f : A -> bool) (x : A) : option A := if f x then Some x else None.

#[export] Instance map_spec : IterSpec (Map I A B) B := {
  items := fun it i => map_f it <$> items (map_iter it) i;
  local_len := fun it => local_len (map_iter it);
  num_local := fun it => num_local (map_iter it);
  it_ok := fun it => it_ok (map_iter it);
  content := fun it => map_f it <$> content (map_iter it);
}.
#[export] Instance filter_spec : IterSpec (Filter I A) A := {
  items := fun it i => items (filter_iter it) i ≫= keep (filter_f it);
  local_len := fun it => local_len (filter_iter it);
  num_local := fun it => num_local (filter_iter it);
  it_ok := fun it => it_ok (filter_iter it);
  content := fun it => omap (keep (filter_f it)) (content (filter_iter it));
}.
#[export] Instance filter_map_spec : IterSpec (FilterMap I A B) B := {
  items := fun it i => items (fm_iter it) i ≫= fm_f it;
  local_len := fun it => local_len (fm_iter it);
  num_local := fun it => num_local (fm_iter it);
  it_ok := fun it => it_ok (fm_iter it);
  content := fun it => omap (fm_f it) (content (fm_iter it));
}.

Lemma omap_omap {X Y Z} (f : X -> option Y) (g : Y -> option Z) (l : list X) :
  omap g (omap f l) = omap (fun x => f x ≫= g) l.
Proof.
  induction l as [|x l IH]; cbn; [done|]. destruct (f x) as [y|]; cbn; [|done].
  destruct (g y); cbn; by rewrite IH.
Qed.
Lemma fmap_omap {X Y Z} (f : X -> option Y) (g : Y -> Z) (l : list X) :
  g <$> omap f l = omap (fun x => g <$> f x) l.
Proof. induction l as [|x l IH]; cbn; [done|]. destruct (f x); cbn; by rewrite IH. Qed.

Lemma length_omap_le {X Y} (f : X -> option Y) (l : list X) : (length (omap f l) <= length l)%nat.
Proof. induction l as [|x l IH]; cbn; [done|]. destruct (f x); cbn; lia. Qed.

#[export] Instance map_laws : IterLaws (Map I A B) B.
Proof.
  split.
  - intros it s c Hok Hs Hc. destruct (law_init (map_iter it) s c Hok Hs Hc) as (E1 & E2 & E3 & E4). cbn.
    rewrite E1, E2, E3. split; [|done]. unfold range_items. cbn. apply fmap_omap.
  - intros it Hok. destruct (law_next (map_iter it) Hok) as (E1 & E2 & E3 & E4 & E5). cbn. unfold map_next.
    destruct (it_next (map_iter it)) as [x iter]. cbn in *. rewrite E1, E2, E3, E4.
    by destruct (content (map_iter it)).
  - intros it Hok. exact (law_elems (map_iter it) Hok).
  - intros it Hok. cbn. rewrite length_fmap. exact (law_fuel (map_iter it) Hok).
Qed.

Lemma filter_map_loop_spec fuel f it :
  it_ok it ->
  (length (content it) < fuel)%nat ->
  fst (filter_map_loop fuel f it) = head (omap f (content it)) /\
  omap f (content (snd (filter_map_loop fuel f it))) = tail (omap f (content it)) /\
  items (snd (filter_map_loop fuel f it)) = items it /\
  local_len (snd (filter_map_loop fuel f it)) = local_len it /\
  it_ok (snd (filter_map_loop fuel f it)).
Proof.
  revert it. induction fuel as [|fuel IH]; intros it Hok Hf; [lia|].
  destruct (law_next it Hok) as (E1 & E2 & E3 & E4 & E5). cbn.
  destruct (it_next it) as [x iter]. cbn in *.
  destruct (content it) as [|y l]; cbn in *; subst x; cbn; [by rewrite E2, E3, E4|].
  destruct (f y) as [z|] eqn:Ez; cbn; [by rewrite E2, E3, E4|].
  destruct (IH iter) as (F1 & F2 & F3 & F4 & F5); [done|rewrite E2; lia|].
  by rewrite F1, F2, F3, F4, E2, E3, E4.
Qed.

Lemma filter_loop_spec fuel f it :
  it_ok it ->
  (length (content it) < fuel)%nat ->
  fst (filter_loop fuel f it) = head (omap (keep f) (content it)) /\
  omap (keep f) (content (snd (filter_loop fuel f it))) = tail (omap (keep f) (content it)) /\
  items (snd (filter_loop fuel f it)) = items it /\
  local_len (snd (filter_loop fuel f it)) = local_len it /\
  it_ok (snd (filter_loop fuel f it)).
Proof.
  revert it. induction fuel as [|fuel IH]; intros it Hok Hf; [lia|].
  destruct (law_next it Hok) as (E1 & E2 & E3 & E4 & E5). cbn.
  destruct (it_next it) as [x iter]. cbn in *.
  destruct (content it) as [|y l]; cbn in *; subst x; cbn; [by rewrite E2, E3, E4|].
  assert (Hk : keep f y = if f y then Some y else None) by done. rewrite Hk.
  destruct (f y); cbn; [by rewrite E2, E3, E4|].
  destruct (IH iter) as (F1 & F2 & F3 & F4 & F5); [done|rewrite E2; lia|].
  by rewrite F1, F2, F3, F4, E2, E3, E4.
Qed.

#[export] Instance filter_laws : IterLaws (Filter I A) A.
Proof.
  split.
  - intros it s c Hok Hs Hc. destruct (law_init (filter_iter it) s c Hok Hs Hc) as (E1 & E2 & E3 & E4). cbn.
    rewrite E1, E2, E3. split; [|done]. unfold range_items. cbn. apply omap_omap.
  - intros it Hok. pose proof (law_fuel (filter_iter it) Hok).
    destruct (filter_loop_spec (S (it_fuel (filter_iter it))) (filter_f it) (filter_iter it))
      as (E1 & E2 & E3 & E4 & E5); [done|lia|]. cbn -[filter_loop]. unfold filter_next.
    destruct (filter_loop _ _ _) as [x iter]. cbn in *. by rewrite E1, E2, E3, E4.
  - intros it Hok. exact (law_elems (filter_iter it) Hok).
  - intros it Hok. cbn. etrans; [apply length_omap_le|exact (law_fuel (filter_iter it) Hok)].
Qed.

#[export] Instance filter_map_laws : IterLaws (FilterMap I A B) B.
Proof.
  split.
  - intros it s c Hok Hs Hc. destruct (law_init (fm_iter it) s c Hok Hs Hc) as (E1 & E2 & E3 & E4). cbn.
    rewrite E1, E2, E3. split; [|done]. unfold range_items. cbn. apply omap_omap.
  - intros it Hok. pose proof (law_fuel (fm_iter it) Hok).
    destruct (filter_map_loop_spec (S (it_fuel (fm_iter it))) (fm_f it) (fm_iter it))
      as (E1 & E2 & E3 & E4 & E5); [done|lia|]. cbn -[filter_map_loop]. unfold filter_map_next.
    destruct (filter_map_loop _ _ _) as [x iter]. cbn in *. by rewrite E1, E2, E3, E4.
  - intros it Hok. exact (law_elems (fm_iter it) Hok).
  - intros it Hok. cbn. etrans; [apply length_omap_le|exact (law_fuel (fm_iter it) Hok)].
Qed.
End Adapters.

(** ** Ranges *)
Section Ranges.
Context {I Item : Type} `{IterSpec I Item}.

Lemma range_items_nil it s e : e <= s -> range_items it s e = [].
Proof. intros Hle. unfold range_items. by rewrite seqZ_nil by lia. Qed.

Lemma range_items_app it s m e :
  s <= m <= e -> range_items it s e = range_items it s m ++ range_items it m e.
Proof.
  intros Hm. unfold range_items. rewrite <- omap_app. f_equal.
  set (n := local_len it).
  replace (Z.min e n - Z.min s n) with ((Z.min m n - Z.min s n) + (Z.min e n - Z.min m n)) by lia.
  rewrite seqZ_app by lia. f_equal. f_equal. lia.
Qed.

Lemma range_items_clamp it s e : local_len it <= e -> range_items it s e = range_items it s (local_len it).
Proof. intros Hle. unfold range_items. by rewrite (Z.min_r e), Z.min_id by lia. Qed.

Lemma range_items_one it i :
  0 <= i < local_len it -> range_items it i (i + 1) = option_list (items it i).
Proof.
  intros Hi. unfold range_items. rewrite !Z.min_l by lia. replace (i + 1 - i) with 1 by lia.
  rewrite seqZ_cons, seqZ_nil by lia. cbn. by destruct (items it i).
Qed.

Lemma range_items_same it it' s e :
  items it' = items it -> local_len it' = local_len it -> range_items it' s e = range_items it s e.
Proof. intros E1 E2. unfold range_items. by rewrite E1, E2. Qed.

Lemma range_items_length it s e : (length (range_items it s e) <= Z.to_nat (e - s))%nat.
Proof.
  unfold range_items. etrans; [apply length_omap_le|]. rewrite length_seqZ. lia.
Qed.
End Ranges.
