(* ===== verification/IndexedIterators.v ===== *)
(** * IndexedIterators: the adapters that use the index of an element

    Models [Skip], [StepBy], [Take] and [Enumerate] of
    [src/array/iterator/distributed_iterator/] and proves their laws, on which the
    theorems of [Schedule] rest; then what they yield on all the PEs
    together, for a block or cyclic array. *)

From stdpp Require Import base list numbers.
From Stdlib Require Import ZArith QArith Qround Lqa Sorted Lia.
From S2P Require Import Prelude F64 Iterators.
Local Open Scope Z_scope.

(** ** The adapters *)

Record Skip (I : Type) := { skip_iter : I; skip_count : Z; skip_index : Z }.
Arguments skip_iter {I}. Arguments skip_count {I}. Arguments skip_index {I}.
Record StepBy (I : Type) := { step_iter : I; step_size : Z; add_one : Z }.
Arguments step_iter {I}. Arguments step_size {I}. Arguments add_one {I}.
Record Take (I : Type) := { take_iter : I; take_count : Z; take_cur : Z }.
Arguments take_iter {I}. Arguments take_count {I}. Arguments take_cur {I}.
Record Enumerate (I : Type) := { enum_iter : I; enum_cur : Z }.
Arguments enum_iter {I}. Arguments enum_cur {I}.

(** [x as f32], [/] and [ceil] in single precision. *)
Definition f32_of_usize (z : Z) : Q := flt 24 (inject_Z z).
Definition f32_div (a b : Q) : Q := flt 24 (a / b).
Definition f32_ceil (x : Q) : Z := Qceiling x.

Section Adapters.
Context {I A : Type} `{DistributedIterator I A, IndexedDistributedIterator I}.

(** *** [Skip] *)

(** [while (iterator_index as isize - self.count as isize) < 0]: whether the loop ended by its
    condition, and [skip_index]. *)
Fixpoint skip_loop (fuel : nat) (iter : I) (count skip_index iterator_index : Z) : bool * Z :=
  match fuel with
  | O => (false, skip_index)
  | S fuel =>
      if as_isize iterator_index - as_isize count <? 0 then
        match it_index iter (skip_index + 1) with
        | Some i => skip_loop fuel iter count (skip_index + 1) i
        | None => (false, skip_index + 1)
        end
      else (true, skip_index)
  end.

Definition skip_init (it : Skip I) (in_start_i len : Z) : Skip I :=
  let iter := it_init (skip_iter it) in_start_i len in
  match it_index iter in_start_i with
  | Some iterator_index =>
      let '(found, skip_index) :=
        skip_loop (S (it_bound iter)) iter (skip_count it) in_start_i iterator_index in
      if found : bool
      then {| skip_iter := it_advance iter (skip_index - in_start_i); skip_count := skip_count it;
              skip_index := skip_index - in_start_i |}
      else {| skip_iter := it_advance iter len; skip_count := skip_count it; skip_index := skip_index |}
  | None =>
      {| skip_iter := it_advance iter len; skip_count := skip_count it; skip_index := in_start_i |}
  end.

Definition skip_next (it : Skip I) : option A * Skip I :=
  let '(x, iter) := it_next (skip_iter it) in
  (x, {| skip_iter := iter; skip_count := skip_count it; skip_index := skip_index it |}).

Definition skip_advance (it : Skip I) (count : Z) : Skip I :=
  {| skip_iter := it_advance (skip_iter it) count; skip_count := skip_count it; skip_index := skip_index it |}.

#[export] Instance skip_distributed : DistributedIterator (Skip I) A := {
  it_init := skip_init;
  it_next := skip_next;
  it_elems it in_elems := Z.max 0 (it_elems (skip_iter it) in_elems);
  it_advance := skip_advance;
  it_fuel it := it_fuel (skip_iter it);
}.

Definition skip_iterator_index (it : Skip I) (index : Z) : option Z :=
  match it_index (skip_iter it) (index + skip_index it) with
  | Some i => let i := as_isize i - as_isize (skip_count it) in if 0 <=? i then Some i else None
  | None => None
  end.

#[export] Instance skip_indexed : IndexedDistributedIterator (Skip I) := {
  it_index := skip_iterator_index;
  it_bound it := it_bound (skip_iter it);
}.

(** *** [StepBy] *)

(** [while iterator_index % self.step_size != 0]; the step size is positive. *)
Fixpoint step_loop (fuel : nat) (iter : I) (step_size start offset_index iterator_index : Z) : bool * Z :=
  match fuel with
  | O => (false, offset_index)
  | S fuel =>
      if negb (iterator_index mod step_size =? 0) then
        match it_index iter (start + (offset_index + 1)) with
        | Some i => step_loop fuel iter step_size start (offset_index + 1) i
        | None => (false, offset_index + 1)
        end
      else (true, offset_index)
  end.

Definition step_init (it : StepBy I) (in_start_i cnt : Z) : StepBy I :=
  let st := step_size it in
  let iter := it_init (step_iter it) (in_start_i * st) (cnt * st) in
  match it_index iter (in_start_i * st) with
  | Some iterator_index =>
      let '(found, offset_index) :=
        step_loop (S (it_bound iter)) iter st (in_start_i * st) 0 iterator_index in
      if found : bool
      then {| step_iter := it_advance iter offset_index; step_size := st;
              add_one := if 0 <? offset_index then 1 else 0 |}
      else {| step_iter := it_advance iter cnt; step_size := st; add_one := 1 |}
  | None => {| step_iter := it_advance iter cnt; step_size := st; add_one := 0 |}
  end.

Definition step_next (it : StepBy I) : option A * StepBy I :=
  match it_next (step_iter it) with
  | (Some x, iter) =>
      (Some x, {| step_iter := it_advance iter (step_size it - 1); step_size := step_size it;
                  add_one := add_one it |})
  | (None, iter) =>
      (None, {| step_iter := iter; step_size := step_size it; add_one := add_one it |})
  end.

Definition step_advance (it : StepBy I) (count : Z) : StepBy I :=
  {| step_iter := it_advance (step_iter it) (count * step_size it); step_size := step_size it;
     add_one := add_one it |}.

(** [(in_elems as f32 / self.step_size as f32).ceil() as usize] *)
Definition step_elems (it : StepBy I) (in_elems : Z) : Z :=
  as_usize (f32_ceil (f32_div (f32_of_usize (it_elems (step_iter it) in_elems)) (f32_of_usize (step_size it)))).

#[export] Instance step_distributed : DistributedIterator (StepBy I) A := {
  it_init := step_init;
  it_next := step_next;
  it_elems := step_elems;
  it_advance := step_advance;
  it_fuel it := it_fuel (step_iter it);
}.

Definition step_iterator_index (it : StepBy I) (index : Z) : option Z :=
  match it_index (step_iter it) (index * step_size it) with
  | Some g_index => Some (g_index / step_size it + add_one it)
  | None => None
  end.

#[export] Instance step_indexed : IndexedDistributedIterator (StepBy I) := {
  it_index := step_iterator_index;
  it_bound it := it_bound (step_iter it);
}.

(** *** [Take] *)

Definition take_iterator_index (it : Take I) (index : Z) : option Z :=
  match it_index (take_iter it) index with
  | Some g_index => if g_index <? take_count it then Some g_index else None
  | None => None
  end.

Definition take_init (it : Take I) (start_i len : Z) : Take I :=
  {| take_iter := it_init (take_iter it) start_i len; take_count := take_count it; take_cur := start_i |}.

Definition take_next (it : Take I) : option A * Take I :=
  match take_iterator_index it (take_cur it) with
  | Some i =>
      if i <? take_count it then
        let '(x, iter) := it_next (take_iter it) in
        (x, {| take_iter := iter; take_count := take_count it; take_cur := take_cur it + 1 |})
      else (None, it)
  | None => (None, it)
  end.

Definition take_advance (it : Take I) (count : Z) : Take I :=
  {| take_iter := it_advance (take_iter it) count; take_count := take_count it;
     take_cur := take_cur it + count |}.

#[export] Instance take_distributed : DistributedIterator (Take I) A := {
  it_init := take_init;
  it_next := take_next;
  it_elems it in_elems := Z.max 0 (it_elems (take_iter it) in_elems);
  it_advance := take_advance;
  it_fuel it := it_fuel (take_iter it);
}.

#[export] Instance take_indexed : IndexedDistributedIterator (Take I) := {
  it_index := take_iterator_index;
  it_bound it := it_bound (take_iter it);
}.

(** *** [Enumerate] *)

Definition enum_init (it : Enumerate I) (start_i cnt : Z) : Enumerate I :=
  {| enum_iter := it_init (enum_iter it) start_i cnt; enum_cur := start_i |}.

Definition enum_next (it : Enumerate I) : option (Z * A) * Enumerate I :=
  match it_next (enum_iter it) with
  | (Some a, iter) =>
      match it_index iter (enum_cur it) with
      | Some i => (Some (i, a), {| enum_iter := iter; enum_cur := enum_cur it + 1 |})
      | None => (None, {| enum_iter := iter; enum_cur := enum_cur it |})
      end
  | (None, iter) => (None, {| enum_iter := iter; enum_cur := enum_cur it |})
  end.

Definition enum_advance (it : Enumerate I) (count : Z) : Enumerate I :=
  {| enum_iter := it_advance (enum_iter it) count; enum_cur := enum_cur it + count |}.

#[export] Instance enum_distributed : DistributedIterator (Enumerate I) (Z * A) := {
  it_init := enum_init;
  it_next := enum_next;
  it_elems it in_elems := it_elems (enum_iter it) in_elems;
  it_advance := enum_advance;
  it_fuel it := it_fuel (enum_iter it);
}.

#[export] Instance enum_indexed : IndexedDistributedIterator (Enumerate I) := {
  it_index it index := it_index (enum_iter it) index;
  it_bound it := it_bound (enum_iter it);
}.
End Adapters.

(** *** [enumerate], [skip], [step_by] and [take] of the trait *)

Definition iter_enumerate {I} (it : I) : Enumerate I := {| enum_iter := it; enum_cur := 0 |}.
Definition iter_skip {I} (it : I) (n : Z) : Skip I := {| skip_iter := it; skip_count := n; skip_index := 0 |}.
Definition iter_step_by {I} (it : I) (st : Z) : StepBy I := {| step_iter := it; step_size := st; add_one := 0 |}.
Definition iter_take {I} (it : I) (n : Z) : Take I := {| take_iter := it; take_count := n; take_cur := 0 |}.

(** ** Lists with indices *)

Section Lists.
Context {A : Type}.
Implicit Types l : list (Z * A).

Lemma aligned_nil {I} `{IndexedDistributedIterator I} (it : I) p : aligned it p ([] : list (Z * A)).
Proof. by intros k g x E. Qed.

(** The positions that [init] numbers beyond the elements of this PE. *)
Definition reaches {I} `{IndexedDistributedIterator I, !IndexedSpec I A} (it it' : I) (s : Z) : Prop :=
  forall i g x n B, ireach it B -> iranges it s (ilen it) !! i = Some (g, x) ->
    0 <= n -> g + n < B -> it_index it' (s + Z.of_nat i + n) = Some (g + n).

(** A part of what is numbered is numbered. *)
Lemma aligned_sub {I} `{IndexedDistributedIterator I} (it it' : I) p l l' j :
  aligned it p l -> it_index it' = it_index it ->
  (forall k g x, l' !! k = Some (g, x) -> l !! (j + k)%nat = Some (g, x)) ->
  aligned it' (p + Z.of_nat j) l'.
Proof.
  intros Ha Ei Hl k g x E. rewrite Ei. apply Hl, Ha in E. rewrite <- E. f_equal. lia.
Qed.

Lemma aligned_drop {I} `{IndexedDistributedIterator I} (it it' : I) p l k :
  aligned it p l -> it_index it' = it_index it -> 0 <= k ->
  aligned it' (p + k) (drop (Z.to_nat k) l).
Proof.
  intros Ha Ei Hk. replace k with (Z.of_nat (Z.to_nat k)) at 1 by lia.
  eapply aligned_sub; [done|done|]. intros i g x E. by rewrite lookup_drop in E.
Qed.

Lemma aligned_tail {I} `{IndexedDistributedIterator I} (it it' : I) p l :
  aligned it p l -> it_index it' = it_index it -> aligned it' (p + 1) (tail l).
Proof.
  intros Ha Ei. change 1 with (Z.of_nat 1). eapply aligned_sub; [done|done|].
  intros k g x E. by destruct l.
Qed.

Lemma increasing_lookup l j k g h x y :
  increasing l -> l !! j = Some (g, x) -> l !! k = Some (h, y) -> (j < k)%nat -> g < h.
Proof.
  intros Hl. revert j k. induction Hl as [|p l Hl IH Hp]; intros j k E1 E2 Hjk; [done|].
  destruct k as [|k]; [lia|]. destruct j as [|j]; cbn in *.
  - injection E1 as ->. rewrite Forall_lookup in Hp. by apply (Hp k) in E2.
  - eapply IH; eauto; lia.
Qed.

(** A filter by index that keeps or drops all. *)
Lemma omap_none {B C} (f : B -> option C) (l : list B) : Forall (fun x => f x = None) l -> omap f l = [].
Proof. induction 1 as [|x l E _ IH]; cbn; [done|]. by rewrite E. Qed.

Lemma omap_all {B C} (f : B -> option C) (g : B -> C) (l : list B) :
  Forall (fun x => f x = Some (g x)) l -> omap f l = g <$> l.
Proof. induction 1 as [|x l E _ IH]; cbn; [done|]. rewrite E. by f_equal. Qed.

(** The elements of a list are numbered without gaps from [G] on. *)
Definition numbered (G : Z) l : Prop := forall k g x, l !! k = Some (g, x) -> g = G + Z.of_nat k.

Lemma numbered_drop G l k : numbered G l -> numbered (G + Z.of_nat k) (drop k l).
Proof. intros Hl j g x E. rewrite lookup_drop in E. apply Hl in E. lia. Qed.

Lemma numbered_prefix G l l' : numbered G (l ++ l') -> numbered G l.
Proof. intros Hl k g x E. eapply Hl. by apply lookup_app_l_Some. Qed.

Lemma numbered_cons G g x l : numbered G ((g, x) :: l) -> g = G /\ numbered (G + 1) l.
Proof.
  intros Hl. split; [specialize (Hl 0%nat g x eq_refl); lia|]. exact (numbered_drop G _ 1 Hl).
Qed.

(** Which elements [StepBy] keeps, and their indices. *)
Definition multiple (st : Z) (p : Z * A) : option (Z * A) :=
  if p.1 mod st =? 0 then Some (p.1 / st, p.2) else None.

Lemma multiple_none st G l : 0 < st -> numbered G l ->
  (forall k, (k < length l)%nat -> (G + Z.of_nat k) mod st <> 0) -> omap (multiple st) l = [].
Proof.
  intros Hst Hl Hk. apply omap_none, Forall_lookup. intros k [g x] E. unfold multiple. cbn.
  pose proof (lookup_lt_Some _ _ _ E). rewrite (Hl k g x E).
  by rewrite (proj2 (Z.eqb_neq _ _)) by (apply Hk; lia).
Qed.

Lemma mod_between st G k : 0 < st -> G mod st = 0 -> 0 < k < st -> (G + k) mod st <> 0.
Proof.
  intros Hst HG Hk. rewrite <- Z.add_mod_idemp_l, HG, Z.add_0_l by lia. rewrite Z.mod_small by lia. lia.
Qed.

(** From a multiple on: it, and what follows [st] elements later. *)
Lemma multiple_step st G x l : 0 < st -> G mod st = 0 -> numbered G ((G, x) :: l) ->
  omap (multiple st) ((G, x) :: l)
    = (G / st, x) :: omap (multiple st) (drop (Z.to_nat (st - 1)) l) /\
  numbered (G + st) (drop (Z.to_nat (st - 1)) l).
Proof.
  intros Hst HG Hl. destruct (numbered_cons _ _ _ _ Hl) as [_ Hn]. split.
  - cbn. unfold multiple at 1. cbn. rewrite HG. cbn. f_equal.
    rewrite <- (take_drop (Z.to_nat (st - 1)) l) at 1. rewrite omap_app.
    rewrite (multiple_none st (G + 1)); [done|done| |].
    + apply (numbered_prefix _ _ (drop (Z.to_nat (st - 1)) l)). by rewrite take_drop.
    + intros k Hk. rewrite length_take in Hk.
      replace (G + 1 + Z.of_nat k) with (G + (1 + Z.of_nat k)) by lia. apply mod_between; lia.
  - intros k g y E. rewrite lookup_drop in E. apply Hn in E. lia.
Qed.

Lemma mod_add_self st G : 0 < st -> (G + st) mod st = G mod st.
Proof. intros. rewrite <- (Z.mul_1_l st) at 1. apply Z.mod_add. lia. Qed.

(** The [k]-th multiple is [k * st] elements after the first. *)
Lemma multiple_lookup st G l k q x : 0 < st -> G mod st = 0 -> numbered G l ->
  omap (multiple st) l !! k = Some (q, x) ->
  q = G / st + Z.of_nat k /\ is_Some (l !! (k * Z.to_nat st)%nat).
Proof.
  intros Hst. revert G l. induction k as [|k IH]; intros G l HG Hl E.
  - destruct l as [|[g y] l]; [done|]. destruct (numbered_cons _ _ _ _ Hl) as [-> _].
    destruct (multiple_step st G y l Hst HG Hl) as [Em _]. rewrite Em in E. cbn in E.
    injection E as <- <-. split; [lia|by eexists].
  - destruct l as [|[g y] l]; [done|]. destruct (numbered_cons _ _ _ _ Hl) as [-> _].
    destruct (multiple_step st G y l Hst HG Hl) as [Em Hn]. rewrite Em in E. cbn in E.
    destruct (IH (G + st) _ ltac:(by rewrite mod_add_self) Hn E) as [-> HS]. split.
    + replace (G + st) with (G + 1 * st) by lia. rewrite Z.div_add by lia. lia.
    + rewrite lookup_drop in HS. destruct HS as [z Ez]. exists z. rewrite <- Ez.
      replace (S k * Z.to_nat st)%nat with (S (Z.to_nat (st - 1) + k * Z.to_nat st))%nat by lia. done.
Qed.

Lemma multiple_drop st G l k : 0 < st -> G mod st = 0 -> numbered G l ->
  omap (multiple st) (drop (k * Z.to_nat st) l) = drop k (omap (multiple st) l).
Proof.
  intros Hst. revert G l. induction k as [|k IH]; intros G l HG Hl; [done|].
  destruct l as [|[g y] l]; [by rewrite !drop_nil|]. destruct (numbered_cons _ _ _ _ Hl) as [-> _].
  destruct (multiple_step st G y l Hst HG Hl) as [Em Hn]. rewrite Em. cbn [drop].
  rewrite <- (IH (G + st)); [|by rewrite mod_add_self|done].
  rewrite drop_drop. replace (S k * Z.to_nat st)%nat with (S (Z.to_nat (st - 1) + k * Z.to_nat st))%nat by lia.
  done.
Qed.

(** At most one of [st] consecutive numbers is a multiple. *)
Lemma multiple_one st G l : 0 < st -> numbered G l -> (length l <= Z.to_nat st)%nat ->
  omap (multiple st) l = option_list (head (omap (multiple st) l)).
Proof.
  intros Hst. revert G. induction l as [|[g x] l IH]; intros G Hl Hlen; [done|].
  destruct (numbered_cons _ _ _ _ Hl) as [-> Hn]. destruct (Z.eq_dec (G mod st) 0) as [HG|HG].
  - destruct (multiple_step st G x l Hst HG Hl) as [-> _]. cbn. cbn in Hlen.
    by rewrite drop_ge by lia.
  - assert (E : multiple st (G, x) = None) by (unfold multiple; cbn; by rewrite (proj2 (Z.eqb_neq _ _))).
    cbn. rewrite E. apply (IH (G + 1)); [done|]. cbn in Hlen. lia.
Qed.

(** Which elements [Take] and [Skip] keep. *)
Definition below (count : Z) (p : Z * A) : option (Z * A) := if p.1 <? count then Some p else None.
Definition shifted (count : Z) (p : Z * A) : option (Z * A) :=
  if count <=? p.1 then Some (p.1 - count, p.2) else None.

Lemma below_none count g x l : increasing ((g, x) :: l) -> count <= g -> omap (below count) ((g, x) :: l) = [].
Proof.
  intros Hl Hg. apply omap_none. apply StronglySorted_inv in Hl as [_ Hl]. constructor.
  - unfold below. cbn. by rewrite (proj2 (Z.ltb_ge _ _)).
  - apply Forall_forall. intros [h y] Hy. apply (proj1 (Forall_forall _ _) Hl) in Hy. cbn in Hy.
    unfold below. cbn [fst]. by rewrite (proj2 (Z.ltb_ge h count)) by lia.
Qed.

Lemma below_cons count g x l : g < count -> omap (below count) ((g, x) :: l) = (g, x) :: omap (below count) l.
Proof. intros Hg. cbn. unfold below at 1. cbn [fst]. by rewrite (proj2 (Z.ltb_lt g count)). Qed.

Lemma below_lookup count l k g x : increasing l -> omap (below count) l !! k = Some (g, x) ->
  l !! k = Some (g, x) /\ g < count.
Proof.
  intros Hl. revert k. induction l as [|[h y] l IH]; intros k E; [done|].
  pose proof Hl as [Hl' _]%StronglySorted_inv.
  destruct (Z.lt_ge_cases h count) as [Hh|Hh]; [|by rewrite below_none in E].
  rewrite below_cons in E by done. destruct k as [|k]; cbn in *; [by simplify_eq|]. by apply IH.
Qed.

Lemma below_drop count l k : increasing l -> omap (below count) (drop k l) = drop k (omap (below count) l).
Proof.
  intros Hl. revert k. induction l as [|[h y] l IH]; intros k; [cbn; by rewrite !drop_nil|].
  pose proof Hl as [Hl' Hall]%StronglySorted_inv. destruct k as [|k]; [done|]. cbn [drop].
  destruct (Z.lt_ge_cases h count) as [Hh|Hh].
  - rewrite below_cons by done. by apply IH.
  - rewrite (below_none count h y l), IH by done.
    assert (E : omap (below count) l = []); [|by rewrite E, !drop_nil].
    destruct l as [|[g x] l]; [done|]. apply below_none; [done|].
    apply Forall_cons_1 in Hall as [Hg _]. cbn in Hg. lia.
Qed.

(** Filters and shifts of indices keep the order. *)
Lemma increasing_omap {B} (f : Z * A -> option (Z * B)) l :
  (forall p q p' q', f p = Some p' -> f q = Some q' -> p.1 < q.1 -> p'.1 < q'.1) ->
  increasing l -> increasing (omap f l).
Proof.
  intros Hf. induction 1 as [|p l Hl IH Hp]; cbn; [constructor|]. destruct (f p) as [p'|] eqn:E; [|done].
  constructor; [done|]. apply Forall_forall. intros q' (q & Hq & Eq)%list_elem_of_In%list_elem_of_omap.
  rewrite Forall_forall in Hp. eapply Hf; eauto. apply Hp. by apply list_elem_of_In.
Qed.
End Lists.

(** ** Ranges of positions *)

Section Ranges.
Context {I A : Type} `{DistributedIterator I A, IndexedDistributedIterator I, !IndexedSpec I A, !IndexedLaws I A}.
Implicit Types it : I.

Lemma iranges_nil it s e : e <= s -> iranges it s e = [].
Proof. intros Hle. unfold iranges. by rewrite seqZ_nil by lia. Qed.

Lemma iranges_end it s e : ilen it <= s -> iranges it s e = [].
Proof. intros Hle. unfold iranges. by rewrite seqZ_nil by lia. Qed.

Lemma iranges_app it s m e : s <= m <= e -> iranges it s e = iranges it s m ++ iranges it m e.
Proof.
  intros Hm. unfold iranges. rewrite <- omap_app. f_equal. set (n := ilen it).
  replace (Z.min e n - Z.min s n) with ((Z.min m n - Z.min s n) + (Z.min e n - Z.min m n)) by lia.
  rewrite seqZ_app by lia. f_equal. f_equal. lia.
Qed.

(** Positions from some number on that is not below the end do not count. *)
Lemma iranges_clamp it s e n : ilen it <= n -> iranges it (Z.min s n) (Z.min e n) = iranges it s e.
Proof. intros Hn. unfold iranges. f_equal. f_equal; lia. Qed.

(** What is left from a position on starts with the chunk. *)
Lemma iranges_split it s c : 0 <= c ->
  iranges it s (ilen it) = iranges it s (s + c) ++ iranges it (s + c) (ilen it).
Proof.
  intros Hc. destruct (Z.le_gt_cases (s + c) (ilen it)); [apply iranges_app; lia|].
  rewrite (iranges_end it (s + c)), app_nil_r by lia.
  rewrite <- (iranges_clamp it s (s + c) (ilen it)), <- (iranges_clamp it s (ilen it) (ilen it)) by lia.
  f_equal. lia.
Qed.

Lemma iranges_length it s e : (length (iranges it s e) <= Z.to_nat (e - s))%nat.
Proof. unfold iranges. etrans; [apply length_omap_le|]. rewrite length_seqZ. lia. Qed.

Lemma iranges_elem it s e g x : iok it -> (g, x) ∈ iranges it s e -> 0 <= g < 2 ^ 63.
Proof. intros Hok (i & _ & E)%list_elem_of_omap. by eapply ilaw_positions in E as [_ ?]. Qed.

Lemma iranges_increasing it s e : iok it -> increasing (iranges it s e).
Proof. intros Hok. apply omap_increasing. intros. by eapply (ilaw_increasing it i j). Qed.

Lemma iranges_same it it' s e : ritems it' = ritems it -> ilen it' = ilen it -> iranges it' s e = iranges it s e.
Proof. intros E1 E2. unfold iranges. by rewrite E1, E2. Qed.

(** A filter of what a range yields. *)
Lemma iranges_filter {I' B} `{IndexedSpec I' B} (f : Z * A -> option (Z * B)) it (it' : I') s e :
  (forall i, ritems it' i = ritems it i ≫= f) -> ilen it' = ilen it ->
  iranges it' s e = omap f (iranges it s e).
Proof.
  intros E1 E2. unfold iranges. rewrite omap_omap, E2. induction (seqZ _ _) as [|i l IH]; cbn; [done|].
  by rewrite E1, IH.
Qed.
End Ranges.

(** ** [Skip] is an indexed iterator of what remains after [count] *)

Section Skip.
Context {I A : Type} `{DistributedIterator I A, IndexedDistributedIterator I, !IndexedSpec I A, !IndexedLaws I A}.

(** Every element left has to be skipped past: [init] leaves none below [count]. *)
#[export] Instance skip_spec : IndexedSpec (Skip I) A := {
  ritems it i := ritems (skip_iter it) i ≫= shifted (skip_count it);
  icontent it := omap (shifted (skip_count it)) (icontent (skip_iter it));
  ilen it := ilen (skip_iter it);
  inum it := inum (skip_iter it);
  ireach it B := B + skip_count it <= 2 ^ 63 /\ ireach (skip_iter it) (B + skip_count it);
  iok it := iok (skip_iter it) /\ 0 <= skip_count it < 2 ^ 63 /\ 0 <= skip_index it /\
            Forall (fun p => skip_count it <= fst p) (icontent (skip_iter it));
}.

Lemma shifted_none count g (x : A) : g < count -> shifted count (g, x) = None.
Proof. intros Hg. unfold shifted. cbn [fst]. by rewrite (proj2 (Z.leb_gt count g)). Qed.

Lemma shifted_some count g (x : A) : count <= g -> shifted count (g, x) = Some (g - count, x).
Proof. intros Hg. unfold shifted. cbn [fst]. by rewrite (proj2 (Z.leb_le count g)). Qed.

Lemma shifted_inv count g x g' (x' : A) : shifted count (g, x) = Some (g', x') -> g = g' + count /\ x = x' /\ 0 <= g'.
Proof.
  unfold shifted. cbn [fst snd]. destruct (Z.leb_spec count g); [|done]. intros [= <- <-]. split_and!; done || lia.
Qed.

Lemma shifted_all count (l : list (Z * A)) : Forall (fun p => count <= fst p) l ->
  omap (shifted count) l = prod_map (fun g => g - count) id <$> l.
Proof.
  intros Hl. apply omap_all. eapply Forall_impl; [|exact Hl]. intros [g x] Hg. by rewrite shifted_some.
Qed.

(** The loop stops at the first position whose index is not skipped, or without an index. *)
Lemma skip_loop_spec it count s (R : list (Z * A)) :
  aligned it s R -> (forall g x, (g, x) ∈ R -> 0 <= g < 2 ^ 63) -> 0 <= count < 2 ^ 63 ->
  (forall i, Z.of_nat (it_bound it) <= i -> it_index it i = None) -> 0 <= s ->
  forall fuel j g0, it_index it (s + Z.of_nat j) = Some g0 -> Z.of_nat (it_bound it) < s + Z.of_nat j + Z.of_nat fuel ->
  exists j', snd (skip_loop fuel it count (s + Z.of_nat j) g0) = s + Z.of_nat j' /\ (j <= j')%nat /\
    (forall k g x, (j <= k < j')%nat -> R !! k = Some (g, x) -> g < count) /\
    if fst (skip_loop fuel it count (s + Z.of_nat j) g0)
    then forall g x, R !! j' = Some (g, x) -> count <= g
    else (length R <= j')%nat.
Proof.
  intros Ha HR Hc Hb Hs. induction fuel as [|fuel IH]; intros j g0 E Hf.
  { rewrite Hb in E by lia. done. }
  assert (HE : forall g x, R !! j = Some (g, x) -> g = g0 /\ as_isize g0 = g0).
  { intros g x EL. pose proof (Ha _ _ _ EL) as E'. rewrite E in E'. injection E' as ->. split; [done|].
    apply as_isize_ok. apply (HR g x). by eapply list_elem_of_lookup_2. }
  assert (Hcc : as_isize count = count) by (apply as_isize_ok; lia).
  cbn [skip_loop]. rewrite Hcc. destruct (Z.ltb_spec (as_isize g0 - count) 0) as [Hlt|Hge].
  - destruct (it_index it (s + Z.of_nat j + 1)) as [i|] eqn:Ei.
    + replace (s + Z.of_nat j + 1) with (s + Z.of_nat (S j)) in * by lia.
      destruct (IH (S j) i Ei ltac:(lia)) as (j' & Ej & Hj & Hk & Hend). exists j'.
      split_and!; [done|lia| |done]. intros k g x Hkj EL.
      destruct (Nat.eq_dec k j) as [->|]; [apply HE in EL as [-> Eg]; lia|]. eapply Hk; [|done]. lia.
    + exists (S j). cbn. split_and!; [lia|lia| |].
      * intros k g x Hkj EL. replace k with j in * by lia. apply HE in EL as [-> Eg]. lia.
      * apply lookup_ge_None. destruct (R !! S j) as [[g x]|] eqn:EL; [|done].
        apply Ha in EL. replace (s + Z.of_nat j + 1) with (s + Z.of_nat (S j)) in Ei by lia. congruence.
  - exists j. cbn. split_and!; [done|lia|intros; lia|]. intros g x EL. apply HE in EL as [-> Eg]. lia.
Qed.

(** Removing a prefix that is skipped, from a chunk whose elements grow. *)
Lemma shifted_prefix count (R : list (Z * A)) j :
  (forall k g x, (k < j)%nat -> R !! k = Some (g, x) -> g < count) ->
  omap (shifted count) (take j R) = [].
Proof.
  intros Hk. apply omap_none, Forall_lookup. intros k [g x] E.
  apply lookup_take_Some in E as [E Hkj]. apply shifted_none. eapply Hk; [exact Hkj|exact E].
Qed.

Lemma from_count count (R : list (Z * A)) j : increasing R ->
  (forall g x, R !! j = Some (g, x) -> count <= g) -> Forall (fun p => count <= fst p) (drop j R).
Proof.
  intros HR Hj. apply Forall_lookup. intros k [g x] E. rewrite lookup_drop in E. cbn.
  destruct (R !! j) as [[h y]|] eqn:Ej.
  - specialize (Hj h y eq_refl). destruct k as [|k]; [rewrite Nat.add_0_r in E; by simplify_eq|].
    pose proof (increasing_lookup R j (j + S k) h g y x HR Ej E ltac:(lia)). lia.
  - apply lookup_ge_None in Ej. apply lookup_lt_Some in E. lia.
Qed.
(** What [init] returns, advanced by [k] and with the shift [z] of the index. *)
Lemma skip_init_at it s c k z :
  iok it -> 0 <= s -> 0 <= c -> 0 <= z ->
  let R := iranges (skip_iter it) s (ilen (skip_iter it)) in
  let it' := {| skip_iter := it_advance (it_init (skip_iter it) s c) (Z.of_nat k);
                skip_count := skip_count it; skip_index := z |} in
  omap (shifted (skip_count it)) R = [] /\ c = Z.of_nat k \/
  z = Z.of_nat k /\ omap (shifted (skip_count it)) (take k R) = [] /\
    Forall (fun p => skip_count it <= fst p) (drop k R) ->
  icontent it' = iranges it s (s + c) /\ aligned it' s (iranges it s (ilen it)) /\
  ritems it' = ritems it /\ ilen it' = ilen it /\ inum it' = inum it /\ ireach it' = ireach it /\
  reaches it it' s /\ iok it'.
Proof.
  intros (Hok & Hcnt & Hidx & _) Hs Hc Hz R it' Hcase. set (count := skip_count it) in *.
  destruct (ilaw_init (skip_iter it) s c Hok Hs Hc) as (E1 & Ha & E2 & E3 & E4 & E4r & Hok1). fold R in Ha.
  destruct (ilaw_advance _ (Z.of_nat k) Hok1 ltac:(lia)) as (F1 & F2 & F3 & F4 & F5 & F6 & Hok2).
  rewrite Nat2Z.id, E1 in F1.
  pose proof (iranges_split (skip_iter it) s c Hc) as HR. fold R in HR.
  set (P := iranges (skip_iter it) s (s + c)) in *.
  assert (HP : omap (shifted count) (take k P) = [] /\ Forall (fun p => count <= fst p) (drop k P)).
  { destruct Hcase as [[HE ->]|(_ & Ht & Hd)].
    - rewrite HR, omap_app in HE. apply app_nil in HE as [HE _].
      pose proof (iranges_length (skip_iter it) s (s + Z.of_nat k)) as HL. fold P in HL.
      rewrite take_ge, drop_ge by lia. done.
    - rewrite HR, take_app, omap_app in Ht. apply app_nil in Ht as [Ht _].
      rewrite HR, drop_app in Hd. apply Forall_app in Hd as [Hd _]. done. }
  assert (EP : forall e, iranges it s e = omap (shifted count) (iranges (skip_iter it) s e)).
  { intros e. by apply iranges_filter. }
  assert (HL : forall j g x, iranges it s (ilen it) !! j = Some (g, x) ->
    z = Z.of_nat k /\ R !! (k + j)%nat = Some (g + count, x) /\ 0 <= g < 2 ^ 63 - count).
  { intros j g x E. rewrite (EP (ilen it) : _ = omap (shifted count) R) in E.
    assert (Hg : 0 <= g < 2 ^ 63 - count).
    { apply list_elem_of_lookup_2, list_elem_of_omap in E as ([h y] & Hin & (-> & _ & Hg)%shifted_inv).
      apply iranges_elem in Hin; [lia|done]. }
    destruct Hcase as [[E' _]|(-> & Ht & Hd)]; [by rewrite E' in E|].
    rewrite <- (take_drop k R), omap_app, Ht in E. cbn [app] in E. rewrite shifted_all in E by done.
    apply list_lookup_fmap_Some in E as ([h y] & [= -> ->] & E). rewrite lookup_drop in E.
    split_and!; try done; try lia. rewrite E. do 2 f_equal. lia. }
  assert (Hi : forall j g n, 0 <= g + n < 2 ^ 63 - count ->
    it_index (it_init (skip_iter it) s c) (s + Z.of_nat (k + j) + n) = Some (g + count + n) ->
    it_index {| skip_iter := it_advance (it_init (skip_iter it) s c) (Z.of_nat k);
                skip_count := count; skip_index := Z.of_nat k |} (s + Z.of_nat j + n) = Some (g + n)).
  { intros j g n Hg Ei. cbn. unfold skip_iterator_index. cbn. rewrite F2.
    replace (s + Z.of_nat j + n + Z.of_nat k) with (s + Z.of_nat (k + j) + n) by lia. rewrite Ei.
    rewrite !as_isize_ok by lia. rewrite (proj2 (Z.leb_le _ _)) by lia. f_equal. lia. }
  split_and!; cbn; rewrite ?F1, ?F3, ?F4, ?F5, ?F6, ?E2, ?E3, ?E4, ?E4r; try done.
  - rewrite EP. fold P. rewrite <- (take_drop k P) at 2. by rewrite omap_app, (proj1 HP).
  - intros j g x (-> & E & Hg)%HL. pose proof (Ha _ _ _ E) as Ei.
    rewrite <- (Z.add_0_r (s + Z.of_nat j)), <- (Z.add_0_r g). apply Hi; [lia|].
    by rewrite !Z.add_0_r.
  - intros j g x n B [HB0 HB] (-> & E & Hg)%HL Hn Hlt. apply Hi; [lia|].
    apply (ilaw_reach _ s c _ _ x n (B + count)); try done; lia.
  - by destruct HP.
Qed.

Lemma skip_init_spec it s c :
  iok it -> 0 <= s -> 0 <= c ->
  icontent (skip_init it s c) = iranges it s (s + c) /\
  aligned (skip_init it s c) s (iranges it s (ilen it)) /\
  ritems (skip_init it s c) = ritems it /\ ilen (skip_init it s c) = ilen it /\
  inum (skip_init it s c) = inum it /\ ireach (skip_init it s c) = ireach it /\
  reaches it (skip_init it s c) s /\ iok (skip_init it s c).
Proof.
  intros Hok0 Hs Hc. pose proof Hok0 as (Hok & Hcnt & Hidx & _).
  destruct (ilaw_init (skip_iter it) s c Hok Hs Hc) as (E1 & Ha & E2 & E3 & E4 & E4r & Hok1).
  set (R := iranges (skip_iter it) s (ilen (skip_iter it))) in *.
  pose proof (fun z Hz HE => skip_init_at it s c (Z.to_nat c) z Hok0 Hs Hc Hz
    (or_introl (conj HE (eq_sym (Z2Nat.id c Hc))))) as HN.
  rewrite Z2Nat.id in HN by done.
  unfold skip_init. destruct (it_index (it_init (skip_iter it) s c) s) as [g0|] eqn:E0.
  - destruct (skip_loop_spec (it_init (skip_iter it) s c) (skip_count it) s R Ha) with
      (fuel := S (it_bound (it_init (skip_iter it) s c))) (j := 0%nat) (g0 := g0)
      as (j & Ej & _ & Hlt & Hend); try done; try lia.
    { intros g x. by apply iranges_elem. }
    { intros i. by apply ilaw_bound. }
    { by rewrite Z.add_0_r. }
    rewrite Z.add_0_r in Ej, Hend. destruct (skip_loop _ _ _ _ _) as [found si]. cbn in Ej, Hend. subst si.
    assert (Ht : omap (shifted (skip_count it)) (take j R) = []).
    { apply shifted_prefix. intros k g x Hk. apply Hlt. lia. }
    destruct found.
    + replace (s + Z.of_nat j - s) with (Z.of_nat j) by lia. apply skip_init_at; [done..|lia|]. right.
      split_and!; [done..|]. apply from_count; [by apply iranges_increasing|done].
    + rewrite take_ge in Ht by done. apply HN; [lia|done].
  - assert (ER : R = []).
    { destruct R as [|[g x] R']; [done|]. specialize (Ha 0%nat g x eq_refl). rewrite Z.add_0_r in Ha. congruence. }
    apply HN; [done|]. fold R. by rewrite ER.
Qed.

#[export] Instance skip_laws : IndexedLaws (Skip I) A.
Proof.
  split.
  - intros it s c Hok Hs Hc. destruct (skip_init_spec it s c Hok Hs Hc) as (? & ? & ? & ? & ? & ? & _ & ?). done.
  - intros it (Hok & Hcnt & Hidx & HF). destruct (ilaw_next _ Hok) as (E1 & E2 & E3 & E4 & E5 & E6 & E7 & Hok').
    cbn. unfold skip_next, skip_iterator_index. destruct (it_next (skip_iter it)) as [x iter]. cbn in *.
    rewrite E1, E2, E3, E4, E5, E6, E7. rewrite shifted_all by done.
    assert (HT : Forall (fun p => skip_count it <= fst p) (tail (icontent (skip_iter it)))) 
      by (destruct (icontent (skip_iter it)); [done|by apply Forall_cons_1 in HF as []]).
    rewrite shifted_all by done. split_and!; try done; try lia; by destruct (icontent (skip_iter it)) as [|[]].
  - intros it k (Hok & Hcnt & Hidx & HF) Hk.
    destruct (ilaw_advance _ k Hok Hk) as (E2 & E3 & E4 & E5 & E6 & E7 & Hok').
    cbn. unfold skip_iterator_index. cbn. rewrite E2, E3, E4, E5, E6, E7.
    assert (HT : Forall (fun p => skip_count it <= fst p) (drop (Z.to_nat k) (icontent (skip_iter it))))
      by (by apply Forall_drop).
    rewrite !shifted_all by done. by rewrite fmap_drop.
  - intros it (Hok & _). cbn. rewrite ilaw_elems by done.
    pose proof (ilaw_len (skip_iter it) Hok). lia.
  - intros it (Hok & _). exact (ilaw_len (skip_iter it) Hok).
  - intros it (Hok & _). cbn. etrans; [apply length_omap_le|]. by apply ilaw_fuel.
  - intros it (Hok & _). cbn. apply increasing_omap; [|by apply ilaw_sorted].
    intros [g x] [h y] [g' x'] [h' y'] (-> & _)%shifted_inv (-> & _)%shifted_inv Hlt. cbn in *. lia.
  - intros it i (Hok & _ & Hidx & _) Hi. cbn. unfold skip_iterator_index.
    rewrite ilaw_bound; [done|done|]. cbn in Hi. lia.
  - intros it s c i g x n B Hok Hs Hc. destruct (skip_init_spec it s c Hok Hs Hc) as (_ & _ & _ & _ & _ & _ & HR & _).
    apply HR.
  - intros it i g x (Hok & Hcnt & _) E. cbn in *. destruct (ritems (skip_iter it) i) as [[h y]|] eqn:Ei; [|done].
    cbn [mbind option_bind] in E. apply shifted_inv in E as (-> & -> & Hg).
    apply ilaw_positions in Ei; [|done]. lia.
  - intros it i j g h x y (Hok & _) Ei Ej Hij. cbn in *.
    destruct (ritems (skip_iter it) i) as [[g' x']|] eqn:Ei'; [|done].
    destruct (ritems (skip_iter it) j) as [[h' y']|] eqn:Ej'; [|done].
    cbn [mbind option_bind] in Ei, Ej. apply shifted_inv in Ei as (-> & _), Ej as (-> & _).
    pose proof (ilaw_increasing (skip_iter it) i j _ _ _ _ Hok Ei' Ej' Hij). lia.
Qed.
End Skip.

(** ** [Take] keeps the elements with an index below [count] *)

Section Take.
Context {I A : Type} `{DistributedIterator I A, IndexedDistributedIterator I, !IndexedSpec I A, !IndexedLaws I A}.

(** [cur_index] is the position of the first element left. *)
#[export] Instance take_spec : IndexedSpec (Take I) A := {
  ritems it i := ritems (take_iter it) i ≫= below (take_count it);
  icontent it := omap (below (take_count it)) (icontent (take_iter it));
  ilen it := ilen (take_iter it);
  inum it := inum (take_iter it);
  ireach it B := B <= take_count it /\ ireach (take_iter it) B;
  iok it := iok (take_iter it) /\ aligned (take_iter it) (take_cur it) (icontent (take_iter it));
}.

Lemma below_inv count g (x : A) p : below count (g, x) = Some p -> p = (g, x) /\ g < count.
Proof. unfold below. cbn [fst]. destruct (Z.ltb_spec g count); [|done]. by intros [= <-]. Qed.

Lemma below_tail count (l : list (Z * A)) : increasing l ->
  omap (below count) (tail l) = tail (omap (below count) l).
Proof. intros Hl. exact (below_drop count l 1 Hl). Qed.

(** The chunk is a prefix of what is left. *)
Lemma init_aligned (it : I) s c : iok it -> 0 <= s -> 0 <= c ->
  aligned (it_init it s c) s (icontent (it_init it s c)).
Proof.
  intros Hok Hs Hc. destruct (ilaw_init it s c Hok Hs Hc) as (E1 & Ha & _). rewrite E1.
  intros k g x E. apply (Ha k g x). rewrite (iranges_split it s c) by done. by apply lookup_app_l_Some.
Qed.

Lemma take_next_spec it : iok it ->
  fst (take_next it) = snd <$> head (icontent it) /\
  icontent (snd (take_next it)) = tail (icontent it) /\
  it_index (snd (take_next it)) = it_index it /\
  ritems (snd (take_next it)) = ritems it /\ ilen (snd (take_next it)) = ilen it /\
  inum (snd (take_next it)) = inum it /\ ireach (snd (take_next it)) = ireach it /\ iok (snd (take_next it)).
Proof.
  intros (Hok & Ha). destruct (ilaw_next _ Hok) as (E1 & E2 & E3 & E4 & E5 & E6 & E7 & Hok').
  pose proof (ilaw_sorted _ Hok) as Hs.
  assert (Hstop : icontent it = [] \/ exists g x, head (icontent (take_iter it)) = Some (g, x) /\
    take_iterator_index it (take_cur it) = Some g /\ g < take_count it).
  { cbn. destruct (icontent (take_iter it)) as [|[g x] l]; [by left|].
    destruct (Z.lt_ge_cases g (take_count it)) as [Hg|Hg]; [|left; by apply below_none].
    right. exists g, x. split_and!; [done| |done]. unfold take_iterator_index.
    specialize (Ha 0%nat g x eq_refl). rewrite Z.add_0_r in Ha. rewrite Ha.
    by rewrite (proj2 (Z.ltb_lt g _)). }
  unfold take_next. destruct Hstop as [E|(g & x & Eh & Ei & Hg)].
  - destruct (take_iterator_index it (take_cur it)) as [i|] eqn:Ei; [|cbn in *; by rewrite E].
    destruct (Z.ltb_spec i (take_count it)); [|cbn in *; by rewrite E].
    assert (En : icontent (take_iter it) = []).
    { unfold take_iterator_index in Ei. cbn in E.
      destruct (icontent (take_iter it)) as [|[g x] l]; [done|].
      specialize (Ha 0%nat g x eq_refl). rewrite Z.add_0_r in Ha. rewrite Ha in Ei.
      destruct (Z.ltb_spec g (take_count it)); [|done]. by rewrite below_cons in E. }
    destruct (it_next (take_iter it)) as [x iter]. cbn in *. unfold take_iterator_index. cbn.
    rewrite En in *. cbn in *. rewrite E2, E3, E4, E5, E6, E7. split_and!; try done.
  - rewrite Ei, (proj2 (Z.ltb_lt g _)) by done.
    destruct (it_next (take_iter it)) as [y iter]. cbn in *. unfold take_iterator_index. cbn.
    rewrite E2, E3, E4, E5, E6, E7, below_tail by done. split_and!; try done.
    + rewrite E1. destruct (icontent (take_iter it)) as [|[h z] l]; [done|]. cbn in Eh. injection Eh as -> ->.
      by rewrite below_cons.
    + by apply (aligned_tail (take_iter it)).
Qed.

#[export] Instance take_laws : IndexedLaws (Take I) A.
Proof.
  split.
  - intros it s c (Hok & _) Hs Hc. destruct (ilaw_init _ s c Hok Hs Hc) as (E1 & Ha & E2 & E3 & E4 & E4r & Hok').
    pose proof (init_aligned _ s c Hok Hs Hc) as Ha'. cbn. rewrite E2, E3, E4, E4r. split_and!; try done.
    + rewrite E1. symmetry. by apply iranges_filter.
    + rewrite (iranges_filter (below (take_count it)) (take_iter it)) by done.
      intros k g x (E & Hg)%below_lookup; [|by apply iranges_increasing].
      apply Ha in E. cbn. unfold take_iterator_index. cbn. rewrite E. by rewrite (proj2 (Z.ltb_lt g _)).
  - exact take_next_spec.
  - intros it k (Hok & Ha) Hk. destruct (ilaw_advance _ k Hok Hk) as (E2 & E3 & E4 & E5 & E6 & E7 & Hok').
    cbn. unfold take_iterator_index. cbn. rewrite E2, E3, E4, E5, E6, E7. split_and!; try done.
    + apply below_drop. by apply ilaw_sorted.
    + by apply (aligned_drop (take_iter it)).
  - intros it (Hok & _). cbn. rewrite ilaw_elems by done. pose proof (ilaw_len (take_iter it) Hok). lia.
  - intros it (Hok & _). exact (ilaw_len (take_iter it) Hok).
  - intros it (Hok & _). cbn. etrans; [apply length_omap_le|]. by apply ilaw_fuel.
  - intros it (Hok & _). cbn. apply increasing_omap; [|by apply ilaw_sorted].
    intros [g x] [h y] p' q' (-> & _)%below_inv (-> & _)%below_inv. done.
  - intros it i (Hok & _) Hi. cbn. unfold take_iterator_index. by rewrite ilaw_bound.
  - intros it s c i g x n B (Hok & _) Hs Hc [HB0 HB] E Hn Hlt. cbn in *. unfold take_iterator_index. cbn.
    rewrite (iranges_filter (below (take_count it)) (take_iter it)) in E by done.
    apply below_lookup in E as [E _]; [|by apply iranges_increasing].
    rewrite (ilaw_reach (take_iter it) s c i g x n B) by done. by rewrite (proj2 (Z.ltb_lt _ _)) by lia.
  - intros it i g x (Hok & _) E. cbn in *. destruct (ritems (take_iter it) i) as [[h y]|] eqn:Ei; [|done].
    cbn [mbind option_bind] in E. apply below_inv in E as ([= -> ->] & _). by eapply ilaw_positions.
  - intros it i j g h x y (Hok & _) Ei Ej Hij. cbn in *.
    destruct (ritems (take_iter it) i) as [[g' x']|] eqn:Ei'; [|done].
    destruct (ritems (take_iter it) j) as [[h' y']|] eqn:Ej'; [|done].
    cbn [mbind option_bind] in Ei, Ej. apply below_inv in Ei as ([= -> ->] & _), Ej as ([= -> ->] & _).
    by eapply (ilaw_increasing (take_iter it) i j).
Qed.
End Take.

(** ** [Enumerate] pairs an element with its index *)

Section Enumerate.
Context {I A : Type} `{DistributedIterator I A, IndexedDistributedIterator I, !IndexedSpec I A, !IndexedLaws I A}.

Definition with_index (p : Z * A) : Z * (Z * A) := (fst p, p).

#[export] Instance enum_spec : IndexedSpec (Enumerate I) (Z * A) := {
  ritems it i := with_index <$> ritems (enum_iter it) i;
  icontent it := with_index <$> icontent (enum_iter it);
  ilen it := ilen (enum_iter it);
  inum it := inum (enum_iter it);
  ireach it := ireach (enum_iter it);
  iok it := iok (enum_iter it) /\ aligned (enum_iter it) (enum_cur it) (icontent (enum_iter it));
}.

Lemma with_index_ranges it s e : iranges it s e = with_index <$> iranges (enum_iter it) s e.
Proof. unfold iranges. cbn. symmetry. apply list_fmap_omap. Qed.

Lemma aligned_with_index (it : I) (it' : Enumerate I) p l : it_index it' = it_index it ->
  aligned it p l -> aligned it' p (with_index <$> l).
Proof.
  intros Ei Ha k g x E. apply list_lookup_fmap_Some in E as ([h y] & [= -> ->] & E).
  rewrite Ei. by eapply Ha.
Qed.

Lemma enum_next_spec it : iok it ->
  fst (enum_next it) = snd <$> head (icontent it) /\
  icontent (snd (enum_next it)) = tail (icontent it) /\
  it_index (snd (enum_next it)) = it_index it /\
  ritems (snd (enum_next it)) = ritems it /\ ilen (snd (enum_next it)) = ilen it /\
  inum (snd (enum_next it)) = inum it /\ ireach (snd (enum_next it)) = ireach it /\ iok (snd (enum_next it)).
Proof.
  intros (Hok & Ha). destruct (ilaw_next _ Hok) as (E1 & E2 & E3 & E4 & E5 & E6 & E7 & Hok').
  unfold enum_next. destruct (it_next (enum_iter it)) as [x iter]. cbn in *.
  destruct (icontent (enum_iter it)) as [|[g y] l] eqn:El; cbn in *; subst x; cbn.
  - rewrite E2, E3, E4, E5, E6, E7. split_and!; try done.
  - pose proof (Ha 0%nat g y eq_refl) as Ei. rewrite Z.add_0_r in Ei. rewrite E3, Ei. cbn.
    rewrite E2, E3, E4, E5, E6, E7. split_and!; try done. by apply (aligned_tail (enum_iter it) _ _ _ Ha).
Qed.

#[export] Instance enum_laws : IndexedLaws (Enumerate I) (Z * A).
Proof.
  split.
  - intros it s c (Hok & _) Hs Hc. destruct (ilaw_init _ s c Hok Hs Hc) as (E1 & Ha & E2 & E3 & E4 & E4r & Hok').
    pose proof (init_aligned _ s c Hok Hs Hc) as Ha'. cbn. rewrite !with_index_ranges, E1, E2, E3, E4, E4r.
    split_and!; try done; [|by rewrite <- E1]. by eapply aligned_with_index.
  - exact enum_next_spec.
  - intros it k (Hok & Ha) Hk. destruct (ilaw_advance _ k Hok Hk) as (E2 & E3 & E4 & E5 & E6 & E7 & Hok').
    cbn. rewrite E2, E3, E4, E5, E6, E7, fmap_drop. split_and!; try done. by apply (aligned_drop (enum_iter it)).
  - intros it (Hok & _). cbn. by apply ilaw_elems.
  - intros it (Hok & _). exact (ilaw_len (enum_iter it) Hok).
  - intros it (Hok & _). cbn. rewrite length_fmap. by apply ilaw_fuel.
  - intros it (Hok & _). cbn. rewrite <- (omap_all (fun p => Some (with_index p)) with_index)
      by (by apply Forall_forall). apply increasing_omap; [|by apply ilaw_sorted].
    by intros p q ? ? [= <-] [= <-].
  - intros it i (Hok & _) Hi. cbn. by rewrite ilaw_bound.
  - intros it s c i g x n B (Hok & _) Hs Hc HB E Hn Hlt. rewrite with_index_ranges in E.
    apply list_lookup_fmap_Some in E as ([h y] & [= -> ->] & E). by apply (ilaw_reach (enum_iter it) s c i h y n B).
  - intros it i g x (Hok & _) E. cbn in *. apply fmap_Some in E as ([h y] & Ei & [= -> ->]).
    by eapply ilaw_positions.
  - intros it i j g h x y (Hok & _) Ei Ej Hij. cbn in *.
    apply fmap_Some in Ei as ([g' x'] & Ei & [= -> ->]), Ej as ([h' y'] & Ej & [= -> ->]).
    by eapply (ilaw_increasing (enum_iter it) i j).
Qed.
End Enumerate.

(** ** [StepBy] keeps every [step_size]-th element *)

(** The division in single precision rounds up to the right integer below 2^24. *)
Lemma f32_ceil_div a b : 0 <= a < 2 ^ 24 -> 1 <= b < 2 ^ 24 ->
  f32_ceil (f32_div (f32_of_usize a) (f32_of_usize b)) = (a + b - 1) / b.
Proof.
  intros Ha Hb. unfold f32_ceil, f32_div, f32_of_usize.
  pose proof (flt_int 24 eq_refl (inject_Z a) a ltac:(reflexivity) Ha) as Ea.
  pose proof (flt_int 24 eq_refl (inject_Z b) b ltac:(reflexivity) ltac:(lia)) as Eb.
  set (r := (/ inject_Z b)%Q).
  assert (Hb0 : (0 < inject_Z b)%Q) by (change 0%Q with (inject_Z 0); apply Qlt_inject_lt; lia).
  assert (Hr : (0 < r)%Q) by (by apply Qinv_lt_0_compat).
  assert (Ebr : (inject_Z b * r == 1)%Q) by (apply Qmult_inv_r; lra).
  rewrite (flt_compat 24 _ (inject_Z a * r)%Q) by (by rewrite Ea, Eb). clear Ea Eb.
  set (q := (a + b - 1) / b).
  assert (Hq : (q - 1) * b + 1 <= a <= q * b).
  { pose proof (Z.div_mod (a + b - 1) b ltac:(lia)). pose proof (Z.mod_pos_bound (a + b - 1) b ltac:(lia)).
    fold q in H. nia. }
  assert (Hq1 : (inject_Z ((q - 1) * b + 1) * r == inject_Z q - 1 + r)%Q).
  { rewrite inject_Z_plus, inject_Z_mult. unfold Z.sub. rewrite inject_Z_plus.
    change (inject_Z (- (1))) with (- (1))%Q. change (inject_Z 1) with 1%Q. rewrite Qmult_plus_distr_l, <- Qmult_assoc, Ebr. lra. }
  destruct (Z.eq_dec a 0) as [->|Ha0].
  { rewrite flt_0 by (change (inject_Z 0) with 0%Q; lra). change (Qceiling 0) with 0. 
    unfold q. symmetry. apply Z.div_small. lia. }
  assert (Hx : (0 < inject_Z a * r)%Q).
  { apply Qmult_lt_0_compat; [|done]. change 0%Q with (inject_Z 0). apply Qlt_inject_lt. lia. }
  pose proof (flt_err 24 eq_refl _ Hx) as [Hl Hu]. change (2 * ulp 24)%Q with (2 # 33554432)%Q in Hl, Hu.
  assert (Hxr : (inject_Z a * r * (2 # 33554432) < r)%Q).
  { assert ((inject_Z a < inject_Z (2 ^ 24))%Q) by (apply Qlt_inject_lt; lia).
    change (inject_Z (2 ^ 24)) with 16777216%Q in H.
    assert ((inject_Z a * r < 16777216 * r)%Q) by (by apply Qmult_lt_compat_r). lra. }
  assert (Hle : forall m n, m <= n -> (inject_Z m * r <= inject_Z n * r)%Q).
  { intros m n Hmn. apply Qmult_le_compat_r; [by apply Qle_inject_le|lra]. }
  pose proof (Hle _ _ (proj1 Hq)) as L1.
  apply Qceiling_unique; [lra|].
  destruct (Z.eq_dec a (q * b)) as [E|E].
  - rewrite (flt_int 24 eq_refl _ q); [lra| |nia]. rewrite E, inject_Z_mult, <- Qmult_assoc, Ebr. lra.
  - pose proof (Hle a (q * b + -1) ltac:(lia)) as L2. rewrite inject_Z_plus, inject_Z_mult in L2.
    change (inject_Z (-1)) with (-1)%Q in L2.
    rewrite Qmult_plus_distr_l, <- Qmult_assoc, Ebr in L2. lra.
Qed.

Section StepBy.
Context {I A : Type} `{DistributedIterator I A, IndexedDistributedIterator I, !IndexedSpec I A, !IndexedLaws I A}.

(** The indices are consecutive on each PE, as those of a block array. *)
Definition consecutive (it : I) : Prop := exists G, numbered G (iranges it 0 (ilen it)).

(** What is left on a PE after the last multiple of the array is at most one element, when a
    chunk may start there: either there is a multiple, on this PE or a later one, or one
    element is left. *)
Definition short_tail (it : I) (st : Z) : Prop :=
  forall s G x l, 0 <= s -> iranges it (s * st) (ilen it) = (G, x) :: l ->
    (exists m, G <= m * st /\ ireach it (m * st + 1)) \/
    omap (multiple st) ((G, x) :: l) <> [] \/ l = [].

(** What is left starts at a multiple. *)
Definition at_multiple (st : Z) (l : list (Z * A)) : Prop :=
  exists G, numbered G l /\ (l = [] \/ G mod st = 0).

#[export] Instance step_spec : IndexedSpec (StepBy I) A := {
  ritems it i := head (omap (multiple (step_size it))
                         (iranges (step_iter it) (i * step_size it) ((i + 1) * step_size it)));
  icontent it := omap (multiple (step_size it)) (icontent (step_iter it));
  ilen it := (ilen (step_iter it) + step_size it - 1) / step_size it;
  inum it := inum (step_iter it);
  ireach it B := ireach (step_iter it) ((B - 1) * step_size it + 1);
  iok it := iok (step_iter it) /\ 1 <= step_size it < 2 ^ 24 /\ ilen (step_iter it) < 2 ^ 24 /\
            consecutive (step_iter it) /\ short_tail (step_iter it) (step_size it) /\
            at_multiple (step_size it) (icontent (step_iter it));
}.

Lemma multiple_inv st g (x : A) q y : 0 < st -> multiple st (g, x) = Some (q, y) -> g = q * st /\ x = y.
Proof.
  intros Hst. unfold multiple. cbn [fst snd]. destruct (Z.eqb_spec (g mod st) 0) as [E|]; [|done].
  intros [= <- <-]. split; [|done]. pose proof (Z.div_mod g st ltac:(lia)). lia.
Qed.

(** The element of a position is one of the [step_size] positions it stands for. *)
Lemma step_item_inv it i g x : 0 < step_size it -> ritems it i = Some (g, x) ->
  exists p, i * step_size it <= p < (i + 1) * step_size it /\ ritems (step_iter it) p = Some (g * step_size it, x).
Proof.
  intros Hst E. cbn in E. apply head_Some_elem_of in E. apply list_elem_of_omap in E as ([h y] & Hin & E).
  apply multiple_inv in E as [-> ->]; [|done]. apply list_elem_of_omap in Hin as (p & Hp & E).
  apply elem_of_seqZ in Hp. exists p. split; [|done]. lia.
Qed.

Lemma numbered_from it s : consecutive it -> 0 <= s -> exists G, numbered G (iranges it s (ilen it)).
Proof.
  intros [G HG] Hs. rewrite (iranges_split it 0 s Hs), Z.add_0_l in HG.
  exists (G + Z.of_nat (length (iranges it 0 s))). intros k g x E.
  specialize (HG (length (iranges it 0 s) + k)%nat g x). rewrite lookup_app_r in HG by lia.
  replace (length (iranges it 0 s) + k - length (iranges it 0 s))%nat with k in HG by lia. apply HG in E. lia.
Qed.

Lemma numbered_range it s c : consecutive it -> 0 <= s -> 0 <= c -> exists G, numbered G (iranges it s (s + c)).
Proof.
  intros HC Hs Hc. destruct (numbered_from it s HC Hs) as [G HG]. exists G.
  rewrite (iranges_split it s c Hc) in HG. by eapply numbered_prefix.
Qed.

(** A position for each block of [step_size] positions. *)
Lemma step_items it s n : iok it -> 0 <= s -> 0 <= n ->
  omap (ritems it) (seqZ s n)
    = omap (multiple (step_size it)) (iranges (step_iter it) (s * step_size it) ((s + n) * step_size it)).
Proof.
  intros (Hok & Hst & _ & HC & _) Hs Hn. set (st := step_size it) in *. revert s Hs.
  pattern n. apply natlike_ind; [|clear n Hn; intros n Hn IH|done]; intros s Hs.
  - rewrite seqZ_nil by lia. by rewrite iranges_nil by lia.
  - rewrite seqZ_cons, Z.pred_succ by lia.
    rewrite (iranges_app _ (s * st) ((s + 1) * st)), omap_app by nia.
    replace (s + Z.succ n) with (Z.succ s + n) by lia. replace (s + 1) with (Z.succ s) at 2 by lia.
    rewrite <- IH by lia.
    destruct (numbered_range (step_iter it) (s * st) st HC ltac:(nia) ltac:(lia)) as [G HG].
    replace (s * st + st) with ((s + 1) * st) in HG by lia.
    rewrite (multiple_one st G) by (done || (etrans; [apply iranges_length|]; lia) || lia). cbn.
    by destruct (head _).
Qed.

Lemma step_end it : iok it -> ilen (step_iter it) <= ilen it * step_size it.
Proof.
  intros (Hok & Hst & _). cbn. set (n := ilen (step_iter it)). set (st := step_size it) in *.
  pose proof (Z.div_mod (n + st - 1) st ltac:(lia)). pose proof (Z.mod_pos_bound (n + st - 1) st ltac:(lia)). lia.
Qed.

Lemma step_ranges it s e : iok it -> 0 <= s ->
  iranges it s e = omap (multiple (step_size it)) (iranges (step_iter it) (s * step_size it) (e * step_size it)).
Proof.
  intros Hok0 Hs. pose proof Hok0 as (Hok & Hst & _). pose proof (step_end it Hok0) as HL.
  pose proof (ilaw_len (step_iter it) Hok). assert (HL0 : 0 <= ilen it) by nia.
  destruct (Z.le_gt_cases e s) as [He|He]; [rewrite !iranges_nil by nia; done|].
  unfold iranges at 1. set (L := ilen it) in *. rewrite step_items by (done || lia).
  rewrite <- (iranges_clamp _ (s * step_size it) _ (L * step_size it)) by done.
  replace (Z.min s L + (Z.min e L - Z.min s L)) with (Z.min e L) by lia.
  by rewrite <- !Z.mul_min_distr_nonneg_r by lia.
Qed.

Lemma step_rest it s : iok it -> 0 <= s ->
  iranges it s (ilen it) = omap (multiple (step_size it)) (iranges (step_iter it) (s * step_size it) (ilen (step_iter it))).
Proof.
  intros Hok Hs. rewrite step_ranges by done. f_equal. unfold iranges. pose proof (step_end it Hok). do 2 f_equal. lia.
Qed.

(** The loop stops at the first position whose index is a multiple, or without an index. *)
Lemma step_loop_spec (it : I) st s :
  (forall i, Z.of_nat (it_bound it) <= i -> it_index it i = None) -> 0 <= s ->
  forall fuel j g0, it_index it (s + Z.of_nat j) = Some g0 -> Z.of_nat (it_bound it) < s + Z.of_nat j + Z.of_nat fuel ->
  exists j', snd (step_loop fuel it st s (Z.of_nat j) g0) = Z.of_nat j' /\
    (forall k, (j <= k < j')%nat -> exists g, it_index it (s + Z.of_nat k) = Some g /\ g mod st <> 0) /\
    if fst (step_loop fuel it st s (Z.of_nat j) g0)
    then exists g, it_index it (s + Z.of_nat j') = Some g /\ g mod st = 0
    else it_index it (s + Z.of_nat j') = None.
Proof.
  intros Hb Hs. induction fuel as [|fuel IH]; intros j g0 E Hf.
  { rewrite Hb in E by lia. done. }
  cbn [step_loop]. destruct (Z.eqb_spec (g0 mod st) 0) as [Hm|Hm]; cbn [negb].
  - exists j. cbn. split_and!; [done|intros; lia|]. by exists g0.
  - replace (s + (Z.of_nat j + 1)) with (s + Z.of_nat (S j)) by lia.
    replace (Z.of_nat j + 1) with (Z.of_nat (S j)) by lia.
    destruct (it_index it (s + Z.of_nat (S j))) as [i|] eqn:Ei.
    + destruct (IH (S j) i Ei ltac:(lia)) as (j' & Ej & Hk & Hend). exists j'.
      split_and!; [done| |done]. intros k Hkj.
      destruct (Nat.eq_dec k j) as [->|]; [by exists g0|]. apply Hk. lia.
    + exists (S j). cbn [fst snd]. split_and!; [done| |done].
      intros k Hkj. replace k with j by lia. by exists g0.
Qed.

(** Where the elements are numbered, the loop has passed no multiple. *)
Lemma passed_no_multiple (it : I) st s (R : list (Z * A)) G j :
  aligned it s R -> numbered G R ->
  (forall k, (0 <= k < j)%nat -> exists g, it_index it (s + Z.of_nat k) = Some g /\ g mod st <> 0) ->
  forall k, (k < j)%nat -> (k < length R)%nat -> (G + Z.of_nat k) mod st <> 0.
Proof.
  intros Ha HG Hlt k Hk [[g x] E]%lookup_lt_is_Some_2. destruct (Hlt k ltac:(lia)) as (g' & E' & Hm).
  rewrite (Ha _ _ _ E) in E'. injection E' as <-. by rewrite <- (HG _ _ _ E).
Qed.

(** The multiple that is [j] elements further is the next one. *)
Lemma next_multiple st G j : 0 < st -> (G + Z.of_nat j) mod st = 0 ->
  (forall k, (k < j)%nat -> (G + Z.of_nat k) mod st <> 0) ->
  (G + Z.of_nat j) / st = G / st + (if 0 <? Z.of_nat j then 1 else 0).
Proof.
  intros Hst Hm Hk. destruct (Z.ltb_spec 0 (Z.of_nat j)) as [Hj|Hj].
  - assert (Hlt : Z.of_nat j < st).
    { destruct (Z.lt_ge_cases (Z.of_nat j) st); [done|]. exfalso. apply (Hk (j - Z.to_nat st)%nat); [lia|].
      rewrite <- mod_add_self by done. rewrite <- Hm. f_equal. lia. }
    pose proof (Z.div_mod (G + Z.of_nat j) st ltac:(lia)) as D. rewrite Hm in D.
    symmetry. replace ((G + Z.of_nat j) / st) with ((G + Z.of_nat j) / st - 1 + 1) by lia. f_equal.
    symmetry. apply (Z.div_unique _ _ _ (st - Z.of_nat j)); lia.
  - replace (Z.of_nat j) with 0 by lia. by rewrite !Z.add_0_r.
Qed.

(** What the operations keep of the invariant: positions and elements left. *)
Lemma step_ok_same (it : StepBy I) (iter : I) ao :
  iok it -> iok iter -> ritems iter = ritems (step_iter it) -> ilen iter = ilen (step_iter it) ->
  inum iter = inum (step_iter it) -> ireach iter = ireach (step_iter it) -> at_multiple (step_size it) (icontent iter) ->
  let it' := {| step_iter := iter; step_size := step_size it; add_one := ao |} in
  ritems it' = ritems it /\ ilen it' = ilen it /\ inum it' = inum it /\ ireach it' = ireach it /\ iok it'.
Proof.
  intros (_ & Hst & Hlen & HC & HT & _) Hok E1 E2 E3 E4 HA it'. split_and!; cbn; try done.
  - unfold iranges. by rewrite E1, E2.
  - by rewrite E2.
  - by rewrite E4.
  - split_and!; try done; try lia.
    + destruct HC as [G0 HG0]. exists G0. by rewrite E2, (iranges_same (step_iter it)).
    + intros s'. rewrite E2, E4, (iranges_same (step_iter it)) by done. apply HT.
Qed.
(** What [init] returns, advanced by [j]. *)
Lemma step_init_at it s c j ao G :
  iok it -> 0 <= s -> 0 <= c ->
  let st := step_size it in
  let R := iranges (step_iter it) (s * st) (ilen (step_iter it)) in
  let P := iranges (step_iter it) (s * st) (s * st + c * st) in
  let it' := {| step_iter := it_advance (it_init (step_iter it) (s * st) (c * st)) (Z.of_nat j);
                step_size := st; add_one := ao |} in
  numbered G R ->
  omap (multiple st) R = [] /\ drop j P = [] \/
  ao = (if 0 <? Z.of_nat j then 1 else 0) /\
    (forall k, (k < j)%nat -> (k < length R)%nat -> (G + Z.of_nat k) mod st <> 0) /\
    ((j < length R)%nat -> (G + Z.of_nat j) mod st = 0) ->
  icontent it' = iranges it s (s + c) /\ aligned it' s (iranges it s (ilen it)) /\
  ritems it' = ritems it /\ ilen it' = ilen it /\ inum it' = inum it /\ ireach it' = ireach it /\
  reaches it it' s /\ iok it'.
Proof.
  intros Hok0 Hs Hc st R P it' HG Hcase. pose proof Hok0 as (Hok & Hst & Hlen & HC & HT & _). fold st in Hst, HT.
  destruct (ilaw_init (step_iter it) (s * st) (c * st) Hok ltac:(nia) ltac:(nia)) as (E1 & Ha & E2 & E3 & E4 & E4r & Hok1).
  destruct (ilaw_advance _ (Z.of_nat j) Hok1 ltac:(lia)) as (F1 & F2 & F3 & F4 & F5 & F6 & Hok2).
  rewrite Nat2Z.id, E1 in F1. fold R in Ha. fold P in F1. rewrite E2 in F3. rewrite E3 in F4. rewrite E4 in F5. rewrite E4r in F6.
  pose proof (iranges_split (step_iter it) (s * st) (c * st) ltac:(nia)) as HR. fold R P in HR.
  assert (HGP : numbered G P) by (rewrite HR in HG; by eapply numbered_prefix).
  assert (HPR : (length P <= length R)%nat) by (rewrite HR, length_app; lia).
  assert (HP : omap (multiple st) P = omap (multiple st) (drop j P) /\ at_multiple st (drop j P)).
  { destruct Hcase as [[HE HD]|(_ & Hlt & Hm)].
    - rewrite HD. rewrite HR, omap_app in HE. apply app_nil in HE as [-> _]. split; [done|].
      exists 0. split; [by intros k g x|by left].
    - split.
      + rewrite <- (take_drop j P) at 1. rewrite omap_app, (multiple_none st G); [done|lia| |].
        * apply (numbered_prefix G _ (drop j P)). by rewrite take_drop.
        * intros k Hk. rewrite length_take in Hk. apply Hlt; lia.
      + exists (G + Z.of_nat j). split; [by apply numbered_drop|].
        destruct (Nat.lt_ge_cases j (length R)); [right; by apply Hm|left; apply drop_ge; lia]. }
  destruct HP as [HP1 HP2].
  destruct (step_ok_same it _ ao Hok0 Hok2 F3 F4 F5 F6) as (K1 & K2 & K3 & K3r & K4); [by rewrite F1|].
  assert (HL : forall k q x, iranges it s (ilen it) !! k = Some (q, x) ->
    q = G / st + ao + Z.of_nat k /\ G + Z.of_nat k * st <= q * st /\
    exists y, R !! (k * Z.to_nat st)%nat = Some (G + Z.of_nat k * st, y)).
  { intros k q x E. rewrite (step_rest it s Hok0 Hs : _ = omap (multiple st) R) in E.
    destruct Hcase as [[E' _]|(-> & Hlt & Hm)]; [by rewrite E' in E|].
    rewrite <- (take_drop j R), omap_app, (multiple_none st G (take j R)) in E; [cbn [app] in E|lia| |].
    - destruct (Nat.lt_ge_cases j (length R)) as [Hj|Hj]; [|by rewrite drop_ge in E].
      destruct (multiple_lookup st (G + Z.of_nat j) (drop j R) k q x) as [Eq [z Ez]];
        [lia|by apply Hm|by apply numbered_drop|done|].
      rewrite lookup_drop in Ez. apply lookup_lt_Some in Ez.
      pose proof (Z.div_mod (G + Z.of_nat j) st ltac:(lia)) as D. rewrite (Hm Hj) in D.
      rewrite (next_multiple st G j) in Eq; [|lia|by apply Hm|intros; apply Hlt; lia].
      rewrite (next_multiple st G j) in D; [|lia|by apply Hm|intros; apply Hlt; lia].
      destruct (lookup_lt_is_Some_2 R (k * Z.to_nat st)) as [[g y] Eg]; [lia|].
      split; [done|]. split; [nia|]. exists y. rewrite Eg. apply HG in Eg. do 2 f_equal. lia.
    - apply (numbered_prefix G _ (drop j R)). by rewrite take_drop.
    - intros k' Hk. rewrite length_take in Hk. apply Hlt; lia. }
  assert (Hi : forall k n,
    it_index (it_init (step_iter it) (s * st) (c * st)) (s * st + Z.of_nat (k * Z.to_nat st) + n * st)
      = Some (G + Z.of_nat k * st + n * st) ->
    it_index it' (s + Z.of_nat k + n) = Some (G / st + ao + Z.of_nat k + n)).
  { intros k n Ei. change (it_index it' (s + Z.of_nat k + n)) with (step_iterator_index it' (s + Z.of_nat k + n)).
    unfold step_iterator_index. cbn. rewrite F2.
    replace ((s + Z.of_nat k + n) * st) with (s * st + Z.of_nat (k * Z.to_nat st) + n * st) by lia. rewrite Ei.
    replace (G + Z.of_nat k * st + n * st) with (G + (Z.of_nat k + n) * st) by lia. rewrite Z.div_add by lia.
    f_equal. lia. }
  split_and!; try done.
  - cbn. rewrite F1, <- HP1, step_ranges by done. unfold P. do 2 f_equal. fold st. lia.
  - intros k q x (-> & _ & y & E)%HL. apply Ha in E.
    pose proof (Hi k 0) as Hi0. rewrite Z.mul_0_l, !Z.add_0_r in Hi0. by apply Hi0.
  - intros k q x n B HB (-> & Hq & y & E)%HL Hn Hlt. apply Hi. cbn in HB. fold st in HB.
    apply (ilaw_reach _ (s * st) (c * st) _ _ y (n * st) ((B - 1) * st + 1)); try done; nia.
Qed.

(** Without a multiple up to the end of the array, at most one element is left. *)
Lemma step_not_found it s c j G :
  iok it -> 0 <= s -> 0 <= c ->
  let st := step_size it in
  let iter := it_init (step_iter it) (s * st) (c * st) in
  let R := iranges (step_iter it) (s * st) (ilen (step_iter it)) in
  aligned iter (s * st) R -> numbered G R ->
  (forall k, (0 <= k < j)%nat -> exists g, it_index iter (s * st + Z.of_nat k) = Some g /\ g mod st <> 0) ->
  it_index iter (s * st + Z.of_nat j) = None ->
  R = [] \/ omap (multiple st) R = [] /\ (length R <= 1)%nat.
Proof.
  intros (Hok & Hst & Hlen & HC & HT & _) Hs Hc st iter R Ha HG Hlt Hend. fold st in Hst, HT.
  assert (HL : (length R <= j)%nat).
  { apply lookup_ge_None. destruct (R !! j) as [[g x]|] eqn:E; [|done]. apply Ha in E. congruence. }
  assert (HE : omap (multiple st) R = []).
  { apply (multiple_none st G); [lia|done|]. intros k Hk.
    apply (passed_no_multiple iter st (s * st) R G j Ha HG Hlt); lia. }
  destruct R as [|[g x] l] eqn:ER; [by left|right]. split; [done|].
  destruct (numbered_cons _ _ _ _ HG) as [-> _].
  destruct (HT s G x l Hs ER) as [(m & Hm & Hr)|[Hne| ->]]; [|done|done].
  assert (E0 : R !! 0%nat = Some (G, x)) by (by rewrite ER).
  assert (Hi : forall n, 0 <= n -> G + n <= m * st -> it_index iter (s * st + n) = Some (G + n)).
  { intros n Hn Hlt'. rewrite <- (Z.add_0_r (s * st)).
    apply (ilaw_reach (step_iter it) (s * st) (c * st) 0 G x n (m * st + 1)); try done; nia. }
  exfalso. destruct (Z.lt_ge_cases (m * st - G) (Z.of_nat j)) as [Hk|Hk].
  - destruct (Hlt (Z.to_nat (m * st - G))) as (g & E & Hg); [lia|].
    rewrite Z2Nat.id, Hi in E by lia. injection E as <-. apply Hg.
    replace (G + (m * st - G)) with (m * st) by lia. apply Z.mod_mul. lia.
  - rewrite Hi in Hend by lia. done.
Qed.

Lemma step_init_spec it s c :
  iok it -> 0 <= s -> 0 <= c ->
  icontent (step_init it s c) = iranges it s (s + c) /\
  aligned (step_init it s c) s (iranges it s (ilen it)) /\
  ritems (step_init it s c) = ritems it /\ ilen (step_init it s c) = ilen it /\
  inum (step_init it s c) = inum it /\ ireach (step_init it s c) = ireach it /\
  reaches it (step_init it s c) s /\ iok (step_init it s c).
Proof.
  intros Hok0 Hs Hc. pose proof Hok0 as (Hok & Hst & _ & HC & HT & _).
  set (st := step_size it) in *.
  destruct (ilaw_init (step_iter it) (s * st) (c * st) Hok ltac:(nia) ltac:(nia)) as (_ & Ha & _ & _ & _ & _ & Hok1).
  destruct (numbered_from (step_iter it) (s * st) HC ltac:(nia)) as [G HG].
  pose proof (iranges_split (step_iter it) (s * st) (c * st) ltac:(nia)) as HR.
  set (R := iranges (step_iter it) (s * st) (ilen (step_iter it))) in *.
  set (P := iranges (step_iter it) (s * st) (s * st + c * st)) in *.
  (** When nothing is left, [advance_index(cnt)] is enough if the tail is short. *)
  assert (HN : forall ao, R = [] \/ (omap (multiple st) R = [] /\ (length R <= 1)%nat) ->
    let it' := {| step_iter := it_advance (it_init (step_iter it) (s * st) (c * st)) c; step_size := st; add_one := ao |} in
    icontent it' = iranges it s (s + c) /\ aligned it' s (iranges it s (ilen it)) /\
    ritems it' = ritems it /\ ilen it' = ilen it /\ inum it' = inum it /\ ireach it' = ireach it /\
    reaches it it' s /\ iok it').
  { intros ao HE. pose proof (step_init_at it s c (Z.to_nat c) ao G Hok0 Hs Hc HG) as HN.
    rewrite Z2Nat.id in HN by done. apply HN. left. fold st R P. rewrite HR in HE |- *. destruct HE as [HE|[HE HL]]; [apply app_nil in HE as [-> ->]; by rewrite drop_nil|].
    split; [done|]. apply drop_ge. rewrite length_app in HL. destruct (Z.eq_dec c 0) as [->|]; [|lia].
    unfold P. by rewrite iranges_nil by lia. }
  unfold step_init. fold st. destruct (it_index (it_init (step_iter it) (s * st) (c * st)) (s * st)) as [g0|] eqn:E0.
  - destruct (step_loop_spec (it_init (step_iter it) (s * st) (c * st)) st (s * st)) with
      (fuel := S (it_bound (it_init (step_iter it) (s * st) (c * st)))) (j := 0%nat) (g0 := g0)
      as (j & Ej & Hlt & Hend); try done; try nia.
    { intros i. by apply ilaw_bound. }
    { by rewrite Z.add_0_r. }
    cbn [Z.of_nat] in Ej, Hend. destruct (step_loop _ _ _ _ _ _) as [found off]. cbn in Ej, Hend. subst off.
    pose proof (passed_no_multiple _ st (s * st) R G j Ha HG Hlt) as Hlt'.
    destruct found.
    + apply (step_init_at it s c j _ G); try done. right. split_and!; [done|done|].
      intros [[g x] E]%lookup_lt_is_Some_2. destruct Hend as (g' & E' & Hm).
      rewrite (Ha _ _ _ E) in E'. injection E' as <-. by rewrite <- (HG _ _ _ E).
    + apply HN. apply (step_not_found it s c j G); done.
  - apply HN. left. destruct R as [|[g x] R']; [done|].
    specialize (Ha 0%nat g x eq_refl). rewrite Z.add_0_r in Ha. congruence.
Qed.

Lemma at_multiple_next st g x (l : list (Z * A)) : 0 < st -> at_multiple st ((g, x) :: l) ->
  omap (multiple st) ((g, x) :: l) = (g / st, x) :: omap (multiple st) (drop (Z.to_nat (st - 1)) l) /\
  at_multiple st (drop (Z.to_nat (st - 1)) l).
Proof.
  intros Hst (G & HG & [|HGm]); [done|]. pose proof (numbered_cons _ _ _ _ HG) as [-> _].
  destruct (multiple_step st G x l Hst HGm HG) as [-> Hn]. split; [done|].
  exists (G + st). split; [done|right]. by rewrite mod_add_self.
Qed.

Lemma at_multiple_drop st (l : list (Z * A)) k : 0 < st -> at_multiple st l ->
  omap (multiple st) (drop (k * Z.to_nat st) l) = drop k (omap (multiple st) l) /\
  at_multiple st (drop (k * Z.to_nat st) l).
Proof.
  intros Hst (G & HG & [->|HGm]).
  - rewrite drop_nil. cbn. rewrite drop_nil. split; [done|]. exists G. by split; [|left].
  - split; [by apply (multiple_drop st G)|]. exists (G + Z.of_nat (k * Z.to_nat st)).
    split; [by apply numbered_drop|right]. replace (Z.of_nat (k * Z.to_nat st)) with (Z.of_nat k * st) by lia.
    by rewrite Z.mod_add by lia.
Qed.

Lemma multiple_increasing st (l : list (Z * A)) : 0 < st -> increasing l -> increasing (omap (multiple st) l).
Proof.
  intros Hst. apply increasing_omap. intros [g x] [h y] [g' x'] [h' y'] Eg Eh.
  apply multiple_inv in Eg as [-> ->], Eh as [-> ->]; try done. cbn. nia.
Qed.

Lemma step_next_spec it : iok it ->
  fst (step_next it) = snd <$> head (icontent it) /\
  icontent (snd (step_next it)) = tail (icontent it) /\
  it_index (snd (step_next it)) = it_index it /\
  ritems (snd (step_next it)) = ritems it /\ ilen (snd (step_next it)) = ilen it /\
  inum (snd (step_next it)) = inum it /\ ireach (snd (step_next it)) = ireach it /\ iok (snd (step_next it)).
Proof.
  intros Hok0. pose proof Hok0 as (Hok & Hst & _ & _ & _ & HA). 
  destruct (ilaw_next _ Hok) as (E1 & E2 & E3 & E4 & E5 & E6 & E7 & Hok').
  unfold step_next. destruct (it_next (step_iter it)) as [x iter]. cbn [fst snd] in *.
  destruct (icontent (step_iter it)) as [|[g y] l] eqn:El; cbn in E1, E2; subst x.
  - destruct (step_ok_same it iter (add_one it) Hok0 Hok' E4 E5 E6 E7) as (K1 & K2 & K3 & K3r & K4); [by rewrite E2|].
    cbn [fst snd]. split_and!; try done; cbn.
    + by rewrite El.
    + by rewrite E2, El.
    + unfold step_iterator_index. cbn. by rewrite E3.
  - destruct (at_multiple_next (step_size it) g y l ltac:(lia) HA) as [Em HA'].
    destruct (ilaw_advance iter (step_size it - 1) Hok' ltac:(lia)) as (F2 & F3 & F4 & F5 & F6 & F7 & Hok2).
    destruct (step_ok_same it (it_advance iter (step_size it - 1)) (add_one it)) as (K1 & K2 & K3 & K3r & K4);
      [done|done|congruence..|by rewrite F2, E2|].
    cbn [fst snd]. split_and!; try done.
    + cbn -[omap list_omap]. rewrite El, Em. done.
    + cbn -[omap list_omap]. rewrite El, Em, F2, E2. done.
    + cbn. unfold step_iterator_index. cbn. by rewrite F3, E3.
Qed.

#[export] Instance step_laws : IndexedLaws (StepBy I) A.
Proof.
  split.
  - intros it s c Hok Hs Hc. destruct (step_init_spec it s c Hok Hs Hc) as (? & ? & ? & ? & ? & ? & _ & ?). done.
  - exact step_next_spec.
  - intros it k Hok0 Hk. pose proof Hok0 as (Hok & Hst & _ & _ & _ & HA).
    destruct (ilaw_advance _ (k * step_size it) Hok ltac:(nia)) as (E2 & E3 & E4 & E5 & E6 & E7 & Hok').
    replace (Z.to_nat (k * step_size it)) with (Z.to_nat k * Z.to_nat (step_size it))%nat in E2 by lia.
    destruct (at_multiple_drop (step_size it) _ (Z.to_nat k) ltac:(lia) HA) as [Em HA'].
    destruct (step_ok_same it (it_advance (step_iter it) (k * step_size it)) (add_one it))
      as (K1 & K2 & K3 & K3r & K4); [done..|by rewrite E2|].
    split_and!; try done; cbn.
    + by rewrite E2.
    + unfold step_iterator_index. cbn. by rewrite E3.
  - intros it (Hok & Hst & Hlen & _). cbn. unfold step_elems. rewrite ilaw_elems by done.
    pose proof (ilaw_len (step_iter it) Hok). rewrite f32_ceil_div by lia.
    apply as_usize_id. split; [apply Z.div_pos; lia|].
    apply Z.div_lt_upper_bound; [lia|]. nia.
  - intros it (Hok & Hst & _). cbn. pose proof (ilaw_len (step_iter it) Hok). apply Z.div_pos; lia.
  - intros it (Hok & _). cbn. etrans; [apply length_omap_le|]. by apply ilaw_fuel.
  - intros it (Hok & Hst & _). cbn. apply multiple_increasing; [lia|by apply ilaw_sorted].
  - intros it i (Hok & Hst & _) Hi. cbn in *. unfold step_iterator_index. rewrite ilaw_bound; [done|done|nia].
  - intros it s c i g x n B Hok Hs Hc. destruct (step_init_spec it s c Hok Hs Hc) as (_ & _ & _ & _ & _ & _ & HR & _).
    apply HR.
  - intros it i g x (Hok & Hst & _) E. apply step_item_inv in E as (p & Hp & E); [|lia].
    apply ilaw_positions in E; [|done]. destruct E as [E1 E2]. split; [|nia].
    split; [nia|]. cbn.
    assert (i + 1 <= (ilen (step_iter it) + step_size it - 1) / step_size it); [|lia].
    apply Z.div_le_lower_bound; nia.
  - intros it i j g h x y (Hok & Hst & _) Ei Ej Hij.
    apply step_item_inv in Ei as (p & Hp & Ei); [|lia]. apply step_item_inv in Ej as (q & Hq & Ej); [|lia].
    pose proof (ilaw_increasing (step_iter it) p q _ _ _ _ Hok Ei Ej ltac:(nia)). nia.
Qed.
End StepBy.
