(* ===== verification/ScheduleRanges.v ===== *)
(** * ScheduleRanges: how the schedules cut the local elements into ranges

    Models the loops of [src/array/unsafe/iteration/consumer.rs] that compute the ranges of
    [sched_static], [sched_work_stealing], [sched_chunk] and [sched_guided] in double precision,
    and shows that the ranges are consecutive and cover the elements. *)

From stdpp Require Import base list numbers.
From Stdlib Require Import ZArith QArith Qround Lqa Lia.
From S2P Require Import Prelude F64 BlockBounds.
Local Open Scope Z_scope.

(** ** The ranges of the schedulers *)

Inductive Schedule :=
| Static
| Dynamic
| Chunk (size : Z)
| Guided
| WorkStealing.

(** [1.0f64.max(num_elems_local as f64 / num_workers as f64)] *)
Definition elems_per_thread (num_elems_local num_workers : Z) : Q :=
  let q := f64_div (f64_of_usize num_elems_local) (f64_of_usize num_workers) in
  if Qle_bool 1 q then q else 1%Q.

(** [(worker as f64 * elems_per_thread).round() as usize] *)
Definition thread_start (ept : Q) (worker : Z) : Z :=
  as_usize (f64_round (f64_mul (f64_of_usize worker) ept)).

(** [+] on [i32], the type of the counters [worker] and [i] of the loops. *)
Definition i32_add (a b : Z) : outcome Z := if a + b <? 2 ^ 31 then Done (a + b) else Panic.

(** The loop of [sched_static] and [sched_work_stealing]; [fuel]: one range per element and the
    last test. *)
Fixpoint static_ranges (fuel : nat) (ept : Q) (num_elems_local worker : Z) : outcome (list (Z * Z)) :=
  match fuel with
  | O => Panic
  | S fuel =>
      if thread_start ept worker <? num_elems_local
      then let! next := i32_add worker 1 in
           let! rs := static_ranges fuel ept num_elems_local next in
           Done ((thread_start ept worker, thread_start ept next) :: rs)
      else Done []
  end.

(** The loop of [sched_chunk]; out of fuel for a chunk size of 0, where the loop does not end. *)
Fixpoint chunk_ranges (fuel : nat) (chunk_size num_elems_local cur_i : Z) : outcome (list (Z * Z)) :=
  match fuel with
  | O => Panic
  | S fuel =>
      if cur_i <? num_elems_local
      then let! next := uadd cur_i chunk_size in
           let! rs := chunk_ranges fuel chunk_size num_elems_local next in
           Done ((cur_i, next) :: rs)
      else Done []
  end.

(** The inner loops of [sched_guided], [while cur_i < end_i]: the ranges and [cur_i]. *)
Fixpoint guided_phase (fuel : nat) (ept : Q) (start_i end_i i cur_i : Z) : outcome (list (Z * Z) * Z) :=
  match fuel with
  | O => Panic
  | S fuel =>
      if cur_i <? end_i
      then let! s := uadd start_i (thread_start ept i) in
           let! i := i32_add i 1 in
           let! e := uadd start_i (thread_start ept i) in
           let! r := guided_phase fuel ept start_i end_i i e in
           Done ((s, e) :: fst r, snd r)
      else Done ([], cur_i)
  end.

(** [1.61] as a double. *)
Definition golden : Q := fl64 (161 # 100).

(** Its outer loop: the ranges, [elems_per_thread] and [cur_i]. *)
Fixpoint guided_outer (fuel : nat) (num_workers n : Z) (num ept : Q) (cur_i : Z) : outcome (list (Z * Z) * Q * Z) :=
  match fuel with
  | O => Panic
  | S fuel =>
      if negb (Qle_bool ept 100) && (cur_i <? n)
      then let num := f64_div num golden in
           let! end_i := uadd cur_i (as_usize (f64_round num)) in
           let! r := guided_phase (S (Z.to_nat n)) ept cur_i (Z.min end_i n) 0 cur_i in
           let! r' := guided_outer fuel num_workers n num (f64_div num (f64_of_usize num_workers)) (snd r) in
           Done (fst r ++ fst (fst r'), snd (fst r'), snd r')
      else Done ([], ept, cur_i)
  end.

(** The ranges of [sched_guided]; each loop has one unit of fuel per element and one for the
    last test. *)
Definition guided_ranges (num_workers n : Z) : outcome (list (Z * Z)) :=
  let num := f64_of_usize n in
  let! r := guided_outer (S (Z.to_nat n)) num_workers n num (f64_div num (f64_of_usize num_workers)) 0 in
  let ept := snd (fst r) in
  let ept := if Qle_bool 1 ept then ept else 1%Q in
  let! r' := guided_phase (S (Z.to_nat n)) ept (snd r) n 0 (snd r) in
  Done (fst (fst r) ++ fst r').

(** ** The ranges cover the local elements *)

Fixpoint chained (a : Z) (rs : list (Z * Z)) (b : Z) : Prop :=
  match rs with
  | [] => a = b
  | (s, e) :: rs => s = a /\ s <= e /\ chained e rs b
  end.

Lemma chained_le rs : forall a b, chained a rs b -> a <= b.
Proof.
  induction rs as [|[s e] rs IH]; cbn; [lia|]. intros a b (-> & Hse & H). specialize (IH e b H). lia.
Qed.

Lemma chained_bounds rs : forall a b k s e,
  chained a rs b -> rs !! k = Some (s, e) -> a <= s <= e /\ e <= b.
Proof.
  induction rs as [|[s0 e0] rs IH]; intros a b [|k] s e; cbn; intros H Hk; simplify_eq;
    destruct H as (-> & Hse & H); pose proof (chained_le _ _ _ H); [lia|].
  specialize (IH e0 b k s e H Hk). lia.
Qed.

(** The loop of the ranges, from the properties of [thread_start]: it does not decrease, and
    reaches [n] after [K] steps. *)
Lemma static_ranges_chained ept n K :
  (forall w, 0 <= w < K -> thread_start ept w <= thread_start ept (w + 1)) ->
  thread_start ept K = n -> K < 2 ^ 31 ->
  forall fuel w, 0 <= w <= K -> K - w < Z.of_nat fuel ->
  exists rs, static_ranges fuel ept n w = Done rs /\ chained (thread_start ept w) rs n /\ Z.of_nat (length rs) <= K - w.
Proof.
  intros Hmono HK H31 fuel. induction fuel as [|fuel IH]; intros w Hw Hf; [lia|]. cbn.
  destruct (Z.ltb_spec (thread_start ept w) n) as [Hlt|Hge]; cbn.
  - assert (w <> K) by (intros ->; lia). unfold i32_add. rewrite (proj2 (Z.ltb_lt _ _)) by lia.
    destruct (IH (w + 1)) as (rs & E & Hch & Hl); [lia|lia|]. cbn. rewrite E. eexists. split; [done|].
    cbn [chained length]. split; [split; [done|split; [apply Hmono; lia|done]]|lia].
  - exists []. split; [done|]. cbn. split; [|lia]. apply Z.le_antisymm; [|done]. rewrite <- HK.
    assert (Hd : forall d, 0 <= d -> w + d <= K -> thread_start ept w <= thread_start ept (w + d)).
    { apply (natlike_ind (fun d => w + d <= K -> thread_start ept w <= thread_start ept (w + d)));
        [rewrite Z.add_0_r; lia|].
      intros d Hd0 IHd HdK. specialize (Hmono (w + d) ltac:(lia)).
      replace (w + Z.succ d) with (w + d + 1) by lia. specialize (IHd ltac:(lia)). lia. }
    specialize (Hd (K - w) ltac:(lia) ltac:(lia)). by replace (w + (K - w)) with K in Hd by lia.
Qed.

Section ThreadStart.
Context (n W : Z) (Hn : 0 <= n <= 2 ^ 50) (HW : 0 < W < 2 ^ 31).
Local Abbreviation T := (thread_start (elems_per_thread n W)).

(** The average is at least 1 only if there are at least as many elements as workers. *)
Lemma average_ge_1 : Qle_bool 1 (elem_per_pe n W) = true -> W <= n.
Proof.
  intros Hq%Qle_bool_iff. destruct (decide (W <= n)) as [|Hlt]; [done|exfalso].
  assert (Hp : (0 < inject_Z W)%Q) by (change 0%Q with (inject_Z 0); rewrite <- Zlt_Qlt; lia).
  assert (Hb : (inject_Z W <= 1125899906842624 # 1)%Q)
    by (change (1125899906842624 # 1)%Q with (inject_Z (2 ^ 50)); rewrite <- Zle_Qle; lia).
  assert (Hnw : (inject_Z n <= inject_Z W - 1)%Q).
  { change 1%Q with (inject_Z 1). unfold Qminus. rewrite <- inject_Z_opp, <- inject_Z_plus, <- Zle_Qle. lia. }
  assert (E : (f64_of_usize n / f64_of_usize W == inject_Z n / inject_Z W)%Q)
    by (rewrite !f64_of_usize_exact by lia; reflexivity).
  assert (Er : (inject_Z n / inject_Z W * inject_Z W == inject_Z n)%Q) by (field; lra).
  assert (Hn0 : (0 <= inject_Z n)%Q) by (change 0%Q with (inject_Z 0); rewrite <- Zle_Qle; lia).
  set (x := (inject_Z n / inject_Z W)%Q) in *.
  unfold elem_per_pe, f64_div in Hq. rewrite (fl64_compat _ _ E) in Hq.
  destruct (Z.eq_dec n 0) as [->|Hn0'].
  { rewrite fl64_0 in Hq; [lra|]. subst x. unfold Qdiv. change (inject_Z 0) with 0%Q. ring. }
  assert (Hx : (0 < x)%Q).
  { subst x. apply Qlt_shift_div_l; [done|]. rewrite Qmult_0_l.
    change 0%Q with (inject_Z 0). rewrite <- Zlt_Qlt. lia. }
  destruct (fl64_err x Hx) as [_ Herr]. unfold ulp_rel in *. nra.
Qed.

Lemma W_pos : (0 < inject_Z W)%Q.
Proof. change 0%Q with (inject_Z 0). rewrite <- Zlt_Qlt. lia. Qed.
Lemma W_bound : (inject_Z W <= 2147483648 # 1)%Q.
Proof. change (2147483648 # 1)%Q with (inject_Z (2 ^ 31)). rewrite <- Zle_Qle. lia. Qed.

Lemma average_ge_1_inv : W <= n -> Qle_bool 1 (elem_per_pe n W) = true.
Proof.
  intros Hle. apply Qle_bool_iff. pose proof W_pos. pose proof W_bound.
  destruct (Z.eq_dec n W) as [->|Hne].
  - unfold elem_per_pe, f64_div. rewrite (fl64_int _ 1); [done| |lia].
    rewrite !f64_of_usize_exact by lia. change (inject_Z 1) with 1%Q. field. lra.
  - destruct (elem_per_pe_P n W) as [A _]; [lia|lia|]. pose proof (N_bound n ltac:(lia)).
    assert (Hn1 : (inject_Z W + 1 <= inject_Z n)%Q).
    { change 1%Q with (inject_Z 1). rewrite <- inject_Z_plus, <- Zle_Qle. lia. }
    unfold ulp_rel in A. apply (Qmult_lt_0_le_reg_r _ _ (inject_Z W)); [done|]. lra.
Qed.

Lemma thread_start_one w : 0 <= w < 2 ^ 53 -> thread_start 1 w = w.
Proof.
  intros Hw. unfold thread_start, f64_mul.
  assert (E : (fl64 (f64_of_usize w * 1) == inject_Z w)%Q).
  { apply fl64_int; [|lia]. rewrite f64_of_usize_exact by lia. ring. }
  assert (Er : f64_round (fl64 (f64_of_usize w * 1)) = w).
  { apply Z.le_antisymm; [apply f64_round_le|apply f64_round_ge]; rewrite E; lra. }
  rewrite Er. apply as_usize_id. lia.
Qed.

Lemma thread_start_boundary w : W <= n -> 0 <= w <= W -> thread_start (elem_per_pe n W) w = boundary n W w.
Proof.
  intros Hle Hw. unfold thread_start, boundary, f64_mul.
  rewrite (fl64_compat _ (elem_per_pe n W * f64_of_usize w)%Q) by ring.
  apply as_usize_id. pose proof (boundary_bound n W ltac:(lia) ltac:(lia) w Hw) as Hb.
  unfold boundary, f64_mul in Hb. lia.
Qed.

(** The ranges of [sched_static] and [sched_work_stealing] are consecutive and cover the local
    elements, in double precision. *)
Lemma static_ranges_cover :
  exists rs, static_ranges (S (Z.to_nat n)) (elems_per_thread n W) n 0 = Done rs /\ chained 0 rs n /\
    Z.of_nat (length rs) <= n.
Proof.
  unfold elems_per_thread. change (f64_div (f64_of_usize n) (f64_of_usize W)) with (elem_per_pe n W).
  destruct (Qle_bool 1 (elem_per_pe n W)) eqn:Eq.
  - apply average_ge_1 in Eq as Hle.
    assert (E0 : thread_start (elem_per_pe n W) 0 = 0).
    { rewrite thread_start_boundary by lia. apply boundary_0. }
    destruct (static_ranges_chained (elem_per_pe n W) n W) with (fuel := S (Z.to_nat n)) (w := 0)
      as (rs & E & Hch & Hl); try lia.
    + intros w Hw. rewrite !thread_start_boundary by lia. apply boundary_mono_succ; lia.
    + rewrite thread_start_boundary by lia. apply boundary_P; lia.
    + rewrite E0 in Hch. exists rs. split_and!; done || lia.
  - assert (n < W) by (apply Z.nle_gt; intros Hle; by rewrite average_ge_1_inv in Eq).
    destruct (static_ranges_chained 1 n n) with (fuel := S (Z.to_nat n)) (w := 0) as (rs & E & Hch & Hl); try lia.
    + intros w Hw. rewrite !thread_start_one by lia. lia.
    + by rewrite thread_start_one by lia.
    + rewrite thread_start_one in Hch by lia. exists rs. split_and!; done || lia.
Qed.
End ThreadStart.

Lemma chunk_ranges_cover c n : 0 < c -> n + c < USIZE -> forall fuel cur,
  0 <= cur -> Z.max 0 (n - cur) < Z.of_nat fuel ->
  exists rs b, chunk_ranges fuel c n cur = Done rs /\ chained cur rs b /\ n <= b /\
    Z.of_nat (length rs) <= Z.max 0 (n - cur) /\
    forall k s e, rs !! k = Some (s, e) -> cur <= s < n /\ s < e.
Proof.
  intros Hc Hw fuel. induction fuel as [|fuel IH]; intros cur Hcur Hf; [lia|]. cbn.
  destruct (Z.ltb_spec cur n) as [Hlt|Hge].
  - rewrite uadd_ok by lia. destruct (IH (cur + c)) as (rs & b & -> & Hch & Hb & Hl & Hrs); [lia|lia|].
    exists ((cur, cur + c) :: rs), b. split; [done|]. cbn [chained length].
    split; [split; [done|split; [lia|done]]|]. split; [done|]. split; [lia|].
    intros [|k] s e; cbn; intros Hk; simplify_eq; [lia|]. specialize (Hrs k s e Hk). lia.
  - exists [], cur. split; [done|]. cbn. split; [done|]. split; [done|]. split; [lia|].
    intros k s e Hk. done.
Qed.

(** ** [sched_guided] *)

(** Ranges that are not empty and start below [n]. *)
Definition starts_below (n : Z) (rs : list (Z * Z)) : Prop := forall k s e, rs !! k = Some (s, e) -> s < n /\ s < e.

Lemma starts_below_nil n : starts_below n [].
Proof. by intros k s e Hk. Qed.

Lemma starts_below_cons n s e rs : s < n -> s < e -> starts_below n rs -> starts_below n ((s, e) :: rs).
Proof. intros Hs He Hrs [|k] s' e'; cbn; intros Hk; [by simplify_eq|by apply (Hrs k)]. Qed.

Lemma starts_below_app n rs rs' : starts_below n rs -> starts_below n rs' -> starts_below n (rs ++ rs').
Proof. intros H1 H2 k s e [Hk|[_ Hk]]%lookup_app_Some; [by eapply H1|by eapply H2]. Qed.

Lemma starts_below_le m n rs : m <= n -> starts_below m rs -> starts_below n rs.
Proof. intros Hm Hrs k s e Hk. specialize (Hrs k s e Hk). lia. Qed.

Lemma chained_app rs : forall a b c rs', chained a rs b -> chained b rs' c -> chained a (rs ++ rs') c.
Proof. induction rs as [|[s e] rs IH]; cbn; [by intros a b c rs' ->|]. intros a b c rs' (-> & ? & ?) ?. eauto. Qed.

Lemma chained_length n rs : forall a b, chained a rs b -> starts_below n rs -> Z.of_nat (length rs) <= b - a.
Proof.
  induction rs as [|[s e] rs IH]; cbn; [lia|]. intros a b (-> & Hse & Hch) Hb.
  specialize (IH e b Hch (fun k => Hb (S k))). destruct (Hb 0%nat a e eq_refl). lia.
Qed.

(** A phase from [start_i], if the starts of its ranges increase and reach its end. *)
Section Phase.
Context (ept : Q) (start_i end_i K : Z).
Local Abbreviation T := (thread_start ept).
Context (H0 : T 0 = 0) (Hinc : forall i, 0 <= i < K -> T i < T (i + 1)) (HK : 0 <= K < 2 ^ 31).
Context (Hend : end_i <= start_i + T K) (Hmax : start_i + T K < USIZE).

Lemma phase_mono i : 0 <= i <= K -> T i <= T K.
Proof.
  remember (Z.to_nat (K - i)) as d eqn:Ed. revert i Ed. induction d as [|d IH]; intros i Ed Hi.
  - by replace i with K by lia.
  - specialize (IH (i + 1) ltac:(lia) ltac:(lia)). specialize (Hinc i ltac:(lia)). lia.
Qed.

Lemma guided_phase_from fuel : forall i, 0 <= i <= K -> Z.max 0 (end_i - (start_i + T i)) < Z.of_nat fuel ->
  exists rs c, guided_phase fuel ept start_i end_i i (start_i + T i) = Done (rs, c) /\
    chained (start_i + T i) rs c /\ end_i <= c <= start_i + T K /\ starts_below end_i rs.
Proof.
  induction fuel as [|fuel IH]; intros i Hi Hf; [lia|]. cbn. pose proof (phase_mono i Hi).
  destruct (Z.ltb_spec (start_i + T i) end_i) as [Hlt|Hge].
  - assert (i <> K) by (intros ->; lia). pose proof (Hinc i ltac:(lia)). pose proof (phase_mono (i + 1) ltac:(lia)).
    rewrite uadd_ok by lia. unfold i32_add. rewrite (proj2 (Z.ltb_lt _ _)) by lia. cbn. rewrite uadd_ok by lia. cbn.
    destruct (IH (i + 1)) as (rs & c & -> & Hch & Hc & Hb); [lia|lia|]. do 2 eexists. split; [done|].
    split; [cbn; split_and!; done || lia|]. split; [done|]. apply starts_below_cons; done || lia.
  - exists [], (start_i + T i). split; [done|]. split; [done|]. split; [lia|]. apply starts_below_nil.
Qed.

Lemma guided_phase_spec fuel : Z.max 0 (end_i - start_i) < Z.of_nat fuel ->
  exists rs c, guided_phase fuel ept start_i end_i 0 start_i = Done (rs, c) /\
    chained start_i rs c /\ end_i <= c <= start_i + T K /\ starts_below end_i rs.
Proof.
  intros Hf. pose proof (guided_phase_from fuel 0) as Hp. rewrite H0, Z.add_0_r in Hp. apply Hp; lia.
Qed.
End Phase.

(** The starts in double precision: off by at most one. *)
Lemma thread_start_near ept i : (1 <= ept)%Q -> 0 < i < 2 ^ 53 -> (inject_Z i * ept <= 4503599627370496 # 1)%Q ->
  (inject_Z i * ept - 1 <= inject_Z (thread_start ept i) <= inject_Z i * ept + 1)%Q.
Proof.
  intros He Hi Hm. unfold thread_start, f64_mul.
  assert (Hi' : (0 < inject_Z i)%Q) by (change 0%Q with (inject_Z 0); rewrite <- Zlt_Qlt; lia).
  assert (Hpos : (0 < inject_Z i * ept)%Q) by nra.
  rewrite (fl64_compat _ (inject_Z i * ept)) by (rewrite f64_of_usize_exact by lia; reflexivity).
  destruct (fl64_err _ Hpos) as [A B]. set (x := (inject_Z i * ept)%Q) in *. set (y := fl64 x) in *.
  unfold ulp_rel in A, B. destruct (Qfloor_bounds (y + (1 # 2))) as [F1 F2]. unfold f64_round.
  set (z := Qfloor (y + (1 # 2))) in *.
  assert (Hz : 0 <= z < 2 ^ 53).
  { split.
    - apply Z.lt_succ_r, Qlt_inject_inv. unfold Z.succ. rewrite inject_Z_plus. change (inject_Z 0) with 0%Q.
      change (inject_Z 1) with 1%Q. lra.
    - apply Qlt_inject_inv. change (inject_Z (2 ^ 53)) with (9007199254740992 # 1)%Q. lra. }
  rewrite as_usize_id by lia. split; lra.
Qed.

Lemma thread_start_0 ept : thread_start ept 0 = 0.
Proof.
  unfold thread_start, f64_mul. rewrite fl64_0; [done|]. rewrite f64_of_usize_exact by lia.
  change (inject_Z 0) with 0%Q. ring.
Qed.

Lemma inject_inc a b : (inject_Z a + 1 <= inject_Z b)%Q <-> a < b.
Proof. rewrite <- inject_Z_succ, <- Zle_Qle. lia. Qed.

Lemma gap_arith t p : (1 <= t)%Q -> (t <= 16777216 # 1)%Q -> ((t + 1) * (1 - ulp_rel) <= p)%Q ->
  (t + 2 * ulp_rel * p * t <= p)%Q.
Proof.
  intros H1 H2 Hp. unfold ulp_rel in *.
  assert (A : (0 <= (p - (t + 1) * (1 - (1 # 9007199254740992))) * (1 - 2 * (1 # 9007199254740992) * t))%Q) by nra.
  assert (B : (0 <= (t - 1) * ((16777216 # 1) - t))%Q) by nra. lra.
Qed.

Section Guided.
Context (n W : Z) (Hn : 0 <= n <= 2 ^ 50) (HW : 0 < W <= 2 ^ 24).

Lemma W_range : (1 <= inject_Z W <= 16777216 # 1)%Q.
Proof.
  split; [change 1%Q with (inject_Z 1)|change (16777216 # 1)%Q with (inject_Z (2 ^ 24))]; rewrite <- Zle_Qle; lia.
Qed.

(** Every range of the first phase has an element, if that phase is the only one. *)
Lemma average_strict i : W <= n -> 0 <= i < W ->
  thread_start (elem_per_pe n W) i < thread_start (elem_per_pe n W) (i + 1).
Proof.
  intros Hle Hi. destruct (Z.eq_dec n W) as [->|Hne].
  - assert (E : (elem_per_pe W W == 1)%Q).
    { unfold elem_per_pe, f64_div. rewrite (fl64_int _ 1); [done| |lia].
      rewrite !f64_of_usize_exact by lia. change (inject_Z 1) with 1%Q. pose proof W_range. field. lra. }
    assert (Es : forall w, thread_start (elem_per_pe W W) w = thread_start 1 w).
    { intros w. unfold thread_start, f64_mul. do 2 f_equal. apply fl64_compat. by rewrite E. }
    rewrite !Es, !thread_start_one by lia. lia.
  - rewrite !thread_start_boundary by lia. pose proof W_range. destruct (elem_per_pe_P n W) as [A B]; [lia|lia|].
    pose proof (N_bound n ltac:(lia)) as Hnb. pose proof (proj2 (inject_inc W n) ltac:(lia)) as Hn1.
    assert (Hi1 : (inject_Z i + 1 <= inject_Z W)%Q) by (apply inject_inc; lia).
    assert (Hi0 : (0 <= inject_Z i)%Q) by (change 0%Q with (inject_Z 0); rewrite <- Zle_Qle; lia).
    destruct (prod_err n W ltac:(lia) ltac:(lia) (i + 1)) as [C _]; [lia|]. rewrite inject_Z_succ in C.
    assert (D : (f64_mul (elem_per_pe n W) (f64_of_usize i) <= elem_per_pe n W * inject_Z i * (1 + ulp_rel))%Q).
    { destruct (Z.eq_dec i 0) as [->|]; [|apply prod_err; lia].
      unfold f64_mul. rewrite f64_of_usize_0, (fl64_0 (_ * 0)) by ring. change (inject_Z 0) with 0%Q. lra. }
    pose proof (elem_per_pe_pos n W ltac:(lia) ltac:(lia)) as He. set (q := elem_per_pe n W) in *.
    assert (Hgap : (f64_mul q (f64_of_usize i) + 1 <= f64_mul q (f64_of_usize (i + 1)))%Q).
    { assert (Hs : (q * inject_Z i <= q * inject_Z W - q)%Q) by nra. clearbody q.
      set (p := (q * inject_Z W)%Q) in *. set (s := (q * inject_Z i)%Q) in *. set (t := inject_Z W) in *.
      assert (Hp : ((t + 1) * (1 - ulp_rel) <= p)%Q) by (unfold ulp_rel in *; lra).
      assert (H1 : (t + 2 * ulp_rel * p * t <= p)%Q) by (apply gap_arith; [lra|lra|done]).
      assert (H2 : (1 + 2 * ulp_rel * p <= q)%Q).
      { apply (Qmult_lt_0_le_reg_r _ _ t); [lra|]. fold p. lra. }
      rewrite Qmult_plus_distr_r in C. fold s in C. unfold ulp_rel in *. lra. }
    unfold boundary, f64_round. fold q. pose proof (Qfloor_bounds (f64_mul q (f64_of_usize i) + (1 # 2))) as [F _].
    pose proof (Qfloor_bounds (f64_mul q (f64_of_usize (i + 1)) + (1 # 2))) as [_ F'].
    rewrite <- inject_Z_succ in F'. apply (Z.add_lt_mono_r _ _ 1), Qlt_inject_inv.
    rewrite inject_Z_succ at 1. lra.
Qed.

(** What holds between two phases: enough is left of [num] for the elements that are left, and
    [ept] is its share per worker. *)
Record ready (num ept : Q) (cur : Z) : Prop := {
  rd_cur : 0 <= cur <= 2 ^ 52;
  rd_left : (inject_Z (n - cur) <= num)%Q;
  rd_num : (num <= 1125899906842624 # 1)%Q;
  rd_ept : (50 <= ept)%Q;
  rd_low : (num * (99 # 100) <= ept * inject_Z W)%Q;
  rd_high : (ept * inject_Z W <= num * (101 # 100))%Q;
}.

Lemma inject_le a b : (inject_Z a <= inject_Z b)%Q <-> a <= b.
Proof. rewrite <- Zle_Qle. done. Qed.

Lemma large_phase num ept cur end_i : ready num ept cur -> end_i <= n ->
  exists rs c, guided_phase (S (Z.to_nat n)) ept cur end_i 0 cur = Done (rs, c) /\
    chained cur rs c /\ end_i <= c /\ (c <= Z.max cur n + 2 ^ 51 + 2 ^ 50) /\ starts_below end_i rs.
Proof.
  intros [Hc Hl Hnm He Hlo Hhi] Hend. pose proof W_range as HWq.
  assert (Hnear : forall i, 0 < i <= 2 * W ->
    (inject_Z i * ept - 1 <= inject_Z (thread_start ept i) <= inject_Z i * ept + 1)%Q).
  { intros i Hi. apply thread_start_near; [lra|lia|].
    assert (Hi2 : (inject_Z i <= 2 * inject_Z W)%Q) by (change 2%Q with (inject_Z 2); rewrite <- inject_Z_mult; apply inject_le; lia).
    nra. }
  assert (HK : (inject_Z (2 * W) == 2 * inject_Z W)%Q) by (rewrite inject_Z_mult; reflexivity).
  destruct (Hnear (2 * W) ltac:(lia)) as [K1 K2]. rewrite HK in K1, K2.
  assert (KT : thread_start ept (2 * W) <= 2 ^ 51 + 2 ^ 50).
  { apply inject_le. change (inject_Z (2 ^ 51 + 2 ^ 50)) with (3377699720527872 # 1)%Q. nra. }
  assert (KN : n - cur <= thread_start ept (2 * W)) by (apply inject_le; nra).
  destruct (guided_phase_spec ept cur end_i (2 * W)) with (fuel := S (Z.to_nat n)) as (rs & c & E & Hch & Hb & Hrs);
    try lia; [apply thread_start_0| |].
  - intros i Hi. apply Qlt_inject_inv. destruct (Hnear (i + 1) ltac:(lia)) as [N1 _]. rewrite inject_Z_succ in N1.
    destruct (Z.eq_dec i 0) as [->|Hi0].
    + rewrite thread_start_0. change (inject_Z 0) with 0%Q in *. lra.
    + destruct (Hnear i ltac:(lia)) as [_ N2]. lra.
  - exists rs, c. split_and!; try done; lia.
Qed.

Lemma golden_bounds : (160 # 100 <= golden <= 162 # 100)%Q.
Proof. split; apply Qle_bool_iff; vm_compute; reflexivity. Qed.

(** The size of the next phase. *)
Lemma next_num num : (99 <= num)%Q -> (num <= 1125899906842624 # 1)%Q ->
  (num * (61 # 100) <= f64_div num golden <= num * (63 # 100))%Q.
Proof.
  intros H1 H2. destruct golden_bounds as [G1 G2].
  assert (Ex : (num / golden * golden == num)%Q) by (field; lra). unfold f64_div.
  assert (Hx : (num * (617 # 1000) <= num / golden /\ num / golden <= num * (625 # 1000))%Q).
  { split; apply (Qmult_lt_0_le_reg_r _ _ golden); try lra; rewrite Ex; nra. }
  destruct (fl64_err (num / golden)) as [A B]; [lra|]. unfold ulp_rel in *. lra.
Qed.

Lemma next_ept num : (60 <= num)%Q -> (num <= 1125899906842624 # 1)%Q ->
  (num * (99 # 100) <= f64_div num (f64_of_usize W) * inject_Z W <= num * (101 # 100))%Q.
Proof.
  intros H1 H2. pose proof W_range. unfold f64_div.
  rewrite (fl64_compat _ (num / inject_Z W)) by (rewrite f64_of_usize_exact by lia; reflexivity).
  assert (Ex : (num / inject_Z W * inject_Z W == num)%Q) by (field; lra).
  assert (Hx : (0 < num / inject_Z W)%Q) by (apply Qlt_shift_div_l; lra).
  destruct (fl64_err _ Hx) as [A B]. set (x := (num / inject_Z W)%Q) in *. unfold ulp_rel in *. split; nra.
Qed.

Lemma round_near x : (1 <= x)%Q -> (x <= 1125899906842624 # 1)%Q ->
  (x - (1 # 2) <= inject_Z (as_usize (f64_round x)) <= x + (1 # 2))%Q /\ 0 < as_usize (f64_round x) <= 2 ^ 51.
Proof.
  intros H1 H2. unfold f64_round. destruct (Qfloor_bounds (x + (1 # 2))) as [F1 F2].
  set (z := Qfloor _) in *. assert (Hz : 0 < z <= 2 ^ 51).
  { split.
    - apply Qlt_inject_inv. change (inject_Z 0) with 0%Q. lra.
    - apply inject_le. change (inject_Z (2 ^ 51)) with (2251799813685248 # 1)%Q. lra. }
  rewrite as_usize_id by lia. split; [split; lra|done].
Qed.

Lemma guided_outer_spec fuel : forall num ept cur, ready num ept cur -> Z.max 0 (n - cur) < Z.of_nat fuel ->
  exists rs ept' cur', guided_outer fuel W n num ept cur = Done (rs, ept', cur') /\
    chained cur rs cur' /\ starts_below n rs /\ cur' <= 2 ^ 52 /\ (n <= cur' \/ exists num', ready num' ept' cur').
Proof.
  induction fuel as [|fuel IH]; intros num ept cur Hr Hf; [lia|]. pose proof Hr as [Hc Hl Hnm He Hlo Hhi]. cbn [guided_outer].
  destruct (Qle_bool ept 100) eqn:Ee; cbn [negb andb].
  { exists [], ept, cur. split; [done|]. split; [done|]. split; [apply starts_below_nil|]. split; [lia|]. right. by exists num. }
  destruct (Z.ltb_spec cur n) as [Hlt|Hge].
  2:{ exists [], ept, cur. split; [done|]. split; [done|]. split; [apply starts_below_nil|]. split; [lia|]. by left. }
  assert (He1 : (100 < ept)%Q) by (apply Qnot_le_lt; intros H%Qle_bool_iff; congruence).
  pose proof W_range as HWq. assert (H99 : (99 <= num)%Q) by nra.
  destruct (next_num num H99 Hnm) as [M1 M2]. set (num' := f64_div num golden) in *.
  destruct (round_near num' ltac:(lra) ltac:(lra)) as [[R1 R2] R3]. set (r := as_usize (f64_round num')) in *.
  rewrite uadd_ok by lia. cbn beta iota zeta.
  destruct (large_phase num ept cur (Z.min (cur + r) n) Hr ltac:(lia)) as (rs & c & -> & Hch & Hce & Hcm & Hb).
  cbn [fst snd]. destruct (next_ept num' ltac:(lra) ltac:(lra)) as [P1 P2].
  set (ept' := f64_div num' (f64_of_usize W)) in *.
  assert (Hout : exists rs' ept2 c', guided_outer fuel W n num' ept' c = Done (rs', ept2, c') /\
    chained c rs' c' /\ starts_below n rs' /\ c' <= 2 ^ 52 /\ (n <= c' \/ exists num', ready num' ept2 c')).
  { destruct (Z.le_gt_cases n c) as [Hn2|Hn2].
    - exists [], ept', c. split; [|split; [done|split; [apply starts_below_nil|split; [lia|by left]]]].
      destruct fuel; [lia|]. cbn [guided_outer]. rewrite (proj2 (Z.ltb_ge _ _)), andb_false_r by done. done.
    - apply IH; [|lia]. split; try done; try lia; try lra.
      + assert (Hcl : (inject_Z (n - c) <= inject_Z (n - cur) - inject_Z r)%Q).
        { unfold Qminus. rewrite <- inject_Z_opp, <- inject_Z_plus. apply inject_le. lia. }
        lra.
      + apply (Qmult_lt_0_le_reg_r _ _ (inject_Z W)); [lra|]. nra. }
  destruct Hout as (rs' & ept2 & c' & -> & Hch' & Hb' & Hc' & Hfin). cbn. exists (rs ++ rs'), ept2, c'.
  split; [done|]. split; [by eapply chained_app|]. split; [|done].
  apply starts_below_app; [|done]. eapply starts_below_le; [|done]. lia.
Qed.

(** A single phase, for at most 100 elements per worker. *)
Lemma average_phase :
  exists rs c, guided_phase (S (Z.to_nat n)) (if Qle_bool 1 (elem_per_pe n W) then elem_per_pe n W else 1%Q) 0 n 0 0
    = Done (rs, c) /\ chained 0 rs c /\ n <= c <= n /\ starts_below n rs.
Proof.
  destruct (Qle_bool 1 (elem_per_pe n W)) eqn:Eq.
  - apply (average_ge_1 n W ltac:(lia) ltac:(lia)) in Eq as Hle.
    assert (EW : thread_start (elem_per_pe n W) W = n).
    { rewrite thread_start_boundary by lia. apply boundary_P; lia. }
    destruct (guided_phase_spec (elem_per_pe n W) 0 n W) with (fuel := S (Z.to_nat n)) as (rs & c & E & Hch & Hc & Hb);
      rewrite ?EW in *; try lia; [apply thread_start_0|intros i Hi; by apply average_strict|by exists rs, c].
  - assert (n < W).
    { apply Z.nle_gt. intros Hle. by rewrite (average_ge_1_inv n W ltac:(lia) ltac:(lia) Hle) in Eq. }
    destruct (guided_phase_spec 1 0 n n) with (fuel := S (Z.to_nat n)) as (rs & c & E & Hch & Hc & Hb);
      rewrite ?thread_start_one in * by lia; try lia; [|by exists rs, c].
    intros i Hi. rewrite !thread_start_one by lia. lia.
Qed.

Lemma first_ready : Qle_bool (elem_per_pe n W) 100 = false -> ready (f64_of_usize n) (elem_per_pe n W) 0.
Proof.
  intros He. assert (He1 : (100 < elem_per_pe n W)%Q) by (apply Qnot_le_lt; intros H%Qle_bool_iff; congruence).
  assert (Hle : W <= n) by (apply (average_ge_1 n W ltac:(lia) ltac:(lia)), Qle_bool_iff; lra).
  destruct (elem_per_pe_P n W) as [A B]; [lia|lia|]. pose proof (N_bound n ltac:(lia)) as Hnb.
  pose proof W_range as HWq. assert (Hn0 : (0 <= inject_Z n)%Q) by (change 0%Q with (inject_Z 0); apply inject_le; lia).
  split; rewrite ?f64_of_usize_exact by lia; try lia; try lra.
  - rewrite Z.sub_0_r. lra.
  - unfold ulp_rel in *. lra.
  - unfold ulp_rel in *. lra.
Qed.

(** The ranges of [sched_guided] are consecutive, none is empty, and they cover the elements. *)
Lemma guided_ranges_cover :
  exists rs b, guided_ranges W n = Done rs /\ chained 0 rs b /\ n <= b <= 2 ^ 52 /\ starts_below n rs.
Proof.
  unfold guided_ranges. change (f64_div (f64_of_usize n) (f64_of_usize W)) with (elem_per_pe n W).
  destruct (Qle_bool (elem_per_pe n W) 100) eqn:Ee.
  - cbn [guided_outer]. rewrite Ee. cbn [negb andb fst snd].
    destruct average_phase as (rs & c & -> & Hch & Hc & Hb). exists rs, c. split_and!; done || lia.
  - destruct (guided_outer_spec (S (Z.to_nat n)) _ _ 0 (first_ready Ee) ltac:(lia))
      as (rs & ept & c & -> & Hch & Hb & Hc & Hfin). cbn [fst snd].
    destruct (Z.le_gt_cases n c) as [Hn2|Hn2].
    + cbn [guided_phase]. rewrite (proj2 (Z.ltb_ge _ _)) by done. cbn. rewrite app_nil_r. exists rs, c. split_and!; done || lia.
    + destruct Hfin as [|[num Hr]]; [lia|]. pose proof Hr as [_ _ _ He _ _].
      assert (E1 : Qle_bool 1 ept = true) by (apply Qle_bool_iff; lra). rewrite E1.
      destruct (large_phase num ept c n Hr (Z.le_refl n)) as (rs' & b & -> & Hch' & Hb1 & Hb2 & Hb').
      exists (rs ++ rs'), b. split; [done|]. split; [by eapply chained_app|]. split; [lia|by apply starts_below_app].
Qed.
End Guided.

(** One phase and a bit: the last range goes beyond the elements. *)
Example guided_ranges_example :
  guided_ranges 2 600 = Done [(0, 300); (300, 600)] /\
  guided_ranges 4 1000 = Done [(0, 250); (250, 500); (500, 750); (750, 905); (905, 1061)] /\
  guided_ranges 8 5 = Done [(0, 1); (1, 2); (2, 3); (3, 4); (4, 5)].
Proof. vm_compute. auto. Qed.
