(* ===== verification/Schedule.v ===== *)
(** * Schedule: iterating the local elements on several threads

    Models the schedules of [src/array/iterator/consumer.rs] ([IterSchedule],
    [IterScheduleIter], [IterWorkStealer]), the requests of
    [src/array/unsafe/iteration/consumer.rs] and the [for_each] tasks of
    [src/array/iterator/distributed_iterator/consumer/for_each.rs].  Each request is a worker;
    every operation on the shared counter or on a locked range is one atomic step. *)

From stdpp Require Import base list numbers relations.
From Stdlib Require Import ZArith QArith Qround Lqa Lia.
From S2P Require Import Prelude F64 BlockBounds Iterators ScheduleRanges.
Local Open Scope Z_scope.

(** ** Workers *)

(** [IterWorkStealer]: a range [(start, end)] behind a mutex. *)
Definition ws_next (r : Z * Z) : option Z * (Z * Z) :=
  let index := fst r in
  let r' := (wadd (fst r) 1, snd r) in
  if fst r' <=? snd r' then (Some index, r') else (None, r').

Definition ws_steal (r : Z * Z) : option (Z * Z) * (Z * Z) :=
  let '(start, end_) := r in
  if (start <? end_) && (2 <? end_ - start)
  then let new_end := (start + end_) / 2 in (Some (new_end, end_), (start, new_end))
  else (None, r).

(** [IterSchedule]; the counter and the ranges its variants share are in [Shared]. *)
Inductive IterSchedule :=
| IStatic (start end_ : Z)
| IDynamic (max_i : Z)
| IChunk (ranges : list (Z * Z))
| IWorkStealing (own : nat).

Record Shared := { counter : Z; stealers : list (Z * Z) }.

(** Where [next] of a work-stealing worker is: in [inner_next] the first time, choosing a
    victim, about to [set_range] what it stole, in [inner_next] the second time. *)
Inductive Phase :=
| First
| Stealing
| Setting (start end_ : Z)
| Second.

Section Workers.
Context {I Item : Type} `{DistributedIterator I Item}.

(** A [ForEachAm]: not started, iterating ([IterScheduleIter]), or finished. *)
Inductive Worker :=
| Start (sched : IterSchedule) (it : I)
| WStatic (it : I)
| WDynamic (it : I) (max_i : Z)
| WChunk (it : I) (ranges : list (Z * Z))
| WStealer (it : I) (own : nat) (ph : Phase)
| Idle.

(** [IterSchedule::init_iter] *)
Definition init_iter (sh : Shared) (sched : IterSchedule) (it : I) : Worker :=
  match sched with
  | IStatic start end_ => WStatic (it_init it start (end_ - start))
  | IDynamic max_i => WDynamic it max_i
  | IChunk ranges => WChunk (it_init it 0 0) ranges
  | IWorkStealing own =>
      let '(start, end_) := default (0, 0) (stealers sh !! own) in
      WStealer (it_init it start (end_ - start)) own First
  end.

(** An atomic step of [IterScheduleIter::next]: the new state, and the element it returns. *)
Definition next_static (sh : Shared) (it : I) : Shared * Worker * option Item :=
  match it_next it with
  | (Some x, it') => (sh, WStatic it', Some x)
  | (None, _) => (sh, Idle, None)
  end.

Definition next_dynamic (sh : Shared) (it : I) (max_i : Z) : Shared * Worker * option Item :=
  let ci := counter sh in
  let sh' := {| counter := wadd ci 1; stealers := stealers sh |} in
  if ci <? max_i
  then let '(x, it') := it_next (it_init it ci 1) in (sh', WDynamic it' max_i, x)
  else (sh', Idle, None).

Definition next_chunk (sh : Shared) (it : I) (ranges : list (Z * Z)) :
    Shared * Worker * option Item :=
  match it_next it with
  | (Some x, it') => (sh, WChunk it' ranges, Some x)
  | (None, it') =>
      let ri := counter sh in
      let sh' := {| counter := wadd ri 1; stealers := stealers sh |} in
      match (if ri <? Z.of_nat (length ranges) then ranges !! Z.to_nat ri else None) with
      | Some (s, e) => match it_next (it_init it' s (e - s)) with
                       | (Some x, it2) => (sh', WChunk it2 ranges, Some x)
                       | (None, _) => (sh', Idle, None)
                       end
      | None => (sh', Idle, None)
      end
  end.

Definition set_stealer (sh : Shared) (own : nat) (r : Z * Z) : Shared :=
  {| counter := counter sh; stealers := <[own := r]> (stealers sh) |}.

(** [victim]: the sibling the random shuffle puts last. *)
Definition next_stealing (victim : nat) (sh : Shared) (it : I) (own : nat) (ph : Phase) :
    Shared * Worker * option Item :=
  match ph with
  | First | Second =>
      match stealers sh !! own with
      | None => (sh, Idle, None)
      | Some r =>
          let '(ri, r') := ws_next r in
          let sh' := set_stealer sh own r' in
          match ri with
          | Some ri => match it_next (it_init it ri 1) with
                       | (Some x, it') => (sh', WStealer it' own First, Some x)
                       | (None, it') => (sh', WStealer it' own ph, None)
                       end
          | None => match ph with
                    | First => (sh', WStealer it own Stealing, None)
                    | _ => (sh', Idle, None)
                    end
          end
      end
  | Stealing =>
      match stealers sh !! victim with
      | None => (sh, Idle, None)
      | Some r => match ws_steal r with
                  | (Some (s, e), r') =>
                      (set_stealer sh victim r', WStealer (it_init it s (e - s)) own (Setting s e), None)
                  | (None, _) => (sh, Idle, None)
                  end
      end
  | Setting s e => (set_stealer sh own (s, e), WStealer it own Second, None)
  end.

Definition worker_step (victim : nat) (sh : Shared) (w : Worker) : Shared * Worker * option Item :=
  match w with
  | Start sched it => (sh, init_iter sh sched it, None)
  | WStatic it => next_static sh it
  | WDynamic it max_i => next_dynamic sh it max_i
  | WChunk it ranges => next_chunk sh it ranges
  | WStealer it own ph => next_stealing victim sh it own ph
  | Idle => (sh, Idle, None)
  end.

(** [for_each_with_schedule]: the requests of each scheduler. *)
Definition sched_static (num_workers n : Z) (it : I) : outcome (list Worker) :=
  let! ranges := static_ranges (S (Z.to_nat n)) (elems_per_thread n num_workers) n 0 in
  Done ((fun r => Start (IStatic (fst r) (snd r)) it) <$> ranges).

Definition sched_dynamic (num_workers n : Z) (it : I) : list Worker :=
  replicate (Z.to_nat (Z.min num_workers n)) (Start (IDynamic n) it).

Definition sched_chunk (num_workers n chunk_size : Z) (it : I) : outcome (list Worker) :=
  let! ranges := chunk_ranges (S (Z.to_nat n)) chunk_size n 0 in
  Done (replicate (Z.to_nat (Z.min num_workers (Z.of_nat (length ranges)))) (Start (IChunk ranges) it)).

Definition sched_guided (num_workers n : Z) (it : I) : outcome (list Worker) :=
  let! ranges := guided_ranges num_workers n in
  Done (replicate (Z.to_nat (Z.min num_workers n)) (Start (IChunk ranges) it)).

Definition sched_work_stealing (num_workers n : Z) (it : I) : outcome (list (Z * Z) * list Worker) :=
  let! siblings := static_ranges (S (Z.to_nat n)) (elems_per_thread n num_workers) n 0 in
  Done (siblings, (fun i => Start (IWorkStealing i) it) <$> seq 0 (length siblings)).

(** [output]: the elements [op] was applied to, in the order of time; [results]: those each
    worker got, in the order of the workers. *)
Record St := { shared : Shared; workers : list Worker; output : list Item; results : list (list Item) }.

Definition launch (sched : Schedule) (num_workers num_elems_local : Z) (it : I) : outcome St :=
  let n := it_elems it num_elems_local in
  let st stealers ws := {| shared := {| counter := 0; stealers := stealers |}; workers := ws;
                        output := []; results := replicate (length ws) [] |} in
  match sched with
  | Static => let! ws := sched_static num_workers n it in Done (st [] ws)
  | Dynamic => Done (st [] (sched_dynamic num_workers n it))
  | Chunk size => let! ws := sched_chunk num_workers n size it in Done (st [] ws)
  | Guided => let! ws := sched_guided num_workers n it in Done (st [] ws)
  | WorkStealing => let! r := sched_work_stealing num_workers n it in Done (st (fst r) (snd r))
  end.

(** One atomic step of one worker. *)
Definition step_at (s : St) (i victim : nat) (w : Worker) : St :=
  let '(sh, w', x) := worker_step victim (shared s) w in
  {| shared := sh; workers := <[i := w']> (workers s); output := output s ++ option_list x;
     results := alter (fun r => r ++ option_list x) i (results s) |}.

Inductive wstep : St -> St -> Prop :=
| wstep_at s i victim w :
    workers s !! i = Some w -> w <> Idle -> (victim < length (workers s))%nat ->
    wstep s (step_at s i victim w).
End Workers.
Arguments Worker : clear implicits.
Arguments St : clear implicits.

(** ** What every schedule has to satisfy

    A [Mode] describes a running schedule: what the shared state and each worker still have to
    yield, the invariant, and a measure; its laws speak of one step of one worker. *)
Section Modes.
Context {I Item : Type} {DI : DistributedIterator I Item} {SI : IterSpec I Item} {WL : WithinLaws I Item}.
Context (it0 : I).
Local Abbreviation n := (local_len it0).

(** The iterators of the workers are all over the elements of [it0]. *)
Definition src (it : I) : Prop := items it = items it0 /\ local_len it = n /\ it_ok it.

Record Mode (nw : nat) := {
  m_limit : Z;
  m_pending_sh : Shared -> list Item;
  m_pending : Worker I -> list Item;
  m_ok_sh : Shared -> Prop;
  m_ok : Shared -> nat -> Worker I -> Prop;
  m_nu_sh : Shared -> Z;
  m_nu : Worker I -> Z;
  m_step sh i w victim sh' w' x :
    (i < nw)%nat -> (victim < nw)%nat -> w <> Idle -> m_ok_sh sh -> m_ok sh i w ->
    0 <= counter sh -> counter sh + 1 < USIZE -> worker_step victim sh w = (sh', w', x) ->
    m_ok_sh sh' /\ m_ok sh' i w' /\ (forall j u, j <> i -> m_ok sh j u -> m_ok sh' j u) /\
    option_list x ++ m_pending_sh sh' ++ m_pending w' ≡ₚ m_pending_sh sh ++ m_pending w /\
    0 <= counter sh' /\
    (counter sh' <= Z.max (counter sh) m_limit \/ w' = Idle /\ counter sh' <= counter sh + 1) /\
    m_nu_sh sh' + m_nu w' < m_nu_sh sh + m_nu w;
  m_nu_nonneg sh i w : m_ok_sh sh -> m_ok sh i w -> 0 <= m_nu_sh sh /\ 0 <= m_nu w;
}.
Arguments m_limit {nw}. Arguments m_pending_sh {nw}. Arguments m_pending {nw}. Arguments m_ok_sh {nw}.
Arguments m_ok {nw}. Arguments m_nu_sh {nw}. Arguments m_nu {nw}.

(** When every worker has finished, nothing is left: true of every schedule, but of [Chunk] and
    [Guided] only when each of their ranges yields something. *)
Definition exhausts {nw} (m : Mode nw) : Prop :=
  forall sh, m_ok_sh m sh -> (forall i, (i < nw)%nat -> m_ok m sh i Idle) ->
    m_pending_sh m sh = [] /\ m_pending m Idle = [].

Definition joined {A} (f : A -> list Item) (l : list A) : list Item := mjoin (f <$> l).

Lemma joined_insert {A} (f : A -> list Item) l i w w' :
  l !! i = Some w ->
  exists rest, joined f l ≡ₚ f w ++ rest /\ joined f (<[i := w']> l) ≡ₚ f w' ++ rest.
Proof.
  intros Hi. exists (joined f (take i l) ++ joined f (drop (S i) l)). unfold joined. split.
  - rewrite <- (take_drop_middle l i w Hi) at 1. rewrite fmap_app, join_app. cbn.
    rewrite !app_assoc. f_equiv. apply Permutation_app_comm.
  - rewrite insert_take_drop by (by eapply lookup_lt_Some). rewrite fmap_app, join_app. cbn.
    rewrite !app_assoc. f_equiv. apply Permutation_app_comm.
Qed.

Definition idle (w : Worker I) : Z := match w with Idle => 1 | _ => 0 end.

Lemma idle_bounds ws : 0 <= zsum idle ws <= Z.of_nat (length ws).
Proof. induction ws as [|w ws IH]; cbn; [done|]. destruct w; cbn; lia. Qed.

Section Run.
Context {nw : nat} (m : Mode nw) (target : list Item).

Record running (s : St I Item) : Prop := {
  run_length : length (workers s) = nw;
  run_sh : m_ok_sh m (shared s);
  run_ok : forall i w, workers s !! i = Some w -> m_ok m (shared s) i w;
  run_counter : 0 <= counter (shared s) <= m_limit m + zsum idle (workers s);
  run_output : output s ++ m_pending_sh m (shared s) ++ joined (m_pending m) (workers s) ≡ₚ target;
}.
Context (Hw : m_limit m + Z.of_nat nw < USIZE).

Definition measure (s : St I Item) : Z := m_nu_sh m (shared s) + zsum (m_nu m) (workers s).

Lemma running_step s s' : running s -> wstep s s' -> running s' /\ measure s' < measure s.
Proof.
  intros [R1 R2 R3 R4 R5] Hstep. destruct Hstep as [s i victim w Hi Hne Hv].
  assert (Hlt : (i < nw)%nat) by (rewrite <- R1; by eapply lookup_lt_Some).
  assert (Hidle : zsum idle (workers s) + 1 <= Z.of_nat nw).
  { pose proof (idle_bounds (<[i := Idle]> (workers s))) as Hb. rewrite length_insert in Hb.
    rewrite (zsum_insert _ _ _ w) in Hb by done. destruct w; cbn in Hb; done || lia. }
  unfold step_at. destruct (worker_step victim (shared s) w) as [[sh' w'] x] eqn:E.
  destruct (m_step _ m _ i w victim sh' w' x Hlt ltac:(lia) Hne R2 (R3 i w Hi) ltac:(lia) ltac:(lia) E)
    as (S1 & S2 & S3 & S4 & S5 & S6 & S7).
  assert (Hlen : (i < length (workers s))%nat) by lia. split.
  - split; cbn; try done.
    + by rewrite length_insert.
    + intros j u [(<- & <- & _)|[Hj Hu]]%list_lookup_insert_Some; [done|]. apply S3; [done|]. by apply R3.
    + rewrite (zsum_insert _ _ _ w) by done.
      assert (idle w = 0) as -> by (by destruct w).
      destruct S6 as [?|[-> ?]]; [|cbn; lia]. assert (0 <= idle w') by (by destruct w').
      pose proof (idle_bounds (workers s)). lia.
    + destruct (joined_insert (m_pending m) _ _ _ w' Hi) as (rest & J1 & J2).
      rewrite J2. rewrite J1 in R5. rewrite <- R5, <- !app_assoc. f_equiv.
      pose proof (Permutation_app_tail rest S4) as S4'. by rewrite <- !app_assoc in S4'.
  - unfold measure. cbn. rewrite (zsum_insert _ _ _ w) by done. lia.
Qed.

Lemma running_measure s : running s -> (0 < nw)%nat -> 0 <= measure s.
Proof.
  intros [R1 R2 R3 R4 R5] Hnw.
  destruct (lookup_lt_is_Some_2 (workers s) 0) as [w Hw0]; [lia|].
  pose proof (m_nu_nonneg _ m (shared s) 0%nat w R2 (R3 _ _ Hw0)) as [? _].
  assert (0 <= zsum (m_nu m) (workers s)).
  { apply zsum_lookup_nonneg. intros i u Hu. apply (m_nu_nonneg _ m (shared s) i u R2 (R3 _ _ Hu)). }
  unfold measure. lia.
Qed.

(** Every execution is finite... *)
Lemma running_sn s : running s -> sn wstep s.
Proof.
  intros Hs. destruct (decide (0 < nw)%nat) as [Hnw|Hnw].
  2:{ constructor. intros s' Hstep. exfalso. unfold flip in Hstep. destruct Hstep as [s i victim w Hi _ _].
    apply lookup_lt_Some in Hi. pose proof (run_length s Hs). lia. }
  apply (sn_measure wstep running measure); [|exact running_step|done].
  intros s0 Hs0. by apply running_measure.
Qed.

(** ...and when it ends, everything has been yielded. *)
Lemma running_done s : exhausts m -> running s -> nf wstep s -> output s ≡ₚ target.
Proof.
  intros Hm Hs Hnf. assert (Hidle : forall i w, workers s !! i = Some w -> w = Idle).
  { intros i w Hi. assert (Decision (w = Idle)) as [|Hne] by (destruct w; (by left) || by right); [done|].
    destruct Hnf. eexists. eapply (wstep_at s i i w Hi Hne). by eapply lookup_lt_Some. }
  destruct Hs as [R1 R2 R3 R4 R5].
  destruct (Hm (shared s) R2) as [D1 D2].
  { intros i Hi. destruct (lookup_lt_is_Some_2 (workers s) i) as [w Hw0]; [lia|].
    pose proof (R3 i w Hw0). by rewrite (Hidle i w Hw0) in *. }
  rewrite D1 in R5. cbn in R5.
  assert (E : joined (m_pending m) (workers s) = []).
  { clear -Hidle D2. unfold joined. induction (workers s) as [|w ws IH]; cbn; [done|].
    rewrite (Hidle 0%nat w eq_refl), D2. apply IH. intros i u Hu. by apply (Hidle (S i)). }
  rewrite E, app_nil_r in R5. done.
Qed.

Lemma running_all s s' : running s -> rtc wstep s s' -> running s'.
Proof. intros Hs Hrun. induction Hrun as [|s1 s2 s3 H12 _ IH]; [done|]. apply IH. by eapply running_step. Qed.

(** No element is yielded twice, and only elements are. *)
Lemma running_once s s' : running s -> rtc wstep s s' -> output s' ⊆+ target.
Proof.
  intros Hs Hrun. destruct (running_all s s' Hs Hrun) as [_ _ _ _ R5]. rewrite <- R5.
  by apply submseteq_inserts_r.
Qed.

(** No element is yielded twice, and if nothing is left at the end, each is yielded once. *)
Definition visits (complete : Prop) (s0 : St I Item) : Prop :=
  sn wstep s0 /\ forall s', rtc wstep s0 s' ->
    output s' ⊆+ target /\ (nf wstep s' -> complete -> output s' ≡ₚ target).

Lemma running_correct (complete : Prop) s :
  (complete -> exhausts m) -> running s -> visits complete s.
Proof.
  intros Hm Hs. split; [by apply running_sn|]. intros s' Hrun. split; [by eapply running_once|].
  intros Hnf Hc. apply running_done; [by apply Hm| |done]. by eapply running_all.
Qed.
End Run.

Lemma src_init it s c :
  src it -> 0 <= s -> 0 <= c -> s + c <= n ->
  src (it_init it s c) /\ content (it_init it s c) = range_items it0 s (s + c).
Proof.
  intros (E1 & E2 & Hok) Hs Hc Hn. destruct (wlaw_init it s c Hok Hs Hc ltac:(lia)) as (L1 & L2 & L3 & L4). split.
  - split_and!; congruence || done.
  - rewrite L1. by apply range_items_same.
Qed.

Lemma src_next it x it' :
  src it -> it_next it = (x, it') ->
  src it' /\ x = head (content it) /\ content it' = tail (content it).
Proof.
  intros (E1 & E2 & Hok) E. destruct (wlaw_next it Hok) as (L1 & L2 & L3 & L4 & L5). rewrite E in *. cbn in *.
  split; [split_and!; congruence || done|done].
Qed.

(** The next element and the rest are what was left. *)
Lemma content_split it x it' :
  src it -> it_next it = (x, it') -> content it = option_list x ++ content it'.
Proof.
  intros Hsrc E. destruct (src_next it x it' Hsrc E) as (_ & -> & ->). by destruct (content it).
Qed.
Lemma content_none it it' : src it -> it_next it = (None, it') -> content it = [] /\ content it' = [].
Proof.
  intros Hsrc E. destruct (src_next it None it' Hsrc E) as (_ & Hn & ->). by destruct (content it).
Qed.

(** *** [Static] *)
Section StaticMode.
Context (nw : nat).

Definition st_pending (w : Worker I) : list Item :=
  match w with
  | Start (IStatic s e) _ => range_items it0 s e
  | WStatic it => content it
  | _ => []
  end.
Definition st_ok (sh : Shared) (i : nat) (w : Worker I) : Prop :=
  match w with
  | Start (IStatic s e) it => src it /\ 0 <= s <= e /\ e <= n
  | WStatic it => src it
  | Idle => True
  | _ => False
  end.
Definition st_nu (w : Worker I) : Z :=
  match w with
  | Start _ _ => 2 + Z.of_nat (length (st_pending w))
  | Idle => 0
  | _ => 1 + Z.of_nat (length (st_pending w))
  end.

Lemma st_step sh i w victim sh' w' x :
  w <> Idle -> st_ok sh i w -> 0 <= counter sh -> worker_step victim sh w = (sh', w', x) ->
  st_ok sh' i w' /\ option_list x ++ st_pending w' ≡ₚ st_pending w /\ sh' = sh /\ st_nu w' < st_nu w.
Proof.
  intros Hne Hok Hc E. destruct w as [[s e| | |] it|it| | | |]; cbn in Hok; try done.
  - destruct Hok as (Hsrc & Hse & Hen). cbn in E. simplify_eq.
    destruct (src_init it s (e - s) Hsrc ltac:(lia) ltac:(lia) ltac:(lia)) as [S1 S2].
    replace (s + (e - s)) with e in S2 by lia. cbn. rewrite S2. split_and!; done || lia.
  - cbn in E. unfold next_static in E. destruct (it_next it) as [[y|] it'] eqn:En; simplify_eq.
    + pose proof (content_split _ _ _ Hok En) as Es. destruct (src_next _ _ _ Hok En) as [? _].
      cbn. rewrite Es. cbn. split_and!; done || lia.
    + destruct (content_none _ _ Hok En) as [Es _]. cbn. rewrite Es. cbn. split_and!; done || lia.
Qed.

Definition static_mode : Mode nw.
Proof.
  refine {| m_limit := 0; m_pending_sh := fun _ => []; m_pending := st_pending;
            m_ok_sh := fun _ => True; m_ok := st_ok; m_nu_sh := fun _ => 0; m_nu := st_nu |}.
  - intros sh i w victim sh' w' x Hi Hv Hne _ Hok Hc _ E.
    destruct (st_step sh i w victim sh' w' x Hne Hok Hc E) as (S1 & S2 & -> & S4).
    split_and!; try done; lia.
  - intros sh i w _ _. split; [done|]. destruct w; cbn; lia.
Defined.
End StaticMode.

(** *** [Dynamic] *)
Section DynamicMode.
Context (nw : nat).

Definition dy_pending (sh : Shared) : list Item := range_items it0 (counter sh) n.
Definition dy_ok (sh : Shared) (i : nat) (w : Worker I) : Prop :=
  match w with
  | Start (IDynamic max_i) it | WDynamic it max_i => src it /\ max_i = n
  | Idle => n <= counter sh
  | _ => False
  end.
Definition dy_nu (w : Worker I) : Z :=
  match w with Start _ _ => 2 | WDynamic _ _ => 1 | _ => 0 end.

Lemma dy_step sh i w victim sh' w' x :
  w <> Idle -> dy_ok sh i w -> 0 <= counter sh -> counter sh + 1 < USIZE ->
  worker_step victim sh w = (sh', w', x) ->
  dy_ok sh' i w' /\ option_list x ++ dy_pending sh' = dy_pending sh /\
  counter sh <= counter sh' /\
  (counter sh' <= Z.max (counter sh) n \/ w' = Idle /\ counter sh' <= counter sh + 1) /\
  Z.max 0 (n - counter sh') + dy_nu w' < Z.max 0 (n - counter sh) + dy_nu w.
Proof.
  intros Hne Hok Hc Hlt E. destruct w as [[|m| |] it| |it m| | |]; cbn in Hok; try done;
    destruct Hok as [Hsrc ->]; cbn in E.
  - simplify_eq. split_and!; cbn; try done; lia.
  - unfold next_dynamic in E. rewrite wadd_ok in E by lia.
    destruct (Z.ltb_spec (counter sh) n) as [Hlt'|Hge].
    + destruct (src_init it (counter sh) 1 Hsrc ltac:(lia) ltac:(lia) ltac:(lia)) as [S1 S2].
      destruct (it_next (it_init it (counter sh) 1)) as [y it'] eqn:En. simplify_eq.
      destruct (src_next _ _ _ S1 En) as (S3 & S4 & _). rewrite S2 in S4.
      rewrite range_items_one in S4 by lia. cbn. split_and!; try done; try lia.
      unfold dy_pending. cbn. rewrite (range_items_app it0 (counter sh) (counter sh + 1) n) by lia.
      rewrite range_items_one by lia. rewrite S4. by destruct (items it0 (counter sh)).
    + simplify_eq. cbn. split_and!; try lia; try (by right).
      unfold dy_pending. cbn. by rewrite !range_items_nil by lia.
Qed.

Definition dynamic_mode : Mode nw.
Proof.
  refine {| m_limit := n; m_pending_sh := dy_pending; m_pending := fun _ => [];
            m_ok_sh := fun sh => 0 <= counter sh; m_ok := dy_ok;
            m_nu_sh := fun sh => Z.max 0 (n - counter sh); m_nu := dy_nu |}.
  - intros sh i w victim sh' w' x Hi Hv Hne _ Hok Hc Hlt E.
    destruct (dy_step sh i w victim sh' w' x Hne Hok Hc Hlt E) as (S1 & S2 & S3 & S4 & S5).
    split_and!; try done; [lia| |by rewrite !app_nil_r, S2|lia].
    intros j u _. destruct u as [[]| | | | |]; cbn; auto; lia.
  - intros sh i w _ _. split; [lia|]. destruct w; cbn; lia.
Defined.

Lemma dynamic_exhausts : (0 < nw)%nat \/ n <= 0 -> exhausts dynamic_mode.
Proof.
  intros Hnw sh Hsh Hidle. split; [|done]. apply range_items_nil. cbn in Hsh, Hidle.
  destruct Hnw as [Hnw|?]; [|lia]. by specialize (Hidle 0%nat Hnw).
Qed.
End DynamicMode.

Definition in_range (r : Z * Z) : list Item := range_items it0 (fst r) (snd r).

(** *** [Chunk] *)
Section ChunkMode.
Context {IL : IterLaws I Item} (nw : nat) (rs : list (Z * Z)).

(** A range may go beyond the elements. *)
Lemma src_any it s c :
  src it -> 0 <= s -> 0 <= c ->
  src (it_init it s c) /\ content (it_init it s c) = range_items it0 s (s + c).
Proof.
  intros (E1 & E2 & Hok) Hs Hc. destruct (law_init it s c Hok Hs Hc) as (L1 & L2 & L3 & L4). split.
  - split_and!; congruence || done.
  - rewrite L1. by apply range_items_same.
Qed.

Context (Hrs : forall k s e, rs !! k = Some (s, e) -> 0 <= s <= e).

(** Every range yields something: a worker that gets nothing from a range finishes. *)
Definition fruitful : Prop := forall k s e, rs !! k = Some (s, e) -> range_items it0 s e <> [].

Definition ch_pending_sh (sh : Shared) : list Item := joined in_range (drop (Z.to_nat (counter sh)) rs).
Definition ch_pending (w : Worker I) : list Item :=
  match w with WChunk it _ => content it | _ => [] end.
Definition ch_ok (sh : Shared) (i : nat) (w : Worker I) : Prop :=
  match w with
  | Start (IChunk ranges) it | WChunk it ranges => src it /\ ranges = rs
  | Idle => fruitful -> Z.of_nat (length rs) <= counter sh
  | _ => False
  end.
Definition ch_nu_sh (sh : Shared) : Z :=
  zsum (fun r => 1 + Z.of_nat (length (in_range r))) (drop (Z.to_nat (counter sh)) rs).
Definition ch_nu (w : Worker I) : Z :=
  match w with
  | Start _ _ => 2
  | WChunk it _ => 1 + Z.of_nat (length (content it))
  | _ => 0
  end.

Lemma ch_fetch sh s e :
  0 <= counter sh -> rs !! Z.to_nat (counter sh) = Some (s, e) ->
  drop (Z.to_nat (counter sh)) rs = (s, e) :: drop (Z.to_nat (counter sh + 1)) rs.
Proof.
  intros Hc Hr. rewrite (drop_S _ _ _ Hr). do 2 f_equal. lia.
Qed.

Lemma ch_step sh i w victim sh' w' x :
  w <> Idle -> ch_ok sh i w -> 0 <= counter sh -> counter sh + 1 < USIZE ->
  worker_step victim sh w = (sh', w', x) ->
  ch_ok sh' i w' /\
  option_list x ++ ch_pending_sh sh' ++ ch_pending w' ≡ₚ ch_pending_sh sh ++ ch_pending w /\
  counter sh <= counter sh' /\
  (counter sh' <= Z.max (counter sh) (Z.of_nat (length rs)) \/ w' = Idle /\ counter sh' <= counter sh + 1) /\
  ch_nu_sh sh' + ch_nu w' < ch_nu_sh sh + ch_nu w.
Proof.
  intros Hne Hok Hc Hlt E. destruct w as [[| |r|] it| | |it r| |]; cbn in Hok; try done;
    destruct Hok as [Hsrc ->]; cbn in E.
  - simplify_eq. destruct (src_any it 0 0 Hsrc ltac:(lia) ltac:(lia)) as [S1 S2].
    rewrite range_items_nil in S2 by lia. cbn. rewrite S2. cbn. split_and!; try done; lia.
  - unfold next_chunk in E. destruct (it_next it) as [[y|] it'] eqn:En.
    + simplify_eq. pose proof (content_split _ _ _ Hsrc En) as Es.
      destruct (src_next _ _ _ Hsrc En) as [? _]. cbn. rewrite Es. cbn. split_and!; try done; try lia.
      apply Permutation_middle.
    + destruct (content_none _ _ Hsrc En) as [Es _]. destruct (src_next _ _ _ Hsrc En) as [Hsrc' _].
      rewrite wadd_ok in E by lia. cbn [ch_pending ch_nu]. rewrite Es.
      destruct (Z.ltb_spec (counter sh) (Z.of_nat (length rs))) as [Hl|Hge].
      * destruct (rs !! Z.to_nat (counter sh)) as [[s e]|] eqn:Er;
          [|apply lookup_ge_None in Er; lia].
        pose proof (Hrs _ s e Er) as Hse. pose proof (ch_fetch sh s e Hc Er) as Hd.
        destruct (src_any it' s (e - s) Hsrc' ltac:(lia) ltac:(lia)) as [S1 S2].
        replace (s + (e - s)) with e in S2 by lia.
        unfold ch_pending_sh, ch_nu_sh. rewrite Hd. unfold joined. cbn. unfold in_range at 2. cbn.
        destruct (it_next (it_init it' s (e - s))) as [[y|] it2] eqn:En2; simplify_eq.
        -- pose proof (content_split _ _ _ S1 En2) as Es2. destruct (src_next _ _ _ S1 En2) as [? _].
           rewrite S2 in Es2. cbn. unfold in_range at 2 4. cbn. rewrite Es2. cbn.
           split_and!; try done; try lia. rewrite app_nil_r. f_equiv. apply Permutation_app_comm.
        -- destruct (content_none _ _ S1 En2) as [Hnil _]. rewrite S2 in Hnil.
           split; [by intros Hf; destruct (Hf _ s e Er)|]. unfold in_range at 2. cbn. rewrite Hnil. cbn.
           split_and!; try done; try lia.
      * simplify_eq. unfold ch_pending_sh, ch_nu_sh. cbn. rewrite !drop_ge by lia. cbn.
        split_and!; try done; try lia. by right.
Qed.

Definition chunk_mode : Mode nw.
Proof.
  refine {| m_limit := Z.of_nat (length rs); m_pending_sh := ch_pending_sh; m_pending := ch_pending;
            m_ok_sh := fun sh => 0 <= counter sh; m_ok := ch_ok; m_nu_sh := ch_nu_sh; m_nu := ch_nu |}.
  - intros sh i w victim sh' w' x Hi Hv Hne _ Hok Hc Hlt E.
    destruct (ch_step sh i w victim sh' w' x Hne Hok Hc Hlt E) as (S1 & S2 & S3 & S4 & S5).
    split_and!; try done; try lia. intros j u _.
    destruct u as [[]| | | | |]; cbn; auto. intros Hu Hf. specialize (Hu Hf). lia.
  - intros sh i w _ _. split; [apply zsum_lookup_nonneg; intros; lia|]. destruct w; cbn; lia.
Defined.

Lemma chunk_exhausts : (0 < nw)%nat \/ rs = [] -> fruitful -> exhausts chunk_mode.
Proof.
  intros Hnw Hf sh Hsh Hidle. split; [|done]. cbn in Hsh, Hidle |- *. unfold ch_pending_sh.
  destruct Hnw as [Hnw| ->]; [|by rewrite drop_nil]. specialize (Hidle 0%nat Hnw Hf).
  by rewrite drop_ge by lia.
Qed.
End ChunkMode.

(** *** [WorkStealing] *)
Section StealingMode.
Context (nw : nat).
Context (Hn : n + 2 < USIZE).

Definition size (r : Z * Z) : Z := Z.max 0 (snd r - fst r).

Record ws_ok_sh (sh : Shared) : Prop := {
  ws_length : length (stealers sh) = nw;
  ws_range : forall k s e, stealers sh !! k = Some (s, e) -> 0 <= s <= n + 1 /\ 0 <= e <= n;
  ws_counter : 0 <= counter sh;
}.

Definition ws_ok (sh : Shared) (i : nat) (w : Worker I) : Prop :=
  match w with
  | Start (IWorkStealing own) it =>
      src it /\ own = i /\ forall s e, stealers sh !! i = Some (s, e) -> s <= e
  | WStealer it own (First | Second) =>
      src it /\ own = i /\ forall s e, stealers sh !! i = Some (s, e) -> s <= n
  | WStealer it own Stealing =>
      src it /\ own = i /\ forall s e, stealers sh !! i = Some (s, e) -> e <= s
  | WStealer it own (Setting s' e') =>
      src it /\ own = i /\ 0 <= s' <= e' /\ e' <= n /\
      forall s e, stealers sh !! i = Some (s, e) -> e <= s
  | Idle => forall s e, stealers sh !! i = Some (s, e) -> e <= s
  | _ => False
  end.

Definition ws_pending_sh (sh : Shared) : list Item := joined in_range (stealers sh).
Definition ws_pending (w : Worker I) : list Item :=
  match w with WStealer _ _ (Setting s e) => range_items it0 s e | _ => [] end.
Definition ws_nu_sh (sh : Shared) : Z := 5 * zsum size (stealers sh).
Definition ws_nu (w : Worker I) : Z :=
  match w with
  | Start _ _ => 5
  | WStealer _ _ First => 4
  | WStealer _ _ Stealing => 3
  | WStealer _ _ (Setting s e) => 2 + 5 * (e - s)
  | WStealer _ _ Second => 1
  | _ => 0
  end.

(** The invariant of the other workers, when only range [k] changes and does not get larger. *)
Lemma ws_ok_other sh k r r' j u :
  stealers sh !! k = Some r -> j <> k \/ (fst r' = fst r /\ snd r' <= snd r /\ fst r' <= snd r') ->
  ws_ok sh j u -> ws_ok (set_stealer sh k r') j u.
Proof.
  intros Hr Hk.
  assert (Hmono : forall s e, stealers (set_stealer sh k r') !! j = Some (s, e) ->
                    exists e0, stealers sh !! j = Some (s, e0) /\ e <= e0 /\ (s <= e0 -> s <= e)).
  { intros s e Hj. cbn in Hj. apply list_lookup_insert_Some in Hj as [(-> & E & _)|[_ Hj]]; [|eauto with lia].
    destruct Hk as [|(E1 & E2 & E3)]; [done|]. destruct r as [s0 e0]. subst r'. cbn in *. subst. eauto. }
  destruct u as [[]| | | |it own []|]; cbn -[set_stealer]; try done.
  - intros (K1 & K2 & K3). split_and!; try done. intros s e (e0 & He & ? & ?)%Hmono. specialize (K3 s e0 He). lia.
  - intros (K1 & K2 & K3). split_and!; try done. intros s e (e0 & He & ? & ?)%Hmono. by apply (K3 s e0).
  - intros (K1 & K2 & K3). split_and!; try done. intros s e (e0 & He & ? & ?)%Hmono. specialize (K3 s e0 He). lia.
  - intros (K1 & K2 & K3 & K4 & K5). split_and!; try done; try lia.
    intros s e (e0 & He & ? & ?)%Hmono. specialize (K5 s e0 He). lia.
  - intros (K1 & K2 & K3). split_and!; try done. intros s e (e0 & He & ? & ?)%Hmono. by apply (K3 s e0).
  - intros K3 s e (e0 & He & ? & ?)%Hmono. specialize (K3 s e0 He). lia.
Qed.

Lemma ws_ok_sh_set sh k s e :
  ws_ok_sh sh -> 0 <= s <= n + 1 -> 0 <= e <= n -> ws_ok_sh (set_stealer sh k (s, e)).
Proof.
  intros [K1 K2 K3] Hs He. split; cbn; [by rewrite length_insert| |done].
  intros j s' e' [(_ & E & _)|[_ Hj]]%list_lookup_insert_Some; [by simplify_eq|by eapply K2].
Qed.

Lemma own_set sh i r : (i < length (stealers sh))%nat -> stealers (set_stealer sh i r) !! i = Some r.
Proof. intros Hi. cbn. by apply list_lookup_insert_eq. Qed.

(** What a change of one range does to the elements left and to the measure. *)
Lemma ws_change sh k r r' :
  stealers sh !! k = Some r ->
  exists rest, ws_pending_sh sh ≡ₚ in_range r ++ rest /\
    ws_pending_sh (set_stealer sh k r') ≡ₚ in_range r' ++ rest /\
    ws_nu_sh (set_stealer sh k r') = ws_nu_sh sh - 5 * size r + 5 * size r'.
Proof.
  intros Hr. destruct (joined_insert in_range _ _ _ r' Hr) as (rest & J1 & J2).
  exists rest. split; [done|split; [done|]]. unfold ws_nu_sh. cbn.
  rewrite (zsum_insert _ _ _ r) by done. lia.
Qed.

Lemma ws_next_spec s e :
  0 <= s <= n + 1 ->
  ws_next (s, e) = (if s <? e then (Some s, (s + 1, e)) else (None, (s + 1, e))).
Proof.
  intros Hs. unfold ws_next. cbn [fst snd]. rewrite wadd_ok by lia.
  destruct (Z.leb_spec (s + 1) e), (Z.ltb_spec s e); done || lia.
Qed.

Definition ws_post (sh : Shared) (i : nat) (w : Worker I) (sh' : Shared) (w' : Worker I)
    (x : option Item) : Prop :=
  ws_ok_sh sh' /\ ws_ok sh' i w' /\ (forall j u, j <> i -> ws_ok sh j u -> ws_ok sh' j u) /\
  option_list x ++ ws_pending_sh sh' ++ ws_pending w' ≡ₚ ws_pending_sh sh ++ ws_pending w /\
  counter sh' = counter sh /\
  ws_nu_sh sh' + ws_nu w' < ws_nu_sh sh + ws_nu w.

(** Taking the next element of the own range, in the first or the second [inner_next]. *)
Lemma ws_step_next sh i it ph victim sh' w' x :
  (i < nw)%nat -> ph = First \/ ph = Second -> ws_ok_sh sh -> ws_ok sh i (WStealer it i ph) ->
  next_stealing victim sh it i ph = (sh', w', x) -> ws_post sh i (WStealer it i ph) sh' w' x.
Proof.
  intros Hi Hph Hsh Hok E. pose proof Hsh as [K1 K2 K3].
  destruct (lookup_lt_is_Some_2 (stealers sh) i) as [[s e] Hr]; [lia|].
  destruct (K2 i s e Hr) as [Hs He].
  assert (Hown : src it /\ s <= n) by (destruct Hph as [-> | ->]; destruct Hok as (? & _ & ?); eauto).
  destruct Hown as [Hsrc Hsn].
  assert (Hlen : (i < length (stealers sh))%nat) by lia.
  destruct (ws_change sh i (s, e) (s + 1, e) Hr) as (rest & P1 & P2 & P3).
  assert (Hsh' : ws_ok_sh (set_stealer sh i (s + 1, e))) by (apply ws_ok_sh_set; done || lia).
  assert (Hother : forall j u, j <> i -> ws_ok sh j u -> ws_ok (set_stealer sh i (s + 1, e)) j u).
  { intros j u Hj. apply (ws_ok_other sh i (s, e)); auto. }
  assert (E' : next_stealing victim sh it i ph =
    let '(ri, r') := ws_next (s, e) in
    let sh' := set_stealer sh i r' in
    match ri with
    | Some ri => match it_next (it_init it ri 1) with
                 | (Some x, it') => (sh', WStealer it' i First, Some x)
                 | (None, it') => (sh', WStealer it' i ph, None)
                 end
    | None => match ph with
              | First => (sh', WStealer it i Stealing, None)
              | _ => (sh', Idle, None)
              end
    end) by (destruct Hph as [-> | ->]; cbn; by rewrite Hr).
  rewrite E', ws_next_spec in E by lia. clear E'. unfold ws_post.
  destruct (Z.ltb_spec s e) as [Hse|Hse]; cbv beta iota zeta in E.
  - destruct (src_init it s 1 Hsrc ltac:(lia) ltac:(lia) ltac:(lia)) as [S1 S2].
    destruct (it_next (it_init it s 1)) as [y it'] eqn:En.
    destruct (src_next _ _ _ S1 En) as (S3 & S4 & _). rewrite S2 in S4.
    rewrite range_items_one in S4 by lia.
    assert (Ey : in_range (s, e) = option_list y ++ in_range (s + 1, e)).
    { unfold in_range. cbn. rewrite (range_items_app it0 s (s + 1) e) by lia.
      rewrite range_items_one by lia. rewrite S4. by destruct (items it0 s). }
    assert (Hle : forall s0 e0, stealers (set_stealer sh i (s + 1, e)) !! i = Some (s0, e0) -> s0 <= n).
    { intros s0 e0. rewrite own_set by done. intros [= <- <-]. lia. }
    assert (Hperm : option_list y ++ ws_pending_sh (set_stealer sh i (s + 1, e)) ≡ₚ ws_pending_sh sh).
    { rewrite P1, P2, Ey, app_assoc. done. }
    unfold size in P3. cbn [fst snd] in P3.
    destruct y as [y|]; simplify_eq; (split; [done|]); (split; [destruct Hph as [-> | ->]; (split; [done|split; [done|exact Hle]])|]);
      (split; [done|]); (split; [destruct Hph as [-> | ->]; by rewrite !app_nil_r|]); (split; [done|]);
      rewrite P3; destruct Hph as [-> | ->]; cbn; lia.
  - assert (Hperm : ws_pending_sh (set_stealer sh i (s + 1, e)) ≡ₚ ws_pending_sh sh).
    { rewrite P1, P2. unfold in_range. cbn. by rewrite !range_items_nil by lia. }
    assert (Hle : forall s0 e0, stealers (set_stealer sh i (s + 1, e)) !! i = Some (s0, e0) -> e0 <= s0).
    { intros s0 e0. rewrite own_set by done. intros [= <- <-]. lia. }
    unfold size in P3. cbn [fst snd] in P3.
    destruct Hph as [-> | ->]; simplify_eq; (split; [done|]); (split; [done|]); (split; [done|]);
      (split; [cbn [ws_pending option_list]; by rewrite !app_nil_r|]); (split; [done|]);
      rewrite P3; cbn; lia.
Qed.

Lemma ws_step_steal sh i it victim sh' w' x :
  (i < nw)%nat -> (victim < nw)%nat -> ws_ok_sh sh -> ws_ok sh i (WStealer it i Stealing) ->
  next_stealing victim sh it i Stealing = (sh', w', x) -> ws_post sh i (WStealer it i Stealing) sh' w' x.
Proof.
  intros Hi Hv Hsh Hok E. pose proof Hsh as [K1 K2 K3]. destruct Hok as (Hsrc & _ & Hempty).
  destruct (lookup_lt_is_Some_2 (stealers sh) victim) as [[s e] Hr]; [lia|].
  destruct (K2 victim s e Hr) as [Hs He]. cbn in E. rewrite Hr in E. unfold ws_steal in E.
  unfold ws_post.
  destruct (Z.ltb_spec s e) as [Hse|]; cbn [andb] in E;
    [destruct (Z.ltb_spec 2 (e - s)) as [Hse2|]|].
  - set (m := (s + e) / 2) in *.
    assert (Hm : s <= m <= e) by (subst m; pose proof (Z.div_mod (s + e) 2 ltac:(lia));
      pose proof (Z.mod_pos_bound (s + e) 2 ltac:(lia)); lia).
    assert (Hne : victim <> i) by (intros ->; specialize (Hempty s e Hr); lia).
    destruct (ws_change sh victim (s, e) (s, m) Hr) as (rest & P1 & P2 & P3).
    destruct (src_init it m (e - m) Hsrc ltac:(lia) ltac:(lia) ltac:(lia)) as [S1 _].
    unfold size in P3. cbn [fst snd] in P3. simplify_eq.
    split; [apply ws_ok_sh_set; done || lia|]. split.
    { split; [done|split; [done|split; [lia|split; [lia|]]]]. intros s0 e0 He0. cbn in He0.
      rewrite list_lookup_insert_ne in He0 by done. by apply Hempty. }
    split; [intros j u Hj; apply (ws_ok_other sh victim (s, e)); cbn; auto; right; lia|].
    split; [|split; [done|rewrite P3; cbn; lia]].
    cbn [ws_pending option_list app]. rewrite P1, P2. unfold in_range. cbn.
    rewrite (range_items_app it0 s m e) by lia. rewrite app_nil_r, <- !app_assoc. f_equiv.
    apply Permutation_app_comm.
  - simplify_eq. split_and!; try done. cbn. lia.
  - simplify_eq. split_and!; try done. cbn. lia.
Qed.

Lemma ws_step_set sh i it s e victim sh' w' x :
  (i < nw)%nat -> ws_ok_sh sh -> ws_ok sh i (WStealer it i (Setting s e)) ->
  next_stealing victim sh it i (Setting s e) = (sh', w', x) ->
  ws_post sh i (WStealer it i (Setting s e)) sh' w' x.
Proof.
  intros Hi Hsh Hok E. pose proof Hsh as [K1 K2 K3]. destruct Hok as (Hsrc & _ & Hse & Hen & Hempty).
  destruct (lookup_lt_is_Some_2 (stealers sh) i) as [[s0 e0] Hr]; [lia|].
  specialize (Hempty s0 e0 Hr). destruct (ws_change sh i (s0, e0) (s, e) Hr) as (rest & P1 & P2 & P3).
  unfold size in P3. cbn [fst snd] in P3. cbn in E. simplify_eq. unfold ws_post.
  split; [apply ws_ok_sh_set; done || lia|]. split.
  { split; [done|split; [done|]]. intros s1 e1. rewrite own_set by lia. intros [= <- <-]. lia. }
  split; [intros j u Hj; apply (ws_ok_other sh i (s0, e0)); auto|].
  split; [|split; [done|rewrite P3; cbn; lia]].
  cbn [ws_pending option_list app]. rewrite P1, P2. unfold in_range. cbn.
  rewrite (range_items_nil it0 s0 e0) by lia. rewrite app_nil_r. cbn. apply Permutation_app_comm.
Qed.

Lemma ws_step sh i w victim sh' w' x :
  (i < nw)%nat -> (victim < nw)%nat -> w <> Idle -> ws_ok_sh sh -> ws_ok sh i w ->
  worker_step victim sh w = (sh', w', x) -> ws_post sh i w sh' w' x.
Proof.
  intros Hi Hv Hne Hsh Hok E.
  destruct w as [[| | |own] it| | | |it own ph|]; try done.
  - pose proof Hok as (Hsrc & -> & Hs). cbn in E.
    destruct (lookup_lt_is_Some_2 (stealers sh) i) as [[s e] Hr]; [by rewrite (ws_length _ Hsh)|].
    rewrite Hr in E. cbn in E. simplify_eq. destruct (ws_range _ Hsh i s e Hr) as [? ?].
    unfold ws_post. split_and!; try done; [|cbn; lia].
    specialize (Hs s e Hr). destruct (src_init it s (e - s) Hsrc ltac:(lia) ltac:(lia) ltac:(lia)) as [S1 _].
    split; [done|split; [done|]]. intros s0 e0 Hr0. rewrite Hr in Hr0. simplify_eq. lia.
  - destruct ph as [| |s e|].
    + pose proof Hok as (_ & -> & _). apply (ws_step_next sh i it First victim); auto.
    + pose proof Hok as (_ & -> & _). apply (ws_step_steal sh i it victim); auto.
    + pose proof Hok as (_ & -> & _). apply (ws_step_set sh i it s e victim); auto.
    + pose proof Hok as (_ & -> & _). apply (ws_step_next sh i it Second victim); auto.
Qed.

Definition stealing_mode : Mode nw.
Proof.
  refine {| m_limit := 0; m_pending_sh := ws_pending_sh; m_pending := ws_pending;
            m_ok_sh := ws_ok_sh; m_ok := ws_ok; m_nu_sh := ws_nu_sh; m_nu := ws_nu |}.
  - intros sh i w victim sh' w' x Hi Hv Hne Hsh Hok Hc Hlt E.
    destruct (ws_step sh i w victim sh' w' x Hi Hv Hne Hsh Hok E) as (S1 & S2 & S3 & S4 & S5 & S6).
    split_and!; try done; [lia|left; lia].
  - intros sh i w Hsh Hok. split.
    { assert (0 <= zsum size (stealers sh)) by (apply zsum_lookup_nonneg; intros; unfold size; lia).
      unfold ws_nu_sh. lia. }
    destruct w as [| | | |it own []|]; cbn in *; lia.
Defined.

Lemma stealing_exhausts : exhausts stealing_mode.
Proof.
  intros sh Hsh Hidle. split; [|done]. cbn in Hsh, Hidle |- *. unfold ws_pending_sh, joined.
  assert (E : forall k r, stealers sh !! k = Some r -> in_range r = []).
  { intros k [s e] Hk. apply range_items_nil. cbn. apply (Hidle k); [|done].
    rewrite <- (ws_length _ Hsh). by eapply lookup_lt_Some. }
  clear Hidle. induction (stealers sh) as [|r rs IH]; cbn; [done|].
  rewrite (E 0%nat r eq_refl). apply IH. intros k r' Hk. by apply (E (S k)).
Qed.
End StealingMode.
End Modes.

(** ** Launching *)
Section Launch.
Context {I Item : Type} {DI : DistributedIterator I Item} {SI : IterSpec I Item} {WL : WithinLaws I Item}.
Context (it0 : I) (Hok : it_ok it0).
Local Abbreviation n := (local_len it0).

Lemma joined_chained rs : forall a b,
  chained a rs b -> joined (in_range it0) rs = range_items it0 a b.
Proof.
  induction rs as [|[s e] rs IH]; intros a b.
  - cbn. intros ->. by rewrite range_items_nil by lia.
  - intros (-> & Hse & Hch). pose proof (chained_le _ _ _ Hch).
    rewrite (range_items_app it0 a e b) by lia. rewrite <- (IH e b Hch). done.
Qed.

Lemma idle_starting ws : (forall i w, ws !! i = Some w -> exists sc it, w = Start sc it) -> zsum (@idle I) ws = 0.
Proof.
  induction ws as [|w ws IH]; intros Hs; cbn; [done|].
  destruct (Hs 0%nat w eq_refl) as (sc & it & ->). cbn. apply IH. intros i. apply (Hs (S i)).
Qed.

Lemma joined_none {A} (f : A -> list Item) ws : (forall i w, ws !! i = Some w -> f w = []) -> joined f ws = [].
Proof.
  unfold joined. induction ws as [|w ws IH]; intros Hf; cbn; [done|].
  rewrite (Hf 0%nat w eq_refl). apply IH. intros i. apply (Hf (S i)).
Qed.

(** The elements that the iterator yields, in order. *)
Definition all_items : list Item := omap (items it0) (seqZ 0 n).

Lemma all_items_range b : 0 <= n <= b -> range_items it0 0 b = all_items.
Proof. intros Hb. unfold range_items, all_items. by rewrite Z.min_l, Z.min_r, Z.sub_0_r by lia. Qed.

Definition started (stealers : list (Z * Z)) (ws : list (Worker I)) : St I Item :=
  {| shared := {| counter := 0; stealers := stealers |}; workers := ws; output := [];
     results := replicate (length ws) [] |}.

Lemma src_refl : src it0 it0.
Proof. done. Qed.

Lemma static_running W ws :
  0 <= n <= 2 ^ 50 -> 0 < W < 2 ^ 31 -> sched_static W n it0 = Done ws ->
  running (static_mode it0 (length ws)) all_items (started [] ws).
Proof.
  intros Hn HW. destruct (static_ranges_cover n W Hn HW) as (rs & E & Hch & _).
  unfold sched_static. rewrite E. intros [= <-].
  assert (Hlook : forall i w, ((fun r => Start (IStatic (fst r) (snd r)) it0) <$> rs) !! i = Some w ->
            exists s e, w = Start (IStatic s e) it0 /\ 0 <= s <= e /\ e <= n).
  { intros i w Hi. apply list_lookup_fmap_Some in Hi as ([s e] & -> & Hr).
    exists s, e. split; [done|]. pose proof (chained_bounds rs 0 n i s e Hch Hr). lia. }
  split; cbn -[length joined]; try done.
  - intros i w Hi. destruct (Hlook i w Hi) as (s & e & -> & Hse). by split.
  - rewrite idle_starting; [lia|]. intros i w Hi. destruct (Hlook i w Hi) as (s & e & -> & _). eauto.
  - transitivity (joined (in_range it0) rs);
      [|by rewrite (joined_chained rs 0 n Hch), all_items_range by lia].
    unfold joined. by rewrite <- list_fmap_compose.
Qed.

Lemma replicate_workers k (w u : Worker I) i : replicate k w !! i = Some u -> u = w.
Proof. by intros [-> _]%lookup_replicate. Qed.

Lemma dynamic_running W (Hn : 0 <= n) (HW : 0 < W) :
  running (dynamic_mode it0 (length (sched_dynamic W n it0))) all_items
    (started [] (sched_dynamic W n it0)).
Proof.
  split; cbn -[length sched_dynamic joined]; try done.
  - intros i w Hi. apply replicate_workers in Hi as ->. by split.
  - rewrite idle_starting; [lia|]. intros i w Hi. apply replicate_workers in Hi as ->. eauto.
  - unfold dy_pending. cbn -[joined]. rewrite joined_none by done. rewrite app_nil_r.
    by rewrite all_items_range by lia.
Qed.

Lemma chunk_running {IL : IterLaws I Item} W rs b ws (Hrs : forall k s e, rs !! k = Some (s, e) -> 0 <= s <= e) :
  0 <= n <= b -> chained 0 rs b -> (forall i w, ws !! i = Some w -> w = Start (IChunk rs) it0) ->
  0 < W -> running (chunk_mode it0 (length ws) rs Hrs) all_items (started [] ws).
Proof.
  intros Hn Hch Hws HW. split; cbn -[length joined]; try done.
  - intros i w Hi. apply Hws in Hi as ->. by split.
  - rewrite idle_starting; [lia|]. intros i w Hi. apply Hws in Hi as ->. eauto.
  - rewrite joined_none by (intros i w Hi; by apply Hws in Hi as ->). rewrite app_nil_r.
    transitivity (joined (in_range it0) rs); [done|].
    by rewrite (joined_chained rs 0 b Hch), all_items_range by lia.
Qed.

Lemma stealing_running W (Hw : n + 2 < USIZE) siblings ws :
  0 <= n <= 2 ^ 50 -> 0 < W < 2 ^ 31 -> sched_work_stealing W n it0 = Done (siblings, ws) ->
  running (stealing_mode it0 (length ws) Hw) all_items (started siblings ws).
Proof.
  intros Hn HW. destruct (static_ranges_cover n W Hn HW) as (rs & Er & Hch & _). unfold sched_work_stealing.
  rewrite Er. intros [= <- <-].
  assert (Hlen : length ((fun i => Start (IWorkStealing i) it0) <$> seq 0 (length rs)) = length rs)
    by (by rewrite length_fmap, length_seq).
  assert (Hlook : forall i w, ((fun i => Start (IWorkStealing i) it0) <$> seq 0 (length rs)) !! i = Some w ->
            w = Start (IWorkStealing i) it0).
  { intros i w Hi. apply list_lookup_fmap_Some in Hi as (k & -> & [-> _]%lookup_seq). done. }
  split; cbn -[length joined]; try done.
  - split; cbn; [by rewrite Hlen| |done]. intros k s e Hk. pose proof (chained_bounds rs 0 n k s e Hch Hk). lia.
  - intros i w Hi. apply Hlook in Hi as ->. split; [done|split; [done|]]. cbn. intros s e Hk.
    pose proof (chained_bounds rs 0 n i s e Hch Hk). lia.
  - rewrite idle_starting; [lia|]. intros i w Hi. apply Hlook in Hi as ->. eauto.
  - rewrite joined_none by (intros i w Hi; by apply Hlook in Hi as ->). rewrite app_nil_r.
    transitivity (joined (in_range it0) rs); [done|].
    by rewrite (joined_chained rs 0 n Hch), all_items_range by lia.
Qed.

(** A range that starts at a local element yields something, if no element is dropped. *)
Lemma range_items_nonempty s e :
  (forall i, 0 <= i < n -> is_Some (items it0 i)) -> 0 <= s < n -> s < e -> range_items it0 s e <> [].
Proof.
  intros Htot Hs He. rewrite (range_items_app it0 s (s + 1) e) by lia.
  rewrite range_items_one by lia. destruct (Htot s Hs) as [x ->]. done.
Qed.
End Launch.

(** ** What each worker got *)
Section Results.
Context {I Item : Type} `{DistributedIterator I Item}.

Lemma concat_alter (rs : list (list Item)) i ys : (i < length rs)%nat ->
  mjoin (alter (fun r => r ++ ys) i rs) ≡ₚ mjoin rs ++ ys.
Proof.
  revert i. induction rs as [|r rs IH]; intros [|i] Hi; cbn in *; [lia|lia| |].
  - rewrite <- !app_assoc. f_equiv. apply Permutation_app_comm.
  - rewrite IH by lia. by rewrite app_assoc.
Qed.

Definition accounted (s : St I Item) : Prop :=
  length (results s) = length (workers s) /\ mjoin (results s) ≡ₚ output s.

Lemma accounted_started stealers ws : accounted (started stealers ws).
Proof.
  split; cbn; [by rewrite length_replicate|]. induction ws as [|w ws IH]; cbn; [done|exact IH].
Qed.

Lemma accounted_run s s' : accounted s -> rtc wstep s s' -> accounted s'.
Proof.
  intros Hs Hr. induction Hr as [|s1 s2 s3 Hstep _ IH]; [done|]. apply IH. clear IH.
  destruct Hstep as [s i victim w Hi Hne Hv], Hs as [L P]. unfold step_at.
  destruct (worker_step victim (shared s) w) as [[sh w'] x].
  split; cbn; [by rewrite length_alter, length_insert|].
  rewrite concat_alter by (rewrite L; by eapply lookup_lt_Some). by rewrite P.
Qed.
End Results.

(** ** Properties *)
Section ForEach.
Context {I Item : Type} {DI : DistributedIterator I Item} {SI : IterSpec I Item} {WL : WithinLaws I Item}.

Lemma launch_static (it : I) W :
  it_ok it -> 0 <= local_len it <= 2 ^ 50 -> 0 < W < 2 ^ 31 ->
  exists s0, launch Static W (num_local it) it = Done s0 /\ visits (all_items it) True s0.
Proof.
  intros Hok Hn HW. unfold launch. rewrite wlaw_elems by done.
  destruct (static_ranges_cover _ W Hn HW) as (rs & Er & _ & Hl).
  assert (E : sched_static W (local_len it) it = Done ((fun r => Start (IStatic (fst r) (snd r)) it) <$> rs))
    by (unfold sched_static; by rewrite Er).
  rewrite E. eexists. split; [reflexivity|].
  eapply running_correct; [| |exact (static_running it Hok W _ Hn HW E)]; [|by intros _ sh _ _].
  cbn [m_limit static_mode]. rewrite length_fmap. lia.
Qed.

Lemma launch_dynamic (it : I) W :
  it_ok it -> 0 <= local_len it <= 2 ^ 50 -> 0 < W < 2 ^ 31 ->
  exists s0, launch Dynamic W (num_local it) it = Done s0 /\ visits (all_items it) True s0.
Proof.
  intros Hok Hn HW. unfold launch. rewrite wlaw_elems by done. eexists. split; [reflexivity|].
  assert (Hlen : length (sched_dynamic W (local_len it) it) = Z.to_nat (Z.min W (local_len it)))
    by (unfold sched_dynamic; apply length_replicate).
  assert (Hnw : (0 < length (sched_dynamic W (local_len it) it))%nat \/ local_len it <= 0)
    by (destruct (decide (local_len it <= 0)); [by right|left; rewrite Hlen; lia]).
  pose proof (dynamic_running it Hok W (proj1 Hn) (proj1 HW)) as Hrun.
  eapply running_correct; [| |exact Hrun]; [|intros _; by apply dynamic_exhausts].
  cbn [m_limit dynamic_mode]. rewrite Hlen. lia.
Qed.

(** An iterator with an element at every position. *)
Definition total (it : I) : Prop := forall i, 0 <= i < local_len it -> is_Some (items it i).

(** The schedules whose workers share a list of ranges. *)
Lemma launch_ranges {IL : IterLaws I Item} (it : I) W rs b m :
  it_ok it -> 0 <= local_len it <= b -> 0 < W -> chained 0 rs b -> starts_below (local_len it) rs ->
  (rs <> [] -> 0 < m) -> 0 <= m -> Z.of_nat (length rs) + m < USIZE ->
  visits (all_items it) (total it) (started [] (replicate (Z.to_nat m) (Start (IChunk rs) it))).
Proof.
  intros Hok Hn HW Hch Hrs Hm Hm0 Hmax. set (ws := replicate _ _).
  assert (Hlen : length ws = Z.to_nat m) by apply length_replicate.
  assert (Hnw : (0 < length ws)%nat \/ rs = []) by (destruct rs; [by right|left; specialize (Hm ltac:(done)); lia]).
  assert (Hrs' : forall k s e, rs !! k = Some (s, e) -> 0 <= s <= e).
  { intros k s e Hk. pose proof (chained_bounds _ _ _ _ _ _ Hch Hk). lia. }
  assert (Hrun : running (chunk_mode it (length ws) rs Hrs') (all_items it) (started [] ws)).
  { apply (chunk_running it Hok W rs b); try done; try lia. intros i w. apply replicate_workers. }
  eapply running_correct; [| |exact Hrun]; [cbn; lia|]. intros Htot. apply chunk_exhausts; [done|].
  intros k s e Hk. pose proof (Hrs k s e Hk). pose proof (chained_bounds _ _ _ _ _ _ Hch Hk).
  by apply range_items_nonempty; [|lia|lia].
Qed.

Lemma launch_chunk {IL : IterLaws I Item} (it : I) W c :
  it_ok it -> 0 <= local_len it <= 2 ^ 50 -> 0 < W < 2 ^ 31 -> 0 < c < 2 ^ 63 ->
  exists s0, launch (Chunk c) W (num_local it) it = Done s0 /\ visits (all_items it) (total it) s0.
Proof.
  intros Hok Hn HW Hc. unfold launch. rewrite wlaw_elems by done. unfold sched_chunk.
  assert (Hw : local_len it + c < USIZE) by lia.
  assert (Hf : Z.max 0 (local_len it - 0) < Z.of_nat (S (Z.to_nat (local_len it)))) by lia.
  destruct (chunk_ranges_cover c (local_len it) (proj1 Hc) Hw _ 0 (Z.le_refl 0) Hf) as (rs & b & -> & Hch & Hb & Hl & Hrs).
  eexists. split; [reflexivity|]. eapply (launch_ranges it W rs b); try done; try lia.
  - intros k s e Hk. specialize (Hrs k s e Hk). lia.
  - destruct rs; [done|]. cbn [length]. lia.
Qed.

Lemma launch_guided {IL : IterLaws I Item} (it : I) W :
  it_ok it -> 0 <= local_len it <= 2 ^ 50 -> 0 < W <= 2 ^ 24 ->
  exists s0, launch Guided W (num_local it) it = Done s0 /\ visits (all_items it) (total it) s0.
Proof.
  intros Hok Hn HW. unfold launch. rewrite wlaw_elems by done. unfold sched_guided.
  destruct (guided_ranges_cover (local_len it) W Hn HW) as (rs & b & -> & Hch & Hb & Hrs).
  eexists. split; [reflexivity|]. eapply (launch_ranges it W rs b); try done; try lia.
  - destruct rs as [|[s e] rs]; [done|]. destruct (Hrs 0%nat s e eq_refl). destruct Hch as [-> _]. lia.
  - pose proof (chained_length _ _ _ _ Hch Hrs). lia.
Qed.

Lemma launch_work_stealing (it : I) W :
  it_ok it -> 0 <= local_len it <= 2 ^ 50 -> 0 < W < 2 ^ 31 ->
  exists s0, launch WorkStealing W (num_local it) it = Done s0 /\ visits (all_items it) True s0.
Proof.
  intros Hok Hn HW. unfold launch. rewrite wlaw_elems by done.
  destruct (static_ranges_cover _ W Hn HW) as (rs & Er & _ & Hl).
  assert (E : sched_work_stealing W (local_len it) it = Done (rs, (fun i => Start (IWorkStealing i) it) <$> seq 0 (length rs)))
    by (unfold sched_work_stealing; by rewrite Er).
  rewrite E. eexists. split; [reflexivity|]. assert (Hw : local_len it + 2 < USIZE) by lia.
  eapply running_correct; [| |exact (stealing_running it Hok W Hw _ _ Hn HW E)]; [|intros _; apply stealing_exhausts].
  cbn [m_limit stealing_mode]. rewrite length_fmap, length_seq. lia.
Qed.
End ForEach.

Lemma visits_complete {I Item : Type} `{DistributedIterator I Item} (target : list Item) (P : Prop) s0 :
  visits target P s0 -> P ->
  sn wstep s0 /\ forall s', rtc wstep s0 s' -> nf wstep s' -> output s' ≡ₚ target.
Proof. intros [Hsn Hv] HP. split; [done|]. intros s' Hr Hnf. by apply Hv. Qed.

(** Every schedule but [Chunk] and [Guided] stays within the elements. *)
Lemma launch_within {I Item : Type} `{WithinLaws I Item} (it : I) (sched : Schedule) (W : Z) :
  it_ok it -> 0 <= local_len it <= 2 ^ 50 -> 0 < W < 2 ^ 31 ->
  sched = Static \/ sched = Dynamic \/ sched = WorkStealing ->
  exists s0, launch sched W (num_local it) it = Done s0 /\ sn wstep s0 /\
    forall s', rtc wstep s0 s' -> nf wstep s' ->
      output s' ≡ₚ omap (items it) (seqZ 0 (local_len it)).
Proof.
  intros Hok Hn HW Hs.
  assert (exists s0, launch sched W (num_local it) it = Done s0 /\ visits (all_items it) True s0) as (s0 & E & Hv).
  { destruct Hs as [-> | [-> | ->]]; [by apply launch_static|by apply launch_dynamic|by apply launch_work_stealing]. }
  exists s0. split; [done|]. by eapply visits_complete.
Qed.

(** A schedule that consumes an iterator completely: [Chunk] and [Guided] need one that has an
    element at every position. *)
Definition consumes {I Item : Type} `{IterSpec I Item} (sched : Schedule) (W : Z) (it : I) : Prop :=
  match sched with
  | Static | Dynamic | WorkStealing => True
  | Chunk c => 0 < c < 2 ^ 63 /\ total it
  | Guided => W <= 2 ^ 24 /\ total it
  end.

(** What a schedule needs to split the elements: a chunk size that does not overflow, and for
    [Guided] a number of threads that single precision holds. *)
Definition splits (sched : Schedule) (W : Z) : Prop :=
  match sched with
  | Static | Dynamic | WorkStealing => True
  | Chunk c => 0 < c < 2 ^ 63
  | Guided => W <= 2 ^ 24
  end.

Lemma launch_visits {I Item : Type} `{IterLaws I Item} (it : I) (sched : Schedule) (W : Z) :
  it_ok it -> 0 <= local_len it <= 2 ^ 50 -> 0 < W < 2 ^ 31 -> splits sched W ->
  exists s0, launch sched W (num_local it) it = Done s0 /\ visits (all_items it) (consumes sched W it) s0.
Proof.
  intros Hok Hn HW Hs. destruct sched as [| |c| |];
    [by apply launch_static|by apply launch_dynamic| | |by apply launch_work_stealing].
  - destruct (launch_chunk it W c) as (s0 & E & Hsn & Hv); try done. exists s0. split; [done|].
    split; [done|]. intros s' Hr. destruct (Hv s' Hr) as [? Ht]. split; [done|]. intros Hnf [_ Htot]. by apply Ht.
  - destruct (launch_guided it W) as (s0 & E & Hsn & Hv); [done|done|cbn in Hs; lia|]. exists s0. split; [done|].
    split; [done|]. intros s' Hr. destruct (Hv s' Hr) as [? Ht]. split; [done|]. intros Hnf [_ Htot]. by apply Ht.
Qed.

Lemma launch_complete {I Item : Type} `{IterLaws I Item} (it : I) (sched : Schedule) (W : Z) :
  it_ok it -> 0 <= local_len it <= 2 ^ 50 -> 0 < W < 2 ^ 31 -> consumes sched W it ->
  exists s0, launch sched W (num_local it) it = Done s0 /\ sn wstep s0 /\
    forall s', rtc wstep s0 s' -> nf wstep s' ->
      output s' ≡ₚ omap (items it) (seqZ 0 (local_len it)).
Proof.
  intros Hok Hn HW Hc. destruct (launch_visits it sched W Hok Hn HW) as (s0 & E & Hv).
  { destruct sched; cbn in *; tauto. }
  exists s0. split; [done|]. by eapply visits_complete.
Qed.

(** C13: what [for_each] visits.  For every schedule (a chunk size in (0, 2^63)), at most 2^50
    local elements, any number of threads (below 2^31, the range of the loop counters; at most
    2^24 for [Guided]) and any interleaving of their steps, with work stolen in any order: the
    requests are created without overflow, in spite of the rounding of the ranges, every
    execution ends, and at no time has [op] been applied twice to an element, or to something the
    iterator does not yield for the local elements.  When all requests have finished, then under
    [Static], [Dynamic] and [WorkStealing] [op] has been applied to all of them.  Under [Chunk]
    and [Guided] that holds of an iterator that yields something for every local element; one
    that drops elements (a filter) may leave some out, as [chunk_filter_misses] shows. *)
Theorem for_each_exactly_once {I Item : Type} `{IterLaws I Item} (it : I) (sched : Schedule) (W : Z)
    (Hok : it_ok it) (Hn : 0 <= local_len it <= 2 ^ 50) (HW : 0 < W < 2 ^ 31) (Hs : splits sched W) :
  exists s0, launch sched W (num_local it) it = Done s0 /\ sn wstep s0 /\
    forall s', rtc wstep s0 s' ->
      output s' ⊆+ omap (items it) (seqZ 0 (local_len it)) /\
      (nf wstep s' ->
       match sched with
       | Static | Dynamic | WorkStealing => True
       | Chunk _ | Guided => forall i, 0 <= i < local_len it -> is_Some (items it i)
       end -> output s' ≡ₚ omap (items it) (seqZ 0 (local_len it))).
Proof.
  destruct (launch_visits it sched W Hok Hn HW Hs) as (s0 & E & Hsn & Hv).
  exists s0. split; [done|]. split; [done|]. intros s' Hr. destruct (Hv s' Hr) as [Ho Hc].
  split; [done|]. intros Hnf Ht. apply Hc; [done|]. by destruct sched.
Qed.

(** The even ones among 6 elements with 2 threads stealing work, and all of them in chunks. *)
Definition view_upto (n : Z) (f : Z -> Z) : ArrayView Z :=
  {| view_local := f; view_num := n; view_index i := if i <? n then Some i else None; view_len := n |}.
Definition six : DistIter Z := dist_iter_new (view_upto 6 (fun i => 10 + i)) 0 0.

Lemma view_upto_ok n f : 0 <= n <= 2 ^ 63 -> view_ok (view_upto n f).
Proof.
  intros Hn. constructor; cbn; try lia.
  - intros i Hi. exists i. rewrite (proj2 (Z.ltb_lt _ _)) by lia. split; [done|lia].
  - intros i j g h Hij Hj. rewrite !(proj2 (Z.ltb_lt _ _)) by lia. intros [= <-] [= <-]. lia.
  - intros i Hi. by rewrite (proj2 (Z.ltb_ge _ _)) by lia.
Qed.

Lemma six_ok : iok six.
Proof. split; [apply view_upto_ok; lia|cbn; lia]. Qed.

Lemma six_total : forall i, 0 <= i < local_len six -> is_Some (items six i).
Proof.
  intros i Hi. cbn.
  destruct (view_item_some (view_upto 6 (fun i => 10 + i)) i (view_upto_ok 6 _ ltac:(lia)) Hi) as (g & -> & _).
  eexists. reflexivity.
Qed.

Lemma for_each_exactly_once_witness :
  let evens := {| filter_iter := six; filter_f := Z.even |} in
  (exists s0, launch WorkStealing 2 6 evens = Done s0 /\
     sn wstep s0 /\ forall s', rtc wstep s0 s' -> nf wstep s' -> output s' ≡ₚ [10; 12; 14]) /\
  (exists s0, launch (Chunk 2) 2 6 evens = Done s0 /\
     sn wstep s0 /\ forall s', rtc wstep s0 s' -> output s' ⊆+ [10; 12; 14]) /\
  (exists s0, launch (Chunk 4) 2 6 six = Done s0 /\
     sn wstep s0 /\ forall s', rtc wstep s0 s' -> nf wstep s' -> output s' ≡ₚ [10; 11; 12; 13; 14; 15]) /\
  (exists s0, launch Guided 2 6 six = Done s0 /\
     sn wstep s0 /\ forall s', rtc wstep s0 s' -> nf wstep s' -> output s' ≡ₚ [10; 11; 12; 13; 14; 15]).
Proof.
  cbn zeta. set (evens := {| filter_iter := six; filter_f := Z.even |}).
  assert (He : it_ok evens) by exact six_ok. assert (H6 : it_ok (Item := Z) six) by exact six_ok.
  assert (Hl : 0 <= 6 <= 2 ^ 50) by lia. assert (HW : 0 < 2 < 2 ^ 31) by lia. split_and!.
  - destruct (for_each_exactly_once (Item := Z) evens WorkStealing 2 He Hl HW Logic.I) as (s0 & E & Hsn & H).
    exists s0. split; [exact E|split; [exact Hsn|]]. intros s' Hr Hnf. exact (proj2 (H s' Hr) Hnf Logic.I).
  - destruct (for_each_exactly_once (Item := Z) evens (Chunk 2) 2 He Hl HW ltac:(cbn; lia)) as (s0 & E & Hsn & H).
    exists s0. split; [exact E|split; [exact Hsn|]]. intros s' Hr. exact (proj1 (H s' Hr)).
  - destruct (for_each_exactly_once (Item := Z) six (Chunk 4) 2 H6 Hl HW ltac:(cbn; lia)) as (s0 & E & Hsn & H).
    exists s0. split; [exact E|split; [exact Hsn|]]. intros s' Hr Hnf. exact (proj2 (H s' Hr) Hnf six_total).
  - destruct (for_each_exactly_once (Item := Z) six Guided 2 H6 Hl HW ltac:(cbn; lia)) as (s0 & E & Hsn & H).
    exists s0. split; [exact E|split; [exact Hsn|]]. intros s' Hr Hnf. exact (proj2 (H s' Hr) Hnf six_total).
Defined.

(** With [Schedule::Chunk], [for_each] on a filtered iterator can miss elements.  A worker
    whose next chunk yields nothing finishes although chunks are left: with two chunks of two
    elements, of which only the second has an element the filter keeps, one thread finishes
    without applying [op] to it. *)
Theorem chunk_filter_misses :
  let it := {| filter_iter := dist_iter_new (view_upto 4 (fun i => i)) 0 0; filter_f := fun x => 2 <=? x |} in
  omap (items it) (seqZ 0 4) = [2; 3] /\
  exists s0 s', launch (Chunk 2) 1 4 it = Done s0 /\
    rtc wstep s0 s' /\ workers s' = [Idle] /\ output s' = [].
Proof.
  cbn zeta. split; [vm_compute; reflexivity|]. eexists _, _. split; [reflexivity|]. split; [|split].
  - eapply rtc_l; [apply (wstep_at _ 0 0); [reflexivity|discriminate|vm_compute; lia]|].
    eapply rtc_l; [apply (wstep_at _ 0 0); [reflexivity|discriminate|vm_compute; lia]|]. apply rtc_refl.
  - vm_compute. reflexivity.
  - vm_compute. reflexivity.
Qed.
