(* ===== verification/GlobalIter.v ===== *)
(** * GlobalIter: what a chain of adapters yields on all the PEs together

    Composes [Distribution], [IndexedIterators] and [Schedule]: a distributed iterator over an
    array, with any adapters, applied on every PE by a schedule that consumes it ([complete_schedule]:
    [Static], [Dynamic] and [WorkStealing] do, [Chunk] and [Guided] if every position has an
    element), yields what the sequential iterator with the same adapters yields over the
    elements of the array in order. *)

From stdpp Require Import base list numbers relations.
From Stdlib Require Import ZArith Lia.
From S2P Require Import Prelude BlockBounds Iterators IndexedIterators ScheduleRanges Schedule Distribution.
Local Open Scope Z_scope.

(** ** The sequential adapters *)

Section Sequential.
Context {A : Type}.
Implicit Types l : list A.

(** [enumerate()] *)
Fixpoint indexed_from (i : Z) l : list (Z * A) :=
  match l with [] => [] | x :: l => (i, x) :: indexed_from (i + 1) l end.
Definition indexed l : list (Z * A) := indexed_from 0 l.

(** [step_by(st)]: [k] elements are dropped before the next one that is kept. *)
Fixpoint step_from (st k : nat) l : list A :=
  match l with
  | [] => []
  | x :: l => match k with O => x :: step_from st (st - 1) l | S k => step_from st k l end
  end.
Definition step_list (st : Z) l : list A := step_from (Z.to_nat st) 0 l.

Lemma indexed_from_numbered i l : numbered i (indexed_from i l).
Proof.
  revert i. induction l as [|x l IH]; intros i k g y E; [done|]. destruct k as [|k]; cbn in E.
  - injection E as <- <-. lia.
  - apply IH in E. lia.
Qed.

Lemma indexed_from_shift n i l : prod_map (fun g => g - n) id <$> indexed_from i l = indexed_from (i - n) l.
Proof.
  revert i. induction l as [|x l IH]; intros i; cbn; [done|]. rewrite IH. do 2 f_equal. lia.
Qed.

Lemma length_indexed_from i l : length (indexed_from i l) = length l.
Proof. revert i. induction l as [|x l IH]; intros i; cbn; [done|by rewrite IH]. Qed.

Lemma indexed_lookup i l k : indexed_from i l !! k = (fun x => (i + Z.of_nat k, x)) <$> l !! k.
Proof.
  revert i k. induction l as [|x l IH]; intros i k; [done|]. destruct k as [|k]; cbn.
  - do 2 f_equal. lia.
  - rewrite IH. destruct (l !! k); cbn; do 2 f_equal; lia.
Qed.

Lemma indexed_elem l i x : (i, x) ∈ indexed l -> 0 <= i < Z.of_nat (length l).
Proof.
  intros [k E]%list_elem_of_lookup. unfold indexed in E. rewrite indexed_lookup in E.
  apply fmap_Some in E as (y & Ey & [= -> ->]). apply lookup_lt_Some in Ey. lia.
Qed.

Lemma snd_indexed i l : snd <$> indexed_from i l = l.
Proof. revert i. induction l as [|x l IH]; intros i; cbn; [done|by rewrite IH]. Qed.

(** What the filters on indices do is what the sequential adapters do. *)
Lemma shifted_indexed n i l : 0 <= n -> i <= n ->
  omap (shifted n) (indexed_from i l) = indexed_from 0 (drop (Z.to_nat (n - i)) l).
Proof.
  intros Hn. revert i. induction l as [|x l IH]; intros i Hi; [cbn; by rewrite drop_nil|].
  destruct (Z.eq_dec i n) as [->|Hne].
  - rewrite Z.sub_diag. cbn [Z.to_nat drop]. rewrite shifted_all.
    + by rewrite indexed_from_shift, Z.sub_diag.
    + apply Forall_lookup. intros k [g y] E. apply indexed_from_numbered in E. cbn. lia.
  - replace (Z.to_nat (n - i)) with (S (Z.to_nat (n - (i + 1)))) by lia. cbn [drop].
    rewrite <- IH by lia. cbn [indexed_from]. cbn -[indexed_from]. by rewrite shifted_none by lia.
Qed.

Lemma below_indexed n i l :
  omap (below n) (indexed_from i l) = indexed_from i (take (Z.to_nat (n - i)) l).
Proof.
  revert i. induction l as [|x l IH]; intros i; [cbn; by rewrite take_nil|].
  destruct (Z.lt_ge_cases i n) as [Hi|Hi].
  - replace (Z.to_nat (n - i)) with (S (Z.to_nat (n - (i + 1)))) by lia. cbn [take indexed_from].
    by rewrite below_cons, IH by done.
  - replace (Z.to_nat (n - i)) with O by lia. cbn [take]. apply omap_none, Forall_lookup.
    intros k [g y] E. apply indexed_from_numbered in E. unfold below. cbn [fst].
    by rewrite (proj2 (Z.ltb_ge g n)) by lia.
Qed.

Lemma multiple_indexed st i k l : 0 < st -> 0 <= i -> (i + Z.of_nat k) mod st = 0 -> Z.of_nat k < st ->
  omap (multiple st) (indexed_from i l) = indexed_from ((i + Z.of_nat k) / st) (step_from (Z.to_nat st) k l).
Proof.
  intros Hst. revert i k. induction l as [|x l IH]; intros i k Hi Hk Hlt; [done|].
  cbn [indexed_from step_from]. destruct k as [|k].
  - rewrite Z.add_0_r in *. cbn -[indexed_from]. unfold multiple at 1. cbn [fst snd]. rewrite Hk. cbn [Z.eqb].
    f_equal. rewrite (IH (i + 1) (Z.to_nat st - 1)%nat); [|lia| |lia].
    + f_equal. replace (i + 1 + Z.of_nat (Z.to_nat st - 1)) with (i + 1 * st) by lia. by rewrite Z.div_add by lia.
    + replace (i + 1 + Z.of_nat (Z.to_nat st - 1)) with (i + st) by lia. by rewrite mod_add_self.
  - cbn -[indexed_from]. unfold multiple at 1. cbn [fst snd].
    rewrite (proj2 (Z.eqb_neq (i mod st) 0)).
    + rewrite (IH (i + 1) k); [|lia| |lia]; [f_equal; f_equal; lia|]. rewrite <- Hk. f_equal. lia.
    + intros Hm. apply (mod_between st i (Z.of_nat (S k))); [done|done|lia|done].
Qed.

End Sequential.

(** ** The iterators of all the PEs *)

(** [it pe] is the iterator of PE [pe]: together they are left with the elements of [l], each
    with its index in [l]. *)
Record yields {I A} `{IndexedSpec I A} (P : Z) (it : Z -> I) (l : list A) : Prop := {
  yields_ok pe : 0 <= pe < P -> iok (it pe);
  yields_fresh pe : 0 <= pe < P -> icontent (it pe) = [];
  yields_len pe : 0 <= pe < P -> ilen (it pe) <= 2 ^ 50;
  yields_all : (seqZ 0 P ≫= fun pe => iranges (it pe) 0 (ilen (it pe))) ≡ₚ indexed l;
}.

(** On every PE the indices are consecutive, and those of the next PEs follow. *)
Record contiguous {I A} `{IndexedSpec I A} (P : Z) (it : Z -> I) (n : Z) : Prop := {
  contiguous_local pe : 0 <= pe < P -> consecutive (it pe);
  contiguous_reach pe B : 0 <= pe < P -> 0 < B <= n -> ireach (it pe) B;
}.

(** The last PE that has elements after the last multiple of [st] has only one where a chunk
    may start. *)
Definition tail_fits {I A} `{IndexedSpec I A} (P : Z) (it : Z -> I) (st n : Z) : Prop :=
  forall pe s G x l, 0 <= pe < P -> 0 <= s -> iranges (it pe) (s * st) (ilen (it pe)) = (G, x) :: l ->
    (n - 1) / st * st < G -> l = [].

Section Families.
Context {I A : Type} `{DistributedIterator I A, IndexedDistributedIterator I, !IndexedSpec I A, !IndexedLaws I A}.
Implicit Types (it : Z -> I) (l : list A).

Lemma bind_omap {B C D} (f : B -> list C) (g : C -> option D) (ps : list B) :
  (ps ≫= fun p => omap g (f p)) = omap g (ps ≫= f).
Proof. induction ps as [|p ps IH]; [done|]. rewrite !bind_cons, omap_app. by rewrite IH. Qed.

Lemma omap_after_fmap {B C D} (f : C -> option D) (g : B -> C) (bs : list B) :
  omap f (g <$> bs) = omap (fun b => f (g b)) bs.
Proof. induction bs as [|b bs IH]; cbn; [done|]. by rewrite IH. Qed.

Lemma bind_ext_in {B C} (f g : B -> list C) ps : (forall p, p ∈ ps -> f p = g p) -> ps ≫= f = ps ≫= g.
Proof.
  induction ps as [|p ps IH]; intros Hfg; [done|]. rewrite !bind_cons, (Hfg p) by left.
  f_equal. apply IH. intros q Hq. apply Hfg. by right.
Qed.

Lemma bind_seqZ_ext {B} (f g : Z -> list B) P : (forall pe, 0 <= pe < P -> f pe = g pe) ->
  (seqZ 0 P ≫= f) = (seqZ 0 P ≫= g).
Proof. intros Hfg. apply bind_ext_in. intros pe Hpe%elem_of_seqZ. apply Hfg. lia. Qed.

Lemma yields_filter {I' B} `{IndexedSpec I' B} P it (it' : Z -> I') (l : list A) (l' : list B) (f : Z * A -> option (Z * B)) :
  yields P it l ->
  (forall pe, 0 <= pe < P -> iok (it' pe) /\ icontent (it' pe) = [] /\ ilen (it' pe) <= ilen (it pe) /\
     iranges (it' pe) 0 (ilen (it' pe)) = omap f (iranges (it pe) 0 (ilen (it pe)))) ->
  omap f (indexed l) = indexed l' ->
  yields P it' l'.
Proof.
  intros [Y1 Y2 Y3 Y4] Hit Hl. constructor.
  - intros pe Hpe. by apply Hit.
  - intros pe Hpe. by apply Hit.
  - intros pe Hpe. destruct (Hit pe Hpe) as (_ & _ & ? & _). specialize (Y3 pe Hpe). lia.
  - rewrite <- Hl, <- Y4, <- bind_omap. rewrite (bind_seqZ_ext _ (fun pe => omap f (iranges (it pe) 0 (ilen (it pe))))); [done|].
    intros pe Hpe. by apply Hit.
Qed.

Lemma yields_skip P it l n : 0 <= n < 2 ^ 63 -> yields P it l ->
  yields P (fun pe => iter_skip (it pe) n) (drop (Z.to_nat n) l).
Proof.
  intros Hn HY. apply (yields_filter P it _ l _ (shifted n)); [done| |].
  - intros pe Hpe. destruct HY as [Y1 Y2 Y3 Y4]. cbn. rewrite (Y2 pe Hpe). split_and!; try done; try lia.
    + by apply Y1.
    + by apply iranges_filter.
  - unfold indexed. rewrite shifted_indexed by lia. by rewrite Z.sub_0_r.
Qed.

Lemma yields_take P it l n : yields P it l ->
  yields P (fun pe => iter_take (it pe) n) (take (Z.to_nat n) l).
Proof.
  intros HY. apply (yields_filter P it _ l _ (below n)); [done| |].
  - intros pe Hpe. destruct HY as [Y1 Y2 Y3 Y4]. cbn. rewrite (Y2 pe Hpe). split_and!; try done; try lia.
    + by apply Y1.
    + by apply iranges_filter.
  - unfold indexed. rewrite below_indexed. by rewrite Z.sub_0_r.
Qed.

Lemma yields_enumerate P it l : yields P it l ->
  yields P (fun pe => iter_enumerate (it pe)) (indexed l).
Proof.
  intros HY. apply (yields_filter P it _ l _ (fun p => Some (with_index p))); [done| |].
  - intros pe Hpe. destruct HY as [Y1 Y2 Y3 Y4]. cbn. rewrite (Y2 pe Hpe). split_and!; try done; try lia.
    + by apply Y1.
    + rewrite with_index_ranges. symmetry. apply omap_all. by apply Forall_forall.
  - clear HY. unfold indexed. generalize 0. induction l as [|x l IH]; intros i; cbn; [done|]. by rewrite IH.
Qed.

(** What is left on a PE has the indices of elements of [l]. *)
Lemma yields_index P it l pe s G x R k : yields P it l -> 0 <= pe < P -> 0 <= s ->
  iranges (it pe) s (ilen (it pe)) = R -> R !! k = Some (G, x) -> 0 <= G < Z.of_nat (length l).
Proof.
  intros [Y1 Y2 Y3 Y4] Hpe Hs <- E. apply (indexed_elem l G x). rewrite <- Y4.
  apply list_elem_of_bind. exists pe. split; [|apply elem_of_seqZ; lia].
  rewrite (iranges_split (it pe) 0 s Hs), Z.add_0_l. apply elem_of_app. right. by eapply list_elem_of_lookup_2.
Qed.

Lemma short_tails P it l st pe : 0 < st -> yields P it l -> contiguous P it (Z.of_nat (length l)) ->
  tail_fits P it st (Z.of_nat (length l)) -> 0 <= pe < P -> short_tail (it pe) st.
Proof.
  intros Hst HY HC HT Hpe s G x R Hs E. set (n := Z.of_nat (length l)) in *.
  pose proof (yields_index P it l pe (s * st) G x _ 0 HY Hpe ltac:(nia) E eq_refl) as HG. fold n in HG.
  destruct (Z.lt_ge_cases ((n - 1) / st * st) G) as [Hlt|Hge]; [right; right; by apply (HT pe s G x)|].
  left. exists ((n - 1) / st). split; [done|]. apply (contiguous_reach P it n HC pe); [done|].
  pose proof (Z.mul_div_le (n - 1) st Hst). lia.
Qed.

Lemma yields_step P it l st : 1 <= st < 2 ^ 24 -> yields P it l ->
  contiguous P it (Z.of_nat (length l)) -> tail_fits P it st (Z.of_nat (length l)) ->
  (forall pe, 0 <= pe < P -> ilen (it pe) < 2 ^ 24) ->
  yields P (fun pe => iter_step_by (it pe) st) (step_list st l).
Proof.
  intros Hst HY HC HT Hlen. apply (yields_filter P it _ l _ (multiple st)); [done| |].
  - intros pe Hpe.
    assert (Hok : iok (iter_step_by (it pe) st)).
    { cbn. split_and!; try lia.
      - by apply HY.
      - by apply Hlen.
      - by apply HC.
      - apply (short_tails P it l); done || lia.
      - exists 0. rewrite (yields_fresh _ _ _ HY pe Hpe). split; [by intros k g x|by left]. }
    split_and!; [done| | |].
    + cbn. by rewrite (yields_fresh _ _ _ HY pe Hpe).
    + pose proof (ilaw_len (it pe) (yields_ok _ _ _ HY pe Hpe)). cbn.
      apply Z.lt_succ_r, Z.div_lt_upper_bound; nia.
    + by rewrite step_rest by done.
  - unfold indexed. rewrite (multiple_indexed st 0 0); [|lia|lia|by apply Z.mod_0_l; lia|lia].
    by rewrite Z.div_0_l by lia.
Qed.

(** *** Contiguous families stay contiguous *)

Lemma tail_fits_small P it l st : 0 < st -> yields P it l -> contiguous P it (Z.of_nat (length l)) ->
  (Z.of_nat (length l) - 1) mod st <= 1 -> tail_fits P it st (Z.of_nat (length l)).
Proof.
  intros Hst HY HC Hm pe s G x R Hpe Hs E Hlt. set (n := Z.of_nat (length l)) in *.
  destruct R as [|[g y] R]; [done|]. exfalso.
  pose proof (Z.div_mod (n - 1) st ltac:(lia)).
  destruct (numbered_from (it pe) (s * st) (contiguous_local P it n HC pe Hpe) ltac:(nia)) as [G' HG].
  rewrite E in HG. pose proof (HG 0%nat G x eq_refl). pose proof (HG 1%nat g y eq_refl).
  pose proof (yields_index P it l pe (s * st) g y _ 1 HY Hpe ltac:(nia) E eq_refl) as Hg. fold n in Hg. lia.
Qed.

Lemma numbered_shifted n G (R : list (Z * A)) : numbered G R -> exists G', numbered G' (omap (shifted n) R).
Proof.
  revert G. induction R as [|[g x] R IH]; intros G HG; [by exists 0|].
  destruct (numbered_cons _ _ _ _ HG) as [-> HR]. destruct (Z.lt_ge_cases G n) as [Hlt|Hge].
  - destruct (IH _ HR) as [G' HG']. exists G'. cbn -[omap]. 
    assert (E : omap (shifted n) ((G, x) :: R) = omap (shifted n) R) by (cbn; by rewrite shifted_none).
    by rewrite E.
  - exists (G - n). rewrite shifted_all.
    + intros k h y E. apply list_lookup_fmap_Some in E as ([h' y'] & [= -> ->] & E). apply HG in E. lia.
    + apply Forall_lookup. intros k [h y] E. apply HG in E. cbn. lia.
Qed.

Lemma numbered_below n G (R : list (Z * A)) : increasing R -> numbered G R -> numbered G (omap (below n) R).
Proof. intros HR HG k g x [E _]%below_lookup; [|done]. by eapply HG. Qed.

Lemma contiguous_skip P it l n : 0 <= n -> Z.of_nat (length l) <= 2 ^ 63 -> contiguous P it (Z.of_nat (length l)) ->
  contiguous P (fun pe => iter_skip (it pe) n)
    (Z.of_nat (length (drop (Z.to_nat n) l))).
Proof.
  intros Hn Hl [C1 C2]. rewrite length_drop. constructor.
  - intros pe Hpe. destruct (C1 pe Hpe) as [G HG]. destruct (numbered_shifted n G _ HG) as [G' HG'].
    exists G'. by rewrite (iranges_filter (shifted n) (it pe)).
  - intros pe B Hpe HB. cbn. split; [lia|]. apply C2; [done|lia].
Qed.

Lemma contiguous_take P it l n : yields P it l -> contiguous P it (Z.of_nat (length l)) ->
  contiguous P (fun pe => iter_take (it pe) n)
    (Z.of_nat (length (take (Z.to_nat n) l))).
Proof.
  intros HY [C1 C2]. rewrite length_take. constructor.
  - intros pe Hpe. destruct (C1 pe Hpe) as [G HG]. exists G.
    rewrite (iranges_filter (below n) (it pe)) by done. apply numbered_below; [|done].
    apply iranges_increasing. by apply HY.
  - intros pe B Hpe HB. cbn. split; [lia|]. apply C2; [done|lia].
Qed.

Lemma contiguous_enumerate P it l : contiguous P it (Z.of_nat (length l)) ->
  contiguous P (fun pe => iter_enumerate (it pe)) (Z.of_nat (length (indexed l))).
Proof.
  intros [C1 C2]. unfold indexed. rewrite length_indexed_from. constructor.
  - intros pe Hpe. destruct (C1 pe Hpe) as [G HG]. exists G. rewrite with_index_ranges.
    intros k g x E. apply list_lookup_fmap_Some in E as ([h y] & [= -> ->] & E). by eapply HG.
  - intros pe B Hpe HB. by apply C2.
Qed.

(** *** A schedule that consumes the iterator on every PE *)

(** A schedule that consumes an iterator completely: [Chunk] and [Guided] need one that has an
    element at every position. *)
Definition complete_schedule (sched : Schedule) (W : Z) (i : I) : Prop :=
  let total := forall p, 0 <= p < ilen i -> is_Some (ritems i p) in
  match sched with
  | Static | Dynamic | WorkStealing => True
  | Chunk c => 0 < c < 2 ^ 63 /\ total
  | Guided => W <= 2 ^ 24 /\ total
  end.

Lemma items_iranges (i : I) : iok i -> omap (items i) (seqZ 0 (local_len i)) = snd <$> iranges i 0 (ilen i).
Proof.
  intros Hok. pose proof (ilaw_len i Hok). unfold iranges. rewrite list_fmap_omap, Z.min_l, Z.min_id, Z.sub_0_r by lia.
  done.
Qed.

Lemma for_each_ranges (i : I) W sched : iok i -> ilen i <= 2 ^ 50 -> 0 < W < 2 ^ 31 -> complete_schedule sched W i ->
  exists s0, launch sched W (inum i) i = Done s0 /\ sn wstep s0 /\
    forall s', rtc wstep s0 s' -> nf wstep s' -> output s' ≡ₚ snd <$> iranges i 0 (ilen i).
Proof.
  intros Hok Hlen HW Hs. pose proof (ilaw_len i Hok). rewrite <- items_iranges by done.
  change (inum i) with (num_local i). apply launch_complete; [done|cbn; lia|done|].
  destruct sched as [| |c| |]; cbn in *; try done; (destruct Hs as [Hc Hp]; split; [done|]);
    intros p Hr; apply fmap_is_Some; by apply Hp.
Qed.

Lemma bind_perm {B C} (f g : B -> list C) ps : (forall p, p ∈ ps -> f p ≡ₚ g p) -> ps ≫= f ≡ₚ ps ≫= g.
Proof.
  induction ps as [|p ps IH]; intros Hfg; [done|]. rewrite !bind_cons, (Hfg p) by left.
  f_equiv. apply IH. intros q Hq. apply Hfg. by right.
Qed.

Lemma fmap_bind {B C D} (f : B -> list C) (g : C -> D) ps : g <$> (ps ≫= f) = ps ≫= fun p => g <$> f p.
Proof. induction ps as [|p ps IH]; [done|]. by rewrite !bind_cons, fmap_app, IH. Qed.

(** A finished [for_each] on PE [pe] has applied the closure to [out pe]. *)
Definition for_each_done (sched : Schedule) (W : Z) (i : I) (out : list A) : Prop :=
  exists s0 s', launch sched W (inum i) i = Done s0 /\ rtc wstep s0 s' /\ nf wstep s' /\ output s' = out.

(** On every PE, any execution ends, and together they apply the closure to the elements. *)
Lemma yields_for_each P it l W (sched : Z -> Schedule) :
  yields P it l -> 0 < W < 2 ^ 31 ->
  (forall pe, 0 <= pe < P -> complete_schedule (sched pe) W (it pe)) ->
  (forall pe, 0 <= pe < P -> exists s0, launch (sched pe) W (inum (it pe)) (it pe) = Done s0 /\ sn wstep s0) /\
  forall out, (forall pe, 0 <= pe < P -> for_each_done (sched pe) W (it pe) (out pe)) ->
    seqZ 0 P ≫= out ≡ₚ l.
Proof.
  intros HY HW Hs.
  assert (HL : forall pe, 0 <= pe < P -> exists s0, launch (sched pe) W (inum (it pe)) (it pe) = Done s0 /\
    sn wstep s0 /\ forall s', rtc wstep s0 s' -> nf wstep s' -> output s' ≡ₚ snd <$> iranges (it pe) 0 (ilen (it pe))).
  { intros pe Hpe. destruct HY as [Y1 Y2 Y3 Y4]. by apply for_each_ranges; auto. }
  split.
  - intros pe Hpe. destruct (HL pe Hpe) as (s0 & ? & ? & _). by exists s0.
  - intros out Hout. rewrite <- (snd_indexed 0 l). fold (indexed l). rewrite <- (yields_all _ _ _ HY), fmap_bind.
    apply bind_perm. intros pe Hpe%elem_of_seqZ.
    destruct (HL pe ltac:(lia)) as (s0 & E & _ & Hd). destruct (Hout pe ltac:(lia)) as (s0' & s' & E' & Hr & Hn & <-).
    rewrite E in E'. injection E' as <-. by apply Hd.
Qed.
End Families.

(** ** Arrays *)

(** The value of an operation that neither panics nor returns [None] where it is used. *)
Definition done_or {A} (d : A) (o : outcome A) : A := match o with Done x => x | Panic => d end.

Section Arrays.
Context {T : Type}.

(** What a distributed iterator over the array [a] uses of it on its PE: [mem] is the local
    part of the memory region, by element. *)
Definition array_view (a : UnsafeArrayInner) (mem : Z -> T) : ArrayView T :=
  {| view_local o := mem (done_or 0 (local_start_index a) + o);
     view_num := done_or 0 (num_elems_local a);
     view_index i := done_or None (launcher_subarray_index_from_local a i 1);
     view_len := size a |}.

(** [array.dist_iter()]: [DistIter::new(self.clone().into(), 0, 0)]. *)
Definition dist_iter (a : UnsafeArrayInner) (mem : Z -> T) : DistIter T := dist_iter_new (array_view a mem) 0 0.

(** The memories [mem pe] of the PEs hold the elements [l] of the array. *)
Definition holds (a : UnsafeArrayInner) (mem : Z -> Z -> T) (l : list T) : Prop :=
  Z.of_nat (length l) = size a /\
  forall i pe c, 0 <= i < size a -> cell a i = Done (Some (pe, c)) -> l !! Z.to_nat i = Some (mem pe c).

Context (N P : Z) (a : UnsafeArrayInner) (Hwf : layout_wf N P a).

Lemma view_num_eq pe mem : 0 <= pe < P -> view_num (array_view (at_pe a pe) mem) = count N P a pe.
Proof.
  intros Hpe. unfold array_view, num_elems_local. cbn [view_num].
  change (my_pe (data (at_pe a pe))) with pe.
  rewrite (num_elems_pe_eq N P) by (by apply at_pe_wf || done). cbn [done_or]. apply count_at_pe.
Qed.

Lemma view_index_eq pe mem o : 0 <= pe < P -> 0 <= o < count N P a pe ->
  view_index (array_view (at_pe a pe) mem) o = Some (index_of_local N P a pe o).
Proof.
  intros Hpe Ho. unfold array_view, launcher_subarray_index_from_local. cbn [view_index]. cbn [Z.eqb Pos.eqb].
  by rewrite (subarray_index_from_local_eq N P).
Qed.

(** The indices of a PE grow. *)
Lemma index_of_local_mono pe o o' : 0 <= o < o' -> index_of_local N P a pe o < index_of_local N P a pe o'.
Proof. intros Ho. pose proof (wf_P N P a Hwf). unfold index_of_local. destruct (distribution a); nia. Qed.

Lemma block_start_pos a' pe st : block_start N P a' pe = Some st -> 0 <= st.
Proof.
  unfold block_start. destruct (Z.leb_spec (offset a') (boundary N P pe)); repeat case_match; intros [= <-]; lia.
Qed.

Lemma view_index_end pe mem i : 0 <= pe < P -> size a <= i -> view_index (array_view (at_pe a pe) mem) i = None.
Proof.
  intros Hpe Hi. pose proof (at_pe_wf N P a pe Hwf Hpe) as Hwf'. pose proof Hwf as [].
  unfold array_view, launcher_subarray_index_from_local, subarray_index_from_local. cbn [view_index].
  cbn [Z.eqb Pos.eqb]. change (my_pe (data (at_pe a pe))) with pe.
  change (distribution (at_pe a pe)) with (distribution a). change (size (at_pe a pe)) with (size a).
  destruct (distribution a) eqn:D.
  - rewrite (start_index_for_pe_block N P (at_pe a pe)) by (done || lia).
    destruct (block_start N P (at_pe a pe) pe) as [st|] eqn:Es; [|done]. cbn.
    assert (0 <= st) by (eapply block_start_pos; exact Es).
    unfold uadd. destruct (Z.ltb_spec (st + i) USIZE); [|done]. by rewrite (proj2 (Z.ltb_ge _ _)) by lia.
  - rewrite (start_index_for_pe_cyclic N P (at_pe a pe)) by done.
    case_match; [|done]. cbn. unfold num_elems_local. change (my_pe (data (at_pe a pe))) with pe.
    rewrite (num_elems_pe_eq N P) by done. rewrite count_at_pe.
    pose proof (count_bound N P a pe Hwf Hpe). by rewrite (proj2 (Z.ltb_ge _ _)) by lia.
Qed.

Lemma array_view_ok pe mem : 0 <= pe < P -> view_ok (array_view (at_pe a pe) mem).
Proof.
  intros Hpe. pose proof Hwf as []. pose proof (count_bound N P a pe Hwf Hpe).
  constructor; rewrite ?view_num_eq by done; cbn [view_len array_view]; change (size (at_pe a pe)) with (size a).
  - done.
  - lia.
  - intros i Hi. exists (index_of_local N P a pe i). split; [by apply view_index_eq|].
    by apply index_of_local_spec.
  - intros i j g h Hij Hj. rewrite !view_index_eq by (done || lia). intros [= <-] [= <-].
    by apply index_of_local_mono.
  - intros i Hi. by apply view_index_end.
Qed.

(** The elements of a PE, with their indices. *)
Lemma array_ranges pe mem : 0 <= pe < P ->
  iranges (dist_iter (at_pe a pe) mem) 0 (ilen (dist_iter (at_pe a pe) mem))
    = (fun o => (index_of_local N P a pe o, view_local (array_view (at_pe a pe) mem) o)) <$> seqZ 0 (count N P a pe).
Proof.
  intros Hpe. pose proof (count_bound N P a pe Hwf Hpe). unfold iranges, dist_iter. cbn -[array_view].
  rewrite !view_num_eq by done. rewrite Z.min_l, Z.min_id, Z.sub_0_r by lia.
  apply omap_all, Forall_forall. intros o Ho%elem_of_seqZ.
  unfold view_item. rewrite view_num_eq, view_index_eq by (done || lia).
  by rewrite (proj2 (Z.leb_le _ _)), (proj2 (Z.ltb_lt _ _)) by lia.
Qed.

(** Every index is that of one local element of one PE. *)
Lemma all_indices : (seqZ 0 P ≫= fun pe => index_of_local N P a pe <$> seqZ 0 (count N P a pe)) ≡ₚ seqZ 0 (size a).
Proof.
  pose proof Hwf as []. apply NoDup_Permutation.
  - apply NoDup_bind.
    + intros pe pe' i Hpe%elem_of_seqZ Hpe'%elem_of_seqZ (o & -> & Ho%elem_of_seqZ)%list_elem_of_fmap
        (o' & E & Ho'%elem_of_seqZ)%list_elem_of_fmap.
      destruct (index_of_local_spec N P a pe o Hwf ltac:(lia) ltac:(lia)) as (_ & <- & _).
      destruct (index_of_local_spec N P a pe' o' Hwf ltac:(lia) ltac:(lia)) as (_ & <- & _). by rewrite E.
    + intros pe Hpe%elem_of_seqZ. apply NoDup_fmap_2_strong; [|apply NoDup_seqZ].
      intros o o' Ho%elem_of_seqZ Ho'%elem_of_seqZ E.
      destruct (index_of_local_spec N P a pe o Hwf ltac:(lia) ltac:(lia)) as (_ & _ & <-).
      destruct (index_of_local_spec N P a pe o' Hwf ltac:(lia) ltac:(lia)) as (_ & _ & <-). by rewrite E.
    + apply NoDup_seqZ.
  - apply NoDup_seqZ.
  - intros i. rewrite elem_of_seqZ, list_elem_of_bind. split.
    + intros (pe & (o & -> & Ho%elem_of_seqZ)%list_elem_of_fmap & Hpe%elem_of_seqZ).
      destruct (index_of_local_spec N P a pe o Hwf ltac:(lia) ltac:(lia)). lia.
    + intros Hi. exists (owner N P a (offset a + i)).
      pose proof (owner_bound N P a (offset a + i) Hwf ltac:(lia)).
      pose proof (local_offset_bound N P a i Hwf ltac:(lia)).
      split; [|apply elem_of_seqZ; lia]. apply list_elem_of_fmap. exists (local_offset N P a i).
      split; [by rewrite index_of_local_owner by (done || lia)|apply elem_of_seqZ; lia].
Qed.

Definition lookup_index (l : list T) (i : Z) : option (Z * T) := pair i <$> l !! Z.to_nat i.

Lemma indexed_lookups_from (l l' : list T) k : drop k l = l' ->
  omap (lookup_index l) (seqZ (Z.of_nat k) (Z.of_nat (length l'))) = indexed_from (Z.of_nat k) l'.
Proof.
  revert k. induction l' as [|x l' IH]; intros k E; [by rewrite seqZ_nil by (cbn; lia)|].
  cbn [length indexed_from]. rewrite seqZ_cons by lia. rewrite <- Nat2Z.inj_succ.
  replace (Z.pred (Z.of_nat (S (length l')))) with (Z.of_nat (length l')) by lia.
  assert (Ek : l !! k = Some x) by (by rewrite <- (Nat.add_0_r k), <- lookup_drop, E).
  assert (El : lookup_index l (Z.of_nat k) = Some (Z.of_nat k, x)) by (unfold lookup_index; by rewrite Nat2Z.id, Ek).
  cbn -[seqZ]. rewrite El. f_equal. rewrite (IH (S k)) by (by rewrite <- Nat.add_1_r, <- drop_drop, E). f_equal; lia.
Qed.

Lemma indexed_lookups (l : list T) : omap (lookup_index l) (seqZ 0 (Z.of_nat (length l))) = indexed l.
Proof. exact (indexed_lookups_from l l 0 eq_refl). Qed.

(** A local element is the element of the array with its index. *)
Lemma local_element mem l pe o : holds a mem l -> 0 <= pe < P -> 0 <= o < count N P a pe ->
  l !! Z.to_nat (index_of_local N P a pe o) = Some (view_local (array_view (at_pe a pe) (mem pe)) o).
Proof.
  intros [Hl Hm] Hpe Ho. destruct (index_of_local_spec N P a pe o Hwf Hpe Ho) as (Hi & Eo & El).
  pose proof (local_start_index_eq N P a (index_of_local N P a pe o) Hwf Hi) as Es. cbn zeta in Es. rewrite Eo, El in Es.
  cbn [view_local array_view]. rewrite Es. cbn [done_or]. apply Hm; [done|].
  unfold cell. rewrite (pe_and_offset_eq N P) by done. rewrite Eo, El. by rewrite Es.
Qed.

Lemma array_lookups mem l pe : holds a mem l -> 0 <= pe < P ->
  iranges (dist_iter (at_pe a pe) (mem pe)) 0 (ilen (dist_iter (at_pe a pe) (mem pe)))
    = omap (lookup_index l) (index_of_local N P a pe <$> seqZ 0 (count N P a pe)).
Proof.
  intros Hm Hpe. rewrite array_ranges by done. rewrite omap_after_fmap.
  rewrite (omap_all _ (fun o => (index_of_local N P a pe o, view_local (array_view (at_pe a pe) (mem pe)) o))); [done|].
  apply Forall_forall. intros o Ho%elem_of_seqZ. cbn. unfold lookup_index.
  by rewrite (local_element mem l) by (done || lia).
Qed.

(** A block array is in the order of the PEs. *)
Lemma block_indices n : distribution a = Block -> 0 <= n <= P ->
  (seqZ 0 n ≫= fun pe => index_of_local N P a pe <$> seqZ 0 (count N P a pe))
    = seqZ 0 (Z.max 0 (Z.min (boundary N P n) (offset a + size a) - offset a)).
Proof.
  intros D [Hn HnP]. pose proof Hwf as []. revert HnP. pattern n. apply natlike_ind; [|clear n Hn; intros n Hn IH|done]; intros HnP.
  - rewrite (boundary_0 N P), !seqZ_nil by lia. done.
  - replace (Z.succ n) with (n + 1) by lia. rewrite seqZ_app by lia. rewrite bind_app, IH by lia.
    rewrite (seqZ_cons (0 + n)), (seqZ_nil (Z.succ (0 + n)) (Z.pred 1)) by lia.
    rewrite bind_cons. cbn [mbind list_bind]. rewrite app_nil_r, Z.add_0_l.
    pose proof (bnd_succ N P a Hwf n ltac:(lia)) as Hb.
    unfold index_of_local, count, block_count. rewrite D. revert Hb.
    generalize (boundary N P n) (boundary N P (n + 1)). intros b b' Hb.
    assert (Ef : (fun o => Z.max b (offset a) - offset a + o) <$> seqZ 0 (Z.max 0 (Z.min b' (offset a + size a) - Z.max b (offset a)))
      = seqZ (Z.max b (offset a) - offset a) (Z.max 0 (Z.min b' (offset a + size a) - Z.max b (offset a)))).
    { rewrite (fmap_add_seqZ (Z.max b (offset a) - offset a) 0). f_equal. lia. }
    rewrite Ef. clear Ef. set (lo := Z.max 0 (Z.min b (offset a + size a) - offset a)).
    destruct (Z.le_gt_cases (Z.min b' (offset a + size a)) (Z.max b (offset a))) as [E|E].
    + rewrite (seqZ_nil _ (Z.max 0 _)), app_nil_r by lia. f_equal. lia.
    + replace (Z.max b (offset a) - offset a) with (0 + lo) by lia. rewrite <- seqZ_app by lia. f_equal. lia.
Qed.

Lemma block_ranges mem l : distribution a = Block -> holds a mem l ->
  (seqZ 0 P ≫= fun pe => iranges (dist_iter (at_pe a pe) (mem pe)) 0 (ilen (dist_iter (at_pe a pe) (mem pe)))) = indexed l.
Proof.
  intros D Hm. pose proof Hwf as []. rewrite (bind_seqZ_ext _ (fun pe => omap (lookup_index l) (index_of_local N P a pe <$> seqZ 0 (count N P a pe)))).
  - rewrite bind_omap, block_indices by (done || lia). rewrite <- indexed_lookups, (proj1 Hm). do 2 f_equal.
    rewrite (bnd_last N P a Hwf). lia.
  - intros pe Hpe. by apply array_lookups.
Qed.

(** [dist_iter()] on every PE yields the array. *)
Lemma yields_array mem l : holds a mem l -> yields P (fun pe => dist_iter (at_pe a pe) (mem pe)) l.
Proof.
  intros Hm. pose proof Hwf as []. constructor.
  - intros pe Hpe. pose proof (array_view_ok pe (mem pe) Hpe) as Hv. pose proof (view_num_pos _ Hv).
    split; [done|]. cbn -[array_view]. lia.
  - done.
  - intros pe Hpe. cbn -[array_view]. rewrite view_num_eq by done. pose proof (count_bound N P a pe Hwf Hpe). lia.
  - rewrite <- indexed_lookups, (proj1 Hm), <- all_indices, <- bind_omap. apply bind_perm.
    intros pe Hpe%elem_of_seqZ. by rewrite (array_lookups mem l) by (done || lia).
Qed.

(** The parts of a block array are contiguous. *)
Lemma contiguous_array mem : distribution a = Block ->
  contiguous P (fun pe => dist_iter (at_pe a pe) (mem pe)) (size a).
Proof.
  intros D. pose proof Hwf as []. constructor.
  - intros pe Hpe. exists (index_of_local N P a pe 0). rewrite array_ranges by done.
    intros k g x E. apply list_lookup_fmap_Some in E as (o & [= -> ->] & E).
    apply lookup_seqZ in E as [-> _]. unfold index_of_local. rewrite D. lia.
  - intros pe B Hpe HB g i. cbn -[Z.add]. unfold launcher_subarray_index_from_local, subarray_index_from_local.
    cbn [Z.eqb Pos.eqb]. change (my_pe (data (at_pe a pe))) with pe.
    change (distribution (at_pe a pe)) with (distribution a). change (size (at_pe a pe)) with (size a). rewrite D.
    rewrite (start_index_for_pe_block N P (at_pe a pe)) by (done || lia || by apply at_pe_wf).
    destruct (block_start N P (at_pe a pe) pe) as [st|]; [|done]. cbn -[uadd].
    unfold uadd at 1. rewrite Z.add_0_r. destruct (Z.ltb_spec st USIZE); [|done]. cbn -[uadd].
    destruct (Z.ltb_spec st (size a)); [|done]. intros [= <-] Hi Hlt. rewrite uadd_ok by lia. cbn.
    by rewrite (proj2 (Z.ltb_lt _ _)) by lia.
Qed.
End Arrays.

(** ** Executions of a single worker *)

Section Single.
Context {I A : Type} `{DistributedIterator I A, IndexedDistributedIterator I, !IndexedSpec I A}.

Fixpoint run_single (fuel : nat) (s : St I A) : option (St I A) :=
  match workers s with
  | [Idle] => Some s
  | [w] => match fuel with O => None | S fuel => run_single fuel (step_at s 0 0 w) end
  | _ => None
  end.

Definition for_each_single (fuel : nat) (sched : Schedule) (it : I) : option (list A) :=
  match launch sched 1 (inum it) it with
  | Done s0 => output <$> run_single fuel s0
  | Panic => None
  end.

Lemma idle_final (s : St I A) : workers s = [Idle] -> nf wstep s.
Proof.
  intros Ew [s' Hs]. inversion Hs as [t i v w Hi Hne Hv]. subst. rewrite Ew in Hi.
  destruct i as [|i]; [by injection Hi as <-|done].
Qed.

Lemma run_single_run fuel s s' : run_single fuel s = Some s' -> rtc wstep s s' /\ nf wstep s'.
Proof.
  revert s. induction fuel as [|fuel IH]; intros s; cbn.
  - destruct (workers s) as [|[] []] eqn:Ew; try done. intros [= <-]. split; [apply rtc_refl|by apply idle_final].
  - destruct (workers s) as [|w [|w' ws]] eqn:Ew; [done| |by destruct w].
    assert (Hstep : w <> Idle -> run_single fuel (step_at s 0 0 w) = Some s' -> rtc wstep s s' /\ nf wstep s').
    { intros Hw [Hr Hn]%IH. split; [|done]. eapply rtc_l; [|done]. apply wstep_at; [by rewrite Ew|done|rewrite Ew; cbn; lia]. }
    destruct w; try by apply Hstep. intros [= <-]. split; [apply rtc_refl|by apply idle_final].
Qed.

Lemma for_each_single_done fuel sched it out :
  for_each_single fuel sched it = Some out -> for_each_done sched 1 it out.
Proof.
  unfold for_each_single. destruct (launch sched 1 (inum it) it) as [s0|] eqn:E; [|done].
  intros (s' & [Hr Hn]%run_single_run & ->)%fmap_Some. by exists s0, s'.
Qed.
End Single.

(** ** Properties *)

Section Chains.
Context {T : Type} (N P : Z) (a : UnsafeArrayInner) (Hwf : layout_wf N P a).
Context (mem : Z -> Z -> T) (l : list T) (Hm : holds a mem l).

(** [array.dist_iter().enumerate().skip(n).take(m)] *)
Definition enumerate_skip_take (n m pe : Z) : Take (Skip (Enumerate (DistIter T))) :=
  iter_take (iter_skip (iter_enumerate (dist_iter (at_pe a pe) (mem pe))) n) m.

(** [array.dist_iter().enumerate().skip(n).step_by(st).take(m)] *)
Definition enumerate_skip_step_take (n st m pe : Z) : Take (StepBy (Skip (Enumerate (DistIter T)))) :=
  iter_take (iter_step_by (iter_skip (iter_enumerate (dist_iter (at_pe a pe) (mem pe))) n) st) m.

Lemma yields_skip_take n m : 0 <= n < 2 ^ 63 ->
  yields P (enumerate_skip_take n m) (take (Z.to_nat m) (drop (Z.to_nat n) (indexed l))).
Proof.
  intros Hn. apply (yields_take P (fun pe => iter_skip (iter_enumerate (dist_iter (at_pe a pe) (mem pe))) n)).
  apply (yields_skip P (fun pe => iter_enumerate (dist_iter (at_pe a pe) (mem pe)))); [done|].
  apply yields_enumerate. by apply (yields_array N).
Qed.

Lemma yields_skip_step_take n st m : distribution a = Block -> 0 <= n < 2 ^ 63 -> 1 <= st < 2 ^ 24 ->
  size a < 2 ^ 24 -> (n < size a -> (size a - n - 1) mod st <= 1) ->
  yields P (enumerate_skip_step_take n st m) (take (Z.to_nat m) (step_list st (drop (Z.to_nat n) (indexed l)))).
Proof.
  intros D Hn Hst Hsz Hmod. pose proof Hwf as []. pose proof (proj1 Hm) as Hl.
  set (F0 pe := iter_enumerate (dist_iter (at_pe a pe) (mem pe))). set (F1 pe := iter_skip (F0 pe) n).
  assert (Hlen : length (indexed l) = length l) by apply length_indexed_from.
  assert (Y0 : yields P F0 (indexed l)) by (apply yields_enumerate; by apply (yields_array N)).
  assert (C0 : contiguous P F0 (Z.of_nat (length (indexed l)))).
  { apply contiguous_enumerate. rewrite Hl. by apply (contiguous_array N). }
  assert (Y1 : yields P F1 (drop (Z.to_nat n) (indexed l))) by (by apply yields_skip).
  assert (C1 : contiguous P F1 (Z.of_nat (length (drop (Z.to_nat n) (indexed l))))) by (apply contiguous_skip; [lia|lia|done]).
  apply (yields_take P (fun pe => iter_step_by (F1 pe) st)). apply (yields_step P F1); try done.
  - destruct (Z.lt_ge_cases n (size a)) as [Hlt|Hge].
    + apply tail_fits_small; [lia|done|done|]. rewrite length_drop, Hlen.
      replace (Z.of_nat (length l - Z.to_nat n) - 1) with (size a - n - 1) by lia. by apply Hmod.
    + intros pe s G x R Hpe Hs E _. exfalso.
      pose proof (yields_index P F1 _ pe (s * st) G x _ 0 Y1 Hpe ltac:(nia) E eq_refl) as HG.
      rewrite length_drop, Hlen in HG. lia.
  - intros pe Hpe. cbn -[array_view]. rewrite (view_num_eq N P) by done. pose proof (count_bound N P a pe Hwf Hpe). lia.
Qed.
End Chains.

(** C35: on every PE, [array.dist_iter().enumerate().skip(n).take(m)] with [for_each] does what
    the sequential iterator does.  For a block or cyclic (sub)array whose elements are [l], with
    any of the schedules [Static], [Dynamic] and [WorkStealing] on each PE ([Chunk] and [Guided]
    can leave out elements after a [skip], see [chunk_skip_misses]), any number of threads (below
    2^31) and any interleaving of their steps: every execution ends, and the PEs together apply
    the closure to exactly the elements [n], ..., [n + m - 1] of the array, each once and paired
    with its index in the array. *)
Theorem enumerate_skip_take_global {T} (N P : Z) (a : UnsafeArrayInner) (mem : Z -> Z -> T) (l : list T)
    (n m W : Z) (sched : Z -> Schedule) :
  layout_wf N P a -> holds a mem l -> 0 <= n < 2 ^ 63 -> 0 < W < 2 ^ 31 ->
  (forall pe, 0 <= pe < P -> sched pe = Static \/ sched pe = Dynamic \/ sched pe = WorkStealing) ->
  let it := enumerate_skip_take a mem n m in
  (forall pe, 0 <= pe < P -> exists s0, launch (sched pe) W (count N P a pe) (it pe) = Done s0 /\ sn wstep s0) /\
  forall out, (forall pe, 0 <= pe < P -> for_each_done (sched pe) W (it pe) (out pe)) ->
    seqZ 0 P ≫= out ≡ₚ take (Z.to_nat m) (drop (Z.to_nat n) (indexed l)).
Proof.
  intros Hwf Hm Hn HW Hs it.
  destruct (yields_for_each P it _ W sched (yields_skip_take N P a Hwf mem l Hm n m Hn) HW) as [H1 H2].
  { intros pe Hpe. by destruct (Hs pe Hpe) as [-> | [-> | ->]]. }
  split; [|done]. intros pe Hpe. rewrite <- (view_num_eq N P a Hwf pe (mem pe)) by done. by apply H1.
Qed.

(** The value of element [i] of [ex_block] is [100 + i]. *)
Definition ex_mem (pe c : Z) : Z := 100 + nth (Z.to_nat pe) [0; 3; 5; 8] 0 + c.

Lemma ex_holds : holds ex_block ex_mem [100; 101; 102; 103; 104; 105; 106; 107; 108; 109].
Proof.
  split; [done|]. intros i pe c Hi. cbn in Hi.
  assert (E : i = 0 \/ i = 1 \/ i = 2 \/ i = 3 \/ i = 4 \/ i = 5 \/ i = 6 \/ i = 7 \/ i = 8 \/ i = 9) by lia.
  repeat (destruct E as [->|E]; [vm_compute; intros [= <- <-]; reflexivity|]). subst i.
  vm_compute. by intros [= <- <-].
Qed.

(** What each PE gets, with one thread. *)
Definition ex_out (pe : Z) : list (Z * Z) :=
  if pe =? 0 then [(2, 102)] else if pe =? 1 then [(3, 103); (4, 104)] else [].

Lemma four_pes pe : 0 <= pe < 4 -> pe = 0 \/ pe = 1 \/ pe = 2 \/ pe = 3.
Proof. lia. Qed.

Lemma ex_out_done pe : 0 <= pe < 4 -> for_each_done Dynamic 1 (enumerate_skip_take ex_block ex_mem 2 3 pe) (ex_out pe).
Proof.
  intros [-> | [-> | [-> | ->]]]%four_pes; apply (for_each_single_done 9); vm_compute; reflexivity.
Qed.

Lemma enumerate_skip_take_global_witness :
  seqZ 0 4 ≫= ex_out ≡ₚ [(2, 102); (3, 103); (4, 104)].
Proof.
  refine (proj2 (enumerate_skip_take_global 10 4 ex_block ex_mem _ 2 3 1 (fun _ => Dynamic)
    ex_block_wf ex_holds _ _ _) ex_out ex_out_done); [lia|lia|]. by right; left.
Defined.

(** C36: so does [array.dist_iter().enumerate().skip(n).step_by(st).take(m)], with any of the
    schedules [Static], [Dynamic] and [WorkStealing] on each PE, on a block array of fewer than
    2^24 elements with a step below 2^24 (the number of positions comes from a division in
    single precision), if at most one element is left after the last one that [step_by]
    keeps (see the next theorem for what happens otherwise). *)
Theorem step_by_global {T} (N P : Z) (a : UnsafeArrayInner) (mem : Z -> Z -> T) (l : list T)
    (n st m W : Z) (sched : Z -> Schedule) :
  layout_wf N P a -> distribution a = Block -> holds a mem l -> size a < 2 ^ 24 ->
  0 <= n < 2 ^ 63 -> 1 <= st < 2 ^ 24 -> (n < size a -> (size a - n - 1) mod st <= 1) -> 0 < W < 2 ^ 31 ->
  (forall pe, 0 <= pe < P -> sched pe = Static \/ sched pe = Dynamic \/ sched pe = WorkStealing) ->
  let it := enumerate_skip_step_take a mem n st m in
  (forall pe, 0 <= pe < P -> exists s0, launch (sched pe) W (count N P a pe) (it pe) = Done s0 /\ sn wstep s0) /\
  forall out, (forall pe, 0 <= pe < P -> for_each_done (sched pe) W (it pe) (out pe)) ->
    seqZ 0 P ≫= out ≡ₚ take (Z.to_nat m) (step_list st (drop (Z.to_nat n) (indexed l))).
Proof.
  intros Hwf D Hm Hsz Hn Hst Hmod HW Hs it.
  destruct (yields_for_each P it _ W sched (yields_skip_step_take N P a Hwf mem l Hm n st m D Hn Hst Hsz Hmod) HW)
    as [H1 H2].
  { intros pe Hpe. by destruct (Hs pe Hpe) as [-> | [-> | ->]]. }
  split; [|done]. intros pe Hpe. rewrite <- (view_num_eq N P a Hwf pe (mem pe)) by done. by apply H1.
Qed.

Definition ex_steps (pe : Z) : list (Z * Z) :=
  if pe =? 0 then [(1, 101)] else if pe =? 2 then [(5, 105)] else if pe =? 3 then [(9, 109)] else [].

Lemma ex_steps_done pe : 0 <= pe < 4 ->
  for_each_done Static 1 (enumerate_skip_step_take ex_block ex_mem 1 4 3 pe) (ex_steps pe).
Proof.
  intros [-> | [-> | [-> | ->]]]%four_pes; apply (for_each_single_done 9); vm_compute; reflexivity.
Qed.

Lemma step_by_global_witness : seqZ 0 4 ≫= ex_steps ≡ₚ [(1, 101); (5, 105); (9, 109)].
Proof.
  refine (proj2 (step_by_global 10 4 ex_block ex_mem _ 1 4 3 1 (fun _ => Static)
    ex_block_wf eq_refl ex_holds _ _ _ _ _ _) ex_steps ex_steps_done);
    [cbn; lia|lia|lia|intros _; vm_compute; discriminate|lia|]. by left.
Defined.

(** [step_by] yields a wrong element when more than one element is left after the last
    multiple: where [init] finds no multiple it advances by [cnt], which counts steps, not
    elements.  With 9 elements on 3 PEs and [step_by(5)], the last PE yields element 7, which
    the sequential iterator, over all the elements, does not. *)
Definition nine : UnsafeArrayInner :=
  {| data := {| mem_len := 24; my_pe := 0; num_pes := 3 |}; distribution := Block;
     orig_elem_per_pe := elem_per_pe 9 3; elem_size := 8; offset := 0; size := 9 |}.

Theorem step_by_extra_element :
  let mem (pe c : Z) := 3 * pe + c in
  holds nine mem [0; 1; 2; 3; 4; 5; 6; 7; 8] /\ step_list 5 [0; 1; 2; 3; 4; 5; 6; 7; 8] = [0; 5] /\
  for_each_done Static 1 (iter_step_by (dist_iter (at_pe nine 2) (mem 2)) 5) [7].
Proof.
  cbn zeta. split_and!.
  - split; [done|]. intros i pe c Hi. cbn in Hi.
    assert (E : i = 0 \/ i = 1 \/ i = 2 \/ i = 3 \/ i = 4 \/ i = 5 \/ i = 6 \/ i = 7 \/ i = 8) by lia.
    repeat (destruct E as [->|E]; [vm_compute; intros [= <- <-]; reflexivity|]). subst i.
    vm_compute. by intros [= <- <-].
  - reflexivity.
  - apply (for_each_single_done 9). vm_compute. reflexivity.
Qed.

(** [step_by] counts local positions, so with a cyclic array it keeps other elements than the
    sequential iterator: of 8 elements on 2 PEs, [step_by(2)] applies the closure to 0, 4 and 5
    instead of 0, 2, 4 and 6. *)
Definition eight : UnsafeArrayInner :=
  {| data := {| mem_len := 32; my_pe := 0; num_pes := 2 |}; distribution := Cyclic;
     orig_elem_per_pe := elem_per_pe 8 2; elem_size := 8; offset := 0; size := 8 |}.

Theorem step_by_cyclic_wrong :
  let mem (pe c : Z) := 2 * c + pe in
  holds eight mem [0; 1; 2; 3; 4; 5; 6; 7] /\ step_list 2 [0; 1; 2; 3; 4; 5; 6; 7] = [0; 2; 4; 6] /\
  for_each_done Static 1 (iter_step_by (dist_iter (at_pe eight 0) (mem 0)) 2) [0; 4] /\
  for_each_done Static 1 (iter_step_by (dist_iter (at_pe eight 1) (mem 1)) 2) [5].
Proof.
  cbn zeta. split_and!.
  - split; [done|]. intros i pe c Hi. cbn in Hi.
    assert (E : i = 0 \/ i = 1 \/ i = 2 \/ i = 3 \/ i = 4 \/ i = 5 \/ i = 6 \/ i = 7) by lia.
    repeat (destruct E as [->|E]; [vm_compute; intros [= <- <-]; reflexivity|]). subst i.
    vm_compute. by intros [= <- <-].
  - reflexivity.
  - apply (for_each_single_done 9). vm_compute. reflexivity.
  - apply (for_each_single_done 9). vm_compute. reflexivity.
Qed.

(** With [Schedule::Chunk], [skip] can lose elements: the worker whose chunk is skipped
    finishes although chunks are left. *)
Theorem chunk_skip_misses :
  let it := dist_iter (at_pe nine 1) (fun c => 3 + c) in
  content (it_init (iter_skip it 5) 0 3) = [5] /\
  for_each_done (Chunk 1) 1 (iter_skip it 5) [].
Proof.
  cbn zeta. split; [vm_compute; reflexivity|]. apply (for_each_single_done 9). vm_compute. reflexivity.
Qed.

(** [step_by] computes the number of its steps in single precision, which loses the last of
    2^24 + 1 elements. *)
Theorem step_by_loses_last {T} (it : DistIter T) : step_elems (iter_step_by it 1) (2 ^ 24 + 1) = 2 ^ 24.
Proof. cbn [step_elems iter_step_by step_iter step_size it_elems dist_iter_distributed]. vm_compute. reflexivity. Qed.
