(* ===== verification/LocalIterators.v ===== *)
(** * LocalIterators: parallel iteration over the local elements of a PE

    Models [LocalIter] of [src/array/iterator/local_iterator.rs] and the adapters of
    [src/array/iterator/local_iterator/] that differ from the distributed ones: [Skip],
    [StepBy], [Take], [Zip] and [Chunks].  The traits [LocalIterator] and
    [IndexedLocalIterator] have the operations of [DistributedIterator] and
    [IndexedDistributedIterator], so they are the same classes here, and [Map], [Filter],
    [FilterMap], [Enumerate] and [Monotonic] have the same code as in [Iterators],
    [IndexedIterators] and [Consumers].  The schedules are those of [Schedule]. *)

From stdpp Require Import base list numbers relations.
From Stdlib Require Import ZArith QArith Lia.
From S2P Require Import Prelude F64 BlockBounds Iterators IndexedIterators ScheduleRanges Schedule Distribution GlobalIter.
Local Open Scope Z_scope.

(** ** [LocalIter] *)

(** [LocalIter] is [DistIter] but for [iterator_index]: every position below [data.len()] is
    its own index. *)
Definition local_view {T} (a : UnsafeArrayInner) (mem : Z -> T) : ArrayView T :=
  {| view_local o := mem (done_or 0 (local_start_index a) + o);
     view_num := done_or 0 (num_elems_local a);
     view_index i := if i <? Distribution.size a then Some i else None;
     view_len := Distribution.size a |}.

(** [array.local_iter()]: [LocalIter::new(self.clone().into(), 0, 0)]. *)
Definition local_iter {T} (a : UnsafeArrayInner) (mem : Z -> T) : DistIter T :=
  dist_iter_new (local_view a mem) 0 0.

(** ** The adapters *)

Record LSkip (I : Type) := { lskip_iter : I; lskip_count : Z; skip_offset : Z }.
Arguments lskip_iter {I}. Arguments lskip_count {I}. Arguments skip_offset {I}.
Record LStepBy (I : Type) := { lstep_iter : I; lstep_size : Z; lstep_add : Z }.
Arguments lstep_iter {I}. Arguments lstep_size {I}. Arguments lstep_add {I}.
Record LTake (I : Type) := { ltake_iter : I; ltake_count : Z }.
Arguments ltake_iter {I}. Arguments ltake_count {I}.
Record Zip (I J : Type) := { zip_a : I; zip_b : J }.
Arguments zip_a {I J}. Arguments zip_b {I J}.
Record Chunks (I : Type) := { chunks_iter : I; chunks_cur : Z; chunks_end : Z; chunk_size : Z }.
Arguments chunks_iter {I}. Arguments chunks_cur {I}. Arguments chunks_end {I}. Arguments chunk_size {I}.

Section Adapters.
Context {I A : Type} `{DistributedIterator I A, IndexedDistributedIterator I}.

(** *** [Skip] *)

Definition local_skip_init (it : LSkip I) (in_start_i in_cnt : Z) : LSkip I :=
  let iter := it_init (lskip_iter it) in_start_i in_cnt in
  let start_i := Z.max in_start_i (lskip_count it) in
  let advance := Z.min (start_i - in_start_i) in_cnt in
  {| lskip_iter := it_advance iter advance; lskip_count := lskip_count it; skip_offset := advance |}.

Definition local_skip_next (it : LSkip I) : option A * LSkip I :=
  let '(val, iter) := it_next (lskip_iter it) in
  (val, {| lskip_iter := iter; lskip_count := lskip_count it; skip_offset := skip_offset it |}).

(** [max(0, in_elems - skip_count)]: the difference of two [usize]; it wraps around without
    overflow checks, and panics with them. *)
Definition local_skip_elems (it : LSkip I) (in_elems : Z) : Z :=
  Z.max 0 (wsub (it_elems (lskip_iter it) in_elems) (lskip_count it)).

Definition local_skip_advance (it : LSkip I) (count : Z) : LSkip I :=
  {| lskip_iter := it_advance (lskip_iter it) count; lskip_count := lskip_count it; skip_offset := skip_offset it |}.

#[export] Instance local_skip_iterator : DistributedIterator (LSkip I) A := {
  it_init := local_skip_init;
  it_next := local_skip_next;
  it_elems := local_skip_elems;
  it_advance := local_skip_advance;
  it_fuel it := it_fuel (lskip_iter it);
}.

Definition local_skip_index (it : LSkip I) (index : Z) : option Z :=
  match it_index (lskip_iter it) (index + skip_offset it) with
  | Some i => let i := as_isize i - as_isize (lskip_count it) in if 0 <=? i then Some i else None
  | None => None
  end.

#[export] Instance local_skip_indexed : IndexedDistributedIterator (LSkip I) := {
  it_index := local_skip_index;
  it_bound it := it_bound (lskip_iter it);
}.

(** *** [StepBy] *)

Definition local_step_init (it : LStepBy I) (in_start_i cnt : Z) : LStepBy I :=
  let st := lstep_size it in
  let iter := it_init (lstep_iter it) (in_start_i * st) (cnt * st) in
  match it_index iter (in_start_i * st) with
  | Some iterator_index =>
      let '(found, offset_index) :=
        step_loop (S (it_bound iter)) iter st (in_start_i * st) 0 iterator_index in
      if found : bool
      then {| lstep_iter := it_advance iter offset_index; lstep_size := st;
              lstep_add := if 0 <? offset_index then 1 else 0 |}
      else {| lstep_iter := it_advance iter cnt; lstep_size := st; lstep_add := 1 |}
  | None => {| lstep_iter := it_advance iter cnt; lstep_size := st; lstep_add := 0 |}
  end.

Definition local_step_next (it : LStepBy I) : option A * LStepBy I :=
  let '(res, iter) := it_next (lstep_iter it) in
  (res, {| lstep_iter := it_advance iter (lstep_size it - 1); lstep_size := lstep_size it;
           lstep_add := lstep_add it |}).

(** [(in_elems as f32 / self.step_size as f32).ceil() as usize] *)
Definition local_step_elems (it : LStepBy I) (in_elems : Z) : Z :=
  as_usize (f32_ceil (f32_div (f32_of_usize (it_elems (lstep_iter it) in_elems)) (f32_of_usize (lstep_size it)))).

(** The count is not multiplied by the step size. *)
Definition local_step_advance (it : LStepBy I) (count : Z) : LStepBy I :=
  {| lstep_iter := it_advance (lstep_iter it) count; lstep_size := lstep_size it; lstep_add := lstep_add it |}.

#[export] Instance local_step_iterator : DistributedIterator (LStepBy I) A := {
  it_init := local_step_init;
  it_next := local_step_next;
  it_elems := local_step_elems;
  it_advance := local_step_advance;
  it_fuel it := it_fuel (lstep_iter it);
}.

Definition local_step_index (it : LStepBy I) (index : Z) : option Z :=
  match it_index (lstep_iter it) (index * lstep_size it) with
  | Some g_index => Some (g_index / lstep_size it + lstep_add it)
  | None => None
  end.

#[export] Instance local_step_indexed : IndexedDistributedIterator (LStepBy I) := {
  it_index := local_step_index;
  it_bound it := it_bound (lstep_iter it);
}.

(** *** [Take] *)

Definition local_take_init (it : LTake I) (start_i cnt : Z) : LTake I :=
  let start_i := Z.min start_i (ltake_count it) in
  let end_i := Z.min (start_i + cnt) (ltake_count it) in
  let len := end_i - start_i in
  {| ltake_iter := it_init (ltake_iter it) start_i len; ltake_count := ltake_count it |}.

Definition local_take_next (it : LTake I) : option A * LTake I :=
  let '(x, iter) := it_next (ltake_iter it) in (x, {| ltake_iter := iter; ltake_count := ltake_count it |}).

Definition local_take_advance (it : LTake I) (count : Z) : LTake I :=
  {| ltake_iter := it_advance (ltake_iter it) count; ltake_count := ltake_count it |}.

#[export] Instance local_take_iterator : DistributedIterator (LTake I) A := {
  it_init := local_take_init;
  it_next := local_take_next;
  it_elems it in_elems := Z.min (it_elems (ltake_iter it) in_elems) (ltake_count it);
  it_advance := local_take_advance;
  it_fuel it := it_fuel (ltake_iter it);
}.

#[export] Instance local_take_indexed : IndexedDistributedIterator (LTake I) := {
  it_index it index := it_index (ltake_iter it) index;
  it_bound it := it_bound (ltake_iter it);
}.

(** *** [Chunks] *)

Definition chunks_init (it : Chunks I) (start_i cnt : Z) : Chunks I :=
  {| chunks_iter := it_init (chunks_iter it) (start_i * chunk_size it) ((start_i + cnt) * chunk_size it);
     chunks_cur := start_i; chunks_end := start_i + cnt; chunk_size := chunk_size it |}.

(** The item is a [Chunk], whose [next] is that of the iterator in it. *)
Definition chunks_next (it : Chunks I) : option I * Chunks I :=
  if chunks_cur it <? chunks_end it
  then (Some (it_init (chunks_iter it) (chunks_cur it * chunk_size it) (chunk_size it)),
        {| chunks_iter := chunks_iter it; chunks_cur := chunks_cur it + 1; chunks_end := chunks_end it;
           chunk_size := chunk_size it |})
  else (None, it).

(** The chunk size is positive: the remainder by 0 panics. *)
Definition chunks_elems (it : Chunks I) (in_elems : Z) : Z :=
  let in_elems := it_elems (chunks_iter it) in_elems in
  if 0 <? in_elems mod chunk_size it then 1 + in_elems / chunk_size it else in_elems / chunk_size it.

Definition chunks_advance (it : Chunks I) (count : Z) : Chunks I :=
  {| chunks_iter := chunks_iter it; chunks_cur := Z.min (chunks_cur it + count) (chunks_end it);
     chunks_end := chunks_end it; chunk_size := chunk_size it |}.

#[export] Instance chunks_iterator : DistributedIterator (Chunks I) I := {
  it_init := chunks_init;
  it_next := chunks_next;
  it_elems := chunks_elems;
  it_advance := chunks_advance;
  it_fuel it := Z.to_nat (chunks_end it - chunks_cur it);
}.

#[export] Instance chunks_indexed : IndexedDistributedIterator (Chunks I) := {
  it_index it index := it_index (chunks_iter it) index;
  it_bound it := it_bound (chunks_iter it);
}.

(** The first [fuel] elements of a [Chunk]. *)
Fixpoint drain (fuel : nat) (chunk : I) : list A :=
  match fuel with
  | O => []
  | S fuel => match it_next chunk with (Some x, chunk) => x :: drain fuel chunk | (None, _) => [] end
  end.
End Adapters.

(** *** [Zip] *)

Section Zip.
Context {I J A B : Type} `{DistributedIterator I A, IndexedDistributedIterator I, DistributedIterator J B}.

Definition zip_init (it : Zip I J) (start_i cnt : Z) : Zip I J :=
  {| zip_a := it_init (zip_a it) start_i cnt; zip_b := it_init (zip_b it) start_i cnt |}.

Definition zip_next (it : Zip I J) : option (A * B) * Zip I J :=
  match it_next (zip_a it) with
  | (Some a, ia) =>
      match it_next (zip_b it) with
      | (Some b, ib) => (Some (a, b), {| zip_a := ia; zip_b := ib |})
      | (None, ib) => (None, {| zip_a := ia; zip_b := ib |})
      end
  | (None, ia) => (None, {| zip_a := ia; zip_b := zip_b it |})
  end.

Definition zip_elems (it : Zip I J) (in_elems : Z) : Z :=
  Z.min (it_elems (zip_a it) in_elems) (it_elems (zip_b it) in_elems).

Definition zip_advance (it : Zip I J) (count : Z) : Zip I J :=
  {| zip_a := it_advance (zip_a it) count; zip_b := it_advance (zip_b it) count |}.

#[export] Instance zip_iterator : DistributedIterator (Zip I J) (A * B) := {
  it_init := zip_init;
  it_next := zip_next;
  it_elems := zip_elems;
  it_advance := zip_advance;
  it_fuel it := it_fuel (zip_a it);
}.

#[export] Instance zip_indexed : IndexedDistributedIterator (Zip I J) := {
  it_index it index := it_index (zip_a it) index;
  it_bound it := it_bound (zip_a it);
}.
End Zip.

Definition local_skip {I} (it : I) (n : Z) : LSkip I := {| lskip_iter := it; lskip_count := n; skip_offset := 0 |}.
Definition local_step_by {I} (it : I) (st : Z) : LStepBy I := {| lstep_iter := it; lstep_size := st; lstep_add := 0 |}.
Definition local_take {I} (it : I) (n : Z) : LTake I := {| ltake_iter := it; ltake_count := n |}.
Definition local_chunks {I} (it : I) (size : Z) : Chunks I :=
  {| chunks_iter := it; chunks_cur := 0; chunks_end := 0 + 0; chunk_size := size |}.
Definition local_zip {I J} (a : I) (b : J) : Zip I J := {| zip_a := a; zip_b := b |}.

(** ** What they yield *)

(** The element of each position with its index (positions may be beyond the local elements);
    what is left; the number of positions the schedules ask for; the number of local elements;
    the ranges that the laws speak of, and the invariant. *)
Class LocalSpec (I Item : Type) := {
  lritems : I -> Z -> option (Z * Item);
  lcontent : I -> list (Z * Item);
  lelems : I -> Z;
  lnum : I -> Z;
  lrange : I -> Z -> Z -> Prop;
  lok : I -> Prop;
}.

Definition lranges {I Item} `{LocalSpec I Item} (it : I) (s c : Z) : list (Z * Item) :=
  omap (lritems it) (seqZ s c).

(** What no operation changes: [init] depends on nothing else. *)
Record kept {I Item} `{DistributedIterator I Item, LocalSpec I Item} (it it' : I) : Prop := {
  kept_items : lritems it' = lritems it;
  kept_elems : lelems it' = lelems it;
  kept_num : lnum it' = lnum it;
  kept_range : lrange it' = lrange it;
  kept_init : it_init it' = it_init it;
  kept_fn : it_elems it' = it_elems it;
  kept_ok : lok it';
}.

Class LocalLaws (I Item : Type) `{DistributedIterator I Item, IndexedDistributedIterator I, LocalSpec I Item} := {
  l_init (it : I) s c :
    lok it -> 0 <= s -> 0 <= c -> lrange it s c ->
    lcontent (it_init it s c) = lranges it s c /\ aligned (it_init it s c) s (lranges it s c) /\
    kept it (it_init it s c);
  l_next (it : I) :
    lok it ->
    fst (it_next it) = snd <$> head (lcontent it) /\ lcontent (snd (it_next it)) = tail (lcontent it) /\
    it_index (snd (it_next it)) = it_index it /\ kept it (snd (it_next it));
  l_elems (it : I) : lok it -> it_elems it (lnum it) = lelems it;
  l_within (it : I) s c : lok it -> 0 <= s -> 0 <= c -> s + c <= lelems it -> lrange it s c;
}.

(** [advance_index] skips elements. *)
Class LocalAdvance (I Item : Type) `{DistributedIterator I Item, IndexedDistributedIterator I, LocalSpec I Item} := {
  l_advance (it : I) k :
    lok it -> 0 <= k ->
    lcontent (it_advance it k) = drop (Z.to_nat k) (lcontent it) /\
    it_index (it_advance it k) = it_index it /\ kept it (it_advance it k);
}.

(** The positions below [n], and no others, have an element, and are their own index. *)
Record flat {I Item} `{DistributedIterator I Item, IndexedDistributedIterator I, LocalSpec I Item} (it : I) (n : Z) : Prop := {
  flat_item p g x : lritems it p = Some (g, x) -> g = p /\ 0 <= p < n;
  flat_some p : 0 <= p < n -> is_Some (lritems it p);
  flat_index s c p : 0 <= s -> 0 <= c -> 0 <= p ->
    it_index (it_init it s c) p = Some p \/ n <= p /\ it_index (it_init it s c) p = None;
  flat_range s c : 0 <= s -> 0 <= c -> lrange it s c;
}.

Section Flat.
Context {I Item : Type} `{DistributedIterator I Item, IndexedDistributedIterator I, LocalSpec I Item}.

Lemma kept_chain (a b c : I) : kept a b -> kept b c -> kept a c.
Proof. intros [? ? ? ? ? ? ?] [? ? ? ? ? ? ?]. split; congruence || done. Qed.

Lemma flat_kept (it it' : I) n : kept it it' -> flat it n -> flat it' n.
Proof. intros [E1 _ _ E2 E3 _ _] [F1 F2 F3 F4]. split; rewrite ?E1, ?E2, ?E3; done. Qed.

Lemma flat_none (it : I) n p : flat it n -> 0 <= p -> lritems it p = None <-> n <= p.
Proof.
  intros F Hp. split.
  - intros E. destruct (Z.le_gt_cases n p); [done|]. destruct (flat_some _ _ F p ltac:(lia)). congruence.
  - intros Hn. destruct (lritems it p) as [[g x]|] eqn:E; [|done]. apply (flat_item _ _ F) in E. lia.
Qed.
End Flat.

Lemma omap_seqZ_none {B} (f : Z -> option B) s c : (forall i, s <= i < s + c -> f i = None) -> omap f (seqZ s c) = [].
Proof.
  intros Hf. rewrite (list_omap_ext _ (fun _ => None) _ (seqZ s c)).
  - by induction (seqZ s c).
  - apply Forall2_same_length_lookup_2; [done|]. intros k x y Hx Hy. rewrite Hx in Hy. injection Hy as <-.
    apply Hf. apply elem_of_seqZ. by eapply list_elem_of_lookup_2.
Qed.

(** The elements of a range, when there are none after the first position without one. *)
Lemma omap_prefix_lookup {B} (f : Z -> option B) s c k :
  (forall i j, s <= i <= j -> f i = None -> f j = None) ->
  omap f (seqZ s c) !! k = if decide (Z.of_nat k < c) then f (s + Z.of_nat k) else None.
Proof.
  intros Hf. destruct (Z.le_gt_cases c 0) as [Hc|Hc].
  { rewrite seqZ_nil by lia. destruct (decide _); [lia|done]. }
  revert s k Hf. pattern c. apply Zlt_lower_bound_ind with (z := 1); [|lia]. clear c Hc.
  intros c IH Hc s k Hf. rewrite (seqZ_cons s) by lia. cbn.
  destruct (f s) as [x|] eqn:E.
  - destruct k as [|k]; cbn; [rewrite Z.add_0_r, E; by destruct (decide _); [|lia]|].
    destruct (Z.eq_dec c 1) as [->|Hne].
    + rewrite seqZ_nil by lia. cbn. destruct (decide _); [lia|done].
    + rewrite IH by (lia || intros i j Hij; apply Hf; lia). replace (Z.succ s + Z.of_nat k) with (s + Z.of_nat (S k)) by lia.
      destruct (decide (Z.of_nat k < Z.pred c)), (decide (Z.of_nat (S k) < c)); done || lia.
  - rewrite omap_seqZ_none by (intros i Hi; apply (Hf s); [lia|done]).
    destruct (decide _); [|done]. cbn. symmetry. apply (Hf s); [lia|done].
Qed.

(** Positions from [n] on have no element. *)
Lemma omap_seqZ_clamp {B} (f : Z -> option B) n s c : (forall i, n <= i -> f i = None) -> 0 <= c ->
  omap f (seqZ s c) = omap f (seqZ (Z.min s n) (Z.min (s + c) n - Z.min s n)).
Proof.
  intros Hf Hc. destruct (Z.le_gt_cases n s).
  - rewrite (seqZ_nil (Z.min s n)) by lia. apply omap_seqZ_none. intros i Hi. apply Hf. lia.
  - rewrite Z.min_l by lia. destruct (Z.le_gt_cases (s + c) n); [rewrite Z.min_l by lia; do 2 f_equal; lia|].
    rewrite Z.min_r by lia. replace c with ((n - s) + (s + c - n)) at 1 by lia.
    rewrite seqZ_app, omap_app by lia. rewrite (omap_seqZ_none f (s + (n - s))), app_nil_r; [done|].
    intros i Hi. apply Hf. lia.
Qed.

Lemma omap_seqZ_ext {B} (f g : Z -> option B) s c : (forall i, s <= i < s + c -> f i = g i) ->
  omap f (seqZ s c) = omap g (seqZ s c).
Proof.
  intros Hf. apply list_omap_ext, Forall2_same_length_lookup_2; [done|]. intros k x y Hx Hy.
  rewrite Hx in Hy. injection Hy as <-. apply Hf, elem_of_seqZ. by eapply list_elem_of_lookup_2.
Qed.

Lemma step_from_lookup {B} st k (l : list B) i : (0 < st)%nat -> step_from st k l !! i = l !! (k + i * st)%nat.
Proof.
  intros Hst. revert k i. induction l as [|x l IH]; intros k i; cbn; [done|].
  destruct k as [|k]; cbn; [|by rewrite IH]. destruct i as [|i]; cbn; [done|].
  rewrite IH. destruct st as [|st]; [lia|]. cbn. f_equal. lia.
Qed.

Lemma step_list_lookup {B} st (l : list B) i : 0 < st -> step_list st l !! i = l !! (i * Z.to_nat st)%nat.
Proof. intros Hst. unfold step_list. by rewrite step_from_lookup by lia. Qed.

Lemma step_list_cons {B} st (x : B) l : 0 < st -> step_list st (x :: l) = x :: step_list st (drop (Z.to_nat (st - 1)) l).
Proof.
  intros Hst. apply list_eq. intros [|i]; [by rewrite step_list_lookup|].
  transitivity (step_list st (drop (Z.to_nat (st - 1)) l) !! i); [|done].
  rewrite !step_list_lookup, lookup_drop by done.
  by replace (S i * Z.to_nat st)%nat with (S (Z.to_nat (st - 1) + i * Z.to_nat st)) by lia.
Qed.

Section FlatRanges.
Context {I Item : Type} `{DistributedIterator I Item, IndexedDistributedIterator I, LocalSpec I Item}.

Lemma flat_prefix (it : I) n i j : flat it n -> 0 <= i <= j -> lritems it i = None -> lritems it j = None.
Proof. intros F Hij. rewrite !(flat_none it n) by (done || lia). lia. Qed.

Lemma flat_at (it : I) n s c k : flat it n -> 0 <= s ->
  lranges it s c !! k = if decide (Z.of_nat k < c) then lritems it (s + Z.of_nat k) else None.
Proof. intros F Hs. apply omap_prefix_lookup. intros i j Hij. apply (flat_prefix it n); [done|lia]. Qed.

Lemma flat_aligned (it : I) n s c : flat it n -> 0 <= s -> 0 <= c -> aligned (it_init it s c) s (lranges it s c).
Proof.
  intros F Hs Hc k g x. rewrite (flat_at it n) by done. destruct (decide _); [|done].
  intros E. apply (flat_item _ _ F) in E as [-> Hp].
  destruct (flat_index _ _ F s c (s + Z.of_nat k)) as [|[]]; [lia|lia|lia|done|lia].
Qed.
End FlatRanges.

(** ** The laws *)

(** *** [LocalIter] *)

Section LocalIter.
Context {T : Type}.

#[export] Instance local_iter_spec : LocalSpec (DistIter T) T := {
  lritems it := view_item (di_data it);
  lcontent := icontent;
  lelems it := view_num (di_data it);
  lnum it := view_num (di_data it);
  lrange _ _ _ := True;
  lok := iok;
}.

#[export] Instance local_iter_laws : LocalLaws (DistIter T) T.
Proof.
  split.
  - intros it s c Hok Hs Hc _. destruct (ilaw_init it s c Hok Hs Hc) as (E1 & _ & _ & _ & _ & _ & Hok').
    pose proof (init_aligned it s c Hok Hs Hc) as Ha.
    assert (E : lranges it s c = iranges it s (s + c)).
    { unfold lranges, iranges. cbn. apply omap_seqZ_clamp; [|done]. intros i Hi. unfold view_item.
      by rewrite (proj2 (Z.ltb_ge i _)), andb_false_r by lia. }
    rewrite E. split_and!; [done|by rewrite <- E1|]. by split.
  - intros it Hok. destruct (ilaw_next it Hok) as (E1 & E2 & E3 & E4 & E5 & _ & _ & Hok').
    split_and!; try done. split; try done; cbn in *; unfold dist_iter_next in *; by destruct (_ <? _).
  - done.
  - done.
Qed.

#[export] Instance local_iter_advance : LocalAdvance (DistIter T) T.
Proof. split. intros it k Hok Hk. destruct (ilaw_advance it k Hok Hk) as (E1 & E2 & _ & _ & _ & _ & Hok'). by split_and!. Qed.

Lemma local_iter_flat (it : DistIter T) : lok it ->
  (forall i, 0 <= i -> view_index (di_data it) i = Some i \/ view_num (di_data it) <= i /\ view_index (di_data it) i = None) ->
  flat it (view_num (di_data it)).
Proof.
  intros Hok Hi. split.
  - intros p g x E. cbn in E. apply view_item_inv in E as [Hp E]. destruct (Hi p ltac:(lia)) as [E'|[]]; [|lia].
    rewrite E in E'. injection E' as ->. done.
  - intros p Hp. destruct (view_item_some (di_data it) p (proj1 Hok) Hp) as (g & E & _). by eexists.
  - intros s c p _ _ Hp. cbn. by apply Hi.
  - done.
Qed.
End LocalIter.

(** *** [Enumerate] *)

Section Enumerate.
Context {I A : Type} `{LocalLaws I A}.

#[export] Instance local_enum_spec : LocalSpec (Enumerate I) (Z * A) := {
  lritems it i := with_index <$> lritems (enum_iter it) i;
  lcontent it := with_index <$> lcontent (enum_iter it);
  lelems it := lelems (enum_iter it);
  lnum it := lnum (enum_iter it);
  lrange it := lrange (enum_iter it);
  lok it := lok (enum_iter it) /\ aligned (enum_iter it) (enum_cur it) (lcontent (enum_iter it));
}.

Lemma lranges_enum (it : Enumerate I) s c : lranges it s c = with_index <$> lranges (enum_iter it) s c.
Proof. unfold lranges. cbn. symmetry. apply list_fmap_omap. Qed.

Lemma kept_enum (it it' : Enumerate I) : kept (enum_iter it) (enum_iter it') -> lok it' -> kept it it'.
Proof.
  intros [E1 E2 E3 E4 E5 E6 _] Hok. split; try done; cbn; unfold enum_init; rewrite ?E1, ?E2, ?E3, ?E4, ?E5, ?E6; done.
Qed.

#[export] Instance local_enum_laws : LocalLaws (Enumerate I) (Z * A).
Proof.
  split.
  - intros it s c (Hok & _) Hs Hc Hr. destruct (l_init _ s c Hok Hs Hc Hr) as (E1 & Ha & K).
    rewrite lranges_enum. split_and!.
    + cbn. by rewrite E1.
    + by eapply (aligned_with_index (it_init (enum_iter it) s c)).
    + apply kept_enum; [done|]. split; [by apply (kept_ok _ _ K)|]. cbn. by rewrite E1.
  - intros it (Hok & Ha). destruct (l_next _ Hok) as (E1 & E2 & E3 & K).
    cbn -[lok]. unfold enum_next. destruct (it_next (enum_iter it)) as [x iter]. cbn -[lok] in *.
    destruct (lcontent (enum_iter it)) as [|[g y] l] eqn:El; cbn -[lok] in *; subst x; cbn -[lok].
    + rewrite E2, E3. split_and!; try done. apply kept_enum; [done|]. split; [by apply (kept_ok _ _ K)|]. cbn. by rewrite E2.
    + pose proof (Ha 0%nat g y eq_refl) as Ei. rewrite Z.add_0_r in Ei. rewrite E3, Ei. cbn -[lok]. rewrite E2, E3.
      split_and!; try done. apply kept_enum; [done|]. split; [by apply (kept_ok _ _ K)|]. cbn. rewrite E2.
      by apply (aligned_tail (enum_iter it) _ _ _ Ha).
  - intros it (Hok & _). cbn. by apply l_elems.
  - intros it s c (Hok & _). cbn. by apply l_within.
Qed.

#[export] Instance local_enum_advance `{!LocalAdvance I A} : LocalAdvance (Enumerate I) (Z * A).
Proof.
  split. intros it k (Hok & Ha) Hk. destruct (l_advance _ k Hok Hk) as (E1 & E2 & K). cbn -[lok].
  rewrite E1, E2, fmap_drop. split_and!; try done. apply kept_enum; [done|]. split; [by apply (kept_ok _ _ K)|].
  cbn. rewrite E1. by apply (aligned_drop (enum_iter it)).
Qed.

Lemma flat_enum (it : Enumerate I) n : flat (enum_iter it) n -> flat it n.
Proof.
  intros [F1 F2 F3 F4]. split; cbn.
  - intros p g x (y & E & [= -> ->])%fmap_Some. destruct y as [g y]. by eapply F1.
  - intros p Hp. by apply fmap_is_Some, F2.
  - exact F3.
  - exact F4.
Qed.
End Enumerate.

(** *** [Take] *)

Section Take.
Context {I A : Type} `{LocalLaws I A}.

#[export] Instance local_take_spec : LocalSpec (LTake I) A := {
  lritems it p := if p <? ltake_count it then lritems (ltake_iter it) p else None;
  lcontent it := lcontent (ltake_iter it);
  lelems it := Z.min (lelems (ltake_iter it)) (ltake_count it);
  lnum it := lnum (ltake_iter it);
  lrange it s c := lrange (ltake_iter it) (Z.min s (ltake_count it))
                     (Z.min (Z.min s (ltake_count it) + c) (ltake_count it) - Z.min s (ltake_count it));
  lok it := lok (ltake_iter it) /\ 0 <= ltake_count it;
}.

Lemma kept_take (it it' : LTake I) : kept (ltake_iter it) (ltake_iter it') -> ltake_count it' = ltake_count it ->
  0 <= ltake_count it -> kept it it'.
Proof.
  intros [E1 E2 E3 E4 E5 E6 Hok] Ec Hc. split; cbn; unfold local_take_init; rewrite ?E1, ?E2, ?E3, ?E4, ?E5, ?E6, ?Ec; done.
Qed.

#[export] Instance local_take_laws : LocalLaws (LTake I) A.
Proof.
  split.
  - intros it s c (Hok & Hn) Hs Hc Hr. cbn -[Z.min] in Hr.
    set (n := ltake_count it) in *. set (s' := Z.min s n) in *.
    destruct (l_init (ltake_iter it) s' (Z.min (s' + c) n - s') Hok ltac:(lia) ltac:(lia) Hr) as (E1 & Ha & K).
    assert (E : lranges it s c = lranges (ltake_iter it) s' (Z.min (s' + c) n - s')).
    { unfold lranges. cbn. fold n.
      rewrite (omap_seqZ_clamp _ n) by (try done; intros i Hi; by rewrite (proj2 (Z.ltb_ge i n)) by lia).
      fold s'. replace (Z.min (s + c) n) with (Z.min (s' + c) n) by lia. apply omap_seqZ_ext.
      intros i Hi. by rewrite (proj2 (Z.ltb_lt i n)) by lia. }
    rewrite E. split_and!; [done| |by apply kept_take].
    destruct (Z.le_gt_cases n s).
    + replace (Z.min (s' + c) n - s') with 0 by lia. intros k g x. unfold lranges. by rewrite seqZ_nil by lia.
    + intros k g x Ek. apply Ha in Ek. replace (s + Z.of_nat k) with (s' + Z.of_nat k) by lia. exact Ek.
  - intros it (Hok & Hn). destruct (l_next _ Hok) as (E1 & E2 & E3 & K). cbn. unfold local_take_next.
    destruct (it_next (ltake_iter it)) as [x iter]. cbn in *. split_and!; try done. by apply kept_take.
  - intros it (Hok & Hn). cbn. by rewrite l_elems.
  - intros it s c (Hok & Hn) Hs Hc Hsc. cbn -[Z.min] in *. apply l_within; [done|lia|lia|lia].
Qed.

#[export] Instance local_take_advance_law `{!LocalAdvance I A} : LocalAdvance (LTake I) A.
Proof.
  split. intros it k (Hok & Hn) Hk. destruct (l_advance _ k Hok Hk) as (E1 & E2 & K). cbn.
  split_and!; try done. by apply kept_take.
Qed.

Lemma flat_take (it : LTake I) n : 0 <= ltake_count it -> flat (ltake_iter it) n -> flat it (Z.min n (ltake_count it)).
Proof.
  intros Hn [F1 F2 F3 F4]. split; cbn.
  - intros p g x. destruct (Z.ltb_spec p (ltake_count it)); [|done]. intros E. apply F1 in E as [-> ?]. lia.
  - intros p Hp. rewrite (proj2 (Z.ltb_lt p _)) by lia. apply F2. lia.
  - intros s c p Hs Hc Hp. destruct (F3 (Z.min s (ltake_count it))
      (Z.min (Z.min s (ltake_count it) + c) (ltake_count it) - Z.min s (ltake_count it)) p) as [->|[? ->]];
      [lia|lia|lia|by left|right; split; [lia|done]].
  - intros s c Hs Hc. apply F4; lia.
Qed.
End Take.

(** *** [Skip] *)

Section Skip.
Context {I A : Type} `{LocalLaws I A, !LocalAdvance I A}.

Definition less (count : Z) (p : Z * A) : Z * A := (fst p - count, snd p).

#[export] Instance local_skip_spec : LocalSpec (LSkip I) A := {
  lritems it p := if p <? lskip_count it then None else less (lskip_count it) <$> lritems (lskip_iter it) p;
  lcontent it := less (lskip_count it) <$> lcontent (lskip_iter it);
  lelems it := lelems (lskip_iter it) - lskip_count it;
  lnum it := lnum (lskip_iter it);
  lrange it := lrange (lskip_iter it);
  lok it := lok (lskip_iter it) /\ (exists n, flat (lskip_iter it) n /\ n <= 2 ^ 63) /\
            0 <= lskip_count it <= lelems (lskip_iter it) /\ lelems (lskip_iter it) < 2 ^ 63;
}.

Lemma kept_skip (it it' : LSkip I) : kept (lskip_iter it) (lskip_iter it') -> lskip_count it' = lskip_count it ->
  lok it -> kept it it'.
Proof.
  intros K Ec (Hok & (n & F & Hn) & Hc). pose proof K as [E1 E2 E3 E4 E5 E6 Hok'].
  split; cbn; unfold local_skip_init, local_skip_elems; rewrite ?E1, ?E2, ?E3, ?E4, ?E5, ?E6, ?Ec; try done.
  split_and!; try done; try lia. exists n. split; [by eapply flat_kept|done].
Qed.

(** The positions before [skip_count] have nothing. *)
Lemma lranges_skip (it : LSkip I) n s c : flat (lskip_iter it) n -> 0 <= s -> 0 <= c ->
  lranges it s c = less (lskip_count it) <$>
    drop (Z.to_nat (Z.min (Z.max s (lskip_count it) - s) c)) (lranges (lskip_iter it) s c).
Proof.
  intros F Hs Hc. set (m := lskip_count it). set (adv := Z.min (Z.max s m - s) c).
  apply list_eq. intros k. rewrite list_lookup_fmap, lookup_drop, (flat_at (lskip_iter it) n) by done.
  assert (E : lranges it s c = omap (fun p => less m <$> lritems (lskip_iter it) p) (seqZ (s + adv) (c - adv))).
  { unfold lranges. cbn. fold m. replace c with (adv + (c - adv)) at 1 by lia.
    rewrite seqZ_app, omap_app by lia. rewrite omap_seqZ_none; cbn -[Z.sub].
    - apply omap_seqZ_ext. intros i Hi. by rewrite (proj2 (Z.ltb_ge i m)) by lia.
    - intros i Hi. by rewrite (proj2 (Z.ltb_lt i m)) by lia. }
  rewrite E, omap_prefix_lookup.
  - replace (s + Z.of_nat (Z.to_nat adv + k)) with (s + adv + Z.of_nat k) by lia.
    destruct (decide (Z.of_nat k < c - adv)), (decide (Z.of_nat (Z.to_nat adv + k) < c)); done || lia.
  - intros i j Hij Hi. rewrite fmap_None in *. apply (flat_prefix _ n i); [done|lia|done].
Qed.

#[export] Instance local_skip_laws : LocalLaws (LSkip I) A.
Proof.
  split.
  - intros it s c Hok Hs Hc Hr. pose proof Hok as (Hoki & (n & F & Hn) & Hm & Hl). cbn in Hr.
    destruct (l_init _ s c Hoki Hs Hc Hr) as (E1 & _ & K). pose proof (flat_aligned _ n s c F Hs Hc) as Ha.
    destruct (l_advance (it_init (lskip_iter it) s c) (Z.min (Z.max s (lskip_count it) - s) c) (kept_ok _ _ K)
      ltac:(lia)) as (A1 & A2 & K').
    split_and!.
    + rewrite (lranges_skip it n) by done. cbn -[Z.min Z.max]. by rewrite A1, E1.
    + intros k g x. rewrite (lranges_skip it n) by done. set (adv := Z.min _ c) in *.
      intros ([g' x'] & [= -> ->] & E)%list_lookup_fmap_Some. rewrite lookup_drop in E. pose proof E as Eg.
      apply Ha in E. rewrite (flat_at (lskip_iter it) n) in Eg by done. destruct (decide _) as [Hk|]; [|done].
      apply (flat_item _ _ F) in Eg as [-> Hp].
      cbn -[Z.min Z.max]. unfold local_skip_index. cbn -[Z.min Z.max]. fold adv. rewrite A2.
      replace (s + Z.of_nat k + adv) with (s + Z.of_nat (Z.to_nat adv + k)) by lia. rewrite E.
      rewrite !as_isize_ok by lia. by rewrite (proj2 (Z.leb_le 0 _)) by lia.
    + apply kept_skip; [by eapply kept_chain|done|done].
  - intros it Hok. destruct (l_next _ (proj1 Hok)) as (E1 & E2 & E3 & K). cbn. unfold local_skip_next.
    destruct (it_next (lskip_iter it)) as [x iter]. cbn in *. rewrite E2. split_and!.
    + rewrite E1. by destruct (lcontent (lskip_iter it)).
    + by destruct (lcontent (lskip_iter it)).
    + unfold local_skip_index. cbn. by rewrite E3.
    + by apply kept_skip.
  - intros it (Hok & _ & Hm & Hl). cbn. unfold local_skip_elems. rewrite l_elems by done.
    rewrite wsub_ok by lia. lia.
  - intros it s c (Hok & _ & Hm & Hl) Hs Hc Hsc. cbn in *. apply l_within; [done|lia|lia|lia].
Qed.
End Skip.

(** *** [StepBy] *)

Lemma ceil_lt st n p : 0 < st -> p < (n + st - 1) / st <-> p * st < n.
Proof.
  intros Hst. pose proof (Z.div_mod (n + st - 1) st ltac:(lia)). pose proof (Z.mod_pos_bound (n + st - 1) st Hst).
  split; intros; nia.
Qed.

Section StepBy.
Context {I A : Type} `{LocalLaws I A, !LocalAdvance I A}.

Definition quot (st : Z) (p : Z * A) : Z * A := (fst p / st, snd p).

#[export] Instance local_step_spec : LocalSpec (LStepBy I) A := {
  lritems it p := quot (lstep_size it) <$> lritems (lstep_iter it) (p * lstep_size it);
  lcontent it := quot (lstep_size it) <$> step_list (lstep_size it) (lcontent (lstep_iter it));
  lelems it := (lelems (lstep_iter it) + lstep_size it - 1) / lstep_size it;
  lnum it := lnum (lstep_iter it);
  lrange _ _ _ := True;
  lok it := lok (lstep_iter it) /\ (exists n, flat (lstep_iter it) n) /\ 1 <= lstep_size it < 2 ^ 24 /\
            0 <= lelems (lstep_iter it) < 2 ^ 24 /\ lstep_add it = 0;
}.

Lemma kept_step (it it' : LStepBy I) : kept (lstep_iter it) (lstep_iter it') -> lstep_size it' = lstep_size it ->
  lstep_add it' = 0 -> lok it -> kept it it'.
Proof.
  intros K Ec Ea (Hok & (n & F) & Hst & Hl & Ha). pose proof K as [E1 E2 E3 E4 E5 E6 Hok'].
  split; cbn -[Z.sub]; unfold local_step_init, local_step_elems; rewrite ?E1, ?E2, ?E3, ?E4, ?E5, ?E6, ?Ec; try done.
  split_and!; try done; try lia. exists n. by eapply flat_kept.
Qed.

(** Over a flat iterator, [init] starts at a multiple of the step size at once. *)
Lemma step_init_flat (it : LStepBy I) n s c : flat (lstep_iter it) n -> 1 <= lstep_size it -> 0 <= s -> 0 <= c ->
  exists k, 0 <= k /\ (k = 0 \/ n <= s * lstep_size it) /\
    it_init it s c = {| lstep_iter := it_advance (it_init (lstep_iter it) (s * lstep_size it) (c * lstep_size it)) k;
                        lstep_size := lstep_size it; lstep_add := 0 |}.
Proof.
  intros F Hst Hs Hc. cbn. unfold local_step_init. set (st := lstep_size it) in *.
  destruct (flat_index _ _ F (s * st) (c * st) (s * st)) as [->|[Hn ->]]; [nia|nia|nia| |].
  - cbn [step_loop]. rewrite Z_mod_mult. cbn. exists 0. split_and!; [done|by left|done].
  - exists c. split_and!; [done|by right|done].
Qed.

Lemma lranges_step (it : LStepBy I) n s c : flat (lstep_iter it) n -> 1 <= lstep_size it -> 0 <= s -> 0 <= c ->
  lranges it s c = quot (lstep_size it) <$> step_list (lstep_size it) (lranges (lstep_iter it) (s * lstep_size it) (c * lstep_size it)).
Proof.
  intros F Hst Hs Hc. set (st := lstep_size it) in *. apply list_eq. intros k. unfold lranges at 1.
  rewrite omap_prefix_lookup, list_lookup_fmap, step_list_lookup; [|lia|].
  2:{ intros i j Hij. cbn. fold st. rewrite !fmap_None. apply (flat_prefix _ n); [done|nia]. }
  rewrite (flat_at (lstep_iter it) n) by (done || nia). cbn [lritems local_step_spec]. fold st.
  replace ((s + Z.of_nat k) * st) with (s * st + Z.of_nat (k * Z.to_nat st)) by nia.
  destruct (decide (Z.of_nat k < c)), (decide (Z.of_nat (k * Z.to_nat st) < c * st)); done || nia.
Qed.

Lemma flat_step (it : LStepBy I) n : lok it -> flat (lstep_iter it) n ->
  flat it ((n + lstep_size it - 1) / lstep_size it).
Proof.
  intros (Hok & _ & Hst & _ & _) F. set (st := lstep_size it) in *. split.
  - intros p g x. cbn. fold st. intros ([g' x'] & E & [= -> ->])%fmap_Some. apply (flat_item _ _ F) in E as [-> Hp].
    rewrite Z.div_mul, ceil_lt by lia. split; [done|nia].
  - intros p [Hp Hlt]. rewrite ceil_lt in Hlt by lia. cbn. fold st. apply fmap_is_Some, (flat_some _ _ F). nia.
  - intros s c p Hs Hc Hp. destruct (step_init_flat it n s c F ltac:(lia) Hs Hc) as (k & Hk & _ & ->). cbn.
    unfold local_step_index. cbn. fold st.
    destruct (l_init (lstep_iter it) (s * st) (c * st) Hok ltac:(nia) ltac:(nia)) as (_ & _ & K).
    { apply (flat_range _ _ F); nia. }
    destruct (l_advance _ k (kept_ok _ _ K) Hk) as (_ & -> & _).
    destruct (flat_index _ _ F (s * st) (c * st) (p * st)) as [->|[Hn ->]]; [nia|nia|nia| |].
    + left. rewrite Z.div_mul by lia. f_equal. lia.
    + right. split; [|done]. apply Z.nlt_ge. rewrite ceil_lt by lia. lia.
  - done.
Qed.

Lemma step_list_nil {B} st : step_list st ([] : list B) = [].
Proof. done. Qed.

#[export] Instance local_step_laws : LocalLaws (LStepBy I) A.
Proof.
  split.
  - intros it s c Hok Hs Hc _. pose proof Hok as (Hoki & (n & F) & Hst & Hl & Ea). set (st := lstep_size it) in *.
    destruct (l_init (lstep_iter it) (s * st) (c * st) Hoki ltac:(nia) ltac:(nia)) as (E1 & _ & K).
    { apply (flat_range _ _ F); nia. }
    destruct (step_init_flat it n s c F ltac:(lia) Hs Hc) as (k & Hk & Hk0 & Ei). fold st in Hk0, Ei.
    destruct (l_advance _ k (kept_ok _ _ K) Hk) as (A1 & A2 & K').
    split_and!.
    + rewrite Ei, (lranges_step it n) by (done || lia). cbn [lcontent local_step_spec lstep_size lstep_iter]. fold st.
      rewrite A1, E1. destruct Hk0 as [->|Hn]; [done|].
      assert (El : lranges (lstep_iter it) (s * st) (c * st) = []).
      { apply omap_seqZ_none. intros i Hi. apply (flat_none _ n); [done|nia|lia]. }
      by rewrite El, drop_nil.
    + apply (flat_aligned it _ s c (flat_step it n Hok F) Hs Hc).
    + rewrite Ei. apply kept_step; [by eapply kept_chain|done|done|done].
  - intros it Hok. pose proof Hok as (Hoki & (n & F) & Hst & Hl & Ea). destruct (l_next _ Hoki) as (E1 & E2 & E3 & K).
    cbn -[Z.sub lok]. unfold local_step_next. destruct (it_next (lstep_iter it)) as [x iter]. cbn -[Z.sub lok] in *.
    destruct (l_advance iter (lstep_size it - 1) (kept_ok _ _ K) ltac:(lia)) as (A1 & A2 & K').
    rewrite A1, E2. split_and!.
    + rewrite E1. destruct (lcontent (lstep_iter it)) as [|[g y] l]; [done|]. by rewrite step_list_cons by lia.
    + destruct (lcontent (lstep_iter it)) as [|[g y] l]; [cbn [tail]; by rewrite drop_nil|]. by rewrite step_list_cons by lia.
    + unfold local_step_index. cbn. by rewrite A2, E3.
    + apply kept_step; [by eapply kept_chain|done|done|done].
  - intros it (Hok & _ & Hst & Hl & _). cbn. unfold local_step_elems. rewrite l_elems by done.
    rewrite f32_ceil_div by lia. apply as_usize_id.
    generalize dependent (lelems (lstep_iter it)). generalize dependent (lstep_size it). intros st Hst L HL.
    split; [apply Z.div_pos; lia|]. apply Z.div_lt_upper_bound; [lia|nia].
  - done.
Qed.
End StepBy.

(** *** [Zip] *)

Section ZipLaws.
Context {I J A B : Type} `{LocalLaws I A, LocalLaws J B}.

Definition pair_up (p : Z * A) (q : Z * B) : Z * (A * B) := (fst p, (snd p, snd q)).

#[export] Instance local_zip_spec : LocalSpec (Zip I J) (A * B) := {
  lritems it p := p' ← lritems (zip_a it) p; q ← lritems (zip_b it) p; Some (pair_up p' q);
  lcontent it := zip_with pair_up (lcontent (zip_a it)) (lcontent (zip_b it));
  lelems it := Z.min (lelems (zip_a it)) (it_elems (zip_b it) (lnum (zip_a it)));
  lnum it := lnum (zip_a it);
  lrange _ _ _ := True;
  lok it := lok (zip_a it) /\ lok (zip_b it) /\ (exists n, flat (zip_a it) n) /\ (exists n, flat (zip_b it) n);
}.

Lemma kept_zip (it it' : Zip I J) : kept (zip_a it) (zip_a it') -> kept (zip_b it) (zip_b it') -> lok it -> kept it it'.
Proof.
  intros K1 K2 (_ & _ & (n & F1) & (m & F2)). pose proof K1 as [E1 E2 E3 E4 E5 E6 Hok1].
  pose proof K2 as [G1 G2 G3 G4 G5 G6 Hok2].
  split; cbn -[Z.min]; unfold zip_init, zip_elems; rewrite ?E1, ?E2, ?E3, ?E4, ?E5, ?E6, ?G1, ?G2, ?G3, ?G4, ?G5, ?G6; try done.
  split_and!; [done|done|exists n; by eapply flat_kept|exists m; by eapply flat_kept].
Qed.

Lemma kept_same {K C} `{DistributedIterator K C, LocalSpec K C} (it : K) : lok it -> kept it it.
Proof. by split. Qed.

Lemma flat_zip (it : Zip I J) n m : flat (zip_a it) n -> flat (zip_b it) m -> flat it (Z.min n m).
Proof.
  intros [F1 F2 F3 F4] [G1 G2 G3 G4]. split; cbn.
  - intros p g x. destruct (lritems (zip_a it) p) as [[g' x']|] eqn:E; [|done]. cbn.
    destruct (lritems (zip_b it) p) as [[h y]|] eqn:E'; [|done]. cbn. intros [= <- <-].
    apply F1 in E as [-> ?]. apply G1 in E' as [-> ?]. split; [done|lia].
  - intros p Hp. destruct (F2 p ltac:(lia)) as [x ->], (G2 p ltac:(lia)) as [y ->]. by eexists.
  - intros s c p Hs Hc Hp. destruct (F3 s c p Hs Hc Hp) as [->|[? ->]]; [by left|right; split; [lia|done]].
  - done.
Qed.

#[export] Instance local_zip_laws : LocalLaws (Zip I J) (A * B).
Proof.
  split.
  - intros it s c Hok Hs Hc _. pose proof Hok as (Hok1 & Hok2 & (n & F1) & (m & F2)).
    destruct (l_init _ s c Hok1 Hs Hc (flat_range _ _ F1 s c Hs Hc)) as (E1 & _ & K1).
    destruct (l_init _ s c Hok2 Hs Hc (flat_range _ _ F2 s c Hs Hc)) as (E2 & _ & K2).
    pose proof (flat_zip it n m F1 F2) as F. split_and!; [|by eapply flat_aligned|by apply kept_zip].
    cbn. rewrite E1, E2. apply list_eq. intros k.
    rewrite lookup_zip_with, (flat_at (zip_a it) n), (flat_at (zip_b it) m), (flat_at it (Z.min n m)) by done.
    by destruct (decide _).
  - intros it Hok. pose proof Hok as (Hok1 & Hok2 & _). destruct (l_next _ Hok1) as (E1 & E2 & E3 & K1).
    destruct (l_next _ Hok2) as (G1 & G2 & _ & K2). cbn. unfold zip_next.
    destruct (it_next (zip_a it)) as [x ia]. destruct (it_next (zip_b it)) as [y ib]. cbn in *. subst x y.
    destruct (lcontent (zip_a it)) as [|[g x] l]; cbn in *; [|destruct (lcontent (zip_b it)) as [|[h y] l']]; cbn in *.
    + rewrite E2. split_and!; try done. apply kept_zip; [done|by apply kept_same|done].
    + rewrite G2. split_and!; try done; [by destruct (lcontent ia)|by apply kept_zip].
    + rewrite E2, G2. split_and!; try done. by apply kept_zip.
  - intros it (Hok & _). cbn. unfold zip_elems. by rewrite l_elems.
  - done.
Qed.
End ZipLaws.

(** *** [Chunks] *)

Section ChunksLaws.
Context {I A : Type} `{LocalLaws I A}.

Definition chunk_at (it : Chunks I) (p : Z) : Z * I := (p, it_init (chunks_iter it) (p * chunk_size it) (chunk_size it)).
Definition num_chunks (it : Chunks I) : Z := (lelems (chunks_iter it) + chunk_size it - 1) / chunk_size it.

#[export] Instance local_chunks_spec : LocalSpec (Chunks I) I := {
  lritems it p := if p <? num_chunks it then Some (chunk_at it p) else None;
  lcontent it := chunk_at it <$> seqZ (chunks_cur it) (chunks_end it - chunks_cur it);
  lelems := num_chunks;
  lnum it := lnum (chunks_iter it);
  lrange it s c := s + c <= num_chunks it;
  lok it := lok (chunks_iter it) /\ flat (chunks_iter it) (lelems (chunks_iter it)) /\ 0 < chunk_size it /\
            0 <= lelems (chunks_iter it);
}.

Lemma kept_chunks (it it' : Chunks I) : kept (chunks_iter it) (chunks_iter it') -> chunk_size it' = chunk_size it ->
  lok it -> kept it it'.
Proof.
  intros K Es (_ & F & Hs & Hl). pose proof K as [E1 E2 E3 E4 E5 E6 Hok].
  split; cbn; unfold chunks_init, chunks_elems, chunk_at, num_chunks; rewrite ?E1, ?E2, ?E3, ?E4, ?E5, ?E6, ?Es; try done.
  split_and!; try done. by eapply flat_kept.
Qed.

Lemma chunks_elems_ceil a b : 0 < b -> 0 <= a -> (if 0 <? a mod b then 1 + a / b else a / b) = (a + b - 1) / b.
Proof.
  intros Hb Ha. pose proof (Z.div_mod a b ltac:(lia)) as E. pose proof (Z.mod_pos_bound a b Hb) as Hm.
  destruct (Z.ltb_spec 0 (a mod b)).
  - apply (Z.div_unique_pos _ _ _ (a mod b - 1)); lia.
  - apply (Z.div_unique_pos _ _ _ (b - 1)); lia.
Qed.

Lemma lranges_chunks (it : Chunks I) s c : s + c <= num_chunks it -> lranges it s c = chunk_at it <$> seqZ s c.
Proof.
  intros Hr. unfold lranges. rewrite (omap_seqZ_ext _ (fun p => Some (chunk_at it p))).
  - by induction (seqZ s c) as [|p ps IH]; cbn; [|rewrite IH].
  - intros i Hi. cbn. by rewrite (proj2 (Z.ltb_lt i _)) by lia.
Qed.

#[export] Instance local_chunks_laws : LocalLaws (Chunks I) I.
Proof.
  split.
  - intros it s c Hok Hs Hc Hr. pose proof Hok as (Hoki & F & Hz & Hl). cbn in Hr.
    destruct (l_init (chunks_iter it) (s * chunk_size it) ((s + c) * chunk_size it) Hoki ltac:(nia) ltac:(nia)) as (_ & _ & K).
    { apply (flat_range _ _ F); nia. }
    rewrite lranges_chunks by done. split_and!.
    + cbn. replace (s + c - s) with c by lia. unfold chunk_at. cbn. by rewrite (kept_init _ _ K).
    + intros k g x (p & [= -> ->] & [-> Hk]%lookup_seqZ)%list_lookup_fmap_Some. cbn.
      assert (Hp : (s + Z.of_nat k) * chunk_size it < lelems (chunks_iter it))
        by (apply ceil_lt; [done|]; change (s + Z.of_nat k < num_chunks it); lia).
      destruct (flat_index _ _ F (s * chunk_size it) ((s + c) * chunk_size it) (s + Z.of_nat k)) as [|[]];
        [nia|nia|lia|done|nia].
    + by apply kept_chunks.
  - intros it Hok. pose proof Hok as (Hoki & _). cbn. unfold chunks_next.
    destruct (Z.ltb_spec (chunks_cur it) (chunks_end it)).
    + rewrite seqZ_cons by lia. split; [done|]. split; [|split; [done|]].
      * cbn. unfold chunk_at. cbn. do 2 f_equal; lia.
      * apply kept_chunks; [by apply kept_same|done|done].
    + rewrite seqZ_nil by lia. cbn. rewrite seqZ_nil by lia. by split_and!.
  - intros it (Hok & _ & Hz & Hl). cbn. unfold chunks_elems. rewrite l_elems by done. by apply chunks_elems_ceil.
  - intros it s c (Hok & _) Hs Hc Hsc. done.
Qed.

(** A [Chunk] yields the elements of its range. *)
Lemma drain_content fuel (it : I) : lok it -> (length (lcontent it) <= fuel)%nat -> drain fuel it = snd <$> lcontent it.
Proof.
  revert it. induction fuel as [|fuel IH]; intros it Hok Hl.
  - destruct (lcontent it); cbn in *; [done|lia].
  - cbn. destruct (l_next _ Hok) as (E1 & E2 & _ & K). destruct (it_next it) as [x it']. cbn in *. subst x.
    destruct (lcontent it) as [|[g y] l]; cbn in *; [done|].
    rewrite IH; [by rewrite E2|by apply (kept_ok _ _ K)|rewrite E2; lia].
Qed.
End ChunksLaws.

(** ** Schedules *)

Section Schedules.
Context {I A : Type} `{LocalLaws I A}.

Definition local_spec : IterSpec I A :=
  {| items it p := snd <$> lritems it p; local_len := lelems; num_local := lnum;
     content it := snd <$> lcontent it; it_ok := lok |}.

Lemma local_within : @WithinLaws I A _ local_spec.
Proof.
  split; cbn.
  - intros it s c Hok Hs Hc Hsc. destruct (l_init it s c Hok Hs Hc (l_within it s c Hok Hs Hc Hsc)) as (E & _ & K).
    rewrite E, (kept_items _ _ K). split_and!; [|done|apply (kept_elems _ _ K)|apply (kept_ok _ _ K)].
    unfold lranges, range_items. cbn. rewrite list_fmap_omap, Z.min_l, Z.min_l by lia. do 2 f_equal. lia.
  - intros it Hok. destruct (l_next it Hok) as (E1 & E2 & _ & K). rewrite E1, E2, (kept_items _ _ K).
    split_and!; [by destruct (lcontent it)|by destruct (lcontent it)|done|apply (kept_elems _ _ K)|apply (kept_ok _ _ K)].
  - intros it Hok. by apply l_elems.
Qed.
End Schedules.

(** Every execution of [for_each] ends, and applies the closure to [out], each element once. *)
Definition each_once {I A} `{DistributedIterator I A} (sched : Schedule) (W n : Z) (it : I) (out : list A) : Prop :=
  exists s0, launch sched W n it = Done s0 /\ sn wstep s0 /\
    forall s', rtc wstep s0 s' -> nf wstep s' -> output s' ≡ₚ out.

Lemma local_for_each {I A} `{LocalLaws I A} sched W n (it : I) out :
  lok it -> lnum it = n -> 0 <= lelems it <= 2 ^ 50 -> 0 < W < 2 ^ 31 ->
  sched = Static \/ sched = Dynamic \/ sched = WorkStealing ->
  snd <$> lranges it 0 (lelems it) = out -> each_once sched W n it out.
Proof.
  intros Hok <- Hn HW Hs <-.
  destruct (@launch_within I A _ local_spec local_within it sched W Hok Hn HW Hs) as (s0 & E & Hsn & Hd).
  exists s0. split; [exact E|]. split; [done|]. intros s' Hr Hf. rewrite (Hd s' Hr Hf). cbn.
  unfold lranges. by rewrite list_fmap_omap.
Qed.

(** ** What the adapters yield in all *)

Lemma fmap_step_list {B C} (f : B -> C) st l : 0 < st -> f <$> step_list st l = step_list st (f <$> l).
Proof.
  intros Hst. apply list_eq. intros i. by rewrite list_lookup_fmap, !step_list_lookup, list_lookup_fmap by done.
Qed.

Section All.
Context {I A : Type} `{LocalLaws I A, !LocalAdvance I A}.
Context (it : I) (n : Z) (Hn : 0 <= n) (F : flat it n).

Lemma lranges_take c : lranges it 0 c = take (Z.to_nat c) (lranges it 0 n).
Proof.
  apply list_eq. intros k. rewrite lookup_take, !(flat_at it n) by done.
  destruct (decide (Z.of_nat k < c)), (decide (k < Z.to_nat c)%nat); try done; [|lia|lia].
  destruct (decide (Z.of_nat k < n)); [done|]. apply (flat_none _ n); [done|lia|lia].
Qed.

Lemma lranges_drop s c : 0 <= s -> 0 <= c -> lranges it s c = take (Z.to_nat c) (drop (Z.to_nat s) (lranges it 0 n)).
Proof.
  intros Hs Hc. apply list_eq. intros k. rewrite lookup_take, lookup_drop, !(flat_at it n) by done.
  replace (0 + Z.of_nat (Z.to_nat s + k)) with (s + Z.of_nat k) by lia.
  destruct (decide (Z.of_nat k < c)), (decide (k < Z.to_nat c)%nat); try done; [|lia|lia].
  destruct (decide (Z.of_nat (Z.to_nat s + k) < n)); [done|]. apply (flat_none _ n); [done|lia|lia].
Qed.

Lemma length_lranges : length (lranges it 0 n) = Z.to_nat n.
Proof.
  apply Nat.le_antisymm.
  - rewrite lranges_take, length_take. lia.
  - destruct (Nat.le_gt_cases (Z.to_nat n) (length (lranges it 0 n))) as [|Hlt]; [done|].
    pose proof (proj2 (lookup_ge_None (lranges it 0 n) (length (lranges it 0 n))) ltac:(lia)) as E.
    rewrite (flat_at it n) in E by done. destruct (decide _); [|lia].
    apply (flat_none _ n) in E; [lia|done|lia].
Qed.

Lemma all_take m : 0 <= m ->
  lranges (local_take it m) 0 (Z.min n m) = take (Z.to_nat m) (lranges it 0 n).
Proof.
  intros Hm. apply list_eq. intros k.
  rewrite lookup_take, (flat_at it n), (flat_at (local_take it m) (Z.min n m)) by (done || by apply flat_take).
  cbn -[Z.min].
  destruct (decide (k < Z.to_nat m)%nat), (decide (Z.of_nat k < Z.min n m)), (decide (Z.of_nat k < n)); try lia; try done.
  by rewrite (proj2 (Z.ltb_lt _ _)) by lia.
Qed.

Lemma all_step st : 1 <= st ->
  snd <$> lranges (local_step_by it st) 0 ((n + st - 1) / st) = step_list st (snd <$> lranges it 0 n).
Proof.
  intros Hst. assert (Hc : 0 <= (n + st - 1) / st) by (apply Z.div_pos; lia).
  rewrite (lranges_step (local_step_by it st) n) by (done || cbn; lia). cbn [lstep_size lstep_iter local_step_by].
  rewrite <- list_fmap_compose, <- fmap_step_list by lia. change (snd ∘ quot st) with (@snd Z A).
  f_equal. f_equal. rewrite lranges_take. apply take_ge. rewrite length_lranges.
  pose proof (Z.mul_div_le (n + st - 1) st ltac:(lia)). pose proof (Z.mul_succ_div_gt (n + st - 1) st ltac:(lia)). lia.
Qed.

Lemma all_skip k : 0 <= k <= n ->
  snd <$> lranges (local_skip it k) 0 (n - k) = drop (Z.to_nat k) (take (Z.to_nat (n - k)) (snd <$> lranges it 0 n)).
Proof.
  intros Hk. rewrite (lranges_skip (local_skip it k) n) by (done || lia). cbn [lskip_count lskip_iter local_skip].
  rewrite lranges_take, <- list_fmap_compose. change (snd ∘ less k) with (@snd Z A).
  rewrite <- fmap_take, <- fmap_drop. f_equal. destruct (Z.le_gt_cases k (n - k)).
  - f_equal. lia.
  - rewrite !drop_ge; [done| |]; rewrite length_take; lia.
Qed.
End All.

Lemma all_zip {I J A B} `{LocalLaws I A, LocalLaws J B} (it : I) (it' : J) n m : 0 <= n -> 0 <= m ->
  flat it n -> flat it' m ->
  snd <$> lranges (local_zip it it') 0 n = zip (snd <$> lranges it 0 n) (snd <$> lranges it' 0 m).
Proof.
  intros Hn Hm F G. apply list_eq. intros k.
  rewrite list_lookup_fmap, (flat_at (local_zip it it') (Z.min n m)) by (done || by apply flat_zip).
  rewrite lookup_zip_with, !list_lookup_fmap, (flat_at it n), (flat_at it' m) by done.
  rewrite !Z.add_0_l. destruct (decide (Z.of_nat k < n)); [|done]. cbn.
  destruct (lritems it (Z.of_nat k)) as [[g x]|]; cbn; [|done].
  destruct (decide (Z.of_nat k < m)); [by destruct (lritems it' (Z.of_nat k)) as [[h y]|]|].
  by rewrite (proj2 (flat_none it' m (Z.of_nat k) G ltac:(lia))) by lia.
Qed.

(** ** Arrays *)

(** The local elements of a PE, in order. *)
Definition local_slice {T} (a : UnsafeArrayInner) (mem : Z -> T) : list T :=
  view_local (local_view a mem) <$> seqZ 0 (view_num (local_view a mem)).

Section Arrays.
Context {T : Type} (N P : Z) (a : UnsafeArrayInner) (Hwf : layout_wf N P a) (pe : Z) (Hpe : 0 <= pe < P) (mem : Z -> T).
Local Abbreviation n := (count N P a pe).
Local Abbreviation it := (local_iter (at_pe a pe) mem).

Lemma local_view_num : view_num (local_view (at_pe a pe) mem) = n.
Proof. exact (view_num_eq N P a Hwf pe mem Hpe). Qed.

Lemma local_count : 0 <= n <= Distribution.size a /\ Distribution.size a <= 2 ^ 50.
Proof. pose proof Hwf as []. split; [by apply count_bound|lia]. Qed.

Lemma local_view_ok : view_ok (local_view (at_pe a pe) mem).
Proof.
  pose proof local_count as [? ?]. constructor; rewrite ?local_view_num; cbn [view_len view_index local_view];
    change (Distribution.size (at_pe a pe)) with (Distribution.size a).
  - done.
  - lia.
  - intros i Hi. exists i. rewrite (proj2 (Z.ltb_lt _ _)) by lia. split; [done|lia].
  - intros i j g h Hij Hj. rewrite !(proj2 (Z.ltb_lt _ _)) by lia. intros [= <-] [= <-]. lia.
  - intros i Hi. by rewrite (proj2 (Z.ltb_ge _ _)) by lia.
Qed.

Lemma local_iter_ok : lok it.
Proof.
  split; [exact local_view_ok|]. cbn -[local_view]. rewrite local_view_num. pose proof local_count. lia.
Qed.

Lemma local_flat : flat it n.
Proof.
  rewrite <- local_view_num. apply local_iter_flat; [exact local_iter_ok|]. intros i Hi. cbn -[local_view].
  rewrite local_view_num. cbn [view_index local_view]. change (Distribution.size (at_pe a pe)) with (Distribution.size a).
  pose proof local_count. destruct (Z.ltb_spec i (Distribution.size a)); [by left|right; split; [lia|done]].
Qed.

Lemma local_enum_ok : lok (iter_enumerate it) /\ flat (iter_enumerate it) n.
Proof.
  split; [|apply flat_enum, local_flat]. split; [exact local_iter_ok|]. intros k g x. cbn. by rewrite seqZ_nil by lia.
Qed.

Lemma local_item o : 0 <= o < n -> lritems it o = Some (o, view_local (local_view (at_pe a pe) mem) o).
Proof.
  intros Ho. destruct (view_item_some (local_view (at_pe a pe) mem) o local_view_ok) as (g & E & Hg & _).
  { by rewrite local_view_num. }
  change (lritems it o) with (view_item (local_view (at_pe a pe) mem) o). rewrite E. repeat f_equal.
  by apply (flat_item _ _ local_flat o g) in E as [-> _].
Qed.

Lemma all_local : lranges it 0 n = indexed (local_slice (at_pe a pe) mem).
Proof.
  apply list_eq. intros k. unfold indexed. rewrite (flat_at it n) by (done || exact local_flat).
  rewrite indexed_lookup. unfold local_slice. rewrite list_lookup_fmap, local_view_num.
  destruct (decide _) as [Hk|Hk].
  - rewrite local_item by lia. rewrite lookup_seqZ_lt by lia. done.
  - by rewrite lookup_seqZ_ge by lia.
Qed.

Lemma all_enum : snd <$> lranges (iter_enumerate it) 0 n = indexed (local_slice (at_pe a pe) mem).
Proof.
  rewrite lranges_enum. cbn [enum_iter iter_enumerate]. rewrite all_local, <- list_fmap_compose.
  rewrite <- (list_fmap_id (indexed _)) at 2. by apply list_fmap_ext; intros ? [? ?].
Qed.

Lemma all_elems : snd <$> lranges it 0 n = local_slice (at_pe a pe) mem.
Proof. rewrite all_local. apply snd_indexed. Qed.

Lemma local_elems : lelems it = n /\ lnum it = n.
Proof. split; exact local_view_num. Qed.

Context (W : Z) (HW : 0 < W < 2 ^ 31) (sched : Schedule)
  (Hs : sched = Static \/ sched = Dynamic \/ sched = WorkStealing).
Local Abbreviation l := (local_slice (at_pe a pe) mem).
Local Abbreviation ix := (iter_enumerate it).

(** A flat iterator over the local elements, with any adapter. *)
Lemma once {J B} `{LocalLaws J B} (jt : J) e out : lok jt -> lnum jt = n -> lelems jt = e -> 0 <= e <= 2 ^ 50 ->
  snd <$> lranges jt 0 e = out -> each_once sched W n jt out.
Proof. intros Hok Hn <- He Ho. by apply local_for_each. Qed.

Lemma enumerate_once : each_once sched W n ix (indexed l).
Proof.
  pose proof local_count. apply (once ix n); [apply local_enum_ok|apply local_elems|apply local_elems|lia|exact all_enum].
Qed.

Lemma take_once m : 0 <= m -> each_once sched W n (local_take ix m) (take (Z.to_nat m) (indexed l)).
Proof.
  intros Hm. pose proof local_count. destruct local_enum_ok as [Hok F].
  apply (once (local_take ix m) (Z.min n m)); [by split|apply local_elems| |lia|].
  - change (Z.min (lelems it) m = Z.min n m). by rewrite (proj1 local_elems).
  - rewrite (all_take ix n), fmap_take by (done || lia). f_equal. exact all_enum.
Qed.

Lemma step_once st : 1 <= st < 2 ^ 24 -> n < 2 ^ 24 -> each_once sched W n (local_step_by ix st) (step_list st (indexed l)).
Proof.
  intros Hst Hb. pose proof local_count. destruct local_enum_ok as [Hok F].
  assert (Hc : 0 <= (n + st - 1) / st < n + st).
  { split; [apply Z.div_pos; lia|]. apply Z.div_lt_upper_bound; [lia|nia]. }
  apply (once (local_step_by ix st) ((n + st - 1) / st)); [|apply local_elems| |lia|].
  - split; [done|]. split; [by exists n|]. split; [done|]. split; [|done].
    change (0 <= lelems it < 2 ^ 24). rewrite (proj1 local_elems). lia.
  - change ((lelems it + st - 1) / st = (n + st - 1) / st). by rewrite (proj1 local_elems).
  - rewrite (all_step ix n) by (done || lia). f_equal. exact all_enum.
Qed.

Lemma skip_once k : 0 <= k <= n ->
  each_once sched W n (local_skip ix k) (drop (Z.to_nat k) (take (Z.to_nat (n - k)) (indexed l))).
Proof.
  intros Hk. pose proof local_count. destruct local_enum_ok as [Hok F].
  apply (once (local_skip ix k) (n - k)); [|apply local_elems| |lia|].
  - split; [done|]. split; [exists n; split; [done|lia]|].
    change (0 <= k <= lelems it /\ lelems it < 2 ^ 63). rewrite (proj1 local_elems). lia.
  - change (lelems it - k = n - k). by rewrite (proj1 local_elems).
  - rewrite (all_skip ix n) by (done || lia). do 2 f_equal. exact all_enum.
Qed.

Lemma chunks_once size : 0 < size -> exists cs, each_once sched W n (iter_enumerate (local_chunks it size)) (indexed cs) /\
  drain (Z.to_nat size) <$> cs =
    (fun i => take (Z.to_nat size) (drop (Z.to_nat (i * size)) l)) <$> seqZ 0 ((n + size - 1) / size).
Proof.
  intros Hsize. pose proof local_count. set (c := (n + size - 1) / size).
  assert (Hc : 0 <= c < n + 1) by (split; [apply Z.div_pos; lia|apply Z.div_lt_upper_bound; [lia|nia]]).
  assert (Ec : num_chunks (local_chunks it size) = c).
  { unfold num_chunks. cbn [chunks_iter chunk_size local_chunks]. by rewrite (proj1 local_elems). }
  exists ((fun p => it_init it (p * size) size) <$> seqZ 0 c). split.
  - apply (once (iter_enumerate (local_chunks it size)) c); [|apply local_elems|exact Ec|lia|].
    + split; [|intros k g x; cbn; by rewrite seqZ_nil by lia].
      split; [exact local_iter_ok|]. split; [|split; [done|]].
      * change (flat it (lelems it)). rewrite (proj1 local_elems). exact local_flat.
      * change (0 <= lelems it). rewrite (proj1 local_elems). lia.
    + rewrite lranges_enum. cbn [enum_iter iter_enumerate]. rewrite lranges_chunks by (rewrite Ec; lia).
      apply list_eq. intros k. unfold indexed. rewrite indexed_lookup, !list_lookup_fmap.
      destruct (seqZ 0 c !! k) as [p|] eqn:E; [|done]. by apply lookup_seqZ in E as [-> _].
  - rewrite <- list_fmap_compose. apply list_fmap_ext. intros k p [-> Hk]%lookup_seqZ. cbn [compose].
    destruct (l_init it ((0 + Z.of_nat k) * size) size local_iter_ok ltac:(nia) ltac:(lia) I) as (E & _ & K).
    pose proof (lranges_drop it n local_flat ((0 + Z.of_nat k) * size) size ltac:(nia) ltac:(lia)) as ED.
    rewrite drain_content; [|apply (kept_ok _ _ K)|rewrite E, ED, length_take; lia].
    rewrite E, ED, fmap_take, fmap_drop. do 2 f_equal. exact all_elems.
Qed.
End Arrays.

Lemma zip_once {T U} (N N' P : Z) (a b : UnsafeArrayInner) (mem : Z -> T) (mem' : Z -> U) (pe W : Z) (sched : Schedule) :
  layout_wf N P a -> layout_wf N' P b -> 0 <= pe < P -> 0 < W < 2 ^ 31 ->
  sched = Static \/ sched = Dynamic \/ sched = WorkStealing ->
  each_once sched W (count N P a pe) (local_zip (local_iter (at_pe a pe) mem) (local_iter (at_pe b pe) mem'))
    (zip (local_slice (at_pe a pe) mem) (local_slice (at_pe b pe) mem')).
Proof.
  intros Hwf Hwf' Hpe HW Hs. pose proof (local_count N P a Hwf pe Hpe). pose proof (local_count N' P b Hwf' pe Hpe).
  destruct (local_elems N P a Hwf pe Hpe mem) as [El En].
  pose proof (local_flat N P a Hwf pe Hpe mem) as Fi. pose proof (local_flat N' P b Hwf' pe Hpe mem') as Fj.
  set (it := local_iter (at_pe a pe) mem) in *. set (jt := local_iter (at_pe b pe) mem') in *.
  apply (once N P a pe W HW sched Hs (local_zip it jt) (count N P a pe)); [|done| |lia|].
  - split_and!; [by apply (local_iter_ok N P)|by apply (local_iter_ok N' P)|by eexists|by eexists].
  - change (Z.min (lelems it) (lnum it) = count N P a pe). rewrite El, En. lia.
  - rewrite (all_zip it jt _ (count N' P b pe)) by (done || lia). f_equal; by apply all_elems.
Qed.

(** ** Properties *)

(** C37: the adapters of local iterators, on the local elements [l] of a PE of a block or cyclic
    (sub)array, do what those of a sequential iterator over [l] do -- but for [skip], which also
    leaves out the last [k] elements.  With the schedules [Static], [Dynamic] and [WorkStealing],
    any number of threads (below 2^31) and any interleaving of their steps, every execution of
    [for_each] ends and applies the closure once to each element of [enumerate()],
    [enumerate().take(m)], [enumerate().step_by(st)] (fewer than 2^24 elements and a step below
    2^24: the number of steps is a quotient in single precision), [enumerate().skip(k)] ([k] at
    most the number of elements), [zip] with the iterator of another array (up to the shorter
    one), and [chunks(size).enumerate()], where chunk [i] yields the elements from [i * size] on. *)
Theorem local_adapters {T U} (N N' P : Z) (a b : UnsafeArrayInner) (mem : Z -> T) (mem' : Z -> U)
    (pe W : Z) (sched : Schedule) (m st k size : Z) :
  layout_wf N P a -> layout_wf N' P b -> 0 <= pe < P -> 0 < W < 2 ^ 31 ->
  sched = Static \/ sched = Dynamic \/ sched = WorkStealing ->
  0 <= m -> 1 <= st < 2 ^ 24 -> 0 < size ->
  let n := count N P a pe in
  let it := local_iter (at_pe a pe) mem in
  let l := local_slice (at_pe a pe) mem in
  each_once sched W n (iter_enumerate it) (indexed l) /\
  each_once sched W n (local_take (iter_enumerate it) m) (take (Z.to_nat m) (indexed l)) /\
  (n < 2 ^ 24 -> each_once sched W n (local_step_by (iter_enumerate it) st) (step_list st (indexed l))) /\
  (0 <= k <= n -> each_once sched W n (local_skip (iter_enumerate it) k)
                    (drop (Z.to_nat k) (take (Z.to_nat (n - k)) (indexed l)))) /\
  each_once sched W n (local_zip it (local_iter (at_pe b pe) mem')) (zip l (local_slice (at_pe b pe) mem')) /\
  exists cs, each_once sched W n (iter_enumerate (local_chunks it size)) (indexed cs) /\
    drain (Z.to_nat size) <$> cs =
      (fun i => take (Z.to_nat size) (drop (Z.to_nat (i * size)) l)) <$> seqZ 0 ((n + size - 1) / size).
Proof.
  intros Hwf Hwf' Hpe HW Hs Hm Hst Hsize n it l. split_and!.
  - by apply enumerate_once.
  - by apply take_once.
  - by apply step_once.
  - by apply skip_once.
  - by apply (zip_once N N').
  - by apply chunks_once.
Qed.

(** PE 1 of [ex_block] has the elements 103 and 104, PE 2 has 105, 106 and 107. *)
Lemma local_adapters_witness :
  let it := local_iter (at_pe ex_block 2) (ex_mem 2) in
  each_once Dynamic 2 3 (local_step_by (iter_enumerate it) 2) [(0, 105); (2, 107)] /\
  each_once Dynamic 2 3 (local_skip (iter_enumerate it) 1) [(1, 106)] /\
  each_once Dynamic 2 3 (local_zip it it) [(105, 105); (106, 106); (107, 107)] /\
  exists cs, each_once Dynamic 2 3 (iter_enumerate (local_chunks it 2)) (indexed cs) /\
    drain 2 <$> cs = [[105; 106]; [107]].
Proof.
  destruct (local_adapters 10 10 4 ex_block ex_block (ex_mem 2) (ex_mem 2) 2 2 Dynamic 2 2 1 2
    ex_block_wf ex_block_wf ltac:(lia) ltac:(lia) ltac:(by right; left) ltac:(lia) ltac:(lia) ltac:(lia))
    as (_ & _ & H3 & H4 & H5 & H6).
  split; [exact (H3 eq_refl)|]. split; [exact (H4 ltac:(vm_compute; split; discriminate))|]. split; [exact H5|exact H6].
Defined.

(** A finished [for_each] has applied the closure to [out]. *)
Definition local_done {I A} `{DistributedIterator I A} (sched : Schedule) (W n : Z) (it : I) (out : list A) : Prop :=
  exists s0 s', launch sched W n it = Done s0 /\ rtc wstep s0 s' /\ nf wstep s' /\ output s' = out.

Lemma local_single_done {I A} `{DistributedIterator I A} fuel sched n (it : I) out :
  match launch sched 1 n it with Done s0 => output <$> run_single fuel s0 | _ => None end = Some out ->
  local_done sched 1 n it out.
Proof.
  destruct (launch sched 1 n it) as [s0|] eqn:E; [|done].
  intros (s' & [Hr Hn]%run_single_run & ->)%fmap_Some. by exists s0, s'.
Qed.

(** [n] local elements of a single PE, of the values 0, 1, ... *)
Definition single (n : Z) : DistIter Z := dist_iter_new (view_upto n id) 0 0.

(** The example in the documentation of [skip]: with 4 elements on a PE,
    [enumerate().skip(3)] should yield element 3, and yields nothing. *)
Theorem local_skip_nothing : local_done Static 1 4 (local_skip (iter_enumerate (single 4)) 3) [].
Proof. apply (local_single_done 9). vm_compute. reflexivity. Qed.

(** With fewer local elements than [skip] skips, their number wraps around. *)
Theorem local_skip_wraps : local_skip_elems (local_skip (single 2) 3) 2 = 2 ^ 64 - 1.
Proof. vm_compute. reflexivity. Qed.

(** [zip] of an iterator that skips pairs elements by their position in the range of a worker:
    the pairs depend on the schedule. *)
Theorem zip_skip_misaligned :
  local_done Static 1 4 (local_zip (local_skip (single 4) 1) (single 4)) [(1, 0); (2, 1)] /\
  local_done Dynamic 1 4 (local_zip (local_skip (single 4) 1) (single 4)) [(1, 1); (2, 2)].
Proof. split; apply (local_single_done 9); vm_compute; reflexivity. Qed.

(** [advance_index] of [StepBy] does not count steps: of 8 elements [step_by(2).step_by(2)]
    yields 0, 3 and 6 instead of 0 and 4. *)
Theorem local_step_by_twice : local_done Static 1 8 (local_step_by (local_step_by (single 8) 2) 2) [0; 3; 6].
Proof. apply (local_single_done 9). vm_compute. reflexivity. Qed.

(** With [Schedule::Chunk] the last range goes beyond the chunks there are, and yields empty
    ones. *)
Theorem chunks_extra_empty :
  exists cs, local_done (Chunk 2) 1 3 (local_chunks (single 3) 1) cs /\ drain 1 <$> cs = [[0]; [1]; [2]; []].
Proof. eexists. split; [apply (local_single_done 9); vm_compute; reflexivity|vm_compute; reflexivity]. Qed.
