(* ===== verification/Consumers.v ===== *)
(** * Consumers: count, sum, reduce and collect of distributed iterators

    Models the consumers of [src/array/iterator/distributed_iterator/consumer/]: what the
    request of each worker returns ([CountAm], [SumAm], [ReduceAm], [CollectAm]), how the
    handle combines the results of the workers and those of the PEs, and the array that
    [collect] makes of them ([UnsafeArray::team_from]).  The workers are those of
    [Schedule]; the messages and one-sided iterators that exchange the local results deliver
    one value per PE, in any order for the counts and in the order of the PEs otherwise. *)

From stdpp Require Import base sets list numbers relations sorting.
From Stdlib Require Import ZArith Lia.
From S2P Require Import Prelude BlockBounds Iterators IndexedIterators ScheduleRanges Schedule Distribution GlobalIter.
Local Open Scope Z_scope.

(** ** The operations *)

Section Consumers.
Context {A : Type}.

(** [CountAm::exec], on what [next] yields to a worker. *)
Fixpoint count_am (count : Z) (items : list A) : outcome Z :=
  match items with
  | [] => Done count
  | _ :: items => let! count := uadd count 1 in count_am count items
  end.

(** [iter().sum::<usize>()] *)
Fixpoint sum_usize (acc : Z) (counts : list Z) : outcome Z :=
  match counts with
  | [] => Done acc
  | c :: counts => let! acc := uadd acc c in sum_usize acc counts
  end.

(** [RemoteIterCountHandle::wait], up to the remote counts: [items], what each worker got. *)
Fixpoint count_workers (items : list (list A)) : outcome (list Z) :=
  match items with
  | [] => Done []
  | got :: items => let! c := count_am 0 got in let! cs := count_workers items in Done (c :: cs)
  end.
Definition count_local (items : list (list A)) : outcome Z :=
  let! counts := count_workers items in sum_usize 0 counts.

(** [UpdateCntAm::exec] *)
Definition update_cnt_am (cnt remote_cnt : Z) : Z := wadd cnt remote_cnt.

(** [reduce_remote_counts]: the [AtomicUsize] when the messages of all the PEs, which arrive in
    some order, have been executed. *)
Definition reduce_remote_counts (arrivals : list Z) : Z := fold_left update_cnt_am arrivals 0.

(** [Iterator::reduce], which [ReduceAm::exec] writes out. *)
Definition reduce (op : A -> A -> A) (items : list A) : option A :=
  match items with
  | [] => None
  | x :: items => Some (fold_left op items x)
  end.

(** [RemoteIterReduceHandle::wait], up to the remote values. *)
Definition reduce_local (op : A -> A -> A) (items : list (list A)) : option A :=
  reduce op (omap id (reduce op <$> items)).

(** [reduce_remote_vals]: [vals], the elements of [local_vals], one of each PE. *)
Definition reduce_remote_vals (op : A -> A -> A) (vals : list (option A)) : option A :=
  reduce op (omap id vals).

(** [RemoteIterSumHandle]: [Sum] of the item type folds with its addition from its zero. *)
Definition sum_local (zero : A) (add : A -> A -> A) (items : list (list A)) : A :=
  fold_left add ((fun got => fold_left add got zero) <$> items) zero.
Definition sum_remote_vals (zero : A) (add : A -> A -> A) (vals : list A) : A := fold_left add vals zero.

(** [temp_vals.sort_by(|a, b| a.0.cmp(&b.0))] and the values of it. *)
Definition key_le (p q : Z * A) : Prop := fst p <= fst q.
#[export] Instance key_le_dec p q : Decision (key_le p q).
Proof. unfold key_le. apply _. Defined.

Definition collect_local (items : list (list (Z * A))) : list A :=
  snd <$> merge_sort key_le (mjoin items).

(** [UnsafeArray::team_from]: the size of the array and where a PE puts its values. *)
Definition team_from_size (local_sizes : list Z) : Z := fold_left Z.add local_sizes 0.
Definition team_from_start (local_sizes : list Z) (my_pe : nat) : Z := fold_left Z.add (take my_pe local_sizes) 0.

(** [array.put(my_start, local_vals)] if there are any, on the elements of the array. *)
Definition team_from_put (my_start : Z) (local_vals array : list A) : list A :=
  if decide (0 < length local_vals)%nat
  then take (Z.to_nat my_start) array ++ local_vals ++ drop (Z.to_nat my_start + length local_vals) array
  else array.

(** The array when all the PEs have put their values, in some order, over what [new] left. *)
Definition team_from (local_vals : list (list A)) (order : list nat) (fresh : list A) : list A :=
  let local_sizes := (fun v => Z.of_nat (length v)) <$> local_vals in
  fold_left (fun array pe => team_from_put (team_from_start local_sizes pe) (nth pe local_vals []) array) order fresh.
End Consumers.

(** *** [Monotonic] *)

Record Monotonic (I : Type) := { mono_iter : I; mono_cur : Z }.
Arguments mono_iter {I}. Arguments mono_cur {I}.

Section Monotonic.
Context {I A : Type} `{DistributedIterator I A}.

Definition mono_init (it : Monotonic I) (start_i cnt : Z) : Monotonic I :=
  {| mono_iter := it_init (mono_iter it) start_i cnt; mono_cur := start_i |}.

Definition mono_next (it : Monotonic I) : option (Z * A) * Monotonic I :=
  match it_next (mono_iter it) with
  | (Some a, iter) => (Some (mono_cur it, a), {| mono_iter := iter; mono_cur := mono_cur it + 1 |})
  | (None, iter) => (None, {| mono_iter := iter; mono_cur := mono_cur it |})
  end.

(** [advance_index] adds 1, whatever the count; no consumer calls it. *)
Definition mono_advance (it : Monotonic I) (count : Z) : Monotonic I :=
  {| mono_iter := it_advance (mono_iter it) count; mono_cur := mono_cur it + 1 |}.

#[export] Instance mono_distributed : DistributedIterator (Monotonic I) (Z * A) := {
  it_init := mono_init;
  it_next := mono_next;
  it_elems it in_elems := it_elems (mono_iter it) in_elems;
  it_advance := mono_advance;
  it_fuel it := it_fuel (mono_iter it);
}.
End Monotonic.
Definition monotonic {I} (it : I) : Monotonic I := {| mono_iter := it; mono_cur := 0 |}.

(** ** Their results *)

Section Results.
Context {A : Type}.

Lemma count_am_length (l : list A) c : 0 <= c -> c + Z.of_nat (length l) < USIZE ->
  count_am c l = Done (c + Z.of_nat (length l)).
Proof.
  revert c. induction l as [|x l IH]; intros c Hc Hl; cbn [count_am length] in *; [f_equal; lia|].
  rewrite uadd_ok by lia. rewrite IH by lia. f_equal. lia.
Qed.

Definition total (cs : list Z) : Z := zsum (fun c => c) cs.

Lemma total_counts_nonneg cs : Forall (fun c => 0 <= c) cs -> 0 <= total cs.
Proof. intros Hcs. apply zsum_nonneg. by apply Forall_forall. Qed.

Lemma sum_usize_ok cs c : 0 <= c -> Forall (fun c => 0 <= c) cs -> c + total cs < USIZE ->
  sum_usize c cs = Done (c + total cs).
Proof.
  intros Hc Hcs. revert c Hc. induction Hcs as [|d cs Hd Hcs IH]; intros c Hc Hl; cbn; [f_equal; cbn; lia|].
  pose proof (total_counts_nonneg cs Hcs). unfold total in *. cbn [zsum] in *.
  rewrite uadd_ok by lia. rewrite IH by lia. f_equal. lia.
Qed.

Lemma total_lengths (items : list (list A)) :
  total ((fun got => Z.of_nat (length got)) <$> items) = Z.of_nat (length (mjoin items)).
Proof.
  unfold total. induction items as [|got items IH]; [done|].
  change (mjoin (got :: items)) with (got ++ mjoin items). cbn [fmap list_fmap zsum]. rewrite IH, length_app. lia.
Qed.

Lemma count_local_length (items : list (list A)) : Z.of_nat (length (mjoin items)) < USIZE ->
  count_local items = Done (Z.of_nat (length (mjoin items))).
Proof.
  intros Hl. unfold count_local.
  assert (E : count_workers items = Done ((fun got => Z.of_nat (length got)) <$> items)).
  { induction items as [|got items IH]; [done|]. change (mjoin (got :: items)) with (got ++ mjoin items) in Hl.
    rewrite length_app in Hl. cbn [count_workers fmap list_fmap]. rewrite count_am_length by lia. by rewrite IH by lia. }
  rewrite E, sum_usize_ok; [by rewrite total_lengths|done| |by rewrite total_lengths].
  apply Forall_fmap, Forall_forall. intros. cbn. lia.
Qed.

Lemma update_cnt_total cs c : 0 <= c -> Forall (fun c => 0 <= c) cs -> c + total cs < USIZE ->
  fold_left update_cnt_am cs c = c + total cs.
Proof.
  intros Hc Hcs. revert c Hc. induction Hcs as [|d cs Hd Hcs IH]; intros c Hc Hl; cbn; [cbn; lia|].
  pose proof (total_counts_nonneg cs Hcs). unfold total in *. cbn [zsum] in *.
  unfold update_cnt_am at 2. rewrite wadd_ok by lia. rewrite IH by lia. lia.
Qed.

Section Reduce.
Context (op : A -> A -> A) (Hassoc : forall x y z, op x (op y z) = op (op x y) z).
Context (Hcomm : forall x y, op x y = op y x).

Lemma fold_op l x y : fold_left op l (op x y) = op x (fold_left op l y).
Proof using Hassoc.
  revert y. induction l as [|z l IH]; intros y; cbn; [done|]. by rewrite <- Hassoc, IH.
Qed.

Lemma reduce_app l1 l2 :
  reduce op (l1 ++ l2) = match reduce op l1, reduce op l2 with
                         | Some x, Some y => Some (op x y) | None, r => r | r, None => r end.
Proof using Hassoc.
  destruct l1 as [|x l1]; cbn; [by destruct (reduce op l2)|]. destruct l2 as [|y l2]; cbn.
  - by rewrite app_nil_r.
  - rewrite fold_left_app. cbn. by rewrite fold_op.
Qed.

Lemma reduce_join ls : reduce op (omap id (reduce op <$> ls)) = reduce op (mjoin ls).
Proof using Hassoc.
  induction ls as [|l ls IH]; [done|]. change (mjoin (l :: ls)) with (l ++ mjoin ls).
  rewrite reduce_app, <- IH. cbn [fmap list_fmap].
  assert (E : forall o, omap id (o :: (reduce op <$> ls)) = option_list o ++ omap id (reduce op <$> ls)) by (by intros [x|]).
  rewrite E. generalize (omap id (reduce op <$> ls)) as r. intros r. destruct (reduce op l) as [x|]; cbn; [|by destruct (reduce op r)].
  destruct r as [|y r]; cbn; [done|]. by rewrite fold_op.
Qed.

Lemma reduce_perm l l' : l ≡ₚ l' -> reduce op l = reduce op l'.
Proof using Hassoc Hcomm.
  induction 1 as [|x l l' HP IH|x y l|l1 l2 l3 _ IH1 _ IH2]; [done| | |congruence].
  - change (x :: l) with ([x] ++ l). change (x :: l') with ([x] ++ l'). by rewrite !reduce_app, IH.
  - cbn. by rewrite (Hcomm y x).
Qed.
End Reduce.

Lemma fold_perm (add : A -> A -> A) zero :
  (forall x y z, add x (add y z) = add (add x y) z) -> (forall x y, add x y = add y x) ->
  forall l l', l ≡ₚ l' -> fold_left add l zero = fold_left add l' zero.
Proof.
  intros Hassoc Hcomm l l' HP. revert zero.
  induction HP as [|x l l' HP IH|x y l|l1 l2 l3 _ IH1 _ IH2]; intros zero; cbn; [done|by apply IH| |congruence].
  by rewrite <- !Hassoc, (Hcomm x y).
Qed.

Lemma fold_join (add : A -> A -> A) zero :
  (forall x y z, add x (add y z) = add (add x y) z) -> (forall x, add zero x = x) -> (forall x, add x zero = x) ->
  forall ls acc, fold_left add ((fun got => fold_left add got zero) <$> ls) acc = fold_left add (mjoin ls) acc.
Proof.
  intros Hassoc Hz Hz' ls. induction ls as [|l ls IH]; intros acc; cbn; [done|].
  rewrite fold_left_app, <- IH. f_equal.
  rewrite <- (fold_op add Hassoc). by rewrite Hz'.
Qed.
End Results.

(** ** What the workers of a schedule got *)

(** What the workers of a finished consumer got on a PE. *)
Definition consumed {I A} `{DistributedIterator I A, !IterSpec I A} (sched : Schedule) (W : Z) (i : I)
    (got : list (list A)) : Prop :=
  exists s0 s', launch sched W (num_local i) i = Done s0 /\ rtc wstep s0 s' /\ nf wstep s' /\ results s' = got.

Section Consumed.
Context {I A : Type} `{WithinLaws I A}.

Lemma launch_started sched W n (i : I) s0 : launch sched W n i = Done s0 -> accounted s0.
Proof.
  unfold launch. destruct sched as [| |c| |].
  - destruct (sched_static W (it_elems i n) i); [|done]. intros [= <-]. apply accounted_started.
  - intros [= <-]. apply accounted_started.
  - destruct (sched_chunk W (it_elems i n) c i); [|done]. intros [= <-]. apply accounted_started.
  - destruct (sched_guided W (it_elems i n) i); [|done]. intros [= <-]. apply accounted_started.
  - destruct (sched_work_stealing W (it_elems i n) i); [|done]. intros [= <-]. apply accounted_started.
Qed.

(** [Static], [Dynamic] and [WorkStealing] consume any iterator. *)
Definition whole (sched : Schedule) : Prop := sched = Static \/ sched = Dynamic \/ sched = WorkStealing.

Lemma consumed_by sched W (i : I) got l :
  (exists s0, launch sched W (num_local i) i = Done s0 /\ sn wstep s0 /\
     forall s', rtc wstep s0 s' -> nf wstep s' -> output s' ≡ₚ l) ->
  consumed sched W i got -> mjoin got ≡ₚ l.
Proof.
  intros (s0' & E' & _ & Hd) (s0 & s' & E & Hr & Hn & <-). rewrite E in E'. injection E' as <-.
  rewrite (proj2 (accounted_run s0 s' (launch_started _ _ _ _ _ E) Hr)). by apply Hd.
Qed.

Lemma consumed_items sched W (i : I) got : it_ok i -> 0 <= local_len i <= 2 ^ 50 -> 0 < W < 2 ^ 31 ->
  whole sched -> consumed sched W i got -> mjoin got ≡ₚ omap (items i) (seqZ 0 (local_len i)).
Proof. intros Hok Hlen HW Hs. by apply consumed_by, launch_within. Qed.
End Consumed.

Lemma consumed_total {I A} `{IterLaws I A} sched W (i : I) got :
  it_ok i -> 0 <= local_len i <= 2 ^ 50 -> 0 < W < 2 ^ 31 -> consumes sched W i ->
  consumed sched W i got -> mjoin got ≡ₚ omap (items i) (seqZ 0 (local_len i)).
Proof. intros Hok Hlen HW Hs. by apply consumed_by, launch_complete. Qed.

(** A single worker. *)
Section ConsumeSingle.
Context {I A : Type} `{DistributedIterator I A, !IterSpec I A}.

Definition consume_single (fuel : nat) (sched : Schedule) (i : I) : option (list (list A)) :=
  match launch sched 1 (num_local i) i with
  | Done s0 => results <$> run_single fuel s0
  | Panic => None
  end.

Lemma consume_single_consumed fuel sched i got : consume_single fuel sched i = Some got -> consumed sched 1 i got.
Proof.
  unfold consume_single. destruct (launch sched 1 (num_local i) i) as [s0|] eqn:E; [|done].
  intros (s' & [Hr Hn]%run_single_run & ->)%fmap_Some. by exists s0, s'.
Qed.
End ConsumeSingle.

Section Filtered.
Context {T : Type} (N P : Z) (a : UnsafeArrayInner) (Hwf : layout_wf N P a).
Context (mem : Z -> Z -> T) (l : list T) (Hm : holds a mem l) (f : T -> bool).

(** [array.dist_iter().filter(f)] *)
Definition filtered (pe : Z) : Filter (DistIter T) T :=
  {| filter_iter := dist_iter (at_pe a pe) (mem pe); filter_f := f |}.

Lemma omap_keep (l' : list T) : omap (keep f) l' = List.filter f l'.
Proof. induction l' as [|x l' IH]; cbn; [done|]. unfold keep at 1. destruct (f x); cbn; by rewrite IH. Qed.

(** The elements that the filters on all the PEs keep. *)
Lemma filtered_items :
  (seqZ 0 P ≫= fun pe => omap (items (filtered pe)) (seqZ 0 (local_len (filtered pe)))) ≡ₚ List.filter f l.
Proof.
  pose proof (yields_array N P a Hwf mem l Hm) as HY.
  rewrite <- omap_keep, <- (snd_indexed 0 l). fold (indexed l). rewrite <- (yields_all _ _ _ HY).
  rewrite fmap_bind, <- bind_omap. apply bind_perm. intros pe Hpe%elem_of_seqZ.
  rewrite <- items_iranges by (apply HY; lia). by rewrite omap_omap.
Qed.

Lemma filtered_ok pe : 0 <= pe < P -> it_ok (filtered pe) /\ 0 <= local_len (filtered pe) <= 2 ^ 50.
Proof.
  intros Hpe. pose proof (yields_array N P a Hwf mem l Hm) as HY. split; [by apply HY|].
  pose proof (yields_len _ _ _ HY pe Hpe). pose proof (ilaw_len _ (yields_ok _ _ _ HY pe Hpe)). done.
Qed.

Lemma join_bind {B C} (g : B -> list C) ps : mjoin (g <$> ps) = ps ≫= g.
Proof. induction ps as [|p ps IH]; [done|]. rewrite bind_cons, <- IH. done. Qed.

Lemma filtered_got W (sched : Z -> Schedule) (got : Z -> list (list T)) :
  0 < W < 2 ^ 31 -> (forall pe, 0 <= pe < P -> whole (sched pe)) ->
  (forall pe, 0 <= pe < P -> consumed (sched pe) W (filtered pe) (got pe)) ->
  mjoin ((fun pe => mjoin (got pe)) <$> seqZ 0 P) ≡ₚ List.filter f l.
Proof.
  intros HW Hs Hg. rewrite <- filtered_items, join_bind. apply bind_perm. intros pe Hpe%elem_of_seqZ.
  destruct (filtered_ok pe ltac:(lia)). apply (consumed_items (sched pe) W); auto with lia.
Qed.
End Filtered.

(** ** [collect] *)

Section MonotonicLaws.
Context {I A : Type} `{IterLaws I A}.

(** Every position has an element: then [Monotonic] numbers the elements by their positions. *)
Definition total_iter (it : I) : Prop := forall i, 0 <= i < local_len it -> is_Some (items it i).

#[export] Instance mono_spec : IterSpec (Monotonic I) (Z * A) := {
  items it i := pair i <$> items (mono_iter it) i;
  local_len it := local_len (mono_iter it);
  num_local it := num_local (mono_iter it);
  content it := indexed_from (mono_cur it) (content (mono_iter it));
  it_ok it := it_ok (mono_iter it) /\ total_iter (mono_iter it);
}.

Lemma mono_positions (it : I) s n : total_iter it -> 0 <= s -> s + Z.of_nat n <= local_len it ->
  omap (fun i => pair i <$> items it i) (seqZ s (Z.of_nat n)) = indexed_from s (omap (items it) (seqZ s (Z.of_nat n))).
Proof.
  intros Ht. revert s. induction n as [|n IH]; intros s Hs Hn; [done|].
  rewrite seqZ_cons by lia. replace (Z.pred (Z.of_nat (S n))) with (Z.of_nat n) by lia.
  destruct (Ht s ltac:(lia)) as [x E]. cbn. rewrite E. cbn. f_equal. apply IH; lia.
Qed.

Lemma mono_ranges (it : Monotonic I) s e : total_iter (mono_iter it) -> 0 <= s ->
  range_items it s e = indexed_from s (range_items (mono_iter it) s e).
Proof.
  intros Ht Hs. unfold range_items. cbn. set (n := local_len (mono_iter it)).
  destruct (Z.le_gt_cases (Z.min e n - Z.min s n) 0); [by rewrite seqZ_nil by lia|].
  rewrite (Z.min_l s) by lia. replace (Z.min e n - s) with (Z.of_nat (Z.to_nat (Z.min e n - s))) by lia.
  apply mono_positions; [done|done|]. fold n. lia.
Qed.

#[export] Instance mono_laws : IterLaws (Monotonic I) (Z * A).
Proof.
  split.
  - intros it s c [Hok Ht] Hs Hc. destruct (law_init (mono_iter it) s c Hok Hs Hc) as (E1 & E2 & E3 & E4).
    cbn. unfold total_iter. rewrite mono_ranges, E1, E2, E3 by done. done.
  - intros it [Hok Ht]. destruct (law_next (mono_iter it) Hok) as (E1 & E2 & E3 & E4 & E5).
    cbn. unfold mono_next, total_iter. destruct (it_next (mono_iter it)) as [x iter]. cbn in *. subst x.
    destruct (content (mono_iter it)) as [|x l]; cbn; rewrite E2, E3, E4; done.
  - intros it [Hok _]. by apply (law_elems (mono_iter it)).
  - intros it [Hok _]. cbn. rewrite length_indexed_from. by apply law_fuel.
Qed.
End MonotonicLaws.

(** Sorting by the positions restores their order. *)
Section Collect.
Context {A : Type}.

#[export] Instance key_le_total : Total (@key_le A).
Proof. intros p q. unfold key_le. lia. Qed.
#[export] Instance key_le_trans : Transitive (@key_le A).
Proof. intros p q r. unfold key_le. lia. Qed.

Lemma indexed_sorted i (l : list A) : StronglySorted key_le (indexed_from i l).
Proof.
  revert i. induction l as [|x l IH]; intros i; constructor; [apply IH|].
  apply Forall_lookup. intros k [g y] E. apply indexed_from_numbered in E. unfold key_le. cbn. lia.
Qed.

Lemma indexed_key_unique i (l : list A) p q : p ∈ indexed_from i l -> q ∈ indexed_from i l -> fst p = fst q -> p = q.
Proof.
  intros [j Ej]%list_elem_of_lookup [k Ek]%list_elem_of_lookup E. destruct p as [g x], q as [h y]. cbn in E.
  pose proof (indexed_from_numbered _ _ _ _ _ Ej). pose proof (indexed_from_numbered _ _ _ _ _ Ek).
  replace k with j in Ek by lia. congruence.
Qed.

Lemma collect_local_order i (l : list A) items : mjoin items ≡ₚ indexed_from i l -> collect_local items = l.
Proof.
  intros HP. unfold collect_local. rewrite <- (snd_indexed i l). f_equal.
  assert (HS : merge_sort key_le (mjoin items) ≡ₚ indexed_from i l) by (by rewrite merge_sort_Permutation).
  apply (StronglySorted_unique_strong key_le); [|apply StronglySorted_merge_sort; apply _|apply indexed_sorted|done].
  intros p q Hp Hq H1 H2. rewrite HS in Hp. unfold key_le in *. apply (indexed_key_unique i l); [done|done|lia].
Qed.

(** *** The array made of the local values *)

(** Where the values of a PE go. *)
Definition place (vals : list (list A)) (pe : nat) : nat := length (mjoin (take pe vals)).

Lemma place_succ vals pe v : vals !! pe = Some v -> place vals (S pe) = (place vals pe + length v)%nat.
Proof.
  intros E. unfold place. rewrite (take_S_r _ _ _ E). rewrite join_app. cbn. by rewrite app_nil_r, length_app.
Qed.

Lemma place_mono vals pe pe' : (pe <= pe')%nat -> (place vals pe <= place vals pe')%nat.
Proof.
  intros Hle. unfold place. rewrite <- (take_drop pe (take pe' vals)), take_take, join_app, length_app.
  rewrite Nat.min_l by done. lia.
Qed.

Lemma place_bound vals pe v : vals !! pe = Some v -> (place vals pe + length v <= length (mjoin vals))%nat.
Proof.
  intros E. rewrite <- (place_succ vals pe v E). unfold place. rewrite <- (take_drop (S pe) vals) at 2.
  rewrite join_app, length_app. lia.
Qed.

Lemma join_lookup vals i (x : A) : mjoin vals !! i = Some x ->
  exists pe v k, vals !! pe = Some v /\ v !! k = Some x /\ i = (place vals pe + k)%nat.
Proof.
  revert i. induction vals as [|v vals IH]; intros i E; [done|].
  change (mjoin (v :: vals)) with (v ++ mjoin vals) in E. apply lookup_app_Some in E as [E|[Hi E]].
  - by exists 0%nat, v, i.
  - apply IH in E as (pe & u & k & E1 & E2 & E3). exists (S pe), u, k. split_and!; try done.
    change (place (v :: vals) (S pe)) with (length (v ++ mjoin (take pe vals))). unfold place in E3. rewrite length_app. lia.
Qed.

Lemma fold_add_total cs c : fold_left Z.add cs c = c + total cs.
Proof. revert c. induction cs as [|d cs IH]; intros c; cbn; [cbn; lia|]. rewrite IH. unfold total. cbn. lia. Qed.

Lemma team_from_start_place (vals : list (list A)) pe :
  team_from_start ((fun v => Z.of_nat (length v)) <$> vals) pe = Z.of_nat (place vals pe).
Proof. unfold team_from_start. rewrite fold_add_total, <- fmap_take, total_lengths. unfold place. lia. Qed.

Lemma team_from_size_total (vals : list (list A)) :
  team_from_size ((fun v => Z.of_nat (length v)) <$> vals) = Z.of_nat (length (mjoin vals)).
Proof. unfold team_from_size. rewrite fold_add_total, total_lengths. lia. Qed.

Lemma put_lookup (start : nat) (v arr : list A) i : (start + length v <= length arr)%nat ->
  team_from_put (Z.of_nat start) v arr !! i =
    if decide (start <= i < start + length v)%nat then v !! (i - start)%nat else arr !! i.
Proof.
  intros Hl. unfold team_from_put. rewrite Nat2Z.id. case_decide as Hv.
  - case_decide as Hi.
    + rewrite lookup_app_r by (rewrite length_take; lia). rewrite length_take, Nat.min_l by lia.
      by rewrite lookup_app_l by lia.
    + destruct (Nat.lt_ge_cases i start).
      * rewrite lookup_app_l by (rewrite length_take; lia). by rewrite lookup_take_lt.
      * rewrite lookup_app_r, length_take, Nat.min_l by (rewrite ?length_take; lia).
        rewrite lookup_app_r by lia. rewrite lookup_drop. f_equal. lia.
  - case_decide; [lia|done].
Qed.

Lemma put_length (start : nat) (v arr : list A) : (start + length v <= length arr)%nat ->
  length (team_from_put (Z.of_nat start) v arr) = length arr.
Proof.
  intros Hl. unfold team_from_put. rewrite Nat2Z.id. case_decide; [|done].
  rewrite !length_app, length_take, length_drop. lia.
Qed.

(** What the PEs of [order] have put is there, whatever the order. *)
Lemma team_from_placed (vals : list (list A)) order fresh :
  (forall pe, pe ∈ order -> (pe < length vals)%nat) -> length fresh = length (mjoin vals) ->
  length (team_from vals order fresh) = length (mjoin vals) /\
  forall pe v k, pe ∈ order -> vals !! pe = Some v -> (k < length v)%nat ->
    team_from vals order fresh !! (place vals pe + k)%nat = v !! k.
Proof.
  intros Ho Hf. induction order as [|q order IH] using rev_ind.
  - split; [done|]. intros pe v k Hpe. by apply elem_of_nil in Hpe.
  - destruct IH as [IL IK]; [intros pe Hpe; apply Ho; set_solver|].
    unfold team_from in *. rewrite fold_left_app. cbn [fold_left].
    set (arr := fold_left _ order fresh) in *. rewrite team_from_start_place.
    destruct (lookup_lt_is_Some_2 vals q) as [u Eu]; [apply Ho; set_solver|].
    rewrite (nth_lookup_Some _ _ _ _ Eu). pose proof (place_bound vals q u Eu) as Hb.
    split; [by rewrite put_length by lia|]. intros pe v k Hpe Ev Hk. rewrite put_lookup by lia.
    destruct (decide (pe = q)) as [->|Hne].
    + rewrite Eu in Ev. injection Ev as <-. rewrite decide_True by lia. f_equal. lia.
    + rewrite decide_False; [apply IK; [set_solver|done|done]|]. intros Hin.
      destruct (Nat.lt_ge_cases pe q) as [Hlt|Hge].
      * pose proof (place_succ vals pe v Ev). pose proof (place_mono vals (S pe) q ltac:(lia)). lia.
      * pose proof (place_succ vals q u Eu). pose proof (place_mono vals (S q) pe ltac:(lia)). lia.
Qed.

Lemma team_from_join (vals : list (list A)) order fresh :
  order ≡ₚ seq 0 (length vals) ->
  Z.of_nat (length fresh) = team_from_size ((fun v => Z.of_nat (length v)) <$> vals) ->
  team_from vals order fresh = mjoin vals.
Proof.
  intros Ho Hf. rewrite team_from_size_total in Hf.
  assert (Hin : forall pe, pe ∈ order -> (pe < length vals)%nat) by (intros pe; rewrite Ho, elem_of_seq; lia).
  destruct (team_from_placed vals order fresh Hin ltac:(lia)) as [HL HK].
  apply (list_eq_same_length _ _ _ eq_refl HL). intros i x y Hi Ex Ey.
  apply join_lookup in Ey as (pe & v & k & E1 & E2 & ->).
  rewrite (HK pe v k) in Ex; [congruence| |done|by eapply lookup_lt_Some].
  rewrite Ho. apply elem_of_seq. apply lookup_lt_Some in E1. lia.
Qed.
End Collect.

(** *** [array.dist_iter().map(g).collect(d)] *)
Section Collected.
Context {T B : Type} (N P : Z) (a : UnsafeArrayInner) (Hwf : layout_wf N P a).
Context (mem : Z -> Z -> T) (l : list T) (Hm : holds a mem l) (g : T -> B).

Definition mapped (pe : Z) : Map (DistIter T) T B :=
  {| map_iter := dist_iter (at_pe a pe) (mem pe); map_f := g |}.

Lemma mapped_ok pe : 0 <= pe < P ->
  it_ok (monotonic (mapped pe)) /\ 0 <= local_len (monotonic (mapped pe)) <= 2 ^ 50.
Proof.
  intros Hpe. pose proof (yields_array N P a Hwf mem l Hm) as HY.
  pose proof (yields_ok _ _ _ HY pe Hpe) as Hok. pose proof (yields_len _ _ _ HY pe Hpe). pose proof (ilaw_len _ Hok).
  split; [|done]. split; [done|]. intros i Hi. cbn -[array_view] in *.
  destruct (view_item_some (array_view (at_pe a pe) (mem pe)) i (proj1 Hok) Hi) as (h & -> & _). by eexists.
Qed.

(** The items of a PE are numbered by their positions. *)
Lemma mapped_items pe : 0 <= pe < P ->
  omap (items (monotonic (mapped pe))) (seqZ 0 (local_len (monotonic (mapped pe))))
    = indexed (g <$> (snd <$> iranges (dist_iter (at_pe a pe) (mem pe)) 0 (ilen (dist_iter (at_pe a pe) (mem pe))))).
Proof.
  intros Hpe. destruct (mapped_ok pe Hpe) as [[Hok Ht] Hlen].
  replace (local_len (monotonic (mapped pe))) with (Z.of_nat (Z.to_nat (local_len (monotonic (mapped pe))))) by lia.
  change (items (monotonic (mapped pe))) with (fun i => pair i <$> items (mapped pe) i).
  rewrite mono_positions; [|done|done|rewrite Z2Nat.id by lia; done].
  unfold indexed. f_equal. rewrite Z2Nat.id by lia.
  pose proof (yields_array N P a Hwf mem l Hm) as HY.
  rewrite <- items_iranges by (apply HY; done). symmetry. apply list_fmap_omap.
Qed.

(** [map] drops no element, so every schedule consumes it. *)
Lemma mapped_consumes sched W pe : 0 <= pe < P -> splits sched W -> consumes sched W (monotonic (mapped pe)).
Proof.
  intros Hpe Hs. destruct (mapped_ok pe Hpe) as [[_ Ht] _].
  assert (Htot : Schedule.total (monotonic (mapped pe))).
  { intros i Hi. destruct (Ht i Hi) as [x Ex]. exists (i, x). cbn -[array_view] in *. by rewrite Ex. }
  destruct sched; cbn in Hs |- *; auto.
Qed.

Lemma collect_local_eq W sched got pe : 0 <= pe < P -> 0 < W < 2 ^ 31 -> splits sched W ->
  consumed sched W (monotonic (mapped pe)) got ->
  collect_local got = g <$> (snd <$> iranges (dist_iter (at_pe a pe) (mem pe)) 0 (ilen (dist_iter (at_pe a pe) (mem pe)))).
Proof.
  intros Hpe HW Hs Hg. destruct (mapped_ok pe Hpe). apply (collect_local_order 0).
  fold (indexed (g <$> (snd <$> iranges (dist_iter (at_pe a pe) (mem pe)) 0 (ilen (dist_iter (at_pe a pe) (mem pe)))))).
  rewrite <- mapped_items by done. by apply (consumed_total sched W); [..|apply mapped_consumes|].
Qed.

End Collected.

(** ** Properties *)

(** C38: [count], [reduce] and [sum] of [array.dist_iter().filter(f)] return on every PE what
    they return for the sequential iterator over all the elements of the array, for block and
    cyclic arrays, any of the schedules [Static], [Dynamic] and [WorkStealing] on each PE
    ([Chunk] and [Guided] may leave out elements of a filtered iterator), any number of threads
    (below 2^31), any interleaving of the workers and any order of arrival of the counts of the
    other PEs.  [reduce] needs an associative and commutative operation, [sum] also its zero.
    The workers count without overflow. *)
Theorem consumers_global {T} (N P : Z) (a : UnsafeArrayInner) (mem : Z -> Z -> T) (l : list T) (f : T -> bool)
    (W : Z) (sched : Z -> Schedule) (got : Z -> list (list T)) (op : T -> T -> T) (zero : T) :
  layout_wf N P a -> holds a mem l -> 0 < W < 2 ^ 31 ->
  (forall pe, 0 <= pe < P -> whole (sched pe)) ->
  (forall pe, 0 <= pe < P -> consumed (sched pe) W (filtered a mem f pe) (got pe)) ->
  (forall x y z, op x (op y z) = op (op x y) z) -> (forall x y, op x y = op y x) -> (forall x, op zero x = x) ->
  (exists counts, Forall2 (fun pe c => count_local (got pe) = Done c) (seqZ 0 P) counts /\
     forall arrivals, arrivals ≡ₚ counts -> reduce_remote_counts arrivals = Z.of_nat (length (List.filter f l))) /\
  reduce_remote_vals op ((fun pe => reduce_local op (got pe)) <$> seqZ 0 P) = reduce op (List.filter f l) /\
  sum_remote_vals zero op ((fun pe => sum_local zero op (got pe)) <$> seqZ 0 P) = fold_left op (List.filter f l) zero.
Proof.
  intros Hwf Hm HW Hs Hg Hassoc Hcomm Hzero. pose proof (filtered_got N P a Hwf mem l Hm f W sched got HW Hs Hg) as HP.
  split_and!.
  - exists ((fun pe => Z.of_nat (length (mjoin (got pe)))) <$> seqZ 0 P). split.
    + apply Forall2_fmap_r, Forall2_same_length_lookup_2; [done|]. intros i pe pe' E E'. rewrite E in E'. injection E' as <-.
      apply lookup_seqZ in E as [-> Hi]. apply count_local_length.
      destruct (filtered_ok N P a Hwf mem l Hm f (0 + Z.of_nat i) ltac:(lia)) as [Hok Hlen].
      rewrite (consumed_items (sched (0 + Z.of_nat i)) W (filtered a mem f (0 + Z.of_nat i))) by (auto with lia).
      pose proof (length_omap_le (items (filtered a mem f (0 + Z.of_nat i))) (seqZ 0 (local_len (filtered a mem f (0 + Z.of_nat i))))) as HL.
      rewrite length_seqZ in HL. lia.
    + intros arrivals Ha. assert (HL : total arrivals = Z.of_nat (length (List.filter f l))).
      { unfold total. rewrite Ha, <- HP. fold (total ((fun pe => Z.of_nat (length (mjoin (got pe)))) <$> seqZ 0 P)).
        rewrite <- total_lengths, <- list_fmap_compose. done. }
      unfold reduce_remote_counts. rewrite update_cnt_total; [by rewrite HL|done| |].
      * rewrite Ha. apply Forall_fmap, Forall_forall. intros. cbn. lia.
      * rewrite HL. pose proof Hwf as []. pose proof (proj1 Hm).
        pose proof (filter_length_le f l). lia.
  - unfold reduce_remote_vals, reduce_local. rewrite <- (reduce_perm op Hassoc Hcomm _ _ HP), <- reduce_join by done.
    do 2 f_equal. rewrite <- list_fmap_compose. apply list_fmap_ext. intros i pe _. cbn. by apply reduce_join.
  - unfold sum_remote_vals, sum_local. assert (Hzero' : forall x, op x zero = x) by (intros x; by rewrite Hcomm).
    rewrite <- (fold_perm op zero Hassoc Hcomm _ _ HP), <- (fold_join op zero Hassoc Hzero Hzero').
    f_equal. rewrite <- list_fmap_compose. apply list_fmap_ext. intros i pe _. cbn. by apply fold_join.
Qed.

(** The even elements of [ex_block]: what the only worker of each PE gets. *)
Definition ex_even (pe : Z) : list (list Z) :=
  nth (Z.to_nat pe) [[[100; 102]]; [[104]]; [[106]]; [[108]]] [].

Lemma ex_even_consumed pe : 0 <= pe < 4 -> consumed Static 1 (filtered ex_block ex_mem Z.even pe) (ex_even pe).
Proof.
  intros [-> | [-> | [-> | ->]]]%four_pes; apply (consume_single_consumed 9); vm_compute; reflexivity.
Qed.

Lemma consumers_global_witness :
  (exists counts, Forall2 (fun pe c => count_local (ex_even pe) = Done c) (seqZ 0 4) counts /\
     forall arrivals, arrivals ≡ₚ counts -> reduce_remote_counts arrivals = 5) /\
  reduce_remote_vals Z.add ((fun pe => reduce_local Z.add (ex_even pe)) <$> seqZ 0 4) = Some 520 /\
  sum_remote_vals 0 Z.add ((fun pe => sum_local 0 Z.add (ex_even pe)) <$> seqZ 0 4) = 520.
Proof.
  refine (consumers_global 10 4 ex_block ex_mem _ Z.even 1 (fun _ => Static) ex_even Z.add 0
    ex_block_wf ex_holds _ _ ex_even_consumed _ _ _); [lia|by left|intros; lia|intros; lia|intros; lia].
Defined.

(** C39: [array.dist_iter().map(g).collect(d)] on a block array makes an array whose elements are
    [g] of the elements of the array, in order: whatever the schedules (all five: [map] drops no
    element; a chunk size in (0, 2^63), at most 2^24 threads for [Guided]), the number of threads
    (below 2^31) and the interleaving of the workers, and in whatever order the PEs put their
    values over what the new array was allocated with. *)
Theorem collect_global {T B} (N P : Z) (a : UnsafeArrayInner) (mem : Z -> Z -> T) (l : list T) (g : T -> B)
    (W : Z) (sched : Z -> Schedule) (got : Z -> list (list (Z * B))) (order : list nat) (fresh : list B) :
  layout_wf N P a -> distribution a = Block -> holds a mem l -> 0 < W < 2 ^ 31 ->
  (forall pe, 0 <= pe < P -> splits (sched pe) W) ->
  (forall pe, 0 <= pe < P -> consumed (sched pe) W (monotonic (mapped a mem g pe)) (got pe)) ->
  let local_vals := (fun pe => collect_local (got pe)) <$> seqZ 0 P in
  order ≡ₚ seq 0 (Z.to_nat P) ->
  Z.of_nat (length fresh) = team_from_size ((fun v => Z.of_nat (length v)) <$> local_vals) ->
  team_from local_vals order fresh = g <$> l.
Proof.
  intros Hwf D Hm HW Hs Hg local_vals Ho Hf. rewrite team_from_join; [|by unfold local_vals; rewrite length_fmap, length_seqZ|done].
  unfold local_vals. rewrite join_bind, (bind_seqZ_ext _ (fun pe => g <$> (snd <$> iranges (dist_iter (at_pe a pe) (mem pe)) 0 (ilen (dist_iter (at_pe a pe) (mem pe)))))).
  - rewrite <- fmap_bind, <- fmap_bind, (block_ranges N P a Hwf mem l D Hm). unfold indexed. by rewrite snd_indexed.
  - intros pe Hpe. apply (collect_local_eq N P a Hwf mem l Hm g W (sched pe)); auto.
Qed.

(** Twice the elements of [ex_block]; PE 2 is the first to put its values, and iterates in chunks
    of 2. *)
Definition ex_doubled (pe : Z) : list (list (Z * Z)) :=
  nth (Z.to_nat pe) [[[(0, 200); (1, 202); (2, 204)]]; [[(0, 206); (1, 208)]];
                     [[(0, 210); (1, 212); (2, 214)]]; [[(0, 216); (1, 218)]]] [].

Definition ex_sched (pe : Z) : Schedule := if pe =? 2 then Chunk 2 else WorkStealing.

Lemma ex_doubled_consumed pe : 0 <= pe < 4 ->
  consumed (ex_sched pe) 1 (monotonic (mapped ex_block ex_mem (fun x => 2 * x) pe)) (ex_doubled pe).
Proof.
  intros [-> | [-> | [-> | ->]]]%four_pes; apply (consume_single_consumed 20); vm_compute; reflexivity.
Qed.

Lemma collect_global_witness :
  team_from ((fun pe => collect_local (ex_doubled pe)) <$> seqZ 0 4) [2; 0; 3; 1]%nat (replicate 10 0)
    = [200; 202; 204; 206; 208; 210; 212; 214; 216; 218].
Proof.
  refine (collect_global 10 4 ex_block ex_mem _ (fun x => 2 * x) 1 ex_sched ex_doubled [2; 0; 3; 1]%nat
    (replicate 10 0) ex_block_wf eq_refl ex_holds _ _ ex_doubled_consumed _ _);
    [lia|intros pe _; unfold ex_sched; case_match; cbn; lia| |reflexivity].
  by apply (bool_decide_unpack _); vm_compute.
Defined.
