(* ===== verification/OneSided.v ===== *)
(** * OneSided: serial iteration over a whole array from one PE

    Models [src/array/iterator/one_sided_iterator.rs] and its adapters.  The items of a
    [OneSidedIter] are references into its buffer, which a later [next] or [advance_index]
    overwrites: an item is a place in the buffer here, and what it shows is read from the state
    of the iterator.  The array is an interface, [ArrayGet]; [Rdma] discharges it. *)

From stdpp Require Import base list numbers.
From Stdlib Require Import ZArith Lia.
From S2P Require Import Prelude BlockBounds Distribution Rdma RdmaSpec Iterators Schedule GlobalIter LocalIterators.
Local Open Scope Z_scope.

(** ** The array *)

(** [len] and [internal_get(index, buf).wait()]: what the memory region [buf] holds afterwards. *)
Class ArrayGet (Arr T : Type) := {
  arr_len : Arr -> Z;
  arr_get : Arr -> Z -> list T -> outcome (list T);
}.

(** A region is filled with the elements of its range; a range that is empty or goes beyond the
    array is not specified. *)
Class ArrayGetLaws (Arr T : Type) `{ArrayGet Arr T} := {
  arr_elems : Arr -> list T -> Prop;
  arr_len_elems a l : arr_elems a l -> arr_len a = Z.of_nat (length l) /\ Z.of_nat (length l) <= 2 ^ 50;
  arr_get_elems a l i buf : arr_elems a l -> 0 <= i -> (0 < length buf)%nat ->
    i + Z.of_nat (length buf) <= Z.of_nat (length l) ->
    arr_get a i buf = Done (take (length buf) (drop (Z.to_nat i) l));
}.

(** ** The iterators *)

(** [next], [advance_index] and [array] of [OneSidedIterator]; [os_read] is what an item shows,
    [None] outside of the memory it points into. *)
Class OneSidedIterator (I Arr Item V : Type) := {
  os_next : I -> outcome (option Item * I);
  os_advance : I -> Z -> outcome I;
  os_array : I -> Arr;
  os_read : I -> Item -> option V;
}.

Record OneSidedIter (Arr T : Type) := { array : Arr; buf_0 : list T; index : Z; buf_index : Z }.
Arguments array {Arr T}. Arguments buf_0 {Arr T}. Arguments index {Arr T}. Arguments buf_index {Arr T}.

Record OSChunks (I : Type) := { oc_iter : I; oc_index : Z; oc_size : Z }.
Arguments oc_iter {I}. Arguments oc_index {I}. Arguments oc_size {I}.
Record OSStepBy (I : Type) := { ost_iter : I; ost_size : Z }.
Arguments ost_iter {I}. Arguments ost_size {I}.
Record OSZip (I J : Type) := { oz_a : I; oz_b : J }.
Arguments oz_a {I J}. Arguments oz_b {I J}.

Section OneSidedIter.
Context {Arr T : Type} `{ArrayGet Arr T}.

(** [OneSidedIter::new]: [fresh] is the memory region it allocates. *)
Definition one_sided_new (a : Arr) (fresh : list T) : outcome (OneSidedIter Arr T) :=
  let! b := arr_get a 0 fresh in
  Done {| array := a; buf_0 := b; index := 0; buf_index := 0 |}.

(** [onesided_iter] and [buffered_onesided_iter] of the arrays: [alloc n] is a new memory region of
    [n] elements. *)
Definition onesided_iter (alloc : nat -> list T) (a : Arr) : outcome (OneSidedIter Arr T) := one_sided_new a (alloc 1%nat).
Definition buffered_onesided_iter (alloc : nat -> list T) (a : Arr) (buf_size : Z) : outcome (OneSidedIter Arr T) :=
  one_sided_new a (alloc (Z.to_nat (Z.min buf_size (arr_len a)))).

(** Getting the next elements, into a part of the buffer if there are fewer. *)
Definition refill (it : OneSidedIter Arr T) : outcome (list T) :=
  let! e := uadd (index it) (Z.of_nat (length (buf_0 it))) in
  if e <? arr_len (array it) then arr_get (array it) (index it) (buf_0 it)
  else
    let! n := usub (arr_len (array it)) (index it) in
    let! _ := assert_ (n <=? Z.of_nat (length (buf_0 it))) in
    let! d := arr_get (array it) (index it) (take (Z.to_nat n) (buf_0 it)) in
    Done (d ++ drop (Z.to_nat n) (buf_0 it)).

(** The item is the offset from [ptr], the first element of the buffer. *)
Definition one_sided_next (it : OneSidedIter Arr T) : outcome (option Z * OneSidedIter Arr T) :=
  if index it <? arr_len (array it) then
    let! it := if buf_index it =? Z.of_nat (length (buf_0 it))
               then let! b := refill it in
                    Done {| array := array it; buf_0 := b; index := index it; buf_index := 0 |}
               else Done it in
    let! i := uadd (index it) 1 in
    let! bi := uadd (buf_index it) 1 in
    Done (Some (bi - 1), {| array := array it; buf_0 := buf_0 it; index := i; buf_index := bi |})
  else Done (None, it).

Definition one_sided_advance (it : OneSidedIter Arr T) (count : Z) : outcome (OneSidedIter Arr T) :=
  let! i := uadd (index it) count in
  let! bi := uadd (buf_index it) count in
  let it := {| array := array it; buf_0 := buf_0 it; index := i; buf_index := bi |} in
  if bi =? Z.of_nat (length (buf_0 it))
  then let! b := refill it in
       Done {| array := array it; buf_0 := b; index := i; buf_index := 0 |}
  else Done it.

#[export] Instance one_sided_iterator : OneSidedIterator (OneSidedIter Arr T) Arr Z T := {
  os_next := one_sided_next;
  os_advance := one_sided_advance;
  os_array := array;
  os_read it p := if 0 <=? p then buf_0 it !! Z.to_nat p else None;
}.
End OneSidedIter.

Section Adapters.
Context {I Arr Item V : Type} `{OneSidedIterator I Arr Item V}.

(** *** [Skip]: only [new] does anything; the rest is that of the iterator. *)
Definition os_skip_new (iter : I) (count : Z) : outcome I := os_advance iter count.

(** *** [StepBy] *)
Definition os_step_next (it : OSStepBy I) : outcome (option Item * OSStepBy I) :=
  let! r := os_next (ost_iter it) in
  match r with
  | (Some res, iter) =>
      let! k := usub (ost_size it) 1 in
      let! iter := os_advance iter k in
      Done (Some res, {| ost_iter := iter; ost_size := ost_size it |})
  | (None, iter) => Done (None, {| ost_iter := iter; ost_size := ost_size it |})
  end.

Definition os_step_advance (it : OSStepBy I) (count : Z) : outcome (OSStepBy I) :=
  let! k := umul count (ost_size it) in
  let! iter := os_advance (ost_iter it) k in
  Done {| ost_iter := iter; ost_size := ost_size it |}.

#[export] Instance os_step_iterator : OneSidedIterator (OSStepBy I) Arr Item V := {
  os_next := os_step_next;
  os_advance := os_step_advance;
  os_array it := os_array (ost_iter it);
  os_read it := os_read (ost_iter it);
}.

(** *** [Chunks]: an item is a memory region of its own. *)
Context {T : Type} `{ArrayGet Arr T} (fresh : nat -> list T).

Definition get_buffer (it : OSChunks I) (size : Z) : outcome (list T) :=
  arr_get (os_array (oc_iter it)) (oc_index it) (fresh (Z.to_nat size)).

Definition os_chunks_next (it : OSChunks I) : outcome (option (list T) * OSChunks I) :=
  let a := os_array (oc_iter it) in
  if oc_index it <? arr_len a then
    let size := Z.min (oc_size it) (arr_len a - oc_index it) in
    let! mem_region := get_buffer it size in
    let! i := uadd (oc_index it) size in
    Done (Some mem_region, {| oc_iter := oc_iter it; oc_index := i; oc_size := oc_size it |})
  else Done (None, it).

Definition os_chunks_advance (it : OSChunks I) (count : Z) : outcome (OSChunks I) :=
  let! k := umul count (oc_size it) in
  let! i := uadd (oc_index it) k in
  Done {| oc_iter := oc_iter it; oc_index := i; oc_size := oc_size it |}.

Definition os_chunks_iterator : OneSidedIterator (OSChunks I) Arr (list T) (list T) := {|
  os_next := os_chunks_next;
  os_advance := os_chunks_advance;
  os_array it := os_array (oc_iter it);
  os_read _ r := Some r;
|}.
End Adapters.

(** *** [Zip] *)
Section Zip.
Context {I J Arr Arr' Item Item' V V' : Type} `{OneSidedIterator I Arr Item V, OneSidedIterator J Arr' Item' V'}.

Definition os_zip_next (it : OSZip I J) : outcome (option (Item * Item') * OSZip I J) :=
  let! ra := os_next (oz_a it) in
  match ra with
  | (None, a) => Done (None, {| oz_a := a; oz_b := oz_b it |})
  | (Some x, a) =>
      let! rb := os_next (oz_b it) in
      match rb with
      | (None, b) => Done (None, {| oz_a := a; oz_b := b |})
      | (Some y, b) => Done (Some (x, y), {| oz_a := a; oz_b := b |})
      end
  end.

Definition os_zip_advance (it : OSZip I J) (count : Z) : outcome (OSZip I J) :=
  let! a := os_advance (oz_a it) count in
  let! b := os_advance (oz_b it) count in
  Done {| oz_a := a; oz_b := b |}.

#[export] Instance os_zip_iterator : OneSidedIterator (OSZip I J) Arr (Item * Item') (V * V') := {
  os_next := os_zip_next;
  os_advance := os_zip_advance;
  os_array it := os_array (oz_a it);
  os_read it p := x ← os_read (oz_a it) (fst p); y ← os_read (oz_b it) (snd p); Some (x, y);
}.
End Zip.

Definition os_chunks {I} (it : I) (chunk_size : Z) : OSChunks I := {| oc_iter := it; oc_index := 0; oc_size := chunk_size |}.
Definition os_step_by {I} (it : I) (step_size : Z) : OSStepBy I := {| ost_iter := it; ost_size := step_size |}.
Definition os_zip {I J} (a : I) (b : J) : OSZip I J := {| oz_a := a; oz_b := b |}.

(** [for item in iter.into_iter()], where the body looks at the item: what it sees; [None] when
    [fuel] is not enough. *)
Fixpoint for_loop {I Arr Item V} `{OneSidedIterator I Arr Item V} (fuel : nat) (it : I) : outcome (option (list (option V))) :=
  match fuel with
  | O => Done None
  | S fuel =>
      let! r := os_next it in
      match r with
      | (None, _) => Done (Some [])
      | (Some x, it) => let! l := for_loop fuel it in Done ((fun l => os_read it x :: l) <$> l)
      end
  end.

(** ** What a loop sees *)

(** The iterator yields items that show [l], one after the other, and then ends. *)
Fixpoint serves {I Arr Item V} `{OneSidedIterator I Arr Item V} (it : I) (l : list V) : Prop :=
  match l with
  | [] => exists it', os_next it = Done (None, it')
  | v :: l => exists x it', os_next it = Done (Some x, it') /\ os_read it' x = Some v /\ serves it' l
  end.

Lemma serves_loop {I Arr Item V} `{OneSidedIterator I Arr Item V} (it : I) l fuel :
  serves it l -> (length l < fuel)%nat -> for_loop fuel it = Done (Some (Some <$> l)).
Proof.
  revert it fuel. induction l as [|v l IH]; intros it fuel Hs Hf; (destruct fuel as [|fuel]; [cbn in Hf; lia|]); cbn.
  - destruct Hs as (it' & ->). done.
  - destruct Hs as (x & it' & -> & Hr & Hs). cbn in Hf. rewrite IH by (done || lia). cbn. by rewrite Hr.
Qed.

Section ServeIter.
Context {Arr T : Type} `{ArrayGetLaws Arr T}.
Context (a : Arr) (l : list T) (Ha : arr_elems a l).

(** What is left of the buffer are the next elements. *)
Record in_step (it : OneSidedIter Arr T) : Prop := {
  is_array : array it = a;
  is_buf : (0 < length (buf_0 it) <= length l)%nat;
  is_index : 0 <= index it <= Z.of_nat (length l);
  is_buf_index : 0 <= buf_index it <= Z.of_nat (length (buf_0 it));
  is_content k : buf_index it <= Z.of_nat k < Z.of_nat (length (buf_0 it)) ->
    Z.of_nat k - buf_index it + index it < Z.of_nat (length l) ->
    buf_0 it !! k = l !! Z.to_nat (Z.of_nat k - buf_index it + index it);
}.

Lemma refill_spec it : in_step it -> index it < Z.of_nat (length l) ->
  exists b, refill it = Done b /\ length b = length (buf_0 it) /\
    forall k, (k < length b)%nat -> Z.of_nat k + index it < Z.of_nat (length l) ->
      b !! k = l !! Z.to_nat (Z.of_nat k + index it).
Proof.
  intros [E Hb Hi Hbi _] Hlt. destruct (arr_len_elems a l Ha) as [El Hl]. unfold refill. rewrite E, El, uadd_ok by lia.
  destruct (Z.ltb_spec (index it + Z.of_nat (length (buf_0 it))) (Z.of_nat (length l))) as [Hc|Hc].
  - rewrite (arr_get_elems a l) by (done || lia). eexists. split; [done|].
    assert (Hlen : length (take (length (buf_0 it)) (drop (Z.to_nat (index it)) l)) = length (buf_0 it))
      by (rewrite length_take, length_drop; lia).
    split; [done|]. intros k Hk Hkl. rewrite lookup_take_lt, lookup_drop by lia. f_equal. lia.
  - rewrite usub_ok by lia. unfold assert_. rewrite (proj2 (Z.leb_le _ _)) by lia. cbn -[Z.sub].
    set (n := Z.to_nat (Z.of_nat (length l) - index it)).
    assert (Hn : length (take n (buf_0 it)) = n) by (rewrite length_take; lia).
    rewrite (arr_get_elems a l) by (done || lia). rewrite Hn. eexists. split; [done|].
    assert (Hlen : length (take n (drop (Z.to_nat (index it)) l)) = n) by (rewrite length_take, length_drop; lia).
    split; [rewrite length_app, Hlen, length_drop; lia|]. intros k Hk Hkl.
    rewrite lookup_app_l, lookup_take_lt, lookup_drop by lia. f_equal. lia.
Qed.

Lemma new_in_step fresh : (0 < length fresh <= length l)%nat ->
  exists it, one_sided_new a fresh = Done it /\ in_step it /\ index it = 0 /\ buf_index it = 0 /\
    length (buf_0 it) = length fresh.
Proof.
  intros Hf. unfold one_sided_new. rewrite (arr_get_elems a l) by (done || lia). eexists. split; [done|].
  assert (Hl : length (take (length fresh) (drop (Z.to_nat 0) l)) = length fresh)
    by (rewrite length_take, length_drop; lia).
  split_and!; try done. split; cbn [array buf_0 index buf_index]; rewrite ?Hl; try lia; [done|].
  intros k Hk Hkl. rewrite lookup_take_lt, lookup_drop by lia. f_equal. lia.
Qed.

Lemma buffered_in_step alloc n : (forall n, length (alloc n) = n) -> l <> [] -> 0 < n ->
  exists it, buffered_onesided_iter alloc a n = Done it /\ in_step it /\ index it = 0 /\ buf_index it = 0 /\
    length (buf_0 it) = Z.to_nat (Z.min n (Z.of_nat (length l))).
Proof.
  intros Hal Hne Hn. destruct (arr_len_elems a l Ha) as [El Hl]. assert (0 < length l)%nat by (destruct l; [done|cbn; lia]).
  unfold buffered_onesided_iter. rewrite El.
  destruct (new_in_step (alloc (Z.to_nat (Z.min n (Z.of_nat (length l)))))) as (it & E & Hs & Ei & Eb & Eu); [rewrite Hal; lia|].
  rewrite Hal in Eu. by exists it.
Qed.

Lemma next_in_step it : in_step it -> index it < Z.of_nat (length l) ->
  exists p it', os_next it = Done (Some p, it') /\ in_step it' /\ index it' = index it + 1 /\
    os_read it' p = l !! Z.to_nat (index it) /\ 0 < buf_index it'.
Proof.
  intros Hs Hlt. pose proof Hs as [E Hb Hi Hbi Hc]. destruct (arr_len_elems a l Ha) as [El Hl]. cbn. unfold one_sided_next.
  rewrite E, El, (proj2 (Z.ltb_lt _ _)) by done.
  destruct (Z.eqb_spec (buf_index it) (Z.of_nat (length (buf_0 it)))) as [Hfull|Hleft].
  - destruct (refill_spec it Hs Hlt) as (b & -> & Hbl & Hbc). cbn -[Z.add]. rewrite !uadd_ok by lia. do 2 eexists.
    split; [done|]. split; [|split; [done|split; [|cbn; lia]]].
    + split; cbn [array buf_0 index buf_index]; rewrite ?Hbl; try lia; [done|]. intros k Hk Hkl. rewrite Hbc by lia. f_equal. lia.
    + cbn. rewrite Hbc by lia; f_equal; lia.
  - cbn -[Z.add]. rewrite !uadd_ok by lia. do 2 eexists. split; [done|]. split; [|split; [done|split; [|cbn; lia]]].
    + split; cbn [array buf_0 index buf_index]; try lia; [done|]. intros k Hk Hkl. rewrite Hc by lia. f_equal. lia.
    + cbn -[Z.add Z.sub]. rewrite (proj2 (Z.leb_le 0 _)) by lia. rewrite Hc by lia. f_equal. lia.
Qed.

Lemma iter_serves it : in_step it -> serves it (drop (Z.to_nat (index it)) l).
Proof.
  remember (length l - Z.to_nat (index it))%nat as m eqn:Em. revert it Em. induction m as [|m IH]; intros it Em Hs.
  - pose proof (is_index it Hs). rewrite drop_ge by lia. cbn. unfold one_sided_next.
    destruct (arr_len_elems a l Ha) as [El _]. rewrite (is_array it Hs), El, (proj2 (Z.ltb_ge _ _)) by lia. by eexists.
  - pose proof (is_index it Hs). destruct (next_in_step it Hs ltac:(lia)) as (p & it' & E & Hs' & Ei & Er & _).
    destruct (lookup_lt_is_Some_2 l (Z.to_nat (index it))) as [v Hv]; [lia|]. rewrite (drop_S _ _ _ Hv).
    exists p, it'. split; [done|]. split; [by rewrite Er, Hv|].
    replace (S (Z.to_nat (index it))) with (Z.to_nat (index it')) by lia. apply IH; [lia|done].
Qed.

(** Advancing within the buffer, or to its end where elements are left. *)
Lemma advance_in_step it k : in_step it -> 0 <= k -> buf_index it + k <= Z.of_nat (length (buf_0 it)) ->
  index it + k < Z.of_nat (length l) ->
  exists it', one_sided_advance it k = Done it' /\ in_step it' /\ index it' = index it + k.
Proof.
  intros Hs Hk Hbk Hik. pose proof Hs as [E Hb Hi Hbi Hc]. destruct (arr_len_elems a l Ha) as [El Hl].
  unfold one_sided_advance. rewrite !uadd_ok by lia. cbn -[Z.add].
  set (it2 := {| array := array it; buf_0 := buf_0 it; index := index it + k; buf_index := buf_index it + k |}).
  assert (Hs2 : in_step it2).
  { split; cbn [array buf_0 index buf_index it2]; try lia; [done|]. intros j Hj Hjl. rewrite Hc by lia. f_equal. lia. }
  destruct (Z.eqb_spec (buf_index it + k) (Z.of_nat (length (buf_0 it)))).
  - destruct (refill_spec it2 Hs2 Hik) as (b & -> & Hbl & Hbc). cbn [buf_0 it2 index] in *. eexists. split; [done|].
    split; [|done]. split; cbn [array buf_0 index buf_index]; rewrite ?Hbl; try lia; [done|].
    intros j Hj Hjl. rewrite Hbc by lia. f_equal. lia.
  - exists it2. done.
Qed.
End ServeIter.

Lemma zip_serves {I J Arr Arr' Item Item' V V'} `{OneSidedIterator I Arr Item V, OneSidedIterator J Arr' Item' V'}
    (x : I) (y : J) l l' : serves x l -> serves y l' -> serves (os_zip x y) (zip l l').
Proof.
  revert x y l'. induction l as [|v l IH]; intros x y l' Hx Hy; cbn.
  - unfold os_zip_next. destruct Hx as (x' & Ex). cbn. rewrite Ex. by eexists.
  - destruct Hx as (p & x' & Ex & Hr & Hs). destruct l' as [|v' l']; cbn; unfold os_zip_next; cbn; rewrite Ex.
    + destruct Hy as (y' & ->). by eexists.
    + destruct Hy as (q & y' & -> & Hr' & Hs'). do 2 eexists. split; [done|]. cbn. rewrite Hr, Hr'.
      split; [done|]. by apply IH.
Qed.

(** [l] in chunks of [size]. *)
Definition chunk_list {A} (size : Z) (l : list A) : list (list A) :=
  (fun i => take (Z.to_nat size) (drop (Z.to_nat (i * size)) l)) <$> seqZ 0 ((Z.of_nat (length l) + size - 1) / size).

Section ServeChunks.
Context {I Arr Item T : Type} `{OneSidedIterator I Arr Item T} `{ArrayGetLaws Arr T}.
Context (fresh : nat -> list T) (Hfresh : forall n, length (fresh n) = n).
Context (a : Arr) (l : list T) (Ha : arr_elems a l) (size : Z) (Hsize : 0 < size <= 2 ^ 50).
#[local] Instance chunks_inst : OneSidedIterator (OSChunks I) Arr (list T) (list T) := os_chunks_iterator fresh.
Local Abbreviation num := ((Z.of_nat (length l) + size - 1) / size).

(** [c] is about to yield chunk [j]. *)
Definition at_chunk (c : OSChunks I) (j : Z) : Prop :=
  os_array (oc_iter c) = a /\ oc_size c = size /\ 0 <= j /\ 0 <= oc_index c < 2 ^ 63 /\
  (oc_index c = j * size \/ num <= j /\ Z.of_nat (length l) <= oc_index c).

Definition chunk_of (i : Z) : list T := take (Z.to_nat size) (drop (Z.to_nat (i * size)) l).

Lemma next_chunk c j : at_chunk c j ->
  (j < num -> exists c', os_chunks_next fresh c = Done (Some (chunk_of j), c') /\ at_chunk c' (j + 1) /\
               oc_index c' <= Z.of_nat (length l)) /\
  (num <= j -> os_chunks_next fresh c = Done (None, c)).
Proof.
  intros (E & Es & Hj & Hi & Hx). destruct (arr_len_elems a l Ha) as [El Hl]. unfold os_chunks_next. rewrite E, El, Es.
  split; intros Hn.
  - destruct Hx as [Ei|[? _]]; [|lia]. pose proof (proj1 (ceil_lt size _ _ ltac:(lia)) Hn) as Hlt.
    rewrite Ei, (proj2 (Z.ltb_lt _ _)) by done. unfold get_buffer. rewrite E, Ei.
    set (n := Z.min size (Z.of_nat (length l) - j * size)). rewrite (arr_get_elems a l) by (rewrite ?Hfresh; done || nia).
    rewrite Hfresh. cbn -[Z.mul]. rewrite uadd_ok by nia. eexists. split.
    + do 3 f_equal. unfold chunk_of. destruct (Z.le_gt_cases size (Z.of_nat (length l) - j * size)).
      * by replace n with size by lia.
      * rewrite !take_ge; [done| |]; rewrite length_drop; nia.
    + split; [|cbn; nia]. split_and!; cbn [oc_iter oc_index oc_size]; try done; try nia.
      destruct (Z.le_gt_cases size (Z.of_nat (length l) - j * size)); [left; nia|right].
      split; [|nia]. apply Z.nlt_ge. rewrite ceil_lt by lia. nia.
  - rewrite (proj2 (Z.ltb_ge _ _)); [done|]. destruct Hx as [->|[_ ?]]; [|done].
    apply Z.nlt_ge. rewrite <- ceil_lt by lia. lia.
Qed.

Lemma advance_chunk c j k : at_chunk c j -> oc_index c <= Z.of_nat (length l) -> 0 <= k -> k * size < 2 ^ 61 ->
  exists c', os_chunks_advance c k = Done c' /\ at_chunk c' (j + k).
Proof.
  intros (E & Es & Hj & Hi & Hx) Hn Hk Hb. destruct (arr_len_elems a l Ha) as [El Hl]. unfold os_chunks_advance.
  rewrite Es, umul_ok, uadd_ok by lia. eexists. split; [done|].
  split_and!; cbn [oc_iter oc_index oc_size]; try done; try nia.
Qed.

Lemma seqZ_next {B} (f : Z -> B) j n : j < n -> f <$> seqZ j (n - j) = f j :: (f <$> seqZ (j + 1) (n - (j + 1))).
Proof. intros Hj. rewrite seqZ_cons by lia. cbn. do 3 f_equal; lia. Qed.

Lemma chunks_serves c j : at_chunk c j -> serves c (chunk_of <$> seqZ j (num - j)).
Proof.
  remember (Z.to_nat (num - j)) as m eqn:Em. revert c j Em. induction m as [|m IH]; intros c j Em Hc;
    destruct (next_chunk c j Hc) as [N1 N2].
  - rewrite seqZ_nil by lia. exists c. apply N2. lia.
  - rewrite seqZ_next by lia. destruct N1 as (c' & E & Hc' & _); [lia|]. exists (chunk_of j), c'.
    split; [exact E|]. split; [done|]. apply IH; [lia|done].
Qed.

Lemma drop_seqZ_fmap {B} (f : Z -> B) j n k : drop k (f <$> seqZ j n) = f <$> seqZ (j + Z.of_nat k) (n - Z.of_nat k).
Proof.
  rewrite <- fmap_drop. f_equal. apply list_eq. intros i. rewrite lookup_drop.
  destruct (decide (Z.of_nat (k + i) < n)).
  - rewrite !lookup_seqZ_lt by lia. f_equal. lia.
  - rewrite !lookup_seqZ_ge by lia. done.
Qed.

Lemma step_chunks_serves c j st : at_chunk c j -> 0 < st -> st * size < 2 ^ 61 ->
  serves (os_step_by c st) (step_list st (chunk_of <$> seqZ j (num - j))).
Proof.
  intros Hc Hst Hb. remember (Z.to_nat (num - j)) as m eqn:Em. revert c j Em Hc.
  induction m as [m IH] using lt_wf_ind; intros c j Em Hc. destruct (next_chunk c j Hc) as [N1 N2].
  destruct (Z.le_gt_cases num j) as [Hn|Hn].
  - rewrite seqZ_nil by lia. cbn. unfold os_step_next. cbn. rewrite (N2 Hn). by eexists.
  - rewrite seqZ_next, step_list_cons, drop_seqZ_fmap by lia. destruct (N1 Hn) as (c1 & E & Hc1 & Hi1).
    destruct (advance_chunk c1 (j + 1) (st - 1) Hc1 Hi1 ltac:(lia) ltac:(nia)) as (c2 & E2 & Hc2).
    exists (chunk_of j), (os_step_by c2 st). split; [cbn; unfold os_step_next; cbn -[Z.sub]|split; [done|]].
    + rewrite E. cbn -[Z.sub]. by rewrite usub_ok, E2 by lia.
    + replace (j + 1 + Z.of_nat (Z.to_nat (st - 1))) with (j + 1 + (st - 1)) by lia.
      replace (num - (j + 1) - Z.of_nat (Z.to_nat (st - 1))) with (num - (j + 1 + (st - 1))) by lia.
      apply (IH (Z.to_nat (num - (j + 1 + (st - 1))))); [lia|done|done].
Qed.

Lemma chunks_start it : os_array it = a -> at_chunk (os_chunks it size) 0.
Proof. intros E. split_and!; try done; cbn; lia || (left; lia). Qed.
End ServeChunks.

(** ** Arrays *)

(** An array and the memory of its PEs. *)
Record RArray (T : Type) := { ra_inner : UnsafeArrayInner; ra_mem : Mem T }.
Arguments ra_inner {T}. Arguments ra_mem {T}.

Section UnsafeArray.
Context {T : Type} (uninit : Z -> T).
(** The order in which the get messages of a transfer run. *)
Context (order : list (Am T) -> list (Am T)).

Definition region_of (buf : list T) : Region T :=
  {| r_len := Z.of_nat (length buf); r_at k := default (uninit k) (buf !! Z.to_nat k) |}.
Definition list_of (r : Region T) : list T := r_at r <$> seqZ 0 (r_len r).

(** [internal_get] of [UnsafeArray], and [wait]. *)
Definition unsafe_get (a : RArray T) (index : Z) (buf : list T) : outcome (list T) :=
  let! st := internal_get uninit (ra_inner a) index {| mem := ra_mem a; buf := region_of buf; reqs := [] |} in
  let! st := exec_ams (ra_inner a) (order (reqs st)) st in
  Done (list_of (Rdma.buf st)).

#[local] Instance unsafe_array_get : ArrayGet (RArray T) T :=
  {| arr_len a := Distribution.size (ra_inner a); arr_get := unsafe_get |}.

Context (Hord : forall ams, order ams ≡ₚ ams).

Lemma unsafe_get_spec N P a (m : Mem T) l i buf : layout_wf N P a -> mem_wf N P a -> holds a m l ->
  Distribution.size a * elem_size a < USIZE -> 0 <= i -> (0 < length buf)%nat ->
  i + Z.of_nat (length buf) <= Z.of_nat (length l) ->
  unsafe_get {| ra_inner := a; ra_mem := m |} i buf = Done (take (length buf) (drop (Z.to_nat i) l)).
Proof.
  intros Hwf Hmw [Hl Hcell] Hsz Hi Hb Hr. unfold unsafe_get. cbn [ra_inner ra_mem].
  assert (Hok : range_ok N P a i (Z.of_nat (length buf))) by (constructor; done || lia).
  destruct (internal_get_reads uninit N P a {| mem := m; buf := region_of buf; reqs := [] |} i Hok) as (st1 & E1 & H1).
  { cbn. pose proof (mw_elem _ _ _ Hmw). nia. }
  { done. }
  rewrite E1. destruct (H1 _ (Hord _)) as (st2 & -> & _ & El & F). f_equal. cbn in El, F.
  unfold list_of. rewrite El. apply list_eq. intros k. rewrite list_lookup_fmap, lookup_take, lookup_drop.
  destruct (decide _) as [Hk|Hk].
  - rewrite lookup_seqZ_lt by lia. cbn. destruct (F (0 + Z.of_nat k) ltac:(lia)) as (pe & c & Ec & Er).
    rewrite Er. rewrite <- (Hcell (i + (0 + Z.of_nat k)) pe c ltac:(lia) Ec). f_equal. lia.
  - by rewrite lookup_seqZ_ge by lia.
Qed.

#[local] Instance unsafe_get_laws : ArrayGetLaws (RArray T) T.
Proof.
  refine {| arr_elems a l := (exists N P, layout_wf N P (ra_inner a) /\ mem_wf N P (ra_inner a)) /\
              holds (ra_inner a) (ra_mem a) l /\ Distribution.size (ra_inner a) * elem_size (ra_inner a) < USIZE |}.
  - intros a l ((N & P & Hwf & _) & [Hl _] & _). pose proof Hwf as []. cbn. lia.
  - intros [a m] l i buf ((N & P & Hwf & Hmw) & Hh & Hsz) Hi Hb Hr. by apply (unsafe_get_spec N P).
Defined.

(** ** Properties *)

(** A loop over [it], once it has enough fuel, sees exactly [l]. *)
Definition loops_over {I Arr Item V} (OS : OneSidedIterator I Arr Item V) (it : I) (l : list V) : Prop :=
  forall fuel, (length l < fuel)%nat -> for_loop fuel it = Done (Some (Some <$> l)).

(** C40: one PE iterates over a whole block or cyclic (sub)array of the world with elements [l],
    wherever they are: for any buffer size and any order in which the messages of the transfers run, the loop
    sees exactly the elements in order; with [zip] the pairs of both arrays; with [skip(n)] the
    elements from [n] on, if [n] does not exceed the buffer size; with [chunks(size)] the chunks
    of [l], and with [skip] and [step_by] after [chunks] the chunks they keep.  Nothing panics
    and every item shows its element while it is the last one. *)
Theorem one_sided_iteration (alloc : nat -> list T) (N N' P P' : Z) (a b : UnsafeArrayInner) (m m' : Mem T)
    (l l' : list T) (buf buf' n size k st : Z) :
  (forall n, length (alloc n) = n) ->
  layout_wf N P a -> mem_wf N P a -> holds a m l -> Distribution.size a * elem_size a < USIZE ->
  layout_wf N' P' b -> mem_wf N' P' b -> holds b m' l' -> Distribution.size b * elem_size b < USIZE ->
  l <> [] -> l' <> [] -> 0 < buf -> 0 < buf' -> 0 <= n <= buf -> n < Z.of_nat (length l) ->
  0 < size <= 2 ^ 50 -> 0 <= k -> k * size < 2 ^ 61 -> 0 < st -> st * size < 2 ^ 61 ->
  exists it0 it it' it'' c,
    onesided_iter alloc {| ra_inner := a; ra_mem := m |} = Done it0 /\
    buffered_onesided_iter alloc {| ra_inner := a; ra_mem := m |} buf = Done it /\
    buffered_onesided_iter alloc {| ra_inner := b; ra_mem := m' |} buf' = Done it' /\
    loops_over one_sided_iterator it0 l /\
    loops_over one_sided_iterator it l /\
    loops_over os_zip_iterator (os_zip it it') (zip l l') /\
    os_skip_new it n = Done it'' /\ loops_over one_sided_iterator it'' (drop (Z.to_nat n) l) /\
    loops_over (os_chunks_iterator alloc) (os_chunks it size) (chunk_list size l) /\
    @os_skip_new _ _ _ _ (os_chunks_iterator alloc) (os_chunks it size) k = Done c /\
    loops_over (os_chunks_iterator alloc) c (drop (Z.to_nat k) (chunk_list size l)) /\
    loops_over (@os_step_iterator _ _ _ _ (os_chunks_iterator alloc)) (os_step_by (os_chunks it size) st)
      (step_list st (chunk_list size l)).
Proof.
  intros Hal Hwf Hmw Hh Hsz Hwf' Hmw' Hh' Hsz' Hb Hb' Hbuf Hbuf' Hn Hnl Hsize Hk Hks Hst Hss.
  set (ra := {| ra_inner := a; ra_mem := m |}). set (rb := {| ra_inner := b; ra_mem := m' |}).
  assert (Ha : arr_elems ra l) by (split; [by exists N, P|done]).
  assert (Hb2 : arr_elems rb l') by (split; [by exists N', P'|done]).
  destruct (new_in_step ra l Ha (alloc 1%nat)) as (it0 & E0 & Hs0 & Ei0 & _ & _);
    [rewrite Hal; destruct l; cbn in *; [done|lia]|].
  destruct (buffered_in_step ra l Ha alloc buf Hal Hb Hbuf) as (it & E & Hs & Ei & Eb & El).
  destruct (buffered_in_step rb l' Hb2 alloc buf' Hal Hb' Hbuf') as (it' & E' & Hs' & Ei' & _ & _).
  destruct (advance_in_step ra l Ha it n Hs ltac:(lia) ltac:(lia) ltac:(lia)) as (it2 & E2 & Hs2 & Ei2).
  pose proof (chunks_start ra l size it (is_array ra l it Hs)) as Hc.
  destruct (advance_chunk ra l Ha size Hsize (os_chunks it size) 0 k Hc ltac:(cbn; lia) Hk Hks) as (c & Ec & Hc2).
  pose proof (iter_serves ra l Ha it0 Hs0) as S0. pose proof (iter_serves ra l Ha it Hs) as S1.
  pose proof (iter_serves rb l' Hb2 it' Hs') as S2. pose proof (iter_serves ra l Ha it2 Hs2) as S3.
  rewrite Ei0 in S0. rewrite Ei in S1. rewrite Ei' in S2. rewrite Ei2, Ei in S3.
  exists it0, it, it', it2, c. split_and!; try done; intros fuel Hf; apply serves_loop; try done.
  - by apply zip_serves.
  - pose proof (chunks_serves alloc Hal ra l Ha size Hsize _ 0 Hc) as S4. by rewrite Z.sub_0_r in S4.
  - unfold chunk_list. rewrite drop_seqZ_fmap.
    pose proof (chunks_serves alloc Hal ra l Ha size Hsize c (0 + k) Hc2) as S4.
    rewrite Z2Nat.id by done. exact S4.
  - pose proof (step_chunks_serves alloc Hal ra l Ha size Hsize _ 0 st Hc Hst Hss) as S4. by rewrite Z.sub_0_r in S4.
Qed.
End UnsafeArray.

(** *** Concrete runs: [ex_block] and [ex_cyclic] with the messages of a transfer in reverse *)
Definition ex_cyclic_mem (pe c : Z) : Z := 199 + 4 * c + pe.
Definition ex_alloc (n : nat) : list Z := replicate n 7.
Definition ex_array : RArray Z := {| ra_inner := ex_block; ra_mem := ex_mem |}.
Definition ex_iter (buf_size : Z) : outcome (OneSidedIter (RArray Z) Z) :=
  @buffered_onesided_iter _ _ (unsafe_array_get ex_uninit (@rev _)) ex_alloc ex_array buf_size.
Abbreviation ex_get := (unsafe_array_get (T:=Z) ex_uninit (@rev _)).
Abbreviation ex_os := (@one_sided_iterator _ _ ex_get).

Lemma ex_cyclic_holds : holds ex_cyclic ex_cyclic_mem [200; 201; 202; 203; 204; 205; 206].
Proof.
  split; [done|]. intros i pe c Hi. cbn in Hi.
  assert (E : i = 0 \/ i = 1 \/ i = 2 \/ i = 3 \/ i = 4 \/ i = 5 \/ i = 6) by lia.
  repeat (destruct E as [->|E]; [vm_compute; intros [= <- <-]; reflexivity|]). subst i.
  vm_compute. by intros [= <- <-].
Qed.

(** Pairs of a block and a cyclic array, with a buffer of 4 elements. *)
Lemma one_sided_iteration_witness :
  exists it it', ex_iter 4 = Done it /\
    for_loop (H:=ex_os) 11 it = Done (Some (Some <$> [100; 101; 102; 103; 104; 105; 106; 107; 108; 109])) /\
    for_loop (H:=@os_zip_iterator _ _ _ _ _ _ _ _ ex_os ex_os) 8 (os_zip it it')
      = Done (Some (Some <$> [(100, 200); (101, 201); (102, 202); (103, 203); (104, 204); (105, 205); (106, 206)])).
Proof.
  destruct (one_sided_iteration (T:=Z) ex_uninit (@rev _) (fun ams => Permutation_sym (Permutation_rev ams)) ex_alloc
    10 10 4 4 ex_block ex_cyclic ex_mem ex_cyclic_mem _ _ 4 4 3 4 1 2 (fun n => length_replicate n _)
    ex_block_wf (ro_mem _ _ _ _ _ ex_block_range) ex_holds ltac:(reflexivity)
    ex_cyclic_wf (ro_mem _ _ _ _ _ ex_cyclic_range) ex_cyclic_holds ltac:(reflexivity) ltac:(done) ltac:(done)
    ltac:(lia) ltac:(lia) ltac:(lia) ltac:(cbn; lia) ltac:(lia) ltac:(lia) ltac:(lia) ltac:(lia) ltac:(lia))
    as (_ & it & it' & _ & _ & _ & E & _ & _ & L & Hz & _).
  exists it, it'. split; [exact E|]. split; [apply L|apply Hz]; cbn; lia.
Defined.

(** ** Limits *)

(** [skip(n)] past the end of the buffer: every item is outside of the buffer. *)
Theorem one_sided_skip_outside {Arr T} `{ArrayGet Arr T} (it : OneSidedIter Arr T) (n : Z) (k fuel : nat) :
  Z.of_nat (length (buf_0 it)) < buf_index it + n -> 0 <= buf_index it + n < 2 ^ 62 -> 0 <= index it + n ->
  arr_len (array it) = index it + n + Z.of_nat k -> arr_len (array it) < 2 ^ 62 -> (k < fuel)%nat ->
  exists it', os_skip_new it n = Done it' /\ for_loop fuel it' = Done (Some (replicate k None)).
Proof.
  intros Hb Hbi Hi El Hl Hf. unfold os_skip_new. cbn [os_advance one_sided_iterator]. unfold one_sided_advance.
  rewrite !uadd_ok by lia. cbn -[Z.add]. rewrite (proj2 (Z.eqb_neq _ _)) by lia. eexists. split; [done|].
  assert (Hrun : forall k fuel it', (k < fuel)%nat -> Z.of_nat (length (buf_0 it')) < buf_index it' ->
    0 <= buf_index it' -> buf_index it' + Z.of_nat k < 2 ^ 63 -> 0 <= index it' -> arr_len (array it') < 2 ^ 62 ->
    arr_len (array it') = index it' + Z.of_nat k -> for_loop fuel it' = Done (Some (replicate k None))).
  { clear. induction k as [|k IH]; intros [|fuel] it' Hf Hb Hb0 Hbk Hi Hl El; try lia; cbn [for_loop os_next one_sided_iterator].
    - unfold one_sided_next. by rewrite (proj2 (Z.ltb_ge _ _)) by lia.
    - unfold one_sided_next. rewrite (proj2 (Z.ltb_lt _ _)), (proj2 (Z.eqb_neq _ _)) by lia.
      cbn -[Z.add for_loop]. rewrite !uadd_ok by lia. cbn -[Z.add Z.sub for_loop].
      rewrite IH by (cbn; lia). cbn. destruct (0 <=? _); [|done]. by rewrite lookup_ge_None_2 by lia. }
  apply Hrun; cbn; lia.
Qed.

(** As in the documented example, with the buffer of [onesided_iter], one element. *)
Example one_sided_skip_example :
  (let! it := ex_iter 1 in let! it := @os_skip_new _ _ _ _ ex_os it 3 in for_loop (H:=ex_os) 20 it)
  = Done (Some (replicate 7 None)).
Proof. vm_compute. reflexivity. Qed.

(** [step_by(3)] with that buffer leaves it after the first item; with a buffer of 4 elements,
    [step_by(2)] replaces the buffer before the second item of each buffer is looked at, and
    [step_by(4)] ends in a panic before the last item is returned. *)
Example one_sided_step_example :
  let steps b n := let! it := ex_iter b in for_loop (H:=@os_step_iterator _ _ _ _ ex_os) 20 (os_step_by it n) in
  steps 1 3 = Done (Some [Some 100; None; None; None]) /\
  steps 4 2 = Done (Some [Some 100; Some 106; Some 104; Some 106; Some 108]) /\
  steps 4 4 = Panic.
Proof. vm_compute. auto. Qed.

(** An item is the place in the buffer: the next [next] changes what it shows. *)
Example one_sided_item_changes :
  exists x it x' it',
    (let! it := ex_iter 1 in one_sided_next (H:=ex_get) it) = Done (Some x, it) /\
    os_read (OneSidedIterator:=ex_os) it x = Some 100 /\
    one_sided_next (H:=ex_get) it = Done (Some x', it') /\ os_read (OneSidedIterator:=ex_os) it' x = Some 101.
Proof. do 4 eexists. split; [vm_compute; reflexivity|]. split; [reflexivity|]. split; vm_compute; reflexivity. Qed.

(** [chunks] starts at the first element, whatever its iterator has skipped. *)
Example one_sided_chunks_ignore_skip :
  (let! it := ex_iter 4 in let! it := @os_skip_new _ _ _ _ ex_os it 3 in
   for_loop (H:=@os_chunks_iterator _ _ _ _ ex_os _ ex_get ex_alloc) 20 (os_chunks it 6))
  = Done (Some [Some [100; 101; 102; 103; 104; 105]; Some [106; 107; 108; 109]]).
Proof. vm_compute. reflexivity. Qed.
