(* ===== verification/Darc.v ===== *)
(** The distributed reference counter [Darc] (src/src/darc.rs).

    Every PE of the team holds one [DarcInner].  The activities that touch it
    (the owner of a handle, an active message that carries a handle, a
    [FinishedAm], a running [drop], [block_on_outstanding], [DroppedWaitAM])
    are the tasks of the state; a task performs one atomic operation, one put
    or one element access at a time, in any interleaving with the others. *)

From stdpp Require Import base list numbers relations sets.
From Stdlib Require Import ZArith Lia.
From S2P Require Import Prelude.

Local Open Scope Z_scope.

Inductive DarcMode :=
| Dropped | ModeDarc | LocalRw | GlobalRw | UnsafeArray | ReadOnlyArray
| GenericAtomicArray | NativeAtomicArray | LocalLockArray | GlobalLockArray.

#[global] Instance DarcMode_eq_dec : EqDecision DarcMode.
Proof. solve_decision. Defined.

(** The memory of a darc on one PE: the counters of [DarcInner], the arrays
    behind its addresses (indexed by PE) and its barrier, of which only the
    number of executions entered matters.  [freed] is set when the memory is
    returned to the lamellae. *)
Record DarcInner := MkInner {
  local_cnt : Z;
  total_local_cnt : Z;
  weak_local_cnt : Z;
  dist_cnt : Z;
  total_dist_cnt : Z;
  ref_cnt : Z -> Z;
  total_ref_cnt : Z -> Z;
  mode : Z -> DarcMode;
  mode_ref_cnt : Z -> Z;
  mode_barrier : Z -> Z;
  barrier : Z;
  valid : bool;
  freed : bool;
}.

Definition on_local (f : Z -> Z) (d : DarcInner) : DarcInner :=
  let 'MkInner l tl w dc td r tr m mr mb b v fr := d in MkInner (f l) tl w dc td r tr m mr mb b v fr.
Definition on_total_local (f : Z -> Z) (d : DarcInner) : DarcInner :=
  let 'MkInner l tl w dc td r tr m mr mb b v fr := d in MkInner l (f tl) w dc td r tr m mr mb b v fr.
Definition on_weak (f : Z -> Z) (d : DarcInner) : DarcInner :=
  let 'MkInner l tl w dc td r tr m mr mb b v fr := d in MkInner l tl (f w) dc td r tr m mr mb b v fr.
Definition on_dist (f : Z -> Z) (d : DarcInner) : DarcInner :=
  let 'MkInner l tl w dc td r tr m mr mb b v fr := d in MkInner l tl w (f dc) td r tr m mr mb b v fr.
Definition on_total_dist (f : Z -> Z) (d : DarcInner) : DarcInner :=
  let 'MkInner l tl w dc td r tr m mr mb b v fr := d in MkInner l tl w dc (f td) r tr m mr mb b v fr.
Definition on_ref (k : Z) (f : Z -> Z) (d : DarcInner) : DarcInner :=
  let 'MkInner l tl w dc td r tr m mr mb b v fr := d in
  MkInner l tl w dc td (upd r k (f (r k))) tr m mr mb b v fr.
Definition on_total_ref (k : Z) (f : Z -> Z) (d : DarcInner) : DarcInner :=
  let 'MkInner l tl w dc td r tr m mr mb b v fr := d in
  MkInner l tl w dc td r (upd tr k (f (tr k))) m mr mb b v fr.
Definition put_mode (k : Z) (x : DarcMode) (d : DarcInner) : DarcInner :=
  let 'MkInner l tl w dc td r tr m mr mb b v fr := d in
  MkInner l tl w dc td r tr (upd m k x) mr mb b v fr.
Definition put_mode_ref_cnt (k x : Z) (d : DarcInner) : DarcInner :=
  let 'MkInner l tl w dc td r tr m mr mb b v fr := d in
  MkInner l tl w dc td r tr m (upd mr k x) mb b v fr.
Definition put_mode_barrier (k x : Z) (d : DarcInner) : DarcInner :=
  let 'MkInner l tl w dc td r tr m mr mb b v fr := d in
  MkInner l tl w dc td r tr m mr (upd mb k x) b v fr.
Definition enter_barrier (d : DarcInner) : DarcInner :=
  let 'MkInner l tl w dc td r tr m mr mb b v fr := d in
  MkInner l tl w dc td r tr m mr mb (b + 1) v fr.
Definition invalidate (d : DarcInner) : DarcInner :=
  let 'MkInner l tl w dc td r tr m mr mb b v fr := d in
  MkInner l tl w dc td r tr m mr mb b false fr.
Definition free (d : DarcInner) : DarcInner :=
  let 'MkInner l tl w dc td r tr m mr mb b v fr := d in
  MkInner l tl w dc td r tr m mr mb b v true.

(** [DarcInner] as [Darc::try_new_with_drop] initialises it; the array of the
    total reference counts is left as the allocation returned it ([raw]). *)
Definition new_inner (raw : Z -> Z) (state : DarcMode) : DarcInner :=
  {| local_cnt := 1; total_local_cnt := 1; weak_local_cnt := 0; dist_cnt := 0; total_dist_cnt := 0;
     ref_cnt := fun _ => 0; total_ref_cnt := raw; mode := fun _ => state;
     mode_ref_cnt := fun _ => 0; mode_barrier := fun _ => 0; barrier := 0;
     valid := true; freed := false |}.

(** What follows [block_on_outstanding]: the rest of [DroppedWaitAM::exec], the rest of
    [into_localrw] / [into_globalrw], or what the owner of the handle does next, for
    [Darc::block_on_outstanding], which borrows it. *)
Inductive Caller := ByDroppedWait | ByConversion | ByBorrow.

(** The local variables of [block_on_outstanding] on PE [my_pe]. *)
Record Block := MkBlock {
  my_pe : Z;
  state : DarcMode;
  extra_cnt : Z;
  caller : Caller;
  outstanding_refs : bool;
  prev_ref_cnts : list Z;
  barrier_id : Z;
  old_barrier_id : Z;
  old_ref_cnts : list Z;
  old_local_cnt : Z;
  old_dist_cnt : Z;
  barrier_sum : Z;
}.

(** Where [block_on_outstanding] stands.  [k] is the index of the loop over
    the PEs; each of the four barriers of the loop and around it is entered in
    one step and left in a later one. *)
Inductive BlockPc :=
| BSingle
| BEnter0 | BWait0
| BWhile
| BCopy (k : Z) | BOldLocal | BOldDist
| BPutRef (k : Z)
| BEnter1 | BWait1
| BCmpLocal | BCmpDist | BCmpRef (k : Z)
| BEnter2 | BWait2
| BPutId (k : Z)
| BEnter3 | BWait3
| BReadId (k : Z)
| BNext
| BStore | BPutMode (k : Z) | BPoll (k : Z)
| BEnter4 | BWait4.

(** Where the rest of [DroppedWaitAM::exec] stands. *)
Inductive WaitPc :=
| WMode (k : Z) | WBodyMode (k : Z) | WValid | WDist | WLocal | WBody | WItem | WWeak | WFree.

(** Where a call of [drop] or [send_finished] returns to. *)
Inductive Ret :=
| Return
| RSend (p : Z) (dsts : list Z)
| RDropLoad (p : Z) (r : Ret)
| RBlock (pc : BlockPc) (b : Block)
| RWait (p : Z) (pc : WaitPc).

Inductive Task :=
| Handle (p : Z)                          (* a [Darc] value on PE [p] *)
| Weak (p : Z)                            (* a [WeakDarc] value on PE [p] *)
| Clone_ (p : Z)
| IncTotal (p : Z) (cnt : nat)
| SerTotal (p : Z) (dsts : list Z)
| SerClone (p : Z) (dsts : list Z)
| SerCloneTotal (p : Z) (dsts : list Z)
| Arrive (src p : Z) | ArriveRef (src p : Z) | ArriveLocal (src p : Z) | ArriveTotal (p : Z)
| Finished (p cnt : Z)
| Drop_ (p : Z) (r : Ret)
| DropScan (p k : Z) (r : Ret)
| SendFinished (p k : Z) (r : Ret)
| DropLoad (p : Z) (r : Ret)
| DropCas (p : Z) (ms : list DarcMode) (r : Ret)
| UpTotal (p : Z) | UpValid (p : Z) | UpUndo (p : Z)
| Outstanding (pc : BlockPc) (b : Block)
| DroppedWait (p : Z) (pc : WaitPc)
| ConvLocal (p : Z) | ConvTotal (p : Z).

Section Steps.
Context (num_pes : Z).

(** The destinations of an active message: one PE, or all others. *)
Definition destinations (p : Z) (dst : option Z) : list Z :=
  match dst with
  | Some d => [d]
  | None => filter (fun q => q <> p) (seqZ 0 num_pes)
  end.

(** The result of a step: the memories, what the task becomes, and the task
    it spawns. *)
Abbreviation Result := (option ((Z -> DarcInner) * list Task)).
Abbreviation Mem := (Z -> DarcInner).

Definition at_pe (p : Z) (f : DarcInner -> DarcInner) (m : Mem) : Mem := upd m p (f (m p)).

Definition ret (r : Ret) : list Task :=
  match r with
  | Return => []
  | RSend p dsts => Handle p :: map (Arrive p) dsts
  | RDropLoad p r => [DropLoad p r]
  | RBlock pc b => [Outstanding pc b]
  | RWait p pc => [DroppedWait p pc]
  end.

(** The modes [drop] tries, in the order of its chain of [local_mode!]. *)
Definition drop_modes : list DarcMode :=
  [ModeDarc; LocalRw; GlobalRw; LocalRw; UnsafeArray; ReadOnlyArray; LocalLockArray;
   GlobalLockArray; GenericAtomicArray; NativeAtomicArray].

(** Entry of [block_on_outstanding]. *)
Definition block_on_outstanding (p : Z) (state : DarcMode) (extra_cnt : Z) (c : Caller) : Task :=
  Outstanding (if num_pes =? 1 then BSingle else BEnter0)
    {| my_pe := p; state := state; extra_cnt := extra_cnt; caller := c; outstanding_refs := true;
       prev_ref_cnts := replicate (Z.to_nat num_pes) 0; barrier_id := 1; old_barrier_id := 0;
       old_ref_cnts := []; old_local_cnt := 0; old_dist_cnt := 0; barrier_sum := 0 |}.

(** One iteration of the loop of [send_finished]. *)
Definition send_finished (m : Mem) (p k : Z) (r : Ret) : Mem * list Task :=
  if k <? num_pes then
    let cnt := ref_cnt (m p) k in
    (at_pe p (on_ref k (fun _ => 0)) m,
     SendFinished p (k + 1) r :: (if 0 <? cnt then [Finished k cnt] else []))
  else (m, ret r).

(** [Darc::drop]: the decrement, the scan of the reference counts, the test
    of the local count and the chain of compare-and-exchanges. *)
Definition drop_sub (m : Mem) (p : Z) (r : Ret) : Mem * list Task :=
  (at_pe p (on_local (fun x => wsub x 1)) m,
   [if local_cnt (m p) =? 1 then DropScan p 0 r else DropLoad p r]).

Definition drop_scan (m : Mem) (p k : Z) (r : Ret) : Mem * list Task :=
  (m, [if k <? num_pes then
         if 0 <? ref_cnt (m p) k then SendFinished p 0 (RDropLoad p r) else DropScan p (k + 1) r
       else DropLoad p r]).

Definition drop_load (m : Mem) (p : Z) (r : Ret) : Mem * list Task :=
  (m, if local_cnt (m p) =? 0 then [DropCas p drop_modes r] else ret r).

Definition drop_cas (m : Mem) (p : Z) (ms : list DarcMode) (r : Ret) : Mem * list Task :=
  match ms with
  | [] => (m, ret r)
  | x :: ms =>
    if decide (mode (m p) p = x)
    then (at_pe p (put_mode p Dropped) m, block_on_outstanding p Dropped 0 ByDroppedWait :: ret r)
    else (m, [DropCas p ms r])
  end.

(** [block_on_outstanding]. *)
Definition with_flag (o : bool) (b : Block) : Block :=
  let 'MkBlock p st e c o0 pr i oi ol oc od su := b in
  MkBlock p st e c (o0 || o) pr i oi ol oc od su.

Definition barrier_passed (m : Mem) (p : Z) : bool :=
  forallb (fun q => barrier (m p) <=? barrier (m q)) (seqZ 0 num_pes).

(** Entering a barrier, and leaving it when every PE has entered it. *)
Definition enter (m : Mem) (pc : BlockPc) (b : Block) : Result :=
  Some (at_pe (my_pe b) enter_barrier m, [Outstanding pc b]).
Definition leave (m : Mem) (pc : BlockPc) (b : Block) : Result :=
  if barrier_passed m (my_pe b) then Some (m, [Outstanding pc b]) else None.

(** A loop over the PEs: the body at [k], or what follows the loop. *)
Definition for_pe (k : Z) (body after : Result) : Result := if k <? num_pes then body else after.

(** The end of [block_on_outstanding]: [DroppedWaitAM] waits for the modes;
    a conversion counts the handle it returns and then drops [self]; a borrowed handle is
    still there. *)
Definition block_return (b : Block) : list Task :=
  match caller b with
  | ByDroppedWait => [DroppedWait (my_pe b) (WMode 0)]
  | ByConversion => [ConvLocal (my_pe b)]
  | ByBorrow => [Handle (my_pe b)]
  end.

Definition block_step (m : Mem) (pc : BlockPc) (b : Block) : Result :=
  let 'MkBlock p st e c o pr i oi ol oc od su := b in
  let d := m p in
  match pc with
  | BSingle =>
    if local_cnt d <=? 1 + e then Some (at_pe p (put_mode p st) m, block_return b) else None
  | BEnter0 => enter m BWait0 b
  | BWait0 => leave m BWhile b
  | BWhile =>
    if local_cnt d <=? 1 + e
    then Some (m, [SendFinished p 0 (RBlock (BCopy 0) (MkBlock p st e c false pr i i [] oc od su))])
    else None
  | BCopy k => for_pe k
      (Some (m, [Outstanding (BCopy (k + 1)) (MkBlock p st e c o pr i oi (ol ++ [total_ref_cnt d k]) oc od su)]))
      (Some (m, [Outstanding BOldLocal b]))
  | BOldLocal => Some (m, [Outstanding BOldDist (MkBlock p st e c o pr i oi ol (total_local_cnt d) od su)])
  | BOldDist => Some (m, [Outstanding (BPutRef 0) (MkBlock p st e c o pr i oi ol oc (total_dist_cnt d) su)])
  | BPutRef k => for_pe k
      (if pr !!! Z.to_nat k =? ol !!! Z.to_nat k
       then Some (m, [Outstanding (BPutRef (k + 1)) b])
       else Some (at_pe k (put_mode_ref_cnt p (ol !!! Z.to_nat k)) m,
                  [Outstanding (BPutRef (k + 1)) (MkBlock p st e c true pr 0 oi ol oc od su)]))
      (Some (m, [Outstanding BEnter1 b]))
  | BEnter1 => enter m BWait1 b
  | BWait1 => leave m BCmpLocal b
  | BCmpLocal => Some (m, [Outstanding BCmpDist (with_flag (negb (oc =? total_local_cnt d)) b)])
  | BCmpDist =>
    Some (m, [Outstanding (BCmpRef 0)
                (with_flag (negb (od =? total_dist_cnt d)) (MkBlock p st e c o pr i oi ol oc od 0))])
  | BCmpRef k => for_pe k
      (Some (m, [Outstanding (BCmpRef (k + 1))
                   (with_flag (negb (ol !!! Z.to_nat k =? total_ref_cnt d k))
                      (MkBlock p st e c o pr i oi ol oc od (su + mode_ref_cnt d k)))]))
      (let o' := o || negb (su =? od) in
       Some (m, [Outstanding BEnter2 (MkBlock p st e c o' pr (if o' then 0 else i) oi ol oc od su)]))
  | BEnter2 => enter m BWait2 b
  | BWait2 => leave m (BPutId 0) b
  | BPutId k => for_pe k
      (Some (at_pe k (put_mode_barrier p i) m, [Outstanding (BPutId (k + 1)) b]))
      (Some (m, [Outstanding BEnter3 b]))
  | BEnter3 => enter m BWait3 b
  | BWait3 => leave m (BReadId 0) b
  | BReadId k => for_pe k
      (Some (m, [Outstanding (BReadId (k + 1)) (with_flag (mode_barrier d k =? 0) b)]))
      (Some (m, [Outstanding BNext b]))
  | BNext =>
    Some (m, [Outstanding (if o then BWhile else BStore) (MkBlock p st e c o ol (oi + 1) oi ol oc od su)])
  | BStore => Some (at_pe p (put_mode p st) m, [Outstanding (BPutMode 0) b])
  | BPutMode k => for_pe k
      (Some (at_pe k (put_mode p (mode d p)) m, [Outstanding (BPutMode (k + 1)) b]))
      (Some (m, [Outstanding (BPoll 0) b]))
  | BPoll k => for_pe k
      (if decide (mode d k = st) then Some (m, [Outstanding (BPoll (k + 1)) b])
       else if local_cnt d =? 1 + e then Some (m, [SendFinished p 0 (RBlock (BPoll k) b)])
       else None)
      (Some (m, [Outstanding BEnter4 b]))
  | BEnter4 => enter m BWait4 b
  | BWait4 => if barrier_passed m p then Some (m, block_return b) else None
  end.

(** The rest of [DroppedWaitAM::exec]. *)
Definition wait_step (m : Mem) (p : Z) (pc : WaitPc) : Result :=
  let d := m p in
  match pc with
  | WMode k =>
    Some (m, [DroppedWait p (if k <? num_pes
                             then if decide (mode d k = Dropped) then WMode (k + 1) else WBodyMode k
                             else WValid)])
  | WBodyMode k =>
    Some (m, [if local_cnt d =? 0 then SendFinished p 0 (RWait p (WMode k)) else DroppedWait p (WMode k)])
  | WValid => Some (at_pe p invalidate m, [DroppedWait p WDist])
  | WDist => Some (m, [DroppedWait p (if dist_cnt d =? 0 then WLocal else WBody)])
  | WLocal => Some (m, [DroppedWait p (if local_cnt d =? 0 then WItem else WBody)])
  | WBody =>
    Some (m, [if local_cnt d =? 0 then SendFinished p 0 (RWait p WDist) else DroppedWait p WDist])
  | WItem => Some (m, [DroppedWait p WWeak])
  | WWeak => if weak_local_cnt d =? 0 then Some (m, [DroppedWait p WFree]) else None
  | WFree => Some (at_pe p free m, [])
  end.

(** What the owner of a [Darc] or [WeakDarc] value does with it. *)
Inductive Act :=
| Run                                   (* the task is not such a value: its next step *)
| AClone | ADrop | ASer (dst : option Z) | ADowngrade | AConvert (to : DarcMode)
| AInc (cnt : nat) | ABlock (to : DarcMode) (extra_cnt : Z)
| AUpgrade | AWeakClone | AWeakDrop.

(** Adding to and subtracting from an atomic counter. *)
Definition inc (k x : Z) : Z := wadd x k.
Definition dec (k x : Z) : Z := wsub x k.

(** [Clone for Darc]. *)
Definition clone_local (m : Mem) (p : Z) : Mem * list Task := (at_pe p (on_local (inc 1)) m, [Clone_ p]).
Definition clone_total (m : Mem) (p : Z) : Mem * list Task :=
  (at_pe p (on_total_local (inc 1)) m, [Handle p; Handle p]).

(** [Darc::inc_local_cnt]: the count of [cnt] handles that exist without having been cloned (a
    request calls it with 1 for the handle inside a result that it reads twice). *)
Definition inc_local_cnt (m : Mem) (p : Z) (cnt : nat) : Mem * list Task :=
  (at_pe p (on_local (inc (Z.of_nat cnt))) m, [IncTotal p cnt]).
Definition inc_local_cnt_total (m : Mem) (p : Z) (cnt : nat) : Mem * list Task :=
  (at_pe p (on_total_local (inc (Z.of_nat cnt))) m, Handle p :: replicate cnt (Handle p)).

(** [DarcSerde::ser] for as many PEs as [dsts] has: the counters, a clone that
    becomes the network representation and is dropped; then the messages
    leave. *)
Definition ser_dist (m : Mem) (p : Z) (dsts : list Z) : Mem * list Task :=
  (at_pe p (on_dist (inc (Z.of_nat (length dsts)))) m, [SerTotal p dsts]).
Definition ser_total (m : Mem) (p : Z) (dsts : list Z) : Mem * list Task :=
  (at_pe p (on_total_dist (inc (Z.of_nat (length dsts)))) m, [SerClone p dsts]).
Definition ser_clone (m : Mem) (p : Z) (dsts : list Z) : Mem * list Task :=
  (at_pe p (on_local (inc 1)) m, [SerCloneTotal p dsts]).
Definition ser_clone_total (m : Mem) (p : Z) (dsts : list Z) : Mem * list Task :=
  (at_pe p (on_total_local (inc 1)) m, [Drop_ p (RSend p dsts)]).

(** [DarcSerde::des]: [inc_pe_ref_count] and the local counters. *)
Definition des_total_ref (m : Mem) (src p : Z) : Mem * list Task :=
  (at_pe p (on_total_ref src (inc 1)) m, [ArriveRef src p]).
Definition des_ref (m : Mem) (src p : Z) : Mem * list Task :=
  (at_pe p (on_ref src (inc 1)) m, [ArriveLocal src p]).
Definition des_local (m : Mem) (p : Z) : Mem * list Task := (at_pe p (on_local (inc 1)) m, [ArriveTotal p]).
Definition des_total (m : Mem) (p : Z) : Mem * list Task := (at_pe p (on_total_local (inc 1)) m, [Handle p]).

(** [FinishedAm::exec]. *)
Definition finished (m : Mem) (p cnt : Z) : Mem * list Task := (at_pe p (on_dist (dec cnt)) m, []).

(** [Darc::downgrade] and [WeakDarc]'s [clone], [drop] and [upgrade]. *)
Definition downgrade (m : Mem) (p : Z) : Mem * list Task := (at_pe p (on_weak (inc 1)) m, [Handle p; Weak p]).
Definition weak_clone (m : Mem) (p : Z) : Mem * list Task := (at_pe p (on_weak (inc 1)) m, [Weak p; Weak p]).
Definition weak_drop (m : Mem) (p : Z) : Mem * list Task := (at_pe p (on_weak (dec 1)) m, []).
Definition upgrade_local (m : Mem) (p : Z) : Mem * list Task := (at_pe p (on_local (inc 1)) m, [UpTotal p]).
Definition upgrade_total (m : Mem) (p : Z) : Mem * list Task := (at_pe p (on_total_local (inc 1)) m, [UpValid p]).
Definition upgrade_valid (m : Mem) (p : Z) : Mem * list Task :=
  (m, if valid (m p) then [Weak p; Handle p] else [UpUndo p]).
Definition upgrade_undo (m : Mem) (p : Z) : Mem * list Task := (at_pe p (on_local (dec 1)) m, [Weak p]).

(** The end of [into_localrw] and [into_globalrw]: the handle they return is
    counted, [self] is dropped. *)
Definition into_rw_local (m : Mem) (p : Z) : Mem * list Task := (at_pe p (on_local (inc 1)) m, [ConvTotal p]).
Definition into_rw_total (m : Mem) (p : Z) : Mem * list Task :=
  (at_pe p (on_total_local (inc 1)) m, [Handle p; Drop_ p Return]).

(** One step of a task: [None] when it waits or the action is not its own. *)
Definition tstep (m : Mem) (a : Act) (t : Task) : Result :=
  match t, a with
  | Handle p, AClone => Some (clone_local m p)
  | Handle p, ADrop => Some (m, [Drop_ p Return])
  | Handle p, ASer dst =>
    let dsts := destinations p dst in
    if forallb (fun q => (0 <=? q) && (q <? num_pes)) dsts then Some (ser_dist m p dsts) else None
  | Handle p, ADowngrade => Some (downgrade m p)
  | Handle p, AConvert to => Some (m, [block_on_outstanding p to 0 ByConversion])
  | Handle p, AInc cnt => Some (inc_local_cnt m p cnt)
  | Handle p, ABlock to extra_cnt => Some (m, [block_on_outstanding p to extra_cnt ByBorrow])
  | Weak p, AWeakClone => Some (weak_clone m p)
  | Weak p, AWeakDrop => Some (weak_drop m p)
  | Weak p, AUpgrade => Some (upgrade_local m p)
  | Clone_ p, Run => Some (clone_total m p)
  | IncTotal p cnt, Run => Some (inc_local_cnt_total m p cnt)
  | SerTotal p dsts, Run => Some (ser_total m p dsts)
  | SerClone p dsts, Run => Some (ser_clone m p dsts)
  | SerCloneTotal p dsts, Run => Some (ser_clone_total m p dsts)
  | Arrive src p, Run => Some (des_total_ref m src p)
  | ArriveRef src p, Run => Some (des_ref m src p)
  | ArriveLocal _ p, Run => Some (des_local m p)
  | ArriveTotal p, Run => Some (des_total m p)
  | Finished p cnt, Run => Some (finished m p cnt)
  | Drop_ p r, Run => Some (drop_sub m p r)
  | DropScan p k r, Run => Some (drop_scan m p k r)
  | SendFinished p k r, Run => Some (send_finished m p k r)
  | DropLoad p r, Run => Some (drop_load m p r)
  | DropCas p ms r, Run => Some (drop_cas m p ms r)
  | UpTotal p, Run => Some (upgrade_total m p)
  | UpValid p, Run => Some (upgrade_valid m p)
  | UpUndo p, Run => Some (upgrade_undo m p)
  | Outstanding pc b, Run => block_step m pc b
  | DroppedWait p pc, Run => wait_step m p pc
  | ConvLocal p, Run => Some (into_rw_local m p)
  | ConvTotal p, Run => Some (into_rw_total m p)
  | _, _ => None
  end.

Record St := { mem : Z -> DarcInner; tasks : list Task }.

(** Task [i] takes a step; what it becomes takes its place. *)
Definition lstep1 (i : nat) (a : Act) (s : St) : option St :=
  t ← tasks s !! i;
  '(m', ts) ← tstep (mem s) a t;
  Some {| mem := m'; tasks := take i (tasks s) ++ ts ++ drop (S i) (tasks s) |}.

Definition lstep (s s' : St) : Prop := exists i a, lstep1 i a s = Some s'.

(** The state when [Darc::new] has returned on every PE. *)
Definition init (raw : Z -> Z -> Z) (state : DarcMode) : St :=
  {| mem := fun p => new_inner (raw p) state; tasks := map Handle (seqZ 0 num_pes) |}.

Definition reachable (raw : Z -> Z -> Z) (state : DarcMode) (s : St) : Prop :=
  rtc lstep (init raw state) s.

#[local] Hint Unfold clone_local clone_total inc_local_cnt ser_dist ser_total ser_clone ser_clone_total des_total_ref
  des_ref des_local des_total finished downgrade weak_clone weak_drop upgrade_local upgrade_total
  upgrade_valid upgrade_undo into_rw_local into_rw_total inc dec : darc.

(** ** What every task holds

    [local_refs p t]: the references to the darc of PE [p] that [t] holds and
    that [local_cnt] counts.  A handle is counted from the increment to the
    decrement. *)
Fixpoint ret_local (p : Z) (r : Ret) : Z :=
  match r with
  | RSend q _ => Z.b2z (q =? p)
  | RDropLoad _ r => ret_local p r
  | RBlock _ b => match caller b with ByDroppedWait => 0 | _ => Z.b2z (my_pe b =? p) end
  | _ => 0
  end.

Definition local_refs (p : Z) (t : Task) : Z :=
  match t with
  | Handle q | SerTotal q _ | SerClone q _ | ArriveTotal q | UpTotal q | UpValid q | UpUndo q
  | ConvLocal q => Z.b2z (q =? p)
  | Clone_ q | SerCloneTotal q _ | ConvTotal q => 2 * Z.b2z (q =? p)
  | IncTotal q cnt => (1 + Z.of_nat cnt) * Z.b2z (q =? p)
  | Drop_ q r => Z.b2z (q =? p) + ret_local p r
  | DropScan _ _ r | SendFinished _ _ r | DropLoad _ r | DropCas _ _ r => ret_local p r
  | Outstanding _ b => match caller b with ByDroppedWait => 0 | _ => Z.b2z (my_pe b =? p) end
  | _ => 0
  end.

(** [dist_refs p t]: the copies that PE [p] has counted in [dist_cnt] and that
    [t] carries: messages still to be sent, messages in flight, and finished
    copies on their way back. *)
Fixpoint ret_dist (p : Z) (r : Ret) : Z :=
  match r with
  | RSend q dsts => Z.of_nat (length dsts) * Z.b2z (q =? p)
  | RDropLoad _ r => ret_dist p r
  | _ => 0
  end.

Definition dist_refs (p : Z) (t : Task) : Z :=
  match t with
  | SerTotal q dsts | SerClone q dsts | SerCloneTotal q dsts => Z.of_nat (length dsts) * Z.b2z (q =? p)
  | Arrive src _ | ArriveRef src _ => Z.b2z (src =? p)
  | Finished q cnt => cnt * Z.b2z (q =? p)
  | Drop_ _ r | DropScan _ _ r | SendFinished _ _ r | DropLoad _ r | DropCas _ _ r => ret_dist p r
  | _ => 0
  end.

(** [sent_refs p t]: the copies that PE [p] has counted in [total_dist_cnt] and
    whose arrival no [total_ref_cnt] counts yet. *)
Definition sent_refs (p : Z) (t : Task) : Z :=
  match t with
  | SerClone q dsts | SerCloneTotal q dsts => Z.of_nat (length dsts) * Z.b2z (q =? p)
  | Arrive src _ => Z.b2z (src =? p)
  | Drop_ _ r | DropScan _ _ r | SendFinished _ _ r | DropLoad _ r | DropCas _ _ r => ret_dist p r
  | _ => 0
  end.

(** The sums over all PEs of what they have recorded of PE [p]. *)
Definition recorded (m : Mem) (p : Z) : Z := zsum (fun q => ref_cnt (m q) p) (seqZ 0 num_pes).
Definition total_recorded (m : Mem) (p : Z) : Z :=
  zsum (fun q => total_ref_cnt (m q) p) (seqZ 0 num_pes).

(** The PEs a task names are PEs of the team. *)
Definition is_pe (p : Z) : Prop := 0 <= p < num_pes.

Fixpoint ret_ok (r : Ret) : Prop :=
  match r with
  | Return => True
  | RSend p dsts => is_pe p /\ Forall is_pe dsts
  | RDropLoad p r => is_pe p /\ ret_ok r
  | RBlock _ b => is_pe (my_pe b)
  | RWait p _ => is_pe p
  end.

Definition task_ok (t : Task) : Prop :=
  match t with
  | Handle p | Weak p | Clone_ p | IncTotal p _ | ArriveTotal p | UpTotal p | UpValid p | UpUndo p
  | DroppedWait p _ | ConvLocal p | ConvTotal p => is_pe p
  | SerTotal p dsts | SerClone p dsts | SerCloneTotal p dsts => is_pe p /\ Forall is_pe dsts
  | Arrive src p | ArriveRef src p | ArriveLocal src p => is_pe src /\ is_pe p
  | Finished p cnt => is_pe p /\ 0 <= cnt
  | Drop_ p r | DropLoad p r | DropCas p _ r => is_pe p /\ ret_ok r
  | DropScan p k r | SendFinished p k r => is_pe p /\ 0 <= k /\ ret_ok r
  | Outstanding _ b => is_pe (my_pe b)
  end.

(** ** Conservation

    A step moves references between the counters and the tasks. *)
Definition same_counts (m m' : Mem) : Prop := forall q,
  local_cnt (m' q) = local_cnt (m q) /\ dist_cnt (m' q) = dist_cnt (m q) /\
  total_dist_cnt (m' q) = total_dist_cnt (m q) /\ ref_cnt (m' q) = ref_cnt (m q) /\
  total_ref_cnt (m' q) = total_ref_cnt (m q).

Lemma same_counts_refl m : same_counts m m.
Proof. by intros q. Qed.

Lemma at_pe_same m p f :
  (forall d, local_cnt (f d) = local_cnt d /\ dist_cnt (f d) = dist_cnt d /\
             total_dist_cnt (f d) = total_dist_cnt d /\ ref_cnt (f d) = ref_cnt d /\
             total_ref_cnt (f d) = total_ref_cnt d) ->
  same_counts m (at_pe p f m).
Proof.
  intros Hf q. unfold at_pe, upd. destruct (Z.eqb_spec q p) as [->|]; [apply Hf|done].
Qed.

Lemma at_pe_eq p f m : at_pe p f m p = f (m p).
Proof. apply upd_eq. Qed.
Lemma at_pe_ne p q f m : q <> p -> at_pe p f m q = m q.
Proof. apply upd_ne. Qed.

(** A step that touches no counter and keeps what the task holds. *)
Record quiet (m m' : Mem) (t : Task) (ts : list Task) : Prop := {
  quiet_mem : same_counts m m';
  quiet_local : forall p, zsum (local_refs p) ts = local_refs p t;
  quiet_dist : forall p, zsum (dist_refs p) ts = dist_refs p t;
  quiet_sent : forall p, zsum (sent_refs p) ts = sent_refs p t;
  quiet_ok : task_ok t -> Forall task_ok ts;
}.

Ltac quiet_case :=
  simplify_eq; split;
  [first [apply same_counts_refl|apply at_pe_same; by intros []]
  |intros q; cbn; repeat case_match; simplify_eq; cbn in *; lia..
  |let Hk := fresh in intros Hk; rewrite ?Forall_cons, Forall_nil; cbn in *; unfold is_pe in *; intuition lia].

Lemma block_step_quiet m pc b m' ts :
  block_step m pc b = Some (m', ts) -> quiet m m' (Outstanding pc b) ts.
Proof.
  destruct b as [p st e c o pr i oi ol oc od su], pc; cbn; unfold enter, leave, for_pe, block_return;
    cbn; intros H; repeat case_match; try discriminate; quiet_case.
Qed.

Lemma zsum_ret r p :
  zsum (local_refs p) (ret r) = ret_local p r /\ zsum (dist_refs p) (ret r) = ret_dist p r /\
  zsum (sent_refs p) (ret r) = ret_dist p r.
Proof.
  destruct r; cbn; rewrite ?zsum_map; cbn; rewrite ?zsum_const; repeat split; try lia;
    destruct (caller b); lia.
Qed.

Lemma ret_task_ok r : ret_ok r -> Forall task_ok (ret r).
Proof.
  destruct r as [|q dsts|q r|pc b|q pc]; cbn; intros H; repeat apply Forall_cons_2; cbn; try tauto;
    try apply Forall_nil_2; [].
  destruct H as [H1 H2]. apply Forall_map. eapply Forall_impl; [done|]. by split.
Qed.

Record mem_ok (m : Mem) : Prop := {
  ok_local : forall q, 0 <= local_cnt (m q) < USIZE;
  ok_dist : forall q, 0 <= dist_cnt (m q) < USIZE;
  ok_total_dist : forall q, 0 <= total_dist_cnt (m q) < USIZE;
  ok_ref : forall q k, 0 <= ref_cnt (m q) k < USIZE;
}.

Lemma at_pe_mem_ok m p f :
  mem_ok m ->
  (forall d, 0 <= local_cnt d < USIZE -> 0 <= dist_cnt d < USIZE -> 0 <= total_dist_cnt d < USIZE ->
     (forall k, 0 <= ref_cnt d k < USIZE) ->
     0 <= local_cnt (f d) < USIZE /\ 0 <= dist_cnt (f d) < USIZE /\ 0 <= total_dist_cnt (f d) < USIZE /\
     (forall k, 0 <= ref_cnt (f d) k < USIZE)) ->
  mem_ok (at_pe p f m).
Proof.
  intros [H1 H2 H3 H4] Hf. destruct (Hf (m p)) as (F1 & F2 & F3 & F4); try done.
  split; intros q; unfold at_pe, upd; destruct (Z.eqb_spec q p) as [->|]; done.
Qed.

Lemma recorded_at_pe m q f p :
  is_pe q -> recorded (at_pe q f m) p = recorded m p - ref_cnt (m q) p + ref_cnt (f (m q)) p.
Proof.
  intros Hq. unfold recorded.
  pose proof (zsum_change (fun x => ref_cnt (at_pe q f m x) p) (fun x => ref_cnt (m x) p) q
                (seqZ 0 num_pes)) as E.
  cbn in E. rewrite at_pe_eq in E. rewrite <- E; [lia|apply NoDup_seqZ|apply elem_of_seqZ; unfold is_pe in *; lia|].
  intros x Hx. by rewrite at_pe_ne.
Qed.

Lemma total_recorded_at_pe m q f p :
  is_pe q ->
  total_recorded (at_pe q f m) p = total_recorded m p - total_ref_cnt (m q) p + total_ref_cnt (f (m q)) p.
Proof.
  intros Hq. unfold total_recorded.
  pose proof (zsum_change (fun x => total_ref_cnt (at_pe q f m x) p) (fun x => total_ref_cnt (m x) p) q
                (seqZ 0 num_pes)) as E.
  cbn in E. rewrite at_pe_eq in E. rewrite <- E; [lia|apply NoDup_seqZ|apply elem_of_seqZ; unfold is_pe in *; lia|].
  intros x Hx. by rewrite at_pe_ne.
Qed.

(** What a step adds to the counters it adds to the tasks. *)
Record conserves (m m' : Mem) (t : Task) (ts : list Task) : Prop := {
  cons_local : forall p,
    local_cnt (m' p) - zsum (local_refs p) ts ≡ᵤ local_cnt (m p) - local_refs p t;
  cons_dist : forall p,
    dist_cnt (m' p) - recorded m' p - zsum (dist_refs p) ts ≡ᵤ
    dist_cnt (m p) - recorded m p - dist_refs p t;
  cons_sent : forall p,
    total_dist_cnt (m' p) - total_recorded m' p - zsum (sent_refs p) ts ≡ᵤ
    total_dist_cnt (m p) - total_recorded m p - sent_refs p t;
  cons_ok : Forall task_ok ts;
  cons_mem : mem_ok m';
}.

Lemma quiet_conserves m m' t ts : mem_ok m -> task_ok t -> quiet m m' t ts -> conserves m m' t ts.
Proof.
  intros [M1 M2 M3 M4] Hok [Hm Hl Hd Hs Ht].
  assert (Hrec : forall p, recorded m' p = recorded m p /\ total_recorded m' p = total_recorded m p).
  { intros p. split; apply zsum_ext; intros q _; destruct (Hm q) as (_ & _ & _ & A & B); cbn; by rewrite ?A, ?B. }
  split; [intros p; destruct (Hrec p) as [R1 R2]; destruct (Hm p) as (E1 & E2 & E3 & _);
    apply eqmod_eq..|by apply Ht|].
  - rewrite E1, Hl. done.
  - rewrite E2, R1, Hd. done.
  - rewrite E3, R2, Hs. done.
  - split; intros q; destruct (Hm q) as (A & B & C & D & _); by rewrite ?A, ?B, ?C, ?D.
Qed.

(** A step that applies [f] to the memory of PE [q]. *)
Lemma at_pe_conserves m q f t ts :
  is_pe q -> mem_ok m ->
  let d := m q in
  (forall p, zsum (local_refs p) ts - local_refs p t ≡ᵤ
     (local_cnt (f d) - local_cnt d) * Z.b2z (q =? p)) ->
  (forall p, zsum (dist_refs p) ts - dist_refs p t ≡ᵤ
     (dist_cnt (f d) - dist_cnt d) * Z.b2z (q =? p) - (ref_cnt (f d) p - ref_cnt d p)) ->
  (forall p, zsum (sent_refs p) ts - sent_refs p t ≡ᵤ
     (total_dist_cnt (f d) - total_dist_cnt d) * Z.b2z (q =? p) -
     (total_ref_cnt (f d) p - total_ref_cnt d p)) ->
  Forall task_ok ts -> mem_ok (at_pe q f m) -> conserves m (at_pe q f m) t ts.
Proof.
  intros Hq Hm d Hl Hd Hs Hok Hm'.
  assert (E : forall (g : DarcInner -> Z) p,
    g (at_pe q f m p) = g (m p) + (g (f d) - g d) * Z.b2z (q =? p)).
  { intros g p. destruct (Z.eqb_spec q p) as [<-|].
    - rewrite at_pe_eq. cbn. fold d. lia.
    - rewrite at_pe_ne by done. cbn. lia. }
  assert (S : forall x y z w, x - y ≡ᵤ z -> w + z - x ≡ᵤ w - y).
  { intros x y z w <-. apply eqmod_eq. lia. }
  split; [intros p..|done|done]; rewrite E, ?recorded_at_pe, ?total_recorded_at_pe by done; fold d.
  - by apply S.
  - rewrite <- (S _ _ _ (dist_cnt (m p) - recorded m p) (Hd p)). apply eqmod_eq. lia.
  - rewrite <- (S _ _ _ (total_dist_cnt (m p) - total_recorded m p) (Hs p)). apply eqmod_eq. lia.
Qed.

(** The weights of the tasks before and after a step on one PE's memory. *)
Ltac eqmod_case :=
  intros; cbn; unfold upd;
  repeat match goal with |- context [Z.eqb ?a ?b] => destruct (Z.eqb_spec a b); subst end;
  cbn -[wadd wsub]; autorewrite with eqmod; apply eqmod_eq; cbn; lia.

Ltac at_pe_case :=
  match goal with
  | |- conserves ?m (at_pe ?q _ ?m) _ _ =>
    apply at_pe_conserves; cbv zeta; [tauto|done|destruct (m q); eqmod_case..| |];
    [repeat apply Forall_cons_2; try apply Forall_nil_2; cbn; intuition lia
    |apply at_pe_mem_ok; [done|]; intros [] ? ? ? ?; cbn -[wadd wsub] in *; unfold upd;
     repeat split; intros; repeat case_match; auto with rust; try apply wadd_range;
     try apply wsub_range; naive_solver]
  end.

Lemma block_on_outstanding_refs p st e c q :
  local_refs q (block_on_outstanding p st e c) =
    match c with ByDroppedWait => 0 | _ => Z.b2z (p =? q) end /\
  dist_refs q (block_on_outstanding p st e c) = 0 /\
  sent_refs q (block_on_outstanding p st e c) = 0.
Proof. done. Qed.

(** Steps that end in a return. *)
Lemma ret_quiet m m' t r :
  same_counts m m' -> (task_ok t -> ret_ok r) ->
  (forall p, local_refs p t = ret_local p r) -> (forall p, dist_refs p t = ret_dist p r) ->
  (forall p, sent_refs p t = ret_dist p r) -> quiet m m' t (ret r).
Proof.
  intros Hm Hok Hl Hd Hs. split; [done|intros p; destruct (zsum_ret r p) as (A & B & C)..|].
  - by rewrite A.
  - by rewrite B.
  - by rewrite C.
  - intros. by apply ret_task_ok, Hok.
Qed.

Lemma drop_cas_quiet m p ms r m' ts :
  drop_cas m p ms r = (m', ts) -> quiet m m' (DropCas p ms r) ts.
Proof.
  destruct ms as [|x ms]; cbn; intros H; [simplify_eq; apply ret_quiet; cbn; done || tauto|].
  case_decide; simplify_eq; [|quiet_case].
  destruct (ret_quiet m (at_pe p (put_mode p Dropped) m) (DropCas p (mode (m p) p :: ms) r) r) as [E1 E2 E3 E4 E5];
    [by apply at_pe_same; intros []|cbn; tauto|done..|].
  split; [done|intros q; cbn; rewrite ?E2, ?E3, ?E4; done..|].
  intros Hok. apply Forall_cons_2; [apply Hok|by apply E5].
Qed.

Lemma drop_load_quiet m p r m' ts :
  drop_load m p r = (m', ts) -> quiet m m' (DropLoad p r) ts.
Proof.
  unfold drop_load. intros H. simplify_eq. case_match; [quiet_case|]. apply ret_quiet; cbn; done || tauto.
Qed.

Lemma wait_step_quiet m p pc m' ts :
  wait_step m p pc = Some (m', ts) -> quiet m m' (DroppedWait p pc) ts.
Proof. destruct pc; cbn; intros H; repeat case_match; try discriminate; quiet_case. Qed.

Lemma send_finished_conserves m p k r m' ts :
  mem_ok m -> task_ok (SendFinished p k r) -> send_finished m p k r = (m', ts) ->
  conserves m m' (SendFinished p k r) ts.
Proof.
  intros Hm (Hp & Hk & Hr). unfold send_finished. destruct (Z.ltb_spec k num_pes); intros H'; simplify_eq.
  - pose proof (ok_ref m Hm p k). assert (is_pe k) by (unfold is_pe; lia).
    apply at_pe_conserves; [done|done|cbv zeta; destruct (m p); cbn in *..| |].
    + destruct (Z.ltb_spec 0 (ref_cnt0 k)); eqmod_case.
    + destruct (Z.ltb_spec 0 (ref_cnt0 k)); eqmod_case.
    + destruct (Z.ltb_spec 0 (ref_cnt0 k)); eqmod_case.
    + apply Forall_cons_2; [cbn; auto with lia|]. case_match; [|by apply Forall_nil_2].
      apply Forall_cons_2; [|by apply Forall_nil_2]. cbn. split; [done|lia].
    + apply at_pe_mem_ok; [done|]. intros [] ? ? ? Hr'; cbn in *. repeat split; try lia;
        unfold upd; case_match; try lia; apply Hr'.
  - apply quiet_conserves; [done|done|]. apply ret_quiet; cbn; done || tauto.
Qed.

Lemma zsum_replicate {A} (f : A -> Z) n x : zsum f (replicate n x) = Z.of_nat n * f x.
Proof. induction n as [|n IH]; cbn -[Z.of_nat]; lia. Qed.

Lemma inc_local_cnt_total_conserves m p cnt m' ts :
  mem_ok m -> is_pe p -> inc_local_cnt_total m p cnt = (m', ts) -> conserves m m' (IncTotal p cnt) ts.
Proof.
  intros Hm Hp [= <- <-].
  assert (Hq : quiet m (at_pe p (on_total_local (inc (Z.of_nat cnt))) m) (IncTotal p cnt)
                 (Handle p :: replicate cnt (Handle p))).
  { split; [by apply at_pe_same; intros []|intros q; cbn; rewrite zsum_replicate; cbn; lia..|].
    intros _. apply Forall_cons_2; [done|]. by apply Forall_replicate. }
  by apply quiet_conserves.
Qed.

Lemma tstep_conserves m a t m' ts :
  mem_ok m -> task_ok t -> tstep m a t = Some (m', ts) -> conserves m m' t ts.
Proof.
  intros Hm Hok H.
  destruct t, a; cbn in H; try discriminate.
  all: repeat autounfold with darc in H.
  all: try (simplify_eq; cbn in Hok; at_pe_case).
  - simplify_eq. apply quiet_conserves; [done..|]. quiet_case.
  - case_match; [|done]. simplify_eq. cbn in Hok.
    assert (Forall is_pe (destinations p dst)).
    { apply Forall_forall. intros q Hq. unfold is_pe.
      pose proof (proj1 (forallb_forall _ _) H0 q (proj1 (list_elem_of_In _ _) Hq)). cbn in *. lia. }
    at_pe_case.
  - simplify_eq. apply quiet_conserves; [done..|]. quiet_case.
  - simplify_eq. apply quiet_conserves; [done..|]. quiet_case.
  - simplify_eq. by apply inc_local_cnt_total_conserves.
  - unfold drop_sub in H. simplify_eq. cbn in Hok. case_match; at_pe_case.
  - unfold drop_scan in H. simplify_eq. apply quiet_conserves; [done..|]. repeat case_match; quiet_case.
  - simplify_eq. by apply send_finished_conserves.
  - simplify_eq. apply quiet_conserves; [done..|]. by apply drop_load_quiet.
  - simplify_eq. apply quiet_conserves; [done..|]. by apply drop_cas_quiet.
  - simplify_eq. apply quiet_conserves; [done..|]. case_match; quiet_case.
  - apply quiet_conserves; [done..|]. by apply block_step_quiet.
  - apply quiet_conserves; [done..|]. by apply wait_step_quiet.
Qed.

(** ** The invariant of every interleaving *)
Record inv (raw : Z -> Z -> Z) (s : St) : Prop := {
  inv_mem : mem_ok (mem s);
  inv_tasks : Forall task_ok (tasks s);
  inv_local : forall p, is_pe p -> local_cnt (mem s p) ≡ᵤ zsum (local_refs p) (tasks s);
  inv_dist : forall p, is_pe p ->
    dist_cnt (mem s p) ≡ᵤ recorded (mem s) p + zsum (dist_refs p) (tasks s);
  inv_sent : forall p, is_pe p ->
    total_dist_cnt (mem s p) ≡ᵤ
    zsum (fun q => total_ref_cnt (mem s q) p - raw q p) (seqZ 0 num_pes) +
    zsum (sent_refs p) (tasks s);
}.

Lemma elem_of_pes p : p ∈ seqZ 0 num_pes <-> is_pe p.
Proof. rewrite elem_of_seqZ. unfold is_pe. lia. Qed.

Lemma darc_inv_init raw st : inv raw (init raw st).
Proof.
  split; cbn.
  - by split; cbn.
  - apply Forall_map, Forall_forall. intros p Hp. by apply elem_of_pes.
  - intros p Hp. rewrite zsum_map. cbn. apply eqmod_eq. symmetry.
    apply zsum_indicator; [apply NoDup_seqZ|by apply elem_of_pes].
  - intros p _. unfold recorded. cbn. rewrite zsum_map. cbn. rewrite !zsum_const. apply eqmod_eq. lia.
  - intros p _. rewrite zsum_map. cbn. rewrite (zsum_ext _ (fun _ => 0)) by (intros; lia).
    rewrite !zsum_const. apply eqmod_eq. lia.
Qed.

Lemma darc_inv_step raw s s' : inv raw s -> lstep s s' -> inv raw s'.
Proof.
  intros [I1 I2 I3 I4 I5] (i & a & H). unfold lstep1 in H.
  destruct (tasks s !! i) as [t|] eqn:Hi; [|done]. cbn in H.
  destruct (tstep (mem s) a t) as [[m' ts]|] eqn:Ht; [|done]. cbn in H. injection H as <-.
  assert (Hok : task_ok t) by (by eapply Forall_lookup_1).
  destruct (tstep_conserves _ _ _ _ _ I1 Hok Ht) as [C1 C2 C3 C4 C5].
  rewrite <- (take_drop_middle (tasks s) i t Hi) in I2, I3, I4, I5.
  split; cbn [mem tasks]; [done|rewrite !Forall_app in *; rewrite Forall_cons in I2; tauto|..];
    intros p Hp; [specialize (I3 p Hp); specialize (C1 p)|specialize (I4 p Hp); specialize (C2 p)
                 |specialize (I5 p Hp); specialize (C3 p)];
    autorewrite with sums in *.
  - rewrite <- (Z.sub_simpl_r (local_cnt (m' p)) (zsum (local_refs p) ts)), C1, I3.
    apply eqmod_eq. lia.
  - rewrite <- (Z.sub_simpl_r (dist_cnt (m' p)) (recorded m' p + zsum (dist_refs p) ts)), Z.sub_add_distr, C2, I4.
    apply eqmod_eq. lia.
  - unfold total_recorded in C3. rewrite !zsum_sub in *.
    rewrite <- (Z.sub_simpl_r (total_dist_cnt (m' p))
                  (zsum (fun q => total_ref_cnt (m' q) p) (seqZ 0 num_pes) + zsum (sent_refs p) ts)),
      Z.sub_add_distr, C3, I5.
    apply eqmod_eq. lia.
Qed.

Lemma darc_inv_reachable raw st s : reachable raw st s -> inv raw s.
Proof. apply (rtc_ind_r (inv raw)); [apply darc_inv_init|]. intros ? ? _ ? ?. by eapply darc_inv_step. Qed.

Lemma reachable_mem_ok raw st s : reachable raw st s -> mem_ok (mem s).
Proof. intros Hs. exact (inv_mem _ _ (darc_inv_reachable _ _ _ Hs)). Qed.

(** C2: the counters of a darc are exact in every interleaving of clones,
    drops, upgrades, conversions, calls of [inc_local_cnt] and [block_on_outstanding], messages
    that carry the darc, [FinishedAm]s and drop tasks: [local_cnt] of a PE is the number of handles it holds;
    [dist_cnt] is the number of copies it sent that some PE has recorded in
    its [ref_cnt], that are in flight or that come back as finished;
    [total_dist_cnt] is the number of copies ever received from it plus those
    not yet received (all modulo 2^64, where the atomics wrap around). *)
Theorem darc_counts_exact raw st s p (Hs : reachable raw st s) (Hp : is_pe p) :
  local_cnt (mem s p) = zsum (local_refs p) (tasks s) mod USIZE /\
  dist_cnt (mem s p) = (recorded (mem s) p + zsum (dist_refs p) (tasks s)) mod USIZE /\
  total_dist_cnt (mem s p) =
    (zsum (fun q => total_ref_cnt (mem s q) p - raw q p) (seqZ 0 num_pes) +
     zsum (sent_refs p) (tasks s)) mod USIZE.
Proof.
  destruct (darc_inv_reachable _ _ _ Hs) as [[M1 M2 M3 M4] I2 I3 I4 I5].
  repeat split; apply eqmod_mod; auto.
Qed.

Lemma ret_refs_nonneg p r : ret_ok r -> 0 <= ret_local p r /\ 0 <= ret_dist p r.
Proof.
  induction r; cbn; intros H; try lia; [destruct (_ =? _); cbn; lia|tauto|].
  destruct (caller b); cbn; try lia; destruct (_ =? _); cbn; lia.
Qed.

Lemma refs_nonneg p t : task_ok t -> 0 <= local_refs p t /\ 0 <= dist_refs p t.
Proof.
  destruct t; cbn; intros H; repeat case_match; repeat (destruct (_ =? _)); cbn; try lia;
    match goal with r : Ret |- _ => destruct (ret_refs_nonneg p r); [tauto|lia] end.
Qed.

(** when a PE's [dist_cnt] and [local_cnt] are both 0 (the test of
    [DroppedWaitAM] before it frees the memory) and fewer than 2^64 references
    exist, no task on that PE holds a handle, no copy it sent is in flight or
    recorded anywhere, and no [FinishedAm] is on its way to it. *)
Theorem darc_zero_counts_quiescent raw st s p (Hs : reachable raw st s) (Hp : is_pe p)
    (Hl : local_cnt (mem s p) = 0) (Hd : dist_cnt (mem s p) = 0)
    (Bl : zsum (local_refs p) (tasks s) < USIZE)
    (Bd : recorded (mem s) p + zsum (dist_refs p) (tasks s) < USIZE) :
  (forall t, t ∈ tasks s -> local_refs p t = 0 /\ dist_refs p t = 0) /\
  Handle p ∉ tasks s /\ (forall q, Arrive p q ∉ tasks s) /\
  (forall cnt, 0 < cnt -> Finished p cnt ∉ tasks s) /\
  (forall q, is_pe q -> ref_cnt (mem s q) p = 0).
Proof.
  destruct (darc_inv_reachable _ _ _ Hs) as [[M1 M2 M3 M4] I2 I3 I4 _].
  assert (Hnn : forall t, t ∈ tasks s -> 0 <= local_refs p t /\ 0 <= dist_refs p t).
  { intros t Ht. apply refs_nonneg. by eapply Forall_forall in I2. }
  assert (Hr : 0 <= recorded (mem s) p) by (apply zsum_nonneg; intros q _; apply M4).
  assert (0 <= zsum (local_refs p) (tasks s)) by (apply zsum_nonneg; apply Hnn).
  assert (0 <= zsum (dist_refs p) (tasks s)) by (apply zsum_nonneg; apply Hnn).
  assert (El : local_cnt (mem s p) = zsum (local_refs p) (tasks s)) by (by apply eqmod_small; auto).
  assert (Ed : dist_cnt (mem s p) = recorded (mem s) p + zsum (dist_refs p) (tasks s)).
  { apply eqmod_small; auto. lia. }
  assert (Hz : forall t, t ∈ tasks s -> local_refs p t = 0 /\ dist_refs p t = 0).
  { intros t Ht. pose proof (Hnn t Ht). apply list_elem_of_lookup in Ht as [i Hi]. split.
    - assert (local_refs p t <= zsum (local_refs p) (tasks s)); [|lia].
      eapply zsum_lookup_le; [apply Hnn|done].
    - assert (dist_refs p t <= zsum (dist_refs p) (tasks s)); [|lia].
      eapply zsum_lookup_le; [apply Hnn|done]. }
  split; [done|]. repeat split.
  - intros Ht%Hz. cbn in Ht. rewrite Z.eqb_refl in Ht. cbn in Ht. lia.
  - intros q Ht%Hz. cbn in Ht. rewrite Z.eqb_refl in Ht. cbn in Ht. lia.
  - intros cnt Hc Ht%Hz. cbn in Ht. rewrite Z.eqb_refl in Ht. cbn in Ht. lia.
  - intros q Hq. pose proof (M4 q p). assert (ref_cnt (mem s q) p <= recorded (mem s) p); [|lia].
    apply elem_of_pes, list_elem_of_lookup in Hq as [i Hi].
    apply (zsum_lookup_le (fun q => ref_cnt (mem s q) p) _ i q); [intros; apply M4|done].
Qed.

(** ** Runs *)
Fixpoint find_task (sel : Task -> bool) (i : nat) (ts : list Task) : option nat :=
  match ts with
  | [] => None
  | t :: ts => if sel t then Some i else find_task sel (S i) ts
  end.

(** The first task that [sel] chooses takes the action [a]. *)
Definition act_on (sel : Task -> bool) (a : Act) (s : St) : St :=
  match find_task sel 0 (tasks s) with
  | Some i => match lstep1 i a s with Some s' => s' | None => s end
  | None => s
  end.

Definition ready (m : Mem) (t : Task) : bool :=
  match tstep m Run t with Some _ => true | None => false end.

(** Up to [fuel] steps of the tasks that [sel] chooses. *)
Fixpoint drive (fuel : nat) (sel : Task -> bool) (s : St) : St :=
  match fuel with
  | O => s
  | S fuel => drive fuel sel (act_on (fun t => sel t && ready (mem s) t) Run s)
  end.

Lemma reachable_act raw st sel a s : reachable raw st s -> reachable raw st (act_on sel a s).
Proof.
  unfold act_on. destruct (find_task _ _ _) as [i|]; [|done].
  destruct (lstep1 i a s) as [s'|] eqn:E; [|done]. intros Hs. eapply rtc_r; [done|]. by exists i, a.
Qed.

Lemma reachable_drive raw st fuel sel s : reachable raw st s -> reachable raw st (drive fuel sel s).
Proof.
  revert s. induction fuel as [|fuel IH]; intros s Hs; cbn; [done|]. by apply IH, reachable_act.
Qed.
End Steps.

#[export] Hint Unfold clone_local clone_total ser_dist ser_total ser_clone ser_clone_total des_total_ref
  des_ref des_local des_total finished downgrade weak_clone weak_drop upgrade_local upgrade_total
  upgrade_valid upgrade_undo into_rw_local into_rw_total inc dec : darc.

Ltac run_reachable :=
  repeat lazymatch goal with
  | |- reachable _ _ _ (drive _ _ _ _) => apply reachable_drive
  | |- reachable _ _ _ (act_on _ _ _ _) => apply reachable_act
  | |- reachable _ _ _ (init _ _ _) => apply rtc_refl
  end.

(** *** A run of two PEs *)
Definition handle_of (p : Z) (t : Task) : bool := match t with Handle q => q =? p | _ => false end.
Definition wait_of (p : Z) (t : Task) : bool := match t with DroppedWait q _ => q =? p | _ => false end.
Definition in_flight (t : Task) : bool := match t with Arrive _ _ => true | _ => false end.
Definition waiting (t : Task) : bool := match t with DroppedWait _ _ | Outstanding _ _ => true | _ => false end.

(** PE 0 sends its darc to PE 1, both drop their handles and start
    [DroppedWaitAM], and then the message arrives at PE 1. *)
Definition late_arrival : St :=
  drive 2 20 (fun t => negb (waiting t))
    (drive 2 20 (fun t => negb (in_flight t) && negb (waiting t))
      (act_on 2 (handle_of 1) ADrop (act_on 2 (handle_of 0) ADrop
        (drive 2 20 (fun t => negb (in_flight t))
          (act_on 2 (handle_of 0) (ASer (Some 1)) (init 2 (fun _ _ => 0) ModeDarc)))))).

(** [block_on_outstanding] runs to its end on both PEs, PE 0 frees its memory,
    and the owner of the handle on PE 1 sends it back to PE 0. *)
Definition freed_in_use : St :=
  drive 2 20 (fun t => negb (in_flight t) && negb (waiting t))
    (act_on 2 (handle_of 1) (ASer (Some 0))
      (drive 2 40 (wait_of 0)
        (drive 2 400 (fun t => negb (wait_of 0 t) && negb (wait_of 1 t)) late_arrival))).

(** a PE can free its memory of a darc while another PE holds a handle:
    [block_on_outstanding] accepts one live handle per PE ([local_cnt <= 1])
    also for [DroppedWaitAM], whose PE has none of its own.  Here PE 1 has
    sent its handle back to PE 0, where the message will write to memory that
    is already free. *)
Theorem darc_freed_in_use :
  exists s, reachable 2 (fun _ _ => 0) ModeDarc s /\
    freed (mem s 0) = true /\ Handle 1 ∈ tasks s /\ Arrive 1 0 ∈ tasks s.
Proof.
  exists freed_in_use. split.
  - unfold freed_in_use, late_arrival. run_reachable.
  - assert (E : tasks freed_in_use = [Handle 1; Arrive 1 0; DroppedWait 1 (WMode 0)]) by (vm_compute; reflexivity).
    split; [vm_compute; reflexivity|]. rewrite E. clear E. split; [left|right; left].
Qed.

Lemma darc_counts_exact_witness :
  is_pe 2 0 /\
  local_cnt (mem late_arrival 0) = zsum (local_refs 0) (tasks late_arrival) mod USIZE /\
  dist_cnt (mem late_arrival 0) =
    (recorded 2 (mem late_arrival) 0 + zsum (dist_refs 0) (tasks late_arrival)) mod USIZE /\
  total_dist_cnt (mem late_arrival 0) =
    (zsum (fun q => total_ref_cnt (mem late_arrival q) 0 - 0) (seqZ 0 2) +
     zsum (sent_refs 0) (tasks late_arrival)) mod USIZE.
Proof.
  split; [unfold is_pe; lia|].
  apply (darc_counts_exact 2 (fun _ _ => 0) ModeDarc late_arrival 0); [|unfold is_pe; lia].
  unfold late_arrival. run_reachable.
Defined.

Lemma darc_zero_counts_quiescent_witness :
  local_cnt (mem freed_in_use 0) = 0 /\ dist_cnt (mem freed_in_use 0) = 0 /\
  Handle 0 ∉ tasks freed_in_use /\ (forall q, Arrive 0 q ∉ tasks freed_in_use).
Proof.
  split; [vm_compute; reflexivity|]. split; [vm_compute; reflexivity|].
  destruct (darc_zero_counts_quiescent 2 (fun _ _ => 0) ModeDarc freed_in_use 0) as (_ & H1 & H2 & _);
    [unfold freed_in_use, late_arrival; run_reachable|unfold is_pe; lia|vm_compute; reflexivity..|].
  exact (conj H1 H2).
Defined.

(** ** The layout of a darc in the registered memory *)
Record Layout := {
  size : Z;
  ref_cnt_addr : Z;
  total_ref_cnt_addr : Z;
  mode_addr : Z;
  mode_ref_cnt_addr : Z;
  mode_barrier_addr : Z;
}.

(** The addresses [Darc::try_new_with_drop] computes: [inner] is the size of
    [DarcInner], [usize] takes 8 bytes and [DarcMode] one. *)
Definition layout (addr inner num_pes : Z) : outcome Layout :=
  let! us := umul num_pes 8 in
  let! ms := umul num_pes 1 in
  let! s1 := uadd inner us in
  let! s2 := uadd s1 us in
  let! s3 := uadd s2 ms in
  let! s4 := uadd s3 us in
  let! s5 := uadd s4 us in
  let! a1 := uadd addr inner in
  let! a2 := uadd a1 us in
  let! a3 := uadd a2 us in
  let! a4 := uadd a3 ms in
  let! a5 := uadd a4 us in
  Done {| size := s5; ref_cnt_addr := a1; total_ref_cnt_addr := a2; mode_addr := a3;
          mode_ref_cnt_addr := a4; mode_barrier_addr := a5 |}.

(** The bytes of the five arrays, each with the size of an element. *)
Definition arrays (num_pes : Z) (l : Layout) : list (Z * Z * Z) :=
  [(ref_cnt_addr l, ref_cnt_addr l + 8 * num_pes, 8);
   (total_ref_cnt_addr l, total_ref_cnt_addr l + 8 * num_pes, 8);
   (mode_addr l, mode_addr l + num_pes, 1);
   (mode_ref_cnt_addr l, mode_ref_cnt_addr l + 8 * num_pes, 8);
   (mode_barrier_addr l, mode_barrier_addr l + 8 * num_pes, 8)].

Definition aligned (x : Z * Z * Z) : Prop := (x.2 | x.1.1).

(** the arrays of a darc follow its [DarcInner] without overlap and end with
    the allocation, but the two [usize] arrays that [block_on_outstanding]
    exchanges are aligned only when the number of PEs is a multiple of 8: the
    one-byte modes come before them. *)
Theorem darc_layout addr inner num_pes (Ha : 0 <= addr) (Hi : 0 <= inner) (Hn : 0 <= num_pes)
    (Haa : (8 | addr)) (Hai : (8 | inner))
    (Hfit : addr + inner + 33 * num_pes < USIZE) :
  exists l, layout addr inner num_pes = Done l /\
    size l = inner + 33 * num_pes /\
    (forall i j x y, arrays num_pes l !! i = Some x -> arrays num_pes l !! j = Some y ->
       addr + inner <= x.1.1 /\ x.1.2 <= addr + size l /\ ((i < j)%nat -> x.1.2 <= y.1.1)) /\
    (Forall aligned (arrays num_pes l) <-> (8 | num_pes)).
Proof.
  unfold layout. urun. eexists. split; [done|]. cbn. split; [lia|]. split.
  - unfold arrays. intros i j x y Hx Hy.
    destruct i as [|[|[|[|[|i]]]]], j as [|[|[|[|[|j]]]]]; cbn in Hx, Hy; try discriminate;
      simplify_eq; cbn; lia.
  - unfold aligned, arrays. rewrite !Forall_cons, Forall_nil. cbn.
    destruct Haa as [a ->], Hai as [b ->]. split.
    + intros (_ & _ & _ & [c Hc] & _). exists (c - a - b - 2 * num_pes). lia.
    + intros [c ->]. repeat split; try apply Z.divide_1_l;
        [exists (a + b)|exists (a + b + 8 * c)|exists (a + b + 17 * c)|exists (a + b + 25 * c)]; lia.
Qed.

Lemma darc_layout_witness :
  0 <= 4096 /\ (8 | 4096) /\ (8 | 136) /\ 4096 + 136 + 33 * 3 < USIZE /\
  exists l, layout 4096 136 3 = Done l /\ size l = 136 + 33 * 3 /\
    (Forall aligned (arrays 3 l) <-> (8 | 3)).
Proof.
  split; [lia|]. split; [by exists 512|]. split; [by exists 17|]. split; [lia|].
  destruct (darc_layout 4096 136 3) as (l & H1 & H2 & _ & H3); [lia..|by exists 512|by exists 17|lia|].
  exists l. split; [exact H1|]. split; [exact H2|exact H3].
Defined.
