(* ===== verification/DarcBlock.v ===== *)
(** Agreement in [DarcInner::block_on_outstanding] (src/src/darc.rs).

    The PEs decide together whether another round is needed: each puts its
    [barrier_id] (0: not ready) to all others between two barriers and then
    reads what it received.  The file abstracts a call to the phase it is in
    ([Phase]), proves that the concrete steps of Darc.v implement the abstract
    ones ([lstep_simulated]), and that in the abstract system every PE takes the
    same decision.  The barrier is the one of Darc.v, whose promise (no PE
    leaves it before all have entered) Barrier.v proves of the implementation. *)

From stdpp Require Import base list numbers relations sets.
From Stdlib Require Import ZArith Lia.
From S2P Require Import Prelude Darc.

Local Open Scope Z_scope.

(** ** The abstract system *)
Inductive Phase :=
| Idle
| Wait0
| Loop (again : bool)          (* up to the first barrier of a round *)
| Wait1
| Compare                      (* between its first and second barrier *)
| Wait2 (o : bool) (id : Z)
| PutId (k : Z) (o : bool) (id : Z)
| Wait3 (o : bool) (id : Z)
| ReadId (k : Z) (o : bool) (id : Z)
| Exit                         (* past the loop *)
| Wait4.

Record AbsPe := { ph : Phase; bar : Z; ids : Z -> Z }.

Section Abs.
Context (n : Z).

Abbreviation Abs := (Z -> AbsPe).

Definition passed (a : Abs) (p : Z) : Prop := forall q, 0 <= q < n -> bar (a p) <= bar (a q).

(** PE [p] changes its phase, and enters a barrier with it ([d = 1]) or not. *)
Definition goto (a : Abs) (p : Z) (c : Phase) (d : Z) : Abs :=
  upd a p {| ph := c; bar := bar (a p) + d; ids := ids (a p) |}.

(** [barrier_id] arrives in the slot of [p] on PE [k]. *)
Definition put_id (a : Abs) (k p id : Z) : Abs :=
  upd a k {| ph := ph (a k); bar := bar (a k); ids := upd (ids (a k)) p id |}.

Inductive astep (a : Abs) (p : Z) : Abs -> Prop :=
| a_start : ph (a p) = Idle -> astep a p (goto a p Wait0 1)
| a_wait0 : ph (a p) = Wait0 -> passed a p -> astep a p (goto a p (Loop false) 0)
| a_round x : ph (a p) = Loop x -> astep a p (goto a p Wait1 1)
| a_wait1 : ph (a p) = Wait1 -> passed a p -> astep a p (goto a p Compare 0)
| a_compare o id : ph (a p) = Compare -> (o = true -> id = 0) -> (o = false -> id <> 0) ->
    astep a p (goto a p (Wait2 o id) 1)
| a_wait2 o id : ph (a p) = Wait2 o id -> passed a p -> astep a p (goto a p (PutId 0 o id) 0)
| a_put k o id : ph (a p) = PutId k o id -> k < n ->
    astep a p (goto (put_id a k p id) p (PutId (k + 1) o id) 0)
| a_put_end k o id : ph (a p) = PutId k o id -> n <= k -> astep a p (goto a p (Wait3 o id) 1)
| a_wait3 o id : ph (a p) = Wait3 o id -> passed a p -> astep a p (goto a p (ReadId 0 o id) 0)
| a_read k o id : ph (a p) = ReadId k o id -> k < n ->
    astep a p (goto a p (ReadId (k + 1) (o || (ids (a p) k =? 0)) id) 0)
| a_read_end k o id : ph (a p) = ReadId k o id -> n <= k ->
    astep a p (goto a p (if o then Loop true else Exit) 0)
| a_exit : ph (a p) = Exit -> astep a p (goto a p Wait4 1)
| a_wait4 : ph (a p) = Wait4 -> passed a p -> astep a p (goto a p Idle 0).

(** Some PE is not ready, as far as the ids [v] received by a PE tell. *)
Definition not_ready (v : Z -> Z) : Prop := exists q, 0 <= q < n /\ v q = 0.

(** ** The invariant

    What the phase of a PE says about its own state. *)
Definition pe_ok (a : Abs) (p : Z) : Prop :=
  match ph (a p) with
  | Loop true => not_ready (ids (a p))
  | Exit => ~ not_ready (ids (a p))
  | Wait2 o id => o = true <-> id = 0
  | PutId k o id => 0 <= k <= n /\ (o = true <-> id = 0) /\ forall q, 0 <= q < k -> ids (a q) p = id
  | Wait3 o id => (o = true <-> id = 0) /\ forall q, 0 <= q < n -> ids (a q) p = id
  | ReadId k o id =>
    0 <= k <= n /\ (forall q, 0 <= q < n -> ids (a q) p = id) /\
    (o = true <-> id = 0 \/ exists q, 0 <= q < k /\ ids (a p) q = 0)
  | _ => True
  end.

(** A PE that waits in a barrier may be one ahead of the others. *)
Definition slack (c : Phase) : Z :=
  match c with Wait0 | Wait1 | Wait2 _ _ | Wait3 _ _ | Wait4 => 1 | _ => 0 end.

(** The segment of the call a phase belongs to: PEs that have entered equally
    many barriers are in the same segment. *)
Inductive Segment := SA | SB | SC | SD | SE.

Definition segment (c : Phase) : Segment :=
  match c with
  | Wait0 | Loop false => SA
  | Wait1 | Compare => SB
  | Wait2 _ _ | PutId _ _ _ => SC
  | Wait3 _ _ | ReadId _ _ _ | Loop true | Exit => SD
  | Wait4 | Idle => SE
  end.

(** PE [q] has entered one barrier more than PE [p]. *)
Definition follows (a : Abs) (p q : Z) : Prop :=
  match segment (ph (a p)), segment (ph (a q)) with
  | SA, SB | SB, SC | SC, SD | SE, SA => True
  | SD, SB => not_ready (ids (a p))
  | SD, SE => ~ not_ready (ids (a p))
  | _, _ => False
  end.

Definition pair_ok (a : Abs) (p q : Z) : Prop :=
  (bar (a p) = bar (a q) -> segment (ph (a p)) = segment (ph (a q))) /\
  (bar (a q) = bar (a p) + 1 -> follows a p q).

Definition putting (c : Phase) : bool := match c with PutId _ _ _ => true | _ => false end.

Definition same_ids (a : Abs) (x : Z) : Prop :=
  forall p q, 0 <= p < n -> 0 <= q < n -> ids (a p) x = ids (a q) x.

Record ainv (a : Abs) : Prop := {
  ainv_slack : forall p q, 0 <= p < n -> 0 <= q < n -> bar (a p) - slack (ph (a p)) <= bar (a q);
  ainv_pair : forall p q, 0 <= p < n -> 0 <= q < n -> pair_ok a p q;
  ainv_ids : forall x, 0 <= x < n -> putting (ph (a x)) = false -> same_ids a x;
  ainv_pe : forall p, 0 <= p < n -> pe_ok a p;
}.

Lemma ids_goto a p c d q : ids (goto a p c d q) = ids (a q).
Proof. unfold goto, upd. by destruct (Z.eqb_spec q p) as [->|]. Qed.
Lemma ph_goto_ne a p c d q : q <> p -> ph (goto a p c d q) = ph (a q).
Proof. intros H. unfold goto. by rewrite upd_ne. Qed.
Lemma bar_goto_ne a p c d q : q <> p -> bar (goto a p c d q) = bar (a q).
Proof. intros H. unfold goto. by rewrite upd_ne. Qed.
Lemma goto_eq a p c d : ph (goto a p c d p) = c /\ bar (goto a p c d p) = bar (a p) + d.
Proof. unfold goto. by rewrite upd_eq. Qed.

(** The local invariant depends on the PE's phase and on the ids only. *)
Lemma pe_ok_ext a a' q :
  ph (a' q) = ph (a q) -> (forall x, ids (a' x) = ids (a x)) -> pe_ok a q -> pe_ok a' q.
Proof.
  intros E F. unfold pe_ok. rewrite E.
  destruct (ph (a q)) as [| |[]| | | | | | | |]; rewrite ?F; try done.
  - intros (H1 & H2 & H3). repeat (split; [done|]). intros. rewrite F. auto.
  - intros (H1 & H2). repeat (split; [done|]). intros. rewrite F. auto.
  - intros (H1 & H2 & H3). split; [done|]. split; [|done]. intros. rewrite F. auto.
Qed.

Lemma goto_inv a p c d :
  ainv a -> 0 <= p < n -> d = slack c ->
  (d = 0 -> passed a p) -> (d = 1 -> slack (ph (a p)) = 0) ->
  pe_ok (goto a p c d) p ->
  (forall q, 0 <= q < n -> q <> p -> pair_ok (goto a p c d) p q /\ pair_ok (goto a p c d) q p) ->
  (putting c = false -> same_ids a p) ->
  ainv (goto a p c d).
Proof.
  intros [A1 A2 A3 A4] Hp Hd H0 H1 Hpe Hpair Hids.
  destruct (goto_eq a p c d) as [Ep Eb].
  split.
  - intros x y Hx Hy. destruct (decide (x = p)) as [->|Hxp], (decide (y = p)) as [->|Hyp];
      rewrite ?Ep, ?Eb, ?(bar_goto_ne a p c d y), ?(bar_goto_ne a p c d x), ?ph_goto_ne by done.
    + destruct c; cbn in *; lia.
    + pose proof (A1 p y Hp Hy). assert (d = 0 \/ d = 1) as [E|E] by (destruct c; cbn in *; lia).
      * specialize (H0 E y Hy). lia.
      * specialize (H1 E). lia.
    + pose proof (A1 x p Hx Hp). destruct c; cbn in *; lia.
    + by apply A1.
  - intros x y Hx Hy. destruct (decide (x = p)) as [->|Hxp], (decide (y = p)) as [->|Hyp].
    + split; [done|lia].
    + by apply Hpair.
    + by apply Hpair.
    + pose proof (A2 x y Hx Hy) as P. unfold pair_ok, follows in *.
      by rewrite !ph_goto_ne, !bar_goto_ne, ids_goto.
  - intros x Hx Hput y z Hy Hz. rewrite !ids_goto. destruct (decide (x = p)) as [->|Hxp].
    + rewrite Ep in Hput. by apply Hids.
    + rewrite ph_goto_ne in Hput by done. by apply A3.
  - intros x Hx. destruct (decide (x = p)) as [->|Hxp]; [done|]. apply (pe_ok_ext a); [by apply ph_goto_ne|apply ids_goto|auto].
Qed.

(** A step within a segment. *)
Lemma goto_same_inv a p c :
  ainv a -> 0 <= p < n -> slack c = 0 -> segment c = segment (ph (a p)) ->
  (slack (ph (a p)) = 0 \/ passed a p) -> pe_ok (goto a p c 0) p ->
  (putting c = false -> same_ids a p) ->
  ainv (goto a p c 0).
Proof.
  intros HA Hp Hs Hseg Hpass Hpe Hids. destruct (goto_eq a p c 0) as [Ep Eb].
  apply goto_inv; try done.
  - intros _ q Hq. destruct Hpass as [E|H]; [|by apply H].
    pose proof (ainv_slack a HA p q Hp Hq). lia.
  - intros q Hq Hqp. pose proof (ainv_pair a HA p q Hp Hq) as P.
    pose proof (ainv_pair a HA q p Hq Hp) as Q. unfold pair_ok, follows in *.
    rewrite !(ph_goto_ne a p c 0 q), !(bar_goto_ne a p c 0 q), !ids_goto, Ep, Eb, Hseg, Z.add_0_r by done. done.
Qed.

(** A step into the next barrier. *)
Lemma goto_next_inv a p c :
  ainv a -> 0 <= p < n -> slack c = 1 -> slack (ph (a p)) = 0 -> putting c = false ->
  (forall q, 0 <= q < n -> q <> p -> follows a p q -> segment (ph (a q)) = segment c) ->
  (forall q, 0 <= q < n -> q <> p -> bar (a q) = bar (a p) ->
     segment (ph (a q)) = segment (ph (a p)) -> follows (goto a p c 1) q p) ->
  pe_ok (goto a p c 1) p -> same_ids a p ->
  ainv (goto a p c 1).
Proof.
  intros HA Hp Hs Hs0 Hput H1 H2 Hpe Hids. destruct (goto_eq a p c 1) as [Ep Eb].
  apply goto_inv; try done.
  intros q Hq Hqp. destruct (ainv_pair a HA p q Hp Hq) as [P1 P2].
  destruct (ainv_pair a HA q p Hq Hp) as [Q1 Q2].
  pose proof (ainv_slack a HA p q Hp Hq). pose proof (ainv_slack a HA q p Hq Hp).
  assert (slack (ph (a q)) <= 1) by (destruct (ph (a q)); cbn; lia).
  unfold pair_ok. rewrite !(ph_goto_ne a p c 1 q), !(bar_goto_ne a p c 1 q), Ep, Eb by done. split; split; intros Hb.
  - symmetry. apply H1; [done..|]. apply P2. lia.
  - lia.
  - apply H1; [done..|]. apply P2. lia.
  - apply H2; [done..|lia|]. apply Q1. lia.
Qed.

(** The PEs that have entered the third barrier have received the same ids. *)
Lemma ids_agree a p q :
  ainv a -> 0 <= p < n -> 0 <= q < n ->
  (forall x, 0 <= x < n -> putting (ph (a x)) = false) ->
  not_ready (ids (a p)) <-> not_ready (ids (a q)).
Proof.
  intros HA Hp Hq H. unfold not_ready.
  split; intros (x & Hx & E); exists x; (split; [done|]); rewrite <- E;
    by apply (ainv_ids a HA x Hx (H x Hx)).
Qed.

(** While a PE is past the third barrier, none puts its id. *)
Lemma no_putting a p x :
  ainv a -> 0 <= p < n -> 0 <= x < n -> segment (ph (a p)) = SD -> slack (ph (a p)) = 0 ->
  putting (ph (a x)) = false.
Proof.
  intros HA Hp Hx Hseg Hs. destruct (ph (a x)) eqn:E; try done. exfalso.
  pose proof (ainv_slack a HA p x Hp Hx). pose proof (ainv_slack a HA x p Hx Hp).
  rewrite E in *. cbn in *. destruct (ainv_pair a HA p x Hp Hx) as [P _].
  rewrite E, Hseg in P. cbn in P. discriminate P. lia.
Qed.

Lemma putting_id a p : ainv a -> 0 <= p < n -> putting (ph (a p)) = false -> same_ids a p.
Proof. intros HA. apply (ainv_ids a HA). Qed.

Lemma put_inv a p k o id :
  ainv a -> 0 <= p < n -> ph (a p) = PutId k o id -> 0 <= k < n ->
  ainv (goto (put_id a k p id) p (PutId (k + 1) o id) 0).
Proof.
  intros HA Hp Hph Hk.
  set (a' := goto (put_id a k p id) p (PutId (k + 1) o id) 0).
  assert (Hbar : forall x, bar (a' x) = bar (a x)).
  { intros x. unfold a', goto, put_id, upd. destruct (Z.eqb_spec x p) as [->|]; cbn;
      [destruct (Z.eqb_spec p k) as [->|]; cbn; lia|]. destruct (Z.eqb_spec x k) as [->|]; done. }
  assert (Hphx : forall x, x <> p -> ph (a' x) = ph (a x)).
  { intros x Hx. unfold a', goto, put_id, upd. rewrite (proj2 (Z.eqb_neq _ _) Hx).
    destruct (Z.eqb_spec x k) as [->|]; done. }
  assert (Hphp : ph (a' p) = PutId (k + 1) o id) by (unfold a', goto; by rewrite upd_eq).
  assert (Hseg : forall x, segment (ph (a' x)) = segment (ph (a x)) /\ slack (ph (a' x)) = slack (ph (a x)) /\
                           putting (ph (a' x)) = putting (ph (a x))).
  { intros x. destruct (decide (x = p)) as [->|Hx]; [by rewrite Hphp, Hph|by rewrite Hphx]. }
  assert (Hids : forall x y, y <> p -> ids (a' x) y = ids (a x) y).
  { intros x y Hy. unfold a'. rewrite ids_goto. unfold put_id, upd.
    destruct (Z.eqb_spec x k) as [->|]; [|done]. cbn. by rewrite (proj2 (Z.eqb_neq _ _) Hy). }
  assert (Hidp : forall x, ids (a' x) p = if x =? k then id else ids (a x) p).
  { intros x. unfold a'. rewrite ids_goto. unfold put_id, upd.
    destruct (Z.eqb_spec x k) as [->|]; [|done]. cbn. by rewrite Z.eqb_refl. }
  assert (HD : forall x, 0 <= x < n -> segment (ph (a x)) = SD -> exists o id, ph (a x) = Wait3 o id).
  { intros x Hx Hsx. assert (slack (ph (a x)) = 1 \/ slack (ph (a x)) = 0) as [E|E]
      by (destruct (ph (a x)); cbn; lia).
    - destruct (ph (a x)) as [| | | | | | |o' id'| | |]; cbn in *; try done; eauto.
    - pose proof (no_putting a x p HA Hx Hp Hsx E) as F. by rewrite Hph in F. }
  split.
  - intros x y Hx Hy. rewrite !Hbar. destruct (Hseg x) as (_ & -> & _). by apply ainv_slack.
  - intros x y Hx Hy. destruct (ainv_pair a HA x y Hx Hy) as [P1 P2]. unfold pair_ok, follows in *.
    rewrite !Hbar. destruct (Hseg x) as (-> & _), (Hseg y) as (-> & _). split; [done|].
    intros E. specialize (P2 E).
    destruct (segment (ph (a x))) eqn:Sx; try done.
    destruct (HD x Hx Sx) as (o' & id' & E').
    exfalso. pose proof (ainv_slack a HA y p Hy Hp). pose proof (ainv_slack a HA p x Hp Hx).
    pose proof (ainv_slack a HA x p Hx Hp). rewrite Hph, E' in *. cbn in *.
    assert (bar (a x) = bar (a p) + 1) by (
      destruct (ainv_pair a HA x p Hx Hp) as [F _]; rewrite Hph, E' in F; cbn in F;
      assert (slack (ph (a y)) <= 1) by (destruct (ph (a y)); cbn; lia);
      destruct (decide (bar (a x) = bar (a p))) as [F'|F']; [discriminate (F F')|lia]).
    destruct (segment (ph (a y))) eqn:Sy; try done;
      destruct (ph (a y)) as [| |[]| | | | | | | |]; cbn in *; try done; lia.
  - intros x Hx Hput y z Hy Hz. destruct (Hseg x) as (_ & _ & E). rewrite E in Hput.
    assert (x <> p) by (intros ->; by rewrite Hph in Hput). rewrite !Hids by done.
    by apply ainv_ids.
  - intros x Hx. pose proof (ainv_pe a HA x Hx) as H. unfold pe_ok in *.
    destruct (decide (x = p)) as [->|Hxp].
    + rewrite Hphp. rewrite Hph in H. destruct H as (H1 & H2 & H3). split; [lia|]. split; [done|].
      intros y Hy. rewrite Hidp. destruct (Z.eqb_spec y k); [done|]. apply H3. lia.
    + rewrite Hphx by done. destruct (ph (a x)) as [| |[]| | | |k' o' id'|o' id'|k' o' id'| |] eqn:E; try done.
      * destruct (HD x Hx ltac:(by rewrite E)) as (? & ? & F). congruence.
      * destruct H as (H1 & H2 & H3). split; [done|]. split; [done|]. intros y Hy. rewrite Hids; auto.
      * destruct H as (H1 & H2). split; [done|]. intros y Hy. rewrite Hids; auto.
      * destruct (HD x Hx ltac:(by rewrite E)) as (? & ? & F). congruence.
      * destruct (HD x Hx ltac:(by rewrite E)) as (? & ? & F). congruence.
Qed.

(** A PE that is past a barrier of its own segment. *)
Lemma follows_goto a p c d q : q <> p -> 
  follows (goto a p c d) q p <->
  match segment (ph (a q)), segment c with
  | SA, SB | SB, SC | SC, SD | SE, SA => True
  | SD, SB => not_ready (ids (a q))
  | SD, SE => ~ not_ready (ids (a q))
  | _, _ => False
  end.
Proof.
  intros H. destruct (goto_eq a p c d) as [Ep _]. unfold follows.
  by rewrite (ph_goto_ne a p c d q H), Ep, ids_goto.
Qed.

Lemma follows_segment a p q s :
  follows a p q ->
  match segment (ph (a p)) with
  | SA => s = SB | SB => s = SC | SC => s = SD | SE => s = SA
  | SD => (s = SB /\ not_ready (ids (a p))) \/ (s = SE /\ ~ not_ready (ids (a p)))
  end ->
  segment (ph (a q)) = s.
Proof.
  unfold follows. destruct (segment (ph (a p))), (segment (ph (a q))); intros H H'; try done;
    destruct H' as [[-> ?]|[-> ?]]; done.
Qed.

Lemma astep_inv a p a' : ainv a -> 0 <= p < n -> astep a p a' -> ainv a'.
Proof.
  intros HA Hp Hs. pose proof (ainv_pe a HA p Hp) as Hpe. pose proof (putting_id a p HA Hp) as Hid.
  unfold pe_ok in Hpe.
  destruct Hs as [E|E Hpass|x E|E Hpass|o id E Ho Ho'|o id E Hpass|k o id E Hk|k o id E Hk|o id E Hpass
                 |k o id E Hk|k o id E Hk|E|E Hpass]; rewrite E in Hpe, Hid; cbn in Hid.
  - apply goto_next_inv; rewrite ?E; auto.
    + intros q _ _ F. eapply follows_segment; [done|by rewrite E].
    + intros q _ Hq _ F. apply follows_goto; [done|]. by rewrite F.
    + unfold pe_ok. by rewrite (proj1 (goto_eq _ _ _ _)).
  - apply goto_same_inv; rewrite ?E; auto. unfold pe_ok. by rewrite (proj1 (goto_eq _ _ _ _)).
  - apply goto_next_inv; rewrite ?E; auto.
    + intros q _ _ F. eapply follows_segment; [done|]. rewrite E. destruct x; cbn; auto.
    + intros q Hq Hqp _ F. apply follows_goto; [done|]. rewrite F. destruct x; cbn; [|done].
      apply (ids_agree a q p); auto. intros y Hy. apply (no_putting a p y); auto; by rewrite E.
    + unfold pe_ok. by rewrite (proj1 (goto_eq _ _ _ _)).
  - apply goto_same_inv; rewrite ?E; auto. unfold pe_ok. by rewrite (proj1 (goto_eq _ _ _ _)).
  - apply goto_next_inv; rewrite ?E; auto.
    + intros q _ _ F. eapply follows_segment; [done|by rewrite E].
    + intros q _ Hq _ F. apply follows_goto; [done|]. by rewrite F.
    + unfold pe_ok. rewrite (proj1 (goto_eq _ _ _ _)). destruct o; intuition congruence.
  - apply goto_same_inv; rewrite ?E; auto; try done. unfold pe_ok. rewrite (proj1 (goto_eq _ _ _ _)).
    split; [lia|]. split; [done|]. lia.
  - apply put_inv; auto. lia.
  - destruct Hpe as (H1 & H2 & H3). assert (k = n) as -> by lia.
    assert (same_ids a p) by (intros x y Hx Hy; by rewrite !H3).
    apply goto_next_inv; rewrite ?E; auto.
    + intros q _ _ F. eapply follows_segment; [done|by rewrite E].
    + intros q _ Hq _ F. apply follows_goto; [done|]. by rewrite F.
    + unfold pe_ok. rewrite (proj1 (goto_eq _ _ _ _)). split; [done|]. intros q Hq. rewrite ids_goto. auto.
  - apply goto_same_inv; rewrite ?E; auto. unfold pe_ok. rewrite (proj1 (goto_eq _ _ _ _)).
    destruct Hpe as [H1 H2]. split; [lia|]. split; [intros q Hq; rewrite ids_goto; auto|].
    rewrite H1. split; [auto|]. intros [?|(q & ? & _)]; [done|lia].
  - apply goto_same_inv; rewrite ?E; auto. unfold pe_ok. rewrite (proj1 (goto_eq _ _ _ _)).
    destruct Hpe as (H1 & H2 & H3). split; [lia|]. split; [intros q Hq; rewrite ids_goto; auto|].
    rewrite orb_true_iff, Z.eqb_eq, H3, ids_goto. split.
    + intros [[?|(q & ? & ?)]|?]; [by left|right; exists q; split; [lia|done]|right; exists k; split; [lia|done]].
    + intros [?|(q & Hq & Hz)]; [auto|]. destruct (decide (q = k)) as [->|]; [auto|].
      left. right. exists q. split; [lia|done].
  - destruct Hpe as (H1 & H2 & H3). assert (k = n) as -> by lia.
    assert (Ho : o = true <-> not_ready (ids (a p))).
    { rewrite H3. split; [|auto]. intros [->|?]; [|done]. exists p. split; [done|]. by apply H2. }
    apply goto_same_inv; rewrite ?E; auto; try (by destruct o).
    unfold pe_ok. rewrite (proj1 (goto_eq _ _ _ _)), ids_goto.
    destruct o; [by apply Ho|]. intros F. apply Ho in F. done.
  - apply goto_next_inv; rewrite ?E; auto.
    + intros q _ _ F. eapply follows_segment; [done|]. rewrite E. cbn. auto.
    + intros q Hq Hqp _ F. apply follows_goto; [done|]. rewrite F. cbn.
      rewrite (ids_agree a q p); auto. intros y Hy. apply (no_putting a p y); auto; by rewrite E.
    + unfold pe_ok. by rewrite (proj1 (goto_eq _ _ _ _)).
  - apply goto_same_inv; rewrite ?E; auto. unfold pe_ok. by rewrite (proj1 (goto_eq _ _ _ _)).
Qed.

Definition ainit : Abs := fun _ => {| ph := Idle; bar := 0; ids := fun _ => 0 |}.

Lemma ainv_init : ainv ainit.
Proof. by split; cbn. Qed.

(** Past the loop, and in a round (up to the put of the id). *)
Definition past_loop (c : Phase) : bool := match c with Exit | Wait4 => true | _ => false end.
Definition in_round (c : Phase) : bool :=
  match c with Loop _ | Wait1 | Compare | Wait2 _ _ | PutId _ _ _ => true | _ => false end.

Lemma abs_agreement a p q :
  ainv a -> 0 <= p < n -> 0 <= q < n -> past_loop (ph (a p)) = true -> in_round (ph (a q)) = false.
Proof.
  intros HA Hp Hq H. destruct (in_round (ph (a q))) eqn:R; [|done]. exfalso.
  pose proof (ainv_slack a HA p q Hp Hq). pose proof (ainv_slack a HA q p Hq Hp).
  destruct (ainv_pair a HA p q Hp Hq) as [P1 P2], (ainv_pair a HA q p Hq Hp) as [Q1 Q2].
  pose proof (ainv_pe a HA p Hp) as O1. pose proof (ainv_pe a HA q Hq) as O2.
  unfold pe_ok, follows in *.
  assert (Hag : ph (a p) = Exit -> not_ready (ids (a p)) <-> not_ready (ids (a q))).
  { intros E. apply ids_agree; auto. intros x Hx. apply (no_putting a p x); auto; by rewrite E. }
  assert (Hc : bar (a q) = bar (a p) \/ bar (a q) = bar (a p) + 1 \/ bar (a p) = bar (a q) + 1).
  { destruct (ph (a p)), (ph (a q)); cbn in *; try done; lia. }
  destruct Hc as [F|[F|F]];
    [specialize (P1 (eq_sym F)); clear P2 Q1 Q2|specialize (P2 F); clear P1 Q1 Q2
    |specialize (Q2 F); clear P1 P2 Q1];
    destruct (ph (a p)) eqn:Ep; cbn in *; try done;
    destruct (ph (a q)) as [| |[]| | | | | | | |] eqn:Eq; cbn in *; try done; try lia;
    try (by apply O1, (Hag eq_refl)); tauto.
Qed.
End Abs.

(** ** The concrete calls *)
Section Calls.
Context (num_pes : Z).
Abbreviation Mem := (Z -> DarcInner).

Fixpoint ret_call (r : Ret) : option (BlockPc * Block) :=
  match r with
  | RBlock pc b => Some (pc, b)
  | RDropLoad _ r => ret_call r
  | _ => None
  end.

(** The call of [block_on_outstanding] a task belongs to. *)
Definition call_of (t : Task) : option (BlockPc * Block) :=
  match t with
  | Outstanding pc b => Some (pc, b)
  | Drop_ _ r | DropScan _ _ r | SendFinished _ _ r | DropLoad _ r | DropCas _ _ r => ret_call r
  | _ => None
  end.

Definition calls (ts : list Task) : list (BlockPc * Block) := omap call_of ts.
Definition call_pe (c : BlockPc * Block) : Z := my_pe c.2.

(** No PE runs two calls at once: [block_on_outstanding] is collective. *)
Definition serial (s : St) : Prop := NoDup (map call_pe (calls (tasks s))).

Definition phase_of (c : BlockPc * Block) : Phase :=
  let '(pc, b) := c in
  match pc with
  | BSingle | BEnter0 => Idle
  | BWait0 => Wait0
  | BWhile => Loop (2 <=? barrier_id b)
  | BCopy _ | BOldLocal | BOldDist | BPutRef _ | BEnter1 => Loop (2 <=? old_barrier_id b)
  | BWait1 => Wait1
  | BCmpLocal | BCmpDist | BCmpRef _ | BEnter2 => Compare
  | BWait2 => Wait2 (outstanding_refs b) (barrier_id b)
  | BPutId k => PutId k (outstanding_refs b) (barrier_id b)
  | BEnter3 => PutId num_pes (outstanding_refs b) (barrier_id b)
  | BWait3 => Wait3 (outstanding_refs b) (barrier_id b)
  | BReadId k => ReadId k (outstanding_refs b) (barrier_id b)
  | BNext => ReadId num_pes (outstanding_refs b) (barrier_id b)
  | BStore | BPutMode _ | BPoll _ | BEnter4 => Exit
  | BWait4 => Wait4
  end.

(** What the local variables of a call satisfy. *)
Definition round_ok (pc : BlockPc) (b : Block) : Prop :=
  match pc with
  | BEnter2 =>
    (outstanding_refs b = true -> barrier_id b = 0) /\ (outstanding_refs b = false -> barrier_id b <> 0)
  | BPutId k | BReadId k => 0 <= k <= num_pes
  | BWait2 | BEnter3 | BWait3 | BNext => True
  | _ => barrier_id b = 0 -> outstanding_refs b = true
  end.

Definition block_ok (c : BlockPc * Block) : Prop :=
  let '(pc, b) := c in
  is_pe num_pes (my_pe b) /\
  match pc with
  | BSingle | BEnter0 | BWait0 => barrier_id b = 1
  | BWhile => 1 <= barrier_id b
  | BStore | BPutMode _ | BPoll _ | BEnter4 | BWait4 => True
  | _ => 1 <= old_barrier_id b /\ round_ok pc b
  end.

(** ** The simulation *)
Record mem_rel (m : Mem) (a : Z -> AbsPe) : Prop := {
  rel_bar : forall p, bar (a p) = barrier (m p);
  rel_ids : forall p q, ids (a p) q = mode_barrier (m p) q;
}.

(** The state of the call of PE [p] among [cs]. *)
Definition call_rel (cs : list (BlockPc * Block)) (a : Z -> AbsPe) (p : Z) : Prop :=
  (forall c, c ∈ cs -> call_pe c = p -> ph (a p) = phase_of c) /\
  ((forall c, c ∈ cs -> call_pe c <> p) -> ph (a p) = Idle).

Lemma passed_rel m a p :
  mem_rel m a -> barrier_passed num_pes m p = true -> passed num_pes a p.
Proof.
  intros [Hb _] H q Hq. rewrite !Hb.
  pose proof (proj1 (forallb_forall _ _) H q) as F. cbn in F.
  apply Z.leb_le, F, list_elem_of_In, elem_of_seqZ. lia.
Qed.

(** A memory step that changes neither barriers nor ids. *)
Lemma mem_rel_at_pe m a p f :
  mem_rel m a -> (forall d, barrier (f d) = barrier d /\ mode_barrier (f d) = mode_barrier d) ->
  mem_rel (at_pe p f m) a.
Proof.
  intros [H1 H2] Hf. split; intros; unfold at_pe, upd; destruct (Z.eqb_spec p0 p) as [->|]; auto;
    destruct (Hf (m p)) as [F1 F2]; rewrite ?F1, ?F2; auto.
Qed.

Lemma mem_rel_goto m a p c : mem_rel m a -> mem_rel m (goto a p c 0).
Proof.
  intros [H1 H2]. split; intros; rewrite ?ids_goto; auto.
  unfold goto, upd. destruct (Z.eqb_spec p0 p) as [->|]; cbn; auto. rewrite H1. lia.
Qed.

Lemma mem_rel_enter m a p c : mem_rel m a -> mem_rel (at_pe p enter_barrier m) (goto a p c 1).
Proof.
  intros [H1 H2]. split; intros; rewrite ?ids_goto; unfold at_pe, goto, upd;
    destruct (Z.eqb_spec p0 p) as [->|]; auto; destruct (m p) eqn:E; cbn.
  - rewrite H1, E. done.
  - rewrite H2, E. done.
Qed.

Lemma mem_rel_put m a p k id c :
  mem_rel m a -> mem_rel (at_pe k (put_mode_barrier p id) m) (goto (put_id a k p id) p c 0).
Proof.
  intros [H1 H2]. split; intros; rewrite ?ids_goto; unfold at_pe, goto, put_id, upd.
  - destruct (Z.eqb_spec p0 p) as [->|]; cbn; [destruct (Z.eqb_spec p k) as [->|]; cbn|].
    + rewrite H1. destruct (m k). cbn. lia.
    + rewrite H1. lia.
    + destruct (Z.eqb_spec p0 k) as [->|]; cbn; rewrite ?H1; [|done]. by destruct (m k).
  - destruct (Z.eqb_spec p0 k) as [->|]; cbn; [|done].
    destruct (m k) eqn:E; cbn. unfold upd. destruct (q =? p); [done|]. by rewrite H2, E.
Qed.

(** A step of the call of PE [p] to memory [m'] and tasks [ts] is a step of the
    abstract PE or none. *)
Definition simulated (a : Z -> AbsPe) (p : Z) (m' : Mem) (ts : list Task) : Prop :=
  exists a', (a' = a \/ astep num_pes a p a') /\ mem_rel m' a' /\
    (forall q, q <> p -> ph (a' q) = ph (a q)) /\
    match calls ts with
    | [] => ph (a' p) = Idle
    | [c] => call_pe c = p /\ ph (a' p) = phase_of c /\ block_ok c
    | _ => False
    end.

Lemma sim_stay a p m' ts c :
  calls ts = [c] -> mem_rel m' a -> call_pe c = p -> ph (a p) = phase_of c -> block_ok c ->
  simulated a p m' ts.
Proof. intros E H1 H2 H3 H4. exists a. rewrite E. split; [by left|]. auto. Qed.

Lemma sim_goto a p m' ts c d :
  calls ts = [c] -> astep num_pes a p (goto a p (phase_of c) d) ->
  mem_rel m' (goto a p (phase_of c) d) -> call_pe c = p -> block_ok c -> simulated a p m' ts.
Proof.
  intros E H1 H2 H3 H4. eexists. rewrite E. split; [right; exact H1|]. split; [done|].
  split; [intros q Hq; by apply ph_goto_ne|]. rewrite (proj1 (goto_eq _ _ _ _)). auto.
Qed.

Lemma calls_return b : calls (block_return b) = [].
Proof. unfold block_return. by destruct (caller b). Qed.

(** The side conditions on the local variables. *)
Ltac block_ok_case :=
  cbn in *; unfold is_pe in *;
  repeat match goal with H : _ /\ _ |- _ => destruct H end;
  repeat split; intros; rewrite ?orb_true_iff; auto; try lia; try congruence.

Ltac sim_mem_case :=
  first [assumption|apply mem_rel_at_pe; [assumption|by intros []]|apply mem_rel_goto; assumption
        |apply mem_rel_enter; assumption|apply mem_rel_put; assumption].

Ltac sim_stay_case :=
  eapply sim_stay;
  [reflexivity|sim_mem_case|reflexivity
  |match goal with E : ph _ = _ |- _ => rewrite E end; cbn; try reflexivity; f_equal; lia
  |block_ok_case].

(** A step of the abstract PE, named by its rule. *)
Ltac sim_step_case d rule :=
  eapply (sim_goto _ _ _ _ _ d); [reflexivity|eapply rule|sim_mem_case|reflexivity|block_ok_case];
  try eassumption.

Lemma sim_return a p m' b :
  mem_rel m' a -> passed num_pes a p -> ph (a p) = Wait4 -> simulated a p m' (block_return b).
Proof.
  intros Hm Hpass Hph. exists (goto a p Idle 0). rewrite calls_return.
  split; [right; by apply a_wait4|]. split; [by apply mem_rel_goto|].
  split; [intros; by apply ph_goto_ne|by apply goto_eq].
Qed.

Lemma block_simulated m pc b m' ts a :
  mem_rel m a -> block_ok (pc, b) -> ph (a (my_pe b)) = phase_of (pc, b) ->
  block_step num_pes m pc b = Some (m', ts) -> simulated a (my_pe b) m' ts.
Proof.
  intros Hm [Hp Hok] Hph. destruct b as [p st e c o pr i oi ol oc od su]. cbn in Hp, Hph, Hok.
  destruct pc; cbn; unfold enter, leave, for_pe; cbn; intros H; repeat case_match; simplify_eq; cbn in *.
  all: try (match goal with H : barrier_passed _ _ _ = true |- _ => pose proof (passed_rel _ _ _ Hm H) end).
  all: try (sim_stay_case; fail).
  - exists a. rewrite calls_return. split; [by left|]. split; [|done]. by apply mem_rel_at_pe; [|intros []].
  - sim_step_case 1 a_start.
  - sim_step_case 0 a_wait0.
  - sim_step_case 1 a_round.
  - sim_step_case 0 a_wait1.
  - match goal with H : _ || _ = false |- _ => apply orb_false_iff in H as [-> _] end. sim_stay_case.
  - sim_step_case 1 a_compare; tauto.
  - sim_step_case 0 a_wait2.
  - exists (goto (put_id a k p i) p (PutId (k + 1) o i) 0).
    split; [right; apply a_put; [done|lia]|]. split; [by apply mem_rel_put|].
    split; [|cbn; rewrite (proj1 (goto_eq _ _ _ _)); repeat split; unfold is_pe in *; lia].
    intros q Hq. rewrite ph_goto_ne by done. unfold put_id, upd. by destruct (Z.eqb_spec q k) as [->|].
  - sim_step_case 1 a_put_end; lia.
  - sim_step_case 0 a_wait3.
  - rewrite <- (rel_ids _ _ Hm). sim_step_case 0 a_read; lia.
  - pose proof (a_read_end num_pes a p _ _ _ Hph ltac:(lia)) as S. cbn in S.
    replace true with (2 <=? oi + 1) in S by lia.
    eapply (sim_goto _ _ _ _ _ 0); [reflexivity|exact S|sim_mem_case|reflexivity|block_ok_case].
  - pose proof (a_read_end num_pes a p _ _ _ Hph ltac:(lia)) as S.
    eapply (sim_goto _ _ _ _ _ 0); [reflexivity|exact S|sim_mem_case|reflexivity|block_ok_case].
  - sim_step_case 1 a_exit.
  - by apply sim_return.
Qed.

Lemma calls_ret r : calls (ret r) = match ret_call r with Some c => [c] | None => [] end.
Proof.
  destruct r; cbn; try done. induction dsts; cbn; done.
Qed.

Lemma calls_handles p cnt : calls (replicate cnt (Handle p)) = [].
Proof. by induction cnt. Qed.

Lemma block_start p st e c :
  is_pe num_pes p ->
  exists pc b, block_on_outstanding num_pes p st e c = Outstanding pc b /\ my_pe b = p /\
    block_ok (pc, b) /\ phase_of (pc, b) = Idle.
Proof.
  intros Hp. eexists _, _. split; [reflexivity|]. split; [done|].
  destruct (num_pes =? 1); done.
Qed.

(** A step of a task outside a call keeps the calls or starts one. *)
Lemma other_simulated m act t m' ts a :
  mem_rel m a -> task_ok num_pes t -> (forall pc b, t <> Outstanding pc b) ->
  tstep num_pes m act t = Some (m', ts) ->
  mem_rel m' a /\
  (calls ts = calls [t] \/ exists c, calls ts = c :: calls [t] /\ block_ok c /\ phase_of c = Idle).
Proof.
  intros Hm Hok Hne H.
  destruct t, act; cbn in H; try discriminate.
  all: repeat autounfold with darc in H.
  all: try (unfold drop_sub, drop_scan, drop_load, send_finished in H; simplify_eq;
            repeat case_match; simplify_eq;
            (split; [sim_mem_case|left; cbn; rewrite ?calls_ret; done]); fail).
  all: cbn in Hok.
  - destruct (block_start p to 0 ByConversion Hok) as (pc & b & E & _ & Hb & Hph).
    simplify_eq. split; [done|]. right. exists (pc, b). rewrite E. done.
  - injection H as <- <-. split; [sim_mem_case|by left].
  - destruct (block_start p to extra_cnt ByBorrow Hok) as (pc & b & E & _ & Hb & Hph).
    simplify_eq. split; [done|]. right. exists (pc, b). rewrite E. done.
  - injection H as <- <-. split; [sim_mem_case|]. left. cbn. by rewrite calls_handles.
  - destruct ms as [|x ms]; cbn in H; [simplify_eq; split; [done|left; by rewrite calls_ret]|].
    case_decide; simplify_eq; [|split; [done|by left]].
    destruct (block_start p Dropped 0 ByDroppedWait (proj1 Hok)) as (pc & b & E & _ & Hb & Hph).
    split; [sim_mem_case|]. right. exists (pc, b). split; [|done]. rewrite E. cbn. by rewrite <- calls_ret.
  - by destruct (Hne pc b).
  - destruct pc; cbn in H; repeat case_match; simplify_eq; split; try sim_mem_case; by left.
Qed.

(** The abstract state of a concrete one. *)
Record sim_inv (s : St) (a : Z -> AbsPe) : Prop := {
  sim_abs : ainv num_pes a;
  sim_mem : mem_rel (mem s) a;
  sim_calls : forall p, call_rel (calls (tasks s)) a p;
  sim_ok : Forall block_ok (calls (tasks s));
}.

Definition sstep (s s' : St) : Prop := lstep num_pes s s' /\ serial s'.

Lemma calls_app l l' : calls (l ++ l') = calls l ++ calls l'.
Proof. apply omap_app. Qed.

Lemma NoDup_middle_pe C1 c C2 c' :
  NoDup (map call_pe (C1 ++ c :: C2)) -> c' ∈ C1 ++ C2 -> call_pe c' <> call_pe c.
Proof.
  rewrite map_app. cbn. intros H Hc E.
  apply NoDup_app in H as (_ & H1 & H2). apply NoDup_cons in H2 as [H2 _].
  apply elem_of_app in Hc as [Hc|Hc].
  - apply (H1 (call_pe c')); [by apply (list_elem_of_fmap_2 call_pe)|]. rewrite E. left.
  - apply H2. rewrite <- E. by apply (list_elem_of_fmap_2 call_pe).
Qed.

(** A call ends, goes on or starts: [o] is what replaces it among the calls. *)
Lemma call_rel_replace C1 C2 (o o' : list (BlockPc * Block)) a a' p :
  (forall q, call_rel (C1 ++ o ++ C2) a q) ->
  (forall q, q <> p -> ph (a' q) = ph (a q)) ->
  (forall c, c ∈ C1 ++ C2 -> call_pe c <> p) -> (forall c, c ∈ o -> call_pe c = p) ->
  match o' with
  | [] => ph (a' p) = Idle
  | [c] => call_pe c = p /\ ph (a' p) = phase_of c
  | _ => False
  end ->
  forall q, call_rel (C1 ++ o' ++ C2) a' q.
Proof.
  intros H Hph Hne Ho Ho' q. destruct (H q) as [H1 H2].
  destruct (decide (q = p)) as [->|Hq].
  - destruct o' as [|c [|]]; [| |done].
    + split; [|done]. intros c Hc E. destruct (Hne c Hc E).
    + destruct Ho' as [E F]. split.
      * intros c' Hc' E'. rewrite !elem_of_app, list_elem_of_singleton in Hc'.
        destruct Hc' as [Hc'|[->|Hc']]; [|done|]; destruct (Hne c'); rewrite ?elem_of_app; auto.
      * intros G. destruct (G c); [|done]. rewrite !elem_of_app, list_elem_of_singleton. auto.
  - rewrite <- (Hph q Hq) in H1, H2.
    assert (Hin : forall c, call_pe c = q -> c ∈ C1 ++ o' ++ C2 <-> c ∈ C1 ++ o ++ C2).
    { intros c E. rewrite !elem_of_app. split; intros [?|[Hc|?]]; auto; exfalso.
      - destruct o' as [|c' [|]]; [by apply elem_of_nil in Hc| |done].
        apply list_elem_of_singleton in Hc as ->. destruct Ho'. congruence.
      - specialize (Ho c Hc). congruence. }
    split.
    + intros c Hc E. apply H1; [|done]. by apply Hin.
    + intros G. apply H2. intros c Hc E. apply (G c); [|done]. by apply Hin.
Qed.

Lemma lstep_simulated raw s s' a :
  inv num_pes raw s -> serial s -> sim_inv s a -> sstep s s' -> exists a', sim_inv s' a'.
Proof.
  intros HI Hser [S1 S2 S3 S4] [(i & act & H) Hser']. unfold lstep1 in H.
  destruct (tasks s !! i) as [t|] eqn:Hi; [|done]. cbn in H.
  destruct (tstep num_pes (mem s) act t) as [[m' ts]|] eqn:Ht; [|done]. cbn in H. injection H as <-.
  assert (Hok : task_ok num_pes t) by (eapply Forall_lookup_1; [apply (inv_tasks _ _ _ HI)|done]).
  unfold serial in *. rewrite <- (take_drop_middle (tasks s) i t Hi) in Hser, S3, S4.
  cbn [tasks mem] in *. rewrite !calls_app in *.
  set (C1 := calls (take i (tasks s))) in *. set (C2 := calls (drop (S i) (tasks s))) in *.
  change (t :: drop (S i) (tasks s)) with ([t] ++ drop (S i) (tasks s)) in *.
  rewrite calls_app in Hser, S3, S4. fold C2 in Hser, S3, S4.
  assert (Hcase : (exists pc b, t = Outstanding pc b) \/ (forall pc b, t <> Outstanding pc b))
    by (destruct t; eauto).
  destruct Hcase as [(pc & b & ->)|Hne].
  - destruct act; try discriminate. cbn in Ht, Hser, S3, S4.
    assert (Hb : block_ok (pc, b)) by (apply Forall_app in S4 as [_ [S4 _]%Forall_cons]; done).
    assert (Hph : ph (a (my_pe b)) = phase_of (pc, b)).
    { apply (S3 (my_pe b)); [|done]. rewrite elem_of_app. right. left. }
    destruct (block_simulated _ _ _ _ _ _ S2 Hb Hph Ht) as (a' & Ha & Hm & Hoth & Hc).
    assert (Hothers : forall c, c ∈ C1 ++ C2 -> call_pe c <> my_pe b).
    { intros c Hc'. exact (NoDup_middle_pe _ _ _ _ Hser Hc'). }
    exists a'. split; cbn.
    + destruct Ha as [->|Ha]; [done|]. eapply astep_inv; [done| |done]. apply Hb.
    + done.
    + rewrite !calls_app. fold C1 C2. apply (call_rel_replace C1 C2 [(pc, b)] _ a a' (my_pe b)); auto.
      * intros c ->%list_elem_of_singleton. done.
      * destruct (calls ts) as [|c [|]]; [done|tauto|done].
    + rewrite !calls_app. fold C1 C2. rewrite Forall_app, Forall_cons in S4.
      rewrite !Forall_app. split; [tauto|]. split; [|tauto].
      destruct (calls ts) as [|c [|]]; [by apply Forall_nil_2| |done]. apply Forall_cons_2; [tauto|by apply Forall_nil_2].
  - destruct (other_simulated _ _ _ _ _ _ S2 Hok Hne Ht) as [Hm Hc].
    exists a. split; cbn; [done|done| |]; rewrite !calls_app; fold C1 C2;
      destruct Hc as [->|(c & Hc & Hcok & Hcph)]; try done; rewrite Hc in *; cbn in *.
    + apply (call_rel_replace C1 (calls [t] ++ C2) [] [c] a a (call_pe c)); auto.
      * intros c' Hc'. eapply NoDup_middle_pe; [exact Hser'|done].
      * intros c' Hc'. by apply elem_of_nil in Hc'.
      * split; [done|]. rewrite Hcph. apply (S3 (call_pe c)).
        intros c' Hc'. eapply NoDup_middle_pe; [exact Hser'|done].
    + rewrite Forall_app in *. split; [tauto|]. apply Forall_cons_2; tauto.
Qed.

Lemma sim_init raw st : sim_inv (init num_pes raw st) ainit.
Proof.
  assert (E : calls (tasks (init num_pes raw st)) = []).
  { cbn. induction (seqZ 0 num_pes); cbn; done. }
  split; rewrite ?E; [apply ainv_init|done| |by apply Forall_nil_2].
  intros p. split; [|done]. intros c Hc. by apply elem_of_nil in Hc.
Qed.

Lemma sstep_simulated raw st s :
  rtc sstep (init num_pes raw st) s -> reachable num_pes raw st s /\ serial s /\ exists a, sim_inv s a.
Proof.
  apply (rtc_ind_r (fun s => reachable num_pes raw st s /\ serial s /\ exists a, sim_inv s a)).
  - split; [apply rtc_refl|]. split; [|exists ainit; apply sim_init].
    unfold serial. assert (E : calls (tasks (init num_pes raw st)) = []) by
      (cbn; induction (seqZ 0 num_pes); cbn; done). rewrite E. constructor.
  - intros s1 s2 _ Hs (H1 & H2 & a & H3). split; [eapply rtc_r; [done|apply Hs]|]. split; [apply Hs|].
    eapply lstep_simulated; [by eapply darc_inv_reachable|done..].
Qed.

(** Where a call stands: past the loop, or in a round up to the end of the
    exchange of the ids. *)
Definition past_loop_pc (pc : BlockPc) : bool :=
  match pc with BStore | BPutMode _ | BPoll _ | BEnter4 | BWait4 => true | _ => false end.
Definition in_round_pc (pc : BlockPc) : bool :=
  match pc with
  | BWhile | BCopy _ | BOldLocal | BOldDist | BPutRef _ | BEnter1 | BWait1 | BCmpLocal | BCmpDist
  | BCmpRef _ | BEnter2 | BWait2 | BPutId _ | BEnter3 => true
  | _ => false
  end.

(** C17: the PEs leave the loop of [block_on_outstanding] together: as long as the
    calls of a PE do not overlap, no PE is in a round of the loop (counting
    references, comparing or exchanging the verdicts) while another is past the
    loop and changes the mode of the darc. *)
Theorem block_agreement raw st s pc b pc' b'
    (Hs : rtc sstep (init num_pes raw st) s)
    (Hp : (pc, b) ∈ calls (tasks s)) (Hq : (pc', b') ∈ calls (tasks s))
    (Hpast : past_loop_pc pc = true) :
  in_round_pc pc' = false.
Proof.
  destruct (sstep_simulated _ _ _ Hs) as (_ & _ & a & [S1 _ S3 S4]).
  assert (Hok : forall c, c ∈ calls (tasks s) -> 0 <= call_pe c < num_pes).
  { intros [x y] Hc. rewrite Forall_forall in S4. apply S4 in Hc. apply Hc. }
  assert (A : past_loop (ph (a (my_pe b))) = true).
  { rewrite (proj1 (S3 (my_pe b)) _ Hp eq_refl). by destruct pc. }
  pose proof (abs_agreement num_pes a (my_pe b) (my_pe b') S1 (Hok _ Hp) (Hok _ Hq) A) as B.
  rewrite (proj1 (S3 (my_pe b')) _ Hq eq_refl) in B. by destruct pc'.
Qed.

(** ** Runs in which the calls of a PE do not overlap *)
Definition sact (sel : Task -> bool) (a : Act) (s : St) : St :=
  let s' := act_on num_pes sel a s in
  if bool_decide (serial s') then s' else s.

Fixpoint sdrive (fuel : nat) (sel : Task -> bool) (s : St) : St :=
  match fuel with
  | O => s
  | S fuel => sdrive fuel sel (sact (fun t => sel t && ready num_pes (mem s) t) Run s)
  end.

Lemma sact_steps s0 sel a s : rtc sstep s0 s -> rtc sstep s0 (sact sel a s).
Proof.
  intros Hs. unfold sact. cbv zeta. case_bool_decide as Hser; [|done].
  revert Hser. unfold act_on. destruct (find_task _ _ _) as [i|]; [|done].
  destruct (lstep1 num_pes i a s) as [s'|] eqn:E; [|done].
  intros Hser. eapply rtc_r; [done|]. split; [by exists i, a|done].
Qed.

Lemma sdrive_steps s0 fuel sel s : rtc sstep s0 s -> rtc sstep s0 (sdrive fuel sel s).
Proof. revert s. induction fuel as [|fuel IH]; intros s Hs; cbn; [done|]. by apply IH, sact_steps. Qed.
End Calls.

(** Both of two PEs convert their darc; PE 0 has left the loop, PE 1 is about to. *)
Definition not_there (t : Task) : bool :=
  match t with
  | Outstanding pc b => if my_pe b =? 0 then negb (past_loop_pc pc) else match pc with BNext => false | _ => true end
  | _ => true
  end.

Definition one_past : St :=
  sdrive 2 200 not_there
    (sact 2 (handle_of 1) (AConvert LocalRw)
      (sact 2 (handle_of 0) (AConvert LocalRw) (init 2 (fun _ _ => 0) ModeDarc))).

Lemma block_agreement_witness :
  exists b b', (BStore, b) ∈ calls (tasks one_past) /\ (BNext, b') ∈ calls (tasks one_past) /\
    in_round_pc BNext = false.
Proof.
  assert (E : exists b b', calls (tasks one_past) = [(BStore, b); (BNext, b')]) by
    (eexists _, _; vm_compute; reflexivity).
  destruct E as (b & b' & E). exists b, b'.
  assert (H1 : (BStore, b) ∈ calls (tasks one_past)) by (rewrite E; left).
  assert (H2 : (BNext, b') ∈ calls (tasks one_past)) by (rewrite E; right; left).
  split; [exact H1|]. split; [exact H2|].
  refine (block_agreement 2 (fun _ _ => 0) ModeDarc one_past BStore b BNext b' _ H1 H2 eq_refl).
  unfold one_past. apply sdrive_steps, sact_steps, sact_steps, rtc_refl.
Defined.

(** A message that carries the darc is being unpacked while both PEs convert
    theirs: its [total_ref_cnt] is incremented, its [local_cnt] not yet. *)
Definition half_arrived (t : Task) : bool := match t with ArriveLocal _ _ => true | _ => false end.

Definition polling (t : Task) : bool :=
  match t with SendFinished _ _ (RBlock (BPoll _) _) => true | _ => false end.

Definition converted_in_use : St :=
  drive 2 60 (fun _ => true)
    (drive 2 400 (fun t => negb (half_arrived t) && negb (polling t))
      (act_on 2 (handle_of 1) (AConvert LocalRw)
        (act_on 2 (handle_of 0) (AConvert LocalRw)
          (drive 2 20 (fun t => negb (half_arrived t))
            (act_on 2 (handle_of 0) (ASer (Some 1)) (init 2 (fun _ _ => 0) ModeDarc)))))).

(** A conversion can complete on every PE while a handle of the old type is
    about to appear: the counters that [block_on_outstanding] compares are
    incremented one after the other. *)
Theorem converted_while_arriving :
  exists s, reachable 2 (fun _ _ => 0) ModeDarc s /\
    mode (mem s 0) 0 = LocalRw /\ mode (mem s 1) 1 = LocalRw /\
    tasks s = [Handle 0; Handle 1; Handle 1].
Proof.
  exists converted_in_use. split.
  - unfold converted_in_use. run_reachable.
  - split; [vm_compute; reflexivity|]. split; vm_compute; reflexivity.
Qed.
