(* ===== verification/Wire.v ===== *)
(** Serialised commands: what the two batchers share (src/src/lib.rs,
    src/src/active_messaging.rs, src/src/active_messaging/batching.rs and
    src/src/active_messaging/registered_active_message.rs).

    Serialisation itself is bincode's: a [Codec] is a parameter of the model, and
    [CodecLaws] states what bincode documents (a value is read back from any
    buffer that starts with its bytes) and what the runtime relies on for its
    headers (all values of a header type have the same length). *)

From stdpp Require Import base list numbers.
From Stdlib Require Import ZArith Lia.
From S2P Require Import Prelude.

Local Open Scope nat_scope.

(** The bytes of a message; nothing here depends on what a byte is. *)
Class Codec (byte A : Type) := {
  encode : A -> list byte;
  decode : list byte -> option A;
}.

Class CodecLaws (byte A : Type) `{Codec byte A} :=
  decode_encode : forall (a : A) rest, decode (encode a ++ rest) = Some a.

(** Header types: [HEADER_LEN] is the length of the default value. *)
Class Header (byte A : Type) `{Codec byte A} := {
  header_default : A;
  header_len : forall a : A, length (encode (byte := byte) a) = length (encode header_default);
  header_pos : 0 < length (encode (byte := byte) header_default);
}.

Definition HEADER_LEN {byte} (A : Type) `{Header byte A} : nat := length (encode (header_default (A := A))).

Lemma HEADER_LEN_eq {byte A} `{Header byte A} (a : A) : HEADER_LEN (byte := byte) A = length (encode a).
Proof. symmetry. apply header_len. Qed.

Lemma header_length {byte A} `{Header byte A} (a : A) : length (encode (byte := byte) a) = HEADER_LEN (byte := byte) A.
Proof. apply header_len. Qed.

Lemma app_header_ne {byte A} `{Header byte A} (a : A) (rest : list byte) : encode a ++ rest <> [].
Proof.
  intros E. apply (f_equal length) in E. rewrite length_app, header_len in E.
  pose proof (header_pos (byte := byte) (A := A)). cbn in E. lia.
Qed.

(** ** The data of a message *)
Inductive Cmd := CmdAm | CmdReturnAm | CmdData | CmdUnit | CmdBatchedMsg.

#[global] Instance Cmd_eq_dec : EqDecision Cmd.
Proof. solve_decision. Defined.

Record ReqId := { id : Z; sub_id : Z }.
Record AmHeader := { am_id : Z; team_addr : Z; am_req_id : ReqId }.
Record DataHeader := { data_size : nat; data_req_id : ReqId; darc_list_size : nat }.
Record UnitHeader := { unit_req_id : ReqId }.

(** The fields of [ReqMetaData] that a command depends on: the request, the
    team's address, the PE the result is attributed to, where it goes ([None]:
    every other PE of the team) and the PEs of the team. *)
Record ReqMetaData := {
  rid : ReqId;
  rteam : Z;
  src : Z;
  dst : option Z;
  arch : list Z;
}.

(** [LamellarData]: an active message, a returned one, result data with the
    list of darcs it contains, or nothing but the completion. *)
Inductive LamellarData (am result darcs : Type) :=
| DAm (a : am) (id : Z)
| DReturn (a : am) (id : Z)
| DData (r : result) (ds : darcs) (darc_list_size : nat)
| DUnit.
Arguments DAm {_ _ _}.
Arguments DReturn {_ _ _}.
Arguments DData {_ _ _}.
Arguments DUnit {_ _ _}.

(** What the receiving PE does with a command. *)
Inductive Exec (byte am darcs : Type) :=
| ExecAm (team : Z) (req : ReqId) (a : am)
| ExecReturnAm (team : Z) (req : ReqId) (a : am)
| ExecData (req : ReqId) (data : list byte) (ds : darcs)
| ExecUnit (req : ReqId).
Arguments ExecAm {_ _ _}.
Arguments ExecReturnAm {_ _ _}.
Arguments ExecData {_ _ _}.
Arguments ExecUnit {_ _ _}.

(** Active messages and results are the user's types: their serialisation is
    generated.  [unpack] is the table [AMS_EXECS]. *)
Class AmCodec (byte am result : Type) := {
  am_bytes : am -> list byte;
  get_id : am -> Z;
  unpack : Z -> option (list byte -> outcome am);
  result_bytes : result -> list byte;
}.

Class AmCodecLaws (byte am result : Type) `{AmCodec byte am result} :=
  unpack_bytes : forall a rest, exists f,
    unpack (get_id a) = Some f /\ f (am_bytes a ++ rest) = Done a.

Definition am_serialized_size {byte am result} `{AmCodec byte am result} (a : am) : nat :=
  length (am_bytes a).

(** ** Slices *)
Section Slices.
Context {byte : Type}.
Implicit Types buf data : list byte.

(** [serialize_into(&mut buf[i..i + len], obj).unwrap()]: out of the buffer or
    too little room is a panic; the bytes after the object stay. *)
Definition write (buf : list byte) (i len : nat) (obj : list byte) : outcome (list byte) :=
  if (i + len <=? length buf) && (length obj <=? len)
  then Done (take i buf ++ obj ++ drop (i + length obj) buf) else Panic.

(** [&data[i..i + len]] and [&data[i..]]. *)
Definition slice (data : list byte) (i len : nat) : outcome (list byte) :=
  if i + len <=? length data then Done (take len (drop i data)) else Panic.
Definition slice_from (data : list byte) (i : nat) : outcome (list byte) :=
  if i <=? length data then Done (drop i data) else Panic.

(** [deserialize(&data[i..i + HEADER_LEN]).unwrap()]. *)
Definition read_header (A : Type) `{Header byte A} (data : list byte) (i : nat) : outcome A :=
  let! s := slice data i (HEADER_LEN A) in unwrap (decode s).

Definition write_header {A : Type} `{Header byte A} (buf : list byte) (i : nat) (a : A) : outcome (list byte) :=
  write buf i (HEADER_LEN A) (encode a).

(** [done_] has been written to the front of a buffer in which [n] bytes are left. *)
Definition filled (done_ : list byte) (n : nat) (buf : list byte) (i : nat) : Prop :=
  i = length done_ /\ exists junk, buf = done_ ++ junk /\ length junk = n.

Lemma write_filled done_ n buf i len obj :
  filled done_ (len + n) buf i -> length obj = len ->
  exists buf', write buf i len obj = Done buf' /\ filled (done_ ++ obj) n buf' (i + len).
Proof.
  intros [-> (junk & -> & Hj)] Ho. unfold write. rewrite length_app, Hj, Ho.
  rewrite (proj2 (Nat.leb_le _ _)) by lia. rewrite Nat.leb_refl. cbn.
  eexists. split; [reflexivity|]. split; [rewrite length_app; lia|].
  exists (drop len junk). rewrite length_drop, Hj. split; [|lia].
  rewrite take_app_length, drop_app_ge by lia. rewrite <- app_assoc. repeat f_equal. lia.
Qed.

Lemma write_header_filled {A} `{Header byte A} done_ n buf i (a : A) :
  filled done_ (HEADER_LEN A + n) buf i ->
  exists buf', write_header buf i a = Done buf' /\ filled (done_ ++ encode a) n buf' (i + HEADER_LEN A).
Proof. intros Hf. apply write_filled; [done|]. apply header_len. Qed.

Lemma filled_0 done_ buf i : filled done_ 0 buf i -> buf = done_ /\ i = length done_.
Proof. intros [-> (junk & -> & Hj)]. apply nil_length_inv in Hj as ->. by rewrite app_nil_r. Qed.

Lemma slice_app pre x post len :
  len = length x -> slice (pre ++ x ++ post) (length pre) len = Done x.
Proof.
  intros ->. unfold slice. rewrite !length_app, (proj2 (Nat.leb_le _ _)) by lia.
  by rewrite drop_app_length, take_app_length.
Qed.

Lemma slice_from_app pre post : slice_from (pre ++ post) (length pre) = Done post.
Proof.
  unfold slice_from. rewrite length_app, (proj2 (Nat.leb_le _ _)) by lia. by rewrite drop_app_length.
Qed.

Lemma read_header_app {A} `{Header byte A} `{!CodecLaws byte A} pre (a : A) post :
  read_header A (pre ++ encode a ++ post) (length pre) = Done a.
Proof.
  unfold read_header. rewrite slice_app by (symmetry; apply header_len). cbn.
  rewrite <- (app_nil_r (encode a)). by rewrite decode_encode.
Qed.
End Slices.

(** ** Commands in a message *)

(** What the runtime hands to a batcher ([process_msg]). *)
Inductive Request (am result darcs : Type) :=
| ReqAm (a : am)
| ReqReturn (a : am)
| ReqData (r : result) (ds : darcs)
| ReqUnit.
Arguments ReqAm {_ _ _}.
Arguments ReqReturn {_ _ _}.
Arguments ReqData {_ _ _}.
Arguments ReqUnit {_ _ _}.

(** A loop over [l] whose body may panic. *)
Fixpoint for_each {A S} (f : S -> A -> outcome S) (s : S) (l : list A) : outcome S :=
  match l with [] => Done s | x :: l => let! s := f s x in for_each f s l end.

(** A subtraction that is checked ([usize]). *)
Definition sub (a b : nat) : outcome nat := if b <=? a then Done (a - b) else Panic.

(** The PEs [send_to_pes_async(batch.pe, arch, ...)] of PE [my_pe] sends to: the
    destination of the batch, or every other PE of the team whose [arch] it is
    given. *)
Definition targets (my_pe : Z) (req : ReqMetaData) : list Z :=
  match dst req with Some p => [p] | None => filter (fun p => p <> my_pe) (arch req) end.

Section Messages.
Context {byte am result darcs : Type}.
Context `{AmCodec byte am result} `{!Codec byte darcs}.
Context `{!Codec byte DataHeader} `{!Header byte DataHeader}.
Context `{!Codec byte UnitHeader} `{!Header byte UnitHeader}.
Context `{!Codec byte AmHeader} `{!Header byte AmHeader}.
Abbreviation Execs := (list (Exec byte am darcs)).

(** [AMS_EXECS.get(&am_id).unwrap()(&data[i..])], and the index behind the
    active message. *)
Definition unpack_am (data : list byte) (i : nat) (am_id : Z) : outcome (am * nat) :=
  let! f := unwrap (unpack am_id) in
  let! s := slice_from data i in
  let! a := f s in
  Done (a, i + am_serialized_size a).

(** [exec_am] and [exec_return_am], up to the execution. *)
Definition exec_am (data : list byte) (i : nat) : outcome (nat * Execs) :=
  let! h := read_header AmHeader data i in
  let! (a, i) := unpack_am data (i + HEADER_LEN AmHeader) (am_id h) in
  Done (i, [ExecAm (team_addr h) (am_req_id h) a]).

Definition exec_return_am (data : list byte) (i : nat) : outcome (nat * Execs) :=
  let! h := read_header AmHeader data i in
  let! (a, i) := unpack_am data (i + HEADER_LEN AmHeader) (am_id h) in
  Done (i, [ExecReturnAm (team_addr h) (am_req_id h) a]).

(** [exec_data_am] and [exec_unit_am]. *)
Definition exec_data_am (data : list byte) (i : nat) : outcome (nat * Execs) :=
  let! h := read_header DataHeader data i in
  let i := i + HEADER_LEN DataHeader in
  let! s := slice data i (darc_list_size h) in
  let! ds := unwrap (decode s) in
  let i := i + darc_list_size h in
  let! d := slice data i (Wire.data_size h) in
  Done (i + Wire.data_size h, [ExecData (data_req_id h) d ds]).

Definition exec_unit_am (data : list byte) (i : nat) : outcome (nat * Execs) :=
  let! h := read_header UnitHeader data i in
  Done (i + HEADER_LEN UnitHeader, [ExecUnit (unit_req_id h)]).

(** The loop of [exec_batched_msg]: [f] runs the command at [i]. *)
Fixpoint exec_loop (f : list byte -> nat -> outcome (nat * Execs)) (fuel : nat) (data : list byte) (i : nat) :
    outcome Execs :=
  if i <? length data then
    match fuel with
    | O => Panic
    | S fuel =>
      let! (i, es) := f data i in
      let! es' := exec_loop f fuel data i in
      Done (es ++ es')
    end
  else Done [].

(** The command a request becomes on the other side. *)
Definition exec_of_request (req : ReqMetaData) (r : Request am result darcs) : Exec byte am darcs :=
  match r with
  | ReqAm a => ExecAm (rteam req) (rid req) a
  | ReqReturn a => ExecReturnAm (rteam req) (rid req) a
  | ReqData d ds => ExecData (rid req) (result_bytes d) ds
  | ReqUnit => ExecUnit (rid req)
  end.

(** *** Writing *)
Definition fill (done_ : list byte) (n : nat) (st : list byte * nat) : Prop := filled done_ n st.1 st.2.

Lemma for_each_fill {A} (f : list byte * nat -> A -> outcome (list byte * nat)) (g : A -> list byte) l done_ n st :
  (forall x done_ n st, x ∈ l -> fill done_ (length (g x) + n) st ->
     exists st', f st x = Done st' /\ fill (done_ ++ g x) n st') ->
  fill done_ (length (concat (map g l)) + n) st ->
  exists st', for_each f st l = Done st' /\ fill (done_ ++ concat (map g l)) n st'.
Proof.
  revert done_ st. induction l as [|x l IH]; intros done_ st Hf Hst; cbn in *.
  - exists st. by rewrite app_nil_r.
  - rewrite length_app, <- Nat.add_assoc in Hst.
    destruct (Hf x done_ _ st ltac:(left) Hst) as (st1 & E1 & F1). rewrite E1.
    destruct (IH (done_ ++ g x) st1) as (st2 & E2 & F2); [|exact F1|].
    + intros y ? ? ? Hy. apply Hf. by right.
    + exists st2. split; [done|]. by rewrite app_assoc.
Qed.

(** One more header or object at the end of what is written. *)
Lemma header_fill {A} `{Header byte A} done_ n buf i (a : A) :
  fill done_ (length (encode (byte := byte) a) + n) (buf, i) ->
  exists buf', write_header buf i a = Done buf' /\ fill (done_ ++ encode a) n (buf', i + HEADER_LEN A).
Proof. intros Hf. apply (write_header_filled done_ n). unfold fill in Hf. cbn in Hf. by rewrite header_len in Hf. Qed.

Lemma object_fill done_ n buf i obj len :
  fill done_ (length obj + n) (buf, i) -> len = length obj ->
  exists buf', write buf i len obj = Done buf' /\ fill (done_ ++ obj) n (buf', i + len).
Proof. intros Hf ->. by apply write_filled. Qed.

Lemma fill_0 buf n : length buf = n -> fill [] n (buf, 0).
Proof. intros Hn. split; [done|]. by exists buf. Qed.

(** *** Reading *)

(** [f] consumes [x], found at its position in [data], and yields [es]. *)
Definition consumes (f : list byte -> nat -> outcome (nat * Execs)) (x : list byte) (es : Execs) : Prop :=
  forall pre post, f (pre ++ x ++ post) (length pre) = Done (length pre + length x, es).

Lemma consumes_header {A} `{Header byte A} `{!CodecLaws byte A} (a : A) f x es :
  consumes (f a) x es ->
  consumes (fun data i => let! h := read_header A data i in f h data (i + HEADER_LEN A)) (encode a ++ x) es.
Proof.
  intros Hf pre post. rewrite <- app_assoc, read_header_app, app_assoc.
  rewrite (HEADER_LEN_eq a), <- length_app, Hf. rewrite !length_app. f_equal. f_equal. lia.
Qed.

(** An active message, followed by what is done with it. *)
Lemma consumes_am `{!AmCodecLaws byte am result} (a : am) (e : am -> Exec byte am darcs) :
  consumes (fun data i => let! (a, i) := unpack_am data i (get_id a) in Done (i, [e a])) (am_bytes a) [e a].
Proof.
  intros pre post. unfold unpack_am. destruct (unpack_bytes a post) as (f & Ef & Hf).
  rewrite Ef. cbn. rewrite slice_from_app, Hf. cbn. done.
Qed.

Lemma exec_data_am_consumes `{!CodecLaws byte darcs} `{!CodecLaws byte DataHeader} req (r : result) ds :
  consumes exec_data_am
    (encode {| Wire.data_size := length (result_bytes r); data_req_id := req;
               darc_list_size := length (encode (byte := byte) ds) |} ++ encode ds ++ result_bytes r)
    [ExecData req (result_bytes r) ds].
Proof.
  apply (consumes_header _ (fun h data i =>
      let! s := slice data i (darc_list_size h) in
      let! ds := unwrap (decode s) in
      let i := i + darc_list_size h in
      let! d := slice data i (Wire.data_size h) in
      Done (i + Wire.data_size h, [ExecData (data_req_id h) d ds]))).
  intros pre post. cbn. rewrite <- app_assoc, slice_app by done. cbn.
  rewrite <- (app_nil_r (encode ds)) at 1. rewrite decode_encode. cbn.
  rewrite app_assoc, <- length_app, slice_app by done. rewrite !length_app. f_equal. f_equal. lia.
Qed.

Lemma exec_unit_am_consumes `{!CodecLaws byte UnitHeader} req :
  consumes exec_unit_am (encode {| unit_req_id := req |}) [ExecUnit req].
Proof.
  intros pre post. unfold exec_unit_am. rewrite read_header_app. cbn.
  by rewrite (HEADER_LEN_eq {| unit_req_id := req |}).
Qed.

Lemma exec_am_consumes_header `{!AmCodecLaws byte am result} `{!CodecLaws byte AmHeader} team req (a : am) :
  consumes exec_am (encode {| am_id := get_id a; team_addr := team; am_req_id := req |} ++ am_bytes a)
    [ExecAm team req a].
Proof.
  apply (consumes_header _ (fun h data i =>
    let! (a, i) := unpack_am data i (am_id h) in Done (i, [ExecAm (team_addr h) (am_req_id h) a]))).
  apply (consumes_am a (ExecAm team req)).
Qed.

Lemma exec_return_am_consumes_header `{!AmCodecLaws byte am result} `{!CodecLaws byte AmHeader} team req (a : am) :
  consumes exec_return_am (encode {| am_id := get_id a; team_addr := team; am_req_id := req |} ++ am_bytes a)
    [ExecReturnAm team req a].
Proof.
  apply (consumes_header _ (fun h data i =>
    let! (a, i) := unpack_am data i (am_id h) in Done (i, [ExecReturnAm (team_addr h) (am_req_id h) a]))).
  apply (consumes_am a (ExecReturnAm team req)).
Qed.

(** The loop runs the commands one after the other. *)
Lemma exec_loop_segments f (segs : list (list byte * Execs)) pre fuel :
  (forall x es, (x, es) ∈ segs -> consumes f x es /\ x <> []) -> length segs <= fuel ->
  exec_loop f fuel (pre ++ concat (map fst segs)) (length pre) = Done (concat (map snd segs)).
Proof.
  revert pre fuel. induction segs as [|[x es] segs IH]; intros pre fuel Hs Hf;
    (destruct fuel as [|fuel]; cbn [length] in Hf; [try lia|]); cbn [exec_loop map concat fst snd].
  1, 2: by rewrite app_nil_r, Nat.ltb_irrefl.
  destruct (Hs x es ltac:(left)) as [Hc Hx].
  assert (0 < length x) by (destruct x; cbn; [done|lia]).
  rewrite !length_app, (proj2 (Nat.ltb_lt _ _)) by lia.
  rewrite Hc, app_assoc, <- length_app, IH; [done| |lia]. intros y es' Hy. apply Hs. by right.
Qed.

Lemma exec_loop_all f (segs : list (list byte * Execs)) :
  (forall x es, (x, es) ∈ segs -> consumes f x es /\ x <> []) ->
  exec_loop f (length (concat (map fst segs))) (concat (map fst segs)) 0 = Done (concat (map snd segs)).
Proof.
  intros Hs. apply (exec_loop_segments f segs []); [done|].
  induction segs as [|[x es] segs IH]; cbn; [lia|]. rewrite length_app.
  destruct (Hs x es ltac:(left)) as [_ Hx]. assert (0 < length x) by (destruct x; cbn; [done|lia]).
  assert (length segs <= length (concat (map fst segs))); [|lia].
  apply IH. intros y es' Hy. apply Hs. by right.
Qed.
End Messages.
