(* ===== verification/ConcreteCodec.v ===== *)
(** A concrete serialisation, one number per field: the parameters of Wire.v
    instantiated, for the examples of the batchers. *)

From stdpp Require Import base list numbers.
From Stdlib Require Import ZArith Lia.
From S2P Require Import Prelude Wire.

Local Open Scope nat_scope.

Module Concrete.
Definition cmd_num (c : Cmd) : Z :=
  match c with CmdAm => 0 | CmdReturnAm => 1 | CmdData => 2 | CmdUnit => 3 | CmdBatchedMsg => 4 end.
Definition num_cmd (z : Z) : Cmd :=
  match z with 0%Z => CmdAm | 1%Z => CmdReturnAm | 2%Z => CmdData | 3%Z => CmdUnit | _ => CmdBatchedMsg end.
Lemma num_cmd_num c : num_cmd (cmd_num c) = c.
Proof. by destruct c. Qed.

(** Active messages are numbers of two types (odd and even). *)
#[export] Instance am_codec : AmCodec Z Z (list Z) := {
  am_bytes a := [a];
  get_id a := Z.modulo a 2;
  unpack i := Some (fun s => match s with x :: _ => Done x | [] => Panic end);
  result_bytes r := r;
}.
#[export] Instance darcs_codec : Codec Z (list Z) := {
  encode l := Z.of_nat (length l) :: l;
  decode s := match s with n :: s => Some (take (Z.to_nat n) s) | [] => None end;
}.
#[export] Instance req_codec : Codec Z ReqId := {
  encode r := [id r; sub_id r];
  decode s := match s with a :: b :: _ => Some {| id := a; sub_id := b |} | _ => None end;
}.
#[export] Instance data_codec : Codec Z DataHeader := {
  encode h := [Z.of_nat (Wire.data_size h); id (data_req_id h); sub_id (data_req_id h); Z.of_nat (darc_list_size h)];
  decode s := match s with
              | n :: a :: b :: d :: _ =>
                Some {| Wire.data_size := Z.to_nat n; data_req_id := {| id := a; sub_id := b |};
                        darc_list_size := Z.to_nat d |}
              | _ => None end;
}.
#[export] Instance unit_codec : Codec Z UnitHeader := {
  encode h := [id (unit_req_id h); sub_id (unit_req_id h)];
  decode s := match s with a :: b :: _ => Some {| unit_req_id := {| id := a; sub_id := b |} |} | _ => None end;
}.

Definition no_req : ReqId := {| id := 0; sub_id := 0 |}.
#[export] Program Instance req_header : Header Z ReqId := {| header_default := no_req |}.
Solve All Obligations with (cbn; done || lia).
#[export] Program Instance data_header : Header Z DataHeader :=
  {| header_default := {| Wire.data_size := 0; data_req_id := no_req; darc_list_size := 0 |} |}.
Solve All Obligations with (cbn; done || lia).
#[export] Program Instance unit_header : Header Z UnitHeader := {| header_default := {| unit_req_id := no_req |} |}.
Solve All Obligations with (cbn; done || lia).

#[export] Instance am_codec_laws : AmCodecLaws Z Z (list Z).
Proof. intros a rest. by eexists. Defined.
#[export] Instance darcs_laws : CodecLaws Z (list Z).
Proof. intros l rest. cbn. by rewrite Nat2Z.id, take_app_length. Defined.
#[export] Instance req_laws : CodecLaws Z ReqId.
Proof. by intros [] rest. Defined.
#[export] Instance data_laws : CodecLaws Z DataHeader.
Proof. intros [? [] ?] rest. cbn. by rewrite !Nat2Z.id. Defined.
#[export] Instance unit_laws : CodecLaws Z UnitHeader.
Proof. by intros [[]] rest. Defined.

Definition request (i team : Z) (d : option Z) (pes : list Z) : ReqMetaData :=
  {| rid := {| id := i; sub_id := 0 |}; rteam := team; src := 0; dst := d; arch := pes |}.
Definition requests : list (ReqMetaData * Request Z (list Z) (list Z)) :=
  [(request 1 10 (Some 1%Z) [0; 1]%Z, ReqAm 4%Z); (request 2 10 (Some 1%Z) [0; 1]%Z, ReqAm 6%Z);
   (request 3 20 (Some 1%Z) [0; 1; 2]%Z, ReqReturn 5%Z); (request 4 10 (Some 1%Z) [0; 1]%Z, ReqData [7; 8]%Z [9%Z]);
   (request 5 10 (Some 1%Z) [0; 1]%Z, ReqUnit)].

(** To every other PE of two teams that differ. *)
Definition to_all : list (ReqMetaData * Request Z (list Z) (list Z)) :=
  [(request 1 10 None [0; 1]%Z, ReqAm 4%Z); (request 2 20 None [0; 2]%Z, ReqAm 6%Z)].

#[export] Instance cmd_codec : Codec Z Cmd := {
  encode c := [cmd_num c];
  decode s := match s with c :: _ => Some (num_cmd c) | [] => None end;
}.
#[export] Instance am_header_codec : Codec Z AmHeader := {
  encode h := [am_id h; team_addr h; id (am_req_id h); sub_id (am_req_id h)];
  decode s := match s with
              | a :: t :: i :: j :: _ => Some {| am_id := a; team_addr := t; am_req_id := {| id := i; sub_id := j |} |}
              | _ => None end;
}.
#[export] Program Instance cmd_header : Header Z Cmd := {| header_default := CmdAm |}.
Solve All Obligations with (cbn; done || lia).
#[export] Program Instance am_header : Header Z AmHeader :=
  {| header_default := {| am_id := 0; team_addr := 0; am_req_id := no_req |} |}.
Solve All Obligations with (cbn; done || lia).
#[export] Instance cmd_laws : CodecLaws Z Cmd.
Proof. intros c rest. cbn. by rewrite num_cmd_num. Defined.
#[export] Instance am_header_laws : CodecLaws Z AmHeader.
Proof. by intros [? ? []] rest. Defined.
End Concrete.
