(* ===== verification/DirectMsg.v ===== *)
(** Messages that are not batched (src/src/active_messaging/registered_active_message.rs):
    [send_am], [send_data_am] and [send_unit_am] on the sending PE, [exec_msg] on
    the receiving one. *)

From stdpp Require Import base list numbers.
From Stdlib Require Import ZArith Lia.
From S2P Require Import Prelude Wire ConcreteCodec.

Local Open Scope nat_scope.


Section Direct.
Context {byte am result darcs : Type}.
Context `{AmCodec byte am result} `{!Codec byte darcs}.
Context `{!Codec byte AmHeader} `{!Header byte AmHeader}.
Context `{!Codec byte DataHeader} `{!Header byte DataHeader}.
Context `{!Codec byte UnitHeader} `{!Header byte UnitHeader}.
Abbreviation Execs := (list (Exec byte am darcs)).
Abbreviation LEN := (HEADER_LEN (byte := byte)).

(** [buf] is the memory [create_data_buf] returns, whatever it holds. *)
Definition send_am (req : ReqMetaData) (a : am) (buf : list byte) : outcome (list byte) :=
  let! buf := write_header buf 0 {| am_id := get_id a; team_addr := rteam req; am_req_id := rid req |} in
  let i := LEN AmHeader in
  write buf i (length buf - i) (am_bytes a).

Definition send_data_am (req : ReqMetaData) (r : result) (ds : darcs) (buf : list byte) : outcome (list byte) :=
  let dl := length (encode (byte := byte) ds) in
  let! buf := write_header buf 0
    {| data_size := length (result_bytes r); data_req_id := rid req; darc_list_size := dl |} in
  let i := LEN DataHeader in
  let! buf := write buf i dl (encode ds) in
  let i := i + dl in
  write buf i (length buf - i) (result_bytes r).

Definition send_unit_am (req : ReqMetaData) (buf : list byte) : outcome (list byte) :=
  write_header buf 0 {| unit_req_id := rid req |}.

(** The command in the header of the message, the size of its buffer and its
    contents. *)
Definition direct_cmd (r : Request am result darcs) : Cmd :=
  match r with ReqAm _ => CmdAm | ReqReturn _ => CmdReturnAm | ReqData _ _ => CmdData | ReqUnit => CmdUnit end.

Definition direct_size (r : Request am result darcs) : nat :=
  match r with
  | ReqAm a | ReqReturn a => am_serialized_size a + LEN AmHeader
  | ReqData d ds => length (result_bytes d) + length (encode (byte := byte) ds) + LEN DataHeader
  | ReqUnit => LEN UnitHeader
  end.

Definition send_direct (req : ReqMetaData) (r : Request am result darcs) (buf : list byte) : outcome (list byte) :=
  match r with
  | ReqAm a | ReqReturn a => send_am req a buf
  | ReqData d ds => send_data_am req d ds buf
  | ReqUnit => send_unit_am req buf
  end.

(** [exec_msg]; [batched] is the batcher's [exec_batched_msg]. *)
Definition exec_msg (batched : list byte -> outcome Execs) (cmd : Cmd) (data : list byte) : outcome Execs :=
  match cmd with
  | CmdAm => let! (_, es) := exec_am data 0 in Done es
  | CmdReturnAm => let! (_, es) := exec_return_am data 0 in Done es
  | CmdData => let! (_, es) := exec_data_am data 0 in Done es
  | CmdUnit => let! (_, es) := exec_unit_am data 0 in Done es
  | CmdBatchedMsg => batched data
  end.

(** [am_size < BATCH_AM_SIZE && !immediate]: what [process_msg] gives to the
    batcher and what it sends itself. *)
Definition goes_to_batcher (immediate : bool) (r : Request am result darcs) : bool :=
  match r with
  | ReqAm a | ReqReturn a => Z.of_nat (am_serialized_size a) <? BATCH_AM_SIZE
  | ReqData d _ => Z.of_nat (length (result_bytes d)) <? BATCH_AM_SIZE
  | ReqUnit => Z.of_nat (LEN UnitHeader) <? BATCH_AM_SIZE
  end%Z && negb immediate.

Definition direct_bytes (req : ReqMetaData) (r : Request am result darcs) : list byte :=
  match r with
  | ReqAm a | ReqReturn a =>
    encode {| am_id := get_id a; team_addr := rteam req; am_req_id := rid req |} ++ am_bytes a
  | ReqData d ds =>
    encode {| data_size := length (result_bytes d); data_req_id := rid req;
              darc_list_size := length (encode (byte := byte) ds) |} ++ encode ds ++ result_bytes d
  | ReqUnit => encode {| unit_req_id := rid req |}
  end.

Lemma write_rest done_ buf i (obj : list byte) :
  fill done_ (length obj) (buf, i) -> write buf i (length buf - i) obj = Done (done_ ++ obj).
Proof.
  unfold fill. cbn [fst snd]. intros [-> (junk & -> & Hj)]. unfold write. rewrite !length_app, Hj.
  rewrite !(proj2 (Nat.leb_le _ _)) by lia. cbn. rewrite take_app_length.
  rewrite drop_ge by (rewrite length_app; lia). by rewrite app_nil_r.
Qed.

Lemma send_direct_bytes req r buf :
  length buf = direct_size r -> send_direct req r buf = Done (direct_bytes req r).
Proof.
  assert (Ham : forall a, length buf = am_serialized_size a + LEN AmHeader ->
    send_am req a buf = Done (direct_bytes req (ReqAm a))).
  { intros a Hb. unfold send_am.
    destruct (header_fill [] (length (am_bytes a)) buf 0
                {| am_id := get_id a; team_addr := rteam req; am_req_id := rid req |}) as (b1 & -> & F1).
    - apply fill_0. rewrite (header_length (A := AmHeader)). unfold am_serialized_size in Hb. lia.
    - rewrite Nat.add_0_l in F1. by apply write_rest in F1. }
  destruct r as [a|a|d ds|]; cbn; intros Hb; [by apply Ham..| |].
  - unfold send_data_am.
    destruct (header_fill [] (length (encode (byte := byte) ds) + length (result_bytes d)) buf 0
                {| data_size := length (result_bytes d); data_req_id := rid req;
                   darc_list_size := length (encode (byte := byte) ds) |}) as (b1 & -> & F1).
    + apply fill_0. rewrite (header_length (A := DataHeader)). lia.
    + rewrite Nat.add_0_l in F1. destruct (object_fill _ _ _ _ _ _ F1 eq_refl) as (b2 & -> & F2).
      apply write_rest in F2. rewrite F2. cbn. by rewrite <- app_assoc.
  - unfold send_unit_am.
    destruct (header_fill [] 0 buf 0 {| unit_req_id := rid req |}) as (b1 & -> & F1).
    + apply fill_0. rewrite (header_length (A := UnitHeader)). lia.
    + unfold fill in F1. cbn in F1. by apply filled_0 in F1 as [-> _].
Qed.

Context `{!AmCodecLaws byte am result} `{!CodecLaws byte darcs}.
Context `{!CodecLaws byte AmHeader} `{!CodecLaws byte DataHeader} `{!CodecLaws byte UnitHeader}.

Lemma consumes_all f (x : list byte) (es : Execs) :
  consumes f x es -> f x 0 = Done (length x, es).
Proof. intros Hf. specialize (Hf [] []). by rewrite app_nil_r in Hf. Qed.

(** a command that is sent on its own arrives: serialisation into any buffer
    of the size that was asked for does not panic, and the receiving PE starts
    the command it stands for, as it does when the command is batched. *)
Theorem direct_roundtrip batched req (r : Request am result darcs) buf (Hbuf : length buf = direct_size r) :
  exists bytes, send_direct req r buf = Done bytes /\
    exec_msg batched (direct_cmd r) bytes = Done [exec_of_request req r].
Proof.
  exists (direct_bytes req r). split; [by apply send_direct_bytes|].
  destruct r as [a|a|d ds|]; cbn.
  - by rewrite (consumes_all _ _ _ (exec_am_consumes_header (rteam req) (rid req) a)).
  - by rewrite (consumes_all _ _ _ (exec_return_am_consumes_header (rteam req) (rid req) a)).
  - by rewrite (consumes_all _ _ _ (exec_data_am_consumes (rid req) d ds)).
  - by rewrite (consumes_all _ _ _ (exec_unit_am_consumes (rid req))).
Qed.
End Direct.

Import Concrete.
Lemma direct_roundtrip_witness :
  length [0; 0; 0; 0; 0; 0; 0; 0]%Z = direct_size (am := Z) (ReqData [7; 8]%Z [9]%Z) /\
  exists bytes, send_direct (am := Z) (request 4 10 (Some 1) [0; 1])%Z (ReqData [7; 8]%Z [9]%Z) [0; 0; 0; 0; 0; 0; 0; 0]%Z = Done bytes /\
    exec_msg (fun _ => Panic) CmdData bytes = Done [exec_of_request (request 4 10 (Some 1) [0; 1])%Z (ReqData [7; 8] [9])%Z].
Proof.
  split; [reflexivity|].
  exact (direct_roundtrip (am := Z) (fun _ => Panic) (request 4 10 (Some 1) [0; 1])%Z (ReqData [7; 8]%Z [9]%Z)
           [0; 0; 0; 0; 0; 0; 0; 0]%Z eq_refl).
Defined.
