(* ===== verification/ActiveMessages.v ===== *)
(** The life of an active message: launching it (src/src/lamellar_team.rs,
    src/src/lamellar_task_group.rs), carrying it to its PEs and its result back
    (src/src/active_messaging/registered_active_message.rs, [process_msg] and the
    [exec_*]), completing its request and the counters [wait_all] waits for
    (src/src/lamellar_request.rs, src/src/active_messaging.rs).

    The state is that of one PE, [me], and of one of its teams; the other PEs
    only execute.  Every atomic operation of a launch and of a completion is a
    step, and all launches, executions and completions interleave. *)

From stdpp Require Import base list numbers gmap relations.
From Stdlib Require Import ZArith Lia.
From S2P Require Import Prelude Wire DirectMsg.

Local Open Scope Z_scope.

(** The counters: of the world, of the team, of a task group or an array. *)
Inductive Ctr := CWorld | CTeam | CTg (g : Z).
#[global] Instance Ctr_eq_dec : EqDecision Ctr.
Proof. solve_decision. Defined.

(** Which function launches: [exec_am_pe], [exec_am_all] or [exec_am_local], of
    the team with the counters of its caller ([task_group_cnts]) or of a task
    group. *)
Inductive ReqKind := KPe | KAll | KLocal.
#[global] Instance ReqKind_eq_dec : EqDecision ReqKind.
Proof. solve_decision. Defined.
Inductive Owner := ByTeam (tg : option Z) | ByGroup (g : Z).

(** The atomic operations of a launch, in the order of the code. *)
Inductive Op := OAdd (c : Ctr) | OAssert | OAlloc | OCnt (g : Z) | OStrong (g : Z) | OSub (g : Z) | OSubmit.
#[global] Instance Op_eq_dec : EqDecision Op.
Proof. solve_decision. Defined.

(** Where [send_data_to_user_handle] is. *)
Inductive Stage := RHeld | RData | RReady | RTeam | RWorld | RTg | RArc.

(** What the body of an active message returns, and what the code that the [am]
    macro generates makes of it (impl/src/gen_am.rs). *)
Inductive Output (am result : Type) := OUnit | OData (d : result) | OAm (a : am).
Inductive LamellarReturn (am result : Type) :=
| LocalData (d : result) | LocalAm (a : am) | RemoteData (d : result) | RemoteAm (a : am) | RetUnit.
Arguments OUnit {am result}.
Arguments OData {am result} d.
Arguments OAm {am result} a.
Arguments LocalData {am result} d.
Arguments LocalAm {am result} a.
Arguments RemoteData {am result} d.
Arguments RemoteAm {am result} a.
Arguments RetUnit {am result}.

(** What a run depends on: the types of the program with their serialisation,
    the bodies of the active messages on each PE ([user]), this PE ([me]), the
    PEs of the team in the order of the team, its address, whether the backend is
    the local one, the task groups (which outlive the run) and the objects of each
    ([id], [multi_id] and [local_id]). *)
Class Env := {
  byte : Type;
  am : Type;
  result : Type;
  darcs : Type;
  env_codec :: AmCodec byte am result;
  env_unit_codec :: Codec byte UnitHeader;
  env_unit_header :: Header byte UnitHeader;
  darcs_of : result -> darcs;
  user : Z -> am -> Output am result;
  me : Z;
  pes : list Z;
  team : Z;
  backend_local : bool;
  groups : list Z;
  group_obj : Z -> ReqKind -> Z;
}.

Definition gen_return {am result} (local : bool) (o : Output am result) : LamellarReturn am result :=
  match o with
  | OUnit => RetUnit
  | OData d => if local then LocalData d else RemoteData d
  | OAm a => if local then LocalAm a else RemoteAm a
  end.

Section Life.
Context `{E : Env}.

Definition exec (pe : Z) (local : bool) (a : am) : LamellarReturn am result := gen_return local (user pe a).

Definition num_pes : Z := Z.of_nat (length pes).
Definition team_pe (p : Z) : option nat := fst <$> list_find (fun q => q = p) pes.
Definition world_pe (k : nat) : option Z := pes !! k.

(** *** Requests *)
Inductive InternalResult := RLocal (d : result) | RRemote (b : list byte) (ds : darcs) | RUnit.

(** The structures behind the handles ([LamellarRequestHandleInner] and so on);
    the three of a task group share its count of handles. *)
Inductive Handle :=
| HReq (ready : bool) (data : option InternalResult) (user_handle : bool)
| HMulti (cnt : Z) (data : gmap nat InternalResult) (user_handle : bool)
| HLocal (ready : bool) (data : option InternalResult) (user_handle : bool)
| HTask (g : Z) (data : gmap Z InternalResult)
| HTaskMulti (g : Z) (data : gmap Z (gmap nat InternalResult))
| HTaskLocal (g : Z) (data : gmap Z InternalResult).

(** The structure with the counter of its task group.  [asked] is not in the
    code: the active messages whose results are stored here, by sub-id, and
    their PEs. *)
Record Req := { handle : Handle; tg : option Z; asked : gmap Z (am * list Z) }.

(** A [LamellarRequestResult] on the heap, with the strong count that goes with
    its raw pointer and the structure it refers to (which the user's handle
    keeps alive, too). *)
Record Obj := { strong : Z; req : Z }.

Inductive Am :=
| AmAll (req : ReqMetaData) (a : am)
| AmRemote (req : ReqMetaData) (a : am)
| AmLocal (req : ReqMetaData) (a : am)
| AmReturn (req : ReqMetaData) (a : am)
| AmData (req : ReqMetaData) (d : result)
| AmUnit (req : ReqMetaData).

Record Launch := { lkind : ReqKind; lpe : nat; lam : am; lowner : Owner; lkeep : bool }.

Inductive Task :=
| Launching (l : Launch) (ops : list Op) (r : ReqId)
| UserHandle (id : Z)
| Process (p : Z) (immediate : bool) (m : Am)
| Transit (batched : bool) (from to : Z) (e : Exec byte am darcs)
| RunRemote (p : Z) (req : ReqMetaData) (a : am)
| RunLocal (p : Z) (req : ReqMetaData) (a : am)
| Result (r : ReqId) (pe : Z) (d : InternalResult) (st : Stage).

(** [log] is not in the code: the active messages that were run, and where. *)
Record St := {
  outstanding : Ctr -> Z;
  objs : gmap Z Obj;
  reqs : gmap Z Req;
  tg_cnt : Z -> Z;
  sub_ids : Z -> Z;
  tasks : list Task;
  log : list (Z * am);
}.

(** *** Launching *)
Definition num_results (k : ReqKind) : Z := match k with KAll => num_pes | _ => 1 end.

Definition add_send_req (tg : option Z) : list Op := match tg with Some g => [OAdd (CTg g)] | None => [] end.

(** The functions of the team; [tg] is [task_group_cnts]. *)
Definition exec_am_pe_tg (tg : option Z) : list Op :=
  add_send_req tg ++ [OAssert; OAlloc; OAdd CWorld; OAdd CTeam; OSubmit].
Definition exec_am_all_tg (tg : option Z) : list Op :=
  add_send_req tg ++ [OAlloc; OAdd CWorld; OAdd CTeam; OSubmit].
Definition exec_am_local_tg (tg : option Z) : list Op :=
  add_send_req tg ++ [OAlloc; OAdd CWorld; OAdd CTeam; OSubmit].

(** The functions of the task group [g]. *)
Definition exec_am_pe_inner (g : Z) : list Op :=
  [OAdd CTeam; OAdd CWorld; OAdd (CTg g); OCnt g; OStrong g; OSub g; OSubmit].
Definition exec_am_all_inner (g : Z) : list Op :=
  [OAdd CTeam; OAdd CWorld; OAdd (CTg g); OCnt g; OStrong g; OSub g; OSubmit].
Definition exec_arc_am_local_inner (g : Z) : list Op :=
  [OAdd CTeam; OAdd CWorld; OAdd (CTg g); OCnt g; OStrong g; OSub g; OSubmit].

Definition prog (l : Launch) : list Op :=
  match lowner l with
  | ByTeam tg =>
    match lkind l with KPe => exec_am_pe_tg tg | KAll => exec_am_all_tg tg | KLocal => exec_am_local_tg tg end
  | ByGroup g =>
    match lkind l with KPe => exec_am_pe_inner g | KAll => exec_am_all_inner g | KLocal => exec_arc_am_local_inner g end
  end.

Definition dests (l : Launch) : list Z :=
  match lkind l with
  | KPe => match world_pe (lpe l) with Some d => [d] | None => [] end
  | KAll => pes
  | KLocal => [me]
  end.

Definition new_handle (k : ReqKind) : Handle :=
  match k with
  | KPe => HReq false None true
  | KAll => HMulti num_pes ∅ true
  | KLocal => HLocal false None true
  end.

Definition new_group_handle (g : Z) (k : ReqKind) : Handle :=
  match k with KPe => HTask g ∅ | KAll => HTaskMulti g ∅ | KLocal => HTaskLocal g ∅ end.

Definition meta (r : ReqId) (d : option Z) : ReqMetaData :=
  {| rid := r; rteam := team; src := me; dst := d; arch := pes |}.

Definition am_of (l : Launch) (r : ReqId) : outcome Am :=
  match lkind l with
  | KPe => let! d := unwrap (world_pe (lpe l)) in Done (AmRemote (meta r (Some d)) (lam l))
  | KAll => Done (AmAll (meta r None) (lam l))
  | KLocal => Done (AmLocal (meta r (Some me)) (lam l))
  end.

Definition set_objs (s : St) (m : gmap Z Obj) : St :=
  {| outstanding := outstanding s; objs := m; reqs := reqs s; tg_cnt := tg_cnt s; sub_ids := sub_ids s;
     tasks := tasks s; log := log s |}.
Definition set_reqs (s : St) (m : gmap Z Req) : St :=
  {| outstanding := outstanding s; objs := objs s; reqs := m; tg_cnt := tg_cnt s; sub_ids := sub_ids s;
     tasks := tasks s; log := log s |}.
Definition add_ctr (s : St) (c : Ctr) (n : Z) : St :=
  {| outstanding := fun c' => if decide (c' = c) then wadd (outstanding s c) n else outstanding s c';
     objs := objs s; reqs := reqs s; tg_cnt := tg_cnt s; sub_ids := sub_ids s; tasks := tasks s; log := log s |}.
Definition add_tg_cnt (s : St) (g n : Z) : St :=
  {| outstanding := outstanding s; objs := objs s; reqs := reqs s; tg_cnt := upd (tg_cnt s) g (wadd (tg_cnt s g) n);
     sub_ids := sub_ids s; tasks := tasks s; log := log s |}.
Definition next_sub (s : St) (g : Z) : St :=
  {| outstanding := outstanding s; objs := objs s; reqs := reqs s; tg_cnt := tg_cnt s;
     sub_ids := upd (sub_ids s) g (wadd (sub_ids s g) 1); tasks := tasks s; log := log s |}.
Definition logged (s : St) (p : Z) (a : am) : St :=
  {| outstanding := outstanding s; objs := objs s; reqs := reqs s; tg_cnt := tg_cnt s; sub_ids := sub_ids s;
     tasks := tasks s; log := log s ++ [(p, a)] |}.
Definition with_tasks (s : St) (ts : list Task) : St :=
  {| outstanding := outstanding s; objs := objs s; reqs := reqs s; tg_cnt := tg_cnt s; sub_ids := sub_ids s;
     tasks := ts; log := log s |}.

Definition on_handle (q : Req) (h : Handle) : Req := {| handle := h; tg := tg q; asked := asked q |}.
Definition on_asked (q : Req) (m : gmap Z (am * list Z)) : Req := {| handle := handle q; tg := tg q; asked := m |}.

(** One operation of a launch; [fresh] is the address of a new object, [hid]
    names a new structure. *)
Definition launch_step (s : St) (fresh hid : Z) (l : Launch) (op : Op) (ops : list Op) (r : ReqId) :
    outcome (St * list Task) :=
  match op with
  | OAdd c => Done (add_ctr s c (num_results (lkind l)), [Launching l ops r])
  | OAssert => let! _ := assert_ (Z.of_nat (lpe l) <? num_pes) in Done (s, [Launching l ops r])
  | OAlloc =>
    let q := {| handle := new_handle (lkind l);
                tg := match lowner l with ByTeam tg => tg | ByGroup g => Some g end;
                asked := {[0 := (lam l, dests l)]} |} in
    Done (set_objs (set_reqs s (<[hid := q]> (reqs s)))
            (<[fresh := {| strong := num_results (lkind l); req := hid |}]> (objs s)),
          [Launching l ops {| id := fresh; sub_id := 0 |}])
  | OCnt g => Done (add_tg_cnt s g 1, [Launching l ops r])
  | OStrong g =>
    let i := group_obj g (lkind l) in
    let! o := unwrap (objs s !! i) in
    Done (set_objs s (<[i := {| strong := strong o + num_results (lkind l); req := req o |}]> (objs s)),
          [Launching l ops r])
  | OSub g =>
    let i := group_obj g (lkind l) in
    let! q := unwrap (reqs s !! i) in
    let sub := sub_ids s g in
    Done (set_reqs (next_sub s g) (<[i := on_asked q (<[sub := (lam l, dests l)]> (asked q))]> (reqs s)),
          [Launching l ops {| id := i; sub_id := sub |}])
  | OSubmit =>
    let! m := am_of l r in
    let! o := unwrap (objs s !! id r) in
    Done (s, Process me false m :: (if lkeep l then [] else [UserHandle (req o)]))
  end.

(** Dropping a handle. *)
Definition drop_handle (s : St) (i : Z) : outcome St :=
  let! q := unwrap (reqs s !! i) in
  Done (match handle q with
        | HReq ready data _ => set_reqs s (<[i := on_handle q (HReq ready data false)]> (reqs s))
        | HMulti cnt data _ => set_reqs s (<[i := on_handle q (HMulti cnt data false)]> (reqs s))
        | HLocal ready data _ => set_reqs s (<[i := on_handle q (HLocal ready data false)]> (reqs s))
        | HTask g _ | HTaskMulti g _ | HTaskLocal g _ => add_tg_cnt s g (-1)
        end).

(** *** Messages *)

(** [send_to_pes_async], for a batch or a message of its own: both deliver the
    command to every target (the theorems of TeamAmBatcher.v and DirectMsg.v). *)
Definition send (p : Z) (immediate : bool) (rq : ReqMetaData) (r : Request am result darcs) : list Task :=
  map (fun q => Transit (goes_to_batcher immediate r) p q (exec_of_request rq r)) (targets p rq).

Definition process_msg (p : Z) (immediate : bool) (m : Am) : list Task :=
  match m with
  | AmAll rq a =>
    (if negb backend_local && ((1 <? num_pes) || bool_decide (team_pe p = None))
     then send p immediate rq (ReqAm a) else []) ++
    (if bool_decide (team_pe (src rq) = None) then [] else [RunLocal p rq a])
  | AmRemote rq a =>
    if bool_decide (dst rq = Some (src rq)) then [RunLocal p rq a] else send p immediate rq (ReqAm a)
  | AmLocal rq a => [RunLocal p rq a]
  | AmReturn rq a => send p immediate rq (ReqReturn a)
  | AmData rq d => send p immediate rq (ReqData d (darcs_of d))
  | AmUnit rq => send p immediate rq ReqUnit
  end.

(** [exec_msg] and [exec_batched_msg]: what a command does on its PE. *)
Definition arrive (from to : Z) (e : Exec byte am darcs) : Task :=
  match e with
  | ExecAm t r a => RunRemote to {| rid := r; rteam := t; src := to; dst := Some from; arch := pes |} a
  | ExecReturnAm t r a => RunLocal to {| rid := r; rteam := t; src := from; dst := Some to; arch := pes |} a
  | ExecData r b ds => Result r from (RRemote b ds) RHeld
  | ExecUnit r => Result r from RUnit RHeld
  end.

Definition exec_am (p : Z) (rq : ReqMetaData) (a : am) : outcome Task :=
  match exec p false a with
  | RetUnit => Done (Process p false (AmUnit rq))
  | RemoteData d => Done (Process p false (AmData rq d))
  | RemoteAm a => Done (Process p false (AmReturn rq a))
  | LocalData _ | LocalAm _ => Panic
  end.

Definition exec_local_am (p : Z) (rq : ReqMetaData) (a : am) : outcome Task :=
  match exec p true a with
  | LocalData d => Done (Result (rid rq) (src rq) (RLocal d) RHeld)
  | LocalAm a => Done (RunLocal p rq a)
  | RetUnit => Done (Result (rid rq) (src rq) RUnit RHeld)
  | RemoteData _ | RemoteAm _ => Panic
  end.

(** *** Completion *)
Definition user_held (s : St) (h : Handle) : bool :=
  match h with
  | HReq _ _ u | HMulti _ _ u | HLocal _ _ u => u
  | HTask g _ | HTaskMulti g _ | HTaskLocal g _ => 0 <? tg_cnt s g
  end.

(** [add_result]: the data, and the signal that follows it. *)
Definition add_result_req (ready u : bool) (d : InternalResult) : outcome Handle := Done (HReq ready (Some d) u).
Definition add_result_multi (cnt : Z) (data : gmap nat InternalResult) (u : bool) (pe : Z) (d : InternalResult) : outcome Handle :=
  let! k := unwrap (team_pe pe) in Done (HMulti cnt (<[k := d]> data) u).
Definition add_result_local (ready u : bool) (d : InternalResult) : outcome Handle :=
  match d with RRemote _ _ => Panic | _ => Done (HLocal ready (Some d) u) end.
Definition add_result_task (g : Z) (data : gmap Z InternalResult) (sub : Z) (d : InternalResult) : outcome Handle :=
  Done (HTask g (<[sub := d]> data)).
Definition add_result_task_multi (g : Z) (data : gmap Z (gmap nat InternalResult)) (pe sub : Z) (d : InternalResult) : outcome Handle :=
  let! k := unwrap (team_pe pe) in
  Done (HTaskMulti g (<[sub := <[k := d]> (default ∅ (data !! sub))]> data)).
Definition add_result_task_local (g : Z) (data : gmap Z InternalResult) (sub : Z) (d : InternalResult) : outcome Handle :=
  match d with RRemote _ _ => Panic | _ => Done (HTaskLocal g (<[sub := d]> data)) end.

Definition store (h : Handle) (pe sub : Z) (d : InternalResult) : outcome Handle :=
  match h with
  | HReq ready _ u => add_result_req ready u d
  | HMulti cnt data u => add_result_multi cnt data u pe d
  | HLocal ready _ u => add_result_local ready u d
  | HTask g data => add_result_task g data sub d
  | HTaskMulti g data => add_result_task_multi g data pe sub d
  | HTaskLocal g data => add_result_task_local g data sub d
  end.

Definition signal (h : Handle) : Handle :=
  match h with
  | HReq _ data u => HReq true data u
  | HMulti cnt data u => HMulti (wsub cnt 1) data u
  | HLocal _ data u => HLocal true data u
  | _ => h
  end.

(** The request of an object: a dead object is a use after free. *)
Definition req_of (s : St) (r : ReqId) : outcome Req :=
  let! o := unwrap (objs s !! id r) in unwrap (reqs s !! req o).

Definition put_req (s : St) (r : ReqId) (q : Req) : outcome St :=
  let! o := unwrap (objs s !! id r) in Done (set_reqs s (<[req o := q]> (reqs s))).

Definition result_step (s : St) (r : ReqId) (pe : Z) (d : InternalResult) (st : Stage) : outcome (St * list Task) :=
  let next st := [Result r pe d st] in
  let! q := req_of s r in
  match st with
  | RHeld => Done (s, next (if user_held s (handle q) then RData else RTeam))
  | RData =>
    let! h := store (handle q) pe (sub_id r) d in
    let! s := put_req s r (on_handle q h) in
    Done (s, next RReady)
  | RReady => let! s := put_req s r (on_handle q (signal (handle q))) in Done (s, next RTeam)
  | RTeam => Done (add_ctr s CTeam (-1), next RWorld)
  | RWorld => Done (add_ctr s CWorld (-1), next RTg)
  | RTg => Done (match tg q with Some g => add_ctr s (CTg g) (-1) | None => s end, next RArc)
  | RArc =>
    let! o := unwrap (objs s !! id r) in
    Done (set_objs s (if strong o =? 1 then delete (id r) (objs s)
                      else <[id r := {| strong := strong o - 1; req := req o |}]> (objs s)), [])
  end.

(** A step of a task. *)
Definition tstep (s : St) (fresh hid : Z) (t : Task) : outcome (St * list Task) :=
  match t with
  | Launching l (op :: ops) r => launch_step s fresh hid l op ops r
  | Launching _ [] _ => Panic
  | UserHandle i => let! s := drop_handle s i in Done (s, [])
  | Process p imm m => Done (s, process_msg p imm m)
  | Transit _ from to e => Done (s, [arrive from to e])
  | RunRemote p rq a => let! t := exec_am p rq a in Done (logged s p a, [t])
  | RunLocal p rq a => let! t := exec_local_am p rq a in Done (logged s p a, [t])
  | Result r pe d st => result_step s r pe d st
  end.

Definition lstep (s s' : St) : Prop :=
  exists i t fresh hid s1 ts, tasks s !! i = Some t /\ objs s !! fresh = None /\ reqs s !! hid = None /\
    tstep s fresh hid t = Done (s1, ts) /\
    s' = with_tasks s1 (take i (tasks s) ++ ts ++ drop (S i) (tasks s)).

(** Before any of the launches [ls] has begun. *)
Definition group_objects : list (Z * ReqKind) :=
  flat_map (fun g => [(g, KPe); (g, KAll); (g, KLocal)]) groups.

Definition init (ls : list Launch) : St :=
  {| outstanding := fun _ => 0;
     objs := list_to_map (map (fun x => (group_obj x.1 x.2, {| strong := 1; req := group_obj x.1 x.2 |}))
                            group_objects);
     reqs := list_to_map (map (fun x => (group_obj x.1 x.2,
                                {| handle := new_group_handle x.1 x.2; tg := Some x.1; asked := ∅ |}))
                            group_objects);
     tg_cnt := fun g => if decide (g ∈ groups) then 1 else 0;
     sub_ids := fun _ => 0;
     tasks := map (fun l => Launching l (prog l) {| id := 0; sub_id := 0 |}) ls;
     log := [] |}.

(** *** Waiting for a result: [None] while the handle is polled *)
Definition get_req (ready : bool) (data : option InternalResult) : option (outcome InternalResult) :=
  if ready then Some (unwrap data) else None.
Definition get_task (data : gmap Z InternalResult) (sub : Z) : option (outcome InternalResult) := Done <$> data !! sub.
Definition get_single (h : Handle) (sub : Z) : option (outcome InternalResult) :=
  match h with
  | HReq ready data _ | HLocal ready data _ => get_req ready data
  | HTask _ data | HTaskLocal _ data => get_task data sub
  | HMulti _ _ _ | HTaskMulti _ _ => None
  end.

Definition take_all (data : gmap nat InternalResult) : outcome (list InternalResult) :=
  foldr (fun k rs => let! d := unwrap (data !! k) in let! rs := rs in Done (d :: rs)) (Done []) (seq 0 (size data)).

Definition get_all (cnt : Z) (data : gmap nat InternalResult) : option (outcome (list InternalResult)) :=
  if 0 <? cnt then None else Some (take_all data).
Definition get_task_all (data : gmap Z (gmap nat InternalResult)) (sub : Z) : option (outcome (list InternalResult)) :=
  match data !! sub with
  | Some m => if Z.of_nat (size m) <? num_pes then None else Some (take_all m)
  | None => None
  end.
Definition get_multi (h : Handle) (sub : Z) : option (outcome (list InternalResult)) :=
  match h with
  | HMulti cnt data _ => get_all cnt data
  | HTaskMulti _ data => get_task_all data sub
  | _ => None
  end.

(** [process_result], up to the reference counts of the darcs; [read] is the
    deserialisation of results. *)
Definition process_result (read : list byte -> option result) (d : InternalResult) : outcome (option result) :=
  match d with
  | RLocal x => Done (Some x)
  | RRemote b _ => let! x := unwrap (read b) in Done (Some x)
  | RUnit => Done None
  end.

(** *** [wait_all]

    The loop of [LamellarTeamRT::wait_all] loads the panic flag, the counter of
    the team and, of the world only ([world]), that of the world, one after the
    other; what other threads do comes in between. *)
Inductive WaitPc := AtPanic | AtTeam | AtWorld | Returned (panicked : bool).

Definition wait_all (world : bool) (s : St) (panic : Z) (pc : WaitPc) : WaitPc :=
  match pc with
  | AtPanic => if panic =? 0 then AtTeam else Returned true
  | AtTeam => if 0 <? outstanding s CTeam then AtPanic else if world then AtWorld else Returned false
  | AtWorld => if 0 <? outstanding s CWorld then AtPanic else Returned false
  | Returned b => Returned b
  end.

(** [force_shutdown] on the panic flag: the exchange, and the store that follows
    it on the thread that made the team. *)
Definition force_shutdown_exchange (panic : Z) : Z := if panic =? 0 then 1 else panic.
Definition force_shutdown_store (panic : Z) : Z := 2.

Record Waiting := { life : St; panic : Z; wpc : WaitPc }.

(** The waiting thread among all other threads. *)
Inductive wstep (world : bool) : Waiting -> Waiting -> Prop :=
| wstep_life s s' p pc : lstep s s' -> wstep world {| life := s; panic := p; wpc := pc |} {| life := s'; panic := p; wpc := pc |}
| wstep_exchange s p pc :
    wstep world {| life := s; panic := p; wpc := pc |} {| life := s; panic := force_shutdown_exchange p; wpc := pc |}
| wstep_store s p pc : p <> 0 ->
    wstep world {| life := s; panic := p; wpc := pc |} {| life := s; panic := force_shutdown_store p; wpc := pc |}
| wstep_load s p pc :
    wstep world {| life := s; panic := p; wpc := pc |} {| life := s; panic := p; wpc := wait_all world s p pc |}.

(** [LamellarTaskGroup::wait_all] looks at one counter only: whether it returns. *)
Definition wait_all_group (s : St) (g : Z) : bool := negb (0 <? outstanding s (CTg g)).
End Life.
