(* ===== verification/AmInvariant.v ===== *)
(** The results of active messages, and the invariant of ActiveMessages.v.

    [result_at] and [runs_at] say what an active message yields and which active
    messages run for it, without tasks, messages or counters.  [core] relates
    the state to them: what every counter, strong count and result structure is,
    given the results that are still on their way ([Entry]); there is a lemma for
    each kind of step. *)

From stdpp Require Import base list numbers gmap relations.
From Stdlib Require Import ZArith Lia.
From S2P Require Import Prelude Wire DirectMsg ActiveMessages.

Local Open Scope Z_scope.

(** Active messages that return active messages do so finitely often. *)
Class Ranked `{ENV : Env} := {
  rank : am -> nat;
  rank_ok : forall p a a', user p a = OAm a' -> (rank a' < rank a)%nat;
}.

(** The team has members, each once; with the local backend it is this PE; the
    task groups and their objects differ. *)
Class EnvOk `{ENV : Env} : Prop := {
  pes_nodup : NoDup pes;
  pes_ne : pes <> [];
  backend_ok : backend_local = true -> pes = [me];
  groups_nodup : NoDup groups;
  group_obj_inj : forall g k g' k', group_obj g k = group_obj g' k' -> g = g' /\ k = k';
}.

Ltac unfold_store := unfold store, add_result_req, add_result_multi, add_result_local, add_result_task,
  add_result_task_multi, add_result_task_local.

Section Inv.
Context {ENV : Env} `{!Ranked}.

(** ** What the results are *)

(** The result of running [a] locally, active messages that are returned
    included, and what is run; [n] bounds how often one is returned. *)
Fixpoint local_result (n : nat) (p : Z) (a : am) : InternalResult :=
  match user p a with
  | OUnit => RUnit
  | OData d => RLocal d
  | OAm a => match n with O => RUnit | S n => local_result n p a end
  end.
Fixpoint local_runs (n : nat) (p : Z) (a : am) : list (Z * am) :=
  (p, a) :: match user p a with OAm a => match n with O => [] | S n => local_runs n p a end | _ => [] end.

(** On [me], locally; on another PE, whose result travels back. *)
Definition result_here (a : am) : InternalResult := local_result (rank a) me a.
Definition runs_here (a : am) : list (Z * am) := local_runs (rank a) me a.
Definition result_there (q : Z) (a : am) : InternalResult :=
  match user q a with
  | OUnit => RUnit
  | OData d => RRemote (result_bytes d) (darcs_of d)
  | OAm a => result_here a
  end.
Definition runs_there (q : Z) (a : am) : list (Z * am) :=
  (q, a) :: match user q a with OAm a => runs_here a | _ => [] end.
Definition result_at (q : Z) (a : am) : InternalResult := if q =? me then result_here a else result_there q a.
Definition runs_at (q : Z) (a : am) : list (Z * am) := if q =? me then runs_here a else runs_there q a.

Lemma local_fuel n m p a : (rank a <= n)%nat -> (rank a <= m)%nat ->
  local_result n p a = local_result m p a /\ local_runs n p a = local_runs m p a.
Proof.
  revert m a. induction n as [|n IH]; intros [|m] a Hn Hm; cbn; destruct (user p a) as [|d|a'] eqn:E;
    try done; apply rank_ok in E; try lia.
  destruct (IH m a') as [-> ->]; [lia..|done].
Qed.

Lemma result_here_eq a : result_here a =
  match user me a with OUnit => RUnit | OData d => RLocal d | OAm a => result_here a end.
Proof.
  unfold result_here. destruct (rank a) as [|n] eqn:E; cbn; destruct (user me a) as [|d|a'] eqn:E'; try done;
    apply rank_ok in E'; [lia|]. apply local_fuel; lia.
Qed.

Lemma runs_here_eq a : runs_here a = (me, a) :: match user me a with OAm a => runs_here a | _ => [] end.
Proof.
  unfold runs_here. destruct (rank a) as [|n] eqn:E; cbn; destruct (user me a) as [|d|a'] eqn:E'; try done;
    apply rank_ok in E'; [lia|]. f_equal. apply local_fuel; lia.
Qed.

Lemma result_at_me a : result_at me a = result_here a.
Proof. unfold result_at. by rewrite Z.eqb_refl. Qed.
Lemma runs_at_me a : runs_at me a = runs_here a.
Proof. unfold runs_at. by rewrite Z.eqb_refl. Qed.
Lemma result_at_ne q a : q <> me -> result_at q a = result_there q a.
Proof. intros Hq. unfold result_at. by rewrite (proj2 (Z.eqb_neq _ _) Hq). Qed.
Lemma runs_at_ne q a : q <> me -> runs_at q a = runs_there q a.
Proof. intros Hq. unfold runs_at. by rewrite (proj2 (Z.eqb_neq _ _) Hq). Qed.

Lemma result_here_local a : match result_here a with RRemote _ _ => False | _ => True end.
Proof.
  unfold result_here. generalize (rank a) as n. intros n. revert a.
  induction n as [|n IH]; intros a; cbn; destruct (user me a); try done. apply IH.
Qed.

(** ** What a task has still to deliver *)

(** A result on its way: its request, its PE, its data and where it is. *)
Record Entry := { er : ReqId; epe : Z; ed : InternalResult; est : Stage }.

Definition owed (r : ReqId) (q : Z) (d : InternalResult) : Entry := {| er := r; epe := q; ed := d; est := RHeld |}.

(** The launch has an object: its results are owed. *)
Definition named (ops : list Op) : bool :=
  negb (bool_decide (OAlloc ∈ ops)) && forallb (fun o => match o with OSub _ => false | _ => true end) ops.

Definition entries (t : Task) : list Entry :=
  match t with
  | Launching l ops r => if named ops then map (fun q => owed r q (result_at q (lam l))) (dests l) else []
  | UserHandle _ => []
  | Process _ _ (AmAll rq a) => map (fun q => owed (rid rq) q (result_at q a)) pes
  | Process _ _ (AmRemote rq a) =>
    match dst rq with Some d => [owed (rid rq) d (result_at d a)] | None => [] end
  | Process _ _ (AmLocal rq a) => [owed (rid rq) (src rq) (result_here a)]
  | Process _ _ (AmReturn rq a) => [owed (rid rq) (src rq) (result_here a)]
  | Process _ _ (AmData rq d) => [owed (rid rq) (src rq) (RRemote (result_bytes d) (darcs_of d))]
  | Process _ _ (AmUnit rq) => [owed (rid rq) (src rq) RUnit]
  | Transit _ from to (ExecAm _ r a) => [owed r to (result_there to a)]
  | Transit _ from _ (ExecReturnAm _ r a) => [owed r from (result_here a)]
  | Transit _ from _ (ExecData r b ds) => [owed r from (RRemote b ds)]
  | Transit _ from _ (ExecUnit r) => [owed r from RUnit]
  | RunRemote p rq a => [owed (rid rq) p (result_there p a)]
  | RunLocal _ rq a => [owed (rid rq) (src rq) (result_here a)]
  | Result r pe d st => [{| er := r; epe := pe; ed := d; est := st |}]
  end.

(** The active messages a task has still to run. *)
Definition runs (t : Task) : list (Z * am) :=
  match t with
  | Launching l _ _ => flat_map (fun q => runs_at q (lam l)) (dests l)
  | Process _ _ (AmAll rq a) => flat_map (fun q => runs_at q a) pes
  | Process _ _ (AmRemote rq a) => match dst rq with Some d => runs_at d a | None => [] end
  | Process _ _ (AmLocal _ a) | Process _ _ (AmReturn _ a) => runs_here a
  | Transit _ _ to (ExecAm _ _ a) => runs_there to a
  | Transit _ _ _ (ExecReturnAm _ _ a) => runs_here a
  | RunRemote p _ a => runs_there p a
  | RunLocal _ _ a => runs_here a
  | _ => []
  end.

(** ** Tasks that occur *)

(** The objects of the task groups. *)
Definition is_group_obj (i : Z) : Prop := exists g k, g ∈ groups /\ i = group_obj g k.

Definition launch_ok (l : Launch) : Prop :=
  (lkind l = KPe -> (lpe l < length pes)%nat) /\
  match lowner l with ByGroup g => g ∈ groups | ByTeam _ => True end.

Definition process_ok (p : Z) (m : Am) : Prop :=
  match m with
  | AmAll rq _ => p = me /\ src rq = me /\ dst rq = None /\ arch rq = pes
  | AmRemote rq _ => p = me /\ src rq = me /\ exists d, d ∈ pes /\ dst rq = Some d
  | AmLocal rq _ => p = me /\ src rq = me
  | AmReturn rq _ | AmData rq _ | AmUnit rq => src rq = p /\ dst rq = Some me
  end.

Definition transit_ok (from to : Z) (e : Exec byte am darcs) : Prop :=
  match e with ExecAm _ _ _ => from = me /\ to <> me | _ => to = me end.

Definition task_ok (t : Task) : Prop :=
  match t with
  | Launching l ops r => launch_ok l /\ (exists done_, prog l = done_ ++ ops) /\ ops <> [] /\
    (named ops = true ->
     match lowner l with ByGroup g => id r = group_obj g (lkind l) | ByTeam _ => ~ is_group_obj (id r) end)
  | UserHandle _ => True
  | Process p _ m => process_ok p m
  | Transit _ from to e => transit_ok from to e
  | RunRemote p rq _ => src rq = p /\ dst rq = Some me
  | RunLocal p rq _ => p = me
  | Result _ _ _ _ => True
  end.

(** ** Moving an active message: no step of its way changes what is owed *)
Context `{!EnvOk}.

Lemma team_pe_None p : team_pe p = None <-> p ∉ pes.
Proof.
  unfold team_pe. rewrite fmap_None, list_find_None, Forall_forall. split.
  - intros H1 Hp. by apply (H1 p Hp).
  - intros Hp q Hq ->. done.
Qed.

Lemma team_pe_Some p k : team_pe p = Some k <-> pes !! k = Some p.
Proof.
  unfold team_pe. rewrite fmap_Some. split.
  - intros ([j q] & (Hj & -> & _)%list_find_Some & ->). done.
  - intros Hk. exists (k, p). split; [|done]. apply list_find_Some. split; [done|]. split; [done|].
    intros j q Hj Hlt ->. pose proof (NoDup_lookup _ _ _ _ pes_nodup Hj Hk). lia.
Qed.

Lemma team_pe_elem p : p ∈ pes -> exists k, team_pe p = Some k /\ (k < length pes)%nat.
Proof.
  intros [k Hk]%list_elem_of_lookup. exists k. split; [by apply team_pe_Some|]. by eapply lookup_lt_Some.
Qed.

(** The PEs of a team: the targets of a message to all, and this PE. *)
Lemma pes_split :
  pes ≡ₚ filter (fun q => q <> me) pes ++ (if bool_decide (team_pe me = None) then [] else [me]).
Proof.
  apply NoDup_Permutation; [apply pes_nodup| |].
  - apply NoDup_app. split; [apply NoDup_filter, pes_nodup|]. case_bool_decide.
    + split; [by intros x _ ?%elem_of_nil|constructor].
    + split; [|apply NoDup_singleton]. by intros x [Hx _]%list_elem_of_filter ->%list_elem_of_singleton.
  - intros x. rewrite elem_of_app, list_elem_of_filter. destruct (decide (x = me)) as [->|Hx].
    + case_bool_decide as E; rewrite team_pe_None in E.
      * rewrite elem_of_nil. tauto.
      * rewrite list_elem_of_singleton. destruct (decide (me ∈ pes)); tauto.
    + case_bool_decide; rewrite ?elem_of_nil, ?list_elem_of_singleton; tauto.
Qed.

Lemma no_sends :
  negb backend_local && ((1 <? num_pes) || bool_decide (team_pe me = None)) = false ->
  filter (fun q => q <> me) pes = [].
Proof.
  intros H1. assert (Hone : pes = [me] -> filter (fun q => q <> me) pes = []).
  { intros ->. rewrite filter_cons_False by auto. done. }
  apply andb_false_iff in H1 as [H1|[H1 H2]%orb_false_iff].
  - apply Hone, backend_ok. by destruct backend_local.
  - apply bool_decide_eq_false in H2. rewrite team_pe_None in H2. unfold num_pes in H1. apply Z.ltb_ge in H1.
    apply Hone. assert (Hin : me ∈ pes) by (destruct (decide (me ∈ pes)); tauto).
    destruct pes as [|x [|y l]]; [by apply elem_of_nil in Hin| |cbn [length] in H1; lia].
    apply list_elem_of_singleton in Hin. by subst.
Qed.

Definition all_entries (ts : list Task) : list Entry := flat_map entries ts.
Definition all_runs (ts : list Task) : list (Z * am) := flat_map runs ts.

Lemma all_entries_app ts ts' : all_entries (ts ++ ts') = all_entries ts ++ all_entries ts'.
Proof. apply flat_map_app. Qed.
Lemma all_runs_app ts ts' : all_runs (ts ++ ts') = all_runs ts ++ all_runs ts'.
Proof. apply flat_map_app. Qed.

Lemma flat_map_map {A B C} (f : B -> list C) (g : A -> B) l : flat_map f (map g l) = flat_map (fun x => f (g x)) l.
Proof. induction l as [|x l IH]; cbn; [done|]. by rewrite IH. Qed.

Lemma flat_map_single {A B} (f : A -> B) l : flat_map (fun x => [f x]) l = map f l.
Proof. induction l as [|x l IH]; cbn; [done|]. by rewrite IH. Qed.

(** A message for this PE from another. *)
Lemma send_back p imm rq r : dst rq = Some me ->
  send p imm rq r = [Transit (goes_to_batcher imm r) p me (exec_of_request rq r)].
Proof. intros E. unfold send, targets. by rewrite E. Qed.

Lemma process_moves p imm m :
  process_ok p m ->
  all_entries (process_msg p imm m) ≡ₚ entries (Process p imm m) /\
  all_runs (process_msg p imm m) ≡ₚ runs (Process p imm m) /\
  Forall task_ok (process_msg p imm m).
Proof.
  destruct m as [rq a|rq a|rq a|rq a|rq d|rq]; cbn [process_ok process_msg entries runs].
  - intros (-> & Hs & Hd & Ha). rewrite Hs.
    set (l := filter (fun q => q <> me) pes).
    set (mine := if bool_decide (team_pe me = None) then [] else [me]).
    assert (E1 : (if negb backend_local && ((1 <? num_pes) || bool_decide (team_pe me = None))
                  then send me imm rq (ReqAm a) else []) =
                 map (fun q => Transit (goes_to_batcher (darcs := darcs) imm (ReqAm a)) me q (ExecAm (rteam rq) (rid rq) a)) l).
    { destruct (negb _ && _) eqn:E; [|unfold l; by rewrite (no_sends E)].
      unfold send, targets. by rewrite Hd, Ha. }
    assert (E2 : (if bool_decide (team_pe me = None) then [] else [RunLocal me rq a]) =
                 map (fun _ => RunLocal me rq a) mine) by (unfold mine; by case_bool_decide).
    rewrite E1, E2, all_entries_app, all_runs_app. unfold all_entries, all_runs. rewrite !flat_map_map.
    assert (Hl : forall q, q ∈ l -> q <> me) by (intros q [Hq _]%list_elem_of_filter; exact Hq).
    assert (Hm : forall q, q ∈ mine -> q = me).
    { unfold mine. intros q. case_bool_decide; [by intros ?%elem_of_nil|by intros ?%list_elem_of_singleton]. }
    split; [|split].
    + etrans; [|apply Permutation_map; symmetry; exact pes_split].
      fold l mine. rewrite map_app. cbn. rewrite !flat_map_single, Hs. apply reflexive_eq. f_equal.
      * apply map_ext_in. intros q Hq. rewrite result_at_ne; [done|]. by apply Hl, list_elem_of_In.
      * apply map_ext_in. intros q Hq. apply list_elem_of_In, Hm in Hq as ->. by rewrite result_at_me.
    + etrans; [|apply Permutation_flat_map; symmetry; exact pes_split].
      fold l mine. rewrite flat_map_app. apply reflexive_eq. cbn. f_equal.
      * rewrite !flat_map_concat_map. f_equal. apply map_ext_in. intros q Hq.
        rewrite runs_at_ne; [done|]. by apply Hl, list_elem_of_In.
      * rewrite !flat_map_concat_map. f_equal. apply map_ext_in. intros q Hq.
        apply list_elem_of_In, Hm in Hq as ->. by rewrite runs_at_me.
    + apply Forall_app. rewrite !Forall_map, !Forall_forall. cbn. split; [|done].
      intros q Hq. split; [done|]. by apply Hl.
  - intros (-> & Hs & d & Hd & E). rewrite E, Hs. case_bool_decide as Ed.
    + injection Ed as ->. cbn. rewrite Hs, result_at_me, runs_at_me, app_nil_r. by repeat constructor.
    + assert (d <> me) by congruence. unfold send, targets. rewrite E. cbn.
      rewrite result_at_ne, runs_at_ne, app_nil_r by done. by repeat constructor.
  - intros (-> & Hs). cbn. rewrite app_nil_r. by repeat constructor.
  - intros (Hs & Hd). rewrite (send_back _ _ _ _ Hd). cbn. rewrite Hs, app_nil_r. by repeat constructor.
  - intros (Hs & Hd). rewrite (send_back _ _ _ _ Hd). cbn. rewrite Hs. by repeat constructor.
  - intros (Hs & Hd). rewrite (send_back _ _ _ _ Hd). cbn. rewrite Hs. by repeat constructor.
Qed.

Lemma arrive_moves b from to e :
  transit_ok from to e ->
  entries (arrive from to e) = entries (Transit b from to e) /\ runs (arrive from to e) = runs (Transit b from to e) /\
  task_ok (arrive from to e).
Proof. destruct e; cbn; intros H1; destruct_and?; subst; done. Qed.

Lemma exec_am_moves p rq a :
  src rq = p -> dst rq = Some me ->
  exists t, exec_am p rq a = Done t /\ entries t = entries (RunRemote p rq a) /\
    (p, a) :: runs t = runs (RunRemote p rq a) /\ task_ok t.
Proof.
  intros Hs Hd. unfold exec_am, exec, gen_return. cbn. unfold result_there, runs_there.
  destruct (user p a); eexists; (split; [done|]); cbn; by rewrite Hs.
Qed.

Lemma exec_local_am_moves rq a :
  exists t, exec_local_am me rq a = Done t /\ entries t = entries (RunLocal me rq a) /\
    (me, a) :: runs t = runs (RunLocal me rq a) /\ task_ok t.
Proof.
  unfold exec_local_am, exec, gen_return. cbn. rewrite result_here_eq, runs_here_eq.
  destruct (user me a); eexists; (split; [done|]); by cbn.
Qed.

(** ** The invariant *)
Definition link (s : St) (i : Z) : option Req :=
  match objs s !! i with Some o => reqs s !! req o | None => None end.
Definition link_tg (s : St) (i : Z) : option (option Z) := tg <$> link s i.
Definition at_req (os : gmap Z Obj) (h : Z) (e : Entry) : bool :=
  match os !! id (er e) with Some o => req o =? h | None => false end.

(** Whether a result of the object [i] is counted by [c], and until when. *)
Definition counts (f : Z -> option (option Z)) (c : Ctr) (i : Z) : Z :=
  match c with CTg g => if decide (f i = Some (Some g)) then 1 else 0 | _ => 1 end.
Definition still (c : Ctr) (st : Stage) : bool :=
  match st with
  | RHeld | RData | RReady | RTeam => true
  | RWorld => match c with CTeam => false | _ => true end
  | RTg => match c with CTg _ => true | _ => false end
  | RArc => false
  end.
Definition unstored (st : Stage) : bool := match st with RHeld | RData => true | _ => false end.
Definition unsignalled (st : Stage) : bool := match st with RHeld | RData | RReady => true | _ => false end.

Definition entry_ctr (f : Z -> option (option Z)) (c : Ctr) (e : Entry) : Z :=
  if still c (est e) then counts f c (id (er e)) else 0.
Definition entry_at (i : Z) (e : Entry) : Z := Z.b2z (id (er e) =? i).
Definition entry_cnt (os : gmap Z Obj) (h : Z) (e : Entry) : Z := Z.b2z (at_req os h e && unsignalled (est e)).

(** What a handle stores for the PE [pe] of the request [sub]. *)
Definition stored (h : Handle) (pe sub : Z) : option InternalResult :=
  match h with
  | HReq _ d _ | HLocal _ d _ => d
  | HMulti _ m _ => match team_pe pe with Some k => m !! k | None => None end
  | HTask _ m | HTaskLocal _ m => m !! sub
  | HTaskMulti _ mm => match team_pe pe, mm !! sub with Some k, Some m => m !! k | _, _ => None end
  end.

(** The handle is held; the handles of a group are, since the group is. *)
Definition held (h : Handle) : bool := match h with HReq _ _ u | HMulti _ _ u | HLocal _ _ u => u | _ => true end.

Definition shape_ok (q : Req) : Prop :=
  forall sub a ds, asked q !! sub = Some (a, ds) ->
    match handle q with
    | HReq _ _ _ => sub = 0 /\ exists d, ds = [d]
    | HMulti _ _ _ => sub = 0 /\ ds = pes
    | HLocal _ _ _ => sub = 0 /\ ds = [me]
    | HTask _ _ => exists d, ds = [d]
    | HTaskMulti _ _ => ds = pes
    | HTaskLocal _ _ => ds = [me]
    end.

Definition data_ok (q : Req) : Prop :=
  match handle q with
  | HReq _ _ _ | HLocal _ _ _ => True
  | HMulti _ m _ => forall k, is_Some (m !! k) -> (k < length pes)%nat
  | HTask _ m | HTaskLocal _ m => forall sub, is_Some (m !! sub) -> is_Some (asked q !! sub)
  | HTaskMulti _ mm => forall sub m, mm !! sub = Some m ->
      is_Some (asked q !! sub) /\ forall k, is_Some (m !! k) -> (k < length pes)%nat
  end.

Definition signal_ok (os : gmap Z Obj) (M : list Entry) (h : Z) (q : Req) : Prop :=
  match handle q with
  | HReq ready data u | HLocal ready data u =>
    (ready = true -> data <> None) /\
    (u = true -> ready = false -> exists e, e ∈ M /\ at_req os h e = true /\ unsignalled (est e) = true)
  | HMulti cnt data u => u = true -> cnt = zsum (entry_cnt os h) M
  | _ => True
  end.

Record req_ok (os : gmap Z Obj) (M : list Entry) (h : Z) (q : Req) : Prop := {
  r_shape : shape_ok q;
  r_data : data_ok q;
  r_right : forall sub a ds pe d, asked q !! sub = Some (a, ds) -> pe ∈ ds ->
    stored (handle q) pe sub = Some d -> d = result_at pe a;
  r_held : held (handle q) = true -> forall sub a ds pe, asked q !! sub = Some (a, ds) -> pe ∈ ds ->
    stored (handle q) pe sub <> None \/
    exists e, e ∈ M /\ at_req os h e = true /\ sub_id (er e) = sub /\ epe e = pe /\ unstored (est e) = true;
  r_signal : signal_ok os M h q;
}.

Definition entry_ok (s : St) (e : Entry) : Prop :=
  exists q a ds, link s (id (er e)) = Some q /\ asked q !! sub_id (er e) = Some (a, ds) /\
    epe e ∈ ds /\ ed e = result_at (epe e) a /\
    (est e = RReady -> stored (handle q) (epe e) (sub_id (er e)) <> None).

Definition base (i : Z) : Z :=
  Z.b2z (bool_decide (i ∈ map (fun x => group_obj x.1 x.2) group_objects)).
Definition strong_at (s : St) (i : Z) : Z := match objs s !! i with Some o => strong o | None => 0 end.

Definition group_handle (g : Z) (k : ReqKind) (q : Req) : Prop :=
  tg q = Some g /\
  match k, handle q with
  | KPe, HTask g' _ | KAll, HTaskMulti g' _ | KLocal, HTaskLocal g' _ => g' = g
  | _, _ => False
  end.

(** [M]: the results under way; [L], [S]: what launches in progress have added
    to the counters and strong counts beyond that. *)
Record core (s : St) (M : list Entry) (L : Ctr -> Z) (S : Z -> Z) : Prop := {
  c_ctr : forall c, outstanding s c ≡ᵤ zsum (entry_ctr (link_tg s) c) M + L c;
  c_strong : forall i, strong_at s i = base i + zsum (entry_at i) M + S i;
  c_objs : forall i o, objs s !! i = Some o -> 0 < strong o /\ is_Some (reqs s !! req o);
  c_entries : forall e, e ∈ M -> entry_ok s e;
  c_reqs : forall h q, reqs s !! h = Some q -> req_ok (objs s) M h q;
  c_groups : forall g k, g ∈ groups -> exists o q, objs s !! group_obj g k = Some o /\
    req o = group_obj g k /\ reqs s !! group_obj g k = Some q /\ group_handle g k q;
}.

Lemma entry_at_nonneg i M : 0 <= zsum (entry_at i) M.
Proof. apply zsum_nonneg. intros e _. unfold entry_at. destruct (_ =? _); cbn; lia. Qed.

Lemma base_nonneg i : 0 <= base i.
Proof. unfold base. destruct (bool_decide _); cbn; lia. Qed.

Lemma elem_of_group_objects x : x ∈ group_objects <-> x.1 ∈ groups.
Proof.
  unfold group_objects. destruct x as [g k]. cbn. induction groups as [|g' gs IH]; cbn.
  - by rewrite !elem_of_nil.
  - rewrite !elem_of_cons, IH. split.
    + intros [[= -> _]|[[= -> _]|[[= -> _]|?]]]; tauto.
    + intros [->|?]; [|tauto]. destruct k; tauto.
Qed.

Lemma base_group i : is_group_obj i -> base i = 1.
Proof.
  intros (g & k & Hg & ->). unfold base. rewrite bool_decide_eq_true_2; [done|].
  apply list_elem_of_fmap. exists (g, k). split; [done|]. by apply elem_of_group_objects.
Qed.

Lemma base_no_group i : ~ is_group_obj i -> base i = 0.
Proof.
  intros Hi. unfold base. rewrite bool_decide_eq_false_2; [done|].
  intros ([g k] & -> & Hx%elem_of_group_objects)%list_elem_of_fmap. apply Hi. by exists g, k.
Qed.

Lemma req_ok_perm os M M' h q : M ≡ₚ M' -> req_ok os M h q -> req_ok os M' h q.
Proof.
  intros HM [R1 R2 R3 R4 R5]. split; [done..| |].
  - intros Hh sub a ds pe Ha Hpe. destruct (R4 Hh sub a ds pe Ha Hpe) as [?|(e & He & H1)]; [by left|right].
    exists e. by rewrite <- HM.
  - unfold signal_ok in *. destruct (handle q); try done; try (by rewrite <- HM).
    all: destruct R5 as [R5 R6]; split; [done|]; intros Hu Hr; destruct (R6 Hu Hr) as (e & He & H1);
      exists e; by rewrite <- HM.
Qed.

Lemma core_perm s M M' L S : M ≡ₚ M' -> core s M L S -> core s M' L S.
Proof.
  intros HM [C1 C2 C3 C4 C5 C6]. split; try done.
  - intros c. by rewrite <- HM.
  - intros i. by rewrite <- HM.
  - intros e He. apply C4. by rewrite HM.
  - intros h q Hq. by eapply req_ok_perm, C5.
Qed.

Lemma core_ext s M L L' S S' :
  (forall c, L c = L' c) -> (forall i, S i = S' i) -> core s M L S -> core s M L' S'.
Proof.
  intros HL HS [C1 C2 C3 C4 C5 C6]. split; try done; intros; [rewrite <- HL|rewrite <- HS]; done.
Qed.

(** A structure that does not change is still correct when the results on
    their way to it have not changed. *)
Lemma req_ok_transfer os os' M M' h q :
  (forall e, e ∈ M -> at_req os h e = true -> unsignalled (est e) = true -> e ∈ M' /\ at_req os' h e = true) ->
  zsum (entry_cnt os h) M = zsum (entry_cnt os' h) M' ->
  req_ok os M h q -> req_ok os' M' h q.
Proof.
  intros Hin Hcnt [R1 R2 R3 R4 R5]. split; [done..| |].
  - intros Hh sub a ds pe Ha Hpe. destruct (R4 Hh sub a ds pe Ha Hpe) as [?|(e & He & H1 & H2 & H3 & H4)]; [by left|right].
    destruct (Hin e He H1) as [H5 H6]; [by destruct (est e)|]. by exists e.
  - unfold signal_ok in *. destruct (handle q); try done; try (by rewrite <- Hcnt).
    all: destruct R5 as [R5 R6]; split; [done|]; intros Hu Hr; destruct (R6 Hu Hr) as (e & He & H1 & H2);
      destruct (Hin e He H1 H2); by exists e.
Qed.

Lemma link_obj s i q : link s i = Some q -> exists o, objs s !! i = Some o /\ reqs s !! req o = Some q.
Proof. unfold link. destruct (objs s !! i) as [o|]; [by exists o|done]. Qed.

(** *** Launching *)
Lemma core_add s M L S c n :
  core s M L S -> core (add_ctr s c n) M (fun c' => L c' + if decide (c' = c) then n else 0) S.
Proof.
  intros [C1 C2 C3 C4 C5 C6]. split; [|exact C2|exact C3|exact C4|exact C5|exact C6]. intros c'. cbn.
  change (link_tg (add_ctr s c n)) with (link_tg s). case_decide as E.
  - subst. rewrite wadd_eqmod, C1. apply eqmod_eq. lia.
  - rewrite C1. apply eqmod_eq. lia.
Qed.

Lemma link_insert_fresh s fresh hid o q i :
  objs s !! fresh = None -> reqs s !! hid = None -> (forall i o, objs s !! i = Some o -> is_Some (reqs s !! req o)) ->
  i <> fresh -> link (set_objs (set_reqs s (<[hid := q]> (reqs s))) (<[fresh := o]> (objs s))) i = link s i.
Proof.
  intros Hf Hh Ho Hi. unfold link. cbn. rewrite lookup_insert_ne by done.
  destruct (objs s !! i) as [o'|] eqn:E; [|done]. destruct (Ho _ _ E) as [q' Hq].
  rewrite lookup_insert_ne; [done|]. intros ->. congruence.
Qed.

Lemma at_req_insert_fresh s fresh o h e :
  id (er e) <> fresh -> at_req (<[fresh := o]> (objs s)) h e = at_req (objs s) h e.
Proof. intros He. unfold at_req. cbn. by rewrite lookup_insert_ne. Qed.

Lemma counts_ext f f' c i : f i = f' i -> counts f c i = counts f' c i.
Proof. intros E. unfold counts. by rewrite E. Qed.

Lemma entry_link s e M L S : core s M L S -> e ∈ M -> is_Some (objs s !! id (er e)).
Proof.
  intros HC He. destruct (c_entries _ _ _ _ HC e He) as (q & a & ds & Hl & _).
  apply link_obj in Hl as (o & Ho & _). by exists o.
Qed.

(** The results of a launch. *)
Definition launch_entries (l : Launch) (r : ReqId) : list Entry :=
  map (fun q => owed r q (result_at q (lam l))) (dests l).

Lemma launch_entries_sum (f : Entry -> Z) l r z :
  launch_ok l -> (forall q d, f (owed r q d) = z) -> zsum f (launch_entries l r) = num_results (lkind l) * z.
Proof.
  intros [Hp _] Hf. unfold launch_entries. rewrite zsum_map.
  rewrite (zsum_ext _ (fun _ => z)) by (intros; apply Hf). rewrite zsum_const. unfold dests, num_results, num_pes.
  destruct (lkind l); cbn [length]; try lia. unfold world_pe.
  destruct (lookup_lt_is_Some_2 pes (lpe l) (Hp eq_refl)) as [d ->]. cbn. lia.
Qed.

Lemma dests_shape l : launch_ok l ->
  match lkind l with KPe => exists d, d ∈ pes /\ dests l = [d] | KAll => dests l = pes | KLocal => dests l = [me] end.
Proof.
  intros [Hp _]. unfold dests, world_pe. destruct (lkind l); try done.
  destruct (lookup_lt_is_Some_2 pes (lpe l) (Hp eq_refl)) as [d E]. rewrite E. exists d.
  split; [by eapply list_elem_of_lookup_2|done].
Qed.

Lemma launch_entry l r e :
  e ∈ launch_entries l r -> er e = r /\ epe e ∈ dests l /\ ed e = result_at (epe e) (lam l) /\ est e = RHeld.
Proof. by intros (q & -> & Hq)%list_elem_of_fmap. Qed.

Lemma owed_launch_entry l r q : q ∈ dests l -> owed r q (result_at q (lam l)) ∈ launch_entries l r.
Proof. intros Hq. apply list_elem_of_fmap. by exists q. Qed.

Lemma dests_ne l : launch_ok l -> exists q, q ∈ dests l.
Proof.
  intros Hl. apply dests_shape in Hl. destruct (lkind l).
  - destruct Hl as (d & _ & ->). exists d. by left.
  - rewrite Hl. destruct pes as [|x ?] eqn:E; [by destruct pes_ne|]. exists x. by left.
  - rewrite Hl. exists me. by left.
Qed.

Lemma core_alloc s M L S fresh hid l tg_ :
  core s M L S -> (forall i, 0 <= S i) -> objs s !! fresh = None -> reqs s !! hid = None ->
  launch_ok l -> lowner l = ByTeam tg_ ->
  core (set_objs (set_reqs s (<[hid := {| handle := new_handle (lkind l); tg := tg_;
                                          asked := {[0 := (lam l, dests l)]} |}]> (reqs s)))
          (<[fresh := {| strong := num_results (lkind l); req := hid |}]> (objs s)))
    (launch_entries l {| id := fresh; sub_id := 0 |} ++ M)
    (fun c => L c - num_results (lkind l) * counts (fun _ => Some tg_) c 0) S.
Proof.
  intros HC HS Hf Hh Hl Ho. set (r := {| id := fresh; sub_id := 0 |}).
  set (q := {| handle := _; tg := _; asked := _ |}). set (o := {| strong := _; req := _ |}).
  set (s' := set_objs _ _). pose proof (c_objs _ _ _ _ HC) as C3.
  assert (Hlink : forall i, i <> fresh -> link s' i = link s i).
  { intros i Hi. apply link_insert_fresh; [done|done|intros; by eapply C3|done]. }
  assert (Hfresh : link s' fresh = Some q).
  { unfold link, s'. cbn. rewrite lookup_insert_eq. cbn. by rewrite lookup_insert_eq. }
  assert (HM : forall e, e ∈ M -> id (er e) <> fresh).
  { intros e He Eid. destruct (entry_link _ _ _ _ _ HC He) as [? E]. congruence. }
  assert (Hat : forall h e, e ∈ M -> at_req (objs s') h e = at_req (objs s) h e).
  { intros h e He. apply at_req_insert_fresh. by apply HM. }
  assert (Hnew : forall h e, e ∈ launch_entries l r -> at_req (objs s') h e = (hid =? h)).
  { intros h e (Er & _)%launch_entry. unfold at_req, s'. cbn. rewrite Er. cbn. by rewrite lookup_insert_eq. }
  assert (Hnum : 0 < num_results (lkind l)).
  { unfold num_results, num_pes. destruct (lkind l); try lia. pose proof pes_ne. destruct pes; [done|cbn; lia]. }
  destruct HC as [C1 C2 _ C4 C5 C6]. split.
  - intros c. change (outstanding s' c) with (outstanding s c). rewrite zsum_app.
    rewrite (launch_entries_sum _ l r (counts (fun _ => Some tg_) c 0)); [|done|].
    + rewrite (zsum_ext (entry_ctr (link_tg s') c) (entry_ctr (link_tg s) c) M), C1; [apply eqmod_eq; lia|].
      intros e He. unfold entry_ctr. destruct (still c (est e)); [|done]. apply counts_ext. unfold link_tg.
      by rewrite Hlink by (by apply HM).
    + intros p d. unfold entry_ctr. cbn. unfold counts, link_tg. destruct c; try done. rewrite Hfresh. done.
  - intros i. unfold strong_at, s'. cbn. rewrite zsum_app. specialize (C2 i). unfold strong_at in C2.
    destruct (decide (i = fresh)) as [->|Hi].
    + rewrite lookup_insert_eq. rewrite Hf in C2. cbn.
      rewrite (launch_entries_sum _ l r 1); [|done|intros; unfold entry_at; cbn; by rewrite Z.eqb_refl].
      pose proof (entry_at_nonneg fresh M). pose proof (base_nonneg fresh). specialize (HS fresh). lia.
    + rewrite lookup_insert_ne by done. rewrite C2.
      rewrite (launch_entries_sum _ l r 0); [lia|done|].
      intros. unfold entry_at. cbn. by rewrite (proj2 (Z.eqb_neq _ _)) by congruence.
  - intros i o'. unfold s'. cbn. intros [[<- <-]|[Hi E]]%lookup_insert_Some; cbn.
    + split; [done|]. rewrite lookup_insert_eq. by eexists.
    + destruct (C3 _ _ E) as [H1 [q' Hq]]. split; [done|]. rewrite lookup_insert_ne; [by exists q'|]. intros ->. congruence.
  - intros e [He|He]%elem_of_app.
    + destruct (launch_entry _ _ _ He) as (Er & H1 & H2 & H3).
      exists q, (lam l), (dests l). rewrite Er, H3. cbn [id sub_id r]. rewrite Hfresh. cbn. rewrite lookup_singleton_eq. done.
    + destruct (C4 e He) as (q' & a & ds & H1 & H2). exists q', a, ds. by rewrite Hlink by (by apply HM).
  - intros h q'. unfold s' at 1. cbn. intros [[<- <-]|[Hi E]]%lookup_insert_Some.
    + assert (Hall : forall e, e ∈ launch_entries l r -> at_req (objs s') hid e = true).
      { intros e He. by rewrite (Hnew hid e He), Z.eqb_refl. }
      assert (Hnone : forall pe sub, stored (handle q) pe sub = None).
      { intros pe sub. unfold q. cbn. destruct (lkind l); cbn; try done. destruct (team_pe pe); [|done]. by rewrite lookup_empty. }
      pose proof (dests_shape l Hl) as Hsh. destruct (dests_ne l Hl) as [p Hp].
      split.
      * intros sub a ds. unfold q. cbn. intros [<- [= <- <-]]%lookup_singleton_Some.
        destruct (lkind l); cbn; [split; [done|]; destruct Hsh as (d & _ & ->); by exists d|done..].
      * unfold data_ok, q. cbn. destruct (lkind l); cbn; try done. intros k. rewrite lookup_empty. by intros [? ?].
      * intros sub a ds pe d _ _. by rewrite Hnone.
      * intros _ sub a ds pe. unfold q at 1. cbn. intros [<- [= <- <-]]%lookup_singleton_Some Hpe. right.
        exists (owed r pe (result_at pe (lam l))).
        assert (He : owed r pe (result_at pe (lam l)) ∈ launch_entries l r) by (by apply owed_launch_entry).
        split; [apply elem_of_app; by left|]. by rewrite Hall.
      * assert (Hex : exists e, e ∈ launch_entries l r ++ M /\ at_req (objs s') hid e = true /\ unsignalled (est e) = true).
        { exists (owed r p (result_at p (lam l))).
          assert (He : owed r p (result_at p (lam l)) ∈ launch_entries l r) by (by apply owed_launch_entry).
          split; [apply elem_of_app; by left|]. by rewrite Hall. }
        unfold signal_ok, q. cbn. destruct (lkind l) eqn:Ek; cbn; try (by split).
        intros _. rewrite zsum_app.
        rewrite (zsum_ext _ (fun _ => 0) M).
        2: { intros e He. unfold entry_cnt. rewrite Hat by done. unfold at_req.
             destruct (objs s !! id (er e)) as [o'|] eqn:E; [|done].
             destruct (C3 _ _ E) as [_ [q' Hq]]. rewrite (proj2 (Z.eqb_neq _ _)); [done|]. intros E'. congruence. }
        rewrite zsum_const.
        assert (Hz : zsum (entry_cnt (objs s') hid) (launch_entries l r) = num_results (lkind l) * 1).
        { rewrite (zsum_ext _ (fun e => 1)).
          - rewrite (launch_entries_sum (fun _ => 1) l r 1); [lia|done|done].
          - intros e He. unfold entry_cnt. rewrite (Hall e He).
            destruct (launch_entry _ _ _ He) as (_ & _ & _ & ->). done. }
        rewrite Ek in Hz. cbn in Hz. lia.
    + apply (req_ok_transfer (objs s) (objs s') M); [| |by apply C5].
      * intros e He H1 H2. rewrite Hat by done. split; [|done]. apply elem_of_app. by right.
      * rewrite zsum_app. rewrite (zsum_ext _ (fun _ => 0) (launch_entries l r)).
        -- rewrite zsum_const, Z.mul_0_r, Z.add_0_l. apply zsum_ext. intros e He. unfold entry_cnt. by rewrite Hat.
        -- intros e He. unfold entry_cnt. rewrite (Hnew h e He). by rewrite (proj2 (Z.eqb_neq _ _)).
  - intros g k Hg. destruct (C6 g k Hg) as (o' & q' & H1 & H2 & H3 & H4). exists o', q'. unfold s'. cbn.
    rewrite !lookup_insert_ne; [done|congruence|congruence].
Qed.

(** The objects change, and results that have given up theirs leave. *)
Lemma core_objs s M D L S S' os' :
  core s (D ++ M) L S -> (forall e, e ∈ D -> est e = RArc) ->
  (forall i o', os' !! i = Some o' -> 0 < strong o' /\ exists o, objs s !! i = Some o /\ req o' = req o) ->
  (forall e, e ∈ M -> is_Some (os' !! id (er e))) -> (forall i, is_group_obj i -> is_Some (os' !! i)) ->
  (forall i, strong_at (set_objs s os') i = base i + zsum (entry_at i) M + S' i) ->
  core (set_objs s os') M L S'.
Proof.
  intros [C1 C2 C3 C4 C5 C6] HD Hos HM HG HS.
  assert (Hlink : forall i, is_Some (os' !! i) -> link (set_objs s os') i = link s i).
  { intros i [o' Ho']. destruct (Hos _ _ Ho') as (_ & o & Ho & Er). unfold link. cbn. by rewrite Ho, Ho', Er. }
  assert (Hat : forall h e, e ∈ M -> at_req os' h e = at_req (objs s) h e).
  { intros h e He. destruct (HM e He) as [o' Ho']. destruct (Hos _ _ Ho') as (_ & o & Ho & Er).
    unfold at_req. by rewrite Ho, Ho', Er. }
  assert (HinD : forall e, e ∈ D ++ M -> est e = RArc \/ e ∈ M).
  { intros e [He|He]%elem_of_app; [left; by apply HD|by right]. }
  split.
  - intros c. change (outstanding (set_objs s os') c) with (outstanding s c). rewrite C1, zsum_app. apply eqmod_eq.
    rewrite (zsum_ext _ (fun _ => 0) D).
    + rewrite zsum_const, Z.mul_0_r. f_equal. apply zsum_ext. intros e He. unfold entry_ctr.
      destruct (still c (est e)); [|done]. apply counts_ext. unfold link_tg. by rewrite Hlink by (by apply HM).
    + intros e He. unfold entry_ctr. by rewrite (HD e He).
  - exact HS.
  - intros i o' Ho'. destruct (Hos _ _ Ho') as (? & o & Ho & Er). split; [done|]. cbn. rewrite Er. by eapply C3.
  - intros e He. destruct (C4 e) as (q & a & ds & Hl & H1); [apply elem_of_app; by right|].
    exists q, a, ds. by rewrite Hlink by (by apply HM).
  - intros h q Hq. eapply req_ok_transfer, C5; [| |done].
    + intros e He H1 H2. destruct (HinD e He) as [E|HeM]; [by rewrite E in H2|].
      split; [done|]. cbn. by rewrite Hat.
    + rewrite zsum_app, (zsum_ext _ (fun _ => 0) D).
      * rewrite zsum_const, Z.mul_0_r, Z.add_0_l. apply zsum_ext. intros e He. unfold entry_cnt. cbn. by rewrite Hat.
      * intros e He. unfold entry_cnt. rewrite (HD e He). by rewrite andb_false_r.
  - intros g k Hg. destruct (C6 g k Hg) as (o & q & Ho & Er & H1).
    destruct (HG (group_obj g k)) as [o' Ho']; [by exists g, k|]. destruct (Hos _ _ Ho') as (_ & o2 & Ho2 & Er2).
    exists o', q. cbn. split; [done|]. split; [|done]. congruence.
Qed.

Lemma core_strong s M L S i o n :
  core s M L S -> 0 <= n -> objs s !! i = Some o ->
  core (set_objs s (<[i := {| strong := strong o + n; req := req o |}]> (objs s))) M L
    (fun j => S j + if decide (j = i) then n else 0).
Proof.
  intros HC Hn Ho. eapply (core_objs s M []); [exact HC|by intros e ?%elem_of_nil| | | |].
  - intros j o' [[<- <-]|[Hj Ho']]%lookup_insert_Some; cbn.
    + destruct (c_objs _ _ _ _ HC _ _ Ho). split; [lia|]. by exists o.
    + destruct (c_objs _ _ _ _ HC _ _ Ho'). split; [done|]. by exists o'.
  - intros e He. destruct (entry_link _ _ _ _ _ HC He) as [o' Ho']. rewrite lookup_insert_is_Some, Ho'.
    destruct (decide (i = id (er e))); [by left|right]. split; [done|by eexists].
  - intros j (g & k & Hg & ->). destruct (c_groups _ _ _ _ HC g k Hg) as (o' & q & Ho' & _).
    rewrite lookup_insert_is_Some, Ho'. destruct (decide (i = group_obj g k)); [by left|right]. split; [done|by eexists].
  - intros j. pose proof (c_strong _ _ _ _ HC j) as E. unfold strong_at in *. cbn.
    case_decide as Hj.
    + subst. rewrite lookup_insert_eq. rewrite Ho in E. cbn. lia.
    + rewrite lookup_insert_ne by congruence. rewrite E. lia.
Qed.

Lemma core_free s M L S e o :
  core s (e :: M) L S -> est e = RArc -> (forall i, 0 <= S i) -> objs s !! id (er e) = Some o ->
  core (set_objs s (if strong o =? 1 then delete (id (er e)) (objs s)
                    else <[id (er e) := {| strong := strong o - 1; req := req o |}]> (objs s))) M L S.
Proof.
  intros HC He HS Ho. set (i := id (er e)) in *.
  pose proof (c_strong _ _ _ _ HC) as C2.
  assert (Hi : strong o = base i + 1 + zsum (entry_at i) M + S i).
  { specialize (C2 i). unfold strong_at in C2. rewrite Ho in C2. cbn in C2. unfold entry_at at 1 in C2.
    fold i in C2. rewrite Z.eqb_refl in C2. cbn in C2. lia. }
  assert (Hne : forall j, i <> j -> zsum (entry_at j) (e :: M) = zsum (entry_at j) M).
  { intros j Hj. cbn. unfold entry_at at 1. fold i. by rewrite (proj2 (Z.eqb_neq _ _)). }
  pose proof (entry_at_nonneg i M). pose proof (base_nonneg i). specialize (HS i) as HSi.
  assert (Hpos : forall e', e' ∈ M -> id (er e') = i -> 1 <= zsum (entry_at i) M).
  { intros e' He' Ei. transitivity (entry_at i e'); [unfold entry_at; rewrite Ei, Z.eqb_refl; done|].
    apply zsum_elem_le; [|done]. intros x _. unfold entry_at. destruct (_ =? _); cbn; lia. }
  assert (Hlive : forall j, is_Some (objs s !! j) -> j <> i \/ strong o <> 1 ->
    is_Some ((if strong o =? 1 then delete i (objs s)
              else <[i := {| strong := strong o - 1; req := req o |}]> (objs s)) !! j)).
  { intros j [o' Ho'] Hj. destruct (decide (j = i)) as [->|Hj'].
    - destruct Hj as [|Hj]; [done|]. rewrite (proj2 (Z.eqb_neq _ _) Hj), lookup_insert_eq. by eexists.
    - destruct (_ =? _); rewrite ?lookup_delete_ne, ?lookup_insert_ne by done; by exists o'. }
  eapply (core_objs s M [e]); [exact HC|by intros x ->%list_elem_of_singleton| | | |].
  - intros j o'. destruct (strong o =? 1) eqn:E1.
    + intros [Hj Ho']%lookup_delete_Some. destruct (c_objs _ _ _ _ HC _ _ Ho'). split; [done|]. by exists o'.
    + apply Z.eqb_neq in E1. intros [[<- <-]|[Hj Ho']]%lookup_insert_Some; cbn.
      * split; [lia|]. by exists o.
      * destruct (c_objs _ _ _ _ HC _ _ Ho'). split; [done|]. by exists o'.
  - intros e' He'. apply Hlive.
    + eapply entry_link; [exact HC|]. by right.
    + destruct (decide (id (er e') = i)) as [Ei|]; [right|by left]. specialize (Hpos e' He' Ei). lia.
  - intros j Hj. apply Hlive.
    + destruct Hj as (g & k & Hg & ->). destruct (c_groups _ _ _ _ HC g k Hg) as (o' & q & Ho' & _). by exists o'.
    + destruct (decide (j = i)) as [->|]; [right|by left]. rewrite (base_group i Hj) in Hi. lia.
  - intros j. unfold strong_at. cbn. destruct (decide (j = i)) as [->|Hj].
    + destruct (strong o =? 1) eqn:E1.
      * rewrite lookup_delete_eq. apply Z.eqb_eq in E1. lia.
      * rewrite lookup_insert_eq. cbn. lia.
    + specialize (C2 j). unfold strong_at in C2. rewrite Hne in C2 by done. rewrite <- C2.
      destruct (_ =? _); rewrite ?lookup_delete_ne, ?lookup_insert_ne by done; done.
Qed.

(** *** The requests of a task group *)

(** The structure of a group after a request [sub] of [l] was added. *)
Lemma req_ok_ask os M h g q l sub i o :
  req_ok os M h q -> group_handle g (lkind l) q -> launch_ok l -> asked q !! sub = None ->
  os !! i = Some o -> req o = h ->
  req_ok os (launch_entries l {| id := i; sub_id := sub |} ++ M) h (on_asked q (<[sub := (lam l, dests l)]> (asked q))).
Proof.
  intros [R1 R2 R3 R4 R5] [_ Hk] Hl Hsub Ho Er. pose proof (dests_shape l Hl) as Hd. split.
  - intros sub' a ds. cbn. intros [[<- [= <- <-]]|[Hne Hs]]%lookup_insert_Some; [|by apply (R1 sub' a ds)].
    destruct (lkind l), (handle q); try done. destruct Hd as (d & _ & ->). by exists d.
  - unfold data_ok in *. cbn. destruct (handle q); try done.
    + intros s Hs. apply lookup_insert_is_Some. destruct (decide (sub = s)); [by left|right]. auto.
    + intros s m Hm. destruct (R2 s m Hm) as [H2 H3]. split; [|done].
      apply lookup_insert_is_Some. destruct (decide (sub = s)); [by left|right]. auto.
    + intros s Hs. apply lookup_insert_is_Some. destruct (decide (sub = s)); [by left|right]. auto.
  - intros sub' a ds pe d. cbn. intros [[<- [= <- <-]]|[Hne Hs]]%lookup_insert_Some; [|by apply (R3 sub' a ds)].
    intros _ Hst. exfalso. unfold data_ok in R2.
    destruct (lkind l), (handle q) as [| | |g' m|g' mm|g' m]; cbn in *; try done.
    1, 3: specialize (R2 sub); rewrite Hst, Hsub in R2; by destruct R2 as [? ?].
    destruct (team_pe pe); [|done]. destruct (mm !! sub) as [m|] eqn:Em; [|done].
    destruct (R2 sub m Em) as [[? ?] _]. congruence.
  - cbn. intros Hh sub' a ds pe. intros [[<- [= <- <-]]|[Hne Hs]]%lookup_insert_Some Hpe.
    + right. exists (owed {| id := i; sub_id := sub |} pe (result_at pe (lam l))).
      split; [apply elem_of_app; left; by apply owed_launch_entry|]. unfold at_req. cbn.
      rewrite Ho, Er, Z.eqb_refl. done.
    + destruct (R4 Hh sub' a ds pe Hs Hpe) as [?|(e & He & H1)]; [by left|right]. exists e.
      split; [apply elem_of_app; by right|done].
  - unfold signal_ok. cbn. by destruct (lkind l), (handle q).
Qed.

Lemma core_ask s M L S l g sub :
  core s M L S -> launch_ok l -> lowner l = ByGroup g -> 
  (forall q, reqs s !! group_obj g (lkind l) = Some q -> asked q !! sub = None) ->
  exists q, reqs s !! group_obj g (lkind l) = Some q /\
    core (set_reqs s (<[group_obj g (lkind l) := on_asked q (<[sub := (lam l, dests l)]> (asked q))]> (reqs s)))
      (launch_entries l {| id := group_obj g (lkind l); sub_id := sub |} ++ M)
      (fun c => L c - num_results (lkind l) * counts (fun _ => Some (Some g)) c 0)
      (fun j => S j - if decide (j = group_obj g (lkind l)) then num_results (lkind l) else 0).
Proof.
  intros HC Hl Ho Hsub. assert (Hg : g ∈ groups) by (destruct Hl as [_ Hl]; by rewrite Ho in Hl).
  destruct (c_groups _ _ _ _ HC g (lkind l) Hg) as (o & q & E1 & E2 & E3 & Hgh).
  exists q. split; [done|]. specialize (Hsub q E3). set (i := group_obj g (lkind l)) in *.
  set (r := {| id := i; sub_id := sub |}). set (q' := on_asked q _). set (s' := set_reqs s _).
  assert (Htg : forall j, link_tg s' j = link_tg s j).
  { intros j. unfold link_tg, link, s'. cbn. destruct (objs s !! j) as [o'|]; [|done].
    destruct (decide (req o' = i)) as [->|Hne]; [rewrite lookup_insert_eq, E3|rewrite lookup_insert_ne by done]; done. }
  assert (Hli : link_tg s i = Some (Some g)).
  { unfold link_tg, link. rewrite E1. rewrite E2, E3. cbn. f_equal. apply Hgh. }
  assert (Hnew : forall h e, e ∈ launch_entries l r -> at_req (objs s) h e = (i =? h)).
  { intros h e (Er & _)%launch_entry. unfold at_req. rewrite Er. cbn. rewrite E1. by rewrite E2. }
  destruct HC as [C1 C2 C3 C4 C5 C6]. split.
  - intros c. change (outstanding s' c) with (outstanding s c). rewrite C1, zsum_app. apply eqmod_eq.
    rewrite (launch_entries_sum _ l r (counts (fun _ => Some (Some g)) c 0)); [|done|].
    + rewrite (zsum_ext (entry_ctr (link_tg s') c) (entry_ctr (link_tg s) c) M); [lia|].
      intros e He. unfold entry_ctr. by rewrite (counts_ext _ _ c _ (Htg (id (er e)))).
    + intros p d. unfold entry_ctr. cbn. rewrite (counts_ext _ _ c _ (Htg i)). unfold counts. by rewrite Hli.
  - intros j. change (strong_at s' j) with (strong_at s j). rewrite C2, zsum_app. case_decide as Hj.
    + rewrite (launch_entries_sum _ l r 1); [lia|done|]. intros p d. unfold entry_at. cbn. by rewrite Hj, Z.eqb_refl.
    + rewrite (launch_entries_sum _ l r 0); [lia|done|]. intros p d. unfold entry_at. cbn.
      by rewrite (proj2 (Z.eqb_neq _ _)) by congruence.
  - intros j o' Ho'. destruct (C3 j o' Ho') as [? Hr]. split; [done|]. cbn. apply lookup_insert_is_Some.
    destruct (decide (i = req o')); [by left|by right].
  - assert (Hlk : forall j q0, link s j = Some q0 -> exists q1, link s' j = Some q1 /\ handle q1 = handle q0 /\
        forall x y, asked q0 !! x = Some y -> asked q1 !! x = Some y).
    { intros j q0 (o' & Ho' & Hq0)%link_obj. unfold link, s'. cbn. rewrite Ho'.
      destruct (decide (req o' = i)) as [Eo|Hne].
      - rewrite Eo in *. rewrite lookup_insert_eq. exists q'. split; [done|]. rewrite E3 in Hq0. injection Hq0 as <-.
        split; [done|]. intros x y Hx. cbn. rewrite lookup_insert_ne; [done|]. intros ->. congruence.
      - rewrite lookup_insert_ne by done. by exists q0. }
    intros e [He|He]%elem_of_app.
    + destruct (launch_entry _ _ _ He) as (Er & H1 & H2 & H3). exists q', (lam l), (dests l). rewrite Er, H3. cbn [id sub_id r].
      split; [|split; [cbn; by rewrite lookup_insert_eq|done]]. unfold link, s'. cbn. by rewrite E1, E2, lookup_insert_eq.
    + destruct (C4 e He) as (q0 & a & ds & H1 & H2 & H3 & H4 & H5). destruct (Hlk _ _ H1) as (q1 & K1 & K2 & K3).
      exists q1, a, ds. split; [done|]. split; [by apply K3|]. rewrite K2. done.
  - intros h q0. unfold s' at 1. cbn. intros [[<- <-]|[Hne Hq]]%lookup_insert_Some.
    + by eapply req_ok_ask, E2; [apply C5|exact Hgh| | |exact E1].
    + apply (req_ok_transfer (objs s) (objs s) M); [| |by apply C5].
      * intros e He H1 H2. split; [|done]. apply elem_of_app. by right.
      * cbn [objs set_reqs]. rewrite zsum_app, (zsum_ext _ (fun _ => 0) (launch_entries l r)); [rewrite zsum_const; lia|].
        intros e He. unfold entry_cnt. rewrite (Hnew h e He). by rewrite (proj2 (Z.eqb_neq _ _)).
  - intros g' k Hg'. destruct (C6 g' k Hg') as (o' & q0 & K1 & K2 & K3 & K4). exists o'. unfold s'. cbn.
    destruct (decide (i = group_obj g' k)) as [Ei|Hne].
    + apply group_obj_inj in Ei as [<- <-]. fold i. exists q'. rewrite lookup_insert_eq. done.
    + exists q0. by rewrite lookup_insert_ne.
Qed.

(** *** Completion *)
Definition move (e : Entry) (st : Stage) : Entry := {| er := er e; epe := epe e; ed := ed e; est := st |}.

(** What a step may do to a handle. *)
Record hstep (h h' : Handle) : Prop := {
  h_stored : forall pe sub, stored h pe sub <> None -> stored h' pe sub <> None;
  h_group : forall g k q, handle q = h -> group_handle g k q -> group_handle g k (on_handle q h');
}.

Lemma hstep_refl h : hstep h h.
Proof. split; [done|]. intros g k q <-. by destruct q. Qed.

Lemma link_on_handle s h0 q h :
  reqs s !! h0 = Some q -> (forall pe sub, stored (handle q) pe sub <> None -> stored h pe sub <> None) ->
  forall j q0, link s j = Some q0 -> exists q1, link (set_reqs s (<[h0 := on_handle q h]> (reqs s))) j = Some q1 /\
    tg q1 = tg q0 /\ asked q1 = asked q0 /\
    forall pe sub, stored (handle q0) pe sub <> None -> stored (handle q1) pe sub <> None.
Proof.
  intros Hq Hst j q0 (o & Ho & Hq0)%link_obj. unfold link. cbn. rewrite Ho.
  destruct (decide (h0 = req o)) as [E|Hne].
  - rewrite <- E in *. rewrite lookup_insert_eq. rewrite Hq in Hq0. injection Hq0 as <-. by exists (on_handle q h).
  - rewrite lookup_insert_ne by done. by exists q0.
Qed.

Lemma core_stage s M L S e st o q h :
  core s (e :: M) L S -> objs s !! id (er e) = Some o -> reqs s !! req o = Some q ->
  hstep (handle q) h -> req_ok (objs s) (move e st :: M) (req o) (on_handle q h) ->
  (st = RReady -> stored h (epe e) (sub_id (er e)) <> None) ->
  core (set_reqs s (<[req o := on_handle q h]> (reqs s))) (move e st :: M)
    (fun c => L c + entry_ctr (link_tg s) c e - entry_ctr (link_tg s) c (move e st)) S.
Proof.
  intros HC Ho Hq [Hst Hgr] Hok Hready. set (s' := set_reqs s _).
  pose proof (link_on_handle s (req o) q h Hq Hst) as Hlk. fold s' in Hlk.
  assert (Htg : forall j, is_Some (link s j) -> link_tg s' j = link_tg s j).
  { intros j [q0 Hq0]. destruct (Hlk j q0 Hq0) as (q1 & K1 & K2 & _). unfold link_tg. rewrite K1, Hq0. cbn. by rewrite K2. }
  destruct HC as [C1 C2 C3 C4 C5 C6]. split.
  - intros c. change (outstanding s' c) with (outstanding s c). rewrite C1. apply eqmod_eq. cbn [zsum].
    assert (Hx : forall x, link_tg s' (id (er x)) = link_tg s (id (er x)) ->
      entry_ctr (link_tg s') c x = entry_ctr (link_tg s) c x).
    { intros x Hx. unfold entry_ctr. by rewrite (counts_ext _ _ c _ Hx). }
    rewrite (Hx (move e st)), (zsum_ext (entry_ctr (link_tg s') c) (entry_ctr (link_tg s) c) M); [lia| |].
    + intros x Hin. apply Hx, Htg. destruct (C4 x) as (q0 & ? & ? & E & _); [by right|]. by exists q0.
    + apply Htg. unfold link. cbn. rewrite Ho, Hq. by eexists.
  - intros j. change (strong_at s' j) with (strong_at s j). rewrite C2. done.
  - intros j o' Ho'. destruct (C3 j o' Ho') as [? Hr]. split; [done|]. cbn. apply lookup_insert_is_Some.
    destruct (decide (req o = req o')); [by left|by right].
  - assert (Hent : forall x, x ∈ e :: M -> forall st', (st' = RReady -> est x = RReady \/ x = e /\ st = RReady) ->
      entry_ok s' (move x st')).
    { intros x Hx st' Hst'. destruct (C4 x Hx) as (q0 & a & ds & H1 & H2 & H3 & H4 & H5).
      destruct (Hlk _ _ H1) as (q1 & K1 & K2 & K3 & K4). exists q1, a, ds. cbn. rewrite K3. split_and!; try done.
      intros ->. destruct (Hst' eq_refl) as [E|[-> ->]]; [by apply K4, H5|].
      unfold link, s' in K1. cbn in K1. rewrite Ho, lookup_insert_eq in K1. injection K1 as <-. by apply Hready. }
    intros x [->|Hx]%elem_of_cons.
    + apply Hent; [by left|]. intros ->. by right.
    + replace x with (move x (est x)) by (by destruct x). apply Hent; [by right|]. intros ->. by left.
  - intros h' q0. unfold s' at 1. cbn. intros [[<- <-]|[Hne Hq0]]%lookup_insert_Some; [exact Hok|].
    assert (Hfar : forall x, er x = er e -> at_req (objs s) h' x = false).
    { intros x Hx. unfold at_req. rewrite Hx, Ho. by apply Z.eqb_neq. }
    apply (req_ok_transfer (objs s) (objs s) (e :: M)); [| |by apply C5].
    + intros x [->|Hx]%elem_of_cons H1 H2; [by rewrite Hfar in H1|]. split; [by right|done].
    + cbn. unfold entry_cnt at 1 3. by rewrite !Hfar.
  - intros g' k Hg'. destruct (C6 g' k Hg') as (o' & q0 & K1 & K2 & K3 & K4). exists o'. unfold s'. cbn.
    destruct (decide (req o = group_obj g' k)) as [Ei|Hne].
    + exists (on_handle q h). split; [exact K1|]. split; [exact K2|]. rewrite <- Ei, lookup_insert_eq. split; [done|].
      apply Hgr; [done|]. rewrite <- Ei, Hq in K3. by injection K3 as <-.
    + exists q0. by rewrite lookup_insert_ne.
Qed.

(** The result of an entry is what its structure asked for. *)
Lemma entry_asked s M L S e o q :
  core s (e :: M) L S -> objs s !! id (er e) = Some o -> reqs s !! req o = Some q ->
  at_req (objs s) (req o) e = true /\ req_ok (objs s) (e :: M) (req o) q /\
  exists a ds, asked q !! sub_id (er e) = Some (a, ds) /\ epe e ∈ ds /\ ed e = result_at (epe e) a /\
    (est e = RReady -> stored (handle q) (epe e) (sub_id (er e)) <> None).
Proof.
  intros HC Ho Hq. split; [unfold at_req; by rewrite Ho, Z.eqb_refl|]. split; [by eapply c_reqs|].
  destruct (c_entries _ _ _ _ HC e) as (q0 & a & ds & H1 & H2); [by left|].
  unfold link in H1. rewrite Ho, Hq in H1. injection H1 as <-. by exists a, ds.
Qed.

(** Results that are stored already, or whose handle is gone. *)
Lemma req_ok_unchanged os M h q e st :
  req_ok os (e :: M) h q ->
  (unstored (est e) = true -> unstored st = true \/ held (handle q) = false) ->
  (unsignalled (est e) = true -> unsignalled st = true \/ held (handle q) = false) ->
  (unsignalled st = true -> unsignalled (est e) = true) ->
  req_ok os (move e st :: M) h q.
Proof.
  intros [R1 R2 R3 R4 R5] Hs Hu Hu'. split; [done..| |].
  - intros Hh sub a ds pe Ha Hpe. destruct (R4 Hh sub a ds pe Ha Hpe) as [?|(x & Hx & H1 & H2 & H3 & H4)]; [by left|right].
    apply elem_of_cons in Hx as [->|Hx].
    + exists (move e st). split; [by left|]. split_and!; try done. cbn. destruct (Hs H4); [done|congruence].
    + exists x. split; [by right|done].
  - unfold signal_ok in *. destruct (handle q) as [ready d u|cnt m u|ready d u| | |] eqn:Eh; try done.
    2: { intros Hh. rewrite (R5 Hh). cbn. f_equal. unfold entry_cnt. change (at_req os h (move e st)) with (at_req os h e).
         cbn. f_equal. f_equal. destruct (unsignalled (est e)), (unsignalled st); try done.
         - destruct (Hu eq_refl) as [|Hf]; [done|]. cbn in Hf. congruence.
         - by discriminate Hu'. }
    all: destruct R5 as [R5 R6]; split; [done|]; intros Hh Hr; destruct (R6 Hh Hr) as (x & Hx & H1 & H2);
      apply elem_of_cons in Hx as [->|Hx]; [|exists x; split; [by right|done]];
      exists (move e st); (split; [by left|]); (split; [done|]); cbn;
      destruct (Hu H2) as [|Hf]; [done|cbn in Hf; congruence].
Qed.

Lemma set_reqs_id s h q : reqs s !! h = Some q -> set_reqs s (<[h := on_handle q (handle q)]> (reqs s)) = s.
Proof. intros Hq. destruct q as [hd t a]. unfold set_reqs, on_handle. cbn. rewrite insert_id by done. by destruct s. Qed.

(** A stage at which neither the handle nor the structure changes. *)
Lemma core_pass s M L S e st o q :
  core s (e :: M) L S -> objs s !! id (er e) = Some o -> reqs s !! req o = Some q ->
  (unstored (est e) = true -> unstored st = true \/ held (handle q) = false) ->
  (unsignalled (est e) = true -> unsignalled st = true \/ held (handle q) = false) ->
  (unsignalled st = true -> unsignalled (est e) = true) -> st <> RReady ->
  core s (move e st :: M) (fun c => L c + entry_ctr (link_tg s) c e - entry_ctr (link_tg s) c (move e st)) S.
Proof.
  intros HC Ho Hq H1 H2 H3 H4. rewrite <- (set_reqs_id s (req o) q) at 1 by done.
  apply core_stage; try done; [apply hstep_refl|].
  destruct (entry_asked _ _ _ _ _ _ _ HC Ho Hq) as (_ & Hok & _). destruct q. by apply req_ok_unchanged.
Qed.

(** *** Storing a result and signalling it *)

Lemma team_pe_inj p q k : team_pe p = Some k -> team_pe q = Some k -> p = q.
Proof. rewrite !team_pe_Some. congruence. Qed.

Lemma stored_multi g mm p k sub d : team_pe p = Some k ->
  stored (HTaskMulti g (<[sub := <[k := d]> (default ∅ (mm !! sub))]> mm)) p sub = Some d.
Proof. intros Hk. cbn. by rewrite Hk, lookup_insert_eq, lookup_insert_eq. Qed.

Lemma stored_multi_ne g mm p k sub d p' sub' : team_pe p = Some k -> (sub', p') <> (sub, p) ->
  stored (HTaskMulti g (<[sub := <[k := d]> (default ∅ (mm !! sub))]> mm)) p' sub' = stored (HTaskMulti g mm) p' sub'.
Proof.
  intros Hk Hne. cbn. destruct (team_pe p') as [k'|] eqn:Ek'; [|done].
  destruct (decide (sub' = sub)) as [->|Hs]; [|by rewrite lookup_insert_ne].
  rewrite lookup_insert_eq. assert (k <> k') by (intros ->; by rewrite (team_pe_inj _ _ _ Ek' Hk) in Hne).
  rewrite lookup_insert_ne by done. by destruct (mm !! sub).
Qed.

(** [store] succeeds for a result that was asked for. *)
Record store_ok (q : Req) (hd : Handle) (pe sub : Z) (d : InternalResult) : Prop := {
  so_step : hstep (handle q) hd;
  so_held : held hd = held (handle q);
  so_here : stored hd pe sub = Some d;
  so_there : forall sub' a ds pe', asked q !! sub' = Some (a, ds) -> pe' ∈ ds -> (sub', pe') <> (sub, pe) ->
    stored hd pe' sub' = stored (handle q) pe' sub';
  so_shape : shape_ok (on_handle q hd);
  so_data : data_ok (on_handle q hd);
  so_signal : forall os M h, signal_ok os M h q -> signal_ok os M h (on_handle q hd);
}.

(** A structure of one result. *)
Lemma store_ok_single q rd d0 u pe sub d :
  handle q = HReq rd d0 u \/ handle q = HLocal rd d0 u -> shape_ok q ->
  (forall sub' a ds pe', asked q !! sub' = Some (a, ds) -> pe' ∈ ds -> (sub', pe') <> (sub, pe) -> False) ->
  store_ok q (match handle q with HReq _ _ _ => HReq rd (Some d) u | _ => HLocal rd (Some d) u end) pe sub d.
Proof.
  intros Hq Hsh Hno. destruct Hq as [Eh|Eh]; rewrite Eh.
  all: split; rewrite ?Eh; try done; try (intros sub' a ds Ha; specialize (Hsh _ _ _ Ha); by rewrite Eh in Hsh).
  1, 4: split; [done|]; intros g k q' Eq [_ Hg]; rewrite Eq in Hg; by destruct k.
  1, 3: intros; exfalso; by eapply Hno.
  all: intros os M h; unfold signal_ok; cbn; rewrite Eh; intros [_ ?]; by split.
Qed.

Lemma store_asked q sub a ds pe : shape_ok q -> data_ok q -> asked q !! sub = Some (a, ds) -> pe ∈ ds ->
  exists hd, store (handle q) pe sub (result_at pe a) = Done hd /\ store_ok q hd pe sub (result_at pe a).
Proof.
  intros Hsh Hda Ha Hpe. pose proof (Hsh _ _ _ Ha) as Hs.
  assert (Hsame : forall a' ds', asked q !! sub = Some (a', ds') -> ds' = ds) by (intros; congruence).
  assert (Hloc : ds = [me] -> match result_at pe a with RRemote _ _ => False | _ => True end).
  { intros ->. apply list_elem_of_singleton in Hpe as ->. rewrite result_at_me. apply result_here_local. }
  assert (Hthere : forall sub' a' ds' pe', asked q !! sub' = Some (a', ds') -> pe' ∈ ds' -> (sub', pe') <> (sub, pe) ->
    match handle q with
    | HReq _ _ _ | HLocal _ _ _ => False
    | HTask _ _ | HTaskLocal _ _ => sub' <> sub
    | _ => True
    end).
  { intros sub' a' ds' pe' Ha' Hpe' Hne. pose proof (Hsh _ _ _ Ha') as Hs'. pose proof (Hsame a' ds') as Hds.
    destruct (handle q); try done; repeat match goal with H : _ /\ _ |- _ => destruct H end; subst; try intros ->;
      specialize (Hds Ha'); subst;
      repeat match goal with H : exists _, _ |- _ => destruct H as [? H] end; simplify_eq;
      apply list_elem_of_singleton in Hpe, Hpe'; congruence. }
  assert (Hk : ds = pes -> exists k, team_pe pe = Some k /\ (k < length pes)%nat).
  { intros ->. by apply team_pe_elem. }
  unfold data_ok in Hda. destruct (handle q) as [rd d0 u|cnt m u|rd d0 u|g m|g mm|g m] eqn:Eh; unfold_store.
  - eexists. split; [done|]. pose proof (store_ok_single q rd d0 u pe sub (result_at pe a) (or_introl Eh) Hsh Hthere) as Hok. by rewrite Eh in Hok.
  - destruct Hs as [_ Hs]. destruct (Hk Hs) as (k & Ek & Hlt). rewrite Ek. eexists. split; [done|]. split; rewrite ?Eh.
    + split; [|intros g' k' q' Eq [_ Hg]; rewrite Eq in Hg; by destruct k'].
      intros pe' sub'. cbn. destruct (team_pe pe') as [k'|]; [|done].
      destruct (decide (k = k')) as [->|]; [by rewrite lookup_insert_eq|by rewrite lookup_insert_ne].
    + done.
    + cbn. by rewrite Ek, lookup_insert_eq.
    + intros sub' a' ds' pe' Ha' Hpe' Hne. cbn. destruct (team_pe pe') as [k'|] eqn:Ek'; [|done].
      rewrite lookup_insert_ne; [done|]. intros ->. apply Hne. rewrite (team_pe_inj _ _ _ Ek' Ek). f_equal.
      apply Hsh in Ha'. rewrite Eh in Ha'. apply Hsh in Ha. rewrite Eh in Ha. destruct_and?. congruence.
    + intros sub' a' ds' Ha'. specialize (Hsh _ _ _ Ha'). by rewrite Eh in Hsh.
    + unfold data_ok. cbn. intros k' [<-|[_ Hin]]%lookup_insert_is_Some; [done|by apply Hda].
    + intros os M h. unfold signal_ok. cbn. by rewrite Eh.
  - destruct Hs as [_ Hs]. specialize (Hloc Hs).
    exists (HLocal rd (Some (result_at pe a)) u). split; [by destruct (result_at pe a)|].
    pose proof (store_ok_single q rd d0 u pe sub (result_at pe a) (or_intror Eh) Hsh Hthere) as Hok. by rewrite Eh in Hok.
  - eexists. split; [done|]. split; rewrite ?Eh.
    + split; [|intros g' k' q' Eq [H1 Hg]; rewrite Eq in Hg; split; [done|by destruct k']].
      intros pe' sub'. cbn. destruct (decide (sub = sub')) as [->|]; [by rewrite lookup_insert_eq|by rewrite lookup_insert_ne].
    + done.
    + cbn. by rewrite lookup_insert_eq.
    + intros sub' a' ds' pe' Ha' Hpe' Hne. cbn. rewrite lookup_insert_ne; [done|].
      pose proof (Hthere sub' a' ds' pe' Ha' Hpe' Hne). congruence.
    + intros sub' a' ds' Ha'. specialize (Hsh _ _ _ Ha'). by rewrite Eh in Hsh.
    + unfold data_ok. cbn. intros k' [<-|[_ Hin]]%lookup_insert_is_Some; [by eexists|by apply Hda].
    + intros os M h. by unfold signal_ok.
  - destruct (Hk Hs) as (k & Ek & Hlt). rewrite Ek. eexists. split; [done|]. split; rewrite ?Eh.
    + split; [|intros g' k' q' Eq [H1 Hg]; rewrite Eq in Hg; split; [done|by destruct k']].
      intros pe' sub' Hst. destruct (decide ((sub', pe') = (sub, pe))) as [[= -> ->]|Hne].
      * by rewrite (stored_multi _ _ _ _ _ _ Ek).
      * by rewrite (stored_multi_ne _ _ _ _ _ _ _ _ Ek Hne).
    + done.
    + by apply stored_multi.
    + intros sub' a' ds' pe' _ _ Hne. by apply (stored_multi_ne _ _ pe).
    + intros sub' a' ds' Ha'. specialize (Hsh _ _ _ Ha'). by rewrite Eh in Hsh.
    + unfold data_ok. cbn. intros k' m' [[<- <-]|[_ Hin]]%lookup_insert_Some; [|by apply Hda].
      split; [by eexists|]. intros k' [<-|[_ Hin]]%lookup_insert_is_Some; [done|].
      destruct (mm !! sub) as [m|] eqn:Em; [by eapply Hda|cbn in Hin; by rewrite lookup_empty in Hin; destruct Hin].
    + intros os M h. by unfold signal_ok.
  - specialize (Hloc Hs).
    exists (HTaskLocal g (<[sub := result_at pe a]> m)). split; [by destruct (result_at pe a)|]. split; rewrite ?Eh.
    + split; [|intros g' k' q' Eq [H1 Hg]; rewrite Eq in Hg; split; [done|by destruct k']].
      intros pe' sub'. cbn. destruct (decide (sub = sub')) as [->|]; [by rewrite lookup_insert_eq|by rewrite lookup_insert_ne].
    + done.
    + cbn. by rewrite lookup_insert_eq.
    + intros sub' a' ds' pe' Ha' Hpe' Hne. cbn. rewrite lookup_insert_ne; [done|].
      pose proof (Hthere sub' a' ds' pe' Ha' Hpe' Hne). congruence.
    + intros sub' a' ds' Ha'. specialize (Hsh _ _ _ Ha'). by rewrite Eh in Hsh.
    + unfold data_ok. cbn. intros k' [<-|[_ Hin]]%lookup_insert_is_Some; [by eexists|by apply Hda].
    + intros os M h. by unfold signal_ok.
Qed.

Lemma core_store s M L S e o q :
  core s (e :: M) L S -> objs s !! id (er e) = Some o -> reqs s !! req o = Some q -> est e = RData ->
  exists h, store (handle q) (epe e) (sub_id (er e)) (ed e) = Done h /\
    core (set_reqs s (<[req o := on_handle q h]> (reqs s))) (move e RReady :: M) L S.
Proof.
  intros HC Ho Hq He. destruct (entry_asked _ _ _ _ _ _ _ HC Ho Hq) as (Hat & [R1 R2 R3 R4 R5] & a & ds & Ha & Hpe & Hd & _).
  destruct (store_asked q _ a ds (epe e) R1 R2 Ha Hpe) as (h & Hst & [S1 S2 S3 S4 Ssh S5 S6]).
  exists h. rewrite Hd. split; [done|]. eapply core_ext; [| |eapply core_stage; [exact HC|done|done|done| |by rewrite S3]].
  - intros c. unfold entry_ctr. cbn. rewrite He. cbn. lia.
  - done.
  - split; [exact Ssh|exact S5| | |].
    + intros sub a' ds' pe d Ha' Hpe'. cbn. destruct (decide ((sub, pe) = (sub_id (er e), epe e))) as [[= -> ->]|Hne].
      * rewrite S3. intros [= <-]. cbn in Ha'. congruence.
      * rewrite (S4 _ _ _ _ Ha' Hpe' Hne). by apply (R3 _ _ _ _ _ Ha').
    + cbn. rewrite S2. intros Hh sub a' ds' pe Ha' Hpe'.
      destruct (decide ((sub, pe) = (sub_id (er e), epe e))) as [[= -> ->]|Hne]; [left; by rewrite S3|].
      rewrite (S4 _ _ _ _ Ha' Hpe' Hne). destruct (R4 Hh _ _ _ _ Ha' Hpe') as [?|(x & Hx & H1 & H2 & H3 & H4)]; [by left|right].
      apply elem_of_cons in Hx as [->|Hx]; [by rewrite H2, H3 in Hne|]. exists x. split; [by right|done].
    + apply S6. unfold signal_ok in *. destruct (handle q) as [rd d u|cnt m u|rd d u| | |]; try done.
      2: { intros Hu. rewrite (R5 Hu). cbn. unfold entry_cnt at 1 3. change (at_req (objs s) (req o) (move e RReady)) with (at_req (objs s) (req o) e).
           by rewrite He. }
      all: destruct R5 as [R5 R6]; split; [done|]; intros Hu Hr; destruct (R6 Hu Hr) as (x & Hx & H1 & H2);
        apply elem_of_cons in Hx as [->|Hx]; [exists (move e RReady)|exists x]; (split; [by constructor|done]).
Qed.

Lemma at_req_sum os h M : zsum (entry_cnt os h) M <= Z.of_nat (length M).
Proof.
  induction M as [|e M IH]; cbn [zsum length]; [lia|]. unfold entry_cnt at 1. destruct (_ && _); cbn; lia.
Qed.
Lemma entry_cnt_nonneg os h M : 0 <= zsum (entry_cnt os h) M.
Proof. apply zsum_nonneg. intros e _. unfold entry_cnt. destruct (_ && _); cbn; lia. Qed.

Lemma hstep_signal h : hstep h (signal h).
Proof.
  split.
  - intros pe sub. by destruct h.
  - intros g k q <- [H1 H2]. split; [done|]. cbn. by destruct k, (handle q).
Qed.

Lemma core_signal s M L S e o q :
  core s (e :: M) L S -> objs s !! id (er e) = Some o -> reqs s !! req o = Some q -> est e = RReady ->
  Z.of_nat (length (e :: M)) < USIZE ->
  core (set_reqs s (<[req o := on_handle q (signal (handle q))]> (reqs s))) (move e RTeam :: M) L S.
Proof.
  intros HC Ho Hq He Hlen. destruct (entry_asked _ _ _ _ _ _ _ HC Ho Hq) as (Hat & [R1 R2 R3 R4 R5] & a & ds & Ha & Hpe & Hd & Hst).
  specialize (Hst He).
  assert (Hsig : forall pe sub, stored (signal (handle q)) pe sub = stored (handle q) pe sub) by (intros; by destruct (handle q)).
  eapply core_ext; [| |eapply core_stage; [exact HC|done|done|apply hstep_signal| |done]].
  - intros c. unfold entry_ctr. cbn. rewrite He. cbn. lia.
  - done.
  - split.
    + intros sub a' ds' Ha'. specialize (R1 _ _ _ Ha'). cbn. by destruct (handle q).
    + unfold data_ok in *. cbn. by destruct (handle q).
    + intros sub a' ds' pe d Ha' Hpe'. cbn. rewrite Hsig. by apply (R3 _ a' ds').
    + cbn. intros Hh sub a' ds' pe Ha' Hpe'. rewrite Hsig. destruct (R4 (ltac:(by destruct (handle q))) _ _ _ _ Ha' Hpe')
        as [?|(x & Hx & H1 & H2 & H3 & H4)]; [by left|right].
      apply elem_of_cons in Hx as [->|Hx]; [by rewrite He in H4|]. exists x. split; [by right|done].
    + unfold signal_ok in *. cbn. pose proof (R1 _ _ _ Ha) as Hs. destruct (handle q) as [rd d u|cnt m u|rd d u| | |]; cbn; try done.
      intros Hu. rewrite (R5 Hu). pose proof (at_req_sum (objs s) (req o) M). pose proof (entry_cnt_nonneg (objs s) (req o) M).
      cbn [zsum length] in *. unfold entry_cnt at 1 3. change (at_req (objs s) (req o) (move e RTeam)) with (at_req (objs s) (req o) e).
      rewrite He, Hat. cbn. rewrite wsub_ok by lia. lia.
Qed.

(** Dropping a handle. *)
Definition unheld (h : Handle) : Handle :=
  match h with
  | HReq r d _ => HReq r d false | HMulti c m _ => HMulti c m false | HLocal r d _ => HLocal r d false
  | _ => h
  end.

Lemma core_reqs s M L S h0 q h :
  core s M L S -> reqs s !! h0 = Some q -> hstep (handle q) h -> req_ok (objs s) M h0 (on_handle q h) ->
  core (set_reqs s (<[h0 := on_handle q h]> (reqs s))) M L S.
Proof.
  intros [C1 C2 C3 C4 C5 C6] Hq [Hst Hgr] Hok. set (s' := set_reqs s _).
  pose proof (link_on_handle s h0 q h Hq Hst) as Hlk. fold s' in Hlk.
  split; [|exact C2| | | |].
  - intros c. change (outstanding s' c) with (outstanding s c). rewrite C1. apply eqmod_eq. f_equal.
    apply zsum_ext. intros e He. destruct (C4 e He) as (q0 & a & ds & H1 & _).
    destruct (Hlk _ _ H1) as (q1 & K1 & K2 & _). unfold entry_ctr. rewrite (counts_ext (link_tg s') (link_tg s)); [done|].
    unfold link_tg. rewrite K1, H1. cbn. by rewrite K2.
  - intros j o' Ho'. destruct (C3 j o' Ho') as [? Hr]. split; [done|]. cbn. apply lookup_insert_is_Some.
    destruct (decide (h0 = req o')); [by left|by right].
  - intros e He. destruct (C4 e He) as (q0 & a & ds & H1 & H2 & H3 & H4 & H5). destruct (Hlk _ _ H1) as (q1 & K1 & K2 & K3 & K4).
    exists q1, a, ds. rewrite K3. split_and!; try done. intros E. by apply K4, H5.
  - intros h' q0. unfold s' at 1. cbn. intros [[<- <-]|[Hne Hq0]]%lookup_insert_Some; [exact Hok|by apply C5].
  - intros g' k Hg'. destruct (C6 g' k Hg') as (o' & q0 & K1 & K2 & K3 & K4). exists o'. unfold s'. cbn.
    destruct (decide (h0 = group_obj g' k)) as [->|Hne].
    + exists (on_handle q h). rewrite lookup_insert_eq. split_and!; try done. apply Hgr; [done|]. rewrite Hq in K3. by injection K3 as <-.
    + exists q0. by rewrite lookup_insert_ne.
Qed.

Lemma core_unheld s M L S i q :
  core s M L S -> reqs s !! i = Some q -> core (set_reqs s (<[i := on_handle q (unheld (handle q))]> (reqs s))) M L S.
Proof.
  intros HC Hq. apply core_reqs; [done|done| |].
  - split; [intros pe sub; by destruct (handle q)|]. intros g k q' <- [H1 H2]. split; [done|]. cbn. by destruct k, (handle q').
  - destruct (c_reqs _ _ _ _ HC _ _ Hq) as [R1 R2 R3 R4 R5].
    assert (Hsig : forall pe sub, stored (unheld (handle q)) pe sub = stored (handle q) pe sub) by (intros; by destruct (handle q)).
    split.
    + intros sub a' ds' Ha'. specialize (R1 _ _ _ Ha'). cbn. by destruct (handle q).
    + unfold data_ok in *. cbn. by destruct (handle q).
    + intros sub a' ds' pe d Ha' Hpe'. cbn. rewrite Hsig. by apply (R3 _ a' ds').
    + cbn. intros Hh sub a' ds' pe Ha' Hpe'. rewrite Hsig. apply (R4 (ltac:(by destruct (handle q))) _ _ _ _ Ha' Hpe').
    + unfold signal_ok in *. cbn. destruct (handle q); cbn; try done; split; try done; by destruct R5.
Qed.
End Inv.
