(* ===== verification/AmLife.v ===== *)
(** What the life of an active message comes to: the invariant of every
    reachable state of ActiveMessages.v, and with it that no step panics, that a
    run ends with every active message run exactly once on each of its PEs, that
    a handle yields the results the bodies computed, and that [wait_all] waits
    for the active messages that were launched before, unless the runtime shuts down. *)

From stdpp Require Import base list numbers gmap relations.
From Stdlib Require Import ZArith Lia.
From S2P Require Import Prelude Wire ConcreteCodec DirectMsg ActiveMessages AmInvariant.

Local Open Scope Z_scope.

Section Life.
Context {ENV : Env} `{!Ranked} `{!EnvOk}.

Ltac unfold_prog_ := unfold prog, exec_am_pe_tg, exec_am_all_tg, exec_am_local_tg, exec_am_pe_inner, exec_am_all_inner,
  exec_arc_am_local_inner, add_send_req.
Tactic Notation "unfold_prog" := unfold_prog_.
Tactic Notation "unfold_prog" "in" hyp(H) := revert H; unfold_prog_; intros H.

(** ** What launches in progress and handles account for *)
Definition occ (op : Op) (ops : list Op) : Z := zsum (fun o => Z.b2z (bool_decide (o = op))) ops.

(** Beyond the results that are owed already ([entries]). *)
Definition launch_ctr (c : Ctr) (t : Task) : Z :=
  match t with
  | Launching l ops _ => num_results (lkind l) * ((if named ops then 0 else occ (OAdd c) (prog l)) - occ (OAdd c) ops)
  | _ => 0
  end.
Definition launch_strong (i : Z) (t : Task) : Z :=
  match t with
  | Launching l ops _ =>
    match lowner l with
    | ByGroup g => if decide (i = group_obj g (lkind l)) then num_results (lkind l) * (occ (OSub g) ops - occ (OStrong g) ops) else 0
    | ByTeam _ => 0
    end
  | _ => 0
  end.

Definition in_group (g i : Z) : bool := bool_decide (i = group_obj g KPe \/ i = group_obj g KAll \/ i = group_obj g KLocal).

(** The handles of a task group that will be dropped. *)
Definition launch_handle (g : Z) (t : Task) : Z :=
  match t with
  | Launching l ops _ => match lowner l with ByGroup g' => if decide (g' = g) then 1 - occ (OCnt g) ops else 0 | _ => 0 end
  | UserHandle i => Z.b2z (in_group g i)
  | _ => 0
  end.
Definition sub_left (g : Z) (t : Task) : Z := match t with Launching _ ops _ => occ (OSub g) ops | _ => 0 end.

(** How many results, handles and requests a task can still produce. *)
Definition weight (t : Task) : Z :=
  match t with Launching l _ _ => num_results (lkind l) | UserHandle _ => 0 | _ => Z.of_nat (length (entries t)) end.
Definition handles (t : Task) : Z := match t with Launching _ _ _ | UserHandle _ => 1 | _ => 0 end.

Definition group_of (h : Handle) : option Z :=
  match h with HTask g _ | HTaskMulti g _ | HTaskLocal g _ => Some g | _ => None end.

(** [N]: the number of results of all launches; [target]: what they run. *)
Record inv (N : Z) (target : list (Z * am)) (s : St) (ts : list Task) : Prop := {
  i_core : core s (all_entries ts) (fun c => zsum (launch_ctr c) ts) (fun i => zsum (launch_strong i) ts);
  i_tasks : Forall task_ok ts;
  i_handles : forall i, UserHandle i ∈ ts -> is_Some (reqs s !! i);
  i_groups : forall h q g, reqs s !! h = Some q -> group_of (handle q) = Some g -> g ∈ groups /\ in_group g h = true;
  i_objs : forall i o, objs s !! i = Some o -> is_group_obj (req o) -> req o = i;
  i_log : log s ++ all_runs ts ≡ₚ target;
  i_weight : zsum weight ts <= N;
  i_held : forall g, g ∈ groups -> exists kept, 0 <= kept /\ tg_cnt s g = 1 + zsum (launch_handle g) ts + kept /\
    kept + zsum handles ts <= N;
  i_subs : forall g, g ∈ groups -> 0 <= sub_ids s g /\ sub_ids s g + zsum (sub_left g) ts <= N /\
    forall k q sub, reqs s !! group_obj g k = Some q -> is_Some (asked q !! sub) -> 0 <= sub < sub_ids s g;
}.

Lemma core_same s s' M L S :
  outstanding s' = outstanding s -> objs s' = objs s -> reqs s' = reqs s -> core s M L S -> core s' M L S.
Proof.
  destruct s as [o1 b1 r1 t1 u1 k1 g1], s' as [o2 b2 r2 t2 u2 k2 g2]. cbn. intros -> -> -> [C1 C2 C3 C4 C5 C6].
  split; [exact C1|exact C2|exact C3|exact C4|exact C5|exact C6].
Qed.

Lemma core_permutation s ts ts' :
  ts ≡ₚ ts' ->
  core s (all_entries ts) (fun c => zsum (launch_ctr c) ts) (fun i => zsum (launch_strong i) ts) ->
  core s (all_entries ts') (fun c => zsum (launch_ctr c) ts') (fun i => zsum (launch_strong i) ts').
Proof.
  intros Hp HC. apply (core_perm _ (all_entries ts)); [by apply Permutation_flat_map|].
  eapply core_ext, HC; intros; by apply zsum_perm.
Qed.

Lemma inv_perm N target s ts ts' : ts ≡ₚ ts' -> inv N target s ts -> inv N target s ts'.
Proof.
  intros Hp [I1 I2 I3 I4 Io I5 I6 I7 I8]. split.
  - by eapply core_permutation.
  - by rewrite <- Hp.
  - intros i Hi. apply I3. by rewrite Hp.
  - done.
  - done.
  - rewrite <- I5. f_equiv. by apply Permutation_flat_map.
  - by rewrite <- (zsum_perm _ _ _ Hp).
  - intros g Hg. destruct (I7 g Hg) as (kept & H1 & H2 & H3). exists kept. by rewrite <- !(zsum_perm _ _ _ Hp).
  - intros g Hg. rewrite <- (zsum_perm _ _ _ Hp). by apply I8.
Qed.

(** ** Steps of messages and results *)
Definition plain (t : Task) : Prop := match t with Launching _ _ _ | UserHandle _ => False | _ => True end.

Lemma plain_zero t : plain t ->
  (forall c, launch_ctr c t = 0) /\ (forall i, launch_strong i t = 0) /\ (forall g, launch_handle g t = 0) /\
  (forall g, sub_left g t = 0) /\ handles t = 0 /\ weight t = Z.of_nat (length (entries t)).
Proof. by destruct t. Qed.

Lemma zsum_zero {A} (f : A -> Z) l : Forall (fun x => f x = 0) l -> zsum f l = 0.
Proof. induction 1 as [|x l Hx _ IH]; cbn; lia. Qed.

Lemma plain_sums ts : Forall plain ts ->
  (forall c, zsum (launch_ctr c) ts = 0) /\ (forall i, zsum (launch_strong i) ts = 0) /\
  (forall g, zsum (launch_handle g) ts = 0) /\ (forall g, zsum (sub_left g) ts = 0) /\
  zsum handles ts = 0 /\ zsum weight ts = Z.of_nat (length (all_entries ts)).
Proof.
  intros Hts. split_and!; intros; try (apply zsum_zero; eapply Forall_impl; [exact Hts|];
    intros t Ht; pose proof (plain_zero t Ht); naive_solver).
  induction Hts as [|t ts Ht _ IH]; [done|]. cbn. rewrite length_app.
  destruct (plain_zero t Ht) as (_ & _ & _ & _ & _ & ->). unfold all_entries in IH. lia.
Qed.

(** What such a step does to the structures. *)
Definition same_reqs (s s' : St) : Prop :=
  (forall h, is_Some (reqs s !! h) -> is_Some (reqs s' !! h)) /\
  (forall h q', reqs s' !! h = Some q' -> exists q, reqs s !! h = Some q /\
    group_of (handle q') = group_of (handle q) /\ asked q' = asked q) /\
  forall i o', objs s' !! i = Some o' -> exists o, objs s !! i = Some o /\ req o' = req o.

Lemma same_reqs_eq s s' : reqs s' = reqs s -> objs s' = objs s -> same_reqs s s'.
Proof. intros E Eo. split_and!; rewrite ?E, ?Eo; [done|intros h q Hq; by exists q|intros i o Ho; by exists o]. Qed.

Lemma same_reqs_handle s h q hd : reqs s !! h = Some q -> group_of hd = group_of (handle q) ->
  same_reqs s (set_reqs s (<[h := on_handle q hd]> (reqs s))).
Proof.
  intros Hq Hg. split_and!; cbn.
  - intros j Hj. apply lookup_insert_is_Some. destruct (decide (h = j)); [by left|by right].
  - intros j q' [[<- <-]|[Hne Hj]]%lookup_insert_Some; [by exists q|by exists q'].
  - intros i o Ho. by exists o.
Qed.

Lemma inv_plain N target s s' t ts rest :
  inv N target s (t :: rest) -> plain t -> Forall plain ts -> Forall task_ok ts ->
  core s' (all_entries (ts ++ rest)) (fun c => zsum (launch_ctr c) rest) (fun i => zsum (launch_strong i) rest) ->
  (length (all_entries ts) <= length (entries t))%nat ->
  same_reqs s s' -> tg_cnt s' = tg_cnt s -> sub_ids s' = sub_ids s ->
  log s' ++ all_runs ts ≡ₚ log s ++ runs t ->
  inv N target s' (ts ++ rest).
Proof.
  intros [I1 I2 I3 I4 Io I5 I6 I7 I8] Ht Hts Hok HC Hlen (Hr1 & Hr2 & Hr3) Etg Esub Hlog.
  destruct (plain_zero t Ht) as (Z1 & Z2 & Z3 & Z4 & Z5 & Z6).
  destruct (plain_sums ts Hts) as (P1 & P2 & P3 & P4 & P5 & P6). cbn [zsum] in *. split.
  - eapply core_ext, HC; intros; rewrite zsum_app; [rewrite P1|rewrite P2]; done.
  - apply Forall_app. split; [done|]. by apply Forall_cons in I2 as [_ I2].
  - intros i [Hi|Hi]%elem_of_app; [|apply Hr1, I3; by right].
    rewrite Forall_forall in Hts. by apply Hts in Hi.
  - intros h q g Hq. destruct (Hr2 h q Hq) as (q0 & H1 & -> & _). by apply I4.
  - intros i o' Ho' Hg. destruct (Hr3 i o' Ho') as (o & Ho & Er). rewrite Er in *. by apply (Io i o).
  - rewrite all_runs_app, (Permutation_app_comm (all_runs ts)), app_assoc, <- I5. cbn.
    rewrite <- (app_assoc (log s')), (Permutation_app_comm (all_runs rest)), app_assoc, Hlog. by rewrite app_assoc.
  - rewrite zsum_app, P6. lia.
  - intros g Hg. destruct (I7 g Hg) as (kept & H1 & H2 & H3). exists kept.
    rewrite !zsum_app, Etg, P3, P5. rewrite Z3 in H2. rewrite Z5 in H3. split_and!; [done|lia|lia].
  - intros g Hg. destruct (I8 g Hg) as (H1 & H2 & H3). rewrite Z4 in H2. rewrite zsum_app, Esub, P4. split_and!; [done|lia|].
    intros k q sub Hq. destruct (Hr2 _ _ Hq) as (q0 & Hq0 & _ & ->). by eapply H3.
Qed.

(** Nothing but the log. *)
Lemma inv_moves N target s s' t ts rest :
  inv N target s (t :: rest) -> plain t -> Forall plain ts -> Forall task_ok ts ->
  all_entries ts ≡ₚ entries t -> outstanding s' = outstanding s -> objs s' = objs s -> reqs s' = reqs s ->
  tg_cnt s' = tg_cnt s -> sub_ids s' = sub_ids s -> log s' ++ all_runs ts ≡ₚ log s ++ runs t ->
  inv N target s' (ts ++ rest).
Proof.
  intros Hi Ht Hts Hok He Eo Eb Er Etg Esub Hlog.
  eapply inv_plain; [exact Hi|done|done|done| | |by apply same_reqs_eq|done|done|done].
  - destruct Hi as [I1 _ _ _ _ _ _ _ _]. apply (core_same s); [done..|].
    destruct (plain_zero t Ht) as (Z1 & Z2 & _). rewrite all_entries_app.
    eapply core_ext, core_perm, I1; [intros c; cbn; by rewrite Z1|intros i; cbn; by rewrite Z2|].
    cbn. by rewrite He.
  - by rewrite He.
Qed.

Lemma process_plain p imm m : Forall plain (process_msg p imm m).
Proof.
  assert (Hs : forall rq r, Forall plain (send p imm rq r)).
  { intros rq r. apply Forall_forall. by intros t (q & -> & _)%list_elem_of_fmap. }
  destruct m; cbn; try apply Hs; [|case_bool_decide; [by repeat constructor|apply Hs]|by repeat constructor].
  apply Forall_app. split; [destruct (_ && _); [apply Hs|constructor]|]. case_bool_decide; by repeat constructor.
Qed.

Definition with_log (s : St) (lg : list (Z * am)) : St :=
  {| outstanding := outstanding s; objs := objs s; reqs := reqs s; tg_cnt := tg_cnt s; sub_ids := sub_ids s;
     tasks := tasks s; log := lg |}.

Lemma step_process N target s p imm m rest :
  inv N target s (Process p imm m :: rest) -> inv N target s (process_msg p imm m ++ rest).
Proof.
  intros Hi. pose proof (i_tasks _ _ _ _ Hi) as [Hok _]%Forall_cons.
  destruct (process_moves p imm m Hok) as (He & Hr & Ht).
  eapply inv_moves; [exact Hi|done|apply process_plain|done|done|done..|]. by rewrite Hr.
Qed.

Lemma step_transit N target s b from to e rest :
  inv N target s (Transit b from to e :: rest) -> inv N target s (arrive from to e :: rest).
Proof.
  intros Hi. pose proof (i_tasks _ _ _ _ Hi) as [Hok _]%Forall_cons.
  destruct (arrive_moves b from to e Hok) as (He & Hr & Ht).
  apply (inv_moves _ _ _ s _ [arrive from to e] _ Hi); try done; [by constructor; [destruct e|]|by constructor| |];
    cbn; by rewrite app_nil_r, ?He, ?Hr.
Qed.

Lemma inv_ran N target s t t' p a rest :
  inv N target s (t :: rest) -> plain t -> plain t' -> task_ok t' ->
  entries t' = entries t -> (p, a) :: runs t' = runs t -> inv N target (logged s p a) (t' :: rest).
Proof.
  intros Hi Ht Ht' Hok He Hr. apply (inv_moves _ _ _ (logged s p a) _ [t'] _ Hi); try done; [by constructor|by constructor| |]; cbn.
  - by rewrite app_nil_r, He.
  - by rewrite app_nil_r, <- Hr, <- app_assoc.
Qed.

Lemma step_run_remote N target s p rq a rest :
  inv N target s (RunRemote p rq a :: rest) ->
  exists t, exec_am p rq a = Done t /\ inv N target (logged s p a) (t :: rest).
Proof.
  intros Hi. pose proof (i_tasks _ _ _ _ Hi) as [[Hs Hd] _]%Forall_cons.
  destruct (exec_am_moves p rq a Hs Hd) as (t & Et & He & Hr & Ht). exists t. split; [done|].
  apply (inv_ran _ _ _ _ _ _ _ _ Hi); try done. unfold exec_am in Et. destruct (exec _ _ _); by simplify_eq.
Qed.

Lemma step_run_local N target s p rq a rest :
  inv N target s (RunLocal p rq a :: rest) ->
  exists t, exec_local_am p rq a = Done t /\ inv N target (logged s p a) (t :: rest).
Proof.
  intros Hi. pose proof (i_tasks _ _ _ _ Hi) as [Hp _]%Forall_cons. cbn in Hp. subst p.
  destruct (exec_local_am_moves rq a) as (t & Et & He & Hr & Ht). exists t. split; [done|].
  apply (inv_ran _ _ _ _ _ _ _ _ Hi); try done. unfold exec_local_am in Et. destruct (exec _ _ _); by simplify_eq.
Qed.

(** *** Completing a result *)
Lemma occ_app op ops ops' : occ op (ops ++ ops') = occ op ops + occ op ops'.
Proof. apply zsum_app. Qed.
Lemma occ_nil op : occ op [] = 0.
Proof. done. Qed.
Lemma occ_cons op o ops : occ op (o :: ops) = (if decide (o = op) then 1 else 0) + occ op ops.
Proof. unfold occ. cbn. by destruct (decide (o = op)) as [Ho|Ho]; [rewrite bool_decide_eq_true_2|rewrite bool_decide_eq_false_2]. Qed.
Lemma occ_nonneg op ops : 0 <= occ op ops.
Proof. apply zsum_nonneg. intros o _. destruct (bool_decide _); cbn; lia. Qed.

(** Every operation occurs at most once in a launch. *)
Lemma prog_nodup l : NoDup (prog l).
Proof.
  unfold_prog. destruct (lowner l) as [[g|]|g], (lkind l); cbn; repeat (constructor; [by set_solver|]); constructor.
Qed.

Lemma occ_le_1 op ops : NoDup ops -> occ op ops <= 1.
Proof.
  induction 1 as [|o ops Hno _ IH]; [done|]. rewrite occ_cons. case_decide as E; [|lia]. subst.
  assert (occ op ops = 0) as ->; [|lia]. apply zsum_zero, Forall_forall. intros x Hx.
  rewrite bool_decide_eq_false_2; [done|]. by intros ->.
Qed.

Lemma launching_occ l done_ ops op : prog l = done_ ++ ops -> 0 <= occ op ops <= 1.
Proof.
  intros E. pose proof (occ_le_1 op _ (prog_nodup l)) as Hle. rewrite E, occ_app in Hle.
  pose proof (occ_nonneg op done_). pose proof (occ_nonneg op ops). lia.
Qed.

Lemma launch_handle_bounds g t : task_ok t -> 0 <= launch_handle g t <= handles t.
Proof.
  destruct t as [l ops r|i|p imm m|b from to e|p rq a|p rq a|r pe d st]; cbn; try lia.
  - intros (_ & (done_ & E) & _). destruct (lowner l) as [tg|g']; [lia|]. case_decide; [|lia].
    pose proof (launching_occ l done_ ops (OCnt g) E). lia.
  - intros _. destruct (in_group g i); cbn; lia.
Qed.

Lemma dests_length l : launch_ok l -> Z.of_nat (length (dests l)) = num_results (lkind l).
Proof.
  intros Hl. pose proof (dests_shape l Hl) as Hd. unfold num_results, num_pes. destruct (lkind l).
  - by destruct Hd as (d & _ & ->).
  - by rewrite Hd.
  - by rewrite Hd.
Qed.

Lemma num_results_pos k : 1 <= num_results k.
Proof. unfold num_results, num_pes. pose proof pes_ne. destruct k; try lia. destruct pes; [done|cbn; lia]. Qed.

Lemma entries_weight t : task_ok t -> Z.of_nat (length (entries t)) <= weight t.
Proof.
  destruct t as [l ops r|i|p imm m|b from to e|p rq a|p rq a|r pe d st]; cbn [weight entries length]; try done.
  intros (Hl & _). pose proof (dests_length l Hl). pose proof (num_results_pos (lkind l)).
  destruct (named ops); [rewrite length_map|cbn [length]]; lia.
Qed.

Lemma all_entries_weight ts : Forall task_ok ts -> Z.of_nat (length (all_entries ts)) <= zsum weight ts.
Proof.
  induction 1 as [|t ts Ht _ IH]; [done|]. cbn. rewrite length_app. pose proof (entries_weight t Ht).
  unfold all_entries in IH. lia.
Qed.

Lemma launch_handles_bounds g ts : Forall task_ok ts -> 0 <= zsum (launch_handle g) ts <= zsum handles ts.
Proof. induction 1 as [|t ts Ht _ IH]; cbn; [lia|]. pose proof (launch_handle_bounds g t Ht). lia. Qed.

Lemma group_held N target s ts g : inv N target s ts -> g ∈ groups -> 0 < tg_cnt s g <= 1 + N.
Proof.
  intros Hi Hg. destruct (i_held _ _ _ _ Hi g Hg) as (kept & H1 & H2 & H3).
  pose proof (i_tasks _ _ _ _ Hi) as Hts.
  pose proof (launch_handles_bounds g ts Hts). lia.
Qed.

Lemma not_user_held N target s ts h q :
  inv N target s ts -> reqs s !! h = Some q -> user_held s (handle q) = false -> held (handle q) = false.
Proof.
  intros Hi Hq Hu. pose proof (fun g => i_groups _ _ _ _ Hi h q g Hq) as Hg.
  destruct (handle q) as [rd d u|cnt m u|rd d u|g m|g mm|g m]; try exact Hu; cbn in *; exfalso;
    destruct (Hg g eq_refl) as [Hin _]; pose proof (group_held _ _ _ _ _ Hi Hin); lia.
Qed.

Lemma store_group h pe sub d h' : store h pe sub d = Done h' -> group_of h' = group_of h.
Proof. unfold_store. destruct h; cbn; try destruct (team_pe pe); try destruct d; cbn; intros; by simplify_eq. Qed.

Lemma result_entry N target s r pe d st rest :
  inv N target s (Result r pe d st :: rest) ->
  exists o q, objs s !! id r = Some o /\ reqs s !! req o = Some q.
Proof.
  intros Hi. destruct (c_entries _ _ _ _ (i_core _ _ _ _ Hi) {| er := r; epe := pe; ed := d; est := st |}) as (q & a & ds & Hl & _).
  { cbn. by left. }
  apply link_obj in Hl as (o & Ho & Hq). by exists o, q.
Qed.

(** A stage of a result. *)
Lemma inv_result N target s s' r pe d st st' rest :
  inv N target s (Result r pe d st :: rest) ->
  core s' (move {| er := r; epe := pe; ed := d; est := st |} st' :: all_entries rest)
    (fun c => zsum (launch_ctr c) rest) (fun i => zsum (launch_strong i) rest) ->
  same_reqs s s' -> tg_cnt s' = tg_cnt s -> sub_ids s' = sub_ids s -> log s' = log s ->
  inv N target s' (Result r pe d st' :: rest).
Proof.
  intros Hi HC Hr Etg Esub Elog.
  apply (inv_plain _ _ s s' _ [Result r pe d st'] _ Hi); [done|by constructor|by constructor|exact HC|done..|].
  cbn. by rewrite Elog.
Qed.

Lemma result_core N target s r pe d st rest :
  inv N target s (Result r pe d st :: rest) ->
  core s ({| er := r; epe := pe; ed := d; est := st |} :: all_entries rest)
    (fun c => zsum (launch_ctr c) rest) (fun i => zsum (launch_strong i) rest).
Proof. intros Hi. exact (i_core _ _ _ _ Hi). Qed.

Lemma core_uncount s M L S e st o q c :
  core s (e :: M) L S -> objs s !! id (er e) = Some o -> reqs s !! req o = Some q ->
  unsignalled (est e) = false -> unsignalled st = false ->
  (forall c', entry_ctr (link_tg s) c' e = entry_ctr (link_tg s) c' (move e st) + if decide (c' = c) then 1 else 0) ->
  core (add_ctr s c (-1)) (move e st :: M) L S.
Proof.
  intros HC Ho Hq He Hst Hc. eapply core_ext; [| |apply core_add; eapply (core_pass _ _ _ _ e st); [exact HC|exact Ho|exact Hq|..]].
  - intros c'. cbn beta. rewrite (Hc c'). case_decide; ring.
  - done.
  - by destruct (est e).
  - rewrite He. done.
  - rewrite Hst. done.
  - by intros ->.
Qed.

(** Strong counts taken by launches that do not have their result yet. *)
Lemma subs_last l done_ ops g :
  lowner l = ByGroup g -> prog l = done_ ++ ops -> occ (OStrong g) ops <= occ (OSub g) ops.
Proof.
  intros El E. assert (Eo : ops = drop (length done_) (prog l)) by (by rewrite E, drop_app_length).
  rewrite Eo. generalize (length done_) as n. unfold_prog. rewrite El. intros n. destruct (lkind l);
  do 7 (destruct n as [|n]; [cbn [drop]; repeat (rewrite occ_cons; case_decide; try congruence); rewrite ?occ_nil; lia|]);
  cbn [drop]; by rewrite drop_nil.
Qed.

Lemma launch_strong_nonneg i t : task_ok t -> 0 <= launch_strong i t.
Proof.
  destruct t as [l ops r| | | | | |]; cbn; try lia. intros (_ & (done_ & E) & _).
  destruct (lowner l) as [tg|g] eqn:El; [lia|]. case_decide; [|lia].
  pose proof (subs_last l done_ ops g El E). pose proof (num_results_pos (lkind l)). nia.
Qed.

Lemma launch_strongs_nonneg i ts : Forall task_ok ts -> 0 <= zsum (launch_strong i) ts.
Proof. intros Hts. apply zsum_nonneg. intros t Ht. apply launch_strong_nonneg. by eapply Forall_forall in Hts. Qed.

Lemma step_result N target s r pe d st rest :
  N + 1 < USIZE -> inv N target s (Result r pe d st :: rest) ->
  exists s' ts, result_step s r pe d st = Done (s', ts) /\ inv N target s' (ts ++ rest).
Proof.
  intros HN Hi. pose proof (result_core _ _ _ _ _ _ _ _ Hi) as HC.
  destruct (result_entry _ _ _ _ _ _ _ _ Hi) as (o & q & Ho & Hq).
  unfold result_step, req_of, put_req. rewrite Ho. cbn [unwrap]. rewrite Hq. cbn [unwrap].
  destruct st.
  - destruct (user_held s (handle q)) eqn:Eu; (eexists _, [_]; split; [done|]); (eapply inv_result; [exact Hi| |by apply same_reqs_eq|done..]).
    + eapply core_ext; [| |eapply (core_pass _ _ _ _ _ RData); [exact HC|exact Ho|exact Hq|by left..|done|done]]; [|done].
      intros c. unfold entry_ctr. cbn. lia.
    + pose proof (not_user_held _ _ _ _ _ _ Hi Hq Eu).
      eapply core_ext; [| |eapply (core_pass _ _ _ _ _ RTeam); [exact HC|exact Ho|exact Hq|by right..|done|done]]; [|done].
      intros c. unfold entry_ctr. cbn. lia.
  - destruct (core_store _ _ _ _ _ _ _ HC Ho Hq eq_refl) as (h & Eh & HC'). cbn in Eh. rewrite Eh.
    eexists _, [_]; split; [done|]. eapply inv_result; [exact Hi|exact HC'| |done..].
    apply same_reqs_handle; [done|]. by eapply store_group.
  - eexists _, [_]; split; [done|]. eapply inv_result; [exact Hi| | |done..].
    + apply core_signal; [exact HC|done..|]. pose proof (all_entries_weight _ (i_tasks _ _ _ _ Hi)) as Hw.
      pose proof (i_weight _ _ _ _ Hi). eapply Z.le_lt_trans; [exact Hw|lia].
    + apply same_reqs_handle; [done|]. by destruct (handle q).
  - eexists _, [_]; split; [done|]. eapply inv_result; [exact Hi| |by apply same_reqs_eq|done..].
    apply (core_uncount s _ _ _ _ RWorld o q CTeam HC Ho Hq); try done.
    intros [| |g]; unfold entry_ctr; cbn; case_decide; done || lia.
  - eexists _, [_]; split; [done|]. eapply inv_result; [exact Hi| |by apply same_reqs_eq|done..].
    apply (core_uncount s _ _ _ _ RTg o q CWorld HC Ho Hq); try done.
    intros [| |g]; unfold entry_ctr; cbn; case_decide; done || lia.
  - assert (Htg : forall g, entry_ctr (link_tg s) (CTg g) {| er := r; epe := pe; ed := d; est := RTg |} =
      if decide (tg q = Some g) then 1 else 0).
    { intros g. unfold entry_ctr, counts, link_tg, link. cbn. rewrite Ho, Hq. cbn. do 2 case_decide; congruence. }
    destruct (tg q) as [g|] eqn:Eg; (eexists _, [_]; split; [done|]); (eapply inv_result; [exact Hi| |by apply same_reqs_eq|done..]).
    + apply (core_uncount s _ _ _ _ RArc o q (CTg g) HC Ho Hq); try done.
      intros [| |g']; [done..|]. rewrite Htg. unfold entry_ctr. cbn. do 2 case_decide; lia || congruence.
    + eapply core_ext; [| |eapply (core_pass _ _ _ _ _ RArc); [exact HC|exact Ho|exact Hq|done..]]; [|done].
      intros [| |g]; [unfold entry_ctr; cbn; lia..|]. rewrite Htg. unfold entry_ctr. cbn. case_decide; done || lia.
  - eexists _, []; split; [done|].
    apply (inv_plain _ _ s _ _ [] _ Hi); try done; [|cbn; lia|].
    2: { split_and!; [done|intros h q' Hq'; by exists q'|]. intros i o'. cbn. destruct (strong o =? 1).
         - intros [_ Ho']%lookup_delete_Some. by exists o'.
         - intros [[<- <-]|[_ Ho']]%lookup_insert_Some; [by exists o|by exists o']. }
    apply (core_free _ _ _ _ {| er := r; epe := pe; ed := d; est := RArc |}); [exact HC|done| |done].
    intros i. apply launch_strongs_nonneg. by pose proof (i_tasks _ _ _ _ Hi) as [_ ?]%Forall_cons.
Qed.

(** ** Handles *)
Lemma in_group_spec g i : in_group g i = true <-> exists k, i = group_obj g k.
Proof.
  unfold in_group. rewrite bool_decide_eq_true. split.
  - intros [->|[->| ->]]; by eexists.
  - intros [[] ->]; tauto.
Qed.

Lemma in_group_obj g i : g ∈ groups -> in_group g i = true -> is_group_obj i.
Proof. intros Hg [k ->]%in_group_spec. by exists g, k. Qed.

Lemma in_group_inj g g' k : in_group g (group_obj g' k) = bool_decide (g = g').
Proof.
  case_bool_decide as E.
  - subst. apply in_group_spec. by exists k.
  - apply not_true_iff_false. rewrite in_group_spec. intros [k' [-> _]%group_obj_inj]. done.
Qed.

Lemma group_req N target s ts i q g :
  inv N target s ts -> reqs s !! i = Some q -> g ∈ groups -> in_group g i = bool_decide (group_of (handle q) = Some g).
Proof.
  intros Hi Hq Hg. apply eq_bool_prop_intro. rewrite bool_decide_spec, Is_true_true. split.
  - intros [k ->]%in_group_spec. destruct (c_groups _ _ _ _ (i_core _ _ _ _ Hi) g k Hg) as (o & q' & _ & _ & Hq' & _ & Hh).
    rewrite Hq in Hq'. injection Hq' as <-. by destruct k, (handle q); try done; subst.
  - intros E. by apply (i_groups _ _ _ _ Hi i q g).
Qed.

Lemma step_drop N target s i rest :
  N + 1 < USIZE -> inv N target s (UserHandle i :: rest) ->
  exists s', drop_handle s i = Done s' /\ inv N target s' rest.
Proof.
  intros HN Hi. destruct (i_handles _ _ _ _ Hi i) as [q Hq]; [by left|].
  pose proof (fun g Hg => group_req _ _ _ _ _ _ g Hi Hq Hg) as Hgr.
  unfold drop_handle. rewrite Hq. cbn [unwrap]. eexists. split; [done|].
  assert (Hsingle : group_of (handle q) = None ->
    inv N target (set_reqs s (<[i := on_handle q (unheld (handle q))]> (reqs s))) rest).
  { intros En. pose proof (core_unheld _ _ _ _ _ _ (i_core _ _ _ _ Hi) Hq) as HC.
    destruct (same_reqs_handle s i q (unheld (handle q)) Hq) as (Hr1 & Hr2 & Hr3); [by destruct (handle q)|].
    destruct Hi as [I1 I2 I3 I4 Io I5 I6 I7 I8]. split; try done.
    - by apply Forall_cons in I2 as [_ I2].
    - intros j Hj. apply Hr1, I3. by right.
    - intros h q' g Hq'. destruct (Hr2 h q' Hq') as (q0 & H1 & -> & _). by apply I4.
    - intros g Hg. destruct (I7 g Hg) as (kept & H1 & H2 & H3). exists kept. cbn [zsum launch_handle handles] in *.
      rewrite (Hgr g Hg), En, bool_decide_eq_false_2 in H2 by done. cbn [Z.b2z] in H2.
      cbn [tg_cnt set_reqs]. split_and!; lia.
    - intros g Hg. destruct (I8 g Hg) as (H1 & H2 & H3). split_and!; [done|done|].
      intros k q' sub Hq'. destruct (Hr2 _ _ Hq') as (q0 & Hq0 & _ & ->). by eapply H3. }
  assert (Hgroup : forall g, group_of (handle q) = Some g -> inv N target (add_tg_cnt s g (-1)) rest).
  { intros g Eg. destruct (i_groups _ _ _ _ Hi i q g Hq Eg) as [Hg _].
    pose proof (group_held _ _ _ _ _ Hi Hg) as Hpos.
    destruct Hi as [I1 I2 I3 I4 Io I5 I6 I7 I8]. split; try done.
    - by apply (core_same s).
    - by apply Forall_cons in I2 as [_ I2].
    - intros j Hj. apply I3. by right.
    - intros g' Hg'. destruct (I7 g' Hg') as (kept & H1 & H2 & H3). exists kept. cbn [zsum launch_handle handles] in *.
      rewrite (Hgr g' Hg'), Eg in H2. cbn [tg_cnt add_tg_cnt]. unfold upd. destruct (Z.eqb_spec g' g) as [->|E]; [rewrite bool_decide_eq_true_2 in H2 by done|rewrite bool_decide_eq_false_2 in H2 by congruence]; cbn [Z.b2z] in H2.
      + rewrite wadd_ok by lia. split_and!; lia.
      + split_and!; lia. }
  destruct (handle q) as [rd d u|cnt m u|rd d u|g m|g mm|g m]; by (apply Hsingle || apply Hgroup).
Qed.

(** ** Launching *)
Lemma inv_launch N target s s' l op ops r r' rest :
  inv N target s (Launching l (op :: ops) r :: rest) -> ops <> [] ->
  (named ops = true -> match lowner l with ByGroup g => id r' = group_obj g (lkind l) | ByTeam _ => ~ is_group_obj (id r') end) ->
  core s' (all_entries (Launching l ops r' :: rest)) (fun c => zsum (launch_ctr c) (Launching l ops r' :: rest))
    (fun i => zsum (launch_strong i) (Launching l ops r' :: rest)) ->
  (forall h, is_Some (reqs s !! h) -> is_Some (reqs s' !! h)) ->
  (forall h q g, reqs s' !! h = Some q -> group_of (handle q) = Some g -> g ∈ groups /\ in_group g h = true) ->
  (forall i o, objs s' !! i = Some o -> is_group_obj (req o) -> req o = i) ->
  log s' = log s ->
  (forall g, g ∈ groups -> tg_cnt s' g =
     tg_cnt s g + launch_handle g (Launching l ops r') - launch_handle g (Launching l (op :: ops) r)) ->
  (forall g, g ∈ groups -> sub_ids s' g = sub_ids s g + if decide (op = OSub g) then 1 else 0) ->
  (forall g k q sub, g ∈ groups -> reqs s' !! group_obj g k = Some q -> is_Some (asked q !! sub) ->
     (exists q0, reqs s !! group_obj g k = Some q0 /\ is_Some (asked q0 !! sub)) \/ (sub = sub_ids s g /\ op = OSub g)) ->
  inv N target s' (Launching l ops r' :: rest).
Proof.
  intros [I1 I2 I3 I4 Io I5 I6 I7 I8] Hops Hname HC Hm Hg Hobj Hlog Htg Hsub Hask.
  apply Forall_cons in I2 as [(Hl & (done_ & Ed) & _ & _) I2]. split; try done.
  - constructor; [|done]. split; [done|]. split; [|done]. exists (done_ ++ [op]). by rewrite <- app_assoc.
  - intros i [Hi|Hi]%elem_of_cons; [done|]. apply Hm, I3. by right.
  - by rewrite Hlog.
  - intros g Hin. destruct (I7 g Hin) as (kept & H1 & H2 & H3). exists kept. rewrite (Htg g Hin).
    cbn [zsum handles] in *. split_and!; lia.
  - intros g Hin. destruct (I8 g Hin) as (H1 & H2 & H3). rewrite (Hsub g Hin). cbn [zsum sub_left] in *.
    rewrite occ_cons in H2. split_and!; [case_decide; lia|case_decide; lia|].
    intros k q sub Hq Hs. destruct (Hask g k q sub Hin Hq Hs) as [(q0 & Hq0 & Hs0)|[-> ->]].
    + specialize (H3 k q0 sub Hq0 Hs0). case_decide; lia.
    + rewrite decide_True by done. lia.
Qed.

(** The name of the request is known already, or it is not now. *)
Definition keeps_name (op : Op) : Prop := op <> OAlloc /\ forall g, op <> OSub g.

Lemma named_cons op ops : keeps_name op -> named (op :: ops) = named ops.
Proof.
  intros [H1 H2]. unfold named. f_equal.
  - f_equal. apply bool_decide_ext. rewrite elem_of_cons. naive_solver.
  - cbn. destruct op; try done. by destruct (H2 g).
Qed.

Lemma keeps_sub op g : keeps_name op -> op <> OSub g.
Proof. intros [_ H2]. apply H2. Qed.

Lemma inv_launch_same N target s s' l op ops r rest :
  inv N target s (Launching l (op :: ops) r :: rest) -> ops <> [] -> keeps_name op ->
  core s' (all_entries (Launching l (op :: ops) r :: rest)) (fun c => zsum (launch_ctr c) (Launching l ops r :: rest))
    (fun i => zsum (launch_strong i) (Launching l ops r :: rest)) ->
  reqs s' = reqs s -> (forall i o', objs s' !! i = Some o' -> exists o, objs s !! i = Some o /\ req o' = req o) ->
  log s' = log s -> sub_ids s' = sub_ids s ->
  (forall g, g ∈ groups -> tg_cnt s' g =
     tg_cnt s g + launch_handle g (Launching l ops r) - launch_handle g (Launching l (op :: ops) r)) ->
  inv N target s' (Launching l ops r :: rest).
Proof.
  intros Hi Hops Hk HC Er Ho Hlog Esub Htg. eapply inv_launch; [exact Hi|done| | | | | |done|done| |].
  - rewrite <- (named_cons op) by done. pose proof (i_tasks _ _ _ _ Hi) as [(_ & _ & _ & Hn) _]%Forall_cons. exact Hn.
  - revert HC. unfold all_entries. cbn [flat_map entries]. by rewrite (named_cons op) by done.
  - by rewrite Er.
  - rewrite Er. apply (i_groups _ _ _ _ Hi).
  - intros i o' Ho' Hg. destruct (Ho i o' Ho') as (o & H1 & Eo). rewrite Eo in *. by apply (i_objs _ _ _ _ Hi).
  - intros g Hg. rewrite Esub, decide_False; [lia|]. by apply keeps_sub.
  - intros g k q sub Hg. rewrite Er. intros Hq Hs. left. by exists q.
Qed.

(** What the launch has added to the counters and strong counts so far. *)
Lemma launch_ctr_cons c l op ops r r' : keeps_name op ->
  launch_ctr c (Launching l ops r') =
  launch_ctr c (Launching l (op :: ops) r) + if decide (op = OAdd c) then num_results (lkind l) else 0.
Proof. intros Hk. cbn [launch_ctr]. rewrite (named_cons op) by done. rewrite occ_cons. case_decide; lia. Qed.

Lemma launch_strong_cons i l op ops r r' g : lowner l = ByGroup g -> 
  launch_strong i (Launching l ops r') =
  launch_strong i (Launching l (op :: ops) r) +
    if decide (i = group_obj g (lkind l)) then
      num_results (lkind l) * ((if decide (op = OStrong g) then 1 else 0) - (if decide (op = OSub g) then 1 else 0)) else 0.
Proof. intros El. cbn [launch_strong]. rewrite El. case_decide; [|lia]. rewrite !occ_cons. repeat case_decide; lia. Qed.

Lemma launch_strong_other i l op ops r r' : (forall g, op <> OStrong g) -> (forall g, op <> OSub g) ->
  launch_strong i (Launching l ops r') = launch_strong i (Launching l (op :: ops) r).
Proof.
  intros H1 H2. cbn [launch_strong]. destruct (lowner l) as [|g]; [done|]. case_decide; [|done].
  rewrite !occ_cons, !decide_False by done. lia.
Qed.

Lemma launch_handle_other g l op ops r r' : (forall g, op <> OCnt g) ->
  launch_handle g (Launching l ops r') = launch_handle g (Launching l (op :: ops) r).
Proof.
  intros H1. cbn [launch_handle]. destruct (lowner l) as [|g']; [done|]. case_decide; [|done].
  rewrite occ_cons, decide_False by done. lia.
Qed.

Lemma step_add N target s l c ops r rest :
  inv N target s (Launching l (OAdd c :: ops) r :: rest) -> ops <> [] ->
  inv N target (add_ctr s c (num_results (lkind l))) (Launching l ops r :: rest).
Proof.
  intros Hi Hops. assert (Hk : keeps_name (OAdd c)) by done.
  eapply inv_launch_same; [exact Hi|done|done| |done|intros i o Ho; by exists o|done|done|].
  - eapply core_ext, core_add, (i_core _ _ _ _ Hi).
    + intros c'. cbn [zsum]. rewrite (launch_ctr_cons c' l (OAdd c) ops r r Hk). repeat case_decide; simplify_eq; lia.
    + intros i. cbn [zsum]. by rewrite (launch_strong_other i l (OAdd c) ops r r).
  - intros g Hg. rewrite <- (launch_handle_other g l (OAdd c) ops r r) by done. cbn [tg_cnt add_ctr]. lia.
Qed.

Lemma step_assert N target s l ops r rest :
  inv N target s (Launching l (OAssert :: ops) r :: rest) -> ops <> [] -> inv N target s (Launching l ops r :: rest).
Proof.
  intros Hi Hops. assert (Hk : keeps_name OAssert) by done.
  eapply inv_launch_same; [exact Hi|done|done| |done|intros i o Ho; by exists o|done|done|].
  - eapply core_ext, (i_core _ _ _ _ Hi).
    + intros c'. cbn [zsum]. rewrite (launch_ctr_cons c' l OAssert ops r r Hk). case_decide; [done|lia].
    + intros i. cbn [zsum]. by rewrite (launch_strong_other i l OAssert ops r r).
  - intros g Hg. rewrite <- (launch_handle_other g l OAssert ops r r) by done. lia.
Qed.

Lemma launching_owner l done_ op ops g : prog l = done_ ++ op :: ops ->
  op = OCnt g \/ op = OStrong g \/ op = OSub g -> lowner l = ByGroup g.
Proof.
  intros E Hop. assert (Hin : op ∈ prog l) by (rewrite E; apply elem_of_app; right; by left).
  unfold_prog in Hin. destruct (lowner l) as [[g'|]|g'], (lkind l); cbn in Hin; rewrite ?elem_of_cons, ?elem_of_nil in Hin;
    destruct Hop as [->|[->| ->]]; naive_solver.
Qed.

Lemma step_cnt N target s l g ops r rest :
  N + 1 < USIZE -> inv N target s (Launching l (OCnt g :: ops) r :: rest) -> ops <> [] ->
  inv N target (add_tg_cnt s g 1) (Launching l ops r :: rest).
Proof.
  intros HN Hi Hops. assert (Hk : keeps_name (OCnt g)) by done.
  pose proof (i_tasks _ _ _ _ Hi) as [(Hl & (done_ & Ed) & _) Hrest]%Forall_cons.
  assert (Eo : lowner l = ByGroup g) by (eapply launching_owner; [exact Ed|by left]).
  assert (Hg0 : g ∈ groups) by (destruct Hl as [_ Hl]; by rewrite Eo in Hl).
  assert (Hno : occ (OCnt g) ops = 0).
  { pose proof (launching_occ l done_ (OCnt g :: ops) (OCnt g) Ed) as Hle.
    rewrite occ_cons, decide_True in Hle by done. pose proof (occ_nonneg (OCnt g) ops). lia. }
  eapply inv_launch_same; [exact Hi|done|done| |done|intros i o Ho; by exists o|done|done|].
  - apply (core_same s); [done..|]. eapply core_ext, (i_core _ _ _ _ Hi).
    + intros c'. cbn [zsum]. rewrite (launch_ctr_cons c' l (OCnt g) ops r r Hk). case_decide; [done|lia].
    + intros i. cbn [zsum]. by rewrite (launch_strong_other i l (OCnt g) ops r r).
  - intros g' Hg'. destruct (Z.eqb_spec g' g) as [->|Hne]; cbn [tg_cnt add_tg_cnt].
    + assert (Hz : launch_handle g (Launching l (OCnt g :: ops) r) = 0 /\ launch_handle g (Launching l ops r) = 1).
      { cbn [launch_handle]. rewrite Eo, occ_cons, Hno, !decide_True by done. done. }
      destruct Hz as [E0 E1]. rewrite E0, E1, upd_eq.
      destruct (i_held _ _ _ _ Hi g Hg0) as (kept & H1 & H2 & H3).
      pose proof (launch_handles_bounds g rest Hrest). cbn [zsum] in H2, H3. rewrite E0 in H2. cbn [handles] in H3.
      rewrite wadd_ok by lia. lia.
    + rewrite upd_ne by done. cbn [launch_handle]. rewrite Eo, !decide_False by congruence. lia.
Qed.

Lemma step_strong N target s l g ops r rest o :
  inv N target s (Launching l (OStrong g :: ops) r :: rest) -> ops <> [] -> objs s !! group_obj g (lkind l) = Some o ->
  inv N target (set_objs s (<[group_obj g (lkind l) := {| strong := strong o + num_results (lkind l); req := req o |}]> (objs s)))
    (Launching l ops r :: rest).
Proof.
  intros Hi Hops Ho. assert (Hk : keeps_name (OStrong g)) by done.
  pose proof (i_tasks _ _ _ _ Hi) as [(Hl & (done_ & Ed) & _) Hrest]%Forall_cons.
  assert (Eo : lowner l = ByGroup g) by (eapply launching_owner; [exact Ed|naive_solver]).
  eapply inv_launch_same; [exact Hi|done|done| |done| |done|done|].
  - eapply core_ext, core_strong; [| |exact (i_core _ _ _ _ Hi)|pose proof (num_results_pos (lkind l)); lia|exact Ho].
    + intros c'. cbn [zsum]. rewrite (launch_ctr_cons c' l (OStrong g) ops r r Hk). case_decide; [done|lia].
    + intros i. cbn [zsum]. rewrite (launch_strong_cons i l (OStrong g) ops r r g Eo). case_decide; [|lia].
      rewrite decide_True, decide_False by done. lia.
  - intros i o'. cbn [objs set_objs]. intros [[<- <-]|[_ Ho']]%lookup_insert_Some; [by exists o|by exists o'].
  - intros g' Hg'. rewrite <- (launch_handle_other g' l (OStrong g) ops r r) by done. cbn [tg_cnt set_objs]. lia.
Qed.

(** The operations of a launch, in order. *)
Lemma launching_next l done_ op ops : prog l = done_ ++ op :: ops ->
  (op = OSubmit <-> ops = []) /\ op ∉ ops /\ Forall (fun o => o ∈ prog l) (op :: ops).
Proof.
  intros E. pose proof (prog_nodup l) as Hnd. rewrite E in Hnd.
  apply NoDup_app in Hnd as (_ & _ & [Hno Hnd]%NoDup_cons).
  assert (Hlast : last (op :: ops) = Some OSubmit).
  { transitivity (last (prog l)); [rewrite E; by rewrite last_app_cons|]. unfold_prog. by destruct (lowner l) as [[g|]|g], (lkind l). }
  split; [split|split; [done|]].
  - intros ->. destruct ops as [|o ops]; [done|]. exfalso. apply Hno.
    rewrite last_cons_cons in Hlast. by apply last_Some_elem_of in Hlast.
  - intros ->. by injection Hlast.
  - apply Forall_forall. intros o Ho. rewrite E. apply elem_of_app. by right.
Qed.

Lemma named_intro l ops :
  Forall (fun o => o ∈ prog l) ops -> OAlloc ∉ ops -> (forall g, lowner l = ByGroup g -> OSub g ∉ ops) -> named ops = true.
Proof.
  intros Hin Ha Hs. unfold named. rewrite bool_decide_eq_false_2 by done. cbn. apply forallb_forall.
  intros o Ho%list_elem_of_In. destruct o as [| | | | |g|]; try done. exfalso.
  rewrite Forall_forall in Hin. specialize (Hin _ Ho). unfold_prog in Hin.
  destruct (lowner l) as [[g'|]|g'] eqn:El, (lkind l); cbn in Hin; rewrite ?elem_of_cons, ?elem_of_nil in Hin.
  all: try naive_solver.
Qed.

Lemma occ_total l c : occ (OAdd c) (prog l) =
  counts (fun _ => Some (match lowner l with ByTeam tg => tg | ByGroup g => Some g end)) c 0.
Proof.
  unfold_prog; unfold counts. destruct (lowner l) as [[g|]|g], (lkind l), c as [| |g'];
    cbn [app]; repeat (rewrite occ_cons; case_decide; try congruence; simplify_eq); rewrite ?occ_nil;
    repeat case_decide; try congruence; lia.
Qed.

Lemma step_alloc N target s l ops r rest fresh hid tg_ :
  inv N target s (Launching l (OAlloc :: ops) r :: rest) -> ops <> [] -> lowner l = ByTeam tg_ ->
  objs s !! fresh = None -> reqs s !! hid = None ->
  inv N target
    (set_objs (set_reqs s (<[hid := {| handle := new_handle (lkind l); tg := tg_; asked := {[0 := (lam l, dests l)]} |}]> (reqs s)))
       (<[fresh := {| strong := num_results (lkind l); req := hid |}]> (objs s)))
    (Launching l ops {| id := fresh; sub_id := 0 |} :: rest).
Proof.
  intros Hi Hops Eo Hf Hh. pose proof (i_tasks _ _ _ _ Hi) as [(Hl & (done_ & Ed) & _) Hrest]%Forall_cons.
  destruct (launching_next _ _ _ _ Ed) as (_ & Hno & Hin). apply Forall_cons in Hin as [_ Hin].
  assert (Hn : named ops = true) by (eapply named_intro; [done|done|by rewrite Eo]).
  assert (Hng : forall j, objs s !! j = None -> ~ is_group_obj j).
  { intros j Hj (g & k & Hg & ->). destruct (c_groups _ _ _ _ (i_core _ _ _ _ Hi) g k Hg) as (o & q & Ho & _). congruence. }
  assert (Hnr : forall j, reqs s !! j = None -> ~ is_group_obj j).
  { intros j Hj (g & k & Hg & ->). destruct (c_groups _ _ _ _ (i_core _ _ _ _ Hi) g k Hg) as (o & q & _ & _ & Hq & _). congruence. }
  eapply inv_launch; [exact Hi|done| | | | | |done| | |].
  - intros _. rewrite Eo. by apply Hng.
  - unfold all_entries. cbn [flat_map entries]. rewrite Hn.
    eapply core_ext, core_alloc; [| |exact (i_core _ _ _ _ Hi)| |done|done|done|done].
    + intros c. cbn [zsum launch_ctr]. rewrite Hn. rewrite (occ_cons _ OAlloc), (decide_False _ _ (P := OAlloc = OAdd c)) by done.
      rewrite occ_total, Eo. unfold named. rewrite bool_decide_eq_true_2 by (by left). cbn [negb andb]. lia.
    + intros i. cbn [zsum]. by rewrite (launch_strong_other i l OAlloc ops r {| id := fresh; sub_id := 0 |}).
    + intros i. apply launch_strongs_nonneg. exact (i_tasks _ _ _ _ Hi).
  - intros h Hq. cbn. apply lookup_insert_is_Some. destruct (decide (hid = h)); [by left|by right].
  - intros h q g. cbn. intros [[<- <-]|[_ Hq]]%lookup_insert_Some; [by destruct (lkind l)|by apply (i_groups _ _ _ _ Hi)].
  - intros i o. cbn. intros [[<- <-]|[_ Ho]]%lookup_insert_Some; cbn; [intros Hg; by destruct (Hnr hid Hh)|by apply (i_objs _ _ _ _ Hi)].
  - intros g Hg. cbn [tg_cnt set_objs set_reqs]. rewrite (launch_handle_other g l OAlloc ops r _) by done. lia.
  - intros g Hg. rewrite decide_False by done. cbn [sub_ids set_objs set_reqs]. lia.
  - intros g k q sub Hg. cbn. intros [[E _]|[_ Hq]]%lookup_insert_Some Hs; [|left; by exists q].
    exfalso. apply (Hnr hid Hh). by exists g, k.
Qed.

Lemma step_sub N target s l g ops r rest :
  N + 1 < USIZE -> inv N target s (Launching l (OSub g :: ops) r :: rest) -> ops <> [] ->
  exists q, reqs s !! group_obj g (lkind l) = Some q /\
  inv N target (set_reqs (next_sub s g) (<[group_obj g (lkind l) := on_asked q (<[sub_ids s g := (lam l, dests l)]> (asked q))]> (reqs s)))
    (Launching l ops {| id := group_obj g (lkind l); sub_id := sub_ids s g |} :: rest).
Proof.
  intros HN Hi Hops. pose proof (i_tasks _ _ _ _ Hi) as [(Hl & (done_ & Ed) & _) Hrest]%Forall_cons.
  assert (Eo : lowner l = ByGroup g) by (eapply launching_owner; [exact Ed|naive_solver]).
  assert (Hg0 : g ∈ groups) by (destruct Hl as [_ Hl]; by rewrite Eo in Hl).
  destruct (i_subs _ _ _ _ Hi g Hg0) as (Hs1 & Hs2 & Hs3).
  destruct (core_ask _ _ _ _ l g (sub_ids s g) (i_core _ _ _ _ Hi) Hl Eo) as (q & Hq & HC).
  { intros q Hq. destruct (asked q !! sub_ids s g) eqn:E; [|done]. exfalso.
    specialize (Hs3 _ q (sub_ids s g) Hq). rewrite E in Hs3. specialize (Hs3 (ex_intro _ _ eq_refl)). lia. }
  exists q. split; [done|]. destruct (launching_next _ _ _ _ Ed) as (_ & Hno & Hin). apply Forall_cons in Hin as [_ Hin].
  assert (Hal : OAlloc ∉ OSub g :: ops).
  { intros Ha. assert (Hp : OAlloc ∈ prog l) by (rewrite Ed; apply elem_of_app; by right).
    unfold_prog in Hp. rewrite Eo in Hp. destruct (lkind l); repeat (apply elem_of_cons in Hp as [Hp|Hp]; [done|]); by apply elem_of_nil in Hp. }
  assert (Hn : named ops = true).
  { eapply named_intro; [done| |]; [intros Ha; apply Hal; by right|]. rewrite Eo. by intros ? [= <-]. }
  assert (Hn0 : named (OSub g :: ops) = false) by (unfold named; cbn; by rewrite andb_false_r).
  assert (Hsub : wadd (sub_ids s g) 1 = sub_ids s g + 1).
  { apply wadd_ok. pose proof (occ_nonneg (OSub g) ops). cbn [zsum sub_left] in Hs2. rewrite occ_cons, decide_True in Hs2 by done.
    assert (0 <= zsum (sub_left g) rest); [|lia]. apply zsum_nonneg. intros t _. destruct t; cbn; try lia. apply occ_nonneg. }
  eapply inv_launch; [exact Hi|done| | | | | |done| | |].
  - intros _. by rewrite Eo.
  - unfold all_entries. cbn [flat_map entries]. rewrite Hn. apply (core_same (set_reqs s (<[group_obj g (lkind l) := on_asked q (<[sub_ids s g := (lam l, dests l)]> (asked q))]> (reqs s)))); [done..|].
    eapply core_ext; [| |unfold all_entries in HC; cbn [flat_map entries] in HC; rewrite Hn0 in HC; exact HC].
    + intros c. cbn [zsum launch_ctr]. rewrite Hn, Hn0. rewrite (occ_cons _ (OSub g)), (decide_False _ _ (P := OSub g = OAdd c)) by done.
      rewrite occ_total, Eo. lia.
    + intros i. cbn [zsum]. rewrite (launch_strong_cons i l (OSub g) ops r _ g Eo). case_decide; [|lia].
      rewrite decide_False, decide_True by done. lia.
  - intros h Hq'. cbn. apply lookup_insert_is_Some. destruct (decide (group_obj g (lkind l) = h)); [by left|by right].
  - intros h q' g'. cbn. intros [[<- <-]|[_ Hq']]%lookup_insert_Some; [by apply (i_groups _ _ _ _ Hi _ q)|by apply (i_groups _ _ _ _ Hi)].
  - apply (i_objs _ _ _ _ Hi).
  - intros g' Hg'. cbn [tg_cnt set_reqs next_sub]. rewrite (launch_handle_other g' l (OSub g) ops r _) by done. lia.
  - intros g' Hg'. cbn [sub_ids set_reqs next_sub]. destruct (decide (g' = g)) as [->|Hne].
    + by rewrite upd_eq, decide_True.
    + rewrite upd_ne, decide_False by congruence. lia.
  - intros g' k q' sub Hg'. cbn. intros [[E <-]|[_ Hq']]%lookup_insert_Some Hs; [|left; by exists q'].
    apply group_obj_inj in E as [-> <-]. cbn in Hs. apply lookup_insert_is_Some in Hs as [<-|[_ Hs]]; [by right|].
    left. by exists q.
Qed.

Lemma am_of_ok l r : launch_ok l -> exists m, am_of l r = Done m /\ process_ok me m /\
  entries (Process me false m) = launch_entries l r /\ runs (Process me false m) = flat_map (fun q => runs_at q (lam l)) (dests l).
Proof.
  intros Hl. pose proof (dests_shape l Hl) as Hd. unfold am_of, launch_entries, dests in *. destruct (lkind l).
  - destruct Hd as (d & Hd & E). destruct (world_pe (lpe l)) as [d'|]; [|done]. injection E as ->.
    eexists. split; [done|]. cbn. rewrite app_nil_r. split_and!; try done. by exists d.
  - eexists. split; [done|]. by cbn.
  - eexists. split; [done|]. cbn. rewrite app_nil_r, result_at_me, runs_at_me. by split_and!.
Qed.

Lemma step_submit N target s l ops r rest :
  inv N target s (Launching l (OSubmit :: ops) r :: rest) ->
  exists m o, am_of l r = Done m /\ objs s !! id r = Some o /\
    inv N target s (Process me false m :: (if lkeep l then [] else [UserHandle (req o)]) ++ rest).
Proof.
  intros Hi. pose proof (i_tasks _ _ _ _ Hi) as [(Hl & (done_ & Ed) & _ & Hid) Hrest]%Forall_cons.
  destruct (launching_next _ _ _ _ Ed) as ([Hnil _] & _). specialize (Hnil eq_refl) as ->.
  specialize (Hid eq_refl). destruct (am_of_ok l r Hl) as (m & Em & Hm & He & Hr).
  pose proof (i_core _ _ _ _ Hi) as HC. pose proof (dests_ne l Hl) as [p Hp].
  destruct (entry_link _ (owed r p (result_at p (lam l))) _ _ _ HC) as [o Ho].
  { unfold all_entries. cbn. apply elem_of_app. left. by apply owed_launch_entry. }
  cbn in Ho. exists m, o. split; [done|]. split; [done|].
  destruct (c_objs _ _ _ _ HC _ _ Ho) as [_ Hreq].
  assert (Hh : forall g, g ∈ groups -> in_group g (req o) = match lowner l with ByGroup g' => bool_decide (g = g') | _ => false end).
  { intros g Hg. destruct (lowner l) as [tg_|g'] eqn:El.
    - apply not_true_iff_false. intros Hin. apply (in_group_obj g) in Hin; [|done].
      apply Hid. rewrite <- (i_objs _ _ _ _ Hi _ _ Ho Hin). exact Hin.
    - assert (Hg' : g' ∈ groups) by (destruct Hl as [_ Hl]; by rewrite El in Hl).
      destruct (c_groups _ _ _ _ HC g' (lkind l) Hg') as (o' & q & Ho' & Er & _).
      rewrite Hid, Ho' in Ho. injection Ho as <-. rewrite Er. apply in_group_inj. }
  assert (Hent : all_entries (Process me false m :: (if lkeep l then [] else [UserHandle (req o)]) ++ rest) =
    all_entries (Launching l [OSubmit] r :: rest)).
  { unfold all_entries. cbn [flat_map]. rewrite He. by destruct (lkeep l). }
  assert (Hz : forall f, f (Process me false m) = 0 -> f (UserHandle (req o)) = 0 ->
    zsum f (Process me false m :: (if lkeep l then [] else [UserHandle (req o)]) ++ rest) = zsum f rest).
  { intros f F1 F2. cbn [zsum]. rewrite zsum_app, F1. destruct (lkeep l); cbn; rewrite ?F2; lia. }
  destruct Hi as [I1 I2 I3 I4 Io I5 I6 I7 I8]. split; try done.
  - rewrite Hent. eapply core_ext, HC.
    + intros c. rewrite Hz by done. cbn [zsum launch_ctr]. change (named [OSubmit]) with true. rewrite occ_cons, decide_False, occ_nil by done. lia.
    + intros i. rewrite Hz by done. cbn [zsum launch_strong]. destruct (lowner l); [lia|]. case_decide; [|lia]. rewrite !occ_cons, !decide_False, !occ_nil by done. lia.
  - constructor; [done|]. apply Forall_app. split; [|done]. destruct (lkeep l); by repeat constructor.
  - intros i [Hin|Hin]%elem_of_cons; [done|]. apply elem_of_app in Hin as [Hin|Hin]; [|apply I3; by right].
    destruct (lkeep l); [by apply elem_of_nil in Hin|]. apply list_elem_of_singleton in Hin. by injection Hin as ->.
  - rewrite <- I5. unfold all_runs. cbn [flat_map]. rewrite Hr. by destruct (lkeep l).
  - cbn [zsum] in *. rewrite zsum_app. unfold weight in I6 at 1. unfold weight at 1. rewrite He.
    unfold launch_entries. rewrite length_map, dests_length by done. destruct (lkeep l); cbn; lia.
  - intros g Hg. destruct (I7 g Hg) as (kept & H1 & H2 & H3). cbn [zsum handles launch_handle] in H2, H3.
    destruct (lkeep l); cbn [app zsum handles launch_handle].
    + exists (kept + match lowner l with ByGroup g' => if decide (g' = g) then 1 else 0 | _ => 0 end).
      change (occ (OCnt g) [OSubmit]) with 0 in H2. split_and!; destruct (lowner l); try case_decide; lia.
    + exists kept. rewrite Hh by done. change (occ (OCnt g) [OSubmit]) with 0 in H2.
      split_and!; [done| |lia]. destruct (lowner l) as [|g']; [cbn; lia|]. case_decide; case_bool_decide; simplify_eq; cbn; lia.
  - intros g Hg. destruct (I8 g Hg) as (H1 & H2 & H3). rewrite Hz by done. cbn [zsum sub_left] in H2.
    change (occ (OSub g) [OSubmit]) with 0 in H2. split_and!; [done|lia|done].
Qed.

(** ** Every step, and the states that are reached *)
Lemma tstep_ok N target s t rest fresh hid :
  N + 1 < USIZE -> inv N target s (t :: rest) -> objs s !! fresh = None -> reqs s !! hid = None ->
  exists s1 ts, tstep s fresh hid t = Done (s1, ts) /\ inv N target s1 (ts ++ rest).
Proof.
  intros HN Hi Hf Hh. destruct t as [l ops r|i|p imm m|b from to e|p rq a|p rq a|r pe d st]; cbn [tstep].
  - pose proof (i_tasks _ _ _ _ Hi) as [(Hl & (done_ & Ed) & Hne & _) _]%Forall_cons.
    destruct ops as [|op ops]; [done|]. destruct (launching_next _ _ _ _ Ed) as ([_ Hlast] & _ & Hin).
    assert (Hops : op <> OSubmit -> ops <> []) by (intros H1 H2; by apply H1, Hlast).
    destruct op as [c| | |g|g|g|]; cbn [launch_step].
    + eexists _, [_]. split; [done|]. apply step_add; [done|by apply Hops].
    + assert (Hp : Z.of_nat (lpe l) <? num_pes = true).
      { destruct Hl as [Hl _]. destruct (lkind l) eqn:Ek; [specialize (Hl eq_refl); unfold num_pes; lia|exfalso..];
          apply Forall_cons in Hin as [Hin _]; unfold_prog in Hin; rewrite Ek in Hin;
          destruct (lowner l) as [[]|]; cbn in Hin; rewrite ?elem_of_cons, ?elem_of_nil in Hin; naive_solver. }
      rewrite Hp. eexists _, [_]. split; [done|]. apply step_assert; [done|by apply Hops].
    + destruct (lowner l) as [tg_|g] eqn:Eo.
      * eexists _, [_]. split; [done|]. eapply step_alloc; [exact Hi|by apply Hops|done..].
      * exfalso. apply Forall_cons in Hin as [Hin _]. unfold_prog in Hin. rewrite Eo in Hin.
        destruct (lkind l); rewrite ?elem_of_cons, ?elem_of_nil in Hin; naive_solver.
    + eexists _, [_]. split; [done|]. apply step_cnt; [done|done|by apply Hops].
    + assert (Eo : lowner l = ByGroup g) by (eapply launching_owner; [exact Ed|naive_solver]).
      assert (Hg : g ∈ groups) by (destruct Hl as [_ Hl]; by rewrite Eo in Hl).
      destruct (c_groups _ _ _ _ (i_core _ _ _ _ Hi) g (lkind l) Hg) as (o & q & Ho & _). rewrite Ho. cbn [unwrap].
      eexists _, [_]. split; [done|]. apply step_strong; [done|by apply Hops|done].
    + destruct (step_sub _ _ _ _ _ _ _ _ HN Hi) as (q & Hq & Hi'); [by apply Hops|]. rewrite Hq. cbn [unwrap].
      eexists _, [_]. split; [done|]. exact Hi'.
    + destruct (step_submit _ _ _ _ _ _ _ Hi) as (m & o & Em & Ho & Hi'). rewrite Em, Ho. cbn [unwrap].
      eexists _, _. split; [done|]. exact Hi'.
  - destruct (step_drop _ _ _ _ _ HN Hi) as (s' & E & Hi'). rewrite E. by eexists _, [].
  - eexists _, _. split; [done|]. by apply step_process.
  - eexists _, [_]. split; [done|]. by eapply step_transit.
  - destruct (step_run_remote _ _ _ _ _ _ _ Hi) as (t & E & Hi'). rewrite E. by eexists _, [_].
  - destruct (step_run_local _ _ _ _ _ _ _ Hi) as (t & E & Hi'). rewrite E. by eexists _, [_].
  - by apply step_result.
Qed.

Lemma inv_with_tasks N target s ts ts' : inv N target s ts -> inv N target (with_tasks s ts') ts.
Proof. intros [I1 I2 I3 I4 Io I5 I6 I7 I8]. split; try done. by apply (core_same s). Qed.

Lemma take_drop_perm {A} (l : list A) i x : l !! i = Some x -> l ≡ₚ x :: take i l ++ drop (S i) l.
Proof. intros Hx. rewrite <- (take_drop_middle l i x Hx) at 1. by rewrite Permutation_middle. Qed.

Lemma lstep_inv N target s s' : N + 1 < USIZE -> inv N target s (tasks s) -> lstep s s' -> inv N target s' (tasks s').
Proof.
  intros HN Hi (i & t & fresh & hid & s1 & ts & Ht & Hf & Hh & E & ->).
  apply (inv_perm _ _ _ _ _ (take_drop_perm _ _ _ Ht)) in Hi.
  destruct (tstep_ok _ _ _ _ _ _ _ HN Hi Hf Hh) as (s2 & ts2 & E2 & Hi'). rewrite E in E2. injection E2 as <- <-.
  cbn. apply inv_with_tasks. eapply inv_perm, Hi'. by rewrite Permutation_app_swap_app.
Qed.

(** All results of the launches, and all active messages they run. *)
Definition total_results (ls : list Launch) : Z := zsum (fun l => num_results (lkind l)) ls.
Definition launch_runs (l : Launch) : list (Z * am) := flat_map (fun q => runs_at q (lam l)) (dests l).
Definition total_runs (ls : list Launch) : list (Z * am) := flat_map launch_runs ls.

Definition start (l : Launch) : Task := Launching l (prog l) {| id := 0; sub_id := 0 |}.

Lemma named_prog l : named (prog l) = false.
Proof. unfold_prog. by destruct (lowner l) as [[g|]|g], (lkind l). Qed.

Lemma occ_prog_le op l : 0 <= occ op (prog l) <= 1.
Proof. by apply (launching_occ l []). Qed.

Lemma occ_group op l g : lowner l = ByGroup g -> op = OCnt g \/ op = OStrong g \/ op = OSub g -> occ op (prog l) = 1.
Proof.
  intros Eo Hop. unfold_prog. rewrite Eo. destruct Hop as [->|[->| ->]], (lkind l);
    repeat (rewrite occ_cons; case_decide; try congruence); rewrite ?occ_nil; lia.
Qed.

Lemma start_zero l : (forall c, launch_ctr c (start l) = 0) /\ (forall i, launch_strong i (start l) = 0) /\
  (forall g, launch_handle g (start l) = 0) /\ entries (start l) = [].
Proof.
  split_and!; intros; cbn; rewrite ?named_prog; try lia; try done.
  - destruct (lowner l) as [|g] eqn:Eo; [done|]. case_decide; [|done].
    rewrite !(occ_group _ l g) by tauto. lia.
  - destruct (lowner l) as [|g'] eqn:Eo; [done|]. case_decide; [|done]. subst. rewrite (occ_group _ l g) by tauto. lia.
Qed.

Lemma init_objs g k : g ∈ groups ->
  objs (init []) !! group_obj g k = Some {| strong := 1; req := group_obj g k |} /\
  reqs (init []) !! group_obj g k = Some {| handle := new_group_handle g k; tg := Some g; asked := ∅ |}.
Proof.
  intros Hg. assert (Hin : (g, k) ∈ group_objects) by (by apply elem_of_group_objects).
  assert (Hnd : NoDup (map (fun x => group_obj x.1 x.2) group_objects)).
  { apply NoDup_fmap_2_strong.
    - intros [g1 k1] [g2 k2] _ _ E. cbn in E. apply group_obj_inj in E as [-> ->]. done.
    - unfold group_objects. pose proof groups_nodup as Hnd. clear Hg Hin. induction Hnd as [|x gs Hx _ IH]; [constructor|].
      cbn. assert (Hno : forall k', (x, k') ∉ flat_map (fun g => [(g, KPe); (g, KAll); (g, KLocal)]) gs).
      { intros k' (y & Hy & Hk)%list_elem_of_In%in_flat_map. apply Hx.
        apply list_elem_of_In. cbn in Hk. naive_solver. }
      repeat (constructor; [rewrite ?not_elem_of_cons; split_and?; (done || apply Hno)|]). done. }
  cbn. split; apply elem_of_list_to_map_1.
  1, 3: rewrite map_map; exact Hnd.
  all: apply list_elem_of_fmap; by exists (g, k).
Qed.

Lemma init_lookup i :
  (forall o, objs (init []) !! i = Some o -> is_group_obj i /\ o = {| strong := 1; req := i |}) /\
  (forall q, reqs (init []) !! i = Some q -> exists g k, g ∈ groups /\ i = group_obj g k /\
     q = {| handle := new_group_handle g k; tg := Some g; asked := ∅ |}).
Proof.
  cbn. split.
  - intros o Ho%elem_of_list_to_map_2. apply list_elem_of_fmap in Ho as ([g k] & [= -> ->] & Hin%elem_of_group_objects).
    split; [by exists g, k|done].
  - intros q Hq%elem_of_list_to_map_2. apply list_elem_of_fmap in Hq as ([g k] & [= -> ->] & Hin%elem_of_group_objects).
    by exists g, k.
Qed.

Lemma init_core ls : core (init ls) [] (fun _ => 0) (fun _ => 0).
Proof.
  apply (core_same (init [])); [done..|]. split.
  - done.
  - intros i. rewrite Z.add_0_r, Z.add_0_r. unfold strong_at. destruct (objs (init []) !! i) as [o|] eqn:E.
    + apply init_lookup in E as [Hg ->]. by rewrite base_group.
    + rewrite base_no_group; [done|]. intros (g & k & Hg & ->). destruct (init_objs g k Hg) as [E' _]. congruence.
  - intros i o Ho. apply init_lookup in Ho as [(g & k & Hg & ->) ->]. split; [done|].
    destruct (init_objs g k Hg) as [_ E]. by eexists.
  - by intros e ?%elem_of_nil.
  - intros h q Hq. apply init_lookup in Hq as (g & k & Hg & -> & ->). split; cbn.
    + by intros sub a ds.
    + unfold data_ok. destruct k; cbn; intros ?; rewrite ?lookup_empty; intros; by destruct_or?; simplify_eq; try by destruct H1.
    + done.
    + done.
    + by destruct k.
  - intros g k Hg. destruct (init_objs g k Hg) as [E1 E2]. eexists _, _. split_and!; [done|done|done|]. by destruct k.
Qed.

Lemma zsum_start f ls : (forall l, f (start l) = 0) -> zsum f (map start ls) = 0.
Proof. intros Hf. rewrite zsum_map. apply zsum_zero, Forall_forall. intros l _. apply Hf. Qed.

Lemma total_results_ge ls : Z.of_nat (length ls) <= total_results ls.
Proof.
  induction ls as [|l ls IH]; [done|]. unfold total_results in *. cbn [zsum length].
  pose proof (num_results_pos (lkind l)). lia.
Qed.

Lemma zsum_le_length {A} (f : A -> Z) l : (forall x, 0 <= f x <= 1) -> 0 <= zsum f l <= Z.of_nat (length l).
Proof. intros Hf. induction l as [|x l IH]; cbn [zsum length]; [lia|]. specialize (Hf x). lia. Qed.

Lemma init_inv ls : Forall launch_ok ls -> inv (total_results ls) (total_runs ls) (init ls) (tasks (init ls)).
Proof.
  intros Hls. change (tasks (init ls)) with (map start ls). pose proof (total_results_ge ls) as Hlen.
  assert (He : all_entries (map start ls) = []).
  { unfold all_entries. rewrite flat_map_map. induction ls as [|l ls IH]; [done|]. cbn [flat_map].
    destruct (start_zero l) as (_ & _ & _ & ->). apply Forall_cons in Hls as [_ Hls]. rewrite IH; [done|done|].
    apply total_results_ge. }
  split.
  - rewrite He. eapply core_ext, init_core; intros; symmetry; apply zsum_start; intros l; apply start_zero.
  - apply Forall_map. eapply Forall_impl; [exact Hls|]. intros l Hl. cbn. split; [done|]. split; [by exists []|].
    split; [unfold_prog; by destruct (lowner l) as [[]|], (lkind l)|]. by rewrite named_prog.
  - intros i Hi. by apply list_elem_of_fmap in Hi as (l & ? & _).
  - intros h q g Hq Eg. apply (init_lookup h) in Hq as (g' & k & Hg & -> & ->).
    assert (g' = g) as -> by (destruct k; by injection Eg). split; [done|]. apply in_group_spec. by exists k.
  - intros i o Ho _. by apply (init_lookup i) in Ho as [_ ->].
  - cbn. unfold all_runs, total_runs. by rewrite flat_map_map.
  - by rewrite zsum_map.
  - intros g Hg. exists 0. rewrite zsum_start by (intros l; apply start_zero). cbn. rewrite decide_True by done.
    split_and!; [done|lia|]. rewrite zsum_map.
    pose proof (zsum_le_length (fun l => handles (start l)) ls ltac:(intros; cbn; lia)). lia.
  - intros g Hg. cbn. split; [done|]. split.
    + rewrite zsum_map. pose proof (zsum_le_length (fun l => sub_left g (start l)) ls) as Hz. cbn in Hz.
      specialize (Hz (fun l => occ_prog_le (OSub g) l)). cbn. lia.
    + intros k q sub Hq. destruct (init_objs g k Hg) as [_ E]. cbn in E. rewrite Hq in E. injection E as ->. cbn.
      rewrite lookup_empty. by intros [? ?].
Qed.

(** A run: launches to members of the team and by groups that exist, and no
    more results than a [usize] counts. *)
Record Run (ls : list Launch) : Prop := {
  run_launches : Forall launch_ok ls;
  run_size : total_results ls + 1 < USIZE;
}.

Definition reachable (ls : list Launch) (s : St) : Prop := rtc lstep (init ls) s.

Lemma reachable_inv ls s : Run ls -> reachable ls s -> inv (total_results ls) (total_runs ls) s (tasks s).
Proof.
  intros [Hl Hn] Hr. unfold reachable in Hr. revert s Hr. apply (rtc_ind_r (fun s => inv (total_results ls) (total_runs ls) s (tasks s))); [by apply init_inv|].
  intros s1 s2 _ Hs Hi. by eapply lstep_inv.
Qed.

(** ** What a handle yields *)

(** The value the body of [a] computes on the PE [p], the bodies of active
    messages it returns (which run on [me]) included. *)
Fixpoint local_value (n : nat) (a : am) : option result :=
  match user me a with
  | OUnit => None
  | OData d => Some d
  | OAm a => match n with O => None | S n => local_value n a end
  end.
Definition value_at (p : Z) (a : am) : option result :=
  match user p a with OUnit => None | OData d => Some d | OAm a => local_value (rank a) a end.

(** [get] of a request: [None] while it waits; the results in the order of the
    PEs of the team.  [read] deserialises a result. *)
Definition process_all (read : list byte -> option result) (ds : list InternalResult) : outcome (list (option result)) :=
  foldr (fun d rs => let! x := process_result read d in let! rs := rs in Done (x :: rs)) (Done []) ds.
Definition get (read : list byte -> option result) (h : Handle) (sub : Z) : option (outcome (list (option result))) :=
  match h with
  | HMulti _ _ _ | HTaskMulti _ _ =>
    (fun r => let! ds := r in process_all read ds) <$> get_multi h sub
  | _ => (fun r => let! d := r in process_all read [d]) <$> get_single h sub
  end.

Lemma local_value_result read n p a : p = me -> (rank a <= n)%nat -> (forall d, read (result_bytes d) = Some d) ->
  process_result read (local_result n p a) = Done (local_value n a).
Proof.
  intros -> Hn Hread. revert a Hn. induction n as [|n IH]; intros a Hn; cbn; destruct (user me a) as [|d|a'] eqn:Ea; try done;
    apply rank_ok in Ea. apply IH. lia.
Qed.

Lemma local_value_fuel n m a : (rank a <= n)%nat -> (rank a <= m)%nat -> local_value n a = local_value m a.
Proof.
  revert m a. induction n as [|n IH]; intros [|m] a Hn Hm; cbn; destruct (user me a) as [|d|a'] eqn:Ea;
    try done; apply rank_ok in Ea; try lia. apply IH; lia.
Qed.

Lemma local_value_eq a : local_value (rank a) a =
  match user me a with OUnit => None | OData d => Some d | OAm a => local_value (rank a) a end.
Proof.
  destruct (rank a) as [|n] eqn:Er; cbn; destruct (user me a) as [|d|a'] eqn:Ea; try done;
    pose proof (rank_ok _ _ _ Ea); [lia|]. apply local_value_fuel; lia.
Qed.

Lemma value_result read p a : (forall d, read (result_bytes d) = Some d) ->
  process_result read (result_at p a) = Done (value_at p a).
Proof.
  intros Hread. unfold result_at, value_at. destruct (Z.eqb_spec p me) as [->|Hne].
  - unfold result_here. rewrite local_value_result by done. by rewrite <- local_value_eq.
  - unfold result_there. destruct (user p a) as [|d|a'] eqn:Ea; cbn; [done|by rewrite Hread|].
    by apply local_value_result.
Qed.

Lemma process_values read a ps : (forall d, read (result_bytes d) = Some d) ->
  process_all read (map (fun p => result_at p a) ps) = Done (map (fun p => value_at p a) ps).
Proof. intros Hread. induction ps as [|p ps IH]; [done|]. unfold process_all in *. cbn [map foldr]. by rewrite value_result, IH by done. Qed.

(** A complete map of results. *)
Lemma take_all_complete (data : gmap nat InternalResult) (f : Z -> InternalResult) (ps : list Z) :
  size data = length ps -> (forall k p, ps !! k = Some p -> data !! k = Some (f p)) ->
  take_all data = Done (map f ps).
Proof.
  intros Hsz Hd. unfold take_all. rewrite Hsz. clear Hsz.
  assert (Hgen : forall start ps', (forall k p, ps' !! k = Some p -> data !! (start + k)%nat = Some (f p)) ->
    foldr (fun k rs => let! d := unwrap (data !! k) in let! rs := rs in Done (d :: rs)) (Done []) (seq start (length ps')) =
    Done (map f ps')).
  { intros start ps'. revert start. induction ps' as [|p ps' IH]; intros start Hd'; [done|]. cbn.
    pose proof (Hd' O p eq_refl) as E. rewrite Nat.add_0_r in E. rewrite E. cbn. rewrite IH; [done|].
    intros k q Hk. specialize (Hd' (S k) q Hk). by rewrite Nat.add_succ_r in Hd'. }
  apply Hgen. exact Hd.
Qed.

Lemma keys_below (data : gmap nat InternalResult) n : (forall k, is_Some (data !! k) -> (k < n)%nat) ->
  (size data <= n)%nat /\ (size data = n <-> forall k, (k < n)%nat -> is_Some (data !! k)).
Proof.
  intros Hk. assert (Hsub : dom data ⊆ (set_seq 0 n : gset nat)).
  { intros k Hd%elem_of_dom. apply elem_of_set_seq. specialize (Hk k Hd). lia. }
  pose proof (subseteq_size _ _ Hsub) as Hle. rewrite size_set_seq, size_dom in Hle. split; [done|]. split.
  - intros E k Hlt. apply elem_of_dom.
    rewrite (set_subseteq_size_eq (dom data) (set_seq 0 n) Hsub) by (rewrite size_set_seq, size_dom; lia).
    apply elem_of_set_seq. lia.
  - intros Hall. apply Nat.le_antisymm; [done|]. rewrite <- (size_dom (D := gset nat)), <- (size_set_seq (C := gset nat) 0 n).
    apply subseteq_size. intros k Hin%elem_of_set_seq. apply elem_of_dom, Hall. lia.
Qed.

Lemma lookup_stored pe k : pes !! k = Some pe <-> team_pe pe = Some k.
Proof. by rewrite team_pe_Some. Qed.

Lemma entry_cnt_zero os h M : zsum (entry_cnt os h) M = 0 ->
  forall e, e ∈ M -> at_req os h e = true -> unsignalled (est e) = false.
Proof.
  intros Hz e He Hat. apply not_true_iff_false. intros Hu.
  assert (entry_cnt os h e <= 0).
  { rewrite <- Hz. apply zsum_elem_le; [|done]. intros x _. unfold entry_cnt. destruct (_ && _); cbn; lia. }
  unfold entry_cnt in *. rewrite Hat, Hu in *. cbn in *. lia.
Qed.

Lemma entry_cnt_none os h M : (forall e, e ∈ M -> at_req os h e = true -> unsignalled (est e) = false) ->
  zsum (entry_cnt os h) M = 0.
Proof.
  intros Hno. apply zsum_zero, Forall_forall. intros e He. unfold entry_cnt.
  destruct (at_req os h e) eqn:E; [|done]. by rewrite Hno.
Qed.

Lemma unsignalled_unstored st : unsignalled st = false -> unstored st = false.
Proof. by destruct st. Qed.

Lemma stored_all os M h q sub a ds : req_ok os M h q -> held (handle q) = true -> asked q !! sub = Some (a, ds) ->
  (forall e, e ∈ M -> at_req os h e = true -> unsignalled (est e) = false) ->
  forall pe, pe ∈ ds -> stored (handle q) pe sub = Some (result_at pe a).
Proof.
  intros [R1 R2 R3 R4 R5] Hh Ha Hno pe Hpe. destruct (stored (handle q) pe sub) as [d|] eqn:E.
  - f_equal. by eapply R3.
  - destruct (R4 Hh sub a ds pe Ha Hpe) as [?|(e & He & H1 & _ & _ & H2)]; [done|].
    by rewrite (unsignalled_unstored _ (Hno e He H1)) in H2.
Qed.

(** What [get] returns, and that it does when nothing is under way. *)
Lemma get_one_right read os M h q sub a ds r : (forall d, read (result_bytes d) = Some d) ->
  req_ok os M h q -> held (handle q) = true -> asked q !! sub = Some (a, ds) ->
  get read (handle q) sub = Some r -> r = Done (map (fun p => value_at p a) ds).
Proof.
  intros Hread Hok Hh Ha Hget. rewrite <- (process_values read) by done.
  pose proof Hok as [R1 R2 R3 R4 R5]. pose proof (R1 _ _ _ Ha) as Hs.
  assert (Hall : forall m, (forall k, is_Some (m !! k) -> (k < length pes)%nat) -> ds = pes ->
    (forall k p, pes !! k = Some p -> m !! k <> None) ->
    (forall k p, pes !! k = Some p -> stored (handle q) p sub = m !! k) ->
    take_all m = Done (map (fun p => result_at p a) ds)).
  { intros m Hm -> Hne Hst. apply take_all_complete.
    - apply keys_below; [done|]. intros k Hlt. destruct (lookup_lt_is_Some_2 pes k Hlt) as [p Hp].
      specialize (Hne k p Hp). destruct (m !! k); [by eexists|done].
    - intros k p Hk. specialize (Hne k p Hk). specialize (Hst k p Hk). destruct (m !! k) as [d|] eqn:Ek; [|done].
      f_equal. apply (R3 sub a pes p); [done|by eapply list_elem_of_lookup_2|done]. }
  unfold signal_ok, data_ok in *. destruct (handle q) as [rd d u|cnt m u|rd d u|g m|g mm|g m] eqn:Eh;
    unfold get, get_single, get_multi, get_req, get_task, get_all, get_task_all in Hget; cbn in Hget.
  - destruct rd; [|done]. destruct R5 as [R5 _]. specialize (R5 eq_refl). destruct d as [d|]; [|done].
    injection Hget as <-. destruct Hs as [_ [p ->]]. assert (d = result_at p a) as -> by (apply (R3 sub a [p] p); [done|by left|done]). done.
  - destruct (0 <? cnt) eqn:Ec; [done|]. injection Hget as <-. cbn in Hh. specialize (R5 Hh).
    pose proof (entry_cnt_nonneg os h M). assert (Hz : zsum (entry_cnt os h) M = 0) by lia. destruct Hs as [_ ->].
    rewrite (Hall m); [done|done|done| |].
    + intros k p Hk. pose proof (stored_all _ _ _ _ _ _ _ Hok ltac:(by rewrite Eh) Ha (entry_cnt_zero _ _ _ Hz) p) as Hst.
      rewrite Eh in Hst. cbn in Hst. rewrite (proj1 (lookup_stored _ _) Hk) in Hst. rewrite Hst; [done|by eapply list_elem_of_lookup_2].
    + intros k p Hk. cbn. by rewrite (proj1 (lookup_stored _ _) Hk).
  - destruct rd; [|done]. destruct R5 as [R5 _]. specialize (R5 eq_refl). destruct d as [d|]; [|done].
    injection Hget as <-. destruct Hs as [_ ->]. assert (d = result_at me a) as -> by (apply (R3 sub a [me] me); [done|by left|done]). done.
  - destruct (m !! sub) as [d|] eqn:Em; [|done]. injection Hget as <-. destruct Hs as [p ->]. 
    assert (d = result_at p a) as -> by (apply (R3 sub a [p] p); [done|by left|done]). done.
  - destruct (mm !! sub) as [m|] eqn:Em; [|done]. destruct (_ <? _) eqn:Ec; [done|]. injection Hget as <-.
    destruct (R2 sub m Em) as [_ Hk]. destruct (keys_below m _ Hk) as [Hle [Hfull _]]. unfold num_pes in Ec.
    specialize (Hfull ltac:(lia)). rewrite (Hall m); [done|done|done| |].
    + intros k p Hp. destruct (Hfull k) as [d ->]; [by eapply lookup_lt_Some|done].
    + intros k p Hp. cbn. by rewrite (proj1 (lookup_stored _ _) Hp), Em.
  - destruct (m !! sub) as [d|] eqn:Em; [|done]. injection Hget as <-. 
    assert (d = result_at me a) as -> by (apply (R3 sub a ds me); [done|rewrite Hs; by left|done]). by rewrite Hs.
Qed.

Lemma get_one_ready read os M h q sub a ds :
  req_ok os M h q -> held (handle q) = true -> asked q !! sub = Some (a, ds) ->
  (forall e, e ∈ M -> at_req os h e = true -> unsignalled (est e) = false) -> is_Some (get read (handle q) sub).
Proof.
  intros Hok Hh Ha Hno. pose proof Hok as [R1 R2 R3 R4 R5]. pose proof (R1 _ _ _ Ha) as Hs.
  pose proof (stored_all _ _ _ _ _ _ _ Hok Hh Ha Hno) as Hst. pose proof (entry_cnt_none _ _ _ Hno) as Hz.
  unfold signal_ok, data_ok in *. destruct (handle q) as [rd d u|cnt m u|rd d u|g m|g mm|g m] eqn:Eh;
    unfold get, get_single, get_multi, get_req, get_task, get_all, get_task_all; cbn in *.
  1, 3: destruct rd; [by eexists|]; destruct R5 as [_ R5]; destruct (R5 Hh eq_refl) as (e & He & H1 & H2);
    by rewrite (Hno e He H1) in H2.
  - rewrite (R5 Hh), Hz. cbn. by eexists.
  - destruct Hs as [p ->]. rewrite (Hst p) by (by left). by eexists.
  - subst ds. pose proof pes_ne as Hne. destruct pes as [|p0 ps] eqn:Ep; [done|]. rewrite <- Ep in *.
    assert (Hp0 : pes !! O = Some p0) by (by rewrite Ep).
    pose proof (Hst p0 ltac:(by eapply list_elem_of_lookup_2)) as Hs0. rewrite (proj1 (lookup_stored _ _) Hp0) in Hs0.
    destruct (mm !! sub) as [m|] eqn:Em; [|done]. destruct (R2 sub m Em) as [_ Hk].
    destruct (keys_below m _ Hk) as [_ [_ Hfull]]. unfold num_pes. rewrite Hfull, Z.ltb_irrefl; [by eexists|].
    intros k Hlt. destruct (lookup_lt_is_Some_2 pes k Hlt) as [p Hp].
    pose proof (Hst p ltac:(by eapply list_elem_of_lookup_2)) as Hsp. rewrite (proj1 (lookup_stored _ _) Hp) in Hsp. by eexists.
  - rewrite (Hst me); [by eexists|]. rewrite Hs. by left.
Qed.

(** ** Termination *)
Definition stage_left (st : Stage) : nat :=
  match st with RHeld => 7 | RData => 6 | RReady => 5 | RTeam => 4 | RWorld => 3 | RTg => 2 | RArc => 1 end%nat.

Definition task_left (t : Task) : nat :=
  match t with
  | Launching l ops _ => length ops + 1 + S (S (length pes)) * (14 + rank (lam l))
  | UserHandle _ => 1
  | Process _ _ (AmAll _ a) => 1 + S (length pes) * (12 + rank a)
  | Process _ _ (AmRemote _ a) => 13 + rank a
  | Process _ _ (AmLocal _ a) => 9 + rank a
  | Process _ _ (AmReturn _ a) => 10 + rank a
  | Process _ _ (AmData _ _) | Process _ _ (AmUnit _) => 9
  | Transit _ _ _ (ExecAm _ _ a) => 12 + rank a
  | Transit _ _ _ (ExecReturnAm _ _ a) => 9 + rank a
  | Transit _ _ _ (ExecData _ _ _) | Transit _ _ _ (ExecUnit _) => 8
  | RunRemote _ _ a => 11 + rank a
  | RunLocal _ _ a => 8 + rank a
  | Result _ _ _ st => stage_left st
  end%nat.

Definition left (ts : list Task) : nat := sum_list_with task_left ts.

Lemma left_app ts ts' : left (ts ++ ts') = (left ts + left ts')%nat.
Proof. apply sum_list_with_app. Qed.

Lemma left_send p imm rq r n :
  (forall q b, (task_left (Transit b p q (exec_of_request rq r)) <= n)%nat) ->
  (left (send p imm rq r) <= length (targets p rq) * n)%nat.
Proof.
  intros Hn. unfold send. induction (targets p rq) as [|q qs IH]; [done|]. unfold left in *.
  cbn [map sum_list_with length]. specialize (Hn q (goes_to_batcher imm r)). cbn in *. lia.
Qed.

Lemma process_left p imm m : process_ok p m -> (left (process_msg p imm m) < task_left (Process p imm m))%nat.
Proof.
  assert (Hback : forall rq r, dst rq = Some me -> left (send p imm rq r) = task_left (Transit (goes_to_batcher imm r) p me (exec_of_request rq r))).
  { intros rq r Hd. rewrite (send_back _ _ _ _ Hd). unfold left. cbn [sum_list_with]. lia. }
  destruct m as [rq a|rq a|rq a|rq a|rq d|rq]; cbn [process_ok process_msg].
  - intros (-> & Hs & Hd & Ha). rewrite left_app.
    assert (left (if negb backend_local && ((1 <? num_pes)%Z || bool_decide (team_pe me = None))
      then send me imm rq (ReqAm a) else []) <= length pes * (12 + rank a))%nat.
    { destruct (_ && _); [|cbn; lia]. etrans; [by apply left_send with (n := (12 + rank a)%nat)|].
      apply Nat.mul_le_mono_r. unfold targets. rewrite Hd, Ha. apply length_filter. }
    assert (left (if bool_decide (team_pe (src rq) = None) then [] else [RunLocal me rq a]) <= 8 + rank a)%nat
      by (destruct (bool_decide (team_pe (src rq) = None)); unfold left; cbn [sum_list_with task_left]; lia).
    cbn [task_left]. lia.
  - intros (-> & Hs & d & Hd & E). case_bool_decide; [unfold left; cbn [sum_list_with task_left]; lia|].
    eapply Nat.le_lt_trans; [by apply left_send with (n := (12 + rank a)%nat)|]. unfold targets. rewrite E. cbn. lia.
  - intros _. unfold left. cbn [sum_list_with task_left]. lia.
  - intros (_ & Hd). rewrite Hback by done. cbn. lia.
  - intros (_ & Hd). rewrite Hback by done. cbn. lia.
  - intros (_ & Hd). rewrite Hback by done. cbn. lia.
Qed.

Lemma exec_am_left p rq a t : exec_am p rq a = Done t -> (task_left t < 11 + rank a)%nat.
Proof.
  unfold exec_am, exec, gen_return. destruct (user p a) as [|d|a'] eqn:Ea; intros [= <-]; cbn; try lia.
  apply rank_ok in Ea. lia.
Qed.
Lemma exec_local_am_left p rq a t : exec_local_am p rq a = Done t -> (task_left t < 8 + rank a)%nat.
Proof.
  unfold exec_local_am, exec, gen_return. destruct (user p a) as [|d|a'] eqn:Ea; intros [= <-]; cbn; try lia.
  apply rank_ok in Ea. lia.
Qed.

Lemma am_of_left l r m : am_of l r = Done m -> (task_left (Process me false m) <= S (S (length pes)) * (14 + rank (lam l)))%nat.
Proof.
  unfold am_of. destruct (lkind l); [destruct (world_pe (lpe l)); [|done]|..]; intros [= <-]; cbn [task_left]; lia.
Qed.

Lemma tstep_left s fresh hid t s1 ts : task_ok t -> tstep s fresh hid t = Done (s1, ts) -> (left ts < task_left t)%nat.
Proof.
  intros Ht. destruct t as [l ops r|i|p imm m|b from to e|p rq a|p rq a|r pe d st]; cbn [tstep].
  - destruct ops as [|op ops]; [done|].
    assert (Hnext : forall r', ts = [Launching l ops r'] -> (left ts < task_left (Launching l (op :: ops) r))%nat).
    { intros r' ->. unfold left. cbn [sum_list_with task_left length]. lia. }
    destruct op as [c| | |g|g|g|]; cbn [launch_step]; try (intros [= <- <-]; by eapply Hnext).
    + destruct (_ <? _); [|done]. intros [= <- <-]. by eapply Hnext.
    + destruct (objs s !! _); [|done]. intros [= <- <-]. by eapply Hnext.
    + destruct (reqs s !! _); [|done]. intros [= <- <-]. by eapply Hnext.
    + destruct (am_of l r) as [m|] eqn:Em; [|done]. destruct (objs s !! _); [|done]. intros [= <- <-].
      apply am_of_left in Em. unfold left. cbn [sum_list_with]. destruct (lkeep l); cbn [sum_list_with task_left length] in *; lia.
  - destruct (drop_handle s i); [|done]. intros [= <- <-]. cbn. lia.
  - intros [= <- <-]. by apply process_left.
  - intros [= <- <-]. destruct e; cbn; lia.
  - destruct (exec_am p rq a) as [t|] eqn:E; [|done]. intros [= <- <-]. apply exec_am_left in E. cbn in *. lia.
  - destruct (exec_local_am p rq a) as [t|] eqn:E; [|done]. intros [= <- <-]. apply exec_local_am_left in E. cbn in *. lia.
  - unfold result_step. destruct (req_of s r) as [q|]; [|done]. unfold put_req. destruct st.
    + intros [= <- <-]. destruct (user_held s (handle q)); cbn; lia.
    + destruct (store _ _ _ _); [|done]. destruct (objs s !! id r); [|done]. intros [= <- <-]. cbn. lia.
    + destruct (objs s !! id r); [|done]. intros [= <- <-]. cbn. lia.
    + intros [= <- <-]. cbn. lia.
    + intros [= <- <-]. cbn. lia.
    + intros [= <- <-]. cbn. lia.
    + destruct (objs s !! id r); [|done]. intros [= <- <-]. cbn. lia.
Qed.

Lemma lstep_left N target s s' : inv N target s (tasks s) -> lstep s s' -> (left (tasks s') < left (tasks s))%nat.
Proof.
  intros Hi (i & t & fresh & hid & s1 & ts & Ht & Hf & Hh & E & ->).
  assert (Hok : task_ok t).
  { pose proof (i_tasks _ _ _ _ Hi) as Hts. by apply (Forall_lookup_1 _ _ _ _ Hts Ht). }
  apply tstep_left in E; [|done]. cbn [tasks with_tasks].
  rewrite <- (take_drop_middle (tasks s) i t Ht) at 3. rewrite !left_app. cbn [left sum_list_with]. unfold left in *. cbn. lia.
Qed.

Lemma lstep_sn N target s : N + 1 < USIZE -> inv N target s (tasks s) -> sn lstep s.
Proof.
  intros HN. remember (left (tasks s)) as n eqn:En. revert s En.
  induction (lt_wf n) as [n _ IH]. intros s -> Hi. constructor. intros s' Hs.
  eapply IH; [|done|]; [by eapply lstep_left|by eapply lstep_inv].
Qed.

(** A task can always take its step. *)
Lemma progress N target s : N + 1 < USIZE -> inv N target s (tasks s) -> nf lstep s -> tasks s = [].
Proof.
  intros HN Hi Hnf. destruct (tasks s) as [|t rest] eqn:Et; [done|]. exfalso. apply Hnf.
  set (fr := fresh (dom (objs s))). set (hi := fresh (dom (reqs s))).
  assert (Hf : objs s !! fr = None) by (apply not_elem_of_dom, is_fresh).
  assert (Hh : reqs s !! hi = None) by (apply not_elem_of_dom, is_fresh).
  destruct (tstep_ok _ _ _ _ _ _ _ HN Hi Hf Hh) as (s1 & ts & E & _).
  exists (with_tasks s1 (take 0 (tasks s) ++ ts ++ drop 1 (tasks s))), 0%nat, t, fr, hi, s1, ts.
  by rewrite Et.
Qed.

Lemma outstanding_usize ls s c : reachable ls s -> 0 <= outstanding s c < USIZE.
Proof.
  intros Hr. revert s Hr. apply (rtc_ind_r (fun s => 0 <= outstanding s c < USIZE)); [done|].
  intros s s' _ (i & t & fresh & hid & s1 & ts & Ht & _ & _ & E & ->) Hc. cbn.
  assert (Hadd : forall s c' n, 0 <= outstanding s c < USIZE -> 0 <= outstanding (add_ctr s c' n) c < USIZE).
  { intros s0 c' n H1. cbn. case_decide; [|done]. apply wadd_range. }
  destruct t as [l ops r|j|p imm m|b from to e|p rq a|p rq a|r pe d st]; cbn [tstep] in E.
  - destruct ops as [|op ops]; [done|]. destruct op as [c'| | |g|g|g|]; cbn [launch_step] in E.
    + injection E as <- <-. by apply Hadd.
    + destruct (_ <? _); [|done]. by injection E as <- <-.
    + by injection E as <- <-.
    + by injection E as <- <-.
    + destruct (objs s !! _); [|done]. by injection E as <- <-.
    + destruct (reqs s !! _); [|done]. by injection E as <- <-.
    + destruct (am_of l r); [|done]. destruct (objs s !! _); [|done]. by injection E as <- <-.
  - unfold drop_handle in E. destruct (reqs s !! j) as [q|]; [|done]. cbn [unwrap] in E. injection E as <- <-.
    by destruct (handle q).
  - by injection E as <- <-.
  - by injection E as <- <-.
  - destruct (exec_am p rq a); [|done]. by injection E as <- <-.
  - destruct (exec_local_am p rq a); [|done]. by injection E as <- <-.
  - unfold result_step in E. destruct (req_of s r) as [q|]; [|done]. unfold put_req in E. destruct st.
    + by injection E as <- <-.
    + destruct (store _ _ _ _); [|done]. destruct (objs s !! id r); [|done]. by injection E as <- <-.
    + destruct (objs s !! id r); [|done]. by injection E as <- <-.
    + injection E as <- <-. by apply Hadd.
    + injection E as <- <-. by apply Hadd.
    + injection E as <- <-. destruct (tg q); [by apply Hadd|done].
    + destruct (objs s !! id r); [|done]. by injection E as <- <-.
Qed.

(** ** What is still counted *)
Definition counted (f : Z -> option (option Z)) (c : Ctr) (t : Task) : Z :=
  zsum (entry_ctr f c) (entries t) + launch_ctr c t.

Lemma entry_ctr_bounds f c e : 0 <= entry_ctr f c e <= 1.
Proof. unfold entry_ctr, counts. destruct (still c (est e)), c; try case_decide; lia. Qed.

(** A launch adds to the counter of its group before its request has a name. *)
Lemma named_group l done_ ops g : prog l = done_ ++ ops -> named ops = true -> occ (OAdd (CTg g)) ops = 0.
Proof.
  intros E Hn. assert (Eo : ops = drop (length done_) (prog l)) by (by rewrite E, drop_app_length).
  rewrite Eo in *. clear E Eo. revert Hn. generalize (length done_) as n. intros n. unfold_prog.
  destruct (lowner l) as [[g'|]|g'], (lkind l);
    do 7 (destruct n as [|n]; [cbn [drop app]; first [done | intros _; rewrite !occ_cons, !decide_False by done; done]|]);
    cbn [drop app]; by rewrite ?drop_nil.
Qed.

Lemma launching_entries f c l ops r :
  launch_ok l -> named ops = true -> zsum (entry_ctr f c) (entries (Launching l ops r)) = num_results (lkind l) * counts f c (id r).
Proof. intros Hl Hn. cbn [entries]. rewrite Hn. by apply launch_entries_sum. Qed.

Lemma counts_bounds f c i : 0 <= counts f c i <= 1.
Proof. unfold counts. destruct c; try case_decide; lia. Qed.

Lemma counted_bounds f c t : task_ok t -> 0 <= counted f c t <= weight t.
Proof.
  intros Ht. unfold counted. destruct t as [l ops r|i|p imm m|b from to e|p rq a|p rq a|r pe d st].
  1: { destruct Ht as (Hl & (done_ & Ed) & _). pose proof (num_results_pos (lkind l)) as Hn.
       cbn [launch_ctr weight]. pose proof (launching_occ l done_ ops (OAdd c) Ed) as Hr. pose proof (occ_prog_le (OAdd c) l) as Ht.
       assert (Hle : occ (OAdd c) ops <= occ (OAdd c) (prog l)).
       { rewrite Ed, occ_app. pose proof (occ_nonneg (OAdd c) done_). lia. }
       destruct (named ops) eqn:En.
       - rewrite (launching_entries f c l ops r Hl En). pose proof (counts_bounds f c (id r)) as Hc.
         assert (occ (OAdd c) ops <= counts f c (id r)) by (destruct c as [| |g]; [exact (proj2 Hr)|exact (proj2 Hr)|rewrite (named_group l done_ ops g Ed En); lia]).
         nia.
       - cbn [entries]. rewrite En. cbn [zsum]. nia. }
  1: { cbn. lia. }
  all: cbn [launch_ctr weight]; rewrite Z.add_0_r; apply zsum_le_length; intros e'; apply entry_ctr_bounds.
Qed.

Lemma counted_sum N target s ts c : inv N target s ts -> outstanding s c ≡ᵤ zsum (counted (link_tg s) c) ts.
Proof.
  intros Hi. rewrite (c_ctr _ _ _ _ (i_core _ _ _ _ Hi) c). apply eqmod_eq. clear Hi.
  induction ts as [|t ts IH]; [done|]. unfold all_entries in *. cbn [flat_map zsum]. rewrite zsum_app. unfold counted at 1. lia.
Qed.

(** A counter at zero: nothing is counted by it any more. *)
Lemma counted_zero ls s c : Run ls -> reachable ls s -> outstanding s c <= 0 ->
  forall t, t ∈ tasks s -> counted (link_tg s) c t = 0.
Proof.
  intros Hrun Hr Hc t Ht. pose proof (reachable_inv ls s Hrun Hr) as Hi. pose proof (outstanding_usize ls s c Hr) as Hu.
  pose proof (i_tasks _ _ _ _ Hi) as Hts. rewrite Forall_forall in Hts.
  pose proof (counted_sum _ _ _ _ c Hi) as Hsum. pose proof (i_weight _ _ _ _ Hi) as Hw. destruct Hrun as [_ Hn].
  assert (Hle : zsum (counted (link_tg s) c) (tasks s) <= zsum weight (tasks s)).
  { apply zsum_mono. intros x Hx. by apply counted_bounds, Hts. }
  assert (Hge : forall x, x ∈ tasks s -> 0 <= counted (link_tg s) c x) by (intros x Hx; by apply counted_bounds, Hts).
  assert (Hz : 0 = zsum (counted (link_tg s) c) (tasks s)).
  { replace (outstanding s c) with 0 in Hsum by lia. apply eqmod_small; [done|lia|].
    split; [apply zsum_nonneg; intros x Hx; by apply Hge|lia]. }
  pose proof (zsum_elem_le (counted (link_tg s) c) (tasks s) t Hge Ht). specialize (Hge t Ht). lia.
Qed.

Lemma counted_entry f c t e : plain t -> counted f c t = 0 -> e ∈ entries t -> entry_ctr f c e = 0.
Proof.
  intros Hp Hz He. unfold counted in Hz. destruct (plain_zero t Hp) as (Z1 & _). rewrite Z1 in Hz.
  pose proof (zsum_elem_le (entry_ctr f c) (entries t) e ltac:(intros x _; apply entry_ctr_bounds) He).
  pose proof (entry_ctr_bounds f c e). lia.
Qed.

Lemma runs_held t : plain t -> runs t <> [] -> task_ok t -> exists e, e ∈ entries t /\ est e = RHeld.
Proof.
  intros Hp Hr Hok. destruct t as [l ops r|i|p imm m|b from to e|p rq a|p rq a|r pe d st]; try done.
  - destruct m as [rq a|rq a|rq a|rq a|rq d|rq]; cbn in *; try done; try (eexists; split; [by left|done]).
    + pose proof pes_ne. destruct pes as [|p0 ps]; [done|]. eexists. split; [by left|done].
    + destruct (dst rq) as [d|]; [|done]. eexists. split; [by left|done].
  - destruct e; cbn in *; try done; eexists; (split; [by left|done]).
  - eexists. split; [by left|done].
  - eexists. split; [by left|done].
Qed.

Definition launching (t : Task) : Prop := match t with Launching _ _ _ => True | _ => False end.
#[global] Instance launching_dec t : Decision (launching t).
Proof. destruct t; cbn; apply _. Defined.

Lemma all_runs_launching ts : Forall task_ok ts -> (forall t, t ∈ ts -> plain t -> runs t = []) ->
  all_runs ts = all_runs (filter launching ts).
Proof.
  induction 1 as [|t ts Ht _ IH]; intros Hz; [done|]. unfold all_runs in *. cbn [flat_map].
  rewrite IH by (intros; apply Hz; [by right|done]). rewrite filter_cons. destruct (decide (launching t)) as [Hl|Hl]; [done|].
  destruct t; cbn in Hl; try done; by rewrite (Hz _ ltac:(by left)).
Qed.

(** What a handle asked for is there unless its launch is in progress. *)
Lemma results_there ls s c read h q sub a ds :
  Run ls -> reachable ls s -> outstanding s c <= 0 ->
  reqs s !! h = Some q -> asked q !! sub = Some (a, ds) -> held (handle q) = true ->
  (forall e, e ∈ all_entries (tasks s) -> at_req (objs s) h e = true -> unsignalled (est e) = true ->
     exists t, t ∈ tasks s /\ plain t /\ e ∈ entries t /\ counts (link_tg s) c (id (er e)) = 1) ->
  is_Some (get read (handle q) sub).
Proof.
  intros Hrun Hr Hc Hq Ha Hh Hno. pose proof (reachable_inv ls s Hrun Hr) as Hi.
  eapply get_one_ready; [exact (c_reqs _ _ _ _ (i_core _ _ _ _ Hi) h q Hq)|done|done|].
  intros e He Hat. apply not_true_iff_false. intros Hu. destruct (Hno e He Hat Hu) as (t & Ht & Hp & Het & Hcnt).
  pose proof (counted_entry _ _ _ _ Hp (counted_zero _ _ _ Hrun Hr Hc t Ht) Het) as Hz. unfold entry_ctr in Hz.
  rewrite Hcnt in Hz. destruct (est e), c; cbn in *; done.
Qed.

(** *** Waiting for the counters *)

(** Nothing of a task is counted by the team any more. *)
Definition settled (t : Task) : Prop :=
  match t with UserHandle _ => True | Result _ _ _ st => unsignalled st = false | _ => False end.

Lemma lstep_settled s s' : lstep s s' -> Forall settled (tasks s) -> Forall settled (tasks s').
Proof.
  intros (i & t & f & h & s1 & ts & Ht & _ & _ & Es & ->) Hs. cbn [tasks with_tasks].
  pose proof (proj1 (Forall_lookup _ _) Hs i t Ht) as Hst. apply Forall_app. split; [by apply Forall_take|].
  apply Forall_app. split; [|by apply Forall_drop]. destruct t as [l ops r|j|p imm m|b from to e|p rq a|p rq a|r pe d st]; try done.
  - cbn in Es. destruct (drop_handle s j); cbn in Es; [injection Es as <- <-; constructor|done].
  - cbn [tstep] in Es. unfold result_step in Es. destruct (req_of s r) as [q|]; cbn in Es; [|done].
    destruct st; try done; cbn in Es; [..|destruct (unwrap _); cbn in Es; [|done]]; injection Es as <- <-; by repeat constructor.
Qed.

Lemma settled_rtc s s' : rtc lstep s s' -> Forall settled (tasks s) -> Forall settled (tasks s').
Proof. induction 1; [done|]. intros. eauto using lstep_settled. Qed.

Lemma settled_results ls s read h q sub a ds : Run ls -> reachable ls s -> Forall settled (tasks s) ->
  reqs s !! h = Some q -> asked q !! sub = Some (a, ds) -> held (handle q) = true -> is_Some (get read (handle q) sub).
Proof.
  intros Hrun Hr Hs Hq Ha Hh. pose proof (reachable_inv ls s Hrun Hr) as Hi.
  eapply get_one_ready; [exact (c_reqs _ _ _ _ (i_core _ _ _ _ Hi) h q Hq)|done|done|].
  intros e He _. unfold all_entries in He. apply list_elem_of_In, in_flat_map in He as (t & Ht & He).
  apply list_elem_of_In in Ht, He. pose proof (proj1 (Forall_forall _ _) Hs t Ht) as Hst.
  destruct t; try done; [by apply elem_of_nil in He|]. cbn in He. apply list_elem_of_singleton in He. by subst.
Qed.

(** A task other than a result owes one that is held, or the launch is not over. *)
Lemma owed_held t : plain t -> task_ok t -> (exists e, e ∈ entries t /\ est e = RHeld) \/ exists r pe d st, t = Result r pe d st.
Proof.
  intros Hp Hok. destruct t as [l ops r|i|p imm m|b from to e|p rq a|p rq a|r pe d st]; try done.
  2: destruct e. 1: destruct m as [rq a|rq a|rq a|rq a|rq d|rq].
  all: try (by right; repeat eexists); left; cbn in *; try (eexists; split; [by left|done]).
  - pose proof pes_ne. destruct pes as [|p0 ps]; [done|]. eexists. split; [by left|done].
  - destruct Hok as (_ & _ & d & _ & ->). eexists. split; [by left|done].
Qed.

(** The counter of the team at zero: what is not being launched has been run, and
    without launches only the ends of results are left. *)
Lemma team_zero ls s : Run ls -> reachable ls s -> outstanding s CTeam <= 0 ->
  log s ++ all_runs (filter launching (tasks s)) ≡ₚ total_runs ls /\
  (filter launching (tasks s) = [] -> Forall settled (tasks s)).
Proof.
  intros Hrun Hr Hc. pose proof (reachable_inv ls s Hrun Hr) as Hi. pose proof (counted_zero ls s CTeam Hrun Hr Hc) as Hz.
  pose proof (i_tasks _ _ _ _ Hi) as Hts. rewrite Forall_forall in Hts.
  assert (Hne : forall t e, t ∈ tasks s -> plain t -> e ∈ entries t -> est e <> RHeld).
  { intros t e Ht Hp He Est. pose proof (counted_entry _ _ _ _ Hp (Hz t Ht) He) as Hbad. unfold entry_ctr in Hbad.
    by rewrite Est in Hbad. }
  split.
  - rewrite <- (i_log _ _ _ _ Hi). f_equiv. rewrite <- all_runs_launching; [done|exact (i_tasks _ _ _ _ Hi)|].
    intros t Ht Hp. destruct (runs t) as [|x xs] eqn:Er; [done|]. exfalso.
    destruct (runs_held t Hp) as (e & He & Est); [by rewrite Er|by apply Hts|]. by eapply Hne.
  - intros Hno. apply Forall_forall. intros t Ht. destruct t as [l ops r|i|p imm m|b from to e|p rq a|p rq a|r pe d st].
    { assert (Hl : Launching l ops r ∈ filter launching (tasks s)) by (by apply list_elem_of_filter).
      rewrite Hno in Hl. by apply elem_of_nil in Hl. }
    { done. }
    5: { pose proof (counted_entry (link_tg s) CTeam (Result r pe d st) {| er := r; epe := pe; ed := d; est := st |} I (Hz _ Ht) ltac:(by left)) as Hb.
         unfold entry_ctr in Hb. by destruct st. }
    all: exfalso; match type of Ht with ?t ∈ _ =>
      destruct (owed_held t I (Hts t Ht)) as [(x & Hx & Ex)|(? & ? & ? & ? & ?)]; [exact (Hne t x Ht I Hx Ex)|done] end.
Qed.

(** A step only adds to the log, and launches nothing. *)
Lemma plain_launches ts : Forall plain ts -> filter launching ts = [].
Proof. induction 1 as [|t l Ht _ IH]; [done|]. rewrite filter_cons_False; [done|]. destruct t; cbn in *; tauto. Qed.

Lemma launch_step_ahead s f h l op ops r s1 ts : launch_step s f h l op ops r = Done (s1, ts) ->
  log s1 = log s /\ ((exists r', ts = [Launching l ops r']) \/ filter launching ts = []).
Proof.
  unfold launch_step. destruct op; cbn; intros Es; repeat match type of Es with
    | context [assert_ ?b] => destruct b; cbn in Es
    | context [unwrap ?o] => destruct o; cbn in Es
    | context [am_of ?l ?r] => destruct (am_of l r); cbn in Es
    end; try done; injection Es as <- <-; (split; [done|]); try (by left; eexists).
  right. rewrite filter_cons_False by (by intros []). by destruct (lkeep l).
Qed.

Lemma result_step_log s r pe d st s1 ts : result_step s r pe d st = Done (s1, ts) -> log s1 = log s /\ Forall plain ts.
Proof.
  unfold result_step, put_req. intros Es. destruct (req_of s r) as [q|]; cbn in Es; [|done].
  destruct st; cbn in Es; repeat match type of Es with
    | context [unwrap ?o] => destruct o; cbn in Es
    | context [store ?h ?pe ?s ?d] => destruct (store h pe s d); cbn in Es
    end; try done; injection Es as <- <-; try (by split; [done|repeat constructor]).
  split; [by destruct (tg q)|by repeat constructor].
Qed.

Lemma step_launching s f h t s1 ts : tstep s f h t = Done (s1, ts) ->
  all_runs (filter launching ts) ⊆+ all_runs (filter launching [t]) /\ exists l, log s1 = log s ++ l.
Proof.
  intros Es. destruct t as [l [|op ops] r|i|p imm m|b from to e|p rq a|p rq a|r pe d st]; cbn [tstep] in Es; try done.
  - apply launch_step_ahead in Es as [-> Hts]. split; [|by exists []; rewrite app_nil_r].
    destruct Hts as [[r' ->]| ->]; [done|apply submseteq_nil_l].
  - unfold drop_handle in Es. destruct (unwrap _) as [q|]; cbn in Es; [|done]. injection Es as <- <-.
    split; [done|]. exists []. rewrite app_nil_r. by destruct (handle q).
  - injection Es as <- <-. rewrite plain_launches by apply process_plain. split; [done|]. by exists []; rewrite app_nil_r.
  - injection Es as <- <-. split; [by destruct e|]. by exists []; rewrite app_nil_r.
  - unfold exec_am in Es. destruct (exec p false a); cbn in Es; try done; injection Es as <- <-; (split; [done|by eexists]).
  - unfold exec_local_am in Es. destruct (exec p true a); cbn in Es; try done; injection Es as <- <-; (split; [done|by eexists]).
  - apply result_step_log in Es as [-> Hts]. rewrite plain_launches by done. split; [done|]. by exists []; rewrite app_nil_r.
Qed.

Lemma lstep_ahead s s' : lstep s s' ->
  all_runs (filter launching (tasks s')) ⊆+ all_runs (filter launching (tasks s)) /\ log s `prefix_of` log s'.
Proof.
  intros (i & t & f & h & s1 & ts & Ht & _ & _ & Es & ->). cbn [tasks with_tasks log].
  apply step_launching in Es as [Hl [l El]]. split; [|by exists l].
  assert (Ets : tasks s = take i (tasks s) ++ [t] ++ drop (S i) (tasks s)) by (symmetry; by apply take_drop_middle).
  rewrite Ets at 3. rewrite !filter_app, !all_runs_app. apply submseteq_app; [done|]. by apply submseteq_app.
Qed.

Lemma lsteps_ahead s s' : rtc lstep s s' ->
  all_runs (filter launching (tasks s')) ⊆+ all_runs (filter launching (tasks s)) /\ log s `prefix_of` log s'.
Proof.
  induction 1 as [s|s s1 s' Hs _ [IH1 IH2]]; [done|]. apply lstep_ahead in Hs as [H1 H2].
  split; [by rewrite IH1|by rewrite H2].
Qed.

Lemma no_launching s s' : rtc lstep s s' -> filter launching (tasks s) = [] -> filter launching (tasks s') = [].
Proof.
  induction 1 as [s|s s1 s' (i & t & f & h & s2 & ts & Ht & _ & _ & Es & ->) _ IH]; [done|].
  intros Hno. apply IH. cbn [tasks with_tasks]. rewrite <- (take_drop_middle _ _ _ Ht) in Hno.
  rewrite !filter_app, filter_cons in *. destruct (decide (launching t)) as [Hl|Hl]; [by apply app_nil in Hno as [_ ?]|].
  apply app_nil in Hno as [-> Hd]. cbn [drop] in *. rewrite Hd, app_nil_r. cbn.
  destruct t as [l ops r|j|p imm m|b from to e|p rq a|p rq a|r pe d st]; cbn [tstep] in Es; try done.
  - destruct (drop_handle s j); cbn in Es; [by injection Es as <- <-|done].
  - injection Es as <- <-. apply plain_launches, process_plain.
  - injection Es as <- <-. by destruct e.
  - unfold exec_am in Es. by destruct (exec p false a); cbn in Es; try done; injection Es as <- <-.
  - unfold exec_local_am in Es. by destruct (exec p true a); cbn in Es; try done; injection Es as <- <-.
  - apply result_step_log in Es as [_ Hts]. by apply plain_launches.
Qed.

Lemma waited_runs ls s0 s1 s2 : rtc lstep s0 s1 -> rtc lstep s1 s2 ->
  log s1 ++ all_runs (filter launching (tasks s1)) ≡ₚ total_runs ls ->
  total_runs ls ⊆+ log s2 ++ all_runs (filter launching (tasks s0)).
Proof.
  intros H1 H2 <-. apply lsteps_ahead in H1 as [H1 _], H2 as [_ [l ->]]. apply submseteq_app; [|done].
  by apply submseteq_inserts_r.
Qed.

(** A wait: it returns because the flag is set, or after a state in which the
    counter of the team was zero. *)
Lemma wait_history world s0 p0 w : rtc (wstep world) {| life := s0; panic := p0; wpc := AtPanic |} w ->
  rtc lstep s0 (life w) /\ (wpc w = Returned true -> panic w <> 0) /\
  (match wpc w with AtWorld | Returned false => True | _ => False end ->
   exists s1, rtc lstep s0 s1 /\ rtc lstep s1 (life w) /\ outstanding s1 CTeam <= 0).
Proof.
  intros Hw. revert w Hw. apply rtc_ind_r; cbn [life panic wpc]; [done|].
  intros w w' _ Hs (IH1 & IH2 & IH3). destruct Hs as [s s' p pc Hl|s p pc|s p pc Hp|s p pc]; cbn [life panic wpc] in *.
  - split; [by eapply rtc_r|]. split; [done|]. intros Hpc. destruct (IH3 Hpc) as (s1 & H1 & H2 & H3).
    exists s1. split; [done|]. split; [by eapply rtc_r|done].
  - split; [done|]. split; [|done]. intros E. specialize (IH2 E). unfold force_shutdown_exchange. by destruct (p =? 0).
  - split; [done|]. split; [|done]. by intros _.
  - split; [done|]. destruct pc as [| | |b]; cbn [wait_all].
    + destruct (p =? 0) eqn:E; (split; [|done]); [done|]. intros _. lia.
    + destruct (0 <? outstanding s CTeam) eqn:E; [done|].
      split; [by destruct world|]. intros _. exists s. split; [done|]. split; [done|lia].
    + destruct (0 <? outstanding s CWorld) eqn:E; [done|]. split; [done|]. intros _. by apply IH3.
    + done.
Qed.

Lemma ended_counters ls s c : Run ls -> reachable ls s -> tasks s = [] -> outstanding s c = 0.
Proof.
  intros Hrun Hr Et. pose proof (reachable_inv ls s Hrun Hr) as Hi. rewrite Et in Hi.
  apply eqmod_small; [|by eapply outstanding_usize|done]. exact (c_ctr _ _ _ _ (i_core _ _ _ _ Hi) c).
Qed.

(** C23: no step of the life of an active message panics: the request of a result
    is alive whenever the result gets to it (its object has not been freed), no
    result is missing, of the wrong kind or from outside the team, in every
    interleaving of launches, executions, completions and dropped handles. *)
Theorem am_no_panic ls s i t fresh hid (Hrun : Run ls) (Hr : reachable ls s) (Ht : tasks s !! i = Some t)
    (Hf : objs s !! fresh = None) (Hh : reqs s !! hid = None) :
  exists s1 ts, tstep s fresh hid t = Done (s1, ts).
Proof.
  pose proof (reachable_inv ls s Hrun Hr) as Hi. apply (inv_perm _ _ _ _ _ (take_drop_perm _ _ _ Ht)) in Hi.
  destruct (tstep_ok _ _ _ _ _ _ _ (run_size _ Hrun) Hi Hf Hh) as (s1 & ts & E & _). by exists s1, ts.
Qed.

(** C4: every run ends, and then every active message was run exactly once on
    each of its PEs (those that bodies return included), all counters are back at
    zero and the requests are freed except those of the task groups. *)
Theorem am_run_completes ls (Hrun : Run ls) :
  sn lstep (init ls) /\
  forall s, reachable ls s -> nf lstep s ->
    tasks s = [] /\ log s ≡ₚ total_runs ls /\ (forall c, outstanding s c = 0) /\
    (forall i, is_Some (objs s !! i) -> is_group_obj i).
Proof.
  split; [eapply lstep_sn; [exact (run_size _ Hrun)|by apply init_inv, Hrun]|].
  intros s Hr Hnf. pose proof (reachable_inv ls s Hrun Hr) as Hi.
  pose proof (progress _ _ _ (run_size _ Hrun) Hi Hnf) as Et. rewrite Et in Hi. split; [done|].
  pose proof (i_core _ _ _ _ Hi) as HC. split_and!.
  - rewrite <- (i_log _ _ _ _ Hi). cbn. by rewrite app_nil_r.
  - intros c. apply eqmod_small; [|by eapply outstanding_usize|done]. exact (c_ctr _ _ _ _ HC c).
  - intros i [o Ho]. destruct (c_objs _ _ _ _ HC _ _ Ho) as [Hpos _]. pose proof (c_strong _ _ _ _ HC i) as Hs.
    unfold strong_at in Hs. rewrite Ho in Hs. cbn in Hs. unfold base in Hs.
    destruct (bool_decide _) eqn:E; [|cbn in Hs; lia]. apply bool_decide_eq_true in E.
    apply list_elem_of_fmap in E as ([g k] & -> & Hg%elem_of_group_objects). by exists g, k.
Qed.

(** C6: what [get] returns is what the bodies computed, one value per PE in the
    order of the team, whichever way the results travelled; and when the run is
    over every handle that was kept has its results. *)
Theorem am_results ls s read h q sub a ds (Hread : forall d, read (result_bytes d) = Some d)
    (Hrun : Run ls) (Hr : reachable ls s) (Hq : reqs s !! h = Some q) (Ha : asked q !! sub = Some (a, ds))
    (Hheld : held (handle q) = true) :
  (forall r, get read (handle q) sub = Some r -> r = Done (map (fun p => value_at p a) ds)) /\
  (tasks s = [] -> get read (handle q) sub = Some (Done (map (fun p => value_at p a) ds))).
Proof.
  pose proof (reachable_inv ls s Hrun Hr) as Hi. pose proof (c_reqs _ _ _ _ (i_core _ _ _ _ Hi) h q Hq) as Hok.
  assert (Hright : forall r, get read (handle q) sub = Some r -> r = Done (map (fun p => value_at p a) ds)).
  { intros r. by eapply get_one_right. }
  split; [done|]. intros Et. rewrite Et in Hok.
  destruct (get_one_ready read _ _ _ _ _ _ _ Hok Hheld Ha) as [r Eg]; [by intros e ?%elem_of_nil|].
  rewrite Eg. f_equal. by apply Hright.
Qed.

(** C5: [wait_all] of the team or of the world, whose loads of the panic flag and
    of the counters interleave with every other step.  When it returns, either the
    runtime was shutting down (its panic flag is set), or every active message
    whose launch had returned when [wait_all] was called has been run on all of its
    PEs; if no launch was under way then, the results of every handle that is kept
    are there, too.  And it does return: once nothing is left to run, after at most
    three loads. *)
Theorem wait_all_waits ls world s0 p0 w (Hrun : Run ls) (Hr : reachable ls s0)
    (Hw : rtc (wstep world) {| life := s0; panic := p0; wpc := AtPanic |} w) :
  (wpc w = Returned true -> panic w <> 0) /\
  (wpc w = Returned false ->
     total_runs ls ⊆+ log (life w) ++ all_runs (filter launching (tasks s0)) /\
     (filter launching (tasks s0) = [] -> forall read h q sub a ds,
        reqs (life w) !! h = Some q -> asked q !! sub = Some (a, ds) -> held (handle q) = true ->
        is_Some (get read (handle q) sub))) /\
  (tasks (life w) = [] -> panic w = 0 -> Nat.iter 3 (wait_all world (life w) (panic w)) (wpc w) = Returned false).
Proof.
  destruct (wait_history world s0 p0 w Hw) as (H02 & Hpan & Hret). assert (Hr2 : reachable ls (life w)) by (unfold reachable in *; by transitivity s0). split_and!.
  - done.
  - intros E. rewrite E in Hret. destruct (Hret I) as (s1 & H1 & H2 & Hc).
    assert (Hr1 : reachable ls s1) by (unfold reachable in *; by transitivity s0). pose proof (team_zero ls s1 Hrun Hr1 Hc) as [Hruns Hset].
    split; [by eapply waited_runs|]. intros Hno read h q sub a ds. apply (settled_results ls (life w)); [done|done|].
    eapply settled_rtc; [exact H2|]. apply Hset. by apply (no_launching s0).
  - intros Et Ep. pose proof (fun c => ended_counters ls (life w) c Hrun Hr2 Et) as Hz. rewrite Ep.
    destruct (wpc w) as [| | |[]] eqn:E; [..|by destruct Hpan|done]; cbn; rewrite ?Hz; destruct world; cbn; by rewrite ?Hz.
Qed.

(** when [wait_all] of a task group returns, the results of every active
    message launched by the group, or with its counter, are there. *)
Theorem wait_all_group_waits ls s g read h q sub a ds (Hrun : Run ls) (Hr : reachable ls s)
    (Hw : wait_all_group s g = true) (Hq : reqs s !! h = Some q) (Hg : tg q = Some g)
    (Ha : asked q !! sub = Some (a, ds)) (Hheld : held (handle q) = true) :
  is_Some (get read (handle q) sub).
Proof.
  assert (Hc : outstanding s (CTg g) <= 0) by (unfold wait_all_group in Hw; destruct (0 <? outstanding s (CTg g)) eqn:E; [done|lia]).
  pose proof (reachable_inv ls s Hrun Hr) as Hi. pose proof (counted_zero ls s (CTg g) Hrun Hr Hc) as Hz.
  apply (results_there ls s (CTg g) read h q sub a ds); try done.
  intros e He Hat Hu. unfold all_entries in He. apply list_elem_of_In, in_flat_map in He as (t & Ht & He).
  apply list_elem_of_In in Ht, He.
  assert (Hcnt : counts (link_tg s) (CTg g) (id (er e)) = 1).
  { unfold at_req in Hat. destruct (objs s !! id (er e)) as [o|] eqn:Eo; [|done]. apply Z.eqb_eq in Hat.
    unfold counts, link_tg, link. rewrite Eo, Hat, Hq. cbn. by rewrite Hg, decide_True. }
  exists t. split; [done|]. split; [|done]. destruct t as [l ops r|i| | | | |]; try done; [|by apply elem_of_nil in He]. exfalso.
  pose proof (i_tasks _ _ _ _ Hi) as Hts. rewrite Forall_forall in Hts. destruct (Hts _ Ht) as (Hl & (done_ & Ed) & _).
  cbn [entries] in He. destruct (named ops) eqn:En; [|by apply elem_of_nil in He].
  destruct (launch_entry _ _ _ He) as (Er & _). rewrite Er in Hcnt.
  specialize (Hz _ Ht). unfold counted in Hz. rewrite (launching_entries _ _ _ _ _ Hl En), Hcnt in Hz. cbn [launch_ctr] in Hz.
  rewrite En, (named_group _ _ _ _ Ed En) in Hz. pose proof (num_results_pos (lkind l)). lia.
Qed.
End Life.

(** ** A run *)

Module Example.
Import Concrete.

(** On every PE: 4 returns its PE, 6 returns 4, other numbers nothing. *)
Definition body (p a : Z) : Output Z (list Z) :=
  if a =? 6 then OAm 4 else if a =? 4 then OData [p] else OUnit.
Definition group_object (g : Z) (k : ReqKind) : Z := 3 * g + match k with KPe => 0 | KAll => 1 | KLocal => 2 end.

#[export] Instance env : Env := {|
  byte := Z; am := Z; result := list Z; darcs := list Z;
  darcs_of := fun _ => []; user := body; me := 0; pes := [0; 1]; team := 10; backend_local := false;
  groups := [7]; group_obj := group_object;
|}.
#[export] Instance env_ranked : Ranked.
Proof.
  exists Z.to_nat. intros p a a'. cbn. unfold body. repeat case_match; intros [= <-]. lia.
Defined.
#[export] Instance env_ok : EnvOk.
Proof.
  split; [by apply (bool_decide_unpack _)|done|done|by apply (bool_decide_unpack _)|].
  intros g [] g' []; cbn; unfold group_object; intros E; split; done || lia.
Defined.

(** 6 on PE 1, 4 on every PE by a task group, 5 here without keeping the handle. *)
Definition launches : list Launch :=
  [{| lkind := KPe; lpe := 1; lam := 6; lowner := ByTeam (Some 7); lkeep := true |};
   {| lkind := KAll; lpe := 0; lam := 4; lowner := ByGroup 7; lkeep := true |};
   {| lkind := KLocal; lpe := 0; lam := 5; lowner := ByTeam None; lkeep := false |}].

Lemma launches_run : Run launches.
Proof.
  split; [|done]. repeat constructor; cbn; try lia; try done.
Defined.

(** The first task takes a step, [n] times. *)
Fixpoint drive (n : nat) (s : St) : St :=
  match n with
  | O => s
  | S n =>
    let f := 100 + Z.of_nat n in
    match tasks s with
    | t :: ts =>
      if bool_decide (objs s !! f = None /\ reqs s !! f = None) then
        match tstep s f f t with
        | Done (s1, ts1) => drive n (with_tasks s1 (ts1 ++ ts))
        | Panic => s
        end
      else s
    | [] => s
    end
  end.

Lemma drive_reachable n ls s : reachable ls s -> reachable ls (drive n s).
Proof.
  revert s. induction n as [|n IH]; intros s Hs; [done|]. cbn. destruct (tasks s) as [|t ts] eqn:Et; [done|].
  case_bool_decide as Hf; [|done]. destruct (tstep _ _ _ t) as [[s1 ts1]|] eqn:E; [|done]. apply IH.
  eapply rtc_r; [exact Hs|]. exists 0%nat, t, (100 + Z.of_nat n), (100 + Z.of_nat n), s1, ts1.
  rewrite Et. destruct Hf. done.
Qed.

Definition after (n : nat) : St := drive n (init launches).
Lemma after_reachable n : reachable launches (after n).
Proof. apply drive_reachable. constructor. Qed.
End Example.
Import Example.

Lemma am_no_panic_witness : Run launches /\ reachable launches (after 14) /\
  exists t, tasks (after 14) !! 0%nat = Some t /\ exists s1 ts, tstep (after 14) 500 500 t = Done (s1, ts).
Proof.
  split; [exact launches_run|]. split; [apply after_reachable|].
  destruct (tasks (after 14) !! 0%nat) as [t|] eqn:E; [|vm_compute in E; discriminate E].
  exists t. split; [done|].
  exact (am_no_panic launches (after 14) 0 t 500 500 launches_run (after_reachable 14) E
           ltac:(vm_compute; reflexivity) ltac:(vm_compute; reflexivity)).
Defined.

Lemma after_done : tasks (after 200) = [].
Proof. vm_compute. reflexivity. Qed.

Lemma am_run_completes_witness : Run launches /\ sn lstep (init launches) /\
  exists s, reachable launches s /\ nf lstep s /\ log s ≡ₚ total_runs launches.
Proof.
  split; [exact launches_run|]. destruct (am_run_completes launches launches_run) as [Hsn Hend].
  split; [exact Hsn|]. exists (after 200). split; [apply after_reachable|].
  assert (Hnf : nf lstep (after 200)).
  { intros (s' & i & t & f & h & s1 & ts & Ht & _). rewrite after_done in Ht. by rewrite lookup_nil in Ht. }
  split; [exact Hnf|]. exact (proj1 (proj2 (Hend (after 200) (after_reachable 200) Hnf))).
Defined.

(** The structure of the first launch. *)
Lemma first_req n : (option_map (fun q => (asked q !! 0, held (handle q), tg q)) (reqs (after n) !! (97 + Z.of_nat n))) =
    Some (Some (6, [1]), true, Some 7) ->
  exists q, reqs (after n) !! (97 + Z.of_nat n) = Some q /\ asked q !! 0 = Some (6, [1]) /\ held (handle q) = true /\ tg q = Some 7.
Proof. destruct (reqs (after n) !! _) as [q|]; [|done]. cbn. intros [= E1 E2 E3]. by exists q. Qed.

Lemma am_results_witness : exists q, reqs (after 200) !! 297 = Some q /\
  get (fun b => Some b) (handle q) 0 = Some (Done [Some [0]]).
Proof.
  destruct (first_req 200) as (q & Hq & Ha & Hh & _); [vm_compute; reflexivity|]. exists q. split; [exact Hq|].
  exact (proj2 (am_results launches (after 200) (fun b => Some b) 297 q 0 6 [1] (fun d => eq_refl) launches_run
                  (after_reachable 200) Hq Ha Hh) after_done).
Defined.

(** [wait_all] is called when the first launch is over and the other two have
    not begun, and its three loads find the counters at zero. *)
Lemma wait_run : rtc (wstep true) {| life := after 19; panic := 0; wpc := AtPanic |}
                                  {| life := after 19; panic := 0; wpc := Returned false |}.
Proof.
  assert (H1 : outstanding (after 19) CTeam = 0) by (vm_compute; reflexivity).
  assert (H2 : outstanding (after 19) CWorld = 0) by (vm_compute; reflexivity).
  eapply rtc_l; [apply wstep_load|]. cbn [wait_all Z.eqb]. eapply rtc_l; [apply wstep_load|]. cbn [wait_all]. rewrite H1. cbn [Z.ltb Z.compare].
  eapply rtc_l; [apply wstep_load|]. cbn [wait_all]. rewrite H2. constructor.
Qed.

Lemma wait_all_waits_witness :
  total_runs launches ⊆+ log (after 19) ++ all_runs (filter launching (tasks (after 19))) /\
  length (log (after 19)) = 2%nat.
Proof.
  split; [|vm_compute; reflexivity].
  exact (proj1 (proj1 (proj2 (wait_all_waits launches true (after 19) 0
    {| life := after 19; panic := 0; wpc := Returned false |} launches_run (after_reachable 19) wait_run)) eq_refl)).
Defined.

Lemma wait_all_group_waits_witness : exists q, reqs (after 19) !! 116 = Some q /\
  is_Some (get (fun b => Some b) (handle q) 0).
Proof.
  destruct (first_req 19) as (q & Hq & Ha & Hh & Ht); [vm_compute; reflexivity|]. exists q. split; [exact Hq|].
  exact (wait_all_group_waits launches (after 19) 7 (fun b => Some b) 116 q 0 6 [1] launches_run (after_reachable 19)
           ltac:(vm_compute; reflexivity) Hq Ht Ha Hh).
Defined.
