(* ===== verification/BatchTasks.v ===== *)
(** When a batch is sent (the four [add_*_to_batch] of
    src/src/active_messaging/batching/simple_batcher.rs and team_am_batcher.rs,
    whose control is the same).

    The first command of a batch schedules a task that waits until the stall
    mark stops moving, the batch is full or somebody else has sent it; a command
    that finds the batch full schedules a task that sends at once.  The two
    batchers differ in how a batch stores its commands: [BatchStore] is what the
    tasks need of it, [BatchLaws] what they promise for it. *)

From stdpp Require Import base list numbers relations.
From Stdlib Require Import ZArith Lia.
From S2P Require Import Prelude.

Local Open Scope Z_scope.

(** [B]: a batch; [R]: a command with its meta data; [E]: what the destination
    executes. [bs_add] adds to a batch and returns the bytes added;
    [bs_transmit b r s buf] serialises the batch of [s] bytes into the buffer
    [buf] for the task that [r] started and runs the receiving side: the PEs the
    message is addressed to and the commands they start. *)
Class BatchStore (byte B R E : Type) := {
  bs_empty : B;
  bs_add : B -> R -> outcome (B * nat);
  bs_tx_size : B -> nat -> nat;
  bs_transmit : B -> R -> nat -> list byte -> outcome (list Z * list E);
}.

(** [bs_ok]: the batches the operations build; [bs_size]: their bytes;
    [bs_execs]: their commands, in some order; [bs_exec]: a command as the
    destination sees it; [bs_bound]: at most so many bytes for a command. *)
Class BatchLaws (byte B R E : Type) `{BatchStore byte B R E} := {
  bs_ok : B -> Prop;
  bs_size : B -> nat;
  bs_execs : B -> list E;
  bs_exec : R -> E;
  bs_bound : R -> nat;
  bs_empty_ok : bs_ok bs_empty /\ bs_size bs_empty = 0%nat /\ bs_execs bs_empty = [];
  bs_add_ok : forall b r, bs_ok b -> exists b' k, bs_add b r = Done (b', k) /\ bs_ok b' /\
    (0 < k <= bs_bound r)%nat /\ bs_size b' = (k + bs_size b)%nat /\
    bs_execs b' ≡ₚ bs_exec r :: bs_execs b;
  bs_transmit_ok : forall b r buf, bs_ok b -> (0 < bs_size b)%nat ->
    length buf = bs_tx_size b (bs_size b) ->
    exists pes es, bs_transmit b r (bs_size b) buf = Done (pes, es) /\ es ≡ₚ bs_execs b;
  bs_size_0 : forall b, bs_ok b -> bs_size b = 0%nat -> bs_execs b = [];
}.

(** [bs_dest]: the PEs a command is for; [bs_dests]: those of the commands in a
    batch on which its address may depend. *)
Class BatchDests (byte B R E : Type) `{BatchStore byte B R E} := {
  bs_dest : R -> list Z;
  bs_dests : B -> list (list Z);
  bs_empty_dests : bs_dests bs_empty = [];
  bs_add_dests : forall b r b' k, bs_add b r = Done (b', k) -> forall p, p ∈ bs_dests b' -> p = bs_dest r \/ p ∈ bs_dests b;
  bs_transmit_dest : forall b r k buf pes es, bs_transmit b r k buf = Done (pes, es) ->
    pes = bs_dest r \/ pes ∈ bs_dests b;
}.

Definition MAX_BATCH_SIZE : Z := 1000000.

Section Tasks.
Context {byte B R E : Type} `{BatchStore byte B R E}.

(** [Submit]: [submit_am] of the scheduler, which moves the stall mark;
    [Other]: the same for another destination; [Add r s]: [add_*_to_batch] with
    the stall mark [s] it was given (0 from a running active message).  The
    tasks that wait for a batch carry the command that started them. *)
Inductive Task :=
| Submit (r : R)
| Other
| Add (r : R) (stall_mark : Z)
| AddLocked (r : R) (stall_mark : Z)
| First (r : R) (stall_mark : Z)
| WaitStall (r : R) (batch_id stall_mark : Z)
| WaitSize (r : R) (batch_id stall_mark : Z)
| WaitId (r : R) (batch_id stall_mark : Z)
| WaitYield (r : R) (batch_id : Z)
| Valid (r : R) (batch_id : Z)
| CreateTx (r : R)
| Send (r : R) (b : B) (size : nat).

(** One destination: the batch behind its lock, its atomics, the stall mark
    all destinations share, and what has been delivered. *)
Record St := {
  batch : B;
  cur_size : Z;
  batch_id : Z;
  stall_mark : Z;
  tasks : list Task;
  delivered : list (list Z * list E);
}.

Definition with_tasks (s : St) (ts : list Task) : St :=
  {| batch := batch s; cur_size := cur_size s; batch_id := batch_id s; stall_mark := stall_mark s;
     tasks := ts; delivered := delivered s |}.
Definition bump_stall (s : St) : St :=
  {| batch := batch s; cur_size := cur_size s; batch_id := batch_id s; stall_mark := wadd (stall_mark s) 1;
     tasks := tasks s; delivered := delivered s |}.

(** The critical section of [add]: the command is pushed and the size counter
    incremented; the old size decides what follows. *)
Definition add (s : St) (r : R) (sm : Z) : outcome (St * list Task) :=
  let! (b, k) := bs_add (batch s) r in
  let old := cur_size s in
  Done ({| batch := b; cur_size := wadd (cur_size s) (Z.of_nat k); batch_id := batch_id s;
           stall_mark := stall_mark s; tasks := tasks s; delivered := delivered s |},
        if old =? 0 then [First r sm] else if MAX_BATCH_SIZE <=? old then [CreateTx r] else []).

(** The critical section of [swap]. *)
Definition swap (s : St) (r : R) : St * list Task :=
  ({| batch := bs_empty; cur_size := 0; batch_id := wadd (batch_id s) 1; stall_mark := stall_mark s;
      tasks := tasks s; delivered := delivered s |},
   if 0 <? cur_size s then [Send r (batch s) (Z.to_nat (cur_size s))] else []).

Definition deliver (s : St) (x : list Z * list E) : St :=
  {| batch := batch s; cur_size := cur_size s; batch_id := batch_id s; stall_mark := stall_mark s;
     tasks := tasks s; delivered := delivered s ++ [x] |}.

(** A step of a task; [buf] is the buffer the lamellae returns to [Send]. *)
Definition tstep (s : St) (buf : list byte) (t : Task) : outcome (St * list Task) :=
  match t with
  | Submit r => Done (bump_stall s, [Add r (stall_mark s)])
  | Other => Done (bump_stall s, [])
  | Add r sm => Done (if sm =? 0 then bump_stall s else s, [AddLocked r sm])
  | AddLocked r sm => add s r sm
  | First r sm => Done (s, [WaitStall r (batch_id s) sm])
  | WaitStall r i sm =>
    Done (s, [if negb (sm =? stall_mark s) then WaitSize r i sm else Valid r i])
  | WaitSize r i sm => Done (s, [if cur_size s <? MAX_BATCH_SIZE then WaitId r i sm else Valid r i])
  | WaitId r i sm => Done (s, [if i =? batch_id s then WaitYield r i else Valid r i])
  | WaitYield r i => Done (s, [WaitStall r i (stall_mark s)])
  | Valid r i => Done (s, if i =? batch_id s then [CreateTx r] else [])
  | CreateTx r => Done (swap s r)
  | Send r b k =>
    let! x := bs_transmit b r k buf in
    Done (deliver s x, [])
  end.

(** The lamellae returns a buffer of the size asked for, with any contents. *)
Definition buffer_ok (buf : list byte) (t : Task) : Prop :=
  match t with Send _ b k => length buf = bs_tx_size b k | _ => True end.

Definition lstep (s s' : St) : Prop :=
  exists i t buf s1 ts, tasks s !! i = Some t /\ buffer_ok buf t /\ tstep s buf t = Done (s1, ts) /\
    s' = with_tasks s1 (take i (tasks s) ++ ts ++ drop (S i) (tasks s)).

(** The tasks of a run: [submits] come from the scheduler, [adds] from running
    active messages, [others] go to other destinations. *)
Definition init (submits adds : list R) (others : nat) : St :=
  {| batch := bs_empty; cur_size := 0; batch_id := 0; stall_mark := 0;
     tasks := map Submit submits ++ map (fun r => Add r 0) adds ++ replicate others Other;
     delivered := [] |}.
(** ** Nothing is lost, sent twice or waited for without end *)
Context `{!BatchLaws byte B R E}.

(** What a task has not handed over yet: bytes and commands. *)
Definition pending_bytes (t : Task) : Z :=
  match t with Submit r | Add r _ | AddLocked r _ => Z.of_nat (bs_bound r) | _ => 0 end.

Definition pending (t : Task) : list E :=
  match t with
  | Submit r | Add r _ | AddLocked r _ => [bs_exec r]
  | Send _ b _ => bs_execs b
  | _ => []
  end.

(** A task that will send the batch number [i]. *)
Definition responsible (i : Z) (t : Task) : Prop :=
  match t with
  | First _ _ | CreateTx _ => True
  | WaitStall _ j _ | WaitSize _ j _ | WaitId _ j _ | WaitYield _ j | Valid _ j => j = i
  | _ => False
  end.

Definition send_ok (t : Task) : Prop :=
  match t with Send _ b k => bs_ok b /\ k = bs_size b /\ (0 < k)%nat | _ => True end.

Definition all_pending (ts : list Task) : list E := concat (map pending ts).

Record inv (target : list E) (s : St) : Prop := {
  inv_ok : bs_ok (batch s);
  inv_size : cur_size s = Z.of_nat (bs_size (batch s));
  inv_bytes : cur_size s + zsum pending_bytes (tasks s) < USIZE;
  inv_responsible : 0 < cur_size s -> exists t, t ∈ tasks s /\ responsible (batch_id s) t;
  inv_send : Forall send_ok (tasks s);
  inv_commands :
    concat (map snd (delivered s)) ++ all_pending (tasks s) ++ bs_execs (batch s) ≡ₚ target;
}.

Lemma pending_bytes_nonneg ts : 0 <= zsum pending_bytes ts.
Proof. apply zsum_nonneg. intros [] _; cbn; lia. Qed.

Lemma all_pending_app ts ts' : all_pending (ts ++ ts') = all_pending ts ++ all_pending ts'.
Proof. unfold all_pending. by rewrite map_app, concat_app. Qed.

(** A step that replaces task [t] by [ts]. *)
Lemma inv_replace target s s1 i t ts :
  inv target s -> tasks s !! i = Some t -> tasks s1 = tasks s ->
  bs_ok (batch s1) -> cur_size s1 = Z.of_nat (bs_size (batch s1)) ->
  cur_size s1 + zsum pending_bytes ts <= cur_size s + pending_bytes t ->
  (0 < cur_size s1 -> (exists u, u ∈ ts /\ responsible (batch_id s1) u) \/
     (0 < cur_size s /\ batch_id s1 = batch_id s /\ ~ responsible (batch_id s) t)) ->
  Forall send_ok ts ->
  concat (map snd (delivered s1)) ++ all_pending ts ++ bs_execs (batch s1) ≡ₚ
  concat (map snd (delivered s)) ++ pending t ++ bs_execs (batch s) ->
  inv target (with_tasks s1 (take i (tasks s) ++ ts ++ drop (S i) (tasks s))).
Proof.
  intros [I1 I2 I3 I4 I5 I6] Hi Hts H1 H2 H3 H4 H5 H6.
  pose proof (take_drop_middle (tasks s) i t Hi) as Hsplit.
  set (pre := take i (tasks s)) in *. set (post := drop (S i) (tasks s)) in *.
  split; cbn [with_tasks batch cur_size batch_id tasks delivered]; [done|done| | | |].
  - unfold pre, post. rewrite (zsum_replace _ _ _ t) by done. lia.
  - intros Hs. destruct (H4 Hs) as [(u & Hu & Hr)|(Hs0 & -> & Hr)].
    + exists u. split; [|done]. rewrite !elem_of_app. auto.
    + destruct (I4 Hs0) as (u & Hu & Hru). exists u. split; [|done].
      rewrite <- Hsplit in Hu. rewrite !elem_of_app in *. rewrite elem_of_cons in Hu.
      destruct Hu as [?|[->|?]]; auto. done.
  - rewrite <- Hsplit, Forall_app, Forall_cons in I5. rewrite !Forall_app. tauto.
  - rewrite <- I6, <- Hsplit, (all_pending_app pre (ts ++ post)), (all_pending_app pre (t :: post)),
      (all_pending_app ts post).
    change (all_pending (t :: post)) with (pending t ++ all_pending post).
    by rewrite !perm_shuffle, H6.
Qed.

Lemma inv_task target s i t :
  inv target s -> tasks s !! i = Some t -> send_ok t /\ cur_size s + pending_bytes t < USIZE.
Proof.
  intros Hs Hi. split; [eapply Forall_lookup_1; [apply (inv_send _ _ Hs)|done]|].
  pose proof (inv_bytes _ _ Hs).
  assert (pending_bytes t <= zsum pending_bytes (tasks s)); [|lia].
  apply (zsum_lookup_le pending_bytes _ i); [|done]. intros [] _; cbn; lia.
Qed.

(** Every task can take a step, with any buffer of the right size. *)
Lemma tstep_total target s i t buf :
  inv target s -> tasks s !! i = Some t -> buffer_ok buf t -> exists s1 ts, tstep s buf t = Done (s1, ts).
Proof.
  intros Hs Hi Hb. destruct (inv_task _ _ _ _ Hs Hi) as [Hok _]. destruct t; try (eexists _, _; reflexivity).
  - destruct (bs_add_ok (batch s) r (inv_ok _ _ Hs)) as (b' & k & E1 & _).
    cbn. unfold add. rewrite E1. eexists _, _. reflexivity.
  - destruct Hok as (H1 & -> & H2). destruct (bs_transmit_ok b r buf H1 H2 Hb) as (pes & es & E1 & _).
    cbn. rewrite E1. eexists _, _. reflexivity.
Qed.

Lemma tstep_tasks s buf t s1 ts : tstep s buf t = Done (s1, ts) -> tasks s1 = tasks s.
Proof.
  destruct t; cbn; intros E1; try (injection E1 as <- <-; done).
  - injection E1 as <- <-. by case_match.
  - unfold add in E1. destruct (bs_add _ _) as [[b k]|]; [|done]. by injection E1 as <- <-.
  - by destruct (bs_transmit _ _ _ _); [injection E1 as <- <-|].
Qed.

(** Most steps leave the batch alone. *)
Lemma inv_quiet target s s1 i t ts :
  inv target s -> tasks s !! i = Some t -> tasks s1 = tasks s ->
  batch s1 = batch s -> cur_size s1 = cur_size s -> batch_id s1 = batch_id s -> delivered s1 = delivered s ->
  zsum pending_bytes ts <= pending_bytes t -> all_pending ts = pending t -> Forall send_ok ts ->
  (responsible (batch_id s) t -> exists u, u ∈ ts /\ responsible (batch_id s) u) ->
  (responsible (batch_id s) t \/ ~ responsible (batch_id s) t) ->
  inv target (with_tasks s1 (take i (tasks s) ++ ts ++ drop (S i) (tasks s))).
Proof.
  intros Hs Hi Hts E1 E2 E3 E4 H1 H2 H3 H4 H5. eapply inv_replace; try eassumption;
    rewrite ?E1, ?E2, ?E3, ?E4, ?H2; try apply Hs; try done; [lia|].
  intros Hp. destruct H5 as [H5|H5]; [left; by apply H4|by right].
Qed.

Lemma responsible_dec j t : responsible j t \/ ~ responsible j t.
Proof. destruct t; cbn; try (by left; auto); try (by right; auto); lia. Qed.

Lemma inv_step_add target s i r sm s1 ts :
  inv target s -> tasks s !! i = Some (AddLocked r sm) -> add s r sm = Done (s1, ts) ->
  inv target (with_tasks s1 (take i (tasks s) ++ ts ++ drop (S i) (tasks s))).
Proof.
  intros Hs Hi Ht. destruct (inv_task _ _ _ _ Hs Hi) as [_ Hbd]. cbn in Hbd.
  pose proof (inv_size _ _ Hs) as Hsz.
  destruct (bs_add_ok (batch s) r (inv_ok _ _ Hs)) as (b' & k & E1 & E2 & E3 & E4 & E5).
  unfold add in Ht. rewrite E1 in Ht. injection Ht as <- <-.
  assert (Hk : wadd (cur_size s) (Z.of_nat k) = cur_size s + Z.of_nat k) by (apply wadd_ok; lia).
  eapply inv_replace; try eassumption; cbn -[wadd]; rewrite ?Hk; try done; try lia.
  - repeat case_match; cbn; lia.
  - intros _. destruct (Z.eqb_spec (cur_size s) 0); [left|right; split; [lia|split; [done|auto]]].
    eexists. split; [by left|done].
  - repeat case_match; repeat constructor.
  - f_equiv. rewrite E5. repeat case_match; done.
Qed.

Lemma inv_step_swap target s i r s1 ts :
  inv target s -> tasks s !! i = Some (CreateTx r) -> swap s r = (s1, ts) ->
  inv target (with_tasks s1 (take i (tasks s) ++ ts ++ drop (S i) (tasks s))).
Proof.
  intros Hs Hi Ht. pose proof (inv_size _ _ Hs) as Hsz. destruct bs_empty_ok as (E1 & E2 & E3).
  unfold swap in Ht. injection Ht as <- <-.
  eapply inv_replace; try eassumption; cbn; rewrite ?E2, ?E3; try done; try lia.
  - destruct (0 <? cur_size s); cbn; lia.
  - destruct (Z.ltb_spec 0 (cur_size s)); repeat constructor; [apply Hs|cbn; lia..].
  - f_equiv. destruct (Z.ltb_spec 0 (cur_size s)); cbn; rewrite ?app_nil_r; [done|].
    by rewrite (bs_size_0 (batch s)) by (apply Hs || lia).
Qed.

Lemma inv_step_send target s i r b k buf s1 ts :
  inv target s -> tasks s !! i = Some (Send r b k) -> length buf = bs_tx_size b k ->
  tstep s buf (Send r b k) = Done (s1, ts) ->
  inv target (with_tasks s1 (take i (tasks s) ++ ts ++ drop (S i) (tasks s))).
Proof.
  intros Hs Hi Hb Ht. destruct (inv_task _ _ _ _ Hs Hi) as [(H1 & -> & H2) _].
  destruct (bs_transmit_ok b r buf H1 H2 Hb) as (pes & es & E1 & E2).
  cbn in Ht. rewrite E1 in Ht. injection Ht as <- <-.
  eapply inv_replace; try eassumption; cbn; try apply Hs; try done; try lia.
  rewrite map_app, concat_app. cbn. by rewrite app_nil_r, E2, <- app_assoc.
Qed.

Lemma binv_step target s s' : inv target s -> lstep s s' -> inv target s'.
Proof.
  intros Hs (i & t & buf & s1 & ts & Hi & Hb & Ht & ->).
  pose proof (tstep_tasks _ _ _ _ _ Ht) as Hts.
  destruct t; cbn in Hb;
    [| | |by eapply inv_step_add| | | | | | |eapply inv_step_swap; [done..|]; cbn -[swap] in Ht; destruct (swap s r); by injection Ht as <- <-
     |by eapply inv_step_send];
    cbn in Ht; injection Ht as <- <-;
    (eapply inv_quiet; [done|done|done|by repeat case_match..|by repeat case_match|by repeat case_match
      |repeat case_match; cbn; lia|by repeat case_match|repeat case_match; repeat constructor
      | |apply responsible_dec]); cbn; intros Hr; subst; try done;
    rewrite ?Z.eqb_refl; (eexists; split; [left|]); repeat case_match; done.
Qed.

(** *** Every run is finite *)
Definition bumps (t : Task) : Z :=
  match t with Submit _ => 2 | Other => 1 | Add _ sm => Z.b2z (sm =? 0) | _ => 0 end.

(** The steps a task has left while the stall mark stays [sm]. *)
Definition steps_left (sm : Z) (t : Task) : Z :=
  match t with
  | Submit _ => 13 | Other => 1 | Add _ _ => 12 | AddLocked _ _ => 10 | First _ _ => 9
  | WaitStall _ _ x => 4 + 4 * Z.b2z (negb (x =? sm))
  | WaitSize _ _ _ => 7 | WaitId _ _ _ => 6 | WaitYield _ _ => 5 | Valid _ _ => 3
  | CreateTx _ => 2 | Send _ _ _ => 1
  end.

Definition weight (n : nat) (sm : Z) (t : Task) : Z := (4 * Z.of_nat n + 4) * bumps t + steps_left sm t.
Definition measure (n : nat) (s : St) : Z := zsum (weight n (stall_mark s)) (tasks s).

Lemma weight_pos n sm t : 0 < weight n sm t.
Proof.
  unfold weight. assert (0 <= bumps t) by (destruct t; cbn; try lia; destruct (_ =? _); cbn; lia).
  assert (0 < steps_left sm t) by (destruct t; cbn; try lia; destruct (_ =? _); cbn; lia). nia.
Qed.

Lemma weight_stall n sm sm' ts :
  zsum (weight n sm') ts <= zsum (weight n sm) ts + 4 * Z.of_nat (length ts).
Proof.
  induction ts as [|t ts IH]; cbn [zsum length]; [lia|].
  assert (steps_left sm' t <= steps_left sm t + 4); [|unfold weight in *; lia].
  destruct t; cbn; try lia. destruct (_ =? sm), (_ =? sm'); cbn; lia.
Qed.

Lemma step_measure n s s' :
  (length (tasks s) <= n)%nat -> lstep s s' -> (length (tasks s') <= n)%nat /\ measure n s' < measure n s.
Proof.
  intros Hn (i & t & buf & s1 & ts & Hi & _ & Ht & ->).
  assert (Hlen : length (take i (tasks s) ++ ts ++ drop (S i) (tasks s)) = (length (tasks s) - 1 + length ts)%nat).
  { apply lookup_lt_Some in Hi. rewrite !length_app, length_take, length_drop. lia. }
  assert (Hpos : (0 < length (tasks s))%nat) by (apply lookup_lt_Some in Hi; lia).
  unfold measure. cbn [with_tasks tasks stall_mark].
  set (l' := take i (tasks s) ++ ts ++ drop (S i) (tasks s)) in *.
  pose proof (weight_stall n (stall_mark s) (stall_mark s1) l') as Hst.
  pose proof (zsum_replace (weight n (stall_mark s)) (tasks s) i t ts Hi) as Hr. fold l' in Hr.
  assert (Hcase : (length ts <= 1)%nat /\
    (stall_mark s1 = stall_mark s /\ zsum (weight n (stall_mark s)) ts < weight n (stall_mark s) t \/
     zsum (weight n (stall_mark s)) ts + 4 * Z.of_nat n + 4 <= weight n (stall_mark s) t)).
  { clear Hst Hr Hlen. unfold weight.
    destruct t; cbn in Ht; try (injection Ht as <- <-); cbn -[Z.mul];
      try (unfold add in Ht; destruct (bs_add _ _) as [[b k]|]; [|done]; injection Ht as <- <-; cbn -[Z.mul]);
      try (destruct (bs_transmit _ _ _ _); [injection Ht as <- <-|done]; cbn -[Z.mul]);
      (split; [repeat case_match; cbn; lia|]).
    - right. destruct (stall_mark s =? 0); cbn -[Z.mul]; lia.
    - right. lia.
    - destruct (_ =? 0); cbn -[Z.mul]; [right|left; split; [done|]]; lia.
    - left. split; [done|]. repeat case_match; cbn -[Z.mul]; lia.
    - left. split; [done|]. destruct (_ =? _); cbn -[Z.mul]; lia.
    - left. split; [done|]. destruct (_ =? _); cbn -[Z.mul]; lia.
    - left. split; [done|]. destruct (_ <? _); cbn -[Z.mul]; lia.
    - left. split; [done|]. destruct (_ =? _); cbn -[Z.mul]; lia.
    - left. split; [done|]. rewrite Z.eqb_refl. cbn -[Z.mul]. lia.
    - left. split; [done|]. destruct (_ =? _); cbn -[Z.mul]; lia.
    - left. split; [done|]. destruct (_ <? _); cbn -[Z.mul]; lia.
    - left. split; [done|]. lia. }
  destruct Hcase as [Hl [[E1 Hw]|Hw]]; split; try lia.
  rewrite E1. lia.
Qed.

(** *** The delivery theorem for any store *)
Context `{!Inhabited byte}.

Definition total_bytes (rs : list R) : Z := zsum (fun r => Z.of_nat (bs_bound r)) rs.

Lemma inv_init_tasks submits adds others :
  total_bytes (submits ++ adds) < USIZE -> inv (map bs_exec (submits ++ adds)) (init submits adds others).
Proof.
  intros Hb. destruct bs_empty_ok as (E1 & E2 & E3).
  split; cbn [init batch cur_size batch_id tasks delivered]; rewrite ?E2, ?E3; try done.
  - rewrite !zsum_app, !zsum_map. unfold total_bytes in Hb. rewrite zsum_app in Hb. cbn.
    assert (zsum pending_bytes (replicate others Other) = 0) as -> by (induction others; cbn in *; lia). lia.
  - rewrite !Forall_app. split; [by apply Forall_map, Forall_true|].
    split; [by apply Forall_map, Forall_true|]. by apply Forall_replicate.
  - rewrite !all_pending_app. cbn. rewrite app_nil_r.
    assert (F : forall f : R -> Task, (forall r, pending (f r) = [bs_exec r]) ->
      forall rs, all_pending (map f rs) = map bs_exec rs).
    { intros f Hf rs. unfold all_pending. induction rs as [|r rs IH]; cbn; [done|]. by rewrite Hf, IH. }
    rewrite !F by done. rewrite map_app. f_equiv.
    assert (all_pending (replicate others Other) = []) as -> by (induction others; cbn in *; done).
    by rewrite app_nil_r.
Qed.

Lemma all_delivered submits adds others :
  total_bytes (submits ++ adds) < USIZE ->
  sn lstep (init submits adds others) /\
  (forall s', rtc lstep (init submits adds others) s' -> nf lstep s' ->
     tasks s' = [] /\ concat (map snd (delivered s')) ≡ₚ map bs_exec (submits ++ adds)).
Proof.
  intros Hb. set (n := length (tasks (init submits adds others))).
  split.
  - apply (sn_measure lstep (fun s => (length (tasks s) <= n)%nat) (measure n)); [| |by unfold n].
    + intros s _. apply zsum_nonneg. intros t _. pose proof (weight_pos n (stall_mark s) t). lia.
    + intros s s' Hs Hstep. by apply step_measure.
  - intros s' Hs' Hnf.
    assert (Hinv : inv (map bs_exec (submits ++ adds)) s').
    { revert s' Hs' Hnf. intros s' Hs' _. revert s' Hs'.
      apply (rtc_ind_r (inv (map bs_exec (submits ++ adds)))); [by apply inv_init_tasks|].
      intros s1 s2 _ Hstep Hs1. by eapply binv_step. }
    assert (Ht : tasks s' = []).
    { destruct (tasks s') as [|t ts] eqn:Ets; [done|]. exfalso. apply Hnf.
      assert (Hi : tasks s' !! 0%nat = Some t) by (by rewrite Ets).
      destruct (inv_task _ _ _ _ Hinv Hi) as [Hok _].
      assert (Hbuf : exists buf, buffer_ok buf t).
      { destruct t as [| | | | | | | | | | |? b k]; try by exists [].
        exists (replicate (bs_tx_size b k) inhabitant). apply length_replicate. }
      destruct Hbuf as [buf Hbuf]. destruct (tstep_total _ _ _ _ _ Hinv Hi Hbuf) as (s1 & ts1 & E1).
      eexists. exists 0%nat, t, buf, s1, ts1. repeat split; eauto. }
    split; [done|]. destruct Hinv as [J1 J2 J3 J4 J5 J6]. rewrite Ht in J4, J6.
    assert (cur_size s' = 0) as Hz.
    { destruct (decide (0 < cur_size s')) as [Hp|]; [|lia]. destruct (J4 Hp) as (t & Hin & _). by apply elem_of_nil in Hin. }
    rewrite <- J6. cbn. by rewrite bs_size_0, app_nil_r by (done || lia).
Qed.

(** *** Where the messages go *)
Context `{!BatchDests byte B R E}.

Definition task_dest (p : list Z) (t : Task) : Prop :=
  match t with
  | Other => True
  | Submit r | Add r _ | AddLocked r _ | First r _ | WaitStall r _ _ | WaitSize r _ _ | WaitId r _ _
  | WaitYield r _ | Valid r _ | CreateTx r => bs_dest r = p
  | Send r b _ => bs_dest r = p /\ Forall (eq p) (bs_dests b)
  end.

(** The batch, the tasks and the messages of a run whose commands are all for [p]. *)
Record addressed (p : list Z) (s : St) : Prop := {
  ad_batch : Forall (eq p) (bs_dests (batch s));
  ad_tasks : Forall (task_dest p) (tasks s);
  ad_delivered : Forall (fun d => d.1 = p) (delivered s);
}.

Lemma tstep_addressed p s buf t s1 ts : addressed p s -> task_dest p t -> tstep s buf t = Done (s1, ts) ->
  Forall (eq p) (bs_dests (batch s1)) /\ Forall (task_dest p) ts /\ Forall (fun d => d.1 = p) (delivered s1).
Proof.
  intros [Hb _ Hd] Ht E1. destruct t; cbn in E1, Ht; try (injection E1 as <- <-);
    try (split_and!; [by repeat case_match..|by repeat case_match]; fail).
  all: try (split_and!; [done|repeat case_match; by repeat constructor|done]).
  - split_and!; [by case_match|by repeat constructor|by case_match].
  - unfold add in E1. destruct (bs_add (batch s) r) as [[b' k]|] eqn:Ea; [|done]. injection E1 as <- <-. cbn.
    split_and!; [|repeat case_match; by repeat constructor|done]. apply Forall_forall. intros q Hq.
    destruct (bs_add_dests _ _ _ _ Ea q Hq) as [->|Hin]; [done|]. by apply (proj1 (Forall_forall _ _) Hb).
  - cbn. rewrite bs_empty_dests. split_and!; [done|case_match; by repeat constructor|done].
  - destruct (bs_transmit b r size buf) as [[pes es]|] eqn:Et; [|done]. injection E1 as <- <-. cbn.
    split_and!; [done|done|]. apply Forall_app. split; [done|]. constructor; [|done]. cbn. destruct Ht as [Hr Hbs].
    destruct (bs_transmit_dest _ _ _ _ _ _ Et) as [->|Hin]; [done|]. symmetry. by apply (proj1 (Forall_forall _ _) Hbs).
Qed.

Lemma addressed_step p s s' : addressed p s -> lstep s s' -> addressed p s'.
Proof.
  intros Ha (i & t & buf & s1 & ts & Hi & _ & Ht & ->). pose proof Ha as [_ Hts _].
  destruct (tstep_addressed p s buf t s1 ts Ha (Forall_lookup_1 _ _ _ _ Hts Hi) Ht) as (H1 & H2 & H3).
  split; [done| |done]. cbn. rewrite !Forall_app. split; [by apply Forall_take|]. split; [done|by apply Forall_drop].
Qed.

Lemma all_addressed p submits adds others s' : Forall (fun r => bs_dest r = p) (submits ++ adds) ->
  rtc lstep (init submits adds others) s' -> Forall (fun d => d.1 = p) (delivered s').
Proof.
  intros [Hs Ha]%Forall_app Hr. eapply ad_delivered. revert s' Hr.
  apply (rtc_ind_r (addressed p)); [|intros; by eapply addressed_step].
  split; cbn; [by rewrite bs_empty_dests| |done]. rewrite !Forall_app, !Forall_map. split; [done|]. split; [done|].
  by apply Forall_replicate.
Qed.

(** What PE [q] has started: the commands of every message that is addressed to it. *)
Definition started (q : Z) (s : St) : list E :=
  concat (map (fun d => concat (map (fun pe => if decide (pe = q) then d.2 else []) d.1)) (delivered s)).

Lemma copies_once {A} (q : Z) (l : list A) pes : NoDup pes ->
  concat (map (fun pe => if decide (pe = q) then l else []) pes) = if decide (q ∈ pes) then l else [].
Proof.
  induction 1 as [|pe pes Hpe _ IH]; [done|]. cbn. rewrite IH.
  destruct (decide (pe = q)) as [->|Hne]; [|cbn; repeat case_decide; set_solver].
  rewrite decide_False by done. rewrite app_nil_r, decide_True by (by left). done.
Qed.

(** The commands of a run for the PEs [p] are started by each of them, and by no other
    PE. *)
Lemma all_started p submits adds others s' : NoDup p -> Forall (fun r => bs_dest r = p) (submits ++ adds) ->
  rtc lstep (init submits adds others) s' ->
  concat (map snd (delivered s')) ≡ₚ map bs_exec (submits ++ adds) ->
  forall q, started q s' ≡ₚ if decide (q ∈ p) then map bs_exec (submits ++ adds) else [].
Proof.
  intros Hnd Hp Hr Hall q. pose proof (all_addressed _ _ _ _ _ Hp Hr) as Hd. unfold started.
  assert (E1 : concat (map (fun d => concat (map (fun pe => if decide (pe = q) then d.2 else []) d.1)) (delivered s')) =
    if decide (q ∈ p) then concat (map snd (delivered s')) else []).
  { clear Hall Hr. induction Hd as [|d l Hd1 _ IH]; [by case_decide|]. cbn. rewrite IH, Hd1, copies_once by done.
    by case_decide. }
  rewrite E1. by case_decide.
Qed.

(** A run in which the task at a given position moves next; the lamellae
    returns buffers filled with one value. *)
Definition some_buffer (t : Task) : list byte :=
  match t with Send _ b k => replicate (bs_tx_size b k) inhabitant | _ => [] end.

Fixpoint run (s : St) (schedule : list nat) : option St :=
  match schedule with
  | [] => Some s
  | i :: schedule =>
    match tasks s !! i with
    | None => None
    | Some t =>
      match tstep s (some_buffer t) t with
      | Done (s1, ts) => run (with_tasks s1 (take i (tasks s) ++ ts ++ drop (S i) (tasks s))) schedule
      | Panic => None
      end
    end
  end.

Lemma run_rtc s schedule s' : run s schedule = Some s' -> rtc lstep s s'.
Proof.
  revert s. induction schedule as [|i sch IH]; intros s; cbn; [by intros [= ->]|].
  destruct (tasks s !! i) as [t|] eqn:Ht; [|done].
  destruct (tstep s _ t) as [[s1 ts]|] eqn:Hs; [|done]. intros Hr. eapply rtc_l; [|by apply IH].
  exists i, t, (some_buffer t), s1, ts. repeat split; try done.
  destruct t; try done. apply length_replicate.
Qed.
End Tasks.
