(* ===== verification/SimpleBatcher.v ===== *)
(** The simple batcher (src/src/active_messaging/batching/simple_batcher.rs): a
    batch is the list of its commands, each sent with a header of its own. *)

From stdpp Require Import base list numbers relations.
From Stdlib Require Import ZArith Lia.
From S2P Require Import Prelude Wire ConcreteCodec BatchTasks.

Local Open Scope nat_scope.

Module Simple.
Section Batcher.
Context {byte am result darcs : Type}.
Context `{AmCodec byte am result} `{!Codec byte darcs}.
Context `{!Codec byte Cmd} `{!Header byte Cmd}.
Context `{!Codec byte AmHeader} `{!Header byte AmHeader}.
Context `{!Codec byte DataHeader} `{!Header byte DataHeader}.
Context `{!Codec byte UnitHeader} `{!Header byte UnitHeader}.

Abbreviation Data := (LamellarData am result darcs).
Abbreviation Entry := (ReqMetaData * Data * nat)%type.
Abbreviation LEN := (HEADER_LEN (byte := byte)).
Abbreviation CMD_LEN := (LEN Cmd).
Abbreviation Execs := (list (Exec byte am darcs)).

Definition Batch : Type := list Entry.

(** [add] *)
Definition add (b : Batch) (req : ReqMetaData) (data : Data) (size_ : nat) : Batch * nat :=
  let size_ := size_ + CMD_LEN in (b ++ [(req, data, size_)], size_).

(** The four handlers, up to what they do with the size. *)
Definition add_remote_am_to_batch (b : Batch) (req : ReqMetaData) (a : am) : Batch * nat :=
  add b req (DAm a (get_id a)) (am_serialized_size a + LEN AmHeader).
Definition add_return_am_to_batch (b : Batch) (req : ReqMetaData) (a : am) : Batch * nat :=
  add b req (DReturn a (get_id a)) (am_serialized_size a + LEN AmHeader).
Definition add_data_am_to_batch (b : Batch) (req : ReqMetaData) (d : result) (ds : darcs) : Batch * nat :=
  let dl := length (encode (byte := byte) ds) in
  add b req (DData d ds dl) (length (result_bytes d) + dl + LEN DataHeader).
Definition add_unit_am_to_batch (b : Batch) (req : ReqMetaData) : Batch * nat :=
  add b req DUnit (LEN UnitHeader).

Definition add_to_batch (b : Batch) (req : ReqMetaData) (r : Request am result darcs) : Batch * nat :=
  match r with
  | ReqAm a => add_remote_am_to_batch b req a
  | ReqReturn a => add_return_am_to_batch b req a
  | ReqData d ds => add_data_am_to_batch b req d ds
  | ReqUnit => add_unit_am_to_batch b req
  end.

Definition serialize_am (st : list byte * nat) (req : ReqMetaData) (a : am) (id : Z) (am_size : nat) (cmd : Cmd) :
    outcome (list byte * nat) :=
  let '(buf, i) := st in
  let! buf := write_header buf i cmd in
  let i := i + CMD_LEN in
  let! buf := write_header buf i {| am_id := id; team_addr := rteam req; am_req_id := rid req |} in
  let i := i + LEN AmHeader in
  let! am_size := sub am_size (CMD_LEN + LEN AmHeader) in
  let! buf := write buf i am_size (am_bytes a) in
  Done (buf, i + am_size).

Definition serialize_data (st : list byte * nat) (req : ReqMetaData) (r : result) (data_size : nat)
    (ds : darcs) (dl : nat) : outcome (list byte * nat) :=
  let '(buf, i) := st in
  let! buf := write_header buf i CmdData in
  let i := i + CMD_LEN in
  let! data_size := sub data_size (CMD_LEN + LEN DataHeader + dl) in
  let! buf := write_header buf i
    {| Wire.data_size := data_size; data_req_id := rid req; darc_list_size := dl |} in
  let i := i + LEN DataHeader in
  let! buf := write buf i dl (encode ds) in
  let i := i + dl in
  let! buf := write buf i data_size (result_bytes r) in
  Done (buf, i + data_size).

Definition serialize_unit (st : list byte * nat) (req : ReqMetaData) : outcome (list byte * nat) :=
  let '(buf, i) := st in
  let! buf := write_header buf i CmdUnit in
  let i := i + CMD_LEN in
  let! buf := write_header buf i {| unit_req_id := rid req |} in
  Done (buf, i + LEN UnitHeader).

(** The body of the loop of [create_tx_task]; its counters are only printed. *)
Definition serialize_entry (st : list byte * nat) (e : Entry) : outcome (list byte * nat) :=
  let '(req, data, size_) := e in
  match data with
  | DAm a id => serialize_am st req a id size_ CmdAm
  | DReturn a id => serialize_am st req a id size_ CmdReturnAm
  | DData r ds dl => serialize_data st req r size_ ds dl
  | DUnit => serialize_unit st req
  end.

Definition create_tx (b : Batch) (buf : list byte) : outcome (list byte) :=
  let! st := for_each serialize_entry (buf, 0) b in Done st.1.

(** [exec_am] and [exec_return_am], the same code as that of the runtime for
    messages that are not batched. *)
Definition exec_am (data : list byte) (i : nat) : outcome (nat * Execs) := Wire.exec_am data i.
Definition exec_return_am (data : list byte) (i : nat) : outcome (nat * Execs) := Wire.exec_return_am data i.

(** One command of the loop of [exec_batched_msg]. *)
Definition exec_cmd (data : list byte) (i : nat) : outcome (nat * Execs) :=
  let! cmd := read_header Cmd data i in
  let i := i + CMD_LEN in
  match cmd with
  | CmdAm => exec_am data i
  | CmdReturnAm => exec_return_am data i
  | CmdData => exec_data_am data i
  | CmdUnit => exec_unit_am data i
  | CmdBatchedMsg => Panic
  end.

Definition exec_batched_msg (data : list byte) : outcome Execs := exec_loop exec_cmd (length data) data 0.

(** ** The bytes of a batch *)
Definition entry_bytes (e : Entry) : list byte :=
  let am_entry cmd a :=
    encode cmd ++ encode {| am_id := get_id a; team_addr := rteam e.1.1; am_req_id := rid e.1.1 |} ++ am_bytes a in
  match e.1.2 with
  | DAm a _ => am_entry CmdAm a
  | DReturn a _ => am_entry CmdReturnAm a
  | DData r ds _ =>
    encode CmdData ++
    encode {| Wire.data_size := length (result_bytes r); data_req_id := rid e.1.1;
              darc_list_size := length (encode (byte := byte) ds) |} ++
    encode ds ++ result_bytes r
  | DUnit => encode CmdUnit ++ encode {| unit_req_id := rid e.1.1 |}
  end.

Definition entry_exec (e : Entry) : Exec byte am darcs :=
  match e.1.2 with
  | DAm a _ => ExecAm (rteam e.1.1) (rid e.1.1) a
  | DReturn a _ => ExecReturnAm (rteam e.1.1) (rid e.1.1) a
  | DData r ds _ => ExecData (rid e.1.1) (result_bytes r) ds
  | DUnit => ExecUnit (rid e.1.1)
  end.

Definition batch_bytes (b : Batch) : list byte := concat (map entry_bytes b).
Definition batch_execs (b : Batch) : Execs := map entry_exec b.

(** The ids and sizes that are stored with a command are its own. *)
Definition entry_ok (e : Entry) : Prop :=
  match e.1.2 with
  | DAm a id | DReturn a id => id = get_id a /\ e.2 = am_serialized_size a + LEN AmHeader + CMD_LEN
  | DData r ds dl =>
    dl = length (encode (byte := byte) ds) /\
    e.2 = length (result_bytes r) + dl + LEN DataHeader + CMD_LEN
  | DUnit => e.2 = LEN UnitHeader + CMD_LEN
  end.

Lemma entry_size e : entry_ok e -> length (entry_bytes e) = e.2.
Proof.
  destruct e as [[req [a id|a id|r ds dl|]] sz]; unfold entry_ok, entry_bytes, am_serialized_size; cbn;
    rewrite ?length_app, ?(header_length (A := Cmd)), ?(header_length (A := AmHeader)),
      ?(header_length (A := DataHeader)), ?(header_length (A := UnitHeader));
    intros; destruct_and?; subst; lia.
Qed.

(** ** Writing *)
Lemma serialize_entry_fill done_ n st e :
  entry_ok e -> fill done_ (length (entry_bytes e) + n) st ->
  exists st', serialize_entry st e = Done st' /\ fill (done_ ++ entry_bytes e) n st'.
Proof.
  destruct st as [buf i], e as [[req data] sz]. unfold entry_ok, entry_bytes. cbn.
  destruct data as [a id|a id|r ds dl|]; cbn; intros Hok Hf;
    rewrite !length_app, <- ?Nat.add_assoc in Hf;
    destruct (header_fill _ _ _ _ _ Hf) as (b1 & E1 & F1).
  1, 2: destruct Hok as [-> ->]; unfold serialize_am; rewrite E1;
    destruct (header_fill _ _ _ _ _ F1) as (b2 & E2 & F2); rewrite E2;
    unfold sub; rewrite (proj2 (Nat.leb_le _ _)) by lia;
    replace (_ - _) with (am_serialized_size a) by lia;
    destruct (object_fill _ _ _ _ _ (am_serialized_size a) F2 eq_refl) as (b3 & E3 & F3); rewrite E3;
    (eexists; split; [done|]); by rewrite !app_assoc.
  - destruct Hok as [-> ->]. unfold serialize_data. rewrite E1.
    unfold sub. rewrite (proj2 (Nat.leb_le _ _)) by lia.
    replace (_ - _) with (length (result_bytes r)) by lia.
    destruct (header_fill _ _ _ _ _ F1) as (b2 & -> & F2).
    destruct (object_fill _ _ _ _ _ _ F2 eq_refl) as (b3 & -> & F3).
    destruct (object_fill _ _ _ _ _ _ F3 eq_refl) as (b4 & -> & F4).
    eexists. split; [done|]. by rewrite !app_assoc.
  - unfold serialize_unit. rewrite E1.
    destruct (header_fill _ _ _ _ _ F1) as (b2 & -> & F2).
    eexists. split; [done|]. by rewrite app_assoc.
Qed.

Lemma simple_create_tx_bytes b buf :
  Forall entry_ok b -> length buf = length (batch_bytes b) -> create_tx b buf = Done (batch_bytes b).
Proof.
  intros Hb Hl. unfold create_tx.
  destruct (for_each_fill serialize_entry entry_bytes b [] 0 (buf, 0)) as (st & -> & F).
  - intros e d k st He. apply serialize_entry_fill. by eapply Forall_forall in Hb.
  - apply fill_0. unfold batch_bytes in Hl. lia.
  - apply filled_0 in F as [-> _]. done.
Qed.

(** ** Reading *)
Context `{!AmCodecLaws byte am result} `{!CodecLaws byte darcs} `{!CodecLaws byte Cmd}.
Context `{!CodecLaws byte AmHeader} `{!CodecLaws byte DataHeader} `{!CodecLaws byte UnitHeader}.

Lemma exec_entry_consumes e : entry_ok e -> consumes exec_cmd (entry_bytes e) [entry_exec e].
Proof.
  destruct e as [[req data] sz]. unfold entry_ok, entry_bytes, entry_exec. cbn.
  destruct data as [a id|a id|r ds dl|]; intros _;
    apply (consumes_header _ (fun cmd data i => match cmd with
      | CmdAm => exec_am data i
      | CmdReturnAm => exec_return_am data i
      | CmdData => exec_data_am data i
      | CmdUnit => exec_unit_am data i
      | CmdBatchedMsg => Panic
      end)); cbn; [| |apply exec_data_am_consumes|apply exec_unit_am_consumes].
  - apply exec_am_consumes_header.
  - apply exec_return_am_consumes_header.
Qed.

Lemma entry_bytes_ne e : entry_bytes e <> [].
Proof. unfold entry_bytes. destruct (e.1.2); by apply app_header_ne. Qed.

Lemma simple_exec_batched_msg_bytes b : Forall entry_ok b -> exec_batched_msg (batch_bytes b) = Done (batch_execs b).
Proof.
  intros Hb. unfold exec_batched_msg.
  pose proof (exec_loop_all exec_cmd (map (fun e => (entry_bytes e, [entry_exec e])) b)) as E.
  rewrite !map_map in E. cbn in E. change (map (fun e => entry_bytes e) b) with (map entry_bytes b) in E.
  unfold batch_bytes, batch_execs. rewrite E.
  - clear. induction b as [|e b IH]; cbn; [done|]. injection IH as IH. by rewrite IH.
  - intros x es Hx. apply list_elem_of_fmap in Hx as (e & [= -> ->] & He).
    eapply Forall_forall in Hb; [|done]. split; [by apply exec_entry_consumes|apply entry_bytes_ne].
Qed.

(** ** The store of the tasks of BatchTasks.v *)
Context (my_pe : Z).
Abbreviation R := (ReqMetaData * Request am result darcs)%type.

(** The PEs are those of the first command of the batch, [buf[0]]. *)
#[export] Instance simple_store : BatchStore byte Batch R (Exec byte am darcs) := {
  bs_empty := [];
  bs_add b r := Done (add_to_batch b r.1 r.2);
  bs_tx_size b size_ := size_;
  bs_transmit b r size_ buf :=
    match b with
    | [] => Panic
    | (req, _, _) :: _ =>
      let! bytes := create_tx b buf in
      let! es := exec_batched_msg bytes in
      Done (targets my_pe req, es)
    end;
}.

Definition request_size (r : R) : nat :=
  match r.2 with
  | ReqAm a | ReqReturn a => am_serialized_size a + LEN AmHeader + CMD_LEN
  | ReqData d ds => length (result_bytes d) + length (encode (byte := byte) ds) + LEN DataHeader + CMD_LEN
  | ReqUnit => LEN UnitHeader + CMD_LEN
  end.

Lemma simple_add_to_batch_spec b r :
  Forall entry_ok b -> exists b', add_to_batch b r.1 r.2 = (b', request_size r) /\ Forall entry_ok b' /\
    length (batch_bytes b') = request_size r + length (batch_bytes b) /\
    batch_execs b' = batch_execs b ++ [exec_of_request r.1 r.2].
Proof.
  intros Hb.
  assert (Hadd : forall data k x, k + CMD_LEN = request_size r -> entry_ok (r.1, data, k + CMD_LEN) ->
    entry_exec (r.1, data, k + CMD_LEN) = x ->
    exists b', add b r.1 data k = (b', request_size r) /\ Forall entry_ok b' /\
    length (batch_bytes b') = request_size r + length (batch_bytes b) /\ batch_execs b' = batch_execs b ++ [x]).
  { intros data k x <- Hok <-. eexists. split; [done|]. split; [apply Forall_app; by repeat constructor|].
    unfold batch_bytes, batch_execs. rewrite !map_app, concat_app, length_app. cbn.
    rewrite app_nil_r, (entry_size _ Hok). cbn. split; [lia|done]. }
  destruct r as [req [a|a|d ds|]]; apply Hadd; by cbn.
Qed.

#[export] Program Instance simple_laws : BatchLaws byte Batch R (Exec byte am darcs) := {
  bs_ok := Forall entry_ok;
  bs_size b := length (batch_bytes b);
  bs_execs := batch_execs;
  bs_exec r := exec_of_request r.1 r.2;
  bs_bound := request_size;
}.
Next Obligation. by cbn. Qed.
Next Obligation.
  intros b r Hb. cbn. destruct (simple_add_to_batch_spec b r Hb) as (b' & E & H1 & H2 & H3).
  exists b', (request_size r). split; [by rewrite E|]. split; [done|]. split.
  - split; [|done]. assert (0 < CMD_LEN) by apply header_pos.
    unfold request_size. destruct (r.2); lia.
  - split; [done|]. rewrite H3. by rewrite <- Permutation_cons_append.
Qed.
Next Obligation.
  intros b r buf Hb Hs Hbuf. cbn in *. rewrite simple_create_tx_bytes by done.
  destruct b as [|[[req d] k] b]; [cbn in Hs; lia|]. rewrite simple_exec_batched_msg_bytes by done.
  eexists _, _. done.
Qed.
Next Obligation.
  intros b Hb Hs. cbn in *. destruct b as [|e b]; [done|]. exfalso. cbn in Hs. rewrite length_app in Hs.
  pose proof (entry_bytes_ne e). by destruct (entry_bytes e).
Qed.

(** Adding commands one after the other. *)
Fixpoint add_all (b : Batch) (size_ : nat) (rs : list R) : Batch * nat :=
  match rs with
  | [] => (b, size_)
  | r :: rs => let '(b, k) := add_to_batch b r.1 r.2 in add_all b (size_ + k) rs
  end.

Lemma simple_add_all_spec b rs :
  Forall entry_ok b -> exists b', add_all b (length (batch_bytes b)) rs = (b', length (batch_bytes b')) /\
    Forall entry_ok b' /\ batch_execs b' = batch_execs b ++ map (fun r => exec_of_request r.1 r.2) rs.
Proof.
  revert b. induction rs as [|r rs IH]; intros b Hb; cbn.
  - exists b. by rewrite app_nil_r.
  - destruct (simple_add_to_batch_spec b r Hb) as (b1 & -> & H1 & H2 & H3).
    rewrite Nat.add_comm, <- H2. destruct (IH b1 H1) as (b2 & -> & H4 & H5).
    exists b2. split; [done|]. split; [done|]. by rewrite H5, H3, <- app_assoc.
Qed.

(** the simple batcher keeps its commands and their order: the size it
    counts is what serialisation needs, serialisation into any buffer of that
    size does not panic, and the receiving PE starts the commands that were
    added, in the order in which they were added. *)
Theorem simple_batch_roundtrip (rs : list R) :
  let '(b, size_) := add_all [] 0 rs in
  forall buf, length buf = size_ ->
    exists bytes, create_tx b buf = Done bytes /\ length bytes = size_ /\
      exec_batched_msg bytes = Done (map (fun r => exec_of_request r.1 r.2) rs).
Proof.
  destruct (simple_add_all_spec [] rs (Forall_nil_2 _)) as (b & E & Hb & Hex). cbn in E. rewrite E.
  intros buf Hbuf. exists (batch_bytes b).
  rewrite simple_create_tx_bytes, simple_exec_batched_msg_bytes by done. by rewrite Hex.
Qed.

Context `{!Inhabited byte}.

(** the simple batcher, too, delivers every command that is added exactly
    once, in every interleaving of adding, waiting and sending, and every run
    ends. *)
Theorem simple_batches_delivered submits adds others (Hb : (total_bytes (submits ++ adds) < USIZE)%Z) :
  sn lstep (init (B := Batch) submits adds others) /\
  (forall s', rtc lstep (init (B := Batch) submits adds others) s' -> nf lstep s' ->
     tasks s' = [] /\
     concat (map snd (delivered s')) ≡ₚ map (fun r => exec_of_request r.1 r.2) (submits ++ adds)).
Proof. exact (all_delivered submits adds others Hb). Qed.
End Batcher.
End Simple.

Import Concrete.
#[local] Instance concrete_store : BatchStore Z Simple.Batch (ReqMetaData * Request Z (list Z) (list Z)) (Exec Z Z (list Z)) :=
  Simple.simple_store 0.
#[local] Instance concrete_laws : BatchLaws Z Simple.Batch (ReqMetaData * Request Z (list Z) (list Z)) (Exec Z Z (list Z)) :=
  Simple.simple_laws 0.

Lemma simple_batch_roundtrip_witness :
  let '(b, size_) := Simple.add_all (byte := Z) [] 0 requests in
  forall buf : list Z, length buf = size_ ->
    exists bytes, Simple.create_tx b buf = Done bytes /\ length bytes = size_ /\
      Simple.exec_batched_msg bytes = Done (map (fun r => exec_of_request (byte := Z) r.1 r.2) requests).
Proof. exact (Simple.simple_batch_roundtrip requests). Defined.

Lemma simple_batches_delivered_witness :
  (total_bytes (requests ++ []) < USIZE)%Z /\
  sn lstep (init requests [] 3) /\
  (forall s', rtc lstep (init requests [] 3) s' -> nf lstep s' ->
     tasks s' = [] /\
     concat (map snd (delivered s')) ≡ₚ map (fun r => exec_of_request (byte := Z) r.1 r.2) (requests ++ [])).
Proof.
  assert (Hb : (total_bytes (requests ++ []) < USIZE)%Z) by (vm_compute; reflexivity).
  split; [exact Hb|exact (Simple.simple_batches_delivered 0 requests [] 3 Hb)].
Defined.
