(* ===== verification/TeamAmBatcher.v ===== *)
(** The default batcher (src/src/active_messaging/batching/team_am_batcher.rs):
    active messages for one destination are grouped by team and by type before
    they are serialised into one buffer; the receiving PE walks the groups. *)

From stdpp Require Import base list numbers gmap relations.
From Stdlib Require Import ZArith Lia.
From S2P Require Import Prelude Wire ConcreteCodec BatchTasks.

Local Open Scope nat_scope.

Record BatchHeader := { bcmd : Cmd; bcnt : nat }.
Record TeamHeader := { team_id : Z; am_batch_cnts : nat }.
Record BatchedAmHeader := { bam_id : Z; am_cnt : nat; bam_cmd : Cmd }.

Section TeamAm.
Context {byte am result darcs : Type}.
Context `{AmCodec byte am result}.
Context `{!Codec byte darcs} `{!Codec byte ReqId} `{!Header byte ReqId}.
Context `{!Codec byte BatchHeader} `{!Header byte BatchHeader}.
Context `{!Codec byte TeamHeader} `{!Header byte TeamHeader}.
Context `{!Codec byte BatchedAmHeader} `{!Header byte BatchedAmHeader}.
Context `{!Codec byte DataHeader} `{!Header byte DataHeader}.
Context `{!Codec byte UnitHeader} `{!Header byte UnitHeader}.

(** The order in which a [HashMap] is iterated is not specified. *)
Context (iter : forall A : Type, gmap Z A -> list (Z * A)).
Arguments iter {A}.

Abbreviation Data := (LamellarData am result darcs).
Abbreviation AmEntry := (ReqMetaData * am * nat)%type.
Abbreviation AmIdMap := (gmap Z (list AmEntry)).
Abbreviation TeamMap := (gmap Z AmIdMap).
Abbreviation LEN := (HEADER_LEN (byte := byte)).

(** The fields of [TeamAmBatcherInner] behind the lock. *)
Record Batch := {
  ams : TeamMap;
  returns : TeamMap;
  non_ams : list (ReqMetaData * Data * nat);
}.

Definition empty_batch : Batch := {| ams := ∅; returns := ∅; non_ams := [] |}.

(** [add_am_to_batch]: the new map and the bytes added to the size. *)
Definition add_am_to_batch (req : ReqMetaData) (a : am) (id : Z) (size_ : nat) (batch : TeamMap) :
    TeamMap * nat :=
  let team_batch := default ∅ (batch !! rteam req) in
  let t1 := if size team_batch =? 0 then LEN TeamHeader else 0 in
  let am_batch := default [] (team_batch !! id) in
  let t2 := if length am_batch =? 0 then LEN BatchedAmHeader else 0 in
  (<[rteam req := <[id := am_batch ++ [(req, a, size_)]]> team_batch]> batch,
   t1 + t2 + (size_ + LEN ReqId)).

(** [add_am] and [add_non_am]. *)
Definition add_am (b : Batch) (req : ReqMetaData) (data : Data) (size_ : nat) : outcome (Batch * nat) :=
  match data with
  | DAm a id =>
    let '(m, n) := add_am_to_batch req a id size_ (ams b) in
    Done ({| ams := m; returns := returns b; non_ams := non_ams b |}, n)
  | DReturn a id =>
    let '(m, n) := add_am_to_batch req a id size_ (returns b) in
    Done ({| ams := ams b; returns := m; non_ams := non_ams b |}, n)
  | _ => Panic
  end.

Definition add_non_am (b : Batch) (req : ReqMetaData) (data : Data) (size_ : nat) : Batch * nat :=
  let size_ := size_ + LEN BatchHeader in
  ({| ams := ams b; returns := returns b; non_ams := non_ams b ++ [(req, data, size_)] |}, size_).

(** The four handlers, up to what they do with the size. *)
Definition add_remote_am_to_batch (b : Batch) (req : ReqMetaData) (a : am) : outcome (Batch * nat) :=
  add_am b req (DAm a (get_id a)) (am_serialized_size a).
Definition add_return_am_to_batch (b : Batch) (req : ReqMetaData) (a : am) : outcome (Batch * nat) :=
  add_am b req (DReturn a (get_id a)) (am_serialized_size a).
Definition add_data_am_to_batch (b : Batch) (req : ReqMetaData) (d : result) (ds : darcs) : Batch * nat :=
  let dl := length (encode (byte := byte) ds) in
  add_non_am b req (DData d ds dl) (length (result_bytes d) + dl + LEN DataHeader).
Definition add_unit_am_to_batch (b : Batch) (req : ReqMetaData) : Batch * nat :=
  add_non_am b req DUnit (LEN UnitHeader).

Definition add_to_batch (b : Batch) (req : ReqMetaData) (r : Request am result darcs) : outcome (Batch * nat) :=
  match r with
  | ReqAm a => add_remote_am_to_batch b req a
  | ReqReturn a => add_return_am_to_batch b req a
  | ReqData d ds => Done (add_data_am_to_batch b req d ds)
  | ReqUnit => Done (add_unit_am_to_batch b req)
  end.

(** ** Serialisation *)
Definition serialize_am (st : list byte * nat) (e : AmEntry) : outcome (list byte * nat) :=
  let '(buf, i) := st in let '(req, a, am_size) := e in
  let! buf := write_header buf i (rid req) in
  let i := i + LEN ReqId in
  let! buf := write buf i am_size (am_bytes a) in
  Done (buf, i + am_size).

Definition serialize_group (cmd : Cmd) (st : list byte * nat) (g : Z * list AmEntry) : outcome (list byte * nat) :=
  let '(buf, i) := st in let '(id, entries) := g in
  let! buf := write_header buf i {| bam_id := id; am_cnt := length entries; bam_cmd := cmd |} in
  for_each serialize_am (buf, i + LEN BatchedAmHeader) entries.

Definition serialize_team (cmd : Cmd) (st : list byte * nat) (t : Z * AmIdMap) : outcome (list byte * nat) :=
  let '(buf, i) := st in let '(id, am_map) := t in
  let! buf := write_header buf i {| team_id := id; am_batch_cnts := size am_map |} in
  for_each (serialize_group cmd) (buf, i + LEN TeamHeader) (iter am_map).

Definition serialize_am_batch (am_batch : TeamMap) (cmd : Cmd) (st : list byte * nat) : outcome (list byte * nat) :=
  if 0 <? size am_batch then
    let '(buf, i) := st in
    let! buf := write_header buf i {| bcmd := CmdBatchedMsg; bcnt := size am_batch |} in
    for_each (serialize_team cmd) (buf, i + LEN BatchHeader) (iter am_batch)
  else Done st.

Definition serialize_data (st : list byte * nat) (req : ReqMetaData) (r : result) (data_size : nat)
    (ds : darcs) (dl : nat) : outcome (list byte * nat) :=
  let '(buf, i) := st in
  let! buf := write_header buf i {| bcmd := CmdData; bcnt := 1 |} in
  let i := i + LEN BatchHeader in
  let! data_size := sub data_size (LEN BatchHeader + LEN DataHeader + dl) in
  let! buf := write_header buf i
    {| Wire.data_size := data_size; data_req_id := rid req; darc_list_size := dl |} in
  let i := i + LEN DataHeader in
  let! buf := write buf i dl (encode ds) in
  let i := i + dl in
  let! buf := write buf i data_size (result_bytes r) in
  Done (buf, i + data_size).

Definition serialize_unit (st : list byte * nat) (req : ReqMetaData) : outcome (list byte * nat) :=
  let '(buf, i) := st in
  let! buf := write_header buf i {| bcmd := CmdUnit; bcnt := 1 |} in
  let i := i + LEN BatchHeader in
  let! buf := write_header buf i {| unit_req_id := rid req |} in
  Done (buf, i + LEN UnitHeader).

Definition serialize_non_am (st : list byte * nat) (e : ReqMetaData * Data * nat) : outcome (list byte * nat) :=
  let '(req, data, size_) := e in
  match data with
  | DAm _ _ | DReturn _ _ => Panic
  | DData r ds dl => serialize_data st req r size_ ds dl
  | DUnit => serialize_unit st req
  end.

(** The size of the buffer and its contents ([create_tx_task]); [buf] is the
    memory the lamellae returned, whatever it holds. *)
Definition tx_size (b : Batch) (size_ : nat) : nat :=
  size_ + (if 0 <? size (ams b) then LEN BatchHeader else 0)
        + (if 0 <? size (returns b) then LEN BatchHeader else 0).

Definition create_tx (b : Batch) (buf : list byte) : outcome (list byte) :=
  let! st := serialize_am_batch (ams b) CmdAm (buf, 0) in
  let! st := serialize_am_batch (returns b) CmdReturnAm st in
  let! st := for_each serialize_non_am st (non_ams b) in
  Done st.1.

(** ** Execution on the receiving PE: the commands, in the order in which they
    are started. *)
Abbreviation Execs := (list (Exec byte am darcs)).

(** [exec_am] and [exec_return_am]. *)
Definition exec_am (data : list byte) (am_id team : Z) (cmd : Cmd) (i : nat) : outcome (nat * Exec byte am darcs) :=
  let! req := read_header ReqId data i in
  let! (a, i) := unpack_am data (i + LEN ReqId) am_id in
  match cmd with
  | CmdAm => Done (i, ExecAm team req a)
  | CmdReturnAm => Done (i, ExecReturnAm team req a)
  | _ => Panic
  end.

(** A counted loop that consumes the data and collects commands. *)
Fixpoint times (n : nat) (f : nat -> outcome (nat * Execs)) (i : nat) : outcome (nat * Execs) :=
  match n with
  | O => Done (i, [])
  | S n =>
    let! (i, es) := f i in
    let! (i, es') := times n f i in
    Done (i, es ++ es')
  end.

Definition exec_group (data : list byte) (team : Z) (i : nat) : outcome (nat * Execs) :=
  let! h := read_header BatchedAmHeader data i in
  times (am_cnt h)
    (fun i => let! (i, e) := exec_am data (bam_id h) team (bam_cmd h) i in Done (i, [e]))
    (i + LEN BatchedAmHeader).

Definition exec_team (data : list byte) (i : nat) : outcome (nat * Execs) :=
  let! h := read_header TeamHeader data i in
  times (am_batch_cnts h) (exec_group data (team_id h)) (i + LEN TeamHeader).

Definition exec_batched_am (data : list byte) (batch_cnt i : nat) : outcome (nat * Execs) :=
  times batch_cnt (exec_team data) i.

(** One command of the loop of [exec_batched_msg]. *)
Definition exec_cmd (data : list byte) (i : nat) : outcome (nat * Execs) :=
  let! h := read_header BatchHeader data i in
  let i := i + LEN BatchHeader in
  match bcmd h with
  | CmdAm | CmdReturnAm => Panic
  | CmdData => exec_data_am data i
  | CmdUnit => exec_unit_am data i
  | CmdBatchedMsg => exec_batched_am data (bcnt h) i
  end.

Definition exec_batched_msg (data : list byte) : outcome Execs := exec_loop exec_cmd (length data) data 0.

(** ** The bytes of a batch *)
Definition am_entry_bytes (e : AmEntry) : list byte := encode (rid e.1.1) ++ am_bytes e.1.2.

Definition group_bytes (cmd : Cmd) (g : Z * list AmEntry) : list byte :=
  encode {| bam_id := g.1; am_cnt := length g.2; bam_cmd := cmd |} ++ concat (map am_entry_bytes g.2).

Definition team_bytes (cmd : Cmd) (t : Z * AmIdMap) : list byte :=
  encode {| team_id := t.1; am_batch_cnts := size t.2 |} ++ concat (map (group_bytes cmd) (iter t.2)).

Definition map_bytes (cmd : Cmd) (m : TeamMap) : list byte :=
  if 0 <? size m
  then encode {| bcmd := CmdBatchedMsg; bcnt := size m |} ++ concat (map (team_bytes cmd) (iter m))
  else [].

Definition non_am_bytes (e : ReqMetaData * Data * nat) : list byte :=
  match e.1.2 with
  | DData r ds dl =>
    encode {| bcmd := CmdData; bcnt := 1 |} ++
    encode {| Wire.data_size := length (result_bytes r); data_req_id := rid e.1.1; darc_list_size := dl |} ++
    encode ds ++ result_bytes r
  | _ => encode {| bcmd := CmdUnit; bcnt := 1 |} ++ encode {| unit_req_id := rid e.1.1 |}
  end.

Definition batch_bytes (b : Batch) : list byte :=
  map_bytes CmdAm (ams b) ++ map_bytes CmdReturnAm (returns b) ++ concat (map non_am_bytes (non_ams b)).

(** ** What holds of a batch *)
Definition entry_ok (team id : Z) (e : AmEntry) : Prop :=
  e.2 = am_serialized_size e.1.2 /\ get_id e.1.2 = id /\ rteam e.1.1 = team.

Definition map_ok (m : TeamMap) : Prop :=
  forall team tb, m !! team = Some tb -> tb <> ∅ /\
    forall id es, tb !! id = Some es -> es <> [] /\ Forall (entry_ok team id) es.

Definition non_am_ok (e : ReqMetaData * Data * nat) : Prop :=
  match e.1.2 with
  | DAm _ _ | DReturn _ _ => False
  | DData r ds dl =>
    dl = length (encode (byte := byte) ds) /\
    e.2 = length (result_bytes r) + dl + LEN DataHeader + LEN BatchHeader
  | DUnit => e.2 = LEN UnitHeader + LEN BatchHeader
  end.

Record batch_ok (b : Batch) : Prop := {
  ok_ams : map_ok (ams b);
  ok_returns : map_ok (returns b);
  ok_non_ams : Forall non_am_ok (non_ams b);
}.

Context (iter_perm : forall (A : Type) (m : gmap Z A), iter m ≡ₚ map_to_list m).

Lemma iter_length {A} (m : gmap Z A) : length (iter m) = size m.
Proof. rewrite (iter_perm A m). by rewrite length_map_to_list. Qed.

Lemma iter_elem {A} (m : gmap Z A) k x : (k, x) ∈ iter m -> m !! k = Some x.
Proof. rewrite (iter_perm A m). apply elem_of_map_to_list. Qed.

(** ** Writing *)
Lemma serialize_am_fill done_ n st e :
  e.2 = am_serialized_size e.1.2 -> fill done_ (length (am_entry_bytes e) + n) st ->
  exists st', serialize_am st e = Done st' /\ fill (done_ ++ am_entry_bytes e) n st'.
Proof.
  destruct st as [buf i], e as [[req a] sz]. cbn. intros -> Hf. unfold am_entry_bytes in *. cbn in *.
  rewrite length_app, <- Nat.add_assoc in Hf.
  destruct (header_fill _ _ _ _ _ Hf) as (b1 & -> & F1).
  destruct (object_fill _ _ _ _ _ (am_serialized_size a) F1 eq_refl) as (b2 & -> & F2).
  eexists. split; [done|]. by rewrite app_assoc.
Qed.

Lemma serialize_group_fill cmd done_ n st g :
  Forall (fun e => e.2 = am_serialized_size e.1.2) g.2 -> fill done_ (length (group_bytes cmd g) + n) st ->
  exists st', serialize_group cmd st g = Done st' /\ fill (done_ ++ group_bytes cmd g) n st'.
Proof.
  destruct st as [buf i], g as [id es]. cbn. intros Hes Hf. unfold group_bytes in *. cbn in *.
  rewrite length_app, <- Nat.add_assoc in Hf.
  destruct (header_fill _ _ _ _ _ Hf) as (b1 & -> & F1). rewrite app_assoc.
  apply for_each_fill; [|done]. intros e d k st He. apply serialize_am_fill.
  by eapply Forall_forall in Hes.
Qed.

Lemma serialize_team_fill cmd done_ n st team tb :
  (forall id es, tb !! id = Some es -> Forall (entry_ok team id) es) ->
  fill done_ (length (team_bytes cmd (team, tb)) + n) st ->
  exists st', serialize_team cmd st (team, tb) = Done st' /\ fill (done_ ++ team_bytes cmd (team, tb)) n st'.
Proof.
  destruct st as [buf i]. cbn. intros Htb Hf. unfold team_bytes in *. cbn in *.
  rewrite length_app, <- Nat.add_assoc in Hf.
  destruct (header_fill _ _ _ _ _ Hf) as (b1 & -> & F1). rewrite app_assoc.
  apply for_each_fill; [|done]. intros [id es] d k st He. apply serialize_group_fill.
  eapply Forall_impl; [by eapply Htb, iter_elem|]. intros e Hok. apply Hok.
Qed.

Lemma serialize_am_batch_fill cmd done_ n st m :
  map_ok m -> fill done_ (length (map_bytes cmd m) + n) st ->
  exists st', serialize_am_batch m cmd st = Done st' /\ fill (done_ ++ map_bytes cmd m) n st'.
Proof.
  intros Hm Hf. unfold serialize_am_batch, map_bytes in *.
  destruct (0 <? size m); [|exists st; by rewrite app_nil_r].
  destruct st as [buf i]. rewrite length_app, <- Nat.add_assoc in Hf.
  destruct (header_fill _ _ _ _ _ Hf) as (b1 & -> & F1). rewrite app_assoc.
  apply for_each_fill; [|done]. intros [team tb] d k st He. apply serialize_team_fill.
  intros id es Hes. apply iter_elem, Hm in He as [_ He]. by apply He.
Qed.

Lemma serialize_non_am_fill done_ n st e :
  non_am_ok e -> fill done_ (length (non_am_bytes e) + n) st ->
  exists st', serialize_non_am st e = Done st' /\ fill (done_ ++ non_am_bytes e) n st'.
Proof.
  destruct st as [buf i], e as [[req data] sz]. unfold non_am_ok, non_am_bytes. cbn.
  destruct data as [| |r ds dl|]; cbn; intros Hok Hf; try done.
  - destruct Hok as [-> ->]. unfold serialize_data. rewrite !length_app, <- !Nat.add_assoc in Hf.
    destruct (header_fill _ _ _ _ _ Hf) as (b1 & -> & F1).
    unfold sub. rewrite (proj2 (Nat.leb_le _ _)) by lia.
    replace (_ - _) with (length (result_bytes r)) by lia.
    destruct (header_fill _ _ _ _ _ F1) as (b2 & -> & F2).
    destruct (object_fill _ _ _ _ _ _ F2 eq_refl) as (b3 & -> & F3).
    destruct (object_fill _ _ _ _ _ _ F3 eq_refl) as (b4 & -> & F4).
    eexists. split; [done|]. by rewrite !app_assoc.
  - unfold serialize_unit. rewrite length_app, <- Nat.add_assoc in Hf.
    destruct (header_fill _ _ _ _ _ Hf) as (b1 & -> & F1).
    destruct (header_fill _ _ _ _ _ F1) as (b2 & -> & F2).
    eexists. split; [done|]. by rewrite app_assoc.
Qed.

Lemma create_tx_bytes b buf :
  batch_ok b -> length buf = length (batch_bytes b) -> create_tx b buf = Done (batch_bytes b).
Proof.
  intros [H1 H2 H3] Hl. unfold create_tx, batch_bytes in *. rewrite !length_app in Hl.
  assert (F0 : fill [] (length (map_bytes CmdAm (ams b)) + (length (map_bytes CmdReturnAm (returns b)) +
                 (length (concat (map non_am_bytes (non_ams b))) + 0))) (buf, 0)).
  { split; [done|]. exists buf. split; [done|lia]. }
  destruct (serialize_am_batch_fill _ _ _ _ _ H1 F0) as (s1 & -> & F1).
  destruct (serialize_am_batch_fill _ _ _ _ _ H2 F1) as (s2 & -> & F2).
  destruct (for_each_fill serialize_non_am non_am_bytes (non_ams b) _ _ _
              ltac:(intros e d k st He; apply serialize_non_am_fill; by eapply Forall_forall in H3) F2)
    as (s3 & -> & F3).
  apply filled_0 in F3 as [-> _]. by rewrite <- app_assoc.
Qed.

(** ** Reading *)
Context `{!AmCodecLaws byte am result} `{!CodecLaws byte darcs} `{!CodecLaws byte ReqId}.
Context `{!CodecLaws byte BatchHeader} `{!CodecLaws byte TeamHeader} `{!CodecLaws byte BatchedAmHeader}.
Context `{!CodecLaws byte DataHeader} `{!CodecLaws byte UnitHeader}.

(** The command an entry becomes. *)
Definition exec_of_am (cmd : Cmd) (e : AmEntry) : Exec byte am darcs :=
  match cmd with
  | CmdAm => ExecAm (rteam e.1.1) (rid e.1.1) e.1.2
  | _ => ExecReturnAm (rteam e.1.1) (rid e.1.1) e.1.2
  end.

Definition exec_of_non_am (e : ReqMetaData * Data * nat) : Exec byte am darcs :=
  match e.1.2 with
  | DData r ds _ => ExecData (rid e.1.1) (result_bytes r) ds
  | _ => ExecUnit (rid e.1.1)
  end.

Definition group_execs (cmd : Cmd) (g : Z * list AmEntry) : Execs := map (exec_of_am cmd) g.2.
Definition team_execs (cmd : Cmd) (t : Z * AmIdMap) : Execs := concat (map (group_execs cmd) (iter t.2)).
Definition map_execs (cmd : Cmd) (m : TeamMap) : Execs := concat (map (team_execs cmd) (iter m)).

Definition batch_execs (b : Batch) : Execs :=
  map_execs CmdAm (ams b) ++ map_execs CmdReturnAm (returns b) ++ map exec_of_non_am (non_ams b).

Lemma times_consumes {A} (l : list A) (f : list byte -> nat -> outcome (nat * Execs)) g e :
  (forall x, x ∈ l -> consumes f (g x) (e x)) ->
  consumes (fun data => times (length l) (f data)) (concat (map g l)) (concat (map e l)).
Proof.
  induction l as [|x l IH]; intros Hf pre post; cbn; [by rewrite Nat.add_0_r|].
  rewrite <- app_assoc, (Hf x) by left.
  specialize (IH (fun y Hy => Hf y (list_elem_of_further _ _ _ Hy)) (pre ++ g x) post).
  rewrite <- app_assoc, length_app in IH. rewrite IH, length_app. f_equal. f_equal. lia.
Qed.

Lemma exec_am_consumes cmd id team e :
  cmd = CmdAm \/ cmd = CmdReturnAm -> entry_ok team id e ->
  consumes (fun data i => let! (i, x) := exec_am data id team cmd i in Done (i, [x]))
    (am_entry_bytes e) [exec_of_am cmd e].
Proof.
  destruct e as [[req a] sz]. intros Hcmd (_ & <- & <-) pre post.
  unfold am_entry_bytes, exec_am. cbn. rewrite <- app_assoc, read_header_app.
  destruct (unpack_bytes a post) as (f & Ef & Hf). unfold unpack_am. cbn in Ef. rewrite Ef. cbn.
  rewrite app_assoc, (HEADER_LEN_eq (rid req)), <- length_app, slice_from_app, Hf.
  rewrite !length_app. unfold am_serialized_size.
  destruct Hcmd as [-> | ->]; cbn; f_equal; f_equal; lia.
Qed.

Lemma exec_group_consumes cmd team g :
  cmd = CmdAm \/ cmd = CmdReturnAm -> Forall (entry_ok team g.1) g.2 ->
  consumes (fun data => exec_group data team) (group_bytes cmd g) (group_execs cmd g).
Proof.
  intros Hcmd Hg. unfold group_bytes, group_execs.
  apply (consumes_header _ (fun h data i => times (am_cnt h)
    (fun i => let! (i, e) := exec_am data (bam_id h) team (bam_cmd h) i in Done (i, [e])) i)).
  cbn. replace (map (exec_of_am cmd) g.2) with (concat (map (fun e => [exec_of_am cmd e]) g.2)).
  - apply (times_consumes g.2 (fun data i => let! (i, e) := exec_am data g.1 team cmd i in Done (i, [e]))
             am_entry_bytes (fun e => [exec_of_am cmd e])).
    intros e He. apply exec_am_consumes; [done|]. by eapply Forall_forall in Hg.
  - generalize g.2. intros l. induction l as [|e l IH]; cbn; [done|]. by rewrite IH.
Qed.

Lemma exec_team_consumes cmd team tb :
  cmd = CmdAm \/ cmd = CmdReturnAm -> (forall id es, tb !! id = Some es -> Forall (entry_ok team id) es) ->
  consumes exec_team (team_bytes cmd (team, tb)) (team_execs cmd (team, tb)).
Proof.
  intros Hcmd Htb. unfold team_bytes, team_execs. cbn.
  apply (consumes_header _ (fun h data i => times (am_batch_cnts h) (exec_group data (team_id h)) i)).
  cbn. rewrite <- iter_length.
  apply (times_consumes (iter tb) (fun data => exec_group data team)).
  intros [id es] He. apply exec_group_consumes; [done|]. by apply Htb, iter_elem.
Qed.

Lemma exec_batched_am_consumes cmd m :
  cmd = CmdAm \/ cmd = CmdReturnAm -> map_ok m ->
  consumes (fun data => exec_batched_am data (size m)) (concat (map (team_bytes cmd) (iter m))) (map_execs cmd m).
Proof.
  intros Hcmd Hm. rewrite <- iter_length. unfold exec_batched_am.
  apply (times_consumes (iter m) exec_team). intros [team tb] He. apply exec_team_consumes; [done|].
  intros id es Hes. apply iter_elem, Hm in He as [_ He]. by apply He.
Qed.

Lemma exec_map_consumes cmd m :
  cmd = CmdAm \/ cmd = CmdReturnAm -> map_ok m -> 0 < size m ->
  consumes exec_cmd (map_bytes cmd m) (map_execs cmd m).
Proof.
  intros Hcmd Hm Hs. unfold map_bytes. rewrite (proj2 (Nat.ltb_lt _ _) Hs).
  apply (consumes_header _ (fun h data i => match bcmd h with
    | CmdAm | CmdReturnAm => Panic
    | CmdData => exec_data_am data i
    | CmdUnit => exec_unit_am data i
    | CmdBatchedMsg => exec_batched_am data (bcnt h) i
    end)).
  cbn. by apply exec_batched_am_consumes.
Qed.

Lemma exec_non_am_consumes e :
  non_am_ok e -> consumes exec_cmd (non_am_bytes e) [exec_of_non_am e].
Proof.
  destruct e as [[req data] sz]. unfold non_am_ok, non_am_bytes, exec_of_non_am. cbn.
  destruct data as [| |r ds dl|]; intros Hok; try done;
    apply (consumes_header _ (fun h data i => match bcmd h with
      | CmdAm | CmdReturnAm => Panic
      | CmdData => exec_data_am data i
      | CmdUnit => exec_unit_am data i
      | CmdBatchedMsg => exec_batched_am data (bcnt h) i
      end)); cbn.
  - destruct Hok as [-> _]. apply exec_data_am_consumes.
  - apply exec_unit_am_consumes.
Qed.

Lemma iter_empty {A} : iter (∅ : gmap Z A) = [].
Proof. apply Permutation_nil_r. by rewrite iter_perm, map_to_list_empty. Qed.

Definition map_segment (cmd : Cmd) (m : TeamMap) : list (list byte * Execs) :=
  if 0 <? size m then [(map_bytes cmd m, map_execs cmd m)] else [].

Lemma map_segment_spec cmd m :
  concat (map fst (map_segment cmd m)) = map_bytes cmd m /\
  concat (map snd (map_segment cmd m)) = map_execs cmd m.
Proof.
  unfold map_segment. destruct (Nat.ltb_spec 0 (size m)) as [Hs|Hs]; cbn [map concat fst snd].
  - by rewrite !app_nil_r.
  - assert (m = ∅) as -> by (apply map_size_empty_inv; lia).
    unfold map_bytes, map_execs. by rewrite iter_empty, map_size_empty.
Qed.

Lemma exec_batched_msg_bytes b : batch_ok b -> exec_batched_msg (batch_bytes b) = Done (batch_execs b).
Proof.
  intros [H1 H2 H3]. unfold exec_batched_msg.
  set (segs := map_segment CmdAm (ams b) ++ map_segment CmdReturnAm (returns b) ++
               map (fun e => (non_am_bytes e, [exec_of_non_am e])) (non_ams b)).
  assert (E1 : batch_bytes b = concat (map fst segs)).
  { unfold segs, batch_bytes. rewrite !map_app, !concat_app, map_map.
    by rewrite !(proj1 (map_segment_spec _ _)). }
  assert (E2 : batch_execs b = concat (map snd segs)).
  { unfold segs, batch_execs. rewrite !map_app, !concat_app, map_map.
    rewrite !(proj2 (map_segment_spec _ _)). cbn. do 2 f_equal.
    generalize (non_ams b). intros l. induction l as [|e l IH]; cbn; [done|]. by rewrite <- IH. }
  assert (Hs : forall x es, (x, es) ∈ segs -> consumes exec_cmd x es /\ x <> []).
  { intros x es. unfold segs, map_segment. rewrite !elem_of_app.
    assert (Hmap : forall cmd m, cmd = CmdAm \/ cmd = CmdReturnAm -> map_ok m ->
      (x, es) ∈ (if 0 <? size m then [(map_bytes cmd m, map_execs cmd m)] else []) ->
      consumes exec_cmd x es /\ x <> []).
    { intros cmd m Hcmd Hm. destruct (Nat.ltb_spec 0 (size m)); [|by intros ?%elem_of_nil].
      intros [= -> ->]%list_elem_of_singleton. split; [by apply exec_map_consumes|].
      unfold map_bytes. destruct (Nat.ltb_spec 0 (size m)); [by apply app_header_ne|lia]. }
    intros [Hx|[Hx|Hx]]; [exact (Hmap _ _ (or_introl eq_refl) H1 Hx)|exact (Hmap _ _ (or_intror eq_refl) H2 Hx)|].
    apply list_elem_of_fmap in Hx as (e & [= -> ->] & He).
    eapply Forall_forall in H3; [|done]. split; [by apply exec_non_am_consumes|].
    unfold non_am_bytes. destruct e as [[? []] ?]; by apply app_header_ne. }
  rewrite E1, E2. by apply exec_loop_all.
Qed.

(** ** Adding *)
Lemma flat_insert {A B} (h : Z * A -> list B) m k v :
  concat (map h (iter (<[k := v]> m))) ≡ₚ h (k, v) ++ concat (map h (iter (delete k m))).
Proof.
  assert (E : forall m' : gmap Z A, concat (map h (iter m')) ≡ₚ concat (map h (map_to_list m'))).
  { intros m'. rewrite <- !flat_map_concat_map. by rewrite (iter_perm A m'). }
  rewrite !E, <- insert_delete_eq, map_to_list_insert by apply lookup_delete_eq. done.
Qed.

Lemma flat_lookup {A B} (h : Z * A -> list B) m k v :
  m !! k = Some v -> concat (map h (iter m)) ≡ₚ h (k, v) ++ concat (map h (iter (delete k m))).
Proof. intros Hk. rewrite <- (insert_id m k v Hk) at 1. apply flat_insert. Qed.

(** The change of the contents when a value is replaced or added. *)
Lemma flat_update {A B} (h : Z * A -> list B) m k v (d : list B) :
  h (k, v) ≡ₚ d ++ match m !! k with Some u => h (k, u) | None => [] end ->
  concat (map h (iter (<[k := v]> m))) ≡ₚ d ++ concat (map h (iter m)).
Proof.
  intros E. rewrite flat_insert, E. destruct (m !! k) as [u|] eqn:Hk.
  - by rewrite (flat_lookup h m k u Hk), <- app_assoc.
  - by rewrite app_nil_r, delete_id.
Qed.

Lemma flat_length_update {A B} (h : Z * A -> list B) m k v n :
  length (h (k, v)) = n + match m !! k with Some u => length (h (k, u)) | None => 0 end ->
  length (concat (map h (iter (<[k := v]> m)))) = n + length (concat (map h (iter m))).
Proof.
  intros E. rewrite flat_insert, length_app, E. destruct (m !! k) as [u|] eqn:Hk.
  - rewrite (flat_lookup h m k u Hk), length_app. lia.
  - rewrite delete_id by done. lia.
Qed.

Lemma size_pos {A} (m : gmap Z A) : m <> ∅ -> size m =? 0 = false.
Proof. intros Hm. apply Nat.eqb_neq. by intros ?%map_size_empty_inv. Qed.

Definition groups_size (cmd : Cmd) (tb : AmIdMap) : nat := length (concat (map (group_bytes cmd) (iter tb))).
Definition teams_size (cmd : Cmd) (m : TeamMap) : nat := length (concat (map (team_bytes cmd) (iter m))).

Lemma groups_update cmd req a (tb : AmIdMap) :
  (forall id es, tb !! id = Some es -> es <> []) ->
  let e := (req, a, am_serialized_size a) in
  let es := default [] (tb !! get_id a) in
  groups_size cmd (<[get_id a := es ++ [e]]> tb) =
    (if length es =? 0 then LEN BatchedAmHeader else 0) + (am_serialized_size a + LEN ReqId) +
    groups_size cmd tb /\
  concat (map (group_execs cmd) (iter (<[get_id a := es ++ [e]]> tb))) ≡ₚ
    exec_of_am cmd e :: concat (map (group_execs cmd) (iter tb)).
Proof.
  intros Hne e es. split.
  - apply flat_length_update. unfold group_bytes. cbn.
    rewrite map_app, concat_app, !length_app, !header_length. cbn. rewrite app_nil_r.
    unfold am_entry_bytes at 2. cbn. rewrite length_app, !header_length.
    unfold es. destruct (tb !! get_id a) as [es'|] eqn:E; cbn.
    + rewrite length_app, !header_length. destruct es' as [|e' es']; [by destruct (Hne _ _ E)|].
      cbn. unfold am_serialized_size. lia.
    + unfold am_serialized_size. lia.
  - apply (flat_update _ _ _ _ [_]). unfold group_execs. cbn. rewrite map_app. cbn. unfold es.
    destruct (tb !! get_id a); cbn; [|done]. by rewrite <- Permutation_cons_append.
Qed.

Lemma add_am_spec cmd req a m :
  map_ok m ->
  let '(m', n) := add_am_to_batch req a (get_id a) (am_serialized_size a) m in
  map_ok m' /\ 0 < n /\ teams_size cmd m' = n + teams_size cmd m /\
  map_execs cmd m' ≡ₚ exec_of_am cmd (req, a, am_serialized_size a) :: map_execs cmd m.
Proof.
  intros Hm. unfold add_am_to_batch. set (tb := default ∅ (m !! rteam req)).
  assert (Htb : forall id es, tb !! id = Some es -> es <> [] /\ Forall (entry_ok (rteam req) id) es).
  { unfold tb. destruct (m !! rteam req) as [tb'|] eqn:E; cbn; [apply (Hm _ _ E)|done]. }
  destruct (groups_update cmd req a tb (fun id es Hes => proj1 (Htb id es Hes))) as [G1 G2].
  set (e := (req, a, am_serialized_size a)) in *.
  set (tb' := <[get_id a := _]> tb) in *.
  split; [|split; [pose proof (header_pos (byte := byte) (A := ReqId)); unfold HEADER_LEN; lia|split]].
  - intros team t Ht. apply lookup_insert_Some in Ht as [[<- <-]|[Hne Ht]]; [|by apply Hm].
    split; [apply insert_non_empty|]. intros id es Hes.
    apply lookup_insert_Some in Hes as [[<- <-]|[Hne Hes]]; [|by apply Htb].
    split; [by destruct (default [] _)|]. apply Forall_app. split; [|by repeat constructor].
    destruct (tb !! get_id a) as [es'|] eqn:E; cbn; [by apply (Htb _ _ E)|by apply Forall_nil_2].
  - apply flat_length_update. unfold team_bytes at 1. cbn. rewrite length_app, !header_length.
    change (length (concat (map (group_bytes cmd) (iter tb')))) with (groups_size cmd tb'). rewrite G1.
    unfold tb. destruct (m !! rteam req) as [t|] eqn:E; cbn.
    + rewrite (size_pos t) by apply (Hm _ _ E). unfold team_bytes. cbn.
      rewrite length_app, !header_length. unfold groups_size. lia.
    + unfold groups_size. rewrite iter_empty, map_size_empty. cbn. lia.
  - apply (flat_update _ _ _ _ [_]). unfold team_execs at 1. cbn. rewrite G2. unfold tb.
    destruct (m !! rteam req) as [t|] eqn:E; cbn; [done|]. by rewrite iter_empty.
Qed.

Definition content_size (b : Batch) : nat :=
  teams_size CmdAm (ams b) + teams_size CmdReturnAm (returns b) + length (concat (map non_am_bytes (non_ams b))).

Lemma tx_size_bytes b : tx_size b (content_size b) = length (batch_bytes b).
Proof.
  assert (E : forall cmd m, length (map_bytes cmd m) =
            teams_size cmd m + (if 0 <? size m then LEN BatchHeader else 0)).
  { intros cmd m. unfold map_bytes, teams_size. destruct (Nat.ltb_spec 0 (size m)).
    - rewrite length_app, !header_length. lia.
    - assert (m = ∅) as -> by (apply map_size_empty_inv; lia). by rewrite iter_empty. }
  unfold tx_size, content_size, batch_bytes. rewrite !length_app, !E. lia.
Qed.

Lemma add_non_am_spec b req data sz :
  batch_ok b -> non_am_ok (req, data, sz + LEN BatchHeader) ->
  length (non_am_bytes (req, data, sz + LEN BatchHeader)) = sz + LEN BatchHeader ->
  let '(b', n) := add_non_am b req data sz in
  batch_ok b' /\ 0 < n /\ content_size b' = n + content_size b /\
  batch_execs b' ≡ₚ exec_of_non_am (req, data, sz + LEN BatchHeader) :: batch_execs b.
Proof.
  intros [H1 H2 H3] Hok Hlen. cbn. split; [|split; [|split]].
  - split; cbn; [done..|]. apply Forall_app. split; [done|]. by repeat constructor.
  - pose proof (header_pos (byte := byte) (A := BatchHeader)). unfold HEADER_LEN. lia.
  - unfold content_size. cbn. rewrite map_app, concat_app, length_app. cbn. rewrite app_nil_r, Hlen. lia.
  - unfold batch_execs. cbn. rewrite map_app. cbn. rewrite !app_assoc. by rewrite <- Permutation_cons_append.
Qed.

Lemma add_to_batch_spec b req r :
  batch_ok b -> exists b' n, add_to_batch b req r = Done (b', n) /\ batch_ok b' /\ 0 < n /\
    content_size b' = n + content_size b /\ batch_execs b' ≡ₚ exec_of_request req r :: batch_execs b.
Proof.
  intros Hb. pose proof Hb as [H1 H2 H3]. destruct r as [a|a|d ds|]; unfold add_to_batch, add_remote_am_to_batch, add_return_am_to_batch, add_am.
  - pose proof (add_am_spec CmdAm req a (ams b) H1) as S.
    destruct (add_am_to_batch _ _ _ _ _) as [m n]. destruct S as (S1 & S2 & S3 & S4).
    eexists _, n. split; [done|]. split; [by split|]. split; [done|].
    unfold content_size, batch_execs. cbn. split; [lia|]. by rewrite S4.
  - pose proof (add_am_spec CmdReturnAm req a (returns b) H2) as S.
    destruct (add_am_to_batch _ _ _ _ _) as [m n]. destruct S as (S1 & S2 & S3 & S4).
    eexists _, n. split; [done|]. split; [by split|]. split; [done|].
    unfold content_size, batch_execs. cbn. split; [lia|]. rewrite S4. cbn.
    by rewrite <- Permutation_middle.
  - eexists _, _. split; [done|]. apply (add_non_am_spec b req (DData d ds _)); [done|cbn; split; [done|lia]|].
    unfold non_am_bytes. cbn. rewrite !length_app, !header_length. lia.
  - eexists _, _. split; [done|]. apply (add_non_am_spec b req DUnit); [done..|].
    unfold non_am_bytes. cbn. rewrite !length_app, !header_length. lia.
Qed.

(** ** The store of the tasks of BatchTasks.v *)
Context (my_pe : Z).

Abbreviation R := (ReqMetaData * Request am result darcs)%type.

#[export] Instance team_am_store : BatchStore byte Batch R (Exec byte am darcs) := {
  bs_empty := empty_batch;
  bs_add b r := add_to_batch b r.1 r.2;
  bs_tx_size := tx_size;
  bs_transmit b r size_ buf :=
    let! bytes := create_tx b buf in
    let! es := exec_batched_msg bytes in
    Done (targets my_pe r.1, es);
}.

Definition request_bound (r : R) : nat :=
  match r.2 with
  | ReqAm a | ReqReturn a => LEN TeamHeader + LEN BatchedAmHeader + (am_serialized_size a + LEN ReqId)
  | ReqData d ds => length (result_bytes d) + length (encode (byte := byte) ds) + LEN DataHeader + LEN BatchHeader
  | ReqUnit => LEN UnitHeader + LEN BatchHeader
  end.

Lemma add_to_batch_bound b r b' k : add_to_batch b r.1 r.2 = Done (b', k) -> k <= request_bound r.
Proof.
  destruct r as [req [a|a|d ds|]]; unfold add_to_batch, add_remote_am_to_batch, add_return_am_to_batch,
    add_data_am_to_batch, add_unit_am_to_batch, add_am, add_am_to_batch, request_bound, add_non_am;
    cbn [fst snd]; intros E; injection E as <- <-; repeat case_match; lia.
Qed.

Lemma empty_batch_ok : batch_ok empty_batch /\ content_size empty_batch = 0 /\ batch_execs empty_batch = [].
Proof.
  split; [by split; cbn|]. unfold content_size, batch_execs, teams_size, map_execs. cbn.
  by rewrite iter_empty.
Qed.

Lemma content_size_0 b : content_size b = 0 -> batch_execs b = [].
Proof.
  unfold content_size. intros Hs.
  assert (Hm : forall cmd m, teams_size cmd m = 0 -> map_execs cmd m = []).
  { intros cmd m Hm. destruct (decide (m = ∅)) as [->|Hne]; [unfold map_execs; by rewrite iter_empty|].
    apply map_choose in Hne as (k & t & Hk). unfold teams_size in Hm.
    rewrite (flat_lookup _ _ _ _ Hk), length_app in Hm. unfold team_bytes in Hm. cbn in Hm.
    rewrite length_app, header_length in Hm. pose proof (header_pos (byte := byte) (A := TeamHeader)).
    unfold HEADER_LEN in Hm. lia. }
  unfold batch_execs. rewrite !Hm by lia. cbn. destruct (non_ams b) as [|[[req d] sz] l]; [done|]. exfalso.
  cbn in Hs. rewrite !length_app in Hs.
  assert (0 < length (non_am_bytes (req, d, sz))); [|lia].
  unfold non_am_bytes. pose proof (header_pos (byte := byte) (A := BatchHeader)).
  destruct d; cbn; rewrite !length_app, !header_length; unfold HEADER_LEN; lia.
Qed.

#[export] Program Instance team_am_laws : BatchLaws byte Batch R (Exec byte am darcs) := {
  bs_ok := batch_ok;
  bs_size := content_size;
  bs_execs := batch_execs;
  bs_exec r := exec_of_request r.1 r.2;
  bs_bound := request_bound;
  bs_empty_ok := empty_batch_ok;
  bs_size_0 b _ := content_size_0 b;
}.
Next Obligation.
  intros b r Hb. cbn. destruct (add_to_batch_spec b r.1 r.2 Hb) as (b' & k & E & H1 & H2 & H3 & H4).
  exists b', k. split; [done|]. split; [done|]. split; [|done].
  split; [done|]. by eapply add_to_batch_bound.
Qed.
Next Obligation.
  intros b r buf Hb _ Hbuf. cbn in *. rewrite create_tx_bytes; [|done|by rewrite Hbuf, tx_size_bytes].
  rewrite exec_batched_msg_bytes by done. eexists _, _. done.
Qed.

(** Adding commands one after the other. *)
Fixpoint add_all (b : Batch) (size_ : nat) (rs : list R) : outcome (Batch * nat) :=
  match rs with
  | [] => Done (b, size_)
  | r :: rs => let! (b, k) := add_to_batch b r.1 r.2 in add_all b (size_ + k) rs
  end.

Lemma add_all_spec b size_ rs :
  batch_ok b -> size_ = content_size b ->
  exists b', add_all b size_ rs = Done (b', content_size b') /\ batch_ok b' /\
    batch_execs b' ≡ₚ map (fun r => exec_of_request r.1 r.2) rs ++ batch_execs b.
Proof.
  revert b size_. induction rs as [|[req r] rs IH]; intros b size_ Hb ->; cbn.
  - by exists b.
  - destruct (add_to_batch_spec b req r Hb) as (b1 & k & -> & H1 & H2 & H3 & H4).
    destruct (IH b1 (content_size b + k) H1 ltac:(lia)) as (b2 & -> & H5 & H6).
    exists b2. split; [done|]. split; [done|]. rewrite H6, H4. by rewrite <- Permutation_middle.
Qed.

(** C18: commands survive batching: whatever commands are added to an empty
    batch (none of the additions panics), the size that is counted is exactly
    what serialisation needs, serialisation into any buffer of that size does
    not panic, and the receiving PE starts exactly the commands that were added,
    with their team, request and data, without reading past the buffer. *)
Theorem team_batch_roundtrip (rs : list R) :
  exists b size_, add_all empty_batch 0 rs = Done (b, size_) /\
    forall buf, length buf = tx_size b size_ ->
      exists bytes es, create_tx b buf = Done bytes /\ length bytes = length buf /\
        exec_batched_msg bytes = Done es /\
        es ≡ₚ map (fun r => exec_of_request r.1 r.2) rs.
Proof.
  destruct empty_batch_ok as (H1 & H2 & H3).
  destruct (add_all_spec empty_batch 0 rs H1 (eq_sym H2)) as (b & E & Hb & Hex).
  exists b, (content_size b). split; [done|]. intros buf Hbuf.
  rewrite tx_size_bytes in Hbuf. exists (batch_bytes b), (batch_execs b).
  rewrite create_tx_bytes, exec_batched_msg_bytes by done. repeat split; [done|].
  rewrite Hex, H3. by rewrite app_nil_r.
Qed.

Context `{!Inhabited byte}.

#[export] Program Instance team_am_dests : BatchDests byte Batch R (Exec byte am darcs) := {
  bs_dest r := targets my_pe r.1;
  bs_dests _ := [];
}.
Next Obligation. done. Qed.
Next Obligation. intros b r b' k _ p Hp. by apply elem_of_nil in Hp. Qed.
Next Obligation.
  intros b r k buf pes es Ht. cbn in Ht. destruct (create_tx b buf); [|done]. destruct (exec_batched_msg _); [|done].
  injection Ht as <- _. by left.
Qed.

(** The commands of a batch are for one PE, or for the other PEs of one team. *)
Definition for_dest (d : option Z) (team : list Z) (r : R) : Prop :=
  dst r.1 = d /\ (d = None -> arch r.1 = team).
Definition dest_pes (d : option Z) (team : list Z) : list Z :=
  match d with Some p => [p] | None => filter (fun p => p <> my_pe) team end.

(** C12: the default batcher loses, duplicates and misroutes nothing: for any commands (of fewer
    than 2^64 bytes in all) for one destination -- one PE, or all PEs of one team -- added by the
    scheduler ([submits]) and by running active messages ([adds]), with any number of commands
    for other destinations, in every interleaving of the adding, waiting and sending tasks, every
    run ends, and then each PE of the destination has started exactly the commands that were
    added, each once, and no other PE has started any. (Commands for all PEs of several teams
    share a batch, and then this fails: [team_casts_mixed].) *)
Theorem team_batches_delivered d team submits adds others (Hb : (total_bytes (submits ++ adds) < USIZE)%Z)
    (Hd : Forall (for_dest d team) (submits ++ adds)) (Hn : NoDup team) :
  sn lstep (init (B := Batch) submits adds others) /\
  (forall s', rtc lstep (init (B := Batch) submits adds others) s' -> nf lstep s' ->
     tasks s' = [] /\
     forall pe, started pe s' ≡ₚ
       if decide (pe ∈ dest_pes d team) then map (fun r => exec_of_request r.1 r.2) (submits ++ adds) else []).
Proof.
  destruct (all_delivered submits adds others Hb) as [Hsn Hall]. split; [exact Hsn|]. intros s' Hr Hnf.
  destruct (Hall s' Hr Hnf) as [Ht Hdel]. split; [exact Ht|].
  refine (all_started (dest_pes d team) submits adds others s' _ _ Hr Hdel); [|eapply Forall_impl; [exact Hd|]].
  - destruct d; [apply NoDup_singleton|]. by apply NoDup_filter.
  - intros r [E1 E2]. cbn. unfold targets. rewrite E1. destruct d; [done|]. cbn. by rewrite E2.
Qed.
End TeamAm.

(** ** On a concrete serialisation *)
Module ConcreteTeam.
Import Concrete.
#[export] Instance batch_codec : Codec Z BatchHeader := {
  encode h := [cmd_num (bcmd h); Z.of_nat (bcnt h)];
  decode s := match s with c :: n :: _ => Some {| bcmd := num_cmd c; bcnt := Z.to_nat n |} | _ => None end;
}.
#[export] Instance team_codec : Codec Z TeamHeader := {
  encode h := [team_id h; Z.of_nat (am_batch_cnts h)];
  decode s := match s with t :: n :: _ => Some {| team_id := t; am_batch_cnts := Z.to_nat n |} | _ => None end;
}.
#[export] Instance group_codec : Codec Z BatchedAmHeader := {
  encode h := [bam_id h; Z.of_nat (am_cnt h); cmd_num (bam_cmd h)];
  decode s := match s with
              | a :: n :: c :: _ => Some {| bam_id := a; am_cnt := Z.to_nat n; bam_cmd := num_cmd c |}
              | _ => None end;
}.
#[export] Program Instance batch_header : Header Z BatchHeader := {| header_default := {| bcmd := CmdAm; bcnt := 0 |} |}.
Solve All Obligations with (cbn; done || lia).
#[export] Program Instance team_header : Header Z TeamHeader :=
  {| header_default := {| team_id := 0; am_batch_cnts := 0 |} |}.
Solve All Obligations with (cbn; done || lia).
#[export] Program Instance group_header : Header Z BatchedAmHeader :=
  {| header_default := {| bam_id := 0; am_cnt := 0; bam_cmd := CmdAm |} |}.
Solve All Obligations with (cbn; done || lia).
#[export] Instance batch_laws : CodecLaws Z BatchHeader.
Proof. intros [] rest. cbn. by rewrite num_cmd_num, Nat2Z.id. Defined.
#[export] Instance team_laws : CodecLaws Z TeamHeader.
Proof. intros [] rest. cbn. by rewrite Nat2Z.id. Defined.
#[export] Instance group_laws : CodecLaws Z BatchedAmHeader.
Proof. intros [] rest. cbn. by rewrite num_cmd_num, Nat2Z.id. Defined.
Definition iter (A : Type) (m : gmap Z A) : list (Z * A) := map_to_list m.
Lemma iter_perm (A : Type) (m : gmap Z A) : iter A m ≡ₚ map_to_list m.
Proof. done. Qed.
(** What the tasks of PE 0 need of these batches. *)
#[export] Instance store : BatchStore Z Batch (ReqMetaData * Request Z (list Z) (list Z)) (Exec Z Z (list Z)) :=
  team_am_store iter 0.
#[export] Instance store_laws : BatchLaws Z Batch (ReqMetaData * Request Z (list Z) (list Z)) (Exec Z Z (list Z)) :=
  team_am_laws iter iter_perm 0.
End ConcreteTeam.
Import Concrete ConcreteTeam.

(** the message of a batch for all PEs goes to the PEs of one team only: the
    batch for destination [None] is shared by all teams, and the task that sends
    it addresses the PEs of the team of the command that started it.  With PE 0
    sending an active message to team 10 = \{0, 1\} and one to team 20 = \{0, 2\},
    a run ends with one message, sent to PE 1 alone, that holds both commands:
    PE 1 runs a command of a team it is not in and PE 2 never runs it. *)
Theorem team_casts_mixed :
  exists s', rtc (lstep (H := team_am_store iter 0)) (init to_all [] 0) s' /\
    tasks s' = [] /\
    delivered s' = [([1%Z], [ExecAm 10 {| id := 1; sub_id := 0 |} 4%Z; ExecAm 20 {| id := 2; sub_id := 0 |} 6%Z])].
Proof.
  set (schedule := [0; 1; 0; 1; 0; 1; 0; 0; 0; 0; 0; 0; 0; 0; 0]).
  assert (E : option_map (fun s' : St => (length (tasks s'), delivered s')) (run (init to_all [] 0) schedule) =
    Some (0, [([1%Z], [ExecAm 10 {| id := 1; sub_id := 0 |} 4%Z; ExecAm 20 {| id := 2; sub_id := 0 |} 6%Z])]))
    by (vm_compute; reflexivity).
  destruct (run _ schedule) as [s'|] eqn:Hr; [|discriminate E]. injection E as E1 E2.
  exists s'. split; [by eapply run_rtc|]. by split; [apply nil_length_inv|].
Qed.

Lemma team_batch_roundtrip_witness :
  exists b size_, add_all (byte := Z) empty_batch 0 requests = Done (b, size_) /\
    forall buf : list Z, length buf = tx_size (byte := Z) b size_ ->
      exists bytes es, create_tx iter b buf = Done bytes /\ length bytes = length buf /\
        exec_batched_msg bytes = Done es /\
        es ≡ₚ map (fun r => exec_of_request (byte := Z) r.1 r.2) requests.
Proof. exact (team_batch_roundtrip iter iter_perm requests). Defined.

Lemma team_batches_delivered_witness :
  (total_bytes (requests ++ []) < USIZE)%Z /\ Forall (for_dest (Some 1%Z) []) (requests ++ []) /\
  sn lstep (init requests [] 3) /\
  (forall s', rtc lstep (init requests [] 3) s' -> nf lstep s' ->
     tasks s' = [] /\ started 1 s' ≡ₚ map (fun r => exec_of_request (byte := Z) r.1 r.2) (requests ++ []) /\
     started 2 s' ≡ₚ []).
Proof.
  assert (Hb : (total_bytes (requests ++ []) < USIZE)%Z) by (vm_compute; reflexivity).
  assert (Hd : Forall (for_dest (Some 1%Z) []) (requests ++ [])) by (repeat constructor; done).
  split; [exact Hb|]. split; [exact Hd|].
  destruct (team_batches_delivered iter iter_perm 0 (Some 1%Z) [] requests [] 3 Hb Hd (NoDup_nil_2)) as [H1 H2].
  split; [exact H1|]. intros s' Hr Hnf. destruct (H2 s' Hr Hnf) as [H3 H4]. split; [exact H3|].
  split; [exact (H4 1%Z)|exact (H4 2%Z)].
Defined.
