(* ===== verification/CmdQueue.v ===== *)
(** The command queue (src/src/lamellae/command_queues.rs): how a PE sends
    serialised messages to another.

    The sender writes a command (address, size and hash of a message) into one of
    the [CMD_BUFS_PER_PE] command buffers of the destination; a full buffer, or
    one nobody else is about to push to, is announced to the destination with a
    one-sided put of a single command into a receive slot.  The destination polls
    the slot, gets the buffer, releases it, gets every message the buffer names
    and, with the last of them, frees the buffer.

    The model has one ordered pair of PEs: the sender's side of the pair
    ([cmd_buffers[dst]], [send_buffer[dst]], [send_waiting[dst]]), the receiver's
    slot ([recv_buffer[src]]) and its tasks, and the puts under way between them.
    [pending_cmds] is shared with the other destinations, which change it at any
    time.  Every critical section and every access to remote memory is a step. *)

From stdpp Require Import base list numbers relations gmap sorting.
From Stdlib Require Import ZArith Lia.
From S2P Require Import Prelude.

Local Open Scope Z_scope.

(** ** Errors *)

(** Why a task panics, or worse: [Overflow] is an overflow check of a debug
    build, [Unreachable] a [panic!] of the source, [BadAccess] a read or write of
    memory that is not allocated, which the source does not detect. *)
Inductive Why := Overflow | Unreachable | BadAccess.

Notation res A := (result A Why).
Notation "'let*' x ':=' c1 'in' c2" :=
  (match c1 with Ok x => c2 | Err w => Err w end)
  (at level 10, x pattern, c1 at level 100, c2 at level 200,
   format "'[v' 'let*'  x  ':='  c1  'in' '/' c2 ']'") : rust_scope.

Definition cadd (a b : Z) : res Z := if a + b <? USIZE then Ok (a + b) else Err Overflow.

(** ** Commands *)
Inductive Cmd := Clear | Free | Release | Print | Tx | Alloc | Panic.

#[global] Instance Cmd_eq_dec : EqDecision Cmd.
Proof. solve_decision. Defined.

(** [cmd as usize]: [#[repr(u8)]], starting from [Clear = 1]. *)
Definition discriminant (c : Cmd) : Z :=
  match c with Clear => 1 | Free => 2 | Release => 3 | Print => 4 | Tx => 5 | Alloc => 6 | Panic => 7 end.

(** [pad]: the seven bytes [#[repr(C)]] leaves after [cmd]. *)
Record CmdMsg := {
  daddr : Z;
  dsize : Z;
  cmd : Cmd;
  pad : list Z;
  msg_hash : Z;
  cmd_hash : Z;
}.

Definition SIZE_OF_CMD : Z := 40.

(** [n] bytes of a number, little endian, and back. *)
Fixpoint to_le (n : nat) (x : Z) : list Z :=
  match n with O => [] | S n => x mod 256 :: to_le n (x / 256) end.
Fixpoint of_le (bs : list Z) : Z :=
  match bs with [] => 0 | b :: bs => b + 256 * of_le bs end.

Definition as_bytes (m : CmdMsg) : list Z :=
  to_le 8 (daddr m) ++ to_le 8 (dsize m) ++ [discriminant (cmd m)] ++ pad m ++
  to_le 8 (msg_hash m) ++ to_le 8 (cmd_hash m).

(** The sum of the words of a slice and of the bytes after the last word. *)
Fixpoint sum_words (bs : list Z) : Z :=
  match bs with
  | b0 :: b1 :: b2 :: b3 :: b4 :: b5 :: b6 :: b7 :: bs =>
    of_le [b0; b1; b2; b3; b4; b5; b6; b7] + sum_words bs
  | _ => zsum id bs
  end.
Definition calc_hash (bs : list Z) : Z := sum_words bs mod USIZE.

Definition hash (m : CmdMsg) : res Z :=
  let* r := cadd (daddr m) (dsize m) in
  let* r := cadd r (discriminant (cmd m)) in
  let* r := cadd r (msg_hash m) in
  Ok (if r =? 0 then 1 else r).

Definition set_cmd_hash (m : CmdMsg) (h : Z) : CmdMsg :=
  {| daddr := daddr m; dsize := dsize m; cmd := cmd m; pad := pad m; msg_hash := msg_hash m; cmd_hash := h |}.
Definition set_cmd (m : CmdMsg) (c : Cmd) : CmdMsg :=
  {| daddr := daddr m; dsize := dsize m; cmd := c; pad := pad m; msg_hash := msg_hash m; cmd_hash := cmd_hash m |}.

(** [CmdMsg::calc_hash] *)
Definition calc_cmd_hash (m : CmdMsg) : res CmdMsg :=
  let* h := hash m in Ok (set_cmd_hash m h).

Definition check_hash (m : CmdMsg) : res bool :=
  let* h := hash m in Ok ((cmd_hash m =? h) && negb (cmd_hash m =? 0)).

(** The assignments that fill a command in place. *)
Definition fill (m : CmdMsg) (a n : Z) (c : Cmd) (h : Z) : res CmdMsg :=
  calc_cmd_hash {| daddr := a; dsize := n; cmd := c; pad := pad m; msg_hash := h; cmd_hash := cmd_hash m |}.

Definition clear (m : CmdMsg) : res CmdMsg := fill m 0 0 Clear 0.

(** ** Command buffers *)

(** The memory of the command buffers, which the destination reads and whose
    first [cmd] byte it writes. *)
Abbreviation Mem := (gmap Z (list CmdMsg)).

Definition read_cell (mem : Mem) (a : Z) (i : nat) : res CmdMsg :=
  match mem !! a ≫= (.!! i) with Some m => Ok m | None => Err BadAccess end.
Definition write_cell (mem : Mem) (a : Z) (i : nat) (m : CmdMsg) : res Mem :=
  match mem !! a with
  | Some cells => if decide (i < length cells)%nat then Ok (<[a := <[i := m]> cells]> mem) else Err BadAccess
  | None => Err BadAccess
  end.
(** The first [n] commands at [a]. *)
Definition read_cells (mem : Mem) (a : Z) (n : nat) : res (list CmdMsg) :=
  match mem !! a with
  | Some cells => if decide (n <= length cells)%nat then Ok (take n cells) else Err BadAccess
  | None => Err BadAccess
  end.

Definition bytes_of (cs : list CmdMsg) : list Z := flat_map as_bytes cs.

Record CmdBuf := { addr : Z; index : nat; allocated_cnt : Z; max_size : nat }.

Definition push (mem : Mem) (b : CmdBuf) (a n h : Z) : res (Mem * CmdBuf) :=
  if (a =? 0) || (n =? 0) then Err Unreachable
  else
    let* c := read_cell mem (addr b) (index b) in
    let* c := fill c a n Tx h in
    let* mem := write_cell mem (addr b) (index b) c in
    Ok (mem, {| addr := addr b; index := S (index b);
                allocated_cnt := if 0 <? n then allocated_cnt b + 1 else allocated_cnt b;
                max_size := max_size b |}).

Definition full (b : CmdBuf) : bool := (index b =? max_size b)%nat.
Definition reset (b : CmdBuf) : CmdBuf :=
  {| addr := addr b; index := 0; allocated_cnt := 0; max_size := max_size b |}.
Definition size (b : CmdBuf) : Z := Z.of_nat (index b) * SIZE_OF_CMD.
Definition iter (mem : Mem) (b : CmdBuf) : res (list CmdMsg) := read_cells mem (addr b) (index b).
Definition state (mem : Mem) (b : CmdBuf) : res Cmd :=
  let* c := read_cell mem (addr b) 0 in Ok (cmd c).

(** ** The buffers of a destination

    A [HashMap] is the list of its values, whose key is always their address. *)
Record CmdMsgBuffer := {
  empty_bufs : list CmdBuf;
  full_bufs : list CmdBuf;
  tx_bufs : list CmdBuf;
  waiting_bufs : list CmdBuf;
  cur_buf : option CmdBuf;
  num_bufs : nat;
}.

(** [Vec::pop] *)
Definition pop {A} (l : list A) : option (list A * A) :=
  match rev l with [] => None | x :: l => Some (rev l, x) end.

(** [HashMap::insert] and [HashMap::remove] *)
Definition hm_insert (b : CmdBuf) (l : list CmdBuf) : list CmdBuf :=
  b :: filter (fun b' => addr b' <> addr b) l.
Fixpoint hm_remove (a : Z) (l : list CmdBuf) : option (CmdBuf * list CmdBuf) :=
  match l with
  | [] => None
  | b :: l =>
    if addr b =? a then Some (b, l)
    else match hm_remove a l with Some (b', l') => Some (b', b :: l') | None => None end
  end.

Definition CMD_BUF_LEN : nat := 50000.
Definition CMD_BUFS_PER_PE : nat := 2.

Definition CmdMsgBuffer_new (addrs : list Z) (buf_len : nat) : CmdMsgBuffer :=
  {| empty_bufs := map (fun a => {| addr := a; index := 0; allocated_cnt := 0; max_size := buf_len |}) addrs;
     full_bufs := []; tx_bufs := []; waiting_bufs := []; cur_buf := None; num_bufs := length addrs |}.

Definition with_cur (cb : CmdMsgBuffer) (e : list CmdBuf) (cur : option CmdBuf) (f : list CmdBuf) : CmdMsgBuffer :=
  {| empty_bufs := e; full_bufs := f; tx_bufs := tx_bufs cb; waiting_bufs := waiting_bufs cb;
     cur_buf := cur; num_bufs := num_bufs cb |}.

Definition try_push (mem : Mem) (cb : CmdMsgBuffer) (a n h : Z) : res (Mem * CmdMsgBuffer * bool) :=
  let (e, cur) :=
    match cur_buf cb with
    | Some b => (empty_bufs cb, Some b)
    | None => match pop (empty_bufs cb) with Some (e, b) => (e, Some b) | None => (empty_bufs cb, None) end
    end in
  match cur with
  | Some b =>
    let* (mem, b) := push mem b a n h in
    Ok (mem, if full b then with_cur cb e None (full_bufs cb ++ [b]) else with_cur cb e (Some b) (full_bufs cb), true)
  | None => Ok (mem, with_cur cb e None (full_bufs cb), false)
  end.

Definition with_flushed (cb : CmdMsgBuffer) (f : list CmdBuf) (cur : option CmdBuf) (b : CmdBuf) : CmdMsgBuffer :=
  {| empty_bufs := empty_bufs cb; full_bufs := f; tx_bufs := hm_insert b (tx_bufs cb);
     waiting_bufs := waiting_bufs cb; cur_buf := cur; num_bufs := num_bufs cb |}.

(** The command that announces a buffer. *)
Definition announce (mem : Mem) (b : CmdBuf) (c : CmdMsg) : res CmdMsg :=
  let* cs := iter mem b in
  fill c (addr b) (size b) Tx (calc_hash (bytes_of cs)).

Definition flush_buffer (mem : Mem) (cb : CmdMsgBuffer) (c : CmdMsg) : res (CmdMsgBuffer * CmdMsg) :=
  match pop (full_bufs cb) with
  | Some (f, b) => let* c := announce mem b c in Ok (with_flushed cb f (cur_buf cb) b, c)
  | None =>
    match cur_buf cb with
    | Some b => let* c := announce mem b c in Ok (with_flushed cb (full_bufs cb) None b, c)
    | None => Ok (cb, c)
    end
  end.

Definition with_tx (cb : CmdMsgBuffer) (t w : list CmdBuf) : CmdMsgBuffer :=
  {| empty_bufs := empty_bufs cb; full_bufs := full_bufs cb; tx_bufs := t; waiting_bufs := w;
     cur_buf := cur_buf cb; num_bufs := num_bufs cb |}.

Definition check_transfer (mem : Mem) (cb : CmdMsgBuffer) (a : Z) : res (CmdMsgBuffer * bool) :=
  match hm_remove a (tx_bufs cb) with
  | Some (b, t) =>
    let* st := state mem b in
    match st with
    | Tx => Ok (with_tx cb (hm_insert b t) (waiting_bufs cb), false)
    | Release | Free =>
      if 0 <? allocated_cnt b then Ok (with_tx cb t (hm_insert b (waiting_bufs cb)), true) else Err Unreachable
    | Clear | Print | Alloc | Panic => Err Unreachable
    end
  | None => Ok (cb, false)
  end.

(** ** Messages in the sender's memory

    [ShmemData] (src/src/lamellae/shmem/shmem_comm.rs): a reference count and the
    bytes of the header and of the message.  A block is known by the address of
    its bytes, the count is in the word before. *)
Record Block := { ref_cnt : Z; bytes : list Z }.
Abbreviation Blocks := (gmap Z Block).

Definition add_ref (bl : Blocks) (a : Z) : res Blocks :=
  match bl !! a with
  | Some b => Ok (<[a := {| ref_cnt := wadd (ref_cnt b) 1; bytes := bytes b |}]> bl)
  | None => Err BadAccess
  end.
(** [fetch_sub], and [rt_free] by whoever drops the last reference. *)
Definition drop_ref (bl : Blocks) (a : Z) : res Blocks :=
  match bl !! a with
  | Some b =>
    Ok (if ref_cnt b =? 1 then delete a bl
        else <[a := {| ref_cnt := wsub (ref_cnt b) 1; bytes := bytes b |}]> bl)
  | None => Err BadAccess
  end.

(** The addresses of the buffers that are free again. *)
Fixpoint freed_bufs (mem : Mem) (ws : list CmdBuf) : res (list Z) :=
  match ws with
  | [] => Ok []
  | b :: ws =>
    let* st := state mem b in
    match st with
    | Release => freed_bufs mem ws
    | Free => let* l := freed_bufs mem ws in Ok (addr b :: l)
    | Tx | Clear | Print | Alloc | Panic => Err Unreachable
    end
  end.

Fixpoint drop_cmds (bl : Blocks) (cs : list CmdMsg) : res Blocks :=
  match cs with
  | [] => Ok bl
  | c :: cs => let* bl := (if 0 <? dsize c then drop_ref bl (daddr c) else Ok bl) in drop_cmds bl cs
  end.

Definition with_freed (cb : CmdMsgBuffer) (w : list CmdBuf) (b : CmdBuf) : CmdMsgBuffer :=
  {| empty_bufs := empty_bufs cb ++ [reset b]; full_bufs := full_bufs cb; tx_bufs := tx_bufs cb;
     waiting_bufs := w; cur_buf := cur_buf cb; num_bufs := num_bufs cb |}.

Fixpoint free_bufs (mem : Mem) (cb : CmdMsgBuffer) (bl : Blocks) (l : list Z) : res (CmdMsgBuffer * Blocks) :=
  match l with
  | [] => Ok (cb, bl)
  | a :: l =>
    match hm_remove a (waiting_bufs cb) with
    | Some (b, w) =>
      let* cs := iter mem b in
      let* bl := drop_cmds bl cs in
      free_bufs mem (with_freed cb w b) bl l
    | None => free_bufs mem cb bl l
    end
  end.

Definition check_free_data (mem : Mem) (cb : CmdMsgBuffer) (bl : Blocks) : res (CmdMsgBuffer * Blocks) :=
  let* l := freed_bufs mem (waiting_bufs cb) in free_bufs mem cb bl l.

Definition empty (cb : CmdMsgBuffer) : bool := (length (empty_bufs cb) =? num_bufs cb)%nat.

(** ** Puts under way

    A put of a command arrives word by word, in any order; what is written to one
    place arrives in the order it was sent. *)
Inductive Put :=
| WDaddr (x : Z)
| WDsize (x : Z)
| WCmd (c : Cmd) (p : list Z)
| WMsgHash (x : Z)
| WCmdHash (x : Z)
| WByte (a : Z) (c : Cmd).

Inductive Loc := LDaddr | LDsize | LCmd | LMsgHash | LCmdHash | LByte (a : Z).
#[global] Instance Loc_eq_dec : EqDecision Loc.
Proof. solve_decision. Defined.

Definition loc (p : Put) : Loc :=
  match p with
  | WDaddr _ => LDaddr | WDsize _ => LDsize | WCmd _ _ => LCmd
  | WMsgHash _ => LMsgHash | WCmdHash _ => LCmdHash | WByte a _ => LByte a
  end.

(** [put(dst, send_buf[dst].as_bytes(), recv_buffer[my_pe].as_addr())] *)
Definition put_cmd (m : CmdMsg) : list Put :=
  [WDaddr (daddr m); WDsize (dsize m); WCmd (cmd m) (pad m); WMsgHash (msg_hash m); WCmdHash (cmd_hash m)].

Definition arrive (m : CmdMsg) (p : Put) : CmdMsg :=
  {| daddr := match p with WDaddr x => x | _ => daddr m end;
     dsize := match p with WDsize x => x | _ => dsize m end;
     cmd := match p with WCmd c _ => c | _ => cmd m end;
     pad := match p with WCmd _ p => p | _ => pad m end;
     msg_hash := match p with WMsgHash x => x | _ => msg_hash m end;
     cmd_hash := match p with WCmdHash x => x | _ => cmd_hash m end |}.

(** ** Tasks *)

(** A call of [send_data] with a reference to the block at [a]: not started;
    in the loop that pushes; in the loop that sends. *)
Inductive SendTask :=
| SendStart (a : Z)
| SendLoop1 (a n h : Z)
| SendLoop2 (a : Z) (im_waiting : bool).

(** The tasks [recv_data] submits.  [FetchCmd] and [FetchDone] share the counter
    [cmd_cnt] number [id]; [Spin] waits for a hash that its data does not have. *)
Inductive RecvTask :=
| FetchBuf (cmd_buf_cmd : CmdMsg)
| FetchCmd (id : nat) (cmd_buf_cmd c : CmdMsg)
| FetchDone (id : nat) (cmd_buf_cmd : CmdMsg)
| Spin.

Record St := {
  mem : Mem;
  cmd_buffer : CmdMsgBuffer;
  send_buf : CmdMsg;
  recv_buf : CmdMsg;
  send_waiting : bool;
  pending_cmds : Z;
  others : nat;           (* the part of [pending_cmds] of the other destinations *)
  blocks : Blocks;
  handles : list Z;       (* the references the application holds *)
  sends : list SendTask;
  net : list Put;
  recvs : list RecvTask;
  cmd_cnts : list Z;
  sent : list (list Z);      (* the messages given to [send_data] so far *)
  received : list (list Z);  (* the messages submitted to the receiver's scheduler *)
}.

Definition with_queue (s : St) (mm : Mem) (cb : CmdMsgBuffer) (sb : CmdMsg) (sw : bool) (p : Z) (bl : Blocks)
    (ts : list SendTask) (nt : list Put) : St :=
  {| mem := mm; cmd_buffer := cb; send_buf := sb; recv_buf := recv_buf s; send_waiting := sw; pending_cmds := p;
     others := others s; blocks := bl; handles := handles s; sends := ts; net := nt; recvs := recvs s;
     cmd_cnts := cmd_cnts s; sent := sent s; received := received s |}.

(** ** The sender *)

Definition progress_transfers (mm : Mem) (cb : CmdMsgBuffer) (sb : CmdMsg) (bl : Blocks) :
    res (CmdMsgBuffer * CmdMsg * Blocks) :=
  let* (cb, done) := check_transfer mm cb (daddr sb) in
  let* sb := (if done : bool then clear sb else Ok sb) in
  let* (cb, bl) := check_free_data mm cb bl in
  Ok (cb, sb, bl).

(** [clear_cmd], as [InnerCQ::new] fills it. *)
Definition clear_hash : res Z :=
  hash {| daddr := 0; dsize := 0; cmd := Clear; pad := []; msg_hash := 0; cmd_hash := 0 |}.

Definition try_sending_buffer (mm : Mem) (cb : CmdMsgBuffer) (sb : CmdMsg) (pending : Z) :
    res (CmdMsgBuffer * CmdMsg * list Put * bool) :=
  if (pending =? 0) || (0 <? length (full_bufs cb))%nat then
    let* h := hash sb in
    let* h0 := clear_hash in
    if h =? h0 then
      let* (cb, sb) := flush_buffer mm cb sb in
      Ok (cb, sb, if 0 <? dsize sb then put_cmd sb else [], true)
    else Ok (cb, sb, [], false)
  else Ok (cb, sb, [], false).

(** [send_data] up to the first loop of [send]. *)
Definition send_start (s : St) (a : Z) : res (St * list SendTask) :=
  match blocks s !! a with
  | Some b =>
    let* bl := add_ref (blocks s) a in
    Ok (with_queue s (mem s) (cmd_buffer s) (send_buf s) (send_waiting s) (wadd (pending_cmds s) 1) bl (sends s) (net s),
        [SendLoop1 a (Z.of_nat (length (bytes b))) (calc_hash (bytes b))])
  | None => Err BadAccess
  end.

(** A round of the loop of [send] that pushes. *)
Definition send_loop1 (s : St) (a n h : Z) : res (St * list SendTask) :=
  let* (mm, cb, pushed) := try_push (mem s) (cmd_buffer s) a n h in
  if pushed : bool then
    Ok (with_queue s mm cb (send_buf s) (send_waiting s) (wsub (pending_cmds s) 1) (blocks s) (sends s) (net s),
        [SendLoop2 a false])
  else
    let* (cb, sb, bl) := progress_transfers mm cb (send_buf s) (blocks s) in
    let* (cb, sb, ps, _) := try_sending_buffer mm cb sb (pending_cmds s) in
    Ok (with_queue s mm cb sb (send_waiting s) (pending_cmds s) bl (sends s) (net s ++ ps), [SendLoop1 a n h]).

(** The end of [send_data] drops its reference. *)
Definition send_end (s : St) (cb : CmdMsgBuffer) (sb : CmdMsg) (sw : bool) (bl : Blocks) (ps : list Put) (a : Z) :
    res (St * list SendTask) :=
  let* bl := drop_ref bl a in
  Ok (with_queue s (mem s) cb sb sw (pending_cmds s) bl (sends s) (net s ++ ps), []).

(** A round of the loop that sends.  [weak]: the [compare_exchange_weak] fails
    though the flag is clear, as it may. *)
Definition send_loop2 (s : St) (a : Z) (im_waiting weak : bool) : res (St * list SendTask) :=
  if empty (cmd_buffer s) then send_end s (cmd_buffer s) (send_buf s) false (blocks s) [] a
  else
    let* (cb, sb, bl) := progress_transfers (mem s) (cmd_buffer s) (send_buf s) (blocks s) in
    let* (cb, sb, ps, done) := try_sending_buffer (mem s) cb sb (pending_cmds s) in
    if done : bool then send_end s cb sb false bl ps a
    else if im_waiting then
      Ok (with_queue s (mem s) cb sb (send_waiting s) (pending_cmds s) bl (sends s) (net s ++ ps), [SendLoop2 a true])
    else if negb (send_waiting s) && negb weak then
      Ok (with_queue s (mem s) cb sb true (pending_cmds s) bl (sends s) (net s ++ ps), [SendLoop2 a true])
    else send_end s cb sb (send_waiting s) bl ps a.

Definition send_step (s : St) (weak : bool) (t : SendTask) : res (St * list SendTask) :=
  match t with
  | SendStart a => send_start s a
  | SendLoop1 a n h => send_loop1 s a n h
  | SendLoop2 a w => send_loop2 s a w weak
  end.

(** [check_transfers], which the sender's [recv_data] calls in every round. *)
Definition check_transfers (s : St) : res St :=
  let* (cb, sb, bl) := progress_transfers (mem s) (cmd_buffer s) (send_buf s) (blocks s) in
  Ok (with_queue s (mem s) cb sb (send_waiting s) (pending_cmds s) bl (sends s) (net s)).

(** ** The receiver *)

(** What [ready] returns and the slot it leaves. *)
Definition ready (m : CmdMsg) : res (option CmdMsg * CmdMsg) :=
  let* ok := check_hash m in
  if ok : bool then
    match cmd m with
    | Clear => Ok (None, m)
    | Tx | Print | Free | Release =>
      if daddr m =? 0 then Ok (None, m) else let* m' := clear m in Ok (Some m, m')
    | Alloc | Panic => Err Unreachable
    end
  else Ok (None, m).

Definition with_recv (s : St) (rb : CmdMsg) (nt : list Put) (ts : list RecvTask) (cnts : list Z) (rc : list (list Z)) : St :=
  {| mem := mem s; cmd_buffer := cmd_buffer s; send_buf := send_buf s; recv_buf := rb; send_waiting := send_waiting s;
     pending_cmds := pending_cmds s; others := others s; blocks := blocks s; handles := handles s; sends := sends s;
     net := nt; recvs := ts; cmd_cnts := cnts; sent := sent s; received := rc |}.

(** A round of [recv_data]: what it does with the command in the slot. *)
Definition poll (s : St) : res St :=
  let* (c, rb) := ready (recv_buf s) in
  match c with
  | None => Ok (with_recv s rb (net s) (recvs s) (cmd_cnts s) (received s))
  | Some c =>
    match cmd c with
    | Tx => Ok (with_recv s rb (net s) (recvs s ++ [FetchBuf c]) (cmd_cnts s) (received s))
    | Print => Ok (with_recv s rb (net s) (recvs s) (cmd_cnts s) (received s))
    | Alloc | Panic | Clear | Release | Free => Err Unreachable
    end
  end.

Definition send_release (c : CmdMsg) : list Put := [WByte (daddr c) Release].
Definition send_free (c : CmdMsg) : list Put := [WByte (daddr c) Free].

(** [get_cmd_buf] and the loop that submits a task for every command; the local
    copy is freed at the end. *)
Definition fetch_buf (s : St) (c : CmdMsg) : res (St * list RecvTask) :=
  let n := Z.to_nat (dsize c / SIZE_OF_CMD) in
  let* cs := read_cells (mem s) (daddr c) n in
  if calc_hash (bytes_of cs) =? msg_hash c then
    let id := length (cmd_cnts s) in
    if forallb (fun x => negb (dsize x =? 0)) cs then
      Ok (with_recv s (recv_buf s) (net s ++ send_release c) (recvs s) (cmd_cnts s ++ [Z.of_nat n]) (received s),
          map (FetchCmd id c) cs)
    else Err Unreachable
  else Ok (s, [Spin]).

(** [get_cmd] and [submit_work]. *)
Definition fetch_cmd (s : St) (id : nat) (bc c : CmdMsg) : res (St * list RecvTask) :=
  match blocks s !! daddr c with
  | Some b =>
    if decide (dsize c <= Z.of_nat (length (bytes b))) then
      let data := take (Z.to_nat (dsize c)) (bytes b) in
      if calc_hash data =? msg_hash c then
        Ok (with_recv s (recv_buf s) (net s) (recvs s) (cmd_cnts s) (received s ++ [data]), [FetchDone id bc])
      else Ok (s, [Spin])
    else Err BadAccess
  | None => Err BadAccess
  end.

(** The end of the task of a command: the last one frees the buffer. *)
Definition fetch_done (s : St) (id : nat) (bc : CmdMsg) : res (St * list RecvTask) :=
  match cmd_cnts s !! id with
  | Some k =>
    Ok (with_recv s (recv_buf s) (net s ++ if k =? 1 then send_free bc else []) (recvs s)
          (<[id := wsub k 1]> (cmd_cnts s)) (received s), [])
  | None => Err BadAccess
  end.

Definition recv_step (s : St) (t : RecvTask) : res (St * list RecvTask) :=
  match t with
  | FetchBuf c => fetch_buf s c
  | FetchCmd id bc c => fetch_cmd s id bc c
  | FetchDone id bc => fetch_done s id bc
  | Spin => Ok (s, [Spin])
  end.

(** ** The network *)
Definition write_cmd (mm : Mem) (a : Z) (c : Cmd) : res Mem :=
  let* m := read_cell mm a 0 in write_cell mm a 0 (set_cmd m c).

Definition deliver (s : St) (p : Put) (nt : list Put) : res St :=
  match p with
  | WByte a c =>
    let* mm := write_cmd (mem s) a c in
    Ok (with_queue s mm (cmd_buffer s) (send_buf s) (send_waiting s) (pending_cmds s) (blocks s) (sends s) nt)
  | _ => Ok (with_recv s (arrive (recv_buf s) p) nt (recvs s) (cmd_cnts s) (received s))
  end.

(** ** The application *)
Definition with_app (s : St) (p : Z) (o : nat) (bl : Blocks) (hs : list Z) (ts : list SendTask) (sn : list (list Z)) : St :=
  {| mem := mem s; cmd_buffer := cmd_buffer s; send_buf := send_buf s; recv_buf := recv_buf s;
     send_waiting := send_waiting s; pending_cmds := p; others := o; blocks := bl; handles := hs; sends := ts;
     net := net s; recvs := recvs s; cmd_cnts := cmd_cnts s; sent := sn; received := received s |}.

(** ** Steps *)
Inductive Event :=
| ENew (a : Z) (bs : list Z)      (* a message is serialised at [a] *)
| ESend (i : nat)                 (* [send_data] of a clone of handle [i] *)
| EDrop (i : nat)                 (* handle [i] is dropped *)
| EOther (up : bool)              (* another destination changes [pending_cmds] *)
| ESender (i : nat) (weak : bool)
| ECheckTransfers
| EPoll
| EReceiver (i : nat)
| EDeliver (i : nat).

(** What happens in a state; [None]: nothing, the event is not possible. *)
Definition step (s : St) (e : Event) : option (res St) :=
  match e with
  | ENew a bs =>
    if decide (0 < a /\ blocks s !! a = None /\ bs <> []) then
      Some (Ok (with_app s (pending_cmds s) (others s) (<[a := {| ref_cnt := 1; bytes := bs |}]> (blocks s))
                  (a :: handles s) (sends s) (sent s)))
    else None
  | ESend i =>
    a ← handles s !! i;
    Some (let* bl := add_ref (blocks s) a in
          match blocks s !! a with
          | Some b => Ok (with_app s (pending_cmds s) (others s) bl (handles s) (sends s ++ [SendStart a]) (sent s ++ [bytes b]))
          | None => Err BadAccess
          end)
  | EDrop i =>
    a ← handles s !! i;
    Some (let* bl := drop_ref (blocks s) a in
          Ok (with_app s (pending_cmds s) (others s) bl (delete i (handles s)) (sends s) (sent s)))
  | EOther true =>
    Some (Ok (with_app s (wadd (pending_cmds s) 1) (S (others s)) (blocks s) (handles s) (sends s) (sent s)))
  | EOther false =>
    match others s with
    | S o => Some (Ok (with_app s (wsub (pending_cmds s) 1) o (blocks s) (handles s) (sends s) (sent s)))
    | O => None
    end
  | ESender i weak =>
    t ← sends s !! i;
    Some (let* (s', ts) := send_step s weak t in
          Ok (with_app s' (pending_cmds s') (others s') (blocks s') (handles s')
                (take i (sends s) ++ ts ++ drop (S i) (sends s)) (sent s')))
  | ECheckTransfers => Some (check_transfers s)
  | EPoll => Some (poll s)
  | EReceiver i =>
    t ← recvs s !! i;
    Some (let* (s', ts) := recv_step s t in
          Ok (with_recv s' (recv_buf s') (net s') (take i (recvs s) ++ ts ++ drop (S i) (recvs s))
                (cmd_cnts s') (received s')))
  | EDeliver i =>
    p ← net s !! i;
    if decide (loc p ∈ map loc (take i (net s))) then None
    else Some (deliver s p (delete i (net s)))
  end.

(** What [CommandQueue::new] leaves: [addrs] are the command buffers, [buf_len]
    their length ([CMD_BUF_LEN]). *)
Definition fresh (p : list Z) : res CmdMsg :=
  clear {| daddr := 0; dsize := 0; cmd := Clear; pad := p; msg_hash := 0; cmd_hash := 0 |}.

Definition new (addrs : list Z) (buf_len : nat) (cells : list CmdMsg) (p : list Z) : res St :=
  let* sb := fresh p in
  let* rb := fresh p in
  Ok {| mem := list_to_map (map (fun a => (a, cells)) addrs); cmd_buffer := CmdMsgBuffer_new addrs buf_len;
        send_buf := sb; recv_buf := rb; send_waiting := false; pending_cmds := 0; others := 0; blocks := ∅;
        handles := []; sends := []; net := []; recvs := []; cmd_cnts := []; sent := []; received := [] |}.
