(* ===== verification/CmdQueueInv.v ===== *)
(** The invariant of the command queue ([CmdQueue.v]).

    Every command buffer is in one place: empty, filled, current, announced or
    waiting to be freed; every reference to a message is counted in its block; a
    buffer that was announced is followed through the slot, the tasks of the
    receiver and the two bytes that come back.  The lemmas of this file take one
    operation each; [CmdQueueSpec.v] has the runs and the theorems. *)

From stdpp Require Import base list numbers relations gmap sorting.
From Stdlib Require Import ZArith Lia.
From S2P Require Import Prelude CmdQueue.

Local Open Scope Z_scope.

(** ** Lists *)
Section Lists.
Context {A B : Type}.

Lemma pop_None (l : list A) : pop l = None -> l = [].
Proof.
  unfold pop. destruct (rev l) eqn:Hr; [|done]. intros _.
  rewrite <- (rev_involutive l), Hr. done.
Qed.

Lemma pop_Some (l l' : list A) x : pop l = Some (l', x) -> l = l' ++ [x].
Proof.
  unfold pop. destruct (rev l) eqn:Hr; [done|]. intros [= <- <-].
  rewrite <- (rev_involutive l), Hr. done.
Qed.

Lemma omap_delete_None (g : A -> option B) (l : list A) i p :
  l !! i = Some p -> g p = None -> omap g (delete i l) = omap g l.
Proof.
  revert i. induction l as [|x l IH]; intros [|i] Hi Hg; cbn in *; simplify_eq.
  - by rewrite Hg.
  - destruct (g x); [f_equal|]; by apply IH.
Qed.

Lemma omap_delete_Some (g : A -> option B) (l : list A) i p y :
  l !! i = Some p -> g p = Some y -> (forall q, q ∈ take i l -> g q = None) ->
  omap g l = y :: omap g (delete i l).
Proof.
  revert i. induction l as [|x l IH]; intros [|i] Hi Hg H; cbn in *; simplify_eq.
  - by rewrite Hg.
  - rewrite (H x) by (by left). apply (IH i Hi Hg). intros q Hq. apply H. by right.
Qed.

Lemma omap_nil_elem (g : A -> option B) (l : list A) p : omap g l = [] -> p ∈ l -> g p = None.
Proof.
  intros H Hp. induction Hp as [x l|x y l Hx IH]; cbn in H; destruct (g _) eqn:Hg; try done.
  by apply IH.
Qed.

Lemma filter_replace (P : A -> Prop) `{!forall x, Decision (P x)} (l : list A) i x ys :
  l !! i = Some x ->
  filter P (take i l ++ ys ++ drop (S i) l) ≡ₚ filter P ys ++ filter P (delete i l).
Proof.
  intros Hi. rewrite delete_take_drop, !filter_app. apply Permutation_app_swap_app.
Qed.

Lemma replace_perm (l : list A) i x ys :
  l !! i = Some x -> take i l ++ ys ++ drop (S i) l ≡ₚ ys ++ delete i l.
Proof. intros Hi. rewrite delete_take_drop. apply Permutation_app_swap_app. Qed.

Lemma lookup_delete_perm (l : list A) i x : l !! i = Some x -> l ≡ₚ x :: delete i l.
Proof. apply delete_Permutation. Qed.

Lemma elem_of_replace (l : list A) i ys y :
  y ∈ take i l ++ ys ++ drop (S i) l -> y ∈ ys \/ y ∈ l.
Proof.
  rewrite !elem_of_app. intros [H|[H|H]].
  - right. rewrite <- (take_drop i l), elem_of_app. by left.
  - by left.
  - right. rewrite <- (take_drop (S i) l), elem_of_app. by right.
Qed.
End Lists.

Definition zocc (a : Z) (l : list Z) : Z := zcount (Z.eqb a) l.

#[global] Instance zocc_perm a : Proper (Permutation ==> eq) (zocc a).
Proof. intros l l' H. unfold zocc, zcount. by rewrite H. Qed.

Lemma zocc_cons a x l : zocc a (x :: l) = Z.b2z (a =? x) + zocc a l.
Proof. reflexivity. Qed.
Lemma zocc_pos a l : a ∈ l -> 0 < zocc a l.
Proof.
  intros [i Hi]%list_elem_of_lookup. apply (zcount_pos _ l i a Hi). apply Z.eqb_refl.
Qed.
Lemma zocc_0 a l : zocc a l <= 0 -> a ∉ l.
Proof. intros H Ha%zocc_pos. lia. Qed.
Lemma zocc_elem a l : 0 < zocc a l -> a ∈ l.
Proof.
  induction l as [|x l IH]; [done|]. rewrite zocc_cons. destruct (Z.eqb_spec a x) as [->|]; [by left|].
  cbn. intros H. right. apply IH. lia.
Qed.
Lemma zocc_nonneg a l : 0 <= zocc a l.
Proof. apply zcount_bounds. Qed.
Lemma zocc_le a l : zocc a l <= Z.of_nat (length l).
Proof. apply zcount_bounds. Qed.

(** ** Buffers as hash maps *)
Lemma hm_remove_None a l : hm_remove a l = None -> a ∉ map addr l.
Proof.
  induction l as [|b l IH]; cbn; [intros _ ?%elem_of_nil; done|].
  destruct (Z.eqb_spec (addr b) a) as [|Hne]; [done|].
  destruct (hm_remove a l) as [[b' l']|]; [done|]. intros _ [->|Hin]%elem_of_cons; [done|].
  by apply IH.
Qed.

Lemma hm_remove_Some a l b l' : hm_remove a l = Some (b, l') -> addr b = a /\ l ≡ₚ b :: l'.
Proof.
  revert l'. induction l as [|c l IH]; intros l'; cbn; [done|].
  destruct (Z.eqb_spec (addr c) a) as [Hc|Hne]; [by intros [= <- <-]|].
  destruct (hm_remove a l) as [[b' l2]|]; [|done]. intros [= <- <-].
  destruct (IH l2 eq_refl) as [Hb Hl]. split; [done|]. rewrite Hl. apply perm_swap.
Qed.

Lemma hm_insert_new b l : addr b ∉ map addr l -> hm_insert b l = b :: l.
Proof.
  intros H. unfold hm_insert. f_equal. induction l as [|c l IH]; [done|].
  cbn in H. rewrite elem_of_cons in H. rewrite filter_cons_True; [|intros Hc; apply H; by left].
  f_equal. apply IH. intros Hin. apply H. by right.
Qed.

(** ** References to blocks *)
Definition data_of (bl : Blocks) (a : Z) : option (list Z) := bytes <$> bl !! a.

(** [r]: the references there are, one entry each. *)
Definition blocks_ok (bl : Blocks) (r : list Z) : Prop :=
  (forall a b, bl !! a = Some b -> ref_cnt b = zocc a r /\ a ∈ r /\ bytes b <> [] /\ 0 < a) /\
  (forall a, a ∈ r -> is_Some (bl !! a)).

#[global] Instance blocks_ok_perm bl : Proper (Permutation ==> iff) (blocks_ok bl).
Proof.
  assert (forall r r', r ≡ₚ r' -> blocks_ok bl r -> blocks_ok bl r') as H.
  { intros r r' Hr [H1 H2]. split.
    - intros a b Hb. rewrite <- Hr. by apply H1.
    - intros a. rewrite <- Hr. apply H2. }
  intros r r' Hr. split; apply H; by rewrite Hr.
Qed.

Lemma add_ref_ok bl r a :
  blocks_ok bl r -> a ∈ r -> 1 + Z.of_nat (length r) < USIZE ->
  exists bl', add_ref bl a = Ok bl' /\ blocks_ok bl' (a :: r) /\ forall a', data_of bl' a' = data_of bl a'.
Proof.
  intros [H1 H2] Ha Hl. destruct (H2 a Ha) as [b Hb]. unfold add_ref. rewrite Hb.
  destruct (H1 a b Hb) as (Hc & _ & Hne & Hpos). pose proof (zocc_le a r). pose proof (zocc_pos a r Ha).
  eexists. split; [reflexivity|]. split; [split|].
  - intros a' b'. rewrite zocc_cons, elem_of_cons. destruct (decide (a' = a)) as [->|Hna].
    + rewrite lookup_insert_eq. intros [= <-]. cbn. rewrite Z.eqb_refl, wadd_ok by lia. cbn. auto with lia.
    + rewrite lookup_insert_ne by done. intros Hb'. destruct (H1 a' b' Hb') as (? & ? & ? & ?).
      rewrite (proj2 (Z.eqb_neq a' a)) by done. cbn. auto.
  - intros a' Ha'. destruct (decide (a' = a)) as [->|Hna]; [rewrite lookup_insert_eq; by eexists|].
    rewrite lookup_insert_ne by done. apply H2. by apply elem_of_cons in Ha' as [->|].
  - intros a'. unfold data_of. destruct (decide (a' = a)) as [->|Hna].
    + by rewrite lookup_insert_eq, Hb.
    + by rewrite lookup_insert_ne.
Qed.

Lemma drop_ref_ok bl r a :
  blocks_ok bl (a :: r) -> Z.of_nat (length (a :: r)) < USIZE ->
  exists bl', drop_ref bl a = Ok bl' /\ blocks_ok bl' r /\ forall a', a' ∈ r -> data_of bl' a' = data_of bl a'.
Proof.
  intros [H1 H2] Hl. destruct (H2 a ltac:(by left)) as [b Hb]. unfold drop_ref. rewrite Hb.
  destruct (H1 a b Hb) as (Hc & _ & Hne & Hpos). rewrite zocc_cons, Z.eqb_refl in Hc. cbn in Hc.
  pose proof (zocc_le a r). cbn in Hl. pose proof (zocc_nonneg a r).
  eexists. split; [reflexivity|].
  assert (forall a' b', a' <> a -> bl !! a' = Some b' ->
    ref_cnt b' = zocc a' r /\ a' ∈ r /\ bytes b' <> [] /\ 0 < a') as Hoth.
  { intros a' b' Hna Hb'. destruct (H1 a' b' Hb') as (Hc' & Hin & ? & ?).
    rewrite zocc_cons, (proj2 (Z.eqb_neq a' a)) in Hc' by done. cbn in Hc'.
    apply elem_of_cons in Hin as [->|Hin]; [done|]. auto. }
  destruct (Z.eqb_spec (ref_cnt b) 1) as [Hc1|Hc1].
  - assert (a ∉ r) as Hnin by (apply zocc_0; lia). split; [split|].
    + intros a' b' [Hna Hb']%lookup_delete_Some. by apply Hoth.
    + intros a' Ha'. rewrite lookup_delete_ne; [|by intros ->]. apply H2. by right.
    + intros a' Ha'. unfold data_of. by rewrite lookup_delete_ne by (by intros ->).
  - split; [split|].
    + intros a' b'. destruct (decide (a' = a)) as [->|Hna].
      * rewrite lookup_insert_eq. intros [= <-]. cbn. rewrite wsub_ok by lia.
        repeat split; [lia| |done..]. apply zocc_elem. lia.
      * rewrite lookup_insert_ne by done. by apply Hoth.
    + intros a' Ha'. destruct (decide (a' = a)) as [->|Hna]; [rewrite lookup_insert_eq; by eexists|].
      rewrite lookup_insert_ne by done. apply H2. by right.
    + intros a' Ha'. unfold data_of. destruct (decide (a' = a)) as [->|Hna].
      * by rewrite lookup_insert_eq, Hb.
      * by rewrite lookup_insert_ne.
Qed.

(** A message as a command names it: address, size and hash. *)
Definition Core : Type := Z * Z * Z.
Definition core (c : CmdMsg) : Core := (daddr c, dsize c, msg_hash c).
Definition core_addr (x : Core) : Z := x.1.1.
Definition good (bl : Blocks) (x : Core) : Prop :=
  exists bs, data_of bl (core_addr x) = Some bs /\ x = (core_addr x, Z.of_nat (length bs), calc_hash bs).

Lemma good_mono bl bl' x : data_of bl' (core_addr x) = data_of bl (core_addr x) -> good bl x -> good bl' x.
Proof. intros H (bs & Hb & Hx). exists bs. by rewrite H. Qed.

Lemma good_pos bl r x : blocks_ok bl r -> good bl x -> 0 < core_addr x /\ 0 < x.1.2.
Proof.
  intros [H1 _] (bs & Hb & ->). unfold data_of in Hb. apply fmap_Some in Hb as (b & Hb & ->).
  destruct (H1 _ b Hb) as (_ & _ & Hne & Hpos). cbn. split; [done|]. destruct (bytes b); [done|]. cbn. lia.
Qed.

(** The commands of a freed buffer give back their references. *)
Lemma drop_cmds_ok cs bl r :
  blocks_ok bl (map daddr cs ++ r) -> Z.of_nat (length (map daddr cs ++ r)) < USIZE ->
  Forall (fun c => 0 < dsize c) cs ->
  exists bl', drop_cmds bl cs = Ok bl' /\ blocks_ok bl' r /\ forall a', a' ∈ r -> data_of bl' a' = data_of bl a'.
Proof.
  revert bl. induction cs as [|c cs IH]; intros bl Hb Hl Hf; [by exists bl|].
  apply Forall_cons in Hf as [Hc Hf]. cbn [drop_cmds].
  destruct (drop_ref_ok bl (map daddr cs ++ r) (daddr c) Hb Hl) as (bl1 & -> & Hb1 & Hd1).
  rewrite (proj2 (Z.ltb_lt 0 (dsize c)) Hc).
  destruct (IH bl1 Hb1) as (bl2 & -> & Hb2 & Hd2); [cbn in Hl; lia|done|].
  exists bl2. split_and!; [done..|]. intros a' Ha'. rewrite Hd2 by done. apply Hd1.
  apply elem_of_app. by right.
Qed.

(** ** Hashes *)
Lemma cadd_spec a b : cadd a b = if a + b <? USIZE then Ok (a + b) else Err Overflow.
Proof. reflexivity. Qed.

Lemma cadd_err a b w : cadd a b = Err w -> w = Overflow.
Proof. unfold cadd. destruct (_ <? _); congruence. Qed.

Lemma hash_err m w : hash m = Err w -> w = Overflow.
Proof.
  unfold hash. destruct (cadd (daddr m) _) eqn:E1; [|intros [= <-]; by apply cadd_err in E1].
  destruct (cadd a _) eqn:E2; [|intros [= <-]; by apply cadd_err in E2].
  destruct (cadd a0 _) eqn:E3; [done|intros [= <-]; by apply cadd_err in E3].
Qed.

(** The sum of the fields, when nothing overflows. *)
Definition fsum (m : CmdMsg) : Z := daddr m + dsize m + discriminant (cmd m) + msg_hash m.

Definition nonneg (m : CmdMsg) : Prop := 0 <= daddr m /\ 0 <= dsize m /\ 0 <= msg_hash m.

Lemma discriminant_bounds c : 1 <= discriminant c <= 7.
Proof. destruct c; cbn; lia. Qed.

Lemma hash_ok m : nonneg m -> fsum m < USIZE -> hash m = Ok (fsum m).
Proof.
  unfold fsum, hash, cadd. intros (Ha & Hs & Hm) Hlt. pose proof (discriminant_bounds (cmd m)).
  zbool. reflexivity.
Qed.

Lemma hash_inv m h : nonneg m -> hash m = Ok h -> h = fsum m /\ fsum m < USIZE.
Proof.
  intros Hn Hh. destruct (Z.ltb_spec (fsum m) USIZE) as [Hlt|Hge].
  - rewrite hash_ok in Hh by done. by injection Hh as <-.
  - exfalso. revert Hh. unfold fsum, hash, cadd in *. zbool; congruence.
Qed.

Lemma fill_err m a n c h w : fill m a n c h = Err w -> w = Overflow.
Proof.
  unfold fill, calc_cmd_hash. destruct (hash _) eqn:Hh; [done|]. intros [= <-]. by apply hash_err in Hh.
Qed.

(** What [calc_hash] stores: a command whose hash is the sum of its fields. *)
Definition sealed (m : CmdMsg) : Prop := nonneg m /\ cmd_hash m = fsum m /\ fsum m < USIZE.

Lemma fill_ok m a n c h m' :
  fill m a n c h = Ok m' -> 0 <= a -> 0 <= n -> 0 <= h ->
  sealed m' /\ daddr m' = a /\ dsize m' = n /\ cmd m' = c /\ msg_hash m' = h /\ pad m' = pad m.
Proof.
  unfold fill, calc_cmd_hash. destruct (hash _) as [x|] eqn:Hh; [|done]. intros [= <-] Ha Hn Hm.
  apply hash_inv in Hh as [-> Hlt]; [|done]. by repeat split.
Qed.

Lemma sealed_check m : sealed m -> check_hash m = Ok true.
Proof.
  intros (Hn & Hh & Hlt). unfold check_hash. rewrite hash_ok, Hh, Z.eqb_refl by done. cbn.
  pose proof (discriminant_bounds (cmd m)). destruct Hn as (? & ? & ?). unfold fsum. zbool. reflexivity.
Qed.

Definition is_clear (m : CmdMsg) : Prop :=
  daddr m = 0 /\ dsize m = 0 /\ cmd m = Clear /\ msg_hash m = 0 /\ cmd_hash m = 1.

Lemma clear_ok m : exists m', clear m = Ok m' /\ is_clear m'.
Proof. eexists. split; [reflexivity|]. by repeat split. Qed.

Lemma clear_hash_eq : clear_hash = Ok 1.
Proof. reflexivity. Qed.

Lemma is_clear_hash m : is_clear m -> hash m = Ok 1.
Proof. intros (Ha & Hs & Hc & Hm & _). unfold hash. by rewrite Ha, Hs, Hc, Hm. Qed.

Lemma sealed_hash m : sealed m -> cmd m = Tx -> exists h, hash m = Ok h /\ h <> 1.
Proof.
  intros (Hn & _ & Hlt) Hc. exists (fsum m). split; [by apply hash_ok|]. unfold fsum. rewrite Hc.
  destruct Hn as (? & ? & ?). cbn. lia.
Qed.

Lemma calc_hash_range bs : 0 <= calc_hash bs < USIZE.
Proof. by apply Z.mod_pos_bound. Qed.

(** ** The slot of the receiver and the words under way to it *)
Definition to_daddr (p : Put) : option Z := match p with WDaddr x => Some x | _ => None end.
Definition to_dsize (p : Put) : option Z := match p with WDsize x => Some x | _ => None end.
Definition to_cmd (p : Put) : option Cmd := match p with WCmd c _ => Some c | _ => None end.
Definition to_msg_hash (p : Put) : option Z := match p with WMsgHash x => Some x | _ => None end.
Definition to_cmd_hash (p : Put) : option Z := match p with WCmdHash x => Some x | _ => None end.

(** A field of the slot has its old value and the new one is to come, or has
    the new one. *)
Definition steps2 {A} (old new : A) (l : list A) : Prop := l = [old; new] \/ l = [new].

(** No command: the hash of the last message may still be under way if it is 0. *)
Record quiet (rb : CmdMsg) (nt : list Put) : Prop := {
  q_daddr : daddr rb :: omap to_daddr nt = [0];
  q_dsize : dsize rb :: omap to_dsize nt = [0];
  q_cmd : cmd rb :: omap to_cmd nt = [Clear];
  q_msg_hash : Forall (eq 0) (msg_hash rb :: omap to_msg_hash nt);
  q_cmd_hash : cmd_hash rb :: omap to_cmd_hash nt = [1];
}.

(** The command [c] is arriving. *)
Record carrying (c rb : CmdMsg) (nt : list Put) : Prop := {
  c_daddr : steps2 0 (daddr c) (daddr rb :: omap to_daddr nt);
  c_dsize : steps2 0 (dsize c) (dsize rb :: omap to_dsize nt);
  c_cmd : steps2 Clear (cmd c) (cmd rb :: omap to_cmd nt);
  c_msg_hash : exists z, msg_hash rb :: omap to_msg_hash nt = z ++ [msg_hash c] /\ Forall (eq 0) z;
  c_cmd_hash : steps2 1 (cmd_hash c) (cmd_hash rb :: omap to_cmd_hash nt);
}.

(** What a delivery does to a field: the head of its trace is overwritten. *)
Lemma trace_deliver {A} (g : Put -> option A) (L : Loc) nt i p :
  (forall q, is_Some (g q) -> loc q = L) -> (forall q, loc q = L -> is_Some (g q)) ->
  nt !! i = Some p -> loc p ∉ map loc (take i nt) ->
  match g p with
  | Some y => omap g nt = y :: omap g (delete i nt)
  | None => omap g (delete i nt) = omap g nt
  end.
Proof.
  intros H1 H2 Hi He. destruct (g p) as [y|] eqn:Hp; [|by eapply omap_delete_None].
  eapply omap_delete_Some; [done..|]. intros q Hq. destruct (g q) eqn:Hgq; [|done].
  exfalso. apply He. rewrite (H1 p) by by eexists. rewrite <- (H1 q) by by eexists.
  apply list_elem_of_fmap_2, Hq.
Qed.

Ltac traces Hi He :=
  pose proof (trace_deliver to_daddr LDaddr _ _ _ ltac:(intros [] [? [=]]; done) ltac:(intros [] [=]; by eexists) Hi He);
  pose proof (trace_deliver to_dsize LDsize _ _ _ ltac:(intros [] [? [=]]; done) ltac:(intros [] [=]; by eexists) Hi He);
  pose proof (trace_deliver to_cmd LCmd _ _ _ ltac:(intros [] [? [=]]; done) ltac:(intros [] [=]; by eexists) Hi He);
  pose proof (trace_deliver to_msg_hash LMsgHash _ _ _ ltac:(intros [] [? [=]]; done) ltac:(intros [] [=]; by eexists) Hi He);
  pose proof (trace_deliver to_cmd_hash LCmdHash _ _ _ ltac:(intros [] [? [=]]; done) ltac:(intros [] [=]; by eexists) Hi He).

(** The slot after a delivery. *)
Definition after (rb : CmdMsg) (p : Put) : CmdMsg := match p with WByte _ _ => rb | _ => arrive rb p end.

Lemma steps2_tail {A} (o n x y : A) l : steps2 o n (x :: y :: l) -> steps2 o n (y :: l).
Proof. intros [[= -> -> ->]|[=]]. by right. Qed.

Lemma zeros_tail (m x y : Z) l :
  (exists z, x :: y :: l = z ++ [m] /\ Forall (eq 0) z) -> exists z, y :: l = z ++ [m] /\ Forall (eq 0) z.
Proof.
  intros (z & Hz & Hf). destruct z as [|v z]; [done|]. injection Hz as <- Hz. apply Forall_cons in Hf as [_ Hf].
  by exists z.
Qed.

Lemma quiet_deliver rb nt i p :
  quiet rb nt -> nt !! i = Some p -> loc p ∉ map loc (take i nt) -> quiet (after rb p) (delete i nt).
Proof.
  intros [Hd Hs Hc Hm Hh] Hi He. traces Hi He.
  destruct p; cbn in *; repeat match goal with H : omap _ (delete _ _) = _ |- _ => rewrite <- H in *; clear H end.
  all: split; cbn; try done; try congruence.
  rewrite H2 in Hm. by apply Forall_cons in Hm as [_ Hm].
Qed.

Lemma carrying_deliver c rb nt i p :
  carrying c rb nt -> nt !! i = Some p -> loc p ∉ map loc (take i nt) -> carrying c (after rb p) (delete i nt).
Proof.
  intros [Hd Hs Hc Hm Hh] Hi He. traces Hi He.
  destruct p; cbn in *; repeat match goal with H : omap _ (delete _ _) = _ |- _ => rewrite <- H in *; clear H end.
  all: repeat match goal with
    | H : omap _ _ = _ :: _, H' : steps2 _ _ _ |- _ => rewrite H in H'; apply steps2_tail in H'
    | H : omap _ _ = _ :: _, H' : exists z, _ /\ _ |- _ => rewrite H in H'; apply zeros_tail in H'
    end.
  all: by split.
Qed.

Lemma steps2_head {A} (o n x : A) l : steps2 o n (x :: l) -> (x = o /\ l = [n]) \/ (x = n /\ l = []).
Proof. intros [[= -> ->]|[= -> ->]]; auto. Qed.

Lemma zeros_head (m x : Z) l :
  (exists z, x :: l = z ++ [m] /\ Forall (eq 0) z) ->
  (x = 0 /\ exists z, l = z ++ [m] /\ Forall (eq 0) z) \/ (x = m /\ l = []).
Proof.
  intros (z & Hz & Hf). destruct z as [|v z]; [injection Hz as -> ->; by right|].
  injection Hz as -> ->. apply Forall_cons in Hf as [<- Hf]. left. split; [done|]. by exists z.
Qed.

Lemma ready_quiet rb nt : quiet rb nt -> ready rb = Ok (None, rb).
Proof.
  intros [[= Hd _] [= Hs _] [= Hc _] Hm [= Hh _]]. apply Forall_cons in Hm as [Hm _].
  unfold ready, check_hash. rewrite is_clear_hash by by repeat split.
  rewrite Hh, Hc. reflexivity.
Qed.

(** The slot passes the hash check only when it is clear or when the whole
    command has arrived. *)
Lemma ready_carrying c rb nt :
  carrying c rb nt -> sealed c -> cmd c = Tx -> 0 < daddr c -> 0 < dsize c ->
  ready rb = Ok (None, rb) \/
  exists rb', ready rb = Ok (Some rb, rb') /\ core rb = core c /\ cmd rb = Tx /\ cmd_hash rb = cmd_hash c /\ quiet rb' nt.
Proof.
  intros [Hd Hs Hc Hm Hh] ((_ & _ & Hm0) & Hsum & Hlt) Htx Hpa Hps. unfold fsum in *. rewrite Htx in *. cbn in Hsum, Hlt.
  apply steps2_head in Hd, Hs, Hc, Hh. apply zeros_head in Hm.
  assert (nonneg rb) as Hn.
  { unfold nonneg. destruct Hd as [[-> _]|[-> _]], Hs as [[-> _]|[-> _]], Hm as [[-> _]|[-> _]]; lia. }
  assert (fsum rb <= fsum c /\ fsum rb < USIZE) as [Hle Hrb].
  { unfold fsum. rewrite Htx. destruct Hd as [[-> _]|[-> _]], Hs as [[-> _]|[-> _]], Hm as [[-> _]|[-> _]],
      Hc as [[-> _]|[-> _]]; cbn; lia. }
  unfold ready, check_hash. rewrite hash_ok by done. cbn beta iota.
  destruct ((cmd_hash rb =? fsum rb) && negb (cmd_hash rb =? 0)) eqn:Hchk; [|by left].
  apply andb_prop in Hchk as [Hchk%Z.eqb_eq _]. unfold fsum in Hchk.
  destruct Hc as [[Hc Lc]|[Hc Lc]]; rewrite Hc in *; cbn in Hchk; [by left|]. right.
  assert (cmd_hash rb = cmd_hash c /\ omap to_cmd_hash nt = [] /\ daddr rb = daddr c /\ omap to_daddr nt = [] /\
    dsize rb = dsize c /\ omap to_dsize nt = [] /\ msg_hash rb = msg_hash c /\ Forall (eq 0) (omap to_msg_hash nt))
    as (E1 & L1 & E2 & L2 & E3 & L3 & E4 & L4).
  { destruct Hd as [[Hd Ld]|[Hd Ld]], Hs as [[Hs Ls]|[Hs Ls]], Hm as [[Hm Lm]|[Hm Lm]],
      Hh as [[Hh Lh]|[Hh Lh]]; rewrite Hd, Hs, Hm, Hh in *; try (exfalso; lia).
    - assert (msg_hash c = 0) as Hz0 by lia. rewrite Hz0 in *. destruct Lm as (z & -> & Hz). split_and!; try done.
      apply Forall_app. split; [done|]. by constructor.
    - rewrite Lm. by split_and!. }
  rewrite E2, (proj2 (Z.eqb_neq _ _)) by lia. destruct (clear_ok rb) as (m & -> & (Ma & Ms & Mc & Mm & Mh)).
  exists m. unfold core. rewrite E2, E3, E4. split_and!; try done.
  split; [by rewrite Ma, L2|by rewrite Ms, L3|by rewrite Mc, Lc| |by rewrite Mh, L1].
  by constructor.
Qed.

(** A put of a command into an empty pipe. *)
Lemma put_carrying rb nt c : quiet rb nt -> carrying c rb (nt ++ put_cmd c).
Proof.
  intros [Hd Hs Hc Hm Hh]. split; rewrite omap_app, app_comm_cons.
  - rewrite Hd. by left.
  - rewrite Hs. by left.
  - rewrite Hc. by left.
  - by exists (msg_hash rb :: omap to_msg_hash nt).
  - rewrite Hh. by left.
Qed.

(** The bytes that come back do not touch the slot. *)
Lemma quiet_app rb nt a c : quiet rb nt -> quiet rb (nt ++ [WByte a c]).
Proof. intros [Hd Hs Hc Hm Hh]. split; rewrite omap_app; cbn; by rewrite app_nil_r. Qed.

(** ** Memory and buffers *)
Definition cells_at (mm : Mem) (a : Z) : list CmdMsg := default [] (mm !! a).
Definition head_cmd (mm : Mem) (a : Z) : Cmd := match cells_at mm a with c :: _ => cmd c | [] => Clear end.

(** The commands of a buffer. *)
Definition entries (mm : Mem) (b : CmdBuf) : list Core := map core (take (index b) (cells_at mm (addr b))).

Definition all_bufs (cb : CmdMsgBuffer) : list CmdBuf :=
  empty_bufs cb ++ full_bufs cb ++ option_list (cur_buf cb) ++ tx_bufs cb ++ waiting_bufs cb.
Definition queued (mm : Mem) (cb : CmdMsgBuffer) : list Core := flat_map (entries mm) (all_bufs cb).

Section Inv.
Context (buf_len : nat) (addrs : list Z).

Definition mem_ok (mm : Mem) : Prop :=
  forall a, a ∈ addrs -> exists cells, mm !! a = Some cells /\ length cells = buf_len.

Record buf_wf (b : CmdBuf) : Prop := {
  bw_addr : addr b ∈ addrs;
  bw_max : max_size b = buf_len;
  bw_index : (index b <= buf_len)%nat;
  bw_cnt : allocated_cnt b = Z.of_nat (index b);
}.

(** Every buffer is in one place. *)
Record bufs_ok (cb : CmdMsgBuffer) : Prop := {
  bo_addrs : map addr (all_bufs cb) ≡ₚ addrs;
  bo_num : num_bufs cb = length addrs;
  bo_wf : Forall buf_wf (all_bufs cb);
  bo_cur : forall b, cur_buf cb = Some b -> (index b < buf_len)%nat;
}.

Lemma mem_ok_cells mm a : mem_ok mm -> a ∈ addrs -> mm !! a = Some (cells_at mm a) /\ length (cells_at mm a) = buf_len.
Proof. intros H Ha. destruct (H a Ha) as (cells & Hc & Hl). unfold cells_at. by rewrite Hc. Qed.

Lemma read_cell_ok mm a i :
  mem_ok mm -> a ∈ addrs -> (i < buf_len)%nat -> exists c, cells_at mm a !! i = Some c /\ read_cell mm a i = Ok c.
Proof.
  intros Hm Ha Hi. destruct (mem_ok_cells mm a Hm Ha) as [Hc Hl]. unfold read_cell. rewrite Hc. cbn.
  destruct (lookup_lt_is_Some_2 (cells_at mm a) i) as [c Hci]; [lia|]. exists c. by rewrite Hci.
Qed.

Lemma write_cell_ok mm a i c :
  mem_ok mm -> a ∈ addrs -> (i < buf_len)%nat ->
  write_cell mm a i c = Ok (<[a := <[i := c]> (cells_at mm a)]> mm).
Proof.
  intros Hm Ha Hi. destruct (mem_ok_cells mm a Hm Ha) as [Hc Hl]. unfold write_cell. rewrite Hc.
  by rewrite decide_True by lia.
Qed.

Lemma mem_ok_insert mm a cells :
  mem_ok mm -> length cells = buf_len -> mem_ok (<[a := cells]> mm).
Proof.
  intros Hm Hl a' Ha'. destruct (decide (a' = a)) as [->|Hne].
  - exists cells. by rewrite lookup_insert_eq.
  - rewrite lookup_insert_ne by done. by apply Hm.
Qed.

Lemma read_cells_ok mm a n :
  mem_ok mm -> a ∈ addrs -> (n <= buf_len)%nat -> read_cells mm a n = Ok (take n (cells_at mm a)).
Proof.
  intros Hm Ha Hn. destruct (mem_ok_cells mm a Hm Ha) as [Hc Hl]. unfold read_cells. rewrite Hc.
  by rewrite decide_True by lia.
Qed.

Lemma cells_at_insert mm a cells : cells_at (<[a := cells]> mm) a = cells.
Proof. unfold cells_at. by rewrite lookup_insert_eq. Qed.
Lemma cells_at_insert_ne mm a a' cells : a' <> a -> cells_at (<[a := cells]> mm) a' = cells_at mm a'.
Proof. intros H. unfold cells_at. by rewrite lookup_insert_ne. Qed.

(** The pieces of memory a buffer has to do with: its commands, the bytes on
    their way to it, the tasks that work for it. *)
Definition task_buf (t : RecvTask) : option Z :=
  match t with
  | FetchBuf c => Some (daddr c)
  | FetchCmd _ bc _ | FetchDone _ bc => Some (daddr bc)
  | Spin => None
  end.
Definition task_id (t : RecvTask) : option nat :=
  match t with FetchCmd id _ _ | FetchDone id _ => Some id | _ => None end.
Definition byte_to (a : Z) (p : Put) : option Cmd :=
  match p with WByte a' c => if decide (a' = a) then Some c else None | _ => None end.

Definition tasks_of (rs : list RecvTask) (a : Z) : list RecvTask := filter (fun t => task_buf t = Some a) rs.
Definition bytes_to (nt : list Put) (a : Z) : list Cmd := omap (byte_to a) nt.

(** The first [cmd] byte of a buffer: its value and the values to come. *)
Definition tr (mm : Mem) (nt : list Put) (a : Z) : list Cmd := head_cmd mm a :: bytes_to nt a.

(** *** The stages of a buffer *)
Definition blank (nt : list Put) (rs : list RecvTask) (b : CmdBuf) : Prop :=
  index b = 0%nat /\ tasks_of rs (addr b) = [] /\ bytes_to nt (addr b) = [].

Definition idle (mm : Mem) (nt : list Put) (rs : list RecvTask) (b : CmdBuf) : Prop :=
  (0 < index b)%nat /\ tasks_of rs (addr b) = [] /\ tr mm nt (addr b) = [Tx].

Definition announces (mm : Mem) (b : CmdBuf) (c : CmdMsg) : Prop :=
  daddr c = addr b /\ dsize c = size b /\ cmd c = Tx /\
  msg_hash c = calc_hash (bytes_of (take (index b) (cells_at mm (addr b)))).

Definition taken (mm : Mem) (nt : list Put) (rs : list RecvTask) (b : CmdBuf) : Prop :=
  exists c, tasks_of rs (addr b) = [FetchBuf c] /\ tr mm nt (addr b) = [Tx] /\ announces mm b c.

Definition item (id : nat) (mm : Mem) (b : CmdBuf) (t : RecvTask) : Prop :=
  match t with
  | FetchCmd i _ c => i = id /\ core c ∈ entries mm b
  | FetchDone i _ => i = id
  | _ => False
  end.

Definition opened (mm : Mem) (nt : list Put) (rs : list RecvTask) (cnts : list Z) (b : CmdBuf) : Prop :=
  tasks_of rs (addr b) <> [] /\
  (exists id, cnts !! id = Some (Z.of_nat (length (tasks_of rs (addr b)))) /\ Forall (item id mm b) (tasks_of rs (addr b))) /\
  (length (tasks_of rs (addr b)) <= buf_len)%nat /\
  (tr mm nt (addr b) = [Tx; Release] \/ tr mm nt (addr b) = [Release]).

Definition closed (mm : Mem) (nt : list Put) (rs : list RecvTask) (b : CmdBuf) : Prop :=
  tasks_of rs (addr b) = [] /\
  (tr mm nt (addr b) = [Tx; Release; Free] \/ tr mm nt (addr b) = [Release; Free] \/ tr mm nt (addr b) = [Free]).

Definition fetched (mm : Mem) (nt : list Put) (rs : list RecvTask) (cnts : list Z) (b : CmdBuf) : Prop :=
  (0 < index b)%nat /\ (opened mm nt rs cnts b \/ closed mm nt rs b).

(** The slot of the sender holds the command that announced [b]. *)
Definition holds (sb : CmdMsg) (b : CmdBuf) : Prop :=
  sealed sb /\ cmd sb = Tx /\ daddr sb = addr b /\ dsize sb = size b.

(** What the two slots say of the announced buffers. *)
Definition slots (mm : Mem) (sb rb : CmdMsg) (nt : list Put) (rs : list RecvTask) (cnts : list Z) (tx : list CmdBuf) : Prop :=
  match tx with
  | [] => is_clear sb /\ quiet rb nt
  | [b] =>
    holds sb b /\
    ((idle mm nt rs b /\ announces mm b sb /\ carrying sb rb nt) \/
     ((0 < index b)%nat /\ taken mm nt rs b /\ quiet rb nt) \/
     (fetched mm nt rs cnts b /\ quiet rb nt))
  | _ => False
  end.

Record protocol (mm : Mem) (cb : CmdMsgBuffer) (sb rb : CmdMsg) (nt : list Put) (rs : list RecvTask) (cnts : list Z) : Prop := {
  pr_empty : Forall (blank nt rs) (empty_bufs cb);
  pr_idle : Forall (idle mm nt rs) (full_bufs cb ++ option_list (cur_buf cb));
  pr_tx : slots mm sb rb nt rs cnts (tx_bufs cb);
  pr_wait : Forall (fun b => fetched mm nt rs cnts b /\ head_cmd mm (addr b) <> Tx) (waiting_bufs cb);
  pr_tasks : Forall (fun t => exists a, task_buf t = Some a /\ a ∈ addrs) rs;
  pr_bytes : Forall (fun p => forall a c, p = WByte a c -> a ∈ addrs) nt;
  pr_ids : forall t t' id, t ∈ rs -> t' ∈ rs -> task_id t = Some id -> task_id t' = Some id -> task_buf t = task_buf t';
}.

(** A buffer whose pieces do not change keeps its stage. *)
Record same (mm mm' : Mem) (nt nt' : list Put) (rs rs' : list RecvTask) (b : CmdBuf) : Prop := {
  sm_cells : cells_at mm' (addr b) = cells_at mm (addr b);
  sm_bytes : bytes_to nt' (addr b) = bytes_to nt (addr b);
  sm_tasks : tasks_of rs' (addr b) = tasks_of rs (addr b);
}.

Section Frame.
Context {mm mm' : Mem} {nt nt' : list Put} {rs rs' : list RecvTask} {b : CmdBuf} (H : same mm mm' nt nt' rs rs' b).

Lemma same_entries : entries mm' b = entries mm b.
Proof. unfold entries. by rewrite (sm_cells _ _ _ _ _ _ _ H). Qed.
Lemma same_head : head_cmd mm' (addr b) = head_cmd mm (addr b).
Proof. unfold head_cmd. by rewrite (sm_cells _ _ _ _ _ _ _ H). Qed.
Lemma same_tr : tr mm' nt' (addr b) = tr mm nt (addr b).
Proof. unfold tr. by rewrite same_head, (sm_bytes _ _ _ _ _ _ _ H). Qed.
Lemma same_blank : blank nt rs b -> blank nt' rs' b.
Proof. unfold blank. by rewrite (sm_bytes _ _ _ _ _ _ _ H), (sm_tasks _ _ _ _ _ _ _ H). Qed.
Lemma same_idle : idle mm nt rs b -> idle mm' nt' rs' b.
Proof. unfold idle. by rewrite same_tr, (sm_tasks _ _ _ _ _ _ _ H). Qed.
Lemma same_announces c : announces mm b c -> announces mm' b c.
Proof. unfold announces. by rewrite (sm_cells _ _ _ _ _ _ _ H). Qed.
Lemma same_taken : taken mm nt rs b -> taken mm' nt' rs' b.
Proof.
  intros (c & Ht & Htr & Ha). exists c. rewrite (sm_tasks _ _ _ _ _ _ _ H), same_tr.
  split_and!; [done..|]. by apply same_announces.
Qed.
Lemma same_item id t : item id mm b t -> item id mm' b t.
Proof. unfold item. by rewrite same_entries. Qed.
Lemma same_fetched cnts cnts' :
  (forall t id, t ∈ tasks_of rs (addr b) -> task_id t = Some id -> cnts' !! id = cnts !! id) ->
  fetched mm nt rs cnts b -> fetched mm' nt' rs' cnts' b.
Proof.
  intros Hc (Hi & [(Hne & (id & Hid & Hit) & Hl & Htr)|(Ht & Htr)]); (split; [done|]); [left|right].
  - unfold opened. rewrite same_tr, (sm_tasks _ _ _ _ _ _ _ H). split_and!; try done.
    exists id. split; [|by eapply Forall_impl; [exact Hit|apply same_item]].
    destruct (tasks_of rs (addr b)) as [|t l] eqn:Htl; [done|]. rewrite (Hc t id); [done|by left|].
    apply Forall_cons in Hit as [Hit _]. destruct t; cbn in *; by intuition congruence.
  - unfold closed. by rewrite same_tr, (sm_tasks _ _ _ _ _ _ _ H).
Qed.
End Frame.

(** ** Pushing a command *)
Lemma entries_nil mm b : index b = 0%nat -> entries mm b = [].
Proof. intros H. unfold entries. by rewrite H. Qed.

Lemma push_ok mm nt rs b a n h :
  mem_ok mm -> buf_wf b -> (index b < buf_len)%nat -> blank nt rs b \/ idle mm nt rs b ->
  0 < a -> 0 < n -> 0 <= h ->
  match push mm b a n h with
  | Ok (mm', b') =>
    addr b' = addr b /\ mem_ok mm' /\ (forall a', a' <> addr b -> cells_at mm' a' = cells_at mm a') /\
    idle mm' nt rs b' /\ entries mm' b' = entries mm b ++ [(a, n, h)] /\ buf_wf b'
  | Err w => w = Overflow
  end.
Proof.
  intros Hm [Hba Hmax Hidx Hcnt] Hlt Hst Ha Hn Hh. unfold push.
  rewrite (proj2 (Z.eqb_neq a 0)), (proj2 (Z.eqb_neq n 0)) by lia. cbn [orb].
  destruct (read_cell_ok mm (addr b) (index b) Hm Hba Hlt) as (c & Hc & ->).
  destruct (fill c a n Tx h) as [c'|w] eqn:Hf; [|by apply fill_err in Hf].
  rewrite write_cell_ok by done. rewrite (proj2 (Z.ltb_lt 0 n)) by done.
  destruct (fill_ok c a n Tx h c' Hf) as (_ & Ed & Es & Ec & Em & _); [lia..|].
  destruct (mem_ok_cells mm (addr b) Hm Hba) as [_ Hl].
  split; [done|]. split; [apply mem_ok_insert; [done|by rewrite length_insert]|].
  split; [intros a' Hne; by apply cells_at_insert_ne|].
  assert (entries (<[addr b := <[index b := c']> (cells_at mm (addr b))]> mm)
    {| addr := addr b; index := S (index b); allocated_cnt := allocated_cnt b + 1; max_size := max_size b |} =
    entries mm b ++ [(a, n, h)]) as Hent.
  { unfold entries. cbn. rewrite cells_at_insert, (take_S_r _ _ c') by (apply list_lookup_insert_Some; left; split_and!; [done|done|lia]).
    rewrite take_insert, decide_False by lia. rewrite map_app. cbn [map]. f_equal.
    unfold core. by rewrite Ed, Es, Em. }
  split; [|split; [exact Hent|]].
  - unfold idle. cbn. split; [lia|]. unfold tr, head_cmd. rewrite cells_at_insert.
    destruct (cells_at mm (addr b)) as [|c0 cs] eqn:Hcs; [cbn in Hl; lia|].
    destruct Hst as [(Hi & Ht & Hb)|(Hi & Ht & Htr)].
    + split; [done|]. rewrite Hi, Hb. cbn. by rewrite Ec.
    + split; [done|]. unfold tr, head_cmd in Htr. rewrite Hcs in Htr. by destruct (index b); [lia|].
  - split; cbn; [done..|lia|lia].
Qed.

(** The commands a buffer still has to give to the receiver. *)
Definition undone (mm : Mem) (nt : list Put) (b : CmdBuf) : list Core :=
  if decide (tr mm nt (addr b) = [Tx]) then entries mm b else [].
Definition todo_bufs (mm : Mem) (nt : list Put) (cb : CmdMsgBuffer) : list Core := flat_map (undone mm nt) (all_bufs cb).

Lemma same_undone mm mm' nt nt' rs rs' b : same mm mm' nt nt' rs rs' b -> undone mm' nt' b = undone mm nt b.
Proof. intros H. unfold undone. by rewrite (same_tr H), (same_entries H). Qed.

Lemma flat_map_ext_Forall {A B} (f g : A -> list B) l : Forall (fun x => f x = g x) l -> flat_map f l = flat_map g l.
Proof. induction 1 as [|x l Hx Hf IH]; cbn; [done|]. by rewrite Hx, IH. Qed.

Hypothesis Hnd : NoDup addrs.
Hypothesis Hlen : (0 < buf_len)%nat.

(** The other buffers are at other addresses. *)
Lemma bufs_others cb b rest :
  bufs_ok cb -> all_bufs cb ≡ₚ b :: rest -> Forall (fun b' => addr b' <> addr b) rest.
Proof.
  intros Hb Hp. assert (NoDup (map addr (b :: rest))) as Hn.
  { rewrite <- Hp. by rewrite (bo_addrs cb Hb). }
  cbn in Hn. apply NoDup_cons in Hn as [Hn _]. apply Forall_forall. intros b' Hb' He. apply Hn.
  rewrite <- He. by apply list_elem_of_fmap_2.
Qed.

Lemma bufs_replace cb cb' b b' rest :
  bufs_ok cb -> all_bufs cb ≡ₚ b :: rest -> all_bufs cb' ≡ₚ b' :: rest -> addr b' = addr b -> buf_wf b' ->
  num_bufs cb' = num_bufs cb -> (forall c, cur_buf cb' = Some c -> (index c < buf_len)%nat) -> bufs_ok cb'.
Proof.
  intros [Ha Hn Hw Hc] Hp Hp' Hbb Hb' Hnum Hcur. split; [|congruence| |done].
  - rewrite <- Ha, Hp, Hp'. cbn. by rewrite Hbb.
  - rewrite Hp'. rewrite Hp in Hw. apply Forall_cons in Hw as [_ Hw]. by constructor.
Qed.

Lemma same_slots mm mm' nt rs cnts sb rb tx :
  Forall (same mm mm' nt nt rs rs) tx -> slots mm sb rb nt rs cnts tx -> slots mm' sb rb nt rs cnts tx.
Proof.
  intros Hf. destruct tx as [|b [|]]; cbn; [done| |done]. apply Forall_cons in Hf as [Hs _].
  intros (Hh & [(Hi & Ha & Hc)|[(Hi & Ht & Hq)|(Hft & Hq)]]); (split; [done|]).
  - left. split_and!; [by apply (same_idle Hs)|by apply (same_announces Hs)|done].
  - right. left. split_and!; [done|by apply (same_taken Hs)|done].
  - right. right. split; [|done]. by apply (same_fetched Hs cnts).
Qed.

Lemma same_waiting mm mm' nt rs cnts w :
  Forall (same mm mm' nt nt rs rs) w ->
  Forall (fun b => fetched mm nt rs cnts b /\ head_cmd mm (addr b) <> Tx) w ->
  Forall (fun b => fetched mm' nt rs cnts b /\ head_cmd mm' (addr b) <> Tx) w.
Proof.
  rewrite !Forall_forall. intros Hs Hw b Hb. specialize (Hs b Hb) as H. destruct (Hw b Hb) as [Hf Hh]. rewrite (same_head H). split; [|done]. by apply (same_fetched H cnts).
Qed.

Definition unsent (cb : CmdMsgBuffer) : nat := length (full_bufs cb) + length (option_list (cur_buf cb)).

Lemma with_cur_all cb e cur f : all_bufs (with_cur cb e cur f) = e ++ f ++ option_list cur ++ tx_bufs cb ++ waiting_bufs cb.
Proof. reflexivity. Qed.

(** The buffer [try_push] fills: the current one or a new one. *)
Lemma pick_buffer mm nt rs sb rb cnts cb :
  bufs_ok cb -> protocol mm cb sb rb nt rs cnts ->
  (cur_buf cb = None /\ empty_bufs cb = [] /\
   match cur_buf cb with
   | Some b => (empty_bufs cb, Some b)
   | None => match pop (empty_bufs cb) with Some (e, b) => (e, Some b) | None => (empty_bufs cb, None) end
   end = (empty_bufs cb, None)) \/
  exists e b,
   match cur_buf cb with
   | Some b => (empty_bufs cb, Some b)
   | None => match pop (empty_bufs cb) with Some (e, b) => (e, Some b) | None => (empty_bufs cb, None) end
   end = (e, Some b) /\
   all_bufs cb ≡ₚ b :: e ++ full_bufs cb ++ tx_bufs cb ++ waiting_bufs cb /\
   Forall (blank nt rs) e /\ Forall (idle mm nt rs) (full_bufs cb) /\
   (blank nt rs b \/ idle mm nt rs b) /\ (index b < buf_len)%nat /\
   (length (full_bufs cb) <= unsent cb)%nat.
Proof.
  intros Hb [He Hi _ _ _ _ _]. apply Forall_app in Hi as [Hf Hc]. unfold unsent.
  destruct (cur_buf cb) as [b|] eqn:Hcur; cbn in Hc |- *.
  - right. exists (empty_bufs cb), b. apply Forall_cons in Hc as [Hc _]. split_and!; try done; [|by right|by apply (bo_cur cb Hb)|lia].
    unfold all_bufs. rewrite Hcur. cbn. solve_Permutation.
  - destruct (pop (empty_bufs cb)) as [[e b]|] eqn:Hp.
    + right. exists e, b. apply pop_Some in Hp. rewrite Hp in He. apply Forall_app in He as [He Hbl].
      apply Forall_cons in Hbl as [Hbl _]. split_and!; try done; [|by left|destruct Hbl as [-> _]; lia|lia].
      unfold all_bufs. rewrite Hcur, Hp. cbn. rewrite <- !app_assoc. symmetry. apply Permutation_middle.
    + left. by apply pop_None in Hp.
Qed.

(** A command is pushed unless every buffer is busy. *)
Lemma try_push_ok mm cb sb rb nt rs cnts a n h :
  bufs_ok cb -> mem_ok mm -> protocol mm cb sb rb nt rs cnts -> 0 < a -> 0 < n -> 0 <= h ->
  match try_push mm cb a n h with
  | Ok (mm', cb', true) =>
    bufs_ok cb' /\ mem_ok mm' /\ protocol mm' cb' sb rb nt rs cnts /\
    queued mm' cb' ≡ₚ (a, n, h) :: queued mm cb /\ todo_bufs mm' nt cb' ≡ₚ (a, n, h) :: todo_bufs mm nt cb /\
    (unsent cb' <= S (unsent cb))%nat /\ tx_bufs cb' = tx_bufs cb
  | Ok (mm', cb', false) => mm' = mm /\ cb' = cb /\ cur_buf cb = None /\ empty_bufs cb = []
  | Err w => w = Overflow
  end.
Proof.
  intros Hb Hm Hp Ha Hn Hh. unfold try_push.
  destruct (pick_buffer mm nt rs sb rb cnts cb Hb Hp) as [(Hc & He & ->)|(e & b & -> & Hall & He & Hf & Hst & Hlt & Hu)].
  { split; [done|]. split; [|done]. destruct cb; cbn in *; by subst. }
  pose proof (bufs_others cb b _ Hb Hall) as Hoth.
  assert (buf_wf b) as Hwf.
  { pose proof (bo_wf cb Hb) as Hw. rewrite Hall in Hw. by apply Forall_cons in Hw as [Hw _]. }
  pose proof (push_ok mm nt rs b a n h Hm Hwf Hlt Hst Ha Hn Hh) as Hpush.
  destruct (push mm b a n h) as [[mm' b']|w]; [|done].
  destruct Hpush as (Hab & Hm' & Hcells & Hidle & Hent & Hwf').
  assert (Forall (same mm mm' nt nt rs rs) (e ++ full_bufs cb ++ tx_bufs cb ++ waiting_bufs cb)) as Hsame.
  { eapply Forall_impl; [exact Hoth|]. intros c Hne. split; [|done..]. by apply Hcells. }
  set (rest := e ++ full_bufs cb ++ tx_bufs cb ++ waiting_bufs cb) in *.
  set (cb' := if full b' then _ else _).
  assert (all_bufs cb' ≡ₚ b' :: rest /\ tx_bufs cb' = tx_bufs cb /\ waiting_bufs cb' = waiting_bufs cb /\ empty_bufs cb' = e /\
    full_bufs cb' ++ option_list (cur_buf cb') = full_bufs cb ++ [b'] /\ num_bufs cb' = num_bufs cb /\
    (forall c, cur_buf cb' = Some c -> (index c < buf_len)%nat)) as (Hall' & Etx & Ew & Ee & Ef & En & Hcur').
  { unfold cb', rest. unfold full. destruct (Nat.eqb_spec (index b') (max_size b')) as [Hfu|Hfu]; split_and!; try done.
    - rewrite with_cur_all. cbn. solve_Permutation.
    - cbn. by rewrite app_nil_r.
    - rewrite with_cur_all. cbn. solve_Permutation.
    - intros c [= <-]. destruct Hwf' as [_ Hmax Hidx _]. lia. }
  assert (Forall (idle mm' nt rs) (full_bufs cb' ++ option_list (cur_buf cb'))) as Hidles.
  { rewrite Ef. apply Forall_app. split; [|by constructor]. unfold rest in Hsame. rewrite !Forall_app in Hsame.
    destruct Hsame as (_ & Hsf & _). rewrite Forall_forall in Hf, Hsf |- *. intros c Hc. by apply (same_idle (Hsf c Hc)), Hf. }
  pose proof Hsame as Hparts. unfold rest in Hparts. rewrite !Forall_app in Hparts. destruct Hparts as (_ & _ & Hst' & Hsw).
  split; [by eapply bufs_replace|]. split; [done|]. split; [|split; [|split; [|split]]].
  - destruct Hp as [_ _ Htx Hwt Hts Hby Hid]. split; rewrite ?Etx, ?Ew, ?Ee; try done.
    + by eapply same_slots.
    + by eapply same_waiting.
  - unfold queued. rewrite Hall, Hall'. cbn. rewrite Hent, (flat_map_ext_Forall (entries mm') (entries mm) rest).
    + rewrite <- app_assoc. cbn. symmetry. apply Permutation_middle.
    + eapply Forall_impl; [exact Hsame|]. intros c Hc. by apply (same_entries Hc).
  - unfold todo_bufs. rewrite Hall, Hall'. cbn. rewrite (flat_map_ext_Forall (undone mm' nt) (undone mm nt) rest).
    + unfold undone at 1 3. destruct Hidle as (_ & _ & Htr). rewrite Htr, decide_True by done. rewrite Hent.
      replace (if decide _ then entries mm b else []) with (entries mm b).
      * rewrite <- app_assoc. cbn. symmetry. apply Permutation_middle.
      * destruct Hst as [(Hi & _)|(_ & _ & Htr')]; [rewrite entries_nil by done; by case_decide|by rewrite Htr', decide_True].
    + eapply Forall_impl; [exact Hsame|]. intros c Hc. by apply (same_undone _ _ _ _ _ _ _ Hc).
  - unfold unsent at 1. rewrite <- length_app, Ef, length_app. cbn. lia.
  - done.
Qed.

(** ** Progress of the announced buffers *)
Lemma bufs_wf cb b : bufs_ok cb -> b ∈ all_bufs cb -> buf_wf b.
Proof. intros Hb Hin. pose proof (bo_wf cb Hb) as Hw. rewrite Forall_forall in Hw. by apply Hw. Qed.

Lemma state_ok mm b : mem_ok mm -> buf_wf b -> state mm b = Ok (head_cmd mm (addr b)).
Proof.
  intros Hm Hw. destruct (read_cell_ok mm (addr b) 0 Hm (bw_addr b Hw) Hlen) as (c & Hc & Hr).
  unfold state, head_cmd. rewrite Hr. destruct (cells_at mm (addr b)); [done|]. cbn in Hc. by injection Hc as ->.
Qed.

Lemma fetched_head mm nt rs cnts b :
  fetched mm nt rs cnts b -> head_cmd mm (addr b) = Tx \/ head_cmd mm (addr b) = Release \/
    (head_cmd mm (addr b) = Free /\ tasks_of rs (addr b) = [] /\ bytes_to nt (addr b) = []).
Proof.
  unfold fetched, opened, closed, tr. intros (_ & [(_ & _ & _ & [[= -> _]|[= -> _]])|(Ht & [[= -> _]|[[= -> _]|[= -> Hb]]])]); auto.
Qed.

Lemma check_transfer_ok mm cb sb rb nt rs cnts :
  bufs_ok cb -> mem_ok mm -> protocol mm cb sb rb nt rs cnts ->
  exists cb' sb',
    (let* (cb, done) := check_transfer mm cb (daddr sb) in
     let* sb := (if done : bool then clear sb else Ok sb) in Ok (cb, sb)) = Ok (cb', sb') /\
    bufs_ok cb' /\ protocol mm cb' sb' rb nt rs cnts /\ all_bufs cb' ≡ₚ all_bufs cb /\
    cur_buf cb' = cur_buf cb /\ full_bufs cb' = full_bufs cb /\ empty_bufs cb' = empty_bufs cb /\
    Forall (fun b => head_cmd mm (addr b) = Tx) (tx_bufs cb') /\ num_bufs cb' = num_bufs cb.
Proof.
  intros Hb Hm Hp. unfold check_transfer. pose proof (pr_tx _ _ _ _ _ _ _ Hp) as Hs.
  destruct (tx_bufs cb) as [|b [|]] eqn:Htx; cbn in Hs; [| |done].
  { cbn. exists cb, sb. split_and!; try done. by rewrite Htx. }
  destruct Hs as ((Hse & Hc & Ha & Hsz) & Hs). cbn. rewrite Ha, Z.eqb_refl.
  assert (b ∈ all_bufs cb) as Hin.
  { unfold all_bufs. rewrite Htx, !elem_of_app. right. right. right. left. by left. }
  pose proof (bufs_wf cb b Hb Hin) as Hw. rewrite state_ok by done.
  destruct (decide (head_cmd mm (addr b) = Tx)) as [HTx|HTx].
  { rewrite HTx. exists cb, sb. replace (with_tx cb _ _) with cb by (destruct cb; cbn in *; by subst).
    split_and!; try done. rewrite Htx. by constructor. }
  assert (fetched mm nt rs cnts b /\ quiet rb nt) as [Hf Hq].
  { destruct Hs as [((_ & _ & Htr) & _)|[(_ & (c & _ & Htr & _) & _)|Hs]]; [by injection Htr..|done]. }
  pose proof Hf as [Hi _].
  assert (0 < allocated_cnt b) as Hcnt by (rewrite (bw_cnt b Hw); lia).
  rewrite (proj2 (Z.ltb_lt _ _) Hcnt).
  destruct (clear_ok sb) as (sb' & Hcl & Hclear).
  assert (addr b ∉ map addr (waiting_bufs cb)) as Hnin.
  { assert (NoDup (map addr (all_bufs cb))) as Hn by (by rewrite (bo_addrs cb Hb)).
    unfold all_bufs in Hn. rewrite Htx, !map_app, !NoDup_app in Hn. cbn in Hn.
    destruct Hn as (_ & _ & _ & _ & _ & _ & _ & Hn & _). apply Hn. by left. }
  exists (with_tx cb [] (b :: waiting_bufs cb)), sb'.
  assert (all_bufs (with_tx cb [] (b :: waiting_bufs cb)) ≡ₚ all_bufs cb) as Hall.
  { unfold all_bufs. cbn. rewrite Htx. done. }
  split; [destruct (fetched_head _ _ _ _ _ Hf) as [Hh|[Hh|[Hh _]]]; rewrite Hh; [done|..];
    rewrite hm_insert_new by done; by rewrite Hcl|].
  split; [|split; [|split_and!; done]].
  - destruct Hb as [H1 H2 H3 H4]. split; [by rewrite Hall|done|by rewrite Hall|done].
  - destruct Hp. split; try done. cbn. by constructor.
Qed.

(** ** Freeing the buffers whose commands were all received *)
Lemma freed_bufs_ok mm nt rs cnts ws :
  mem_ok mm -> Forall buf_wf ws -> Forall (fun b => fetched mm nt rs cnts b /\ head_cmd mm (addr b) <> Tx) ws ->
  freed_bufs mm ws = Ok (map addr (filter (fun b => head_cmd mm (addr b) = Free) ws)).
Proof.
  intros Hm. induction ws as [|b ws IH]; intros Hw Hf; [done|].
  apply Forall_cons in Hw as [Hw Hws]. apply Forall_cons in Hf as [[Hf HTx] Hfs].
  cbn [freed_bufs]. rewrite state_ok, IH by done. rewrite filter_cons.
  destruct (fetched_head _ _ _ _ _ Hf) as [Hh|[Hh|[Hh _]]]; rewrite Hh; done.
Qed.

Lemma map_entries mm b : map core_addr (entries mm b) = map daddr (take (index b) (cells_at mm (addr b))).
Proof. unfold entries. rewrite map_map. done. Qed.

Lemma free_bufs_ok mm sb rb nt rs cnts l : forall cb bl r,
  bufs_ok cb -> mem_ok mm -> protocol mm cb sb rb nt rs cnts ->
  (forall b, b ∈ waiting_bufs cb -> addr b ∈ l -> head_cmd mm (addr b) = Free) ->
  blocks_ok bl (map core_addr (queued mm cb) ++ r) -> Forall (good bl) (queued mm cb) ->
  Z.of_nat (length (map core_addr (queued mm cb) ++ r)) < USIZE ->
  exists cb' bl', free_bufs mm cb bl l = Ok (cb', bl') /\ bufs_ok cb' /\ protocol mm cb' sb rb nt rs cnts /\
    blocks_ok bl' (map core_addr (queued mm cb') ++ r) /\
    (forall a, a ∈ map core_addr (queued mm cb') ++ r -> data_of bl' a = data_of bl a) /\
    todo_bufs mm nt cb' ≡ₚ todo_bufs mm nt cb /\
    (length (queued mm cb') <= length (queued mm cb))%nat /\ (forall x, x ∈ queued mm cb' -> x ∈ queued mm cb) /\
    cur_buf cb' = cur_buf cb /\ full_bufs cb' = full_bufs cb /\ tx_bufs cb' = tx_bufs cb /\
    (forall b, b ∈ waiting_bufs cb' -> b ∈ waiting_bufs cb /\ addr b ∉ l) /\ num_bufs cb' = num_bufs cb.
Proof.
  induction l as [|a l IH]; intros cb bl r Hb Hm Hp Hl Hbl Hg Hlt; cbn [free_bufs].
  { exists cb, bl. split_and!; try done. intros b Hbw. split; [done|apply not_elem_of_nil]. }
  destruct (hm_remove a (waiting_bufs cb)) as [[b w]|] eqn:Hrm.
  2:{ destruct (IH cb bl r Hb Hm Hp) as (cb' & bl' & HIH); try done.
      { intros b Hbw Hal. apply Hl; [done|by right]. }
      exists cb', bl'. destruct HIH as (? & ? & ? & ? & ? & ? & ? & ? & ? & ? & ? & Hw & ?). split_and!; try done.
      intros b Hbw. destruct (Hw b Hbw) as [Hbw' Hal]. split; [done|].
      rewrite elem_of_cons. intros [<-|Hal']; [|done]. apply hm_remove_None in Hrm. apply Hrm.
      by apply list_elem_of_fmap_2. }
  apply hm_remove_Some in Hrm as [<- Hw].
  assert (all_bufs cb ≡ₚ b :: empty_bufs cb ++ full_bufs cb ++ option_list (cur_buf cb) ++ tx_bufs cb ++ w) as Hall.
  { unfold all_bufs. rewrite Hw. solve_Permutation. }
  set (rest := empty_bufs cb ++ full_bufs cb ++ option_list (cur_buf cb) ++ tx_bufs cb ++ w) in *.
  assert (b ∈ all_bufs cb) as Hin by (rewrite Hall; by left).
  pose proof (bufs_wf cb b Hb Hin) as Hwf.
  assert (b ∈ waiting_bufs cb) as Hbw by (rewrite Hw; by left).
  pose proof (Hl b Hbw ltac:(by left)) as HFree.
  pose proof (pr_wait _ _ _ _ _ _ _ Hp) as Hwt. rewrite Hw in Hwt. apply Forall_cons in Hwt as [[Hf _] Hwt].
  destruct (fetched_head _ _ _ _ _ Hf) as [Hh|[Hh|(_ & Hts & Hby)]]; [congruence..|].
  unfold iter. rewrite read_cells_ok; [|done|apply Hwf..].
  assert (queued mm cb ≡ₚ entries mm b ++ flat_map (entries mm) rest) as Hq by (unfold queued; by rewrite Hall).
  set (cb1 := with_freed cb w b).
  assert (all_bufs cb1 ≡ₚ reset b :: rest) as Hall1.
  { unfold all_bufs, cb1, rest. cbn. solve_Permutation. }
  assert (queued mm cb1 ≡ₚ flat_map (entries mm) rest) as Hq1 by (unfold queued; by rewrite Hall1).
  assert (map core_addr (queued mm cb) ≡ₚ
    map daddr (take (index b) (cells_at mm (addr b))) ++ map core_addr (queued mm cb1)) as Hmq.
  { by rewrite Hq, Hq1, map_app, map_entries. }
  rewrite Hmq, <- app_assoc in Hbl. rewrite Hmq, <- app_assoc in Hlt.
  destruct (drop_cmds_ok (take (index b) (cells_at mm (addr b))) bl (map core_addr (queued mm cb1) ++ r) Hbl Hlt)
    as (bl1 & -> & Hbl1 & Hd1).
  { apply Forall_forall. rewrite Forall_forall in Hg. intros c Hc.
    destruct (good_pos bl _ (core c) Hbl) as [_ Hpos]; [|exact Hpos].
    apply Hg. rewrite Hq, elem_of_app. left. by apply list_elem_of_fmap_2. }
  assert (protocol mm cb1 sb rb nt rs cnts) as Hp1.
  { destruct Hp. split; try done. unfold cb1. cbn. apply Forall_app. split; [done|]. by constructor. }
  assert (bufs_ok cb1) as Hb1.
  { eapply (bufs_replace cb cb1 b (reset b) rest); try done; [|apply (bo_cur cb Hb)].
    split; cbn; [apply Hwf..|lia|lia]. }
  assert (forall x, x ∈ queued mm cb1 -> x ∈ queued mm cb) as Hsub.
  { intros x. rewrite Hq, Hq1, elem_of_app. by right. }
  destruct (IH cb1 bl1 r Hb1 Hm Hp1) as (cb2 & bl2 & HIH); try done.
  { intros c Hcw Hal. apply Hl; [|by right]. rewrite Hw. by right. }
  { apply Forall_forall. rewrite Forall_forall in Hg. intros x Hx. apply (good_mono bl); [|by apply Hg, Hsub].
    apply Hd1. apply elem_of_app. left. by apply list_elem_of_fmap_2. }
  { rewrite length_app in Hlt. lia. }
  destruct HIH as (Hfr & Hb2 & Hp2 & Hbl2 & Hd2 & Htd & Hle & Hsub2 & Hcur & Hful & Htx & Hw2 & Hnum).
  exists cb2, bl2. split_and!; try done.
  - intros a Ha. rewrite Hd2 by done. apply Hd1. apply elem_of_app in Ha as [Ha|Ha]; apply elem_of_app; [left|by right].
    apply list_elem_of_fmap in Ha as (x & -> & Hx). by apply list_elem_of_fmap_2, Hsub2.
  - rewrite Htd. unfold todo_bufs. rewrite Hall, Hall1. cbn.
    assert (undone mm nt b = []) as ->.
    { unfold undone. rewrite decide_False; [done|]. unfold tr. by rewrite HFree. }
    assert (undone mm nt (reset b) = []) as ->; [|done]. unfold undone. by case_decide.
  - etrans; [exact Hle|]. rewrite Hq, Hq1, length_app. lia.
  - intros x Hx. by apply Hsub, Hsub2.
  - intros c Hc. destruct (Hw2 c Hc) as [Hcw Hal]. cbn in Hcw.
    assert (NoDup (map addr (waiting_bufs cb))) as Hndw.
    { assert (NoDup (map addr (all_bufs cb))) as Hn by (by rewrite (bo_addrs cb Hb)).
      unfold all_bufs in Hn. rewrite !map_app, !NoDup_app in Hn. tauto. }
    split; [rewrite Hw; by right|]. rewrite elem_of_cons. intros [He|]; [|done].
    rewrite Hw in Hndw. cbn in Hndw. apply NoDup_cons in Hndw as [Hn _]. apply Hn. rewrite <- He.
    by apply list_elem_of_fmap_2.
Qed.

Lemma all_bufs_bufs_ok cb cb' :
  bufs_ok cb -> all_bufs cb' ≡ₚ all_bufs cb -> num_bufs cb' = num_bufs cb ->
  (forall b, cur_buf cb' = Some b -> cur_buf cb = Some b) -> bufs_ok cb'.
Proof.
  intros [H1 H2 H3 H4] Ha Hn Hc. split; [by rewrite Ha|congruence|by rewrite Ha|]. intros b Hb. by apply H4, Hc.
Qed.

(** [progress_transfers] *)
Lemma progress_ok mm cb sb rb nt rs cnts bl r :
  bufs_ok cb -> mem_ok mm -> protocol mm cb sb rb nt rs cnts ->
  blocks_ok bl (map core_addr (queued mm cb) ++ r) -> Forall (good bl) (queued mm cb) ->
  Z.of_nat (length (map core_addr (queued mm cb) ++ r)) < USIZE ->
  exists cb' sb' bl', progress_transfers mm cb sb bl = Ok (cb', sb', bl') /\
    bufs_ok cb' /\ protocol mm cb' sb' rb nt rs cnts /\
    blocks_ok bl' (map core_addr (queued mm cb') ++ r) /\
    (forall a, a ∈ map core_addr (queued mm cb') ++ r -> data_of bl' a = data_of bl a) /\
    todo_bufs mm nt cb' ≡ₚ todo_bufs mm nt cb /\
    (length (queued mm cb') <= length (queued mm cb))%nat /\ (forall x, x ∈ queued mm cb' -> x ∈ queued mm cb) /\
    unsent cb' = unsent cb /\ Forall (fun b => head_cmd mm (addr b) = Tx) (tx_bufs cb') /\
    Forall (fun b => head_cmd mm (addr b) = Release) (waiting_bufs cb').
Proof.
  intros Hb Hm Hp Hbl Hg Hlt. unfold progress_transfers.
  destruct (check_transfer_ok mm cb sb rb nt rs cnts Hb Hm Hp)
    as (cb1 & sb1 & Hct & Hb1 & Hp1 & Hall & Hcur & Hful & Hem & Htx & Hnum).
  destruct (check_transfer mm cb (daddr sb)) as [[cb0 done0]|]; [|done].
  destruct (if done0 : bool then clear sb else Ok sb) as [sb0|]; [|done]. injection Hct as -> ->.
  assert (queued mm cb1 ≡ₚ queued mm cb) as Hq by (unfold queued; by rewrite Hall).
  assert (todo_bufs mm nt cb1 ≡ₚ todo_bufs mm nt cb) as Htd by (unfold todo_bufs; by rewrite Hall).
  rewrite <- Hq in Hbl, Hg, Hlt.
  pose proof (pr_wait _ _ _ _ _ _ _ Hp1) as Hwt.
  assert (Forall buf_wf (waiting_bufs cb1)) as Hww.
  { apply Forall_forall. intros b Hbw. apply (bufs_wf cb1 b Hb1). unfold all_bufs. rewrite !elem_of_app. auto. }
  unfold check_free_data. rewrite (freed_bufs_ok mm nt rs cnts) by done.
  destruct (free_bufs_ok mm sb1 rb nt rs cnts
    (map addr (filter (fun b => head_cmd mm (addr b) = Free) (waiting_bufs cb1))) cb1 bl r) as
    (cb2 & bl2 & -> & Hb2 & Hp2 & Hbl2 & Hd2 & Htd2 & Hle & Hsub & Hcur2 & Hful2 & Htx2 & Hw2 & Hnum2); try done.
  { intros b _ (c & -> & Hc)%list_elem_of_fmap. by apply list_elem_of_filter in Hc as [Hc _]. }
  exists cb2, sb1, bl2. split_and!; try done.
  - by rewrite Htd2.
  - by rewrite Hle, Hq.
  - intros x Hx. rewrite <- Hq. by apply Hsub.
  - unfold unsent. by rewrite Hful2, Hcur2, Hful, Hcur.
  - by rewrite Htx2.
  - apply Forall_forall. intros b Hbw. destruct (Hw2 b Hbw) as [Hb1w Hnf].
    rewrite Forall_forall in Hwt. destruct (Hwt b Hb1w) as [Hf HTx].
    destruct (fetched_head _ _ _ _ _ Hf) as [Hh|[Hh|(Hh & _)]]; [done|done|].
    exfalso. apply Hnf. apply list_elem_of_fmap_2. by apply list_elem_of_filter.
Qed.

(** ** Announcing a buffer *)
Lemma bytes_to_app nt nt' a : bytes_to (nt ++ nt') a = bytes_to nt a ++ bytes_to nt' a.
Proof. apply omap_app. Qed.

Lemma same_put mm nt rs c b : same mm mm nt (nt ++ put_cmd c) rs rs b.
Proof. split; [done| |done]. rewrite bytes_to_app. cbn. apply app_nil_r. Qed.

Lemma announce_ok mm b sb :
  mem_ok mm -> buf_wf b -> (0 < index b)%nat -> (forall a, a ∈ addrs -> 0 < a) ->
  match announce mm b sb with
  | Ok sb' => holds sb' b /\ announces mm b sb' /\ 0 < dsize sb'
  | Err w => w = Overflow
  end.
Proof.
  intros Hm Hw Hi Hpos. unfold announce, iter. rewrite read_cells_ok; [|done|apply Hw..].
  destruct (fill sb _ _ _ _) as [sb'|w] eqn:Hf; [|by apply fill_err in Hf].
  pose proof (Hpos _ (bw_addr b Hw)). pose proof (calc_hash_range (bytes_of (take (index b) (cells_at mm (addr b))))).
  apply fill_ok in Hf as (Hs & Hd & Hsz & Hc & Hh & _); [|unfold size, SIZE_OF_CMD; lia..].
  split; [done|]. split; [done|]. rewrite Hsz. unfold size, SIZE_OF_CMD. lia.
Qed.

Hypothesis Hpos : forall a, a ∈ addrs -> 0 < a.

(** Moving an idle buffer to the announced ones, when none is announced. *)
Lemma flush_protocol mm cb cb' b sb sb' rb nt rs cnts :
  protocol mm cb sb rb nt rs cnts -> tx_bufs cb = [] -> empty_bufs cb' = empty_bufs cb ->
  waiting_bufs cb' = waiting_bufs cb -> tx_bufs cb' = [b] ->
  full_bufs cb ++ option_list (cur_buf cb) ≡ₚ b :: full_bufs cb' ++ option_list (cur_buf cb') ->
  holds sb' b -> announces mm b sb' ->
  protocol mm cb' sb' rb (nt ++ put_cmd sb') rs cnts.
Proof.
  intros [He Hi Htx Hw Ht Hby Hid] Hn Ee Ew Et Hperm Hh Ha. rewrite Hn in Htx. destruct Htx as [_ Hq].
  rewrite Hperm in Hi. apply Forall_cons in Hi as [Hib Hi].
  split; rewrite ?Ee, ?Ew, ?Et; try done.
  - eapply Forall_impl; [exact He|]. intros c. apply (same_blank (same_put mm nt rs sb' c)).
  - eapply Forall_impl; [exact Hi|]. intros c. apply (same_idle (same_put mm nt rs sb' c)).
  - split; [done|]. left. split; [by apply (same_idle (same_put mm nt rs sb' b))|].
    split; [done|]. by apply put_carrying.
  - eapply Forall_impl; [exact Hw|]. intros c [Hf Hc]. split; [|done].
    by apply (same_fetched (same_put mm nt rs sb' c) cnts).
  - apply Forall_app. split; [done|]. repeat constructor; done.
Qed.

(** [flush_buffer] of the buffer [b], which [cb'] has moved to the announced ones. *)
Lemma flush_ok mm cb cb' b sb rb nt rs cnts :
  bufs_ok cb -> mem_ok mm -> protocol mm cb sb rb nt rs cnts -> tx_bufs cb = [] ->
  full_bufs cb ++ option_list (cur_buf cb) ≡ₚ b :: full_bufs cb' ++ option_list (cur_buf cb') ->
  empty_bufs cb' = empty_bufs cb -> waiting_bufs cb' = waiting_bufs cb -> tx_bufs cb' = [b] -> num_bufs cb' = num_bufs cb ->
  (forall c, cur_buf cb' = Some c -> cur_buf cb = Some c) ->
  match announce mm b sb with
  | Ok sb' => (0 <? dsize sb') = true /\ bufs_ok cb' /\ protocol mm cb' sb' rb (nt ++ put_cmd sb') rs cnts /\ all_bufs cb' ≡ₚ all_bufs cb /\
    (forall b, undone mm (nt ++ put_cmd sb') b = undone mm nt b) /\ unsent cb' = pred (unsent cb)
  | Err w => w = Overflow
  end.
Proof.
  intros Hb Hm Hp Htx Hperm Ee Ew Et En Ec. pose proof (pr_idle _ _ _ _ _ _ _ Hp) as Hi.
  assert (b ∈ full_bufs cb ++ option_list (cur_buf cb)) as Hin by (rewrite Hperm; by left).
  assert (buf_wf b) as Hwf.
  { apply (bufs_wf cb b Hb). unfold all_bufs. rewrite elem_of_app in Hin. rewrite !elem_of_app. tauto. }
  assert (all_bufs cb' ≡ₚ all_bufs cb) as Hall.
  { unfold all_bufs. rewrite Ee, Ew, Et, Htx, !(app_assoc (full_bufs _)), Hperm. cbn. f_equiv. symmetry. apply Permutation_middle. }
  rewrite Forall_forall in Hi. destruct (Hi b Hin) as (Hib & _).
  pose proof (announce_ok mm b sb Hm Hwf Hib Hpos) as Han.
  destruct (announce mm b sb) as [sb'|w]; [|done]. destruct Han as (Hh & Ha & Hd).
  split; [by apply Z.ltb_lt|]. split; [by eapply all_bufs_bufs_ok|]. split; [by eapply flush_protocol|]. split; [done|]. split.
  - intros c. apply (same_undone _ _ _ _ _ _ _ (same_put mm nt rs sb' c)).
  - apply Permutation_length in Hperm. cbn in Hperm. rewrite !length_app in Hperm. unfold unsent. lia.
Qed.

Lemma flush_buffer_ok mm cb sb rb nt rs cnts :
  bufs_ok cb -> mem_ok mm -> protocol mm cb sb rb nt rs cnts -> tx_bufs cb = [] ->
  match flush_buffer mm cb sb with
  | Ok (cb', sb') => let ps := if 0 <? dsize sb' then put_cmd sb' else [] in
    bufs_ok cb' /\ protocol mm cb' sb' rb (nt ++ ps) rs cnts /\ all_bufs cb' ≡ₚ all_bufs cb /\
    (forall b, undone mm (nt ++ ps) b = undone mm nt b) /\ unsent cb' = pred (unsent cb)
  | Err w => w = Overflow
  end.
Proof.
  intros Hb Hm Hp Htx. unfold flush_buffer. destruct (pop (full_bufs cb)) as [[f b]|] eqn:Hpop.
  - apply pop_Some in Hpop.
    pose proof (flush_ok mm cb (with_flushed cb f (cur_buf cb) b) b sb rb nt rs cnts Hb Hm Hp Htx) as H.
    destruct (announce mm b sb) as [sb'|w]; [destruct H as (-> & H)|apply H]; try done; cbn; rewrite ?Hpop, ?Htx;
      solve [solve_Permutation|done].
  - apply pop_None in Hpop. destruct (cur_buf cb) as [b|] eqn:Hcur.
    + pose proof (flush_ok mm cb (with_flushed cb (full_bufs cb) None b) b sb rb nt rs cnts Hb Hm Hp Htx) as H.
      destruct (announce mm b sb) as [sb'|w]; [destruct H as (-> & H)|apply H]; try done; cbn; rewrite ?Hpop, ?Hcur, ?Htx; done.
    + pose proof (pr_tx _ _ _ _ _ _ _ Hp) as Hs. rewrite Htx in Hs. destruct Hs as [(_ & -> & _) _]. cbn.
      rewrite app_nil_r. split_and!; try done. unfold unsent. by rewrite Hcur, Hpop.
Qed.

Lemma try_sending_ok mm cb sb rb nt rs cnts p :
  bufs_ok cb -> mem_ok mm -> protocol mm cb sb rb nt rs cnts ->
  match try_sending_buffer mm cb sb p with
  | Ok (cb', sb', ps, done) =>
    bufs_ok cb' /\ protocol mm cb' sb' rb (nt ++ ps) rs cnts /\ all_bufs cb' ≡ₚ all_bufs cb /\
    (forall b, undone mm (nt ++ ps) b = undone mm nt b) /\
    (if done then unsent cb' = pred (unsent cb)
     else cb' = cb /\ ((p <> 0 /\ full_bufs cb = []) \/ exists b, tx_bufs cb = [b]))
  | Err w => w = Overflow
  end.
Proof.
  intros Hb Hm Hp. unfold try_sending_buffer.
  destruct ((p =? 0) || (0 <? length (full_bufs cb))%nat) eqn:Hgo.
  2:{ rewrite app_nil_r. split_and!; try done. left. apply orb_false_iff in Hgo as [Hp0 Hf0].
      apply Z.eqb_neq in Hp0. apply Nat.ltb_ge in Hf0. split; [done|]. destruct (full_bufs cb); [done|cbn in Hf0; lia]. }
  pose proof (pr_tx _ _ _ _ _ _ _ Hp) as Hs. destruct (tx_bufs cb) as [|b [|]] eqn:Htx; cbn in Hs; [| |done].
  - rewrite is_clear_hash, clear_hash_eq by apply Hs. cbn [Z.eqb Pos.eqb].
    pose proof (flush_buffer_ok mm cb sb rb nt rs cnts Hb Hm Hp Htx) as H. by destruct (flush_buffer mm cb sb) as [[cb' sb']|w].
  - destruct Hs as ((Hse & Hc & _) & _). destruct (sealed_hash sb Hse Hc) as (h & -> & Hh).
    rewrite clear_hash_eq, (proj2 (Z.eqb_neq h 1)) by done. rewrite app_nil_r. split_and!; try done. right. by exists b.
Qed.

(** ** Steps that concern one buffer *)
Section Update.
Context {mm mm' : Mem} {cb : CmdMsgBuffer} {sb rb rb' : CmdMsg} {nt nt' : list Put} {rs rs' : list RecvTask} {cnts cnts' : list Z}.

Definition untouched (b : CmdBuf) : Prop :=
  same mm mm' nt nt' rs rs' b /\
  forall t id, t ∈ tasks_of rs (addr b) -> task_id t = Some id -> cnts' !! id = cnts !! id.

Lemma untouched_fetched b : untouched b -> fetched mm nt rs cnts b -> fetched mm' nt' rs' cnts' b.
Proof. intros [Hs Hc]. by apply (same_fetched Hs). Qed.

Lemma slots_update tx :
  slots mm sb rb nt rs cnts tx ->
  (quiet rb nt -> quiet rb' nt') -> (forall c, carrying c rb nt -> carrying c rb' nt') ->
  (forall b, tx = [b] -> untouched b \/ slots mm' sb rb' nt' rs' cnts' [b]) ->
  slots mm' sb rb' nt' rs' cnts' tx.
Proof.
  intros Hs Hq Hc Ha. destruct tx as [|b [|]]; cbn in Hs; [| |done].
  { destruct Hs as [Hcl Hqu]. split; [done|by apply Hq]. }
  destruct (Ha b eq_refl) as [[Hsm Hcn]|]; [|done]. destruct Hs as (Hh & Hs). split; [done|].
  destruct Hs as [(Hi & Han & Hca)|[(Hi & Ht & Hqu)|(Hf & Hqu)]].
  - left. split_and!; [by apply (same_idle Hsm)|by apply (same_announces Hsm)|by apply Hc].
  - right. left. split_and!; [done|by apply (same_taken Hsm)|by apply Hq].
  - right. right. split; [by apply untouched_fetched|by apply Hq].
Qed.

(** Nothing else changes than the buffer at [a]. *)
Context (a : Z).
Hypothesis Hoth : forall b, addr b <> a -> untouched b.

Lemma protocol_update :
  protocol mm cb sb rb nt rs cnts ->
  (forall b, b ∈ empty_bufs cb -> addr b = a -> blank nt' rs' b) ->
  (forall b, b ∈ full_bufs cb ++ option_list (cur_buf cb) -> addr b = a -> idle mm' nt' rs' b) ->
  (forall b, b ∈ waiting_bufs cb -> addr b = a -> fetched mm' nt' rs' cnts' b /\ head_cmd mm' (addr b) <> Tx) ->
  slots mm' sb rb' nt' rs' cnts' (tx_bufs cb) ->
  Forall (fun t => exists a, task_buf t = Some a /\ a ∈ addrs) rs' ->
  Forall (fun p => forall a c, p = WByte a c -> a ∈ addrs) nt' ->
  (forall t t' id, t ∈ rs' -> t' ∈ rs' -> task_id t = Some id -> task_id t' = Some id -> task_buf t = task_buf t') ->
  protocol mm' cb sb rb' nt' rs' cnts'.
Proof.
  intros [He Hi Htx Hw _ _ _] Ha1 Ha2 Ha3 Hs Ht Hby Hid. rewrite Forall_forall in He, Hi, Hw.
  split; try done; apply Forall_forall; intros b Hb; destruct (decide (addr b = a)) as [Hba|Hne]; auto;
    destruct (Hoth b Hne) as [Hsm Hcn].
  - apply (same_blank Hsm). by apply He.
  - apply (same_idle Hsm). by apply Hi.
  - rewrite (same_head Hsm). destruct (Hw b Hb) as [Hf Hh]. split; [by apply untouched_fetched|done].
Qed.
End Update.

Lemma buf_at cb a : bufs_ok cb -> a ∈ addrs -> exists b, b ∈ all_bufs cb /\ addr b = a.
Proof. intros Hb Ha. rewrite <- (bo_addrs cb Hb) in Ha. apply list_elem_of_fmap in Ha as (b & -> & Hin). by exists b. Qed.

(** Buffers at the same address are the same. *)
Lemma buf_unique cb b b' : bufs_ok cb -> b ∈ all_bufs cb -> b' ∈ all_bufs cb -> addr b = addr b' -> b = b'.
Proof.
  intros Hb Hin Hin' He. apply elem_of_Permutation in Hin as [rest Hr].
  pose proof (bufs_others cb b rest Hb Hr) as Hoth. rewrite Hr in Hin'.
  apply elem_of_cons in Hin' as [->|Hin']; [done|]. rewrite Forall_forall in Hoth. by destruct (Hoth b' Hin').
Qed.

Lemma elem_tasks_of rs t a : t ∈ rs -> task_buf t = Some a -> t ∈ tasks_of rs a.
Proof. intros Ht Ha. unfold tasks_of. by apply list_elem_of_filter. Qed.

(** The buffer a task works for: announced and not yet fetched, or opened. *)
Lemma task_stage mm cb sb rb nt rs cnts t :
  bufs_ok cb -> protocol mm cb sb rb nt rs cnts -> t ∈ rs ->
  exists b, b ∈ all_bufs cb /\ task_buf t = Some (addr b) /\ (0 < index b)%nat /\
    ((tx_bufs cb = [b] /\ holds sb b /\ tasks_of rs (addr b) = [t] /\ taken mm nt rs b /\ quiet rb nt) \/
     (opened mm nt rs cnts b /\ (b ∈ waiting_bufs cb \/ (tx_bufs cb = [b] /\ holds sb b /\ quiet rb nt)))).
Proof.
  intros Hb Hp Ht. pose proof (pr_tasks _ _ _ _ _ _ _ Hp) as Hts. rewrite Forall_forall in Hts.
  destruct (Hts t Ht) as (a & Hta & Ha). destruct (buf_at cb a Hb Ha) as (b & Hin & <-).
  pose proof (elem_tasks_of rs t _ Ht Hta) as Htb.
  assert (tasks_of rs (addr b) <> []) as Hne by (intros He; rewrite He in Htb; by apply elem_of_nil in Htb).
  exists b. split; [done|]. split; [done|].
  unfold all_bufs in Hin. rewrite !elem_of_app in Hin. destruct Hin as [Hin|[Hin|[Hin|[Hin|Hin]]]].
  - pose proof (pr_empty _ _ _ _ _ _ _ Hp) as He. rewrite Forall_forall in He. by destruct (He b Hin) as (_ & ? & _).
  - pose proof (pr_idle _ _ _ _ _ _ _ Hp) as He. rewrite Forall_forall in He.
    destruct (He b) as (_ & ? & _); [apply elem_of_app; by left|done].
  - pose proof (pr_idle _ _ _ _ _ _ _ Hp) as He. rewrite Forall_forall in He.
    destruct (He b) as (_ & ? & _); [apply elem_of_app; by right|done].
  - pose proof (pr_tx _ _ _ _ _ _ _ Hp) as Hs. destruct (tx_bufs cb) as [|b' [|]]; [by apply elem_of_nil in Hin| |done].
    apply list_elem_of_singleton in Hin as <-. destruct Hs as (Hh & [((_ & ? & _) & _)|[(Hi & Htk & Hq)|((Hi & Hf) & Hq)]]); [done|..].
    + split; [done|]. left. destruct Htk as (c & Hc & Htk). rewrite Hc in Htb. apply list_elem_of_singleton in Htb as ->.
      split_and!; try done. by exists c.
    + split; [done|]. right. destruct Hf as [Ho|[Hcl _]]; [|done]. split; [done|]. by right.
  - pose proof (pr_wait _ _ _ _ _ _ _ Hp) as He. rewrite Forall_forall in He. destruct (He b Hin) as [[Hi [Ho|[Hcl _]]] _]; [|done].
    split; [done|]. right. split; [done|]. by left.
Qed.

(** The tasks of a buffer when a task is replaced by others for the same buffer. *)
Lemma tasks_of_replace rs i t ts a :
  rs !! i = Some t -> task_buf t = Some a -> Forall (fun t' => task_buf t' = Some a) ts ->
  (exists l, tasks_of rs a ≡ₚ t :: l /\ tasks_of (take i rs ++ ts ++ drop (S i) rs) a ≡ₚ ts ++ l) /\
  (forall a', a' <> a -> tasks_of (take i rs ++ ts ++ drop (S i) rs) a' = tasks_of rs a').
Proof.
  intros Hi Ht Hts. split.
  - exists (tasks_of (delete i rs) a). unfold tasks_of. split.
    + rewrite (lookup_delete_perm rs i t Hi) at 1. by rewrite filter_cons_True.
    + rewrite filter_replace by done. f_equiv. induction Hts as [|x ts Hx Hts IH]; [done|].
      rewrite filter_cons_True by done. by rewrite IH.
  - intros a' Hne. unfold tasks_of. rewrite <- (take_drop_middle rs i t Hi) at 3.
    rewrite !filter_app, filter_cons_False by (rewrite Ht; congruence). f_equal.
    assert (filter (fun t => task_buf t = Some a') ts = []) as ->; [|done].
    induction Hts as [|x ts Hx Hts IH]; [done|]. rewrite filter_cons_False by (rewrite Hx; congruence). done.
Qed.

(** *** The receiver takes the command in its slot *)
Lemma tx_rest cb b : bufs_ok cb -> tx_bufs cb = [b] ->
  Forall (fun b' => addr b' <> addr b) (empty_bufs cb ++ (full_bufs cb ++ option_list (cur_buf cb)) ++ waiting_bufs cb).
Proof.
  intros Hb Htx. eapply bufs_others; [done|]. unfold all_bufs. rewrite Htx. cbn. solve_Permutation.
Qed.

Lemma ready_ok mm cb sb rb nt rs cnts :
  bufs_ok cb -> protocol mm cb sb rb nt rs cnts ->
  ready rb = Ok (None, rb) \/
  exists b c rb', ready rb = Ok (Some c, rb') /\ tx_bufs cb = [b] /\ announces mm b c /\ cmd_hash c = cmd_hash sb /\
    protocol mm cb sb rb' nt (rs ++ [FetchBuf c]) cnts.
Proof.
  intros Hb Hp. pose proof (pr_tx _ _ _ _ _ _ _ Hp) as Hs.
  destruct (tx_bufs cb) as [|b [|]] eqn:Htx; cbn in Hs; [| |done].
  { left. by eapply ready_quiet, Hs. }
  destruct Hs as (Hh & [((Hi & Hts & Htr) & Han & Hca)|[(_ & _ & Hq)|(_ & Hq)]]); [|left; by eapply ready_quiet..].
  destruct Hh as (Hse & Hc & Hd & Hsz).
  assert (b ∈ all_bufs cb) as Hin by (unfold all_bufs; rewrite Htx, !elem_of_app; right; right; right; left; by left).
  pose proof (bufs_wf cb b Hb Hin) as Hwf. pose proof (Hpos _ (bw_addr b Hwf)).
  destruct (ready_carrying sb rb nt Hca Hse Hc) as [Hr|(rb' & Hr & Hco & Hcm & Hch & Hq)]; [lia|unfold size, SIZE_OF_CMD in *; lia|by left|].
  right. exists b, rb, rb'. unfold core in Hco. injection Hco as Ed Es Em.
  assert (announces mm b rb) as Ha.
  { destruct Han as (? & ? & ? & ?). split_and!; congruence. }
  split_and!; try done.
  assert (forall a', a' <> addr b -> tasks_of (rs ++ [FetchBuf rb]) a' = tasks_of rs a') as Hoth.
  { intros a' Hne. unfold tasks_of. rewrite filter_app, filter_cons_False; [by rewrite app_nil_r|]. cbn. rewrite Ed, Hd. congruence. }
  pose proof (tx_rest cb b Hb Htx) as Hne. rewrite !Forall_app in Hne. destruct Hne as (Hn1 & Hn2 & Hn3).
  rewrite <- Forall_app in Hn2. rewrite Forall_forall in Hn1, Hn2, Hn3.
  apply (protocol_update (rb := rb) (mm := mm) (nt := nt) (rs := rs) (cnts := cnts) (addr b)); try done.
  - intros b' Hb'. split; [|done]. split; [done..|by apply Hoth].
  - intros b' Hb' He. by destruct (Hn1 b').
  - intros b' Hb' He. by destruct (Hn2 b').
  - intros b' Hb' He. by destruct (Hn3 b').
  - rewrite Htx. split; [done|]. right. left. split; [done|]. split; [|done]. exists rb.
    split_and!; try done. unfold tasks_of. rewrite filter_app. unfold tasks_of in Hts. rewrite Hts. cbn.
    rewrite decide_True; [done|]. by rewrite Ed, Hd.
  - apply Forall_app. split; [apply (pr_tasks _ _ _ _ _ _ _ Hp)|]. constructor; [|done]. exists (addr b). cbn.
    split; [by rewrite Ed, Hd|apply Hwf].
  - apply (pr_bytes _ _ _ _ _ _ _ Hp).
  - intros t t' id Ht Ht' Hid Hid'. apply elem_of_app in Ht as [Ht| ->%list_elem_of_singleton]; [|done].
    apply elem_of_app in Ht' as [Ht'| ->%list_elem_of_singleton]; [|done]. by eapply (pr_ids _ _ _ _ _ _ _ Hp).
Qed.

(** *** Deliveries *)
Lemma deliver_word_ok mm cb sb rb nt rs cnts i p :
  protocol mm cb sb rb nt rs cnts -> nt !! i = Some p -> loc p ∉ map loc (take i nt) -> (forall a c, p <> WByte a c) ->
  protocol mm cb sb (arrive rb p) (delete i nt) rs cnts /\ forall b, undone mm (delete i nt) b = undone mm nt b.
Proof.
  intros Hp Hi He Hw.
  assert (forall a, bytes_to (delete i nt) a = bytes_to nt a) as Hby.
  { intros a. apply (omap_delete_None _ nt i p Hi). destruct p; try done. by destruct (Hw a0 c). }
  assert (forall b, same mm mm nt (delete i nt) rs rs b) as Hsame by (intros b; split; [done|by apply Hby|done]).
  assert (after rb p = arrive rb p) as Haf by (destruct p; try done; by destruct (Hw a c)).
  split; [|intros b; apply (same_undone _ _ _ _ _ _ _ (Hsame b))].
  destruct Hp as [H1 H2 H3 H4 H5 H6 H7]. split; try done.
  - eapply Forall_impl; [exact H1|]. intros b. apply (same_blank (Hsame b)).
  - eapply Forall_impl; [exact H2|]. intros b. apply (same_idle (Hsame b)).
  - apply (slots_update (mm := mm) (rb := rb) (nt := nt) (rs := rs) (cnts := cnts)); try done.
    + intros Hq. rewrite <- Haf. by apply quiet_deliver.
    + intros c Hc. rewrite <- Haf. by apply carrying_deliver.
    + intros b _. left. by split.
  - eapply Forall_impl; [exact H4|]. intros b [Hf Hh]. split; [|done]. by apply (same_fetched (Hsame b) cnts).
  - by apply Forall_delete.
Qed.

Lemma fetched_pop mm mm' nt nt' rs cnts b x c l :
  entries mm' b = entries mm b -> tr mm nt (addr b) = x :: c :: l -> tr mm' nt' (addr b) = c :: l ->
  fetched mm nt rs cnts b -> fetched mm' nt' rs cnts b /\ c <> Tx.
Proof.
  intros He Ht Ht' (Hi & [(Hne & (id & Hid & Hit) & Hl & Htr)|(Hn & Htr)]).
  - rewrite Ht in Htr. destruct Htr as [[= -> -> ->]|[=]]. split; [|done]. split; [done|]. left.
    split; [done|]. split; [|split; [done|by right]]. exists id. split; [done|].
    eapply Forall_impl; [exact Hit|]. intros t. unfold item. by rewrite He.
  - rewrite Ht in Htr. split; [|destruct Htr as [[= _ -> _]|[[= _ -> _]|[=]]]; done]. split; [done|]. right.
    split; [done|]. rewrite Ht'. destruct Htr as [[= _ -> ->]|[[= _ -> ->]|[=]]]; auto.
Qed.

Lemma byte_stage mm cb sb rb nt rs cnts b :
  protocol mm cb sb rb nt rs cnts -> b ∈ all_bufs cb -> bytes_to nt (addr b) <> [] ->
  fetched mm nt rs cnts b /\ (b ∈ waiting_bufs cb \/ (tx_bufs cb = [b] /\ holds sb b /\ quiet rb nt)).
Proof.
  intros Hp Hin Hby. unfold all_bufs in Hin. rewrite !elem_of_app in Hin. destruct Hp as [He Hi Ht Hw _ _ _].
  rewrite Forall_forall in He, Hi, Hw.
  assert (tr mm nt (addr b) <> [Tx]) as Hno by (unfold tr; intros [= _ Hn]; done).
  destruct Hin as [Hin|[Hin|[Hin|[Hin|Hin]]]].
  - by destruct (He b Hin) as (_ & _ & Hn).
  - by destruct (Hi b) as (_ & _ & Hn); [apply elem_of_app; left|].
  - by destruct (Hi b) as (_ & _ & Hn); [apply elem_of_app; right|].
  - destruct (tx_bufs cb) as [|b' [|]]; [by apply elem_of_nil in Hin| |done].
    apply list_elem_of_singleton in Hin as <-. destruct Ht as (Hh & [((_ & _ & ?) & _)|[(_ & (? & _ & ? & _) & _)|[? ?]]]); try done.
    split; [done|by right].
  - split; [by apply Hw|by left].
Qed.

(** A step of a fetched buffer. *)
Lemma protocol_focus mm mm' cb sb rb nt nt' rs rs' cnts cnts' b0 :
  bufs_ok cb -> protocol mm cb sb rb nt rs cnts ->
  b0 ∈ waiting_bufs cb \/ (tx_bufs cb = [b0] /\ holds sb b0 /\ quiet rb nt) ->
  (forall b, addr b <> addr b0 -> untouched (mm := mm) (mm' := mm') (nt := nt) (nt' := nt') (rs := rs) (rs' := rs') (cnts := cnts) (cnts' := cnts') b) ->
  fetched mm' nt' rs' cnts' b0 -> (b0 ∈ waiting_bufs cb -> head_cmd mm' (addr b0) <> Tx) ->
  (quiet rb nt -> quiet rb nt') -> (forall c, carrying c rb nt -> carrying c rb nt') ->
  Forall (fun t => exists a, task_buf t = Some a /\ a ∈ addrs) rs' ->
  Forall (fun p => forall a c, p = WByte a c -> a ∈ addrs) nt' ->
  (forall t t' id, t ∈ rs' -> t' ∈ rs' -> task_id t = Some id -> task_id t' = Some id -> task_buf t = task_buf t') ->
  protocol mm' cb sb rb nt' rs' cnts'.
Proof.
  intros Hb Hp Hplace Hoth Hf Hhd Hq Hc Ht Hby Hid.
  assert (Forall (fun b => addr b <> addr b0) (empty_bufs cb ++ full_bufs cb ++ option_list (cur_buf cb)) /\
    (forall b, b ∈ waiting_bufs cb -> addr b = addr b0 -> b = b0) /\
    (forall b, tx_bufs cb = [b] -> addr b = addr b0 -> b = b0 /\ holds sb b0 /\ quiet rb nt)) as (Hne & Hw & Htx).
  { destruct Hplace as [Hin|(Htx & Hh & Hqu)].
    - pose proof Hin as [w Hw]%elem_of_Permutation.
      pose proof (bufs_others cb b0 ((empty_bufs cb ++ full_bufs cb ++ option_list (cur_buf cb)) ++ tx_bufs cb ++ w) Hb) as Hot.
      rewrite !Forall_app in Hot. destruct Hot as (H1 & H2 & H3); [unfold all_bufs; rewrite Hw; solve_Permutation|].
      split; [by rewrite !Forall_app|]. split.
      + intros b Hbw Hab. rewrite Hw in Hbw. apply elem_of_cons in Hbw as [->|Hbw]; [done|].
        rewrite Forall_forall in H3. by destruct (H3 b Hbw).
      + intros b Hbt Hab. rewrite Hbt in H2. apply Forall_cons in H2 as [H2 _]. done.
    - pose proof (tx_rest cb b0 Hb Htx) as Hot. rewrite !Forall_app in Hot. destruct Hot as (H1 & (H2 & H2') & H3).
      split; [by rewrite !Forall_app|]. split.
      + intros b Hbw Hab. rewrite Forall_forall in H3. by destruct (H3 b Hbw).
      + intros b Hbt Hab. rewrite Htx in Hbt. by injection Hbt as <-. }
  rewrite Forall_forall in Hne.
  apply (protocol_update (rb := rb) (mm := mm) (nt := nt) (rs := rs) (cnts := cnts) (addr b0)); try done.
  - intros b Hin Hab. destruct (Hne b); [apply elem_of_app; by left|done].
  - intros b Hin Hab. destruct (Hne b); [apply elem_of_app; by right|done].
  - intros b Hin Hab. pose proof (Hw b Hin Hab) as ->. split; [done|by apply Hhd].
  - apply (slots_update (mm := mm) (rb := rb) (nt := nt) (rs := rs) (cnts := cnts)); try done; [by apply (pr_tx _ _ _ _ _ _ _ Hp)|].
    intros b Hbt. destruct (decide (addr b = addr b0)) as [Hab|Hnab]; [|left; by apply Hoth]. right.
    destruct (Htx b Hbt Hab) as (-> & Hh & Hqu). split; [done|]. right. right. split; [done|by apply Hq].
Qed.

Lemma deliver_byte_ok mm cb sb rb nt rs cnts i a c :
  bufs_ok cb -> mem_ok mm -> protocol mm cb sb rb nt rs cnts ->
  nt !! i = Some (WByte a c) -> loc (WByte a c) ∉ map loc (take i nt) ->
  exists mm', write_cmd mm a c = Ok mm' /\ mem_ok mm' /\ protocol mm' cb sb rb (delete i nt) rs cnts /\
    (forall b, entries mm' b = entries mm b) /\ (forall b, b ∈ all_bufs cb -> undone mm' (delete i nt) b = undone mm nt b).
Proof.
  intros Hb Hm Hp Hi He.
  assert (a ∈ addrs) as Ha.
  { pose proof (pr_bytes _ _ _ _ _ _ _ Hp) as H. rewrite Forall_forall in H.
    by apply (H (WByte a c) (list_elem_of_lookup_2 _ _ _ Hi) a c). }
  destruct (buf_at cb a Hb Ha) as (b0 & Hin0 & <-).
  destruct (read_cell_ok mm (addr b0) 0 Hm Ha Hlen) as (m & Hm0 & Hrd).
  destruct (mem_ok_cells mm (addr b0) Hm Ha) as [Hcs Hcl].
  set (mm' := <[addr b0 := <[0%nat := set_cmd m c]> (cells_at mm (addr b0))]> mm).
  exists mm'. split; [unfold write_cmd; rewrite Hrd; by apply write_cell_ok|].
  split; [apply mem_ok_insert; [done|by rewrite length_insert]|].
  assert (forall b, entries mm' b = entries mm b) as Hent.
  { intros b. unfold entries, mm'. destruct (decide (addr b = addr b0)) as [->|Hne]; [|by rewrite cells_at_insert_ne].
    rewrite cells_at_insert. destruct (cells_at mm (addr b0)) as [|m0 cs]; [done|]. cbn in Hm0. injection Hm0 as ->.
    by destruct (index b). }
  assert (forall b, addr b <> addr b0 -> same mm mm' nt (delete i nt) rs rs b) as Hoth.
  { intros b Hne. split; [by apply cells_at_insert_ne| |done].
    apply (omap_delete_None _ nt i _ Hi). cbn. by rewrite decide_False. }
  assert (bytes_to nt (addr b0) = c :: bytes_to (delete i nt) (addr b0)) as Hby.
  { apply (omap_delete_Some _ nt i (WByte (addr b0) c)); [done|cbn; by rewrite decide_True|].
    intros q Hq. destruct q as [| | | | |a' c']; try done. cbn. rewrite decide_False; [done|]. intros ->. apply He.
    apply (list_elem_of_fmap_2 loc _ _ Hq). }
  assert (tr mm nt (addr b0) = head_cmd mm (addr b0) :: c :: bytes_to (delete i nt) (addr b0)) as Htr by (unfold tr; by rewrite Hby).
  assert (tr mm' (delete i nt) (addr b0) = c :: bytes_to (delete i nt) (addr b0)) as Htr'.
  { unfold tr, head_cmd, mm'. rewrite cells_at_insert. destruct (cells_at mm (addr b0)); [cbn in Hcl; lia|done]. }
  destruct (byte_stage _ _ _ _ _ _ _ b0 Hp Hin0) as [Hf0 Hplace]; [by rewrite Hby|].
  destruct (fetched_pop mm mm' nt (delete i nt) rs cnts b0 _ _ _ (Hent b0) Htr Htr' Hf0) as [Hf' Hc].
  split; [|split; [done|]].
  - apply (protocol_focus mm mm' cb sb rb nt _ rs rs cnts cnts b0); try done.
    + intros b Hne. split; [by apply Hoth|done].
    + intros _. by injection Htr' as ->.
    + intros Hq. by apply (quiet_deliver rb nt i (WByte (addr b0) c)).
    + intros c' Hc'. by apply (carrying_deliver c' rb nt i (WByte (addr b0) c)).
    + apply (pr_tasks _ _ _ _ _ _ _ Hp).
    + by apply Forall_delete, (pr_bytes _ _ _ _ _ _ _ Hp).
    + apply (pr_ids _ _ _ _ _ _ _ Hp).
  - intros b Hin. destruct (decide (addr b = addr b0)) as [Hab|Hne].
    + unfold undone. rewrite Hab, Htr, Htr'. rewrite !decide_False; [done|done|]. by intros [=].
    + apply (same_undone _ _ _ _ _ _ _ (Hoth b Hne)).
Qed.

(** *** The tasks of the receiver *)
Lemma bytes_to_byte nt a c b : bytes_to (nt ++ [WByte a c]) b = if decide (a = b) then bytes_to nt b ++ [c] else bytes_to nt b.
Proof. rewrite bytes_to_app. cbn. case_decide; [done|apply app_nil_r]. Qed.

Lemma task_id_bound mm cb sb rb nt rs cnts t id :
  bufs_ok cb -> protocol mm cb sb rb nt rs cnts -> t ∈ rs -> task_id t = Some id -> (id < length cnts)%nat.
Proof.
  intros Hb Hp Ht Hid. destruct (task_stage mm cb sb rb nt rs cnts t Hb Hp Ht) as (b & Hin & Htb & _ & Hst).
  pose proof (elem_tasks_of rs t _ Ht Htb) as Hto.
  destruct Hst as [(_ & _ & _ & (c & Hc & _) & _)|((_ & (id' & Hid' & Hit) & _) & _)].
  - rewrite Hc in Hto. apply list_elem_of_singleton in Hto as ->. done.
  - rewrite Forall_forall in Hit. specialize (Hit t Hto). apply lookup_lt_Some in Hid'.
    destruct t; cbn in Hid, Hit; try done; injection Hid as <-; [by destruct Hit as [-> _]|by subst].
Qed.

(** The replaced tasks keep the properties of all tasks. *)
Lemma tasks_replace rs i t ts a :
  a ∈ addrs -> Forall (fun t' => task_buf t' = Some a) ts ->
  Forall (fun t => exists a, task_buf t = Some a /\ a ∈ addrs) rs -> rs !! i = Some t ->
  Forall (fun t => exists a, task_buf t = Some a /\ a ∈ addrs) (take i rs ++ ts ++ drop (S i) rs).
Proof.
  intros Ha Hts Hrs Hi. apply Forall_app. split; [by apply Forall_take|]. apply Forall_app. split; [|by apply Forall_drop].
  eapply Forall_impl; [exact Hts|]. intros t' Ht'. by exists a.
Qed.

Lemma ids_replace rs i t ts a :
  rs !! i = Some t -> Forall (fun t' => task_buf t' = Some a) ts ->
  (forall t' t'' id, t' ∈ ts -> t'' ∈ rs -> task_id t' = Some id -> task_id t'' = Some id -> task_buf t'' = Some a) ->
  (forall t t' id, t ∈ rs -> t' ∈ rs -> task_id t = Some id -> task_id t' = Some id -> task_buf t = task_buf t') ->
  forall t t' id, t ∈ take i rs ++ ts ++ drop (S i) rs -> t' ∈ take i rs ++ ts ++ drop (S i) rs ->
    task_id t = Some id -> task_id t' = Some id -> task_buf t = task_buf t'.
Proof.
  intros Hi Hts Hnew Hid t1 t2 id H1 H2 Hi1 Hi2. rewrite Forall_forall in Hts.
  apply elem_of_replace in H1 as [H1|H1], H2 as [H2|H2].
  - by rewrite (Hts t1 H1), (Hts t2 H2).
  - rewrite (Hts t1 H1). symmetry. by eapply Hnew.
  - rewrite (Hts t2 H2). by eapply Hnew.
  - by eapply Hid.
Qed.

Lemma fetch_buf_ok mm cb sb rb nt rs cnts i c :
  bufs_ok cb -> mem_ok mm -> protocol mm cb sb rb nt rs cnts -> rs !! i = Some (FetchBuf c) ->
  (forall x, x ∈ queued mm cb -> 0 < x.1.2) ->
  exists cs, read_cells mm (daddr c) (Z.to_nat (dsize c / SIZE_OF_CMD)) = Ok cs /\
    (calc_hash (bytes_of cs) =? msg_hash c) = true /\ forallb (fun x => negb (dsize x =? 0)) cs = true /\
    protocol mm cb sb rb (nt ++ send_release c) (take i rs ++ map (FetchCmd (length cnts) c) cs ++ drop (S i) rs)
      (cnts ++ [Z.of_nat (Z.to_nat (dsize c / SIZE_OF_CMD))]) /\
    todo_bufs mm (nt ++ send_release c) cb ++ map core cs ≡ₚ todo_bufs mm nt cb.
Proof.
  intros Hb Hm Hp Hi Hgood. pose proof (list_elem_of_lookup_2 _ _ _ Hi) as Ht.
  destruct (task_stage _ _ _ _ _ _ _ _ Hb Hp Ht) as (b & Hin & Htb & Hidx & Hst).
  destruct Hst as [(Htx & Hh & Hts & (c' & Hc' & Htr & Han) & Hq)|((_ & (id & _ & Hit) & _) & _)].
  2:{ rewrite Forall_forall in Hit. by destruct (Hit _ (elem_tasks_of _ _ _ Ht Htb)). }
  rewrite Hts in Hc'. injection Hc' as <-. destruct Han as (Hd & Hsz & Hcm & Hmh).
  pose proof (bufs_wf cb b Hb Hin) as Hwf.
  assert (Z.to_nat (dsize c / SIZE_OF_CMD) = index b) as En.
  { rewrite Hsz. unfold size, SIZE_OF_CMD. rewrite Z.div_mul by done. lia. }
  rewrite En, Hd. set (cs := take (index b) (cells_at mm (addr b))) in *.
  assert (entries mm b = map core cs) as Hent by done.
  assert (length cs = index b) as Hlcs.
  { destruct (mem_ok_cells mm (addr b) Hm (bw_addr b Hwf)) as [_ Hl]. unfold cs. rewrite length_take. pose proof (bw_index b Hwf). lia. }
  exists cs. split; [apply read_cells_ok; [done|apply Hwf..]|]. split; [by rewrite Hmh, Z.eqb_refl|].
  split.
  { apply forallb_forall. intros x Hx. assert (0 < dsize x) as Hx0; [|zbool; done].
    apply (Hgood (core x)). unfold queued. apply list_elem_of_In, in_flat_map. exists b.
    split; [by apply list_elem_of_In|]. rewrite Hent. apply list_elem_of_In. apply list_elem_of_fmap_2, list_elem_of_In, Hx. }
  assert (Forall (fun t' => task_buf t' = Some (addr b)) (map (FetchCmd (length cnts) c) cs)) as Hnew.
  { apply Forall_forall. intros t' (x & -> & Hx)%list_elem_of_fmap. cbn. by rewrite Hd. }
  destruct (tasks_of_replace rs i _ _ (addr b) Hi Htb Hnew) as [(l & Hl1 & Hl2) Hoth].
  rewrite Hts in Hl1. assert (l = []) as -> by (apply (Permutation_cons_inv (a := FetchBuf c)), Permutation_nil in Hl1; done).
  rewrite app_nil_r in Hl2. set (rs' := take i rs ++ _ ++ drop (S i) rs) in *.
  assert (forall b', addr b' <> addr b -> same mm mm nt (nt ++ [WByte (addr b) Release]) rs rs' b') as Hsame.
  { intros b' Hne. split; [done| |by apply Hoth]. by rewrite bytes_to_byte, decide_False. }
  assert (tr mm (nt ++ [WByte (addr b) Release]) (addr b) = [Tx; Release]) as Htr'.
  { unfold tr in *. rewrite bytes_to_byte, decide_True by done. by injection Htr as -> ->. }
  unfold send_release. rewrite Hd. split.
  - apply (protocol_focus mm mm cb sb rb nt _ rs rs' cnts _ b); try done.
    + by right.
    + intros b' Hne. split; [by apply Hsame|].
      intros t id Hto Hid. apply lookup_app_l. apply list_elem_of_filter in Hto as [_ Hto]. by eapply task_id_bound.
    + split; [done|]. left. split.
      { intros Hn. rewrite Hn in Hl2. apply Permutation_nil_l in Hl2. destruct cs; [cbn in Hlcs; lia|done]. }
      rewrite Hl2, length_map, Hlcs. split; [|split; [by apply Hwf|by left]].
      exists (length cnts). split; [by rewrite Hl2, length_map, Hlcs, lookup_app_r, Nat.sub_diag by lia|].
      rewrite Hl2. apply Forall_forall. intros t' (x & -> & Hx)%list_elem_of_fmap. split; [done|].
      rewrite Hent. by apply list_elem_of_fmap_2.
    + intros Hbw. pose proof (tx_rest cb b Hb Htx) as Hot. rewrite !Forall_app in Hot. destruct Hot as (_ & _ & Hot).
      rewrite Forall_forall in Hot. by destruct (Hot b Hbw).
    + apply quiet_app.
    + intros c' [? ? ? ? ?]. split; rewrite omap_app; cbn; by rewrite app_nil_r.
    + eapply tasks_replace; try done; [apply Hwf|apply (pr_tasks _ _ _ _ _ _ _ Hp)].
    + apply Forall_app. split; [apply (pr_bytes _ _ _ _ _ _ _ Hp)|]. repeat constructor. intros a c' [= <- _]. apply Hwf.
    + eapply ids_replace; try done; [|apply (pr_ids _ _ _ _ _ _ _ Hp)].
      intros t' t'' id (x & -> & Hx)%list_elem_of_fmap Ht'' [= <-] Hid. exfalso.
      pose proof (task_id_bound _ _ _ _ _ _ _ _ _ Hb Hp Ht'' Hid). lia.
  - apply elem_of_Permutation in Hin as [rest Hrest]. pose proof (bufs_others cb b rest Hb Hrest) as Hot.
    unfold todo_bufs. rewrite Hrest. cbn [flat_map]. unfold undone at 1 3. rewrite Htr, Htr'. cbn.
    rewrite (flat_map_ext_Forall (undone mm (nt ++ [WByte (addr b) Release])) (undone mm nt) rest).
    + rewrite Hent. apply Permutation_app_comm.
    + eapply Forall_impl; [exact Hot|]. intros b' Hne. by apply (same_undone mm mm _ _ rs rs'), Hsame.
Qed.

(** The task of a command works for an opened buffer. *)
Lemma item_stage mm cb sb rb nt rs cnts t id a :
  bufs_ok cb -> protocol mm cb sb rb nt rs cnts -> t ∈ rs -> task_id t = Some id -> task_buf t = Some a ->
  exists b, b ∈ all_bufs cb /\ addr b = a /\ (0 < index b)%nat /\ t ∈ tasks_of rs a /\
    cnts !! id = Some (Z.of_nat (length (tasks_of rs a))) /\ Forall (item id mm b) (tasks_of rs a) /\
    (length (tasks_of rs a) <= buf_len)%nat /\ (tr mm nt a = [Tx; Release] \/ tr mm nt a = [Release]) /\
    (b ∈ waiting_bufs cb \/ (tx_bufs cb = [b] /\ holds sb b /\ quiet rb nt)).
Proof.
  intros Hb Hp Ht Hid Hta. destruct (task_stage mm cb sb rb nt rs cnts t Hb Hp Ht) as (b & Hin & Htb & Hidx & Hst).
  rewrite Hta in Htb. injection Htb as ->. pose proof (elem_tasks_of rs t _ Ht Hta) as Hto.
  destruct Hst as [(_ & _ & _ & (c & Hc & _) & _)|((Hne & (id' & Hid' & Hit) & Hl & Htr) & Hpl)].
  { rewrite Hc in Hto. by apply list_elem_of_singleton in Hto as ->. }
  assert (id' = id) as ->.
  { rewrite Forall_forall in Hit. specialize (Hit t Hto).
    destruct t; cbn in Hid, Hit; try done; injection Hid as <-; [by destruct Hit as [-> _]|by subst]. }
  exists b. by split_and!.
Qed.

Lemma fetch_cmd_ok mm cb sb rb nt rs cnts i id bc c :
  bufs_ok cb -> protocol mm cb sb rb nt rs cnts -> rs !! i = Some (FetchCmd id bc c) ->
  core c ∈ queued mm cb /\
  protocol mm cb sb rb nt (take i rs ++ [FetchDone id bc] ++ drop (S i) rs) cnts.
Proof.
  intros Hb Hp Hi. pose proof (list_elem_of_lookup_2 _ _ _ Hi) as Ht.
  destruct (item_stage _ _ _ _ _ _ _ _ id (daddr bc) Hb Hp Ht eq_refl eq_refl)
    as (b & Hin & Ha & Hidx & Hto & Hcn & Hit & Hl & Htr & Hpl).
  assert (core c ∈ entries mm b) as Hce.
  { rewrite Forall_forall in Hit. by destruct (Hit _ Hto). }
  split; [unfold queued; apply list_elem_of_In, in_flat_map; exists b; split; by apply list_elem_of_In|].
  assert (Forall (fun t' => task_buf t' = Some (daddr bc)) [FetchDone id bc]) as Hnew by by constructor.
  destruct (tasks_of_replace rs i _ _ (daddr bc) Hi eq_refl Hnew) as [(l & Hl1 & Hl2) Hoth].
  set (rs' := take i rs ++ _ ++ drop (S i) rs) in *. rewrite <- Ha in *.
  apply (protocol_focus mm mm cb sb rb nt nt rs rs' cnts cnts b); try done.
  - intros b' Hne. split; [|done]. split; [done..|by apply Hoth].
  - split; [done|]. left. split; [by intros Hn; rewrite Hn in Hl2; apply Permutation_nil_l in Hl2|].
    split; [|rewrite Hl2; by rewrite Hl1 in Hl].
    exists id. split; [by rewrite Hl2; rewrite Hl1 in Hcn|]. rewrite Hl2. rewrite Hl1 in Hit.
    apply Forall_cons in Hit as [_ Hit]. by constructor.
  - intros Hbw. pose proof (pr_wait _ _ _ _ _ _ _ Hp) as Hw. rewrite Forall_forall in Hw. by apply Hw.
  - eapply tasks_replace; try done; [by eapply bw_addr, bufs_wf|apply (pr_tasks _ _ _ _ _ _ _ Hp)].
  - apply (pr_bytes _ _ _ _ _ _ _ Hp).
  - eapply ids_replace; try done; [|apply (pr_ids _ _ _ _ _ _ _ Hp)].
    intros t' t'' id' ->%list_elem_of_singleton Ht'' Hid' Hid''.
    rewrite (pr_ids _ _ _ _ _ _ _ Hp t'' (FetchCmd id bc c) id' Ht'' Ht Hid'' Hid'). cbn. by rewrite Ha.
Qed.

Hypothesis Hwidth : Z.of_nat buf_len < USIZE.

Lemma fetch_done_ok mm cb sb rb nt rs cnts i id bc :
  bufs_ok cb -> protocol mm cb sb rb nt rs cnts -> rs !! i = Some (FetchDone id bc) ->
  exists k, cnts !! id = Some k /\
    protocol mm cb sb rb (nt ++ if k =? 1 then send_free bc else []) (take i rs ++ [] ++ drop (S i) rs) (<[id := wsub k 1]> cnts) /\
    (forall b, b ∈ all_bufs cb -> undone mm (nt ++ if k =? 1 then send_free bc else []) b = undone mm nt b).
Proof.
  intros Hb Hp Hi. pose proof (list_elem_of_lookup_2 _ _ _ Hi) as Ht.
  destruct (item_stage _ _ _ _ _ _ _ _ id (daddr bc) Hb Hp Ht eq_refl eq_refl)
    as (b & Hin & Ha & Hidx & Hto & Hcn & Hit & Hl & Htr & Hpl).
  destruct (tasks_of_replace rs i _ [] (daddr bc) Hi eq_refl (Forall_nil_2 _)) as [(l & Hl1 & Hl2) Hoth].
  set (rs' := take i rs ++ _ ++ drop (S i) rs) in *. cbn [app] in Hl2. rewrite Hl1 in Hcn, Hl. cbn [length] in Hcn, Hl.
  eexists. split; [exact Hcn|].
  assert (wsub (Z.of_nat (S (length l))) 1 = Z.of_nat (length l)) as -> by (rewrite wsub_ok; lia).
  set (ps := if _ =? 1 then _ else _).
  assert (ps = match l with [] => [WByte (addr b) Free] | _ => [] end) as Hps.
  { unfold ps, send_free. rewrite Ha. destruct l; [done|]. cbn [length]. zbool. done. }
  assert (forall a', a' <> addr b -> bytes_to (nt ++ ps) a' = bytes_to nt a') as Hby.
  { intros a' Hne. rewrite Hps. destruct l; [by rewrite bytes_to_byte, decide_False|by rewrite app_nil_r]. }
  assert (tr mm (nt ++ ps) (addr b) = tr mm nt (addr b) ++ match l with [] => [Free] | _ => [] end) as Htr'.
  { unfold tr. rewrite Hps. destruct l; [by rewrite bytes_to_byte, decide_True|by rewrite !app_nil_r]. }
  rewrite <- Ha in *. split.
  - apply (protocol_focus mm mm cb sb rb nt _ rs rs' cnts _ b); try done.
    + intros b' Hne. split; [split; [done|by apply Hby|by apply Hoth]|].
      intros t id' Hto' Hid'. apply list_lookup_insert_ne. intros <-. apply list_elem_of_filter in Hto' as [Hb' Hto'].
      pose proof (pr_ids _ _ _ _ _ _ _ Hp t (FetchDone id bc) id Hto' Ht Hid' eq_refl) as He.
      rewrite Hb' in He. cbn in He. rewrite <- Ha in He. congruence.
    + split; [done|]. destruct l as [|t l].
      * right. split; [by apply Permutation_nil_r|]. rewrite Htr'. destruct Htr as [->| ->]; cbn; auto.
      * left. split; [by intros Hn; rewrite Hn in Hl2; apply Permutation_nil_l in Hl2|].
        rewrite Hl2, Htr', app_nil_r. split; [|split; [cbn in *; lia|done]]. exists id.
        split; [rewrite Hl2; apply list_lookup_insert_Some; left; split_and!; [done|done|by eapply lookup_lt_Some]|].
        rewrite Hl2. rewrite Hl1 in Hit. by apply Forall_cons in Hit as [_ Hit].
    + intros Hbw. pose proof (pr_wait _ _ _ _ _ _ _ Hp) as Hw. rewrite Forall_forall in Hw. by apply Hw.
    + intros Hq. rewrite Hps. destruct l; [by apply quiet_app|by rewrite app_nil_r].
    + intros c' [? ? ? ? ?]. rewrite Hps. destruct l; [|by rewrite app_nil_r].
      split; rewrite omap_app; cbn; by rewrite app_nil_r.
    + eapply (tasks_replace rs i _ [] (addr b)); try done; [by eapply bw_addr, bufs_wf|apply (pr_tasks _ _ _ _ _ _ _ Hp)].
    + apply Forall_app. split; [apply (pr_bytes _ _ _ _ _ _ _ Hp)|]. rewrite Hps. destruct l; [|done].
      repeat constructor. intros a c' [= <- _]. by eapply bw_addr, bufs_wf.
    + eapply (ids_replace rs i _ [] (addr b)); try done; [|apply (pr_ids _ _ _ _ _ _ _ Hp)].
      intros t' ? ? Ht'. by apply elem_of_nil in Ht'.
  - intros b' _. unfold undone. destruct (decide (addr b' = addr b)) as [->|Hne].
    + rewrite Htr'. destruct Htr as [->| ->], l; done.
    + unfold tr. by rewrite Hby.
Qed.
End Inv.
