(* ===== verification/CmdQueueHash.v ===== *)
(** The hashes of the commands of [CmdQueue.v] and the overflow checks of their
    sums: bounds on the messages and on the memory of the buffers under which no
    sum reaches [USIZE], and that the steps of the queue keep the bounds. *)

From stdpp Require Import base list numbers gmap.
From Stdlib Require Import ZArith Lia.
From S2P Require Import Prelude CmdQueue CmdQueueInv.

Local Open Scope Z_scope.

(** ** Sums of words *)
Lemma of_le_to_le n x : 0 <= x -> 0 <= of_le (to_le n x) <= x.
Proof.
  revert x. induction n as [|n IH]; intros x Hx; [cbn; lia|]. cbn [to_le of_le].
  pose proof (Z.div_pos x 256 Hx ltac:(lia)) as Hd. specialize (IH _ Hd). pose proof (Z.div_mod x 256 ltac:(lia)).
  pose proof (Z.mod_pos_bound x 256 ltac:(lia)). lia.
Qed.

Lemma sum_words_word x bs : sum_words (to_le 8 x ++ bs) = of_le (to_le 8 x) + sum_words bs.
Proof. reflexivity. Qed.

(** Bounds on a command: [B] on the sum of the fields of a message, [P] on the
    bytes between the fields. *)
Record small_cell (B P : Z) (c : CmdMsg) : Prop := {
  sc_pad : exists b1 b2 b3 b4 b5 b6 b7, pad c = [b1; b2; b3; b4; b5; b6; b7];
  sc_pad_le : 0 <= 256 * of_le (pad c) <= P;
  sc_fields : 0 <= daddr c /\ 0 <= dsize c /\ 0 <= msg_hash c /\ 0 <= cmd_hash c;
  sc_sum : daddr c + dsize c + msg_hash c + cmd_hash c <= 2 * B;
}.

Lemma sum_words_cell B P c bs : small_cell B P c -> 0 <= sum_words bs ->
  0 <= sum_words (as_bytes c ++ bs) <= 2 * B + 7 + P + sum_words bs.
Proof.
  intros [(b1 & b2 & b3 & b4 & b5 & b6 & b7 & Ep) Hp (H1 & H2 & H3 & H4) Hs] Hbs. unfold as_bytes.
  rewrite <- !app_assoc, !sum_words_word.
  assert (E : forall l, sum_words ([discriminant (cmd c)] ++ pad c ++ l) = discriminant (cmd c) + 256 * of_le (pad c) + sum_words l).
  { intros l. by rewrite Ep. }
  rewrite E, !sum_words_word. pose proof (discriminant_bounds (cmd c)).
  pose proof (of_le_to_le 8 _ H1). pose proof (of_le_to_le 8 _ H2). pose proof (of_le_to_le 8 _ H3). pose proof (of_le_to_le 8 _ H4). lia.
Qed.

Lemma calc_hash_small B P cs : Forall (small_cell B P) cs ->
  calc_hash (bytes_of cs) <= Z.of_nat (length cs) * (2 * B + 7 + P).
Proof.
  intros Hcs. assert (0 <= sum_words (bytes_of cs) <= Z.of_nat (length cs) * (2 * B + 7 + P)) as Hs.
  { induction Hcs as [|c cs Hc _ IH]; [done|]. unfold bytes_of in *. cbn [flat_map length].
    pose proof (sum_words_cell B P c _ Hc (proj1 IH)). lia. }
  unfold calc_hash. pose proof (Z.mod_le (sum_words (bytes_of cs)) USIZE ltac:(lia) ltac:(done)). lia.
Qed.

(** ** When an overflow check fails *)
Lemma hash_overflow m : nonneg m -> hash m = Err Overflow -> USIZE <= fsum m.
Proof. intros Hn Hh. destruct (Z.le_gt_cases USIZE (fsum m)) as [|Hlt]; [done|]. by rewrite hash_ok in Hh. Qed.

Lemma fill_overflow m a n c h : 0 <= a -> 0 <= n -> 0 <= h ->
  fill m a n c h = Err Overflow -> USIZE <= a + n + discriminant c + h.
Proof.
  intros Ha Hn Hh. unfold fill, calc_cmd_hash. destruct (hash _) as [x|w] eqn:E; [done|]. intros [= ->].
  by apply hash_overflow in E.
Qed.

(** The memory of the buffers, and the messages a sender refers to. *)
Definition small_mem (B P : Z) (mm : Mem) : Prop := forall a cs, mm !! a = Some cs -> Forall (small_cell B P) cs.
Definition small_blocks (B : Z) (bl : Blocks) : Prop :=
  forall a b, bl !! a = Some b -> a + Z.of_nat (length (bytes b)) + discriminant Tx + calc_hash (bytes b) <= B.

Lemma push_overflow mm b a n h : 0 <= a -> 0 <= n -> 0 <= h ->
  push mm b a n h = Err Overflow -> USIZE <= a + n + discriminant Tx + h.
Proof.
  intros Ha Hn Hh. unfold push. destruct (_ || _); [done|]. unfold read_cell. destruct (_ ≫= _) as [c|]; [|done].
  destruct (fill c a n Tx h) as [c'|w] eqn:Ef; [|intros [= ->]; by apply fill_overflow in Ef].
  unfold write_cell. destruct (mm !! addr b); [case_decide|]; done.
Qed.

Lemma try_push_overflow mm cb a n h : 0 <= a -> 0 <= n -> 0 <= h ->
  try_push mm cb a n h = Err Overflow -> USIZE <= a + n + discriminant Tx + h.
Proof.
  intros Ha Hn Hh. unfold try_push. destruct (match cur_buf cb with Some _ => _ | None => _ end) as [e [b|]]; [|done].
  destruct (push mm b a n h) as [[mm' b']|w] eqn:Ep; [done|]. intros [= ->]. by eapply push_overflow.
Qed.

Section Announce.
Context (B P : Z) (buf_len : nat) (addrs : list Z).
Context (Hpos : forall a, a ∈ addrs -> 0 < a).

(** Every announcement fits. *)
Definition announcements_fit : Prop :=
  forall a, a ∈ addrs -> a + Z.of_nat buf_len * (SIZE_OF_CMD + 2 * B + 7 + P) + discriminant Tx < USIZE.
Context (Hfit : announcements_fit) (HB : 0 <= B) (HP : 0 <= P).

Lemma announce_fits mm b sb : small_mem B P mm -> buf_wf buf_len addrs b -> announce mm b sb <> Err Overflow.
Proof.
  intros Hm [Hb _ Hi _]. unfold announce, iter, read_cells. destruct (mm !! addr b) as [cells|] eqn:Ec; [|done].
  case_decide as Hl; [|done]. intros Hf. pose proof (Hpos _ Hb). pose proof (calc_hash_range (bytes_of (take (index b) cells))).
  apply fill_overflow in Hf; [|unfold size, SIZE_OF_CMD; lia..].
  pose proof (calc_hash_small B P (take (index b) cells) ltac:(apply Forall_take; by eapply Hm)) as Hh.
  rewrite length_take_le in Hh by done. specialize (Hfit _ Hb). unfold size, SIZE_OF_CMD in *.
  assert (Z.of_nat (index b) * (40 + 2 * B + 7 + P) <= Z.of_nat buf_len * (40 + 2 * B + 7 + P)) by (apply Z.mul_le_mono_nonneg_r; lia).
  lia.
Qed.

Lemma try_sending_fits mm cb sb p : small_mem B P mm -> Forall (buf_wf buf_len addrs) (all_bufs cb) ->
  hash sb <> Err Overflow -> try_sending_buffer mm cb sb p <> Err Overflow.
Proof.
  intros Hm Hw Hs. unfold try_sending_buffer. destruct (_ || _); [|done]. destruct (hash sb) as [h|w]; [|by intros [= ->]].
  rewrite clear_hash_eq. destruct (h =? 1); [|done]. unfold flush_buffer. rewrite Forall_forall in Hw.
  destruct (pop (full_bufs cb)) as [[f b]|] eqn:Ep.
  - apply pop_Some in Ep. assert (buf_wf buf_len addrs b) as Hb.
    { apply Hw. assert (b ∈ full_bufs cb) by (rewrite Ep; apply elem_of_app; right; by left).
      unfold all_bufs. rewrite !elem_of_app. tauto. }
    pose proof (announce_fits mm b sb Hm Hb) as Ha. destruct (announce mm b sb) as [c|w]; [by destruct (0 <? dsize c)|]. congruence.
  - destruct (cur_buf cb) as [b|] eqn:Ec; [|by destruct (0 <? dsize sb)]. assert (buf_wf buf_len addrs b) as Hb.
    { apply Hw. assert (b ∈ option_list (cur_buf cb)) by (rewrite Ec; by left). unfold all_bufs. rewrite !elem_of_app. tauto. }
    pose proof (announce_fits mm b sb Hm Hb) as Ha. destruct (announce mm b sb) as [c|w]; [by destruct (0 <? dsize c)|]. congruence.
Qed.
End Announce.

(** ** The bounds are kept *)
Section Kept.
Context (B P : Z).

Lemma fill_small m a n h m' : small_cell B P m -> 0 <= a -> 0 <= n -> 0 <= h -> a + n + discriminant Tx + h <= B ->
  fill m a n Tx h = Ok m' -> small_cell B P m'.
Proof.
  intros [Hp Hpl _ _] Ha Hn Hh Hs Hf. apply fill_ok in Hf as ((_ & Ech & _) & Ed & Es & Ec & Em & Ep); [|done..].
  unfold fsum in Ech. rewrite Ed, Es, Ec, Em in Ech. cbn [discriminant] in *.
  split; rewrite ?Ep, ?Ed, ?Es, ?Em; try done; lia.
Qed.

Lemma small_mem_insert mm a i cells c : small_mem B P mm -> mm !! a = Some cells -> small_cell B P c ->
  small_mem B P (<[a := <[i := c]> cells]> mm).
Proof.
  intros Hm Hc Hs a' cs [[<- <-]|[_ H]]%lookup_insert_Some; [|by eapply Hm].
  apply Forall_insert; [by eapply Hm|done].
Qed.

Lemma push_small mm b a n h mm' b' : small_mem B P mm -> 0 <= a -> 0 <= n -> 0 <= h ->
  a + n + discriminant Tx + h <= B -> push mm b a n h = Ok (mm', b') -> small_mem B P mm'.
Proof.
  intros Hm Ha Hn Hh Hs. unfold push. destruct (_ || _); [done|]. unfold read_cell, write_cell.
  destruct (mm !! addr b) as [cells|] eqn:Ec; [cbn|done]. destruct (cells !! index b) as [c|] eqn:Ei; [|done].
  destruct (fill c a n Tx h) as [c'|w] eqn:Ef; [|done]. case_decide; [|done]. intros [= <- _].
  apply small_mem_insert; [done|done|]. eapply fill_small, Ef; try done.
  apply (proj1 (Forall_lookup _ _) (Hm _ _ Ec) _ _ Ei).
Qed.

Lemma try_push_small mm cb a n h mm' cb' ok : small_mem B P mm -> 0 <= a -> 0 <= n -> 0 <= h ->
  a + n + discriminant Tx + h <= B -> try_push mm cb a n h = Ok (mm', cb', ok) -> small_mem B P mm'.
Proof.
  intros Hm Ha Hn Hh Hs. unfold try_push. destruct (match cur_buf cb with Some _ => _ | None => _ end) as [e [b|]].
  - destruct (push mm b a n h) as [[mm1 b1]|w] eqn:Ep; [|done]. intros [= <- _ _]. by eapply push_small in Ep.
  - by intros [= <- _ _].
Qed.

Lemma write_cmd_small mm a c mm' : small_mem B P mm -> write_cmd mm a c = Ok mm' -> small_mem B P mm'.
Proof.
  intros Hm. unfold write_cmd, read_cell, write_cell. destruct (mm !! a) as [cells|] eqn:Ec; [cbn|done].
  destruct (cells !! 0%nat) as [m|] eqn:Ei; [|done]. case_decide; [|done]. intros [= <-].
  apply small_mem_insert; [done|done|]. pose proof (proj1 (Forall_lookup _ _) (Hm _ _ Ec) _ _ Ei) as [H1 H2 H3 H4].
  by split.
Qed.

(** Blocks keep their bytes. *)
Definition fewer (bl bl' : Blocks) : Prop :=
  forall a b', bl' !! a = Some b' -> exists b, bl !! a = Some b /\ bytes b' = bytes b.
#[global] Instance fewer_pre : PreOrder fewer.
Proof.
  split; [intros bl a b' Hb; by exists b'|]. intros b1 b2 b3 H1 H2 a b Hb.
  destruct (H2 a b Hb) as (b' & Hb' & ->). by apply H1.
Qed.

Lemma fewer_small bl bl' : fewer bl bl' -> small_blocks B bl -> small_blocks B bl'.
Proof. intros Hf Hs a b' Hb. destruct (Hf a b' Hb) as (b & Hb' & ->). by apply Hs. Qed.

Lemma add_ref_fewer bl a bl' : add_ref bl a = Ok bl' -> fewer bl bl'.
Proof.
  unfold add_ref. destruct (bl !! a) as [b|] eqn:Eb; [|done]. intros [= <-] a' b' [[<- <-]|[_ H]]%lookup_insert_Some;
    [by exists b|by exists b'].
Qed.

Lemma drop_ref_fewer bl a bl' : drop_ref bl a = Ok bl' -> fewer bl bl'.
Proof.
  unfold drop_ref. destruct (bl !! a) as [b|] eqn:Eb; [|done]. intros [= <-] a' b'. destruct (ref_cnt b =? 1).
  - intros [_ H]%lookup_delete_Some. by exists b'.
  - intros [[<- <-]|[_ H]]%lookup_insert_Some; [by exists b|by exists b'].
Qed.

(** Neither of them computes a sum. *)
Lemma add_ref_overflow bl a : add_ref bl a <> Err Overflow.
Proof. unfold add_ref. by destruct (bl !! a). Qed.
Lemma drop_ref_overflow bl a : drop_ref bl a <> Err Overflow.
Proof. unfold drop_ref. by destruct (bl !! a). Qed.

Lemma drop_cmds_fewer cs bl bl' : drop_cmds bl cs = Ok bl' -> fewer bl bl'.
Proof.
  revert bl. induction cs as [|c cs IH]; intros bl; cbn [drop_cmds]; [by intros [= <-]|]. destruct (0 <? dsize c); [|apply IH].
  destruct (drop_ref bl (daddr c)) as [bl1|] eqn:Ed; [|done]. intros H%IH. etrans; [by eapply drop_ref_fewer|done].
Qed.

Lemma free_bufs_fewer mm l cb bl cb' bl' : free_bufs mm cb bl l = Ok (cb', bl') -> fewer bl bl'.
Proof.
  revert cb bl. induction l as [|a l IH]; intros cb bl; cbn [free_bufs]; [by intros [= _ <-]|].
  destruct (hm_remove a (waiting_bufs cb)) as [[b w]|]; [|apply IH]. destruct (iter mm b) as [cs|]; [|done].
  destruct (drop_cmds bl cs) as [bl1|] eqn:Ed; [|done]. intros H%IH. etrans; [by eapply drop_cmds_fewer|done].
Qed.

Lemma progress_fewer mm cb sb bl cb' sb' bl' : progress_transfers mm cb sb bl = Ok (cb', sb', bl') -> fewer bl bl'.
Proof.
  unfold progress_transfers, check_free_data. destruct (check_transfer mm cb (daddr sb)) as [[cb1 d]|]; [|done].
  destruct (if d then clear sb else Ok sb); [|done]. destruct (freed_bufs mm (waiting_bufs cb1)) as [l|]; [|done].
  destruct (free_bufs mm cb1 bl l) as [[cb2 bl2]|] eqn:Ef; [|done]. intros [= _ _ <-]. by eapply free_bufs_fewer.
Qed.
End Kept.
