(* ===== verification/CmdQueueSpec.v ===== *)
(** The runs of the command queue ([CmdQueue.v]): nothing panics but an overflow
    check, no freed memory is read, every message is received exactly once, and a
    message that was pushed is sent, which needs a [compare_exchange] that does not
    fail spuriously, no more than two buffers and hashes that do not overflow. *)

From stdpp Require Import base list numbers relations gmap sorting.
From Stdlib Require Import ZArith Lia.
From S2P Require Import Prelude CmdQueue CmdQueueInv CmdQueueHash.

Local Open Scope Z_scope.

(** ** Accounting

    References, counters and messages, without the places they are in: [q] are the
    commands in the buffers, [td] those the receiver has not got yet, [rt] the
    addresses its tasks are about to get. *)
Definition task_refs (t : SendTask) : list Z :=
  match t with SendStart a => [a] | SendLoop1 a _ _ => [a; a] | SendLoop2 a _ => [a] end.
Definition task_todo (t : SendTask) : list Z :=
  match t with SendStart a | SendLoop1 a _ _ => [a] | SendLoop2 _ _ => [] end.
Definition recv_todo (t : RecvTask) : list Z := match t with FetchCmd _ _ c => [daddr c] | _ => [] end.
Definition in_loop1 (t : SendTask) : bool := match t with SendLoop1 _ _ _ => true | _ => false end.
Definition in_start (t : SendTask) : bool := match t with SendStart _ => true | _ => false end.
Definition in_loop2 (t : SendTask) : bool := match t with SendLoop2 _ _ => true | _ => false end.
Definition send_ok (bl : Blocks) (t : SendTask) : Prop :=
  match t with SendLoop1 a n h => good bl (a, n, h) | _ => True end.

Definition refs (hs : list Z) (ts : list SendTask) : list Z := hs ++ flat_map task_refs ts.

(** An upper bound of what the counters count. *)
Definition weight (t : SendTask) : Z := match t with SendLoop2 _ _ => 1 | _ => 3 end.
Definition load_of (q : list Core) (hs : list Z) (ts : list SendTask) (o : nat) : Z :=
  Z.of_nat (length q) + Z.of_nat (length hs) + Z.of_nat o + zsum weight ts.

Record acct (q td : list Core) (rt : list Z) (bl : Blocks) (hs : list Z) (ts : list SendTask) (p : Z) (o : nat)
    (sn rc : list (list Z)) : Prop := {
  ac_good : Forall (good bl) q;
  ac_blocks : blocks_ok bl (map core_addr q ++ refs hs ts);
  ac_sends : Forall (send_ok bl) ts;
  ac_pending : p = Z.of_nat o + zcount in_loop1 ts;
  ac_load : load_of q hs ts o < USIZE;
  ac_live : forall a, a ∈ map core_addr td ++ rt -> a ∈ map core_addr q;
  ac_once : map Some sn ≡ₚ map Some rc ++ map (data_of bl) (flat_map task_todo ts ++ map core_addr td ++ rt);
}.

#[global] Instance refs_perm hs : Proper (Permutation ==> Permutation) (refs hs).
Proof. intros ts ts' H. unfold refs. f_equiv. by apply Permutation_flat_map. Qed.

Lemma length_refs hs ts :
  Z.of_nat (length (refs hs ts)) + zcount in_loop1 ts + 2 * zcount in_start ts <= Z.of_nat (length hs) + zsum weight ts.
Proof.
  unfold refs. rewrite length_app, Nat2Z.inj_add.
  induction ts as [|t ts IH]; cbn [flat_map]; [rewrite !zcount_nil; cbn; lia|].
  rewrite length_app, Nat2Z.inj_add, !zcount_cons, zsum_cons.
  destruct t; cbn [task_refs in_loop1 in_start weight length Z.b2z]; lia.
Qed.

(** Nothing that is counted reaches the width of a counter. *)
Lemma acct_bounds q td rt bl hs ts p o sn rc :
  acct q td rt bl hs ts p o sn rc ->
  Z.of_nat (length (map core_addr q ++ refs hs ts)) + zcount in_start ts < USIZE /\ 0 <= p /\ p + zcount in_start ts < USIZE.
Proof.
  intros [_ _ _ -> Hl _ _]. unfold load_of in Hl. rewrite length_app, length_map. pose proof (length_refs hs ts).
  pose proof (zcount_bounds in_loop1 ts). pose proof (zcount_bounds in_start ts). lia.
Qed.

(** The messages still to receive are in memory. *)
Lemma todo_live q td rt hs ts a :
  (forall a, a ∈ map core_addr td ++ rt -> a ∈ map core_addr q) ->
  a ∈ flat_map task_todo ts ++ map core_addr td ++ rt -> a ∈ map core_addr q ++ refs hs ts.
Proof.
  intros H Ha. apply elem_of_app in Ha as [Ha|Ha]; apply elem_of_app; [right|left; by apply H].
  unfold refs. apply elem_of_app. right. induction ts as [|t ts IH]; [by apply elem_of_nil in Ha|].
  cbn in Ha |- *. apply elem_of_app in Ha as [Ha|Ha]; apply elem_of_app; [left|right; by apply IH].
  destruct t; cbn in *; [done| |by apply elem_of_nil in Ha]. apply list_elem_of_singleton in Ha as ->. by left.
Qed.

(** The accounts do not depend on the order of their lists. *)
Lemma acct_perm q q' td td' rt rt' bl hs ts ts' p o sn rc :
  q ≡ₚ q' -> td ≡ₚ td' -> rt ≡ₚ rt' -> ts ≡ₚ ts' ->
  acct q td rt bl hs ts p o sn rc -> acct q' td' rt' bl hs ts' p o sn rc.
Proof.
  intros Hq Htd Hrt Hts [H1 H2 H3 H4 H5 H6 H7]. split.
  - by rewrite <- Hq.
  - by rewrite <- Hq, <- Hts.
  - by rewrite <- Hts.
  - unfold zcount in *. by rewrite <- Hts.
  - unfold load_of in *. by rewrite <- (Permutation_length Hq), <- Hts.
  - intros a. rewrite <- Htd, <- Hrt, <- Hq. apply H6.
  - rewrite H7, Htd, Hrt. do 2 f_equiv. f_equiv. by apply Permutation_flat_map.
Qed.

(** A step that receives nothing: what the accounts still use keeps its data. *)
Lemma acct_change q' td' bl' hs' ts' p' o' q td rt bl hs ts p o sn rc :
  acct q td rt bl hs ts p o sn rc ->
  (forall x, x ∈ q' -> x ∈ q) -> td' ≡ₚ td -> blocks_ok bl' (map core_addr q' ++ refs hs' ts') ->
  (forall a, a ∈ map core_addr q' ++ refs hs' ts' -> data_of bl' a = data_of bl a) ->
  (forall a, a ∈ map core_addr td' ++ rt -> a ∈ map core_addr q') ->
  Forall (send_ok bl) ts' -> p' = Z.of_nat o' + zcount in_loop1 ts' -> load_of q' hs' ts' o' < USIZE ->
  flat_map task_todo ts' = flat_map task_todo ts ->
  acct q' td' rt bl' hs' ts' p' o' sn rc.
Proof.
  intros [H1 H2 H3 H4 H5 H6 H7] Hsub Htd Hbl Hd Hlive Hok Hp Hl Htt. split; try done.
  - rewrite Forall_forall in H1 |- *. intros x Hx. apply (good_mono bl); [|by apply H1, Hsub].
    apply Hd, elem_of_app. left. by apply list_elem_of_fmap_2.
  - apply Forall_forall. intros t Ht. rewrite Forall_forall in Hok. specialize (Hok t Ht).
    destruct t; try done. apply (good_mono bl); [|done]. apply Hd, elem_of_app. right.
    unfold refs. apply elem_of_app. right. apply list_elem_of_In, in_flat_map. eexists. split; [by apply list_elem_of_In|by left].
  - rewrite H7, <- Htd, <- Htt. f_equiv. rewrite (map_ext_in (data_of bl) (data_of bl')); [done|].
    intros a Ha%list_elem_of_In. symmetry. apply Hd. by eapply todo_live.
Qed.

Lemma data_of_Some bl a b : bl !! a = Some b -> data_of bl a = Some (bytes b).
Proof. intros H. unfold data_of. by rewrite H. Qed.

Section Accounts.
Context {q td : list Core} {rt : list Z} {bl : Blocks} {hs : list Z} {ts : list SendTask} {p : Z} {o : nat} {sn rc : list (list Z)}.

Ltac counts :=
  unfold load_of in *; rewrite ?zcount_cons, ?zsum_cons in *; cbn [in_loop1 in_start weight Z.b2z length] in *;
  pose proof (zcount_bounds in_start ts); pose proof (zcount_bounds in_loop1 ts); rewrite ?wadd_ok, ?wsub_ok; lia.

(** [send_data] counts its reference for the receiver. *)
Lemma acct_start a :
  acct q td rt bl hs (SendStart a :: ts) p o sn rc ->
  exists b bl', bl !! a = Some b /\ add_ref bl a = Ok bl' /\
    acct q td rt bl' hs (SendLoop1 a (Z.of_nat (length (bytes b))) (calc_hash (bytes b)) :: ts) (wadd p 1) o sn rc.
Proof.
  intros H. pose proof (acct_bounds _ _ _ _ _ _ _ _ _ _ H) as (Hr & Hp0 & Hp).
  pose proof H as [_ Hbl Hok Hpe Hl Hlive _].
  assert (a ∈ map core_addr q ++ refs hs (SendStart a :: ts)) as Ha.
  { unfold refs. rewrite !elem_of_app. right. right. by left. }
  destruct (proj2 Hbl a Ha) as [b Hb]. destruct (add_ref_ok bl _ a Hbl Ha) as (bl' & Hadd & Hbl' & Hd); [counts|].
  exists b, bl'. split; [done|]. split; [done|]. apply Forall_cons in Hok as [_ Hok].
  eapply acct_change; try done.
  - revert Hbl'. apply blocks_ok_perm. unfold refs. cbn. solve_Permutation.
  - constructor; [|done]. exists (bytes b). split; [by apply data_of_Some|done].
  - counts.
Qed.

(** The reference of the receiver is the command's now. *)
Lemma acct_push a n h :
  acct q td rt bl hs (SendLoop1 a n h :: ts) p o sn rc ->
  acct ((a, n, h) :: q) ((a, n, h) :: td) rt bl hs (SendLoop2 a false :: ts) (wsub p 1) o sn rc /\ 0 < a /\ 0 < n /\ 0 <= h.
Proof.
  intros H. pose proof (acct_bounds _ _ _ _ _ _ _ _ _ _ H) as (_ & Hp0 & Hp).
  destruct H as [H1 H2 H3 H4 H5 H6 H7]. apply Forall_cons in H3 as [Hg H3]. cbn in Hg.
  split; [|destruct (good_pos bl _ _ H2 Hg) as [Ha Hn]; split; [done|split; [done|]];
    destruct Hg as (bs & _ & [= _ ->]); apply calc_hash_range].
  split; try done.
  - by constructor.
  - revert H2. apply blocks_ok_perm. unfold refs. cbn. solve_Permutation.
  - by constructor.
  - counts.
  - counts.
  - intros x. cbn. rewrite !elem_of_cons. intros [->|Hx]; [by left|right; by apply H6].
  - rewrite H7. f_equiv. apply Permutation_map. cbn. apply Permutation_middle.
Qed.

Lemma acct_loop2 a w w' :
  acct q td rt bl hs (SendLoop2 a w :: ts) p o sn rc -> acct q td rt bl hs (SendLoop2 a w' :: ts) p o sn rc.
Proof. intros [H1 H2 H3 H4 H5 H6 H7]. apply Forall_cons in H3 as [_ H3]. split; try done. by constructor. Qed.

Lemma acct_end a w :
  acct q td rt bl hs (SendLoop2 a w :: ts) p o sn rc ->
  exists bl', drop_ref bl a = Ok bl' /\ acct q td rt bl' hs ts p o sn rc.
Proof.
  intros H. pose proof (acct_bounds _ _ _ _ _ _ _ _ _ _ H) as (Hr & _).
  pose proof H as [H1 H2 H3 H4 H5 H6 H7].
  assert (map core_addr q ++ refs hs (SendLoop2 a w :: ts) ≡ₚ a :: map core_addr q ++ refs hs ts) as Hp.
  { unfold refs. cbn. solve_Permutation. }
  rewrite Hp in H2, Hr. destruct (drop_ref_ok bl _ a H2) as (bl' & Hdr & Hbl' & Hd); [counts|].
  exists bl'. split; [done|]. apply Forall_cons in H3 as [_ H3]. eapply acct_change; try done; counts.
Qed.

Lemma acct_new a bs :
  acct q td rt bl hs ts p o sn rc -> 0 < a -> bl !! a = None -> bs <> [] -> load_of q (a :: hs) ts o < USIZE ->
  acct q td rt (<[a := {| ref_cnt := 1; bytes := bs |}]> bl) (a :: hs) ts p o sn rc.
Proof.
  intros H Ha Hn Hbs Hl. pose proof H as [H1 [H2 H2'] H3 H4 H5 H6 H7].
  assert (a ∉ map core_addr q ++ refs hs ts) as Hnin by (intros [b Hb]%H2'; congruence).
  assert (map core_addr q ++ refs (a :: hs) ts ≡ₚ a :: map core_addr q ++ refs hs ts) as Hp.
  { unfold refs. cbn. solve_Permutation. }
  assert (forall x, x ∈ map core_addr q ++ refs hs ts -> data_of (<[a := {| ref_cnt := 1; bytes := bs |}]> bl) x = data_of bl x) as Hd.
  { intros x Hx. unfold data_of. rewrite lookup_insert_ne; [done|]. by intros ->. }
  split; try done.
  - rewrite Forall_forall in H1 |- *. intros x Hx. apply (good_mono bl); [|by apply H1].
    apply Hd, elem_of_app. left. by apply list_elem_of_fmap_2.
  - rewrite Hp. split.
    + intros x b. rewrite zocc_cons, elem_of_cons. destruct (decide (x = a)) as [->|Hne].
      * rewrite lookup_insert_eq. intros [= <-]. cbn. rewrite Z.eqb_refl.
        assert (zocc a (map core_addr q ++ refs hs ts) <= 0) as Ho.
        { destruct (Z.le_gt_cases (zocc a (map core_addr q ++ refs hs ts)) 0) as [|Hgt]; [done|]. by apply Z.lt_gt, Z.gt_lt, zocc_elem in Hgt. }
        pose proof (zocc_nonneg a (map core_addr q ++ refs hs ts)). cbn. auto with lia.
      * rewrite lookup_insert_ne by done. intros Hb. destruct (H2 x b Hb) as (? & ? & ? & ?).
        rewrite (proj2 (Z.eqb_neq x a)) by done. cbn. auto.
    + intros x. rewrite elem_of_cons. intros [->|Hx]; [rewrite lookup_insert_eq; by eexists|].
      rewrite lookup_insert_ne; [by apply H2'|]. by intros ->.
  - rewrite Forall_forall in H3 |- *. intros t Ht. specialize (H3 t Ht). destruct t; try done.
    apply (good_mono bl); [|done]. apply Hd, elem_of_app. right.
    unfold refs. apply elem_of_app. right. apply list_elem_of_In, in_flat_map. eexists. split; [by apply list_elem_of_In|by left].
  - rewrite H7. f_equiv. rewrite (map_ext_in (data_of bl) (data_of (<[a := {| ref_cnt := 1; bytes := bs |}]> bl))); [done|].
    intros x Hx%list_elem_of_In. symmetry. apply Hd. by eapply todo_live.
Qed.

Lemma acct_send a :
  acct q td rt bl hs ts p o sn rc -> a ∈ hs -> load_of q hs (SendStart a :: ts) o < USIZE ->
  exists b bl', bl !! a = Some b /\ add_ref bl a = Ok bl' /\
    acct q td rt bl' hs (SendStart a :: ts) p o (sn ++ [bytes b]) rc.
Proof.
  intros H Ha Hl. pose proof (acct_bounds _ _ _ _ _ _ _ _ _ _ H) as (Hr & Hp0 & Hp). pose proof (length_refs hs ts) as Hlr.
  pose proof H as [H1 H2 H3 H4 H5 H6 H7].
  assert (a ∈ map core_addr q ++ refs hs ts) as Hin by (unfold refs; rewrite !elem_of_app; auto).
  destruct (proj2 H2 a Hin) as [b Hb].
  destruct (add_ref_ok bl _ a H2 Hin) as (bl' & Hadd & Hbl' & Hd).
  { rewrite length_app, length_map in *. counts. }
  exists b, bl'. split; [done|]. split; [done|].
  split; try done.
  - eapply Forall_impl; [exact H1|]. intros x. by apply good_mono.
  - revert Hbl'. apply blocks_ok_perm. unfold refs. cbn. solve_Permutation.
  - constructor; [done|]. eapply Forall_impl; [exact H3|]. intros t. destruct t; try done. by apply good_mono.
  - rewrite map_app, H7. cbn. rewrite Hd, (data_of_Some bl a b Hb), (map_ext (data_of bl') (data_of bl)) by done.
    rewrite <- app_assoc. f_equiv. symmetry. apply Permutation_cons_append.
Qed.

Lemma acct_drop a hs' :
  acct q td rt bl hs ts p o sn rc -> hs ≡ₚ a :: hs' ->
  exists bl', drop_ref bl a = Ok bl' /\ acct q td rt bl' hs' ts p o sn rc.
Proof.
  intros H Hhs. pose proof (acct_bounds _ _ _ _ _ _ _ _ _ _ H) as (Hr & _).
  pose proof H as [H1 H2 H3 H4 H5 H6 H7].
  assert (map core_addr q ++ refs hs ts ≡ₚ a :: map core_addr q ++ refs hs' ts) as Hp.
  { unfold refs. rewrite Hhs. cbn. solve_Permutation. }
  rewrite Hp in H2, Hr. destruct (drop_ref_ok bl _ a H2) as (bl' & Hdr & Hbl' & Hd); [counts|].
  exists bl'. split; [done|]. apply Permutation_length in Hhs. cbn in Hhs. eapply acct_change; try done. counts.
Qed.

Lemma acct_other p' o' :
  acct q td rt bl hs ts p o sn rc -> p' = Z.of_nat o' + zcount in_loop1 ts -> load_of q hs ts o' < USIZE ->
  acct q td rt bl hs ts p' o' sn rc.
Proof. intros H Hp Hl. pose proof H as [H1 H2 H3 H4 H5 H6 H7]. by eapply acct_change. Qed.

(** The receiver gets a buffer, and a message. *)
Lemma acct_fetch_buf td' x :
  acct q td rt bl hs ts p o sn rc -> td' ++ x ≡ₚ td -> acct q td' (map core_addr x ++ rt) bl hs ts p o sn rc.
Proof.
  intros [H1 H2 H3 H4 H5 H6 H7] Htd.
  assert (map core_addr td' ++ map core_addr x ++ rt ≡ₚ map core_addr td ++ rt) as Hp.
  { rewrite <- Htd, map_app. solve_Permutation. }
  split; try done.
  - intros a. rewrite Hp. apply H6.
  - by rewrite Hp.
Qed.

Lemma acct_fetch_cmd x :
  acct q td (core_addr x :: rt) bl hs ts p o sn rc -> x ∈ q ->
  exists b, bl !! core_addr x = Some b /\ x = (core_addr x, Z.of_nat (length (bytes b)), calc_hash (bytes b)) /\
    acct q td rt bl hs ts p o sn (rc ++ [bytes b]).
Proof.
  intros [H1 H2 H3 H4 H5 H6 H7] Hx. rewrite Forall_forall in H1. destruct (H1 x Hx) as (bs & Hbs & Hxe).
  unfold data_of in Hbs. apply fmap_Some in Hbs as (b & Hb & ->). exists b. split; [done|]. split; [done|].
  split; try done.
  - by apply Forall_forall.
  - intros a Ha. apply H6. rewrite elem_of_app in Ha. rewrite elem_of_app, elem_of_cons. tauto.
  - rewrite H7, !map_app. cbn. rewrite (data_of_Some bl _ b Hb), <- !app_assoc. f_equiv. cbn. solve_Permutation.
Qed.
End Accounts.

(** ** The invariant *)
Definition load (s : St) : Z := load_of (queued (mem s) (cmd_buffer s)) (handles s) (sends s) (others s).

Section Runs.
Context (buf_len : nat) (addrs : list Z).
Hypotheses (Hnd : NoDup addrs) (Hlen : (0 < buf_len)%nat) (Hpos : forall a, a ∈ addrs -> 0 < a)
  (Hwidth : Z.of_nat buf_len < USIZE).

Record Inv (s : St) : Prop := {
  inv_bufs : bufs_ok buf_len addrs (cmd_buffer s);
  inv_mem : mem_ok buf_len addrs (mem s);
  inv_prot : protocol buf_len addrs (mem s) (cmd_buffer s) (send_buf s) (recv_buf s) (net s) (recvs s) (cmd_cnts s);
  inv_acct : acct (queued (mem s) (cmd_buffer s)) (todo_bufs (mem s) (net s) (cmd_buffer s)) (flat_map recv_todo (recvs s))
    (blocks s) (handles s) (sends s) (pending_cmds s) (others s) (sent s) (received s);
}.

Lemma undone_entries mm nt b x : x ∈ undone mm nt b -> x ∈ entries mm b.
Proof. unfold undone. case_decide; [done|]. by intros ?%elem_of_nil. Qed.

Lemma live_ok mm cb sb rb nt rs cnts a :
  bufs_ok buf_len addrs cb -> protocol buf_len addrs mm cb sb rb nt rs cnts ->
  a ∈ map core_addr (todo_bufs mm nt cb) ++ flat_map recv_todo rs -> a ∈ map core_addr (queued mm cb).
Proof.
  intros Hb Hp Ha. apply elem_of_app in Ha as [Ha|Ha].
  - apply list_elem_of_fmap in Ha as (x & -> & Hx). apply list_elem_of_fmap_2. unfold todo_bufs, queued in *.
    apply list_elem_of_In, in_flat_map in Hx as (b & Hb' & Hx). apply list_elem_of_In, in_flat_map. exists b.
    split; [done|]. apply list_elem_of_In. by apply undone_entries with nt, list_elem_of_In.
  - apply list_elem_of_In, in_flat_map in Ha as (t & Ht & Ha). apply list_elem_of_In in Ht, Ha.
    destruct t as [|id bc c| |]; cbn in Ha; try by apply elem_of_nil in Ha.
    apply list_elem_of_singleton in Ha as ->. apply list_elem_of_lookup in Ht as [i Hi].
    destruct (fetch_cmd_ok buf_len addrs Hnd mm cb sb rb nt rs cnts i id bc c Hb Hp Hi) as [Hc _].
    change (daddr c) with (core_addr (core c)). by apply list_elem_of_fmap_2.
Qed.

(** The task at [i] becomes the tasks [ts]. *)
Definition replaced (s s' : St) (i : nat) (ts : list SendTask) : St :=
  with_app s' (pending_cmds s') (others s') (blocks s') (handles s')
    (take i (sends s) ++ ts ++ drop (S i) (sends s)) (sent s').

Lemma Inv_replaced s s' i t ts :
  sends s !! i = Some t ->
  bufs_ok buf_len addrs (cmd_buffer s') -> mem_ok buf_len addrs (mem s') ->
  protocol buf_len addrs (mem s') (cmd_buffer s') (send_buf s') (recv_buf s') (net s') (recvs s') (cmd_cnts s') ->
  acct (queued (mem s') (cmd_buffer s')) (todo_bufs (mem s') (net s') (cmd_buffer s')) (flat_map recv_todo (recvs s'))
    (blocks s') (handles s') (ts ++ delete i (sends s)) (pending_cmds s') (others s') (sent s') (received s') ->
  Inv (replaced s s' i ts).
Proof.
  intros Hi Hb Hm Hp Ha. split; [done..|]. revert Ha. apply acct_perm; [done..|]. symmetry. by eapply replace_perm.
Qed.

Lemma acct_at s i t : Inv s -> sends s !! i = Some t ->
  acct (queued (mem s) (cmd_buffer s)) (todo_bufs (mem s) (net s) (cmd_buffer s)) (flat_map recv_todo (recvs s))
    (blocks s) (handles s) (t :: delete i (sends s)) (pending_cmds s) (others s) (sent s) (received s).
Proof. intros [_ _ _ Ha] Hi. revert Ha. apply acct_perm; [done..|]. by apply lookup_delete_perm. Qed.

(** [progress_transfers] and [try_sending_buffer] in a state. *)
Lemma progress_inv s :
  Inv s ->
  exists cb sb bl, progress_transfers (mem s) (cmd_buffer s) (send_buf s) (blocks s) = Ok (cb, sb, bl) /\
    (forall sw, Inv (with_queue s (mem s) cb sb sw (pending_cmds s) bl (sends s) (net s))) /\
    unsent cb = unsent (cmd_buffer s) /\ Forall (fun b => head_cmd (mem s) (addr b) = Tx) (tx_bufs cb) /\
    Forall (fun b => head_cmd (mem s) (addr b) = Release) (waiting_bufs cb).
Proof.
  intros [Hb Hm Hp Ha]. pose proof (acct_bounds _ _ _ _ _ _ _ _ _ _ Ha) as (Hr & _).
  pose proof (zcount_bounds in_start (sends s)) as Hz.
  destruct (progress_ok buf_len addrs Hnd Hlen (mem s) (cmd_buffer s) (send_buf s) (recv_buf s) (net s) (recvs s) (cmd_cnts s)
    (blocks s) (refs (handles s) (sends s)) Hb Hm Hp (ac_blocks _ _ _ _ _ _ _ _ _ _ Ha) (ac_good _ _ _ _ _ _ _ _ _ _ Ha))
    as (cb & sb & bl & Heq & Hb' & Hp' & Hbl & Hd & Htd & Hle & Hsub & Hu & Htx & Hw); [lia|].
  exists cb, sb, bl. split; [done|]. split; [|done]. intros sw. split; try done. cbn.
  eapply acct_change; try done.
  - intros a. by apply (live_ok _ _ sb (recv_buf s) _ _ (cmd_cnts s)).
  - apply (ac_sends _ _ _ _ _ _ _ _ _ _ Ha).
  - apply (ac_pending _ _ _ _ _ _ _ _ _ _ Ha).
  - pose proof (ac_load _ _ _ _ _ _ _ _ _ _ Ha) as Hl. unfold load_of in *. lia.
Qed.

Lemma try_sending_inv s :
  Inv s ->
  match try_sending_buffer (mem s) (cmd_buffer s) (send_buf s) (pending_cmds s) with
  | Ok (cb, sb, ps, done) =>
    (forall sw, Inv (with_queue s (mem s) cb sb sw (pending_cmds s) (blocks s) (sends s) (net s ++ ps))) /\
    (if done then unsent cb = pred (unsent (cmd_buffer s))
     else cb = cmd_buffer s /\ ((pending_cmds s <> 0 /\ full_bufs cb = []) \/ exists b, tx_bufs cb = [b]))
  | Err w => w = Overflow
  end.
Proof.
  intros [Hb Hm Hp Ha].
  pose proof (try_sending_ok buf_len addrs Hlen Hpos _ _ _ _ _ _ _ (pending_cmds s) Hb Hm Hp) as H.
  destruct (try_sending_buffer _ _ _ _) as [[[[cb sb] ps] d]|w]; [|done].
  destruct H as (Hb' & Hp' & Hall & Hund & Hd). split; [|by destruct d; [|destruct Hd as [-> Hd]]].
  intros sw. split; try done. cbn. revert Ha. apply acct_perm; try done.
  - unfold queued. by rewrite Hall.
  - unfold todo_bufs. rewrite Hall. rewrite (flat_map_ext (undone (mem s) (net s ++ ps)) (undone (mem s) (net s)) Hund). done.
Qed.

(** ** Steps of the sender

    [waits]: a set flag has its waiter, and there is a task in the second loop of
    [send] for every buffer that is not announced. *)
Definition waits (ts : list SendTask) (sw : bool) (u : nat) : Prop :=
  (sw = true -> exists a, SendLoop2 a true ∈ ts) /\ Z.of_nat u <= zcount in_loop2 ts.
Definition wait_ok (s : St) : Prop := waits (sends s) (send_waiting s) (unsent (cmd_buffer s)).

Lemma waits_perm ts ts' sw u : ts ≡ₚ ts' -> waits ts sw u -> waits ts' sw u.
Proof.
  intros Hp [H1 H2]. split; [|unfold zcount in *; by rewrite <- Hp].
  intros Hs. destruct (H1 Hs) as [a Ha]. exists a. by rewrite <- Hp.
Qed.

Lemma waits_replaced s s' i t ts :
  sends s !! i = Some t -> waits (ts ++ delete i (sends s)) (send_waiting s') (unsent (cmd_buffer s')) ->
  wait_ok (replaced s s' i ts).
Proof. intros Hi. apply waits_perm. symmetry. by eapply replace_perm. Qed.

Lemma waits_at s i t : wait_ok s -> sends s !! i = Some t -> waits (t :: delete i (sends s)) (send_waiting s) (unsent (cmd_buffer s)).
Proof. intros H Hi. eapply waits_perm; [|exact H]. by apply lookup_delete_perm. Qed.

Lemma unsent_all s : Inv s -> (length (empty_bufs (cmd_buffer s)) + unsent (cmd_buffer s) + length (tx_bufs (cmd_buffer s)) <= length addrs)%nat.
Proof.
  intros [Hb _ _ _]. pose proof (Permutation_length (bo_addrs _ _ _ Hb)) as Hl. unfold all_bufs in Hl.
  rewrite length_map, !length_app in Hl. unfold unsent. lia.
Qed.

(** What a step promises: the invariant, and [wait_ok] when [compare_exchange_weak]
    does not fail spuriously and there are at most two buffers. *)
Definition step_ok (weak : bool) (s : St) (i : nat) (r : res (St * list SendTask)) : Prop :=
  match r with
  | Ok (s', ts) => Inv (replaced s s' i ts) /\
    ((length addrs <= 2)%nat -> weak = false -> wait_ok s -> wait_ok (replaced s s' i ts))
  | Err w => w = Overflow
  end.

Lemma send_start_ok s i a weak : Inv s -> sends s !! i = Some (SendStart a) -> step_ok weak s i (send_start s a).
Proof.
  intros Hs Hi. pose proof (acct_at s i _ Hs Hi) as Ha. destruct Hs as [Hb Hm Hp _].
  destruct (acct_start a Ha) as (b & bl & Hbl & Hadd & Ha'). unfold send_start. rewrite Hbl, Hadd. split.
  - by eapply Inv_replaced.
  - intros _ _ Hw. eapply waits_replaced; [done|]. eapply (waits_at s i) in Hw; [|done]. cbn.
    destruct Hw as [H1 H2]. split; [|done]. intros Hsw. destruct (H1 Hsw) as [x Hx]. exists x.
    apply elem_of_cons in Hx as [[=]|Hx]. by right.
Qed.

Lemma send_loop1_ok s i a n h weak :
  Inv s -> sends s !! i = Some (SendLoop1 a n h) -> step_ok weak s i (send_loop1 s a n h).
Proof.
  intros Hs Hi. pose proof (acct_at s i _ Hs Hi) as Ha. destruct (acct_push a n h Ha) as (Ha' & Hap & Hnp & Hhp).
  unfold send_loop1.
  pose proof (try_push_ok buf_len addrs Hnd Hlen _ _ _ _ _ _ _ a n h (inv_bufs s Hs) (inv_mem s Hs) (inv_prot s Hs) Hap Hnp Hhp) as H.
  destruct (try_push _ _ _ _ _) as [[[mm cb] []]|w]; [| |done].
  - destruct H as (Hb & Hm & Hp & Hq & Htd & Hu & _). split.
    + eapply Inv_replaced; try done. cbn. revert Ha'. by apply acct_perm.
    + intros _ _ Hw. eapply waits_replaced; [done|]. eapply (waits_at s i) in Hw; [|done]. cbn.
      destruct Hw as [H1 H2]. split.
      * intros Hsw. destruct (H1 Hsw) as [x Hx]. exists x. apply elem_of_cons in Hx as [[=]|Hx]. by right.
      * rewrite zcount_cons in H2 |- *. cbn [in_loop2 Z.b2z] in *. lia.
  - destruct H as (-> & -> & _).
    destruct (progress_inv s Hs) as (cb1 & sb1 & bl1 & -> & Hs1 & Hu1 & _). specialize (Hs1 (send_waiting s)).
    pose proof (try_sending_inv _ Hs1) as Ht. cbn in Ht.
    destruct (try_sending_buffer _ _ _ _) as [[[[cb2 sb2] ps] d]|w]; [|done]. destruct Ht as [Hs2 Hu2].
    specialize (Hs2 (send_waiting s)). split.
    + pose proof (acct_at _ i _ Hs2 Hi) as Ha2. destruct Hs2. by eapply Inv_replaced.
    + intros _ _ Hw. eapply waits_replaced; [done|]. eapply (waits_at s i) in Hw; [|done]. cbn.
      destruct Hw as [H1 H2]. split; [done|].
      assert (unsent cb2 <= unsent (cmd_buffer s))%nat; [|lia]. destruct d; [lia|]. destruct Hu2 as [-> _]. lia.
Qed.

(** The end of a call. *)
Lemma send_end_ok s i a w cb sb sw bl ps weak :
  sends s !! i = Some (SendLoop2 a w) ->
  Inv (with_queue s (mem s) cb sb sw (pending_cmds s) bl (sends s) (net s ++ ps)) ->
  ((length addrs <= 2)%nat -> weak = false -> wait_ok s ->
   (sw = true -> exists a, SendLoop2 a true ∈ delete i (sends s)) /\ Z.of_nat (unsent cb) <= zcount in_loop2 (delete i (sends s))) ->
  step_ok weak s i (send_end s cb sb sw bl ps a).
Proof.
  intros Hi Hs Hw. unfold send_end. pose proof (acct_at _ i _ Hs Hi) as Ha. cbn in Ha.
  destruct (acct_end a w Ha) as (bl' & -> & Ha'). split.
  - destruct Hs. by eapply Inv_replaced.
  - intros H1 H2 H3. eapply waits_replaced; [done|]. by apply Hw.
Qed.

Lemma send_loop2_ok s i a w weak :
  Inv s -> sends s !! i = Some (SendLoop2 a w) -> step_ok weak s i (send_loop2 s a w weak).
Proof.
  intros Hs Hi. unfold send_loop2.
  assert (wait_ok s -> Z.of_nat (unsent (cmd_buffer s)) <= 1 + zcount in_loop2 (delete i (sends s))) as Hcnt.
  { intros Hw. eapply (waits_at s i) in Hw; [|done]. destruct Hw as [_ H2]. rewrite zcount_cons in H2. done. }
  pose proof (zcount_bounds in_loop2 (delete i (sends s))) as Hz.
  destruct (empty (cmd_buffer s)) eqn:He.
  { apply (send_end_ok s i a w); [done| |].
    - destruct Hs. by rewrite app_nil_r.
    - intros _ _ _. split; [done|]. apply Nat.eqb_eq in He. pose proof (unsent_all s Hs) as Hu.
      rewrite (bo_num _ _ _ (inv_bufs s Hs)) in He. lia. }
  destruct (progress_inv s Hs) as (cb1 & sb1 & bl1 & -> & Hs1 & Hu1 & _).
  pose proof (try_sending_inv _ (Hs1 (send_waiting s))) as Ht. cbn in Ht.
  destruct (try_sending_buffer _ _ _ _) as [[[[cb2 sb2] ps] d]|x]; [|done]. destruct Ht as [Hs2 Hu2].
  destruct d.
  { apply (send_end_ok s i a w); [done|apply (Hs2 false)|]. intros _ _ Hw. split; [done|]. specialize (Hcnt Hw). lia. }
  destruct Hu2 as [-> Hu2].
  assert (forall sw, Inv (replaced s (with_queue s (mem s) cb1 sb2 sw (pending_cmds s) bl1 (sends s) (net s ++ ps)) i [SendLoop2 a true])) as Hstay.
  { intros sw. specialize (Hs2 sw). pose proof (acct_at _ i _ Hs2 Hi) as Ha2. cbn in Ha2. destruct Hs2. eapply Inv_replaced; try done.
    by apply (acct_loop2 a w true). }
  destruct w.
  { split; [by apply Hstay|]. intros _ _ Hw. eapply waits_replaced; [done|]. cbn. split; [|rewrite zcount_cons; cbn; specialize (Hcnt Hw); lia].
    intros _. exists a. by left. }
  destruct (negb (send_waiting s) && negb weak) eqn:Hcas.
  { split; [by apply Hstay|]. intros _ _ Hw. eapply waits_replaced; [done|]. cbn. split; [|rewrite zcount_cons; cbn; specialize (Hcnt Hw); lia].
    intros _. exists a. by left. }
  apply (send_end_ok s i a false); [done|apply Hs2|]. intros Ha2 -> Hw.
  assert (send_waiting s = true) as Hsw by (by destruct (send_waiting s)).
  assert (exists x, SendLoop2 x true ∈ delete i (sends s)) as [x Hx].
  { eapply (waits_at s i) in Hw; [|done]. destruct (proj1 Hw Hsw) as [x Hx]. exists x. by apply elem_of_cons in Hx as [[=]|Hx]. }
  split; [by exists x|].
  assert (unsent cb1 <= 1)%nat.
  { pose proof (unsent_all _ (Hs2 false)) as Hall. cbn in Hall. destruct Hu2 as [[_ Hf]|[b Hb]].
    - unfold unsent. rewrite Hf. by destruct (cur_buf cb1); cbn; lia.
    - rewrite Hb in Hall. cbn in Hall. lia. }
  apply list_elem_of_lookup in Hx as [j Hj]. pose proof (zcount_pos in_loop2 _ j _ Hj eq_refl). lia.
Qed.

Lemma send_step_ok s i t weak : Inv s -> sends s !! i = Some t -> step_ok weak s i (send_step s weak t).
Proof.
  intros Hs Hi. destruct t as [a|a n h|a w]; cbn.
  - by apply send_start_ok.
  - by apply send_loop1_ok.
  - by apply send_loop2_ok.
Qed.

(** ** Steps of the receiver and of the network *)

(** What they leave as it is. *)
Definition kept (s s' : St) : Prop :=
  sends s' = sends s /\ others s' = others s /\ sent s' = sent s /\ send_waiting s' = send_waiting s /\
  unsent (cmd_buffer s') = unsent (cmd_buffer s).

Lemma kept_refl s : kept s s.
Proof. done. Qed.
Lemma kept_trans s1 s2 s3 : kept s1 s2 -> kept s2 s3 -> kept s1 s3.
Proof. unfold kept. intuition congruence. Qed.
Lemma kept_wait s s' : kept s s' -> wait_ok s -> wait_ok s'.
Proof. intros (H1 & _ & _ & H2 & H3). unfold wait_ok. by rewrite H1, H2, H3. Qed.

(** No command is on its way in the slot. *)
Definition still (s : St) : Prop := quiet (recv_buf s) (net s).
Lemma flat_map_replace {A B} (f : A -> list B) l i x ys :
  l !! i = Some x -> flat_map f (take i l ++ ys ++ drop (S i) l) ≡ₚ flat_map f ys ++ flat_map f (delete i l).
Proof. intros Hi. rewrite (replace_perm l i x ys Hi). by rewrite flat_map_app. Qed.

Lemma recvs_at {A B} (f : A -> list B) l i x :
  l !! i = Some x -> flat_map f l ≡ₚ f x ++ flat_map f (delete i l).
Proof. intros Hi. by rewrite (lookup_delete_perm l i x Hi) at 1. Qed.

(** The steps a task and those it submits take. *)
Definition task_weight (t : RecvTask) : Z :=
  match t with FetchBuf c => 1 + 2 * Z.of_nat (Z.to_nat (dsize c / SIZE_OF_CMD)) | FetchCmd _ _ _ => 2 | FetchDone _ _ => 1 | Spin => 0 end.

Definition recv_ok (s : St) (i : nat) (t : RecvTask) (r : res (St * list RecvTask)) : Prop :=
  exists s' ts, r = Ok (s', ts) /\
    Inv (with_recv s' (recv_buf s') (net s') (take i (recvs s) ++ ts ++ drop (S i) (recvs s)) (cmd_cnts s') (received s')) /\
    kept s s' /\ (still s -> still s') /\ zsum task_weight ts < task_weight t.

Lemma read_cells_length mm a n cs : read_cells mm a n = Ok cs -> length cs = n.
Proof.
  unfold read_cells. destruct (mm !! a) as [l|]; [|done]. case_decide; [|done]. intros [= <-]. rewrite length_take. lia.
Qed.

Lemma fetch_todo id c cs : flat_map recv_todo (map (FetchCmd id c) cs) = map core_addr (map core cs).
Proof. induction cs as [|x cs IH]; cbn; [done|]. by rewrite IH. Qed.

Lemma fetch_buf_inv s i c : Inv s -> recvs s !! i = Some (FetchBuf c) -> recv_ok s i (FetchBuf c) (fetch_buf s c).
Proof.
  intros [Hb Hm Hp Ha] Hi.
  destruct (fetch_buf_ok buf_len addrs Hnd Hlen _ _ _ _ _ _ _ i c Hb Hm Hp Hi) as (cs & Hrd & Hh & Hf & Hp' & Htd).
  { intros x Hx. pose proof (ac_good _ _ _ _ _ _ _ _ _ _ Ha) as Hg. rewrite Forall_forall in Hg.
    eapply good_pos; [apply (ac_blocks _ _ _ _ _ _ _ _ _ _ Ha)|by apply Hg]. }
  unfold fetch_buf. rewrite Hrd, Hh, Hf. eexists _, _. split; [reflexivity|]. split; [|split_and!; try done].
  - split; try done. cbn. apply (acct_fetch_buf _ _ Ha) in Htd. revert Htd. apply acct_perm; try done.
    rewrite (flat_map_replace _ _ _ _ _ Hi), (recvs_at recv_todo (recvs s) i _ Hi). cbn.
    by rewrite fetch_todo.
  - intros Hq. unfold still. cbn. by apply quiet_app.
  - rewrite zsum_map. cbn [task_weight]. rewrite zsum_const, (read_cells_length _ _ _ _ Hrd). lia.
Qed.

Lemma fetch_cmd_inv s i id bc c : Inv s -> recvs s !! i = Some (FetchCmd id bc c) -> recv_ok s i (FetchCmd id bc c) (fetch_cmd s id bc c).
Proof.
  intros [Hb Hm Hp Ha] Hi.
  destruct (fetch_cmd_ok buf_len addrs Hnd _ _ _ _ _ _ _ i id bc c Hb Hp Hi) as [Hc Hp'].
  assert (acct (queued (mem s) (cmd_buffer s)) (todo_bufs (mem s) (net s) (cmd_buffer s))
    (core_addr (core c) :: flat_map recv_todo (delete i (recvs s))) (blocks s) (handles s) (sends s) (pending_cmds s) (others s)
    (sent s) (received s)) as Ha1.
  { revert Ha. apply acct_perm; try done. apply (recvs_at recv_todo _ _ _ Hi). }
  destruct (acct_fetch_cmd (core c) Ha1 Hc) as (b & Hbl & Hx & Ha2).
  unfold core, core_addr in Hbl, Hx. cbn in Hbl, Hx. injection Hx as Es Em.
  unfold fetch_cmd. rewrite Hbl, decide_True by lia. rewrite take_ge by lia. rewrite Em, Z.eqb_refl.
  eexists _, _. split; [reflexivity|]. split; [|split_and!; try done].
  - split; try done. cbn. revert Ha2. apply acct_perm; try done. symmetry.
    apply (flat_map_replace recv_todo _ _ _ [FetchDone id bc] Hi).
Qed.

Lemma fetch_done_inv s i id bc : Inv s -> recvs s !! i = Some (FetchDone id bc) -> recv_ok s i (FetchDone id bc) (fetch_done s id bc).
Proof.
  intros [Hb Hm Hp Ha] Hi.
  destruct (fetch_done_ok buf_len addrs Hnd Hlen Hwidth _ _ _ _ _ _ _ i id bc Hb Hp Hi) as (k & Hk & Hp' & Hu).
  unfold fetch_done. rewrite Hk. eexists _, _. split; [reflexivity|]. split; [|split_and!; try done].
  - split; try done. cbn. revert Ha. apply acct_perm; try done.
    + unfold todo_bufs. erewrite flat_map_ext_Forall; [done|]. apply Forall_forall. intros b Hin. by rewrite Hu.
    + rewrite (recvs_at recv_todo _ _ _ Hi). symmetry. apply (flat_map_replace recv_todo _ _ _ [] Hi).
  - intros Hq. unfold still. cbn. case_match; [by apply quiet_app|by rewrite app_nil_r].
Qed.

Lemma no_spin s : Inv s -> Spin ∉ recvs s.
Proof.
  intros [_ _ Hp _] Hin. pose proof (pr_tasks _ _ _ _ _ _ _ _ _ Hp) as Ht. rewrite Forall_forall in Ht.
  by destruct (Ht _ Hin) as (? & ? & _).
Qed.

Lemma recv_step_inv s i t : Inv s -> recvs s !! i = Some t -> recv_ok s i t (recv_step s t).
Proof.
  intros Hs Hi. destruct t; cbn; [by apply fetch_buf_inv|by apply fetch_cmd_inv|by apply fetch_done_inv|].
  exfalso. apply (no_spin s Hs). by eapply list_elem_of_lookup_2.
Qed.

Lemma poll_inv s : Inv s -> exists s', poll s = Ok s' /\ Inv s' /\ kept s s' /\ net s' = net s.
Proof.
  intros Hs. pose proof Hs as [Hb Hm Hp Ha]. unfold poll.
  destruct (ready_ok buf_len addrs Hnd Hlen Hpos _ _ _ _ _ _ _ Hb Hp) as [->|(b & c & rb & -> & Htx & (_ & _ & Hc & _) & _ & Hp')].
  - eexists. split; [reflexivity|]. by split_and!.
  - rewrite Hc. eexists. split; [reflexivity|]. split_and!; try done. split; try done. cbn.
    revert Ha. apply acct_perm; try done. rewrite flat_map_app. cbn. by rewrite app_nil_r.
Qed.

Lemma deliver_inv s i p :
  Inv s -> net s !! i = Some p -> loc p ∉ map loc (take i (net s)) ->
  exists s', deliver s p (delete i (net s)) = Ok s' /\ Inv s' /\ kept s s' /\ (still s -> still s') /\
    net s' = delete i (net s) /\ recvs s' = recvs s.
Proof.
  intros [Hb Hm Hp Ha] Hi He. assert ((exists a c, p = WByte a c) \/ forall a c, p <> WByte a c) as [(a & c & ->)|Hw'].
  { destruct p as [| | | | |a c]; try (by right). left. by exists a, c. }
  - destruct (deliver_byte_ok buf_len addrs Hnd Hlen _ _ _ _ _ _ _ i a c Hb Hm Hp Hi He) as (mm & Hwr & Hm' & Hp' & Hent & Hu).
    unfold deliver. rewrite Hwr. eexists. split; [reflexivity|].
    split_and!; try done; [|intros Hq; by apply (quiet_deliver _ _ i _ Hq Hi)].
    split; try done. cbn. revert Ha. apply acct_perm; try done.
    + unfold queued. by rewrite (flat_map_ext (entries mm) (entries (mem s)) Hent).
    + unfold todo_bufs. rewrite (flat_map_ext_Forall (undone mm _) (undone (mem s) (net s)) (all_bufs (cmd_buffer s))); [done|].
      by apply Forall_forall.
  - destruct (deliver_word_ok buf_len addrs _ _ _ _ _ _ _ i p Hp Hi He Hw') as [Hp' Hu].
    exists (with_recv s (arrive (recv_buf s) p) (delete i (net s)) (recvs s) (cmd_cnts s) (received s)).
    split; [destruct p; try done; by destruct (Hw' a c)|].
    split_and!; try done; [|intros Hq; pose proof (quiet_deliver _ _ i _ Hq Hi He) as Hq'; destruct p; try done; by destruct (Hw' a c)].
    split; try done. cbn. revert Ha. apply acct_perm; try done. unfold todo_bufs. by rewrite (flat_map_ext _ _ Hu).
Qed.

(** ** Every step *)

(** The steps that may raise a count. *)
Definition grows (e : Event) : bool :=
  match e with ENew _ _ | ESend _ | EOther true => true | _ => false end.

(** The step in which [compare_exchange_weak] does not fail spuriously. *)
Definition strong (e : Event) : Prop := match e with ESender _ true => False | _ => True end.

Definition preserved (s : St) (e : Event) (r : option (res St)) : Prop :=
  match r with
  | Some (Ok s') => ((grows e = true -> load s' < USIZE) -> Inv s') /\ ((length addrs <= 2)%nat -> strong e -> wait_ok s -> wait_ok s')
  | Some (Err w) => w = Overflow
  | None => True
  end.

Lemma waits_app ts t sw u : in_loop2 t = false -> waits ts sw u -> waits (ts ++ [t]) sw u.
Proof.
  intros Ht [H1 H2]. split; [|rewrite zcount_app, zcount_cons, zcount_nil, Ht; cbn; lia].
  intros Hs. destruct (H1 Hs) as [a Ha]. exists a. apply elem_of_app. by left.
Qed.

Lemma app_step_inv s e :
  match e with ESender _ _ | ECheckTransfers | EPoll | EReceiver _ | EDeliver _ => False | _ => True end ->
  Inv s -> preserved s e (step s e).
Proof.
  intros He Hs. pose proof Hs as [Hb Hm Hp Ha]. destruct e as [a bs|i|i|[]|i w| | |i|i]; try done; cbn [step].
  - case_decide as Hc; [|done]. destruct Hc as (Hap & Hn & Hbs). split; [|done]. intros Hl. split; try done.
    apply acct_new; try done. by apply Hl.
  - destruct (handles s !! i) as [a|] eqn:Hi; [|done]. cbn. apply list_elem_of_lookup_2 in Hi.
    destruct (proj2 (ac_blocks _ _ _ _ _ _ _ _ _ _ Ha) a) as [b Hbl]; [unfold refs; rewrite !elem_of_app; auto|].
    assert (exists bl, add_ref (blocks s) a = Ok bl) as [bl Hadd] by (unfold add_ref; rewrite Hbl; by eexists).
    rewrite Hadd, Hbl. split.
    + intros Hl. specialize (Hl eq_refl). unfold load in Hl. cbn in Hl. split; try done. cbn.
      assert (load_of (queued (mem s) (cmd_buffer s)) (handles s) (SendStart a :: sends s) (others s) < USIZE) as Hl'.
      { revert Hl. unfold load_of. rewrite zsum_app, !zsum_cons. cbn. lia. }
      destruct (acct_send a Ha Hi Hl') as (b' & bl' & Hb' & Hadd' & Ha'). rewrite Hbl in Hb'. injection Hb' as <-.
      rewrite Hadd in Hadd'. injection Hadd' as <-. revert Ha'. apply acct_perm; try done. apply Permutation_cons_append.
    + intros _ _. by apply waits_app.
  - destruct (handles s !! i) as [a|] eqn:Hi; [|done]. cbn.
    destruct (acct_drop a (delete i (handles s)) Ha) as (bl & -> & Ha'); [by apply lookup_delete_perm|].
    split; [|done]. intros _. by split.
  - split; [|done]. intros Hl. specialize (Hl eq_refl). split; try done. cbn.
    pose proof (acct_bounds _ _ _ _ _ _ _ _ _ _ Ha) as (_ & Hp0 & _). pose proof (ac_pending _ _ _ _ _ _ _ _ _ _ Ha) as Hpe.
    unfold load, load_of in Hl. cbn in Hl. pose proof (length_refs (handles s) (sends s)). pose proof (zcount_bounds in_start (sends s)).
    apply (acct_other _ _ Ha); [rewrite wadd_ok by lia; lia|done].
  - destruct (others s) as [|o] eqn:Ho; [done|]. cbn. split; [|done]. intros _. split; try done. cbn.
    pose proof (acct_bounds _ _ _ _ _ _ _ _ _ _ Ha) as (_ & Hp0 & Hp1). pose proof (ac_pending _ _ _ _ _ _ _ _ _ _ Ha) as Hpe.
    pose proof (zcount_bounds in_start (sends s)). pose proof (zcount_bounds in_loop1 (sends s)).
    pose proof (ac_load _ _ _ _ _ _ _ _ _ _ Ha) as Hl.
    eapply (acct_other _ _ Ha); [rewrite wsub_ok by lia; lia|unfold load_of in *; lia].
Qed.

(** In every state of a run, a step panics only by an overflow check, and
    otherwise keeps the invariant. *)
Lemma step_inv s e : Inv s -> preserved s e (step s e).
Proof.
  intros Hs. destruct e as [a bs|i|i|up|i weak| | |i|i]; try by apply app_step_inv.
  - cbn [step]. destruct (sends s !! i) as [t|] eqn:Hi; [|done]. cbn.
    pose proof (send_step_ok s i t weak Hs Hi) as H. destruct (send_step s weak t) as [[s' ts]|w]; [|done].
    destruct H as [H1 H2]. split; [by intros _|]. intros Hl Hst. by apply H2; [|destruct weak].
  - destruct (progress_inv s Hs) as (cb & sb & bl & Hpr & Hs' & Hu & _). cbn [step]. unfold check_transfers. rewrite Hpr.
    split; [intros _; apply Hs'|]. intros _ _ [H1 H2]. split; [done|]. cbn. by rewrite Hu.
  - destruct (poll_inv s Hs) as (s' & Hpo & Hs' & Hk & _). cbn [step]. rewrite Hpo.
    split; [done|]. intros _ _. by apply kept_wait.
  - cbn [step]. destruct (recvs s !! i) as [t|] eqn:Hi; [|done]. cbn.
    destruct (recv_step_inv s i t Hs Hi) as (s' & ts & -> & Hs' & Hk & _). split; [done|].
    intros _ _. by apply (kept_wait s s').
  - cbn [step]. destruct (net s !! i) as [p|] eqn:Hi; [|done]. cbn. case_decide as Hl; [done|].
    destruct (deliver_inv s i p Hs Hi Hl) as (s' & -> & Hs' & Hk & _). split; [done|].
    intros _ _. by apply kept_wait.
Qed.

(** ** Runs *)
Definition lstep (spurious : bool) (s s' : St) : Prop :=
  exists e, (spurious = true \/ strong e) /\ step s e = Some (Ok s') /\ load s' < USIZE.

Lemma qstep_inv spurious s s' : lstep spurious s s' -> Inv s -> Inv s'.
Proof.
  intros (e & _ & He & Hl) Hs. pose proof (step_inv s e Hs) as H. rewrite He in H. apply H. by intros _.
Qed.

Lemma lstep_wait s s' : (length addrs <= 2)%nat -> lstep false s s' -> Inv s -> wait_ok s -> wait_ok s'.
Proof.
  intros Ha (e & [|Hst] & He & Hl) Hs; [done|]. pose proof (step_inv s e Hs) as H. rewrite He in H. by apply H.
Qed.

(** What the queue does by itself: the tasks it has, [check_transfers], the
    receiver and the network; no new message, no other call of [send_data], no
    dropped handle, and no spurious failure. *)
Definition own (e : Event) : Prop :=
  match e with ENew _ _ | ESend _ | EDrop _ | EOther true | ESender _ true => False | _ => True end.
Definition own_step (s s' : St) : Prop := exists e, own e /\ step s e = Some (Ok s') /\ load s' < USIZE.

Lemma own_lstep s s' : own_step s s' -> lstep false s s'.
Proof. intros (e & Ho & He). exists e. split; [right; by destruct e|done]. Qed.
Lemma own_lsteps s s' : rtc own_step s s' -> rtc (lstep false) s s'.
Proof. induction 1; [done|]. eapply rtc_l; [by apply own_lstep|done]. Qed.

(** A step that raises no count is a step of a run. *)
Lemma quiet_lstep s e s' : Inv s -> own e -> step s e = Some (Ok s') -> own_step s s' /\ Inv s'.
Proof.
  intros Hs Ho He. pose proof (step_inv s e Hs) as H. rewrite He in H. destruct H as [H _].
  assert (Inv s') as Hs' by (apply H; destruct e as [| | |[]| | | | |]; done). split; [|done]. exists e. split; [done|]. split; [done|].
  apply (ac_load _ _ _ _ _ _ _ _ _ _ (inv_acct s' Hs')).
Qed.

(** *** No overflow check fails

    [B] bounds the sum of the address, the size, the discriminant and the hash of
    a message, [P] the bytes between the fields of a command; the sums that
    announce a buffer then stay below [USIZE]. *)
Record fits (B P : Z) (s : St) : Prop := {
  ft_bounds : 0 <= B < USIZE /\ 0 <= P;
  ft_announce : announcements_fit B P buf_len addrs;
  ft_blocks : small_blocks B (blocks s);
  ft_mem : small_mem B P (mem s);
}.

Lemma fits_same B P s s' : mem s' = mem s -> fewer (blocks s) (blocks s') -> fits B P s -> fits B P s'.
Proof. intros Hm Hb [H1 H2 H3 H4]. split; [done|done|by eapply fewer_small|by rewrite Hm]. Qed.

(** The message of a task in the first loop. *)
Lemma loop1_small B P s i a n h : Inv s -> fits B P s -> sends s !! i = Some (SendLoop1 a n h) ->
  0 < a /\ 0 < n /\ 0 <= h /\ a + n + discriminant Tx + h <= B.
Proof.
  intros Hs [_ _ Hb _] Hi. pose proof (acct_at s i _ Hs Hi) as Ha. destruct (acct_push a n h Ha) as (_ & Hap & Hnp & Hhp).
  pose proof (ac_sends _ _ _ _ _ _ _ _ _ _ Ha) as Hsn. apply Forall_cons in Hsn as [(bs & Hd & Hx) _].
  unfold core_addr in *. cbn in Hd, Hx. injection Hx as -> ->. unfold data_of in Hd. apply fmap_Some in Hd as (b & Hbl & ->).
  specialize (Hb a b Hbl). lia.
Qed.

Lemma hash_send_buf s : Inv s -> hash (send_buf s) <> Err Overflow.
Proof.
  intros [_ _ Hp _]. pose proof (pr_tx _ _ _ _ _ _ _ _ _ Hp) as Hs.
  destruct (tx_bufs (cmd_buffer s)) as [|b [|]]; cbn in Hs; [| |done].
  - by rewrite is_clear_hash by apply Hs.
  - destruct Hs as ((Hse & Hc & _) & _). by destruct (sealed_hash _ Hse Hc) as (h & -> & _).
Qed.

Lemma try_sending_no_err B P s : Inv s -> fits B P s ->
  exists r, try_sending_buffer (mem s) (cmd_buffer s) (send_buf s) (pending_cmds s) = Ok r.
Proof.
  intros Hs [H1 H2 _ H4]. pose proof (try_sending_inv s Hs) as Ht.
  pose proof (try_sending_fits B P buf_len addrs Hpos H2 (proj1 (proj1 H1)) (proj2 H1) _ (cmd_buffer s) _ (pending_cmds s) H4
    (bo_wf _ _ _ (inv_bufs s Hs)) (hash_send_buf s Hs)) as Hno.
  destruct (try_sending_buffer _ _ _ _) as [r|w]; [by exists r|]. congruence.
Qed.

(** A step of a sender neither fails nor breaks the bounds. *)
Lemma send_step_fits B P s i t : Inv s -> fits B P s -> sends s !! i = Some t ->
  exists s' ts, send_step s false t = Ok (s', ts) /\ fits B P s'.
Proof.
  intros Hs Hf Hi. pose proof (send_step_ok s i t false Hs Hi) as Hok. unfold step_ok in Hok.
  destruct t as [a|a n h|a w]; cbn [send_step] in *.
  - unfold send_start in *. destruct (blocks s !! a) as [b|]; [|done]. destruct (add_ref (blocks s) a) as [bl|] eqn:Ea; [|subst; by apply add_ref_overflow in Ea].
    eexists _, _. split; [done|]. eapply fits_same, Hf; [done|]. by eapply add_ref_fewer.
  - destruct (loop1_small B P s i a n h Hs Hf Hi) as (Ha & Hn & Hh & Hle). pose proof Hf as [Hbd Han Hbl Hm].
    unfold send_loop1 in *.
    pose proof (try_push_ok buf_len addrs Hnd Hlen _ _ _ _ _ _ _ a n h (inv_bufs s Hs) (inv_mem s Hs) (inv_prot s Hs) Ha Hn Hh) as Hp.
    destruct (try_push _ _ _ _ _) as [[[mm cb] []]|w] eqn:Et.
    + eexists _, _. split; [done|]. split; [done|done|done|]. cbn. by eapply try_push_small, Et; lia || done.
    + destruct Hp as (-> & -> & _). destruct (progress_inv s Hs) as (cb1 & sb1 & bl1 & Epr & Hs1 & _). rewrite Epr in *.
      pose proof (progress_fewer _ _ _ _ _ _ _ Epr) as Hfew.
      destruct (try_sending_no_err B P _ (Hs1 (send_waiting s))) as [[[[cb2 sb2] ps] d] Etr]; [by apply (fits_same B P s)|].
      cbn in Etr. rewrite Etr. eexists _, _. split; [done|]. by apply (fits_same B P s).
    + subst w. apply try_push_overflow in Et; lia.
  - unfold send_loop2, send_end in *. destruct (empty (cmd_buffer s)).
    { destruct (drop_ref (blocks s) a) as [bl|] eqn:Ed; [|subst; by apply drop_ref_overflow in Ed]. eexists _, _. split; [done|].
      eapply fits_same, Hf; [done|]. by eapply drop_ref_fewer. }
    destruct (progress_inv s Hs) as (cb1 & sb1 & bl1 & Epr & Hs1 & _). rewrite Epr in *.
    pose proof (progress_fewer _ _ _ _ _ _ _ Epr) as Hfew.
    destruct (try_sending_no_err B P _ (Hs1 (send_waiting s))) as [[[[cb2 sb2] ps] d] Etr]; [by apply (fits_same B P s)|].
    cbn in Etr. rewrite Etr in *.
    assert (forall s1, mem s1 = mem s -> fewer bl1 (blocks s1) -> fits B P s1) as Hfs.
    { intros s1 E1 E2. eapply fits_same, Hf; [done|]. by etrans. }
    destruct d; [|destruct w; [|destruct (negb (send_waiting s) && negb false)]];
      try (eexists _, _; split; [done|]; by apply Hfs);
      destruct (drop_ref bl1 a) as [bl|] eqn:Ed; try (subst; by apply drop_ref_overflow in Ed);
      (eexists _, _; split; [done|]; apply Hfs; [done|]; by eapply drop_ref_fewer).
Qed.

Lemma fits_own B P s s' : own_step s s' -> Inv s -> fits B P s -> fits B P s'.
Proof.
  intros (e & Ho & He & _) Hs Hf. destruct e as [a bs|i|i|[]|i []| | |i|i]; try done; cbn [step] in He.
  - destruct (others s); [done|]. injection He as <-. by apply (fits_same B P s).
  - destruct (sends s !! i) as [t|] eqn:Hi; [|done]. cbn in He.
    destruct (send_step_fits B P s i t Hs Hf Hi) as (s1 & ts & Es & Hf1). rewrite Es in He. injection He as <-. by apply (fits_same B P s1).
  - unfold check_transfers in He. destruct (progress_transfers _ _ _ _) as [[[cb sb] bl]|] eqn:Ep; [|done]. injection He as <-.
    eapply fits_same, Hf; [done|]. by eapply progress_fewer.
  - destruct (poll_inv s Hs) as (s1 & Ep & _). unfold poll in He. destruct (ready (recv_buf s)) as [[[c|] rb]|]; [|by injection He as <-; apply (fits_same B P s)|done].
    destruct (cmd c); try done; injection He as <-; by apply (fits_same B P s).
  - destruct (recvs s !! i) as [t|] eqn:Hi; [|done]. cbn in He. destruct (recv_step s t) as [[s1 ts]|] eqn:Er; [|done]. injection He as <-.
    assert (mem s1 = mem s /\ blocks s1 = blocks s) as [E1 E2]; [|eapply fits_same, Hf; [done|]; cbn; by rewrite E2].
    destruct t; cbn in Er; unfold fetch_buf, fetch_cmd, fetch_done in Er; repeat (case_match; try done); by injection Er as <- _.
  - destruct (net s !! i) as [p|] eqn:Hi; [|done]. cbn in He. case_decide; [done|]. injection He as He. unfold deliver in He.
    destruct p as [| | | | |a c]; try (injection He as <-; by apply (fits_same B P s)).
    destruct (write_cmd (mem s) a c) as [mm|] eqn:Ew; [|done]. injection He as <-. destruct Hf as [H1 H2 H3 H4]. split; try done.
    by eapply write_cmd_small.
Qed.

(** *** Letting the receiver catch up *)
Definition reaches (s : St) (P : St -> Prop) : Prop := exists s', rtc own_step s s' /\ Inv s' /\ P s'.

Lemma fits_reached B P s s' : rtc own_step s s' -> Inv s -> fits B P s -> fits B P s'.
Proof.
  induction 1 as [|s s1 s2 Hl _ IH]; [done|]. intros Hs Hf. apply IH; [|by eapply fits_own].
  eapply qstep_inv; [by apply own_lstep|done].
Qed.

Lemma reaches_step s s1 (P : St -> Prop) : own_step s s1 -> reaches s1 P -> reaches s P.
Proof. intros Hl (s' & Hr & H). exists s'. split; [by eapply rtc_l|done]. Qed.
Lemma reaches_trans s (P Q : St -> Prop) : reaches s P -> (forall s1, Inv s1 -> P s1 -> reaches s1 Q) -> reaches s Q.
Proof.
  intros (s1 & Hr & Hs1 & HP) H. destruct (H s1 Hs1 HP) as (s2 & Hr2 & H2). exists s2. split; [by etrans|done].
Qed.

Lemma deliver_all s : Inv s -> reaches s (fun s' => net s' = [] /\ kept s s' /\ (still s -> still s') /\ recvs s' = recvs s).
Proof.
  remember (length (net s)) as n eqn:Hn. revert s Hn. induction n as [|n IH]; intros s Hn Hs.
  { exists s. split; [done|]. split; [done|]. destruct (net s); [|done]. split_and!; try done. }
  destruct (net s) as [|p l] eqn:Hnet; [done|].
  destruct (deliver_inv s 0 p Hs) as (s1 & He & Hs1 & Hk & Hq & Hn1 & Hr); [by rewrite Hnet|by rewrite Hnet; apply not_elem_of_nil|].
  assert (own_step s s1) as Hl.
  { apply (quiet_lstep s (EDeliver 0)); try done. rewrite Hnet in He. cbn in He |- *. rewrite Hnet. cbn. by rewrite He. }
  rewrite Hnet in Hn1. cbn in Hn1, Hn. eapply reaches_step; [exact Hl|].
  eapply reaches_trans; [apply (IH s1); [by rewrite Hn1; injection Hn|done]|].
  intros s2 Hs2 (Hn2 & Hk2 & Hq2 & Hr2). exists s2. split; [done|]. split; [done|].
  split_and!; [done|by eapply kept_trans|auto|congruence].
Qed.

(** A command that has arrived is taken out of the slot. *)
Lemma poll_still s : Inv s -> net s = [] -> reaches s (fun s' => net s' = [] /\ kept s s' /\ still s').
Proof.
  intros Hs Hn. destruct (poll_inv s Hs) as (s1 & He & Hs1 & Hk & Hn1).
  assert (own_step s s1) as Hl.
  { apply (quiet_lstep s EPoll); try done. cbn. by rewrite He. }
  exists s1. split; [by apply rtc_once|]. split; [done|]. split; [congruence|]. split; [done|].
  pose proof Hs as [Hb Hm Hp _]. revert He. unfold poll, still.
  destruct (ready_ok buf_len addrs Hnd Hlen Hpos _ _ _ _ _ _ _ Hb Hp) as [Hr|(b & c & rb & Hr & Htx & (Hcd & _ & Hc & _) & _ & Hp')]; rewrite Hr.
  - intros [= <-]. cbn. pose proof (pr_tx _ _ _ _ _ _ _ _ _ Hp) as Ht.
    destruct (tx_bufs (cmd_buffer s)) as [|b [|]] eqn:Htx; [apply Ht| |done].
    destruct Ht as ((Hse & Hc & Hd & Hsz) & [(Hi & _ & Hca)|[(_ & _ & ?)|(_ & ?)]]); [|done..]. exfalso.
    rewrite Hn in Hca. destruct Hca as [[?|[= Ed]] [?|[= Es]] [?|[= Ec]] (z & Hz & _) [?|[= Eh]]]; try done.
    assert (z = []) as -> by (destruct z as [|? []]; done). injection Hz as Em.
    assert (check_hash (recv_buf s) = Ok true) as Hch.
    { apply sealed_check. unfold sealed, nonneg, fsum in *. by rewrite Ed, Es, Ec, Em, Eh. }
    unfold ready in Hr. rewrite Hch, Ec, Hc in Hr.
    destruct (daddr (recv_buf s) =? 0) eqn:H0; [|by destruct (clear (recv_buf s))].
    apply Z.eqb_eq in H0. pose proof (bufs_wf _ _ _ b Hb) as Hwf. 
    assert (0 < addr b); [|lia]. apply Hpos, Hwf. unfold all_bufs. rewrite Htx.
    rewrite !elem_of_app. right. right. right. left. by left.
  - rewrite Hc. intros [= <-]. cbn. pose proof (pr_tx _ _ _ _ _ _ _ _ _ Hp') as Ht. rewrite Htx in Ht.
    destruct Ht as (_ & [((_ & Hno & _) & _)|[(_ & _ & ?)|(_ & ?)]]); [|done..]. exfalso.
    assert (FetchBuf c ∈ tasks_of (recvs s ++ [FetchBuf c]) (addr b)) as Hin; [|by rewrite Hno in Hin; apply elem_of_nil in Hin].
    apply elem_tasks_of; [apply elem_of_app; right; by left|]. cbn. by rewrite Hcd.
Qed.

Lemma run_tasks s : Inv s -> still s -> reaches s (fun s' => recvs s' = [] /\ kept s s' /\ still s').
Proof.
  remember (Z.to_nat (zsum task_weight (recvs s))) as n eqn:Hn. revert s Hn.
  induction n as [n IH] using lt_wf_ind. intros s -> Hs Hq. destruct (recvs s) as [|t l] eqn:Hr; [by exists s|].
  destruct (recv_step_inv s 0 t Hs) as (s1 & ts & He & Hs1 & Hk & Hst & Hw); [by rewrite Hr|].
  rewrite Hr in Hs1. cbn [take drop app] in Hs1. set (s2 := with_recv _ _ _ _ _ _) in Hs1.
  assert (own_step s s2) as Hl.
  { apply (quiet_lstep s (EReceiver 0)); try done. cbn. rewrite Hr. cbn. by rewrite He. }
  assert (forall x, x ∈ recvs s2 -> 0 <= task_weight x) as Hnn by (intros [] _; cbn; lia).
  eapply reaches_step; [exact Hl|]. eapply reaches_trans; [eapply (IH _ _ s2 eq_refl Hs1 (Hst Hq))|].
  Unshelve.
  - intros s3 Hs3 (Hr3 & Hk3 & Hq3). exists s3. split; [done|]. split; [done|]. split; [done|]. split; [|done].
    by eapply kept_trans.
  - apply zsum_nonneg in Hnn. unfold s2 in *. cbn in *. rewrite zsum_app in *. rewrite drop_0 in Hnn |- *. lia.
Qed.

(** When nothing is under way, what was announced has been given back. *)
Lemma nothing_out s :
  Inv s -> still s -> net s = [] -> recvs s = [] ->
  Forall (fun b => head_cmd (mem s) (addr b) = Tx) (tx_bufs (cmd_buffer s)) ->
  Forall (fun b => head_cmd (mem s) (addr b) = Release) (waiting_bufs (cmd_buffer s)) ->
  tx_bufs (cmd_buffer s) = [] /\ waiting_bufs (cmd_buffer s) = [].
Proof.
  intros [_ _ Hp _] Hq Hn Hr Htx Hw.
  assert (forall b, fetched buf_len (mem s) (net s) (recvs s) (cmd_cnts s) b -> head_cmd (mem s) (addr b) = Free) as Hf.
  { intros b (_ & [(Hne & _)|(_ & Htr)]); [by rewrite Hr in Hne|]. rewrite Hn in Htr.
    destruct Htr as [[=]|[[=]|[=]]]. done. }
  split.
  - pose proof (pr_tx _ _ _ _ _ _ _ _ _ Hp) as Ht. destruct (tx_bufs (cmd_buffer s)) as [|b [|]]; [done| |done]. exfalso.
    apply Forall_cons in Htx as [Hh _].
    destruct Ht as ((_ & Hcm & _) & [(_ & _ & Hc)|[(_ & (c & Hc & _) & _)|(Hfe & _)]]).
    + destruct (c_cmd _ _ _ Hc) as [Hc'|Hc']; rewrite (q_cmd _ _ Hq), Hcm in Hc'; done.
    + by rewrite Hr in Hc.
    + rewrite (Hf b Hfe) in Hh. done.
  - pose proof (pr_wait _ _ _ _ _ _ _ _ _ Hp) as Hwt. destruct (waiting_bufs (cmd_buffer s)) as [|b w]; [done|]. exfalso.
    apply Forall_cons in Hw as [Hh _]. apply Forall_cons in Hwt as [[Hfe _] _]. rewrite (Hf b Hfe) in Hh. done.
Qed.

Definition settled (s : St) : Prop :=
  net s = [] /\ recvs s = [] /\ still s /\ tx_bufs (cmd_buffer s) = [] /\ waiting_bufs (cmd_buffer s) = [].

Lemma settle s : Inv s -> reaches s (fun s' => settled s' /\ kept s s').
Proof.
  intros Hs. eapply reaches_trans; [by apply deliver_all|]. intros s1 Hs1 (Hn1 & Hk1 & _).
  eapply reaches_trans; [by apply poll_still|]. intros s2 Hs2 (Hn2 & Hk2 & Hq2).
  eapply reaches_trans; [by apply run_tasks|]. intros s3 Hs3 (Hr3 & Hk3 & Hq3).
  eapply reaches_trans; [by apply deliver_all|]. intros s4 Hs4 (Hn4 & Hk4 & Hq4 & Hr4).
  destruct (progress_inv s4 Hs4) as (cb & sb & bl & He & Hs5 & Hu & Htx & Hw). specialize (Hs5 (send_waiting s4)).
  set (s5 := with_queue _ _ _ _ _ _ _ _ _) in Hs5.
  assert (own_step s4 s5) as Hl.
  { apply (quiet_lstep s4 ECheckTransfers); try done. cbn. unfold check_transfers. by rewrite He. }
  destruct (nothing_out s5) as [H1 H2]; try done; [by apply Hq4|cbn; congruence|].
  exists s5. split; [by apply rtc_once|]. split; [done|]. split.
  - split_and!; try done; [cbn; congruence|by apply Hq4].
  - do 4 (eapply kept_trans; [eassumption|]). done.
Qed.

(** *** Emptying the queue *)
Definition send_weight (t : SendTask) : Z := match t with SendStart _ => 3 | SendLoop1 _ _ _ => 2 | SendLoop2 _ _ => 1 end.
Definition todo_weight (s : St) : Z := Z.of_nat (others s) + zsum send_weight (sends s).

Lemma todo_weight_nonneg s : 0 <= todo_weight s.
Proof. unfold todo_weight. assert (0 <= zsum send_weight (sends s)); [|lia]. apply zsum_nonneg. intros [] _; cbn; lia. Qed.

Lemma progress_settled mm cb sb bl :
  tx_bufs cb = [] -> waiting_bufs cb = [] -> progress_transfers mm cb sb bl = Ok (cb, sb, bl).
Proof. intros H1 H2. unfold progress_transfers, check_transfer, check_free_data. rewrite H1. cbn. by rewrite H2. Qed.

(** [s'] is nearer to the end. *)
Definition nearer (s s' : St) : Prop := sent s' = sent s /\ todo_weight s' < todo_weight s.
Definition advances (s : St) : Prop := exists s', own_step s s' /\ Inv s' /\ nearer s s'.

Context (B P : Z).

Lemma sender_moves s i t :
  Inv s -> fits B P s -> sends s !! i = Some t ->
  match send_step s false t with
  | Ok (s', ts) => others s' = others s /\ sent s' = sent s /\ zsum send_weight ts < send_weight t
  | Err _ => True
  end -> advances s.
Proof.
  intros Hs Hf Hi H. pose proof (send_step_ok s i t false Hs Hi) as Hok. unfold step_ok in Hok.
  destruct (send_step_fits B P s i t Hs Hf Hi) as (s1 & ts & He & _). rewrite He in Hok, H.
  destruct Hok as [Hs1 _]. destruct H as (Ho & Hsn & Hw). exists (replaced s s1 i ts).
  destruct (quiet_lstep s (ESender i false) (replaced s s1 i ts)) as [Hl _]; try done.
  { cbn. rewrite Hi. cbn. by rewrite He. }
  split; [done|]. split; [done|]. split; [done|]. unfold todo_weight. cbn. rewrite Ho, (zsum_replace send_weight (sends s) i t ts Hi). lia.
Qed.

(** A task in the second loop announces a buffer and ends. *)
Lemma loop2_moves s i a w :
  Inv s -> fits B P s -> settled s -> sends s !! i = Some (SendLoop2 a w) -> pending_cmds s = 0 \/ full_bufs (cmd_buffer s) <> [] ->
  advances s.
Proof.
  intros Hs Hf (_ & _ & _ & Htx & Hw) Hi Hgo. apply (sender_moves s i _ Hs Hf Hi).
  cbn [send_step]. unfold send_loop2.
  assert (forall cb sb sw bl ps, match send_end s cb sb sw bl ps a with
    | Ok (s', ts) => others s' = others s /\ sent s' = sent s /\ zsum send_weight ts < send_weight (SendLoop2 a w)
    | Err _ => True end) as Hend.
  { intros cb sb sw bl ps. unfold send_end. by destruct (drop_ref bl a). }
  destruct (empty (cmd_buffer s)); [apply Hend|]. rewrite progress_settled by done.
  pose proof (try_sending_inv s Hs) as Ht.
  destruct (try_sending_buffer _ _ _ _) as [[[[cb sb] ps] d]|x]; [|done]. destruct d; [apply Hend|].
  destruct Ht as (_ & -> & [[Hp Hfu]|[b Hb]]); [by destruct Hgo|congruence].
Qed.

Lemma loop2_no_loop1 ts : Forall (fun t => in_loop2 t = true) ts -> zcount in_loop1 ts = 0.
Proof. induction 1 as [|t ts Ht Hts IH]; [done|]. rewrite zcount_cons, IH. by destruct t. Qed.

Lemma queue_moves s :
  (length addrs <= 2)%nat -> addrs <> [] -> Inv s -> fits B P s -> wait_ok s -> settled s -> others s <> 0%nat \/ sends s <> [] ->
  advances s.
Proof.
  intros Hal Hne Hs Hfit Hw Hset Hsome. pose proof Hset as (_ & _ & _ & Htx & Hwt).
  destruct (others s) as [|o] eqn:Ho.
  2:{ set (s1 := with_app s (wsub (pending_cmds s) 1) o (blocks s) (handles s) (sends s) (sent s)).
      destruct (quiet_lstep s (EOther false) s1 Hs I) as [Hl Hs']; [cbn [step]; by rewrite Ho|].
      exists s1. split; [done|]. split; [done|]. split; [done|]. unfold todo_weight, s1. cbn. lia. }
  destruct Hsome as [|Hsome]; [done|].
  assert ((exists i t, sends s !! i = Some t /\ in_loop2 t = false) \/ Forall (fun t => in_loop2 t = true) (sends s)) as [(i & t & Hi & Ht)|Hall].
  { clear. induction (sends s) as [|t l IH]; [by right|]. destruct (in_loop2 t) eqn:Ht; [|left; by exists 0%nat, t].
    destruct IH as [(i & t' & Hi & Ht')|IH]; [left; by exists (S i), t'|right; by constructor]. }
  - destruct t as [a|a n h|]; [| |done].
    + apply (sender_moves s i (SendStart a) Hs Hfit Hi). cbn [send_step]. unfold send_start.
      destruct (blocks s !! a); [|done]. destruct (add_ref (blocks s) a); [|done]. done.
    + destruct (decide (cur_buf (cmd_buffer s) = None /\ empty_bufs (cmd_buffer s) = [])) as [[Hc Hem]|Hroom].
      * assert (full_bufs (cmd_buffer s) <> []) as Hf.
        { intros Hf. pose proof (Permutation_length (bo_addrs _ _ _ (inv_bufs s Hs))) as Hl. unfold all_bufs in Hl.
          rewrite Hc, Hem, Hf, Htx, Hwt in Hl. destruct addrs; done. }
        destruct Hw as [_ Hw]. unfold unsent in Hw.
        assert (0 < zcount in_loop2 (sends s)) as Hz by (destruct (full_bufs (cmd_buffer s)); [done|cbn in Hw; lia]).
        assert (exists j a' w, sends s !! j = Some (SendLoop2 a' w)) as (j & a' & w & Hj).
        { clear -Hz. induction (sends s) as [|t l IH]; [by rewrite zcount_nil in Hz|]. rewrite zcount_cons in Hz.
          destruct t as [| |a' w]; [..|by exists 0%nat, a', w]; cbn in Hz; destruct IH as (j & Hj); try lia; by exists (S j). }
        apply (loop2_moves s j a' w); auto.
      * apply (sender_moves s i (SendLoop1 a n h) Hs Hfit Hi). cbn [send_step]. unfold send_loop1.
        destruct (acct_push a n h (acct_at s i _ Hs Hi)) as (_ & Hap & Hnp & Hhp).
        pose proof (try_push_ok buf_len addrs Hnd Hlen _ _ _ _ _ _ _ a n h (inv_bufs s Hs) (inv_mem s Hs) (inv_prot s Hs) Hap Hnp Hhp) as H.
        destruct (try_push _ _ _ _ _) as [[[mm cb] []]|w]; [done| |done]. by destruct H as (_ & _ & H).
  - destruct (sends s) as [|t l] eqn:Hse; [done|]. pose proof Hall as Hall'. apply Forall_cons in Hall as [Ht _].
    destruct t as [| |a w]; [done..|]. apply (loop2_moves s 0 a w Hs Hfit Hset); [by rewrite Hse|]. left.
    by rewrite (ac_pending _ _ _ _ _ _ _ _ _ _ (inv_acct s Hs)), Ho, Hse, (loop2_no_loop1 _ Hall').
Qed.

Definition drained (s : St) : Prop :=
  sends s = [] /\ recvs s = [] /\ net s = [] /\ empty (cmd_buffer s) = true.

Lemma settled_drained s : Inv s -> wait_ok s -> settled s -> sends s = [] -> drained s.
Proof.
  intros Hs [_ Hw] (Hn & Hr & _ & Htx & Hwt) Hse. split_and!; try done. rewrite Hse in Hw.
  pose proof (Permutation_length (bo_addrs _ _ _ (inv_bufs s Hs))) as Hl. unfold all_bufs in Hl.
  rewrite Htx, Hwt, length_map, !length_app in Hl. unfold empty. rewrite (bo_num _ _ _ (inv_bufs s Hs)). apply Nat.eqb_eq.
  unfold unsent in Hw. rewrite zcount_nil in Hw. cbn in Hl. lia.
Qed.

Lemma drains s :
  (length addrs <= 2)%nat -> addrs <> [] -> Inv s -> fits B P s -> wait_ok s ->
  reaches s (fun s' => sent s' = sent s /\ drained s').
Proof.
  intros Hal Hne. remember (Z.to_nat (todo_weight s)) as n eqn:Hn. revert s Hn.
  induction n as [n IH] using lt_wf_ind. intros s -> Hs Hf Hw.
  destruct (settle s Hs) as (s1 & Hr1 & Hs1 & Hset & Hk). pose proof (kept_wait s s1 Hk Hw) as Hw1.
  pose proof (fits_reached B P s s1 Hr1 Hs Hf) as Hf1. pose proof Hk as (Hse & Ho & Hsn & _).
  destruct (decide (others s1 = 0%nat /\ sends s1 = [])) as [[Ho1 Hse1]|Hsome].
  { exists s1. split; [done|]. split; [done|]. split; [done|]. by apply settled_drained. }
  destruct (queue_moves s1 Hal Hne Hs1 Hf1 Hw1 Hset) as (s2 & Hl & Hs2 & Hsn2 & Hlt).
  { destruct (others s1); [right; intros He; by apply Hsome|by left]. }
  destruct (IH (Z.to_nat (todo_weight s2)) ltac:(pose proof (todo_weight_nonneg s2); assert (todo_weight s1 = todo_weight s)
    by (unfold todo_weight; by rewrite Hse, Ho); lia) s2 eq_refl Hs2 (fits_own B P s1 s2 Hl Hs1 Hf1))
    as (s3 & Hr3 & Hs3 & Hsn3 & Hd).
  { eapply lstep_wait; [done|by apply own_lstep|done|done]. }
  exists s3. split; [|split; [done|split; [congruence|done]]]. etrans; [exact Hr1|]. by eapply rtc_l.
Qed.
End Runs.

(** ** Reachable states *)

(** The memory [CommandQueue::new] gets: distinct addresses, none of them 0, and
    [buf_len] commands of any contents in each buffer. *)
Record setup (addrs : list Z) (buf_len : nat) (cells : list CmdMsg) : Prop := {
  su_nodup : NoDup addrs;
  su_pos : forall a, a ∈ addrs -> 0 < a;
  su_len : (0 < buf_len)%nat /\ Z.of_nat buf_len < USIZE;
  su_cells : length cells = buf_len;
}.

Definition reachable (spurious : bool) (addrs : list Z) (buf_len : nat) (s : St) : Prop :=
  exists cells p s0, setup addrs buf_len cells /\ new addrs buf_len cells p = Ok s0 /\ rtc (lstep spurious) s0 s.

Lemma new_mem (addrs : list Z) (cells : list CmdMsg) a :
  a ∈ addrs -> (list_to_map (map (fun a => (a, cells)) addrs) : Mem) !! a = Some cells.
Proof.
  induction addrs as [|x l IH]; [by intros ?%elem_of_nil|]. intros Ha. cbn.
  destruct (decide (x = a)) as [->|Hne]; [by rewrite lookup_insert_eq|]. rewrite lookup_insert_ne by done.
  apply IH. by apply elem_of_cons in Ha as [->|Ha].
Qed.

Lemma new_all addrs buf_len :
  all_bufs (CmdMsgBuffer_new addrs buf_len) = map (fun a => {| addr := a; index := 0; allocated_cnt := 0; max_size := buf_len |}) addrs.
Proof. unfold all_bufs. cbn. apply app_nil_r. Qed.

Lemma new_inv addrs buf_len cells p s0 :
  setup addrs buf_len cells -> new addrs buf_len cells p = Ok s0 -> Inv buf_len addrs s0 /\ wait_ok s0.
Proof.
  intros [Hnd Hpos [Hlen Hw] Hc] [= <-]. pose proof (new_all addrs buf_len) as Hall.
  assert (forall f : CmdBuf -> list Core, (forall b, index b = 0%nat -> f b = []) -> flat_map f (all_bufs (CmdMsgBuffer_new addrs buf_len)) = []) as Hnil.
  { intros f Hf. rewrite Hall. clear -Hf. induction addrs as [|a l IH]; [done|]. cbn. by rewrite Hf, IH. }
  split; [split|by split].
  - split; cbn [cmd_buffer]; try done.
    + rewrite Hall, map_map. cbn. by rewrite map_id.
    + rewrite Hall. apply Forall_forall. intros b (a & -> & Ha)%list_elem_of_fmap. split; cbn; [done|done|lia|done].
  - intros a Ha. exists cells. split; [by apply new_mem|done].
  - split; cbn; try done.
    + apply Forall_forall. intros b (a & -> & Ha)%list_elem_of_fmap. done.
    + split; [done|]. split; try done. repeat constructor.
    + intros t t' id Ht. by apply elem_of_nil in Ht.
  - cbn [mem cmd_buffer net recvs blocks handles sends pending_cmds others sent received].
    unfold queued, todo_bufs. rewrite !Hnil.
    + split; cbn; try done. split; [done|]. intros a Ha. by apply elem_of_nil in Ha.
    + intros b Hb. unfold undone, entries. rewrite Hb. cbn. by case_decide.
    + intros b Hb. unfold entries. by rewrite Hb.
Qed.

Lemma queue_inv spurious addrs buf_len s : reachable spurious addrs buf_len s -> Inv buf_len addrs s.
Proof.
  intros (cells & p & s0 & Hsu & Hnew & Hr). destruct (new_inv _ _ _ _ _ Hsu Hnew) as [Hs _]. destruct Hsu as [Hnd Hpos [Hlen Hw] _].
  clear Hnew. induction Hr as [|s0 s1 s2 Hl Hr IH]; [done|]. apply IH. by eapply qstep_inv.
Qed.

Lemma reachable_wait addrs buf_len s :
  reachable false addrs buf_len s -> (length addrs <= 2)%nat -> wait_ok s.
Proof.
  intros (cells & p & s0 & Hsu & Hnew & Hr) Hal. destruct (new_inv _ _ _ _ _ Hsu Hnew) as [Hs Hw0]. destruct Hsu as [Hnd Hpos [Hlen Hw] _].
  clear Hnew. induction Hr as [|s0 s1 s2 Hl Hr IH]; [done|]. apply IH; [by eapply qstep_inv|by eapply lstep_wait].
Qed.

(** ** The theorems *)

(** C24: in every run of the queue, spurious failures of [compare_exchange_weak]
    included, nothing panics but an overflow check of [CmdMsg::hash]: no command
    buffer, message or counter is used outside its memory or after it was freed,
    and no [panic!] of the buffer management is reached. *)
Theorem queue_no_panic spurious addrs buf_len s e w :
  reachable spurious addrs buf_len s -> step s e = Some (Err w) -> w = Overflow.
Proof.
  intros Hr He. pose proof (queue_inv _ _ _ _ Hr) as Hs. destruct Hr as (cells & p & s0 & [Hnd Hpos [Hlen Hw] _] & _).
  pose proof (step_inv buf_len addrs Hnd Hlen Hpos Hw s e Hs) as H. by rewrite He in H.
Qed.

(** C25: [ready] never returns a command of which only some words have arrived:
    what it returns announces the buffer in flight, with its address, its size and
    the hash of its contents, and it leaves a clear slot. *)
Theorem ready_not_torn spurious addrs buf_len s :
  reachable spurious addrs buf_len s ->
  ready (recv_buf s) = Ok (None, recv_buf s) \/
  exists b c rb, ready (recv_buf s) = Ok (Some c, rb) /\ tx_bufs (cmd_buffer s) = [b] /\ is_clear rb /\
    announces (mem s) b c /\ cmd_hash c = cmd_hash (send_buf s).
Proof.
  intros Hr. pose proof (queue_inv _ _ _ _ Hr) as [Hb Hm Hp _]. destruct Hr as (cells & p & s0 & [Hnd Hpos [Hlen Hw] _] & _).
  destruct (ready_ok buf_len addrs Hnd Hlen Hpos _ _ _ _ _ _ _ Hb Hp) as [H|(b & c & rb & H & Htx & Ha & Hh & _)]; [by left|].
  right. exists b, c, rb. split_and!; try done. destruct Ha as (_ & _ & Hc & _). revert H. unfold ready.
  destruct (check_hash _) as [[]|]; [|done..]. intros H.
  assert (cmd (recv_buf s) = Tx) as Htx'.
  { destruct (cmd (recv_buf s)) eqn:Hcm; try done; destruct (daddr (recv_buf s) =? 0); try done; destruct (clear (recv_buf s)); try done;
      injection H as <- _; congruence. }
  rewrite Htx' in H. destruct (daddr (recv_buf s) =? 0); [done|].
  destruct (clear_ok (recv_buf s)) as (m & Hm' & Hcl). rewrite Hm' in H. by injection H as _ <-.
Qed.

(** The messages among the pending ones that are still to come. *)
Lemma once_rest {A} (sn rc : list A) l : map Some sn ≡ₚ map Some rc ++ l -> sn ≡ₚ rc ++ omap id l.
Proof.
  intros H. assert (omap id (map Some sn) ≡ₚ omap id (map Some rc ++ l)) as H' by (by rewrite H).
  rewrite omap_app in H'. assert (forall l : list A, omap id (map Some l) = l) as Hid.
  { clear. induction l as [|x l IH]; [done|]. cbn. by rewrite IH. }
  by rewrite !Hid in H'.
Qed.

(** When the queue is empty, nothing is missing. *)
Lemma drained_received spurious addrs buf_len s :
  reachable spurious addrs buf_len s -> drained s ->
  received s ≡ₚ sent s /\ (forall a b, blocks s !! a = Some b -> a ∈ handles s /\ ref_cnt b = zocc a (handles s)).
Proof.
  intros Hr (Hse & Hre & Hn & He). pose proof (queue_inv _ _ _ _ Hr) as [Hb Hm Hp Ha].
  pose proof (ac_once _ _ _ _ _ _ _ _ _ _ Ha) as Ho.
  assert (forall b, b ∈ all_bufs (cmd_buffer s) -> index b = 0%nat) as Hidx.
  { intros b Hin. unfold empty in He. apply Nat.eqb_eq in He. rewrite (bo_num _ _ _ Hb) in He.
    pose proof (Permutation_length (bo_addrs _ _ _ Hb)) as Hl. rewrite length_map in Hl. unfold all_bufs in Hl, Hin. rewrite length_app in Hl.
    assert (full_bufs (cmd_buffer s) ++ option_list (cur_buf (cmd_buffer s)) ++ tx_bufs (cmd_buffer s) ++ waiting_bufs (cmd_buffer s) = []) as Hnil.
    { apply length_zero_iff_nil. lia. }
    rewrite Hnil, app_nil_r in Hin. pose proof (pr_empty _ _ _ _ _ _ _ _ _ Hp) as Hem. rewrite Forall_forall in Hem. by apply Hem. }
  assert (forall f : CmdBuf -> list Core, (forall b, index b = 0%nat -> f b = []) -> flat_map f (all_bufs (cmd_buffer s)) = []) as Hnil.
  { intros f Hf. clear -Hidx Hf. induction (all_bufs (cmd_buffer s)) as [|b l IH]; [done|]. cbn. rewrite Hf, IH; [done| |apply Hidx; by left].
    intros b' Hb'. apply Hidx. by right. }
  assert (queued (mem s) (cmd_buffer s) = []) as Hq by (apply Hnil; intros b Hb0; unfold entries; by rewrite Hb0).
  assert (todo_bufs (mem s) (net s) (cmd_buffer s) = []) as Htd.
  { apply Hnil. intros b Hb0. unfold undone, entries. rewrite Hb0. cbn. by case_decide. }
  split.
  - rewrite Htd, Hse, Hre in Ho. apply once_rest in Ho. cbn in Ho. by rewrite app_nil_r in Ho.
  - intros a b Hbl. destruct (proj1 (ac_blocks _ _ _ _ _ _ _ _ _ _ Ha) a b Hbl) as (Hc & Hin & _).
    rewrite Hq, Hse in Hc, Hin. unfold refs in Hc, Hin. cbn in Hc, Hin. by rewrite app_nil_r in Hc, Hin.
Qed.

(** C8: what the receiver's scheduler gets is, message for message, what was
    given to [send_data]: nothing twice, nothing altered, nothing made up, and
    when the queue is empty nothing is missing and every message that no handle
    refers to has been freed. *)
Theorem received_once spurious addrs buf_len s :
  reachable spurious addrs buf_len s ->
  (exists rest, sent s ≡ₚ received s ++ rest) /\
  (drained s -> received s ≡ₚ sent s /\ (forall a b, blocks s !! a = Some b -> a ∈ handles s /\ ref_cnt b = zocc a (handles s))).
Proof.
  intros Hr. split; [|by apply drained_received with (spurious := spurious) (addrs := addrs) (buf_len := buf_len)].
  pose proof (queue_inv _ _ _ _ Hr) as [Hb Hm Hp Ha]. eexists. apply (once_rest _ _ _ (ac_once _ _ _ _ _ _ _ _ _ _ Ha)).
Qed.


(** ** Runs, computed *)
Fixpoint exec (s : St) (es : list Event) : option St :=
  match es with
  | [] => Some s
  | e :: es => match step s e with Some (Ok s') => if load s' <? USIZE then exec s' es else None | _ => None end
  end.

Lemma exec_rtc spurious s es s' : (spurious = true \/ Forall strong es) -> exec s es = Some s' -> rtc (lstep spurious) s s'.
Proof.
  revert s. induction es as [|e es IH]; intros s Hst; [by intros [= ->]|]. cbn [exec].
  destruct (step s e) as [[s1|]|] eqn:He; [|done..]. destruct (Z.ltb_spec (load s1) USIZE); [|done]. intros Hex.
  eapply rtc_l; [|apply IH; [|exact Hex]].
  - exists e. split; [|done]. destruct Hst as [|Hst]; [by left|right]. by apply Forall_cons in Hst as [Hst _].
  - destruct Hst as [|Hst]; [by left|right]. by apply Forall_cons in Hst as [_ Hst].
Qed.

Module Example.
(** Two buffers of two commands. *)
Definition addrs : list Z := [1000; 2000].
Definition pad0 : list Z := [0; 0; 0; 0; 0; 0; 0].
Definition blank_cell : CmdMsg := {| daddr := 0; dsize := 0; cmd := Clear; pad := pad0; msg_hash := 0; cmd_hash := 0 |}.
Definition cells : list CmdMsg := [blank_cell; blank_cell].
Definition empty_state : St :=
  {| mem := ∅; cmd_buffer := CmdMsgBuffer_new [] 0; send_buf := blank_cell; recv_buf := blank_cell; send_waiting := false;
     pending_cmds := 0; others := 0; blocks := ∅; handles := []; sends := []; net := []; recvs := []; cmd_cnts := [];
     sent := []; received := [] |}.
Definition start : St := match new addrs 2 cells pad0 with Ok s => s | Err _ => empty_state end.
Definition after_run (es : list Event) : St := default start (exec start es).

Lemma setup_ok : setup addrs 2 cells.
Proof.
  split; [|intros a Ha|split; lia|done].
  - apply NoDup_cons. split; [by intros ?%list_elem_of_singleton|apply NoDup_singleton].
  - unfold addrs in Ha. rewrite !elem_of_cons in Ha. destruct Ha as [->|[->|Ha]]; [done..|by apply elem_of_nil in Ha].
Qed.

Lemma reach spurious es :
  (spurious = true \/ Forall strong es) -> match exec start es with Some _ => true | None => false end = true ->
  reachable spurious addrs 2 (after_run es).
Proof.
  intros Hst He. exists cells, pad0, start. split; [apply setup_ok|]. split; [reflexivity|].
  apply (exec_rtc _ _ es); [done|]. unfold after_run. by destruct (exec start es).
Qed.

(** A message is sent, announced and received. *)
Definition sending : list Event :=
  [ENew 64 [1; 2; 3]; ESend 0; ESender 0 false; ESender 0 false; ESender 0 false].
Definition arriving : list Event := [EDeliver 4; EDeliver 1; EDeliver 0; EDeliver 1; EDeliver 0].
Definition receiving : list Event :=
  [EPoll; EReceiver 0; EReceiver 0; EReceiver 0; EDeliver 0; EDeliver 0; ECheckTransfers; EDrop 0].

(** A message of ones: its hash is the largest [usize]. *)
Definition overflowing : list Event := [ENew 64 [255; 255; 255; 255; 255; 255; 255; 255]; ESend 0; ESender 0 false].

(** The only task that could send the command gives up: another destination
    keeps [pending_cmds] above 0 and the [compare_exchange_weak] fails. *)
Definition giving_up : list Event :=
  [ENew 64 [1; 2; 3]; ESend 0; ESender 0 false; ESender 0 false; EOther true; ESender 0 true; EOther false].
End Example.

Lemma queue_no_panic_witness :
  reachable false Example.addrs 2 (Example.after_run Example.overflowing) /\
  step (Example.after_run Example.overflowing) (ESender 0 false) = Some (Err Overflow) /\ Overflow = Overflow.
Proof.
  assert (reachable false Example.addrs 2 (Example.after_run Example.overflowing)) as Hr.
  { apply Example.reach; [right; repeat constructor|vm_compute; reflexivity]. }
  assert (step (Example.after_run Example.overflowing) (ESender 0 false) = Some (Err Overflow)) as He by (vm_compute; reflexivity).
  split; [exact Hr|]. split; [exact He|]. exact (queue_no_panic false _ _ _ _ _ Hr He).
Defined.

Lemma ready_not_torn_witness :
  reachable false Example.addrs 2 (Example.after_run (Example.sending ++ Example.arriving)) /\
  exists b c rb, ready (recv_buf (Example.after_run (Example.sending ++ Example.arriving))) = Ok (Some c, rb) /\
    tx_bufs (cmd_buffer (Example.after_run (Example.sending ++ Example.arriving))) = [b] /\
    announces (mem (Example.after_run (Example.sending ++ Example.arriving))) b c.
Proof.
  assert (reachable false Example.addrs 2 (Example.after_run (Example.sending ++ Example.arriving))) as Hr.
  { apply Example.reach; [right; repeat constructor|vm_compute; reflexivity]. }
  split; [exact Hr|]. destruct (ready_not_torn _ _ _ _ Hr) as [H|(b & c & rb & H1 & H2 & _ & H3 & _)].
  - exfalso. vm_compute in H. discriminate H.
  - exists b, c, rb. split; [exact H1|]. split; [exact H2|exact H3].
Defined.

Lemma received_once_witness :
  reachable false Example.addrs 2 (Example.after_run (Example.sending ++ Example.arriving ++ Example.receiving)) /\
  received (Example.after_run (Example.sending ++ Example.arriving ++ Example.receiving)) ≡ₚ [[1; 2; 3]].
Proof.
  assert (reachable false Example.addrs 2 (Example.after_run (Example.sending ++ Example.arriving ++ Example.receiving))) as Hr.
  { apply Example.reach; [right; repeat constructor|vm_compute; reflexivity]. }
  split; [exact Hr|]. destruct (received_once _ _ _ _ Hr) as [_ H]. destruct H as [H _].
  - split; [vm_compute; reflexivity|]. split; [vm_compute; reflexivity|]. split; vm_compute; reflexivity.
  - assert (sent (Example.after_run (Example.sending ++ Example.arriving ++ Example.receiving)) = [[1; 2; 3]]) as He by (vm_compute; reflexivity).
    rewrite He in H. exact H.
Defined.

(** The message of [sending] is pushed and its buffer announced; the bounds 100 and
    0 hold. *)
Lemma sending_fits : fits 2 Example.addrs 100 0 (Example.after_run Example.sending).
Proof.
  assert (forall c, Forall (eq 0) (pad c) -> length (pad c) = 7%nat -> 0 <= daddr c /\ 0 <= dsize c /\ 0 <= msg_hash c /\ 0 <= cmd_hash c ->
    daddr c + dsize c + msg_hash c + cmd_hash c <= 200 -> small_cell 100 0 c) as Hc.
  { intros [d n c p m h]. cbn. intros Hp Hl Hn Hs. do 8 (destruct p as [|? p]; try done).
    repeat match goal with H : Forall _ (_ :: _) |- _ => apply Forall_cons in H as [<- H] end. split; cbn; [by repeat eexists|lia|done|done]. }
  split; [done| | |].
  - intros a Ha. unfold Example.addrs in Ha. rewrite !elem_of_cons in Ha.
    destruct Ha as [->|[->|Ha]]; [vm_compute; reflexivity..|by apply elem_of_nil in Ha].
  - intros a b Hb%elem_of_map_to_list.
    assert (map_to_list (blocks (Example.after_run Example.sending)) = [(64, {| ref_cnt := 2; bytes := [1; 2; 3] |})]) as E by (vm_compute; reflexivity).
    rewrite E in Hb. apply list_elem_of_singleton in Hb as [= -> ->]. vm_compute. discriminate.
  - intros a cs Hcs%elem_of_map_to_list.
    assert (Forall (fun x => Forall (fun c => (bool_decide (Forall (eq 0) (pad c)) && (length (pad c) =? 7)%nat && (0 <=? daddr c) && (0 <=? dsize c) &&
      (0 <=? msg_hash c) && (0 <=? cmd_hash c) && (daddr c + dsize c + msg_hash c + cmd_hash c <=? 200)) = true) x.2)
      (map_to_list (mem (Example.after_run Example.sending)))) as Hall by (vm_compute; repeat constructor).
    rewrite Forall_forall in Hall. specialize (Hall _ Hcs). cbn in Hall. eapply Forall_impl; [exact Hall|]. intros c. cbn.
    rewrite !andb_true_iff, bool_decide_eq_true, Nat.eqb_eq, !Z.leb_le. intros. destruct_and!. by apply Hc.
Qed.


(** ** A spurious failure *)

(** A state in which nobody will announce what is in the buffers. *)
Definition stuck (s : St) : Prop :=
  sends s = [] /\ recvs s = [] /\ net s = [] /\ tx_bufs (cmd_buffer s) = [] /\ waiting_bufs (cmd_buffer s) = [] /\
  ready (recv_buf s) = Ok (None, recv_buf s).

Lemma stuck_step s e s' :
  stuck s -> (forall i, e <> ESend i) -> step s e = Some (Ok s') -> stuck s' /\ received s' = received s.
Proof.
  intros (Hse & Hr & Hn & Htx & Hw & Hrd) Hne. destruct e as [a bs|i|i|[]|i w| | |i|i]; cbn [step].
  - case_decide; [|done]. by intros [= <-].
  - by destruct (Hne i).
  - destruct (handles s !! i) as [a|]; [|done]. cbn. destruct (drop_ref _ _); [|done]. by intros [= <-].
  - by intros [= <-].
  - destruct (others s); [done|]. by intros [= <-].
  - by rewrite Hse.
  - unfold check_transfers. rewrite progress_settled by done. by intros [= <-].
  - unfold poll. rewrite Hrd. by intros [= <-].
  - by rewrite Hr.
  - by rewrite Hn.
Qed.

(** the [compare_exchange_weak] of [send] stands outside a retry loop, and a
    spurious failure of it loses a message: the task that pushed the command leaves
    although nobody waits, and without another send to the same destination nothing
    that happens afterwards delivers it. *)
Theorem spurious_failure_strands :
  exists s, reachable true Example.addrs 2 s /\ length Example.addrs = CMD_BUFS_PER_PE /\ sent s = [[1; 2; 3]] /\
    pending_cmds s = 0 /\
    forall s', rtc (fun s s' => exists e, (forall i, e <> ESend i) /\ step s e = Some (Ok s')) s s' -> received s' = [].
Proof.
  exists (Example.after_run Example.giving_up). split; [apply Example.reach; [by left|by vm_compute]|].
  split; [done|]. split; [by vm_compute|]. split; [by vm_compute|].
  assert (stuck (Example.after_run Example.giving_up) /\ received (Example.after_run Example.giving_up) = []) as Hst.
  { split; [split_and!; by vm_compute|by vm_compute]. }
  intros s' Hr. revert Hst. generalize (Example.after_run Example.giving_up) as s, Hr. clear Hr.
  induction 1 as [s|s s1 s2 (e & Hne & He) Hr IH]; intros [Hst Hrc]; [done|].
  destruct (stuck_step s e s1 Hst Hne He) as [Hst1 Hrc1]. apply IH. split; [done|congruence].
Qed.
