(* ===== verification/OpInput.v ===== *)
(** The inputs of the batched element-wise operations (src/src/array/operations.rs):
    how a value, slice, vector or the local data of an array is cut into the pieces
    that the batching tasks of [BatchOps] work on. *)

From stdpp Require Import base list numbers sets.
From Stdlib Require Import ZArith Lia.
From S2P Require Import Prelude.

Local Open Scope nat_scope.

(** ** Environment variables

    [std::env::var(..)], followed by [.parse::<usize>().unwrap()] when it is set. *)
Inductive EnvVar := Unset | Number (n : nat) | Unparsable.

Definition env_usize (v : EnvVar) : outcome (option nat) :=
  match v with Unset => Done None | Number n => Done (Some n) | Unparsable => Panic end.

Record OpEnv := {
  LAMELLAR_BATCH_OP_THREADS : EnvVar;
  LAMELLAR_THREADS : EnvVar;
  LAMELLAR_OP_BATCH : EnvVar;
}.

(** The number of pieces an input of [len] elements is cut into. *)
Definition num_pieces (env : OpEnv) (len : nat) : outcome nat :=
  if len <? 1000 then Done 1
  else
    let! b := env_usize (LAMELLAR_BATCH_OP_THREADS env) in
    match b with
    | Some n => Done n
    | None =>
        let! t := env_usize (LAMELLAR_THREADS env) in
        match t with
        | Some n => Done (Nat.max 1 (n / 4))
        | None => Done 4
        end
    end.

(** The number of operations of a batch. *)
Definition num_per_batch (env : OpEnv) : outcome nat :=
  let! n := env_usize (LAMELLAR_OP_BATCH env) in
  Done (default 10000 n).

(** ** Slices and chunks *)

Definition ndiv (a b : nat) : outcome nat := if b =? 0 then Panic else Done (a / b).
Definition nmod (a b : nat) : outcome nat := if b =? 0 then Panic else Done (a mod b).

Section Chunks.
Context {A : Type}.

(** [&l[a..b]] *)
Definition slice_range (l : list A) (a b : nat) : outcome (list A) :=
  if (a <=? b) && (b <=? length l) then Done (take (b - a) (drop a l)) else Panic.

Fixpoint chunks_fuel (fuel n : nat) (l : list A) : list (list A) :=
  match fuel, l with
  | O, _ | _, [] => []
  | S fuel', _ => take n l :: chunks_fuel fuel' n (drop n l)
  end.

(** [l.chunks(n)]: consecutive pieces of [n] elements, the last one the rest. *)
Definition chunks (n : nat) (l : list A) : outcome (list (list A)) :=
  if n =? 0 then Panic else Done (chunks_fuel (length l) n l).

(** The [for i in 0..num] loop of [as_op_input]. *)
Fixpoint even_pieces (l : list A) (npb i num : nat) : outcome (list (list A)) :=
  match num with
  | O => Done []
  | S num' =>
      let! temp := slice_range l (i * npb) ((i + 1) * npb) in
      let! rest := even_pieces l npb (i + 1) num' in
      Done (temp :: rest)
  end.

(** The pieces of a non-empty slice or of an array's local data. *)
Definition split_slice (env : OpEnv) (l : list A) : outcome (list (list A)) :=
  let len := length l in
  let! num := num_pieces env len in
  let! num_per_batch := ndiv len num in
  let! iters := even_pieces l num_per_batch 0 num in
  let! rem := nmod len num_per_batch in
  if 0 <? rem then
    let! temp := slice_range l (num * num_per_batch) len in
    Done (iters ++ [temp])
  else Done iters.

(** The pieces of a non-empty [Vec]. *)
Definition split_vec (env : OpEnv) (l : list A) : outcome (list (list A)) :=
  let len := length l in
  let! num := num_pieces env len in
  let! num_per_batch := ndiv len num in
  chunks num_per_batch l.

(** The [filter_map] over an atomic array's local data in [into_vec_chunks]: [data]
    collects elements until it holds [chunk_size] of them or [i] is [last], the
    position [a.len() - 1]. *)
Fixpoint atomic_chunks (chunk_size last i : nat) (data l : list A) : list (list A) :=
  match l with
  | [] => []
  | x :: l' =>
      let data := data ++ [x] in
      if (length data =? chunk_size) || (i =? last)
      then data :: atomic_chunks chunk_size last (i + 1) [] l'
      else atomic_chunks chunk_size last (i + 1) data l'
  end.
End Chunks.

(** ** Local data of the atomic arrays

    [local] is the local slice of the array ([__local_as_mut_slice]), as its elements
    are loaded one at a time. *)
Record LocalData (T : Type) := {
  local : list T;
  start_index : nat;
  end_index : nat;
}.
Arguments Build_LocalData {T} _ _ _.
Arguments local {T} _.
Arguments start_index {T} _.
Arguments end_index {T} _.

(** [local_data] of an atomic array. *)
Definition local_data {T} (l : list T) : LocalData T :=
  {| local := l; start_index := 0; end_index := length l |}.

(** [at(index).load()]: an index of the array, not of the data. *)
Definition load_at {T} (d : LocalData T) (index : nat) : outcome T := unwrap (local d !! index).

(** The elements that [iter] loads; a [Panic] is an index beyond the local slice. *)
Definition iter {T} (d : LocalData T) : outcome (list T) :=
  if (start_index d <? end_index d) && (length (local d) <? end_index d) then Panic
  else Done (take (end_index d - start_index d) (drop (start_index d) (local d))).

Definition sub_data {T} (d : LocalData T) (s e : nat) : LocalData T :=
  {| local := local d; start_index := s; end_index := Nat.min e (length (local d)) |}.

(** [NativeAtomicLocalData::len] and [GenericAtomicLocalData::len]. *)
Definition native_len {T} (d : LocalData T) : outcome nat :=
  if start_index d <=? end_index d then Done (end_index d - start_index d) else Panic.
Definition generic_len {T} (d : LocalData T) : nat := length (local d).

(** ** [OpInputEnum] *)

Inductive OpInputEnum (T : Type) :=
| Val (v : T)
| Slice (s : list T)
| Vec (v : list T)
| NativeAtomicLocalData (a : LocalData T)
| GenericAtomicLocalData (a : LocalData T)
| LocalLockLocalData (a : list T)
| GlobalLockLocalData (a : list T).
Arguments Val {T} _.
Arguments Slice {T} _.
Arguments Vec {T} _.
Arguments NativeAtomicLocalData {T} _.
Arguments GenericAtomicLocalData {T} _.
Arguments LocalLockLocalData {T} _.
Arguments GlobalLockLocalData {T} _.

Definition to_vec {T} (i : OpInputEnum T) : outcome (list T) :=
  match i with
  | Val v => Done [v]
  | Slice l | Vec l | LocalLockLocalData l | GlobalLockLocalData l => Done l
  | NativeAtomicLocalData a | GenericAtomicLocalData a => iter a
  end.

Definition len {T} (i : OpInputEnum T) : outcome nat :=
  match i with
  | Val v => Done 1
  | Slice l | Vec l | LocalLockLocalData l | GlobalLockLocalData l => Done (length l)
  | NativeAtomicLocalData a => native_len a
  | GenericAtomicLocalData a => Done (generic_len a)
  end.

Definition first {T} (i : OpInputEnum T) : outcome T :=
  match i with
  | Val v => Done v
  | Slice l | Vec l | LocalLockLocalData l | GlobalLockLocalData l => unwrap (head l)
  | NativeAtomicLocalData a | GenericAtomicLocalData a => load_at a 0
  end.

(** [i == a.len() - 1] is evaluated for every element, so an empty iteration does
    not subtract. *)
Definition into_vec_chunks {T} (i : OpInputEnum T) (chunk_size : nat) : outcome (list (list T)) :=
  match i with
  | Val v => Done [[v]]
  | Slice l | Vec l | LocalLockLocalData l | GlobalLockLocalData l => chunks chunk_size l
  | NativeAtomicLocalData a =>
      let! l := iter a in
      let! n := native_len a in
      Done (atomic_chunks chunk_size (n - 1) 0 [] l)
  | GenericAtomicLocalData a =>
      let! l := iter a in
      Done (atomic_chunks chunk_size (generic_len a - 1) 0 [] l)
  end.

(** ** [OpInput]

    What a caller passes.  [here] of an array's local data says that
    [start_index_for_pe(my_pe)] is not [None]. *)
Inductive OpInput (T : Type) :=
| InVal (v : T)
| InSlice (l : list T)
| InVec (l : list T)
| InNativeAtomic (here : bool) (a : LocalData T)
| InGenericAtomic (here : bool) (a : LocalData T)
| InLocalLock (here : bool) (l : list T)
| InGlobalLock (here : bool) (l : list T).
Arguments InVal {T} _.
Arguments InSlice {T} _.
Arguments InVec {T} _.
Arguments InNativeAtomic {T} _ _.
Arguments InGenericAtomic {T} _ _.
Arguments InLocalLock {T} _ _.
Arguments InGlobalLock {T} _ _.

(** The common shape of the [as_op_input]s: no pieces for an empty input, or for
    local data that is not here, otherwise the pieces that [split] makes. *)
Definition pieces {T} (split : outcome (list (OpInputEnum T))) (here : bool) (len : nat)
  : outcome (list (OpInputEnum T) * nat) :=
  if (len =? 0) || negb here then Done ([], len)
  else let! iters := split in Done (iters, len).

(** The pieces of an atomic array's local data. *)
Definition split_local {T} (env : OpEnv) (wrap : LocalData T -> OpInputEnum T)
    (d : LocalData T) (len : nat) : outcome (list (OpInputEnum T)) :=
  let! num := num_pieces env len in
  let! num_per_batch := ndiv len num in
  let iters := map (fun i => wrap (sub_data d (i * num_per_batch) ((i + 1) * num_per_batch)))
                   (seq 0 num) in
  let! rem := nmod len num_per_batch in
  if 0 <? rem then Done (iters ++ [wrap (sub_data d (num * num_per_batch) len)])
  else Done iters.

Definition as_op_input {T} (env : OpEnv) (i : OpInput T) : outcome (list (OpInputEnum T) * nat) :=
  match i with
  | InVal v => Done ([Val v], 1)
  | InSlice l =>
      pieces (let! ps := split_slice env l in Done (map Slice ps)) true (length l)
  | InVec l => pieces (let! ps := split_vec env l in Done (map Vec ps)) true (length l)
  | InNativeAtomic here a =>
      let! len := native_len a in
      pieces (split_local env NativeAtomicLocalData a len) here len
  | InGenericAtomic here a =>
      let len := generic_len a in
      pieces (split_local env GenericAtomicLocalData a len) here len
  | InLocalLock here l =>
      pieces (let! ps := split_slice env l in Done (map LocalLockLocalData ps)) here (length l)
  | InGlobalLock here l =>
      pieces (let! ps := split_slice env l in Done (map GlobalLockLocalData ps)) here (length l)
  end.

(** The elements of an input, when it is what [local_data] returned. *)
Definition contents {T} (i : OpInput T) : list T :=
  match i with
  | InVal v => [v]
  | InSlice l | InVec l | InLocalLock _ l | InGlobalLock _ l => l
  | InNativeAtomic _ a | InGenericAtomic _ a => local a
  end.

(** ** What the pieces are *)

Section ChunkLemmas.
Context {A : Type}.
Implicit Types (l data : list A) (n : nat).

Lemma chunks_fuel_nil fuel n : chunks_fuel fuel n ([] : list A) = [].
Proof. by destruct fuel. Qed.

Lemma chunks_fuel_enough fuel fuel' n l : 0 < n -> length l <= fuel -> length l <= fuel' ->
  chunks_fuel fuel n l = chunks_fuel fuel' n l.
Proof.
  intros Hn. revert fuel' l. induction fuel as [|fuel IH]; intros fuel' l H H'.
  - destruct l; [by rewrite !chunks_fuel_nil | cbn in H; lia].
  - destruct fuel'; [destruct l; [done | cbn in H'; lia]|].
    destruct l as [|x l]; [done|]. cbn [chunks_fuel]. f_equal.
    apply IH; rewrite length_drop; lia.
Qed.

(** [l.chunks(n)], one chunk at a time. *)
Lemma chunks_fuel_step n l : 0 < n -> l <> [] ->
  chunks_fuel (length l) n l = take n l :: chunks_fuel (length (drop n l)) n (drop n l).
Proof.
  intros Hn Hl. destruct l as [|x l]; [done|].
  cbn [length chunks_fuel]. f_equal.
  apply chunks_fuel_enough; [done | |]; rewrite ?length_drop; cbn [length]; lia.
Qed.

(** Induction along the chunks of a list. *)
Lemma chunks_ind n (Hn : 0 < n) (P : list A -> Prop) :
  P [] -> (forall l, l <> [] -> P (drop n l) -> P l) -> forall l, P l.
Proof.
  intros H0 HS l. remember (length l) as k eqn:E. revert l E.
  induction (lt_wf k) as [k _ IH]. intros l ->.
  destruct l as [|x l]; [done|]. apply HS; [done|].
  eapply IH; [|done]. rewrite length_drop. cbn. lia.
Qed.

Lemma chunks_concat n l : 0 < n -> concat (chunks_fuel (length l) n l) = l.
Proof.
  intros Hn. induction l as [|l Hl IH] using (chunks_ind n Hn); [done|].
  rewrite chunks_fuel_step by done. cbn [concat]. rewrite IH. apply take_drop.
Qed.

Lemma chunks_nonempty n l : 0 < n -> Forall (fun c => c <> []) (chunks_fuel (length l) n l).
Proof.
  intros Hn. induction l as [|l Hl IH] using (chunks_ind n Hn); [constructor|].
  rewrite chunks_fuel_step by done. constructor; [|done].
  destruct l; [done|]. by destruct n; [lia|].
Qed.

(** The even pieces are the first chunks. *)
Lemma even_pieces_chunks n num i l : 0 < n -> (i + num) * n <= length l ->
  exists ps, even_pieces l n i num = Done ps
    /\ chunks_fuel (length (drop (i * n) l)) n (drop (i * n) l)
       = ps ++ chunks_fuel (length (drop ((i + num) * n) l)) n (drop ((i + num) * n) l).
Proof.
  intros Hn. revert i. induction num as [|num IH]; intros i H; cbn [even_pieces].
  - exists []. by rewrite Nat.add_0_r.
  - destruct (IH (i + 1) ltac:(lia)) as (ps & E & C).
    unfold slice_range. rewrite (proj2 (Nat.leb_le _ _)) by lia.
    rewrite (proj2 (Nat.leb_le _ _)) by lia. cbn [andb]. rewrite E.
    eexists; split; [done|]. rewrite chunks_fuel_step; [|done|].
    + rewrite drop_drop. replace (i * n + n) with ((i + 1) * n) by lia. rewrite C.
      replace ((i + 1) * n - i * n) with n by lia.
      by replace (i + 1 + num) with (i + S num) by lia.
    + intros E'%(f_equal length). rewrite length_drop in E'. cbn in E'. nia.
Qed.

(** With no more pieces than elements in a piece, the remainder of the division by
    the number of pieces is what is left after the even ones. *)
Lemma split_rem len num : 0 < num -> num <= len / num ->
  (len mod (len / num)) = len - num * (len / num).
Proof.
  intros Hn H. pose proof (Nat.div_mod_eq len num) as D.
  pose proof (Nat.mod_upper_bound len num ltac:(lia)).
  rewrite D at 1. rewrite Nat.Div0.add_mod, Nat.Div0.mod_mul at 1.
  rewrite Nat.add_0_l, Nat.Div0.mod_mod, Nat.mod_small; lia.
Qed.
End ChunkLemmas.

(** The chunks of two lists of the same length have the same lengths. *)
Lemma chunks_lengths {A B} n (l : list A) (l' : list B) : 0 < n -> length l = length l' ->
  map length (chunks_fuel (length l) n l) = map length (chunks_fuel (length l') n l').
Proof.
  intros Hn. revert l'. induction l as [|l Hl IH] using (chunks_ind n Hn); intros l' E.
  - destruct l'; [done | cbn in E; lia].
  - rewrite (chunks_fuel_step n l), (chunks_fuel_step n l') by (done || (intros ->; destruct l; cbn in E; [done | lia])). cbn [map].
    rewrite !length_take, E. f_equal. apply IH. rewrite !length_drop. lia.
Qed.

(** The pieces do not lose elements when there are no more of them than elements in
    each: always with the default settings. *)
Definition env_ok (env : OpEnv) (n : nat) : Prop :=
  exists num, num_pieces env n = Done num /\ 0 < num <= n / num.

Definition piece_size (env : OpEnv) (n : nat) : nat :=
  match num_pieces env n with Done num => n / num | Panic => 0 end.

(** The pieces an input with the elements [l] should have. *)
Definition cut {A} (env : OpEnv) (l : list A) : list (list A) :=
  chunks_fuel (length l) (piece_size env (length l)) l.

Definition default_env : OpEnv :=
  {| LAMELLAR_BATCH_OP_THREADS := Unset; LAMELLAR_THREADS := Unset; LAMELLAR_OP_BATCH := Unset |}.

Lemma default_env_ok n : 0 < n -> env_ok default_env n.
Proof.
  intros Hn. unfold env_ok, num_pieces. destruct (Nat.ltb_spec n 1000).
  - exists 1. rewrite Nat.div_1_r. split; [done | lia].
  - exists 4. split; [done|]. split; [lia|]. apply Nat.div_le_lower_bound; lia.
Qed.

Lemma env_ok_size env n : env_ok env n -> 0 < piece_size env n.
Proof. intros (num & E & H). unfold piece_size. rewrite E. lia. Qed.

Lemma env_ok_small env n : 0 < n -> n < 1000 -> env_ok env n /\ piece_size env n = n.
Proof.
  intros H0 H. unfold env_ok, piece_size, num_pieces. rewrite (proj2 (Nat.ltb_lt _ _) H).
  rewrite Nat.div_1_r. split; [|done]. exists 1. rewrite Nat.div_1_r. split; [done | lia].
Qed.

Lemma cut_lengths {A B} env (l : list A) (l' : list B) :
  length l = length l' -> (length l = 0 \/ env_ok env (length l)) ->
  map length (cut env l) = map length (cut env l').
Proof.
  intros E [H|H].
  - rewrite H in E. by rewrite (nil_length_inv l), (nil_length_inv l').
  - unfold cut. rewrite <- E. rewrite E at 3. apply chunks_lengths; [by apply env_ok_size | done].
Qed.

Lemma cut_concat {A} env (l : list A) : length l = 0 \/ env_ok env (length l) ->
  concat (cut env l) = l.
Proof.
  intros [H|H]; [by destruct l|]. by apply chunks_concat, env_ok_size.
Qed.

(** [split_slice] and [split_vec] agree and are [cut]. *)
Lemma split_pieces {A} env (l : list A) num : num_pieces env (length l) = Done num ->
  0 < num <= length l / num ->
  exists ps, even_pieces l (length l / num) 0 num = Done ps
    /\ cut env l = ps ++ (if 0 <? length l mod (length l / num)
                          then [drop (num * (length l / num)) l] else []).
Proof.
  intros E H. set (n := length l / num).
  assert (Hle : num * n <= length l) by (apply Nat.Div0.mul_div_le).
  destruct (even_pieces_chunks n num 0 l ltac:(lia) ltac:(lia)) as (ps & Ep & C).
  exists ps. split; [done|]. unfold cut, piece_size. rewrite E. fold n.
  change (drop (0 * n) l) with l in C. rewrite C. f_equal. rewrite Nat.add_0_l.
  subst n. rewrite split_rem by lia. set (n := length l / num) in *.
  destruct (Nat.ltb_spec 0 (length l - num * n)) as [Hr|Hr].
  - assert (Hm : length l - num * n < num).
    { pose proof (Nat.div_mod_eq (length l) num) as D.
      pose proof (Nat.mod_upper_bound (length l) num ltac:(lia)). fold n in D. lia. }
    rewrite chunks_fuel_step; [|lia|].
    + rewrite take_ge by (rewrite length_drop; lia).
      rewrite (drop_ge (drop _ _)) by (rewrite length_drop; lia). done.
    + intros E'%(f_equal length). rewrite length_drop in E'. cbn in E'. lia.
  - rewrite drop_ge by lia. done.
Qed.

Lemma split_slice_cut {A} env (l : list A) : env_ok env (length l) ->
  split_slice env l = Done (cut env l) /\ split_vec env l = Done (cut env l).
Proof.
  intros (num & E & H). destruct (split_pieces env l num E H) as (ps & Ep & C).
  unfold split_slice, split_vec. rewrite E. unfold ndiv, nmod.
  rewrite (proj2 (Nat.eqb_neq num 0)) by lia. split.
  - rewrite Ep, (proj2 (Nat.eqb_neq (_ / _) 0)) by lia. rewrite C.
    destruct (0 <? _) eqn:Hr.
    + unfold slice_range. rewrite Nat.leb_refl.
      rewrite (proj2 (Nat.leb_le _ _)) by (apply Nat.Div0.mul_div_le). cbn [andb].
      by rewrite take_ge by (rewrite length_drop; lia).
    + by rewrite app_nil_r.
  - unfold chunks. rewrite (proj2 (Nat.eqb_neq (_ / _) 0)) by lia.
    unfold cut, piece_size. by rewrite E.
Qed.

(** The chunks an atomic array's local data is cut into are the plain ones, when
    [last] is the position of its last element. *)
Lemma atomic_chunks_eq {A} k last i (data l : list A) :
  length data < k -> l <> [] -> last + 1 = i + length l ->
  atomic_chunks k last i data l = chunks_fuel (length (data ++ l)) k (data ++ l).
Proof.
  revert i data. induction l as [|x l IH]; [done|]. intros i data Hd _ Hlast.
  cbn [atomic_chunks]. rewrite (length_app data [x]). cbn [length] in Hlast |- *.
  assert (E : forall l', data ++ x :: l' = (data ++ [x]) ++ l') by (intros; by rewrite <- app_assoc).
  destruct (Nat.eqb_spec (length data + 1) k) as [Hk|Hk]; cbn [orb].
  - rewrite chunks_fuel_step by (lia || by destruct data). rewrite (E l).
    rewrite take_app_length', drop_app_length' by (rewrite length_app; cbn; lia). f_equal.
    destruct l as [|y l]; [done|]. apply IH; cbn [length] in *; (done || lia).
  - destruct (Nat.eqb_spec i last) as [Hi|Hi].
    + destruct l; [|cbn in Hlast; lia]. cbn [atomic_chunks].
      rewrite chunks_fuel_step by (lia || by destruct data).
      rewrite take_ge, drop_ge by (rewrite length_app; cbn; lia). done.
    + destruct l as [|y l]; [cbn in Hlast; lia|].
      rewrite IH; [by rewrite <- app_assoc | rewrite length_app; cbn; lia | done | cbn in *; lia].
Qed.

(** ** [as_op_input] *)

(** Inputs for which the pieces are right: an array's local data must be here and
    whole, and that of a generic atomic array must fit one piece. *)
Definition input_ok {T} (env : OpEnv) (i : OpInput T) : Prop :=
  (length (contents i) = 0 \/ env_ok env (length (contents i)))
  /\ match i with
     | InVal _ | InSlice _ | InVec _ => True
     | InLocalLock here _ | InGlobalLock here _ => here = true
     | InNativeAtomic here a => here = true /\ a = local_data (local a)
     | InGenericAtomic here a => here = true /\ a = local_data (local a) /\ length (local a) < 1000
     end.

(** [p] is a piece with the elements [c]. *)
Definition is_piece {T} (p : OpInputEnum T) (c : list T) : Prop :=
  to_vec p = Done c /\ len p = Done (length c)
  /\ (forall k, 0 < k -> into_vec_chunks p k = Done (chunks_fuel (length c) k c)).

Section Pieces.
Context {T : Type}.
Implicit Types (l : list T).

Lemma plain_piece (wrap : list T -> OpInputEnum T) l :
  wrap ∈ [Slice; Vec; LocalLockLocalData; GlobalLockLocalData] -> is_piece (wrap l) l.
Proof.
  intros W.
  assert (Hk : forall k, 0 < k -> chunks k l = Done (chunks_fuel (length l) k l))
    by (intros k H; unfold chunks; by rewrite (proj2 (Nat.eqb_neq k 0)) by lia).
  repeat (apply elem_of_cons in W as [->|W]; [done|]). by apply not_elem_of_nil in W.
Qed.

Lemma plain_pieces (wrap : list T -> OpInputEnum T) cs :
  wrap ∈ [Slice; Vec; LocalLockLocalData; GlobalLockLocalData] ->
  Forall2 is_piece (map wrap cs) cs.
Proof. intros W. induction cs; constructor; [by apply plain_piece | done]. Qed.

(** The elements [s .. e] of a local slice. *)
Lemma sub_data_iter l s e : s < e <= length l ->
  iter (sub_data (local_data l) s e) = Done (take (e - s) (drop s l)).
Proof.
  intros H. unfold iter. cbn [sub_data local_data local start_index end_index].
  rewrite Nat.min_l by lia. rewrite (proj2 (Nat.ltb_ge (length l) e)) by lia.
  by rewrite andb_false_r.
Qed.

Lemma native_piece l s e : s < e <= length l ->
  is_piece (NativeAtomicLocalData (sub_data (local_data l) s e)) (take (e - s) (drop s l)).
Proof.
  intros H. assert (Hl : length (take (e - s) (drop s l)) = e - s)
    by (rewrite length_take, length_drop; lia).
  assert (Hn : native_len (sub_data (local_data l) s e) = Done (e - s)).
  { unfold native_len. cbn [sub_data local_data local start_index end_index].
    rewrite Nat.min_l by lia. by rewrite (proj2 (Nat.leb_le _ _)) by lia. }
  unfold is_piece. cbn [to_vec len into_vec_chunks].
  rewrite sub_data_iter, Hn by done. split_and!; [done | by rewrite Hl |].
  intros k Hk. f_equal. rewrite (atomic_chunks_eq k); [done | cbn; lia | | lia].
  intros E. rewrite E in Hl. cbn in Hl. lia.
Qed.

Lemma generic_piece l : l <> [] ->
  is_piece (GenericAtomicLocalData (sub_data (local_data l) 0 (length l))) l.
Proof.
  intros Hl. assert (Hn : 0 < length l) by (destruct l; [done | cbn; lia]).
  unfold is_piece. cbn [to_vec len into_vec_chunks].
  rewrite sub_data_iter by lia. rewrite Nat.sub_0_r, drop_0, firstn_all. split_and!; [done | done |].
  intros k Hk. f_equal. unfold generic_len. cbn [sub_data local_data local].
  by rewrite (atomic_chunks_eq k) by (done || cbn; lia).
Qed.

(** The pieces of an atomic array's local data, next to those of a slice. *)
Lemma native_even_pieces l n num i ps : 0 < n -> (i + num) * n <= length l ->
  even_pieces l n i num = Done ps ->
  Forall2 is_piece
    (map (fun i => NativeAtomicLocalData (sub_data (local_data l) (i * n) ((i + 1) * n))) (seq i num)) ps.
Proof.
  intros Hn. revert i ps. induction num as [|num IH]; intros i ps Hi E; cbn in E.
  - injection E as <-. constructor.
  - unfold slice_range in E. rewrite (proj2 (Nat.leb_le _ _)) in E by lia.
    rewrite (proj2 (Nat.leb_le _ _)) in E by lia. cbn [andb] in E.
    destruct (even_pieces l n (i + 1) num) as [ps'|] eqn:E'; [|done]. injection E as <-.
    cbn [seq map]. constructor; [apply native_piece; lia|].
    replace (S i) with (i + 1) by lia. by apply IH; [lia|].
Qed.

Lemma split_local_native env l : env_ok env (length l) ->
  exists ps, split_local env NativeAtomicLocalData (local_data l) (length l) = Done ps
    /\ Forall2 is_piece ps (cut env l).
Proof.
  intros (num & E & H). destruct (split_pieces env l num E H) as (cs & Ec & C).
  unfold split_local. rewrite E. unfold ndiv, nmod.
  rewrite (proj2 (Nat.eqb_neq num 0)) by lia.
  rewrite (proj2 (Nat.eqb_neq (_ / _) 0)) by lia.
  assert (Hle : num * (length l / num) <= length l) by (apply Nat.Div0.mul_div_le).
  pose proof (native_even_pieces l (length l / num) num 0 cs ltac:(lia) ltac:(lia) Ec) as F.
  rewrite C. destruct (Nat.ltb_spec 0 (length l mod (length l / num))) as [Hr|Hr].
  - eexists; split; [done|]. apply Forall2_app; [done|]. constructor; [|constructor].
    rewrite split_rem in Hr by lia.
    set (m := num * (length l / num)) in *.
    replace (drop m l) with (take (length l - m) (drop m l))
      by (rewrite take_ge; [done | rewrite length_drop; lia]).
    apply native_piece. lia.
  - eexists; split; [done|]. by rewrite app_nil_r.
Qed.

Lemma split_local_generic env l : 0 < length l < 1000 ->
  split_local env GenericAtomicLocalData (local_data l) (length l)
  = Done [GenericAtomicLocalData (sub_data (local_data l) 0 (length l))].
Proof.
  intros H. unfold split_local, num_pieces. rewrite (proj2 (Nat.ltb_lt _ _)) by lia.
  unfold ndiv, nmod. cbn [Nat.eqb]. rewrite Nat.div_1_r, (proj2 (Nat.eqb_neq (length l) 0)) by lia.
  rewrite Nat.Div0.mod_same. cbn [Nat.ltb Nat.leb seq map Nat.mul Nat.add]. by rewrite Nat.add_0_r.
Qed.

Lemma cut_small env l : 0 < length l < 1000 -> cut env l = [l].
Proof.
  intros H. unfold cut. destruct (env_ok_small env (length l) ltac:(lia) ltac:(lia)) as [_ ->].
  rewrite chunks_fuel_step; [|lia|by destruct l; [cbn in H; lia|]].
  by rewrite firstn_all, drop_all.
Qed.

(** What [as_op_input] should return, from what the splitting returns. *)
Definition right_pieces (env : OpEnv) l (r : outcome (list (OpInputEnum T) * nat)) : Prop :=
  exists ps, r = Done (ps, length l) /\ Forall2 is_piece ps (cut env l).

Lemma pieces_right env l split :
  length l = 0 \/ env_ok env (length l) ->
  (0 < length l -> env_ok env (length l) ->
   exists ps, split = Done ps /\ Forall2 is_piece ps (cut env l)) ->
  right_pieces env l (pieces split true (length l)).
Proof.
  intros H Hs. unfold pieces. destruct (Nat.eqb_spec (length l) 0) as [E|E]; cbn [orb negb].
  - rewrite (nil_length_inv l E). exists []. split; [done | constructor].
  - destruct H as [H|H]; [lia|]. destruct Hs as (ps & -> & F); [lia | done |]. by exists ps.
Qed.

Lemma plain_right env l (wrap : list T -> OpInputEnum T) :
  length l = 0 \/ env_ok env (length l) ->
  wrap ∈ [Slice; Vec; LocalLockLocalData; GlobalLockLocalData] ->
  right_pieces env l (pieces (let! ps := split_slice env l in Done (map wrap ps)) true (length l))
  /\ right_pieces env l (pieces (let! ps := split_vec env l in Done (map wrap ps)) true (length l)).
Proof.
  intros H W. split; apply pieces_right; try done; intros _ He;
    destruct (split_slice_cut env l He) as [E E']; rewrite ?E, ?E';
    eexists; (split; [done|]); by apply plain_pieces.
Qed.
End Pieces.

(** An input of a batched operation is cut into consecutive pieces that together
    are its elements, the same pieces for every kind of input of the same length:
    for local data of a generic atomic array when it has less than 1000 elements,
    and for every kind when there are no more pieces than elements in a piece. *)
Theorem as_op_input_pieces {T} env (i : OpInput T) :
  input_ok env i ->
  exists ps, as_op_input env i = Done (ps, length (contents i))
    /\ Forall2 is_piece ps (cut env (contents i))
    /\ concat (cut env (contents i)) = contents i.
Proof.
  intros (Hlen & Hi).
  enough (right_pieces env (contents i) (as_op_input env i)) as (ps & E & F)
    by (exists ps; split_and!; [done | done | by apply cut_concat]).
  destruct i as [v|l|l|here a|here a|here l|here l]; cbn [contents as_op_input] in *.
  - exists [Val v]. split; [done|]. rewrite cut_small by (cbn; lia). repeat constructor.
    intros k Hk. cbn. by rewrite take_ge by (cbn; lia).
  - apply plain_right; [done | set_solver].
  - apply plain_right; [done | set_solver].
  - destruct Hi as [-> Ha]. destruct a as [l s e]. cbn [local] in *. rewrite Ha.
    unfold native_len. cbn [local_data start_index end_index]. rewrite Nat.sub_0_r.
    apply pieces_right; [done|]. intros _ He. by apply split_local_native.
  - destruct Hi as (-> & Ha & Hs). destruct a as [l s e]. cbn [local] in *. rewrite Ha.
    change (generic_len (local_data l)) with (length l).
    apply pieces_right; [done|]. intros H0 _. rewrite split_local_generic by done.
    eexists; split; [done|]. rewrite cut_small by done. constructor; [|done].
    apply generic_piece. by destruct l; [cbn in H0; lia|].
  - subst here. apply plain_right; [done | set_solver].
  - subst here. apply plain_right; [done | set_solver].
Qed.

(** A single element is one piece. *)
Lemma as_op_input_single {T} env (i : OpInput T) x : input_ok env i -> contents i = [x] ->
  exists p, as_op_input env i = Done ([p], 1) /\ first p = Done x.
Proof.
  intros (_ & Hi) Hc. destruct i as [v|l|l|here a|here a|here l|here l]; cbn [contents] in Hc.
  - injection Hc as <-. by exists (Val v).
  - subst l. by exists (Slice [x]).
  - subst l. by exists (Vec [x]).
  - destruct Hi as [-> ->]. rewrite Hc. by eexists.
  - destruct Hi as (-> & -> & _). rewrite Hc. by eexists.
  - subst l here. by exists (LocalLockLocalData [x]).
  - subst l here. by exists (GlobalLockLocalData [x]).
Qed.

Lemma as_op_input_pieces_witness :
  exists ps, as_op_input default_env (InNativeAtomic true (local_data (seq 0 1001)))
             = Done (ps, 1001)
    /\ Forall2 is_piece ps (cut default_env (seq 0 1001))
    /\ concat (cut default_env (seq 0 1001)) = seq 0 1001.
Proof.
  apply (as_op_input_pieces default_env (InNativeAtomic true (local_data (seq 0 1001)))).
  split; [right; apply default_env_ok; cbn; lia | done].
Defined.

(** With 48 pieces for a slice of 1000 elements each piece has 20 and the other 40
    elements are in no piece, because the test for a remainder divides by the size of
    a piece (1000 mod 20 = 0) instead of the number of pieces; a vector of the same
    elements is cut into 50 pieces and loses nothing. *)
Theorem slice_pieces_lose_elements :
  let env := {| LAMELLAR_BATCH_OP_THREADS := Number 48; LAMELLAR_THREADS := Unset;
                LAMELLAR_OP_BATCH := Unset |} in
  let l := seq 0 1000 in
  (let! r := as_op_input env (InSlice l) in
   let! cs := Done (omap (fun p => match to_vec p with Done c => Some c | Panic => None end) r.1) in
   Done (length cs, concat cs)) = Done (48, seq 0 960)
  /\ (let! r := as_op_input env (InVec l) in
      let! cs := Done (omap (fun p => match to_vec p with Done c => Some c | Panic => None end) r.1) in
      Done (length cs, concat cs)) = Done (50, l).
Proof. split; vm_compute; reflexivity. Qed.

(** [GenericAtomicLocalData::len] is the length of the whole local slice, also
    for a part of it: a part that ends before the slice does has the wrong length,
    and [into_vec_chunks] never emits its last chunk -- a part shorter than
    [chunk_size] is dropped altogether. *)
Theorem generic_piece_dropped {T} (l : list T) s e chunk_size :
  s < e < length l -> e - s < chunk_size ->
  len (GenericAtomicLocalData (sub_data (local_data l) s e)) = Done (length l)
  /\ to_vec (GenericAtomicLocalData (sub_data (local_data l) s e)) = Done (take (e - s) (drop s l))
  /\ into_vec_chunks (GenericAtomicLocalData (sub_data (local_data l) s e)) chunk_size = Done [].
Proof.
  intros H Hc. split; [done|]. cbn [to_vec into_vec_chunks].
  rewrite sub_data_iter by lia. split; [done|]. f_equal.
  unfold generic_len. cbn [sub_data local_data local].
  assert (G : forall i (data r : list T), length data + length r < chunk_size -> i + length r < length l ->
            atomic_chunks chunk_size (length l - 1) i data r = []).
  { intros i data r. revert i data. induction r as [|x r IH]; intros i data H1 H2; [done|].
    cbn [atomic_chunks length] in *. rewrite length_app. cbn [length].
    rewrite (proj2 (Nat.eqb_neq _ _)) by lia. rewrite (proj2 (Nat.eqb_neq _ _)) by lia.
    cbn [orb]. apply IH; rewrite ?length_app; cbn [length]; lia. }
  apply G; cbn [length]; rewrite length_take, length_drop; lia.
Qed.

Lemma generic_piece_dropped_witness :
  let p := GenericAtomicLocalData (sub_data (local_data (seq 0 1000)) 250 500) in
  len p = Done 1000 /\ to_vec p = Done (take (500 - 250) (drop 250 (seq 0 1000)))
  /\ into_vec_chunks p 10000 = Done [].
Proof.
  apply (generic_piece_dropped (seq 0 1000) 250 500 10000).
  - split; [lia|]. rewrite length_seq. lia.
  - apply Nat.leb_le. reflexivity.
Defined.
