(* ===== verification/Element.v ===== *)
(** Elements of an array and the operations on one element: Rust's fixed-width
    integers, the traits [Dist] (src/src/memregion.rs) and [Element*Ops], the commands
    [ArrayOpCmd] (src/src/array/operations.rs) and what the generated active messages
    do to an element for each of them (src/impl/src/array_ops.rs), for the array
    types whose elements are plain memory.  The native atomic arrays are in
    [NativeAtomic]. *)

From stdpp Require Import base list numbers sets.
From Stdlib Require Import ZArith Lia.
From S2P Require Import Prelude.

Local Open Scope Z_scope.

(** ** Bytes *)

(** The first [n] bytes of an integer in memory (little endian). *)
Fixpoint le_bytes (n : nat) (z : Z) : list Z :=
  match n with O => [] | S n' => z mod 256 :: le_bytes n' (z / 256) end.

Fixpoint le_value (l : list Z) : Z :=
  match l with [] => 0 | b :: l' => b + 256 * le_value l' end.

Lemma le_bytes_length n z : length (le_bytes n z) = n.
Proof. revert z. induction n; intros z; cbn; [done | by rewrite IHn]. Qed.

Lemma le_value_bytes n z : le_value (le_bytes n z) = z mod 256 ^ Z.of_nat n.
Proof.
  revert z. induction n as [|n IH]; intros z.
  - by rewrite Z.mod_1_r.
  - cbn [le_bytes le_value]. rewrite IH, Nat2Z.inj_succ, Z.pow_succ_r by lia.
    rewrite Z.rem_mul_r by (try apply Z.pow_pos_nonneg; lia). lia.
Qed.

Lemma le_value_small n z : 0 <= z < 256 ^ Z.of_nat n -> le_value (le_bytes n z) = z.
Proof. intros H. rewrite le_value_bytes. by apply Z.mod_small. Qed.

(** [Dist]: an element is copied as its bytes.  [valid] are the values the type has. *)
Class Dist (T : Type) := {
  size_of : nat;
  align_of : nat;
  as_bytes : T -> list Z;
  from_bytes : list Z -> T;
  valid : T -> Prop;
}.
Arguments size_of T {_}.
Arguments align_of T {_}.

Class DistLaws (T : Type) `{Dist T} := {
  size_pos : (0 < size_of T)%nat;
  align_pos : (0 < align_of T)%nat;
  as_bytes_length v : length (as_bytes v) = size_of T;
  from_as_bytes v : valid v -> from_bytes (as_bytes v) = v;
}.

(** ** Integer types *)

Record IntTy := { width : Z; is_signed : bool }.
Definition i8 := {| width := 8; is_signed := true |}.
Definition i64 := {| width := 64; is_signed := true |}.
Definition u8 := {| width := 8; is_signed := false |}.
Definition u64 := {| width := 64; is_signed := false |}.

Definition int_min (t : IntTy) : Z := if is_signed t then - 2 ^ (width t - 1) else 0.
Definition int_max (t : IntTy) : Z := if is_signed t then 2 ^ (width t - 1) - 1 else 2 ^ width t - 1.
Definition in_range (t : IntTy) (x : Z) : bool := (int_min t <=? x) && (x <=? int_max t).

(** The value modulo [2^width] (two's complement). *)
Definition wrap (t : IntTy) (x : Z) : Z := (x - int_min t) mod 2 ^ width t + int_min t.

Lemma wrap_id t x : in_range t x = true -> wrap t x = x.
Proof.
  unfold in_range. intros [H1 H2]%andb_true_iff. apply Z.leb_le in H1, H2. unfold wrap.
  rewrite Z.mod_small; [lia|]. revert H1 H2. unfold int_min, int_max.
  destruct (is_signed t); intros H1 H2; [|lia].
  destruct (Z_lt_ge_dec (width t) 1) as [Hw|Hw].
  - rewrite !Z.pow_neg_r in H1, H2 by lia. lia.
  - assert (2 ^ width t = 2 * 2 ^ (width t - 1)) as ->; [|lia].
    rewrite <- Z.pow_succ_r by lia. f_equal. lia.
Qed.

(** A value of an integer type: a wrapper, so that the element type determines it. *)
Record int (t : IntTy) := Int { val : Z }.
Arguments Int {t} _.
Arguments val {t} _.

#[export] Instance int_dist (t : IntTy) : Dist (int t) := {
  size_of := Z.to_nat (width t / 8);
  align_of := Z.to_nat (width t / 8);
  as_bytes v := le_bytes (Z.to_nat (width t / 8)) (val v);
  from_bytes l := Int (wrap t (le_value l));
  valid v := in_range t (val v) = true;
}.

(** The widths integer types have. *)
Definition int_ty_ok (t : IntTy) : Prop := In (width t) [8; 16; 32; 64].

Lemma int_dist_laws t : int_ty_ok t -> DistLaws (int t).
Proof.
  intros Ht. assert (Hw : (0 < Z.to_nat (width t / 8))%nat
                          /\ 256 ^ Z.of_nat (Z.to_nat (width t / 8)) = 2 ^ width t).
  { repeat (destruct Ht as [<-|Ht]; [by vm_compute; split; [lia|]|]). done. }
  destruct Hw as [Hp Hw]. constructor; cbn [size_of align_of as_bytes from_bytes valid int_dist].
  - done.
  - done.
  - intros v. apply le_bytes_length.
  - intros [v] Hv. cbn [val] in *. rewrite le_value_bytes, Hw. f_equal.
    rewrite <- (wrap_id t v Hv) at 2. unfold wrap.
    by rewrite Zminus_mod_idemp_l.
Qed.

(** ** Operators *)

(** Whether the build has overflow checks. *)
Class OverflowChecks := overflow_checks : bool.

Section IntOps.
Context {checks : OverflowChecks} (t : IntTy).

(** [+], [-] and [*]. *)
Definition checked (x : Z) : outcome Z :=
  if in_range t x then Done x else if overflow_checks then Panic else Done (wrap t x).

(** [/] and [%] panic for a divisor of zero and for [MIN / -1], in every build. *)
Definition int_div (a b : Z) : outcome Z :=
  if (b =? 0) || negb (in_range t (Z.quot a b)) then Panic else Done (Z.quot a b).
Definition int_rem (a b : Z) : outcome Z :=
  if (b =? 0) || negb (in_range t (Z.quot a b)) then Panic else Done (Z.rem a b).

(** [<<] and [>>] check the amount, or use its low bits. *)
Definition shift_amount (b : Z) : outcome Z :=
  if (0 <=? b) && (b <? width t) then Done b
  else if overflow_checks then Panic else Done (b mod width t).
Definition int_shl (a b : Z) : outcome Z :=
  let! n := shift_amount b in Done (wrap t (Z.shiftl a n)).
Definition int_shr (a b : Z) : outcome Z :=
  let! n := shift_amount b in Done (Z.shiftr a n).

(** [a.abs_diff(b) as T] *)
Definition abs_diff_as (a b : Z) : Z := wrap t (Z.abs (a - b)).
End IntOps.

(** The traits [ElementArithmeticOps], [ElementBitWiseOps], [ElementShiftOps],
    [ElementCompareEqOps] and [ElementComparePartialEqOps]. *)
Class ElementOps (T : Type) := {
  op_add : T -> T -> outcome T;
  op_sub : T -> T -> outcome T;
  op_mul : T -> T -> outcome T;
  op_div : T -> T -> outcome T;
  op_rem : T -> T -> outcome T;
  op_and : T -> T -> T;
  op_or : T -> T -> T;
  op_xor : T -> T -> T;
  op_shl : T -> T -> outcome T;
  op_shr : T -> T -> outcome T;
  op_eq : T -> T -> bool;
  op_lt : T -> T -> bool;
}.

Definition lift2 {t} (f : Z -> Z -> outcome Z) (a b : int t) : outcome (int t) :=
  let! x := f (val a) (val b) in Done (Int x).

#[export] Instance int_ops {checks : OverflowChecks} (t : IntTy) : ElementOps (int t) := {
  op_add := lift2 (fun a b => checked t (a + b));
  op_sub := lift2 (fun a b => checked t (a - b));
  op_mul := lift2 (fun a b => checked t (a * b));
  op_div := lift2 (int_div t);
  op_rem := lift2 (int_rem t);
  op_and a b := Int (Z.land (val a) (val b));
  op_or a b := Int (Z.lor (val a) (val b));
  op_xor a b := Int (Z.lxor (val a) (val b));
  op_shl := lift2 (int_shl t);
  op_shr := lift2 (int_shr t);
  op_eq a b := val a =? val b;
  op_lt a b := val a <? val b;
}.

(** ** Commands *)

Inductive ArrayOpCmd (T : Type) :=
| Add | FetchAdd | Sub | FetchSub | Mul | FetchMul | Div | FetchDiv | Rem | FetchRem
| And | FetchAnd | Or | FetchOr | Xor | FetchXor
| Store | Load | Swap | Put | Get
| CompareExchange (old : T)
| CompareExchangeEps (old eps : T)
| Shl | FetchShl | Shr | FetchShr.
Arguments Add {T}. Arguments FetchAdd {T}. Arguments Sub {T}. Arguments FetchSub {T}.
Arguments Mul {T}. Arguments FetchMul {T}. Arguments Div {T}. Arguments FetchDiv {T}.
Arguments Rem {T}. Arguments FetchRem {T}. Arguments And {T}. Arguments FetchAnd {T}.
Arguments Or {T}. Arguments FetchOr {T}. Arguments Xor {T}. Arguments FetchXor {T}.
Arguments Store {T}. Arguments Load {T}. Arguments Swap {T}. Arguments Put {T}.
Arguments Get {T}. Arguments CompareExchange {T} _. Arguments CompareExchangeEps {T} _ _.
Arguments Shl {T}. Arguments FetchShl {T}. Arguments Shr {T}. Arguments FetchShr {T}.

(** The two [From] implementations change the operands of the compare-and-exchange
    commands only. *)
Definition map_cmd {A B} (f : A -> B) (op : ArrayOpCmd A) : ArrayOpCmd B :=
  match op with
  | Add => Add | FetchAdd => FetchAdd | Sub => Sub | FetchSub => FetchSub
  | Mul => Mul | FetchMul => FetchMul | Div => Div | FetchDiv => FetchDiv
  | Rem => Rem | FetchRem => FetchRem | And => And | FetchAnd => FetchAnd
  | Or => Or | FetchOr => FetchOr | Xor => Xor | FetchXor => FetchXor
  | Store => Store | Load => Load | Swap => Swap | Put => Put | Get => Get
  | CompareExchange old => CompareExchange (f old)
  | CompareExchangeEps old eps => CompareExchangeEps (f old) (f eps)
  | Shl => Shl | FetchShl => FetchShl | Shr => Shr | FetchShr => FetchShr
  end.

(** [From<ArrayOpCmd<T>> for ArrayOpCmd<Vec<u8>>] and back. *)
Definition cmd_into_bytes {T} `{Dist T} : ArrayOpCmd T -> ArrayOpCmd (list Z) := map_cmd as_bytes.
Definition cmd_from_bytes {T} `{Dist T} : ArrayOpCmd (list Z) -> ArrayOpCmd T :=
  map_cmd (fun b => from_bytes (take (size_of T) b)).

Definition cmd_valid {T} `{Dist T} (op : ArrayOpCmd T) : Prop :=
  match op with
  | CompareExchange old => valid old
  | CompareExchangeEps old eps => valid old /\ valid eps
  | _ => True
  end.

Lemma cmd_roundtrip {T} `{DistLaws T} (op : ArrayOpCmd T) :
  cmd_valid op -> cmd_from_bytes (cmd_into_bytes op) = op.
Proof.
  assert (R : forall v, valid v -> from_bytes (take (size_of T) (as_bytes v)) = v)
    by (intros v Hv; rewrite take_ge; [by apply from_as_bytes | by rewrite as_bytes_length]).
  intros Hv. destruct op; try done; cbn in *; [by rewrite R | by rewrite !R by tauto].
Qed.

(** ** What a generated active message does to an element *)

Inductive OpType := Arithmetic | Bitwise | Access | CompEx | CompExEps | ReadOnly | Shift.

#[export] Instance OpType_eq_dec : EqDecision OpType.
Proof. solve_decision. Defined.

Inductive BatchReturnType := RetNone | RetVals | RetResult.

#[export] Instance BatchReturnType_eq_dec : EqDecision BatchReturnType.
Proof. solve_decision. Defined.

(** What is pushed to [res] for an element. *)
Inductive OpReturn (T : Type) := NoRet | RetVal (v : T) | RetRes (r : result T T).
Arguments NoRet {T}.
Arguments RetVal {T} _.
Arguments RetRes {T} _.

(** The interface of an element to the active messages: the effect of a command with
    value [v] on the current element [cur], and what is returned. *)
Class ElemExec (T : Type) :=
  elem_op : BatchReturnType -> ArrayOpCmd T -> T -> T -> outcome (T * OpReturn T).

Section Plain.
Context {T : Type} `{ElementOps T} (optypes : list OpType).

(** The arms of a [match self.op], by kind of operation: an operation of a kind the
    type does not have runs into [unreachable!]. *)
Definition arm {A} (o : OpType) (x : outcome A) : outcome A :=
  if decide (o ∈ optypes) then x else Panic.

(** [..._am_buf]: operations that return nothing. *)
Definition plain_none (op : ArrayOpCmd T) (cur v : T) : outcome T :=
  match op with
  | Add => arm Arithmetic (op_add cur v)
  | Sub => arm Arithmetic (op_sub cur v)
  | Mul => arm Arithmetic (op_mul cur v)
  | Div => arm Arithmetic (op_div cur v)
  | Rem => arm Arithmetic (op_rem cur v)
  | Put => arm Arithmetic (Done v)
  | And => arm Bitwise (Done (op_and cur v))
  | Or => arm Bitwise (Done (op_or cur v))
  | Xor => arm Bitwise (Done (op_xor cur v))
  | Store => arm Access (Done v)
  | Shl => arm Shift (op_shl cur v)
  | Shr => arm Shift (op_shr cur v)
  | _ => Panic
  end.

(** [..._am_buf_fetch]: operations that return the previous value. *)
Definition fetch (cur : T) (new : outcome T) : outcome (T * T) :=
  let! n := new in Done (n, cur).

Definition plain_fetch (op : ArrayOpCmd T) (cur v : T) : outcome (T * T) :=
  match op with
  | FetchAdd => arm Arithmetic (fetch cur (op_add cur v))
  | FetchSub => arm Arithmetic (fetch cur (op_sub cur v))
  | FetchMul => arm Arithmetic (fetch cur (op_mul cur v))
  | FetchDiv => arm Arithmetic (fetch cur (op_div cur v))
  | FetchRem => arm Arithmetic (fetch cur (op_rem cur v))
  | Get => arm Arithmetic (fetch cur (Done cur))
  | FetchAnd => arm Bitwise (fetch cur (Done (op_and cur v)))
  | FetchOr => arm Bitwise (fetch cur (Done (op_or cur v)))
  | FetchXor => arm Bitwise (fetch cur (Done (op_xor cur v)))
  | Swap => arm Access (fetch cur (Done v))
  | Load => arm ReadOnly (fetch cur (Done cur))
  | FetchShl => arm Shift (fetch cur (op_shl cur v))
  | FetchShr => arm Shift (fetch cur (op_shr cur v))
  | _ => Panic
  end.

(** [..._am_buf_result]: the compare-and-exchange operations. *)
Definition plain_result (op : ArrayOpCmd T) (cur v : T) : outcome (T * result T T) :=
  match op with
  | CompareExchange old =>
      arm CompEx (if op_eq old cur then Done (v, Ok old) else Done (cur, Err cur))
  | CompareExchangeEps old eps =>
      arm CompExEps
        (let! same := if op_lt cur old then let! d := op_sub old cur in Done (op_lt d eps)
                      else let! d := op_sub cur old in Done (op_lt d eps) in
         if same : bool then Done (v, Ok old) else Done (cur, Err cur))
  | _ => Panic
  end.

(** The elements of [UnsafeArray], [LocalLockArray], [GlobalLockArray] and
    [GenericAtomicArray]. *)
Definition plain_exec : ElemExec T := fun ret op cur v =>
  match ret with
  | RetNone => let! n := plain_none op cur v in Done (n, NoRet)
  | RetVals => let! (n, r) := plain_fetch op cur v in Done (n, RetVal r)
  | RetResult => let! (n, r) := plain_result op cur v in Done (n, RetRes r)
  end.
End Plain.

(** The elements of [ReadOnlyArray]: only [Load] has an arm that does not panic. *)
Definition readonly_exec {T} : ElemExec T := fun ret op cur v =>
  match ret, op with
  | RetVals, Load => Done (cur, RetVal cur)
  | _, _ => Panic
  end.

(** ** Wrapping *)

Lemma wrap_add t x y : wrap t (wrap t x + y) = wrap t (x + y).
Proof.
  unfold wrap. f_equal. set (m := int_min t). set (w := 2 ^ width t).
  replace ((x - m) mod w + m + y - m) with ((x - m) mod w + y) by lia.
  rewrite Zplus_mod_idemp_l. f_equal. lia.
Qed.

Lemma wrap_range t x : 0 < width t -> in_range t (wrap t x) = true.
Proof.
  intros Hw. unfold in_range, wrap.
  pose proof (Z.mod_pos_bound (x - int_min t) (2 ^ width t) ltac:(apply Z.pow_pos_nonneg; lia)).
  assert (int_max t = int_min t + 2 ^ width t - 1) as ->.
  { unfold int_max, int_min. destruct (is_signed t); [|lia].
    assert (2 ^ width t = 2 * 2 ^ (width t - 1)) as ->; [|lia].
    rewrite <- Z.pow_succ_r by lia. f_equal. lia. }
  apply andb_true_iff. rewrite !Z.leb_le. lia.
Qed.
