(* ===== verification/NativeAtomic.v ===== *)
(** Native atomic elements (src/src/array/native_atomic.rs and the native arms of
    src/impl/src/array_ops.rs): every operation as a program of atomic instructions on
    a shared cell -- a single instruction, or a loop around [compare_exchange] -- run
    by threads that interleave freely. *)

From stdpp Require Import base list numbers sets.
From Stdlib Require Import ZArith Lia.
From S2P Require Import Prelude Element.

Local Open Scope Z_scope.

(** ** Programs *)

(** The instructions and loops the operations are made of.
    - [PRmw f]: one read-modify-write instruction ([fetch_add], ...);
    - [PLoop first retry]: [cur = load(); new = first(cur);
      while compare_exchange(cur, new).is_err() { cur = load(); new = retry(cur) }];
    - [PEps]: the [compare_exchange_epsilon] of the active messages;
    - [PEpsElem]: the one of [NativeAtomicElement]. *)
Inductive Prog :=
| PRmw (f : Z -> Z)
| PStore (v : Z)
| PLoad
| PLoop (first retry : Z -> outcome Z)
| PCas (old new : Z)
| PEps (old new eps : Z)
| PEpsElem (old new eps : Z).

(** Where a thread is: [AtCas cur new] is about to [compare_exchange(cur, new)] in a
    [PLoop], [AtReload] about to load again, [AtTry orig] in the [while] of an
    epsilon exchange. *)
Inductive Point :=
| AtStart
| AtCas (cur new : Z)
| AtReload
| AtTry (orig : Z)
| AtEnd (r : OpReturn Z)
| AtPanic.

Section Native.
Context {checks : OverflowChecks} (t : IntTy).

(** [(orig.abs_diff(old) as T) < eps] *)
Definition within (orig old eps : Z) : bool := abs_diff_as t orig old <? eps.

Definition computed (cur : Z) (new : outcome Z) : Point :=
  match new with Done n => AtCas cur n | Panic => AtPanic end.

(** One atomic instruction of a thread, with the computation up to the next. *)
Definition step (p : Prog) (pt : Point) (cell : Z) : Z * Point :=
  match p, pt with
  | PRmw f, AtStart => (f cell, AtEnd (RetVal cell))
  | PStore v, AtStart => (v, AtEnd NoRet)
  | PLoad, AtStart => (cell, AtEnd (RetVal cell))
  | PLoop first _, AtStart => (cell, computed cell (first cell))
  | PLoop _ _, AtCas cur new =>
      if cell =? cur then (new, AtEnd (RetVal cur)) else (cell, AtReload)
  | PLoop _ retry, AtReload => (cell, computed cell (retry cell))
  | PCas old new, AtStart =>
      if cell =? old then (new, AtEnd (RetRes (Ok cell))) else (cell, AtEnd (RetRes (Err cell)))
  | PEps old new eps, AtStart =>
      if cell =? old then (new, AtEnd (RetRes (Ok new)))
      else (cell, if within cell old eps then AtTry cell else AtEnd (RetRes (Err cell)))
  | PEps old new eps, AtTry orig =>
      if cell =? orig then (new, AtEnd (RetRes (Ok orig)))
      else (cell, if within cell old eps then AtTry cell else AtEnd (RetRes (Err cell)))
  | PEpsElem old new eps, AtStart =>
      (cell, if within cell old eps then AtTry cell else AtEnd (RetRes (Err cell)))
  | PEpsElem old new eps, AtTry _ =>
      if cell =? old then (new, AtEnd (RetRes (Ok cell)))
      else (cell, if within cell old eps then AtTry cell else AtEnd (RetRes (Err cell)))
  | _, _ => (cell, pt)
  end.

(** Threads that each run one program on the cell: a schedule names the thread that
    takes the next step. *)
Definition sys_step (progs : list Prog) (st : Z * list Point) (i : nat) : Z * list Point :=
  match progs !! i, st.2 !! i with
  | Some p, Some pt => let (c, pt') := step p pt st.1 in (c, <[i := pt']> st.2)
  | _, _ => st
  end.

Definition sys_run (progs : list Prog) (st : Z * list Point) (sched : list nat) : Z * list Point :=
  foldl (sys_step progs) st sched.

Definition sys_init (progs : list Prog) (c : Z) : Z * list Point :=
  (c, replicate (length progs) AtStart).

(** ** The operations of the active messages *)

(** A loop whose two computations are the same. *)
Definition cas_loop (f : Z -> outcome Z) : Prog := PLoop f f.

Context (optypes : list OpType).

Local Abbreviation arm := (arm optypes).

(** [..._am_buf] of a [NativeAtomicArray]: the assignment operators of [MyAtomic*],
    stores, and the shift loops. *)
Definition native_none (op : ArrayOpCmd Z) (v : Z) : outcome Prog :=
  match op with
  | Add => arm Arithmetic (Done (PRmw (fun c => wrap t (c + v))))
  | Sub => arm Arithmetic (Done (PRmw (fun c => wrap t (c - v))))
  | Mul => arm Arithmetic (Done (cas_loop (fun c => checked t (c * v))))
  | Div => arm Arithmetic (Done (cas_loop (fun c => int_div t c v)))
  | Rem => arm Arithmetic (Done (cas_loop (fun c => int_rem t c v)))
  | Put => arm Arithmetic (Done (PStore v))
  | And => arm Bitwise (Done (PRmw (fun c => Z.land c v)))
  | Or => arm Bitwise (Done (PRmw (fun c => Z.lor c v)))
  | Xor => arm Bitwise (Done (PRmw (fun c => Z.lxor c v)))
  | Store => arm Access (Done (PStore v))
  | Shl => arm Shift (Done (cas_loop (fun c => int_shl t c v)))
  | Shr => arm Shift (Done (cas_loop (fun c => int_shr t c v)))
  | _ => Panic
  end.

(** [..._am_buf_fetch] *)
Definition native_fetch (op : ArrayOpCmd Z) (v : Z) : outcome Prog :=
  match op with
  | FetchAdd => arm Arithmetic (Done (PRmw (fun c => wrap t (c + v))))
  | FetchSub => arm Arithmetic (Done (PRmw (fun c => wrap t (c - v))))
  | FetchMul => arm Arithmetic (Done (cas_loop (fun c => checked t (c * v))))
  | FetchDiv => arm Arithmetic (Done (cas_loop (fun c => int_div t c v)))
  | FetchRem => arm Arithmetic (Done (cas_loop (fun c => int_rem t c v)))
  | Get => arm Arithmetic (Done PLoad)
  | FetchAnd => arm Bitwise (Done (PRmw (fun c => Z.land c v)))
  | FetchOr => arm Bitwise (Done (PRmw (fun c => Z.lor c v)))
  | FetchXor => arm Bitwise (Done (PRmw (fun c => Z.lxor c v)))
  | Swap => arm Access (Done (cas_loop (fun _ => Done v)))
  | Load => arm ReadOnly (Done PLoad)
  | FetchShl => arm Shift (Done (cas_loop (fun c => int_shl t c v)))
  | FetchShr => arm Shift (Done (cas_loop (fun c => int_shr t c v)))
  | _ => Panic
  end.

(** [..._am_buf_result] *)
Definition native_result (op : ArrayOpCmd Z) (v : Z) : outcome Prog :=
  match op with
  | CompareExchange old => arm CompEx (Done (PCas old v))
  | CompareExchangeEps old eps => arm CompExEps (Done (PEps old v eps))
  | _ => Panic
  end.

Definition native_prog (ret : BatchReturnType) : ArrayOpCmd Z -> Z -> outcome Prog :=
  match ret with RetNone => native_none | RetVals => native_fetch | RetResult => native_result end.

(** ** The operators of [MyAtomic*] and the methods of [NativeAtomicElement] *)

Inductive AssignOp := AddAssign | SubAssign | MulAssign | DivAssign | RemAssign
  | BitAndAssign | BitOrAssign | BitXorAssign | ShlAssign | ShrAssign.

(** The macro [impl_atomic_ops]. *)
Definition my_atomic (op : AssignOp) (v : Z) : Prog :=
  match op with
  | AddAssign => PRmw (fun c => wrap t (c + v))
  | SubAssign => PRmw (fun c => wrap t (c - v))
  | MulAssign => PLoop (fun c => checked t (c * v)) (fun c => checked t (c * v))
  | DivAssign => PLoop (fun c => int_div t c v) (fun c => int_div t c v)
  | RemAssign => PLoop (fun c => int_rem t c v) (fun c => int_rem t c v)
  | BitAndAssign => PRmw (fun c => Z.land c v)
  | BitOrAssign => PRmw (fun c => Z.lor c v)
  | BitXorAssign => PRmw (fun c => Z.lxor c v)
  | ShlAssign => PLoop (fun c => int_shl t c v) (fun c => int_shr t c v)
  | ShrAssign => PLoop (fun c => int_shl t c v) (fun c => int_shr t c v)
  end.

(** The tokens the macros are called with: the operators of the loops, and the methods
    of the atomic integers. *)
Inductive BinOp := OpMul | OpDiv | OpRem | OpShl | OpShr.
Inductive RmwMethod := m_fetch_add | m_fetch_sub | m_fetch_and | m_fetch_or | m_fetch_xor.

Definition bin_op (op : BinOp) (c v : Z) : outcome Z :=
  match op with
  | OpMul => checked t (c * v)
  | OpDiv => int_div t c v
  | OpRem => int_rem t c v
  | OpShl => int_shl t c v
  | OpShr => int_shr t c v
  end.

Definition rmw_method (m : RmwMethod) (c v : Z) : Z :=
  match m with
  | m_fetch_add => wrap t (c + v)
  | m_fetch_sub => wrap t (c - v)
  | m_fetch_and => Z.land c v
  | m_fetch_or => Z.lor c v
  | m_fetch_xor => Z.lxor c v
  end.

(** The arms of [compare_exchange_op]: a swap, one exchange, an exchange within
    [eps], and an operator. *)
Definition cas_swap (val : Z) : Prog := cas_loop (fun _ => Done val).
Definition cas_once (old val : Z) : Prog := PCas old val.
Definition cas_eps (old val eps : Z) : Prog := PEpsElem old val eps.
Definition cas_op (val : Z) (op : BinOp) : Prog := cas_loop (fun cur => bin_op op cur val).

(** The macros choose the type [t] of the instructions by [orig_t]. *)
Definition impl_shift (op : BinOp) (val : Z) : Prog := cas_op val op.
Definition impl_mul_div (op : BinOp) (val : Z) : Prog := cas_op val op.
Definition impl_add_sub_and_or_xor (op : RmwMethod) (val : Z) : Prog :=
  PRmw (fun cur => rmw_method op cur val).
Definition impl_store (val : Z) : Prog := PStore val.
Definition impl_load : Prog := PLoad.
Definition impl_swap (val : Z) : Prog := cas_swap val.
Definition impl_compare_exchange (old val : Z) : Prog := cas_once old val.
Definition impl_compare_exchange_eps (old val eps : Z) : Prog := cas_eps old val eps.

Inductive ElemMethod :=
| elem_load | elem_store (v : Z) | elem_swap (v : Z)
| elem_compare_exchange (old new : Z) | elem_compare_exchange_epsilon (old new eps : Z)
| elem_fetch_add (v : Z) | elem_fetch_sub (v : Z) | elem_fetch_mul (v : Z)
| elem_fetch_div (v : Z) | elem_fetch_rem (v : Z) | elem_fetch_shl (v : Z) | elem_fetch_shr (v : Z)
| elem_fetch_and (v : Z) | elem_fetch_or (v : Z) | elem_fetch_xor (v : Z).

(** The methods of [NativeAtomicElement]. *)
Definition element (m : ElemMethod) : Prog :=
  match m with
  | elem_load => impl_load
  | elem_store v => impl_store v
  | elem_swap v => impl_swap v
  | elem_compare_exchange old new => impl_compare_exchange old new
  | elem_compare_exchange_epsilon old new eps => impl_compare_exchange_eps old new eps
  | elem_fetch_add v => impl_add_sub_and_or_xor m_fetch_add v
  | elem_fetch_sub v => impl_add_sub_and_or_xor m_fetch_sub v
  | elem_fetch_mul v => impl_mul_div OpMul v
  | elem_fetch_div v => impl_mul_div OpDiv v
  | elem_fetch_rem v => impl_mul_div OpRem v
  | elem_fetch_shl v => impl_shift OpShl v
  | elem_fetch_shr v => impl_shift OpShr v
  | elem_fetch_and v => impl_add_sub_and_or_xor m_fetch_and v
  | elem_fetch_or v => impl_add_sub_and_or_xor m_fetch_or v
  | elem_fetch_xor v => impl_add_sub_and_or_xor m_fetch_xor v
  end.

(** ** The atomic effect of a program *)

(** The effects a program can have when they happen at once: the cell before and
    after, and what is returned. *)
Inductive effect : Prog -> Z -> Z -> OpReturn Z -> Prop :=
| eff_rmw f c : effect (PRmw f) c (f c) (RetVal c)
| eff_store v c : effect (PStore v) c v NoRet
| eff_load c : effect PLoad c c (RetVal c)
| eff_loop first retry c n : first c = Done n -> effect (PLoop first retry) c n (RetVal c)
| eff_cas_ok old new : effect (PCas old new) old new (RetRes (Ok old))
| eff_cas_err old new c : c <> old -> effect (PCas old new) c c (RetRes (Err c))
| eff_eps_exact old new eps : effect (PEps old new eps) old new (RetRes (Ok new))
| eff_eps_near old new eps c :
    within c old eps = true -> effect (PEps old new eps) c new (RetRes (Ok c))
| eff_eps_far old new eps c :
    within c old eps = false -> effect (PEps old new eps) c c (RetRes (Err c))
| eff_elem_exact old new eps : effect (PEpsElem old new eps) old new (RetRes (Ok old))
| eff_elem_far old new eps c :
    within c old eps = false -> effect (PEpsElem old new eps) c c (RetRes (Err c)).

(** The effects of the threads [lin], one at a time in that order. *)
Inductive in_order (progs : list Prog) : Z -> list (nat * OpReturn Z) -> Z -> Prop :=
| in_order_nil c : in_order progs c [] c
| in_order_snoc c lin c' i p r c'' :
    in_order progs c lin c' -> progs !! i = Some p -> effect p c' c'' r ->
    in_order progs c (lin ++ [(i, r)]) c''.

(** A program on its own, which takes at most two instructions when it ends. *)
Definition solo (p : Prog) (c : Z) : outcome (Z * OpReturn Z) :=
  let (c1, pt1) := step p AtStart c in
  let (c2, pt2) := step p pt1 c1 in
  match pt2 with AtEnd r => Done (c2, r) | _ => Panic end.
End Native.

(** The elements of a [NativeAtomicArray], as [LamellarAM::exec] changes them when
    nothing interferes. *)
Definition native_exec {checks : OverflowChecks} (t : IntTy) (optypes : list OpType) : ElemExec (int t) :=
  fun ret op cur v =>
    let! p := native_prog t optypes ret (map_cmd val op) (val v) in
    let! (c, r) := solo t p (val cur) in
    Done (Int c, match ret, r with
                 | RetNone, _ => NoRet
                 | _, NoRet => NoRet
                 | _, RetVal x => RetVal (Int x)
                 | _, RetRes (Ok x) => RetRes (Ok (Int x))
                 | _, RetRes (Err x) => RetRes (Err (Int x))
                 end).

(** ** What the operations mean

    The operations of the active messages, of [MyAtomic*] and of
    [NativeAtomicElement], without instructions: the value of the element before and
    after, and what is returned. *)
Inductive Call :=
| CAm (ret : BatchReturnType) (op : ArrayOpCmd Z) (v : Z)
| CAssign (op : AssignOp) (v : Z)
| CElement (m : ElemMethod).

Inductive Bin := BAdd | BSub | BMul | BDiv | BRem | BAnd | BOr | BXor | BShl | BShr.

Inductive Meaning :=
| MBin (b : Bin) (v : Z) | MStore (v : Z) | MSwap (v : Z) | MLoad
| MCas (old new : Z) | MCasEps (old new eps : Z) | MElemEps (old new eps : Z).

Definition cmd_meaning (op : ArrayOpCmd Z) (v : Z) : Meaning :=
  match op with
  | Add | FetchAdd => MBin BAdd v
  | Sub | FetchSub => MBin BSub v
  | Mul | FetchMul => MBin BMul v
  | Div | FetchDiv => MBin BDiv v
  | Rem | FetchRem => MBin BRem v
  | And | FetchAnd => MBin BAnd v
  | Or | FetchOr => MBin BOr v
  | Xor | FetchXor => MBin BXor v
  | Shl | FetchShl => MBin BShl v
  | Shr | FetchShr => MBin BShr v
  | Store | Put => MStore v
  | Swap => MSwap v
  | Load | Get => MLoad
  | CompareExchange old => MCas old v
  | CompareExchangeEps old eps => MCasEps old v eps
  end.

Definition assign_meaning (op : AssignOp) (v : Z) : Meaning :=
  match op with
  | AddAssign => MBin BAdd v
  | SubAssign => MBin BSub v
  | MulAssign => MBin BMul v
  | DivAssign => MBin BDiv v
  | RemAssign => MBin BRem v
  | BitAndAssign => MBin BAnd v
  | BitOrAssign => MBin BOr v
  | BitXorAssign => MBin BXor v
  | ShlAssign => MBin BShl v
  | ShrAssign => MBin BShr v
  end.

Definition method_meaning (m : ElemMethod) : Meaning :=
  match m with
  | elem_load => MLoad
  | elem_store v => MStore v
  | elem_swap v => MSwap v
  | elem_compare_exchange old new => MCas old new
  | elem_compare_exchange_epsilon old new eps => MElemEps old new eps
  | elem_fetch_add v => MBin BAdd v
  | elem_fetch_sub v => MBin BSub v
  | elem_fetch_mul v => MBin BMul v
  | elem_fetch_div v => MBin BDiv v
  | elem_fetch_rem v => MBin BRem v
  | elem_fetch_shl v => MBin BShl v
  | elem_fetch_shr v => MBin BShr v
  | elem_fetch_and v => MBin BAnd v
  | elem_fetch_or v => MBin BOr v
  | elem_fetch_xor v => MBin BXor v
  end.

Definition meaning (call : Call) : Meaning :=
  match call with
  | CAm _ op v => cmd_meaning op v
  | CAssign op v => assign_meaning op v
  | CElement m => method_meaning m
  end.

Section Meanings.
Context {checks : OverflowChecks} (t : IntTy) (optypes : list OpType).

(** Addition and subtraction wrap, a multiplication is checked as the build has it,
    and a division by zero panics in every build. *)
Definition bin_value (b : Bin) (c v : Z) : outcome Z :=
  match b with
  | BAdd => Done (wrap t (c + v))
  | BSub => Done (wrap t (c - v))
  | BMul => checked t (c * v)
  | BDiv => int_div t c v
  | BRem => int_rem t c v
  | BAnd => Done (Z.land c v)
  | BOr => Done (Z.lor c v)
  | BXor => Done (Z.lxor c v)
  | BShl => int_shl t c v
  | BShr => int_shr t c v
  end.

(** The element is [c], becomes [c'], and [r] is returned.  An exchange within [eps]
    that finds [old] itself may return the new value instead of the previous one. *)
Definition means (m : Meaning) (c c' : Z) (r : OpReturn Z) : Prop :=
  match m with
  | MBin b v => bin_value b c v = Done c' /\ r = RetVal c
  | MStore v => c' = v /\ r = NoRet
  | MSwap v => c' = v /\ r = RetVal c
  | MLoad => c' = c /\ r = RetVal c
  | MCas old new => if c =? old then c' = new /\ r = RetRes (Ok c) else c' = c /\ r = RetRes (Err c)
  | MCasEps old new eps =>
      (c = old \/ within t c old eps = true) /\ c' = new /\ (r = RetRes (Ok c) \/ c = old /\ r = RetRes (Ok new))
      \/ within t c old eps = false /\ c' = c /\ r = RetRes (Err c)
  | MElemEps old new eps =>
      c = old /\ c' = new /\ r = RetRes (Ok c) \/ within t c old eps = false /\ c' = c /\ r = RetRes (Err c)
  end.

Definition panics (m : Meaning) (c : Z) : Prop :=
  match m with MBin b v => bin_value b c v = Panic | _ => False end.

(** The program of a call; an active message does not have every command. *)
Definition call_prog (call : Call) : outcome Prog :=
  match call with
  | CAm ret op v => native_prog t optypes ret op v
  | CAssign op v => Done (my_atomic t op v)
  | CElement m => Done (element t m)
  end.

(** [<<=] and [>>=] of [MyAtomic*], which are wrong ([my_atomic_shifts_wrong]). *)
Definition shift_assign (call : Call) : Prop :=
  match call with CAssign (ShlAssign | ShrAssign) _ => True | _ => False end.
(** [NativeAtomicElement::compare_exchange_epsilon], which may never end
    ([element_epsilon_spins]). *)
Definition elem_epsilon (call : Call) : Prop :=
  match call with CElement (elem_compare_exchange_epsilon _ _ _) => True | _ => False end.

(** The calls of the threads [lin], one at a time in that order. *)
Inductive in_call_order (calls : list Call) : Z -> list (nat * OpReturn Z) -> Z -> Prop :=
| in_call_order_nil c : in_call_order calls c [] c
| in_call_order_snoc c lin c' i call r c'' :
    in_call_order calls c lin c' -> calls !! i = Some call -> means (meaning call) c' c'' r ->
    in_call_order calls c (lin ++ [(i, r)]) c''.
End Meanings.

(** ** Threads that interleave *)

(** A loop computes the same value every time around. *)
Definition consistent (p : Prog) : Prop :=
  match p with PLoop first retry => forall c, first c = retry c | _ => True end.

Section Linear.
Context {checks : OverflowChecks} (t : IntTy).

Local Abbreviation step := (step t).
Local Abbreviation effect := (effect t).
Local Abbreviation within := (within t).

(** What a thread at a point has established. *)
Definition point_ok (p : Prog) (pt : Point) : Prop :=
  match p, pt with
  | PLoop first _, AtCas cur new => first cur = Done new
  | PEps old _ eps, AtTry orig => within orig old eps = true
  | PLoop _ _, AtReload | PEpsElem _ _ _, AtTry _ => True
  | _, AtCas _ _ | _, AtReload | _, AtTry _ => False
  | _, _ => True
  end.

Definition ended (pt : Point) : option (OpReturn Z) :=
  match pt with AtEnd r => Some r | _ => None end.

(** A step either changes nothing, and the thread does not end, or it ends the thread
    with the effect of its program. *)
Lemma step_effect p pt c c' pt' : consistent p -> point_ok p pt -> ended pt = None ->
  step p pt c = (c', pt') ->
  point_ok p pt' /\
  match ended pt' with None => c' = c | Some r => effect p c c' r end.
Proof.
  intros Hp Hok He E.
  destruct p, pt; cbn in *; try done; unfold computed in *;
    repeat match type of E with
      | context [if ?b then _ else _] => destruct b eqn:?
      | context [match ?o with Done _ => _ | Panic => _ end] => destruct o eqn:?
      end; injection E as <- <-; cbn [ended]; (split; [|]); try done;
    repeat match goal with X : (_ =? _) = true |- _ => apply Z.eqb_eq in X; subst
                      | X : (_ =? _) = false |- _ => apply Z.eqb_neq in X end;
    try (by constructor); cbn; try done; congruence.
Qed.

(** The invariant of a run: the threads that have ended did so in the order [lin],
    each with the effect of its program at that time. *)
Definition sys_inv (progs : list Prog) (c0 : Z) (st : Z * list Point) : Prop :=
  length st.2 = length progs
  /\ (forall i p pt, progs !! i = Some p -> st.2 !! i = Some pt -> point_ok p pt)
  /\ exists lin, in_order t progs c0 lin st.1
       /\ NoDup (map fst lin)
       /\ forall i r, (i, r) ∈ lin <-> st.2 !! i = Some (AtEnd r).

Lemma sys_inv_init progs c0 : sys_inv progs c0 (sys_init progs c0).
Proof.
  split_and!; cbn.
  - by rewrite length_replicate.
  - intros i p pt _ [-> _]%lookup_replicate. by destruct p.
  - exists []. split_and!; [constructor | constructor |].
    intros i r. split; [by intros ?%elem_of_nil|]. by intros [? _]%lookup_replicate.
Qed.

Lemma sys_inv_step progs c0 st i : Forall consistent progs ->
  sys_inv progs c0 st -> sys_inv progs c0 (sys_step t progs st i).
Proof.
  intros Hc (Hlen & Hok & lin & Hin & Hnd & Hend). unfold sys_step.
  destruct (progs !! i) as [p|] eqn:Ep; [|by repeat split; eauto].
  destruct (st.2 !! i) as [pt|] eqn:Ept; [|by repeat split; eauto].
  destruct (step p pt st.1) as [c' pt'] eqn:E.
  rewrite Forall_lookup in Hc. specialize (Hc i p Ep). specialize (Hok i p pt Ep Ept) as Hpt.
  assert (Hi : (i < length st.2)%nat) by by eapply lookup_lt_Some.
  destruct (ended pt) as [r0|] eqn:He.
  { destruct pt; try done. destruct p; cbn in E; injection E as <- <-;
      rewrite list_insert_id by done; repeat split; eauto. }
  destruct (step_effect p pt st.1 c' pt' Hc Hpt He E) as [Hpt' Heff].
  assert (Hok' : forall j q qt, progs !! j = Some q -> <[i:=pt']> st.2 !! j = Some qt -> point_ok q qt).
  { intros j q qt Ej [(-> & <- & _)|[_ Eq]]%list_lookup_insert_Some;
      [by simplify_eq | by eapply Hok]. }
  split_and!; cbn [fst snd]; [by rewrite length_insert | done |].
  assert (Hni : forall r, (i, r) ∉ lin) by (intros r Hr%Hend; rewrite Ept in Hr; by simplify_eq).
  assert (Hothers : forall j r, i <> j -> (j, r) ∈ lin <-> <[i:=pt']> st.2 !! j = Some (AtEnd r))
    by (intros j r Hj; rewrite list_lookup_insert_ne by done; apply Hend).
  destruct (ended pt') as [r|] eqn:He'.
  - destruct pt'; try done. cbn in He'. injection He' as ->.
    exists (lin ++ [(i, r)]). split_and!; [by econstructor | |].
    + rewrite map_app. apply NoDup_app. split_and!; [done | | apply NoDup_singleton].
      intros j Hj ->%list_elem_of_singleton. apply list_elem_of_fmap in Hj as ([j' r'] & E' & Hj).
      cbn in E'. subst j'. by eapply Hni.
    + intros j r'. rewrite elem_of_app, list_elem_of_singleton.
      destruct (decide (i = j)) as [<-|Hj].
      * rewrite list_lookup_insert_eq by done. split; [intros [?%Hni|[=->]]; done|].
        intros [= ->]. by right.
      * rewrite <- Hothers by done. split; [intros [?|[=]]; [done | by subst] | by left].
  - exists lin. rewrite Heff. split_and!; [done | done |]. intros j r.
    destruct (decide (i = j)) as [<-|Hj]; [|by apply Hothers].
    rewrite list_lookup_insert_eq by done. split; [by intros ?%Hni|].
    intros [= ->]. done.
Qed.

Lemma sys_inv_run progs c0 sched : Forall consistent progs ->
  sys_inv progs c0 (sys_run t progs (sys_init progs c0) sched).
Proof.
  intros Hc. unfold sys_run. generalize (sys_inv_init progs c0). generalize (sys_init progs c0).
  induction sched as [|i sched IH]; intros st I; [done|]. cbn. by apply IH, sys_inv_step.
Qed.

(** *** The programs of the calls *)
Context (optypes : list OpType).
Local Abbreviation call_prog := (call_prog t optypes).

Lemma call_prog_consistent call p : call_prog call = Done p -> ~ shift_assign call -> consistent p.
Proof.
  destruct call as [ret op v|op v|m]; cbn.
  - destruct ret, op; cbn; unfold arm; try done; destruct (decide _); intros [= <-]; done.
  - intros [= <-] Hs. destruct op; try done; by destruct Hs.
  - intros [= <-] _. by destruct m.
Qed.

(** The effect of the program of a call is what the call means. *)
Lemma effect_means call p c c' r : call_prog call = Done p -> ~ shift_assign call ->
  effect p c c' r -> means t (meaning call) c c' r.
Proof.
  intros Hp Hs He. destruct call as [ret op v|op v|m]; cbn in Hp.
  - destruct ret, op; cbn in Hp; unfold arm in Hp; try done; destruct (decide _); try done; injection Hp as <-;
      inversion He; subst; cbn; rewrite ?Z.eqb_refl; try (by split);
      try (match goal with X : ?c <> ?o |- _ => by rewrite (proj2 (Z.eqb_neq c o) X) end); try tauto; split; congruence.
  - injection Hp as <-. destruct op; cbn in He; try (by destruct Hs); inversion He; subst; by split.
  - injection Hp as <-. destruct m; cbn in He; inversion He; subst; cbn; rewrite ?Z.eqb_refl;
      try (by split); 
      try (match goal with X : ?c <> ?o |- _ => by rewrite (proj2 (Z.eqb_neq c o) X) end); try tauto; split; congruence.
Qed.

Lemma in_order_calls calls progs c0 lin c : Forall2 (fun call p => call_prog call = Done p) calls progs ->
  Forall (fun call => ~ shift_assign call) calls -> in_order t progs c0 lin c -> in_call_order t calls c0 lin c.
Proof.
  intros Hp Hs. induction 1 as [c|c lin c' i p r c'' _ IH Hi He]; [constructor|].
  destruct (Forall2_lookup_r _ _ _ _ _ Hp Hi) as (call & Hc & Hcp). econstructor; [exact IH | exact Hc |].
  eapply effect_means; [done | | done]. by apply (proj1 (Forall_lookup _ _) Hs i).
Qed.

(** C10: Threads that call operations of native atomic elements on the same cell -- those
    of the active messages, the operators of [MyAtomic*] other than its shifts, the
    methods of [NativeAtomicElement] -- in any interleaving of their atomic
    instructions have the effect of the calls that have returned one at a time in some
    order: the element is what they leave and each returned what it does at its
    place. *)
Theorem native_linearizable calls progs sched c0 :
  Forall2 (fun call p => call_prog call = Done p) calls progs ->
  Forall (fun call => ~ shift_assign call) calls ->
  exists lin, in_call_order t calls c0 lin (sys_run t progs (sys_init progs c0) sched).1
    /\ NoDup (map fst lin)
    /\ forall i r, (i, r) ∈ lin
         <-> (sys_run t progs (sys_init progs c0) sched).2 !! i = Some (AtEnd r).
Proof.
  intros Hp Hs. assert (Hc : Forall consistent progs).
  { apply Forall_lookup. intros i p Hi. destruct (Forall2_lookup_r _ _ _ _ _ Hp Hi) as (call & Hcall & Hcp).
    eapply call_prog_consistent; [done|]. by apply (proj1 (Forall_lookup _ _) Hs i). }
  destruct (sys_inv_run progs c0 sched Hc) as (_ & _ & lin & Ho & I). exists lin.
  split; [by eapply in_order_calls | done].
Qed.
End Linear.

(** ** Every operation ends *)

Section Bounded.
Context {checks : OverflowChecks} (t : IntTy).
Local Open Scope nat_scope.

(** How many threads have ended. *)
Definition ended_count (pts : list Point) : nat := length (omap ended pts).

(** Where a program can be. *)
Definition at_point (p : Prog) (pt : Point) : Prop :=
  match p, pt with
  | PLoop _ _, AtCas _ _ | PLoop _ _, AtReload | PEps _ _ _, AtTry _ | PEpsElem _ _ _, AtTry _ => True
  | _, AtCas _ _ | _, AtReload | _, AtTry _ => False
  | _, _ => True
  end.

Definition not_elem_eps (p : Prog) : Prop := match p with PEpsElem _ _ _ => False | _ => True end.

(** A computation of the program panics on the value [c]. *)
Definition prog_panics (p : Prog) (c : Z) : Prop :=
  match p with PLoop first retry => first c = Panic \/ retry c = Panic | _ => False end.

(** A step only writes to the cell when it ends the thread, and panics only in a
    computation on the cell. *)
Lemma step_shape p pt c c' pt' : at_point p pt -> ended pt = None -> step t p pt c = (c', pt') ->
  at_point p pt' /\ (ended pt' = None -> c' = c) /\ (pt' = AtPanic -> pt = AtPanic \/ prog_panics p c).
Proof.
  intros Hok He E. destruct p, pt; cbn in *; try done; unfold computed in *;
    repeat match type of E with
      | context [if ?b then _ else _] => destruct b eqn:?
      | context [match ?o with Done _ => _ | Panic => _ end] => destruct o eqn:?
      end; injection E as <- <-; cbn; (split_and!; [done | done | try done]); auto.
Qed.

(** A thread that has not ended after [s] of its steps: it read the cell when [n0]
    threads had ended, and the cell only changes when another one ends. *)
Definition pending (pt : Point) (s : nat) (c : Z) (n : nat) : Prop :=
  match pt with
  | AtStart => s = 0
  | AtCas cur _ | AtTry cur => exists n0, n0 <= n /\ s <= 2 * n0 + 1 /\ (c <> cur -> n0 < n)
  | AtReload => s <= 2 * n
  | AtEnd _ | AtPanic => True
  end.

Lemma ended_count_insert pts i pt pt' : pts !! i = Some pt -> ended pt = None ->
  ended_count (<[i := pt']> pts)
  = ended_count pts + match ended pt' with Some _ => 1 | None => 0 end.
Proof.
  intros Hi He. unfold ended_count. rewrite <- (take_drop_middle pts i pt Hi) at 2.
  rewrite insert_take_drop by by eapply lookup_lt_Some.
  rewrite !omap_app. cbn [omap list_omap]. rewrite He, !length_app.
  destruct (ended pt'); cbn [length]; lia.
Qed.

Lemma ended_count_bound pts i pt : pts !! i = Some pt -> ended pt = None ->
  ended_count pts < length pts.
Proof.
  intros Hi He. unfold ended_count. rewrite <- (take_drop_middle pts i pt Hi).
  rewrite omap_app. cbn [omap list_omap]. rewrite He, !length_app. cbn [length].
  assert (B : forall l : list Point, length (omap ended l) <= length l).
  { induction l as [|x l IH]; [done|]. cbn. destruct (ended x); cbn; lia. }
  pose proof (B (take i pts)). pose proof (B (drop (S i) pts)). lia.
Qed.

(** The thread's own step. *)
Lemma pending_own p pt c c' pt' s n : not_elem_eps p -> at_point p pt -> ended pt = None -> pending pt s c n -> step t p pt c = (c', pt') ->
  pending pt' (S s) c' (n + match ended pt' with Some _ => 1 | None => 0 end).
Proof.
  intros Hn Hok He Hs E.
  destruct p, pt; cbn in *; try done; unfold computed in *;
    repeat match type of E with
      | context [if ?b then _ else _] => destruct b eqn:?
      | context [match ?o with Done _ => _ | Panic => _ end] => destruct o eqn:?
      end; injection E as <- <-; cbn [ended pending]; try done;
    repeat match goal with X : (_ =? _)%Z = false |- _ => apply Z.eqb_neq in X end.
  all: try (exists n; split_and!; (lia || done)).
  all: try (destruct Hs as (n0 & H1 & H2 & H3)).
  all: try (specialize (H3 ltac:(done)); lia).
  all: try (exists n; specialize (H3 ltac:(done)); split_and!; (lia || done)).
  all: lia.
Qed.

(** A step of another thread. *)
Lemma pending_other pt s c c' n n' : n <= n' -> (c' <> c -> n < n') ->
  pending pt s c n -> pending pt s c' n'.
Proof.
  intros Hn Hc. destruct pt; cbn; try done; [| lia |];
    intros (n0 & H1 & H2 & H3); exists n0; (split_and!; [lia | done |]);
    intros Hne; destruct (decide (c' = c)) as [->|Hcc]; (apply H3 in Hne || apply Hc in Hcc); lia.
Qed.

(** What a step of the system does. *)
Lemma sys_step_cases progs st j : length st.2 = length progs ->
  (forall i p pt, progs !! i = Some p -> st.2 !! i = Some pt -> at_point p pt) ->
  (sys_step t progs st j = st /\ (forall pt, st.2 !! j = Some pt -> ended pt <> None)) \/
  exists p pt c' pt', progs !! j = Some p /\ st.2 !! j = Some pt /\ ended pt = None /\ at_point p pt /\
    step t p pt st.1 = (c', pt') /\ sys_step t progs st j = (c', <[j := pt']> st.2).
Proof.
  intros Hlen Hok. unfold sys_step. destruct (progs !! j) as [p|] eqn:Ep; cycle 1.
  { left. split; [done|]. intros pt Hpt. apply lookup_ge_None_1 in Ep. apply lookup_lt_Some in Hpt. lia. }
  destruct (st.2 !! j) as [pt|] eqn:Ept; [|by left]. destruct (ended pt) as [r|] eqn:He.
  - left. split; [|intros pt' [= <-]; congruence]. destruct pt; try done. destruct st as [c pts].
    destruct p; cbn in *; by rewrite list_insert_id.
  - right. destruct (step t p pt st.1) as [c' pt'] eqn:E. exists p, pt, c', pt'. split_and!; try done. by eapply Hok.
Qed.

(** The invariant of a run: where the threads are, how long they have been under way,
    and that one that has panicked has met a value on which its program does. *)
Record bounded_inv (progs : list Prog) (c0 : Z) (sched : list nat) : Prop := {
  bi_length : length (sys_run t progs (sys_init progs c0) sched).2 = length progs;
  bi_point : forall i p pt, progs !! i = Some p ->
    (sys_run t progs (sys_init progs c0) sched).2 !! i = Some pt -> at_point p pt;
  bi_pending : Forall not_elem_eps progs -> forall i pt,
    (sys_run t progs (sys_init progs c0) sched).2 !! i = Some pt ->
    pending pt (own_steps i sched) (sys_run t progs (sys_init progs c0) sched).1
      (ended_count (sys_run t progs (sys_init progs c0) sched).2);
  bi_panic : forall i p, progs !! i = Some p ->
    (sys_run t progs (sys_init progs c0) sched).2 !! i = Some AtPanic ->
    exists k, k <= length sched /\ prog_panics p (sys_run t progs (sys_init progs c0) (take k sched)).1;
}.

Lemma bounded_run progs c0 sched : bounded_inv progs c0 sched.
Proof.
  induction sched as [|j sched [IHl IHp IHb IHk]] using rev_ind.
  { split; cbn; [by rewrite length_replicate | | |].
    - intros i p pt _ [-> _]%lookup_replicate. by destruct p.
    - intros _ i pt [-> _]%lookup_replicate. done.
    - intros i p _ [? _]%lookup_replicate. done. }
  assert (Erun : sys_run t progs (sys_init progs c0) (sched ++ [j]) = sys_step t progs (sys_run t progs (sys_init progs c0) sched) j)
    by (unfold sys_run; by rewrite foldl_snoc).
  assert (Hearlier : forall p, (exists k, k <= length sched /\ prog_panics p (sys_run t progs (sys_init progs c0) (take k sched)).1) ->
    exists k, k <= length (sched ++ [j]) /\ prog_panics p (sys_run t progs (sys_init progs c0) (take k (sched ++ [j]))).1).
  { intros p (k & Hk & Hp). exists k. rewrite length_app. split; [lia|]. by rewrite take_app_le. }
  split; rewrite Erun; set (st := sys_run t progs (sys_init progs c0) sched) in *;
    destruct (sys_step_cases progs st j IHl IHp) as [[-> Hst]|(p & ptj & c' & pt' & Ep & Ej & He & Hat & E & ->)]; cbn [fst snd]; try done;
    try (destruct (step_shape p ptj st.1 c' pt' Hat He E) as (Hat' & Hc & Hpan)).
  - by rewrite length_insert.
  - intros i q pt Eq [(-> & <- & _)|[_ Hi]]%list_lookup_insert_Some; [by simplify_eq | by eapply IHp].
  - intros Hn i pt Hi. rewrite own_steps_snoc. specialize (IHb Hn i pt Hi). destruct (decide (i = j)) as [->|]; [|by rewrite Nat.add_0_r].
    specialize (Hst pt Hi). by destruct pt.
  - intros Hn i pt Hi. rewrite own_steps_snoc, (ended_count_insert _ _ ptj) by done.
    apply list_lookup_insert_Some in Hi as [(-> & <- & _)|[Hij Hi]].
    + rewrite decide_True by done. rewrite Nat.add_1_r.
      apply (pending_own p ptj st.1 c'); try done; [|by apply IHb]. rewrite Forall_lookup in Hn. by eapply Hn.
    + rewrite decide_False by done. rewrite Nat.add_0_r.
      apply (pending_other pt _ st.1 c' (ended_count st.2)); [lia | | by apply IHb].
      destruct (ended pt') eqn:Ee; [lia|]. intros Hne. by specialize (Hc eq_refl).
  - intros i q Eq Hi. apply Hearlier. by apply (IHk i).
  - intros i q Eq [(-> & Ept & _)|[_ Hi]]%list_lookup_insert_Some; [|apply Hearlier; by apply (IHk i)].
    simplify_eq. destruct (Hpan eq_refl) as [->|Hp]; [apply Hearlier; by apply (IHk i)|].
    exists (length sched). rewrite length_app. split; [lia|]. by rewrite take_app_length.
Qed.

(** *** The programs of the calls *)
Context (optypes : list OpType).
Local Abbreviation call_prog := (call_prog t optypes).

Lemma call_prog_bounded call p : call_prog call = Done p -> ~ elem_epsilon call -> not_elem_eps p.
Proof.
  destruct call as [ret op v|op v|m]; cbn.
  - destruct ret, op; cbn; unfold arm; try done; destruct (decide _); intros [= <-]; done.
  - intros [= <-] _. by destruct op.
  - intros [= <-] He. by destruct m.
Qed.

Lemma call_prog_panics call p c : call_prog call = Done p -> prog_panics p c -> panics t (meaning call) c.
Proof.
  assert (Hshift : forall a b v, int_shl t a v = Panic \/ int_shr t a v = Panic -> int_shl t b v = Panic /\ int_shr t b v = Panic).
  { intros a b v. unfold int_shl, int_shr. by destruct (shift_amount t v); intros [|]. }
  destruct call as [ret op v|op v|m]; cbn.
  - destruct ret, op; cbn; unfold arm; try done; destruct (decide _); intros [= <-]; cbn; try tauto; by intros [|].
  - intros [= <-]. destruct op; cbn; try tauto; intros H; by apply (Hshift c c v).
  - intros [= <-]. destruct m; cbn; try tauto; by intros [|].
Qed.

(** C26: A call of an operation of a native atomic element -- other than
    [NativeAtomicElement::compare_exchange_epsilon], which may never end -- returns
    after at most [2 * n] of its own steps when [n] calls are under way on the element:
    a [compare_exchange] only fails when another call has just ended.  Or it panics by
    then, and only when its operation does on a value that the element has had. *)
Theorem native_bounded calls progs sched c0 i call pt :
  Forall2 (fun call p => call_prog call = Done p) calls progs ->
  Forall (fun call => ~ elem_epsilon call) calls ->
  calls !! i = Some call ->
  (sys_run t progs (sys_init progs c0) sched).2 !! i = Some pt ->
  2 * length calls <= own_steps i sched ->
  (exists r, pt = AtEnd r) \/
  pt = AtPanic /\ exists k, k <= length sched /\ panics t (meaning call) (sys_run t progs (sys_init progs c0) (take k sched)).1.
Proof.
  intros Hp He Hcall Hi Hs. destruct (bounded_run progs c0 sched) as [Hlen _ Hb Hk].
  destruct (Forall2_lookup_l _ _ _ _ _ Hp Hcall) as (p & Ep & Hcp).
  assert (Hn : Forall not_elem_eps progs).
  { apply Forall_lookup. intros j q Hj. destruct (Forall2_lookup_r _ _ _ _ _ Hp Hj) as (call' & Hc' & Hcq).
    eapply call_prog_bounded; [done|]. by apply (proj1 (Forall_lookup _ _) He j). }
  specialize (Hb Hn i pt Hi). rewrite (Forall2_length _ _ _ Hp) in Hs.
  assert (Hec : ended pt = None -> ended_count (sys_run t progs (sys_init progs c0) sched).2 < length progs)
    by (intros Hx; rewrite <- Hlen; by eapply ended_count_bound).
  pose proof (lookup_lt_Some _ _ _ Ep).
  destruct pt; cbn in Hb; try (specialize (Hec eq_refl)); try lia; [| | by left; eexists |].
  1, 2: destruct Hb as (n0 & ? & ? & ?); lia.
  right. split; [done|]. destruct (Hk i p Ep Hi) as (k & Hle & Hpan). exists k. split; [done|]. by eapply call_prog_panics.
Qed.
End Bounded.

(** ** Instances *)

(** Checks are off in the examples, as in a release build. *)
Section Examples.
Local Instance release : OverflowChecks := false.

(** Two multiplications and an addition on an [AtomicU8]. *)
Definition ex_calls : list Call :=
  [ CAssign MulAssign 3; CElement (elem_fetch_add 10); CAm RetVals FetchMul 100 ].
Definition ex_progs : list Prog :=
  [ my_atomic u8 MulAssign 3; element u8 (elem_fetch_add 10);
    cas_loop (fun c => checked u8 (c * 100)) ].

Lemma ex_calls_ok : Forall2 (fun call p => call_prog u8 [Arithmetic] call = Done p) ex_calls ex_progs.
Proof. repeat constructor. Qed.

Lemma native_linearizable_witness :
  let st := sys_run u8 ex_progs (sys_init ex_progs 7) [0; 1; 2; 0; 0; 2; 0; 2]%nat in
  st.1 = 164
  /\ exists lin, in_call_order u8 ex_calls 7 lin st.1
    /\ NoDup (map fst lin) /\ forall i r, (i, r) ∈ lin <-> st.2 !! i = Some (AtEnd r).
Proof.
  split; [vm_compute; reflexivity|].
  apply (native_linearizable u8 [Arithmetic] ex_calls ex_progs _ 7); [exact ex_calls_ok|].
  repeat constructor; by intros [].
Defined.

(** A division by zero panics on the value it reads. *)
Definition ex_div : list Call := [ CAssign DivAssign 0; CElement (elem_store 9) ].
Definition ex_div_progs : list Prog := [ my_atomic u8 DivAssign 0; element u8 (elem_store 9) ].

Lemma native_bounded_witness :
  (exists pt, (sys_run u8 ex_progs (sys_init ex_progs 7) [0; 1; 2; 0; 0; 2; 0; 2; 0; 0]%nat).2 !! 0%nat = Some pt
    /\ ((exists r, pt = AtEnd r) \/ pt = AtPanic /\ exists k, (k <= 10)%nat /\ panics u8 (MBin BMul 3)
           (sys_run u8 ex_progs (sys_init ex_progs 7) (take k [0; 1; 2; 0; 0; 2; 0; 2; 0; 0]%nat)).1))
  /\ (sys_run u8 ex_div_progs (sys_init ex_div_progs 7) [1; 0; 0; 0; 0]%nat).2 !! 0%nat = Some AtPanic.
Proof.
  split; [|vm_compute; reflexivity].
  eexists. split; [vm_compute; reflexivity|].
  refine (native_bounded u8 [Arithmetic] ex_calls ex_progs [0; 1; 2; 0; 0; 2; 0; 2; 0; 0]%nat 7 0 (CAssign MulAssign 3) _
            ex_calls_ok _ _ _ _).
  - repeat constructor; by intros [].
  - reflexivity.
  - vm_compute; reflexivity.
  - apply Nat.leb_le. vm_compute; reflexivity.
Defined.

(** ** Where the code does not do what it says *)

(** The operators [<<=] and [>>=] of [MyAtomic*] are wrong: [>>=] on its own shifts
    left, and a [<<=] that has to try again shifts right, so that two threads that
    shift 4 left by one leave 4. *)
Theorem my_atomic_shifts_wrong :
  solo u8 (my_atomic u8 ShrAssign 1) 4
    = Done (8, RetVal 4)
  /\ (let progs := replicate 2 (my_atomic u8 ShlAssign 1) in
      sys_run u8 progs (sys_init progs 4) [0; 1; 0; 1; 1; 1]%nat
      = (4, [AtEnd (RetVal 4); AtEnd (RetVal 8)])).
Proof. split; vm_compute; reflexivity. Qed.

(** [NativeAtomicElement::compare_exchange_epsilon] tries to exchange the value it
    was given instead of the one it read: when the element is within [eps] of that
    value without being equal to it, the call never returns (unless another thread
    changes the element). *)
Theorem element_epsilon_spins {checks : OverflowChecks} t old new eps c n :
  c <> old -> within t c old eps = true ->
  let p := element t (elem_compare_exchange_epsilon old new eps) in
  sys_run t [p] (sys_init [p] c) (replicate (S n) 0%nat) = (c, [AtTry c]).
Proof.
  intros Hne Hw p. unfold sys_run. cbn [replicate foldl]. unfold sys_step at 2. cbn.
  rewrite Hw. induction n as [|n IH]; [done|]. cbn [replicate foldl]. unfold sys_step at 2. cbn.
  rewrite (proj2 (Z.eqb_neq c old) Hne), Hw. apply IH.
Qed.

Lemma element_epsilon_spins_witness :
  100 <> 98 /\ within u8 100 98 5 = true
  /\ let p := element u8 (elem_compare_exchange_epsilon 98 7 5) in
     sys_run u8 [p] (sys_init [p] 100) (replicate 1001 0%nat) = (100, [AtTry 100]).
Proof.
  split; [done|]. split; [reflexivity|].
  apply (element_epsilon_spins u8 98 7 5 100 1000); [done | reflexivity].
Defined.

(** The epsilon exchange of the active messages casts the difference back to the
    signed type: [-100] and [100] count as equal within 1 in an [i8], and the element is
    overwritten.  On an exact match it returns the new value, otherwise the previous
    one. *)
Theorem am_epsilon_wraps :
  solo i8 (PEps (-100) 7 1) 100 = Done (7, RetRes (Ok 100))
  /\ solo i8 (PEps 100 7 1) 100 = Done (7, RetRes (Ok 7))
  /\ solo i8 (PEps 98 7 5) 100 = Done (7, RetRes (Ok 100)).
Proof. split_and!; vm_compute; reflexivity. Qed.

End Examples.

(** ** Native atomic and lock-protected arrays agree *)

Definition not_eps {T} (op : ArrayOpCmd T) : Prop :=
  match op with CompareExchangeEps _ _ => False | _ => True end.

(** A loop that meets no other thread. *)
Lemma solo_loop {checks : OverflowChecks} t f c :
  solo t (cas_loop f) c = let! n := f c in Done (n, RetVal c).
Proof. unfold solo, cas_loop. cbn. destruct (f c); cbn; [|done]. by rewrite Z.eqb_refl. Qed.

Lemma checked_wrap {checks : OverflowChecks} t x y : checked t x = Done y -> wrap t x = y.
Proof.
  unfold checked. destruct (in_range t x) eqn:E; [intros [= <-]; by apply wrap_id|].
  destruct overflow_checks; congruence.
Qed.

(** C27: An element operation that does not panic on an array whose elements are plain
    memory under a lock has the same effect and returns the same on a native atomic
    array, for every operation but the epsilon exchange and every integer type. *)
Theorem native_plain_agree {checks : OverflowChecks} t optypes ret op (cur v : int t) r :
  not_eps op ->
  plain_exec optypes ret op cur v = Done r ->
  native_exec t optypes ret op cur v = Done r.
Proof.
  intros Hop. unfold plain_exec, native_exec. destruct cur as [c], v as [v].
  destruct ret, op; cbn -[solo checked]; unfold arm, fetch, lift2; cbn -[solo checked]; try done;
    destruct (decide _); try done; cbn -[solo checked];
    rewrite ?solo_loop; cbn -[checked];
    repeat match goal with
      | |- context [checked t ?x] => destruct (checked t x) eqn:?
      | |- context [int_div t ?x ?y] => destruct (int_div t x y) eqn:?
      | |- context [int_rem t ?x ?y] => destruct (int_rem t x y) eqn:?
      | |- context [int_shl t ?x ?y] => destruct (int_shl t x y) eqn:?
      | |- context [int_shr t ?x ?y] => destruct (int_shr t x y) eqn:?
      end; try done; cbn; intros [= <-];
    repeat match goal with X : checked t _ = Done _ |- _ => apply checked_wrap in X; subst end;
    try done.
  all: destruct old as [o]; cbn in *; rewrite Z.eqb_sym;
    unfold solo; cbn; destruct (c =? o) eqn:E; cbn; [apply Z.eqb_eq in E; by subst | done].
Qed.

Lemma native_plain_agree_witness :
  native_exec (checks := false) u8 [Arithmetic] RetVals FetchMul (Int 7) (Int 100)
  = Done (Int 188, RetVal (Int 7)).
Proof.
  apply (native_plain_agree (checks := false) u8 [Arithmetic]); [done|].
  vm_compute. reflexivity.
Defined.
