(* ===== verification/GenericAtomic.v ===== *)
(** Generic atomic arrays (src/src/array/generic_atomic.rs): elements of any type, each
    protected by a mutex of its PE.  Which mutex an element has, for every view of the
    array, and what the methods of an element do under it. *)

From stdpp Require Import base list numbers sets.
From Stdlib Require Import ZArith QArith Lia.
From S2P Require Import Prelude F64 BlockBounds Distribution Element.

Local Open Scope Z_scope.

(** [GenericAtomicArray], on one PE: the number of its [locks], and the [array]. *)
Record GenericAtomicArray := { locks : Z; array : UnsafeArrayInner }.

(** [GenericAtomicArray::new] and [From<UnsafeArray>]: a mutex per local element. *)
Definition from_unsafe (array : UnsafeArrayInner) : outcome GenericAtomicArray :=
  let! n := num_elems_local array in
  Done {| locks := n; array := array |}.

(** [sub_array] keeps the locks. *)
Definition generic_sub_array (self : GenericAtomicArray) (start end_ : Bound)
  : outcome GenericAtomicArray :=
  let! a := sub_array (array self) start end_ in
  Done {| locks := locks self; array := a |}.

(** [lock_index]: the mutex that is locked for local element [index]. *)
Definition lock_index (self : GenericAtomicArray) (index : Z) : outcome Z :=
  let! o := pe_full_offset_for_local_index (array self) (my_pe (data (array self))) index in
  let! i := unwrap o in
  if i <? locks self then Done i else Panic.

(** ** Elements *)

(** The methods of [GenericAtomicElement] and its assignment operators. *)
Inductive GenericMethod (T : Type) :=
| g_load | g_store (v : T) | g_swap (v : T)
| g_fetch_add (v : T) | g_fetch_sub (v : T) | g_fetch_mul (v : T) | g_fetch_div (v : T) | g_fetch_rem (v : T)
| g_compare_exchange (current new : T)
| g_compare_exchange_epsilon (current new eps : T)
| g_fetch_and (v : T) | g_fetch_or (v : T) | g_fetch_xor (v : T) | g_fetch_shl (v : T) | g_fetch_shr (v : T)
| g_add_assign (v : T) | g_sub_assign (v : T) | g_mul_assign (v : T) | g_div_assign (v : T) | g_rem_assign (v : T)
| g_and_assign (v : T) | g_or_assign (v : T) | g_xor_assign (v : T) | g_shl_assign (v : T) | g_shr_assign (v : T).
Arguments g_load {T}. Arguments g_store {T} _. Arguments g_swap {T} _.
Arguments g_fetch_add {T} _. Arguments g_fetch_sub {T} _. Arguments g_fetch_mul {T} _.
Arguments g_fetch_div {T} _. Arguments g_fetch_rem {T} _. Arguments g_compare_exchange {T} _ _.
Arguments g_compare_exchange_epsilon {T} _ _ _. Arguments g_fetch_and {T} _. Arguments g_fetch_or {T} _.
Arguments g_fetch_xor {T} _. Arguments g_fetch_shl {T} _. Arguments g_fetch_shr {T} _.
Arguments g_add_assign {T} _. Arguments g_sub_assign {T} _. Arguments g_mul_assign {T} _.
Arguments g_div_assign {T} _. Arguments g_rem_assign {T} _. Arguments g_and_assign {T} _.
Arguments g_or_assign {T} _. Arguments g_xor_assign {T} _. Arguments g_shl_assign {T} _.
Arguments g_shr_assign {T} _.

Section Methods.
Context {T : Type} `{ElementOps T}.

Definition assign (new : outcome T) : outcome (T * OpReturn T) :=
  let! n := new in Done (n, NoRet).
Definition fetched (cur : T) (new : outcome T) : outcome (T * OpReturn T) :=
  let! n := new in Done (n, RetVal cur).

(** The critical section of a method: the element after it, and what it returns. *)
Definition method (m : GenericMethod T) (cur : T) : outcome (T * OpReturn T) :=
  match m with
  | g_load => fetched cur (Done cur)
  | g_store v => assign (Done v)
  | g_swap v => fetched cur (Done v)
  | g_fetch_add v => fetched cur (op_add cur v)
  | g_fetch_sub v => fetched cur (op_sub cur v)
  | g_fetch_mul v => fetched cur (op_mul cur v)
  | g_fetch_div v => fetched cur (op_div cur v)
  | g_fetch_rem v => fetched cur (op_rem cur v)
  | g_compare_exchange current new =>
      if op_eq cur current then Done (new, RetRes (Ok cur)) else Done (cur, RetRes (Err cur))
  | g_compare_exchange_epsilon current new eps =>
      let! same := if op_lt current cur then let! d := op_sub cur current in Done (op_lt d eps)
                   else let! d := op_sub current cur in Done (op_lt d eps) in
      if same : bool then Done (new, RetRes (Ok cur)) else Done (cur, RetRes (Err cur))
  | g_fetch_and v => fetched cur (Done (op_and cur v))
  | g_fetch_or v => fetched cur (Done (op_or cur v))
  | g_fetch_xor v => fetched cur (Done (op_xor cur v))
  | g_fetch_shl v => fetched cur (op_shl cur v)
  | g_fetch_shr v => fetched cur (op_shr cur v)
  | g_add_assign v => assign (op_add cur v)
  | g_sub_assign v => assign (op_sub cur v)
  | g_mul_assign v => assign (op_mul cur v)
  | g_div_assign v => assign (op_div cur v)
  | g_rem_assign v => assign (op_rem cur v)
  | g_and_assign v => assign (Done (op_and cur v))
  | g_or_assign v => assign (Done (op_or cur v))
  | g_xor_assign v => assign (Done (op_xor cur v))
  | g_shl_assign v => assign (op_shl cur v)
  | g_shr_assign v => assign (op_shr cur v)
  end.

(** A method of the element with local index [index]: the lock it takes, and the local
    slice after it. *)
Definition element_method (self : GenericAtomicArray) (slice : list T) (index : Z) (m : GenericMethod T)
  : outcome (Z * list T * OpReturn T) :=
  let! lock := lock_index self index in
  let! cur := unwrap (slice !! Z.to_nat index) in
  let! (n, r) := method m cur in
  Done (lock, <[Z.to_nat index := n]> slice, r).
End Methods.

(** ** The mutex of an element *)

Section Locks.
Context (N P : Z).

(** [global_index_from_local], as seen from the PE that holds the element. *)
Lemma global_index_from_local_block a pe o :
  layout_wf N P a -> distribution a = Block -> 0 <= pe < P -> 0 <= o < block_count N P a pe ->
  global_index_from_local (at_pe a pe) o = Done (Some (Z.max (boundary N P pe) (offset a) + o)).
Proof.
  intros Hwf D Hpe Ho. pose proof (at_pe_wf N P a pe Hwf Hpe) as Hwf'. pose proof Hwf as [].
  unfold block_count in Ho.
  pose proof (bnd_range N P a Hwf pe ltac:(lia)) as B1.
  pose proof (bnd_range N P a Hwf (pe + 1) ltac:(lia)) as B2.
  unfold global_index_from_local.
  replace (distribution (at_pe a pe)) with Block by (by rewrite <- D).
  change (my_pe (data (at_pe a pe))) with pe.
  change (size (at_pe a pe)) with (size a). change (offset (at_pe a pe)) with (offset a).
  rewrite (pe_boundary_eq N P) by (done || lia).
  assert (F : boundary N P pe < offset a + size a /\ offset a < boundary N P (pe + 1)
              /\ Z.max (boundary N P pe) (offset a) + o < 2 ^ 50) by lia.
  clear Ho. destruct F as (F1 & F2 & F3).
  rewrite !as_isize_ok by lia. rewrite isub_ok by lia.
  destruct (Z.leb_spec 0 (boundary N P pe - offset a)).
  - rewrite Z.max_l in F3 |- * by lia. rewrite (proj2 (Z.ltb_lt _ _)) by lia.
    by rewrite uadd_ok by lia.
  - rewrite Z.max_r in F3 |- * by lia. rewrite uadd_ok by lia.
    rewrite (pe_boundary_eq N P) by (done || lia). rewrite (proj2 (Z.ltb_lt _ _)) by lia.
    by rewrite uadd_ok by lia.
Qed.

Lemma global_index_from_local_cyclic a pe o :
  layout_wf N P a -> distribution a = Cyclic -> 0 <= pe < P -> 0 <= o < cyclic_count P a pe ->
  num_elems_pe (at_pe a pe) pe = Done (cyclic_count P a pe) ->
  ring_dist P (offset a mod P) pe + P * o < size a ->
  global_index_from_local (at_pe a pe) o
  = Done (Some (offset a + (ring_dist P (offset a mod P) pe + P * o))).
Proof.
  intros Hwf D Hpe Ho Hc Hi. pose proof (at_pe_wf N P a pe Hwf Hpe) as Hwf'. pose proof Hwf as [].
  assert (Hsp : 0 <= offset a mod P < P) by (apply Z.mod_pos_bound; lia).
  pose proof (Z.mul_nonneg_nonneg P o) as HPo.
  assert (Hrd : 0 <= ring_dist P (offset a mod P) pe)
    by (unfold ring_dist; destruct (Z.leb_spec (offset a mod P) pe); lia).
  pose proof (pe_for_dist_index_cyclic N P (at_pe a pe) Hwf' D 0 ltac:(cbn; lia)) as E0.
  pose proof (pe_for_dist_index_cyclic N P (at_pe a pe) Hwf' D (size a - 1) ltac:(cbn; lia)) as E1.
  unfold global_index_from_local. unfold num_elems_pe in Hc.
  change (distribution (at_pe a pe)) with (distribution a) in *. rewrite D in Hc |- *.
  change (my_pe (data (at_pe a pe))) with pe in *.
  change (size (at_pe a pe)) with (size a) in *. change (offset (at_pe a pe)) with (offset a) in *.
  change (num_pes (data (at_pe a pe))) with (num_pes (data a)) in *.
  rewrite E0 in Hc |- *. cbn [unwrap] in Hc |- *.
  rewrite usub_ok in Hc |- * by lia. rewrite E1 in Hc |- *. cbn [unwrap] in Hc |- *.
  rewrite Z.add_0_r in *. rewrite wf_num_pes in *.
  rewrite udiv_ok, urem_ok in Hc |- * by lia. rewrite Hc.
  rewrite (proj2 (Z.ltb_lt _ _)) by lia.
  rewrite umul_ok by lia. rewrite uadd_ok by lia. unfold ring_dist in *.
  destruct (Z.leb_spec (offset a mod P) pe); rewrite !usub_ok by lia; rewrite !uadd_ok by lia;
    do 2 f_equal; lia.
Qed.

Lemma global_index_from_local_eq a pe o :
  layout_wf N P a -> 0 <= pe < P -> 0 <= o < count N P a pe ->
  global_index_from_local (at_pe a pe) o = Done (Some (offset a + index_of_local N P a pe o)).
Proof.
  intros Hwf Hpe Ho. pose proof (at_pe_wf N P a pe Hwf Hpe) as Hwf'.
  pose proof (index_of_local_spec N P a pe o Hwf Hpe Ho) as (Hi & _).
  pose proof (num_elems_pe_eq N P (at_pe a pe) pe Hwf' Hpe) as Hc. rewrite count_at_pe in Hc.
  revert Hi Ho Hc. unfold index_of_local, count. destruct (distribution a) eqn:D; intros.
  - rewrite global_index_from_local_block by done. do 2 f_equal. lia.
  - apply global_index_from_local_cyclic; (done || lia).
Qed.

(** The place of a local element in the whole local memory. *)
Lemma pe_full_offset_eq a pe o :
  layout_wf N P a -> 0 <= pe < P -> 0 <= o < count N P a pe ->
  pe_full_offset_for_local_index (at_pe a pe) pe o
  = Done (Some (physical N P a (offset a + index_of_local N P a pe o))).
Proof.
  intros Hwf Hpe Ho. pose proof (at_pe_wf N P a pe Hwf Hpe) as Hwf'. pose proof Hwf as [].
  pose proof (index_of_local_spec N P a pe o Hwf Hpe Ho) as (Hi & Hown & _).
  unfold pe_full_offset_for_local_index. rewrite global_index_from_local_eq by done.
  set (g := offset a + index_of_local N P a pe o) in *. unfold physical. rewrite Hown.
  change (distribution (at_pe a pe)) with (distribution a).
  change (num_pes (data (at_pe a pe))) with (num_pes (data a)).
  unfold owner in Hown. destruct (distribution a) eqn:D.
  - rewrite uadd_ok by lia. rewrite !(pe_boundary_eq N P) by (done || lia).
    destruct (block_owner_spec N P a Hwf g ltac:(lia)) as [_ Hb]. rewrite Hown in Hb.
    rewrite (proj2 (Z.leb_le _ _)), (proj2 (Z.ltb_lt _ _)) by lia. cbn [andb].
    by rewrite usub_ok by lia.
  - rewrite wf_num_pes. rewrite urem_ok by lia. rewrite Hown, Z.eqb_refl. by rewrite udiv_ok by lia.
Qed.

Lemma lock_index_eq a pe o n :
  layout_wf N P a -> 0 <= pe < P -> 0 <= o < count N P a pe ->
  lock_index {| locks := n; array := at_pe a pe |} o
  = if physical N P a (offset a + index_of_local N P a pe o) <? n
    then Done (physical N P a (offset a + index_of_local N P a pe o)) else Panic.
Proof.
  intros Hwf Hpe Ho. unfold lock_index. cbn [array locks].
  change (my_pe (data (at_pe a pe))) with pe. by rewrite pe_full_offset_eq.
Qed.

Lemma from_unsafe_eq a pe : layout_wf N P a -> 0 <= pe < P ->
  from_unsafe (at_pe a pe) = Done {| locks := count N P a pe; array := at_pe a pe |}.
Proof.
  intros Hwf Hpe. unfold from_unsafe, num_elems_local. change (my_pe (data (at_pe a pe))) with pe.
  rewrite (num_elems_pe_eq N P) by (done || by apply at_pe_wf). by rewrite count_at_pe.
Qed.
End Locks.


Definition full_cyclic : UnsafeArrayInner :=
  {| data := data ex_cyclic; distribution := Cyclic; orig_elem_per_pe := elem_per_pe 10 4;
     elem_size := 8; offset := 0; size := 10 |}.


(** Making a generic atomic array of a part that does not start with the local
    memory of a PE makes too few mutexes there: locking the last element panics. *)
Theorem lock_of_subarray_panics N P a pe g n s :
  layout_wf N P a -> 0 <= pe < P -> from_unsafe (at_pe a pe) = Done g ->
  num_elems_pe a pe = Done n -> 0 < n ->
  local_start_index (at_pe a pe) = Done s -> 0 < s ->
  lock_index g (n - 1) = Panic.
Proof.
  intros Hwf Hpe Hg Hn Hpos Hs Hs0. rewrite (num_elems_pe_eq N P) in Hn by done. injection Hn as <-.
  rewrite (from_unsafe_eq N P) in Hg by done. injection Hg as <-.
  rewrite (lock_index_eq N P) by (done || lia).
  destruct (index_of_local_spec N P a pe (count N P a pe - 1) Hwf Hpe ltac:(lia)) as (Hi & O & L).
  pose proof (local_start_index_eq N P a _ Hwf Hi) as S. cbv zeta in S. rewrite O, L, Hs in S.
  injection S as S. by rewrite (proj2 (Z.ltb_ge _ _)) by lia.
Qed.

Lemma lock_of_subarray_panics_witness :
  lock_index {| locks := 1; array := at_pe ex_cyclic 0 |} (1 - 1) = Panic.
Proof.
  apply (lock_of_subarray_panics 10 4 ex_cyclic 0 {| locks := 1; array := at_pe ex_cyclic 0 |} 1 1).
  - exact ex_cyclic_wf.
  - lia.
  - vm_compute; reflexivity.
  - vm_compute; reflexivity.
  - lia.
  - vm_compute; reflexivity.
  - lia.
Defined.
