(* ===== verification/BatchOps.v ===== *)
(** Batched element-wise operations (src/src/array/unsafe/operations.rs and the active
    messages that src/impl/src/array_ops.rs generates).

    An operation on a list of indices and values is cut into pieces ([OpInput]); a task
    per piece sorts its operations into a buffer per PE and sends a buffer as an active
    message when it is full; the message applies its operations to the local slice of
    the array on its PE and returns their results, which the caller puts back into the
    order of the input. *)

From stdpp Require Import base list numbers sets.
From Stdlib Require Import ZArith Lia.
From S2P Require Import Prelude Distribution OpInput Element.

Local Open Scope Z_scope.

(** ** Index sizes *)

Inductive IndexSize := IU8 | IU16 | IU32 | IU64 | IUsize.

(** [From<usize> for IndexSize] *)
Definition index_size_from (size : Z) : IndexSize :=
  if size <=? 255 then IU8
  else if size <=? 65535 then IU16
  else if size <=? 4294967295 then IU32
  else if size <=? 18446744073709551615 then IU64
  else IUsize.

(** [IndexSize::len] *)
Definition index_len (s : IndexSize) : nat :=
  match s with IU8 => 1 | IU16 => 2 | IU32 => 4 | IU64 => 8 | IUsize => 8 end.

(** [IndexSize::as_bytes] *)
Definition index_bytes (s : IndexSize) (val : Z) : list Z := le_bytes (index_len s) val.

(** ** [IdxVal]: an index and a value, as [repr(C)] lays them out *)

Definition round_up (n a : nat) : nat := (n + a - 1) / a * a.

Section IdxVal.
Context {T : Type} `{Dist T}.

(** The padding has unspecified contents. *)
Context (pad_byte : Z).

Definition val_offset (isz : nat) : nat := round_up isz (align_of T).
Definition idx_val_size (isz : nat) : nat :=
  round_up (val_offset isz + size_of T) (Nat.max isz (align_of T)).

(** [IdxVal { index, val }.as_bytes()]; [index] has been cast to [isz] bytes. *)
Definition idx_val_bytes (isz : nat) (index : Z) (v : T) : list Z :=
  le_bytes isz index ++ replicate (val_offset isz - isz) pad_byte
  ++ as_bytes v ++ replicate (idx_val_size isz - (val_offset isz + size_of T)) pad_byte.

Definition idx_val_read (isz : nat) (b : list Z) : Z * T :=
  (le_value (take isz b), from_bytes (take (size_of T) (drop (val_offset isz) b))).
End IdxVal.

(** [std::slice::from_raw_parts(ptr, len / sz)]: the records of [sz] bytes. *)
Definition records (sz : nat) (b : list Z) : list (list Z) :=
  map (fun i => take sz (drop (i * sz) b)) (seq 0 (length b / sz)).

(** ** The active messages *)

Inductive ArrayTy := UnsafeArray | ReadOnlyArray | LocalLockArray | GlobalLockArray
  | NativeAtomicArray | GenericAtomicArray.

#[export] Instance ArrayTy_eq_dec : EqDecision ArrayTy.
Proof. solve_decision. Defined.

Inductive BatchAm :=
| SingleValMultiIndex (idx : list Z) (val : list Z) (op : ArrayOpCmd (list Z)) (index_size : IndexSize)
| MultiValSingleIndex (idx : Z) (val : list Z) (op : ArrayOpCmd (list Z))
| MultiValMultiIndex (idxs_vals : list Z) (op : ArrayOpCmd (list Z)) (index_size : IndexSize).

(** The messages that [create_buf_ops] registers for an array type and an element type
    with the operations [optypes]. *)
Definition registered (arr : ArrayTy) (optypes : list OpType) (ret : BatchReturnType) : bool :=
  match ret with
  | RetVals => true
  | RetNone => negb (bool_decide (arr = ReadOnlyArray))
  | RetResult => negb (bool_decide (arr = ReadOnlyArray))
                 && (bool_decide (CompEx ∈ optypes) || bool_decide (CompExEps ∈ optypes))
  end.

(** A request: where it is sent, the message, and the positions in the input of the
    operations in it. *)
Record Req := { req_pe : nat; req_am : BatchAm; req_pos : list nat }.

(** The array an operation is called on: its layout, its type and the kinds of
    operations of its elements. *)
Record OpArray := {
  inner : UnsafeArrayInner;
  array_ty : ArrayTy;
  optypes : list OpType;
}.

(** [into_am]: the lookup of the constructor in the table of registered messages. *)
Definition into_am (self : OpArray) (ret : BatchReturnType) (am : BatchAm) : outcome BatchAm :=
  if registered (array_ty self) (optypes self) ret then Done am else Panic.

(** [pe_and_offset_for_global_index], with the [panic!] of its [None]. *)
Definition locate (self : OpArray) (index : Z) : outcome (nat * Z) :=
  let! o := pe_and_offset_for_global_index (inner self) index in
  let! (pe, local_index) := unwrap o in
  Done (Z.to_nat pe, local_index).

(** ** Buffers of a task *)

Record Buffers := {
  buffs : list (list Z);
  res_buffs : list (list nat);
  reqs : list Req;
}.

Section Scatter.
Context (self : OpArray).

(** [limit] bytes fill a buffer; [mk] makes the message of a buffer. *)
Context (limit : Z) (mk : list Z -> outcome BatchAm).

(** The buffers of one PE, and the request for them. *)
Definition send (pe : nat) (buff : list Z) (res_buff : list nat) (rs : list Req) : outcome (list Req) :=
  let! am := mk buff in
  Done (rs ++ [{| req_pe := pe; req_am := am; req_pos := res_buff |}]).

(** One operation: the bytes of its index (and value) at local index [local_index], and
    its position [j] in the input. *)
Definition push (bytes : Z -> list Z) (j : nat) (idx : Z) (st : Buffers) : outcome Buffers :=
  let! (pe, local_index) := locate self idx in
  let! buff := unwrap (buffs st !! pe) in
  let! res_buff := unwrap (res_buffs st !! pe) in
  let buff := buff ++ bytes local_index in
  let res_buff := res_buff ++ [j] in
  if limit <=? Z.of_nat (length buff) then
    let! rs := send pe buff res_buff (reqs st) in
    Done {| buffs := <[pe := []]> (buffs st); res_buffs := <[pe := []]> (res_buffs st); reqs := rs |}
  else
    Done {| buffs := <[pe := buff]> (buffs st); res_buffs := <[pe := res_buff]> (res_buffs st);
            reqs := reqs st |}.

(** The loop over the operations of the piece: index, and bytes for a local index. *)
Fixpoint push_all (ops : list (Z * (Z -> list Z))) (j : nat) (st : Buffers) : outcome Buffers :=
  match ops with
  | [] => Done st
  | (idx, bytes) :: ops' => let! st := push bytes j idx st in push_all ops' (j + 1) st
  end.

(** The loop over what is left in the buffers. *)
Fixpoint send_rest (pe : nat) (bs : list (list Z * list nat)) (rs : list Req) : outcome (list Req) :=
  match bs with
  | [] => Done rs
  | (buff, res_buff) :: bs' =>
      let! rs := if (0 <? length buff)%nat then send pe buff res_buff rs else Done rs in
      send_rest (pe + 1) bs' rs
  end.

(** The body of the task. *)
Definition scatter (start_i : nat) (ops : list (Z * (Z -> list Z))) : outcome (list Req) :=
  let num_pes := Z.to_nat (num_pes (data (inner self))) in
  let! st := push_all ops start_i
               {| buffs := replicate num_pes []; res_buffs := replicate num_pes []; reqs := [] |} in
  send_rest 0 (zip (buffs st) (res_buffs st)) (reqs st).
End Scatter.

(** ** The batches *)

(** What an [initiate_batch_*] has under way: requests it made itself, tasks it
    submitted, each of which makes requests or panics, and the number of tasks that it
    waits for. *)
Record Launched := {
  ready : list Req;
  tasks : list (outcome (list Req));
  num_reqs : nat;
}.

(** [Vec::with_capacity(n)] for elements of [sz] bytes. *)
Definition with_capacity (n sz : Z) : outcome unit :=
  if n * sz <=? 9223372036854775807 then Done () else Panic.

Section Batches.
Context {T : Type} `{Dist T} (pad_byte : Z).
Context (env : OpEnv) (self : OpArray) (op : ArrayOpCmd T) (ret : BatchReturnType).

Definition mk_single_val (v : T) (s : IndexSize) (buff : list Z) : outcome BatchAm :=
  into_am self ret (SingleValMultiIndex buff (as_bytes v) (cmd_into_bytes op) s).
Definition mk_single_idx (local_index : Z) (vs : list T) : outcome BatchAm :=
  into_am self ret (MultiValSingleIndex local_index (concat (map as_bytes vs)) (cmd_into_bytes op)).
Definition mk_multi (s : IndexSize) (buff : list Z) : outcome BatchAm :=
  into_am self ret (MultiValMultiIndex buff (cmd_into_bytes op) s).

(** The task of [one_val_multi_indices]. *)
Definition one_val_task (npb : nat) (v : T) (s : IndexSize) (start_i : nat) (index_vec : list Z)
  : outcome (list Req) :=
  let! n := umul (Z.of_nat npb) (Z.of_nat (index_len s)) in
  let! _ := with_capacity n 1 in
  let! _ := with_capacity (Z.of_nat npb) 8 in
  scatter self (Z.of_nat npb) (mk_single_val v s) start_i
    (map (fun idx => (idx, index_bytes s)) index_vec).

Fixpoint one_val_tasks (npb : nat) (v : T) (s : IndexSize) (start_i : nat)
    (indices : list (OpInputEnum Z)) : outcome (list (outcome (list Req))) :=
  match indices with
  | [] => Done []
  | index :: indices' =>
      let! n := len index in
      let! index_vec := to_vec index in
      let! ts := one_val_tasks npb v s (start_i + n) indices' in
      Done (one_val_task npb v s start_i index_vec :: ts)
  end.

Definition one_val_multi_indices (v : T) (indices : list (OpInputEnum Z)) (s : IndexSize)
  : outcome Launched :=
  let! npb := num_per_batch env in
  let! ts := one_val_tasks npb v s 0 indices in
  Done {| ready := []; tasks := ts; num_reqs := length indices |}.

(** The task of [multi_val_one_index]: a request per chunk of values. *)
Fixpoint one_index_task (pe : nat) (local_index : Z) (inner_start_i : nat) (val_chunks : list (list T))
  : outcome (list Req) :=
  match val_chunks with
  | [] => Done []
  | vs :: val_chunks' =>
      let! am := mk_single_idx local_index vs in
      let! rs := one_index_task pe local_index (inner_start_i + length vs) val_chunks' in
      Done ({| req_pe := pe; req_am := am; req_pos := seq inner_start_i (length vs) |} :: rs)
  end.

Fixpoint one_index_tasks (npb pe : nat) (local_index : Z) (start_i : nat)
    (vals : list (OpInputEnum T)) : outcome (list (outcome (list Req))) :=
  match vals with
  | [] => Done []
  | val :: vals' =>
      let! n := len val in
      let! val_chunks := into_vec_chunks val npb in
      let! ts := one_index_tasks npb pe local_index (start_i + n) vals' in
      Done (one_index_task pe local_index start_i val_chunks :: ts)
  end.

Definition multi_val_one_index (vals : list (OpInputEnum T)) (index : Z) : outcome Launched :=
  let! npb := num_per_batch env in
  let! (pe, local_index) := locate self index in
  let! ts := one_index_tasks npb pe local_index 0 vals in
  Done {| ready := []; tasks := ts; num_reqs := length vals |}.

(** The task of [multi_val_multi_index]. *)
Definition multi_task (npb : nat) (bytes_per_batch : Z) (s : IndexSize) (start_i : nat)
    (index_vec : list Z) (vals_vec : list T) : outcome (list Req) :=
  let! _ := with_capacity bytes_per_batch 1 in
  let! _ := with_capacity (Z.of_nat npb) 8 in
  scatter self bytes_per_batch (mk_multi s) start_i
    (map (fun '(idx, v) => (idx, fun o => idx_val_bytes pad_byte (index_len s) o v))
         (zip index_vec vals_vec)).

Fixpoint multi_tasks (npb : nat) (bytes_per_batch : Z) (s : IndexSize) (start_i : nat)
    (ivs : list (OpInputEnum Z * OpInputEnum T)) : outcome (list (outcome (list Req))) :=
  match ivs with
  | [] => Done []
  | (index, val) :: ivs' =>
      let! n := len index in
      let! index_vec := to_vec index in
      let! vals_vec := to_vec val in
      let! ts := multi_tasks npb bytes_per_batch s (start_i + n) ivs' in
      Done (multi_task npb bytes_per_batch s start_i index_vec vals_vec :: ts)
  end.

Definition multi_val_multi_index (vals : list (OpInputEnum T)) (indices : list (OpInputEnum Z))
    (s : IndexSize) : outcome Launched :=
  let! npb := num_per_batch env in
  let! bytes_per_batch := umul (Z.of_nat npb) (Z.of_nat (idx_val_size (T := T) (index_len s))) in
  let! ts := multi_tasks npb bytes_per_batch s 0 (zip indices vals) in
  Done {| ready := []; tasks := ts; num_reqs := length vals |}.

(** [single_val_single_index]: one request, made at once. *)
Definition single_val_single_index (v : T) (index : Z) : outcome Launched :=
  let! (pe, local_index) := locate self index in
  let! am := mk_multi IUsize (idx_val_bytes pad_byte 8 local_index v) in
  Done {| ready := [{| req_pe := pe; req_am := am; req_pos := [0%nat] |}]; tasks := []; num_reqs := 0 |}.

(** [(0..num_pes).map(|pe| num_elems_pe(pe)).max().unwrap()] *)
Fixpoint max_elems (n : nat) : outcome (option Z) :=
  match n with
  | O => Done None
  | S n' =>
      let! m := max_elems n' in
      let! c := num_elems_pe (inner self) (Z.of_nat n') in
      Done (Some (Z.max (default c m) c))
  end.

Definition max_local_size : outcome Z :=
  let! m := max_elems (Z.to_nat (num_pes (data (inner self)))) in unwrap m.

(** The common part of [initiate_batch_op], [initiate_batch_fetch_op_2] and
    [initiate_batch_result_op_2]: what is launched, and the length of the results. *)
Definition initiate (val : OpInput T) (index : OpInput Z) : outcome (Launched * nat) :=
  let! (indices, i_len) := as_op_input env index in
  let! (vals, v_len) := as_op_input env val in
  let! size := max_local_size in
  let index_size := index_size_from size in
  let first_of {A} (l : list (OpInputEnum A)) : outcome A := let! i := unwrap (head l) in first i in
  let! L :=
    if ((v_len =? 1) && (i_len =? 1))%nat then
      let! v := first_of vals in
      let! i := first_of indices in
      single_val_single_index v i
    else if ((1 <? v_len) && (i_len =? 1))%nat then
      let! i := first_of indices in
      multi_val_one_index vals i
    else if ((v_len =? 1) && (1 <? i_len))%nat then
      let! v := first_of vals in
      one_val_multi_indices v indices index_size
    else if ((1 <? v_len) && (1 <? i_len))%nat then
      multi_val_multi_index vals indices index_size
    else Done {| ready := []; tasks := []; num_reqs := 0 |} in
  Done (L, Nat.max i_len v_len).
End Batches.

(** ** Waiting for the tasks *)

(** The requests of the tasks that end. *)
Definition completed (ts : list (outcome (list Req))) : list (list Req) :=
  omap (fun t => match t with Done rs => Some rs | Panic => None end) ts.

(** The tasks end in any order, each adding its requests and then one to [cnt]; the
    caller waits until [cnt] is [num_reqs], and runs tasks of the scheduler
    ([exec_task]) while it does.  A task that panics does not count: on another thread
    it leaves the caller waiting ([Done None]), on the thread of the caller, when that
    picks it, the panic reaches the caller ([Panic]).  The panic hook of the world,
    which shuts the runtime down, is not part of this. *)
Inductive joins (L : Launched) : outcome (option (list Req)) -> Prop :=
| joins_all order :
    order ≡ₚ completed (tasks L) -> (num_reqs L <= length order)%nat ->
    joins L (Done (Some (ready L ++ concat order)))
| joins_waits : (length (completed (tasks L)) < num_reqs L)%nat -> joins L (Done None)
| joins_panics : Panic ∈ tasks L -> joins L Panic.

(** ** Running the active messages *)

Section Run.
Context {T : Type} `{Dist T} `{ElemExec T}.
Context (ty : ArrayTy) (ret : BatchReturnType).

(** The width at which a receiver reads the indices. *)
Definition read_width (index_size : nat) : nat :=
  match index_size with 1 => 1 | 2 => 2 | 4 => 4 | _ => 8 end%nat.

(** The command and the (index, value) pairs of a message, as [exec] reads them. *)
Definition am_cmd (am : BatchAm) : ArrayOpCmd T :=
  match am with
  | SingleValMultiIndex _ _ op _ | MultiValSingleIndex _ _ op | MultiValMultiIndex _ op _ =>
      cmd_from_bytes op
  end.

Definition am_ops (am : BatchAm) : list (Z * T) :=
  match am with
  | SingleValMultiIndex idx val _ s =>
      let v := from_bytes (take (size_of T) val) in
      map (fun b => (le_value b, v)) (records (read_width (index_len s)) idx)
  | MultiValSingleIndex idx val _ =>
      map (fun b => (idx, from_bytes b)) (records (size_of T) val)
  | MultiValMultiIndex iv _ s =>
      let isz := read_width (index_len s) in
      map (idx_val_read isz) (records (idx_val_size (T := T) isz) iv)
  end.

(** Whether the operation on an element stores: loads, and exchanges that fail, do
    not. *)
Definition reads_only (op : ArrayOpCmd T) : bool := match op with Load | Get => true | _ => false end.
Definition stores (op : ArrayOpCmd T) (r : OpReturn T) : bool :=
  negb (reads_only op) && match r with RetRes (Err _) => false | _ => true end.

(** The body of the loop of a message: it reads [slice[index]], ... *)
Definition load_elem (slice : list T) (iv : Z * T) : outcome T := unwrap (slice !! Z.to_nat (fst iv)).
(** ... and computes and stores, having read [cur]. *)
Definition store_elem (op : ArrayOpCmd T) (slice : list T) (iv : Z * T) (cur : T) : outcome (list T * OpReturn T) :=
  let! (n, r) := elem_op ret op cur (snd iv) in
  Done (if stores op r then <[Z.to_nat (fst iv) := n]> slice else slice, r).

Definition exec_elem (op : ArrayOpCmd T) (slice : list T) (iv : Z * T) : outcome (list T * OpReturn T) :=
  let! cur := load_elem slice iv in store_elem op slice iv cur.

(** Whether an operation on an element happens at once: under the lock of the element
    or of the array, or by atomic instructions (NativeAtomic.v).  The elements of an
    [UnsafeArray] are read and written by plain loads and stores, and nothing writes
    to a [ReadOnlyArray]. *)
Definition atomic_elems : bool := negb (bool_decide (ty = UnsafeArray)).

(** A message under way: the operations left, what the first of them has loaded
    already, and the results so far. *)
Record AmState := { am_req : Req; todo : list (Z * T); loaded : option T; res : list (OpReturn T) }.

Definition am_start (r : Req) : AmState :=
  {| am_req := r; todo := am_ops (req_am r); loaded := None; res := [] |}.

(** The local slices of the PEs, and the messages. *)
Definition RunState : Type := list (list T) * list AmState.

(** The next step of message [k]: an operation, or its load or its store. *)
Definition run_step (st : RunState) (k : nat) : outcome RunState :=
  match st.2 !! k with
  | Some s =>
      match todo s with
      | [] => Done st
      | iv :: rest =>
          let pe := req_pe (am_req s) in
          let op := am_cmd (req_am (am_req s)) in
          let! slice := unwrap (st.1 !! pe) in
          let finish x :=
            let! (slice, r) := x in
            Done (<[pe := slice]> st.1,
                  <[k := {| am_req := am_req s; todo := rest; loaded := None; res := res s ++ [r] |}]> st.2) in
          if atomic_elems then finish (exec_elem op slice iv)
          else
            match loaded s with
            | None =>
                let! cur := load_elem slice iv in
                Done (st.1, <[k := {| am_req := am_req s; todo := todo s; loaded := Some cur; res := res s |}]> st.2)
            | Some cur => finish (store_elem op slice iv cur)
            end
      end
  | None => Done st
  end.

Fixpoint run (sched : list nat) (st : RunState) : outcome RunState :=
  match sched with
  | [] => Done st
  | k :: sched' => let! st := run_step st k in run sched' st
  end.

Definition run_init (mem : list (list T)) (rs : list Req) : RunState := (mem, map am_start rs).

Definition all_done (st : RunState) : bool := forallb (fun s => (length (todo s) =? 0)%nat) st.2.

(** ** Results *)

(** [for (v, i) in vals.zip(idxs) { results[i] = v }]; an entry that is not written
    keeps the uninitialised memory ([None]) that [set_len] exposes. *)
Fixpoint put_results (results : list (option (OpReturn T))) (vis : list (OpReturn T * nat))
  : outcome (list (option (OpReturn T))) :=
  match vis with
  | [] => Done results
  | (v, i) :: vis' =>
      if (i <? length results)%nat then put_results (<[i := Some v]> results) vis' else Panic
  end.

Definition gather_results (n : nat) (sts : list AmState) : outcome (list (option (OpReturn T))) :=
  put_results (replicate n None)
    (concat (map (fun s => zip (res s) (req_pos (am_req s))) sts)).
End Run.
