(* ===== verification/BatchOpsInv.v ===== *)
(** Lemmas on the batched operations of [BatchOps]: the bytes of a message give back
    its operations, the buffers of a task lose and duplicate nothing, and running
    messages in any interleaving is running their operations on the array itself. *)

From stdpp Require Import base list numbers sets.
From Stdlib Require Import ZArith Lia.
From S2P Require Import Prelude Distribution OpInput Element BatchOps.

Local Open Scope Z_scope.

(** ** Bytes *)

Lemma records_concat sz (cs : list (list Z)) : (0 < sz)%nat ->
  Forall (fun c => length c = sz) cs -> records sz (concat cs) = cs.
Proof.
  intros Hsz F. unfold records.
  assert (L : length (concat cs) = (length cs * sz)%nat)
    by (induction F as [|c cs Hc F IH]; cbn; [done | rewrite length_app; lia]).
  rewrite L, Nat.div_mul by lia. clear L. apply list_eq. intros i.
  rewrite list_lookup_fmap. destruct (decide (i < length cs)%nat) as [Hi|Hi]; cycle 1.
  { rewrite lookup_seq_ge, lookup_ge_None_2 by lia. done. }
  rewrite lookup_seq_lt by done. cbn [fmap option_fmap option_map Nat.add].
  revert i Hi. induction F as [|c cs Hc F IH]; intros i Hi; cbn in Hi; [lia|].
  destruct i as [|i]; cbn [concat lookup list_lookup].
  - rewrite drop_0. by rewrite take_app_length' by done.
  - rewrite drop_app_ge by lia. replace (S i * sz - length c)%nat with (i * sz)%nat by lia.
    apply IH. lia.
Qed.

Lemma round_up_ge n a : (0 < a)%nat -> (n <= round_up n a)%nat.
Proof.
  intros Ha. unfold round_up. pose proof (Nat.div_mod_eq (n + a - 1) a).
  pose proof (Nat.mod_upper_bound (n + a - 1) a ltac:(lia)). lia.
Qed.

Section IdxValLemmas.
Context {T : Type} `{DistLaws T} (pad_byte : Z).

Lemma idx_val_bytes_length isz o (v : T) : (0 < isz)%nat ->
  length (idx_val_bytes pad_byte isz o v) = idx_val_size (T := T) isz.
Proof.
  intros Hi. unfold idx_val_bytes, idx_val_size.
  rewrite !length_app, !length_replicate, le_bytes_length, as_bytes_length.
  pose proof (round_up_ge isz (align_of T) align_pos).
  pose proof (round_up_ge (val_offset (T := T) isz + size_of T) (Nat.max isz (align_of T)) ltac:(lia)).
  unfold val_offset in *. lia.
Qed.

Lemma idx_val_roundtrip isz o (v : T) : 0 <= o < 256 ^ Z.of_nat isz -> valid v ->
  idx_val_read isz (idx_val_bytes pad_byte isz o v) = (o, v).
Proof.
  intros Ho Hv. unfold idx_val_read, idx_val_bytes.
  rewrite take_app_length' by by rewrite le_bytes_length.
  rewrite le_value_small by done. f_equal.
  rewrite app_assoc, drop_app_length'.
  - rewrite take_app_length' by by rewrite as_bytes_length. by apply from_as_bytes.
  - rewrite length_app, le_bytes_length, length_replicate.
    pose proof (round_up_ge isz (align_of T) align_pos). unfold val_offset. lia.
Qed.

Lemma idx_val_size_pos isz : (0 < idx_val_size (T := T) isz)%nat.
Proof.
  unfold idx_val_size.
  pose proof (round_up_ge (val_offset (T := T) isz + size_of T) (Nat.max isz (align_of T))
                ltac:(pose proof align_pos; lia)).
  pose proof size_pos. lia.
Qed.
End IdxValLemmas.

(** ** Index sizes *)

Lemma index_len_read s : read_width (index_len s) = index_len s.
Proof. by destruct s. Qed.

Lemma index_len_pos s : (0 < index_len s)%nat.
Proof. destruct s; cbn; lia. Qed.

(** An index below the number of elements fits the size chosen for it. *)
Lemma index_size_fits size o : 0 <= o < size -> size < USIZE ->
  o < 256 ^ Z.of_nat (index_len (index_size_from size)).
Proof.
  intros Ho Hs. unfold index_size_from.
  repeat match goal with |- context [?a <=? ?b] => destruct (Z.leb_spec a b) end;
    cbn -[Z.pow]; rewrite ?Z.pow_pos_fold; cbn; lia.
Qed.

Section Layout.
Context (N P : Z) (self : OpArray).
Hypothesis Hwf : layout_wf N P (inner self).

(** Where an element of the array is. *)
Definition elem_pe (i : Z) : nat := Z.to_nat (owner N P (inner self) (offset (inner self) + i)).
Definition elem_off (i : Z) : Z := local_offset N P (inner self) i.

Lemma locate_eq i : 0 <= i < size (inner self) -> locate self i = Done (elem_pe i, elem_off i).
Proof. intros Hi. unfold locate. by rewrite (pe_and_offset_eq N P). Qed.

Lemma locate_out i : size (inner self) <= i -> locate self i = Panic.
Proof.
  intros Hi. unfold locate, pe_and_offset_for_global_index, pe_for_dist_index.
  by rewrite (proj2 (Z.ltb_ge _ _)) by lia.
Qed.

Lemma elem_pe_bound i : 0 <= i < size (inner self) ->
  (elem_pe i < Z.to_nat (num_pes (data (inner self))))%nat.
Proof.
  intros Hi. pose proof Hwf as []. rewrite wf_num_pes. unfold elem_pe.
  pose proof (owner_bound N P (inner self) (offset (inner self) + i) Hwf ltac:(lia)). lia.
Qed.

Lemma elem_place_inj i j : 0 <= i < size (inner self) -> 0 <= j < size (inner self) ->
  elem_pe i = elem_pe j -> elem_off i = elem_off j -> i = j.
Proof.
  intros Hi Hj Hp Ho. pose proof Hwf as [].
  rewrite <- (index_of_local_owner N P (inner self) i Hwf Hi), <- (index_of_local_owner N P (inner self) j Hwf Hj).
  unfold elem_pe, elem_off in *. rewrite Ho. f_equal.
  pose proof (owner_bound N P (inner self) (offset (inner self) + i) Hwf ltac:(lia)).
  pose proof (owner_bound N P (inner self) (offset (inner self) + j) Hwf ltac:(lia)). lia.
Qed.

Lemma max_elems_spec n : Z.of_nat n <= P ->
  exists m, max_elems self n = Done m
    /\ match m with
       | None => n = 0%nat
       | Some c => c <= size (inner self)
                   /\ forall pe, 0 <= pe < Z.of_nat n -> count N P (inner self) pe <= c
       end.
Proof.
  induction n as [|n IH]; intros Hn; cbn [max_elems]; [by exists None|].
  destruct IH as (m & -> & Hm); [lia|].
  rewrite (num_elems_pe_eq N P) by (done || lia).
  pose proof (count_bound N P (inner self) (Z.of_nat n) Hwf ltac:(lia)) as Hc.
  eexists; split; [done|]. cbn. destruct m as [c|]; cbn.
  - destruct Hm as [H1 H2]. split; [lia|]. intros pe Hpe.
    destruct (decide (pe = Z.of_nat n)) as [->|]; [lia|]. specialize (H2 pe ltac:(lia)). lia.
  - subst n. split; [lia|]. intros pe Hpe. replace pe with (Z.of_nat 0) by lia. lia.
Qed.

Lemma max_local_size_spec :
  exists m, max_local_size self = Done m /\ m <= size (inner self)
    /\ forall i, 0 <= i < size (inner self) ->
       0 <= elem_off i < 256 ^ Z.of_nat (index_len (index_size_from m)).
Proof.
  pose proof Hwf as []. unfold max_local_size. rewrite wf_num_pes.
  destruct (max_elems_spec (Z.to_nat P) ltac:(lia)) as (m & -> & Hm).
  destruct m as [c|]; [|lia]. destruct Hm as [Hc Hm]. exists c. split; [done|]. split; [done|].
  intros i Hi. pose proof (owner_bound N P (inner self) (offset (inner self) + i) Hwf ltac:(lia)).
  specialize (Hm (owner N P (inner self) (offset (inner self) + i)) ltac:(lia)).
  pose proof (local_offset_bound N P (inner self) i Hwf Hi). unfold elem_off.
  split; [lia|]. apply index_size_fits; lia.
Qed.
End Layout.

(** ** Buffers *)

(** An operation of the input: its position, index and value, and where the element
    is. *)
Record Entry (T : Type) := { e_pos : nat; e_idx : Z; e_val : T; e_pe : nat; e_off : Z }.
Arguments e_pos {T} _.
Arguments e_idx {T} _.
Arguments e_val {T} _.
Arguments e_pe {T} _.
Arguments e_off {T} _.

Definition e_op {T} (e : Entry T) : Z * T := (e_off e, e_val e).

(** A request for the operations [es]. *)
Definition req_for {T} `{Dist T} (op : ArrayOpCmd T) (r : Req) (es : list (Entry T)) : Prop :=
  req_pos r = map e_pos es /\ am_ops (req_am r) = map e_op es
  /\ am_cmd (req_am r) = op /\ Forall (fun e => e_pe e = req_pe r) es.

Lemma concat_insert_perm {A} (ess : list (list A)) i es es' :
  ess !! i = Some es -> concat (<[i := es']> ess) ++ es ≡ₚ concat ess ++ es'.
Proof.
  intros Hi. rewrite <- (take_drop_middle ess i es Hi) at 2.
  rewrite insert_take_drop by by eapply lookup_lt_Some.
  rewrite !concat_app. cbn [concat]. solve_Permutation.
Qed.

Section ScatterLemmas.
Context {T : Type} `{Dist T} (op : ArrayOpCmd T) (self : OpArray).
Context (limit : Z) (mk : list Z -> outcome BatchAm).
Context (enc : Entry T -> list Z).

(** The message of the bytes of good operations has these operations. *)
Context (good : Entry T -> Prop).
Hypothesis mk_for : forall es, Forall (fun e => good e) es ->
  exists am, mk (concat (map enc es)) = Done am /\ am_ops am = map e_op es /\ am_cmd am = op.
Hypothesis good_enc : forall e, good e -> enc e <> [].

Definition buffers_for (st : Buffers) (ess sent : list (list (Entry T))) : Prop :=
  buffs st = map (fun es => concat (map enc es)) ess
  /\ res_buffs st = map (map e_pos) ess
  /\ Forall2 (req_for op) (reqs st) sent
  /\ (forall pe es, ess !! pe = Some es -> Forall (fun e => e_pe e = pe /\ good e) es).

Lemma send_for pe es rs sent : Forall (fun e => e_pe e = pe /\ good e) es ->
  Forall2 (req_for op) rs sent ->
  exists rs', send mk pe (concat (map enc es)) (map e_pos es) rs = Done rs'
    /\ Forall2 (req_for op) rs' (sent ++ [es]).
Proof.
  intros Hes F. unfold send.
  destruct (mk_for es) as (am & -> & Hops & Hcmd); [by eapply Forall_impl; [exact Hes | intros e []]|].
  eexists; split; [done|]. apply Forall2_app; [done|]. constructor; [|constructor].
  split_and!; try done. by eapply Forall_impl; [exact Hes | intros e []].
Qed.

Lemma push_for st ess sent e bytes : buffers_for st ess sent ->
  locate self (e_idx e) = Done (e_pe e, e_off e) -> (e_pe e < length ess)%nat ->
  bytes (e_off e) = enc e -> good e ->
  exists st' ess' sent', push self limit mk bytes (e_pos e) (e_idx e) st = Done st'
    /\ buffers_for st' ess' sent' /\ length ess' = length ess
    /\ concat ess' ++ concat sent' ≡ₚ (concat ess ++ concat sent) ++ [e].
Proof.
  intros (Hb & Hr & Hq & Hpe) Hloc Hlt Henc Hne.
  destruct (lookup_lt_is_Some_2 ess (e_pe e) Hlt) as [es Hes].
  assert (Hes' : Forall (fun x => e_pe x = e_pe e /\ good x) (es ++ [e]))
    by (apply Forall_app; split; [by apply Hpe | by repeat constructor]).
  unfold push. rewrite Hloc. cbn beta iota zeta. rewrite Hb, Hr, !list_lookup_fmap, Hes, Henc.
  cbn [fmap option_fmap option_map unwrap].
  replace (concat (map enc es) ++ enc e) with (concat (map enc (es ++ [e])))
    by (rewrite map_app, concat_app; cbn; by rewrite app_nil_r).
  replace (map e_pos es ++ [e_pos e]) with (map e_pos (es ++ [e])) by by rewrite map_app.
  assert (Hins : forall x, Forall (fun y => e_pe y = e_pe e /\ good y) x ->
    forall pe es, <[e_pe e := x]> ess !! pe = Some es -> Forall (fun y => e_pe y = pe /\ good y) es).
  { intros x Hx pe es0 [(<- & <- & _)|[_ Hi]]%list_lookup_insert_Some; [done | by apply Hpe]. }
  destruct (limit <=? _).
  - destruct (send_for (e_pe e) (es ++ [e]) (reqs st) sent Hes' Hq) as (rs' & -> & F).
    eexists _, (<[e_pe e := []]> ess), (sent ++ [es ++ [e]]). split; [done|].
    split_and!; [| by rewrite length_insert |].
    + split_and!; cbn [buffs res_buffs reqs]; [by rewrite list_fmap_insert | by rewrite list_fmap_insert | done |].
      apply Hins. constructor.
    + pose proof (concat_insert_perm ess (e_pe e) es [] Hes) as Hc. rewrite app_nil_r in Hc.
      rewrite <- Hc, concat_app. cbn [concat]. solve_Permutation.
  - eexists _, (<[e_pe e := es ++ [e]]> ess), sent. split; [done|].
    split_and!; [| by rewrite length_insert |].
    + split_and!; cbn [buffs res_buffs reqs]; [by rewrite list_fmap_insert | by rewrite list_fmap_insert | done |].
      by apply Hins.
    + pose proof (concat_insert_perm ess (e_pe e) es (es ++ [e]) Hes) as Hc.
      apply (Permutation_app_inv_r es). rewrite <- !app_assoc, (Permutation_app_comm _ es).
      rewrite app_assoc, Hc. solve_Permutation.
Qed.

(** The operations [es] are the pairs [ops] at the positions from [j]. *)
Inductive entries_for : list (Entry T) -> list (Z * (Z -> list Z)) -> nat -> Prop :=
| entries_nil j : entries_for [] [] j
| entries_cons e es bytes ops j : e_pos e = j ->
    locate self (e_idx e) = Done (e_pe e, e_off e) ->
    (e_pe e < Z.to_nat (num_pes (data (inner self))))%nat ->
    bytes (e_off e) = enc e -> good e ->
    entries_for es ops (j + 1) -> entries_for (e :: es) ((e_idx e, bytes) :: ops) j.

Lemma push_all_for es ops j st ess sent : entries_for es ops j ->
  buffers_for st ess sent -> length ess = Z.to_nat (num_pes (data (inner self))) ->
  exists st' ess' sent', push_all self limit mk ops j st = Done st'
    /\ buffers_for st' ess' sent'
    /\ concat ess' ++ concat sent' ≡ₚ (concat ess ++ concat sent) ++ es.
Proof.
  intros He. revert st ess sent.
  induction He as [j|e es bytes ops j Hj Hloc Hlt Hb Hne He IH]; intros st ess sent Hst Hlen; cbn.
  - eexists _, _, _. split_and!; [done | done | by rewrite app_nil_r].
  - subst j. destruct (push_for st ess sent e bytes Hst Hloc) as (st1 & ess1 & sent1 & -> & H1 & L1 & P1);
      [lia | done | done |].
    destruct (IH st1 ess1 sent1 H1) as (st2 & ess2 & sent2 & -> & H2 & P2); [lia|].
    eexists _, _, _. split_and!; [done | done |]. rewrite P2, P1, <- app_assoc. done.
Qed.

Lemma send_rest_for ess pe rs sent :
  (forall i es, ess !! i = Some es -> Forall (fun e => e_pe e = pe + i /\ good e)%nat es) ->
  Forall2 (req_for op) rs sent ->
  exists rs' sent', send_rest mk pe (zip (map (fun es => concat (map enc es)) ess) (map (map e_pos) ess)) rs = Done rs'
    /\ Forall2 (req_for op) rs' sent' /\ concat sent' ≡ₚ concat sent ++ concat ess.
Proof.
  revert pe rs sent. induction ess as [|es ess IH]; intros pe rs sent He F; cbn [map zip_with send_rest concat].
  - exists rs, sent. by rewrite app_nil_r.
  - assert (Hes : Forall (fun e => e_pe e = pe /\ good e) es)
      by (eapply Forall_impl; [exact (He 0%nat es eq_refl) | intros e []; split; [lia | done]]).
    assert (Hrest : forall i es0, ess !! i = Some es0 -> Forall (fun e => e_pe e = (pe + 1) + i /\ good e)%nat es0).
    { intros i es0 Hi. eapply Forall_impl; [exact (He (S i) es0 Hi) | intros e []; split; [lia | done]]. }
    destruct (Nat.ltb_spec 0 (length (concat (map enc es)))) as [Hl|Hl].
    + destruct (send_for pe es rs sent Hes F) as (rs1 & -> & F1).
      destruct (IH (pe + 1)%nat rs1 _ Hrest F1) as (rs2 & sent2 & -> & F2 & P2).
      eexists _, _. split_and!; [done | done |]. rewrite P2, concat_app. cbn. rewrite app_nil_r.
      by rewrite <- app_assoc.
    + assert (es = []) as ->.
      { destruct es as [|e es]; [done|]. inversion Hes as [|?? [_ Hne] _]. subst.
        cbn in Hl. rewrite length_app in Hl. apply good_enc in Hne.
        destruct (enc e); [done | cbn in Hl; lia]. }
      by apply (IH (pe + 1)%nat rs sent Hrest F).
Qed.

(** The task sends every operation once, in a message to the PE of its element. *)
Lemma scatter_for es ops j : entries_for es ops j ->
  exists rs sent, scatter self limit mk j ops = Done rs
    /\ Forall2 (req_for op) rs sent /\ concat sent ≡ₚ es.
Proof.
  intros He. unfold scatter. set (n := Z.to_nat (num_pes (data (inner self)))).
  assert (C : concat (replicate n []) = ([] : list (Entry T)))
    by (clear; induction n; [done | exact IHn]).
  destruct (push_all_for es ops j
              {| buffs := replicate n []; res_buffs := replicate n []; reqs := [] |} (replicate n []) [])
    as (st & ess & sent & -> & (Hb & Hr & Hq & Hpe) & HP); [done | | by rewrite length_replicate |].
  { split_and!; cbn; [by rewrite fmap_replicate | by rewrite fmap_replicate | constructor |].
    intros pe es0 [-> _]%lookup_replicate. constructor. }
  rewrite Hb, Hr. destruct (send_rest_for ess 0 (reqs st) sent Hpe Hq) as (rs & sent' & -> & F & HP').
  exists rs, sent'. split_and!; [done | done |].
  rewrite HP', (Permutation_app_comm (concat sent)), HP, C. done.
Qed.
End ScatterLemmas.

(** ** Tasks *)

Section Tasks.
Context {T : Type} `{DistLaws T} (pad_byte : Z).
Context (N P : Z) (env : OpEnv) (self : OpArray) (op : ArrayOpCmd T) (ret : BatchReturnType).
Hypothesis Hwf : layout_wf N P (inner self).
Hypothesis Hop : cmd_valid op.
Hypothesis Hreg : registered (array_ty self) (optypes self) ret = true.

Definition in_bounds (i : Z) : Prop := 0 <= i < size (inner self).

Definition mk_entry (j : nat) (iv : Z * T) : Entry T :=
  {| e_pos := j; e_idx := fst iv; e_val := snd iv;
     e_pe := elem_pe N P self (fst iv); e_off := elem_off N P self (fst iv) |}.

(** The operations [ivs] at the positions from [j]. *)
Fixpoint entries_at (j : nat) (ivs : list (Z * T)) : list (Entry T) :=
  match ivs with [] => [] | iv :: ivs' => mk_entry j iv :: entries_at (j + 1) ivs' end.

Lemma entries_at_app j a b : entries_at j (a ++ b) = entries_at j a ++ entries_at (j + length a) b.
Proof.
  revert j. induction a as [|iv a IH]; intros j; cbn; [by rewrite Nat.add_0_r|].
  rewrite IH. do 3 f_equal. lia.
Qed.

Lemma entries_at_pos j ivs : map e_pos (entries_at j ivs) = seq j (length ivs).
Proof. revert j. induction ivs; intros j; cbn; [done|]. rewrite IHivs. do 2 f_equal. lia. Qed.

Lemma entries_at_idx j ivs : map e_idx (entries_at j ivs) = map fst ivs.
Proof. revert j. induction ivs as [|[i v] ivs IH]; intros j; cbn; [done|]. by rewrite IH. Qed.

(** [t] is a task for the operations [es]. *)
Definition task_for (t : outcome (list Req)) (es : list (Entry T)) : Prop :=
  exists rs sent, t = Done rs /\ Forall2 (req_for op) rs sent /\ concat sent ≡ₚ es.

Lemma into_am_ok am : into_am self ret am = Done am.
Proof. unfold into_am. by rewrite Hreg. Qed.

(** The index sizes that are large enough for every element. *)
Definition fits (s : IndexSize) : Prop :=
  forall i, in_bounds i -> 0 <= elem_off N P self i < 256 ^ Z.of_nat (index_len s).

Lemma as_bytes_take v : valid v -> from_bytes (take (size_of T) (as_bytes v)) = v.
Proof. intros Hv. rewrite take_ge by by rewrite as_bytes_length. by apply from_as_bytes. Qed.

Lemma one_val_task_for npb v s j ids : fits s -> valid v -> Forall in_bounds ids ->
  Z.of_nat npb * 8 <= 9223372036854775807 ->
  task_for (one_val_task self op ret npb v s j ids) (entries_at j (map (fun i => (i, v)) ids)).
Proof.
  intros Hs Hv Hi Hn. unfold one_val_task.
  assert (Hl : Z.of_nat npb * Z.of_nat (index_len s) <= 9223372036854775807) by (destruct s; cbn; lia).
  rewrite umul_ok by lia. unfold with_capacity.
  rewrite Z.mul_1_r, !(proj2 (Z.leb_le _ _)) by done.
  pose proof (index_len_pos s) as Hlp.
  apply (scatter_for op self _ _ (fun e => index_bytes s (e_off e))
           (fun e => e_val e = v /\ 0 <= e_off e < 256 ^ Z.of_nat (index_len s))).
  - intros es Hes. unfold mk_single_val. rewrite into_am_ok. eexists; split; [done|].
    cbn [am_ops am_cmd]. split; [|by apply cmd_roundtrip].
    rewrite index_len_read, records_concat; [|done|].
    + rewrite map_map. apply map_ext_in. intros e He%list_elem_of_In.
      rewrite Forall_forall in Hes. destruct (Hes e He) as [Hev Ho].
      unfold index_bytes, e_op. rewrite le_value_small, as_bytes_take by done. by rewrite Hev.
    + apply Forall_map. eapply Forall_impl; [exact Hes|]. intros e _. apply le_bytes_length.
  - intros e _ E%(f_equal length). unfold index_bytes in E. rewrite le_bytes_length in E. cbn in E. lia.
  - clear Hn Hl. revert j. induction Hi as [|i ids Hi His IH]; intros j; cbn; constructor; try done.
    + by apply locate_eq.
    + by apply elem_pe_bound.
    + split; [done|]. by apply Hs.
Qed.

Lemma multi_task_for npb bpb s j ids vs : fits s -> Forall valid vs -> Forall in_bounds ids ->
  Z.of_nat npb * 8 <= 9223372036854775807 -> bpb <= 9223372036854775807 ->
  task_for (multi_task pad_byte self op ret npb bpb s j ids vs) (entries_at j (zip ids vs)).
Proof.
  intros Hs Hv Hi Hn Hb. unfold multi_task, with_capacity.
  rewrite Z.mul_1_r, !(proj2 (Z.leb_le _ _)) by done.
  pose proof (index_len_pos s) as Hlp.
  apply (scatter_for op self _ _ (fun e => idx_val_bytes pad_byte (index_len s) (e_off e) (e_val e))
           (fun e => valid (e_val e) /\ 0 <= e_off e < 256 ^ Z.of_nat (index_len s))).
  - intros es Hes. unfold mk_multi. rewrite into_am_ok. eexists; split; [done|].
    cbn [am_ops am_cmd]. split; [|by apply cmd_roundtrip].
    rewrite index_len_read, records_concat; [|apply idx_val_size_pos|].
    + rewrite map_map. apply map_ext_in. intros e He%list_elem_of_In.
      rewrite Forall_forall in Hes. destruct (Hes e He) as [Hev Ho]. by apply idx_val_roundtrip.
    + apply Forall_map. eapply Forall_impl; [exact Hes|]. intros e _. by apply idx_val_bytes_length.
  - intros e _ E%(f_equal length). rewrite idx_val_bytes_length in E by done.
    pose proof (idx_val_size_pos (T := T) (index_len s)). cbn in E. lia.
  - clear Hn Hb. revert j vs Hv. induction Hi as [|i ids Hi His IH]; intros j vs Hv; cbn; [constructor|].
    destruct Hv as [|v vs Hv Hvs]; cbn; constructor; try done.
    + by apply locate_eq.
    + by apply elem_pe_bound.
    + split; [done|]. by apply Hs.
    + by apply IH.
Qed.

Lemma one_index_task_for idx j vcs : in_bounds idx -> Forall (Forall valid) vcs ->
  task_for (one_index_task self op ret (elem_pe N P self idx) (elem_off N P self idx) j vcs)
    (entries_at j (map (fun v => (idx, v)) (concat vcs))).
Proof.
  intros Hi Hv. revert j. induction Hv as [|vs vcs Hv Hvs IH]; intros j; cbn [one_index_task concat].
  - by exists [], [].
  - unfold mk_single_idx. rewrite into_am_ok.
    destruct (IH (j + length vs)%nat) as (rs & sent & -> & F & HP).
    eexists _, (entries_at j (map (fun v => (idx, v)) vs) :: sent). split; [done|]. split.
    + constructor; [|done]. split_and!.
      * cbn. by rewrite entries_at_pos, length_map.
      * cbn [req_am am_ops]. rewrite records_concat; [|apply size_pos|].
        -- rewrite map_map. clear IH F HP. revert j. induction Hv as [|v vs Hv1 Hv2 IH]; intros j; [done|].
           cbn. rewrite from_as_bytes by done. f_equal. apply IH.
        -- apply Forall_map. apply Forall_true. intros v. apply as_bytes_length.
      * by apply cmd_roundtrip.
      * cbn [req_pe]. clear. revert j. induction vs; intros j; constructor; [done | apply IHvs].
    + cbn. rewrite HP, map_app, entries_at_app, length_map. done.
Qed.

(** ** The pieces' tasks together *)

Lemma one_val_tasks_for npb v s j indices cs : fits s -> valid v ->
  Forall2 is_piece indices cs -> Forall in_bounds (concat cs) ->
  Z.of_nat npb * 8 <= 9223372036854775807 ->
  exists ts ess, one_val_tasks self op ret npb v s j indices = Done ts
    /\ Forall2 task_for ts ess /\ length ts = length indices
    /\ concat ess = entries_at j (map (fun i => (i, v)) (concat cs)).
Proof.
  intros Hs Hv Hp. revert j. induction Hp as [|p c ps cs (Hvec & Hlen & _) Hp IH]; intros j Hi Hn; cbn.
  - by exists [], [].
  - cbn in Hi. apply Forall_app in Hi as [Hi1 Hi2]. rewrite Hlen, Hvec.
    destruct (IH (j + length c)%nat Hi2 Hn) as (ts & ess & -> & F & Hl & C).
    eexists _, (_ :: ess). split; [done|]. split_and!.
    + constructor; [by apply one_val_task_for | done].
    + cbn. by rewrite Hl.
    + cbn. rewrite C, map_app, entries_at_app, length_map. done.
Qed.

Lemma multi_tasks_for npb bpb s j indices vals cs ds : fits s ->
  Forall2 is_piece indices cs -> Forall2 is_piece vals ds -> map length cs = map length ds ->
  Forall in_bounds (concat cs) -> Forall valid (concat ds) ->
  Z.of_nat npb * 8 <= 9223372036854775807 -> bpb <= 9223372036854775807 ->
  exists ts ess, multi_tasks pad_byte self op ret npb bpb s j (zip indices vals) = Done ts
    /\ Forall2 task_for ts ess /\ length ts = length vals
    /\ concat ess = entries_at j (zip (concat cs) (concat ds)).
Proof.
  intros Hs Hp. revert j vals ds.
  induction Hp as [|p c ps cs (Hvec & Hlen & _) Hp IH]; intros j vals ds Hq Hl Hi Hv Hn Hb;
    destruct Hq as [|q d qs ds (Hvec' & Hlen' & _) Hq]; cbn in Hl |- *; try done.
  - by exists [], [].
  - injection Hl as Hl0 Hl. cbn in Hi, Hv. apply Forall_app in Hi as [Hi1 Hi2], Hv as [Hv1 Hv2].
    rewrite Hlen, Hvec, Hvec'.
    destruct (IH (j + length c)%nat qs ds Hq Hl Hi2 Hv2 Hn Hb) as (ts & ess & -> & F & Hlt & C).
    eexists _, (_ :: ess). split; [done|]. split_and!.
    + constructor; [by apply multi_task_for | done].
    + cbn. by rewrite Hlt.
    + cbn. rewrite C. rewrite zip_with_app by done. rewrite entries_at_app, length_zip_with. do 2 f_equal. lia.
Qed.

Lemma chunks_fuel_Forall (Q : T -> Prop) n fuel l : Forall Q l -> Forall (Forall Q) (chunks_fuel fuel n l).
Proof.
  revert l. induction fuel as [|fuel IH]; intros l Hl; [constructor|].
  destruct l as [|x l]; [constructor|]. cbn [chunks_fuel]. constructor; [by apply Forall_take|].
  apply IH. by apply Forall_drop.
Qed.

Lemma one_index_tasks_for npb idx j vals ds : (0 < npb)%nat -> in_bounds idx ->
  Forall2 is_piece vals ds -> Forall valid (concat ds) ->
  exists ts ess, one_index_tasks self op ret npb (elem_pe N P self idx) (elem_off N P self idx) j vals = Done ts
    /\ Forall2 task_for ts ess /\ length ts = length vals
    /\ concat ess = entries_at j (map (fun v => (idx, v)) (concat ds)).
Proof.
  intros Hn Hi Hp. revert j. induction Hp as [|p d ps ds (_ & Hlen & Hch) Hp IH]; intros j Hv; cbn.
  - by exists [], [].
  - cbn in Hv. apply Forall_app in Hv as [Hv1 Hv2]. rewrite Hlen, (Hch npb Hn).
    destruct (IH (j + length d)%nat Hv2) as (ts & ess & -> & F & Hl & C).
    eexists _, (_ :: ess). split; [done|]. split_and!.
    + constructor; [|done]. apply one_index_task_for; [done | by apply chunks_fuel_Forall].
    + cbn. by rewrite Hl.
    + cbn. rewrite C, chunks_concat, map_app, entries_at_app, length_map by done. done.
Qed.

(** ** Waiting *)

Lemma Forall2_perm {A B} (R : A -> B -> Prop) l l' k : l' ≡ₚ l -> Forall2 R l k ->
  exists k', k' ≡ₚ k /\ Forall2 R l' k'.
Proof.
  intros HP. symmetry in HP. revert k. induction HP as [|x l l' HP IH|x y l|l l' l'' _ IH _ IH']; intros k F.
  - inversion F; subst. by exists [].
  - inversion F as [|? z ? k0 Hxz F0]; subst. destruct (IH k0 F0) as (k' & Hk & F'). exists (z :: k').
    split; [by rewrite Hk | by constructor].
  - inversion F as [|? z ? k0 Hxz F0]; subst. inversion F0 as [|? w ? k1 Hyw F1]; subst.
    exists (w :: z :: k1). split; [constructor | by repeat constructor].
  - destruct (IH k F) as (k1 & Hk1 & F1). destruct (IH' k1 F1) as (k2 & Hk2 & F2).
    exists k2. split; [by rewrite Hk2 | done].
Qed.

Lemma completed_for ts ess : Forall2 task_for ts ess ->
  exists sents, Forall2 (fun rs sent => Forall2 (req_for op) rs sent) (completed ts) sents
    /\ length (completed ts) = length ts /\ concat (map (fun s => concat s) sents) ≡ₚ concat ess.
Proof.
  induction 1 as [|t es ts ess (rs & sent & -> & F & HP) Hts (sents & Fs & Hl & HPs)].
  - by exists [].
  - exists (sent :: sents). change (completed (Done rs :: ts)) with (rs :: completed ts).
    split_and!; [by constructor | cbn [length]; by rewrite Hl | cbn; by rewrite HP, HPs].
Qed.

Lemma req_for_concat rss sents :
  Forall2 (fun rs sent => Forall2 (req_for op) rs sent) rss sents ->
  Forall2 (req_for op) (concat rss) (concat sents).
Proof. induction 1; cbn; [constructor | by apply Forall2_app]. Qed.

(** When every task is for its operations, the caller neither waits forever nor
    panics and gets requests for all of them, in whatever order the tasks end. *)
Lemma joins_for L ess sent0 : Forall2 task_for (tasks L) ess -> Forall2 (req_for op) (ready L) sent0 ->
  (num_reqs L <= length (tasks L))%nat ->
  (exists o, joins L o)
  /\ forall o, joins L o -> exists rs sent, o = Done (Some rs)
       /\ Forall2 (req_for op) rs sent /\ concat sent ≡ₚ concat sent0 ++ concat ess.
Proof.
  intros F F0 Hn. destruct (completed_for _ _ F) as (sents & Fs & Hl & HP). split.
  - eexists. apply (joins_all L (completed (tasks L))); [done | by rewrite Hl].
  - intros o [order Hord _|Hlt|Hp]; [|lia|]; cycle 1.
    { exfalso. apply list_elem_of_lookup in Hp as [i Hi].
      by destruct (Forall2_lookup_l _ _ _ _ _ F Hi) as (es & _ & rs & sent & ? & _). }
    destruct (Forall2_perm _ _ _ _ Hord Fs) as (sents' & HP' & Fs').
    exists (ready L ++ concat order), (sent0 ++ concat sents'). split; [done|]. split.
    + apply Forall2_app; [done | by apply req_for_concat].
    + rewrite concat_app, <- HP. f_equiv. clear -HP'.
      assert (E : forall ss : list (list (list (Entry T))), concat (concat ss) = concat (map (fun s => concat s) ss)).
      { induction ss as [|s ss IH]; [done|]. cbn. by rewrite concat_app, IH. }
      by rewrite E, HP'.
Qed.
End Tasks.

(** ** The whole batch *)

(** The operations a call asks for: an input of one element goes with every element
    of the other. *)
Definition broadcast {A} (n : nat) (l : list A) : list A :=
  match l with [x] => replicate n x | _ => l end.

Definition requested {T} (I : list Z) (V : list T) : list (Z * T) :=
  let n := Nat.max (length I) (length V) in zip (broadcast n I) (broadcast n V).

Lemma zip_replicate_l {A B} (x : A) (l : list B) n : n = length l ->
  zip (replicate n x) l = map (fun y => (x, y)) l.
Proof. intros ->. induction l; cbn; [done | by f_equal]. Qed.

Lemma zip_replicate_r {A B} (y : B) (l : list A) n : n = length l ->
  zip l (replicate n y) = map (fun x => (x, y)) l.
Proof. intros ->. induction l; cbn; [done | by f_equal]. Qed.

Lemma broadcast_many {A} n (l : list A) : length l <> 1%nat -> broadcast n l = l.
Proof. by destruct l as [|x [|y l]]. Qed.

(** A batch of [npb] operations fits a vector. *)
Definition batch_fits (T : Type) `{Dist T} (npb : nat) : Prop :=
  (0 < npb)%nat /\ Z.of_nat npb * 8 <= 9223372036854775807
  /\ forall s, Z.of_nat npb * Z.of_nat (idx_val_size (T := T) (index_len s)) <= 9223372036854775807.

Lemma length_1 {A} (l : list A) : length l = 1%nat -> exists x, l = [x].
Proof. destruct l as [|x [|y l]]; try done. intros _. by exists x. Qed.

Section Initiate.
Context {T : Type} `{DistLaws T} (pad_byte : Z).
Context (N P : Z) (env : OpEnv) (self : OpArray) (op : ArrayOpCmd T) (ret : BatchReturnType).
Hypothesis Hwf : layout_wf N P (inner self).
Hypothesis Hop : cmd_valid op.
Hypothesis Hreg : registered (array_ty self) (optypes self) ret = true.

Local Abbreviation req_for := (req_for op).
Local Abbreviation entries_at := (entries_at N P self).

(** The requests that the caller gets are those of the operations [ivs]. *)
Definition launches (L : Launched) (ivs : list (Z * T)) : Prop :=
  (exists o, joins L o)
  /\ forall o, joins L o -> exists rs sent, o = Done (Some rs)
       /\ Forall2 req_for rs sent /\ concat sent ≡ₚ entries_at 0 ivs.

Lemma launches_tasks ts n ess ivs : Forall2 (task_for op) ts ess -> n = length ts ->
  concat ess = entries_at 0 ivs ->
  launches {| ready := []; tasks := ts; num_reqs := n |} ivs.
Proof.
  intros F -> C. unfold launches. rewrite <- C.
  by apply (joins_for op {| ready := []; tasks := ts; num_reqs := length ts |} ess []).
Qed.

Lemma single_for i v : in_bounds self i -> valid v ->
  exists L, single_val_single_index pad_byte self op ret v i = Done L /\ launches L [(i, v)].
Proof.
  intros Hi Hv. unfold single_val_single_index, mk_multi. rewrite (locate_eq N P) by done.
  cbn beta iota. rewrite into_am_ok by done. eexists; split; [done|].
  apply (joins_for op {| ready := _; tasks := []; num_reqs := 0 |} [] [entries_at 0 [(i, v)]]);
    [constructor | | done].
  constructor; [|constructor]. split_and!; [done | | by apply cmd_roundtrip | by repeat constructor].
  destruct (max_local_size_spec N P self Hwf) as (m & _ & _ & Hoff).
  pose proof (local_offset_bound N P (inner self) i Hwf Hi) as Hb.
  pose proof (owner_bound N P (inner self) (offset (inner self) + i) Hwf
                ltac:(destruct Hwf; unfold in_bounds in Hi; lia)) as Ho.
  pose proof (count_bound N P (inner self) _ Hwf Ho) as Hc.
  cbn [req_am am_ops index_len read_width].
  replace (idx_val_bytes pad_byte 8 (elem_off N P self i) v)
    with (concat [idx_val_bytes pad_byte 8 (elem_off N P self i) v]) by (cbn; by rewrite app_nil_r).
  rewrite records_concat; [|apply idx_val_size_pos | repeat constructor; by apply idx_val_bytes_length; lia].
  cbn [map]. rewrite idx_val_roundtrip; [done | | done].
  unfold elem_off. destruct Hwf. change (256 ^ Z.of_nat 8) with 18446744073709551616. lia.
Qed.

(** [initiate_batch_*]: every operation asked for is in one of the requests, whose
    messages are for the PE of its element; nothing else is. *)
Lemma initiate_for (iV : OpInput T) (iI : OpInput Z) npb :
  input_ok env iI -> input_ok env iV ->
  num_per_batch env = Done npb -> batch_fits T npb ->
  Forall (in_bounds self) (contents iI) -> Forall valid (contents iV) ->
  (0 < length (contents iI))%nat -> (0 < length (contents iV))%nat ->
  length (contents iI) = 1%nat \/ length (contents iV) = 1%nat
    \/ length (contents iI) = length (contents iV) ->
  exists L, initiate pad_byte env self op ret iV iI
            = Done (L, Nat.max (length (contents iI)) (length (contents iV)))
    /\ launches L (requested (contents iI) (contents iV)).
Proof.
  intros HI HV Hnpb (Hn & Hn8 & Hns) HbI HvV HI0 HV0 Hlen. unfold initiate.
  destruct (max_local_size_spec N P self Hwf) as (m & Em & _ & Hfits).
  destruct (as_op_input_pieces env iI HI) as (ps & EI & FI & CI).
  destruct (as_op_input_pieces env iV HV) as (qs & EV & FV & CV).
  rewrite EI, EV. cbn beta iota. rewrite Em. cbn beta iota zeta.
  set (I := contents iI) in *. set (V := contents iV) in *.
  set (s := index_size_from m) in *.
  assert (SI : length I = 1%nat -> exists p x, I = [x] /\ ps = [p] /\ first p = Done x).
  { intros [x Hx]%length_1. destruct (as_op_input_single env iI x HI Hx) as (p & E & Ep).
    exists p, x. rewrite EI in E. by injection E as -> _. }
  assert (SV : length V = 1%nat -> exists p x, V = [x] /\ qs = [p] /\ first p = Done x).
  { intros [x Hx]%length_1. destruct (as_op_input_single env iV x HV Hx) as (p & E & Ep).
    exists p, x. rewrite EV in E. by injection E as -> _. }
  clear EI EV. unfold requested.
  destruct (decide (length V = 1%nat)) as [L1|L1], (decide (length I = 1%nat)) as [L2|L2].
  - destruct (SI L2) as (p & i & EqI & -> & Ep), (SV L1) as (q & v & EqV & -> & Eq).
    rewrite EqI, EqV in *. cbn. rewrite Ep, Eq.
    destruct (single_for i v) as (L & -> & HL); [by inversion HbI | by inversion HvV |].
    by exists L.
  - destruct (SV L1) as (q & v & EqV & -> & Eq). rewrite (broadcast_many _ I), EqV by done.
    assert (1 < length I)%nat by lia.
    rewrite (proj2 (Nat.eqb_neq (length I) 1)), !andb_false_r, (proj2 (Nat.ltb_lt 1 (length I))) by done.
    cbn -[index_size_from]. rewrite Eq. unfold one_val_multi_indices. rewrite Hnpb.
    destruct (one_val_tasks_for N P self op ret Hwf Hop Hreg npb v s 0 ps (cut env I))
      as (ts & ess & -> & F & Hl & C); try done; [| by rewrite CI |].
    { rewrite EqV in HvV. by inversion HvV. }
    eexists; split; [done|]. apply (launches_tasks ts _ ess); [done | done |].
    rewrite C, CI, Nat.max_l by lia. by rewrite zip_replicate_r.
  - destruct (SI L2) as (p & i & EqI & -> & Ep). rewrite (broadcast_many _ V), EqI by done.
    assert (1 < length V)%nat by lia.
    rewrite (proj2 (Nat.eqb_neq (length V) 1)), (proj2 (Nat.ltb_lt 1 (length V))) by done.
    cbn -[index_size_from]. rewrite Ep. unfold multi_val_one_index. rewrite Hnpb.
    assert (Hi : in_bounds self i) by (rewrite EqI in HbI; by inversion HbI).
    rewrite (locate_eq N P) by done. cbn beta iota.
    destruct (one_index_tasks_for N P self op ret Hop Hreg npb i 0 qs (cut env V))
      as (ts & ess & -> & F & Hl & C); try done; [by rewrite CV|].
    eexists; split; [done|]. apply (launches_tasks ts _ ess); [done | done |].
    rewrite C, CV, Nat.max_r by lia. by rewrite zip_replicate_l.
  - assert (1 < length V)%nat by lia. assert (length I = length V) by lia.
    rewrite !broadcast_many by done.
    rewrite (proj2 (Nat.eqb_neq (length V) 1)), (proj2 (Nat.ltb_lt 1 (length V))),
      (proj2 (Nat.eqb_neq (length I) 1)), (proj2 (Nat.ltb_lt 1 (length I))) by lia.
    cbn -[index_size_from]. unfold multi_val_multi_index. rewrite Hnpb.
    rewrite umul_ok by (specialize (Hns s); lia).
    destruct (multi_tasks_for pad_byte N P self op ret Hwf Hop Hreg npb
                (Z.of_nat npb * Z.of_nat (idx_val_size (T := T) (index_len s))) s 0 ps qs
                (cut env I) (cut env V))
      as (ts & ess & -> & F & Hl & C); try done; [| by rewrite CI | by rewrite CV |].
    { apply cut_lengths; [done|]. apply HI. }
    eexists; split; [done|]. apply (launches_tasks ts _ ess); [done | done |].
    by rewrite C, CI, CV.
Qed.
End Initiate.

(** ** Running the messages *)

Section RunLemmas.
Context {T : Type} `{DistLaws T} `{ElemExec T}.
Context (N P : Z) (self : OpArray) (op : ArrayOpCmd T) (ret : BatchReturnType).
Hypothesis Hwf : layout_wf N P (inner self).

Local Abbreviation exec_elem := (exec_elem ret op).
Local Abbreviation ty := (array_ty self).
Local Abbreviation elem_pe := (elem_pe N P self).
Local Abbreviation elem_off := (elem_off N P self).

(** The reference: the operations one after the other on the elements of the array in
    the order of its indices. *)
Fixpoint ref_run (arr : list T) (ivs : list (Z * T)) : outcome (list T * list (OpReturn T)) :=
  match ivs with
  | [] => Done (arr, [])
  | iv :: ivs' =>
      let! (arr, r) := exec_elem arr iv in
      let! (arr, rs) := ref_run arr ivs' in
      Done (arr, r :: rs)
  end.

Lemma ref_run_snoc arr ivs iv :
  ref_run arr (ivs ++ [iv]) =
    let! (arr, rs) := ref_run arr ivs in
    let! (arr, r) := exec_elem arr iv in Done (arr, rs ++ [r]).
Proof.
  revert arr. induction ivs as [|iv0 ivs IH]; intros arr; cbn [ref_run app].
  - by destruct (exec_elem arr iv) as [[]|].
  - destruct (exec_elem arr iv0) as [[arr1 r1]|]; [|done]. rewrite IH.
    destruct (ref_run arr1 ivs) as [[arr2 rs]|]; [|done].
    by destruct (exec_elem arr2 iv) as [[]|].
Qed.

Lemma ref_run_length arr ivs arr' rs : ref_run arr ivs = Done (arr', rs) -> length rs = length ivs.
Proof.
  revert arr rs. induction ivs as [|iv ivs IH]; intros arr rs; cbn [ref_run]; [by intros [= _ <-]|].
  destruct (exec_elem arr iv) as [[arr1 r]|]; [|done].
  destruct (ref_run arr1 ivs) as [[arr2 rs']|] eqn:E; [|done]. intros [= -> <-].
  cbn. by rewrite (IH _ _ E).
Qed.

(** [mem] are the local slices of the array with the elements [arr]. *)
Definition mem_ok (mem : list (list T)) (arr : list T) : Prop :=
  Z.of_nat (length arr) = size (inner self)
  /\ forall i, in_bounds self i -> exists slice,
       mem !! elem_pe i = Some slice /\ slice !! Z.to_nat (elem_off i) = arr !! Z.to_nat i.

(** An operation on an element in its slice is the one on the array. *)
Lemma exec_agree mem arr i v : mem_ok mem arr -> in_bounds self i ->
  exists slice, mem !! elem_pe i = Some slice
    /\ match exec_elem arr (i, v) with
       | Done (arr', r) => exists slice', exec_elem slice (elem_off i, v) = Done (slice', r)
                             /\ mem_ok (<[elem_pe i := slice']> mem) arr'
       | Panic => exec_elem slice (elem_off i, v) = Panic
       end.
Proof.
  intros [Hl Hm] Hi. destruct (Hm i Hi) as (slice & Hs & He). exists slice. split; [done|].
  unfold BatchOps.exec_elem, load_elem, store_elem. cbn [fst snd]. rewrite He.
  destruct (arr !! Z.to_nat i) as [cur|] eqn:Ec; [|done]. cbn [unwrap].
  destruct (elem_op ret op cur v) as [[n r]|]; [|done].
  destruct (stores op r); cycle 1.
  { eexists; split; [done|]. by rewrite list_insert_id. }
  eexists; split; [done|]. split; [by rewrite length_insert|]. intros j Hj.
  destruct (Hm j Hj) as (slj & Hsj & Hej). unfold in_bounds in *.
  destruct (decide (j = i)) as [->|Hne].
  - eexists. split; [rewrite list_lookup_insert_eq; [done | by eapply lookup_lt_Some]|].
    rewrite !list_lookup_insert_eq; [done | by eapply lookup_lt_Some | by eapply lookup_lt_Some].
  - rewrite (list_lookup_insert_ne arr) by lia.
    destruct (decide (elem_pe j = elem_pe i)) as [Ep|Ep].
    + rewrite Ep, list_lookup_insert_eq by by eapply lookup_lt_Some.
      eexists; split; [done|]. rewrite Ep, Hs in Hsj. injection Hsj as <-.
      rewrite list_lookup_insert_ne; [done|]. intros Eo. apply Hne.
      apply (elem_place_inj N P self Hwf); [done | done | done |].
      pose proof (local_offset_bound N P (inner self) i Hwf Hi).
      pose proof (local_offset_bound N P (inner self) j Hwf Hj).
      unfold BatchOpsInv.elem_off in *. lia.
    + rewrite list_lookup_insert_ne by done. by exists slj.
Qed.

Definition e_iv (e : Entry T) : Z * T := (e_idx e, e_val e).

(** The operation is where the layout says. *)
Definition placed (e : Entry T) : Prop :=
  in_bounds self (e_idx e) /\ e_pe e = elem_pe (e_idx e) /\ e_off e = elem_off (e_idx e).

(** Message [s] has done the operations [fst k] and has [snd k] left. *)
Definition am_rel (s : AmState) (k : list (Entry T) * list (Entry T)) : Prop :=
  req_for op (am_req s) (k.1 ++ k.2) /\ todo s = map e_op k.2 /\ length (res s) = length k.1.

Definition state_results (s : AmState) (k : list (Entry T) * list (Entry T)) : list (OpReturn T * nat) :=
  zip (res s) (map e_pos k.1).

(** What the first operation left has loaded is still there. *)
Definition loaded_ok (arr : list T) (s : AmState) (k : list (Entry T) * list (Entry T)) : Prop :=
  match loaded s with
  | None => True
  | Some cur => atomic_elems ty = false /\ exists e l, k.2 = e :: l /\ arr !! Z.to_nat (e_idx e) = Some cur
  end.

(** The invariant of a run: the operations done so far, in the order [tr], have had
    their effect on the array, and the messages hold their results. *)
Record run_inv (arr0 : list T) (sents : list (list (Entry T))) (st : RunState)
    (tr : list (Entry T)) (arr : list T) (rets : list (OpReturn T))
    (ks : list (list (Entry T) * list (Entry T))) : Prop := {
  inv_mem : mem_ok st.1 arr;
  inv_ref : ref_run arr0 (map e_iv tr) = Done (arr, rets);
  inv_ams : Forall2 am_rel st.2 ks;
  inv_loaded : Forall2 (loaded_ok arr) st.2 ks;
  inv_sents : map (fun k => k.1 ++ k.2) ks = sents;
  inv_tr : tr ≡ₚ concat (map fst ks);
  inv_res : concat (zip_with state_results st.2 ks) ≡ₚ zip rets (map e_pos tr);
}.

Lemma run_inv_init mem arr rs sents : mem_ok mem arr -> Forall2 (req_for op) rs sents ->
  run_inv arr sents (run_init mem rs) [] arr [] (map (fun es => ([], es)) sents).
Proof.
  intros Hm F. split; cbn [run_init fst snd]; try done.
  - induction F as [|r es rs sents Hr F IH]; constructor; [|done].
    split_and!; [done | | done]. by destruct Hr as (_ & E & _).
  - clear Hm. induction F as [|r es rs sents Hr F IH]; by constructor.
  - induction F as [|r es rs sents Hr F IH]; cbn; [done | by f_equal].
  - clear Hm. induction F as [|r es rs sents Hr F IH]; cbn; done.
  - clear Hm. induction F as [|r es rs sents Hr F IH]; cbn; done.
Qed.

(** No two operations race: they happen at once, or do not store, or are on
    different elements. *)
Definition race_free (idxs : list Z) : Prop :=
  atomic_elems ty = true \/ reads_only op = true \/ NoDup idxs.

(** How many steps a message with [n] operations takes, and has left. *)
Definition steps_of (n : nat) : nat := if atomic_elems ty then n else (2 * n)%nat.
Definition steps_left (s : AmState (T := T)) : nat :=
  (steps_of (length (todo s)) - match loaded s with Some _ => 1 | None => 0 end)%nat.

(** An operation leaves the other elements alone. *)
Lemma exec_elem_other arr i v arr' r j : exec_elem arr (i, v) = Done (arr', r) ->
  reads_only op = true \/ Z.to_nat i <> Z.to_nat j -> arr' !! Z.to_nat j = arr !! Z.to_nat j.
Proof.
  unfold BatchOps.exec_elem, store_elem, stores. destruct (load_elem arr (i, v)) as [cur|]; [|done].
  destruct (elem_op ret op cur _) as [[n x]|]; [|done]. intros [= <- <-] [-> |Hne]; [done|]. cbn [fst].
  destruct (negb _ && _); [|done]. by apply list_lookup_insert_ne.
Qed.

(** Operations of different messages are on different elements, if all are. *)
Lemma apart_in_concat {A} (f : A -> Z) (ess : list (list A)) k j x y e e' :
  NoDup (map f (concat ess)) -> ess !! k = Some x -> ess !! j = Some y -> k <> j -> e ∈ x -> e' ∈ y -> f e <> f e'.
Proof.
  intros Hnd Hk Hj Hne He He' Ef.
  assert (G : forall k j x y, ess !! k = Some x -> ess !! j = Some y -> (k < j)%nat -> forall e e', e ∈ x -> e' ∈ y -> f e <> f e').
  { clear -Hnd. induction ess as [|es ess IH]; intros k j x y Hk Hj Hlt e e' He He'; [done|].
    destruct j as [|j]; [lia|]. cbn in Hj, Hnd. rewrite map_app in Hnd. apply NoDup_app in Hnd as (_ & Hd & Hnd).
    destruct k as [|k]; cbn in Hk.
    - injection Hk as ->. intros E. apply (Hd (f e)); [by apply list_elem_of_fmap_2|]. rewrite E.
      apply list_elem_of_fmap_2, list_elem_of_In, in_concat. exists y.
      split; apply list_elem_of_In; [by eapply list_elem_of_lookup_2 | done].
    - exact (IH Hnd k j x y Hk Hj ltac:(lia) e e' He He'). }
  destruct (Nat.lt_ge_cases k j); [by eapply (G k j) | eapply (G j k); done || lia].
Qed.

Lemma concat_insert_snoc {A} (l : list (list A)) k x y : l !! k = Some x ->
  concat (<[k := x ++ [y]]> l) ≡ₚ concat l ++ [y].
Proof.
  intros Hk. pose proof (concat_insert_perm l k x (x ++ [y]) Hk) as E.
  apply (Permutation_app_inv_r x). rewrite E. solve_Permutation.
Qed.

(** The end of an operation of message [k]. *)
Lemma finish_inv arr0 sents st tr arr rets ks k s d e l arr' r slice' :
  race_free (map e_idx (concat sents)) -> in_bounds self (e_idx e) -> Forall (in_bounds self) (map e_idx (concat sents)) ->
  run_inv arr0 sents st tr arr rets ks -> st.2 !! k = Some s -> ks !! k = Some (d, e :: l) ->
  exec_elem arr (e_iv e) = Done (arr', r) -> mem_ok (<[req_pe (am_req s) := slice']> st.1) arr' ->
  run_inv arr0 sents
    (<[req_pe (am_req s) := slice']> st.1,
     <[k := {| am_req := am_req s; todo := map e_op l; loaded := None; res := res s ++ [r] |}]> st.2)
    (tr ++ [e]) arr' (rets ++ [r]) (<[k := (d ++ [e], l)]> ks).
Proof.
  intros Hrf Hi Hib [Hmem Href Hams Hld Hsents Htr Hres] Es Ek Hex Hmem'.
  destruct (Forall2_lookup_lr _ _ _ _ _ _ Hams Es Ek) as (Hreq & Htodo & Hlen). cbn [fst snd] in *.
  split; cbn [fst snd]; [done | | | | | |].
  - rewrite map_app. cbn [map]. rewrite ref_run_snoc, Href. cbn beta iota. by rewrite Hex.
  - apply Forall2_insert; [done|]. split_and!; cbn [fst snd am_req todo res]; [by rewrite <- app_assoc | done |].
    rewrite !length_app. cbn. lia.
  - apply Forall2_same_length_lookup_2; [rewrite !length_insert; by eapply Forall2_length|].
    intros j s' k' Hj Hk'. destruct (decide (k = j)) as [->|Hne].
    { rewrite list_lookup_insert_eq in Hj by by eapply lookup_lt_Some. by injection Hj as <-. }
    rewrite list_lookup_insert_ne in Hj by done. rewrite list_lookup_insert_ne in Hk' by done. pose proof (Forall2_lookup_lr _ _ _ _ _ _ Hld Hj Hk') as Hok.
    unfold loaded_ok in *. destruct (loaded s') as [cur|]; [|done]. destruct Hok as (Hat & e' & l' & El & Hcur).
    split; [done|]. exists e', l'. split; [done|]. rewrite <- Hcur. eapply exec_elem_other; [exact Hex|].
    destruct Hrf as [Hat'|[Hro|Hnd]]; [congruence | by left | right].
    assert (forall j k', ks !! j = Some k' -> sents !! j = Some (k'.1 ++ k'.2)) as Hsl
      by (intros j0 k0 H0'; rewrite <- Hsents, list_lookup_fmap, H0'; done).
    destruct k' as [d' l0]. cbn in El. subst l0. pose proof (Hsl _ _ Ek) as S1. pose proof (Hsl _ _ Hk') as S2. cbn in S1, S2.
    pose proof (apart_in_concat e_idx sents k j _ _ e e' Hnd S1 S2 Hne ltac:(set_solver) ltac:(set_solver)) as Hd.
    assert (in_bounds self (e_idx e')) as Hi'.
    { rewrite Forall_forall in Hib. apply Hib, list_elem_of_fmap_2, list_elem_of_In, in_concat. eexists.
      split; apply list_elem_of_In; [by eapply list_elem_of_lookup_2 | set_solver]. }
    unfold in_bounds in *. lia.
  - rewrite list_fmap_insert. cbn [fst snd]. rewrite <- app_assoc. cbn [app].
    rewrite <- Hsents. apply list_insert_id. by rewrite list_lookup_fmap, Ek.
  - rewrite list_fmap_insert, Htr. cbn [fst]. symmetry. apply concat_insert_snoc.
    by rewrite list_lookup_fmap, Ek.
  - rewrite <- insert_zip_with. unfold state_results at 1. cbn [fst snd res].
    rewrite map_app, zip_with_app by (by rewrite length_map). cbn [map zip_with].
    rewrite concat_insert_snoc; cycle 1.
    { rewrite lookup_zip_with, Es. cbn. by rewrite Ek. }
    rewrite Hres, map_app, zip_with_app; [done|].
    rewrite length_map, <- (length_map e_iv). by eapply ref_run_length.
Qed.

(** The load of an operation of message [k]. *)
Lemma load_inv arr0 sents st tr arr rets ks k s d e l cur :
  run_inv arr0 sents st tr arr rets ks -> st.2 !! k = Some s -> ks !! k = Some (d, e :: l) ->
  atomic_elems ty = false -> arr !! Z.to_nat (e_idx e) = Some cur ->
  run_inv arr0 sents
    (st.1, <[k := {| am_req := am_req s; todo := todo s; loaded := Some cur; res := res s |}]> st.2)
    tr arr rets ks.
Proof.
  intros [Hmem Href Hams Hld Hsents Htr Hres] Es Ek Hat Hcur.
  pose proof (Forall2_lookup_lr _ _ _ _ _ _ Hams Es Ek) as Hrel.
  rewrite <- (list_insert_id ks k _ Ek). split; cbn [fst snd]; try done; rewrite ?(list_insert_id ks k _ Ek); try done.
  - rewrite <- (list_insert_id ks k _ Ek). by apply Forall2_insert.
  - rewrite <- (list_insert_id ks k _ Ek). apply Forall2_insert; [done|]. split; [done|]. by exists e, l.
  - rewrite <- Hres. rewrite <- (list_insert_id ks k _ Ek) at 1. rewrite <- insert_zip_with.
    rewrite list_insert_id; [done|]. rewrite lookup_zip_with, Es. cbn. by rewrite Ek.
Qed.

(** What a step of message [k] does to the steps that are left. *)
Definition stepped (k : nat) (ss ss' : list (AmState (T := T))) : Prop :=
  length ss' = length ss /\
  forall j s, ss !! j = Some s -> exists s', ss' !! j = Some s' /\ am_req s' = am_req s
    /\ steps_left s' = (steps_left s - if decide (k = j) then 1 else 0)%nat.

Lemma stepped_insert k ss s s' : ss !! k = Some s -> am_req s' = am_req s -> steps_left s' = (steps_left s - 1)%nat ->
  stepped k ss (<[k := s']> ss).
Proof.
  intros Hk Hr Hs. split; [by rewrite length_insert|]. intros j s0 Hj. destruct (decide (k = j)) as [<-|Hne].
  - rewrite Hk in Hj. injection Hj as <-. rewrite list_lookup_insert_eq by by eapply lookup_lt_Some. by exists s'.
  - rewrite list_lookup_insert_ne by done. exists s0. split_and!; [done | done | lia].
Qed.

Lemma stepped_same k ss : (forall s, ss !! k = Some s -> todo s = []) -> stepped k ss ss.
Proof.
  intros Hk. split; [done|]. intros j s Hj. exists s. split_and!; [done | done |]. destruct (decide (k = j)) as [->|]; [|lia].
  specialize (Hk s Hj). unfold steps_left, steps_of. rewrite Hk. cbn. by destruct (atomic_elems ty), (loaded s).
Qed.

Lemma steps_done (s s' : AmState (T := T)) iv rest : todo s = iv :: rest -> todo s' = rest -> loaded s' = None ->
  atomic_elems ty = true /\ loaded s = None \/ atomic_elems ty = false /\ is_Some (loaded s) ->
  steps_left s' = (steps_left s - 1)%nat.
Proof.
  intros E E' El Hc. unfold steps_left, steps_of. rewrite E, E', El. destruct Hc as [[-> ->]|[-> [cur ->]]]; cbn [length]; lia.
Qed.

(** A step of a run. *)
Lemma run_step_inv arr0 sents st tr arr rets ks k : Forall placed (concat sents) ->
  race_free (map e_idx (concat sents)) -> run_inv arr0 sents st tr arr rets ks ->
  match run_step ty ret st k with
  | Done st' => exists tr' arr' rets' ks', run_inv arr0 sents st' tr' arr' rets' ks' /\ stepped k st.2 st'.2
  | Panic => exists e d l, ks !! k = Some (d, e :: l)
      /\ ref_run arr0 (map e_iv (tr ++ [e])) = Panic
  end.
Proof.
  intros Hpl Hrf I. unfold run_step. destruct (st.2 !! k) as [s|] eqn:Es; cycle 1.
  { exists tr, arr, rets, ks. split; [done|]. apply stepped_same. congruence. }
  pose proof I as [Hmem Href Hams Hld Hsents _ _].
  destruct (Forall2_lookup_l _ _ _ _ _ Hams Es) as ([d l] & Ek & Hreq & Htodo & _).
  pose proof (Forall2_lookup_lr _ _ _ _ _ _ Hld Es Ek) as Hl.
  cbn [fst snd] in *. destruct l as [|e l]; cbn [map] in Htodo; rewrite Htodo.
  { exists tr, arr, rets, ks. split; [done|]. apply stepped_same. intros s' Hj. by simplify_eq. }
  assert (Hib : Forall (in_bounds self) (map e_idx (concat sents)))
    by (apply Forall_map; eapply Forall_impl; [exact Hpl | intros x Hx; apply Hx]).
  assert (He : placed e).
  { rewrite Forall_forall in Hpl. apply Hpl, list_elem_of_In, in_concat. exists (d ++ e :: l).
    split; [|apply in_app_iff; right; by left]. rewrite <- Hsents. apply in_map_iff. exists (d, e :: l).
    split; [done|]. apply list_elem_of_In. by eapply list_elem_of_lookup_2. }
  destruct He as (Hi & Hpe & Hoff). pose proof Hreq as (_ & _ & Hcmd & Hpes).
  assert (Hrp : req_pe (am_req s) = elem_pe (e_idx e)).
  { rewrite <- Hpe. rewrite Forall_forall in Hpes. symmetry. apply Hpes. set_solver. }
  destruct (exec_agree st.1 arr (e_idx e) (e_val e) Hmem Hi) as (slice & Hslice & Hex).
  rewrite Hrp, Hslice. cbn [unwrap]. rewrite Hcmd. change (e_op e) with (e_off e, e_val e). rewrite Hoff.
  assert (Hsnoc : exec_elem arr (e_idx e, e_val e) = Panic -> ref_run arr0 (map e_iv (tr ++ [e])) = Panic)
    by (intros E; rewrite map_app; cbn [map]; rewrite ref_run_snoc, Href; cbn beta iota; unfold e_iv at 1; by rewrite E).
  destruct Hmem as [_ Hmem]. destruct (Hmem _ Hi) as (sl & Hsl & Hcell). rewrite Hslice in Hsl. injection Hsl as <-.
  assert (Hstep : forall r arr', exec_elem arr (e_idx e, e_val e) = Done (arr', r) ->
    atomic_elems ty = true /\ loaded s = None \/ atomic_elems ty = false /\ is_Some (loaded s) ->
    forall slice', exec_elem slice (elem_off (e_idx e), e_val e) = Done (slice', r) ->
    exists tr' arr' rets' ks', run_inv arr0 sents (<[elem_pe (e_idx e) := slice']> st.1,
      <[k := {| am_req := am_req s; todo := map e_op l; loaded := None; res := res s ++ [r] |}]> st.2) tr' arr' rets' ks'
      /\ stepped k st.2 (<[k := {| am_req := am_req s; todo := map e_op l; loaded := None; res := res s ++ [r] |}]> st.2)).
  { intros r arr' E Hc slice' E'. rewrite E in Hex. destruct Hex as (sl & E2 & Hmem'). rewrite E' in E2. injection E2 as <-.
    eexists _, arr', _, _. split.
    - rewrite <- Hrp in Hmem' |- *. by eapply finish_inv.
    - eapply stepped_insert; [done | done |]. by eapply steps_done. }
  destruct (atomic_elems ty) eqn:Hat.
  { assert (loaded s = None) as Hn by (unfold loaded_ok in Hl; destruct (loaded s); [destruct Hl; congruence | done]).
    destruct (exec_elem arr (e_idx e, e_val e)) as [[arr' r]|] eqn:E; [|rewrite Hex; exists e, d, l; auto].
    destruct Hex as (slice' & E' & _). rewrite E'. eapply (Hstep r arr'); auto. }
  unfold loaded_ok in Hl. destruct (loaded s) as [cur|] eqn:Eld.
  - destruct Hl as (_ & e' & l' & [= <- <-] & Hcur).
    assert (store_elem ret op slice (elem_off (e_idx e), e_val e) cur = exec_elem slice (elem_off (e_idx e), e_val e)) as ->.
    { unfold BatchOps.exec_elem, load_elem. cbn [fst]. by rewrite Hcell, Hcur. }
    destruct (exec_elem arr (e_idx e, e_val e)) as [[arr' r]|] eqn:E; [|rewrite Hex; exists e, d, l; auto].
    destruct Hex as (slice' & E' & _). rewrite E'. eapply (Hstep r arr'); [done | right; split; [done | by eexists] | done].
  - unfold load_elem. cbn [fst]. rewrite Hcell. destruct (arr !! Z.to_nat (e_idx e)) as [cur|] eqn:Ecur; cbn [unwrap].
    + assert ((elem_off (e_idx e), e_val e) :: map e_op l = todo s) as -> by (rewrite Htodo; cbn [map]; unfold e_op at 2; by rewrite Hoff).
      exists tr, arr, rets, ks. split; [by eapply load_inv|].
      eapply stepped_insert; [done | done |]. unfold steps_left. cbn. rewrite Eld, Htodo. unfold steps_of. rewrite Hat. cbn. lia.
    + exists e, d, l. split; [done|]. apply Hsnoc. unfold BatchOps.exec_elem, load_elem. cbn [fst]. by rewrite Ecur.
Qed.

Lemma concat_fst_snd {A} (ks : list (list A * list A)) :
  concat (map fst ks) ++ concat (map snd ks) ≡ₚ concat (map (fun k => k.1 ++ k.2) ks).
Proof. induction ks as [|[d l] ks IH]; cbn; [done|]. rewrite <- IH. solve_Permutation. Qed.

(** A run of the messages, from any point. *)
Lemma run_invariant arr0 sents sched st tr arr rets ks : Forall placed (concat sents) ->
  race_free (map e_idx (concat sents)) -> run_inv arr0 sents st tr arr rets ks ->
  match run ty ret sched st with
  | Done st' => exists tr' arr' rets' ks', run_inv arr0 sents st' tr' arr' rets' ks'
      /\ length st'.2 = length st.2
      /\ (forall j s, st.2 !! j = Some s -> exists s', st'.2 !! j = Some s' /\ am_req s' = am_req s
            /\ steps_left s' = (steps_left s - own_steps j sched)%nat)
  | Panic => exists es rest, ref_run arr0 (map e_iv es) = Panic /\ es ++ rest ≡ₚ concat sents
  end.
Proof.
  intros Hpl Hrf. revert st tr arr rets ks. induction sched as [|k sched IH]; intros st tr arr rets ks I; cbn [run].
  - exists tr, arr, rets, ks. split_and!; [done | done |]. intros j s Hj. exists s.
    split_and!; [done | done | cbn; lia].
  - pose proof (run_step_inv arr0 sents st tr arr rets ks k Hpl Hrf I) as S.
    destruct (run_step ty ret st k) as [st1|].
    + destruct S as (tr1 & arr1 & rets1 & ks1 & I1 & L1 & A1).
      specialize (IH st1 tr1 arr1 rets1 ks1 I1). destruct (run ty ret sched st1) as [st2|]; [|done].
      destruct IH as (tr2 & arr2 & rets2 & ks2 & I2 & L2 & A2).
      exists tr2, arr2, rets2, ks2. split_and!; [done | lia |]. intros j s Hj.
      destruct (A1 j s Hj) as (s1 & Hj1 & E1 & T1). destruct (A2 j s1 Hj1) as (s2 & Hj2 & E2 & T2).
      exists s2. split_and!; [done | congruence |]. rewrite T2, T1, own_steps_cons.
      destruct (decide (k = j)), (decide (j = k)); try congruence; lia.
    + destruct S as (e & d & l & Hk & Hp). destruct I as [_ _ _ _ Hs Htr _].
      set (rest := concat (map snd (take k ks)) ++ l ++ concat (map snd (drop (S k) ks))).
      assert (Hm : concat (map snd ks) ≡ₚ e :: rest).
      { rewrite <- (take_drop_middle ks k _ Hk) at 1. rewrite map_app, concat_app.
        symmetry. apply Permutation_middle. }
      exists (tr ++ [e]), rest. split; [done|].
      rewrite <- Hs, <- concat_fst_snd, <- Htr, Hm, <- app_assoc. done.
Qed.

(** ** Results *)

Lemma put_results_ok {A} (results : list (option (OpReturn A))) vis :
  NoDup (map snd vis) -> (forall v i, (v, i) ∈ vis -> (i < length results)%nat) ->
  exists results', put_results results vis = Done results' /\ length results' = length results
    /\ (forall v i, (v, i) ∈ vis -> results' !! i = Some (Some v))
    /\ (forall i, i ∉ map snd vis -> results' !! i = results !! i).
Proof.
  revert results. induction vis as [|[v i] vis IH]; intros results Hnd Hb; cbn [put_results].
  - exists results. split_and!; [done | done | by intros v i ?%elem_of_nil | done].
  - cbn in Hnd. apply NoDup_cons in Hnd as [Hi Hnd].
    rewrite (proj2 (Nat.ltb_lt _ _)) by (eapply Hb; by left).
    destruct (IH (<[i := Some v]> results) Hnd) as (results' & E & Hl & Hin & Hout).
    { intros v' i' Hv. rewrite length_insert. eapply Hb. by right. }
    exists results'. rewrite length_insert in Hl. split_and!; [done | done | |].
    + intros v' i' [[= -> ->]|Hv]%elem_of_cons; [|by apply Hin].
      rewrite Hout by done. apply list_lookup_insert_eq. eapply Hb. by left.
    + intros j Hj. cbn in Hj. apply not_elem_of_cons in Hj as [Hj1 Hj2].
      rewrite Hout by done. by apply list_lookup_insert_ne.
Qed.

Lemma entries_at_lookup ivs j e : e ∈ entries_at N P self j ivs ->
  (j <= e_pos e)%nat /\ ivs !! (e_pos e - j)%nat = Some (e_iv e)
  /\ e_pe e = elem_pe (e_idx e) /\ e_off e = elem_off (e_idx e).
Proof.
  revert j. induction ivs as [|[i v] ivs IH]; intros j; cbn [entries_at]; [by intros ?%elem_of_nil|].
  intros [->|He]%elem_of_cons.
  - cbn. by rewrite Nat.sub_diag.
  - destruct (IH _ He) as (Hj & Hl & Hr). split_and!; [lia | | apply Hr..].
    replace (e_pos e - j)%nat with (S (e_pos e - (j + 1)))%nat by lia. done.
Qed.

(** The order of operations, as positions of the input. *)
Lemma entries_order ivs es : Forall (fun e => e ∈ entries_at N P self 0 ivs) es ->
  map e_iv es = omap (fun j => ivs !! j) (map e_pos es).
Proof.
  induction 1 as [|e es He Hes IH]; [done|].
  apply entries_at_lookup in He as (_ & Hl & _). rewrite Nat.sub_0_r in Hl.
  cbn [map]. cbn [omap list_omap]. rewrite Hl. by f_equal.
Qed.
End RunLemmas.
