(* ===== verification/BatchOpsSpec.v ===== *)
(** What a batched operation does: its operations take effect on the array one at a
    time in some order, and the results come back in the order of the input; then runs
    in which they do not (unequal lengths, an [UnsafeArray] with an index twice). *)

From stdpp Require Import base list numbers sets.
From Stdlib Require Import ZArith Lia.
From S2P Require Import Prelude BlockBounds Distribution OpInput Element NativeAtomic BatchOps BatchOpsInv.

Local Open Scope Z_scope.

(** ** Batches are linearizable *)

(** The schedule gives every message the steps of each of its operations. *)
Definition gives_enough (self : OpArray) (T : Type) `{Dist T} (sched : list nat) (rs : list Req) : Prop :=
  forall k r, rs !! k = Some r -> (steps_of self (length (am_ops (T := T) (req_am r))) <= own_steps k sched)%nat.

(** The requests [rs], run on the local slices [mem] of an array with the elements
    [arr], do the operations [ivs] in some order; if one of them panics, so it does
    after the ones before it in some order. *)
Definition runs_as_reference {T} `{Dist T} `{ElemExec T} (N P : Z) (self : OpArray)
    (op : ArrayOpCmd T) (ret : BatchReturnType) (ivs : list (Z * T))
    (mem : list (list T)) (arr : list T) (rs : list Req) (sched : list nat) : Prop :=
  match run (array_ty self) ret sched (run_init mem rs) with
  | Done st =>
      all_done st = true
      /\ exists ord arr' rets results,
           ord ≡ₚ seq 0 (length ivs)
           /\ ref_run op ret arr (omap (fun j => ivs !! j) ord) = Done (arr', rets)
           /\ mem_ok N P self st.1 arr'
           /\ gather_results (length ivs) st.2 = Done results
           /\ length results = length ivs
           /\ forall k j r, ord !! k = Some j -> rets !! k = Some r -> results !! j = Some (Some r)
  | Panic =>
      exists ord rest, ord ++ rest ≡ₚ seq 0 (length ivs)
        /\ ref_run op ret arr (omap (fun j => ivs !! j) ord) = Panic
  end.

Section Runs.
Context {T : Type} `{DistLaws T} `{ElemExec T}.
Context (N P : Z) (self : OpArray) (op : ArrayOpCmd T) (ret : BatchReturnType).
Hypothesis Hwf : layout_wf N P (inner self).

Lemma all_done_todo (st : RunState (T := T)) : Forall (fun s => todo s = []) st.2 -> all_done st = true.
Proof.
  intros F. unfold all_done. apply Is_true_eq_true, forallb_True. eapply Forall_impl; [exact F|].
  intros s E. cbn in E |- *. by rewrite E.
Qed.

Lemma entries_placed ivs : Forall (in_bounds self) (map fst ivs) ->
  Forall (placed (T := T) N P self) (entries_at N P self 0 ivs).
Proof.
  intros Hb. rewrite Forall_forall in Hb. apply Forall_forall. intros e He.
  destruct (entries_at_lookup N P self ivs 0 e He) as (_ & Hl & Hpe & Hoff).
  split_and!; [| done | done]. apply Hb. apply list_elem_of_In, in_map_iff. exists (e_iv e).
  split; [done|]. apply list_elem_of_In. by eapply list_elem_of_lookup_2.
Qed.

(** With nothing left to do, the results are those of all operations. *)
Lemma results_of_run (st : RunState (T := T)) ks : Forall2 (am_rel op) st.2 ks -> Forall (fun k : list (Entry T) * list (Entry T) => k.2 = []) ks ->
  concat (map (fun s => zip (res s) (req_pos (am_req s))) st.2) = concat (zip_with state_results st.2 ks).
Proof.
  intros F. induction F as [|s [d l] ss ks (Hr & _ & _) F IH]; [done|].
  intros [Hl Hk]%Forall_cons. cbn in Hl. subst l. cbn. f_equal; [|by apply IH].
  unfold state_results. cbn. destruct Hr as (-> & _). cbn. by rewrite app_nil_r.
Qed.

Lemma runs_reference ivs mem arr rs sents sched :
  Forall (in_bounds self) (map fst ivs) -> mem_ok N P self mem arr ->
  Forall2 (req_for op) rs sents -> concat sents ≡ₚ entries_at N P self 0 ivs ->
  race_free self op (map fst ivs) -> gives_enough self T sched rs ->
  runs_as_reference N P self op ret ivs mem arr rs sched.
Proof.
  intros Hb Hmem F HP Hrf Hs. unfold runs_as_reference.
  assert (Hpl : Forall (placed (T := T) N P self) (concat sents)) by (rewrite HP; by apply entries_placed).
  assert (Hin : forall es rest, es ++ rest ≡ₚ concat sents ->
            Forall (fun e => e ∈ entries_at N P self 0 ivs) es).
  { intros es rest E. apply Forall_forall. intros e He. rewrite <- HP, <- E. set_solver. }
  assert (Hpos : forall es rest, es ++ rest ≡ₚ concat sents ->
            map e_pos es ++ map e_pos rest ≡ₚ seq 0 (length ivs)).
  { intros es rest E. rewrite <- map_app, E, HP. by rewrite entries_at_pos. }
  assert (Hrf' : race_free self op (map e_idx (concat sents))).
  { destruct Hrf as [Hrf|[Hrf|Hrf]]; [by left | by right; left | right; right].
    rewrite HP. replace (map e_idx _) with (map fst ivs); [done|]. by rewrite entries_at_idx. }
  pose proof (run_invariant N P self op ret Hwf arr sents sched _ _ _ _ _ Hpl Hrf'
                (run_inv_init N P self op ret mem arr rs sents Hmem F)) as R.
  destruct (run (array_ty self) ret sched (run_init mem rs)) as [st|]; cycle 1.
  { destruct R as (es & rest & Hp & E). exists (map e_pos es), (map e_pos rest). split; [by apply Hpos|].
    rewrite <- (entries_order N P self); [done | by eapply Hin]. }
  destruct R as (tr & arr' & rets & ks & I & Hlen & Hst).
  assert (Htodo : Forall (fun s => todo s = []) st.2).
  { apply Forall_lookup. intros k s Hk. cbn [run_init fst snd] in *.
    assert (is_Some (map am_start rs !! k)) as [s0 Hk0]
      by (apply lookup_lt_is_Some; apply lookup_lt_Some in Hk; rewrite length_map in *; lia).
    destruct (Hst k s0 Hk0) as (s' & Hk' & _ & Ht). rewrite Hk in Hk'. injection Hk' as <-.
    rewrite list_lookup_fmap in Hk0. destruct (rs !! k) as [r|] eqn:Er; [|done].
    injection Hk0 as <-. specialize (Hs k r Er). unfold steps_left, steps_of in Ht, Hs.
    cbn [am_start todo loaded] in Ht. apply nil_length_inv. pose proof I as [_ _ _ Ild _ _ _].
    destruct (Forall2_lookup_l _ _ _ _ _ Ild Hk) as (kk & _ & Hl). unfold loaded_ok in Hl.
    destruct (atomic_elems _), (loaded s); lia. }
  split; [by apply all_done_todo|]. destruct I as [Imem Iref Iams _ Isents Itr Ires].
  assert (Hks : Forall (fun k => k.2 = []) ks).
  { clear -Iams Htodo. induction Iams as [|s k ss ks Hr F IH]; [constructor|].
    apply Forall_cons in Htodo as [Ht Hts]. constructor; [|by apply IH].
    destruct Hr as (_ & E & _). rewrite Ht in E. by destruct (k.2). }
  assert (Etr : tr ++ [] ≡ₚ concat sents).
  { rewrite app_nil_r, Itr, <- Isents. f_equiv. clear -Hks.
    induction Hks as [|[d l] ks Hl Hks IH]; [done|]. cbn in *. subst l. by rewrite app_nil_r, IH. }
  pose proof (Hpos tr [] Etr) as Eord. cbn [map] in Eord. rewrite app_nil_r in Eord.
  assert (Lr : length rets = length (map e_pos tr))
    by (rewrite length_map, <- (length_map e_iv tr); by eapply ref_run_length).
  destruct (put_results_ok (replicate (length ivs) None) (concat (zip_with state_results st.2 ks)))
    as (results & Eres & Lres & Hres & _).
  { rewrite Ires. assert (map snd (zip rets (map e_pos tr)) = map e_pos tr) as -> by (apply snd_zip; lia).
    rewrite Eord. apply NoDup_seq. }
  { intros v i Hv. rewrite length_replicate. rewrite Ires in Hv. apply elem_of_zip_r in Hv.
    rewrite Eord in Hv. apply elem_of_seq in Hv. lia. }
  exists (map e_pos tr), arr', rets, results. split_and!; try done.
  - rewrite <- (entries_order N P self); [done | by eapply Hin].
  - unfold gather_results. by rewrite (results_of_run st ks).
  - by rewrite Lres, length_replicate.
  - intros k j r Hj Hr. apply Hres. rewrite Ires. apply list_elem_of_lookup. exists k.
    rewrite lookup_zip_with, Hr. cbn. by rewrite Hj.
Qed.
End Runs.

(** What a call needs: a laid out array that has messages for this kind of operation,
    inputs that are cut into their pieces, of the same length unless one has a single
    element, indices of the array and values of the type. *)
Record call_ok {T} `{Dist T} (N P : Z) (env : OpEnv) (self : OpArray) (op : ArrayOpCmd T)
    (ret : BatchReturnType) (iV : OpInput T) (iI : OpInput Z) : Prop := {
  ok_layout : layout_wf N P (inner self);
  ok_op : cmd_valid op;
  ok_registered : registered (array_ty self) (optypes self) ret = true;
  ok_indices : input_ok env iI;
  ok_values : input_ok env iV;
  ok_batch : exists npb, num_per_batch env = Done npb /\ batch_fits T npb;
  ok_bounds : Forall (in_bounds self) (contents iI);
  ok_valid : Forall valid (contents iV);
  ok_some : (0 < length (contents iI))%nat /\ (0 < length (contents iV))%nat;
  ok_lengths : length (contents iI) = 1%nat \/ length (contents iV) = 1%nat
               \/ length (contents iI) = length (contents iV);
}.

Lemma broadcast_length {A} n (l : list A) : (length l <= n)%nat -> l <> [] ->
  (length l = 1%nat -> length (broadcast n l) = n) /\ (length l <> 1%nat -> broadcast n l = l).
Proof.
  intros Hn Hl. split; [|apply broadcast_many].
  intros [x ->]%length_1. cbn. apply length_replicate.
Qed.

Lemma requested_spec {T} `{Dist T} (self : OpArray) (I : list Z) (V : list T) :
  (0 < length I)%nat -> (0 < length V)%nat ->
  length I = 1%nat \/ length V = 1%nat \/ length I = length V ->
  Forall (in_bounds self) I ->
  length (requested I V) = Nat.max (length I) (length V)
  /\ Forall (in_bounds self) (map fst (requested I V)).
Proof.
  intros HI HV Hlen Hb. unfold requested. set (n := Nat.max (length I) (length V)).
  assert (LI : length (broadcast n I) = n).
  { destruct (decide (length I = 1%nat)) as [E|E].
    - apply broadcast_length; [lia | by intros -> | done].
    - rewrite broadcast_many by done. lia. }
  assert (LV : length (broadcast n V) = n).
  { destruct (decide (length V = 1%nat)) as [E|E].
    - apply broadcast_length; [lia | by intros -> | done].
    - rewrite broadcast_many by done. lia. }
  split; [rewrite length_zip_with; lia|].
  assert (map fst (zip (broadcast n I) (broadcast n V)) = broadcast n I) as -> by (apply fst_zip; lia).
  destruct I as [|i [|j I]]; [constructor | | done]. cbn.
  apply Forall_replicate. by inversion Hb.
Qed.

(** The requests of a call are those of the operations asked for. *)
Lemma call_requests {T} `{DistLaws T} pad_byte N P env self (op : ArrayOpCmd T) ret iV iI :
  call_ok N P env self op ret iV iI ->
  let ivs := requested (contents iI) (contents iV) in
  Forall (in_bounds self) (map fst ivs)
  /\ exists L, initiate pad_byte env self op ret iV iI = Done (L, length ivs)
       /\ launches N P self op L ivs.
Proof.
  intros []. destruct ok_batch0 as (npb & Hnpb & Hfits), ok_some0 as [HI HV].
  destruct (requested_spec self (contents iI) (contents iV)) as [Hl Hb]; try done.
  split; [done|]. rewrite Hl. by apply (initiate_for pad_byte N P env self op ret) with npb.
Qed.

(** C9: A batched operation of [call_ok] -- indices of the array and values of its
    type in inputs that are cut into their pieces, as many indices as values unless
    there is one of them -- does exactly the operations asked for, on an array that
    nothing else accesses meanwhile: the caller is never left waiting, whatever the
    order in which its tasks end and the messages they send interleave, every message
    finds its elements in its local slice, and the effect on the array and the results
    -- each at the position of its index and value in the input -- are those of doing
    the operations one after the other in some order.  On an [UnsafeArray], whose
    elements are read and written by separate loads and stores, this takes operations
    that only read or indices that are all different ([race_free]).  If the operation
    can panic (an overflow or a division by zero), it panics only where such an order
    does. *)
Theorem batch_linearizable {T} `{DistLaws T} `{ElemExec T} pad_byte N P env self
    (op : ArrayOpCmd T) ret iV iI mem arr :
  call_ok N P env self op ret iV iI -> mem_ok N P self mem arr ->
  race_free self op (map fst (requested (contents iI) (contents iV))) ->
  exists L, initiate pad_byte env self op ret iV iI
            = Done (L, length (requested (contents iI) (contents iV)))
    /\ (exists o, joins L o)
    /\ forall o, joins L o -> exists rs, o = Done (Some rs)
         /\ forall sched, gives_enough self T sched rs ->
              runs_as_reference N P self op ret (requested (contents iI) (contents iV)) mem arr rs sched.
Proof.
  intros Hc Hmem Hrf. destruct (call_requests pad_byte _ _ _ _ _ _ _ _ Hc) as (Hb & L & E & Hex & Hall).
  exists L. split; [done|]. split; [done|]. intros o Ho.
  destruct (Hall o Ho) as (rs & sent & -> & F & HP). exists rs. split; [done|].
  intros sched Hs. eapply runs_reference; try done. apply Hc.
Qed.

(** *** An example: five multiplications on a cyclic [AtomicArray<u64>] *)

Section Example.
Local Instance no_checks : OverflowChecks := false.

Definition all_ops : list OpType := [ReadOnly; Access; Arithmetic; CompExEps; Bitwise; Shift; CompEx].
Local Instance u64_laws : DistLaws (int u64).
Proof. apply int_dist_laws. cbn. tauto. Qed.
Local Instance ex_exec : ElemExec (int u64) := native_exec u64 all_ops.

Definition ex_array : OpArray :=
  {| inner := ex_cyclic; array_ty := NativeAtomicArray; optypes := all_ops |}.

(** Batches of two operations. *)
Definition ex_env : OpEnv :=
  {| LAMELLAR_BATCH_OP_THREADS := Unset; LAMELLAR_THREADS := Unset; LAMELLAR_OP_BATCH := Number 2 |}.

Definition ex_indices : OpInput Z := InVec [0; 4; 0; 3; 6].
Definition ex_values : OpInput (int u64) := InSlice [Int 2; Int 3; Int 5; Int 7; Int 11].

(** The elements 1 .. 7 of the view, and where they are. *)
Definition ex_arr : list (int u64) := map Int [1; 2; 3; 4; 5; 6; 7].
Definition ex_mem : list (list (int u64)) :=
  map (fun pe => omap (fun i => match locate ex_array (Z.of_nat i) with
                                | Done (p, _) => if (p =? pe)%nat then ex_arr !! i else None
                                | Panic => None
                                end) (seq 0 7)) (seq 0 4).

Lemma ex_call_ok (op : ArrayOpCmd (int u64)) ret : cmd_valid op ->
  call_ok 10 4 ex_env ex_array op ret ex_values ex_indices.
Proof.
  intros Hop. split; try done; [by destruct ret | | | | | | |].
  - split; [right; apply env_ok_small; cbn; lia | done].
  - split; [right; apply env_ok_small; cbn; lia | done].
  - exists 2%nat. split; [done|]. split_and!; [lia | lia |].
    intros s. destruct s; vm_compute; discriminate.
  - repeat constructor; cbn; lia.
  - repeat constructor.
  - cbn. lia.
  - right. right. done.
Qed.

Lemma ex_mem_ok : mem_ok 10 4 ex_array ex_mem ex_arr.
Proof.
  split; [done|]. intros i Hi. unfold in_bounds in Hi. cbn in Hi.
  assert (Hc : forallb (fun i =>
      match ex_mem !! elem_pe 10 4 ex_array (Z.of_nat i) with
      | Some s => bool_decide (fmap val (s !! Z.to_nat (elem_off 10 4 ex_array (Z.of_nat i))) = fmap val (ex_arr !! i)
                               /\ is_Some (ex_arr !! i))
      | None => false end) (seq 0 7) = true) by (vm_compute; reflexivity).
  rewrite forallb_forall in Hc. specialize (Hc (Z.to_nat i)). rewrite Z2Nat.id in Hc by lia.
  specialize (Hc ltac:(apply in_seq; lia)). destruct (ex_mem !! _) as [s|]; [|done].
  exists s. split; [done|]. apply bool_decide_eq_true in Hc as [Hc [x Hx]]. rewrite Hx in *.
  destruct (s !! _) as [[y]|]; [|done]. destruct x. cbn in Hc. by injection Hc as ->.
Qed.

(** The requests, in the order of the only task. *)
Definition ex_reqs : list Req :=
  match initiate 0 ex_env ex_array (T := int u64) FetchMul RetVals ex_values ex_indices with
  | Done (L, _) => concat (completed (tasks L))
  | Panic => []
  end.

Lemma batch_linearizable_witness :
  map (fun r => (req_pe r, req_pos r)) ex_reqs = [(1, [0; 1]); (0, [3]); (1, [2]); (3, [4])]%nat
  /\ runs_as_reference 10 4 ex_array (T := int u64) FetchMul RetVals
       (requested (contents ex_indices) (contents ex_values)) ex_mem ex_arr ex_reqs [3; 2; 0; 1; 0]%nat.
Proof.
  split; [vm_compute; reflexivity|].
  destruct (batch_linearizable 0 10 4 ex_env ex_array FetchMul RetVals ex_values ex_indices ex_mem ex_arr
              (ex_call_ok FetchMul RetVals I) ex_mem_ok (or_introl eq_refl)) as (L & E & _ & Hall).
  destruct (Hall (Done (Some ex_reqs))) as (rs & [= <-] & Hr).
  - unfold ex_reqs. rewrite E. assert (ready L = []) as Hready.
    { enough (match initiate 0 ex_env ex_array (T := int u64) FetchMul RetVals ex_values ex_indices with
              | Done (L, _) => ready L | Panic => [] end = []) as R by by rewrite E in R.
      vm_compute; reflexivity. }
    assert (num_reqs L = length (completed (tasks L))) as Hn.
    { enough (match initiate 0 ex_env ex_array (T := int u64) FetchMul RetVals ex_values ex_indices with
              | Done (L, _) => (num_reqs L =? length (completed (tasks L)))%nat | Panic => false end = true) as R
        by (rewrite E in R; by apply Nat.eqb_eq).
      vm_compute; reflexivity. }
    pose proof (joins_all L (completed (tasks L))) as J. rewrite Hready in J. apply J; [done | lia].
  - apply Hr. intros k r Hk.
    assert (Hc : forallb (fun k => match ex_reqs !! k with
        | Some r => (length (am_ops (T := int u64) (req_am r)) <=? own_steps k [3; 2; 0; 1; 0])%nat
        | None => true end) (seq 0 5) = true) by (vm_compute; reflexivity).
    rewrite forallb_forall in Hc. specialize (Hc k).
    assert (k < 4)%nat by (apply lookup_lt_Some in Hk; vm_compute in Hk; lia).
    specialize (Hc ltac:(apply in_seq; lia)). rewrite Hk in Hc. by apply Nat.leb_le.
Defined.

(** ** Batches of loads and of additions *)

Section LoadAdd.
Context {T : Type} `{DistLaws T} `{ElemExec T}.
Context (N P : Z) (self : OpArray).

Lemma ref_run_load ret op (arr : list T) ivs :
  (forall cur v, elem_op ret op cur v = Done (cur, RetVal cur)) ->
  Z.of_nat (length arr) = size (inner self) -> Forall (in_bounds self) (map fst ivs) ->
  exists rs, ref_run op ret arr ivs = Done (arr, rs)
    /\ forall k iv, ivs !! k = Some iv ->
       exists x, arr !! Z.to_nat (fst iv) = Some x /\ rs !! k = Some (RetVal x).
Proof.
  intros Hop Hl Hb. induction ivs as [|[i v] ivs IH]; cbn [ref_run].
  - exists []. split; [done|]. intros k iv Hk. by rewrite lookup_nil in Hk.
  - cbn in Hb. apply Forall_cons in Hb as [Hi Hb]. unfold in_bounds in Hi.
    destruct (lookup_lt_is_Some_2 arr (Z.to_nat i)) as [x Hx]; [lia|].
    unfold exec_elem, load_elem, store_elem. cbn [fst snd]. rewrite Hx. cbn [unwrap]. rewrite Hop.
    cbn beta iota. rewrite list_insert_id by done. rewrite Tauto.if_same. destruct (IH Hb) as (rs & -> & Hrs).
    eexists; split; [done|]. intros [|k] iv Hk; [|by apply Hrs].
    cbn in Hk. injection Hk as <-. by exists x.
Qed.

Lemma requested_perm {A} (l : list A) ord : ord ≡ₚ seq 0 (length l) ->
  omap (fun j => l !! j) ord ≡ₚ l.
Proof.
  intros ->. enough (omap (fun j => l !! j) (seq 0 (length l)) = l) as -> by done.
  induction l as [|x l IH] using rev_ind; [done|].
  rewrite length_app, Nat.add_1_r, seq_S, omap_app. cbn [omap list_omap Nat.add].
  rewrite lookup_app_r, Nat.sub_diag by done. cbn. f_equal. rewrite <- IH at 2.
  clear IH. assert (Hs : Forall (fun j => j < length l)%nat (seq 0 (length l)))
    by (apply Forall_forall; intros j Hj%elem_of_seq; lia).
  induction Hs as [|j js Hj Hs IH]; [done|]. cbn. rewrite lookup_app_l by done.
  destruct (l !! j); [by f_equal | done].
Qed.

End LoadAdd.

(** The sum of the values added to element [i]. *)
Definition added {t} (i : nat) (ivs : list (Z * int t)) : Z :=
  zsum (fun iv => if (Z.to_nat (fst iv) =? i)%nat then val (snd iv) else 0) ivs.

Lemma native_add_op {checks : OverflowChecks} t optypes (cur v : int t) : Arithmetic ∈ optypes ->
  elem_op (ElemExec := native_exec t optypes) RetNone Add cur v
  = Done (Int (wrap t (val cur + val v)), NoRet).
Proof.
  intros Ho. unfold elem_op, native_exec. cbn [native_prog native_none map_cmd]. unfold arm.
  by rewrite decide_True by done.
Qed.

Lemma ref_run_add {checks : OverflowChecks} t optypes self (arr : list (int t)) ivs :
  0 < width t -> Arithmetic ∈ optypes -> Forall valid arr ->
  Z.of_nat (length arr) = size (inner self) -> Forall (in_bounds self) (map fst ivs) ->
  exists arr' rs, ref_run (H1 := native_exec t optypes) Add RetNone arr ivs = Done (arr', rs)
    /\ forall i x, arr !! i = Some x -> arr' !! i = Some (Int (wrap t (val x + added i ivs))).
Proof.
  intros Hw Ho. revert arr. induction ivs as [|[i v] ivs IH]; intros arr Hv Hl Hb; cbn [ref_run].
  - exists arr, []. split; [done|]. intros j x Hx. rewrite Hx. destruct x as [x]. do 2 f_equal.
    cbn. rewrite Z.add_0_r, wrap_id; [done|]. rewrite Forall_lookup in Hv. apply (Hv j _ Hx).
  - cbn in Hb. apply Forall_cons in Hb as [Hi Hb]. unfold in_bounds in Hi.
    destruct (lookup_lt_is_Some_2 arr (Z.to_nat i)) as [x Hx]; [lia|].
    unfold exec_elem, load_elem, store_elem. cbn [fst snd]. rewrite Hx. cbn [unwrap].
    rewrite native_add_op by done. cbn [stores reads_only negb andb].
    destruct (IH (<[Z.to_nat i := Int (wrap t (val x + val v))]> arr)) as (arr' & rs & E & Harr).
    { apply Forall_insert; [done|]. by apply wrap_range. }
    { by rewrite length_insert. }
    { done. }
    rewrite E. eexists _, _. split; [done|]. intros j y Hy.
    unfold added. rewrite zsum_cons. cbn [fst snd]. fold (added j ivs).
    destruct (Nat.eqb_spec (Z.to_nat i) j) as [<-|Hne].
    + rewrite (Harr (Z.to_nat i) (Int (wrap t (val x + val v)))).
      * cbn [val]. rewrite wrap_add. do 3 f_equal. rewrite Hx in Hy. injection Hy as ->. lia.
      * apply list_lookup_insert_eq. by eapply lookup_lt_Some.
    + rewrite (Harr j y); [done|]. by rewrite list_lookup_insert_ne.
Qed.

(** After a batched addition on a native atomic array every element is its old value
    plus the sum of the values added at its index, modulo the width of the type --
    repeated indices included -- whatever the interleaving of the messages. *)
Theorem batch_add_sums {checks : OverflowChecks} t pad_byte N P env self iV iI mem (arr : list (int t)) :
  int_ty_ok t -> Arithmetic ∈ optypes self -> atomic_elems (array_ty self) = true ->
  call_ok N P env self (Add : ArrayOpCmd (int t)) RetNone iV iI ->
  mem_ok N P self mem arr -> Forall valid arr ->
  let ivs := requested (contents iI) (contents iV) in
  exists L, initiate pad_byte env self (Add : ArrayOpCmd (int t)) RetNone iV iI = Done (L, length ivs)
    /\ forall o, joins L o -> exists rs, o = Done (Some rs)
         /\ forall sched, gives_enough self (int t) sched rs ->
              exists st arr', run (H0 := native_exec t (optypes self)) (array_ty self) RetNone sched (run_init mem rs) = Done st
                /\ mem_ok N P self st.1 arr'
                /\ forall i x, arr !! i = Some x ->
                     arr' !! i = Some (Int (wrap t (val x + added i ivs))).
Proof.
  intros Ht Ho Hat Hc Hmem Hv ivs. pose proof (ok_layout _ _ _ _ _ _ _ _ Hc) as Hwf.
  assert (Hw : 0 < width t) by (repeat (destruct Ht as [<-|Ht]; [lia|]); done).
  pose proof (int_dist_laws t Ht) as Hlaws.
  destruct (call_requests pad_byte _ _ _ _ _ _ _ _ Hc) as (Hb & L & E & _ & Hall). fold ivs in Hb, E, Hall.
  exists L. split; [done|]. intros o Hjo. destruct (Hall o Hjo) as (rs & sent & -> & F & HP).
  exists rs. split; [done|]. intros sched Hs.
  pose proof (runs_reference (H1 := native_exec t (optypes self)) N P self Add RetNone Hwf ivs mem arr rs sent
                sched Hb Hmem F HP (or_introl Hat) Hs) as R.
  assert (Href : forall ord rest, ord ++ rest ≡ₚ seq 0 (length ivs) ->
    exists arr' rets, ref_run (H1 := native_exec t (optypes self)) Add RetNone arr (omap (fun j => ivs !! j) ord) = Done (arr', rets)
      /\ forall i x, arr !! i = Some x ->
           arr' !! i = Some (Int (wrap t (val x + added i (omap (fun j => ivs !! j) ord))))).
  { intros ord rest Hord. apply (ref_run_add t (optypes self) self); try done; [apply Hmem|].
    pose proof (requested_perm ivs _ Hord) as HPo. rewrite omap_app in HPo.
    rewrite <- HPo in Hb. rewrite map_app in Hb. by apply Forall_app in Hb as [Hb _]. }
  unfold runs_as_reference in R. destruct (run (array_ty self) RetNone sched (run_init mem rs)) as [st|]; cycle 1.
  { destruct R as (ord & rest & Hord & Hp). destruct (Href ord rest Hord) as (? & ? & Hr & _). congruence. }
  destruct R as (_ & ord & arr' & rets & results & Hord & Hr & Hm & _).
  destruct (Href ord []) as (arr'' & rets' & Hr' & Hadd); [by rewrite app_nil_r|].
  rewrite Hr' in Hr. injection Hr as <- <-. exists st, arr''. split_and!; [done | done |].
  intros i x Hx. rewrite (Hadd i x Hx). do 4 f_equal. unfold added.
  by rewrite (requested_perm ivs ord Hord).
Qed.

(** ** Calls that go wrong *)

(** *** More examples *)

Lemma ex_arr_valid : Forall valid ex_arr.
Proof. repeat constructor. Qed.


Lemma batch_add_sums_witness :
  let ivs := requested (contents ex_indices) (contents ex_values) in
  added 0 ivs = 7
  /\ exists L, initiate 0 ex_env ex_array (Add : ArrayOpCmd (int u64)) RetNone ex_values ex_indices
                = Done (L, length ivs)
    /\ forall o, joins L o -> exists rs, o = Done (Some rs)
         /\ forall sched, gives_enough ex_array (int u64) sched rs ->
              exists st arr', run (array_ty ex_array) RetNone sched (run_init ex_mem rs) = Done st
                /\ mem_ok 10 4 ex_array st.1 arr'
                /\ forall i x, ex_arr !! i = Some x ->
                     arr' !! i = Some (Int (wrap u64 (val x + added i ivs))).
Proof.
  split; [reflexivity|].
  apply (batch_add_sums u64 0 10 4 ex_env ex_array ex_values ex_indices ex_mem ex_arr).
  - cbn. tauto.
  - cbn. set_solver.
  - reflexivity.
  - exact (ex_call_ok Add RetNone I).
  - exact ex_mem_ok.
  - exact ex_arr_valid.
Defined.

(** A batched load of no indices returns one element of uninitialised memory: the
    dummy value it passes counts for the length of the results. *)
Theorem empty_load_uninitialised :
  exists L, initiate 0 ex_env ex_array (T := int u64) Load RetVals (InVal (Int 0)) (InVec []) = Done (L, 1%nat)
    /\ joins L (Done (Some []))
    /\ gather_results (T := int u64) 1 [] = Done [None].
Proof.
  eexists. split; [vm_compute; reflexivity|]. split; [|reflexivity].
  exact (joins_all {| ready := []; tasks := []; num_reqs := 0 |} [] (Permutation_refl _) (Nat.le_refl _)).
Qed.

(** On an [UnsafeArray] the messages of one batch lose updates of an element that is
    in it twice: the additions of 2 and of 5 to the first element, 1, which are in two
    messages, leave 6 when both load before either stores. *)
Definition ex_unsafe : OpArray := {| inner := ex_cyclic; array_ty := UnsafeArray; optypes := all_ops |}.

Theorem unsafe_updates_lost :
  match initiate 0 ex_env ex_unsafe (T := int u64) Add RetNone ex_values ex_indices with
  | Done (L, _) =>
      match run (H0 := plain_exec all_ops) UnsafeArray RetNone [0; 2; 0; 2; 0; 0; 1; 1; 3; 3]%nat
              (run_init ex_mem (concat (completed (tasks L)))) with
      | Done st => all_done st = true /\ added 0 (requested (contents ex_indices) (contents ex_values)) = 7
          /\ option_map val (st.1 !! elem_pe 10 4 ex_unsafe 0 ≫= (.!! Z.to_nat (elem_off 10 4 ex_unsafe 0))) = Some 6
      | Panic => False
      end
  | Panic => False
  end.
Proof. vm_compute. repeat split. Qed.

(** An array of 2000 elements on one PE, to see longer inputs. *)
Definition big_array : OpArray :=
  {| inner := {| data := {| mem_len := 16000; my_pe := 0; num_pes := 1 |}; distribution := Cyclic;
                 orig_elem_per_pe := elem_per_pe 2000 1; elem_size := 8; offset := 0; size := 2000 |};
     array_ty := NativeAtomicArray; optypes := all_ops |}.

(** A batch of several indices and several values. *)
Definition big_batch (n m : nat) : outcome (Launched * nat) :=
  initiate 0 default_env big_array (T := int u64) Store RetNone
    (InVec (map (fun k => Int (Z.of_nat k)) (seq 0 m))) (InVec (map Z.of_nat (seq 0 n))).

(** With 999 indices and 1000 values the caller waits forever: the indices are one
    piece and the values four, only one task is submitted, and the caller waits for
    four. *)
Theorem unequal_lengths_wait :
  exists L, big_batch 999 1000 = Done (L, 1000%nat) /\ length (tasks L) = 1%nat /\ num_reqs L = 4%nat
    /\ forall o, joins L o -> o = Done None.
Proof.
  destruct (big_batch 999 1000) as [[L n]|] eqn:E; [|by vm_compute in E].
  assert (Hn : match big_batch 999 1000 with
               | Done (L, n) => (n, map (fun t => match t with Done _ => true | Panic => false end) (tasks L), num_reqs L)
               | Panic => (0, [], 0)%nat end = (1000%nat, [true], 4%nat))
    by (vm_compute; reflexivity).
  rewrite E in Hn. injection Hn as -> Ht Hr. exists L.
  destruct (tasks L) as [|[t|] [|t' ts]] eqn:Etl; try done. split_and!; [done | done | done |].
  intros o Ho. inversion Ho as [order Hord Hle| |Hp]; subst; rewrite Etl in *; [|done|].
  - exfalso. apply Permutation_length in Hord. cbn in Hord. lia.
  - by apply list_elem_of_singleton in Hp.
Qed.

(** The value that goes to the operation at position [j] of the input. *)
Definition value_at (j : nat) (L : Launched) : option Z :=
  head (omap (fun '(p, iv) => if (p =? j)%nat then Some (val (snd iv)) else None)
             (concat (map (fun r => zip (req_pos r) (am_ops (T := int u64) (req_am r)))
                          (concat (completed (tasks L)))))).

(** With 1000 indices and 1200 values the index at position 250 gets the value at
    position 300: both inputs are cut into four pieces, and it is the pieces that are
    truncated to the same length. *)
Theorem unequal_lengths_mispair :
  match big_batch 1000 1200 with
  | Done (L, n) => n = 1200%nat /\ map (fun j => value_at j L) [0; 249; 250; 999]%nat
                                  = [Some 0; Some 249; Some 300; Some 1149]
  | Panic => False
  end.
Proof. vm_compute. split; reflexivity. Qed.
End Example.
